(* ===== verification/_CoqProject ===== *)
-Q . S2P
Prelude.v
Buffer.v
Vle.v
Codec.v
WirePrim.v
WireTransport.v
WireNetwork.v
KeyExpr.v
KeyExprSpec.v
Framing.v
Transport.v
ReassemblerSpec.v
SessionReader.v
Delivery.v
Matching.v
Collector.v
Sha3.v
Handshake.v
Session.v
Lifecycle.v
Reconnect.v
Dispatch.v
Consolidation.v
Encodings.v
SessionSpec.v
Messages.v
Multicast.v
MulticastTable.v
MulticastDelivery.v
MulticastGroup.v
MulticastSession.v
Json5.v
Json5Spec.v
Json5Grammar.v
Config.v
ConfigSpec.v
Handler.v
Writer.v
Outbound.v
Entities.v
EntitiesSpec.v
Declarations.v
Replay.v
Publish.v
Queries.v
QueryableRun.v
Locator.v
PeerLink.v
Scouting.v
ScoutRun.v
Reconnecting.v
Sockets.v
Links.v
Supervise.v
Listeners.v
GetRun.v
GetBudget.v
PeerMode.v
MulticastRun.v
EndToEnd.v
Cancel.v
SessionApi.v
