(* ===== verification/Prelude.v ===== *)
(** * zenoh-go-client: a verification of the protocol core

    zenoh-go-client is a Go client for the Zenoh protocol.  A session joins a
    router or a peer over a link (TCP, UDP multicast), exchanges INIT and OPEN
    messages, and then sends and receives batches of transport messages, which
    carry network messages: publications (PUSH), queries (REQUEST, RESPONSE),
    declarations (DECLARE) and interests (INTEREST).  This library models the
    layers between the bytes of a link and the callbacks of the user, and
    proves that they do what they are for.

    ** The program and the files

    The sources are under src/internal unless said otherwise; each file here
    models one component.

    - [Prelude]: bytes, errors, results, the monads of encoders ([stm]) and of
      code whose effects survive an error ([sem]), [by_range], [by_eval].
    - [Buffer] (codec/buffer.go): [Writer], [Reader], and the four notions the
      codecs are proved with: [writes], [decodes], [consumes], [no_fuel_err],
      each with a hint database.
    - [Vle] (codec/vle.go): variable-length integers.
    - [Codec] (codec/header.go, primitives.go, ext.go, framing.go): headers,
      byte strings, extension chains, length-prefixed batches.
    - [Framing]: the contract of the length-prefixed stream.
    - [WirePrim] (wire/ids.go, zid.go, qos.go, resolution.go, timestamp.go,
      encoding.go, wireexpr.go): the value types of messages.
    - [WireTransport] (wire/init.go, open.go, frame.go, ...): transport and
      scouting messages, and the class [WireMessage], the interface of every
      self-delimiting message: its identifier, header, decoder and laws.
    - [WireNetwork] (wire/push.go, request.go, response.go, declare.go,
      interest.go, data.go): network messages, further instances of the class.
    - [KeyExpr] (keyexpr/): validation, canonisation, intersection, inclusion.
    - [KeyExprSpec]: the set of keys an expression denotes, and the theorems
      that relate the algorithms to it.
    - [Transport] (transport/batcher.go, fragmenter.go, reassembler.go): the
      sixteen lanes of the batcher, fragments, reassembly.
    - [ReassemblerSpec]: what the reassembler guarantees on any input.
    - [SessionReader] (session/reader.go): the loops over a received batch,
      with the dispatcher as a parameter.
    - [Delivery]: [Transport] and [SessionReader] composed, for any dispatcher
      that satisfies [handled].
    - [Matching] (session/matching.go): the registry of matching listeners.
    - [Collector] (session/get_collector.go and the liveliness Gets): channels
      and the registry of Gets in flight, as sequences of atomic steps.
    - [Sha3] (Go's crypto/sha3): SHAKE-128.
    - [Handshake] (session/handshake.go, handshake_responder.go,
      initial_sn.go): both sides as processes, and their network.
    - [Session] (session/session.go, aliases.go, subscriber.go, queryable.go,
      liveliness.go, ids.go, state.go): the record of a session's registries
      and their operations; a callback is an event of [s_out].
    - [Lifecycle] (session/state.go, run.go, session.go): the state machine as
      goroutines interleaved at every atomic operation.
    - [Reconnect] (session/session.go, backoff.go): the registry of runtimes,
      the backoff with binary64 arithmetic.
    - [Dispatch] (session/dispatch.go): the handlers, and the theorem that
      composes all layers.
    - [Consolidation] (src/zenoh/get.go): the translators between the raw
      replies of a Get and the user.
    - [GetRun] (src/zenoh/get.go, liveliness.go): the goroutines of a Get, its
      translator between full and empty channels, its watcher and its user;
      [GetBudget] the same behind the goroutine that enforces a budget.
    - [Encodings] (src/zenoh/encoding.go): encodings as strings.
    - [Writer] (session/writer.go, keepalive.go, close.go): the writer
      goroutine over the batcher, interleaved with senders and signals.
    - [Multicast] (session/multicast_peer.go): the peer table, the handling of
      a datagram, JOINs; [MulticastTable], [MulticastDelivery] and
      [MulticastGroup] hold its invariants, [MulticastSession]
      (session/multicast_dispatch.go) the dispatcher and the group theorem,
      [MulticastRun] the goroutines of a multicast runtime and the session
      that closes it (src/zenoh/session_peer.go, session.go).
    - [Json5] (src/zenoh/json5.go): the parser; [Json5Spec] its termination,
      [Json5Grammar] the documents it reads.
    - [Config] (src/zenoh/config.go): the handler trees and the walker;
      [ConfigSpec] what a configuration document means.
    - [Handler] (src/zenoh/handler.go, subscriber.go): the three kinds of
      receiver and the teardown of a subscription.
    - [SessionSpec]: which callbacks a message reaches.
    - [Messages]: the round trips of all messages.
    - [Outbound] (src/zenoh/put.go): handing an encoded message to every
      transport, step by step among other senders, writers and links.
    - [Entities] (src/zenoh/subscriber.go, queryable.go, querier.go,
      publisher.go, liveliness.go, session.go): Declare, Drop and the replay
      of entities on a new link, over any network that carries messages;
      [EntitiesSpec] what they promise, [Declarations] a session call after
      call, [Replay] the same with the calls interleaved.
    - [Publish] (src/zenoh/put.go, query.go, get.go): Put, Delete, replies and
      Gets, up to the receiving session.
    - [Queries] (src/zenoh/queryable.go): several queryables that answer one
      request; [QueryableRun] the goroutine of one queryable and its Drop.
    - [Listeners] (src/zenoh/matching.go): the handlers of matching listeners
      between Drop, the end of their parent and deliveries.
    - [EndToEnd] (session/reader.go, src/zenoh/session.go): one link with the
      writer goroutine at one end and the reader goroutine at the other;
      without QoS the lanes of the sender meet in one lane of the receiver.
    - [Locator] (locator/locator.go, session/dialer.go): locator strings.
    - [PeerLink] (src/zenoh/session_peer.go): the choice between the links of
      two peers, as a mesh of nodes.
    - [PeerMode] (src/zenoh/session_peer.go, session.go): Open and Close of a
      session of peers, with all the goroutines they start and wait for.
    - [Scouting] (scout/scout.go, src/zenoh/scout.go): HELLOs and what is done
      with them; [ScoutRun] the goroutines of a scouter; [Sockets]
      (multicast/socket.go) the sockets it works on.
    - [Links] (transport/link.go, stubs.go, tcp.go, udp_multicast.go): the
      registries of dialers and listeners, the calls of Accept with the
      goroutines that wake them, the sockets of a multicast link.
    - [Supervise] (session/run.go, watchdog.go, src/zenoh/put.go): the
      goroutines of a runtime, its shutdown, its lease watchdog; the reader
      sends from its handlers and may wait for room in a queue there.
    - [Reconnecting] (src/zenoh/session.go): the reconnect loop and Close.
    - [SessionApi] (src/zenoh/session.go, linkinfo.go, error.go, common.go):
      the settings of Open, what a session reports of itself, public errors.
    - [Cancel] (src/zenoh/cancellation_token_unstable.go, get.go, session.go):
      the tree of contexts, CancellationToken, merged contexts.

    ** How the models follow the code

    A Go [[]byte] or [string] is a list of integers; conversions to fixed
    widths are written out ([uint8] to [uint64]).  An error is a value
    ([error]), with the sentinels [errors.Is] looks for as constructors;
    formatted arguments of messages are dropped, and so is logging.  Encoders
    are [WM], decoders [RM].  A mutex-protected operation is one step.  A Go
    map is a [gmap]; where the code walks a map in an unspecified order the
    model takes one order and the theorems do not depend on it.  Goroutines
    that share more than that are step relations over their shared state
    ([Lifecycle], [Handshake], [Handler], [Writer], [Outbound], [Replay],
    [Queries], [PeerLink], [Listeners], [Supervise], [Reconnecting],
    [GetRun], [GetBudget], [PeerMode], [MulticastRun], [Links], [ScoutRun],
    [QueryableRun]); a [select] and a timer are choices of the step.  A callback
    runs in the code as part of the handler; its effects on the session, if it
    calls back, are not modelled, except that the final of a query without a
    queryable, which the reader itself sends, may block it ([Supervise],
    [Reconnecting], [PeerMode]); a callback of the user's own that blocks is
    not modelled.

    ** What the theorems show

    - The codecs: every well-formed message decodes to itself and nothing is
      read beyond its end; decoders are safe on arbitrary bytes ([Messages],
      [Vle], [Framing]).
    - Key expressions: [Intersects] is exact, [Includes] is sound, and complete
      when the right side has no [**]; canonisation preserves the set of keys
      and is idempotent ([KeyExprSpec]).
    - Transport: batches respect the negotiated size, lanes keep their order,
      reassembly gives back messages and is bounded ([Transport],
      [ReassemblerSpec]).
    - End to end: what one session enqueues, the other session handles
      ([Dispatch.session_to_session]), with or without QoS, as long as no
      message exceeds what the receiver reassembles; whatever the goroutines of
      the writer and its senders do, through the byte stream, and up to the farewell of a
      graceful Close ([EndToEnd]).
    - Handshake: both sides terminate and agree under every interleaving.
    - Session: deliveries reach exactly the matching entities, queries are
      finalised once, aliases are snapshots ([SessionSpec]); matching listeners
      know whether a declaration on record meets their interest, and the record
      is what the history of declarations left ([Matching]); Get channels are never misused
      ([Collector]); handlers never fail on decoded messages ([Dispatch]).
    - Replies: what each consolidation mode delivers, whenever the Get is
      cancelled, and that its goroutines and channels all end
      ([Consolidation], [GetRun], [GetBudget]); encodings survive their string form
      ([Encodings]).
    - Multicast: a receiver in a group handles every member's messages in the
      order of its sending, if no datagram exceeds the 8192 bytes of its
      buffer; whatever else arrives the read loop survives, and leases expire when they should ([MulticastSession], [MulticastTable]);
      Close ends every goroutine of a runtime ([MulticastRun]).
    - The writer: what is on the link at any time, and that it stops
      ([Writer]).
    - Configuration: the parser terminates and reads every document of a
      grammar that has its own tables of values, and the walker gives each field its value whatever the order
      of the maps ([Json5Spec], [Json5Grammar], [ConfigSpec]).
    - Receivers: what each kind keeps and loses, and that no value is sent to
      a handler that was dropped ([Handler]).
    - Lifecycle: allowed transitions, finality of Close, one runtime at a time,
      no spinning ([Lifecycle], [Reconnect]).
    - Sending: what a call that returns has tried, when it may wait
      ([Outbound]); what a publication, a reply and a Get become at the other
      session ([Publish]); one final per query, after all replies ([Queries]).
    - Declarations: whatever the calls, links and reconnections, each open
      link holds exactly the entities of the user ([Declarations]), and none
      is lost when the calls interleave with replays ([Replay]).
    - Peers: two nodes keep one link, whatever the order of events
      ([PeerLink]); a scouter reports each node once and ends ([ScoutRun]) and leaves no
      socket open ([Sockets]); locators are those of a grammar ([Locator]); an
      Accept returns for the reason it gives and does not outlive its context
      ([Links]).
    - Runtimes: nothing is closed twice, the end of the link, a call or the
      lease ends every goroutine ([Supervise]); a lost link is replaced and
      Close returns, but for one window and for handshakes the peer does not
      answer ([Reconnecting], [PeerMode]).  All this fails when the reader waits
      for room in a send queue that nobody empties: the theorems say so, and
      [Supervise.shutdown_hangs], [Reconnecting.close_waits_for_reader] and
      [PeerMode.peer_close_waits_for_reader] are such runs.
    - Matching listeners: every handler is dropped once, and nothing is
      delivered to it later ([Listeners]).

    ** Bounds and fuel

    Loops without a structural measure take fuel.  The decoders' loops get the
    number of unread bytes plus one, and each iteration reads a byte
    ([no_fuel_err] of every decoder, [Dispatch.processBatch_terminates]).  The
    fragmenter gets the length of the message
    ([Transport.Fragment_loop_fuel]).  The loops of [chunkIntersect] and
    [ltrIncludes] get a bound on the two lengths
    ([KeyExpr.chunkIntersect_loop_total], [KeyExpr.ltrIncludes_loop_total]);
    the inner loop of [canonize] needs three rounds
    ([KeyExprSpec.append_chunk_ok]).  The datagram loop of multicast gets the
    length of the datagram plus one; the JSON5 parser the length of the text
    plus one, for its nesting, and each of its loops one more than the bytes
    left ([Json5Spec.parseJSON5_terminates]).

    The reconnect loop, Close, the goroutines of a runtime and those of a Get,
    of a multicast runtime and of peer mode take no fuel: their theorems bound the
    length of every run by a rank.

    ** What is not modelled

    Sockets and files beyond the calls that open and close them; clocks, which
    appear as the times of events, or as ticks that may come at any time;
    random numbers, which are arguments; logging, the texts made for it, and
    panics that a [recover] guards.  A context is a tree in [Cancel], and
    elsewhere a flag that an event sets.  The wrappers and accessors of the
    public types (ZBytes, KeyExpr, Sample) are the values themselves.  The
    example programs and the test proxy are left out. *)
From stdpp Require Export base tactics option list gmap strings.
From Stdlib Require Export ZArith Lia.
#[global] Open Scope Z_scope.

(** * Bytes and Go strings

    A Go [byte] is an integer in [0, 256); a [[]byte] and a Go [string] are
    both lists of bytes.  [str] turns an ASCII literal into Go string bytes. *)

Abbreviation byte := Z (only parsing).
Abbreviation bytes := (list Z) (only parsing).

Fixpoint str (s : string) : bytes :=
  match s with
  | EmptyString => []
  | String c s' => Z.of_N (Ascii.N_of_ascii c) :: str s'
  end.

Definition is_byte (b : Z) : Prop := 0 <= b < 256.

(** Conversions to fixed-width unsigned integers wrap around. *)
Definition uint8 (v : Z) : Z := v mod 2 ^ 8.
Definition uint16 (v : Z) : Z := v mod 2 ^ 16.
Definition uint32 (v : Z) : Z := v mod 2 ^ 32.
Definition uint64 (v : Z) : Z := v mod 2 ^ 64.
(** The two's complement reading of the low 64 bits. *)
Definition int64 (v : Z) : Z := (v + 2 ^ 63) mod 2 ^ 64 - 2 ^ 63.

(** * Errors and results

    [ErrWrap ctx e] is [fmt.Errorf("ctx: %w", e)], [ErrMsg s] is an error
    without a wrapped cause.  Formatted arguments of messages are dropped. *)

Inductive error :=
  | ErrUnexpectedEOF
  | ErrOverflow
  | ErrBatchTooLarge
  | ErrReassemblyTooLarge
  | ErrReassemblySNGap
  | ErrIOEOF
  | ErrIOUnexpectedEOF
  | ErrCloseReason (reason : Z)
  | ErrMsg (s : string)
  | ErrWrap (ctx : string) (e : error)
  | ErrFuel.

#[export] Instance error_eq_dec : EqDecision error.
Proof. solve_decision. Defined.

(** [errors.Is(e, target)] for a sentinel [target]. *)
Fixpoint errors_is (e target : error) : bool :=
  bool_decide (e = target) ||
  match e with ErrWrap _ e' => errors_is e' target | _ => false end.

Inductive result (A : Type) :=
  | Ok (a : A)
  | Err (e : error).
Arguments Ok {A} a.
Arguments Err {A} e.

#[export] Instance result_ret : MRet result := fun A a => Ok a.
#[export] Instance result_bind : MBind result := fun A B f m =>
  match m with Ok a => f a | Err e => Err e end.
#[export] Instance result_fmap : FMap result := fun A B f m =>
  match m with Ok a => Ok (f a) | Err e => Err e end.

Definition is_ok {A} (r : result A) : bool :=
  match r with Ok _ => true | Err _ => false end.

(** * The state-and-error monad

    Encoders run over a Writer, decoders over a Reader; an error aborts. *)

Definition stm (S A : Type) := S -> result (A * S).

#[export] Instance stm_ret S : MRet (stm S) := fun A a s => Ok (a, s).
#[export] Instance stm_bind S : MBind (stm S) := fun A B f m s =>
  match m s with Ok (a, s') => f a s' | Err e => Err e end.
#[export] Instance stm_fmap S : FMap (stm S) := fun A B f m s =>
  match m s with Ok (a, s') => Ok (f a, s') | Err e => Err e end.

Definition throw {S A} (e : error) : stm S A := fun _ => Err e.

(** The same with the state kept when an error is returned, for code whose
    effects before a failing call remain. *)
Definition sem (S A : Type) := S -> result A * S.

#[export] Instance sem_ret S : MRet (sem S) := fun A a s => (Ok a, s).
#[export] Instance sem_bind S : MBind (sem S) := fun A B f m s =>
  match m s with (Ok a, s') => f a s' | (Err e, s') => (Err e, s') end.

(** A Go [error] result: [None] is [nil]. *)
Definition of_error (e : option error) : result unit :=
  match e with None => Ok tt | Some e => Err e end.

(** [wrap ctx m] is [m] with its error wrapped by [fmt.Errorf("ctx: %w")]. *)
Definition wrap {S A} (ctx : string) (m : stm S A) : stm S A := fun s =>
  match m s with Ok r => Ok r | Err e => Err (ErrWrap ctx e) end.

(** [when b m] runs [m] only when the flag is set ([if b { ... }]). *)
Definition when {S} (b : bool) (m : stm S unit) : stm S unit :=
  if b then m else mret ().

(** [guard_err b e] fails with [e] when the guard [b] holds
    ([if b { return err }]). *)
Definition guard_err {S} (b : bool) (e : error) : stm S unit :=
  if b then throw e else mret ().

Arguments throw : simpl never.
Arguments wrap : simpl never.
Arguments guard_err : simpl never.
Arguments when : simpl never.

Section StmLaws.
Context {S A B : Type}.
Implicit Types (m : stm S A) (k : A -> stm S B).

Lemma stm_bind_Ok m k s r :
  (m ≫= k) s = Ok r <-> exists a s', m s = Ok (a, s') /\ k a s' = Ok r.
Proof.
  unfold mbind, stm_bind. destruct (m s) as [[a s']|e]; naive_solver.
Qed.

Lemma stm_bind_step m k s a s' : m s = Ok (a, s') -> (m ≫= k) s = k a s'.
Proof. unfold mbind, stm_bind. by intros ->. Qed.

Lemma stm_bind_err m k s e : m s = Err e -> (m ≫= k) s = Err e.
Proof. unfold mbind, stm_bind. by intros ->. Qed.

Lemma wrap_Ok ctx m s r : wrap ctx m s = Ok r <-> m s = Ok r.
Proof. unfold wrap. destruct (m s); naive_solver. Qed.
End StmLaws.

(** * Exhaustive checks over small integer ranges *)

Definition Zrange (n : nat) : list Z := Z.of_nat <$> seq 0 n.

Lemma elem_of_Zrange n x : 0 <= x < Z.of_nat n -> x ∈ Zrange n.
Proof.
  intros Hx. apply list_elem_of_fmap. exists (Z.to_nat x).
  split; [lia|]. apply elem_of_seq. lia.
Qed.

(** Every [x] below [n] satisfies a boolean predicate checked by computation. *)
Lemma elem_of_Zrange_inv n x : x ∈ Zrange n -> 0 <= x < Z.of_nat n.
Proof.
  unfold Zrange. intros (i & -> & Hi)%list_elem_of_fmap. apply elem_of_seq in Hi. lia.
Qed.

Lemma Zrange_forallb (n : nat) (f : Z -> bool) :
  forallb f (Zrange n) = true -> forall x, 0 <= x < Z.of_nat n -> f x = true.
Proof.
  intros Hf x Hx. rewrite forallb_forall in Hf. apply Hf.
  apply list_elem_of_In. by apply elem_of_Zrange.
Qed.

(** The same for a decidable proposition; [by_range n] closes a goal
    [forall x, 0 <= x < n -> P x] by evaluating [P] everywhere. *)
Lemma Zrange_dec (n : nat) (P : Z -> Prop) `{forall x, Decision (P x)} :
  forallb (fun x => bool_decide (P x)) (Zrange n) = true ->
  forall x, 0 <= x < Z.of_nat n -> P x.
Proof.
  intros Hf x Hx. pose proof (Zrange_forallb n _ Hf x Hx) as Hx'.
  by apply bool_decide_eq_true_1 in Hx'.
Qed.

Ltac by_range n :=
  match goal with
  | |- forall x, 0 <= x < _ -> @?P x =>
      refine (Zrange_dec n P _); vm_compute; reflexivity
  end.

(** * Bit-level facts on Z *)

Lemma land_shiftl_disjoint a b n :
  0 <= a < 2 ^ n -> 0 <= n -> Z.land a (Z.shiftl b n) = 0.
Proof.
  intros Ha Hn. apply Z.bits_inj'. intros i Hi.
  rewrite Z.land_spec, Z.bits_0, Z.shiftl_spec by lia.
  destruct (decide (i < n)).
  - rewrite (Z.testbit_neg_r b) by lia. apply andb_false_r.
  - rewrite <- (Z.mod_small a (2 ^ n)) by lia.
    rewrite Z.mod_pow2_bits_high by lia. reflexivity.
Qed.

Lemma lor_shiftl_add a b n :
  0 <= a < 2 ^ n -> 0 <= n -> Z.lor a (Z.shiftl b n) = a + b * 2 ^ n.
Proof.
  intros Ha Hn. pose proof (land_shiftl_disjoint a b n Ha Hn) as Hd.
  rewrite <- Z.shiftl_mul_pow2 by lia.
  by rewrite Z.add_nocarry_lxor, Z.lxor_lor.
Qed.

Lemma land_ones_mod a n : 0 <= n -> Z.land a (2 ^ n - 1) = a mod 2 ^ n.
Proof.
  intros Hn. rewrite <- Z.land_ones by lia. f_equal.
  rewrite Z.ones_equiv. lia.
Qed.

(** * Concrete instances

    [by_eval] closes a conjunction of decidable facts about closed terms by
    evaluating them. *)
Ltac by_eval :=
  hnf;
  match goal with
  | |- True => exact I
  | |- _ /\ _ => split; by_eval
  | |- Forall _ _ => first [apply Forall_nil; exact I | apply Forall_cons; split; by_eval]
  | |- _ = _ => vm_compute; reflexivity
  | |- _ \/ _ => first [left; by_eval | right; by_eval]
  | |- _ -> False =>
      let H := fresh in intros H; first [vm_compute in H; discriminate H | by_eval]
  | |- forall _, _ => let x := fresh in intros x; first [vm_compute in x; discriminate x | by_eval]
  | |- _ => first [exact I | lia | constructor; by_eval]
  end.

(** * Sums over a list with one element changed, and small integers *)

Lemma sum_list_insert {A} (f : A -> nat) (l : list A) i x y : l !! i = Some x ->
  (sum_list_with f (<[i := y]> l) + f x = sum_list_with f l + f y)%nat.
Proof.
  revert i. induction l as [|z l IH]; intros [|i] H; simplify_eq/=; [lia|].
  specialize (IH i H). lia.
Qed.

Lemma int64_small v : - 2 ^ 63 <= v < 2 ^ 63 -> int64 v = v.
Proof. intros H. unfold int64. rewrite Z.mod_small by lia. lia. Qed.
