(* ===== verification/Buffer.v ===== *)
(** * internal/codec/buffer.go: the Writer and the Reader

    The append-only [Writer], the [Reader] cursor over a byte slice, and the
    two relations every wire codec of the development is stated with:
    [consumes n m] (a decoder stays inside its buffer and advances by at least
    [n] bytes) and [codec_ok enc dec v] (the encoder always succeeds, and the
    decoder run on its output, followed by anything, gives [v] back and stops
    exactly at the end of that output). *)
From S2P Require Import Prelude.

Record Writer := mkWriter { w_buf : bytes }.
Record Reader := mkReader { r_buf : bytes; r_off : nat }.

Abbreviation WM := (stm Writer).
Abbreviation RM := (stm Reader).

(** ** Writer *)

Definition NewWriter : Writer := mkWriter [].
Definition WriterFromSlice (buf : bytes) : Writer := mkWriter buf.
Definition Writer_Bytes (w : Writer) : bytes := w_buf w.
Definition Writer_Len (w : Writer) : nat := length (w_buf w).
Definition Writer_Reset (w : Writer) : Writer := mkWriter [].

Definition AppendBytes (p : bytes) : WM unit :=
  fun w => Ok (tt, mkWriter (w_buf w ++ p)).
Definition AppendByte (b : byte) : WM unit := AppendBytes [b].
(** [append(w.buf, byte(v), byte(v>>8))] *)
Definition AppendU16LE (v : Z) : WM unit :=
  AppendBytes [uint8 v; uint8 (Z.shiftr v 8)].

(** ** Reader *)

Definition NewReader (buf : bytes) : Reader := mkReader buf 0.
Definition Reader_Len (r : Reader) : nat := length (r_buf r) - r_off r.
Definition Reader_Bytes (r : Reader) : bytes := drop (r_off r) (r_buf r).
Definition Offset (r : Reader) : nat := r_off r.
Definition advance (r : Reader) (n : nat) : Reader :=
  mkReader (r_buf r) (r_off r + n).

Definition ReadByte : RM byte := fun r =>
  match r_buf r !! r_off r with
  | None => Err ErrUnexpectedEOF
  | Some b => Ok (b, advance r 1)
  end.

Definition PeekByte : RM byte := fun r =>
  match r_buf r !! r_off r with
  | None => Err ErrUnexpectedEOF
  | Some b => Ok (b, r)
  end.

Definition ReadN (n : Z) : RM bytes := fun r =>
  if n <? 0 then Err (ErrMsg "codec: negative read length")
  else if Z.of_nat (r_off r) + n >? Z.of_nat (length (r_buf r))
  then Err ErrUnexpectedEOF
  else Ok (take (Z.to_nat n) (Reader_Bytes r), advance r (Z.to_nat n)).

Definition Skip (n : Z) : RM unit := fun r =>
  if n <? 0 then Err (ErrMsg "codec: negative skip length")
  else if Z.of_nat (r_off r) + n >? Z.of_nat (length (r_buf r))
  then Err ErrUnexpectedEOF
  else Ok (tt, advance r (Z.to_nat n)).

Definition SubReader (n : Z) : RM Reader :=
  b ← ReadN n; mret (NewReader b).

(** [uint16(b[0]) | uint16(b[1])<<8] *)
Definition ReadU16LE : RM Z :=
  b ← ReadN 2;
  mret (Z.lor (nth 0 b 0) (Z.shiftl (nth 1 b 0) 8)).

(** Reading the cursor without moving it. *)
Definition get_reader : RM Reader := fun r => Ok (r, r).

(** Reading all that is left: [r.Bytes()] then [r.Skip(r.Len())]. *)
Definition ReadRest : RM bytes :=
  r ← get_reader;
  _ ← Skip (Z.of_nat (Reader_Len r));
  mret (Reader_Bytes r).

(** [codec.Encoder]: a message that serialises itself into a Writer. *)
Class Encoder (T : Type) := EncodeTo : T -> WM unit.

Arguments AppendByte : simpl never.
Arguments AppendBytes : simpl never.
Arguments AppendU16LE : simpl never.
Arguments ReadByte : simpl never.
Arguments PeekByte : simpl never.
Arguments ReadN : simpl never.
Arguments Skip : simpl never.
Arguments ReadU16LE : simpl never.
Arguments ReadRest : simpl never.

(** ** Specifications *)

Definition reader_wf (r : Reader) : Prop := (r_off r <= length (r_buf r))%nat.

Definition consumes {A} (n : nat) (m : RM A) : Prop :=
  forall r a r', reader_wf r -> m r = Ok (a, r') ->
  r_buf r' = r_buf r /\ (r_off r + n <= r_off r')%nat /\ reader_wf r'.

(** The encoder appends exactly [e]. *)
Definition writes (m : WM unit) (e : bytes) : Prop :=
  forall w, m w = Ok (tt, mkWriter (w_buf w ++ e)).

(** The decoder turns a prefix [e] of the unread bytes into [v]. *)
Definition decodes {A} (m : RM A) (v : A) (e : bytes) : Prop :=
  forall r rest, reader_wf r -> Reader_Bytes r = e ++ rest ->
  m r = Ok (v, advance r (length e)).

(** The decoder turns the whole unread input [e] into [v]. *)
Definition decodes_all {A} (m : RM A) (v : A) (e : bytes) : Prop :=
  forall r, reader_wf r -> Reader_Bytes r = e ->
  m r = Ok (v, advance r (length e)).

Definition codec_ok {A} (enc : WM unit) (dec : RM A) (v : A) : Prop :=
  exists e, writes enc e /\ decodes dec v e.

Definition codec_ok_all {A} (enc : WM unit) (dec : RM A) (v : A) : Prop :=
  exists e, writes enc e /\ decodes_all dec v e.

(** The decoder never runs out of the fuel of the loops it contains. *)
Definition no_fuel_err {A} (m : RM A) : Prop :=
  forall r e, reader_wf r -> m r = Err e -> errors_is e ErrFuel = false.

Create HintDb consumes.
Create HintDb no_fuel.
Create HintDb codec.

(** *** Cursor lemmas *)

Lemma advance_0 r : advance r 0 = r.
Proof. destruct r. unfold advance. cbn. f_equal. lia. Qed.

Lemma advance_advance r n m : advance (advance r n) m = advance r (n + m).
Proof. unfold advance. cbn. f_equal. lia. Qed.

Lemma Reader_Bytes_advance r n : Reader_Bytes (advance r n) = drop n (Reader_Bytes r).
Proof. unfold Reader_Bytes, advance. cbn. by rewrite drop_drop. Qed.

Lemma Reader_Bytes_length r : length (Reader_Bytes r) = Reader_Len r.
Proof. unfold Reader_Bytes, Reader_Len. apply length_drop. Qed.

Lemma Reader_Bytes_app r e rest :
  Reader_Bytes r = e ++ rest -> Reader_Bytes (advance r (length e)) = rest.
Proof. intros H. by rewrite Reader_Bytes_advance, H, drop_app_length. Qed.

Lemma Reader_Bytes_NewReader b : Reader_Bytes (NewReader b) = b.
Proof. reflexivity. Qed.

Lemma reader_wf_NewReader b : reader_wf (NewReader b).
Proof. unfold reader_wf. cbn. lia. Qed.

Lemma reader_wf_advance r e rest :
  reader_wf r -> Reader_Bytes r = e ++ rest -> reader_wf (advance r (length e)).
Proof.
  unfold reader_wf. intros Hw H. pose proof (f_equal length H) as Hl.
  rewrite Reader_Bytes_length, length_app in Hl. unfold Reader_Len in Hl.
  cbn. lia.
Qed.

(** *** [consumes] *)

Lemma consumes_ret {A} (v : A) : consumes 0 (mret v : RM A).
Proof. intros r a r' Hw [= <- <-]. repeat split; [lia|done]. Qed.

Lemma consumes_throw {A} n e : consumes n (throw e : RM A).
Proof. intros r a r' _ [=]. Qed.

Lemma consumes_guard b e : consumes 0 (guard_err b e : RM unit).
Proof. unfold guard_err. destruct b; [apply consumes_throw|apply consumes_ret]. Qed.

Lemma consumes_bind {A B} n1 n2 (m : RM A) (k : A -> RM B) :
  consumes n1 m -> (forall a, consumes n2 (k a)) -> consumes (n1 + n2) (m ≫= k).
Proof.
  intros Hm Hk r b r' Hw H. apply stm_bind_Ok in H as (a & r1 & H1 & H2).
  destruct (Hm _ _ _ Hw H1) as (E1 & L1 & W1).
  destruct (Hk _ _ _ _ W1 H2) as (E2 & L2 & W2).
  repeat split; [congruence|lia|done].
Qed.

Lemma consumes_bind_l {A B} n (m : RM A) (k : A -> RM B) :
  consumes n m -> (forall a, consumes 0 (k a)) -> consumes n (m ≫= k).
Proof. intros. rewrite <- (Nat.add_0_r n). by apply consumes_bind. Qed.

Lemma consumes_bind_r {A B} n (m : RM A) (k : A -> RM B) :
  consumes 0 m -> (forall a, consumes n (k a)) -> consumes n (m ≫= k).
Proof. intros. by apply (consumes_bind 0 n). Qed.

Lemma consumes_weaken {A} n n' (m : RM A) :
  consumes n m -> (n' <= n)%nat -> consumes n' m.
Proof.
  intros Hm Hn r a r' Hw H. destruct (Hm _ _ _ Hw H) as (?&?&?).
  repeat split; [done|lia|done].
Qed.

Lemma consumes_wrap {A} n ctx (m : RM A) : consumes n m -> consumes n (wrap ctx m).
Proof. intros Hm r a r' Hw H. apply wrap_Ok in H. eauto. Qed.

Lemma consumes_if {A} n (b : bool) (m1 m2 : RM A) :
  consumes n m1 -> consumes n m2 -> consumes n (if b then m1 else m2).
Proof. by destruct b. Qed.

Lemma consumes_ReadByte : consumes 1 ReadByte.
Proof.
  intros r a r' Hw. unfold ReadByte.
  destruct (r_buf r !! r_off r) eqn:E; [|done]. intros [= <- <-].
  apply lookup_lt_Some in E. unfold advance, reader_wf. cbn.
  repeat split; lia.
Qed.

Lemma consumes_PeekByte : consumes 0 PeekByte.
Proof.
  intros r a r' Hw. unfold PeekByte.
  destruct (r_buf r !! r_off r); [|done]. intros [= <- <-]. split_and!; [done|lia|done].
Qed.

Lemma consumes_ReadN n : consumes 0 (ReadN n).
Proof.
  intros r a r' Hw. unfold ReadN.
  destruct (Z.ltb_spec n 0); [done|].
  destruct (Z.gtb_spec (Z.of_nat (r_off r) + n) (Z.of_nat (length (r_buf r)))); [done|].
  intros [= <- <-]. unfold advance, reader_wf. cbn. repeat split; lia.
Qed.

Lemma consumes_Skip n : consumes 0 (Skip n).
Proof.
  intros r a r' Hw. unfold Skip.
  destruct (Z.ltb_spec n 0); [done|].
  destruct (Z.gtb_spec (Z.of_nat (r_off r) + n) (Z.of_nat (length (r_buf r)))); [done|].
  intros [= <- <-]. unfold advance, reader_wf. cbn. repeat split; lia.
Qed.

Lemma consumes_get_reader : consumes 0 get_reader.
Proof. intros r a r' Hw [= <- <-]. split_and!; [done|lia|done]. Qed.

#[export] Hint Resolve consumes_ret consumes_throw consumes_guard consumes_wrap
  consumes_ReadByte consumes_PeekByte consumes_ReadN consumes_Skip
  consumes_get_reader : consumes.

(** Proves [consumes n m] by walking the binds of a decoder: a bind gets its
    [n] bytes from its first step when that is possible, else from the rest. *)
Ltac solve_consumes :=
  intros; cbv zeta;
  first
    [ solve [eauto 2 with consumes]
    | lazymatch goal with
      | |- consumes _ (wrap _ _) => apply consumes_wrap; solve_consumes
      | |- consumes 0 (_ ≫= _) => apply consumes_bind_l; solve_consumes
      | |- consumes _ (_ ≫= _) =>
          first [ apply consumes_bind_l; [solve [solve_consumes]|]; solve_consumes
                | apply consumes_bind_r; [solve [solve_consumes]|]; solve_consumes ]
      | |- consumes _ (match ?x with _ => _ end) => destruct x; solve_consumes
      end
    | eapply consumes_weaken; [solve [eauto 2 with consumes]|lia] ].

Lemma consumes_ReadU16LE : consumes 0 ReadU16LE.
Proof. unfold ReadU16LE. solve_consumes. Qed.
#[export] Hint Resolve consumes_ReadU16LE : consumes.

(** *** [no_fuel_err] *)

Lemma no_fuel_ret {A} (v : A) : no_fuel_err (mret v : RM A).
Proof. intros r e _ [=]. Qed.

Lemma no_fuel_throw {A} e : errors_is e ErrFuel = false -> no_fuel_err (throw e : RM A).
Proof. intros H r e' _ [= <-]. done. Qed.

Lemma no_fuel_guard b e : errors_is e ErrFuel = false -> no_fuel_err (guard_err b e : RM unit).
Proof. unfold guard_err. destruct b; [apply no_fuel_throw|intros _; apply no_fuel_ret]. Qed.

Lemma no_fuel_bind {A B} (m : RM A) (k : A -> RM B) :
  consumes 0 m -> no_fuel_err m -> (forall a, no_fuel_err (k a)) -> no_fuel_err (m ≫= k).
Proof.
  intros Hc Hm Hk r e Hw. unfold mbind, stm_bind.
  destruct (m r) as [[a r']|e'] eqn:E.
  - apply Hk. by eapply Hc.
  - intros [= <-]. by eapply Hm.
Qed.

Lemma no_fuel_wrap {A} ctx (m : RM A) : no_fuel_err m -> no_fuel_err (wrap ctx m).
Proof.
  intros Hm r e Hw. unfold wrap. destruct (m r) as [|e'] eqn:E; [done|].
  intros [= <-]. cbn. by eapply Hm.
Qed.

Lemma no_fuel_ReadByte : no_fuel_err ReadByte.
Proof. intros r e _. unfold ReadByte. destruct (_ !! _); [done|]. by intros [= <-]. Qed.
Lemma no_fuel_PeekByte : no_fuel_err PeekByte.
Proof. intros r e _. unfold PeekByte. destruct (_ !! _); [done|]. by intros [= <-]. Qed.
Lemma no_fuel_ReadN n : no_fuel_err (ReadN n).
Proof.
  intros r e _. unfold ReadN. destruct (_ <? _); [by intros [= <-]|].
  destruct (_ >? _); [by intros [= <-]|done].
Qed.
Lemma no_fuel_Skip n : no_fuel_err (Skip n).
Proof.
  intros r e _. unfold Skip. destruct (_ <? _); [by intros [= <-]|].
  destruct (_ >? _); [by intros [= <-]|done].
Qed.
Lemma no_fuel_get_reader : no_fuel_err get_reader.
Proof. intros r e _ [=]. Qed.

#[export] Hint Resolve no_fuel_ret no_fuel_ReadByte no_fuel_PeekByte no_fuel_ReadN
  no_fuel_Skip no_fuel_get_reader : no_fuel.

Ltac solve_no_fuel :=
  intros; cbv zeta;
  first
    [ solve [eauto 2 with no_fuel]
    | lazymatch goal with
      | |- no_fuel_err (throw _) => by apply no_fuel_throw
      | |- no_fuel_err (guard_err _ _) => by apply no_fuel_guard
      | |- no_fuel_err (wrap _ _) => apply no_fuel_wrap; solve_no_fuel
      | |- no_fuel_err (_ ≫= _) =>
          apply no_fuel_bind; [solve_consumes|solve_no_fuel|solve_no_fuel]
      | |- no_fuel_err (match ?x with _ => _ end) => destruct x; solve_no_fuel
      end ].

(** *** [codec_ok] *)

Lemma writes_ret : writes (mret tt : WM unit) [].
Proof. intros [w]. cbn. by rewrite app_nil_r. Qed.

Lemma writes_bind (m1 m2 : WM unit) e1 e2 :
  writes m1 e1 -> writes m2 e2 -> writes (m1 ;; m2) (e1 ++ e2).
Proof.
  intros H1 H2 w. unfold mbind, stm_bind. rewrite H1, H2. cbn.
  by rewrite app_assoc.
Qed.

Lemma writes_AppendBytes p : writes (AppendBytes p) p.
Proof. done. Qed.

Lemma decodes_ret {A} (v : A) : decodes (mret v : RM A) v [].
Proof. intros r rest _ _. cbn. by rewrite advance_0. Qed.

Lemma decodes_bind {A B} (m : RM A) (k : A -> RM B) a b e1 e2 :
  decodes m a e1 -> decodes (k a) b e2 -> decodes (m ≫= k) b (e1 ++ e2).
Proof.
  intros H1 H2 r rest Hw Hr. rewrite <- app_assoc in Hr.
  unfold mbind, stm_bind. rewrite (H1 _ _ Hw Hr).
  rewrite (H2 _ rest), advance_advance, length_app; [done| |].
  - by eapply reader_wf_advance.
  - by apply Reader_Bytes_app.
Qed.

Lemma decodes_wrap {A} ctx (m : RM A) v e : decodes m v e -> decodes (wrap ctx m) v e.
Proof. intros H r rest Hw Hr. apply wrap_Ok. eauto. Qed.

Lemma decodes_decodes_all {A} (m : RM A) v e : decodes m v e -> decodes_all m v e.
Proof. intros H r Hw Hr. apply (H r []); [done|]. by rewrite app_nil_r. Qed.

Lemma decodes_all_bind {A B} (m : RM A) (k : A -> RM B) a b e1 e2 :
  decodes m a e1 -> decodes_all (k a) b e2 -> decodes_all (m ≫= k) b (e1 ++ e2).
Proof.
  intros H1 H2 r Hw Hr. unfold mbind, stm_bind.
  rewrite (H1 _ _ Hw Hr), H2.
  - by rewrite advance_advance, length_app.
  - by eapply reader_wf_advance.
  - by apply Reader_Bytes_app.
Qed.

Section CodecOk.
Context {A B : Type}.

Lemma codec_ok_ret (v : A) : codec_ok (mret tt) (mret v) v.
Proof. exists []. split; [apply writes_ret|apply decodes_ret]. Qed.

Lemma codec_ok_bind (enc1 enc2 : WM unit) (dec : RM A) (k : A -> RM B) a b :
  codec_ok enc1 dec a -> codec_ok enc2 (k a) b ->
  codec_ok (enc1 ;; enc2) (dec ≫= k) b.
Proof.
  intros (e1 & W1 & D1) (e2 & W2 & D2). exists (e1 ++ e2).
  split; [by apply writes_bind|by eapply decodes_bind].
Qed.

(** A last field: the decoder only repackages what it read. *)
Lemma codec_ok_last (enc : WM unit) (dec : RM A) (f : A -> B) a b :
  codec_ok enc dec a -> f a = b ->
  codec_ok enc (dec ≫= fun x => mret (f x)) b.
Proof.
  intros (e & W & D) <-. exists e. split; [done|].
  rewrite <- (app_nil_r e). eapply decodes_bind; [done|apply decodes_ret].
Qed.

(** A decoder step that reads nothing. *)
Lemma codec_ok_pure (enc : WM unit) (dec : RM A) (k : A -> RM B) a b :
  decodes dec a [] -> codec_ok enc (k a) b -> codec_ok enc (dec ≫= k) b.
Proof.
  intros D (e & W & D2). exists e. split; [done|].
  change e with ([] ++ e). by eapply decodes_bind.
Qed.

(** An encoder step that writes nothing. *)
Lemma codec_ok_nop (enc : WM unit) (dec : RM A) a :
  codec_ok enc dec a -> codec_ok (mret tt ;; enc) dec a.
Proof.
  intros (e & W & D). exists e. split; [|done].
  change e with ([] ++ e). apply writes_bind; [apply writes_ret|done].
Qed.

Lemma codec_ok_wrap ctx (enc : WM unit) (dec : RM A) v :
  codec_ok enc dec v -> codec_ok enc (wrap ctx dec) v.
Proof. intros (e & W & D). exists e. split; [done|by apply decodes_wrap]. Qed.

Lemma codec_ok_wrap_enc ctx (enc : WM unit) (dec : RM A) v :
  codec_ok enc dec v -> codec_ok (wrap ctx enc) dec v.
Proof.
  intros (e & W & D). exists e. split; [|done].
  intros w. unfold wrap. by rewrite W.
Qed.

Lemma codec_ok_all_of (enc : WM unit) (dec : RM A) v :
  codec_ok enc dec v -> codec_ok_all enc dec v.
Proof. intros (e & W & D). exists e. split; [done|by apply decodes_decodes_all]. Qed.

Lemma codec_ok_all_bind (enc1 enc2 : WM unit) (dec : RM A) (k : A -> RM B) a b :
  codec_ok enc1 dec a -> codec_ok_all enc2 (k a) b ->
  codec_ok_all (enc1 ;; enc2) (dec ≫= k) b.
Proof.
  intros (e1 & W1 & D1) (e2 & W2 & D2). exists (e1 ++ e2).
  split; [by apply writes_bind|by eapply decodes_all_bind].
Qed.
End CodecOk.

Lemma ReadByte_cons r b rest :
  Reader_Bytes r = b :: rest -> ReadByte r = Ok (b, advance r 1).
Proof.
  intros H. unfold ReadByte. unfold Reader_Bytes in H.
  by rewrite <- (Nat.add_0_r (r_off r)), <- lookup_drop, H.
Qed.

(** What a decoder that reads at least [n] bytes accepts has at least [n]. *)
Lemma decodes_length {A} n (m : RM A) v e :
  consumes n m -> decodes m v e -> (n <= length e)%nat.
Proof.
  intros Hc Hd. specialize (Hd (NewReader e) [] (reader_wf_NewReader e)).
  rewrite app_nil_r in Hd. specialize (Hd eq_refl).
  apply Hc in Hd as (_ & Hlen & _); [|apply reader_wf_NewReader]. cbn in Hlen. lia.
Qed.

Lemma Reader_Bytes_cons r b rest :
  Reader_Bytes r = b :: rest -> Reader_Bytes (advance r 1) = rest.
Proof. apply (Reader_Bytes_app r [b]). Qed.

Lemma reader_wf_cons r b rest :
  reader_wf r -> Reader_Bytes r = b :: rest -> reader_wf (advance r 1).
Proof. apply (reader_wf_advance r [b]). Qed.

Lemma codec_ok_AppendByte b : codec_ok (AppendByte b) ReadByte b.
Proof.
  exists [b]. split; [done|]. intros r rest _ H. by eapply ReadByte_cons.
Qed.

Lemma decodes_ReadN n e : n = Z.of_nat (length e) -> decodes (ReadN n) e e.
Proof.
  intros -> r rest Hw Hr. unfold ReadN.
  destruct (Z.ltb_spec (Z.of_nat (length e)) 0); [lia|].
  pose proof (reader_wf_advance _ _ _ Hw Hr) as Hb. unfold reader_wf in Hb. cbn in Hb.
  destruct (Z.gtb_spec (Z.of_nat (r_off r) + Z.of_nat (length e))
    (Z.of_nat (length (r_buf r)))) as [Hgt|Hle]; [lia|].
  by rewrite Nat2Z.id, Hr, take_app_length.
Qed.

Lemma decodes_ReadN_short r n :
  reader_wf r -> Z.of_nat (Reader_Len r) < n -> ReadN n r = Err ErrUnexpectedEOF.
Proof.
  unfold reader_wf, Reader_Len, ReadN. intros Hw Hn.
  destruct (Z.ltb_spec n 0); [lia|].
  destruct (Z.gtb_spec (Z.of_nat (r_off r) + n) (Z.of_nat (length (r_buf r)))); [done|lia].
Qed.

Lemma codec_ok_AppendBytes n p :
  n = Z.of_nat (length p) -> codec_ok (AppendBytes p) (ReadN n) p.
Proof. intros Hn. exists p. split; [done|by apply decodes_ReadN]. Qed.

Lemma codec_ok_U16LE v :
  0 <= v < 2 ^ 16 -> codec_ok (AppendU16LE v) ReadU16LE v.
Proof.
  intros Hv. unfold AppendU16LE, ReadU16LE.
  eapply codec_ok_last; [by apply codec_ok_AppendBytes|].
  cbn [nth]. unfold uint8. rewrite lor_shiftl_add, Z.shiftr_div_pow2 by (try lia; apply Z.mod_pos_bound; lia).
  rewrite (Z.mod_small (v / _)); [|split; [apply Z.div_pos|apply Z.div_lt_upper_bound]; lia].
  pose proof (Z.div_mod v (2 ^ 8)). lia.
Qed.

Lemma codec_ok_all_ReadRest p : codec_ok_all (AppendBytes p) ReadRest p.
Proof.
  exists p. split; [done|]. intros r Hw Hr.
  unfold ReadRest, get_reader, mbind, stm_bind, Skip.
  destruct (Z.ltb_spec (Z.of_nat (Reader_Len r)) 0); [lia|].
  unfold reader_wf in Hw.
  destruct (Z.gtb_spec (Z.of_nat (r_off r) + Z.of_nat (Reader_Len r))
    (Z.of_nat (length (r_buf r)))) as [Hgt|Hle]; [unfold Reader_Len in Hgt; lia|].
  cbn. by rewrite Nat2Z.id, <- Reader_Bytes_length, Hr.
Qed.

Lemma consumes_ReadRest : consumes 0 ReadRest.
Proof. unfold ReadRest. solve_consumes. Qed.

#[export] Hint Resolve consumes_ReadRest : consumes.

Lemma no_fuel_ReadU16LE : no_fuel_err ReadU16LE.
Proof. unfold ReadU16LE. solve_no_fuel. Qed.
Lemma no_fuel_ReadRest : no_fuel_err ReadRest.
Proof. unfold ReadRest. solve_no_fuel. Qed.
#[export] Hint Resolve no_fuel_ReadU16LE no_fuel_ReadRest : no_fuel.
#[export] Hint Resolve codec_ok_ret codec_ok_AppendByte codec_ok_AppendBytes
  codec_ok_U16LE codec_ok_all_ReadRest codec_ok_all_of : codec.
