(* ===== verification/Vle.v ===== *)
(** * internal/codec/vle.go: variable-length integers

    Little-endian base-128 with a nine-byte cap: each of the first eight bytes
    carries seven payload bits and a continuation flag, the ninth carries
    eight raw bits.  The loops are Fixpoints over the number of iterations
    left ([for range maxZ64Bytes - 1], [for i := range maxBytes]). *)
From S2P Require Import Prelude Buffer.

Definition maxZ8Bytes : Z := 2.
Definition maxZ16Bytes : Z := 3.
Definition maxZ32Bytes : Z := 5.
Definition maxZ64Bytes : Z := 9.

(** The bytes [EncodeZ64] appends; [n] iterations of its loop are left. *)
Fixpoint vle_loop (n : nat) (v : Z) : bytes :=
  match n with
  | O => [uint8 v]
  | S n =>
      if v <? 0x80 then [uint8 v]
      else Z.lor (uint8 v) 0x80 :: vle_loop n (Z.shiftr v 7)
  end.

Definition EncodeZ64 (v : Z) : WM unit :=
  AppendBytes (vle_loop (Z.to_nat (maxZ64Bytes - 1)) v).
Definition EncodeZ32 (v : Z) : WM unit := EncodeZ64 v.
Definition EncodeZ16 (v : Z) : WM unit := EncodeZ64 v.
Definition EncodeZ8 (v : Z) : WM unit := EncodeZ64 v.

(** [i] counts iterations, [n] of them are left. *)
Fixpoint decodeVLE_loop (maxBytes i : Z) (n : nat) (value shift : Z) : RM Z :=
  match n with
  | O => throw ErrOverflow
  | S n =>
      b ← ReadByte;
      if i =? maxZ64Bytes - 1 then
        mret (Z.lor value (uint64 (Z.shiftl b shift)))
      else if (i =? maxBytes - 1) && negb (Z.land b 0x80 =? 0) then
        throw ErrOverflow
      else
        let value := Z.lor value (uint64 (Z.shiftl (Z.land b 0x7f) shift)) in
        if Z.land b 0x80 =? 0 then mret value
        else decodeVLE_loop maxBytes (i + 1) n value (shift + 7)
  end.

Definition decodeVLE (maxBytes : Z) : RM Z :=
  decodeVLE_loop maxBytes 0 (Z.to_nat maxBytes) 0 0.

Definition DecodeZ64 : RM Z := decodeVLE maxZ64Bytes.

(** [DecodeZ32], [DecodeZ16] and [DecodeZ8] share one shape. *)
Definition decode_bounded (maxBytes limit : Z) : RM Z :=
  v ← decodeVLE maxBytes;
  if v >? limit then throw ErrOverflow else mret v.

Definition DecodeZ32 : RM Z := decode_bounded maxZ32Bytes 0xFFFFFFFF.
Definition DecodeZ16 : RM Z := decode_bounded maxZ16Bytes 0xFFFF.
Definition DecodeZ8 : RM Z := decode_bounded maxZ8Bytes 0xFF.

(** [bits.Len64]: the number of bits needed to write [v]. *)
Definition Len64 (v : Z) : Z := if v =? 0 then 0 else Z.log2 v + 1.

Definition SizeZ64 (v : Z) : Z :=
  let b := Len64 v in
  if b =? 0 then 1
  else let n := (b + 6) / 7 in
       if n >? maxZ64Bytes then maxZ64Bytes else n.

Arguments EncodeZ64 : simpl never.
Arguments DecodeZ64 : simpl never.
Arguments EncodeZ32 : simpl never.
Arguments DecodeZ32 : simpl never.
Arguments EncodeZ16 : simpl never.
Arguments DecodeZ16 : simpl never.
Arguments EncodeZ8 : simpl never.
Arguments DecodeZ8 : simpl never.

(** ** Byte-level facts *)

Lemma land_0x7f b : Z.land b 0x7f = b mod 2 ^ 7.
Proof. apply (land_ones_mod b 7). lia. Qed.

Lemma cont_byte v :
  128 <= v ->
  Z.land (Z.lor (uint8 v) 0x80) 0x7f = v mod 2 ^ 7 /\
  Z.land (Z.lor (uint8 v) 0x80) 0x80 = 0x80.
Proof.
  intros _. unfold uint8.
  assert (Hv : v mod 2 ^ 7 = (v mod 2 ^ 8) mod 2 ^ 7).
  { apply Z.bits_inj'. intros i Hi.
    destruct (decide (i < 7)).
    - by rewrite !Z.mod_pow2_bits_low by lia.
    - by rewrite !Z.mod_pow2_bits_high by lia. }
  rewrite Hv. generalize (Z.mod_pos_bound v (2 ^ 8) ltac:(lia)).
  generalize (v mod 2 ^ 8). intros b Hb.
  pose (f := fun b => (Z.land (Z.lor b 0x80) 0x7f =? b mod 2 ^ 7) &&
                      (Z.land (Z.lor b 0x80) 0x80 =? 0x80)).
  assert (Hf : f b = true).
  { apply (Zrange_forallb 256); [by vm_compute|lia]. }
  subst f. cbn beta in Hf. lia.
Qed.

Lemma last_byte v : 0 <= v < 128 ->
  uint8 v = v /\ Z.land (uint8 v) 0x7f = v /\ Z.land (uint8 v) 0x80 = 0.
Proof.
  intros Hv. unfold uint8. rewrite (Z.mod_small v) by lia. split; [done|].
  pose (f := fun b => (Z.land b 0x7f =? b) && (Z.land b 0x80 =? 0)).
  assert (Hf : f v = true) by (apply (Zrange_forallb 128); [by vm_compute|lia]).
  subst f. cbn beta in Hf. lia.
Qed.

(** Accumulating a seven-bit group: no bit is lost below 2^64. *)
Lemma accumulate value b shift :
  0 <= shift -> 0 <= value < 2 ^ shift -> 0 <= b -> b * 2 ^ shift < 2 ^ 64 ->
  Z.lor value (uint64 (Z.shiftl b shift)) = value + b * 2 ^ shift.
Proof.
  intros Hs Hv Hb Hlt. unfold uint64.
  rewrite Z.mod_small, lor_shiftl_add; [done|done|done|].
  rewrite Z.shiftl_mul_pow2 by lia. nia.
Qed.

(** ** Decoding inverts encoding *)

(** After [i] bytes, [v] is the rest of the value still to read. *)
Definition vle_fits (M i v : Z) : Prop :=
  0 <= v < 2 ^ (64 - 7 * i) /\ (M < 9 -> v < 2 ^ (7 * (M - i))).

Lemma vle_fits_step M i v :
  0 <= i -> i < 8 -> i < M -> vle_fits M i v -> 128 <= v ->
  i + 1 < M /\ vle_fits M (i + 1) (Z.shiftr v 7).
Proof.
  intros Hi Hi8 HiM [Hv Hb] Hge.
  rewrite Z.shiftr_div_pow2 by lia.
  assert (HM : i + 1 < M).
  { destruct (decide (M = i + 1)) as [->|]; [|lia].
    replace (7 * (i + 1 - i)) with 7 in Hb by lia.
    destruct (decide (i + 1 < 9)); [specialize (Hb ltac:(lia)); lia|lia]. }
  split; [done|split].
  - split; [apply Z.div_pos; lia|]. apply Z.div_lt_upper_bound; [lia|].
    rewrite <- Z.pow_add_r by lia. replace (7 + _) with (64 - 7 * i) by lia. lia.
  - intros HM9. apply Z.div_lt_upper_bound; [lia|].
    rewrite <- Z.pow_add_r by lia.
    replace (7 + _) with (7 * (M - i)) by lia. auto.
Qed.

Lemma decodeVLE_loop_ok M n : forall i v value,
  i = 8 - Z.of_nat n -> 0 <= i -> i < M -> M <= 9 -> vle_fits M i v ->
  0 <= value < 2 ^ (7 * i) ->
  decodes (decodeVLE_loop M i (Z.to_nat (M - i)) value (7 * i))
    (value + v * 2 ^ (7 * i)) (vle_loop n v).
Proof.
  induction n as [|n IH]; intros i v value Hi Hi0 HiM HM Hf Hval r rest Hw Hr.
  - assert (i = 8 /\ M = 9) as [-> ->] by lia. destruct Hf as [Hv _].
    change (Z.to_nat (9 - 8)) with 1%nat. cbn [decodeVLE_loop vle_loop] in *.
    erewrite stm_bind_step by (by eapply ReadByte_cons).
    cbn [Z.eqb]. unfold uint8. rewrite (Z.mod_small v) by (cbn in Hv; lia).
    change (8 =? maxZ64Bytes - 1) with true. cbn iota.
    rewrite accumulate; [done|lia|done|lia|cbn in *; lia].
  - assert (Hn : Z.to_nat (M - i) = S (Z.to_nat (M - (i + 1)))) by lia.
    rewrite Hn. cbn [decodeVLE_loop vle_loop] in *.
    assert (Hi9 : (i =? maxZ64Bytes - 1) = false) by (unfold maxZ64Bytes; lia).
    assert (Hpow : 0 < 2 ^ (7 * i)) by (apply Z.pow_pos_nonneg; lia).
    assert (H64 : 2 ^ 64 = 2 ^ (64 - 7 * i) * 2 ^ (7 * i))
      by (rewrite <- Z.pow_add_r by lia; f_equal; lia).
    destruct (Z.ltb_spec v 0x80) as [Hlt|Hge].
    + destruct Hf as [Hv _]. destruct (last_byte v) as (E1 & E2 & E3); [lia|].
      erewrite stm_bind_step by (by eapply ReadByte_cons).
      rewrite Hi9, E3, E2. rewrite Z.eqb_refl, andb_false_r. cbn iota.
      rewrite accumulate; [done|lia|done|lia|nia].
    + destruct (cont_byte v) as [E1 E2]; [done|].
      destruct (vle_fits_step M i v) as [HM' Hf']; [lia..|done|done|].
      erewrite stm_bind_step by (by eapply ReadByte_cons).
      rewrite Hi9, E1, E2.
      replace (i =? M - 1) with false by lia. cbn -[Z.pow Z.mul Z.shiftr].
      assert (Hmod : 0 <= v mod 2 ^ 7 < 2 ^ 7) by (apply Z.mod_pos_bound; lia).
      assert (Hstep : 2 ^ (7 * (i + 1)) = 2 ^ 7 * 2 ^ (7 * i))
        by (rewrite <- Z.pow_add_r by lia; f_equal; lia).
      destruct Hf as [Hv _].
      assert (Hdm : v = 2 ^ 7 * (v / 2 ^ 7) + v mod 2 ^ 7) by (apply Z.div_mod; lia).
      assert (Hd : 0 <= v / 2 ^ 7) by (apply Z.div_pos; lia).
      rewrite accumulate; [|lia|done|lia|nia].
      replace (7 * i + 7) with (7 * (i + 1)) by lia.
      rewrite (IH (i + 1) (Z.shiftr v 7)) with (rest := rest); [|lia..|done| | |].
      * rewrite advance_advance. f_equal. f_equal.
        rewrite Z.shiftr_div_pow2, Hstep by lia. nia.
      * rewrite Hstep. nia.
      * by eapply reader_wf_cons.
      * by eapply Reader_Bytes_cons.
Qed.

Lemma decodeVLE_ok M v :
  0 < M <= 9 -> 0 <= v < 2 ^ 64 -> (M < 9 -> v < 2 ^ (7 * M)) ->
  decodes (decodeVLE M) v (vle_loop 8 v).
Proof.
  intros HM Hv Hb. unfold decodeVLE.
  replace v with (0 + v * 2 ^ (7 * 0)) at 1 by (cbn; lia).
  replace (Z.to_nat M) with (Z.to_nat (M - 0)) by lia.
  apply (decodeVLE_loop_ok M 8 0); try lia.
  split; [done|]. rewrite Z.sub_0_r. done.
Qed.

Lemma codec_ok_Z64 v : 0 <= v < 2 ^ 64 -> codec_ok (EncodeZ64 v) DecodeZ64 v.
Proof.
  intros Hv. exists (vle_loop 8 v). split; [done|]. by apply decodeVLE_ok.
Qed.

Lemma codec_ok_bounded M limit v :
  0 < M < 9 -> 0 <= v <= limit -> limit < 2 ^ (7 * M) -> limit < 2 ^ 64 ->
  codec_ok (EncodeZ64 v) (decode_bounded M limit) v.
Proof.
  intros HM Hv Hl Hl'. exists (vle_loop 8 v). split; [done|].
  rewrite <- (app_nil_r (vle_loop _ _)). eapply decodes_bind; [apply decodeVLE_ok; lia|].
  replace (v >? limit) with false by lia. apply decodes_ret.
Qed.

Lemma codec_ok_Z32 v : 0 <= v < 2 ^ 32 -> codec_ok (EncodeZ32 v) DecodeZ32 v.
Proof. intros Hv. apply codec_ok_bounded; unfold maxZ32Bytes; cbn in *; lia. Qed.
Lemma codec_ok_Z16 v : 0 <= v < 2 ^ 16 -> codec_ok (EncodeZ16 v) DecodeZ16 v.
Proof. intros Hv. apply codec_ok_bounded; unfold maxZ16Bytes; cbn in *; lia. Qed.
Lemma codec_ok_Z8 v : 0 <= v < 2 ^ 8 -> codec_ok (EncodeZ8 v) DecodeZ8 v.
Proof. intros Hv. apply codec_ok_bounded; unfold maxZ8Bytes; cbn in *; lia. Qed.

#[export] Hint Resolve codec_ok_Z64 codec_ok_Z32 codec_ok_Z16 codec_ok_Z8 : codec.

(** ** Every VLE decoder consumes at least one byte *)

Lemma consumes_decodeVLE_loop M n : forall i value shift,
  consumes 1 (decodeVLE_loop M i n value shift).
Proof.
  induction n as [|n IH]; intros i value shift; cbn [decodeVLE_loop].
  - apply consumes_throw.
  - apply (consumes_bind_l 1); [apply consumes_ReadByte|]. intros b.
    repeat apply consumes_if; eauto with consumes.
    eapply consumes_weaken; [apply IH|lia].
Qed.

Lemma consumes_decodeVLE M : consumes 1 (decodeVLE M).
Proof. apply consumes_decodeVLE_loop. Qed.
#[export] Hint Resolve consumes_decodeVLE : consumes.

Lemma consumes_decode_bounded M limit : consumes 1 (decode_bounded M limit).
Proof. unfold decode_bounded. solve_consumes. Qed.
Lemma consumes_Z64 : consumes 1 DecodeZ64.
Proof. apply consumes_decodeVLE. Qed.
Lemma consumes_Z32 : consumes 1 DecodeZ32.
Proof. apply consumes_decode_bounded. Qed.
Lemma consumes_Z16 : consumes 1 DecodeZ16.
Proof. apply consumes_decode_bounded. Qed.
Lemma consumes_Z8 : consumes 1 DecodeZ8.
Proof. apply consumes_decode_bounded. Qed.
#[export] Hint Resolve consumes_Z64 consumes_Z32 consumes_Z16 consumes_Z8 : consumes.

Lemma no_fuel_decodeVLE_loop M n : forall i value shift,
  no_fuel_err (decodeVLE_loop M i n value shift).
Proof.
  induction n as [|n IH]; intros; cbn [decodeVLE_loop]; [by apply no_fuel_throw|].
  apply no_fuel_bind; [eapply consumes_weaken; [apply consumes_ReadByte|lia]|auto with no_fuel|].
  solve_no_fuel.
Qed.
Lemma no_fuel_Z64 : no_fuel_err DecodeZ64.
Proof. apply no_fuel_decodeVLE_loop. Qed.
Lemma no_fuel_decode_bounded M limit : no_fuel_err (decode_bounded M limit).
Proof.
  unfold decode_bounded. apply no_fuel_bind; [solve_consumes| |solve_no_fuel].
  apply no_fuel_decodeVLE_loop.
Qed.
Lemma no_fuel_Z32 : no_fuel_err DecodeZ32.
Proof. apply no_fuel_decode_bounded. Qed.
Lemma no_fuel_Z16 : no_fuel_err DecodeZ16.
Proof. apply no_fuel_decode_bounded. Qed.
Lemma no_fuel_Z8 : no_fuel_err DecodeZ8.
Proof. apply no_fuel_decode_bounded. Qed.
#[export] Hint Resolve no_fuel_decodeVLE_loop no_fuel_Z64 no_fuel_Z32 no_fuel_Z16
  no_fuel_Z8 : no_fuel.

(** ** The size function and the length of an encoding *)

Lemma vle_loop_length_le n v : (length (vle_loop n v) <= S n)%nat.
Proof.
  revert v. induction n as [|n IH]; intros v; cbn [vle_loop]; [done|].
  destruct (v <? 0x80); cbn; [lia|]. specialize (IH (Z.shiftr v 7)). lia.
Qed.

Lemma writes_Z64_length v e : writes (EncodeZ64 v) e -> Z.of_nat (length e) <= 9.
Proof.
  intros W. pose proof (vle_loop_length_le 8 v) as Hl.
  pose proof (f_equal (fun x : result (unit * Writer) =>
    match x with Ok (_, w) => length (w_buf w) | Err _ => O end) (W NewWriter)) as E.
  change (length (vle_loop 8 v) = length e) in E. lia.
Qed.

Lemma Len64_shiftr7 v : 128 <= v -> Len64 (Z.shiftr v 7) = Len64 v - 7.
Proof.
  intros Hv. rewrite Z.shiftr_div_pow2 by lia. unfold Len64.
  assert (1 <= v / 2 ^ 7) by (apply Z.div_le_lower_bound; lia).
  replace (v =? 0) with false by lia. replace (v / 2 ^ 7 =? 0) with false by lia.
  rewrite <- Z.shiftr_div_pow2, Z.log2_shiftr by lia.
  assert (Z.log2 128 <= Z.log2 v) as Hl by (apply Z.log2_le_mono; lia).
  cbn in Hl. lia.
Qed.

Lemma Len64_nonneg v : 0 <= Len64 v.
Proof. unfold Len64. pose proof (Z.log2_nonneg v). destruct (v =? 0); lia. Qed.

Lemma Len64_small v : 0 <= v < 128 -> 0 <= Len64 v <= 7.
Proof.
  intros Hv. unfold Len64. destruct (Z.eqb_spec v 0); [lia|].
  assert (Z.log2 v <= Z.log2 127) as Hl by (apply Z.log2_le_mono; lia).
  pose proof (Z.log2_nonneg v). cbn in Hl. lia.
Qed.

(** The loop's length as the clamped number of seven-bit groups. *)
Lemma vle_loop_length n v :
  0 <= v -> Z.of_nat (length (vle_loop n v)) =
    Z.min (Z.max 1 ((Len64 v + 6) / 7)) (Z.of_nat n + 1).
Proof.
  revert v. induction n as [|n IH]; intros v Hv; cbn [vle_loop].
  - cbn [length]. lia.
  - destruct (Z.ltb_spec v 0x80) as [Hlt|Hge].
    + cbn [length]. pose proof (Len64_small v ltac:(lia)).
      assert ((Len64 v + 6) / 7 < 2) by (apply Z.div_lt_upper_bound; lia). lia.
    + cbn [length]. rewrite Nat2Z.inj_succ, IH, Len64_shiftr7
        by (try apply Z.shiftr_nonneg; lia).
      replace (Len64 v - 7 + 6) with (Len64 v + 6 + -1 * 7) by lia.
      rewrite Z.div_add by lia.
      assert (2 <= (Len64 v + 6) / 7).
      { apply Z.div_le_lower_bound; [lia|]. unfold Len64.
        assert (Z.log2 128 <= Z.log2 v) as Hl by (apply Z.log2_le_mono; lia).
        cbn in Hl. destruct (Z.eqb_spec v 0); lia. }
      lia.
Qed.

(** ** Bounds on what a decoder accepts *)

Definition reader_bytes_ok (r : Reader) : Prop := Forall is_byte (r_buf r).

Lemma ReadByte_Ok r b r' :
  ReadByte r = Ok (b, r') -> r_buf r !! r_off r = Some b /\ r' = advance r 1.
Proof. unfold ReadByte. destruct (r_buf r !! r_off r); [|done]. by intros [= <- <-]. Qed.

Lemma decodeVLE_loop_bound M n : forall i value r v r',
  Z.of_nat n = M - i -> 0 <= i -> M <= 9 -> reader_bytes_ok r ->
  0 <= value < 2 ^ (7 * i) ->
  decodeVLE_loop M i n value (7 * i) r = Ok (v, r') ->
  0 <= v < (if M =? 9 then 2 ^ 64 else 2 ^ (7 * M)) /\
  (r_off r' <= r_off r + n)%nat.
Proof.
  induction n as [|n IH]; intros i value r v r' Hn Hi HM Hok Hval; [done|].
  cbn [decodeVLE_loop]. intros (b & r1 & Hb & H)%stm_bind_Ok.
  apply ReadByte_Ok in Hb as [Hb ->].
  assert (Hbyte : is_byte b) by (by eapply Forall_lookup_1 in Hok).
  unfold is_byte in Hbyte.
  assert (Hi64 : 2 ^ (7 * i) * 2 ^ 7 <= 2 ^ 63).
  { rewrite <- Z.pow_add_r by lia. apply Z.pow_le_mono_r; lia. }
  assert (Hstep : 2 ^ (7 * (i + 1)) = 2 ^ 7 * 2 ^ (7 * i))
    by (rewrite <- Z.pow_add_r by lia; f_equal; lia).
  destruct (Z.eqb_spec i (maxZ64Bytes - 1)) as [Hi8|Hi8]; unfold maxZ64Bytes in Hi8.
  { injection H as <- <-. replace (M =? 9) with true by lia.
    replace i with 8 in * by lia. change (7 * 8) with 56 in *.
    rewrite accumulate; [|lia|done|lia|lia]. split; [cbn iota; lia|cbn; lia]. }
  destruct ((i =? M - 1) && negb (Z.land b 0x80 =? 0)) eqn:Hlast; [done|].
  rewrite land_0x7f in H.
  pose proof (Z.mod_pos_bound b (2 ^ 7) ltac:(lia)) as Hm.
  rewrite accumulate in H; [|lia|done|lia|nia].
  assert (Hval' : 0 <= value + b mod 2 ^ 7 * 2 ^ (7 * i) < 2 ^ (7 * (i + 1)))
    by (rewrite Hstep; nia).
  destruct (Z.land b 0x80 =? 0).
  - injection H as <- <-. split; [|cbn; lia].
    assert (2 ^ (7 * (i + 1)) <= if M =? 9 then 2 ^ 64 else 2 ^ (7 * M)); [|lia].
    destruct (M =? 9); apply Z.pow_le_mono_r; lia.
  - replace (7 * i + 7) with (7 * (i + 1)) in H by lia.
    apply IH in H as [? Hoff]; [|lia..|done|done]. split; [done|].
    cbn in Hoff. lia.
Qed.

Lemma decodeVLE_bound M r v r' :
  0 < M <= 9 -> reader_bytes_ok r -> decodeVLE M r = Ok (v, r') ->
  0 <= v < (if M =? 9 then 2 ^ 64 else 2 ^ (7 * M)) /\
  (r_off r' <= r_off r + Z.to_nat M)%nat.
Proof.
  intros HM Hok. apply (decodeVLE_loop_bound M (Z.to_nat M) 0); cbn; try lia. done.
Qed.

Lemma decode_bounded_le M limit r v r' :
  0 < M <= 9 -> reader_bytes_ok r -> decode_bounded M limit r = Ok (v, r') ->
  0 <= v <= limit /\ (r_off r' <= r_off r + Z.to_nat M)%nat.
Proof.
  intros HM Hok (v' & r1 & H1 & H2)%stm_bind_Ok.
  apply decodeVLE_bound in H1 as [? ?]; [|done..].
  destruct (Z.gtb_spec v' limit); [done|]. injection H2 as <- <-. lia.
Qed.

(** Every 64-bit integer survives the variable-length encoding, which
    takes exactly SizeZ64 bytes, between one and nine. *)
Theorem z64_roundtrip (v : Z) :
  0 <= v < 2 ^ 64 ->
  codec_ok (EncodeZ64 v) DecodeZ64 v /\
  writes (EncodeZ64 v) (vle_loop 8 v) /\
  Z.of_nat (length (vle_loop 8 v)) = SizeZ64 v /\ 1 <= SizeZ64 v <= 9.
Proof.
  intros Hv. split; [by apply codec_ok_Z64|]. split; [done|].
  rewrite vle_loop_length by lia. unfold SizeZ64, maxZ64Bytes. cbv zeta.
  destruct (Z.eqb_spec (Len64 v) 0) as [->|Hn]; [by vm_compute|].
  assert (1 <= (Len64 v + 6) / 7).
  { apply Z.div_le_lower_bound; [lia|]. pose proof (Len64_nonneg v). lia. }
  destruct (Z.gtb_spec ((Len64 v + 6) / 7) 9); lia.
Qed.

Lemma z64_roundtrip_witness :
  0 <= 2 ^ 64 - 1 < 2 ^ 64 /\ SizeZ64 (2 ^ 64 - 1) = 9 /\
  codec_ok (EncodeZ64 (2 ^ 64 - 1)) DecodeZ64 (2 ^ 64 - 1).
Proof.
  assert (H : 0 <= 2 ^ 64 - 1 < 2 ^ 64) by lia.
  split; [exact H|]. split; [vm_compute; reflexivity|].
  apply (z64_roundtrip (2 ^ 64 - 1) H).
Defined.

(** A z16 decoder returns 16-bit values and reads at most three bytes. *)
Lemma z16_decode_bounds (r r' : Reader) (v : Z) :
  reader_bytes_ok r -> DecodeZ16 r = Ok (v, r') ->
  0 <= v < 2 ^ 16 /\ (r_off r' <= r_off r + 3)%nat.
Proof.
  intros Hok H. apply decode_bounded_le in H as [? ?]; [|done..].
  split; [lia|]. done.
Qed.
