(* ===== verification/Codec.v ===== *)
(** * internal/codec: headers, length-prefixed fields, extensions, framing

    header.go, primitives.go, ext.go and framing.go on top of the Reader, the
    Writer and the VLE integers. *)
From S2P Require Import Prelude Buffer Vle.

(** ** header.go *)

Definition HdrFlagF1 : Z := 0x20.
Definition HdrFlagF2 : Z := 0x40.
Definition HdrFlagZ : Z := 0x80.
Definition HdrIDMask : Z := 0x1F.

Record Header := mkHeader { hID : Z; hF1 : bool; hF2 : bool; hZ : bool }.

#[export] Instance Header_eq_dec : EqDecision Header.
Proof. solve_decision. Defined.

Definition or_flag (b : Z) (flag : bool) (bit : Z) : Z :=
  if flag then Z.lor b bit else b.
Definition has_flag (b bit : Z) : bool := negb (Z.land b bit =? 0).

Definition PackHeader (h : Header) : byte :=
  let b := Z.land (hID h) HdrIDMask in
  let b := or_flag b (hF1 h) HdrFlagF1 in
  let b := or_flag b (hF2 h) HdrFlagF2 in
  or_flag b (hZ h) HdrFlagZ.

Definition UnpackHeader (b : byte) : Header :=
  {| hID := Z.land b HdrIDMask;
     hF1 := has_flag b HdrFlagF1;
     hF2 := has_flag b HdrFlagF2;
     hZ := has_flag b HdrFlagZ |}.

Definition EncodeHeader (h : Header) : WM unit := AppendByte (PackHeader h).
Definition DecodeHeader : RM Header := b ← ReadByte; mret (UnpackHeader b).

(** ** primitives.go *)

(** [utf8.ValidString], by the well-formed byte sequences of RFC 3629. *)
Definition in_range (lo hi b : Z) : bool := (lo <=? b) && (b <=? hi).
Definition utf8_cont (b : Z) : bool := in_range 0x80 0xBF b.

Fixpoint utf8_valid (s : bytes) : bool :=
  match s with
  | [] => true
  | b0 :: s1 =>
      if b0 <? 0x80 then utf8_valid s1
      else if in_range 0xC2 0xDF b0 then
        match s1 with
        | b1 :: s2 => utf8_cont b1 && utf8_valid s2
        | _ => false
        end
      else if in_range 0xE0 0xEF b0 then
        match s1 with
        | b1 :: b2 :: s3 =>
            in_range (if b0 =? 0xE0 then 0xA0 else 0x80)
                     (if b0 =? 0xED then 0x9F else 0xBF) b1
            && utf8_cont b2 && utf8_valid s3
        | _ => false
        end
      else if in_range 0xF0 0xF4 b0 then
        match s1 with
        | b1 :: b2 :: b3 :: s4 =>
            in_range (if b0 =? 0xF0 then 0x90 else 0x80)
                     (if b0 =? 0xF4 then 0x8F else 0xBF) b1
            && utf8_cont b2 && utf8_cont b3 && utf8_valid s4
        | _ => false
        end
      else false
  end.

Definition len (b : bytes) : Z := Z.of_nat (length b).

Definition EncodeBytesZ8 (b : bytes) : WM unit :=
  guard_err (len b >? 0xFF) (ErrMsg "codec: byte slice too long for z8 length");;
  EncodeZ8 (len b);;
  AppendBytes b.

Definition EncodeBytesZ16 (b : bytes) : WM unit :=
  guard_err (len b >? 0xFFFF) (ErrMsg "codec: byte slice too long for z16 length");;
  EncodeZ16 (len b);;
  AppendBytes b.

Definition EncodeBytesZ32 (b : bytes) : WM unit :=
  guard_err (len b >? 0xFFFFFFFF) (ErrMsg "codec: byte slice too long for z32 length");;
  EncodeZ32 (len b);;
  AppendBytes b.

Definition EncodeStringZ8 (s : bytes) : WM unit :=
  guard_err (negb (utf8_valid s)) (ErrMsg "codec: invalid UTF-8 string");;
  EncodeBytesZ8 s.

Definition EncodeStringZ16 (s : bytes) : WM unit :=
  guard_err (negb (utf8_valid s)) (ErrMsg "codec: invalid UTF-8 string");;
  EncodeBytesZ16 s.

Definition DecodeBytesZ8 : RM bytes := n ← DecodeZ8; ReadN n.
Definition DecodeBytesZ16 : RM bytes := n ← DecodeZ16; ReadN n.
Definition DecodeBytesZ32 : RM bytes := n ← DecodeZ32; ReadN n.
Definition DecodeStringZ8 : RM bytes := DecodeBytesZ8.
Definition DecodeStringZ16 : RM bytes := DecodeBytesZ16.

(** ** ext.go *)

Inductive ExtEncoding := ExtEncUnit | ExtEncZ64 | ExtEncZBuf | ExtEncReserved.

#[export] Instance ExtEncoding_eq_dec : EqDecision ExtEncoding.
Proof. solve_decision. Defined.

Definition ExtEncoding_code (e : ExtEncoding) : Z :=
  match e with
  | ExtEncUnit => 0 | ExtEncZ64 => 1 | ExtEncZBuf => 2 | ExtEncReserved => 3
  end.

Definition ExtEncoding_of_code (c : Z) : ExtEncoding :=
  if c =? 0 then ExtEncUnit else if c =? 1 then ExtEncZ64
  else if c =? 2 then ExtEncZBuf else ExtEncReserved.

Definition extFlagM : Z := 0x10.
Definition extFlagZ : Z := 0x80.
Definition extEncShift : Z := 5.
Definition extEncMask : Z := Z.shiftl 3 extEncShift.
Definition extIDMask : Z := 0x0F.

Record ExtHeader := mkExtHeader {
  eID : Z; eMandatory : bool; eEncoding : ExtEncoding; eMore : bool }.

#[export] Instance ExtHeader_eq_dec : EqDecision ExtHeader.
Proof. solve_decision. Defined.

Definition PackExtHeader (h : ExtHeader) : byte :=
  let b := Z.land (eID h) extIDMask in
  let b := or_flag b (eMandatory h) extFlagM in
  let b := Z.lor b (Z.shiftl (ExtEncoding_code (eEncoding h)) extEncShift) in
  or_flag b (eMore h) extFlagZ.

Definition UnpackExtHeader (b : byte) : ExtHeader :=
  {| eID := Z.land b extIDMask;
     eMandatory := has_flag b extFlagM;
     eEncoding := ExtEncoding_of_code (Z.shiftr (Z.land b extEncMask) extEncShift);
     eMore := has_flag b extFlagZ |}.

Record Extension := mkExtension { eHeader : ExtHeader; eZ64 : Z; eZBuf : bytes }.

Definition NewZ64Ext (id : Z) (mandatory : bool) (v : Z) : Extension :=
  mkExtension (mkExtHeader id mandatory ExtEncZ64 false) v [].

Fixpoint FindExt (exts : list Extension) (id : Z) : option Extension :=
  match exts with
  | [] => None
  | e :: exts => if eID (eHeader e) =? id then Some e else FindExt exts id
  end.

Definition EncodeExtension (ext : Extension) : WM unit :=
  AppendByte (PackExtHeader (eHeader ext));;
  match eEncoding (eHeader ext) with
  | ExtEncUnit => mret tt
  | ExtEncZ64 => EncodeZ64 (eZ64 ext)
  | ExtEncZBuf => EncodeBytesZ32 (eZBuf ext)
  | ExtEncReserved => throw (ErrMsg "codec: cannot encode Reserved extension encoding")
  end.

Definition DecodeExtension : RM Extension :=
  hb ← ReadByte;
  let h := UnpackExtHeader hb in
  match eEncoding h with
  | ExtEncUnit => mret (mkExtension h 0 [])
  | ExtEncZ64 =>
      v ← wrap "extension Z64 body" DecodeZ64;
      mret (mkExtension h v [])
  | ExtEncZBuf =>
      b ← wrap "extension ZBuf body" DecodeBytesZ32;
      mret (mkExtension h 0 b)
  | ExtEncReserved => throw (ErrMsg "codec: reserved extension encoding")
  end.

(** The [for] loop of DecodeExtensions; [fuel] bounds its iterations. *)
Fixpoint DecodeExtensions_loop (fuel : nat) (exts : list Extension) :
    RM (list Extension) :=
  match fuel with
  | O => throw ErrFuel
  | S fuel =>
      ext ← DecodeExtension;
      let exts := exts ++ [ext] in
      if negb (eMore (eHeader ext)) then mret exts
      else DecodeExtensions_loop fuel exts
  end.

(** Every iteration reads at least one byte, so the unread length is enough. *)
Definition DecodeExtensions : RM (list Extension) :=
  r ← get_reader;
  DecodeExtensions_loop (S (Reader_Len r)) [].

(** [len(exts) > 0], the Z flag of a message header. *)
Definition hasExts (exts : list Extension) : bool :=
  match exts with [] => false | _ => true end.

Definition set_more (ext : Extension) (more : bool) : Extension :=
  let h := eHeader ext in
  mkExtension (mkExtHeader (eID h) (eMandatory h) (eEncoding h) more)
    (eZ64 ext) (eZBuf ext).

(** [exts[i].Header.More = i < len(exts)-1] for every [i]: the encoder writes
    the flags back into the caller's slice. *)
Fixpoint normalise_more (exts : list Extension) : list Extension :=
  match exts with
  | [] => []
  | e :: rest =>
      set_more e (hasExts rest) :: normalise_more rest
  end.

Fixpoint EncodeExtension_list (exts : list Extension) : WM unit :=
  match exts with
  | [] => mret tt
  | e :: rest => EncodeExtension e;; EncodeExtension_list rest
  end.

Definition EncodeExtensions (exts : list Extension) : WM unit :=
  EncodeExtension_list (normalise_more exts).

(** ** framing.go *)

Definition MaxBatchSize : Z := 65535.

(** The bytes written to the stream. *)
Definition EncodeStreamBatch (stream batch : bytes) : result bytes :=
  if len batch >? MaxBatchSize then Err (ErrWrap "got" ErrBatchTooLarge)
  else Ok (stream ++ [uint8 (len batch); uint8 (Z.shiftr (len batch) 8)] ++ batch).

(** [io.ReadFull(r, buf[:n])] on a stream holding the bytes [s]. *)
Definition ReadFull (s : bytes) (n : nat) : result (bytes * bytes) :=
  if decide (n = 0)%nat then Ok ([], s)
  else match s with
       | [] => Err ErrIOEOF
       | _ => if decide (length s < n)%nat then Err ErrIOUnexpectedEOF
              else Ok (take n s, drop n s)
       end.

(** [buflen] is [len(buf)]; the result is the batch and the unread stream. *)
Definition ReadStreamBatch (s : bytes) (buflen : nat) : result (bytes * bytes) :=
  match ReadFull s 2 with
  | Err e => Err e
  | Ok (hdr, s1) =>
      let n := Z.lor (nth 0 hdr 0) (Z.shiftl (nth 1 hdr 0) 8) in
      if Z.of_nat buflen <? n then Err (ErrMsg "codec: read buffer too small")
      else ReadFull s1 (Z.to_nat n)
  end.

Arguments EncodeHeader : simpl never.
Arguments DecodeHeader : simpl never.
Arguments PackHeader : simpl never.
Arguments UnpackHeader : simpl never.
Arguments EncodeBytesZ8 : simpl never.
Arguments EncodeBytesZ16 : simpl never.
Arguments EncodeBytesZ32 : simpl never.
Arguments EncodeStringZ8 : simpl never.
Arguments EncodeStringZ16 : simpl never.
Arguments DecodeBytesZ8 : simpl never.
Arguments DecodeBytesZ16 : simpl never.
Arguments DecodeBytesZ32 : simpl never.
Arguments DecodeStringZ8 : simpl never.
Arguments DecodeStringZ16 : simpl never.
Arguments EncodeExtension : simpl never.
Arguments DecodeExtension : simpl never.
Arguments EncodeExtensions : simpl never.
Arguments DecodeExtensions : simpl never.
Arguments PackExtHeader : simpl never.
Arguments UnpackExtHeader : simpl never.

(** ** Packing and unpacking bytes *)

Lemma has_or_flag b f bit :
  Z.land b bit = 0 -> bit <> 0 -> has_flag (or_flag b f bit) bit = f.
Proof.
  intros H Hb. unfold has_flag, or_flag. destruct f.
  - rewrite Z.land_lor_distr_l, Z.land_diag, H, Z.lor_0_l.
    by apply negb_true_iff, Z.eqb_neq.
  - by rewrite H.
Qed.

Lemma UnpackHeader_PackHeader h : 0 <= hID h < 32 -> UnpackHeader (PackHeader h) = h.
Proof.
  destruct h as [id f1 f2 z]. cbn [hID]. revert id.
  destruct f1, f2, z; by_range 32%nat.
Qed.

Lemma PackHeader_UnpackHeader b : is_byte b -> PackHeader (UnpackHeader b) = b.
Proof. unfold is_byte. revert b. by_range 256%nat. Qed.

Lemma UnpackExtHeader_PackExtHeader h :
  0 <= eID h < 16 -> UnpackExtHeader (PackExtHeader h) = h.
Proof.
  destruct h as [id m enc more]. cbn [eID]. revert id.
  destruct m, enc, more; by_range 16%nat.
Qed.

Lemma PackExtHeader_UnpackExtHeader b :
  is_byte b -> PackExtHeader (UnpackExtHeader b) = b.
Proof. unfold is_byte. revert b. by_range 256%nat. Qed.

Lemma codec_ok_Header h : 0 <= hID h < 32 -> codec_ok (EncodeHeader h) DecodeHeader h.
Proof.
  intros. eapply codec_ok_last; [apply codec_ok_AppendByte|by apply UnpackHeader_PackHeader].
Qed.

(** A decoder's guard that does not fire reads nothing. *)
Lemma decodes_guard b e : b = false -> decodes (guard_err b e : RM unit) tt [].
Proof. intros ->. apply decodes_ret. Qed.

(** An optional field: present exactly when its flag is set. *)
Lemma codec_ok_when {A} (b : bool) (enc : WM unit) (dec : RM A) (dflt v : A) :
  (b = true -> codec_ok enc dec v) -> (b = false -> v = dflt) ->
  codec_ok (when b enc) (if b then dec else mret dflt) v.
Proof.
  intros Ht Hf. destruct b; cbn; [by apply Ht|]. rewrite Hf by done. apply codec_ok_ret.
Qed.

(** ** Length-prefixed fields *)

(** A guard that does not fire writes nothing. *)
Lemma codec_ok_guard {A} b e enc (dec : RM A) v :
  b = false -> codec_ok enc dec v -> codec_ok (guard_err b e;; enc) dec v.
Proof. intros ->. apply codec_ok_nop. Qed.

Lemma codec_ok_BytesZ8 b : len b <= 0xFF -> codec_ok (EncodeBytesZ8 b) DecodeBytesZ8 b.
Proof.
  intros Hb. apply codec_ok_guard; [lia|]. unfold len in *.
  eapply codec_ok_bind; [apply codec_ok_Z8; lia|by apply codec_ok_AppendBytes].
Qed.

Lemma codec_ok_BytesZ16 b : len b <= 0xFFFF -> codec_ok (EncodeBytesZ16 b) DecodeBytesZ16 b.
Proof.
  intros Hb. apply codec_ok_guard; [lia|]. unfold len in *.
  eapply codec_ok_bind; [apply codec_ok_Z16; lia|by apply codec_ok_AppendBytes].
Qed.

Lemma codec_ok_BytesZ32 b :
  len b <= 0xFFFFFFFF -> codec_ok (EncodeBytesZ32 b) DecodeBytesZ32 b.
Proof.
  intros Hb. apply codec_ok_guard; [lia|]. unfold len in *.
  eapply codec_ok_bind; [apply codec_ok_Z32; lia|by apply codec_ok_AppendBytes].
Qed.

(** A string field that fits a z8 (z16) length. *)
Definition wf_string (limit : Z) (s : bytes) : Prop :=
  utf8_valid s = true /\ len s <= limit.

Lemma codec_ok_StringZ8 s :
  wf_string 0xFF s -> codec_ok (EncodeStringZ8 s) DecodeStringZ8 s.
Proof.
  intros [Hu Hl]. apply codec_ok_guard; [by rewrite Hu|]. by apply codec_ok_BytesZ8.
Qed.

Lemma codec_ok_StringZ16 s :
  wf_string 0xFFFF s -> codec_ok (EncodeStringZ16 s) DecodeStringZ16 s.
Proof.
  intros [Hu Hl]. apply codec_ok_guard; [by rewrite Hu|]. by apply codec_ok_BytesZ16.
Qed.

Lemma consumes_Header : consumes 1 DecodeHeader.
Proof. unfold DecodeHeader. solve_consumes. Qed.
Lemma consumes_BytesZ8 : consumes 1 DecodeBytesZ8.
Proof. unfold DecodeBytesZ8. solve_consumes. Qed.
Lemma consumes_BytesZ16 : consumes 1 DecodeBytesZ16.
Proof. unfold DecodeBytesZ16. solve_consumes. Qed.
Lemma consumes_BytesZ32 : consumes 1 DecodeBytesZ32.
Proof. unfold DecodeBytesZ32. solve_consumes. Qed.
Lemma consumes_StringZ8 : consumes 1 DecodeStringZ8.
Proof. apply consumes_BytesZ8. Qed.
Lemma consumes_StringZ16 : consumes 1 DecodeStringZ16.
Proof. apply consumes_BytesZ16. Qed.
#[export] Hint Resolve consumes_Header consumes_BytesZ8 consumes_BytesZ16
  consumes_BytesZ32 consumes_StringZ8 consumes_StringZ16 : consumes.

(** ** Extension chains *)

Definition wf_extension (e : Extension) : Prop :=
  0 <= eID (eHeader e) < 16 /\
  match eEncoding (eHeader e) with
  | ExtEncUnit => eZ64 e = 0 /\ eZBuf e = []
  | ExtEncZ64 => 0 <= eZ64 e < 2 ^ 64 /\ eZBuf e = []
  | ExtEncZBuf => eZ64 e = 0 /\ len (eZBuf e) <= 0xFFFFFFFF
  | ExtEncReserved => False
  end.

(** The chain a decoder returns: its [More] flags are those of [normalise_more]. *)
Definition wf_extensions (exts : list Extension) : Prop :=
  Forall wf_extension exts /\ normalise_more exts = exts.

Lemma codec_ok_Extension e :
  wf_extension e -> codec_ok (EncodeExtension e) DecodeExtension e.
Proof.
  destruct e as [[id m enc more] z b]. intros [Hid He]. cbn in Hid, He.
  unfold EncodeExtension, DecodeExtension.
  eapply codec_ok_bind; [apply codec_ok_AppendByte|]. cbn [eHeader].
  rewrite UnpackExtHeader_PackExtHeader by done. cbn [eEncoding eZ64 eZBuf].
  destruct enc; cbn in He.
  - destruct He as [-> ->]. apply codec_ok_ret.
  - destruct He as [Hz ->]. eapply codec_ok_last; [|reflexivity].
    by apply codec_ok_wrap, codec_ok_Z64.
  - destruct He as [-> Hl]. eapply codec_ok_last; [|reflexivity].
    by apply codec_ok_wrap, codec_ok_BytesZ32.
  - done.
Qed.

Lemma consumes_Extension : consumes 1 DecodeExtension.
Proof.
  unfold DecodeExtension. apply consumes_bind_l; [auto with consumes|]. intros hb.
  cbn zeta. destruct (eEncoding _); solve_consumes.
Qed.
#[export] Hint Resolve consumes_Extension : consumes.

Lemma consumes_Extensions_loop fuel : forall exts,
  consumes 1 (DecodeExtensions_loop fuel exts).
Proof.
  induction fuel as [|fuel IH]; intros exts; cbn [DecodeExtensions_loop].
  - apply consumes_throw.
  - apply consumes_bind_l; [auto with consumes|]. intros ext. cbn zeta.
    destruct (negb _); [apply consumes_ret|].
    eapply consumes_weaken; [apply IH|lia].
Qed.

Lemma consumes_Extensions : consumes 1 DecodeExtensions.
Proof.
  unfold DecodeExtensions. apply consumes_bind_r; [auto with consumes|].
  intros. apply consumes_Extensions_loop.
Qed.
#[export] Hint Resolve consumes_Extensions : consumes.

(** Enough fuel for the chain and the input that is left. *)
Lemma no_fuel_BytesZ8 : no_fuel_err DecodeBytesZ8.
Proof. unfold DecodeBytesZ8. solve_no_fuel. Qed.
Lemma no_fuel_BytesZ16 : no_fuel_err DecodeBytesZ16.
Proof. unfold DecodeBytesZ16. solve_no_fuel. Qed.
Lemma no_fuel_BytesZ32 : no_fuel_err DecodeBytesZ32.
Proof. unfold DecodeBytesZ32. solve_no_fuel. Qed.
Lemma no_fuel_Header : no_fuel_err DecodeHeader.
Proof. unfold DecodeHeader. solve_no_fuel. Qed.
#[export] Hint Resolve no_fuel_BytesZ8 no_fuel_BytesZ16 no_fuel_BytesZ32
  no_fuel_Header : no_fuel.
Lemma no_fuel_StringZ8 : no_fuel_err DecodeStringZ8.
Proof. apply no_fuel_BytesZ8. Qed.
Lemma no_fuel_StringZ16 : no_fuel_err DecodeStringZ16.
Proof. apply no_fuel_BytesZ16. Qed.
Lemma no_fuel_Extension : no_fuel_err DecodeExtension.
Proof. unfold DecodeExtension. solve_no_fuel. Qed.
#[export] Hint Resolve no_fuel_StringZ8 no_fuel_StringZ16 no_fuel_Extension : no_fuel.

Lemma no_fuel_Extensions_loop fuel : forall exts r e,
  reader_wf r -> (Reader_Len r < fuel)%nat ->
  DecodeExtensions_loop fuel exts r = Err e -> errors_is e ErrFuel = false.
Proof.
  induction fuel as [|fuel IH]; intros exts r e Hw Hf; [lia|].
  cbn [DecodeExtensions_loop]. unfold mbind at 1, stm_bind at 1.
  destruct (DecodeExtension r) as [[ext r']|e'] eqn:E.
  - destruct (consumes_Extension _ _ _ Hw E) as (Hb & Hoff & Hw').
    cbn zeta. destruct (negb _); [done|]. apply IH; [done|].
    unfold Reader_Len, reader_wf in *. rewrite Hb in *. lia.
  - intros [= <-]. by eapply no_fuel_Extension.
Qed.

Lemma no_fuel_Extensions : no_fuel_err DecodeExtensions.
Proof.
  intros r e Hw. unfold DecodeExtensions, mbind, stm_bind, get_reader.
  apply no_fuel_Extensions_loop; [done|lia].
Qed.
#[export] Hint Resolve no_fuel_Extensions : no_fuel.

Lemma wf_set_more e b : wf_extension e -> wf_extension (set_more e b).
Proof. by destruct e as [[? ? [] ?] ? ?]. Qed.

Lemma eMore_set_more e b : eMore (eHeader (set_more e b)) = b.
Proof. by destruct e as [[]]. Qed.

Lemma Extensions_list_ok exts :
  exts <> [] -> Forall wf_extension exts ->
  exists e, (length exts <= length e)%nat /\
    writes (EncodeExtension_list (normalise_more exts)) e /\
    forall fuel acc, (length exts <= fuel)%nat ->
      decodes (DecodeExtensions_loop fuel acc) (acc ++ normalise_more exts) e.
Proof.
  induction exts as [|x exts IH]; [done|]. intros _ [Hx Hexts]%Forall_cons.
  cbn [normalise_more]. set (more := hasExts exts).
  destruct (codec_ok_Extension _ (wf_set_more x more Hx)) as (e1 & W1 & D1).
  pose proof (decodes_length 1 _ _ _ consumes_Extension D1) as L1.
  destruct exts as [|y exts].
  - exists (e1 ++ []). cbn [normalise_more EncodeExtension_list length]. split_and!.
    + rewrite length_app. cbn. lia.
    + apply writes_bind; [done|apply writes_ret].
    + intros [|fuel] acc Hf; [lia|]. cbn [DecodeExtensions_loop].
      eapply decodes_bind; [done|]. cbn zeta. rewrite eMore_set_more.
      apply decodes_ret.
  - destruct (IH ltac:(done) Hexts) as (e2 & L2 & W2 & D2).
    exists (e1 ++ e2). split_and!.
    + rewrite length_app. cbn [length] in *. lia.
    + by apply writes_bind.
    + intros [|fuel] acc Hf; [cbn in Hf; lia|]. cbn [DecodeExtensions_loop].
      eapply decodes_bind; [done|]. cbn zeta. rewrite eMore_set_more. cbn [negb more].
      change (set_more x more :: normalise_more (y :: exts))
        with ([set_more x more] ++ normalise_more (y :: exts)).
      rewrite (app_assoc acc [_] (normalise_more _)). apply D2. cbn [length] in *. lia.
Qed.

Lemma codec_ok_Extensions_normalise exts :
  exts <> [] -> Forall wf_extension exts ->
  codec_ok (EncodeExtensions exts) DecodeExtensions (normalise_more exts).
Proof.
  intros Hne Hwf. destruct (Extensions_list_ok exts Hne Hwf) as (e & L & W & D).
  exists e. split; [done|]. intros r rest Hw Hr.
  assert (Hf : (length exts <= S (Reader_Len r))%nat).
  { pose proof (f_equal length Hr) as Hl.
    rewrite Reader_Bytes_length, length_app in Hl. lia. }
  exact (D (S (Reader_Len r)) [] Hf r rest Hw Hr).
Qed.

Lemma codec_ok_Extensions exts :
  exts <> [] -> wf_extensions exts ->
  codec_ok (EncodeExtensions exts) DecodeExtensions exts.
Proof.
  intros Hne [Hwf Hn]. rewrite <- Hn at 2. by apply codec_ok_Extensions_normalise.
Qed.

(** A message's optional chain, announced by the header's Z flag. *)
Lemma codec_ok_Extensions_Z ctx exts :
  wf_extensions exts ->
  codec_ok (when (hasExts exts) (EncodeExtensions exts))
    (if hasExts exts then wrap ctx DecodeExtensions else mret []) exts.
Proof.
  intros Hwf. destruct exts as [|e exts]; cbn [hasExts when].
  - apply codec_ok_ret.
  - apply codec_ok_wrap. by apply codec_ok_Extensions.
Qed.

Lemma codec_ok_Extensions_Z_bare exts :
  wf_extensions exts ->
  codec_ok (when (hasExts exts) (EncodeExtensions exts))
    (if hasExts exts then DecodeExtensions else mret []) exts.
Proof.
  intros Hwf. destruct exts as [|e exts]; cbn [hasExts when].
  - apply codec_ok_ret.
  - by apply codec_ok_Extensions.
Qed.

#[export] Hint Resolve codec_ok_Header codec_ok_BytesZ8 codec_ok_BytesZ16
  codec_ok_BytesZ32 codec_ok_StringZ8 codec_ok_StringZ16 codec_ok_Extension
  codec_ok_Extensions codec_ok_Extensions_Z codec_ok_Extensions_Z_bare : codec.

(** Closes [codec_ok enc dec v] for one field. *)
Ltac codec_field :=
  first
    [ solve [eauto 3 with codec]
    | apply codec_ok_wrap, codec_ok_wrap_enc; codec_field
    | apply codec_ok_wrap; codec_field ].

(** Walks a message field by field: guards that do not fire, then one
    encoder step against one decoder step, then the decoder's final [mret]. *)
Ltac codec_fields :=
  repeat first
    [ eapply codec_ok_pure; [solve [apply decodes_guard; done]|]; cbv beta
    | eapply codec_ok_bind; [solve [codec_field]|]; cbn [fst snd]
    | eapply codec_ok_last; [solve [codec_field]|] ].
