(* ===== verification/WirePrim.v ===== *)
(** * internal/wire: primitive values

    ids.go, zid.go, qos.go, resolution.go, timestamp.go, encoding.go and
    wireexpr.go: the values the Zenoh messages are made of. *)
From S2P Require Import Prelude Buffer Vle Codec.

(** ** ids.go *)

Definition IDTransportOAM : Z := 0x00.
Definition IDTransportInit : Z := 0x01.
Definition IDTransportOpen : Z := 0x02.
Definition IDTransportClose : Z := 0x03.
Definition IDTransportKeepAlive : Z := 0x04.
Definition IDTransportFrame : Z := 0x05.
Definition IDTransportFragment : Z := 0x06.
Definition IDTransportJoin : Z := 0x07.

Definition IDNetworkInterest : Z := 0x19.
Definition IDNetworkResponseFinal : Z := 0x1A.
Definition IDNetworkResponse : Z := 0x1B.
Definition IDNetworkRequest : Z := 0x1C.
Definition IDNetworkPush : Z := 0x1D.
Definition IDNetworkDeclare : Z := 0x1E.
Definition IDNetworkOAM : Z := 0x1F.

Definition IDDeclareKeyExpr : Z := 0x00.
Definition IDUndeclareKeyExpr : Z := 0x01.
Definition IDDeclareSubscriber : Z := 0x02.
Definition IDUndeclareSubscriber : Z := 0x03.
Definition IDDeclareQueryable : Z := 0x04.
Definition IDUndeclareQueryable : Z := 0x05.
Definition IDDeclareToken : Z := 0x06.
Definition IDUndeclareToken : Z := 0x07.
Definition IDDeclareFinal : Z := 0x1A.

Definition IDDataPut : Z := 0x01.
Definition IDDataDel : Z := 0x02.
Definition IDDataQuery : Z := 0x03.
Definition IDDataReply : Z := 0x04.
Definition IDDataErr : Z := 0x05.

Definition IsNetworkMessageID (id : Z) : bool :=
  (IDNetworkInterest <=? id) && (id <=? IDNetworkOAM).

Definition IDScoutScout : Z := 0x01.
Definition IDScoutHello : Z := 0x02.

Definition ProtoVersion : Z := 0x09.

(** ** zid.go *)

Record ZenohID := mkZID { zid_bytes : bytes }.

#[export] Instance ZenohID_eq_dec : EqDecision ZenohID.
Proof. solve_decision. Defined.

Definition ZenohID_IsValid (z : ZenohID) : bool :=
  (1 <=? len (zid_bytes z)) && (len (zid_bytes z) <=? 16).
Definition ZenohID_Len (z : ZenohID) : Z := len (zid_bytes z).
Definition ZenohID_Equal (z o : ZenohID) : bool :=
  bool_decide (zid_bytes z = zid_bytes o).

(** [WhatAmI] is a [uint8]: 0 router, 1 peer, 2 client, 3 reserved. *)
Definition WhatAmIRouter : Z := 0.
Definition WhatAmIPeer : Z := 1.
Definition WhatAmIClient : Z := 2.
Definition WhatAmIReserved : Z := 3.

Definition EncodePackedZIDByte (zidLen wai : Z) : WM unit :=
  guard_err ((zidLen <? 1) || (zidLen >? 16)) (ErrMsg "wire: zid_len out of range");;
  guard_err (wai >? WhatAmIReserved) (ErrMsg "wire: WhatAmI out of range");;
  AppendByte (Z.lor (Z.shiftl (zidLen - 1) 4) (Z.land wai 3)).

Definition DecodePackedZIDByte : RM (Z * Z) :=
  b ← ReadByte;
  mret (Z.land (Z.shiftr b 4) 0x0F + 1, Z.land b 3).

Definition EncodeZIDBytes (zid : ZenohID) (zidLen : Z) : WM unit :=
  guard_err (negb (ZenohID_Len zid =? zidLen)) (ErrMsg "wire: ZID length mismatch");;
  AppendBytes (zid_bytes zid).

Definition DecodeZIDBytes (zidLen : Z) : RM ZenohID :=
  b ← ReadN zidLen; mret (mkZID b).

(** ** qos.go *)

Definition ExtIDQoS : Z := 0x01.

(** [QoSPriority] is a [uint8], 0 (control) to 7 (background). *)
Definition QoSPriorityControl : Z := 0.
Definition QoSPriorityData : Z := 5.
Definition QoSPriorityBackground : Z := 7.
Definition QoSPriority_IsValid (p : Z) : bool := p <=? QoSPriorityBackground.

Record QoS := mkQoS {
  qPriority : Z; qDontDrop : bool; qExpress : bool; qDontDropFirst : bool }.

#[export] Instance QoS_eq_dec : EqDecision QoS.
Proof. solve_decision. Defined.

Definition DefaultQoS : QoS := mkQoS QoSPriorityData false false false.

Definition QoS_EncodeZ64 (q : QoS) : Z :=
  let b := Z.land (qPriority q) 7 in
  let b := or_flag b (qDontDrop q) (Z.shiftl 1 3) in
  let b := or_flag b (qExpress q) (Z.shiftl 1 4) in
  or_flag b (qDontDropFirst q) (Z.shiftl 1 5).

Definition DecodeQoSZ64 (v : Z) : QoS :=
  let b := Z.land v 0xFF in
  {| qPriority := Z.land b 7;
     qDontDrop := has_flag b (Z.shiftl 1 3);
     qExpress := has_flag b (Z.shiftl 1 4);
     qDontDropFirst := has_flag b (Z.shiftl 1 5) |}.

(** ** resolution.go: one byte, FSN width code in bits 1:0, RID in bits 3:2 *)

Inductive Field := FieldFrameSN | FieldRequestID.

Definition Field_shift (f : Field) : Z :=
  match f with FieldFrameSN => 0 | FieldRequestID => 2 end.

Definition DefaultResolution : Z := 0x0A.

Definition Resolution_Code (r : Z) (f : Field) : Z :=
  Z.land (Z.shiftr r (Field_shift f)) 3.

Definition Resolution_Bits (r : Z) (f : Field) : Z :=
  let code := Z.land (Z.shiftr r (Field_shift f)) 3 in
  if code =? 0 then 7 else if code =? 1 then 14 else if code =? 2 then 28 else 63.

Definition Resolution_Mask (r : Z) (f : Field) : Z :=
  let b := Resolution_Bits r f in
  if b >=? 64 then 2 ^ 64 - 1 else uint64 (Z.shiftl 1 b) - 1.

Definition NewResolution (fsnCode ridCode : Z) : Z :=
  Z.lor (Z.shiftl (Z.land ridCode 3) 2) (Z.land fsnCode 3).

Definition MinResolution (a b : Z) : Z :=
  NewResolution
    (Z.min (Resolution_Code a FieldFrameSN) (Resolution_Code b FieldFrameSN))
    (Z.min (Resolution_Code a FieldRequestID) (Resolution_Code b FieldRequestID)).

(** ** timestamp.go *)

Record Timestamp := mkTimestamp { tNTP64 : Z; tZID : ZenohID }.

#[export] Instance Timestamp_Encoder : Encoder Timestamp := fun t =>
  guard_err (negb (ZenohID_IsValid (tZID t)))
    (ErrMsg "wire: Timestamp ZID must be 1..16 bytes");;
  EncodeZ64 (tNTP64 t);;
  EncodeZ8 (uint8 (ZenohID_Len (tZID t)));;
  AppendBytes (zid_bytes (tZID t)).

Definition DecodeTimestamp : RM Timestamp :=
  ntp ← DecodeZ64;
  zidLen ← DecodeZ8;
  zid ← DecodeZIDBytes zidLen;
  mret (mkTimestamp ntp zid).

(** ** encoding.go *)

Definition MaxEncodingID : Z := 0x7FFFFFFF.

Record Encoding := mkEncoding { encID : Z; encSchema : bytes }.

Definition nonempty (s : bytes) : bool := match s with [] => false | _ => true end.

#[export] Instance Encoding_Encoder : Encoder Encoding := fun e =>
  guard_err (encID e >? MaxEncodingID)
    (ErrMsg "wire: encoding ID exceeds 31-bit wire field");;
  EncodeZ32 (or_flag (uint32 (Z.shiftl (encID e) 1)) (nonempty (encSchema e)) 1);;
  when (nonempty (encSchema e)) (EncodeStringZ8 (encSchema e)).

Definition DecodeEncoding : RM Encoding :=
  idAndS ← DecodeZ32;
  s ← (if Z.land idAndS 1 =? 1 then DecodeStringZ8 else mret []);
  mret (mkEncoding (Z.shiftr idAndS 1) s).

(** ** wireexpr.go *)

Record WireExpr := mkWireExpr { weScope : Z; weSuffix : bytes; weMapping : bool }.

Definition Named (k : WireExpr) : bool := nonempty (weSuffix k).

Definition EncodeScope (k : WireExpr) : WM unit :=
  EncodeZ16 (weScope k);;
  when (Named k) (EncodeStringZ16 (weSuffix k)).

Definition DecodeWireExpr (named mapping : bool) : RM WireExpr :=
  scope ← DecodeZ16;
  s ← (if named then DecodeStringZ16 else mret []);
  mret (mkWireExpr scope s mapping).

Arguments EncodePackedZIDByte : simpl never.
Arguments DecodePackedZIDByte : simpl never.
Arguments EncodeZIDBytes : simpl never.
Arguments DecodeZIDBytes : simpl never.
Arguments DecodeTimestamp : simpl never.
Arguments DecodeEncoding : simpl never.
Arguments EncodeScope : simpl never.
Arguments DecodeWireExpr : simpl never.

(** ** Well-formed values *)

Definition wf_zid (z : ZenohID) : Prop := 1 <= len (zid_bytes z) <= 16.
Definition wf_wai (wai : Z) : Prop := 0 <= wai <= 3.
Definition wf_timestamp (t : Timestamp) : Prop :=
  0 <= tNTP64 t < 2 ^ 64 /\ wf_zid (tZID t).
Definition wf_encoding (e : Encoding) : Prop :=
  0 <= encID e <= MaxEncodingID /\ wf_string 0xFF (encSchema e).
Definition wf_wireexpr (k : WireExpr) : Prop :=
  0 <= weScope k < 2 ^ 16 /\ wf_string 0xFFFF (weSuffix k).

Lemma ZenohID_IsValid_wf z : ZenohID_IsValid z = true <-> wf_zid z.
Proof. unfold ZenohID_IsValid, wf_zid. rewrite andb_true_iff. lia. Qed.

(** ** Round trips *)

Lemma unpack_zid_byte wai : wf_wai wai -> forall x, 0 <= x < 16 ->
  let b := Z.lor (Z.shiftl x 4) (Z.land wai 3) in
  (Z.land (Z.shiftr b 4) 0x0F + 1, Z.land b 3) = (x + 1, wai).
Proof.
  unfold wf_wai. intros Hw.
  assert (wai = 0 \/ wai = 1 \/ wai = 2 \/ wai = 3) as [->|[->|[->| ->]]] by lia;
    by_range 16%nat.
Qed.

Lemma codec_ok_PackedZIDByte n wai :
  1 <= n <= 16 -> wf_wai wai ->
  codec_ok (EncodePackedZIDByte n wai) DecodePackedZIDByte (n, wai).
Proof.
  intros Hn Hw. apply codec_ok_guard; [lia|].
  apply codec_ok_guard; [unfold WhatAmIReserved, wf_wai in *; lia|].
  eapply codec_ok_last; [apply codec_ok_AppendByte|].
  rewrite (unpack_zid_byte wai Hw (n - 1)) by lia. f_equal. lia.
Qed.

Lemma codec_ok_ZIDBytes z n :
  n = len (zid_bytes z) -> codec_ok (EncodeZIDBytes z n) (DecodeZIDBytes n) z.
Proof.
  intros ->. apply codec_ok_guard; [unfold ZenohID_Len; by rewrite Z.eqb_refl|].
  eapply codec_ok_last; [by apply codec_ok_AppendBytes|by destruct z].
Qed.

Lemma DecodeQoSZ64_EncodeZ64 q :
  0 <= qPriority q < 8 -> DecodeQoSZ64 (QoS_EncodeZ64 q) = q.
Proof.
  destruct q as [p d e f]. cbn [qPriority]. revert p.
  destruct d, e, f; by_range 8%nat.
Qed.

Lemma QoS_EncodeZ64_range q : 0 <= qPriority q < 8 -> 0 <= QoS_EncodeZ64 q < 64.
Proof.
  destruct q as [p d e f]. cbn [qPriority]. revert p.
  destruct d, e, f; by_range 8%nat.
Qed.

Lemma codec_ok_Timestamp t : wf_timestamp t -> codec_ok (EncodeTo t) DecodeTimestamp t.
Proof.
  destruct t as [ntp z]. intros [Hn Hz]. cbn in Hn, Hz. pose proof Hz as Hz'.
  unfold wf_zid in Hz'. apply ZenohID_IsValid_wf in Hz.
  apply codec_ok_guard; [cbn; by rewrite Hz|]. cbn [tNTP64 tZID].
  eapply codec_ok_bind; [by apply codec_ok_Z64|].
  unfold uint8, ZenohID_Len. rewrite Z.mod_small by lia.
  eapply codec_ok_bind; [apply codec_ok_Z8; lia|].
  eapply codec_ok_last; [|reflexivity].
  unfold DecodeZIDBytes. eapply codec_ok_last; [by apply codec_ok_AppendBytes|by destruct z].
Qed.

Lemma encoding_word id s :
  0 <= id <= MaxEncodingID ->
  let w := or_flag (uint32 (Z.shiftl id 1)) s 1 in
  0 <= w < 2 ^ 32 /\ Z.shiftr w 1 = id /\ (Z.land w 1 =? 1) = s.
Proof.
  unfold MaxEncodingID, uint32, or_flag. intros Hid. cbv zeta.
  rewrite Z.shiftl_mul_pow2 by lia. rewrite Z.mod_small by lia.
  assert (E : (if s then Z.lor (id * 2 ^ 1) 1 else id * 2 ^ 1) = Z.b2z s + id * 2 ^ 1).
  { destruct s; cbn [Z.b2z]; [|lia].
    rewrite Z.lor_comm, <- Z.shiftl_mul_pow2, lor_shiftl_add by lia.
    by rewrite Z.shiftl_mul_pow2 by lia. }
  rewrite E. split; [destruct s; cbn [Z.b2z]; lia|split].
  - rewrite Z.shiftr_div_pow2, Z.div_add by lia. by destruct s.
  - rewrite (land_ones_mod _ 1) by lia. rewrite Z.mod_add by lia. by destruct s.
Qed.

Lemma codec_ok_Encoding e : wf_encoding e -> codec_ok (EncodeTo e) DecodeEncoding e.
Proof.
  destruct e as [id s]. intros [Hid Hs]. cbn in Hid, Hs.
  apply codec_ok_guard; [cbn; unfold MaxEncodingID in *; lia|].
  cbn [encID encSchema].
  destruct (encoding_word id (nonempty s) Hid) as (Hw & Hsh & Hbit).
  eapply codec_ok_bind; [by apply codec_ok_Z32|]. rewrite Hsh, Hbit.
  eapply codec_ok_last; [|reflexivity].
  destruct s; [apply codec_ok_ret|by apply codec_ok_StringZ8].
Qed.

Lemma codec_ok_WireExpr k :
  wf_wireexpr k -> codec_ok (EncodeScope k) (DecodeWireExpr (Named k) (weMapping k)) k.
Proof.
  destruct k as [sc s m]. intros [Hsc Hs]. cbn in Hsc, Hs. unfold Named.
  cbn [weScope weSuffix weMapping].
  eapply codec_ok_bind; [by apply codec_ok_Z16|].
  eapply codec_ok_last; [|reflexivity].
  destruct s; [apply codec_ok_ret|by apply codec_ok_StringZ16].
Qed.

#[export] Hint Resolve codec_ok_PackedZIDByte codec_ok_ZIDBytes codec_ok_Timestamp
  codec_ok_Encoding codec_ok_WireExpr : codec.

Lemma consumes_PackedZIDByte : consumes 1 DecodePackedZIDByte.
Proof. unfold DecodePackedZIDByte. solve_consumes. Qed.
Lemma consumes_ZIDBytes n : consumes 0 (DecodeZIDBytes n).
Proof. unfold DecodeZIDBytes. solve_consumes. Qed.
#[export] Hint Resolve consumes_PackedZIDByte consumes_ZIDBytes : consumes.
Lemma consumes_Timestamp : consumes 1 DecodeTimestamp.
Proof. unfold DecodeTimestamp. solve_consumes. Qed.
Lemma consumes_Encoding : consumes 1 DecodeEncoding.
Proof. unfold DecodeEncoding. solve_consumes. Qed.
Lemma consumes_WireExpr n m : consumes 1 (DecodeWireExpr n m).
Proof. unfold DecodeWireExpr. solve_consumes. Qed.
#[export] Hint Resolve consumes_Timestamp consumes_Encoding consumes_WireExpr : consumes.

Lemma no_fuel_PackedZIDByte : no_fuel_err DecodePackedZIDByte.
Proof. unfold DecodePackedZIDByte. solve_no_fuel. Qed.
Lemma no_fuel_ZIDBytes n : no_fuel_err (DecodeZIDBytes n).
Proof. unfold DecodeZIDBytes. solve_no_fuel. Qed.
#[export] Hint Resolve no_fuel_PackedZIDByte no_fuel_ZIDBytes : no_fuel.
Lemma no_fuel_Timestamp : no_fuel_err DecodeTimestamp.
Proof. unfold DecodeTimestamp. solve_no_fuel. Qed.
Lemma no_fuel_Encoding : no_fuel_err DecodeEncoding.
Proof. unfold DecodeEncoding. solve_no_fuel. Qed.
Lemma no_fuel_WireExpr n m : no_fuel_err (DecodeWireExpr n m).
Proof. unfold DecodeWireExpr. solve_no_fuel. Qed.
#[export] Hint Resolve no_fuel_Timestamp no_fuel_Encoding no_fuel_WireExpr : no_fuel.

(** ** Resolution *)

Lemma Resolution_Code_New fsn rid f :
  Resolution_Code (NewResolution fsn rid) f =
  match f with FieldFrameSN => Z.land fsn 3 | FieldRequestID => Z.land rid 3 end.
Proof.
  unfold NewResolution, Resolution_Code.
  change 3 with (2 ^ 2 - 1). rewrite !land_ones_mod by lia.
  pose proof (Z.mod_pos_bound fsn (2 ^ 2) ltac:(lia)).
  pose proof (Z.mod_pos_bound rid (2 ^ 2) ltac:(lia)).
  rewrite Z.lor_comm, lor_shiftl_add by lia.
  destruct f; cbn [Field_shift].
  - rewrite Z.shiftr_0_r, Z.mod_add by lia. by rewrite Z.mod_small by lia.
  - rewrite Z.shiftr_div_pow2, Z.div_add, Z.div_small by lia.
    by rewrite Z.mod_small by lia.
Qed.

Lemma Resolution_Code_range r f : 0 <= Resolution_Code r f < 4.
Proof.
  unfold Resolution_Code. change 3 with (2 ^ 2 - 1). rewrite land_ones_mod by lia.
  apply Z.mod_pos_bound. lia.
Qed.

Lemma MinResolution_Code a b f :
  Resolution_Code (MinResolution a b) f =
  Z.min (Resolution_Code a f) (Resolution_Code b f).
Proof.
  unfold MinResolution. rewrite Resolution_Code_New.
  assert (H : forall x, 0 <= x < 4 -> Z.land x 3 = x).
  { intros x Hx. change 3 with (2 ^ 2 - 1). rewrite land_ones_mod by lia.
    by apply Z.mod_small. }
  destruct f; apply H;
    pose proof (Resolution_Code_range a FieldFrameSN);
    pose proof (Resolution_Code_range b FieldFrameSN);
    pose proof (Resolution_Code_range a FieldRequestID);
    pose proof (Resolution_Code_range b FieldRequestID); lia.
Qed.

Lemma Resolution_Mask_Bits r f : Resolution_Mask r f = 2 ^ Resolution_Bits r f - 1.
Proof.
  unfold Resolution_Mask.
  assert (H : Resolution_Bits r f ∈ [7; 14; 28; 63]).
  { unfold Resolution_Bits. cbn zeta. repeat case_match; set_solver. }
  revert H. generalize (Resolution_Bits r f). intros n Hn.
  repeat (apply elem_of_cons in Hn as [->|Hn]; [done|]). set_solver.
Qed.
