(* ===== verification/WireTransport.v ===== *)
(** * internal/wire: transport and scouting messages

    init.go, open.go, close.go, keepalive.go, frame.go, fragment.go, join.go
    and scout.go.  Each message is a Record, its [EncodeTo] an instance of
    [Encoder], its decoder a function of the already consumed header.
    [WireMessage] is the interface the upper layers use: the header a message
    is encoded with, and that its decoder inverts its encoder. *)
From S2P Require Import Prelude Buffer Vle Codec WirePrim.

(** ** KEEP_ALIVE *)

Record KeepAlive := mkKeepAlive { kaExtensions : list Extension }.

Definition KeepAlive_header (m : KeepAlive) : Header :=
  mkHeader IDTransportKeepAlive false false (hasExts (kaExtensions m)).

#[export] Instance KeepAlive_Encoder : Encoder KeepAlive := fun m =>
  let h := KeepAlive_header m in
  EncodeHeader h;;
  when (hZ h) (EncodeExtensions (kaExtensions m)).

Definition DecodeKeepAlive (h : Header) : RM KeepAlive :=
  guard_err (negb (hID h =? IDTransportKeepAlive))
    (ErrMsg "wire: expected KEEPALIVE header");;
  exts ← (if hZ h then wrap "KEEPALIVE extensions" DecodeExtensions else mret []);
  mret (mkKeepAlive exts).

(** ** CLOSE *)

Record Close := mkClose {
  clSession : bool; clReason : Z; clExtensions : list Extension }.

Definition Close_header (m : Close) : Header :=
  mkHeader IDTransportClose (clSession m) false (hasExts (clExtensions m)).

#[export] Instance Close_Encoder : Encoder Close := fun m =>
  let h := Close_header m in
  EncodeHeader h;;
  AppendByte (clReason m);;
  when (hZ h) (EncodeExtensions (clExtensions m)).

Definition DecodeClose (h : Header) : RM Close :=
  guard_err (negb (hID h =? IDTransportClose))
    (ErrMsg "wire: expected CLOSE header");;
  reason ← ReadByte;
  exts ← (if hZ h then wrap "CLOSE extensions" DecodeExtensions else mret []);
  mret (mkClose (hF1 h) reason exts).

(** ** INIT *)

Record Init := mkInit {
  inAck : bool; inVersion : Z; inZID : ZenohID; inWhatAmI : Z;
  inHasSizeInfo : bool; inResolution : Z; inBatchSize : Z;
  inCookie : bytes; inExtensions : list Extension }.

Definition Init_header (m : Init) : Header :=
  mkHeader (Z.land HdrIDMask IDTransportInit) (inAck m) (inHasSizeInfo m)
    (hasExts (inExtensions m)).

(** The resolution byte and the batch size, present when S is set. *)
Definition EncodeSizeInfo (resolution batchSize : Z) : WM unit :=
  AppendByte resolution;; AppendU16LE batchSize.
Definition DecodeSizeInfo (s : bool) : RM (Z * Z) :=
  if s then res ← ReadByte; bs ← ReadU16LE; mret (res, bs) else mret (0, 0).

#[export] Instance Init_Encoder : Encoder Init := fun m =>
  let h := Init_header m in
  EncodeHeader h;;
  AppendByte (inVersion m);;
  EncodePackedZIDByte (ZenohID_Len (inZID m)) (inWhatAmI m);;
  EncodeZIDBytes (inZID m) (ZenohID_Len (inZID m));;
  when (inHasSizeInfo m) (EncodeSizeInfo (inResolution m) (inBatchSize m));;
  when (inAck m) (wrap "INIT cookie" (EncodeBytesZ16 (inCookie m)));;
  when (hZ h) (EncodeExtensions (inExtensions m)).

Definition DecodeInit (h : Header) : RM Init :=
  guard_err (negb (hID h =? IDTransportInit)) (ErrMsg "wire: expected INIT header");;
  version ← ReadByte;
  zw ← DecodePackedZIDByte;
  zid ← DecodeZIDBytes zw.1;
  rb ← DecodeSizeInfo (hF2 h);
  cookie ← (if hF1 h then wrap "INIT cookie" DecodeBytesZ16 else mret []);
  exts ← (if hZ h then wrap "INIT extensions" DecodeExtensions else mret []);
  mret (mkInit (hF1 h) version zid zw.2 (hF2 h) rb.1 rb.2 cookie exts).

(** ** OPEN *)

Record Open := mkOpen {
  opAck : bool; opLeaseSeconds : bool; opLease : Z; opInitialSN : Z;
  opCookie : bytes; opExtensions : list Extension }.

Definition Open_header (m : Open) : Header :=
  mkHeader IDTransportOpen (opAck m) (opLeaseSeconds m) (hasExts (opExtensions m)).

#[export] Instance Open_Encoder : Encoder Open := fun m =>
  let h := Open_header m in
  EncodeHeader h;;
  EncodeZ64 (opLease m);;
  EncodeZ64 (opInitialSN m);;
  when (negb (opAck m)) (wrap "OPEN cookie" (EncodeBytesZ16 (opCookie m)));;
  when (hZ h) (EncodeExtensions (opExtensions m)).

Definition DecodeOpen (h : Header) : RM Open :=
  guard_err (negb (hID h =? IDTransportOpen)) (ErrMsg "wire: expected OPEN header");;
  lease ← DecodeZ64;
  sn ← DecodeZ64;
  cookie ← (if negb (hF1 h) then wrap "OPEN cookie" DecodeBytesZ16 else mret []);
  exts ← (if hZ h then wrap "OPEN extensions" DecodeExtensions else mret []);
  mret (mkOpen (hF1 h) (hF2 h) lease sn cookie exts).

(** ** FRAME *)

Record Frame := mkFrame {
  frReliable : bool; frSeqNum : Z; frExtensions : list Extension; frBody : bytes }.

Definition Frame_header (m : Frame) : Header :=
  mkHeader IDTransportFrame (frReliable m) false (hasExts (frExtensions m)).

#[export] Instance Frame_Encoder : Encoder Frame := fun m =>
  let h := Frame_header m in
  EncodeHeader h;;
  EncodeZ64 (frSeqNum m);;
  when (hZ h) (EncodeExtensions (frExtensions m));;
  AppendBytes (frBody m).

(** The body stays in the reader for the caller to iterate. *)
Definition DecodeFrame (h : Header) : RM Frame :=
  guard_err (negb (hID h =? IDTransportFrame)) (ErrMsg "wire: expected FRAME header");;
  sn ← DecodeZ64;
  exts ← (if hZ h then wrap "FRAME extensions" DecodeExtensions else mret []);
  mret (mkFrame (hF1 h) sn exts []).

(** ** FRAGMENT *)

Record Fragment := mkFragment {
  fgReliable : bool; fgMore : bool; fgSeqNum : Z;
  fgExtensions : list Extension; fgBody : bytes }.

Definition Fragment_header (m : Fragment) : Header :=
  mkHeader IDTransportFragment (fgReliable m) (fgMore m) (hasExts (fgExtensions m)).

#[export] Instance Fragment_Encoder : Encoder Fragment := fun m =>
  let h := Fragment_header m in
  EncodeHeader h;;
  EncodeZ64 (fgSeqNum m);;
  when (hZ h) (EncodeExtensions (fgExtensions m));;
  AppendBytes (fgBody m).

(** The body runs to the end of the batch. *)
Definition DecodeFragment (h : Header) : RM Fragment :=
  guard_err (negb (hID h =? IDTransportFragment))
    (ErrMsg "wire: expected FRAGMENT header");;
  sn ← DecodeZ64;
  exts ← (if hZ h then wrap "FRAGMENT extensions" DecodeExtensions else mret []);
  body ← ReadRest;
  mret (mkFragment (hF1 h) (hF2 h) sn exts body).

(** ** JOIN *)

Record Join := mkJoin {
  jLeaseSeconds : bool; jHasSizeInfo : bool; jVersion : Z; jZID : ZenohID;
  jWhatAmI : Z; jResolution : Z; jBatchSize : Z; jLease : Z;
  jNextSNRel : Z; jNextSNBE : Z; jExtensions : list Extension }.

Definition Join_header (m : Join) : Header :=
  mkHeader IDTransportJoin (jLeaseSeconds m) (jHasSizeInfo m) (hasExts (jExtensions m)).

#[export] Instance Join_Encoder : Encoder Join := fun m =>
  let h := Join_header m in
  EncodeHeader h;;
  AppendByte (jVersion m);;
  EncodePackedZIDByte (ZenohID_Len (jZID m)) (jWhatAmI m);;
  EncodeZIDBytes (jZID m) (ZenohID_Len (jZID m));;
  when (jHasSizeInfo m) (EncodeSizeInfo (jResolution m) (jBatchSize m));;
  EncodeZ64 (jLease m);;
  EncodeZ64 (jNextSNRel m);;
  EncodeZ64 (jNextSNBE m);;
  when (hZ h) (EncodeExtensions (jExtensions m)).

Definition DecodeJoin (h : Header) : RM Join :=
  guard_err (negb (hID h =? IDTransportJoin)) (ErrMsg "wire: expected JOIN header");;
  version ← ReadByte;
  zw ← DecodePackedZIDByte;
  zid ← DecodeZIDBytes zw.1;
  rb ← DecodeSizeInfo (hF2 h);
  lease ← DecodeZ64;
  rel ← DecodeZ64;
  be ← DecodeZ64;
  exts ← (if hZ h then wrap "JOIN extensions" DecodeExtensions else mret []);
  mret (mkJoin (hF1 h) (hF2 h) version zid zw.2 rb.1 rb.2 lease rel be exts).

(** The per-lane initial sequence numbers: index = priority (0..7). *)
Record LaneSNs := mkLaneSNs { lsReliable : list Z; lsBestEffort : list Z }.

(** [for i := range 8]: Rel[i] then BE[i]. *)
Fixpoint EncodeLaneSNs (rel be : list Z) : WM unit :=
  match rel, be with
  | r :: rel, b :: be => EncodeZ64 r;; EncodeZ64 b;; EncodeLaneSNs rel be
  | _, _ => mret tt
  end.

Definition AttachLaneSNs (j : Join) (sns : LaneSNs) : result Join :=
  match EncodeLaneSNs (lsReliable sns) (lsBestEffort sns) NewWriter with
  | Err e => Err e
  | Ok (_, w) =>
      let ext := mkExtension (mkExtHeader ExtIDQoS true ExtEncZBuf false) 0
                   (Writer_Bytes w) in
      Ok (mkJoin (jLeaseSeconds j) (jHasSizeInfo j) (jVersion j) (jZID j)
            (jWhatAmI j) (jResolution j) (jBatchSize j) (jLease j)
            (jNextSNRel j) (jNextSNBE j) (jExtensions j ++ [ext]))
  end.

(** [n] lanes are left to read. *)
Fixpoint DecodeLaneSNs_loop (n : nat) : RM LaneSNs :=
  match n with
  | O => mret (mkLaneSNs [] [])
  | S n =>
      r ← wrap "JOIN lane SN.reliable" DecodeZ64;
      b ← wrap "JOIN lane SN.best_effort" DecodeZ64;
      rest ← DecodeLaneSNs_loop n;
      mret (mkLaneSNs (r :: lsReliable rest) (b :: lsBestEffort rest))
  end.

(** [Ok None] is [(nil, false, nil)]. *)
Fixpoint DecodeLaneSNs_exts (exts : list Extension) : result (option LaneSNs) :=
  match exts with
  | [] => Ok None
  | ext :: exts =>
      if negb (eID (eHeader ext) =? ExtIDQoS)
         || negb (bool_decide (eEncoding (eHeader ext) = ExtEncZBuf))
      then DecodeLaneSNs_exts exts
      else match DecodeLaneSNs_loop 8 (NewReader (eZBuf ext)) with
           | Err e => Err e
           | Ok (sns, r) =>
               if decide (Reader_Len r = 0)%nat then Ok (Some sns)
               else Err (ErrMsg "JOIN lane SN extension has trailing bytes")
           end
  end.

Definition DecodeLaneSNs (j : Join) : result (option LaneSNs) :=
  DecodeLaneSNs_exts (jExtensions j).

(** ** SCOUT *)

(** [WhatAmIMatcher] is a [uint8] bitmap: 1 router, 2 peer, 4 client. *)
Definition MatcherRouter : Z := 1.
Definition MatcherPeer : Z := 2.
Definition MatcherClient : Z := 4.
Definition MatcherAny : Z := Z.lor (Z.lor MatcherRouter MatcherPeer) MatcherClient.

Definition Matcher_Matches (m role : Z) : bool :=
  if role >? WhatAmIClient then false
  else negb (Z.land m (Z.shiftl 1 role) =? 0).

Record Scout := mkScout {
  scVersion : Z; scMatcher : Z; scZID : ZenohID; scExtensions : list Extension }.

Definition Scout_HasZID (m : Scout) : bool := ZenohID_IsValid (scZID m).

Definition Scout_header (m : Scout) : Header :=
  mkHeader IDScoutScout false false (hasExts (scExtensions m)).

(** WHAT in bits 2:0, I at bit 3, [zid_len - 1] in bits 7:4. *)
Definition Scout_packed (m : Scout) : Z :=
  let packed := Z.land (scMatcher m) MatcherAny in
  if Scout_HasZID m
  then Z.lor (Z.lor packed (Z.shiftl 1 3)) (Z.shiftl (ZenohID_Len (scZID m) - 1) 4)
  else packed.

#[export] Instance Scout_Encoder : Encoder Scout := fun m =>
  guard_err (negb (Z.ldiff (scMatcher m) MatcherAny =? 0))
    (ErrMsg "wire: SCOUT matcher has invalid bits set");;
  let h := Scout_header m in
  EncodeHeader h;;
  AppendByte (scVersion m);;
  AppendByte (Scout_packed m);;
  when (Scout_HasZID m) (EncodeZIDBytes (scZID m) (ZenohID_Len (scZID m)));;
  when (hZ h) (EncodeExtensions (scExtensions m)).

Definition DecodeScout (h : Header) : RM Scout :=
  guard_err (negb (hID h =? IDScoutScout)) (ErrMsg "wire: expected SCOUT header");;
  version ← ReadByte;
  packed ← ReadByte;
  zid ← (if has_flag packed (Z.shiftl 1 3)
         then DecodeZIDBytes (Z.land (Z.shiftr packed 4) 0x0F + 1)
         else mret (mkZID []));
  exts ← (if hZ h then wrap "SCOUT extensions" DecodeExtensions else mret []);
  mret (mkScout version (Z.land packed 7) zid exts).

(** ** HELLO *)

Record Hello := mkHello {
  heVersion : Z; heWhatAmI : Z; heZID : ZenohID; heLocators : list bytes;
  heExtensions : list Extension }.

Definition Hello_header (m : Hello) : Header :=
  mkHeader IDScoutHello (match heLocators m with [] => false | _ => true end) false
    (hasExts (heExtensions m)).

Fixpoint EncodeLocators (locs : list bytes) : WM unit :=
  match locs with
  | [] => mret tt
  | l :: locs => EncodeStringZ8 l;; EncodeLocators locs
  end.

Fixpoint DecodeLocators (n : nat) : RM (list bytes) :=
  match n with
  | O => mret []
  | S n => l ← DecodeStringZ8; ls ← DecodeLocators n; mret (l :: ls)
  end.

#[export] Instance Hello_Encoder : Encoder Hello := fun m =>
  let h := Hello_header m in
  EncodeHeader h;;
  AppendByte (heVersion m);;
  EncodePackedZIDByte (ZenohID_Len (heZID m)) (heWhatAmI m);;
  EncodeZIDBytes (heZID m) (ZenohID_Len (heZID m));;
  when (hF1 h)
    (guard_err (Z.of_nat (length (heLocators m)) >? 0xFF)
       (ErrMsg "wire: HELLO too many locators");;
     EncodeZ8 (uint8 (Z.of_nat (length (heLocators m))));;
     EncodeLocators (heLocators m));;
  when (hZ h) (EncodeExtensions (heExtensions m)).

Definition DecodeHello (h : Header) : RM Hello :=
  guard_err (negb (hID h =? IDScoutHello)) (ErrMsg "wire: expected HELLO header");;
  version ← ReadByte;
  zw ← DecodePackedZIDByte;
  zid ← DecodeZIDBytes zw.1;
  locs ← (if hF1 h then n ← DecodeZ8; DecodeLocators (Z.to_nat n) else mret []);
  exts ← (if hZ h then wrap "HELLO extensions" DecodeExtensions else mret []);
  mret (mkHello version zw.2 zid locs exts).

Arguments EncodeSizeInfo : simpl never.
Arguments DecodeSizeInfo : simpl never.

(** ** The interface of self-delimiting messages *)

Class WireMessage (T : Type) `{Encoder T} := {
  msg_id : Z;
  msg_header : T -> Header;
  decode_msg : Header -> RM T;
  wf_msg : T -> Prop;
  msg_header_id m : hID (msg_header m) = msg_id;
  msg_round_trip m : wf_msg m ->
    exists body, writes (EncodeTo m) (PackHeader (msg_header m) :: body) /\
                 decodes (decode_msg (msg_header m)) m body;
  msg_reject h r : hID h <> msg_id -> is_ok (decode_msg h r) = false;
  msg_consumes h : consumes 0 (decode_msg h);
  msg_no_fuel h : no_fuel_err (decode_msg h);
}.

Lemma round_trip_intro {T} h (body : WM unit) (dec : RM T) m :
  codec_ok body dec m ->
  exists e, writes (EncodeHeader h;; body) (PackHeader h :: e) /\ decodes dec m e.
Proof.
  intros (e & W & D). exists e. split; [|done].
  change (PackHeader h :: e) with ([PackHeader h] ++ e). by apply writes_bind.
Qed.

Lemma guard_reject {T} (id want : Z) e (k : unit -> RM T) r :
  id <> want -> is_ok ((guard_err (negb (id =? want)) e ≫= k) r) = false.
Proof. intros Hne. by replace (id =? want) with false by lia. Qed.

(** ** Well-formed messages *)

Definition wf_KeepAlive (m : KeepAlive) : Prop := wf_extensions (kaExtensions m).
Definition wf_Close (m : Close) : Prop := wf_extensions (clExtensions m).

Definition wf_size_info (s : bool) (res bs : Z) : Prop :=
  if s then 0 <= bs < 2 ^ 16 else res = 0 /\ bs = 0.

Definition wf_Init (m : Init) : Prop :=
  wf_zid (inZID m) /\ wf_wai (inWhatAmI m) /\
  wf_size_info (inHasSizeInfo m) (inResolution m) (inBatchSize m) /\
  (if inAck m then len (inCookie m) <= 0xFFFF else inCookie m = []) /\
  wf_extensions (inExtensions m).

Definition wf_Open (m : Open) : Prop :=
  0 <= opLease m < 2 ^ 64 /\ 0 <= opInitialSN m < 2 ^ 64 /\
  (if opAck m then opCookie m = [] else len (opCookie m) <= 0xFFFF) /\
  wf_extensions (opExtensions m).

Definition wf_Join (m : Join) : Prop :=
  wf_zid (jZID m) /\ wf_wai (jWhatAmI m) /\
  wf_size_info (jHasSizeInfo m) (jResolution m) (jBatchSize m) /\
  0 <= jLease m < 2 ^ 64 /\ 0 <= jNextSNRel m < 2 ^ 64 /\
  0 <= jNextSNBE m < 2 ^ 64 /\ wf_extensions (jExtensions m).

Definition wf_Scout (m : Scout) : Prop :=
  0 <= scMatcher m <= 7 /\
  (wf_zid (scZID m) \/ scZID m = mkZID []) /\ wf_extensions (scExtensions m).

Definition wf_Hello (m : Hello) : Prop :=
  wf_zid (heZID m) /\ wf_wai (heWhatAmI m) /\
  Z.of_nat (length (heLocators m)) <= 0xFF /\
  Forall (wf_string 0xFF) (heLocators m) /\ wf_extensions (heExtensions m).

(** ** Round trips *)

Lemma codec_ok_SizeInfo s res bs :
  wf_size_info s res bs ->
  codec_ok (when s (EncodeSizeInfo res bs)) (DecodeSizeInfo s) (res, bs).
Proof.
  destruct s; cbn; [|intros [-> ->]; apply codec_ok_ret]. intros Hbs.
  unfold EncodeSizeInfo. codec_fields. done.
Qed.

Lemma codec_ok_ZID_wf z :
  wf_zid z -> codec_ok (EncodeZIDBytes z (ZenohID_Len z)) (DecodeZIDBytes (ZenohID_Len z)) z.
Proof. intros _. by apply codec_ok_ZIDBytes. Qed.

Lemma codec_ok_Packed_wf z wai :
  wf_zid z -> wf_wai wai ->
  codec_ok (EncodePackedZIDByte (ZenohID_Len z) wai) DecodePackedZIDByte (ZenohID_Len z, wai).
Proof. apply codec_ok_PackedZIDByte. Qed.

Lemma codec_ok_cookie ctx1 ctx2 (b : bool) c :
  (if b then len c <= 0xFFFF else c = []) ->
  codec_ok (when b (wrap ctx1 (EncodeBytesZ16 c)))
    (if b then wrap ctx2 DecodeBytesZ16 else mret []) c.
Proof.
  intros Hc. apply codec_ok_when; intros ->; [|done].
  by apply codec_ok_wrap, codec_ok_wrap_enc, codec_ok_BytesZ16.
Qed.
#[export] Hint Resolve codec_ok_SizeInfo codec_ok_ZID_wf codec_ok_Packed_wf
  codec_ok_cookie : codec.

(** Opens a record message and its well-formedness, then walks the fields. *)
Ltac message_round_trip :=
  let m := fresh "m" in
  intros m; destruct m; intros Hwf; cbn in Hwf; destruct_and? Hwf;
  apply round_trip_intro; cbn; codec_fields.

Lemma KeepAlive_round_trip m : wf_KeepAlive m ->
  exists e, writes (EncodeTo m) (PackHeader (KeepAlive_header m) :: e) /\
            decodes (DecodeKeepAlive (KeepAlive_header m)) m e.
Proof. revert m. unfold wf_KeepAlive, DecodeKeepAlive. message_round_trip.  done. Qed.

Lemma Close_round_trip m : wf_Close m ->
  exists e, writes (EncodeTo m) (PackHeader (Close_header m) :: e) /\
            decodes (DecodeClose (Close_header m)) m e.
Proof. revert m. unfold wf_Close, DecodeClose. message_round_trip.  done. Qed.

Lemma Init_round_trip m : wf_Init m ->
  exists e, writes (EncodeTo m) (PackHeader (Init_header m) :: e) /\
            decodes (DecodeInit (Init_header m)) m e.
Proof. revert m. unfold wf_Init, DecodeInit. message_round_trip. done. Qed.

Lemma codec_ok_cookie_neg ctx1 ctx2 (b : bool) c :
  (if b then c = [] else len c <= 0xFFFF) ->
  codec_ok (when (negb b) (wrap ctx1 (EncodeBytesZ16 c)))
    (if negb b then wrap ctx2 DecodeBytesZ16 else mret []) c.
Proof. intros Hc. apply codec_ok_cookie. by destruct b. Qed.
#[export] Hint Resolve codec_ok_cookie_neg : codec.

Lemma Open_round_trip m : wf_Open m ->
  exists e, writes (EncodeTo m) (PackHeader (Open_header m) :: e) /\
            decodes (DecodeOpen (Open_header m)) m e.
Proof. revert m. unfold wf_Open, DecodeOpen. message_round_trip. done. Qed.

Lemma Join_round_trip m : wf_Join m ->
  exists e, writes (EncodeTo m) (PackHeader (Join_header m) :: e) /\
            decodes (DecodeJoin (Join_header m)) m e.
Proof. revert m. unfold wf_Join, DecodeJoin. message_round_trip. done. Qed.

(** SCOUT packs the matcher, the I flag and the ZID length into one byte. *)
Lemma Scout_packed_byte : forall x, 0 <= x < 8 ->
  Forall (fun n =>
    let b := Z.lor (Z.lor (Z.land x MatcherAny) (Z.shiftl 1 3)) (Z.shiftl n 4) in
    (Z.land b 7, has_flag b (Z.shiftl 1 3), Z.land (Z.shiftr b 4) 0x0F + 1)
      = (x, true, n + 1)) (Zrange 16).
Proof. by_range 8%nat. Qed.

Lemma Scout_packed_ok x n :
  0 <= x <= 7 -> 1 <= n <= 16 ->
  let b := Z.lor (Z.lor (Z.land x MatcherAny) (Z.shiftl 1 3)) (Z.shiftl (n - 1) 4) in
  Z.land b 7 = x /\ has_flag b (Z.shiftl 1 3) = true /\
  Z.land (Z.shiftr b 4) 0x0F + 1 = n.
Proof.
  intros Hx Hn b.
  pose proof (Scout_packed_byte x ltac:(lia)) as HF. rewrite Forall_forall in HF.
  specialize (HF (n - 1) (elem_of_Zrange 16 (n - 1) ltac:(lia))). cbn zeta in HF.
  fold b in HF. injection HF as -> -> ->. split_and!; [done|done|lia].
Qed.

Lemma Scout_packed_nozid x : 0 <= x <= 7 ->
  Z.land x MatcherAny = x /\ Z.land x 7 = x /\ has_flag x (Z.shiftl 1 3) = false /\
  Z.ldiff x MatcherAny = 0.
Proof.
  intros Hx. assert (H : 0 <= x < 8) by lia. clear Hx. revert x H. by_range 8%nat.
Qed.

Lemma Scout_round_trip m : wf_Scout m ->
  exists e, writes (EncodeTo m) (PackHeader (Scout_header m) :: e) /\
            decodes (DecodeScout (Scout_header m)) m e.
Proof.
  destruct m as [ver x z exts]. unfold wf_Scout, DecodeScout. cbn.
  intros (Hx & Hz & Hexts).
  destruct (Scout_packed_nozid x Hx) as (E1 & E2 & E3 & E4).
  assert (Hok : codec_ok
    (AppendByte ver;; AppendByte (Scout_packed (mkScout ver x z exts));;
     when (ZenohID_IsValid z) (EncodeZIDBytes z (ZenohID_Len z));;
     when (hasExts exts) (EncodeExtensions exts))
    (DecodeScout (Scout_header (mkScout ver x z exts))) (mkScout ver x z exts)).
  { unfold DecodeScout, Scout_packed, Scout_HasZID. cbn. destruct Hz as [Hz| ->].
    - pose proof Hz as Hz'. apply ZenohID_IsValid_wf in Hz' as ->.
      destruct (Scout_packed_ok x (ZenohID_Len z) Hx Hz) as (F1 & F2 & F3).
      codec_fields. rewrite F1, F2, F3. cbn [when]. codec_fields. done.
    - change (ZenohID_IsValid (mkZID [])) with false. rewrite E1. cbn.
      codec_fields. rewrite E2, E3. cbn.
      eapply codec_ok_bind; [apply codec_ok_ret|]. codec_fields. done. }
  destruct (round_trip_intro (Scout_header (mkScout ver x z exts)) _ _ _ Hok)
    as (e & W & D).
  exists e. split; [|done]. intros w. unfold EncodeTo, Scout_Encoder. cbn.
  rewrite E4. apply W.
Qed.

Lemma codec_ok_Locators locs :
  Forall (wf_string 0xFF) locs ->
  codec_ok (EncodeLocators locs) (DecodeLocators (length locs)) locs.
Proof.
  induction 1 as [|l locs Hl _ IH]; cbn; [apply codec_ok_ret|].

  codec_fields. done.
Qed.

Lemma codec_ok_Locators_field locs :
  Z.of_nat (length locs) <= 0xFF -> Forall (wf_string 0xFF) locs ->
  let l := match locs with [] => false | _ => true end in
  codec_ok
    (when l (guard_err (Z.of_nat (length locs) >? 0xFF)
               (ErrMsg "wire: HELLO too many locators");;
             EncodeZ8 (uint8 (Z.of_nat (length locs)));; EncodeLocators locs))
    (if l then n ← DecodeZ8; DecodeLocators (Z.to_nat n) else mret []) locs.
Proof.
  intros Hl Hf l. apply codec_ok_when; [|by destruct locs]. intros _.
  apply codec_ok_guard; [lia|]. unfold uint8. rewrite Z.mod_small by lia.
  eapply codec_ok_bind; [apply codec_ok_Z8; lia|]. rewrite Nat2Z.id.
  by apply codec_ok_Locators.
Qed.
#[export] Hint Resolve codec_ok_Locators_field : codec.

Lemma Hello_round_trip m : wf_Hello m ->
  exists e, writes (EncodeTo m) (PackHeader (Hello_header m) :: e) /\
            decodes (DecodeHello (Hello_header m)) m e.
Proof. revert m. unfold wf_Hello, DecodeHello. message_round_trip. done. Qed.

(** ** Cursor and termination facts *)

Lemma consumes_SizeInfo s : consumes 0 (DecodeSizeInfo s).
Proof. unfold DecodeSizeInfo. solve_consumes. Qed.
Lemma no_fuel_SizeInfo s : no_fuel_err (DecodeSizeInfo s).
Proof. unfold DecodeSizeInfo. solve_no_fuel. Qed.
Lemma consumes_Locators n : consumes 0 (DecodeLocators n).
Proof. induction n; cbn; solve_consumes. Qed.
#[export] Hint Resolve consumes_SizeInfo consumes_Locators : consumes.
Lemma no_fuel_Locators n : no_fuel_err (DecodeLocators n).
Proof. induction n; cbn; solve_no_fuel. Qed.
#[export] Hint Resolve no_fuel_SizeInfo no_fuel_Locators : no_fuel.

Lemma consumes_KeepAlive h : consumes 0 (DecodeKeepAlive h).
Proof. unfold DecodeKeepAlive. solve_consumes. Qed.
Lemma consumes_Close h : consumes 0 (DecodeClose h).
Proof. unfold DecodeClose. solve_consumes. Qed.
Lemma consumes_Init h : consumes 0 (DecodeInit h).
Proof. unfold DecodeInit. solve_consumes. Qed.
Lemma consumes_Open h : consumes 0 (DecodeOpen h).
Proof. unfold DecodeOpen. solve_consumes. Qed.
Lemma consumes_Frame h : consumes 0 (DecodeFrame h).
Proof. unfold DecodeFrame. solve_consumes. Qed.
Lemma consumes_Fragment h : consumes 0 (DecodeFragment h).
Proof. unfold DecodeFragment. solve_consumes. Qed.
Lemma consumes_Join h : consumes 0 (DecodeJoin h).
Proof. unfold DecodeJoin. solve_consumes. Qed.
Lemma consumes_Scout h : consumes 0 (DecodeScout h).
Proof. unfold DecodeScout. solve_consumes. Qed.
Lemma consumes_Hello h : consumes 0 (DecodeHello h).
Proof. unfold DecodeHello. solve_consumes. Qed.
#[export] Hint Resolve consumes_KeepAlive consumes_Close consumes_Init consumes_Open
  consumes_Frame consumes_Fragment consumes_Join consumes_Scout consumes_Hello : consumes.

Lemma no_fuel_KeepAlive h : no_fuel_err (DecodeKeepAlive h).
Proof. unfold DecodeKeepAlive. solve_no_fuel. Qed.
Lemma no_fuel_Close h : no_fuel_err (DecodeClose h).
Proof. unfold DecodeClose. solve_no_fuel. Qed.
Lemma no_fuel_Init h : no_fuel_err (DecodeInit h).
Proof. unfold DecodeInit. solve_no_fuel. Qed.
Lemma no_fuel_Open h : no_fuel_err (DecodeOpen h).
Proof. unfold DecodeOpen. solve_no_fuel. Qed.
Lemma no_fuel_Frame h : no_fuel_err (DecodeFrame h).
Proof. unfold DecodeFrame. solve_no_fuel. Qed.
Lemma no_fuel_Fragment h : no_fuel_err (DecodeFragment h).
Proof. unfold DecodeFragment. solve_no_fuel. Qed.
Lemma no_fuel_Join h : no_fuel_err (DecodeJoin h).
Proof. unfold DecodeJoin. solve_no_fuel. Qed.
Lemma no_fuel_Scout h : no_fuel_err (DecodeScout h).
Proof. unfold DecodeScout. solve_no_fuel. Qed.
Lemma no_fuel_Hello h : no_fuel_err (DecodeHello h).
Proof. unfold DecodeHello. solve_no_fuel. Qed.
#[export] Hint Resolve no_fuel_KeepAlive no_fuel_Close no_fuel_Init no_fuel_Open
  no_fuel_Frame no_fuel_Fragment no_fuel_Join no_fuel_Scout no_fuel_Hello : no_fuel.

(** ** Messages whose body runs to the end of the batch *)

(** The network messages that follow a FRAME header stay unread. *)
Lemma Frame_round_trip m :
  0 <= frSeqNum m < 2 ^ 64 -> wf_extensions (frExtensions m) ->
  exists e, writes (EncodeTo m) (PackHeader (Frame_header m) :: e ++ frBody m) /\
            decodes (DecodeFrame (Frame_header m))
              (mkFrame (frReliable m) (frSeqNum m) (frExtensions m) []) e.
Proof.
  destruct m as [rel sn exts body]. cbn. intros Hsn Hexts.
  destruct (codec_ok_Z64 sn Hsn) as (e1 & W1 & D1).
  assert (H2 : codec_ok (when (hasExts exts) (EncodeExtensions exts))
    (if hasExts exts then wrap "FRAME extensions" DecodeExtensions else mret []) exts)
    by codec_field.
  destruct H2 as (e2 & W2 & D2). exists (e1 ++ e2). split.
  - rewrite <- app_assoc. apply (writes_bind _ _ [_]); [apply writes_AppendBytes|].
    apply writes_bind; [done|]. apply writes_bind; [done|]. apply writes_AppendBytes.
  - unfold DecodeFrame. cbn.
    apply (decodes_bind _ _ tt _ [] (e1 ++ e2)); [by apply decodes_guard|].
    eapply decodes_bind; [exact D1|].
    rewrite <- (app_nil_r e2). eapply decodes_bind; [exact D2|]. apply decodes_ret.
Qed.

Lemma Fragment_round_trip m :
  0 <= fgSeqNum m < 2 ^ 64 -> wf_extensions (fgExtensions m) ->
  exists e, writes (EncodeTo m) (PackHeader (Fragment_header m) :: e) /\
            decodes_all (DecodeFragment (Fragment_header m)) m e.
Proof.
  destruct m as [rel more sn exts body]. cbn. intros Hsn Hexts.
  assert (Hok : codec_ok_all
    (EncodeZ64 sn;; when (hasExts exts) (EncodeExtensions exts);; AppendBytes body)
    (DecodeFragment (mkHeader IDTransportFragment rel more (hasExts exts)))
    (mkFragment rel more sn exts body)).
  { unfold DecodeFragment. cbn.
    change (EncodeZ64 sn;; ?k) with ((mret tt : WM unit);; EncodeZ64 sn;; k).
    eapply codec_ok_all_bind; [by exists []; split; [apply writes_ret|apply decodes_guard]|].
    eapply codec_ok_all_bind; [by apply codec_ok_Z64|].
    eapply codec_ok_all_bind; [codec_field|].
    destruct (codec_ok_all_ReadRest body) as (e & W & D). exists e.
    split; [done|]. intros r Hr Hb. by rewrite (stm_bind_step _ _ _ _ _ (D r Hr Hb)). }
  destruct Hok as (e & W & D). exists e. split; [|done].
  change (PackHeader ?h :: e) with ([PackHeader h] ++ e). by apply writes_bind.
Qed.

(** ** The per-lane sequence numbers of JOIN *)

Definition wf_lane_sns (n : nat) (s : LaneSNs) : Prop :=
  length (lsReliable s) = n /\ length (lsBestEffort s) = n /\
  Forall (fun v => 0 <= v < 2 ^ 64) (lsReliable s) /\
  Forall (fun v => 0 <= v < 2 ^ 64) (lsBestEffort s).

Lemma codec_ok_LaneSNs n : forall s, wf_lane_sns n s ->
  codec_ok (EncodeLaneSNs (lsReliable s) (lsBestEffort s)) (DecodeLaneSNs_loop n) s.
Proof.
  induction n as [|n IH]; intros [[|r rel] [|b be]]; intros (Hl1 & Hl2 & H1 & H2);
    try discriminate; cbn [lsReliable lsBestEffort EncodeLaneSNs DecodeLaneSNs_loop] in *.
  - apply codec_ok_ret.
  - apply Forall_cons in H1 as [Hr H1]. apply Forall_cons in H2 as [Hb H2].
    eapply codec_ok_bind; [by apply codec_ok_wrap, codec_ok_Z64|].
    eapply codec_ok_bind; [by apply codec_ok_wrap, codec_ok_Z64|].
    apply codec_ok_last with (mkLaneSNs rel be); [|reflexivity].
    apply (IH (mkLaneSNs rel be)). split_and!; cbn in *; auto; lia.
Qed.

(** What the receiver of a JOIN recovers are the SNs the sender attached. *)
Lemma LaneSNs_round_trip j s :
  wf_lane_sns 8 s -> Forall (fun e => eID (eHeader e) <> ExtIDQoS) (jExtensions j) ->
  exists j', AttachLaneSNs j s = Ok j' /\ DecodeLaneSNs j' = Ok (Some s).
Proof.
  intros Hs Hj. unfold AttachLaneSNs, DecodeLaneSNs.
  destruct (codec_ok_LaneSNs 8 s Hs) as (e & W & D). rewrite (W NewWriter).
  eexists. split; [done|]. cbn [jExtensions Writer_Bytes w_buf NewWriter app].
  induction Hj as [|x xs Hx Hxs IH]; cbn [app DecodeLaneSNs_exts].
  - cbn [eHeader eID eEncoding eZBuf]. rewrite bool_decide_eq_true_2, Z.eqb_refl by done.
    cbn [negb orb]. rewrite (D (NewReader e) []); [|apply reader_wf_NewReader|].
    + rewrite decide_True; [done|]. unfold Reader_Len. cbn. lia.
    + by rewrite app_nil_r.
  - rewrite (proj2 (Z.eqb_neq _ _) Hx). cbn [negb orb]. apply IH.
Qed.

(** ** The instances of the interface *)

#[export] Instance KeepAlive_WireMessage : WireMessage KeepAlive := {|
  msg_id := IDTransportKeepAlive; msg_header := KeepAlive_header; decode_msg := DecodeKeepAlive;
  wf_msg := wf_KeepAlive; msg_header_id _ := eq_refl; msg_round_trip := KeepAlive_round_trip;
  msg_reject h r Hne := guard_reject _ _ _ _ r Hne;
  msg_consumes := consumes_KeepAlive; msg_no_fuel := no_fuel_KeepAlive |}.
#[export] Instance Close_WireMessage : WireMessage Close := {|
  msg_id := IDTransportClose; msg_header := Close_header; decode_msg := DecodeClose;
  wf_msg := wf_Close; msg_header_id _ := eq_refl; msg_round_trip := Close_round_trip;
  msg_reject h r Hne := guard_reject _ _ _ _ r Hne;
  msg_consumes := consumes_Close; msg_no_fuel := no_fuel_Close |}.
#[export] Instance Init_WireMessage : WireMessage Init := {|
  msg_id := IDTransportInit; msg_header := Init_header; decode_msg := DecodeInit;
  wf_msg := wf_Init; msg_header_id _ := eq_refl; msg_round_trip := Init_round_trip;
  msg_reject h r Hne := guard_reject _ _ _ _ r Hne;
  msg_consumes := consumes_Init; msg_no_fuel := no_fuel_Init |}.
#[export] Instance Open_WireMessage : WireMessage Open := {|
  msg_id := IDTransportOpen; msg_header := Open_header; decode_msg := DecodeOpen;
  wf_msg := wf_Open; msg_header_id _ := eq_refl; msg_round_trip := Open_round_trip;
  msg_reject h r Hne := guard_reject _ _ _ _ r Hne;
  msg_consumes := consumes_Open; msg_no_fuel := no_fuel_Open |}.
#[export] Instance Join_WireMessage : WireMessage Join := {|
  msg_id := IDTransportJoin; msg_header := Join_header; decode_msg := DecodeJoin;
  wf_msg := wf_Join; msg_header_id _ := eq_refl; msg_round_trip := Join_round_trip;
  msg_reject h r Hne := guard_reject _ _ _ _ r Hne;
  msg_consumes := consumes_Join; msg_no_fuel := no_fuel_Join |}.
#[export] Instance Scout_WireMessage : WireMessage Scout := {|
  msg_id := IDScoutScout; msg_header := Scout_header; decode_msg := DecodeScout;
  wf_msg := wf_Scout; msg_header_id _ := eq_refl; msg_round_trip := Scout_round_trip;
  msg_reject h r Hne := guard_reject _ _ _ _ r Hne;
  msg_consumes := consumes_Scout; msg_no_fuel := no_fuel_Scout |}.
#[export] Instance Hello_WireMessage : WireMessage Hello := {|
  msg_id := IDScoutHello; msg_header := Hello_header; decode_msg := DecodeHello;
  wf_msg := wf_Hello; msg_header_id _ := eq_refl; msg_round_trip := Hello_round_trip;
  msg_reject h r Hne := guard_reject _ _ _ _ r Hne;
  msg_consumes := consumes_Hello; msg_no_fuel := no_fuel_Hello |}.

(** What every upper layer does with a message: read the header, then decode. *)
Definition receive_msg {T} `{WireMessage T} : RM T :=
  h ← DecodeHeader; decode_msg h.

Lemma UnpackHeader_msg {T} `{WireMessage T} m :
  0 <= msg_id < 32 -> UnpackHeader (PackHeader (msg_header m)) = msg_header m.
Proof. intros Hid. apply UnpackHeader_PackHeader. rewrite msg_header_id. lia. Qed.

(** Against the interface alone: what is sent is what is received, and the
    cursor stops at the end of the message. *)
Lemma receive_msg_sent {T} `{WireMessage T} (m : T) rest :
  0 <= msg_id < 32 -> wf_msg m ->
  exists e, EncodeTo m NewWriter = Ok (tt, mkWriter e) /\
    receive_msg (NewReader (e ++ rest)) = Ok (m, mkReader (e ++ rest) (length e)).
Proof.
  intros Hid Hwf. destruct (msg_round_trip m Hwf) as (e & W & D).
  exists (PackHeader (msg_header m) :: e). split; [apply (W NewWriter)|].
  unfold receive_msg. set (b := _ ++ rest).
  assert (Hd : DecodeHeader (NewReader b) = Ok (msg_header m, advance (NewReader b) 1)).
  { unfold DecodeHeader. rewrite (stm_bind_step _ _ _ _ _ (ReadByte_cons (NewReader b) _ (e ++ rest) eq_refl)).
    cbn. by rewrite UnpackHeader_msg. }
  rewrite (stm_bind_step _ _ _ _ _ Hd), (D _ rest); [done| |done].
  eapply reader_wf_cons; [apply reader_wf_NewReader|reflexivity].
Qed.
