(* ===== verification/WireNetwork.v ===== *)
(** * internal/wire: network messages and their sub-messages

    data.go, push.go, request.go, response.go, declare.go and interest.go.  A
    Go interface value that may be nil ([Body]) is an [option]; the unions
    PushBody, ResponseBody and DeclareBody are inductive types. *)
From S2P Require Import Prelude Buffer Vle Codec WirePrim WireTransport.

Definition is_some {A} (o : option A) : bool :=
  match o with Some _ => true | None => false end.

(** An optional struct behind a pointer, emitted when non-nil. *)
Definition when_some {A} (o : option A) (enc : A -> WM unit) : WM unit :=
  match o with Some a => enc a | None => mret tt end.

(** ** PUT and DEL *)

Record PutBody := mkPutBody {
  pbTimestamp : option Timestamp; pbEncoding : option Encoding;
  pbExtensions : list Extension; pbPayload : bytes }.

Record DelBody := mkDelBody {
  dbTimestamp : option Timestamp; dbExtensions : list Extension }.

Inductive PushBody := PPut (p : PutBody) | PDel (d : DelBody).

Definition PutBody_header (p : PutBody) : Header :=
  mkHeader IDDataPut (is_some (pbTimestamp p)) (is_some (pbEncoding p))
    (hasExts (pbExtensions p)).
Definition DelBody_header (d : DelBody) : Header :=
  mkHeader IDDataDel (is_some (dbTimestamp d)) false (hasExts (dbExtensions d)).

#[export] Instance PutBody_Encoder : Encoder PutBody := fun p =>
  let h := PutBody_header p in
  EncodeHeader h;;
  when_some (pbTimestamp p) EncodeTo;;
  when_some (pbEncoding p) EncodeTo;;
  when (hZ h) (EncodeExtensions (pbExtensions p));;
  wrap "PUT payload" (EncodeBytesZ32 (pbPayload p)).

#[export] Instance DelBody_Encoder : Encoder DelBody := fun d =>
  let h := DelBody_header d in
  EncodeHeader h;;
  when_some (dbTimestamp d) EncodeTo;;
  when (hZ h) (EncodeExtensions (dbExtensions d)).

Definition decode_some {A} (b : bool) (dec : RM A) : RM (option A) :=
  if b then a ← dec; mret (Some a) else mret None.

Definition decodePutBody (h : Header) : RM PutBody :=
  guard_err (negb (hID h =? IDDataPut)) (ErrMsg "wire: expected PUT sub-msg");;
  ts ← decode_some (hF1 h) (wrap "PUT timestamp" DecodeTimestamp);
  enc ← decode_some (hF2 h) (wrap "PUT encoding" DecodeEncoding);
  exts ← (if hZ h then wrap "PUT extensions" DecodeExtensions else mret []);
  payload ← wrap "PUT payload" DecodeBytesZ32;
  mret (mkPutBody ts enc exts payload).

Definition decodeDelBody (h : Header) : RM DelBody :=
  guard_err (negb (hID h =? IDDataDel)) (ErrMsg "wire: expected DEL sub-msg");;
  ts ← decode_some (hF1 h) DecodeTimestamp;
  exts ← (if hZ h then DecodeExtensions else mret []);
  mret (mkDelBody ts exts).

Definition PushBody_SubID (b : PushBody) : Z :=
  match b with PPut _ => IDDataPut | PDel _ => IDDataDel end.

Definition EncodePushBody (b : PushBody) : WM unit :=
  match b with PPut p => EncodeTo p | PDel d => EncodeTo d end.

(** ** PUSH *)

Record Push := mkPush {
  puKeyExpr : WireExpr; puExtensions : list Extension; puBody : option PushBody }.

Definition Push_header (m : Push) : Header :=
  mkHeader IDNetworkPush (Named (puKeyExpr m)) (weMapping (puKeyExpr m))
    (hasExts (puExtensions m)).

#[export] Instance Push_Encoder : Encoder Push := fun m =>
  match puBody m with
  | None => throw (ErrMsg "wire: PUSH with nil body")
  | Some body =>
      let h := Push_header m in
      EncodeHeader h;;
      EncodeScope (puKeyExpr m);;
      when (hZ h) (EncodeExtensions (puExtensions m));;
      EncodePushBody body
  end.

Definition decodePushBody : RM PushBody :=
  h ← DecodeHeader;
  if hID h =? IDDataPut then p ← decodePutBody h; mret (PPut p)
  else if hID h =? IDDataDel then d ← decodeDelBody h; mret (PDel d)
  else throw (ErrMsg "wire: unknown PUSH body").

Definition DecodePush (h : Header) : RM Push :=
  guard_err (negb (hID h =? IDNetworkPush)) (ErrMsg "wire: expected PUSH header");;
  ke ← DecodeWireExpr (hF1 h) (hF2 h);
  exts ← (if hZ h then wrap "PUSH extensions" DecodeExtensions else mret []);
  body ← wrap "PUSH body" decodePushBody;
  mret (mkPush ke exts (Some body)).

(** ** QUERY and REQUEST *)

(** [QueryTarget] and [ConsolidationMode] are [uint8] values. *)
Definition QueryTargetBestMatching : Z := 0x00.
Definition QueryTargetAll : Z := 0x01.
Definition QueryTargetAllComplete : Z := 0x02.
Definition ConsolidationAuto : Z := 0x00.
Definition ConsolidationNone : Z := 0x01.
Definition ConsolidationMonotonic : Z := 0x02.
Definition ConsolidationLatest : Z := 0x03.
Definition ReqExtIDQueryTarget : Z := 0x04.
Definition ReqExtIDBudget : Z := 0x05.
Definition ReqExtIDTimeout : Z := 0x06.

Definition QueryTargetExt (t : Z) : Extension := NewZ64Ext ReqExtIDQueryTarget true t.
Definition BudgetExt (n : Z) : Extension := NewZ64Ext ReqExtIDBudget false n.
Definition TimeoutExt (ms : Z) : Extension := NewZ64Ext ReqExtIDTimeout false ms.

Record QueryBody := mkQueryBody {
  qbConsolidation : option Z; qbParameters : bytes; qbExtensions : list Extension }.

Definition QueryBody_header (q : QueryBody) : Header :=
  mkHeader IDDataQuery (is_some (qbConsolidation q)) (nonempty (qbParameters q))
    (hasExts (qbExtensions q)).

#[export] Instance QueryBody_Encoder : Encoder QueryBody := fun q =>
  let h := QueryBody_header q in
  EncodeHeader h;;
  when_some (qbConsolidation q) AppendByte;;
  when (hF2 h) (EncodeStringZ16 (qbParameters q));;
  when (hZ h) (EncodeExtensions (qbExtensions q)).

Definition decodeQueryBody : RM QueryBody :=
  h ← DecodeHeader;
  guard_err (negb (hID h =? IDDataQuery)) (ErrMsg "wire: expected QUERY sub-msg");;
  c ← decode_some (hF1 h) ReadByte;
  s ← (if hF2 h then DecodeStringZ16 else mret []);
  exts ← (if hZ h then wrap "QUERY extensions" DecodeExtensions else mret []);
  mret (mkQueryBody c s exts).

Record Request := mkRequest {
  rqRequestID : Z; rqKeyExpr : WireExpr; rqExtensions : list Extension;
  rqBody : option QueryBody }.

Definition Request_header (m : Request) : Header :=
  mkHeader IDNetworkRequest (Named (rqKeyExpr m)) (weMapping (rqKeyExpr m))
    (hasExts (rqExtensions m)).

#[export] Instance Request_Encoder : Encoder Request := fun m =>
  match rqBody m with
  | None => throw (ErrMsg "wire: REQUEST with nil body")
  | Some body =>
      let h := Request_header m in
      EncodeHeader h;;
      EncodeZ32 (rqRequestID m);;
      EncodeScope (rqKeyExpr m);;
      when (hZ h) (EncodeExtensions (rqExtensions m));;
      EncodeTo body
  end.

Definition DecodeRequest (h : Header) : RM Request :=
  guard_err (negb (hID h =? IDNetworkRequest)) (ErrMsg "wire: expected REQUEST header");;
  id ← DecodeZ32;
  ke ← DecodeWireExpr (hF1 h) (hF2 h);
  exts ← (if hZ h then wrap "REQUEST extensions" DecodeExtensions else mret []);
  body ← wrap "REQUEST body" decodeQueryBody;
  mret (mkRequest id ke exts (Some body)).

(** ** REPLY, ERR and RESPONSE *)

Record ReplyBody := mkReplyBody {
  rbConsolidation : option Z; rbExtensions : list Extension; rbInner : option PushBody }.

Record ErrBody := mkErrBody {
  ebEncoding : option Encoding; ebExtensions : list Extension; ebPayload : bytes }.

Inductive ResponseBody := RReply (r : ReplyBody) | RErr (e : ErrBody).

Definition ReplyBody_header (r : ReplyBody) : Header :=
  mkHeader IDDataReply (is_some (rbConsolidation r)) false (hasExts (rbExtensions r)).
Definition ErrBody_header (e : ErrBody) : Header :=
  mkHeader IDDataErr false (is_some (ebEncoding e)) (hasExts (ebExtensions e)).

#[export] Instance ReplyBody_Encoder : Encoder ReplyBody := fun r =>
  match rbInner r with
  | None => throw (ErrMsg "wire: REPLY with nil inner PushBody")
  | Some inner =>
      let h := ReplyBody_header r in
      EncodeHeader h;;
      when_some (rbConsolidation r) AppendByte;;
      when (hZ h) (EncodeExtensions (rbExtensions r));;
      EncodePushBody inner
  end.

#[export] Instance ErrBody_Encoder : Encoder ErrBody := fun e =>
  let h := ErrBody_header e in
  EncodeHeader h;;
  when_some (ebEncoding e) EncodeTo;;
  when (hZ h) (EncodeExtensions (ebExtensions e));;
  EncodeBytesZ32 (ebPayload e).

Definition EncodeResponseBody (b : ResponseBody) : WM unit :=
  match b with RReply r => EncodeTo r | RErr e => EncodeTo e end.

Definition decodeReplyBody (h : Header) : RM ReplyBody :=
  guard_err (negb (hID h =? IDDataReply)) (ErrMsg "wire: expected REPLY sub-msg");;
  c ← decode_some (hF1 h) ReadByte;
  exts ← (if hZ h then wrap "REPLY extensions" DecodeExtensions else mret []);
  inner ← wrap "REPLY inner" decodePushBody;
  mret (mkReplyBody c exts (Some inner)).

Definition decodeErrBody (h : Header) : RM ErrBody :=
  guard_err (negb (hID h =? IDDataErr)) (ErrMsg "wire: expected ERR sub-msg");;
  enc ← decode_some (hF2 h) (wrap "ERR encoding" DecodeEncoding);
  exts ← (if hZ h then wrap "ERR extensions" DecodeExtensions else mret []);
  payload ← wrap "ERR payload" DecodeBytesZ32;
  mret (mkErrBody enc exts payload).

Definition decodeResponseBody : RM ResponseBody :=
  h ← DecodeHeader;
  if hID h =? IDDataReply then r ← decodeReplyBody h; mret (RReply r)
  else if hID h =? IDDataErr then e ← decodeErrBody h; mret (RErr e)
  else throw (ErrMsg "wire: unknown RESPONSE body").

Record Response := mkResponse {
  rsRequestID : Z; rsKeyExpr : WireExpr; rsExtensions : list Extension;
  rsBody : option ResponseBody }.

Definition Response_header (m : Response) : Header :=
  mkHeader IDNetworkResponse (Named (rsKeyExpr m)) (weMapping (rsKeyExpr m))
    (hasExts (rsExtensions m)).

#[export] Instance Response_Encoder : Encoder Response := fun m =>
  match rsBody m with
  | None => throw (ErrMsg "wire: RESPONSE with nil body")
  | Some body =>
      let h := Response_header m in
      EncodeHeader h;;
      EncodeZ32 (rsRequestID m);;
      EncodeScope (rsKeyExpr m);;
      when (hZ h) (EncodeExtensions (rsExtensions m));;
      EncodeResponseBody body
  end.

Definition DecodeResponse (h : Header) : RM Response :=
  guard_err (negb (hID h =? IDNetworkResponse)) (ErrMsg "wire: expected RESPONSE header");;
  id ← DecodeZ32;
  ke ← DecodeWireExpr (hF1 h) (hF2 h);
  exts ← (if hZ h then wrap "RESPONSE extensions" DecodeExtensions else mret []);
  body ← wrap "RESPONSE body" decodeResponseBody;
  mret (mkResponse id ke exts (Some body)).

Record ResponseFinal := mkResponseFinal {
  rfRequestID : Z; rfExtensions : list Extension }.

Definition ResponseFinal_header (m : ResponseFinal) : Header :=
  mkHeader IDNetworkResponseFinal false false (hasExts (rfExtensions m)).

#[export] Instance ResponseFinal_Encoder : Encoder ResponseFinal := fun m =>
  let h := ResponseFinal_header m in
  EncodeHeader h;;
  EncodeZ32 (rfRequestID m);;
  when (hZ h) (EncodeExtensions (rfExtensions m)).

Definition DecodeResponseFinal (h : Header) : RM ResponseFinal :=
  guard_err (negb (hID h =? IDNetworkResponseFinal))
    (ErrMsg "wire: expected RESPONSE_FINAL header");;
  id ← DecodeZ32;
  exts ← (if hZ h then wrap "RESPONSE_FINAL extensions" DecodeExtensions else mret []);
  mret (mkResponseFinal id exts).

(** ** DECLARE sub-messages *)

Definition WireExprExtID : Z := 0x0F.

Record DeclareKeyExpr := mkDeclareKeyExpr {
  dkExprID : Z; dkScope : Z; dkSuffix : bytes; dkExtensions : list Extension }.
Record UndeclareKeyExpr := mkUndeclareKeyExpr {
  ukExprID : Z; ukExtensions : list Extension }.
Record DeclareEntity := mkDeclareEntity {
  deKind : Z; deEntityID : Z; deKeyExpr : WireExpr; deExtensions : list Extension }.
Record UndeclareEntity := mkUndeclareEntity {
  ueKind : Z; ueEntityID : Z; ueWireExpr : WireExpr; ueExtensions : list Extension }.
Record DeclareFinal := mkDeclareFinal { dfExtensions : list Extension }.

Inductive DeclareBody :=
  | BDeclareKeyExpr (d : DeclareKeyExpr)
  | BUndeclareKeyExpr (d : UndeclareKeyExpr)
  | BDeclareEntity (d : DeclareEntity)
  | BUndeclareEntity (d : UndeclareEntity)
  | BDeclareFinal (d : DeclareFinal).

Definition NewDeclareSubscriber (id : Z) (ke : WireExpr) : DeclareEntity :=
  mkDeclareEntity IDDeclareSubscriber id ke [].
Definition NewDeclareQueryable (id : Z) (ke : WireExpr) : DeclareEntity :=
  mkDeclareEntity IDDeclareQueryable id ke [].
Definition NewDeclareToken (id : Z) (ke : WireExpr) : DeclareEntity :=
  mkDeclareEntity IDDeclareToken id ke [].

#[export] Instance DeclareKeyExpr_Encoder : Encoder DeclareKeyExpr := fun d =>
  let h := mkHeader IDDeclareKeyExpr (nonempty (dkSuffix d)) false
             (hasExts (dkExtensions d)) in
  EncodeHeader h;;
  EncodeZ16 (dkExprID d);;
  EncodeZ16 (dkScope d);;
  when (nonempty (dkSuffix d)) (EncodeStringZ16 (dkSuffix d));;
  when (hZ h) (EncodeExtensions (dkExtensions d)).

Definition decodeDeclareKeyExpr (h : Header) : RM DeclareKeyExpr :=
  id ← DecodeZ16;
  scope ← DecodeZ16;
  s ← (if hF1 h then DecodeStringZ16 else mret []);
  exts ← (if hZ h then DecodeExtensions else mret []);
  mret (mkDeclareKeyExpr id scope s exts).

#[export] Instance UndeclareKeyExpr_Encoder : Encoder UndeclareKeyExpr := fun d =>
  let h := mkHeader IDUndeclareKeyExpr false false (hasExts (ukExtensions d)) in
  EncodeHeader h;;
  EncodeZ16 (ukExprID d);;
  when (hZ h) (EncodeExtensions (ukExtensions d)).

Definition decodeUndeclareKeyExpr (h : Header) : RM UndeclareKeyExpr :=
  id ← DecodeZ16;
  exts ← (if hZ h then DecodeExtensions else mret []);
  mret (mkUndeclareKeyExpr id exts).

#[export] Instance DeclareEntity_Encoder : Encoder DeclareEntity := fun d =>
  let h := mkHeader (deKind d) (Named (deKeyExpr d)) (weMapping (deKeyExpr d))
             (hasExts (deExtensions d)) in
  EncodeHeader h;;
  EncodeZ32 (deEntityID d);;
  EncodeScope (deKeyExpr d);;
  when (hZ h) (EncodeExtensions (deExtensions d)).

Definition decodeDeclareEntity (h : Header) (kind : Z) : RM DeclareEntity :=
  id ← DecodeZ32;
  ke ← DecodeWireExpr (hF1 h) (hF2 h);
  exts ← (if hZ h then DecodeExtensions else mret []);
  mret (mkDeclareEntity kind id ke exts).

(** The WireExpr extension of U_*: flags, scope, suffix to the end of the ZBuf. *)
Definition encodeWireExprExtension (ke : WireExpr) : result Extension :=
  let flags := or_flag (or_flag 0 (Named ke) (Z.shiftl 1 0))
                 (weMapping ke) (Z.shiftl 1 1) in
  match (AppendByte flags;;
         EncodeZ16 (weScope ke);;
         when (Named ke) (AppendBytes (weSuffix ke))) NewWriter with
  | Err e => Err e
  | Ok (_, body) =>
      Ok (mkExtension (mkExtHeader WireExprExtID true ExtEncZBuf false) 0
            (Writer_Bytes body))
  end.

Definition decodeWireExprExtensionBody (b : bytes) : result WireExpr :=
  match (flags ← ReadByte;
         let named := has_flag flags (Z.shiftl 1 0) in
         let mapping := has_flag flags (Z.shiftl 1 1) in
         scope ← DecodeZ16;
         r ← get_reader;
         mret (mkWireExpr scope (if named then Reader_Bytes r else []) mapping))
        (NewReader b) with
  | Err e => Err e
  | Ok (ke, _) => Ok ke
  end.

#[export] Instance UndeclareEntity_Encoder : Encoder UndeclareEntity := fun d =>
  EncodeHeader (mkHeader (ueKind d) false false true);;
  EncodeZ32 (ueEntityID d);;
  match encodeWireExprExtension (ueWireExpr d) with
  | Err e => throw e
  | Ok ext =>
      EncodeExtension (set_more ext (hasExts (ueExtensions d)));;
      EncodeExtensions (ueExtensions d)
  end.

(** The loop over the decoded chain: the WireExpr extension fills the key
    expression, the others are kept. *)
Fixpoint collect_undeclare (exts : list Extension) (d : UndeclareEntity) :
    result UndeclareEntity :=
  match exts with
  | [] => Ok d
  | ext :: exts =>
      if (eID (eHeader ext) =? WireExprExtID)
         && bool_decide (eEncoding (eHeader ext) = ExtEncZBuf)
      then match decodeWireExprExtensionBody (eZBuf ext) with
           | Err e => Err (ErrWrap "WireExpr extension body" e)
           | Ok ke => collect_undeclare exts
               (mkUndeclareEntity (ueKind d) (ueEntityID d) ke (ueExtensions d))
           end
      else collect_undeclare exts
             (mkUndeclareEntity (ueKind d) (ueEntityID d) (ueWireExpr d)
                (ueExtensions d ++ [ext]))
  end.

Definition lift_result {S A} (x : result A) : stm S A := fun s =>
  match x with Ok a => Ok (a, s) | Err e => Err e end.

Definition decodeUndeclareEntity (h : Header) (kind : Z) : RM UndeclareEntity :=
  id ← DecodeZ32;
  let d := mkUndeclareEntity kind id (mkWireExpr 0 [] false) [] in
  if negb (hZ h) then mret d
  else exts ← DecodeExtensions; lift_result (collect_undeclare exts d).

#[export] Instance DeclareFinal_Encoder : Encoder DeclareFinal := fun d =>
  let h := mkHeader IDDeclareFinal false false (hasExts (dfExtensions d)) in
  EncodeHeader h;;
  when (hZ h) (EncodeExtensions (dfExtensions d)).

Definition decodeDeclareFinal (h : Header) : RM DeclareFinal :=
  exts ← (if hZ h then DecodeExtensions else mret []);
  mret (mkDeclareFinal exts).

Definition EncodeSubTo (b : DeclareBody) : WM unit :=
  match b with
  | BDeclareKeyExpr d => EncodeTo d
  | BUndeclareKeyExpr d => EncodeTo d
  | BDeclareEntity d => EncodeTo d
  | BUndeclareEntity d => EncodeTo d
  | BDeclareFinal d => EncodeTo d
  end.

Definition decodeDeclareBody : RM DeclareBody :=
  h ← DecodeHeader;
  let id := hID h in
  if id =? IDDeclareKeyExpr then d ← decodeDeclareKeyExpr h; mret (BDeclareKeyExpr d)
  else if id =? IDUndeclareKeyExpr then
    d ← decodeUndeclareKeyExpr h; mret (BUndeclareKeyExpr d)
  else if (id =? IDDeclareSubscriber) || (id =? IDDeclareQueryable)
          || (id =? IDDeclareToken) then
    d ← decodeDeclareEntity h id; mret (BDeclareEntity d)
  else if (id =? IDUndeclareSubscriber) || (id =? IDUndeclareQueryable)
          || (id =? IDUndeclareToken) then
    d ← decodeUndeclareEntity h id; mret (BUndeclareEntity d)
  else if id =? IDDeclareFinal then d ← decodeDeclareFinal h; mret (BDeclareFinal d)
  else throw (ErrMsg "unknown declaration sub-id").

(** ** DECLARE *)

Record Declare_ := mkDeclare {
  dcInterestID : Z; dcHasInterestID : bool; dcExtensions : list Extension;
  dcBody : option DeclareBody }.

Definition Declare_header (m : Declare_) : Header :=
  mkHeader IDNetworkDeclare (dcHasInterestID m) false (hasExts (dcExtensions m)).

#[export] Instance Declare_Encoder : Encoder Declare_ := fun m =>
  match dcBody m with
  | None => throw (ErrMsg "wire: DECLARE with nil body")
  | Some body =>
      let h := Declare_header m in
      EncodeHeader h;;
      when (dcHasInterestID m) (EncodeZ32 (dcInterestID m));;
      when (hZ h) (EncodeExtensions (dcExtensions m));;
      EncodeSubTo body
  end.

Definition DecodeDeclare (h : Header) : RM Declare_ :=
  guard_err (negb (hID h =? IDNetworkDeclare)) (ErrMsg "wire: expected DECLARE header");;
  id ← (if hF1 h then DecodeZ32 else mret 0);
  exts ← (if hZ h then wrap "DECLARE extensions" DecodeExtensions else mret []);
  body ← wrap "DECLARE body" decodeDeclareBody;
  mret (mkDeclare id (hF1 h) exts (Some body)).

(** ** INTEREST *)

Definition InterestModeFinal : Z := 0.
Definition InterestModeCurrent : Z := 1.
Definition InterestModeFuture : Z := 2.
Definition InterestModeCurrentFuture : Z := 3.

Record InterestFilter := mkInterestFilter {
  ifKeyExprs : bool; ifSubscribers : bool; ifQueryables : bool; ifTokens : bool;
  ifAggregate : bool }.

Definition NoFilter : InterestFilter := mkInterestFilter false false false false false.

Record Interest := mkInterest {
  itInterestID : Z; itMode : Z; itFilter : InterestFilter;
  itKeyExpr : option WireExpr; itExtensions : list Extension }.

Definition Interest_header (m : Interest) : Header :=
  mkHeader IDNetworkInterest (has_flag (itMode m) 1) (has_flag (itMode m) 2)
    (hasExts (itExtensions m)).

Definition interest_opts (f : InterestFilter) (ke : option WireExpr) : Z :=
  let opts := or_flag 0 (ifKeyExprs f) (Z.shiftl 1 0) in
  let opts := or_flag opts (ifSubscribers f) (Z.shiftl 1 1) in
  let opts := or_flag opts (ifQueryables f) (Z.shiftl 1 2) in
  let opts := or_flag opts (ifTokens f) (Z.shiftl 1 3) in
  let opts := or_flag opts (ifAggregate f) (Z.shiftl 1 7) in
  match ke with
  | None => opts
  | Some k =>
      let opts := Z.lor opts (Z.shiftl 1 4) in
      let opts := or_flag opts (Named k) (Z.shiftl 1 5) in
      or_flag opts (weMapping k) (Z.shiftl 1 6)
  end.

#[export] Instance Interest_Encoder : Encoder Interest := fun m =>
  let h := Interest_header m in
  EncodeHeader h;;
  EncodeZ32 (itInterestID m);;
  when (negb (itMode m =? InterestModeFinal))
    (AppendByte (interest_opts (itFilter m) (itKeyExpr m));;
     when_some (itKeyExpr m) EncodeScope);;
  when (hZ h) (EncodeExtensions (itExtensions m)).

(** The options byte and the restricted key expression. *)
Definition DecodeInterestOpts : RM (InterestFilter * option WireExpr) :=
  opts ← ReadByte;
  let f := mkInterestFilter (has_flag opts (Z.shiftl 1 0)) (has_flag opts (Z.shiftl 1 1))
             (has_flag opts (Z.shiftl 1 2)) (has_flag opts (Z.shiftl 1 3))
             (has_flag opts (Z.shiftl 1 7)) in
  ke ← decode_some (has_flag opts (Z.shiftl 1 4))
         (DecodeWireExpr (has_flag opts (Z.shiftl 1 5)) (has_flag opts (Z.shiftl 1 6)));
  mret (f, ke).

Definition DecodeInterest (h : Header) : RM Interest :=
  guard_err (negb (hID h =? IDNetworkInterest)) (ErrMsg "wire: expected INTEREST header");;
  let mode := or_flag (or_flag 0 (hF1 h) 1) (hF2 h) 2 in
  id ← DecodeZ32;
  fk ← (if negb (mode =? InterestModeFinal) then DecodeInterestOpts
        else mret (NoFilter, None));
  exts ← (if hZ h then wrap "INTEREST extensions" DecodeExtensions else mret []);
  mret (mkInterest id mode fk.1 fk.2 exts).

Arguments EncodePushBody : simpl never.
Arguments decodePushBody : simpl never.
Arguments EncodeResponseBody : simpl never.
Arguments decodeResponseBody : simpl never.
Arguments decodeQueryBody : simpl never.
Arguments EncodeSubTo : simpl never.
Arguments decodeDeclareBody : simpl never.
Arguments decode_some : simpl never.
Arguments when_some : simpl never.
Arguments DecodeInterestOpts : simpl never.
Arguments interest_opts : simpl never.
Arguments has_flag : simpl never.
Arguments or_flag : simpl never.

(** ** Well-formed messages *)

Definition wf_opt {A} (P : A -> Prop) (o : option A) : Prop :=
  match o with Some a => P a | None => True end.

Definition wf_some {A} (P : A -> Prop) (o : option A) : Prop :=
  match o with Some a => P a | None => False end.

Definition wf_PutBody (p : PutBody) : Prop :=
  wf_opt wf_timestamp (pbTimestamp p) /\ wf_opt wf_encoding (pbEncoding p) /\
  wf_extensions (pbExtensions p) /\ len (pbPayload p) <= 0xFFFFFFFF.
Definition wf_DelBody (d : DelBody) : Prop :=
  wf_opt wf_timestamp (dbTimestamp d) /\ wf_extensions (dbExtensions d).
Definition wf_PushBody (b : PushBody) : Prop :=
  match b with PPut p => wf_PutBody p | PDel d => wf_DelBody d end.

Definition wf_Push (m : Push) : Prop :=
  wf_wireexpr (puKeyExpr m) /\ wf_extensions (puExtensions m) /\
  wf_some wf_PushBody (puBody m).

Definition wf_QueryBody (q : QueryBody) : Prop :=
  wf_string 0xFFFF (qbParameters q) /\ wf_extensions (qbExtensions q).
Definition wf_Request (m : Request) : Prop :=
  0 <= rqRequestID m < 2 ^ 32 /\ wf_wireexpr (rqKeyExpr m) /\
  wf_extensions (rqExtensions m) /\ wf_some wf_QueryBody (rqBody m).

Definition wf_ReplyBody (r : ReplyBody) : Prop :=
  wf_extensions (rbExtensions r) /\ wf_some wf_PushBody (rbInner r).
Definition wf_ErrBody (e : ErrBody) : Prop :=
  wf_opt wf_encoding (ebEncoding e) /\ wf_extensions (ebExtensions e) /\
  len (ebPayload e) <= 0xFFFFFFFF.
Definition wf_ResponseBody (b : ResponseBody) : Prop :=
  match b with RReply r => wf_ReplyBody r | RErr e => wf_ErrBody e end.
Definition wf_Response (m : Response) : Prop :=
  0 <= rsRequestID m < 2 ^ 32 /\ wf_wireexpr (rsKeyExpr m) /\
  wf_extensions (rsExtensions m) /\ wf_some wf_ResponseBody (rsBody m).
Definition wf_ResponseFinal (m : ResponseFinal) : Prop :=
  0 <= rfRequestID m < 2 ^ 32 /\ wf_extensions (rfExtensions m).

Definition wf_DeclareKeyExpr (d : DeclareKeyExpr) : Prop :=
  0 <= dkExprID d < 2 ^ 16 /\ 0 <= dkScope d < 2 ^ 16 /\
  wf_string 0xFFFF (dkSuffix d) /\ wf_extensions (dkExtensions d).
Definition wf_UndeclareKeyExpr (d : UndeclareKeyExpr) : Prop :=
  0 <= ukExprID d < 2 ^ 16 /\ wf_extensions (ukExtensions d).
Definition wf_DeclareEntity (d : DeclareEntity) : Prop :=
  (deKind d = IDDeclareSubscriber \/ deKind d = IDDeclareQueryable \/
   deKind d = IDDeclareToken) /\
  0 <= deEntityID d < 2 ^ 32 /\ wf_wireexpr (deKeyExpr d) /\
  wf_extensions (deExtensions d).

(** Another extension with the WireExpr id would be taken for the key. *)
Definition not_wireexpr_ext (e : Extension) : Prop :=
  ~ (eID (eHeader e) = WireExprExtID /\ eEncoding (eHeader e) = ExtEncZBuf).

(** Scope and suffix of a U_* key: the suffix needs no length prefix. *)
Definition wf_ext_wireexpr (k : WireExpr) : Prop :=
  0 <= weScope k < 2 ^ 16 /\ len (weSuffix k) <= 0xFFFF.
Definition wf_UndeclareEntity (d : UndeclareEntity) : Prop :=
  (ueKind d = IDUndeclareSubscriber \/ ueKind d = IDUndeclareQueryable \/
   ueKind d = IDUndeclareToken) /\
  0 <= ueEntityID d < 2 ^ 32 /\ wf_ext_wireexpr (ueWireExpr d) /\
  wf_extensions (ueExtensions d) /\ Forall not_wireexpr_ext (ueExtensions d).
Definition wf_DeclareFinal (d : DeclareFinal) : Prop := wf_extensions (dfExtensions d).
Definition wf_DeclareBody (b : DeclareBody) : Prop :=
  match b with
  | BDeclareKeyExpr d => wf_DeclareKeyExpr d
  | BUndeclareKeyExpr d => wf_UndeclareKeyExpr d
  | BDeclareEntity d => wf_DeclareEntity d
  | BUndeclareEntity d => wf_UndeclareEntity d
  | BDeclareFinal d => wf_DeclareFinal d
  end.
Definition wf_Declare (m : Declare_) : Prop :=
  (if dcHasInterestID m then 0 <= dcInterestID m < 2 ^ 32 else dcInterestID m = 0) /\
  wf_extensions (dcExtensions m) /\ wf_some wf_DeclareBody (dcBody m).

Definition wf_Interest (m : Interest) : Prop :=
  0 <= itInterestID m < 2 ^ 32 /\ 0 <= itMode m <= 3 /\
  (itMode m = InterestModeFinal -> itFilter m = NoFilter /\ itKeyExpr m = None) /\
  wf_opt wf_wireexpr (itKeyExpr m) /\ wf_extensions (itExtensions m).

(** ** Round trips of the data sub-messages *)

Lemma codec_ok_some {A} (P : A -> Prop) (o : option A) (enc : A -> WM unit) dec :
  wf_opt P o -> (forall a, P a -> codec_ok (enc a) dec a) ->
  codec_ok (when_some o enc) (decode_some (is_some o) dec) o.
Proof.
  intros Ho H. destruct o as [a|]; cbn; [|apply codec_ok_ret].
  eapply codec_ok_last; [by apply H|done].
Qed.

Lemma codec_ok_some_timestamp ctx o :
  wf_opt wf_timestamp o ->
  codec_ok (when_some o EncodeTo) (decode_some (is_some o) (wrap ctx DecodeTimestamp)) o.
Proof. intros H. by apply (codec_ok_some wf_timestamp); auto using codec_ok_wrap with codec. Qed.

Lemma codec_ok_some_timestamp_bare o :
  wf_opt wf_timestamp o ->
  codec_ok (when_some o EncodeTo) (decode_some (is_some o) DecodeTimestamp) o.
Proof. intros H. apply (codec_ok_some wf_timestamp); auto with codec. Qed.

Lemma codec_ok_some_encoding ctx o :
  wf_opt wf_encoding o ->
  codec_ok (when_some o EncodeTo) (decode_some (is_some o) (wrap ctx DecodeEncoding)) o.
Proof. intros H. by apply (codec_ok_some wf_encoding); auto using codec_ok_wrap with codec. Qed.

Lemma codec_ok_some_byte o :
  codec_ok (when_some o AppendByte) (decode_some (is_some o) ReadByte) o.
Proof.
  apply (codec_ok_some (fun _ => True)); [by destruct o|]. intros. apply codec_ok_AppendByte.
Qed.

Lemma codec_ok_when_string16 s :
  wf_string 0xFFFF s ->
  codec_ok (when (nonempty s) (EncodeStringZ16 s))
    (if nonempty s then DecodeStringZ16 else mret []) s.
Proof.
  intros Hs. apply codec_ok_when; intros; [by apply codec_ok_StringZ16|by destruct s].
Qed.

#[export] Hint Resolve codec_ok_some_timestamp codec_ok_some_timestamp_bare
  codec_ok_some_encoding codec_ok_some_byte codec_ok_when_string16 : codec.

(** Opens a well-formedness hypothesis on a concrete record. *)
Ltac open_wf :=
  let Hwf := fresh "Hwf" in
  cbn; intros Hwf; try red in Hwf; cbn in Hwf; destruct_and? Hwf.

(** A sub-message: its header first, then its fields, then its constructor. *)
Ltac sub_message :=
  eapply codec_ok_bind; [apply codec_ok_Header; cbn; done|]; cbn;
  eapply codec_ok_last; [|reflexivity].

Lemma codec_ok_PushBody b :
  wf_PushBody b -> codec_ok (EncodePushBody b) decodePushBody b.
Proof.
  destruct b as [[ts enc exts pl]|[ts exts]]; open_wf; unfold decodePushBody.
  - sub_message. unfold decodePutBody. codec_fields. done.
  - sub_message. unfold decodeDelBody. codec_fields. done.
Qed.

Lemma codec_ok_QueryBody q :
  wf_QueryBody q -> codec_ok (EncodeTo q) decodeQueryBody q.
Proof.
  destruct q. open_wf. unfold decodeQueryBody.
  eapply codec_ok_bind; [apply codec_ok_Header; cbn; done|]; cbn.
  codec_fields. done.
Qed.

Lemma codec_ok_PushBody_wrap ctx b :
  wf_PushBody b -> codec_ok (EncodePushBody b) (wrap ctx decodePushBody) b.
Proof. intros. by apply codec_ok_wrap, codec_ok_PushBody. Qed.
#[export] Hint Resolve codec_ok_PushBody_wrap codec_ok_QueryBody : codec.

Lemma codec_ok_ResponseBody b :
  wf_ResponseBody b -> codec_ok (EncodeResponseBody b) decodeResponseBody b.
Proof.
  destruct b as [[c exts [inner|]]|[enc exts pl]]; open_wf; unfold decodeResponseBody.
  - sub_message. unfold decodeReplyBody. codec_fields. done.
  - done.
  - sub_message. unfold decodeErrBody. codec_fields. done.
Qed.
#[export] Hint Resolve codec_ok_ResponseBody : codec.

(** ** Round trips of the network messages *)

Lemma Push_round_trip m : wf_Push m ->
  exists e, writes (EncodeTo m) (PackHeader (Push_header m) :: e) /\
            decodes (DecodePush (Push_header m)) m e.
Proof.
  revert m. unfold DecodePush. intros [ke exts [b|]]; [|by intros (_&_&[])].
  open_wf. apply round_trip_intro. cbn. codec_fields. done.
Qed.

Lemma Request_round_trip m : wf_Request m ->
  exists e, writes (EncodeTo m) (PackHeader (Request_header m) :: e) /\
            decodes (DecodeRequest (Request_header m)) m e.
Proof.
  revert m. unfold DecodeRequest. intros [id ke exts [b|]]; [|by intros (_&_&_&[])].
  open_wf. apply round_trip_intro. cbn. codec_fields. done.
Qed.

Lemma Response_round_trip m : wf_Response m ->
  exists e, writes (EncodeTo m) (PackHeader (Response_header m) :: e) /\
            decodes (DecodeResponse (Response_header m)) m e.
Proof.
  revert m. unfold DecodeResponse. intros [id ke exts [b|]]; [|by intros (_&_&_&[])].
  open_wf. apply round_trip_intro. cbn. codec_fields. done.
Qed.

Lemma ResponseFinal_round_trip m : wf_ResponseFinal m ->
  exists e, writes (EncodeTo m) (PackHeader (ResponseFinal_header m) :: e) /\
            decodes (DecodeResponseFinal (ResponseFinal_header m)) m e.
Proof. revert m. unfold wf_ResponseFinal, DecodeResponseFinal. message_round_trip. done. Qed.

(** ** DECLARE *)

Lemma unfold_wireexpr_flags b m :
  let f := or_flag (or_flag 0 b (Z.shiftl 1 0)) m (Z.shiftl 1 1) in
  has_flag f (Z.shiftl 1 0) = b /\ has_flag f (Z.shiftl 1 1) = m.
Proof. by destruct b, m. Qed.

(** The U_* key survives its extension. *)
Lemma WireExprExtension_ok k :
  wf_ext_wireexpr k -> exists ext,
    encodeWireExprExtension k = Ok ext /\ wf_extension ext /\
    eID (eHeader ext) = WireExprExtID /\ eEncoding (eHeader ext) = ExtEncZBuf /\
    decodeWireExprExtensionBody (eZBuf ext) = Ok k.
Proof.
  destruct k as [sc s m]. intros [Hsc Hs]. cbn in Hsc, Hs.
  destruct (codec_ok_Z16 sc Hsc) as (e & W & D).
  destruct (unfold_wireexpr_flags (nonempty s) m) as [F1 F2].
  unfold encodeWireExprExtension, decodeWireExprExtensionBody, Named.
  set (flags := or_flag _ _ _) in *. cbn [weScope weSuffix weMapping] in *.
  assert (Hw : (AppendByte flags;; EncodeZ16 sc;; when (nonempty s) (AppendBytes s))
                 NewWriter = Ok (tt, mkWriter ([flags] ++ e ++ s))).
  { apply (writes_bind _ _ [flags] (e ++ s)); [done|].
    apply writes_bind; [done|].
    destruct s; [apply writes_ret|apply writes_AppendBytes]. }
  rewrite Hw. eexists. split; [done|]. split_and!; try done; cbn.
  - split; [by vm_compute|]. cbn [eEncoding eHeader eZ64 eZBuf]. split; [done|].
    unfold len in *. rewrite length_cons, length_app.
    pose proof (writes_Z64_length _ _ W) as Hl. lia.
  - pose proof (ReadByte_cons (NewReader (flags :: e ++ s)) flags (e ++ s) eq_refl) as R.
    rewrite (stm_bind_step _ _ _ _ _ R). cbn beta zeta. rewrite F1, F2.
    assert (Hs' : Reader_Bytes (advance (NewReader (flags :: e ++ s)) 1) = e ++ s)
      by done.
    rewrite (stm_bind_step _ _ _ _ _ (D _ s
               (reader_wf_cons _ _ _ (reader_wf_NewReader _) eq_refl) Hs')).
    cbn. do 2 f_equal. rewrite advance_advance. unfold Reader_Bytes. cbn.
    rewrite drop_app_length. by destruct s.
Qed.

(** Collecting a chain without a WireExpr extension keeps it as it is. *)
Lemma collect_undeclare_other exts : forall d,
  Forall not_wireexpr_ext exts ->
  collect_undeclare exts d =
  Ok (mkUndeclareEntity (ueKind d) (ueEntityID d) (ueWireExpr d)
        (ueExtensions d ++ exts)).
Proof.
  induction exts as [|x exts IH]; intros d Hf; cbn.
  - rewrite app_nil_r. by destruct d.
  - apply Forall_cons in Hf as [Hx Hf].
    destruct (Z.eqb_spec (eID (eHeader x)) WireExprExtID) as [Hid|Hid]; cbn [andb].
    + case_bool_decide; [by destruct Hx|]. rewrite IH by done. cbn. by rewrite <- app_assoc.
    + rewrite IH by done. cbn. by rewrite <- app_assoc.
Qed.

Lemma normalise_more_cons x exts :
  normalise_more (x :: exts) = set_more x (hasExts exts) :: normalise_more exts.
Proof. done. Qed.

(** Encoding the WireExpr extension and then the rest is encoding one chain. *)
Lemma EncodeExtensions_cons x exts :
  EncodeExtensions (x :: exts) =
  (EncodeExtension (set_more x (hasExts exts));; EncodeExtensions exts).
Proof. done. Qed.

Lemma codec_ok_undeclare_tail k id ke exts :
  wf_ext_wireexpr ke -> wf_extensions exts -> Forall not_wireexpr_ext exts ->
  codec_ok
    (match encodeWireExprExtension ke with
     | Err e => throw e
     | Ok ext => EncodeExtension (set_more ext (hasExts exts));; EncodeExtensions exts
     end)
    (chain ← DecodeExtensions;
     lift_result (collect_undeclare chain
       (mkUndeclareEntity k id (mkWireExpr 0 [] false) [])))
    (mkUndeclareEntity k id ke exts).
Proof.
  intros Hke [Hexts Hn] Hno.
  destruct (WireExprExtension_ok ke Hke) as (ext & -> & Hwf & Hid & Henc & Hdec).
  rewrite <- EncodeExtensions_cons.
  destruct (codec_ok_Extensions_normalise (ext :: exts)) as (e & W & D); [done|by constructor|].
  exists e. split; [done|]. rewrite <- (app_nil_r e). eapply decodes_bind; [exact D|].
  intros r rest _ _. rewrite normalise_more_cons, Hn. cbn.
  replace (eID (eHeader ext) =? WireExprExtID) with true by (symmetry; by apply Z.eqb_eq).
  rewrite Henc, bool_decide_eq_true_2 by done. cbn [andb]. rewrite Hdec.
  rewrite collect_undeclare_other by done. cbn. by rewrite advance_0.
Qed.
#[export] Hint Resolve codec_ok_undeclare_tail : codec.

Lemma codec_ok_DeclareBody b :
  wf_DeclareBody b -> codec_ok (EncodeSubTo b) decodeDeclareBody b.
Proof.
  destruct b as [[id sc s exts]|[id exts]|[k id ke exts]|[k id ke exts]|[exts]];
    open_wf; unfold decodeDeclareBody.
  - sub_message. unfold decodeDeclareKeyExpr. cbn. codec_fields. done.
  - sub_message. unfold decodeUndeclareKeyExpr. cbn. codec_fields. done.
  - destruct H as [->|[->| ->]]; sub_message; unfold decodeDeclareEntity; cbn;
      codec_fields; done.
  - destruct H as [->|[->| ->]]; sub_message; unfold decodeUndeclareEntity; cbn;
      (eapply codec_ok_bind; [by apply codec_ok_Z32|]; by apply codec_ok_undeclare_tail).
  - sub_message. unfold decodeDeclareFinal. cbn. codec_fields. done.
Qed.
#[export] Hint Resolve codec_ok_DeclareBody : codec.

Lemma codec_ok_InterestID (b : bool) id :
  (if b then 0 <= id < 2 ^ 32 else id = 0) ->
  codec_ok (when b (EncodeZ32 id)) (if b then DecodeZ32 else mret 0) id.
Proof. intros Hid. apply codec_ok_when; intros ->; [by apply codec_ok_Z32|done]. Qed.
#[export] Hint Resolve codec_ok_InterestID : codec.

Lemma Declare_round_trip m : wf_Declare m ->
  exists e, writes (EncodeTo m) (PackHeader (Declare_header m) :: e) /\
            decodes (DecodeDeclare (Declare_header m)) m e.
Proof.
  revert m. unfold DecodeDeclare. intros [id hid exts [b|]]; [|by intros (_&_&[])].
  open_wf. apply round_trip_intro. cbn. codec_fields. done.
Qed.

(** ** INTEREST *)

Lemma interest_opts_flags f ke :
  let o := interest_opts f ke in
  mkInterestFilter (has_flag o (Z.shiftl 1 0)) (has_flag o (Z.shiftl 1 1))
    (has_flag o (Z.shiftl 1 2)) (has_flag o (Z.shiftl 1 3))
    (has_flag o (Z.shiftl 1 7)) = f /\
  has_flag o (Z.shiftl 1 4) = is_some ke /\
  has_flag o (Z.shiftl 1 5) = from_option Named false ke /\
  has_flag o (Z.shiftl 1 6) = from_option weMapping false ke.
Proof.
  destruct f as [k s q t a]. unfold interest_opts. destruct ke as [we|]; cbn [from_option].
  - generalize (Named we) as n, (weMapping we) as m. intros n m.
    by destruct k, s, q, t, a, n, m.
  - by destruct k, s, q, t, a.
Qed.

Lemma codec_ok_InterestOpts f ke :
  wf_opt wf_wireexpr ke ->
  codec_ok (AppendByte (interest_opts f ke);; when_some ke EncodeScope)
    DecodeInterestOpts (f, ke).
Proof.
  intros Hke. destruct (interest_opts_flags f ke) as (F1 & F2 & F3 & F4).
  eapply codec_ok_bind; [apply codec_ok_AppendByte|]. cbv zeta.
  rewrite F1, F2, F3, F4. eapply codec_ok_last; [|reflexivity].
  apply codec_ok_some with (P := fun k => ke = Some k /\ wf_wireexpr k); [by destruct ke|].
  intros k [-> Hk]. by apply codec_ok_WireExpr.
Qed.
#[export] Hint Resolve codec_ok_InterestOpts : codec.

(** The two mode bits travel in the header flags. *)
Lemma interest_mode_flags m : 0 <= m < 4 ->
  or_flag (or_flag 0 (has_flag m 1) 1) (has_flag m 2) 2 = m.
Proof. revert m. by_range 4%nat. Qed.

Lemma Interest_round_trip m : wf_Interest m ->
  exists e, writes (EncodeTo m) (PackHeader (Interest_header m) :: e) /\
            decodes (DecodeInterest (Interest_header m)) m e.
Proof.
  destruct m as [id mode f ke exts]. unfold wf_Interest, DecodeInterest. cbn.
  intros (Hid & Hm & Hfin & Hke & Hexts).
  pose proof (interest_mode_flags mode ltac:(lia)) as Emode.
  apply round_trip_intro. cbn. codec_fields. rewrite Emode. cbv zeta. codec_fields.
  destruct (Z.eqb_spec mode InterestModeFinal) as [->|Hne]; cbn [negb when].
  - destruct (Hfin eq_refl) as [-> ->]. codec_fields. done.
  - codec_fields. done.
Qed.

(** ** Cursor and termination facts *)

Lemma consumes_decode_some {A} b (dec : RM A) :
  consumes 0 dec -> consumes 0 (decode_some b dec).
Proof. intros H. unfold decode_some. destruct b; solve_consumes. Qed.
Lemma no_fuel_decode_some {A} b (dec : RM A) :
  consumes 0 dec -> no_fuel_err dec -> no_fuel_err (decode_some b dec).
Proof. intros H H'. unfold decode_some. destruct b; [|solve_no_fuel].
  apply no_fuel_bind; [done|done|intros; solve_no_fuel]. Qed.
#[export] Hint Extern 1 (consumes 0 (decode_some _ _)) =>
  apply consumes_decode_some; solve_consumes : consumes.
#[export] Hint Extern 1 (no_fuel_err (decode_some _ _)) =>
  apply no_fuel_decode_some; [solve_consumes|solve_no_fuel] : no_fuel.

Lemma consumes_PutBody h : consumes 0 (decodePutBody h).
Proof. unfold decodePutBody. solve_consumes. Qed.
#[export] Hint Resolve consumes_PutBody : consumes.
Lemma no_fuel_PutBody h : no_fuel_err (decodePutBody h).
Proof. unfold decodePutBody. solve_no_fuel. Qed.
#[export] Hint Resolve no_fuel_PutBody : no_fuel.
Lemma consumes_DelBody h : consumes 0 (decodeDelBody h).
Proof. unfold decodeDelBody. solve_consumes. Qed.
#[export] Hint Resolve consumes_DelBody : consumes.
Lemma no_fuel_DelBody h : no_fuel_err (decodeDelBody h).
Proof. unfold decodeDelBody. solve_no_fuel. Qed.
#[export] Hint Resolve no_fuel_DelBody : no_fuel.
Lemma consumes_PushBody : consumes 1 (decodePushBody).
Proof. unfold decodePushBody. solve_consumes. Qed.
#[export] Hint Resolve consumes_PushBody : consumes.
Lemma no_fuel_PushBody : no_fuel_err (decodePushBody).
Proof. unfold decodePushBody. solve_no_fuel. Qed.
#[export] Hint Resolve no_fuel_PushBody : no_fuel.
Lemma consumes_Push h : consumes 0 (DecodePush h).
Proof. unfold DecodePush. solve_consumes. Qed.
#[export] Hint Resolve consumes_Push : consumes.
Lemma no_fuel_Push h : no_fuel_err (DecodePush h).
Proof. unfold DecodePush. solve_no_fuel. Qed.
#[export] Hint Resolve no_fuel_Push : no_fuel.
Lemma consumes_QueryBody : consumes 1 (decodeQueryBody).
Proof. unfold decodeQueryBody. solve_consumes. Qed.
#[export] Hint Resolve consumes_QueryBody : consumes.
Lemma no_fuel_QueryBody : no_fuel_err (decodeQueryBody).
Proof. unfold decodeQueryBody. solve_no_fuel. Qed.
#[export] Hint Resolve no_fuel_QueryBody : no_fuel.
Lemma consumes_Request h : consumes 0 (DecodeRequest h).
Proof. unfold DecodeRequest. solve_consumes. Qed.
#[export] Hint Resolve consumes_Request : consumes.
Lemma no_fuel_Request h : no_fuel_err (DecodeRequest h).
Proof. unfold DecodeRequest. solve_no_fuel. Qed.
#[export] Hint Resolve no_fuel_Request : no_fuel.
Lemma consumes_ReplyBody h : consumes 0 (decodeReplyBody h).
Proof. unfold decodeReplyBody. solve_consumes. Qed.
#[export] Hint Resolve consumes_ReplyBody : consumes.
Lemma no_fuel_ReplyBody h : no_fuel_err (decodeReplyBody h).
Proof. unfold decodeReplyBody. solve_no_fuel. Qed.
#[export] Hint Resolve no_fuel_ReplyBody : no_fuel.
Lemma consumes_ErrBody h : consumes 0 (decodeErrBody h).
Proof. unfold decodeErrBody. solve_consumes. Qed.
#[export] Hint Resolve consumes_ErrBody : consumes.
Lemma no_fuel_ErrBody h : no_fuel_err (decodeErrBody h).
Proof. unfold decodeErrBody. solve_no_fuel. Qed.
#[export] Hint Resolve no_fuel_ErrBody : no_fuel.
Lemma consumes_ResponseBody : consumes 1 (decodeResponseBody).
Proof. unfold decodeResponseBody. solve_consumes. Qed.
#[export] Hint Resolve consumes_ResponseBody : consumes.
Lemma no_fuel_ResponseBody : no_fuel_err (decodeResponseBody).
Proof. unfold decodeResponseBody. solve_no_fuel. Qed.
#[export] Hint Resolve no_fuel_ResponseBody : no_fuel.
Lemma consumes_Response h : consumes 0 (DecodeResponse h).
Proof. unfold DecodeResponse. solve_consumes. Qed.
#[export] Hint Resolve consumes_Response : consumes.
Lemma no_fuel_Response h : no_fuel_err (DecodeResponse h).
Proof. unfold DecodeResponse. solve_no_fuel. Qed.
#[export] Hint Resolve no_fuel_Response : no_fuel.
Lemma consumes_ResponseFinal h : consumes 0 (DecodeResponseFinal h).
Proof. unfold DecodeResponseFinal. solve_consumes. Qed.
#[export] Hint Resolve consumes_ResponseFinal : consumes.
Lemma no_fuel_ResponseFinal h : no_fuel_err (DecodeResponseFinal h).
Proof. unfold DecodeResponseFinal. solve_no_fuel. Qed.
#[export] Hint Resolve no_fuel_ResponseFinal : no_fuel.
Lemma consumes_DeclareKeyExpr h : consumes 0 (decodeDeclareKeyExpr h).
Proof. unfold decodeDeclareKeyExpr. solve_consumes. Qed.
#[export] Hint Resolve consumes_DeclareKeyExpr : consumes.
Lemma no_fuel_DeclareKeyExpr h : no_fuel_err (decodeDeclareKeyExpr h).
Proof. unfold decodeDeclareKeyExpr. solve_no_fuel. Qed.
#[export] Hint Resolve no_fuel_DeclareKeyExpr : no_fuel.
Lemma consumes_UndeclareKeyExpr h : consumes 0 (decodeUndeclareKeyExpr h).
Proof. unfold decodeUndeclareKeyExpr. solve_consumes. Qed.
#[export] Hint Resolve consumes_UndeclareKeyExpr : consumes.
Lemma no_fuel_UndeclareKeyExpr h : no_fuel_err (decodeUndeclareKeyExpr h).
Proof. unfold decodeUndeclareKeyExpr. solve_no_fuel. Qed.
#[export] Hint Resolve no_fuel_UndeclareKeyExpr : no_fuel.
Lemma consumes_DeclareEntity h k : consumes 0 (decodeDeclareEntity h k).
Proof. unfold decodeDeclareEntity. solve_consumes. Qed.
#[export] Hint Resolve consumes_DeclareEntity : consumes.
Lemma no_fuel_DeclareEntity h k : no_fuel_err (decodeDeclareEntity h k).
Proof. unfold decodeDeclareEntity. solve_no_fuel. Qed.
#[export] Hint Resolve no_fuel_DeclareEntity : no_fuel.
Lemma consumes_lift_result {A} (x : result A) : consumes 0 (lift_result x).
Proof.
  intros r a r' Hw. unfold lift_result. destruct x; [|done]. intros [= <- <-].
  split_and!; [done|lia|done].
Qed.
#[export] Hint Resolve consumes_lift_result : consumes.

Lemma decodeWireExprExtensionBody_no_fuel b e :
  decodeWireExprExtensionBody b = Err e -> errors_is e ErrFuel = false.
Proof.
  unfold decodeWireExprExtensionBody.
  match goal with |- context [?m (NewReader b)] =>
    assert (H : no_fuel_err m) by solve_no_fuel;
    destruct (m (NewReader b)) as [[ke r]|e'] eqn:E; [done|]
  end.
  intros [= <-]. exact (H _ _ (reader_wf_NewReader b) E).
Qed.

Lemma collect_undeclare_no_fuel exts : forall d e,
  collect_undeclare exts d = Err e -> errors_is e ErrFuel = false.
Proof.
  induction exts as [|x exts IH]; intros d e; cbn; [done|].
  destruct (_ && _); [|apply IH].
  destruct (decodeWireExprExtensionBody _) as [ke|e'] eqn:E; [apply IH|].
  intros [= <-]. cbn. by eapply decodeWireExprExtensionBody_no_fuel.
Qed.

Lemma no_fuel_collect_undeclare exts d : no_fuel_err (lift_result (collect_undeclare exts d)).
Proof.
  intros r e _. unfold lift_result. destruct (collect_undeclare exts d) eqn:E; [done|].
  intros [= <-]. by eapply collect_undeclare_no_fuel.
Qed.
#[export] Hint Resolve no_fuel_collect_undeclare : no_fuel.

Lemma consumes_UndeclareEntity h k : consumes 0 (decodeUndeclareEntity h k).
Proof. unfold decodeUndeclareEntity. solve_consumes. Qed.
#[export] Hint Resolve consumes_UndeclareEntity : consumes.
Lemma no_fuel_UndeclareEntity h k : no_fuel_err (decodeUndeclareEntity h k).
Proof. unfold decodeUndeclareEntity. solve_no_fuel. Qed.
#[export] Hint Resolve no_fuel_UndeclareEntity : no_fuel.
Lemma consumes_DeclareFinal h : consumes 0 (decodeDeclareFinal h).
Proof. unfold decodeDeclareFinal. solve_consumes. Qed.
#[export] Hint Resolve consumes_DeclareFinal : consumes.
Lemma no_fuel_DeclareFinal h : no_fuel_err (decodeDeclareFinal h).
Proof. unfold decodeDeclareFinal. solve_no_fuel. Qed.
#[export] Hint Resolve no_fuel_DeclareFinal : no_fuel.
Lemma consumes_DeclareBody : consumes 1 (decodeDeclareBody).
Proof. unfold decodeDeclareBody. solve_consumes. Qed.
#[export] Hint Resolve consumes_DeclareBody : consumes.
Lemma no_fuel_DeclareBody : no_fuel_err (decodeDeclareBody).
Proof. unfold decodeDeclareBody. solve_no_fuel. Qed.
#[export] Hint Resolve no_fuel_DeclareBody : no_fuel.
Lemma consumes_Declare h : consumes 0 (DecodeDeclare h).
Proof. unfold DecodeDeclare. solve_consumes. Qed.
#[export] Hint Resolve consumes_Declare : consumes.
Lemma no_fuel_Declare h : no_fuel_err (DecodeDeclare h).
Proof. unfold DecodeDeclare. solve_no_fuel. Qed.
#[export] Hint Resolve no_fuel_Declare : no_fuel.
Lemma consumes_InterestOpts : consumes 0 (DecodeInterestOpts).
Proof. unfold DecodeInterestOpts. solve_consumes. Qed.
#[export] Hint Resolve consumes_InterestOpts : consumes.
Lemma no_fuel_InterestOpts : no_fuel_err (DecodeInterestOpts).
Proof. unfold DecodeInterestOpts. solve_no_fuel. Qed.
#[export] Hint Resolve no_fuel_InterestOpts : no_fuel.
Lemma consumes_Interest h : consumes 0 (DecodeInterest h).
Proof. unfold DecodeInterest. solve_consumes. Qed.
#[export] Hint Resolve consumes_Interest : consumes.
Lemma no_fuel_Interest h : no_fuel_err (DecodeInterest h).
Proof. unfold DecodeInterest. solve_no_fuel. Qed.
#[export] Hint Resolve no_fuel_Interest : no_fuel.

(** ** The instances of the interface *)

#[export] Instance Push_WireMessage : WireMessage Push := {|
  msg_id := IDNetworkPush; msg_header := Push_header; decode_msg := DecodePush;
  wf_msg := wf_Push; msg_header_id _ := eq_refl; msg_round_trip := Push_round_trip;
  msg_reject h r Hne := guard_reject _ _ _ _ r Hne;
  msg_consumes := consumes_Push; msg_no_fuel := no_fuel_Push |}.
#[export] Instance Request_WireMessage : WireMessage Request := {|
  msg_id := IDNetworkRequest; msg_header := Request_header; decode_msg := DecodeRequest;
  wf_msg := wf_Request; msg_header_id _ := eq_refl; msg_round_trip := Request_round_trip;
  msg_reject h r Hne := guard_reject _ _ _ _ r Hne;
  msg_consumes := consumes_Request; msg_no_fuel := no_fuel_Request |}.
#[export] Instance Response_WireMessage : WireMessage Response := {|
  msg_id := IDNetworkResponse; msg_header := Response_header; decode_msg := DecodeResponse;
  wf_msg := wf_Response; msg_header_id _ := eq_refl; msg_round_trip := Response_round_trip;
  msg_reject h r Hne := guard_reject _ _ _ _ r Hne;
  msg_consumes := consumes_Response; msg_no_fuel := no_fuel_Response |}.
#[export] Instance ResponseFinal_WireMessage : WireMessage ResponseFinal := {|
  msg_id := IDNetworkResponseFinal; msg_header := ResponseFinal_header; decode_msg := DecodeResponseFinal;
  wf_msg := wf_ResponseFinal; msg_header_id _ := eq_refl; msg_round_trip := ResponseFinal_round_trip;
  msg_reject h r Hne := guard_reject _ _ _ _ r Hne;
  msg_consumes := consumes_ResponseFinal; msg_no_fuel := no_fuel_ResponseFinal |}.
#[export] Instance Interest_WireMessage : WireMessage Interest := {|
  msg_id := IDNetworkInterest; msg_header := Interest_header; decode_msg := DecodeInterest;
  wf_msg := wf_Interest; msg_header_id _ := eq_refl; msg_round_trip := Interest_round_trip;
  msg_reject h r Hne := guard_reject _ _ _ _ r Hne;
  msg_consumes := consumes_Interest; msg_no_fuel := no_fuel_Interest |}.
#[export] Instance Declare_WireMessage : WireMessage Declare_ := {|
  msg_id := IDNetworkDeclare; msg_header := Declare_header; decode_msg := DecodeDeclare;
  wf_msg := wf_Declare; msg_header_id _ := eq_refl; msg_round_trip := Declare_round_trip;
  msg_reject h r Hne := guard_reject _ _ _ _ r Hne;
  msg_consumes := consumes_Declare; msg_no_fuel := no_fuel_Declare |}.
