(* ===== verification/KeyExprSpec.v ===== *)
(** * The meaning of key expressions

    [matches p k]: the concrete key [k] (a list of chunks) is in the set the
    key expression with chunks [p] denotes.  The string algorithms of KeyExpr
    are first shown equal to recursions on chunk lists ([inc], [inter],
    [canon]), which are then related to [matches]. *)
From S2P Require Import Prelude KeyExpr.

Abbreviation chunk := (list Z) (only parsing).
Abbreviation pattern := (list (list Z)) (only parsing).

(** ** The specification *)

Inductive matches : pattern -> list chunk -> Prop :=
  | m_nil : matches [] []
  | m_dstar_end p k : matches p k -> matches (doubleWild :: p) k
  | m_dstar_more p c k : matches (doubleWild :: p) k -> matches (doubleWild :: p) (c :: k)
  | m_star p c k : matches p k -> matches (singleWild :: p) (c :: k)
  | m_literal c p k :
      c <> singleWild -> c <> doubleWild -> matches p k -> matches (c :: p) (c :: k).

(** Chunks are nonempty and hold no separator; those of a key no wildcard. *)
Definition chunk_ok (c : chunk) : Prop := c <> [] /\ Forall (fun b => b <> slash) c.
Definition concrete_chunk (c : chunk) : Prop := chunk_ok c /\ Forall (fun b => b <> star) c.
Definition concrete_key (k : list chunk) : Prop := k <> [] /\ Forall concrete_chunk k.

(** No chunk mixes ['*'] with other bytes, none holds a reserved byte. *)
Definition valid_chunk (c : chunk) : Prop :=
  chunk_ok c /\ ContainsForbidden c = false /\
  (hasWildcard c = true -> c = singleWild \/ c = doubleWild).

(** [**] is followed neither by [**] nor by [*]. *)
Fixpoint ordered (p : pattern) : Prop :=
  match p with
  | c :: ((d :: _) as p') =>
      ~ (c = doubleWild /\ (d = doubleWild \/ d = singleWild)) /\ ordered p'
  | _ => True
  end.

Definition canonical (p : pattern) : Prop :=
  p <> [] /\ Forall valid_chunk p /\ ordered p.

(** The set of keys a key expression denotes. *)
Definition denotes (k : KeyExpr) (key : list chunk) : Prop :=
  concrete_key key /\ matches (SplitSeq (ke_s k)) key.

(** What [New] and [Autocanonize] return. *)
Definition valid_ke (k : KeyExpr) : Prop := New (ke_s k) = Ok k.

(** ** Chunk lists and their text *)

Lemma SplitSeq_not_nil s : SplitSeq s <> [].
Proof. destruct s as [|b s]; cbn; [done|]. destruct (b =? slash); [done|]. by destruct (SplitSeq s). Qed.

Lemma JoinChunks_cons c cs :
  cs <> [] -> JoinChunks (c :: cs) = c ++ slash :: JoinChunks cs.
Proof. by destruct cs. Qed.

Lemma JoinChunks_SplitSeq s : JoinChunks (SplitSeq s) = s.
Proof.
  induction s as [|b s IH]; [done|]. cbn [SplitSeq].
  destruct (Z.eqb_spec b slash) as [->|Hb].
  - rewrite JoinChunks_cons by apply SplitSeq_not_nil. by rewrite IH.
  - pose proof (SplitSeq_not_nil s). destruct (SplitSeq s) as [|c cs]; [done|].
    destruct cs; cbn in *; by rewrite <- IH.
Qed.

Lemma SplitSeq_no_slash s : Forall (Forall (fun b => b <> slash)) (SplitSeq s).
Proof.
  induction s as [|b s IH]; cbn; [by repeat constructor|].
  destruct (Z.eqb_spec b slash); [by constructor|].
  destruct IH; repeat constructor; auto.
Qed.

Lemma SplitSeq_app c s :
  Forall (fun b => b <> slash) c -> SplitSeq (c ++ slash :: s) = c :: SplitSeq s.
Proof.
  induction 1 as [|b c Hb _ IH]; cbn; [done|].
  rewrite (proj2 (Z.eqb_neq _ _) Hb). by rewrite IH.
Qed.

Lemma SplitSeq_chunk c : Forall (fun b => b <> slash) c -> SplitSeq c = [c].
Proof.
  induction 1 as [|b c Hb _ IH]; cbn; [done|].
  rewrite (proj2 (Z.eqb_neq _ _) Hb). by rewrite IH.
Qed.

Lemma SplitSeq_JoinChunks cs :
  cs <> [] -> Forall (Forall (fun b => b <> slash)) cs -> SplitSeq (JoinChunks cs) = cs.
Proof.
  induction cs as [|c cs IH]; [done|]. intros _ [Hc Hcs]%Forall_cons.
  destruct cs as [|d cs]; [by apply SplitSeq_chunk|].
  rewrite JoinChunks_cons, SplitSeq_app by done. f_equal. by apply IH.
Qed.

Lemma Forall_chunk_ok p : Forall valid_chunk p -> Forall chunk_ok p.
Proof. intros H. eapply Forall_impl; [exact H|]. by intros c []. Qed.

Lemma chunk_ok_no_slash p : Forall chunk_ok p -> Forall (Forall (fun b => b <> slash)) p.
Proof. intros H. eapply Forall_impl; [exact H|]. by intros c []. Qed.

Lemma JoinChunks_nil p : Forall chunk_ok p -> JoinChunks p = [] -> p = [].
Proof.
  destruct 1 as [|c p [Hc _] _]; [done|]. destruct p; cbn; [done|]. by destruct c.
Qed.

Lemma Cut_chunk c : Forall (fun b => b <> slash) c -> Cut c = (c, [], false).
Proof.
  induction 1 as [|b c Hb _ IH]; cbn; [done|].
  by rewrite (proj2 (Z.eqb_neq _ _) Hb), IH.
Qed.

Lemma Cut_app c s :
  Forall (fun b => b <> slash) c -> Cut (c ++ slash :: s) = (c, s, true).
Proof.
  induction 1 as [|b c Hb _ IH]; cbn; [done|].
  by rewrite (proj2 (Z.eqb_neq _ _) Hb), IH.
Qed.

(** [splitChunk] takes the first chunk off the text. *)
Lemma splitChunk_join c p :
  Forall chunk_ok (c :: p) -> splitChunk (JoinChunks (c :: p)) = (c, JoinChunks p).
Proof.
  intros [[_ Hc] Hp]%Forall_cons. unfold splitChunk. destruct p as [|d p].
  - cbn [JoinChunks]. by rewrite (Cut_chunk _ Hc).
  - rewrite JoinChunks_cons by done. by rewrite (Cut_app _ _ Hc).
Qed.

Lemma empty_join p : Forall chunk_ok p -> empty (JoinChunks p) = bool_decide (p = []).
Proof.
  intros Hp. unfold empty. apply bool_decide_ext. split; [by apply JoinChunks_nil|by intros ->].
Qed.

Lemma length_join c p :
  Forall chunk_ok (c :: p) -> (length (JoinChunks p) < length (JoinChunks (c :: p)))%nat.
Proof.
  intros [[Hc _] _]%Forall_cons. destruct c as [|b c]; [done|]. destruct p.
  - cbn. lia.
  - rewrite (JoinChunks_cons (b :: c)), length_app by done. cbn. lia.
Qed.

(** ** The algorithms on chunk lists *)

Fixpoint inc (l : pattern) : pattern -> bool :=
  match l with
  | [] => fun _ => false
  | c :: l' =>
      if is_wild2 c then
        fix go (r : pattern) :=
          bool_decide (l' = []) || inc l' r ||
          match r with
          | _ :: ((_ :: _) as r') => go r'
          | _ => false
          end
      else fun r =>
        match r with
        | [] => false
        | d :: r' =>
            negb (is_wild2 d) && chunkIncludes c d &&
            (if decide (l' = []) then bool_decide (r' = []) else inc l' r')
        end
  end.

Fixpoint inter (a : pattern) : pattern -> bool :=
  fix go (b : pattern) :=
    match a, b with
    | [], _ | _, [] =>
        (bool_decide (a = []) || bool_decide (a = [doubleWild])) &&
        (bool_decide (b = []) || bool_decide (b = [doubleWild]))
    | ca :: ra, cb :: rb =>
        if is_wild2 ca then
          if decide (ra = []) then true
          else if decide (rb = []) then inter ra b
          else inter ra b || go rb
        else if is_wild2 cb then
          if decide (rb = []) then true
          else if decide (ra = []) then go rb
          else go rb || inter ra b
        else singleChunkIntersect ca cb && inter ra rb
    end.

(** ** The strings algorithms are the list algorithms *)

Lemma wild2_ok : chunk_ok doubleWild.
Proof. split; [done|]. by repeat constructor. Qed.

Lemma ltrIncludes_loop_inc fuel : forall l r,
  Forall chunk_ok l -> Forall chunk_ok r ->
  (length (JoinChunks l) + length (JoinChunks r) < fuel)%nat ->
  ltrIncludes_loop fuel (JoinChunks l) (JoinChunks r) = Some (inc l r).
Proof.
  induction fuel as [|fuel IH]; intros l r Hl Hr Hf; [lia|]. cbn [ltrIncludes_loop].
  destruct l as [|c l].
  { cbn [JoinChunks inc]. change (splitChunk []) with ([] : bytes, [] : bytes).
    cbn [is_wild2 empty]. destruct r as [|d r]; [done|]. rewrite splitChunk_join by done.
    apply Forall_cons in Hr as [[Hd _] Hr]. unfold is_wild2, empty, chunkIncludes, is_wild1.
    repeat case_bool_decide; simplify_eq; try done; by destruct (JoinChunks r). }
  rewrite splitChunk_join by done. pose proof (length_join c l Hl) as Ll.
  apply Forall_cons in Hl as [Hc Hl]. cbn [inc].
  rewrite empty_join by done. destruct (is_wild2 c) eqn:Ec.
  - assert (c = doubleWild) as -> by (by apply bool_decide_eq_true in Ec).
    destruct (bool_decide (l = [])) eqn:El; [by destruct r|].
    rewrite IH by (done || lia).
    destruct r as [|d r]; [by destruct (inc l [])|].
    rewrite splitChunk_join by done. pose proof (length_join d r Hr) as Lr.
    apply Forall_cons in Hr as [Hd Hr]. rewrite empty_join by done.
    destruct (inc l (d :: r)); [done|]. cbn [orb mbind option_bind].
    destruct r as [|e r]; [done|]. cbn [bool_decide]. rewrite bool_decide_eq_false_2 by done.
    rewrite IH; [|by constructor; [apply wild2_ok|]|done|cbn in *; lia].
    cbn [inc]. rewrite Ec, El. done.
  - destruct r as [|d r]; [done|].
    rewrite splitChunk_join by done. pose proof (length_join d r Hr) as Lr.
    apply Forall_cons in Hr as [Hd Hr]. unfold empty at 1.
    rewrite bool_decide_eq_false_2 by apply Hd. cbn [orb].
    destruct (is_wild2 d); [done|]. cbn [negb andb].
    destruct (chunkIncludes c d); [|done]. cbn [negb andb].
    destruct (decide (l = [])) as [Hn|Hn].
    + rewrite bool_decide_eq_true_2 by done. by rewrite empty_join.
    + rewrite bool_decide_eq_false_2 by done. apply IH; [done|done|lia].
Qed.

Lemma is_wild2_join p : Forall chunk_ok p ->
  is_wild2 (JoinChunks p) = bool_decide (p = [doubleWild]).
Proof.
  intros Hp. apply bool_decide_ext. split; [|by intros ->]. intros H.
  destruct p as [|c p]; [done|].
  pose proof (splitChunk_join c p Hp) as E. rewrite H in E.
  change (splitChunk doubleWild) with (doubleWild, [] : bytes) in E.
  injection E as <- E. apply Forall_cons in Hp as [_ Hp].
  by rewrite (JoinChunks_nil p Hp).
Qed.

Lemma chunkIntersect_loop_inter fuel : forall a b,
  Forall chunk_ok a -> Forall chunk_ok b ->
  (length (JoinChunks a) + length (JoinChunks b) < fuel)%nat ->
  chunkIntersect_loop fuel (JoinChunks a) (JoinChunks b) = Some (inter a b).
Proof.
  induction fuel as [|fuel IH]; intros a b Ha Hb Hf; [lia|]. cbn [chunkIntersect_loop].
  rewrite !empty_join, !is_wild2_join by done.
  destruct a as [|ca ra]; [by destruct b|]. destruct b as [|cb rb]; [done|].
  rewrite !(bool_decide_eq_false_2 (_ :: _ = [])) by done. cbn [orb].
  rewrite !splitChunk_join by done.
  pose proof (length_join _ _ Ha) as La. pose proof (length_join _ _ Hb) as Lb.
  pose proof Ha as [Hca Hra]%Forall_cons. pose proof Hb as [Hcb Hrb]%Forall_cons.
  rewrite !empty_join by done.
  pose proof (IH ra (cb :: rb) Hra Hb ltac:(lia)) as I1.
  pose proof (IH (ca :: ra) rb Ha Hrb ltac:(lia)) as I2.
  pose proof (IH ra rb Hra Hrb ltac:(lia)) as I3.
  rewrite I1, I2, I3. cbn [mbind option_bind].
  change (inter (ca :: ra) (cb :: rb)) with
    (if is_wild2 ca then
       if decide (ra = []) then true
       else if decide (rb = []) then inter ra (cb :: rb)
       else inter ra (cb :: rb) || inter (ca :: ra) rb
     else if is_wild2 cb then
       if decide (rb = []) then true
       else if decide (ra = []) then inter (ca :: ra) rb
       else inter (ca :: ra) rb || inter ra (cb :: rb)
     else singleChunkIntersect ca cb && inter ra rb).
  destruct (is_wild2 ca), (is_wild2 cb); repeat case_bool_decide;
    repeat case_decide; try done;
    by destruct (inter ra (cb :: rb)), (inter (ca :: ra) rb), (singleChunkIntersect ca cb).
Qed.

(** ** Properties of [matches] *)

Lemma matches_dstar_app p k1 k2 :
  matches (doubleWild :: p) k2 -> matches (doubleWild :: p) (k1 ++ k2).
Proof. intros H. induction k1; cbn; [done|]. by constructor. Qed.

Lemma matches_dstar_all k : matches [doubleWild] k.
Proof. rewrite <- (app_nil_r k). apply matches_dstar_app. repeat constructor. Qed.

Lemma matches_dstar_inv p k :
  matches (doubleWild :: p) k <->
  exists k1 k2, k = k1 ++ k2 /\ matches p k2.
Proof.
  split.
  - intros H. remember (doubleWild :: p) as q eqn:E. revert p E.
    induction H as [|q k H IH|q c k H IH|q c k H IH|c q k H1 H2 H IH];
      intros p E; simplify_eq.
    + by exists [], k.
    + destruct (IH p eq_refl) as (k1 & k2 & -> & Hk). by exists (c :: k1), k2.
  - intros (k1 & k2 & -> & H). by apply matches_dstar_app, m_dstar_end.
Qed.

(** A non-[**] chunk matches exactly one chunk of the key. *)
Definition chunk_matches (c d : chunk) : Prop := c = singleWild \/ c = d.

Lemma matches_cons_inv c p k :
  c <> doubleWild ->
  matches (c :: p) k <->
  exists d k', k = d :: k' /\ chunk_matches c d /\ matches p k'.
Proof.
  intros Hc. unfold chunk_matches. split.
  - inversion 1; simplify_eq; eauto 10.
  - intros (d & k' & -> & [->| ->] & H); [by constructor|].
    destruct (decide (d = singleWild)) as [->|]; by constructor.
Qed.

Lemma matches_cons_split c p k :
  matches (c :: p) k -> exists k1 k2, k = k1 ++ k2 /\ matches p k2.
Proof.
  destruct (decide (c = doubleWild)) as [->|Hc].
  - by rewrite matches_dstar_inv.
  - rewrite matches_cons_inv by done. intros (d & k' & -> & _ & H). by exists [d], k'.
Qed.

Lemma matches_nil_inv p : matches p [] -> Forall (fun c => c = doubleWild) p.
Proof.
  remember [] as k eqn:E. induction 1; try done; by constructor; auto.
Qed.

Lemma ordered_tail c p : ordered (c :: p) -> ordered p.
Proof. destruct p; [done|]. by intros []. Qed.

(** Only [**] itself can match the empty tail of a key. *)
Lemma matches_nil_ordered p :
  ordered p -> matches p [] -> p = [] \/ p = [doubleWild].
Proof.
  intros Ho H%matches_nil_inv. destruct H as [|c p -> H]; [by left|]. right.
  destruct H as [|d p -> H]; [done|]. destruct Ho as [Ho _]. naive_solver.
Qed.

Lemma matches_nil_dstar p : ordered (doubleWild :: p) -> matches p [] -> p = [].
Proof.
  intros Ho H. destruct (matches_nil_ordered p (ordered_tail _ _ Ho) H) as [->| ->]; [done|].
  destruct Ho as [Ho _]. naive_solver.
Qed.

Lemma is_wild2_spec c : is_wild2 c = true <-> c = doubleWild.
Proof. apply bool_decide_eq_true. Qed.
Lemma is_wild2_false c : is_wild2 c = false <-> c <> doubleWild.
Proof. apply bool_decide_eq_false. Qed.
Lemma chunkIncludes_spec c d : chunkIncludes c d = true <-> c = singleWild \/ c = d.
Proof.
  unfold chunkIncludes, is_wild1. rewrite orb_true_iff, !bool_decide_eq_true. naive_solver.
Qed.
Lemma singleChunkIntersect_spec c d :
  singleChunkIntersect c d = true <-> c = d \/ c = singleWild \/ d = singleWild.
Proof.
  unfold singleChunkIntersect, is_wild1. rewrite !orb_true_iff, !bool_decide_eq_true.
  naive_solver.
Qed.

(** ** Inclusion *)

Lemma inc_sound l : forall r k, inc l r = true -> matches r k -> matches l k.
Proof.
  induction l as [|c l IH]; intros r k Hi Hm; [done|]. cbn [inc] in Hi.
  destruct (is_wild2 c) eqn:Ec.
  - apply is_wild2_spec in Ec as ->. revert k Hm.
    induction r as [|d r IHr]; intros k Hm;
      (apply orb_true_iff in Hi as [[->%bool_decide_eq_true|Hi]%orb_true_iff|Hi];
       [apply matches_dstar_all|by eapply m_dstar_end, IH|]); [done|].
    destruct r as [|e r]; [done|]. apply matches_cons_split in Hm as (k1 & k2 & -> & Hm).
    by apply matches_dstar_app, IHr.
  - apply is_wild2_false in Ec. destruct r as [|d r]; [done|].
    apply andb_true_iff in Hi as [[Hd Hcd]%andb_true_iff Hi].
    apply negb_true_iff, is_wild2_false in Hd. apply chunkIncludes_spec in Hcd.
    apply matches_cons_inv in Hm as (x & k' & -> & Hx & Hm); [|done].
    apply matches_cons_inv; [done|]. exists x, k'. split; [done|].
    split; [unfold chunk_matches in *; naive_solver|].
    case_decide as Hl; [|by eapply IH]. apply bool_decide_eq_true in Hi as ->. by subst l.
Qed.

(** The key that instantiates every [*] of [r] by the chunk [f]. *)
Definition instance (f : chunk) (r : pattern) : list chunk :=
  (fun c => if is_wild1 c then f else c) <$> r.

Lemma matches_instance f r :
  Forall (fun c => c <> doubleWild) r -> matches r (instance f r).
Proof.
  induction 1 as [|c r Hc _ IH]; [constructor|]. apply matches_cons_inv; [done|].
  eexists _, _. split; [reflexivity|]. split; [|done]. unfold chunk_matches.
  destruct (is_wild1 c) eqn:E; [left; by apply bool_decide_eq_true in E|by right].
Qed.

(** Inclusion is exact against a right side without [**]: one key, with a
    chunk [f] foreign to the left side for each [*], decides it. *)
Lemma inc_complete f l : forall r,
  l <> [] -> f ∉ l -> ordered l -> Forall (fun c => c <> doubleWild) r ->
  matches l (instance f r) -> inc l r = true.
Proof.
  induction l as [|c l IH]; intros r Hl Hf Ho Hr Hm; [done|].
  apply not_elem_of_cons in Hf as [Hfc Hf]. pose proof (ordered_tail _ _ Ho) as Ho'.
  cbn [inc]. destruct (is_wild2 c) eqn:Ec.
  - apply is_wild2_spec in Ec as ->. destruct (decide (l = [])) as [->|Hn]; [by destruct r|].
    rewrite (bool_decide_eq_false_2 (l = [])) by done. cbn [orb].
    induction Hr as [|d r Hd Hr IHr].
    + apply matches_dstar_inv in Hm as (k1 & k2 & E & Hm).
      symmetry in E. apply app_eq_nil in E as [-> ->].
      by destruct (Hn (matches_nil_dstar l Ho Hm)).
    + apply matches_dstar_inv in Hm as (k1 & k2 & E & Hm). destruct k1 as [|x k1].
      * cbn [app] in E. subst k2. rewrite (IH (d :: r)); [done|done|done|done| |done].
        by constructor.
      * injection E as <- E. apply orb_true_iff. right. destruct r as [|e r].
        -- symmetry in E. apply app_eq_nil in E as [-> ->].
           by destruct (Hn (matches_nil_dstar l Ho Hm)).
        -- apply IHr, matches_dstar_inv. eauto.
  - apply is_wild2_false in Ec. apply matches_cons_inv in Hm as (x & k' & E & Hx & Hm); [|done].
    destruct Hr as [|d r Hd Hr]; [done|]. injection E as <- <-.
    apply is_wild2_false in Hd as ->. cbn [negb andb].
    assert (chunkIncludes c d = true) as ->.
    { apply chunkIncludes_spec. unfold chunk_matches in Hx.
      destruct (is_wild1 d); naive_solver. }
    cbn [andb]. case_decide as Hn.
    + subst l. apply bool_decide_eq_true. inversion Hm as [E| | | |]. by destruct r.
    + by apply IH.
Qed.

(** ** Intersection *)

Lemma inter_cons ca ra cb rb :
  inter (ca :: ra) (cb :: rb) =
    (if is_wild2 ca then
       if decide (ra = []) then true
       else if decide (rb = []) then inter ra (cb :: rb)
       else inter ra (cb :: rb) || inter (ca :: ra) rb
     else if is_wild2 cb then
       if decide (rb = []) then true
       else if decide (ra = []) then inter (ca :: ra) rb
       else inter (ca :: ra) rb || inter ra (cb :: rb)
     else singleChunkIntersect ca cb && inter ra rb).
Proof. done. Qed.

Lemma inter_nil_r a : inter a [] = bool_decide (a = []) || bool_decide (a = [doubleWild]).
Proof. destruct a; cbn; by rewrite ?andb_true_r. Qed.

(** Any pattern has an instance: [**] matches nothing, [*] the chunk [f]. *)
Lemma matches_some f p :
  Forall (fun c => c <> doubleWild -> concrete_chunk (if is_wild1 c then f else c)) p ->
  exists k, matches p k /\ Forall concrete_chunk k.
Proof.
  induction 1 as [|c p Hc _ (k & Hm & Hk)]; [by exists []; split; constructor|].
  destruct (decide (c = doubleWild)) as [->|Hd].
  - exists k. split; [by constructor|done].
  - eexists. split; [|by constructor; [exact (Hc Hd)|exact Hk]].
    apply matches_cons_inv; [done|]. eexists _, _. split; [done|]. split; [|done].
    unfold chunk_matches. destruct (is_wild1 c) eqn:E; [left|by right].
    by apply bool_decide_eq_true in E.
Qed.

(** Prepending a chunk's instance on one side, absorbed by [**] on the other. *)
Lemma matches_absorb f c p q k :
  (c <> doubleWild -> concrete_chunk (if is_wild1 c then f else c)) ->
  matches p k -> matches (doubleWild :: q) k -> Forall concrete_chunk k ->
  exists k', matches (c :: p) k' /\ matches (doubleWild :: q) k' /\ Forall concrete_chunk k'.
Proof.
  intros Hc Hp Hq Hk. destruct (decide (c = doubleWild)) as [->|Hd].
  - exists k. split_and!; [by constructor|done|done].
  - exists ((if is_wild1 c then f else c) :: k).
    split_and!; [|by constructor|constructor; auto].
    apply matches_cons_inv; [done|]. eexists _, _. split; [done|]. split; [|done].
    unfold chunk_matches. destruct (is_wild1 c) eqn:E; [left|by right].
    by apply bool_decide_eq_true in E.
Qed.

Definition instantiable (f : chunk) (p : pattern) : Prop :=
  Forall (fun c => c <> doubleWild -> concrete_chunk (if is_wild1 c then f else c)) p.

Lemma inter_sound f a : forall b,
  concrete_chunk f -> instantiable f a -> instantiable f b -> inter a b = true ->
  exists k, matches a k /\ matches b k /\ Forall concrete_chunk k.
Proof.
  intros b Hf Ha. revert b. induction Ha as [|ca ra Hca Hra IHa]; intros b Hb.
  { intros Hi. exists []. destruct b as [|c b]; [by repeat constructor|]. cbn in Hi.
    apply bool_decide_eq_true in Hi as ->. by repeat constructor. }
  induction Hb as [|cb rb Hcb Hrb IHb].
  { rewrite inter_nil_r. intros [Hi|Hi]%orb_true_iff; apply bool_decide_eq_true in Hi;
      [done|]. exists []. rewrite Hi. by repeat constructor. }
  pose proof (Forall_cons_2 _ _ _ Hcb Hrb) as Hb. rewrite inter_cons.
  assert (Cra : inter ra (cb :: rb) = true -> ca = doubleWild -> exists k,
    matches (ca :: ra) k /\ matches (cb :: rb) k /\ Forall concrete_chunk k).
  { intros Hi ->. destruct (IHa _ Hb Hi) as (k & Ka & Kb & K). exists k.
    split_and!; [by constructor|done|done]. }
  assert (Crb : inter (ca :: ra) rb = true -> cb = doubleWild -> exists k,
    matches (ca :: ra) k /\ matches (cb :: rb) k /\ Forall concrete_chunk k).
  { intros Hi ->. destruct (IHb Hi) as (k & Ka & Kb & K). exists k.
    split_and!; [done|by constructor|done]. }
  destruct (is_wild2 ca) eqn:Ea; [apply is_wild2_spec in Ea as ->|].
  - case_decide as Hn.
    { intros _. subst ra. destruct (matches_some f (cb :: rb)) as (k & K & Kc); [done|].
      exists k. split_and!; [apply matches_dstar_all|done|done]. }
    case_decide; [by intros ?; apply Cra|].
    intros [Hi|Hi]%orb_true_iff; [by apply Cra|].
    destruct (IHb Hi) as (k & Ka & Kb & K).
    destruct (matches_absorb f cb rb ra k) as (k' & ? & ? & ?); naive_solver.
  - destruct (is_wild2 cb) eqn:Eb; [apply is_wild2_spec in Eb as ->|].
    + case_decide as Hn.
      { intros _. subst rb. destruct (matches_some f (ca :: ra)) as (k & K & Kc); [by constructor|].
        exists k. split_and!; [done|apply matches_dstar_all|done]. }
      case_decide; [by intros ?; apply Crb|].
      intros [Hi|Hi]%orb_true_iff; [by apply Crb|].
      destruct (IHa _ Hb Hi) as (k & Ka & Kb & K).
      destruct (matches_absorb f ca ra rb k) as (k' & ? & ? & ?); naive_solver.
    + apply is_wild2_false in Ea, Eb.
      intros [Hs Hi]%andb_true_iff. destruct (IHa rb Hrb Hi) as (k & Ka & Kb & K).
      apply singleChunkIntersect_spec in Hs. specialize (Hca Ea). specialize (Hcb Eb).
      set (d := if is_wild1 ca then (if is_wild1 cb then f else cb) else ca).
      exists (d :: k). rewrite !matches_cons_inv by done.
      assert (Hd : chunk_matches ca d /\ chunk_matches cb d /\ concrete_chunk d).
      { subst d. unfold chunk_matches, is_wild1 in *. repeat case_bool_decide; naive_solver. }
      destruct Hd as (? & ? & ?). split_and!; [eauto|eauto|by constructor].
Qed.

Lemma matches_nil_l k : matches [] k -> k = [].
Proof. by inversion 1. Qed.

Lemma inter_complete n : forall a b k,
  (length a + length b + length k < n)%nat -> ordered a -> ordered b ->
  matches a k -> matches b k -> inter a b = true.
Proof.
  induction n as [|n IH]; intros a b k Hn Oa Ob Ma Mb; [lia|].
  destruct a as [|ca ra].
  { apply matches_nil_l in Ma as ->.
    destruct (matches_nil_ordered b Ob Mb) as [->| ->]; done. }
  destruct b as [|cb rb].
  { apply matches_nil_l in Mb as ->. rewrite inter_nil_r.
    destruct (matches_nil_ordered _ Oa Ma) as [E| ->]; done. }
  pose proof (ordered_tail _ _ Oa) as Ora. pose proof (ordered_tail _ _ Ob) as Orb.
  rewrite inter_cons. cbn [length] in Hn.
  destruct (is_wild2 ca) eqn:Ea; [apply is_wild2_spec in Ea as ->|].
  - case_decide as Hra; [done|].
    assert (Hend : matches ra k -> inter ra (cb :: rb) = true).
    { intros M. apply (IH _ _ k); cbn; (lia || done). }
    apply matches_dstar_inv in Ma as (k1 & k2 & -> & Ma).
    destruct k1 as [|x k1]; [rewrite (Hend Ma); by case_decide|].
    destruct (is_wild2 cb) eqn:Eb.
    + apply is_wild2_spec in Eb as ->. apply matches_dstar_inv in Mb as (j1 & j2 & E & Mb).
      destruct j1 as [|y j1].
      * cbn [app] in E. subst j2. case_decide as Hrb.
        { subst rb. by apply matches_nil_l in Mb. }
        apply orb_true_iff. right.
        apply (IH _ _ ((x :: k1) ++ k2)); [cbn in *; lia|done|done| |done].
        apply matches_dstar_inv. eauto.
      * injection E as <- E.
        pose proof (IH (doubleWild :: ra) (doubleWild :: rb) (k1 ++ k2)) as H.
        rewrite inter_cons in H. cbn [is_wild2 bool_decide] in H.
        rewrite (decide_False (P := ra = []) _ _ Hra) in H.
        apply H; [cbn in *; lia|done|done|apply matches_dstar_inv; eauto|].
        rewrite E. apply matches_dstar_inv. eauto.
    + apply is_wild2_false in Eb.
      apply matches_cons_inv in Mb as (y & k' & [= <- <-] & _ & Mb); [|done].
      case_decide as Hrb.
      { subst rb. apply matches_nil_l, app_eq_nil in Mb as [-> ->].
        by destruct (Hra (matches_nil_dstar ra Oa Ma)). }
      apply orb_true_iff. right.
      apply (IH _ _ (k1 ++ k2)); [cbn in *; lia|done|done| |done].
      apply matches_dstar_inv. eauto.
  - apply is_wild2_false in Ea.
    apply matches_cons_inv in Ma as (x & k' & -> & Hx & Ma); [|done].
    destruct (is_wild2 cb) eqn:Eb.
    + apply is_wild2_spec in Eb as ->. case_decide as Hrb; [done|].
      apply matches_dstar_inv in Mb as (j1 & j2 & E & Mb).
      assert (Hend : matches rb (x :: k') -> inter (ca :: ra) rb = true).
      { intros M. apply (IH _ _ (x :: k')); cbn in *; [lia|done|done| |done].
        apply matches_cons_inv; eauto. }
      destruct j1 as [|y j1].
      { cbn [app] in E. subst j2. rewrite (Hend Mb). by case_decide. }
      injection E as <- ->. case_decide as Hra.
      { subst ra. apply matches_nil_l, app_eq_nil in Ma as [-> ->].
        by destruct (Hrb (matches_nil_dstar rb Ob Mb)). }
      apply orb_true_iff. right.
      apply (IH _ _ (j1 ++ j2)); [cbn in *; lia|done|done|done|].
      apply matches_dstar_inv. eauto.
    + apply is_wild2_false in Eb.
      apply matches_cons_inv in Mb as (y & k2 & [= <- <-] & Hy & Mb); [|done].
      apply andb_true_iff. split.
      * apply singleChunkIntersect_spec. unfold chunk_matches in *. naive_solver.
      * apply (IH _ _ k'); [cbn in *; lia|done..].
Qed.

(** ** Validation *)

Lemma SplitSeq_forbidden s :
  ContainsForbidden s = false <-> Forall (fun c => ContainsForbidden c = false) (SplitSeq s).
Proof.
  induction s as [|b s IH]; cbn; [split; [by repeat constructor|done]|].
  destruct (Z.eqb_spec b slash) as [->|Hb]; cbn.
  - change (existsb forbiddenChar s) with (ContainsForbidden s). rewrite IH, Forall_cons.
    naive_solver.
  - change (existsb forbiddenChar s) with (ContainsForbidden s).
    rewrite orb_false_iff, IH. pose proof (SplitSeq_not_nil s).
    destruct (SplitSeq s) as [|c cs]; [done|]. rewrite !Forall_cons. cbn.
    change (existsb forbiddenChar c) with (ContainsForbidden c).
    rewrite orb_false_iff. naive_solver.
Qed.

Lemma SplitSeq_snoc s : SplitSeq (s ++ [slash]) = SplitSeq s ++ [[]].
Proof.
  induction s as [|b s IH]; cbn; [done|]. rewrite IH.
  destruct (b =? slash); [done|].
  pose proof (SplitSeq_not_nil s). by destruct (SplitSeq s).
Qed.

Lemma SplitSeq_boundary s :
  Forall (fun c => c <> []) (SplitSeq s) ->
  s <> [] /\ HasPrefix_slash s = false /\ HasSuffix_slash s = false.
Proof.
  intros H. split_and!.
  - intros ->. by inversion H.
  - destruct s as [|b s]; [done|]. cbn in *. destruct (b =? slash); [by inversion H|done].
  - unfold HasSuffix_slash. destruct (last s) as [b|] eqn:E; [|done].
    apply last_Some in E as [s' ->]. destruct (Z.eqb_spec b slash) as [->|]; [|done].
    rewrite SplitSeq_snoc, Forall_app in H. destruct H as [_ H]. by inversion H.
Qed.

Definition plain_chunk (c : chunk) : Prop :=
  c <> [] /\ (hasWildcard c = true -> c = singleWild \/ c = doubleWild).

Lemma is_wild1_spec c : is_wild1 c = true <-> c = singleWild.
Proof. apply bool_decide_eq_true. Qed.

Lemma validate_loop_ok prev cs :
  validate_loop prev cs = Ok tt <-> Forall plain_chunk cs /\ ordered (prev :: cs).
Proof.
  revert prev. induction cs as [|c cs IH]; intros prev; cbn [validate_loop].
  { split; [intros _; by repeat constructor|done]. }
  rewrite Forall_cons. change (ordered (prev :: c :: cs)) with
    (~ (prev = doubleWild /\ (c = doubleWild \/ c = singleWild)) /\ ordered (c :: cs)).
  unfold plain_chunk at 1. rewrite <- (is_wild2_spec prev), <- (is_wild2_spec c), <- (is_wild1_spec c).
  case_bool_decide as Hc; [naive_solver|].
  destruct (hasWildcard c), (is_wild1 c), (is_wild2 c), (is_wild2 prev); cbn;
    rewrite ?IH; naive_solver.
Qed.

Lemma canonical_plain cs :
  Forall valid_chunk cs <->
  Forall plain_chunk cs /\ Forall (fun c => ContainsForbidden c = false) cs /\
  Forall (Forall (fun b => b <> slash)) cs.
Proof.
  rewrite !Forall_forall. unfold valid_chunk, chunk_ok, plain_chunk. naive_solver.
Qed.

(** [validate] accepts exactly the texts of canonical chunk lists. *)
Lemma validate_ok s : validate s = Ok tt <-> canonical (SplitSeq s).
Proof.
  unfold validate, canonical. rewrite canonical_plain.
  pose proof (SplitSeq_not_nil s) as Hn. pose proof (SplitSeq_no_slash s) as Hs.
  rewrite <- SplitSeq_forbidden. split.
  - repeat case_bool_decide; [done|]. destruct (HasPrefix_slash s), (HasSuffix_slash s),
      (ContainsForbidden s); try done.
    intros [H1 H2]%validate_loop_ok. split_and!; try done. by eapply ordered_tail.
  - intros (_ & (Hp & Hf & _) & Ho).
    destruct (SplitSeq_boundary s) as (H1 & -> & ->).
    { eapply Forall_impl; [exact Hp|]. by intros c []. }
    rewrite bool_decide_eq_false_2, Hf by done. apply validate_loop_ok. split; [done|].
    destruct (SplitSeq s); [done|]. split; [|done]. by intros [? _].
Qed.

Lemma New_ok s k : New s = Ok k <-> k = mkKeyExpr s /\ canonical (SplitSeq s).
Proof.
  unfold New. rewrite <- validate_ok. destruct (validate s) as [[]|e]; naive_solver.
Qed.

Lemma valid_ke_canonical k : valid_ke k <-> canonical (SplitSeq (ke_s k)).
Proof. unfold valid_ke. rewrite New_ok. destruct k. naive_solver. Qed.

(** ** Canonisation *)

Definition pat_equiv (p q : pattern) : Prop := forall k, matches p k <-> matches q k.

#[export] Instance pat_equiv_equivalence : Equivalence pat_equiv.
Proof.
  unfold pat_equiv. split; [done|intros p q H k; by rewrite (H k)|].
  intros p q r H1 H2 k. by rewrite (H1 k), (H2 k).
Qed.

Lemma matches_app p : forall q k,
  matches (p ++ q) k <-> exists k1 k2, k = k1 ++ k2 /\ matches p k1 /\ matches q k2.
Proof.
  induction p as [|c p IH]; intros q k; cbn [app].
  { split; [intros H; by exists [], k; repeat constructor|].
    intros (k1 & k2 & -> & ->%matches_nil_l & H). done. }
  destruct (decide (c = doubleWild)) as [->|Hc].
  - rewrite matches_dstar_inv. setoid_rewrite IH. split.
    + intros (k1 & ? & -> & j1 & j2 & -> & H1 & H2). exists (k1 ++ j1), j2.
      rewrite app_assoc. split_and!; [done| |done]. apply matches_dstar_inv. eauto.
    + intros (j1 & j2 & -> & (k1 & k2 & -> & H1)%matches_dstar_inv & H2).
      exists k1, (k2 ++ j2). rewrite app_assoc. naive_solver.
  - rewrite matches_cons_inv by done. setoid_rewrite IH. split.
    + intros (d & ? & -> & Hd & j1 & j2 & -> & H1 & H2). exists (d :: j1), j2.
      split_and!; [done| |done]. apply matches_cons_inv; eauto.
    + intros (j1 & j2 & -> & (d & k' & -> & Hd & H1)%matches_cons_inv & H2); [|done].
      exists d, (k' ++ j2). naive_solver.
Qed.

#[export] Instance app_pat_equiv : Proper (pat_equiv ==> pat_equiv ==> pat_equiv) app.
Proof.
  intros p p' Hp q q' Hq k. rewrite !matches_app. unfold pat_equiv in *.
  setoid_rewrite Hp. by setoid_rewrite Hq.
Qed.

Lemma equiv_dstar_dstar : pat_equiv [doubleWild; doubleWild] [doubleWild].
Proof.
  intros k. split; [intros _; apply matches_dstar_all|].
  intros _. apply m_dstar_end, matches_dstar_all.
Qed.

Lemma equiv_dstar_star : pat_equiv [doubleWild; singleWild] [singleWild; doubleWild].
Proof.
  intros k. rewrite matches_dstar_inv, matches_cons_inv by done. split.
  - intros (k1 & k2 & -> & (d & k' & -> & _ & ->%matches_nil_l)%matches_cons_inv); [|done].
    destruct k1 as [|x k1]; (eexists _, _; split; [reflexivity|]);
      (split; [by left|apply matches_dstar_all]).
  - intros (d & k' & -> & _ & _).
    destruct (exists_last (l := d :: k')) as (k1 & x & E); [done|]. exists k1, [x].
    split; [done|]. repeat constructor.
Qed.

(** [ordered] read from the end, as the normalisation works. *)
Definition bad_pair (prev last : chunk) : Prop :=
  prev = doubleWild /\ (last = doubleWild \/ last = singleWild).

Fixpoint rordered (st : pattern) : Prop :=
  match st with
  | c :: ((d :: _) as st') => ~ bad_pair d c /\ rordered st'
  | _ => True
  end.

Lemma ordered_snoc p d c : ordered (p ++ [d]) -> ~ bad_pair d c -> ordered (p ++ [d; c]).
Proof.
  induction p as [|x p IH]; cbn [app]; [by repeat split|].
  intros H Hb. destruct p as [|y p]; cbn [app] in *.
  - destruct H. by repeat split.
  - destruct H as [H1 H2]. split; [done|]. by apply IH.
Qed.

Lemma ordered_init p q : ordered (p ++ q) -> ordered p.
Proof.
  induction p as [|x p IH]; [done|]. cbn [app]. intros H.
  destruct p as [|y p]; [done|]. cbn [app] in H. destruct H as [H1 H2].
  split; [done|]. by apply IH.
Qed.

Lemma ordered_snoc_inv p d c : ordered (p ++ [d; c]) -> ~ bad_pair d c.
Proof.
  induction p as [|x p IH]; cbn [app]; [by intros []|].
  intros H%ordered_tail. by apply IH.
Qed.

Lemma rordered_rev st : rordered st <-> ordered (rev st).
Proof.
  induction st as [|c st IH]; [done|]. destruct st as [|d st]; [done|].
  cbn [rev] in *. rewrite <- app_assoc in *. cbn [app].
  change (rordered (c :: d :: st)) with (~ bad_pair d c /\ rordered (d :: st)).
  rewrite IH. split.
  - intros [Hb Ho]. by apply ordered_snoc.
  - intros Ho. split; [by eapply ordered_snoc_inv|].
    eapply (ordered_init _ [c]). by rewrite <- app_assoc.
Qed.

Lemma normalise_tail_stable fuel st :
  rordered st -> normalise_tail (S fuel) st = Some st.
Proof.
  destruct st as [|c [|d st]]; [done|done|]. intros [Hb _]. cbn [normalise_tail].
  unfold bad_pair in Hb. rewrite <- !is_wild2_spec, <- is_wild1_spec in Hb.
  destruct (is_wild2 c), (is_wild2 d), (is_wild1 c); naive_solver.
Qed.

Lemma normalise_tail_cons fuel c d st :
  normalise_tail (S fuel) (c :: d :: st) =
  if is_wild2 c && is_wild2 d then normalise_tail fuel (d :: st)
  else if is_wild1 c && is_wild2 d
  then normalise_tail fuel (doubleWild :: singleWild :: st)
  else Some (c :: d :: st).
Proof. done. Qed.

(** One append: the fuel suffices, the result is ordered and denotes the same. *)
Lemma append_chunk_ok P st c :
  rordered st -> Forall P st -> P c -> P singleWild ->
  exists st', append_chunk st c = Some st' /\ rordered st' /\ Forall P st' /\
    st' <> [] /\ pat_equiv (rev st') (rev st ++ [c]).
Proof.
  intros Ho HP Hc Hw. unfold append_chunk.
  replace (3 + 2 * length st)%nat with (S (S (1 + 2 * length st))) by lia.
  remember (1 + 2 * length st)%nat as n.
  destruct st as [|d st]; [exists [c]; by repeat constructor|].
  rewrite normalise_tail_cons. destruct (is_wild2 c && is_wild2 d) eqn:E1.
  - apply andb_true_iff in E1 as [->%is_wild2_spec ->%is_wild2_spec].
    exists (doubleWild :: st). split; [by apply normalise_tail_stable|].
    split_and!; try done. cbn [rev]. rewrite <- app_assoc.
    apply app_pat_equiv; [done|]. by rewrite equiv_dstar_dstar.
  - destruct (is_wild1 c && is_wild2 d) eqn:E2.
    + apply andb_true_iff in E2 as [->%is_wild1_spec ->%is_wild2_spec].
      exists (doubleWild :: singleWild :: st). split.
      { apply (normalise_tail_stable n). split; [by intros [? _]|].
        destruct st as [|e st]; [done|]. destruct Ho as [Ho Ho']. split; [|done].
        unfold bad_pair in *. naive_solver. }
      inversion HP; subst. split_and!; [| |done|].
      * split; [by intros [? _]|]. destruct st as [|e st]; [done|].
        destruct Ho as [Ho Ho']. split; [|done]. unfold bad_pair in *. naive_solver.
      * by repeat constructor.
      * cbn [rev]. rewrite <- !app_assoc. apply app_pat_equiv; [done|].
        cbn [app]. by rewrite equiv_dstar_star.
    + exists (c :: d :: st). split_and!; try done; [|by constructor].
      split; [|done]. unfold bad_pair.
      rewrite <- !is_wild2_spec, <- is_wild1_spec.
      destruct (is_wild2 c), (is_wild2 d), (is_wild1 c); naive_solver.
Qed.

Definition nonempty_chunks (cs : pattern) : pattern := filter (fun c => c <> []) cs.

Lemma nonempty_chunks_cons c cs :
  nonempty_chunks (c :: cs) =
  if decide (c = []) then nonempty_chunks cs else c :: nonempty_chunks cs.
Proof.
  unfold nonempty_chunks. rewrite filter_cons. by repeat case_decide.
Qed.

Lemma nonempty_chunks_Forall (P : chunk -> Prop) cs :
  Forall P cs -> Forall P (nonempty_chunks cs).
Proof.
  induction 1; [constructor|]. rewrite nonempty_chunks_cons. case_decide; auto.
Qed.

Lemma canonize_loop_ok P cs : forall st,
  rordered st -> Forall P st -> Forall P (nonempty_chunks cs) -> P singleWild ->
  exists st', canonize_loop st cs = Some st' /\ rordered st' /\ Forall P st' /\
    (st' = [] <-> st = [] /\ nonempty_chunks cs = []) /\
    pat_equiv (rev st') (rev st ++ nonempty_chunks cs).
Proof.
  induction cs as [|c cs IH]; intros st Ho HP Hcs Hw; cbn [canonize_loop].
  { exists st. split_and!; try done; [naive_solver|]. by rewrite app_nil_r. }
  rewrite nonempty_chunks_cons in *. case_bool_decide as Hc.
  { rewrite decide_True in * by done. by apply IH. }
  rewrite decide_False in * by done. apply Forall_cons in Hcs as [Hpc Hcs].
  destruct (append_chunk_ok P st c Ho HP Hpc Hw) as (st1 & -> & Ho1 & HP1 & Hn1 & He1).
  destruct (IH st1 Ho1 HP1 Hcs Hw) as (st' & -> & Ho' & HP' & Hn' & He').
  exists st'. split_and!; try done; [naive_solver|].
  rewrite He', He1, <- app_assoc. done.
Qed.

(** On chunks that are in order already, the loop just collects them. *)
Lemma canonize_loop_ordered cs : forall st,
  rordered (rev cs ++ st) -> Forall (fun c => c <> []) cs ->
  canonize_loop st cs = Some (rev cs ++ st).
Proof.
  induction cs as [|c cs IH]; intros st Ho Hn; [done|]. cbn [rev canonize_loop] in *.
  rewrite <- app_assoc in *. apply Forall_cons in Hn as [Hc Hn].
  rewrite bool_decide_eq_false_2 by done.
  assert (Hst : rordered (c :: st)).
  { clear -Ho. induction (rev cs) as [|x l IH]; [done|]. apply IH.
    destruct l; by destruct Ho. }
  unfold append_chunk. cbn [Nat.add]. rewrite normalise_tail_stable by done.
  by apply IH.
Qed.

Lemma valid_wild1 : valid_chunk singleWild.
Proof. split_and!; [split; [done|by repeat constructor]|done|by left]. Qed.

(** ** From valid key expressions to the lists *)

Lemma no_wildcard_star c : hasWildcard c = false <-> Forall (fun b => b <> star) c.
Proof.
  unfold hasWildcard. induction c as [|b c IH]; cbn [existsb]; [split; [by constructor|done]|].
  rewrite orb_false_iff, Forall_cons, IH, Z.eqb_neq. naive_solver.
Qed.

Lemma valid_concrete c :
  valid_chunk c -> c <> singleWild -> c <> doubleWild -> concrete_chunk c.
Proof.
  intros (Hok & _ & Hw) H1 H2. split; [done|]. apply no_wildcard_star.
  destruct (hasWildcard c); naive_solver.
Qed.

Lemma valid_instantiable f p : concrete_chunk f -> Forall valid_chunk p -> instantiable f p.
Proof.
  intros Hf Hp. eapply Forall_impl; [exact Hp|]. intros c Hc Hd.
  destruct (is_wild1 c) eqn:E; [done|]. apply valid_concrete; [done| |done].
  intros ->. done.
Qed.

Definition letter (n : nat) : chunk := replicate (S n) 97.

Lemma letter_concrete n : concrete_chunk (letter n).
Proof. unfold letter. split; [split; [done|]|]; by apply Forall_replicate. Qed.

Lemma letter_key n : concrete_key [letter n].
Proof. split; [done|]. constructor; [apply letter_concrete|constructor]. Qed.

Lemma letter_fresh (l : pattern) : letter (length (concat l)) ∉ l.
Proof.
  intros H. apply list_elem_of_split in H as (l1 & l2 & E).
  pose proof (f_equal (fun l => length (concat l)) E) as Hl. cbn beta in Hl.
  rewrite concat_app, length_app in Hl. cbn [concat] in Hl.
  unfold letter in Hl. rewrite length_app, length_replicate in Hl. lia.
Qed.

Lemma valid_ke_chunks k :
  valid_ke k -> exists p, ke_s k = JoinChunks p /\ SplitSeq (ke_s k) = p /\
    p <> [] /\ Forall valid_chunk p /\ ordered p /\ Forall chunk_ok p.
Proof.
  intros (Hn & Hp & Ho)%valid_ke_canonical. exists (SplitSeq (ke_s k)).
  rewrite JoinChunks_SplitSeq. split_and!; try done. by apply Forall_chunk_ok.
Qed.

Lemma matches_literal p : Forall (fun c => c <> singleWild /\ c <> doubleWild) p ->
  forall k, matches p k <-> k = p.
Proof.
  induction 1 as [|c p [H1 H2] _ IH]; intros k.
  - split; [apply matches_nil_l|by intros ->; constructor].
  - rewrite matches_cons_inv by done. setoid_rewrite IH. unfold chunk_matches. naive_solver.
Qed.

Lemma SplitSeq_no_wildcard s :
  hasWildcard s = false -> Forall (fun c => c <> singleWild /\ c <> doubleWild) (SplitSeq s).
Proof.
  intros H. assert (Hs : Forall (fun c => hasWildcard c = false) (SplitSeq s)).
  { induction s as [|b s IH]; [by repeat constructor|]. cbn in H.
    apply orb_false_iff in H as [Hb H]. specialize (IH H). cbn [SplitSeq].
    destruct (b =? slash); [by constructor|].
    destruct IH as [|c cs Hc Hcs]; constructor; try done; unfold hasWildcard in *;
      cbn; by rewrite Hb. }
  eapply Forall_impl; [exact Hs|]. intros c Hc. split; by intros ->.
Qed.

Lemma SplitSeq_inj s t : SplitSeq s = SplitSeq t -> s = t.
Proof. intros H. by rewrite <- (JoinChunks_SplitSeq s), H, JoinChunks_SplitSeq. Qed.

(** A valid key expression denotes at least one key. *)
Lemma denotes_nonempty k : valid_ke k -> exists key, denotes k key.
Proof.
  intros (p & E & Ep & Hn & Hp & Ho & Hok)%valid_ke_chunks.
  destruct (matches_some (letter 0) p) as (key & Hm & Hk).
  { apply valid_instantiable; [apply letter_concrete|done]. }
  destruct key as [|c key]; [|exists (c :: key); by rewrite <- Ep in Hm].
  destruct (matches_nil_ordered p Ho Hm) as [->| ->]; [done|].
  exists [letter 0]. split; [apply letter_key|].
  rewrite Ep. apply matches_dstar_all.
Qed.

(** ** The theorems *)

Lemma chunkIntersect_exact a b :
  valid_ke a -> valid_ke b ->
  exists r, chunkIntersect (ke_s a) (ke_s b) = Some r /\
    (r = true <-> exists key, denotes a key /\ denotes b key).
Proof.
  intros (p & Ea & Ep & Pn & Pv & Po & Pok)%valid_ke_chunks
    (q & Eb & Eq & Qn & Qv & Qo & Qok)%valid_ke_chunks.
  unfold denotes. rewrite Ep, Eq, Ea, Eb. unfold chunkIntersect.
  rewrite chunkIntersect_loop_inter by (done || lia). exists (inter p q). split; [done|].
  split; [|intros (key & [_ Ka] & [_ Kb]); apply (inter_complete (S (length p + length q + length key)) _ _ key); (lia || done)].
  intros Hi. destruct (inter_sound (letter 0) p q) as (k & Ka & Kb & Kc);
    [apply letter_concrete|apply valid_instantiable; [apply letter_concrete|done]..|done|].
  destruct k as [|c k]; [|by exists (c :: k)].
  destruct (matches_nil_ordered p Po Ka) as [->| ->]; [done|].
  destruct (matches_nil_ordered q Qo Kb) as [->| ->]; [done|].
  pose proof (letter_key 0).
  exists [letter 0]. split; (split; [done|apply matches_dstar_all]).
Qed.

Lemma ltrIncludes_spec a b :
  valid_ke a -> valid_ke b ->
  exists r, ltrIncludes (ke_s a) (ke_s b) = Some r /\
    (r = true -> forall key, denotes b key -> denotes a key) /\
    (doubleWild ∉ SplitSeq (ke_s b) ->
     (forall key, denotes b key -> denotes a key) -> r = true).
Proof.
  intros (p & Ea & Ep & Pn & Pv & Po & Pok)%valid_ke_chunks
    (q & Eb & Eq & Qn & Qv & Qo & Qok)%valid_ke_chunks.
  unfold denotes. rewrite Ep, Eq, Ea, Eb. unfold ltrIncludes.
  rewrite ltrIncludes_loop_inc by (done || lia). exists (inc p q). split_and!; [done| |].
  - intros Hi key [Hk Hm]. split; [done|]. by eapply inc_sound.
  - intros Hd Hall. set (f := letter (length (concat p))).
    assert (Hq : Forall (fun c => c <> doubleWild) q).
    { apply Forall_forall. by intros c Hc ->. }
    apply (inc_complete f); try done; [apply letter_fresh|].
    apply Hall. split; [|by apply matches_instance]. split; [by destruct q|].
    apply Forall_fmap. eapply Forall_impl; [exact (proj2 (Forall_and _ _) (conj Qv Hq))|].
    intros c [Hc Hcd]. cbn. destruct (is_wild1 c) eqn:E; [apply letter_concrete|].
    apply valid_concrete; [done| |done]. by intros ->.
Qed.

(** ** The theorems *)

Lemma Intersects_denotes a b :
  valid_ke a -> valid_ke b ->
  exists r, KeyExpr_Intersects a b = Some r /\
    (r = true <-> exists key, denotes a key /\ denotes b key).
Proof.
  intros Ha Hb. unfold KeyExpr_Intersects.
  destruct (negb (hasWildcard (ke_s a)) && negb (hasWildcard (ke_s b))) eqn:W;
    [|by apply chunkIntersect_exact].
  apply andb_true_iff in W as [Wa%negb_true_iff Wb%negb_true_iff].
  eexists. split; [reflexivity|]. rewrite bool_decide_eq_true. split.
  - intros E. destruct (denotes_nonempty a Ha) as [key Hk]. exists key. split; [done|].
    unfold denotes in *. by rewrite <- E.
  - intros (key & [_ Ka] & [_ Kb]).
    apply matches_literal in Ka, Kb; [|by apply SplitSeq_no_wildcard..].
    apply SplitSeq_inj. congruence.
Qed.

(** C29: On valid key expressions Intersects always answers, and answers
    true exactly when some concrete key belongs to both sets of keys. *)
Theorem Intersects_exact a b :
  valid_ke a -> valid_ke b ->
  exists r, KeyExpr_Intersects a b = Some r /\
    (r = true <-> exists key, denotes a key /\ denotes b key).
Proof. apply Intersects_denotes. Qed.

(** The dispatcher's test. *)
Lemma intersects_denotes a b : valid_ke a -> valid_ke b ->
  intersects a b = true <-> exists key, denotes a key /\ denotes b key.
Proof.
  intros Ha Hb. destruct (Intersects_denotes a b Ha Hb) as (r & E & Hr).
  unfold intersects. by rewrite E.
Qed.

(** C30: On valid key expressions Includes always answers; true means that
    every key of the second expression belongs to the first, and the
    converse holds whenever the second expression has no ** chunk. *)
Theorem Includes_spec a b :
  valid_ke a -> valid_ke b ->
  exists r, KeyExpr_Includes a b = Some r /\
    (r = true -> forall key, denotes b key -> denotes a key) /\
    (doubleWild ∉ SplitSeq (ke_s b) ->
     (forall key, denotes b key -> denotes a key) -> r = true).
Proof.
  intros Ha Hb. unfold KeyExpr_Includes. case_bool_decide as E.
  - exists true. split_and!; try done. intros _ key. unfold denotes. by rewrite E.
  - by apply ltrIncludes_spec.
Qed.

Lemma canonize_ok s :
  s <> [] -> nonempty_chunks (SplitSeq s) <> [] ->
  exists p, canonize s = Ok (JoinChunks p) /\ SplitSeq (JoinChunks p) = p /\
    p <> [] /\ ordered p /\ pat_equiv p (nonempty_chunks (SplitSeq s)) /\
    (Forall valid_chunk (nonempty_chunks (SplitSeq s)) -> Forall valid_chunk p).
Proof.
  intros Hs Hn. unfold canonize. rewrite bool_decide_eq_false_2 by done.
  set (ns := Forall (fun b => b <> slash)).
  assert (Hns : Forall ns (nonempty_chunks (SplitSeq s))).
  { apply nonempty_chunks_Forall, SplitSeq_no_slash. }
  assert (Hw : ns singleWild) by (by repeat constructor).
  destruct (canonize_loop_ok ns (SplitSeq s) [] I (Forall_nil_2 _) Hns Hw)
    as (st & E & Ho & HP & Hst & He).
  rewrite E. destruct st as [|c st]; [naive_solver|]. exists (rev (c :: st)).
  assert (rev (c :: st) <> []).
  { intros Hr. apply (f_equal (@length _)) in Hr. by rewrite length_rev in Hr. }
  split_and!; try done.
  - apply SplitSeq_JoinChunks; [done|]. by apply Forall_rev.
  - by apply rordered_rev.
  - intros Hv. destruct (canonize_loop_ok valid_chunk (SplitSeq s) [] I (Forall_nil_2 _) Hv valid_wild1)
      as (st' & E' & _ & HP' & _). rewrite E in E'. injection E' as <-. by apply Forall_rev.
Qed.

Lemma Autocanonize_ok s k :
  Autocanonize s = Ok k ->
  valid_ke k /\
  (forall key, matches (SplitSeq (ke_s k)) key <->
               matches (nonempty_chunks (SplitSeq s)) key) /\
  Autocanonize (ke_s k) = Ok k.
Proof.
  unfold Autocanonize at 1. destruct (canonize s) as [t|e] eqn:E; [|done].
  intros (-> & Hc)%New_ok. cbn [ke_s].
  assert (Hs : s <> [] /\ nonempty_chunks (SplitSeq s) <> []).
  { unfold canonize in E. case_bool_decide as Hs; [done|]. split; [done|]. intros Hn.
    destruct (canonize_loop_ok (fun _ => True) (SplitSeq s) []) as (st & E' & _ & _ & Hst & _);
      [done|done| |done|].
    - rewrite Hn. constructor.
    - rewrite E' in E. by rewrite (proj2 Hst (conj eq_refl Hn)) in E. }
  destruct Hs as [Hs Hn].
  destruct (canonize_ok s Hs Hn) as (p & E' & Ep & Pn & Po & Pe & Pv).
  rewrite E in E'. injection E' as ->. rewrite Ep in *.
  assert (Hv : valid_ke (mkKeyExpr (JoinChunks p))).
  { apply valid_ke_canonical. cbn. by rewrite Ep. }
  split_and!; [done|done|]. unfold Autocanonize, canonize.
  pose proof Hc as (_ & Hp & _). apply Forall_chunk_ok in Hp.
  rewrite bool_decide_eq_false_2 by (intros H; apply Pn; by apply JoinChunks_nil).
  rewrite Ep, canonize_loop_ordered.
  - rewrite app_nil_r, rev_involutive. destruct (rev p) eqn:R; [|exact Hv].
    apply (f_equal (@length _)) in R. rewrite length_rev in R. by destruct p.
  - rewrite app_nil_r. apply rordered_rev. by rewrite rev_involutive.
  - eapply Forall_impl; [exact Hp|]. by intros c [].
Qed.

(** When [Autocanonize] succeeds: some chunk is nonempty, and every nonempty
    chunk is legal. *)
Lemma Autocanonize_total s :
  nonempty_chunks (SplitSeq s) <> [] -> Forall valid_chunk (nonempty_chunks (SplitSeq s)) ->
  exists k, Autocanonize s = Ok k.
Proof.
  intros Hn Hv. unfold Autocanonize.
  assert (Hs : s <> []) by (by intros ->).
  destruct (canonize_ok s Hs Hn) as (p & -> & Ep & Pn & Po & Pe & Pv).
  eexists. apply New_ok. split; [done|]. rewrite Ep. split_and!; auto.
Qed.

(** New accepts only canonical text: whatever it accepts, Autocanonize
    returns unchanged, and String gives the text back. *)
Theorem New_canonical_fixpoint s k :
  New s = Ok k -> valid_ke k /\ Autocanonize s = Ok k /\ KeyExpr_String k = s.
Proof.
  intros Hk. pose proof Hk as (-> & Hn & Hp & Ho)%New_ok. split; [exact Hk|]. split; [|done].
  unfold Autocanonize, canonize. apply Forall_chunk_ok in Hp as Hok.
  assert (Hs : s <> []).
  { intros ->. cbn in Hok. by apply Forall_cons in Hok as [[? _] _]. }
  rewrite bool_decide_eq_false_2 by done.
  rewrite canonize_loop_ordered.
  - rewrite app_nil_r, rev_involutive, JoinChunks_SplitSeq.
    destruct (rev (SplitSeq s)) eqn:R; [|done].
    apply (f_equal (@length _)) in R. rewrite length_rev in R. by destruct (SplitSeq s).
  - rewrite app_nil_r. apply rordered_rev. by rewrite rev_involutive.
  - eapply Forall_impl; [exact Hok|]. by intros c [].
Qed.

Lemma nonempty_chunks_all cs : Forall (fun c => c <> []) cs -> nonempty_chunks cs = cs.
Proof.
  induction 1 as [|c cs Hc _ IH]; [done|].
  by rewrite nonempty_chunks_cons, decide_False, IH by done.
Qed.

Lemma nonempty_chunks_app a b :
  nonempty_chunks (a ++ b) = nonempty_chunks a ++ nonempty_chunks b.
Proof. apply filter_app. Qed.

Lemma SplitSeq_slash s t : SplitSeq (s ++ slash :: t) = SplitSeq s ++ SplitSeq t.
Proof.
  induction s as [|b s IH]; [done|]. cbn. rewrite IH. destruct (b =? slash); [done|].
  pose proof (SplitSeq_not_nil s). by destruct (SplitSeq s).
Qed.

(** When Join succeeds the result is valid and matches exactly the
    concatenations of a key matched by the first expression and a key
    matched by the suffix. *)
Theorem Join_concatenates k suffix r :
  valid_ke k -> KeyExpr_Join k suffix = Ok r ->
  valid_ke r /\
  forall key, matches (SplitSeq (ke_s r)) key <->
    exists k1 k2, key = k1 ++ k2 /\ matches (SplitSeq (ke_s k)) k1 /\
      matches (nonempty_chunks (SplitSeq suffix)) k2.
Proof.
  intros Hk. pose proof Hk as (Hn & Hp & Ho)%valid_ke_canonical.
  assert (Hs : ke_s k <> []).
  { intros E. rewrite E in Hp. by apply Forall_cons in Hp as [[[? _] _] _]. }
  unfold KeyExpr_Join. rewrite bool_decide_eq_false_2 by done. intros Hr.
  destruct (Autocanonize_ok _ _ Hr) as (Hv & He & _). split; [done|].
  intros key. rewrite He. cbn [app]. rewrite SplitSeq_slash, nonempty_chunks_app, matches_app.
  by rewrite nonempty_chunks_all by (eapply Forall_impl; [exact Hp|]; by intros c [[? _] _]).
Qed.

(** What Autocanonize returns is valid, denotes the same sequences of
    chunks as the input without its empty chunks, and is left unchanged by
    Autocanonize. *)
Theorem Autocanonize_canonical s k :
  Autocanonize s = Ok k ->
  valid_ke k /\
  (forall key, matches (SplitSeq (ke_s k)) key <->
               matches (nonempty_chunks (SplitSeq s)) key) /\
  Autocanonize (ke_s k) = Ok k.
Proof. apply Autocanonize_ok. Qed.

(** C38: Two distinct valid key expressions can denote the same set of keys
    (** and */**), so Equal does not decide the equality of sets. *)
Theorem Equal_not_semantic :
  exists a b, valid_ke a /\ valid_ke b /\ KeyExpr_Equal a b = false /\
    forall key, denotes a key <-> denotes b key.
Proof.
  exists (mkKeyExpr (str "**")), (mkKeyExpr (str "*/**")).
  split_and!; [done|done|done|]. intros key. unfold denotes. cbn.
  split; intros [[Hn Hk] Hm]; (split; [done|]).
  - destruct key as [|c key]; [done|]. apply m_star, matches_dstar_all.
  - apply matches_dstar_all.
Qed.

(** C39: Includes can answer false for an expression whose keys all belong
    to the first one (**/a in */**): the restriction in its specification is
    needed. *)
Theorem Includes_incomplete :
  exists a b, valid_ke a /\ valid_ke b /\ KeyExpr_Includes a b = Some false /\
    forall key, denotes b key -> denotes a key.
Proof.
  exists (mkKeyExpr (str "*/**")), (mkKeyExpr (str "**/a")).
  split_and!; [done|done|done|]. intros key [[Hn Hk] Hm]. split; [done|].
  destruct key as [|c key]; [done|]. cbn. apply m_star, matches_dstar_all.
Qed.

(** ** Concrete expressions *)

Lemma Intersects_exact_witness :
  exists key, denotes (mkKeyExpr (str "a/**/d")) key /\ denotes (mkKeyExpr (str "*/b/**")) key.
Proof.
  destruct (Intersects_exact (mkKeyExpr (str "a/**/d")) (mkKeyExpr (str "*/b/**")))
    as (r & E & H); [by_eval..|].
  apply H. by vm_compute in E; injection E as <-.
Defined.

Lemma Includes_spec_witness :
  KeyExpr_Includes (mkKeyExpr (str "a/**")) (mkKeyExpr (str "a/*/c")) = Some true /\
  forall key, denotes (mkKeyExpr (str "a/*/c")) key -> denotes (mkKeyExpr (str "a/**")) key.
Proof.
  split; [vm_compute; reflexivity|].
  destruct (Includes_spec (mkKeyExpr (str "a/**")) (mkKeyExpr (str "a/*/c")))
    as (r & E & H & _); [by_eval..|].
  apply H. by vm_compute in E; injection E as <-.
Defined.

Lemma New_canonical_fixpoint_witness :
  valid_ke (mkKeyExpr (str "a/*/**")) /\
  Autocanonize (str "a/*/**") = Ok (mkKeyExpr (str "a/*/**")) /\
  KeyExpr_String (mkKeyExpr (str "a/*/**")) = str "a/*/**".
Proof. apply New_canonical_fixpoint. by_eval. Defined.

Lemma Join_concatenates_witness :
  valid_ke (mkKeyExpr (str "a/*/**")) /\
  forall key, matches (SplitSeq (str "a/*/**")) key <->
    exists k1 k2, key = k1 ++ k2 /\ matches (SplitSeq (str "a/**")) k1 /\
      matches (nonempty_chunks (SplitSeq (str "*"))) k2.
Proof.
  apply (Join_concatenates (mkKeyExpr (str "a/**")) (str "*") (mkKeyExpr (str "a/*/**"))); by_eval.
Defined.

Lemma Autocanonize_canonical_witness :
  valid_ke (mkKeyExpr (str "a/*/**")) /\
  (forall key, matches (SplitSeq (str "a/*/**")) key <->
               matches (nonempty_chunks (SplitSeq (str "/a//**/**/*"))) key) /\
  Autocanonize (str "a/*/**") = Ok (mkKeyExpr (str "a/*/**")).
Proof.
  apply (Autocanonize_canonical (str "/a//**/**/*") (mkKeyExpr (str "a/*/**"))). by_eval.
Defined.
