(* ===== verification/Framing.v ===== *)
(** * internal/codec/framing.go: batches on a byte stream

    The batches a link writes are the batches its peer reads, until the end of
    the stream; and what a reader reports when the stream is cut. *)
From S2P Require Import Prelude Buffer Codec.

Fixpoint write_all (batches : list bytes) (stream : bytes) : result bytes :=
  match batches with
  | [] => Ok stream
  | b :: batches =>
      match EncodeStreamBatch stream b with
      | Ok stream => write_all batches stream
      | Err e => Err e
      end
  end.

(** At most [fuel] batches, and the error that ended the stream, if any. *)
Fixpoint read_all (fuel : nat) (stream : bytes) (buflen : nat) : list bytes * option error :=
  match fuel with
  | O => ([], None)
  | S fuel =>
      match ReadStreamBatch stream buflen with
      | Ok (b, rest) => let '(bs, e) := read_all fuel rest buflen in (b :: bs, e)
      | Err e => ([], Some e)
      end
  end.

(** A batch with its prefix. *)
Definition stream_batch (b : bytes) : bytes :=
  [uint8 (len b); uint8 (Z.shiftr (len b) 8)] ++ b.

Lemma EncodeStreamBatch_ok stream b : len b <= MaxBatchSize ->
  EncodeStreamBatch stream b = Ok (stream ++ stream_batch b).
Proof. intros Hb. unfold EncodeStreamBatch. by rewrite Z.gtb_ltb, (proj2 (Z.ltb_ge _ _) Hb). Qed.

Lemma write_all_ok bs : forall stream, Forall (fun b => len b <= MaxBatchSize) bs ->
  write_all bs stream = Ok (stream ++ concat (map stream_batch bs)).
Proof.
  induction bs as [|b bs IH]; intros stream H; [by rewrite app_nil_r|].
  apply Forall_cons in H as [Hb H]. cbn [write_all map concat]. rewrite EncodeStreamBatch_ok, IH by done.
  by rewrite <- app_assoc.
Qed.

Lemma u16_prefix n : 0 <= n <= MaxBatchSize ->
  Z.lor (uint8 n) (Z.shiftl (uint8 (Z.shiftr n 8)) 8) = n.
Proof.
  unfold MaxBatchSize, uint8. intros Hn.
  rewrite lor_shiftl_add by (done || by apply Z.mod_pos_bound).
  rewrite Z.shiftr_div_pow2 by lia. change (2 ^ 8) with 256.
  rewrite (Z.mod_small (n / 256)) by (split; [apply Z.div_pos; lia|apply Z.div_lt_upper_bound; lia]).
  pose proof (Z.div_mod n 256). lia.
Qed.

Lemma ReadFull_app a b : a <> [] -> ReadFull (a ++ b) (length a) = Ok (a, b).
Proof.
  intros Ha. unfold ReadFull. rewrite decide_False by (by destruct a).
  destruct (a ++ b) eqn:E; [by apply app_nil in E as []|]. rewrite <- E.
  rewrite decide_False by (rewrite length_app; lia). by rewrite take_app_length, drop_app_length.
Qed.

(** After the prefix, the body is read with [ReadFull]. *)
Lemma ReadStreamBatch_prefix b s buflen :
  len b <= MaxBatchSize -> len b <= Z.of_nat buflen ->
  ReadStreamBatch (uint8 (len b) :: uint8 (Z.shiftr (len b) 8) :: s) buflen =
  ReadFull s (length b).
Proof.
  intros Hb Hl. unfold ReadStreamBatch.
  replace (ReadFull _ 2) with (Ok ([uint8 (len b); uint8 (Z.shiftr (len b) 8)], s)).
  2:{ symmetry. by apply (ReadFull_app [_; _]). }
  cbn [nth].
  rewrite u16_prefix by (unfold len in *; lia).
  rewrite (proj2 (Z.ltb_ge _ _)) by done. unfold len. by rewrite Nat2Z.id.
Qed.

Lemma ReadStreamBatch_ok b rest buflen :
  len b <= MaxBatchSize -> len b <= Z.of_nat buflen ->
  ReadStreamBatch (stream_batch b ++ rest) buflen = Ok (b, rest).
Proof.
  intros Hb Hl. unfold stream_batch. cbn [app]. rewrite ReadStreamBatch_prefix by done.
  destruct b as [|x b]; [by unfold ReadFull|]. by apply ReadFull_app.
Qed.

Lemma read_all_ok bs : forall fuel buflen,
  Forall (fun b => len b <= MaxBatchSize) bs -> MaxBatchSize <= Z.of_nat buflen ->
  (length bs < fuel)%nat ->
  read_all fuel (concat (map stream_batch bs)) buflen = (bs, Some ErrIOEOF).
Proof.
  induction bs as [|b bs IH]; intros [|fuel] buflen H Hl Hf; cbn in Hf; try lia; [done|].
  apply Forall_cons in H as [Hb H]. cbn [map concat read_all].
  rewrite ReadStreamBatch_ok by lia. rewrite IH by (done || lia). done.
Qed.

(** The batches written to a stream, each at most 65535 bytes, empty
    ones included, are the batches read from it, in order, and the reader
    then reports io.EOF. *)
Theorem stream_round_trip bs buflen fuel :
  Forall (fun b => len b <= MaxBatchSize) bs -> MaxBatchSize <= Z.of_nat buflen ->
  (length bs < fuel)%nat ->
  exists stream, write_all bs [] = Ok stream /\
    read_all fuel stream buflen = (bs, Some ErrIOEOF).
Proof.
  intros H Hl Hf. exists (concat (map stream_batch bs)).
  split; [by rewrite write_all_ok|by apply read_all_ok].
Qed.

(** A stream cut inside a batch is reported as io.ErrUnexpectedEOF,
    except that a cut right after the length prefix is reported as io.EOF,
    like a clean end. *)
Theorem stream_truncated b k buflen :
  len b <= MaxBatchSize -> len b <= Z.of_nat buflen -> (k < length (stream_batch b))%nat ->
  ReadStreamBatch (take k (stream_batch b)) buflen =
  Err (if decide (k = 0 \/ k = 2)%nat then ErrIOEOF else ErrIOUnexpectedEOF).
Proof.
  intros Hb Hl Hk. unfold stream_batch in *. cbn [app length] in Hk.
  destruct k as [|[|k]]; [done|done|]. cbn [app firstn]. rewrite ReadStreamBatch_prefix by done.
  unfold ReadFull. rewrite decide_False by lia. destruct k as [|k].
  { rewrite take_0. case_decide; [done|lia]. }
  rewrite (decide_False (P := (_ \/ _))) by lia.
  destruct b as [|x b]; [cbn in Hk; lia|]. cbn [firstn]. rewrite decide_True; [done|].
  cbn in *. rewrite length_take. lia.
Qed.

Lemma stream_round_trip_witness :
  exists stream, write_all [[1; 2]; []; replicate 300 7] [] = Ok stream /\
    read_all 4 stream (Z.to_nat 65535) = ([[1; 2]; []; replicate 300 7], Some ErrIOEOF).
Proof. apply stream_round_trip; [by_eval|vm_compute; discriminate|cbn; lia]. Defined.

Lemma stream_truncated_witness :
  ReadStreamBatch (take 2 (stream_batch [1; 2; 3])) (Z.to_nat 65535) = Err ErrIOEOF.
Proof. apply (stream_truncated [1; 2; 3] 2 (Z.to_nat 65535)); [by_eval|vm_compute; discriminate|cbn; lia]. Defined.
