(* ===== verification/Transport.v ===== *)
(** * internal/transport: batching, fragmentation and reassembly

    batcher.go, fragmenter.go and reassembler.go.  The sink of batches is a
    parameter: it maps a batch and the world [W] it acts on to an error and
    the new world.  A lane's state is threaded by the [sem] monad, which keeps
    it when a call fails, as the pointer [l] does in the code.  Buffers are
    values: the code reuses them only after the sink has consumed the bytes. *)
From S2P Require Import Prelude Buffer Vle Codec WirePrim WireTransport.

(** ** Lanes *)

(** [LaneKey{Priority, Reliable}]; also the two indices of [Batcher.lanes]. *)
Abbreviation LaneKey := (Z * bool)%type (only parsing).

(** The 64-bit mask stands for "unset". *)
Definition normalizeSNMask (mask : Z) : Z := if mask =? 0 then 2 ^ 64 - 1 else mask.

(** [(sn + 1) & mask] on [uint64]. *)
Definition next_sn (mask sn : Z) : Z := Z.land (uint64 (sn + 1)) mask.

Definition LanePriorityFromExts (exts : list Extension) : Z :=
  match FindExt exts ExtIDQoS with
  | Some e =>
      if bool_decide (eEncoding (eHeader e) = ExtEncZ64)
      then uint8 (qPriority (DecodeQoSZ64 (eZ64 e)))
      else QoSPriorityData
  | None => QoSPriorityData
  end.

(** ** Reassembler *)

Record reassemblyState := mkReassembly {
  rs_expectedSN : Z; rs_buf : bytes; rs_active : bool }.

Record Reassembler := mkReassembler {
  ra_MaxMessageSize : Z; ra_snMask : Z; ra_lanes : gmap (Z * bool) reassemblyState }.

Definition NewReassembler (maxMessageSize snMask : Z) : Reassembler :=
  mkReassembler maxMessageSize (normalizeSNMask snMask) ∅.

Definition clear_state : reassemblyState := mkReassembly 0 [] false.

Definition set_ra_lane (r : Reassembler) (lane : LaneKey) (st : reassemblyState) :
    Reassembler :=
  mkReassembler (ra_MaxMessageSize r) (ra_snMask r) (<[lane := st]> (ra_lanes r)).

(** [Ok None] is [(nil, nil)]: the message is not complete yet. *)
Definition Reassembler_Push (lane : LaneKey) (seqNum : Z) (more : bool) (body : bytes) :
    sem Reassembler (option bytes) := fun r =>
  let st := default clear_state (ra_lanes r !! lane) in
  if rs_active st && negb (seqNum =? rs_expectedSN st)
  then (Err ErrReassemblySNGap, set_ra_lane r lane clear_state)
  else
    let buf := if rs_active st then rs_buf st else [] in
    if len buf + len body >? ra_MaxMessageSize r
    then (Err ErrReassemblyTooLarge, set_ra_lane r lane clear_state)
    else
      let buf := buf ++ body in
      if more
      then (Ok None, set_ra_lane r lane
                       (mkReassembly (next_sn (ra_snMask r) seqNum) buf true))
      else (Ok (Some buf), set_ra_lane r lane clear_state).

Definition Reassembler_Clear (lane : LaneKey) (r : Reassembler) : Reassembler :=
  match ra_lanes r !! lane with
  | Some _ => set_ra_lane r lane clear_state
  | None => r
  end.

(** ** Fragmenter *)

Definition fragmentOverhead : Z := 16.

Section Fragmenter.
Context {W : Type}.
Variable sink : Fragment -> W -> option error * W.

(** The loop over [msgBytes]; the fuel is its length, see [Fragment_loop_fuel]. *)
Fixpoint Fragment_loop (fuel : nat) (chunk mask : Z) (reliable : bool)
    (exts : list Extension) (msgBytes : bytes) (sn : Z) (w : W) :
    Z * option error * W :=
  match msgBytes with
  | [] => (sn, None, w)
  | _ =>
      match fuel with
      | O => (sn, Some ErrFuel, w)
      | S fuel =>
          let n := Z.to_nat (Z.min chunk (len msgBytes)) in
          let more := (n <? length msgBytes)%nat in
          let frag := mkFragment reliable more sn exts (take n msgBytes) in
          match sink frag w with
          | (Some e, w) => (sn, Some e, w)
          | (None, w) =>
              Fragment_loop fuel chunk mask reliable exts (drop n msgBytes)
                (next_sn mask sn) w
          end
      end
  end.

Definition Fragmenter_Fragment (MaxBodySize SNMask : Z) (msgBytes : bytes)
    (reliable : bool) (seqNumStart : Z) (exts : list Extension) (w : W) :
    Z * option error * W :=
  if MaxBodySize <=? fragmentOverhead
  then (seqNumStart, Some (ErrMsg "fragmenter: MaxBodySize too small"), w)
  else Fragment_loop (length msgBytes) (MaxBodySize - fragmentOverhead)
         (normalizeSNMask SNMask) reliable exts msgBytes seqNumStart w.
End Fragmenter.

Definition EncodeNetworkMessage {T} `{Encoder T} (msg : T) : result bytes :=
  match EncodeTo msg NewWriter with
  | Err e => Err e
  | Ok (_, w) => Ok (Writer_Bytes w)
  end.

(** ** Batcher *)

Record OutboundMessage := mkOutbound {
  om_Encoded : bytes; om_Priority : Z; om_Reliable : bool; om_Express : bool }.

(** [batch] is nonempty iff a FRAME is being built; its bodies start at
    [bodyStart]. *)
Record lane := mkLane {
  l_priority : Z; l_reliable : bool; l_seqNum : Z; l_batch : bytes; l_bodyStart : Z }.

Record Batcher := mkBatcher {
  b_batchSize : Z; b_attachQoS : bool; b_snMask : Z;
  b_laneSeeds : Z -> bool -> Z; b_lanes : gmap (Z * bool) lane }.

Definition NewBatcherWithLaneSeeds (batchSize : Z) (attachQoS : bool)
    (seeds : Z -> bool -> Z) (snMask : Z) : Batcher :=
  mkBatcher batchSize attachQoS (normalizeSNMask snMask) seeds ∅.

Definition NewBatcher (batchSize : Z) (attachQoS : bool) (initialSN snMask : Z) : Batcher :=
  NewBatcherWithLaneSeeds batchSize attachQoS (fun _ _ => initialSN) snMask.

Definition set_lane (b : Batcher) (k : LaneKey) (l : lane) : Batcher :=
  mkBatcher (b_batchSize b) (b_attachQoS b) (b_snMask b) (b_laneSeeds b)
    (<[k := l]> (b_lanes b)).

Definition lane_key (p : Z) (reliable : bool) : LaneKey := (Z.land p 7, reliable).

(** The lane, created at first use. *)
Definition laneFor (b : Batcher) (p : Z) (reliable : bool) : lane :=
  match b_lanes b !! lane_key p reliable with
  | Some l => l
  | None => mkLane (Z.land p 7) reliable (b_laneSeeds b (Z.land p 7) reliable) [] 0
  end.

Definition set_batch (l : lane) (batch : bytes) (bodyStart : Z) : lane :=
  mkLane (l_priority l) (l_reliable l) (l_seqNum l) batch bodyStart.
Definition set_seqNum (l : lane) (sn : Z) : lane :=
  mkLane (l_priority l) (l_reliable l) sn (l_batch l) (l_bodyStart l).

Definition maxFrameBodySize (b : Batcher) : Z := b_batchSize b - fragmentOverhead.

Definition qos_ext (priority : Z) : Extension :=
  NewZ64Ext ExtIDQoS true (QoS_EncodeZ64 (mkQoS priority false false false)).

(** FRAME header, sequence number and QoS extension of a fresh frame. *)
Definition frame_prefix (attachQoS : bool) (l : lane) : WM unit :=
  EncodeHeader (mkHeader IDTransportFrame (l_reliable l) false attachQoS);;
  EncodeZ64 (l_seqNum l);;
  when attachQoS (EncodeExtension (qos_ext (l_priority l))).

Definition is_nil {A} (l : list A) : bool := match l with [] => true | _ => false end.

Section Batcher.
Context {W : Type}.
Variable sink : bytes -> W -> option error * W.

(** A method on a lane [l], acting on the world through the sink. *)
Abbreviation LM := (sem (lane * W)).

Definition openFrame (attachQoS : bool) : LM unit := fun '(l, w) =>
  let l := set_batch l [] (l_bodyStart l) in
  match frame_prefix attachQoS l (mkWriter (l_batch l)) with
  | Err e => (Err e, (l, w))
  | Ok (_, wr) =>
      (Ok tt, (set_batch l (Writer_Bytes wr) (len (Writer_Bytes wr)), w))
  end.

Definition append_body (body : bytes) : LM unit := fun '(l, w) =>
  (Ok tt, (set_batch l (l_batch l ++ body) (l_bodyStart l), w)).

Definition appendToLane (attachQoS : bool) (body : bytes) : LM unit := fun '(l, w) =>
  ((if is_nil (l_batch l) then openFrame attachQoS else mret tt);;
   append_body body) (l, w).

Definition flushLocked (snMask : Z) : LM unit := fun '(l, w) =>
  if (len (l_batch l) =? 0) || (len (l_batch l) =? l_bodyStart l)
  then (Ok tt, (set_batch l [] 0, w))
  else
    let '(err, w) := sink (l_batch l) w in
    (of_error err,
     (set_batch (set_seqNum l (next_sn snMask (l_seqNum l))) [] 0, w)).

(** The fragment sink: encode, then hand the batch to the batch sink. *)
Definition fragment_sink (frag : Fragment) (w : W) : option error * W :=
  match EncodeTo frag NewWriter with
  | Err e => (Some e, w)
  | Ok (_, wr) => sink (Writer_Bytes wr) w
  end.

Definition fragmentLocked (batchSize snMask : Z) (attachQoS : bool)
    (msgBytes : bytes) : LM unit := fun '(l, w) =>
  let exts := if attachQoS then [qos_ext (l_priority l)] else [] in
  let '(nextSN, err, w) :=
    Fragmenter_Fragment fragment_sink batchSize snMask msgBytes (l_reliable l)
      (l_seqNum l) exts w in
  (of_error err, (set_seqNum l nextSN, w)).

(** The part of [Enqueue] that works on the message's lane. *)
Definition Enqueue_lane (b : Batcher) (msg : OutboundMessage) : LM unit := fun '(l, w) =>
  let flush := flushLocked (b_snMask b) in
  let append := appendToLane (b_attachQoS b) (om_Encoded msg) in
  (if len (om_Encoded msg) >? maxFrameBodySize b then
     flush;; fragmentLocked (b_batchSize b) (b_snMask b) (b_attachQoS b) (om_Encoded msg)
   else if om_Express msg then flush;; append;; flush
   else
     (if negb (is_nil (l_batch l)) &&
         (len (l_batch l) + len (om_Encoded msg) >? b_batchSize b)
      then flush else mret tt);;
     append) (l, w).

Definition Enqueue (msg : OutboundMessage) : sem (Batcher * W) unit := fun '(b, w) =>
  if negb (QoSPriority_IsValid (om_Priority msg))
  then (Err (ErrMsg "batcher: invalid priority"), (b, w))
  else
    let '(r, (l, w)) :=
      Enqueue_lane b msg (laneFor b (om_Priority msg) (om_Reliable msg), w) in
    (r, (set_lane b (lane_key (om_Priority msg) (om_Reliable msg)) l, w)).

(** One iteration of [FlushAll]. *)
Definition flush_key (k : LaneKey) : sem (Batcher * W) unit := fun '(b, w) =>
  match b_lanes b !! k with
  | None => (Ok tt, (b, w))
  | Some l =>
      let '(r, (l, w)) := flushLocked (b_snMask b) (l, w) in
      (r, (set_lane b k l, w))
  end.

Fixpoint flush_keys (ks : list (Z * bool)) : sem (Batcher * W) unit :=
  match ks with
  | [] => mret tt
  | k :: ks => flush_key k;; flush_keys ks
  end.

(** Index 0 of a priority is the best-effort lane. *)
Definition all_lanes : list (Z * bool) :=
  p ← Zrange 8; [(p, false); (p, true)].

Definition FlushAll : sem (Batcher * W) unit := flush_keys all_lanes.

Fixpoint EnqueueAll (msgs : list OutboundMessage) : sem (Batcher * W) unit :=
  match msgs with
  | [] => mret tt
  | m :: msgs => Enqueue m;; EnqueueAll msgs
  end.
End Batcher.

(** ** The bytes of the transport messages a batcher emits *)

Definition qos_bytes (attachQoS : bool) (priority : Z) : bytes :=
  if attachQoS
  then PackExtHeader (eHeader (qos_ext priority)) :: vle_loop 8 (eZ64 (qos_ext priority))
  else [].

Definition frame_hdr (attachQoS : bool) (k : LaneKey) (sn : Z) : bytes :=
  PackHeader (mkHeader IDTransportFrame k.2 false attachQoS)
  :: vle_loop 8 sn ++ qos_bytes attachQoS k.1.

Definition fragment_hdr (attachQoS : bool) (k : LaneKey) (sn : Z) (more : bool) : bytes :=
  PackHeader (mkHeader IDTransportFragment k.2 more attachQoS)
  :: vle_loop 8 sn ++ qos_bytes attachQoS k.1.

Arguments frame_hdr : simpl never.
Arguments fragment_hdr : simpl never.

(** What a lane emits: a FRAME holding whole messages, or one FRAGMENT. *)
Inductive tunit :=
  | UFrame (sn : Z) (msgs : list bytes)
  | UFrag (sn : Z) (more : bool) (body : bytes).

Definition unit_bytes (attachQoS : bool) (k : LaneKey) (u : tunit) : bytes :=
  match u with
  | UFrame sn msgs => frame_hdr attachQoS k sn ++ concat msgs
  | UFrag sn more body => fragment_hdr attachQoS k sn more ++ body
  end.

(** The fragments of one message, [chunks] being the bodies. *)
Fixpoint frag_units (mask sn : Z) (chunks : list bytes) : list tunit :=
  match chunks with
  | [] => []
  | c :: cs => UFrag sn (negb (is_nil cs)) c :: frag_units mask (next_sn mask sn) cs
  end.

Fixpoint sn_after (mask sn : Z) (n : nat) : Z :=
  match n with O => sn | S n => sn_after mask (next_sn mask sn) n end.

(** The units [us], numbered from [sn] on without a gap, carry the messages
    [ms] in order, each message whole in a FRAME or in a run of FRAGMENTs. *)
Inductive delivers (mask : Z) : Z -> list tunit -> Z -> list bytes -> Prop :=
  | d_nil sn : delivers mask sn [] sn []
  | d_frame sn ms us sn' ms' :
      ms <> [] -> delivers mask (next_sn mask sn) us sn' ms' ->
      delivers mask sn (UFrame sn ms :: us) sn' (ms ++ ms')
  | d_frag sn chunks us sn' ms' :
      chunks <> [] -> delivers mask (sn_after mask sn (length chunks)) us sn' ms' ->
      delivers mask sn (frag_units mask sn chunks ++ us) sn' (concat chunks :: ms').

(** Units of several lanes in which the fragments of a message follow one
    another. *)
Inductive contiguous (mask : Z) : list (LaneKey * tunit) -> Prop :=
  | ct_nil : contiguous mask []
  | ct_frame k sn ms tr : contiguous mask tr -> contiguous mask ((k, UFrame sn ms) :: tr)
  | ct_frags k sn chunks tr : chunks <> [] -> contiguous mask tr ->
      contiguous mask (map (pair k) (frag_units mask sn chunks) ++ tr).

Lemma contiguous_app mask tr1 tr2 : contiguous mask tr1 -> contiguous mask tr2 ->
  contiguous mask (tr1 ++ tr2).
Proof.
  intros H1 H2. induction H1 as [|k sn ms tr _ IH|k sn cs tr Hn _ IH]; [done|by constructor|].
  rewrite <- app_assoc. by constructor.
Qed.

Lemma delivers_contiguous mask sn us sn' ms (k : LaneKey) :
  delivers mask sn us sn' ms -> contiguous mask (map (pair k) us).
Proof.
  induction 1 as [|sn ms us sn' ms' _ _ IH|sn cs us sn' ms' Hn _ IH]; [constructor|by constructor|].
  rewrite map_app. by constructor.
Qed.

Lemma delivers_app mask sn us1 sn1 ms1 us2 sn2 ms2 :
  delivers mask sn us1 sn1 ms1 -> delivers mask sn1 us2 sn2 ms2 ->
  delivers mask sn (us1 ++ us2) sn2 (ms1 ++ ms2).
Proof.
  intros H1 H2. induction H1 as [sn|sn ms us sn' ms' Hn H1 IH|sn cs us sn' ms' Hn H1 IH].
  - done.
  - cbn. rewrite <- app_assoc. constructor; auto.
  - rewrite <- app_assoc. cbn. constructor; auto.
Qed.

Definition sn_ok (sn : Z) : Prop := 0 <= sn < 2 ^ 64.

Lemma next_sn_ok mask sn : 0 <= mask < 2 ^ 64 -> sn_ok (next_sn mask sn).
Proof.
  intros Hm. unfold sn_ok, next_sn. split.
  - apply Z.land_nonneg. right. lia.
  - destruct (Z.eq_dec (Z.land (uint64 (sn + 1)) mask) 0) as [->|Hn]; [lia|].
    apply Z.log2_lt_pow2.
    + assert (0 <= Z.land (uint64 (sn + 1)) mask) by (apply Z.land_nonneg; right; lia). lia.
    + eapply Z.le_lt_trans; [apply Z.log2_land; [|lia]|].
      * unfold uint64. apply Z.mod_pos_bound. lia.
      * apply Z.min_lt_iff. right. destruct (Z.eq_dec mask 0) as [->|]; [done|].
        apply Z.log2_lt_pow2; lia.
Qed.

Lemma sn_after_ok mask n : forall sn,
  0 <= mask < 2 ^ 64 -> sn_ok sn -> sn_ok (sn_after mask sn n).
Proof.
  induction n as [|n IH]; intros sn Hm Hs; cbn; [done|]. apply IH; [done|].
  by apply next_sn_ok.
Qed.

Lemma qos_bytes_length_8 p : 0 <= p < 8 -> length (qos_bytes true p) = 2%nat.
Proof. revert p. by_range 8%nat. Qed.

Lemma qos_bytes_length a p : 0 <= p < 8 -> (length (qos_bytes a p) <= 2)%nat.
Proof. intros H. destruct a; [by rewrite qos_bytes_length_8|cbn; lia]. Qed.

(** The budget of [fragmentOverhead] covers every header. *)
Lemma frame_hdr_length a k sn :
  0 <= k.1 < 8 -> (2 <= length (frame_hdr a k sn) <= 12)%nat.
Proof.
  intros Hk. unfold frame_hdr. cbn [length]. rewrite length_app.
  pose proof (vle_loop_length_le 8 sn). pose proof (qos_bytes_length a k.1 Hk).
  assert (1 <= length (vle_loop 8 sn))%nat; [|lia].
  cbn [vle_loop]. destruct (sn <? 0x80); cbn; lia.
Qed.

Lemma fragment_hdr_length a k sn more :
  0 <= k.1 < 8 -> (2 <= length (fragment_hdr a k sn more) <= 12)%nat.
Proof. apply (frame_hdr_length a k sn). Qed.

Lemma frame_prefix_writes a (k : LaneKey) l :
  l_priority l = k.1 -> l_reliable l = k.2 ->
  writes (frame_prefix a l) (frame_hdr a k (l_seqNum l)).
Proof.
  intros Hp Hr. unfold frame_prefix, frame_hdr, qos_bytes. rewrite Hp, Hr.
  apply (writes_bind _ _ [_]); [apply writes_AppendBytes|].
  apply writes_bind; [apply writes_AppendBytes|].
  destruct a; cbn [when]; [|apply writes_ret].
  apply (writes_bind _ _ [_]); [apply writes_AppendBytes|]. apply writes_AppendBytes.
Qed.

Lemma fragment_writes (a : bool) (k : LaneKey) more sn body :
  writes (EncodeTo (mkFragment k.2 more sn (if a then [qos_ext k.1] else []) body))
    (fragment_hdr a k sn more ++ body).
Proof.
  unfold fragment_hdr, EncodeTo, Fragment_Encoder, Fragment_header. cbn [app fgReliable
    fgMore fgSeqNum fgExtensions fgBody]. rewrite <- app_assoc.
  assert (hasExts (if a then [qos_ext k.1] else []) = a) as -> by (by destruct a).
  apply (writes_bind _ _ [_]); [apply writes_AppendBytes|].
  apply writes_bind; [apply writes_AppendBytes|].
  apply writes_bind; [|apply writes_AppendBytes].
  unfold qos_bytes. destruct a; [|apply writes_ret].
  cbn [hZ when]. change (EncodeExtensions [qos_ext k.1]) with
    (EncodeExtension (qos_ext k.1);; (mret tt : WM unit)).
  match goal with |- writes _ ?e => rewrite <- (app_nil_r e) end.
  apply writes_bind; [|apply writes_ret].
  apply (writes_bind _ _ [_]); [apply writes_AppendBytes|]. apply writes_AppendBytes.
Qed.

(** ** Lanes over a sink that records the batches *)

Definition rec_sink (batch : bytes) (w : list bytes) : option error * list bytes :=
  (None, w ++ [batch]).

Definition unit_frag (reliable : bool) (exts : list Extension) (u : tunit) : Fragment :=
  match u with
  | UFrag sn more body => mkFragment reliable more sn exts body
  | UFrame sn _ => mkFragment reliable false sn exts []
  end.

Lemma frag_units_cons mask sn c cs :
  frag_units mask sn (c :: cs) =
  UFrag sn (negb (is_nil cs)) c :: frag_units mask (next_sn mask sn) cs.
Proof. done. Qed.

(** The loop cuts the message into chunks; its fuel is never used up. *)
Lemma Fragment_loop_fuel {T} (sink : Fragment -> list T -> option error * list T) g
    chunk mask reliable exts fuel :
  (forall frag w, sink frag w = (None, w ++ [g frag])) -> 0 < chunk ->
  forall msg sn w, (length msg <= fuel)%nat ->
  exists chunks, concat chunks = msg /\ (chunks = [] <-> msg = []) /\
    Forall (fun c => 1 <= len c <= chunk) chunks /\
    Fragment_loop sink fuel chunk mask reliable exts msg sn w =
    (sn_after mask sn (length chunks), None,
     w ++ map (fun u => g (unit_frag reliable exts u)) (frag_units mask sn chunks)).
Proof.
  intros Hsink Hc. induction fuel as [|fuel IH]; intros msg sn w Hf.
  { destruct msg; [|cbn in Hf; lia]. exists []. cbn. by rewrite app_nil_r. }
  destruct msg as [|b msg].
  { exists []. cbn. by rewrite app_nil_r. }
  cbn [Fragment_loop]. set (n := Z.to_nat (Z.min chunk (len (b :: msg)))).
  rewrite Hsink. unfold len in *.
  assert (Hn : (1 <= n <= length (b :: msg))%nat) by (cbn [length] in *; lia).
  destruct (IH (drop n (b :: msg)) (next_sn mask sn)
              (w ++ [g (mkFragment reliable (n <? length (b :: msg))%nat sn exts
                          (take n (b :: msg)))]))
    as (cs & Ec & Hcs & Hl & ->).
  { rewrite length_drop. cbn [length] in *. lia. }
  exists (take n (b :: msg) :: cs). split; [|split; [done|split]].
  - cbn [concat]. by rewrite Ec, take_drop.
  - constructor; [|done]. unfold len. rewrite length_take. lia.
  - cbn [length sn_after]. rewrite frag_units_cons. cbn [map unit_frag].
    rewrite <- app_assoc. cbn [app].
    assert (negb (is_nil cs) = (n <? length (b :: msg))%nat) as ->; [|done].
    destruct cs as [|c cs].
    + symmetry. apply Nat.ltb_ge. pose proof (proj1 Hcs eq_refl) as Hd.
      apply (f_equal (@length _)) in Hd. rewrite length_drop in Hd.
      change (length []) with 0%nat in Hd. lia.
    + symmetry. apply Nat.ltb_lt. assert (drop n (b :: msg) <> []) as Hd by naive_solver.
      destruct (decide (n < length (b :: msg))%nat); [done|].
      by rewrite drop_ge in Hd by lia.
Qed.

Record lane_ok (bs : Z) (a : bool) (k : LaneKey) (l : lane) (pend : list bytes) : Prop := {
  lo_priority : l_priority l = k.1;
  lo_reliable : l_reliable l = k.2;
  lo_range : 0 <= k.1 < 8;
  lo_sn : sn_ok (l_seqNum l);
  lo_nonempty : Forall (fun m => m <> []) pend;
  lo_batch : l_batch l = if is_nil pend then []
                         else frame_hdr a k (l_seqNum l) ++ concat pend;
  lo_start : pend <> [] -> l_bodyStart l = len (frame_hdr a k (l_seqNum l));
  lo_size : len (l_batch l) <= bs;
}.

(** What a step on lane [k] does to the record of batches. *)
Record lane_step (bs : Z) (a : bool) (mask : Z) (k : LaneKey) (l : lane)
    (pend new : list bytes) (w : list bytes) (r : result unit * (lane * list bytes))
    (us : list tunit) (l' : lane) (pend' : list bytes) : Prop := {
  ls_result : r = (Ok tt, (l', w ++ map (unit_bytes a k) us));
  ls_ok : lane_ok bs a k l' pend';
  ls_delivers : exists ms, delivers mask (l_seqNum l) us (l_seqNum l') ms /\
                  pend ++ new = ms ++ pend';
  ls_bound : Forall (fun u => len (unit_bytes a k u) <= bs) us;
}.

Lemma concat_not_nil (ms : list bytes) :
  ms <> [] -> Forall (fun m => m <> []) ms -> concat ms <> [].
Proof. destruct ms as [|m ms]; [done|]. intros _ [Hm _]%Forall_cons. by destruct m. Qed.

Lemma flushLocked_ok bs a mask k l pend w :
  0 <= mask < 2 ^ 64 -> lane_ok bs a k l pend ->
  exists us l', lane_step bs a mask k l pend [] w (flushLocked rec_sink mask (l, w)) us l' [].
Proof.
  intros Hm [H1 H2 H3 H4 H5 H6 H7 H8]. unfold flushLocked. destruct pend as [|m pend].
  - exists [], (set_batch l [] 0). rewrite H6. cbn. constructor; [by rewrite app_nil_r| |..].
    + constructor; cbn; try done. rewrite H6 in H8. done.
    + exists []. split; [constructor|done].
    + constructor.
  - exists [UFrame (l_seqNum l) (m :: pend)],
      (set_batch (set_seqNum l (next_sn mask (l_seqNum l))) [] 0).
    pose proof (frame_hdr_length a k (l_seqNum l) H3) as Hh.
    pose proof (concat_not_nil (m :: pend) ltac:(done) H5) as Hn.
    cbn [is_nil] in H6. rewrite (H7 ltac:(done)).
    assert (Hc : (1 <= length (concat (m :: pend)))%nat)
      by (destruct (concat (m :: pend)); [done|cbn [length]; lia]).
    assert ((len (l_batch l) =? 0) = false) as ->.
    { apply Z.eqb_neq. rewrite H6. unfold len. rewrite length_app. lia. }
    assert ((len (l_batch l) =? len (frame_hdr a k (l_seqNum l))) = false) as ->.
    { apply Z.eqb_neq. rewrite H6. unfold len. rewrite length_app. lia. }
    cbn [orb]. constructor.
    + rewrite H6. done.
    + constructor; cbn; try done; [by apply next_sn_ok|]. unfold len in *. cbn. lia.
    + exists (m :: pend). rewrite !app_nil_r. split; [|done].
      rewrite <- (app_nil_r (m :: pend)) at 2. constructor; [done|constructor].
    + constructor; [|constructor]. cbn [unit_bytes]. rewrite <- H6. done.
Qed.

Lemma appendToLane_ok bs a mask k l pend msg w :
  16 <= bs -> lane_ok bs a k l pend -> msg <> [] -> len msg <= bs - 16 ->
  (pend <> [] -> len (l_batch l) + len msg <= bs) ->
  exists l', lane_step bs a mask k l pend [msg] w (appendToLane a msg (l, w)) [] l' (pend ++ [msg]).
Proof.
  intros Hb Hl Hmsg Hlen Hfit. pose proof Hl as [H1 H2 H3 H4 H5 H6 H7 H8].
  pose proof (frame_hdr_length a k (l_seqNum l) H3) as Hh.
  assert (Hf : Forall (fun m => m <> []) (pend ++ [msg])).
  { apply Forall_app. split; [done|]. by constructor. }
  unfold appendToLane. destruct pend as [|m pend]; cbn [is_nil] in H6.
  - exists (set_batch l (frame_hdr a k (l_seqNum l) ++ msg)
              (len (frame_hdr a k (l_seqNum l)))).
    constructor; [|constructor; cbn; try done| |constructor].
    + rewrite H6. unfold openFrame, mbind, sem_bind. cbn [is_nil].
      pose proof (frame_prefix_writes a k (set_batch l [] (l_bodyStart l)) H1 H2
                    (mkWriter [])) as Hw.
      cbn [set_batch l_batch l_seqNum] in Hw |- *. rewrite Hw. cbn. by rewrite app_nil_r.
    + by rewrite app_nil_r.
    + unfold len in *. rewrite length_app. lia.
    + exists []. split; [constructor|done].
  - exists (set_batch l (l_batch l ++ msg) (l_bodyStart l)).
    assert (is_nil (l_batch l) = false) as Hn.
    { rewrite H6. unfold frame_hdr. done. }
    constructor; [|constructor; cbn; try done| |constructor].
    + rewrite Hn. cbn. by rewrite app_nil_r.
    + rewrite H6, <- app_assoc. f_equal. cbn. rewrite concat_app. cbn.
      by rewrite app_nil_r, app_assoc.
    + intros _. by apply H7.
    + specialize (Hfit ltac:(done)). unfold len in *. rewrite length_app. lia.
    + exists []. split; [constructor|done].
Qed.

Lemma lane_step_seq bs a mask k l1 l2 l3 p1 p2 p3 n1 n2 w us1 us2 r2
    (m1 m2 : sem (lane * list bytes) unit) :
  lane_step bs a mask k l1 p1 n1 w (m1 (l1, w)) us1 l2 p2 ->
  r2 = m2 (l2, w ++ map (unit_bytes a k) us1) ->
  lane_step bs a mask k l2 p2 n2 (w ++ map (unit_bytes a k) us1) r2 us2 l3 p3 ->
  lane_step bs a mask k l1 p1 (n1 ++ n2) w ((m1;; m2) (l1, w)) (us1 ++ us2) l3 p3.
Proof.
  intros [R1 O1 (ms1 & D1 & E1) B1] -> [R2 O2 (ms2 & D2 & E2) B2].
  constructor; [|done| |by apply Forall_app].
  - unfold mbind, sem_bind. rewrite R1, R2, map_app. by rewrite app_assoc.
  - exists (ms1 ++ ms2). split; [by eapply delivers_app|].
    by rewrite app_assoc, E1, <- app_assoc, E2, app_assoc.
Qed.

Lemma normalizeSNMask_idem mask : 0 <= mask < 2 ^ 64 ->
  normalizeSNMask (normalizeSNMask mask) = normalizeSNMask mask /\
  0 <= normalizeSNMask mask < 2 ^ 64.
Proof.
  unfold normalizeSNMask. intros H. destruct (Z.eqb_spec mask 0) as [->|Hn]; [done|].
  by rewrite (proj2 (Z.eqb_neq _ _) Hn).
Qed.

Lemma fragment_sink_rec (a : bool) (k : LaneKey) more sn body w :
  fragment_sink rec_sink (mkFragment k.2 more sn (if a then [qos_ext k.1] else []) body) w =
  (None, w ++ [fragment_hdr a k sn more ++ body]).
Proof. unfold fragment_sink. by rewrite (fragment_writes a k). Qed.

Lemma frag_units_no_frame mask sn cs :
  Forall (fun u => match u with UFrag _ _ c => c ∈ cs | _ => False end)
    (frag_units mask sn cs).
Proof.
  revert sn. induction cs as [|c cs IH]; intros sn; [constructor|].
  rewrite frag_units_cons. constructor; [by left|].
  eapply Forall_impl; [apply IH|]. intros []; [done|]. by right.
Qed.

Lemma fragmentLocked_ok bs a mask k l msg w :
  16 < bs -> 0 <= mask < 2 ^ 64 -> normalizeSNMask mask = mask -> lane_ok bs a k l [] ->
  msg <> [] ->
  exists us l', lane_step bs a mask k l [] [msg] w
                  (fragmentLocked rec_sink bs mask a msg (l, w)) us l' [].
Proof.
  intros Hb Hm Hnm [H1 H2 H3 H4 H5 H6 H7 H8] Hmsg. unfold fragmentLocked.
  rewrite H1, H2. unfold Fragmenter_Fragment, fragmentOverhead.
  replace (bs <=? 16) with false by lia. rewrite Hnm.
  set (exts := if a then [qos_ext k.1] else []).
  set (g := fun f => fragment_hdr a k (fgSeqNum f) (fgMore f) ++ fgBody f).
  set (sink := fun (f : Fragment) (w : list bytes) =>
    fragment_sink rec_sink (mkFragment k.2 (fgMore f) (fgSeqNum f) exts (fgBody f)) w).
  assert (Hloop : forall fuel msg sn w,
    Fragment_loop (fragment_sink rec_sink) fuel (bs - 16) mask k.2 exts msg sn w =
    Fragment_loop sink fuel (bs - 16) mask k.2 exts msg sn w).
  { clear. induction fuel as [|fuel IH]; intros [|b msg] sn w; cbn [Fragment_loop]; try done.
    unfold sink at 1. cbn [fgMore fgSeqNum fgBody].
    destruct (fragment_sink _ _ _) as [[e|] w']; [done|]. apply IH. }
  rewrite Hloop.
  destruct (Fragment_loop_fuel sink g (bs - 16) mask k.2 exts (length msg)) with
    (msg := msg) (sn := l_seqNum l) (w := w) as (cs & Ec & Hcs & Hl & ->);
    [intros f w'; apply fragment_sink_rec|lia|done|].
  pose proof (frag_units_no_frame mask (l_seqNum l) cs) as Hu.
  assert (cs <> []) by naive_solver.
  exists (frag_units mask (l_seqNum l) cs), (set_seqNum l (sn_after mask (l_seqNum l) (length cs))).
  constructor.
  - cbn [of_error]. do 3 f_equal. apply map_ext_Forall. eapply Forall_impl; [exact Hu|].
    by intros [].
  - constructor; cbn; try done. by apply sn_after_ok.
  - exists [msg]. split; [|done]. rewrite <- Ec, <- (app_nil_r (frag_units _ _ _)).
    by constructor; [|constructor].
  - eapply Forall_impl; [exact Hu|]. intros [|sn more c]; [done|]. intros Hc.
    rewrite Forall_forall in Hl. specialize (Hl _ Hc). cbn [unit_bytes].
    pose proof (fragment_hdr_length a k sn more H3). unfold len in *.
    rewrite length_app. lia.
Qed.

Definition lane_ready (b : Batcher) (mask : Z) : Prop :=
  16 < b_batchSize b /\ b_snMask b = mask /\ 0 <= mask < 2 ^ 64 /\
  normalizeSNMask mask = mask.

(** One [Enqueue] on its lane: the message goes behind what was pending. *)
Lemma Enqueue_lane_ok b mask k l pend msg w :
  lane_ready b mask -> lane_ok (b_batchSize b) (b_attachQoS b) k l pend ->
  om_Encoded msg <> [] ->
  exists us l' pend', lane_step (b_batchSize b) (b_attachQoS b) mask k l pend
    [om_Encoded msg] w (Enqueue_lane rec_sink b msg (l, w)) us l' pend'.
Proof.
  intros (Hbs & Hmb & Hm & Hnm) Hl Hmsg. unfold Enqueue_lane, maxFrameBodySize,
    fragmentOverhead. rewrite Hmb.
  set (bs := b_batchSize b) in *. set (a := b_attachQoS b) in *.
  set (m := om_Encoded msg) in *.
  destruct (flushLocked_ok bs a mask k l pend w Hm Hl) as (us1 & l1 & S1).
  set (w1 := w ++ map (unit_bytes a k) us1).
  destruct (Z.gtb_spec (len m) (bs - 16)) as [Hbig|Hsmall]; [|destruct (om_Express msg)].
  - destruct (fragmentLocked_ok bs a mask k l1 m w1) as (us2 & l2 & S2);
      [done..|apply S1|done|].
    exists (us1 ++ us2), l2, []. apply (lane_step_seq _ _ _ _ _ _ _ _ _ _ [] _ _ _ _ _ _ _ S1 eq_refl S2).
  - destruct (appendToLane_ok bs a mask k l1 [] m w1) as (l2 & S2);
      [lia|apply S1|done|lia|done|].
    assert (S12 := lane_step_seq _ _ _ _ _ _ _ _ _ _ [] _ _ _ _ _ _ (appendToLane a m) S1 eq_refl S2).
    rewrite app_nil_r in S12.
    destruct (flushLocked_ok bs a mask k l2 [m] (w ++ map (unit_bytes a k) us1) Hm)
      as (us3 & l3 & S3); [apply S2|].
    exists (us1 ++ us3), l3, [].
    pose proof (lane_step_seq _ _ _ _ _ _ _ _ _ _ _ [] _ _ _ _ _ (flushLocked rec_sink mask) S12 eq_refl S3) as S.
    rewrite app_nil_r in S. revert S. unfold mbind, sem_bind.
    destruct (flushLocked rec_sink mask (l, w)) as [[] [l' w']]; [|done].
    by destruct (appendToLane a m (l', w')) as [[] ?].
  - destruct (negb (is_nil (l_batch l)) && (len (l_batch l) + len m >? bs)) eqn:Hfit.
    + destruct (appendToLane_ok bs a mask k l1 [] m w1) as (l2 & S2);
        [lia|apply S1|done|lia|done|].
      exists (us1 ++ []), l2, [m].
      apply (lane_step_seq _ _ _ _ _ _ _ _ _ _ [] _ _ _ _ _ _ _ S1 eq_refl S2).
    + destruct (appendToLane_ok bs a mask k l pend m w) as (l2 & S2);
        [lia|done|done|lia| |by exists [], l2, (pend ++ [m])].
      intros Hp. destruct Hl as [H1 H2 H3 H4 H5 H6 H7 H8].
      assert (is_nil (l_batch l) = false) as Hn by (rewrite H6; by destruct pend).
      rewrite Hn in Hfit. cbn in Hfit. lia.
Qed.

(** ** The whole batcher *)

(** The batches seen so far, each with the lane it belongs to. *)
Definition trace_bytes (a : bool) (tr : list (Z * bool * tunit)) : list bytes :=
  map (fun ku => unit_bytes a ku.1 ku.2) tr.
Definition on_lane (k : LaneKey) (tr : list (Z * bool * tunit)) : list tunit :=
  snd <$> filter (fun ku => ku.1 = k) tr.
Definition sent_on (k : LaneKey) (msgs : list OutboundMessage) : list bytes :=
  om_Encoded <$> filter (fun m => lane_key (om_Priority m) (om_Reliable m) = k) msgs.

Lemma on_lane_app k tr1 tr2 : on_lane k (tr1 ++ tr2) = on_lane k tr1 ++ on_lane k tr2.
Proof. unfold on_lane. by rewrite filter_app, fmap_app. Qed.

Lemma on_lane_same k us : on_lane k (map (pair k) us) = us.
Proof.
  unfold on_lane. induction us as [|u us IH]; [done|]. cbn [map].
  rewrite filter_cons_True by done. cbn. by f_equal.
Qed.

Lemma on_lane_other k k' us : k <> k' -> on_lane k (map (pair k') us) = [].
Proof.
  intros Hn. unfold on_lane. induction us as [|u us IH]; [done|]. cbn [map].
  rewrite filter_cons_False; [done|]. cbn. congruence.
Qed.

Lemma trace_bytes_lane a k us : trace_bytes a (map (pair k) us) = map (unit_bytes a k) us.
Proof. unfold trace_bytes. by rewrite map_map. Qed.

Definition valid_key (k : LaneKey) : Prop := 0 <= k.1 < 8.

(** The state of a batcher: per lane, the units emitted so far deliver the
    messages [msgs k] up to those still pending in the open FRAME. *)
Record batcher_ok (mask : Z) (b : Batcher) (tr : list (Z * bool * tunit))
    (msgs : LaneKey -> list bytes) (pend : LaneKey -> list bytes) : Prop := {
  bo_ready : lane_ready b mask;
  bo_seeds : forall p r, sn_ok (b_laneSeeds b p r);
  bo_lane : forall k l, b_lanes b !! k = Some l ->
    valid_key k /\ lane_ok (b_batchSize b) (b_attachQoS b) k l (pend k) /\
    exists ms, delivers mask (b_laneSeeds b k.1 k.2) (on_lane k tr) (l_seqNum l) ms /\
      msgs k = ms ++ pend k;
  bo_absent : forall k, b_lanes b !! k = None ->
    on_lane k tr = [] /\ msgs k = [] /\ pend k = [];
  bo_bound : Forall (fun ku => len (unit_bytes (b_attachQoS b) ku.1 ku.2) <= b_batchSize b) tr;
  bo_contiguous : contiguous mask tr;
}.

(** A unit that was emitted belongs to a lane the batcher has. *)
Lemma batcher_keys mask b tr msgs pend k u :
  batcher_ok mask b tr msgs pend -> (k, u) ∈ tr -> valid_key k.
Proof.
  intros Hb Hin. destruct (b_lanes b !! k) as [l|] eqn:E; [apply (bo_lane _ _ _ _ _ Hb k l E)|].
  destruct (bo_absent _ _ _ _ _ Hb k E) as [Hn _].
  assert (Hu : u ∈ on_lane k tr).
  { apply list_elem_of_fmap. exists (k, u). by rewrite list_elem_of_filter. }
  rewrite Hn in Hu. by apply elem_of_nil in Hu.
Qed.

Definition upd {A} (k : LaneKey) (v : A) (f : LaneKey -> A) : LaneKey -> A :=
  fun k' => if decide (k' = k) then v else f k'.

Lemma upd_same {A} k (v : A) f : upd k v f k = v.
Proof. unfold upd. by rewrite decide_True. Qed.
Lemma upd_other {A} k k' (v : A) f : k' <> k -> upd k v f k' = f k'.
Proof. intros H. unfold upd. by rewrite decide_False. Qed.

(** Sending changes no setting of the batcher. *)
Definition same_config (b b' : Batcher) : Prop :=
  b_batchSize b' = b_batchSize b /\ b_attachQoS b' = b_attachQoS b /\
  b_laneSeeds b' = b_laneSeeds b.

Lemma same_config_trans b1 b2 b3 :
  same_config b1 b2 -> same_config b2 b3 -> same_config b1 b3.
Proof. unfold same_config. intuition congruence. Qed.

(** A step on one lane is a step of the batcher. *)
Lemma batcher_ok_step mask b tr msgs pend k l new w r us l' pend' :
  batcher_ok mask b tr msgs pend -> valid_key k ->
  l = laneFor b k.1 k.2 -> lane_key k.1 k.2 = k ->
  lane_step (b_batchSize b) (b_attachQoS b) mask k l (pend k) new w r us l' pend' ->
  batcher_ok mask (set_lane b k l') (tr ++ map (pair k) us)
    (upd k (msgs k ++ new) msgs) (upd k pend' pend).
Proof.
  intros [Hr Hs Hl Ha Hb Ht] Hk -> Hkey [R O (ms2 & D2 & E2) B].
  constructor; [done|done| | | |].
  - intros k' l0. cbn [set_lane b_lanes b_laneSeeds b_batchSize b_attachQoS].
    destruct (decide (k' = k)) as [->|Hne].
    + rewrite lookup_insert_eq. intros [= <-]. split_and!; [done| |].
      { by rewrite upd_same. }
      rewrite !upd_same, on_lane_app, on_lane_same.
      unfold laneFor in D2. rewrite Hkey in D2.
      destruct (b_lanes b !! k) as [l|] eqn:E.
      * destruct (Hl k l E) as (_ & _ & ms1 & D1 & E1). exists (ms1 ++ ms2).
        split; [by eapply delivers_app|]. by rewrite E1, <- !app_assoc, E2.
      * destruct (Ha k E) as (E1 & E3 & E4). rewrite E1, E3 in *. rewrite E4 in E2.
        exists ms2. split; [|done].
        pose proof (f_equal fst Hkey : Z.land k.1 7 = k.1) as Hk1.
        cbn [l_seqNum app] in *. by rewrite Hk1 in D2.
    + rewrite lookup_insert_ne by done. intros E.
      destruct (Hl k' l0 E) as (? & ? & ms & D & Em).
      rewrite !upd_other, on_lane_app, on_lane_other, app_nil_r by done.
      split_and!; eauto.
  - intros k'. cbn [set_lane b_lanes]. destruct (decide (k' = k)) as [->|Hne].
    { by rewrite lookup_insert_eq. }
    rewrite lookup_insert_ne by done. intros E.
    rewrite !upd_other, on_lane_app, on_lane_other, app_nil_r by done. by apply Ha.
  - apply Forall_app. split; [done|]. apply Forall_map. exact B.
  - apply contiguous_app; [done|]. by eapply delivers_contiguous.
Qed.

(** The lane a batcher works on is in order. *)
Lemma laneFor_ok mask b tr msgs pend k :
  batcher_ok mask b tr msgs pend -> valid_key k -> lane_key k.1 k.2 = k ->
  lane_ok (b_batchSize b) (b_attachQoS b) k (laneFor b k.1 k.2) (pend k).
Proof.
  intros [Hr Hs Hl Ha Hb _] Hk Hkey. unfold laneFor. rewrite Hkey.
  destruct (b_lanes b !! k) as [l|] eqn:E; [by destruct (Hl k l E) as (_ & ? & _)|].
  destruct (Ha k E) as (_ & _ & ->). destruct Hr as (Hbs & _).
  constructor; cbn; try done; [exact (f_equal fst Hkey)|unfold len; cbn; lia].
Qed.

Lemma lane_key_valid p r : valid_key (lane_key p r) /\ lane_key (lane_key p r).1 r = lane_key p r.
Proof.
  unfold lane_key, valid_key. cbn. change 7 with (Z.ones 3).
  rewrite !Z.land_ones by lia. change (2 ^ 3) with 8. rewrite Z.mod_mod by lia.
  split; [apply Z.mod_pos_bound; lia|done].
Qed.

Lemma Enqueue_ok mask b tr msgs pend msg w :
  batcher_ok mask b tr msgs pend -> om_Priority msg <= 7 -> om_Encoded msg <> [] ->
  let k := lane_key (om_Priority msg) (om_Reliable msg) in
  exists us b' pend',
    Enqueue rec_sink msg (b, w) =
      (Ok tt, (b', w ++ trace_bytes (b_attachQoS b) (map (pair k) us))) /\
    batcher_ok mask b' (tr ++ map (pair k) us)
      (upd k (msgs k ++ [om_Encoded msg]) msgs) pend' /\
    same_config b b'.
Proof.
  intros Hb Hp Hm k. destruct (lane_key_valid (om_Priority msg) (om_Reliable msg)) as [Hk Hkey].
  fold k in Hk, Hkey.
  assert (Hkey' : lane_key k.1 k.2 = k) by exact Hkey.
  pose proof (laneFor_ok _ _ _ _ _ k Hb Hk Hkey') as Hl.
  assert (Hlane : laneFor b (om_Priority msg) (om_Reliable msg) = laneFor b k.1 k.2).
  { unfold laneFor. rewrite Hkey'. fold k. destruct (b_lanes b !! k); [done|].
    pose proof (f_equal fst Hkey' : Z.land k.1 7 = k.1) as Hk1. rewrite Hk1. reflexivity. }
  destruct (Enqueue_lane_ok b mask k _ (pend k) msg w (bo_ready _ _ _ _ _ Hb) Hl Hm)
    as (us & l' & pend' & S).
  exists us, (set_lane b k l'), (upd k pend' pend). split_and!; [| |done].
  - unfold Enqueue, QoSPriority_IsValid, QoSPriorityBackground.
    replace (om_Priority msg <=? 7) with true by lia. cbn [negb].
    rewrite Hlane, trace_bytes_lane. fold k. by rewrite (ls_result _ _ _ _ _ _ _ _ _ _ _ _ S).
  - eapply batcher_ok_step; [exact Hb|exact Hk|reflexivity|exact Hkey'|exact S].
Qed.

Lemma batcher_ok_ext mask b tr msgs msgs' pend pend' :
  batcher_ok mask b tr msgs pend -> (forall k, msgs k = msgs' k) ->
  (forall k, pend k = pend' k) -> batcher_ok mask b tr msgs' pend'.
Proof.
  intros [H1 H2 H3 H4 H5 H6] Hm Hp. constructor; auto.
  - intros k l E. rewrite <- Hm, <- Hp. by apply H3.
  - intros k E. rewrite <- Hm, <- Hp. by apply H4.
Qed.

Lemma EnqueueAll_ok mask ms : forall b tr msgs pend w,
  batcher_ok mask b tr msgs pend ->
  Forall (fun m => om_Priority m <= 7 /\ om_Encoded m <> []) ms ->
  exists tr' b' pend',
    EnqueueAll rec_sink ms (b, w) =
      (Ok tt, (b', w ++ trace_bytes (b_attachQoS b) tr')) /\
    batcher_ok mask b' (tr ++ tr') (fun k => msgs k ++ sent_on k ms) pend' /\
    same_config b b'.
Proof.
  induction ms as [|m ms IH]; intros b tr msgs pend w Hb Hms.
  - exists [], b, pend. cbn. rewrite !app_nil_r. split_and!; [done| |done].
    eapply batcher_ok_ext; [exact Hb|by intros k; rewrite app_nil_r|done].
  - apply Forall_cons in Hms as [[Hp Hm] Hms].
    destruct (Enqueue_ok mask b tr msgs pend m w Hb Hp Hm) as (us & b1 & p1 & E1 & Hb1 & A1).
    set (k := lane_key (om_Priority m) (om_Reliable m)) in *.
    destruct (IH b1 _ _ _ (w ++ trace_bytes (b_attachQoS b) (map (pair k) us)) Hb1 Hms)
      as (tr' & b' & pend' & E2 & Hb2 & A2).
    exists (map (pair k) us ++ tr'), b', pend'. split_and!; [| |by eapply same_config_trans].
    + cbn [EnqueueAll]. unfold mbind, sem_bind. rewrite E1, E2, (proj1 (proj2 A1)).
      unfold trace_bytes. by rewrite map_app, app_assoc.
    + rewrite app_assoc. eapply batcher_ok_ext; [exact Hb2| |done].
      intros k'. unfold sent_on. destruct (decide (k' = k)) as [->|Hne].
      * rewrite upd_same, filter_cons_True by done. by rewrite <- app_assoc.
      * rewrite upd_other, filter_cons_False by (unfold k in *; congruence). done.
Qed.

Lemma lane_key_id k : valid_key k -> lane_key k.1 k.2 = k.
Proof.
  destruct k as [p r]. unfold valid_key, lane_key. cbn. intros Hp. f_equal.
  change 7 with (Z.ones 3). rewrite Z.land_ones by lia. by apply Z.mod_small.
Qed.

Lemma flush_key_ok mask b tr msgs pend k w :
  batcher_ok mask b tr msgs pend -> valid_key k ->
  exists us b',
    flush_key rec_sink k (b, w) =
      (Ok tt, (b', w ++ trace_bytes (b_attachQoS b) (map (pair k) us))) /\
    batcher_ok mask b' (tr ++ map (pair k) us) msgs (upd k [] pend) /\
    same_config b b'.
Proof.
  intros Hb Hk. pose proof (lane_key_id k Hk) as Hkey. unfold flush_key.
  destruct (b_lanes b !! k) as [l|] eqn:E.
  - assert (l = laneFor b k.1 k.2) as -> by (unfold laneFor; by rewrite Hkey, E).
    pose proof (laneFor_ok _ _ _ _ _ k Hb Hk Hkey) as Hl.
    pose proof (bo_ready _ _ _ _ _ Hb) as (_ & Hmb & Hm & _). rewrite Hmb.
    destruct (flushLocked_ok _ _ mask k _ (pend k) w Hm Hl) as (us & l' & S).
    exists us, (set_lane b k l'). rewrite (ls_result _ _ _ _ _ _ _ _ _ _ _ _ S).
    rewrite trace_bytes_lane. split_and!; [done| |done].
    eapply batcher_ok_ext; [eapply batcher_ok_step;
      [exact Hb|exact Hk|reflexivity|exact Hkey|exact S]| |done].
    intros k'. destruct (decide (k' = k)) as [->|]; [by rewrite upd_same, app_nil_r|].
    by rewrite upd_other.
  - exists [], b. cbn. rewrite !app_nil_r. split_and!; [done| |done].
    eapply batcher_ok_ext; [exact Hb|done|]. intros k'.
    destruct (decide (k' = k)) as [->|]; [|by rewrite upd_other].
    rewrite upd_same. by apply (bo_absent _ _ _ _ _ Hb).
Qed.

Lemma flush_keys_ok mask ks : forall b tr msgs pend w,
  batcher_ok mask b tr msgs pend -> Forall valid_key ks ->
  exists tr' b' pend',
    flush_keys rec_sink ks (b, w) =
      (Ok tt, (b', w ++ trace_bytes (b_attachQoS b) tr')) /\
    batcher_ok mask b' (tr ++ tr') msgs pend' /\
    same_config b b' /\
    (forall k, pend' k = if decide (k ∈ ks) then [] else pend k).
Proof.
  induction ks as [|k ks IH]; intros b tr msgs pend w Hb Hks.
  - exists [], b, pend. cbn. rewrite !app_nil_r. done.
  - apply Forall_cons in Hks as [Hk Hks].
    destruct (flush_key_ok mask b tr msgs pend k w Hb Hk) as (us & b1 & E1 & Hb1 & A1).
    destruct (IH b1 _ _ _ (w ++ trace_bytes (b_attachQoS b) (map (pair k) us)) Hb1 Hks)
      as (tr' & b' & pend' & E2 & Hb2 & A2 & Hp2).
    exists (map (pair k) us ++ tr'), b', pend'. split_and!.
    + cbn [flush_keys]. unfold mbind, sem_bind. rewrite E1, E2, (proj1 (proj2 A1)).
      unfold trace_bytes. by rewrite map_app, app_assoc.
    + by rewrite app_assoc.
    + by eapply same_config_trans.
    + intros k'. rewrite Hp2. unfold upd.
      repeat case_decide; set_solver.
Qed.

Lemma all_lanes_spec k : k ∈ all_lanes <-> valid_key k.
Proof.
  unfold all_lanes, valid_key. rewrite list_elem_of_bind. destruct k as [p r]. cbn [fst]. split.
  - intros (q & Hq & Hr%elem_of_Zrange_inv).
    rewrite !elem_of_cons, elem_of_nil in Hq. assert (p = q) as -> by naive_solver. lia.
  - intros Hp. exists p. split; [|apply elem_of_Zrange; lia]. destruct r; set_solver.
Qed.

(** The batches of a whole run: a fresh batcher, a list of messages, a flush. *)
Definition send_all (b : Batcher) (msgs : list OutboundMessage) :
    result unit * (Batcher * list bytes) :=
  (EnqueueAll rec_sink msgs;; FlushAll rec_sink) (b, []).

Definition seeds_ok (seeds : Z -> bool -> Z) : Prop := forall p r, sn_ok (seeds p r).

Lemma NewBatcher_ok bs a seeds mask :
  16 < bs -> 0 <= mask < 2 ^ 64 -> seeds_ok seeds ->
  batcher_ok (normalizeSNMask mask) (NewBatcherWithLaneSeeds bs a seeds mask) []
    (fun _ => []) (fun _ => []).
Proof.
  intros Hb Hm Hs. destruct (normalizeSNMask_idem mask Hm) as [Hi Hr].
  constructor; [exact (conj Hb (conj eq_refl (conj Hr Hi)))|done| |done|constructor|constructor]. by intros k l; cbn; rewrite lookup_empty.
Qed.

(** A run sends every message, on its lane, in order and without a gap in the
    sequence numbers, in batches that fit. *)
Lemma send_all_ok bs a seeds mask msgs :
  16 < bs -> 0 <= mask < 2 ^ 64 -> seeds_ok seeds ->
  Forall (fun m => om_Priority m <= 7 /\ om_Encoded m <> []) msgs ->
  exists tr b',
    send_all (NewBatcherWithLaneSeeds bs a seeds mask) msgs = (Ok tt, (b', trace_bytes a tr)) /\
    Forall (fun ku => valid_key ku.1) tr /\
    Forall (fun batch => len batch <= bs) (trace_bytes a tr) /\
    contiguous (normalizeSNMask mask) tr /\
    forall k, valid_key k -> exists sn',
      delivers (normalizeSNMask mask) (seeds k.1 k.2) (on_lane k tr) sn' (sent_on k msgs).
Proof.
  intros Hb Hm Hs Hmsgs. pose proof (NewBatcher_ok bs a seeds mask Hb Hm Hs) as H0.
  set (b0 := NewBatcherWithLaneSeeds bs a seeds mask) in *.
  destruct (EnqueueAll_ok _ msgs b0 [] _ _ [] H0 Hmsgs) as (tr1 & b1 & p1 & E1 & H1 & A1).
  destruct (flush_keys_ok _ all_lanes b1 _ _ _ ([] ++ trace_bytes (b_attachQoS b0) tr1) H1)
    as (tr2 & b2 & p2 & E2 & H2 & A2 & P2).
  { apply Forall_forall. intros k. by rewrite all_lanes_spec. }
  destruct (same_config_trans _ _ _ A1 A2) as (C1 & C2 & C3).
  exists (tr1 ++ tr2), b2. pose proof H2 as [R2 S2 L2 X2 B2 T2]. split_and!.
  - unfold send_all, FlushAll, mbind, sem_bind. rewrite E1, E2, (proj1 (proj2 A1)).
    unfold trace_bytes. by rewrite map_app.
  - apply Forall_forall. intros [k u] Hin. by eapply batcher_keys.
  - unfold trace_bytes. apply Forall_map. rewrite C1, C2 in B2. exact B2.
  - exact T2.
  - intros k Hk. assert (p2 k = []) as Hp.
    { rewrite P2. case_decide; [done|]. by rewrite all_lanes_spec in *. }
    destruct (b_lanes b2 !! k) as [l|] eqn:El.
    + destruct (L2 k l El) as (_ & _ & ms & D & E). rewrite Hp, app_nil_r in E.
      cbn [app] in *. exists (l_seqNum l). rewrite C3 in D. cbn in E. by rewrite E.
    + destruct (X2 k El) as (E & E' & _). cbn [app] in *. rewrite E, E'.
      eexists. constructor.
Qed.

(** C36: No batch exceeds the negotiated batch size, however large the
    messages; and the frames and fragments of each lane carry consecutive
    sequence numbers, wrapping at the mask, and spell out the messages
    enqueued on the lane, in order. *)
Theorem batches_bounded_in_order bs a seeds mask msgs :
  16 < bs -> 0 <= mask < 2 ^ 64 -> seeds_ok seeds ->
  Forall (fun m => om_Priority m <= 7 /\ om_Encoded m <> []) msgs ->
  exists tr b',
    send_all (NewBatcherWithLaneSeeds bs a seeds mask) msgs = (Ok tt, (b', trace_bytes a tr)) /\
    Forall (fun ku => valid_key ku.1) tr /\
    Forall (fun batch => len batch <= bs) (trace_bytes a tr) /\
    forall k, valid_key k -> exists sn',
      delivers (normalizeSNMask mask) (seeds k.1 k.2) (on_lane k tr) sn' (sent_on k msgs).
Proof.
  intros Hb Hm Hs Hmsgs.
  destruct (send_all_ok bs a seeds mask msgs Hb Hm Hs Hmsgs) as (tr & b' & H1 & H2 & H3 & _ & H5).
  by exists tr, b'.
Qed.

Definition sample_messages : list OutboundMessage :=
  [mkOutbound (replicate 100 7) 5 true false; mkOutbound [1; 2; 3] 5 true false].

Lemma batches_bounded_in_order_witness :
  exists tr b',
    send_all (NewBatcherWithLaneSeeds 64 true (fun _ _ => 2 ^ 28 - 1) (2 ^ 28 - 1))
      sample_messages = (Ok tt, (b', trace_bytes true tr)) /\
    Forall (fun ku => valid_key ku.1) tr /\
    Forall (fun batch => len batch <= 64) (trace_bytes true tr) /\
    forall k, valid_key k -> exists sn',
      delivers (2 ^ 28 - 1) (2 ^ 28 - 1) (on_lane k tr) sn' (sent_on k sample_messages).
Proof.
  apply (batches_bounded_in_order 64 true (fun _ _ => 2 ^ 28 - 1) (2 ^ 28 - 1));
    [lia|lia|by intros p r|by_eval].
Defined.
