(* ===== verification/ReassemblerSpec.v ===== *)
(** * The contract of internal/transport/reassembler.go

    Runs of [Push] and [Clear] in any order, on any lanes.  A message handed
    out is the concatenation of the bodies of the last fragments pushed on its
    lane, consecutive in sequence number and uninterrupted by a [Clear]; no
    buffer ever exceeds [MaxMessageSize]. *)
From S2P Require Import Prelude Codec WireTransport Transport.

Record fragment_in := mkIn { fi_sn : Z; fi_more : bool; fi_body : bytes }.

Inductive rop :=
  | RPush (lane : LaneKey) (f : fragment_in)
  | RClear (lane : LaneKey).

Definition push_in (lane : LaneKey) (f : fragment_in) : sem Reassembler (option bytes) :=
  Reassembler_Push lane (fi_sn f) (fi_more f) (fi_body f).

(** An error of [Push] leaves the reassembler usable. *)
Definition rstep (r : Reassembler) (o : rop) : Reassembler :=
  match o with
  | RPush lane f => (push_in lane f r).2
  | RClear lane => Reassembler_Clear lane r
  end.

Definition rsteps (ops : list rop) (r : Reassembler) : Reassembler := fold_left rstep ops r.

(** What happened on one lane: [None] is a [Clear]. *)
Definition history (k : LaneKey) (ops : list rop) : list (option fragment_in) :=
  omap (fun o => match o with
                 | RPush lane f => if bool_decide (lane = k) then Some (Some f) else None
                 | RClear lane => if bool_decide (lane = k) then Some None else None
                 end) ops.

(** [chain mask sn fs next]: the fragments [fs] have consecutive sequence
    numbers from [sn], and [next] comes after them. *)
Inductive chain (mask : Z) : Z -> list fragment_in -> Z -> Prop :=
  | chain_nil sn : chain mask sn [] sn
  | chain_snoc sn fs f : chain mask sn fs (fi_sn f) ->
      chain mask sn (fs ++ [f]) (next_sn mask (fi_sn f)).

(** [fs] are the last events of [h], a run of fragments that form [buf]. *)
Definition run_of (mask : Z) (h : list (option fragment_in)) (fs : list fragment_in)
    (next : Z) (buf : bytes) : Prop :=
  (exists h0, h = h0 ++ map Some fs) /\ (exists sn, chain mask sn fs next) /\
  buf = concat (map fi_body fs).

Definition lane_inv (r : Reassembler) (h : list (option fragment_in)) (st : reassemblyState) :
    Prop :=
  len (rs_buf st) <= Z.max 0 (ra_MaxMessageSize r) /\
  if rs_active st
  then exists fs, run_of (ra_snMask r) h fs (rs_expectedSN st) (rs_buf st) /\
                  Forall (fun f => fi_more f = true) fs
  else rs_buf st = [].

Definition reassembler_inv (r : Reassembler) (ops : list rop) : Prop :=
  forall k st, ra_lanes r !! k = Some st -> lane_inv r (history k ops) st.

Lemma history_snoc k ops o : history k (ops ++ [o]) = history k ops ++ history k [o].
Proof. unfold history. by rewrite omap_app. Qed.

Lemma lane_inv_clear r h : lane_inv r h clear_state.
Proof. split; [unfold len; cbn; lia|done]. Qed.

Lemma lane_inv_default r ops k : reassembler_inv r ops ->
  lane_inv r (history k ops) (default clear_state (ra_lanes r !! k)).
Proof.
  intros Hr. destruct (ra_lanes r !! k) as [st|] eqn:E; [by apply Hr|apply lane_inv_clear].
Qed.

Lemma run_of_first mask h f :
  run_of mask (h ++ [Some f]) [f] (next_sn mask (fi_sn f)) (fi_body f).
Proof.
  split_and!; [by exists h| |by cbn; rewrite app_nil_r].
  exists (fi_sn f). apply (chain_snoc mask _ [] f). constructor.
Qed.

Lemma run_of_next mask h fs buf f : run_of mask h fs (fi_sn f) buf ->
  run_of mask (h ++ [Some f]) (fs ++ [f]) (next_sn mask (fi_sn f)) (buf ++ fi_body f).
Proof.
  intros ([h0 ->] & [sn Hc] & ->). split_and!.
  - exists h0. by rewrite map_app, app_assoc.
  - exists sn. by constructor.
  - rewrite map_app, concat_app. cbn. by rewrite app_nil_r.
Qed.

(** The run a fragment ends, when [Push] accepts it. *)
Lemma push_run r h st f : lane_inv r h st ->
  rs_active st && negb (fi_sn f =? rs_expectedSN st) = false ->
  exists fs, run_of (ra_snMask r) (h ++ [Some f]) (fs ++ [f]) (next_sn (ra_snMask r) (fi_sn f))
               ((if rs_active st then rs_buf st else []) ++ fi_body f) /\
             Forall (fun f => fi_more f = true) fs.
Proof.
  intros [_ Hs] Hg. destruct (rs_active st).
  - destruct Hs as (fs & Hrun & Hm). cbn in Hg. apply negb_false_iff, Z.eqb_eq in Hg.
    exists fs. split; [|done]. apply run_of_next. by rewrite Hg.
  - exists []. split; [apply run_of_first|done].
Qed.

Lemma inv_set_lane r ops o k st :
  (forall k', k' <> k -> history k' [o] = []) -> reassembler_inv r ops ->
  lane_inv r (history k (ops ++ [o])) st ->
  reassembler_inv (set_ra_lane r k st) (ops ++ [o]).
Proof.
  intros Ho Hr Hst k' st' E. cbn in E. destruct (decide (k' = k)) as [->|Hn].
  - rewrite lookup_insert_eq in E. by simplify_eq.
  - rewrite lookup_insert_ne in E by done. rewrite history_snoc, Ho, app_nil_r by done.
    by apply Hr.
Qed.

Lemma push_inv r ops k f : reassembler_inv r ops ->
  reassembler_inv (push_in k f r).2 (ops ++ [RPush k f]).
Proof.
  intros Hr. pose proof (lane_inv_default r ops k Hr) as Hst.
  assert (Ho : forall k', k' <> k -> history k' [RPush k f] = []).
  { intros k' Hn. cbn. by rewrite bool_decide_eq_false_2 by congruence. }
  assert (Hh : history k (ops ++ [RPush k f]) = history k ops ++ [Some f]).
  { rewrite history_snoc. cbn. by rewrite bool_decide_eq_true_2. }
  unfold push_in, Reassembler_Push. cbv zeta.
  destruct (rs_active _ && _) eqn:Eg; [apply inv_set_lane; auto using lane_inv_clear|].
  destruct (push_run r _ _ f Hst Eg) as (fs & Hrun & Hm).
  destruct (_ >? _) eqn:El; [apply inv_set_lane; auto using lane_inv_clear|].
  destruct (fi_more f) eqn:Ef; [|apply inv_set_lane; auto using lane_inv_clear].
  apply inv_set_lane; [done..|]. rewrite Hh. split.
  - cbn [rs_buf]. unfold len in *. rewrite length_app. lia.
  - exists (fs ++ [f]). split; [done|]. apply Forall_app. by repeat constructor.
Qed.

Lemma clear_inv r ops k : reassembler_inv r ops ->
  reassembler_inv (Reassembler_Clear k r) (ops ++ [RClear k]).
Proof.
  intros Hr. unfold Reassembler_Clear. destruct (ra_lanes r !! k) eqn:E.
  - apply inv_set_lane; [|done|apply lane_inv_clear].
    intros k' Hn. cbn. by rewrite bool_decide_eq_false_2 by congruence.
  - intros k' st Ek. rewrite history_snoc. cbn. rewrite bool_decide_eq_false_2 by congruence.
    rewrite app_nil_r. by apply Hr.
Qed.

Lemma rsteps_snoc ops o r : rsteps (ops ++ [o]) r = rstep (rsteps ops r) o.
Proof. unfold rsteps. by rewrite fold_left_app. Qed.

Lemma rsteps_inv mx mask ops :
  reassembler_inv (rsteps ops (NewReassembler mx mask)) ops.
Proof.
  induction ops as [|o ops IH] using rev_ind; [intros k st H; cbn in H; by rewrite lookup_empty in H|].
  rewrite rsteps_snoc. destruct o; [by apply push_inv|by apply clear_inv].
Qed.

Lemma rstep_config r o :
  ra_MaxMessageSize (rstep r o) = ra_MaxMessageSize r /\ ra_snMask (rstep r o) = ra_snMask r.
Proof.
  destruct o as [k f|k]; cbn.
  - unfold push_in, Reassembler_Push. repeat case_match; by simplify_eq/=.
  - unfold Reassembler_Clear. by case_match.
Qed.

Lemma rsteps_config ops r :
  ra_MaxMessageSize (rsteps ops r) = ra_MaxMessageSize r /\
  ra_snMask (rsteps ops r) = ra_snMask r.
Proof.
  induction ops as [|o ops IH] using rev_ind; [done|].
  rewrite rsteps_snoc. destruct (rstep_config (rsteps ops r) o) as [-> ->]. done.
Qed.

(** C37: Whatever sequence of fragments and clears arrives on whatever
    lanes, a message the reassembler hands out is the concatenation of the
    last fragments of its lane, consecutive in sequence number and not
    separated by a clear, of which only the last has More=false; and it is
    no longer than MaxMessageSize. *)
Theorem reassembled_message mx mask ops k f m r' :
  let r := rsteps ops (NewReassembler mx mask) in
  push_in k f r = (Ok (Some m), r') ->
  fi_more f = false /\ len m <= mx /\
  exists fs, run_of (normalizeSNMask mask) (history k (ops ++ [RPush k f])) (fs ++ [f])
               (next_sn (normalizeSNMask mask) (fi_sn f)) m /\
             Forall (fun f => fi_more f = true) fs.
Proof.
  intros r H. destruct (rsteps_config ops (NewReassembler mx mask)) as [Hmx Hmask].
  pose proof (lane_inv_default r ops k (rsteps_inv mx mask ops)) as Hst.
  fold r in Hmx, Hmask. cbn in Hmx, Hmask. rewrite <- Hmask, history_snoc. cbn.
  rewrite bool_decide_eq_true_2 by done.
  unfold push_in, Reassembler_Push in H. cbv zeta in H.
  destruct (rs_active _ && _) eqn:Eg; [done|].
  destruct (push_run r _ _ f Hst Eg) as (fs & Hrun & Hm).
  destruct (_ >? _) eqn:El; [done|]. destruct (fi_more f); [done|]. simplify_eq.
  split_and!; [done| |by exists fs]. unfold len in *. rewrite length_app. lia.
Qed.

(** No lane of the reassembler ever buffers more than MaxMessageSize
    bytes. *)
Theorem reassembler_bounded mx mask ops k st :
  ra_lanes (rsteps ops (NewReassembler mx mask)) !! k = Some st ->
  len (rs_buf st) <= Z.max 0 mx.
Proof.
  intros H. destruct (rsteps_inv mx mask ops k st H) as [Hl _].
  by rewrite (proj1 (rsteps_config ops (NewReassembler mx mask))) in Hl.
Qed.

(** After a gap in sequence numbers only the reassembly in progress is
    dropped: the tail of the same message, if it arrives in one fragment
    with More=false, is handed out as a complete message. *)
Theorem reassembler_gap_tail r k f g st :
  ra_lanes r !! k = Some st -> rs_active st = true -> fi_sn f <> rs_expectedSN st ->
  fi_more g = false -> len (fi_body g) <= ra_MaxMessageSize r ->
  exists r1 r2, push_in k f r = (Err ErrReassemblySNGap, r1) /\
    push_in k g r1 = (Ok (Some (fi_body g)), r2).
Proof.
  intros Hst Ha Hsn Hg Hl. unfold push_in, Reassembler_Push. cbv zeta. rewrite Hst. cbn [from_option id].
  rewrite Ha, (proj2 (Z.eqb_neq _ _) Hsn). cbn [andb negb]. do 2 eexists. split; [done|].
  cbn [set_ra_lane ra_lanes ra_MaxMessageSize]. rewrite lookup_insert_eq. cbn [from_option id clear_state rs_active rs_buf andb app].
  rewrite Hg, Z.gtb_ltb, (proj2 (Z.ltb_ge _ _)); [done|]. unfold len in *. cbn. lia.
Qed.

Definition sample_ops : list rop :=
  [RPush (5, true) (mkIn 7 true [1; 2]); RPush (3, true) (mkIn 0 true [9])].

Lemma reassembled_message_witness :
  exists r', push_in (5, true) (mkIn 8 false [3]) (rsteps sample_ops (NewReassembler 100 0)) =
    (Ok (Some [1; 2; 3]), r') /\
  exists fs, run_of (2 ^ 64 - 1) (history (5, true) (sample_ops ++ [RPush (5, true) (mkIn 8 false [3])]))
    (fs ++ [mkIn 8 false [3]]) 9 [1; 2; 3].
Proof.
  eexists. split; [reflexivity|].
  destruct (reassembled_message 100 0 sample_ops (5, true) (mkIn 8 false [3]) [1; 2; 3] _ eq_refl)
    as (_ & _ & fs & H & _).
  exists fs. exact H.
Defined.

Lemma reassembler_bounded_witness :
  exists st, ra_lanes (rsteps sample_ops (NewReassembler 100 0)) !! (5, true) = Some st /\
    len (rs_buf st) <= 100.
Proof.
  eexists. split; [reflexivity|].
  exact (reassembler_bounded 100 0 sample_ops (5, true) _ eq_refl).
Defined.

Lemma reassembler_gap_tail_witness :
  exists r1 r2,
    push_in (5, true) (mkIn 10 true [4]) (rsteps sample_ops (NewReassembler 100 0)) =
      (Err ErrReassemblySNGap, r1) /\
    push_in (5, true) (mkIn 11 false [5]) r1 = (Ok (Some [5]), r2).
Proof.
  apply (reassembler_gap_tail _ (5, true) (mkIn 10 true [4]) (mkIn 11 false [5])
    (mkReassembly 8 [1; 2] true)); by_eval.
Defined.
