(* ===== verification/SessionReader.v ===== *)
(** * internal/session/reader.go: decoding inbound batches

    [processBatch] iterates the transport messages of a batch; the network
    messages of FRAME and FRAGMENT bodies go to [Dispatch], a parameter here
    as in [ReaderConfig].  The state is what the loop touches: the
    reassembler, the dispatcher's own state and the reasons [OnClose] was
    called with. *)
From S2P Require Import Prelude Buffer Vle Codec WirePrim WireTransport Transport.

Record RxState (D : Type) := mkRx {
  rx_reasm : Reassembler; rx_d : D; rx_closed : list Z }.
Arguments mkRx {D}. Arguments rx_reasm {D}. Arguments rx_d {D}. Arguments rx_closed {D}.

Section Reader.
Context {D : Type}.

(** [InboundDispatch]: the reader is positioned after the header byte. *)
Variable Dispatch : Header -> Reader -> D -> result Reader * D.

Abbreviation RxM := (sem (Reader * RxState D)).

Definition decode {A} (m : RM A) : RxM A := fun '(r, x) =>
  match m r with Ok (a, r') => (Ok a, (r', x)) | Err e => (Err e, (r, x)) end.

Definition call_dispatch (h : Header) : RxM unit := fun '(r, x) =>
  let '(res, d) := Dispatch h r (rx_d x) in
  let x' := mkRx (rx_reasm x) d (rx_closed x) in
  match res with Ok r' => (Ok tt, (r', x')) | Err e => (Err e, (r, x')) end.

Definition on_close (reason : Z) : RxM unit := fun '(r, x) =>
  (Ok tt, (r, mkRx (rx_reasm x) (rx_d x) (rx_closed x ++ [reason]))).

Definition reader_len : RxM nat := fun '(r, x) => (Ok (Reader_Len r), (r, x)).

Definition reassemble (lane : LaneKey) (sn : Z) (more : bool) (body : bytes) :
    RxM (result (option bytes)) := fun '(r, x) =>
  let '(res, ra) := Reassembler_Push lane sn more body (rx_reasm x) in
  (Ok res, (r, mkRx ra (rx_d x) (rx_closed x))).

Definition fail {A} (e : error) : RxM A := fun s => (Err e, s).

(** One message to the dispatcher, with the safety net against a dispatcher
    that consumes nothing. *)
Definition dispatch_one : RxM unit :=
  h ← decode (wrap "network header" DecodeHeader);
  before ← reader_len;
  call_dispatch h;;
  after ← reader_len;
  if (0 <? after)%nat && (after =? before)%nat
  then fail (ErrMsg "dispatch did not consume network message")
  else mret tt.

Fixpoint dispatchFrameMessages_loop (fuel : nat) : RxM unit :=
  match fuel with
  | O => fail ErrFuel
  | S fuel =>
      n ← reader_len;
      if (n =? 0)%nat then mret tt
      else
        b ← decode PeekByte;
        if negb (IsNetworkMessageID (Z.land b HdrIDMask)) then mret tt
        else dispatch_one;; dispatchFrameMessages_loop fuel
  end.

Definition dispatchFrameMessages : RxM unit :=
  n ← reader_len; dispatchFrameMessages_loop (S n).

Fixpoint dispatchFrameBody_loop (fuel : nat) : RxM unit :=
  match fuel with
  | O => fail ErrFuel
  | S fuel =>
      n ← reader_len;
      if (n =? 0)%nat then mret tt
      else dispatch_one;; dispatchFrameBody_loop fuel
  end.

(** The reassembled body has a reader of its own. *)
Definition dispatchFrameBody (body : bytes) : RxM unit := fun '(r, x) =>
  match dispatchFrameBody_loop (S (length body)) (NewReader body, x) with
  | (res, (_, x')) => (res, (r, x'))
  end.

(** The FRAGMENT case; [false] ends the batch without an error. *)
Definition process_fragment (frag : Fragment) : RxM bool :=
  let lane := (LanePriorityFromExts (fgExtensions frag), fgReliable frag) in
  complete ← reassemble lane (fgSeqNum frag) (fgMore frag) (fgBody frag);
  match complete with
  | Err _ => mret false
  | Ok None => mret true
  | Ok (Some body) => dispatchFrameBody body;; mret true
  end.

Fixpoint processBatch_loop (fuel : nat) : RxM unit :=
  match fuel with
  | O => fail ErrFuel
  | S fuel =>
      n ← reader_len;
      if (n =? 0)%nat then mret tt
      else
        h ← decode (wrap "header" DecodeHeader);
        if hID h =? IDTransportKeepAlive then
          decode (DecodeKeepAlive h);; processBatch_loop fuel
        else if hID h =? IDTransportClose then
          cl ← decode (DecodeClose h);
          on_close (clReason cl)
        else if hID h =? IDTransportFrame then
          decode (wrap "FRAME" (DecodeFrame h));;
          dispatchFrameMessages;;
          processBatch_loop fuel
        else if hID h =? IDTransportFragment then
          frag ← decode (wrap "FRAGMENT" (DecodeFragment h));
          go ← process_fragment frag;
          if (go : bool) then processBatch_loop fuel else mret tt
        else if hID h =? IDTransportOAM then fail (ErrMsg "transport OAM not supported")
        else fail (ErrMsg "unexpected transport msg inside active session")
  end.

Definition processBatch (batch : bytes) (x : RxState D) : result unit * RxState D :=
  match processBatch_loop (S (length batch)) (NewReader batch, x) with
  | (res, (_, x')) => (res, x')
  end.

(** Batches in the order [readerLoop] reads them; an error ends the loop. *)
Fixpoint processBatches (batches : list bytes) (x : RxState D) : result unit * RxState D :=
  match batches with
  | [] => (Ok tt, x)
  | b :: batches =>
      match processBatch b x with
      | (Ok _, x') => processBatches batches x'
      | (Err e, x') => (Err e, x')
      end
  end.

(** ** Termination: the loops stop on every input *)

(** The dispatcher only moves the reader forward and has no fuel of its own. *)
Definition dispatch_forward : Prop := forall h r d,
  reader_wf r ->
  match Dispatch h r d with
  | (Ok r', _) => r_buf r' = r_buf r /\ (r_off r <= r_off r')%nat /\ reader_wf r'
  | (Err e, _) => errors_is e ErrFuel = false
  end.

(** With fewer than [k] bytes left, [m] keeps the buffer, consumes at least
    [n] bytes and reports no fuel error.  Nothing is asked for [k = 0]. *)
Definition advances {A} (k n : nat) (m : RxM A) : Prop := forall r x,
  reader_wf r -> (Reader_Len r < k)%nat ->
  match m (r, x) with
  | (Ok _, (r', _)) =>
      r_buf r' = r_buf r /\ (r_off r + n <= r_off r')%nat /\ reader_wf r'
  | (Err e, _) => errors_is e ErrFuel = false
  end.

Lemma advances_decode {A} k n (m : RM A) :
  consumes n m -> no_fuel_err m -> advances k n (decode m).
Proof.
  intros Hc Hf r x Hr _. unfold decode. destruct (m r) as [[a r']|e] eqn:E.
  - by apply (Hc r a r').
  - by apply (Hf r e).
Qed.

Lemma advances_bind {A B} k n1 n2 (m : RxM A) (f : A -> RxM B) :
  advances k n1 m -> (forall a, advances (k - n1) n2 (f a)) ->
  advances k (n1 + n2) (m ≫= f).
Proof.
  intros Hm Hf r x Hr Hk. specialize (Hm r x Hr Hk). unfold mbind, sem_bind.
  destruct (m (r, x)) as [[a|e] [r' x']]; [|done].
  destruct Hm as (Hb & Ho & Hr').
  assert (Hk' : (Reader_Len r' < k - n1)%nat).
  { unfold Reader_Len, reader_wf in *. rewrite Hb in *. lia. }
  specialize (Hf a r' x' Hr' Hk'). destruct (f a (r', x')) as [[b|e] [r2 x2]]; [|done].
  destruct Hf as (Hb2 & Ho2 & Hr2). split_and!; [congruence|lia|done].
Qed.

(** The common case: the bytes consumed first are not counted. *)
Lemma advances_bind_0 {A B} k n (m : RxM A) (f : A -> RxM B) :
  advances k 0 m -> (forall a, advances k n (f a)) -> advances k n (m ≫= f).
Proof.
  intros Hm Hf. apply (advances_bind k 0 n); [done|]. intros a.
  rewrite Nat.sub_0_r. apply Hf.
Qed.

Lemma advances_weaken {A} k k' n n' (c : RxM A) :
  advances k n c -> (k' <= k)%nat -> (n' <= n)%nat -> advances k' n' c.
Proof.
  intros H Hk Hn r x Hr Hl. specialize (H r x Hr ltac:(lia)).
  destruct (c (r, x)) as [[a|e] [r' x']]; [|done].
  destruct H as (? & ? & ?). split_and!; [done|lia|done].
Qed.

Lemma advances_pure {A} k (m : RxM A) :
  (forall r x, exists a x', m (r, x) = (Ok a, (r, x'))) -> advances k 0 m.
Proof.
  intros H r x Hr _. destruct (H r x) as (a & x' & ->). split_and!; [done|lia|done].
Qed.

Lemma advances_ret {A} k (a : A) : advances k 0 (mret a).
Proof. apply advances_pure. intros r x. by exists a, x. Qed.

Lemma advances_reader_len k : advances k 0 reader_len.
Proof. apply advances_pure. intros r x. by eexists _, x. Qed.

Lemma advances_on_close k z : advances k 0 (on_close z).
Proof. apply advances_pure. intros r x. by eexists _, _. Qed.

Lemma advances_reassemble k l s m b : advances k 0 (reassemble l s m b).
Proof.
  apply advances_pure. intros r x. unfold reassemble.
  destruct (Reassembler_Push l s m b (rx_reasm x)) as [res ra]. by eexists _, _.
Qed.

Lemma advances_fail {A} k n e : errors_is e ErrFuel = false -> advances k n (@fail A e).
Proof. intros H r x Hr _. exact H. Qed.

Lemma advances_call k h : dispatch_forward -> advances k 0 (call_dispatch h).
Proof.
  intros Hd r x Hr _. unfold call_dispatch. specialize (Hd h r (rx_d x) Hr).
  destruct (Dispatch h r (rx_d x)) as [[r'|e] d]; [|done].
  destruct Hd as (? & ? & ?). split_and!; [done|lia|done].
Qed.

Lemma advances_if {A} k n (b : bool) (m1 m2 : RxM A) :
  advances k n m1 -> advances k n m2 -> advances k n (if b then m1 else m2).
Proof. by destruct b. Qed.

Lemma advances_header k ctx : advances k 1 (decode (wrap ctx DecodeHeader)).
Proof.
  apply advances_decode; unfold DecodeHeader; [solve_consumes|solve_no_fuel].
Qed.

Lemma advances_dispatch_one k : dispatch_forward -> advances k 1 dispatch_one.
Proof.
  intros Hd. unfold dispatch_one. apply (advances_bind k 1 0); [apply advances_header|].
  intros h. apply advances_bind_0; [apply advances_reader_len|]. intros n.
  apply advances_bind_0; [by apply advances_call|]. intros _.
  apply advances_bind_0; [apply advances_reader_len|]. intros a.
  apply advances_if; [by apply advances_fail|apply advances_ret].
Qed.

(** A loop whose iterations consume a byte does not run out of fuel. *)
Lemma advances_frame_loop fuel :
  dispatch_forward -> advances fuel 0 (dispatchFrameMessages_loop fuel).
Proof.
  intros Hd. induction fuel as [|fuel IH]; [intros r x _ Hl; lia|].
  cbn [dispatchFrameMessages_loop].
  apply advances_bind_0; [apply advances_reader_len|]. intros n.
  apply advances_if; [apply advances_ret|].
  apply advances_bind_0; [apply advances_decode; auto with consumes no_fuel|]. intros b.
  apply advances_if; [apply advances_ret|].
  apply advances_weaken with (k := S fuel) (n := (1 + 0)%nat); [|lia|lia].
  apply advances_bind; [by apply advances_dispatch_one|]. intros _.
  by rewrite Nat.sub_succ, Nat.sub_0_r.
Qed.

Lemma advances_body_loop fuel :
  dispatch_forward -> advances fuel 0 (dispatchFrameBody_loop fuel).
Proof.
  intros Hd. induction fuel as [|fuel IH]; [intros r x _ Hl; lia|].
  cbn [dispatchFrameBody_loop].
  apply advances_bind_0; [apply advances_reader_len|]. intros n.
  apply advances_if; [apply advances_ret|].
  apply advances_weaken with (k := S fuel) (n := (1 + 0)%nat); [|lia|lia].
  apply advances_bind; [by apply advances_dispatch_one|]. intros _.
  by rewrite Nat.sub_succ, Nat.sub_0_r.
Qed.

Lemma advances_frame_messages k : dispatch_forward -> advances k 0 dispatchFrameMessages.
Proof.
  intros Hd r x Hr _. unfold dispatchFrameMessages, mbind, sem_bind. cbn [reader_len].
  apply advances_frame_loop; [done|done|lia].
Qed.

Lemma advances_frame_body k body : dispatch_forward -> advances k 0 (dispatchFrameBody body).
Proof.
  intros Hd r x Hr _. unfold dispatchFrameBody.
  pose proof (advances_body_loop (S (length body)) Hd (NewReader body) x
                (reader_wf_NewReader body)) as H.
  specialize (H ltac:(unfold Reader_Len; cbn; lia)).
  destruct (dispatchFrameBody_loop _ _) as [[[]|e] [r' x']]; [|done].
  split_and!; [done|lia|done].
Qed.

Lemma advances_fragment k frag : dispatch_forward -> advances k 0 (process_fragment frag).
Proof.
  intros Hd. unfold process_fragment.
  apply advances_bind_0; [apply advances_reassemble|]. intros [[body|]|e];
    [|apply advances_ret..].
  apply advances_bind_0; [by apply advances_frame_body|]. intros _. apply advances_ret.
Qed.

Lemma advances_batch_loop fuel :
  dispatch_forward -> advances fuel 0 (processBatch_loop fuel).
Proof.
  intros Hd. induction fuel as [|fuel IH]; [intros r x _ Hl; lia|].
  cbn [processBatch_loop].
  apply advances_bind_0; [apply advances_reader_len|]. intros n.
  apply advances_if; [apply advances_ret|].
  apply advances_weaken with (k := S fuel) (n := (1 + 0)%nat); [|lia|lia].
  apply advances_bind; [apply advances_header|]. intros h.
  rewrite Nat.sub_succ, Nat.sub_0_r. repeat apply advances_if.
  - apply advances_bind_0; [apply advances_decode; auto with consumes no_fuel|done].
  - apply advances_bind_0; [apply advances_decode; auto with consumes no_fuel|].
    intros cl. apply advances_on_close.
  - apply advances_bind_0.
    { apply advances_decode; [apply consumes_wrap|apply no_fuel_wrap]; auto with consumes no_fuel. }
    intros _. apply advances_bind_0; [by apply advances_frame_messages|done].
  - apply advances_bind_0.
    { apply advances_decode; [apply consumes_wrap|apply no_fuel_wrap]; auto with consumes no_fuel. }
    intros frag. apply advances_bind_0; [by apply advances_fragment|].
    intros go. apply advances_if; [done|apply advances_ret].
  - by apply advances_fail.
  - by apply advances_fail.
Qed.

Lemma processBatch_no_fuel_error batch x e x' :
  dispatch_forward -> processBatch batch x = (Err e, x') -> errors_is e ErrFuel = false.
Proof.
  intros Hd. unfold processBatch.
  pose proof (advances_batch_loop (S (length batch)) Hd (NewReader batch) x
                (reader_wf_NewReader batch)) as H.
  specialize (H ltac:(unfold Reader_Len; cbn; lia)).
  destruct (processBatch_loop _ _) as [[[]|e'] [r' x1]]; [done|]. by intros [= -> ->].
Qed.
End Reader.
