(* ===== verification/Delivery.v ===== *)
(** * From one node's batcher to the other node's dispatcher

    Composes Transport (the sending side: Batcher and Fragmenter) with
    SessionReader (the receiving side: processBatch and Reassembler): what is
    enqueued on a lane is what the dispatcher is handed, in the same order.
    Without QoS the batches do not name their lane and the receiver takes them
    all for its Data lane; a message still arrives whole, as nothing else comes
    between its fragments. *)
From S2P Require Import Prelude Buffer Vle Codec WirePrim WireTransport Transport SessionReader.

(** ** Decoding the headers a batcher writes *)

Lemma writes_inj m e1 e2 : writes m e1 -> writes m e2 -> e1 = e2.
Proof.
  intros H1 H2. specialize (H1 NewWriter). rewrite (H2 NewWriter) in H1. cbn in H1.
  congruence.
Qed.

Lemma qos_ext_wf (a : bool) p : 0 <= p < 8 -> wf_extensions (if a then [qos_ext p] else []).
Proof.
  intros Hp. destruct a; [|by split; [constructor|]]. split; [|done].
  constructor; [|constructor]. split; [done|]. cbn.
  pose proof (QoS_EncodeZ64_range (mkQoS p false false false) Hp) as H. cbn in H. split; [lia|done].
Qed.

Lemma LanePriority_qos_ext p : 0 <= p < 8 -> LanePriorityFromExts [qos_ext p] = p.
Proof. revert p. by_range 8%nat. Qed.

(** The lane the receiver attributes a transport message to. *)
Definition rx_key (a : bool) (k : LaneKey) : LaneKey :=
  (if a then k.1 else QoSPriorityData, k.2).

Lemma rx_key_exts (a : bool) (k : LaneKey) : valid_key k ->
  (LanePriorityFromExts (if a then [qos_ext k.1] else []), k.2) = rx_key a k.
Proof.
  intros Hk. unfold rx_key. destruct a; [|done]. by rewrite LanePriority_qos_ext.
Qed.

Lemma frame_writes (a : bool) (k : LaneKey) sn body :
  writes (EncodeTo (mkFrame k.2 sn (if a then [qos_ext k.1] else []) body))
    (frame_hdr a k sn ++ body).
Proof.
  unfold frame_hdr, EncodeTo, Frame_Encoder, Frame_header. cbn [app frReliable
    frSeqNum frExtensions frBody]. rewrite <- app_assoc.
  assert (hasExts (if a then [qos_ext k.1] else []) = a) as -> by (by destruct a).
  apply (writes_bind _ _ [_]); [apply writes_AppendBytes|].
  apply writes_bind; [apply writes_AppendBytes|].
  apply writes_bind; [|apply writes_AppendBytes].
  unfold qos_bytes. destruct a; [|apply writes_ret].
  cbn [hZ when]. change (EncodeExtensions [qos_ext k.1]) with
    (EncodeExtension (qos_ext k.1);; (mret tt : WM unit)).
  match goal with |- writes _ ?e => rewrite <- (app_nil_r e) end.
  apply writes_bind; [|apply writes_ret].
  apply (writes_bind _ _ [_]); [apply writes_AppendBytes|]. apply writes_AppendBytes.
Qed.

Lemma frame_hdr_decodes (a : bool) (k : LaneKey) sn : valid_key k -> sn_ok sn ->
  exists h e, frame_hdr a k sn = PackHeader h :: e /\ hID h = IDTransportFrame /\
    decodes (DecodeFrame h) (mkFrame k.2 sn (if a then [qos_ext k.1] else []) []) e.
Proof.
  intros Hk Hs. set (m := mkFrame k.2 sn (if a then [qos_ext k.1] else []) []).
  destruct (Frame_round_trip m Hs (qos_ext_wf a _ Hk)) as (e & W & D).
  exists (Frame_header m), e. split; [|done].
  pose proof (writes_inj _ _ _ (frame_writes a k sn []) W) as E.
  rewrite app_nil_r in E. rewrite E. cbn [frBody m]. by rewrite app_nil_r.
Qed.

Lemma fragment_hdr_decodes (a : bool) (k : LaneKey) sn more body : valid_key k -> sn_ok sn ->
  exists h e, fragment_hdr a k sn more ++ body = PackHeader h :: e /\
    hID h = IDTransportFragment /\
    decodes_all (DecodeFragment h)
      (mkFragment k.2 more sn (if a then [qos_ext k.1] else []) body) e.
Proof.
  intros Hk Hs. set (m := mkFragment k.2 more sn (if a then [qos_ext k.1] else []) body).
  destruct (Fragment_round_trip m Hs (qos_ext_wf a _ Hk)) as (e & W & D).
  exists (Fragment_header m), e. split; [|done].
  exact (writes_inj _ _ _ (fragment_writes a k more sn body) W).
Qed.

Lemma decode_Header h rest r : 0 <= hID h < 32 -> reader_wf r ->
  Reader_Bytes r = PackHeader h :: rest -> DecodeHeader r = Ok (h, advance r 1).
Proof.
  intros Hh Hr E. unfold DecodeHeader. rewrite (stm_bind_step _ _ _ _ _ (ReadByte_cons r _ _ E)).
  cbn. by rewrite UnpackHeader_PackHeader.
Qed.

Section Delivery.
Context {D : Type}.
Variable Dispatch : Header -> Reader -> D -> result Reader * D.
(** What a complete network message does to the dispatcher's state. *)
Variable effect : bytes -> D -> D.
(** The dispatcher's invariant. *)
Variable Inv : D -> Prop.

(** The dispatcher handles the message [m]: it decodes exactly its bytes,
    whatever follows, applies its effect and keeps its invariant. *)
Definition handled (m : bytes) : Prop := exists b body,
  m = b :: body /\ body <> [] /\ IsNetworkMessageID (Z.land b HdrIDMask) = true /\
  forall r rest d, Inv d -> reader_wf r -> Reader_Bytes r = body ++ rest ->
    Dispatch (UnpackHeader b) r d = (Ok (advance r (length body)), effect m d) /\
    Inv (effect m d).

Definition set_d (x : RxState D) (d : D) : RxState D := mkRx (rx_reasm x) d (rx_closed x).
Definition set_reasm (x : RxState D) (ra : Reassembler) : RxState D :=
  mkRx ra (rx_d x) (rx_closed x).

Definition effects (ms : list bytes) (d : D) : D := fold_left (fun d m => effect m d) ms d.

Lemma Reader_Len_bytes r e : Reader_Bytes r = e -> Reader_Len r = length e.
Proof. intros <-. by rewrite Reader_Bytes_length. Qed.

Lemma handled_inv m d : handled m -> Inv d -> Inv (effect m d).
Proof.
  intros (b & body & -> & _ & _ & H) Hd.
  destruct (H (NewReader body) [] d Hd (reader_wf_NewReader _)) as [_ ?]; [|done].
  by rewrite app_nil_r.
Qed.

Lemma effects_inv ms d : Forall handled ms -> Inv d -> Inv (effects ms d).
Proof.
  intros Hms. revert d. induction Hms as [|m ms Hm _ IH]; intros d Hd; [done|].
  apply IH. by apply handled_inv.
Qed.

Lemma dispatch_one_ok m rest r x :
  handled m -> Inv (rx_d x) -> reader_wf r -> Reader_Bytes r = m ++ rest ->
  dispatch_one Dispatch (r, x) =
  (Ok tt, (advance r (length m), set_d x (effect m (rx_d x)))).
Proof.
  intros (b & body & -> & Hne & Hid & Hd) Hi Hr E. unfold dispatch_one.
  assert (Hh : DecodeHeader r = Ok (UnpackHeader b, advance r 1)).
  { unfold DecodeHeader. by rewrite (stm_bind_step _ _ _ _ _ (ReadByte_cons r _ _ E)). }
  assert (E1 : Reader_Bytes (advance r 1) = body ++ rest)
    by exact (Reader_Bytes_app r [b] _ E).
  assert (Hr1 : reader_wf (advance r 1)) by (by eapply reader_wf_cons).
  assert (E2 : Reader_Bytes (advance r (S (length body))) = rest)
    by exact (Reader_Bytes_app r (b :: body) rest E).
  unfold mbind, sem_bind. unfold decode at 1, wrap. rewrite Hh.
  cbn [reader_len call_dispatch]. unfold call_dispatch.
  rewrite (proj1 (Hd _ rest _ Hi Hr1 E1)).
  rewrite advance_advance. cbn [Nat.add reader_len].
  rewrite (Reader_Len_bytes _ _ E1), (Reader_Len_bytes _ _ E2), length_app.
  replace (length rest =? length body + length rest)%nat with false.
  2:{ symmetry. apply Nat.eqb_neq. destruct body; [done|cbn; lia]. }
  by rewrite andb_false_r.
Qed.

(** A FRAME body is handed over message by message; it ends at the end of the
    batch or at a byte that is not a network header. *)
Definition frame_end (rest : bytes) : Prop :=
  match rest with [] => True | b :: _ => IsNetworkMessageID (Z.land b HdrIDMask) = false end.

Lemma frame_messages_ok fuel : forall ms rest r x,
  Forall handled ms -> Inv (rx_d x) -> frame_end rest -> reader_wf r ->
  Reader_Bytes r = concat ms ++ rest -> (Reader_Len r < fuel)%nat ->
  dispatchFrameMessages_loop Dispatch fuel (r, x) =
  (Ok tt, (advance r (length (concat ms)), set_d x (effects ms (rx_d x)))).
Proof.
  induction fuel as [|fuel IH]; intros ms rest r x Hms Hi Hrest Hr E Hf; [lia|].
  cbn [dispatchFrameMessages_loop]. unfold mbind at 1, sem_bind at 1. cbn [reader_len].
  assert (Hx : set_d x (rx_d x) = x) by (by destruct x).
  destruct Hms as [|m ms Hm Hms].
  - cbn [concat app length effects fold_left] in *. rewrite advance_0, Hx.
    rewrite (Reader_Len_bytes _ _ E). destruct rest as [|b rest]; [done|].
    cbn [length Nat.eqb]. unfold mbind, sem_bind, decode.
    assert (PeekByte r = Ok (b, r)) as ->.
    { unfold PeekByte. unfold Reader_Bytes in E.
      by rewrite <- (Nat.add_0_r (r_off r)), <- lookup_drop, E. }
    cbn in Hrest. by rewrite Hrest.
  - cbn [concat] in *. rewrite <- app_assoc in E.
    pose proof Hm as (b & body & -> & Hne & Hid & _).
    rewrite (Reader_Len_bytes _ _ E). cbn [app length Nat.eqb].
    unfold mbind at 1, sem_bind at 1, decode at 1.
    assert (PeekByte r = Ok (b, r)) as ->.
    { unfold PeekByte. unfold Reader_Bytes in E.
      by rewrite <- (Nat.add_0_r (r_off r)), <- lookup_drop, E. }
    rewrite Hid. cbn [negb]. unfold mbind, sem_bind.
    rewrite (dispatch_one_ok (b :: body) (concat ms ++ rest)) by done.
    rewrite (IH ms rest); [| done | by apply handled_inv | done | | |].
    + rewrite advance_advance, length_app. done.
    + by eapply reader_wf_advance.
    + by apply Reader_Bytes_app.
    + pose proof (Reader_Bytes_app r _ _ E) as E'.
      rewrite (Reader_Len_bytes _ _ E'). rewrite (Reader_Len_bytes _ _ E) in Hf.
      rewrite !length_app in *. cbn [length] in Hf. lia.
Qed.

Lemma body_loop_ok fuel : forall ms r x,
  Forall handled ms -> Inv (rx_d x) -> reader_wf r ->
  Reader_Bytes r = concat ms -> (Reader_Len r < fuel)%nat ->
  exists r', dispatchFrameBody_loop Dispatch fuel (r, x) =
    (Ok tt, (r', set_d x (effects ms (rx_d x)))).
Proof.
  induction fuel as [|fuel IH]; intros ms r x Hms Hi Hr E Hf; [lia|].
  cbn [dispatchFrameBody_loop]. unfold mbind at 1, sem_bind at 1. cbn [reader_len].
  rewrite (Reader_Len_bytes _ _ E). destruct Hms as [|m ms Hm Hms].
  - exists r. cbn. by destruct x.
  - cbn [concat] in *. pose proof Hm as (b & body & -> & _).
    cbn [app length Nat.eqb]. unfold mbind, sem_bind.
    rewrite (dispatch_one_ok (b :: body) (concat ms)) by done.
    pose proof (Reader_Bytes_app r _ _ E) as E'.
    apply (IH ms); [done|by apply handled_inv|by eapply reader_wf_advance|done|].
    rewrite (Reader_Len_bytes _ _ E'). rewrite (Reader_Len_bytes _ _ E) in Hf.
    rewrite !length_app in *. cbn [length] in Hf. lia.
Qed.

(** The loop stops at the end of the batch. *)
Lemma batch_end fuel r x :
  Reader_Len r = 0%nat -> processBatch_loop Dispatch (S fuel) (r, x) = (Ok tt, (r, x)).
Proof. intros E. cbn [processBatch_loop]. unfold mbind, sem_bind. cbn. by rewrite E. Qed.

Lemma processBatch_frame (a : bool) (k : LaneKey) sn ms x :
  valid_key k -> sn_ok sn -> Forall handled ms -> Inv (rx_d x) ->
  processBatch Dispatch (frame_hdr a k sn ++ concat ms) x =
  (Ok tt, set_d x (effects ms (rx_d x))).
Proof.
  intros Hk Hs Hms Hi. destruct (frame_hdr_decodes a k sn Hk Hs) as (h & e & -> & Hh & Dc).
  set (batch := (PackHeader h :: e) ++ concat ms). unfold processBatch.
  assert (E0 : Reader_Bytes (NewReader batch) = PackHeader h :: e ++ concat ms) by done.
  assert (E1 : Reader_Bytes (advance (NewReader batch) 1) = e ++ concat ms) by done.
  assert (Hr1 : reader_wf (advance (NewReader batch) 1)).
  { eapply reader_wf_cons; [apply reader_wf_NewReader|exact E0]. }
  cbn [processBatch_loop]. unfold mbind at 1, sem_bind at 1. cbn [reader_len].
  rewrite (Reader_Len_bytes _ _ E0). cbn [length Nat.eqb].
  unfold mbind at 1, sem_bind at 1, decode at 1, wrap at 1.
  rewrite (decode_Header h _ _) by (rewrite ?Hh; done || apply reader_wf_NewReader).
  rewrite Hh. cbn [Z.eqb IDTransportFrame IDTransportKeepAlive IDTransportClose Pos.eqb].
  unfold mbind at 1, sem_bind at 1, decode at 1, wrap at 1.
  rewrite (Dc _ (concat ms) Hr1 E1).
  set (r2 := advance (advance _ 1) (length e)).
  assert (E2 : Reader_Bytes r2 = concat ms ++ []).
  { rewrite app_nil_r. by apply Reader_Bytes_app. }
  assert (Hr2 : reader_wf r2) by (by eapply reader_wf_advance).
  unfold mbind at 1, sem_bind at 1, dispatchFrameMessages, mbind at 1, sem_bind at 1.
  cbn [reader_len]. rewrite (frame_messages_ok _ ms [] r2 x Hms Hi I Hr2 E2 (Nat.lt_succ_diag_r _)).
  unfold batch at 1. cbn [app length]. rewrite batch_end; [done|].
  by rewrite (Reader_Len_bytes _ _ (Reader_Bytes_app r2 _ _ E2)).
Qed.

(** What a batch holding one FRAGMENT does, by the answer of the reassembler. *)
Lemma processBatch_fragment (a : bool) (k : LaneKey) sn more body x out ra :
  valid_key k -> sn_ok sn ->
  Reassembler_Push (rx_key a k) sn more body (rx_reasm x) = (Ok out, ra) ->
  (forall m, out = Some m -> handled m) -> Inv (rx_d x) ->
  processBatch Dispatch (fragment_hdr a k sn more ++ body) x =
  (Ok tt, set_d (set_reasm x ra)
            (match out with Some m => effect m (rx_d x) | None => rx_d x end)).
Proof.
  intros Hk Hs HP Hout Hi.
  destruct (fragment_hdr_decodes a k sn more body Hk Hs) as (h & e & -> & Hh & Dc).
  set (batch := PackHeader h :: e). unfold processBatch.
  assert (E0 : Reader_Bytes (NewReader batch) = PackHeader h :: e) by done.
  assert (E1 : Reader_Bytes (advance (NewReader batch) 1) = e) by done.
  assert (Hr1 : reader_wf (advance (NewReader batch) 1)).
  { eapply reader_wf_cons; [apply reader_wf_NewReader|exact E0]. }
  cbn [processBatch_loop]. unfold mbind at 1, sem_bind at 1. cbn [reader_len].
  rewrite (Reader_Len_bytes _ _ E0). cbn [length Nat.eqb].
  unfold mbind at 1, sem_bind at 1, decode at 1, wrap at 1.
  rewrite (decode_Header h _ _) by (rewrite ?Hh; done || apply reader_wf_NewReader).
  rewrite Hh. cbn [Z.eqb IDTransportFragment IDTransportFrame IDTransportKeepAlive
    IDTransportClose Pos.eqb].
  unfold mbind at 1, sem_bind at 1, decode at 1, wrap at 1. rewrite (Dc _ Hr1 E1).
  set (r2 := advance (advance _ 1) (length e)).
  assert (E2 : Reader_Len r2 = 0%nat).
  { exact (Reader_Len_bytes _ _ (Reader_Bytes_app _ e [] (eq_trans E1 (eq_sym (app_nil_r e))))). }
  unfold mbind at 1, sem_bind at 1, process_fragment, mbind at 1, sem_bind at 1, reassemble.
  cbn [fgExtensions fgReliable fgSeqNum fgMore fgBody].
  rewrite (rx_key_exts a k Hk), HP. destruct out as [m|].
  - unfold mbind at 1, sem_bind at 1, dispatchFrameBody.
    destruct (body_loop_ok (S (length m)) [m] (NewReader m) (mkRx ra (rx_d x) (rx_closed x)))
      as (r' & Hloop).
    + constructor; [by apply Hout|constructor].
    + done.
    + apply reader_wf_NewReader.
    + cbn. by rewrite app_nil_r.
    + unfold Reader_Len. cbn. lia.
    + rewrite Hloop. cbn [mret sem_ret]. unfold batch at 1. cbn [length].
      by rewrite batch_end.
  - cbn [mret sem_ret]. unfold batch at 1. cbn [length]. by rewrite batch_end.
Qed.

(** ** A lane as the receiver sees it *)

Variable mask : Z.

Definition lane_state (ra : Reassembler) (k : LaneKey) : reassemblyState :=
  default clear_state (ra_lanes ra !! k).

(** No message is being reassembled. *)
Definition idle (ra : Reassembler) : Prop := forall k, rs_active (lane_state ra k) = false.

Lemma delivers_frame_inv sn s gs us sn' ms :
  delivers mask sn (UFrame s gs :: us) sn' ms ->
  s = sn /\ exists ms', ms = gs ++ ms' /\ delivers mask (next_sn mask sn) us sn' ms'.
Proof.
  intros H. remember (UFrame s gs :: us) as l eqn:E.
  destruct H as [sn|sn gs' us0 sn' ms' Hn Hd|sn cs us0 sn' ms' Hn Hd]; [done| |by destruct cs].
  injection E as <- <- <-. eauto.
Qed.

Lemma delivers_frag_inv sn s more c us sn' ms :
  delivers mask sn (UFrag s more c :: us) sn' ms ->
  exists cs us' ms', s = sn /\ more = negb (is_nil cs) /\
    us = frag_units mask (next_sn mask sn) cs ++ us' /\
    delivers mask (sn_after mask (next_sn mask sn) (length cs)) us' sn' ms' /\
    ms = (c ++ concat cs) :: ms'.
Proof.
  intros H. remember (UFrag s more c :: us) as l eqn:E.
  destruct H as [sn|sn gs us0 sn' ms' Hn Hd|sn cs us0 sn' ms' Hn Hd]; [done|done|].
  destruct cs as [|c0 cs]; [done|].
  rewrite frag_units_cons in E. injection E as <- <- <- <-. eauto 10.
Qed.

Lemma delivers_nil_inv sn sn' ms : delivers mask sn [] sn' ms -> ms = [].
Proof.
  intros H. remember [] as l eqn:E. destruct H as [| |? cs]; [done|done|by destruct cs].
Qed.

(** The fragments of a message end where [more] is not set. *)
Lemma frag_units_inj cs : forall sn cs' us us', is_nil cs = is_nil cs' ->
  frag_units mask sn cs ++ us = frag_units mask sn cs' ++ us' -> cs = cs' /\ us = us'.
Proof.
  induction cs as [|c cs IH]; intros sn [|c' cs'] us us' Hn E; try done.
  rewrite !frag_units_cons in E. cbn [app] in E. injection E as Em -> E.
  destruct (IH (next_sn mask sn) cs' us us') as [-> ->]; [|done|done].
  by destruct (is_nil cs), (is_nil cs').
Qed.

Lemma delivers_frags_inv sn s cs us sn' ms : cs <> [] ->
  delivers mask sn (frag_units mask s cs ++ us) sn' ms ->
  s = sn /\ exists ms', ms = concat cs :: ms' /\
    delivers mask (sn_after mask sn (length cs)) us sn' ms'.
Proof.
  destruct cs as [|c cs]; [done|]. intros _. rewrite frag_units_cons. cbn [app].
  intros (cs' & us' & ms' & -> & Hn & E & Hd & ->)%delivers_frag_inv.
  apply frag_units_inj in E as [-> ->]; [|by destruct (is_nil cs), (is_nil cs')]. eauto.
Qed.

Lemma lane_state_set ra k st : lane_state (set_ra_lane ra k st) k = st.
Proof. unfold lane_state, set_ra_lane. cbn. by rewrite lookup_insert_eq. Qed.

Lemma lane_state_set_ne ra k k' st :
  k' <> k -> lane_state (set_ra_lane ra k st) k' = lane_state ra k'.
Proof. intros H. unfold lane_state, set_ra_lane. cbn. by rewrite lookup_insert_ne. Qed.

(** One fragment in sequence: the reassembler takes it. *)
Lemma Push_next ra k sn buf more c :
  lane_state ra k = mkReassembly sn buf true \/
    (rs_active (lane_state ra k) = false /\ buf = []) ->
  len buf + len c <= ra_MaxMessageSize ra ->
  Reassembler_Push k sn more c ra =
  if more then (Ok None, set_ra_lane ra k (mkReassembly (next_sn (ra_snMask ra) sn) (buf ++ c) true))
  else (Ok (Some (buf ++ c)), set_ra_lane ra k clear_state).
Proof.
  unfold Reassembler_Push, lane_state. intros Hst Hmax.
  assert (Hb : (if rs_active (default clear_state (ra_lanes ra !! k))
               then rs_buf (default clear_state (ra_lanes ra !! k)) else []) = buf /\
    rs_active (default clear_state (ra_lanes ra !! k)) &&
      negb (sn =? rs_expectedSN (default clear_state (ra_lanes ra !! k))) = false).
  { destruct Hst as [->|[-> ->]]; cbn; [|done]. by rewrite Z.eqb_refl. }
  destruct Hb as [-> ->]. by replace (len buf + len c >? ra_MaxMessageSize ra) with false by lia.
Qed.

Definition opt_list {A} (o : option A) : list A := match o with Some a => [a] | None => [] end.

(** What was handed to the dispatcher on lane [k]. *)
Definition log_on {A} (k : LaneKey) (log : list (Z * bool * A)) : list A :=
  snd <$> filter (fun km => km.1 = k) log.

Lemma log_on_app {A} k (l1 l2 : list (Z * bool * A)) : log_on k (l1 ++ l2) = log_on k l1 ++ log_on k l2.
Proof. unfold log_on. by rewrite filter_app, fmap_app. Qed.
Lemma log_on_same {A} k (ms : list A) : log_on k (map (pair k) ms) = ms.
Proof.
  unfold log_on. induction ms as [|m ms IH]; [done|]. cbn [map].
  rewrite filter_cons_True by done. cbn. by f_equal.
Qed.
Lemma log_on_other {A} k k' (ms : list A) : k <> k' -> log_on k (map (pair k') ms) = [].
Proof.
  intros Hn. unfold log_on. induction ms as [|m ms IH]; [done|]. cbn [map].
  rewrite filter_cons_False; [done|]. cbn. congruence.
Qed.

Definition lanes_cover (ms : LaneKey -> list bytes) (log : list (Z * bool * bytes)) : Prop :=
  Forall (fun km => valid_key km.1) log /\ forall k, valid_key k -> log_on k log = ms k.

Definition messages_fit (mx : Z) (ms : LaneKey -> list bytes) : Prop :=
  forall k, Forall handled (ms k) /\ Forall (fun m => len m <= mx) (ms k).

Lemma messages_fit_step mx ms (k : LaneKey) gs ms1 :
  messages_fit mx ms -> ms k = gs ++ ms1 ->
  messages_fit mx (upd k ms1 ms) /\ Forall handled gs.
Proof.
  intros Hf E. split; [|by destruct (Hf k) as [H _]; rewrite E in H; apply Forall_app in H as []].
  intros k'. destruct (decide (k' = k)) as [->|]; [|by rewrite upd_other].
  rewrite upd_same. destruct (Hf k) as [H1 H2]. rewrite E in H1, H2.
  by apply Forall_app in H1 as [_ ?], H2 as [_ ?].
Qed.

Lemma lanes_cover_step ms (k : LaneKey) gs ms1 log :
  valid_key k -> ms k = gs ++ ms1 -> lanes_cover (upd k ms1 ms) log ->
  lanes_cover ms (map (pair k) gs ++ log).
Proof.
  intros Hk E [Hv Hc]. split.
  { apply Forall_app. split; [|done]. by apply Forall_map, Forall_true. }
  intros k' Hk'. rewrite log_on_app, (Hc k' Hk'). destruct (decide (k' = k)) as [->|Hn].
  - by rewrite log_on_same, upd_same, E.
  - by rewrite log_on_other, upd_other.
Qed.

Lemma on_lane_cons_same k u tr : on_lane k ((k, u) :: tr) = u :: on_lane k tr.
Proof. unfold on_lane. by rewrite filter_cons_True. Qed.
Lemma on_lane_cons_other k k' u tr : k <> k' -> on_lane k ((k', u) :: tr) = on_lane k tr.
Proof. intros H. unfold on_lane. rewrite filter_cons_False; [done|]. cbn. congruence. Qed.

Lemma effects_app l1 l2 d : effects (l1 ++ l2) d = effects l2 (effects l1 d).
Proof. unfold effects. apply fold_left_app. Qed.

Lemma snd_pair_map {A} (k : A) (ms : list bytes) : (map (pair k) ms).*2 = ms.
Proof. induction ms as [|m ms IH]; [done|]. cbn. by f_equal. Qed.

(** A batch that hands the messages [gs] to the dispatcher and leaves the
    reassembler at [ra'], whatever the dispatcher's state. *)
Definition takes (batch : bytes) (ra : Reassembler) (gs : list bytes) (ra' : Reassembler) : Prop :=
  Forall handled gs /\ forall d c, Inv d ->
    processBatch Dispatch batch (mkRx ra d c) = (Ok tt, mkRx ra' (effects gs d) c).

(** The same for the batches of a source, with the lanes of the messages. *)
Inductive takes_all : list bytes -> Reassembler -> list (Z * bool * bytes) -> Reassembler -> Prop :=
  | ta_nil ra : takes_all [] ra [] ra
  | ta_cons b bs ra k gs ra1 log ra' :
      takes b ra gs ra1 -> takes_all bs ra1 log ra' ->
      takes_all (b :: bs) ra (map (pair k) gs ++ log) ra'.

Lemma takes_all_processBatches bs ra log ra' : takes_all bs ra log ra' -> forall d c, Inv d ->
  processBatches Dispatch bs (mkRx ra d c) = (Ok tt, mkRx ra' (effects log.*2 d) c).
Proof.
  induction 1 as [ra|b bs ra k gs ra1 log ra' [Hg Ht] _ IH]; intros d c Hi; [done|].
  cbn [processBatches]. rewrite (Ht d c Hi), IH by (by apply effects_inv).
  by rewrite fmap_app, effects_app, snd_pair_map.
Qed.

Lemma takes_frame (a : bool) k sn ms ra :
  valid_key k -> sn_ok sn -> Forall handled ms ->
  takes (unit_bytes a k (UFrame sn ms)) ra ms ra.
Proof. intros Hk Hs Hms. split; [done|]. intros d c Hi. by apply processBatch_frame. Qed.

Lemma takes_frag (a : bool) k sn more body ra out ra' :
  valid_key k -> sn_ok sn -> Reassembler_Push (rx_key a k) sn more body ra = (Ok out, ra') ->
  Forall handled (opt_list out) ->
  takes (unit_bytes a k (UFrag sn more body)) ra (opt_list out) ra'.
Proof.
  intros Hk Hs HP Hg. split; [done|]. intros d c Hi.
  cbn [unit_bytes].
  rewrite (processBatch_fragment a k sn more body (mkRx ra d c) out ra') by
    (done || (intros m ->; by apply Forall_cons in Hg as [? _])).
  by destruct out.
Qed.

Lemma takes_all_app bs1 ra log1 ra1 bs2 log2 ra2 :
  takes_all bs1 ra log1 ra1 -> takes_all bs2 ra1 log2 ra2 ->
  takes_all (bs1 ++ bs2) ra (log1 ++ log2) ra2.
Proof.
  induction 1 as [ra|b bs ra k gs ra1' log ra' Ht _ IH]; intros H; [done|].
  rewrite <- app_assoc. cbn [app]. econstructor; [done|by apply IH].
Qed.

(** The fragments of a message, whatever lane the receiver puts them on: the
    message is handed over with the last one. *)
Lemma takes_frags (a : bool) k cs : valid_key k -> 0 <= mask < 2 ^ 64 -> forall sn ra buf,
  sn_ok sn -> cs <> [] -> ra_snMask ra = mask ->
  lane_state ra (rx_key a k) = mkReassembly sn buf true \/
    (rs_active (lane_state ra (rx_key a k)) = false /\ buf = []) ->
  len (buf ++ concat cs) <= ra_MaxMessageSize ra -> handled (buf ++ concat cs) ->
  exists ra', takes_all (map (unit_bytes a k) (frag_units mask sn cs)) ra [(k, buf ++ concat cs)] ra' /\
    ra_snMask ra' = mask /\ ra_MaxMessageSize ra' = ra_MaxMessageSize ra /\
    forall k', lane_state ra' k' = if decide (k' = rx_key a k) then clear_state else lane_state ra k'.
Proof.
  intros Hk Hm. induction cs as [|c cs IH]; intros sn ra buf Hs Hn Hmask Hst Hl Hh; [done|].
  assert (Hl1 : len buf + len c <= ra_MaxMessageSize ra).
  { unfold len in *. cbn [concat] in Hl. rewrite !length_app in Hl. lia. }
  pose proof (Push_next ra (rx_key a k) sn buf (negb (is_nil cs)) c Hst Hl1) as HP.
  rewrite frag_units_cons. cbn [map]. destruct cs as [|c1 cs]; cbn [is_nil negb] in *.
  - exists (set_ra_lane ra (rx_key a k) clear_state). split; [|split_and!; [exact Hmask|done|]].
    + cbn [frag_units map concat] in *. rewrite app_nil_r in *.
      eapply (ta_cons _ _ _ k [buf ++ c] _ []); [|constructor].
      apply (takes_frag a k sn false c ra (Some (buf ++ c))); [done|done|exact HP|by constructor].
    + intros k'. case_decide as Ek; [subst; apply lane_state_set|by apply lane_state_set_ne].
  - destruct (IH (next_sn mask sn)
      (set_ra_lane ra (rx_key a k) (mkReassembly (next_sn mask sn) (buf ++ c) true)) (buf ++ c))
      as (ra' & Ht & Hmask' & Hmx & Hlanes).
    + by apply next_sn_ok.
    + done.
    + done.
    + left. apply lane_state_set.
    + by rewrite <- app_assoc.
    + by rewrite <- app_assoc.
    + exists ra'. split_and!; [|done|done|].
      * cbn [concat] in *. rewrite <- app_assoc in Ht.
        eapply (ta_cons _ _ _ k [] _ [_]); [|exact Ht].
        apply (takes_frag a k sn true c ra None); [done|done| |constructor]. by rewrite Hmask in HP.
      * intros k'. rewrite Hlanes. case_decide as Ek; [done|]. by apply lane_state_set_ne.
Qed.

(** A whole trace: every lane's messages are taken in order. *)
Lemma trace_takes (a : bool) mx tr : 0 <= mask < 2 ^ 64 -> contiguous mask tr -> forall ra sns ms,
  ra_snMask ra = mask -> ra_MaxMessageSize ra = mx -> idle ra ->
  Forall (fun ku => valid_key ku.1) tr -> messages_fit mx ms ->
  (forall k, valid_key k -> sn_ok (sns k) /\ exists sn', delivers mask (sns k) (on_lane k tr) sn' (ms k)) ->
  exists log ra', takes_all (trace_bytes a tr) ra log ra' /\ lanes_cover ms log.
Proof.
  intros Hm Hc. induction Hc as [|k s gs tr _ IH|k s cs tr Hn _ IH];
    intros ra sns ms Hmask Hmx Hidle Hk Hfit Hd.
  { exists [], ra. split; [constructor|]. split; [done|]. intros k Hk'.
    destruct (Hd k Hk') as (_ & sn' & Hd'). by apply delivers_nil_inv in Hd' as ->. }
  - apply Forall_cons in Hk as [Hk Htr]. cbn [fst] in Hk.
    destruct (Hd k Hk) as (Hs & sn' & Hdk). rewrite on_lane_cons_same in Hdk.
    apply delivers_frame_inv in Hdk as (-> & ms1 & E & Hdk).
    destruct (messages_fit_step _ _ _ _ _ Hfit E) as [Hfit' Hgs].
    destruct (IH ra (upd k (next_sn mask (sns k)) sns) (upd k ms1 ms)) as (log & ra' & Ht & Hc); [done..| |].
    { intros k' Hk'. destruct (decide (k' = k)) as [->|Hne].
      - rewrite !upd_same. split; [by apply next_sn_ok|by exists sn'].
      - rewrite !upd_other by done. specialize (Hd k' Hk'). by rewrite on_lane_cons_other in Hd by done. }
    exists (map (pair k) gs ++ log), ra'. split; [|by eapply lanes_cover_step].
    econstructor; [by apply takes_frame|done].
  - apply Forall_app in Hk as [Hk Htr].
    assert (Hk1 : valid_key k) by (destruct cs; [done|]; by apply Forall_cons in Hk as [? _]).
    destruct (Hd k Hk1) as (Hs & sn' & Hdk). rewrite on_lane_app, on_lane_same in Hdk.
    apply delivers_frags_inv in Hdk as (-> & ms1 & E & Hdk); [|done].
    destruct (messages_fit_step _ _ k [concat cs] ms1 Hfit E) as [Hfit' Hgs].
    destruct (Hfit k) as [_ Hlen]. rewrite E in Hlen. apply Forall_cons in Hlen as [Hlen _].
    destruct (takes_frags a k cs Hk1 Hm (sns k) ra []) as (ra1 & Ht1 & Hmask1 & Hmx1 & Hlanes);
      [done|done|done|by right|by rewrite Hmx|by apply Forall_cons in Hgs as [? _]|].
    destruct (IH ra1 (upd k (sn_after mask (sns k) (length cs)) sns) (upd k ms1 ms))
      as (log & ra' & Ht & Hc); [done|by rewrite Hmx1| |done|done| |].
    { intros k'. rewrite Hlanes. by case_decide. }
    { intros k' Hk'. destruct (decide (k' = k)) as [->|Hne].
      - rewrite !upd_same. split; [by apply sn_after_ok|by exists sn'].
      - rewrite !upd_other by done. specialize (Hd k' Hk').
        by rewrite on_lane_app, on_lane_other in Hd by done. }
    exists ([(k, concat cs)] ++ log), ra'. split; [|by apply (lanes_cover_step ms k [concat cs] ms1)].
    unfold trace_bytes. rewrite map_app. fold (trace_bytes a (map (pair k) (frag_units mask (sns k) cs))).
    rewrite trace_bytes_lane. by eapply takes_all_app.
Qed.
End Delivery.

(** ** End to end *)

(** A message the receiver of a batcher can take. *)
Definition takable {D} (Dispatch : Header -> Reader -> D -> result Reader * D)
    effect (Inv : D -> Prop) (mx : Z) (m : OutboundMessage) : Prop :=
  om_Priority m <= 7 /\ handled Dispatch effect Inv (om_Encoded m) /\ len (om_Encoded m) <= mx.

(** The units that carry [msgs] lane by lane hand [msgs] to a fresh receiver,
    also when the frames do not say their lane. *)
Lemma trace_taken {D} (Dispatch : Header -> Reader -> D -> result Reader * D)
    effect (Inv : D -> Prop) a seeds snMask mx msgs tr :
  0 <= snMask < 2 ^ 64 -> seeds_ok seeds -> Forall (takable Dispatch effect Inv mx) msgs ->
  Forall (fun ku => valid_key ku.1) tr -> contiguous (normalizeSNMask snMask) tr ->
  (forall k, valid_key k -> exists sn',
     delivers (normalizeSNMask snMask) (seeds k.1 k.2) (on_lane k tr) sn' (sent_on k msgs)) ->
  exists log ra',
    takes_all Dispatch effect Inv (trace_bytes a tr) (NewReassembler mx snMask) log ra' /\
    Forall (fun km => valid_key km.1) log /\
    forall k, valid_key k -> log_on k log = sent_on k msgs.
Proof.
  intros Hm Hs Hmsgs Hk Hc Hd. destruct (normalizeSNMask_idem snMask Hm) as [_ Hnm].
  assert (Hsent : forall k (P : bytes -> Prop), (forall m, m ∈ msgs -> P (om_Encoded m)) ->
                  Forall P (sent_on k msgs)).
  { intros k P HP. unfold sent_on. apply Forall_fmap, Forall_forall.
    intros m [_ Hin]%list_elem_of_filter. by apply HP. }
  rewrite Forall_forall in Hmsgs.
  apply (trace_takes Dispatch effect Inv (normalizeSNMask snMask) a mx tr Hnm Hc
    (NewReassembler mx snMask) (fun k => seeds k.1 k.2) (fun k => sent_on k msgs)); try done.
  - intros k. split; apply Hsent; intros m Hin; by apply Hmsgs.
  - intros k Hk'. split; [apply Hs|by apply Hd].
Qed.

(** Everything enqueued is taken by the receiver, in the order of its lane. *)
Lemma batcher_takes {D} (Dispatch : Header -> Reader -> D -> result Reader * D)
    effect (Inv : D -> Prop) bs a seeds snMask mx msgs :
  16 < bs -> 0 <= snMask < 2 ^ 64 -> seeds_ok seeds ->
  Forall (takable Dispatch effect Inv mx) msgs ->
  exists batches b' log ra',
    send_all (NewBatcherWithLaneSeeds bs a seeds snMask) msgs = (Ok tt, (b', batches)) /\
    takes_all Dispatch effect Inv batches (NewReassembler mx snMask) log ra' /\
    Forall (fun km => valid_key km.1) log /\
    forall k, valid_key k -> log_on k log = sent_on k msgs.
Proof.
  intros Hb Hm Hs Hmsgs.
  destruct (send_all_ok bs a seeds snMask msgs Hb Hm Hs) as (tr & b' & E & Hk & _ & Hct & Hd).
  { eapply Forall_impl; [exact Hmsgs|]. intros m (? & (b & body & -> & _) & _). done. }
  destruct (trace_taken Dispatch effect Inv a seeds snMask mx msgs tr) as (log & ra' & H); [done..|].
  by exists (trace_bytes a tr), b', log, ra'.
Qed.

(** Everything enqueued reaches the dispatcher, in the order of its lane. *)
Lemma batcher_to_dispatcher {D} (Dispatch : Header -> Reader -> D -> result Reader * D)
    effect (Inv : D -> Prop) bs a seeds snMask mx msgs (d : D) :
  16 < bs -> 0 <= snMask < 2 ^ 64 -> seeds_ok seeds ->
  Forall (takable Dispatch effect Inv mx) msgs -> Inv d ->
  exists batches b' log x',
    send_all (NewBatcherWithLaneSeeds bs a seeds snMask) msgs = (Ok tt, (b', batches)) /\
    processBatches Dispatch batches (mkRx (NewReassembler mx snMask) d []) = (Ok tt, x') /\
    rx_d x' = effects effect log.*2 d /\
    Forall (fun km => valid_key km.1) log /\
    forall k, valid_key k -> log_on k log = sent_on k msgs.
Proof.
  intros Hb Hm Hs Hmsgs Hi.
  destruct (batcher_takes Dispatch effect Inv bs a seeds snMask mx msgs Hb Hm Hs Hmsgs)
    as (batches & b' & log & ra' & E & Ht & Hv & Hc).
  eexists batches, b', log, _. split; [done|].
  split; [by eapply (takes_all_processBatches _ _ _ _ _ _ _ Ht)|]. by split_and!.
Qed.
