(* ===== verification/Matching.v ===== *)
(** * internal/session/matching.go: matching listeners

    One entry per outstanding INTEREST of a Publisher or Querier, counting the
    remote declarations that match it.  A callback is a delivery in the output
    of an operation: the interest, the listener and the status.  Deliveries to
    different listeners come out in the order of [map_to_list]; the code's
    order over a Go map is unspecified, and the theorems speak of one listener
    at a time. *)
From S2P Require Import Prelude KeyExpr.

Inductive MatchingKind := MatchingSubscribers | MatchingQueryables.

#[export] Instance MatchingKind_eq_dec : EqDecision MatchingKind.
Proof. solve_decision. Defined.

(** [matchingDeclKey]: the peer's ZID bytes and the entity id. *)
Abbreviation declKey := (list Z * Z)%type (only parsing).

(** Each listener: does it have an [onEntryRemoved] hook? *)
Record matchingEntry := mkEntry {
  me_keyExpr : KeyExpr; me_kind : MatchingKind; me_initialDone : bool;
  me_declarations : gset (list Z * Z); me_matchCount : Z;
  me_nextListenerID : Z; me_listeners : gmap Z bool }.

Abbreviation registry := (gmap Z matchingEntry) (only parsing).

(** A delivery: interest id, listener id, [MatchingStatus.Matching]. *)
Abbreviation delivery := (Z * Z * bool)%type (only parsing).

Definition status (e : matchingEntry) : bool := me_matchCount e >? 0.

(** Calls to every listener of an entry. *)
Definition deliver_all (interestID : Z) (e : matchingEntry) (st : bool) :
    list (Z * Z * bool) :=
  (fun l => (interestID, l, st)) <$> (map_to_list (me_listeners e)).*1.

Definition RegisterMatching (interestID : Z) (ke : KeyExpr) (kind : MatchingKind)
    (reg : registry) : registry :=
  <[interestID := mkEntry ke kind false ∅ 0 0 ∅]> reg.

(** The hooks of the dropped entry's listeners run. *)
Definition UnregisterMatching (interestID : Z) (reg : registry) : registry * list Z :=
  match reg !! interestID with
  | None => (reg, [])
  | Some e =>
      (delete interestID reg,
       (filter (fun l => l.2 = true) (map_to_list (me_listeners e))).*1)
  end.

Definition set_listeners (e : matchingEntry) (next : Z) (ls : gmap Z bool) : matchingEntry :=
  mkEntry (me_keyExpr e) (me_kind e) (me_initialDone e) (me_declarations e)
    (me_matchCount e) next ls.

(** [None] is [(0, false)]; a status is delivered at once after the snapshot. *)
Definition AttachMatchingListener (interestID : Z) (hook : bool) (reg : registry) :
    option Z * registry * list (Z * Z * bool) :=
  match reg !! interestID with
  | None => (None, reg, [])
  | Some e =>
      let id := uint32 (me_nextListenerID e + 1) in
      let e' := set_listeners e id (<[id := hook]> (me_listeners e)) in
      (Some id, <[interestID := e']> reg,
       if me_initialDone e then [(interestID, id, status e)] else [])
  end.

Definition DetachMatchingListener (interestID listenerID : Z) (reg : registry) : registry :=
  match reg !! interestID with
  | None => reg
  | Some e =>
      <[interestID := set_listeners e (me_nextListenerID e)
                        (delete listenerID (me_listeners e))]> reg
  end.

Definition GetMatchingStatus (interestID : Z) (reg : registry) : option bool :=
  status <$> reg !! interestID.

Definition set_declarations (e : matchingEntry) (ds : gset (list Z * Z)) : matchingEntry :=
  mkEntry (me_keyExpr e) (me_kind e) (me_initialDone e) ds (Z.of_nat (size ds))
    (me_nextListenerID e) (me_listeners e).

(** The loop body of [applyMatchingDelta] on one entry: the new entry and the
    status its listeners are told, if any. *)
Definition entry_delta (kind : MatchingKind) (key : declKey) (remoteKE : KeyExpr)
    (declare : bool) (e : matchingEntry) : matchingEntry * option bool :=
  if bool_decide (me_kind e <> kind) then (e, None)
  else if declare && negb (intersects (me_keyExpr e) remoteKE) then (e, None)
  else
    let before := me_matchCount e in
    if bool_decide (key ∈ me_declarations e) && declare then (e, None)
    else if negb (bool_decide (key ∈ me_declarations e)) && negb declare then (e, None)
    else
      let e' := set_declarations e
                  (if declare then {[key]} ∪ me_declarations e
                   else me_declarations e ∖ {[key]}) in
      if negb (me_initialDone e) then (e', None)
      else if ((before =? 0) && (me_matchCount e' >? 0))
              || ((before >? 0) && (me_matchCount e' =? 0))
      then (e', Some (status e'))
      else (e', None).

Definition applyMatchingDelta (kind : MatchingKind) (srcZID : bytes) (entityID : Z)
    (remoteKE : KeyExpr) (declare : bool) (reg : registry) :
    registry * list (Z * Z * bool) :=
  let delta e := entry_delta kind (srcZID, entityID) remoteKE declare e in
  ((fun e => (delta e).1) <$> reg,
   ie ← map_to_list reg;
   match (delta ie.2).2 with Some st => deliver_all ie.1 ie.2 st | None => [] end).

Definition onMatchingDeclare kind srcZID entityID remoteKE :=
  applyMatchingDelta kind srcZID entityID remoteKE true.
Definition onMatchingUndeclare kind srcZID entityID remoteKE :=
  applyMatchingDelta kind srcZID entityID remoteKE false.

Definition set_initialDone (e : matchingEntry) : matchingEntry :=
  mkEntry (me_keyExpr e) (me_kind e) true (me_declarations e) (me_matchCount e)
    (me_nextListenerID e) (me_listeners e).

(** The first result: does the id belong to a matching entry? *)
Definition onMatchingSnapshotDone (interestID : Z) (reg : registry) :
    bool * registry * list (Z * Z * bool) :=
  match reg !! interestID with
  | None => (false, reg, [])
  | Some e =>
      if me_initialDone e then (true, reg, [])
      else (true, <[interestID := set_initialDone e]> reg,
            deliver_all interestID e (status e))
  end.

Definition reset_entry (e : matchingEntry) : matchingEntry :=
  mkEntry (me_keyExpr e) (me_kind e) false ∅ 0 (me_nextListenerID e) (me_listeners e).

Definition ResetMatching (reg : registry) : registry := reset_entry <$> reg.

(** ** Reachable states *)

(** What the session did with the registry. *)
Inductive mop :=
  | MRegister (id : Z) (ke : KeyExpr) (kind : MatchingKind)
  | MUnregister (id : Z)
  | MAttach (id : Z) | MDetach (id : Z)
  | MDeclare (kind : MatchingKind) (key : list Z * Z) (ke : KeyExpr)
  | MUndeclare (kind : MatchingKind) (key : list Z * Z)
  | MSnapshot (id : Z)
  | MReset.

(** One operation under the registry's mutex, with its deliveries. *)
Inductive mstep : mop -> registry -> list (Z * Z * bool) -> registry -> Prop :=
  | ms_register id ke kind reg :
      mstep (MRegister id ke kind) reg [] (RegisterMatching id ke kind reg)
  | ms_unregister id reg : mstep (MUnregister id) reg [] (UnregisterMatching id reg).1
  | ms_attach id hook reg r reg' out :
      AttachMatchingListener id hook reg = (r, reg', out) -> mstep (MAttach id) reg out reg'
  | ms_detach id l reg : mstep (MDetach id) reg [] (DetachMatchingListener id l reg)
  | ms_declare kind zid eid ke reg reg' out :
      onMatchingDeclare kind zid eid ke reg = (reg', out) ->
      mstep (MDeclare kind (zid, eid) ke) reg out reg'
  | ms_undeclare kind zid eid ke reg reg' out :
      onMatchingUndeclare kind zid eid ke reg = (reg', out) ->
      mstep (MUndeclare kind (zid, eid)) reg out reg'
  | ms_snapshot id reg r reg' out :
      onMatchingSnapshotDone id reg = (r, reg', out) -> mstep (MSnapshot id) reg out reg'
  | ms_reset reg : mstep MReset reg [] (ResetMatching reg).

(** The operations so far, the last one first, the registry and everything
    delivered. *)
Inductive mreach : list mop -> registry -> list (Z * Z * bool) -> Prop :=
  | mr_init : mreach [] ∅ []
  | mr_step h reg log op out reg' :
      mreach h reg log -> mstep op reg out reg' -> mreach (op :: h) reg' (log ++ out).

(** ** Which declarations match an interest

    Read off the operations alone: the registration of the interest is the last
    operation on it, and a declaration made since counts when its kind is the
    interest's, its key expression intersects the interest's, and it was
    neither withdrawn nor forgotten by a reconnect. *)

(** The operation begins or ends the interest. *)
Definition of_interest (id : Z) (op : mop) : Prop :=
  match op with MRegister i _ _ | MUnregister i => i = id | _ => False end.

(** The operation ends the declaration. *)
Definition withdraws (kind : MatchingKind) (key : list Z * Z) (op : mop) : Prop :=
  match op with MUndeclare k d => k = kind /\ d = key | MReset => True | _ => False end.

Definition matched_since (kind : MatchingKind) (ke : KeyExpr) (since : list mop)
    (key : list Z * Z) : Prop :=
  exists later remote before, since = later ++ MDeclare kind key remote :: before /\
    intersects ke remote = true /\ Forall (fun op => ~ withdraws kind key op) later.

Definition registered_since (id : Z) (ke : KeyExpr) (kind : MatchingKind)
    (since h : list mop) : Prop :=
  exists older, h = since ++ MRegister id ke kind :: older /\
    Forall (fun op => ~ of_interest id op) since.

(** ** The invariant: counts agree with the set of declarations *)

Definition entry_ok (e : matchingEntry) : Prop :=
  me_matchCount e = Z.of_nat (size (me_declarations e)).

Definition registry_ok (reg : registry) : Prop := map_Forall (fun _ e => entry_ok e) reg.

Lemma entry_delta_ok kind key ke declare e :
  entry_ok e -> entry_ok (entry_delta kind key ke declare e).1.
Proof.
  intros H. unfold entry_delta.
  repeat match goal with |- context [if ?b then _ else _] => destruct b; cbn; try done end.
Qed.

Lemma mstep_ok op reg out reg' : mstep op reg out reg' -> registry_ok reg -> registry_ok reg'.
Proof.
  intros Hs Hok. destruct Hs as [id ke kind reg|id reg|id hook reg r reg' out H|id l reg
    |kind zid eid ke reg reg' out H|kind zid eid ke reg reg' out H|id reg r reg' out H|reg].
  - by apply map_Forall_insert_2.
  - unfold UnregisterMatching. destruct (reg !! id); [by apply map_Forall_delete|done].
  - unfold AttachMatchingListener in H. destruct (reg !! id) as [e|] eqn:E; simplify_eq; [|done].
    apply map_Forall_insert_2; [exact (Hok id e E)|done].
  - unfold DetachMatchingListener. destruct (reg !! id) as [e|] eqn:E; [|done].
    apply map_Forall_insert_2; [exact (Hok id e E)|done].
  - injection H as <- _. intros i e He. apply lookup_fmap_Some in He as (e0 & <- & He).
    by apply entry_delta_ok, (Hok i).
  - injection H as <- _. intros i e He. apply lookup_fmap_Some in He as (e0 & <- & He).
    by apply entry_delta_ok, (Hok i).
  - unfold onMatchingSnapshotDone in H. destruct (reg !! id) as [e|] eqn:E; simplify_eq; [|done].
    destruct (me_initialDone e); simplify_eq; [done|].
    apply map_Forall_insert_2; [exact (Hok id e E)|done].
  - intros i e He. apply lookup_fmap_Some in He as (e0 & <- & He). done.
Qed.

Lemma mreach_ok h reg log : mreach h reg log -> registry_ok reg.
Proof.
  induction 1 as [|h reg log op out reg' _ IH Hs]; [apply map_Forall_empty|].
  by eapply mstep_ok.
Qed.

(** ** What a listener was told last *)

Definition told (id l : Z) (log : list (Z * Z * bool)) : list bool :=
  snd <$> filter (fun d => d.1 = (id, l)) log.

Lemma told_app id l log out : told id l (log ++ out) = told id l log ++ told id l out.
Proof. unfold told. by rewrite filter_app, fmap_app. Qed.

Lemma told_deliver_other id id' l e st : id <> id' -> told id l (deliver_all id' e st) = [].
Proof.
  intros Hn. unfold told, deliver_all. induction (map_to_list (me_listeners e)).*1 as [|x xs IH];
    [done|]. cbn [fmap list_fmap]. rewrite filter_cons_False; [done|]. cbn. congruence.
Qed.

Lemma told_deliver_ids id l (xs : list Z) st : NoDup xs ->
  told id l ((fun x => (id, x, st)) <$> xs) = if decide (l ∈ xs) then [st] else [].
Proof.
  unfold told. induction 1 as [|x xs Hx Hnd IH]; [done|]. cbn [fmap list_fmap].
  destruct (decide (x = l)) as [->|Hn].
  - rewrite filter_cons_True by done. cbn [fmap list_fmap snd].
    rewrite IH, decide_False by done. rewrite decide_True by (by left). done.
  - rewrite filter_cons_False by (cbn; congruence). rewrite IH.
    repeat case_decide; set_solver.
Qed.

Lemma told_deliver_same id l e st :
  told id l (deliver_all id e st) = if decide (is_Some (me_listeners e !! l)) then [st] else [].
Proof.
  unfold deliver_all. rewrite told_deliver_ids by apply NoDup_fst_map_to_list.
  assert (l ∈ (map_to_list (me_listeners e)).*1 <-> is_Some (me_listeners e !! l)) as Hiff.
  { rewrite list_elem_of_fmap. split.
    - intros ([l' h] & -> & H%elem_of_map_to_list). by exists h.
    - intros [h H]. exists (l, h). split; [done|]. by apply elem_of_map_to_list. }
  repeat case_decide; naive_solver.
Qed.

Lemma told_bind_absent id l (xs : list (Z * matchingEntry)) f :
  (forall i e, i <> id -> told id l (f (i, e)) = []) -> id ∉ xs.*1 ->
  told id l (xs ≫= f) = [].
Proof.
  intros Hf. induction xs as [|[i e] xs IH]; [done|].
  rewrite bind_cons, fmap_cons, not_elem_of_cons.
  intros [Hi Hx]. cbn [fst] in Hi. by rewrite told_app, Hf, IH by congruence.
Qed.

Lemma told_bind id l (xs : list (Z * matchingEntry)) f e :
  (forall i e, i <> id -> told id l (f (i, e)) = []) -> NoDup xs.*1 -> (id, e) ∈ xs ->
  told id l (xs ≫= f) = told id l (f (id, e)).
Proof.
  intros Hf. induction xs as [|[i e0] xs IH]; [by intros _ ?%elem_of_nil|].
  rewrite bind_cons, fmap_cons. cbn [fst].
  rewrite NoDup_cons, elem_of_cons. intros [Hi Hnd] [[= -> ->]|Hin]; rewrite told_app.
  - rewrite told_bind_absent by done. by rewrite app_nil_r.
  - rewrite Hf; [by apply IH|]. intros ->. apply Hi, list_elem_of_fmap. by exists (id, e).
Qed.

(** The deliveries of a declaration, seen by one listener. *)
Lemma told_delta kind zid eid ke declare reg id l e :
  reg !! id = Some e ->
  told id l (applyMatchingDelta kind zid eid ke declare reg).2 =
  match (entry_delta kind (zid, eid) ke declare e).2 with
  | Some st => if decide (is_Some (me_listeners e !! l)) then [st] else []
  | None => []
  end.
Proof.
  intros He. unfold applyMatchingDelta. cbn [snd].
  rewrite (told_bind id l _ _ e); [| |apply NoDup_fst_map_to_list|by apply elem_of_map_to_list].
  - cbn [fst snd]. destruct (entry_delta _ _ _ _ e).2; [apply told_deliver_same|done].
  - intros i e' Hi. cbn. destruct (entry_delta _ _ _ _ e').2; [|done].
    by apply told_deliver_other.
Qed.

Lemma status_size e : entry_ok e -> status e = bool_decide (me_declarations e <> ∅).
Proof.
  intros H. unfold status. rewrite H. destruct (decide (me_declarations e = ∅)) as [Hd|Hd].
  - rewrite bool_decide_eq_false_2 by (by intros ?). rewrite Hd, size_empty. done.
  - rewrite bool_decide_eq_true_2 by done.
    assert (size (me_declarations e) <> 0%nat); [|lia].
    intros Hs. apply size_empty_iff in Hs. by apply leibniz_equiv in Hs.
Qed.

(** After the snapshot an entry notifies exactly when its status changes. *)
Lemma entry_delta_notifies kind key ke declare e :
  entry_ok e -> me_initialDone e = true ->
  let e' := (entry_delta kind key ke declare e).1 in
  me_initialDone e' = true /\ me_listeners e' = me_listeners e /\
  (entry_delta kind key ke declare e).2 =
    if bool_decide (status e' = status e) then None else Some (status e').
Proof.
  intros Hok Hd. unfold entry_delta.
  case_bool_decide; [by cbn; rewrite bool_decide_eq_true_2|].
  destruct (declare && negb (intersects (me_keyExpr e) ke));
    [by cbn; rewrite bool_decide_eq_true_2|].
  destruct (bool_decide (key ∈ me_declarations e) && declare);
    [by cbn; rewrite bool_decide_eq_true_2|].
  destruct (negb (bool_decide (key ∈ me_declarations e)) && negb declare);
    [by cbn; rewrite bool_decide_eq_true_2|].
  set (e' := set_declarations e _). rewrite Hd. cbn [negb].
  assert (Hc : 0 <= me_matchCount e /\ 0 <= me_matchCount e') by (rewrite Hok; cbn; lia).
  unfold status. destruct (_ || _) eqn:E; cbn [fst snd]; (split; [done|]); (split; [done|]);
    case_bool_decide as Hs; try done; exfalso; revert E Hs;
    destruct (Z.gtb_spec (me_matchCount e') 0), (Z.gtb_spec (me_matchCount e) 0),
      (Z.eqb_spec (me_matchCount e) 0), (Z.eqb_spec (me_matchCount e') 0); try lia; done.
Qed.

Lemma entry_delta_undone kind key ke declare e :
  me_initialDone e = false ->
  (entry_delta kind key ke declare e).2 = None /\
  me_initialDone (entry_delta kind key ke declare e).1 = false.
Proof.
  intros Hd. unfold entry_delta. rewrite Hd. cbn [negb].
  repeat match goal with |- context [if ?b then _ else _] => destruct b; try done end.
Qed.

(** Every listener of an entry whose snapshot is complete was last told the
    current status. *)
Definition informed (reg : registry) (log : list (Z * Z * bool)) : Prop :=
  forall id e l, reg !! id = Some e -> me_initialDone e = true ->
    is_Some (me_listeners e !! l) -> last (told id l log) = Some (status e).

Lemma informed_delta kind zid eid ke declare reg log :
  registry_ok reg -> informed reg log ->
  informed (applyMatchingDelta kind zid eid ke declare reg).1
    (log ++ (applyMatchingDelta kind zid eid ke declare reg).2).
Proof.
  intros Hok Hi id e' l He' Hd Hl. cbn [applyMatchingDelta fst] in He'.
  apply lookup_fmap_Some in He' as (e & <- & He).
  rewrite told_app, (told_delta _ _ _ _ _ _ id l e He).
  destruct (me_initialDone e) eqn:Hde.
  - destruct (entry_delta_notifies kind (zid, eid) ke declare e (Hok _ _ He) Hde)
      as (_ & Hls & Hn). rewrite Hls in Hl. rewrite Hn.
    case_bool_decide as Hs.
    + rewrite app_nil_r, Hs. by apply Hi.
    + rewrite decide_True by done. by rewrite last_snoc.
  - by rewrite (proj2 (entry_delta_undone kind (zid, eid) ke declare e Hde)) in Hd.
Qed.

Lemma mstep_informed op reg log out reg' :
  mstep op reg out reg' -> registry_ok reg -> informed reg log -> informed reg' (log ++ out).
Proof.
  intros Hs Hok Hi. destruct Hs as [id ke kind reg|id reg|id hook reg r reg' out H|id l reg
    |kind zid eid ke reg reg' out H|kind zid eid ke reg reg' out H|id reg r reg' out H|reg];
    rewrite ?app_nil_r.
  - intros i e l He. unfold RegisterMatching in He.
    apply lookup_insert_Some in He as [[<- <-]|[_ He]]; [done|by apply Hi].
  - unfold UnregisterMatching. destruct (reg !! id); [|done]. intros i e l He.
    cbn [fst] in He. apply lookup_delete_Some in He as [_ He]. by apply Hi.
  - unfold AttachMatchingListener in H. destruct (reg !! id) as [e0|] eqn:E; simplify_eq;
      [|by rewrite app_nil_r].
    set (nid := uint32 _). intros i e l He Hd Hl. rewrite told_app.
    apply lookup_insert_Some in He as [[<- <-]|[Hne He]].
    + cbn in Hd. rewrite Hd. change (status (set_listeners e0 nid _)) with (status e0).
      cbn [set_listeners me_listeners] in Hl.
      destruct (decide (l = nid)) as [->|Hn].
      * unfold told at 2. rewrite filter_cons_True by done. cbn. by rewrite last_snoc.
      * unfold told at 2. rewrite filter_cons_False by (cbn; congruence). cbn.
        rewrite app_nil_r. apply Hi; [done|done|]. by rewrite lookup_insert_ne in Hl.
    + destruct (me_initialDone e0); [|rewrite app_nil_r; by apply Hi].
      unfold told at 2. rewrite filter_cons_False by (cbn; congruence). cbn.
      rewrite app_nil_r. by apply Hi.
  - unfold DetachMatchingListener. destruct (reg !! id) as [e0|] eqn:E; [|done].
    intros i e l' He Hd Hl. apply lookup_insert_Some in He as [[<- <-]|[_ He]]; [|by apply Hi].
    cbn in Hd, Hl. apply (Hi id e0 l'); [done|done|].
    destruct Hl as [h Hl]. apply lookup_delete_Some in Hl as [_ Hl]. by exists h.
  - injection H as <- <-. by apply informed_delta.
  - injection H as <- <-. by apply informed_delta.
  - unfold onMatchingSnapshotDone in H. destruct (reg !! id) as [e0|] eqn:E; simplify_eq;
      [|by rewrite app_nil_r].
    destruct (me_initialDone e0) eqn:Hde; simplify_eq; [by rewrite app_nil_r|].
    intros i e l He Hd Hl. rewrite told_app.
    apply lookup_insert_Some in He as [[<- <-]|[Hne He]].
    + rewrite told_deliver_same. cbn in Hl. rewrite decide_True by done. by rewrite last_snoc.
    + rewrite told_deliver_other by done. rewrite app_nil_r. by apply Hi.
  - intros i e l He Hd. apply lookup_fmap_Some in He as (e0 & <- & He). done.
Qed.

Lemma mreach_informed h reg log : mreach h reg log -> informed reg log.
Proof.
  induction 1 as [|h reg log op out reg' Hr IH Hs]; [by intros id e l; rewrite lookup_empty|].
  apply (mstep_informed op reg); [done|by eapply mreach_ok|done].
Qed.

Lemma entry_delta_in kind key ke e :
  key ∈ me_declarations e -> entry_delta kind key ke true e = (e, None).
Proof.
  intros Hin. unfold entry_delta. case_bool_decide; [done|]. destruct (true && _); [done|].
  by rewrite (bool_decide_eq_true_2 (key ∈ _)).
Qed.

(** After a declaration, an entry of its kind that it matches holds it. *)
Lemma entry_delta_declared kind key ke e :
  let e' := (entry_delta kind key ke true e).1 in
  (me_kind e <> kind /\ e' = e) \/
  (intersects (me_keyExpr e) ke = false /\ e' = e) \/
  (me_kind e = kind /\ key ∈ me_declarations e').
Proof.
  unfold entry_delta. case_bool_decide as Hk; [by left|]. right.
  destruct (intersects (me_keyExpr e) ke); [|by left]. right. split; [done|].
  cbn [andb negb]. rewrite ?andb_true_r, ?andb_false_r.
  case_bool_decide; [done|]. set (ds := {[key]} ∪ _).
  assert (key ∈ ds) by (unfold ds; set_solver).
  destruct (negb _); [done|]. by destruct (_ || _).
Qed.

(** ** The recorded declarations are those that match *)

Lemma matched_since_nil kind ke key : ~ matched_since kind ke [] key.
Proof. intros ([|? ?] & ? & ? & ? & _); discriminate. Qed.

Lemma matched_since_cons kind ke op since key :
  matched_since kind ke (op :: since) key <->
  (exists remote, op = MDeclare kind key remote /\ intersects ke remote = true) \/
  (~ withdraws kind key op /\ matched_since kind ke since key).
Proof.
  split.
  - intros ([|o later] & remote & before & Heq & Hi & Hl); simplify_list_eq.
    + left. by exists remote.
    + right. apply Forall_cons in Hl as [Ho Hl]. split; [done|]. by exists later, remote, before.
  - intros [(remote & -> & Hi)|[Ho (later & remote & before & -> & Hi & Hl)]].
    + by exists [], remote, since.
    + exists (op :: later), remote, before. split_and!; [done..|]. by apply Forall_cons.
Qed.

(** An operation that is no declaration and no withdrawal of the kind. *)
Lemma matched_since_skip kind ke op since key :
  match op with MDeclare _ _ _ => False | _ => ~ withdraws kind key op end ->
  matched_since kind ke (op :: since) key <-> matched_since kind ke since key.
Proof. rewrite matched_since_cons. destruct op; naive_solver. Qed.

Definition recorded (since : list mop) (e : matchingEntry) : Prop :=
  forall key, key ∈ me_declarations e <->
    matched_since (me_kind e) (me_keyExpr e) since key.

(** What is recorded for an interest is what matches it. *)
Definition faithful (h : list mop) (reg : registry) : Prop :=
  forall id e, reg !! id = Some e ->
    exists since, registered_since id (me_keyExpr e) (me_kind e) since h /\ recorded since e.

Lemma registered_since_cons id ke kind since op h :
  ~ of_interest id op -> registered_since id ke kind since h ->
  registered_since id ke kind (op :: since) (op :: h).
Proof.
  intros Ho (older & -> & Hs). exists older. split; [done|]. by apply Forall_cons.
Qed.

Lemma entry_delta_frame kind key ke declare e :
  me_keyExpr (entry_delta kind key ke declare e).1 = me_keyExpr e /\
  me_kind (entry_delta kind key ke declare e).1 = me_kind e.
Proof.
  unfold entry_delta.
  repeat match goal with |- context [if ?b then _ else _] => destruct b; cbn; try done end.
Qed.

Lemma entry_delta_declarations kind key ke declare e k :
  k ∈ me_declarations (entry_delta kind key ke declare e).1 <->
  if decide (me_kind e = kind /\ k = key)
  then (if declare then intersects (me_keyExpr e) ke = true \/ k ∈ me_declarations e else False)
  else k ∈ me_declarations e.
Proof.
  unfold entry_delta. case_bool_decide as Hk; [by rewrite decide_False by naive_solver|].
  assert (me_kind e = kind) as <- by (by destruct (decide (me_kind e = kind))). clear Hk.
  destruct declare; cbn [andb negb].
  - destruct (intersects (me_keyExpr e) ke); cbn [negb]; [|case_decide; naive_solver].
    case_bool_decide as Hin; cbn [andb negb]; [case_decide; naive_solver|].
    destruct (negb _); [|destruct (_ || _)]; cbn; case_decide; set_solver.
  - rewrite andb_false_r, andb_true_r. case_bool_decide as Hin; cbn [negb];
      [|case_decide; naive_solver].
    destruct (negb _); [|destruct (_ || _)]; cbn; case_decide; set_solver.
Qed.

Lemma recorded_declare kind key ke since e :
  recorded since e ->
  recorded (MDeclare kind key ke :: since) (entry_delta kind key ke true e).1.
Proof.
  intros Hrec k. destruct (entry_delta_frame kind key ke true e) as [-> ->].
  rewrite entry_delta_declarations, matched_since_cons, <- (Hrec k). cbn [withdraws].
  case_decide; naive_solver.
Qed.

Lemma recorded_undeclare kind key ke since e :
  recorded since e ->
  recorded (MUndeclare kind key :: since) (entry_delta kind key ke false e).1.
Proof.
  intros Hrec k. destruct (entry_delta_frame kind key ke false e) as [-> ->].
  rewrite entry_delta_declarations, matched_since_cons, <- (Hrec k). cbn [withdraws].
  case_decide; naive_solver.
Qed.

(** Every entry of the new registry is one of the old, touched by an operation
    that keeps the account. *)
Definition kept (op : mop) (reg : registry) (id : Z) (e' : matchingEntry) : Prop :=
  exists e, reg !! id = Some e /\ me_keyExpr e' = me_keyExpr e /\ me_kind e' = me_kind e /\
    ~ of_interest id op /\ forall since, recorded since e -> recorded (op :: since) e'.

Lemma faithful_kept op h reg id e' :
  faithful h reg -> kept op reg id e' ->
  exists since, registered_since id (me_keyExpr e') (me_kind e') since (op :: h) /\
    recorded since e'.
Proof.
  intros Hf (e & He & Hk & Hd & Ho & Hrec). destruct (Hf id e He) as (since & Hr & Hs).
  exists (op :: since). split; [|by apply Hrec].
  rewrite Hk, Hd. by apply registered_since_cons.
Qed.

(** An operation on listeners or on another interest. *)
Lemma kept_same op reg id e e' :
  reg !! id = Some e -> me_keyExpr e' = me_keyExpr e -> me_kind e' = me_kind e ->
  me_declarations e' = me_declarations e -> ~ of_interest id op ->
  match op with MDeclare _ _ _ | MUndeclare _ _ | MReset => False | _ => True end ->
  kept op reg id e'.
Proof.
  intros He Hk Hd Hs Ho Hop. exists e. split_and!; [done..|]. intros since Hrec key.
  rewrite Hs, Hk, Hd, (Hrec key), matched_since_skip; [done|]. destruct op; naive_solver.
Qed.

Lemma kept_update op reg id i e f e' :
  reg !! i = Some e -> <[i := f]> reg !! id = Some e' ->
  me_keyExpr f = me_keyExpr e -> me_kind f = me_kind e ->
  me_declarations f = me_declarations e -> (forall j, ~ of_interest j op) ->
  match op with MDeclare _ _ _ | MUndeclare _ _ | MReset => False | _ => True end ->
  kept op reg id e'.
Proof.
  intros He Hl Hk Hd Hs Ho Hop.
  apply lookup_insert_Some in Hl as [[<- <-]|[_ Hl]]; [by eapply kept_same|].
  by apply (kept_same _ _ _ e').
Qed.

Ltac solve_kept :=
  solve [eapply kept_same; eauto; cbn; intuition congruence
        |eapply kept_update; eauto; cbn; intuition congruence].

Lemma mstep_kept op reg out reg' id e' :
  mstep op reg out reg' -> reg' !! id = Some e' ->
  (exists ke kind, op = MRegister id ke kind /\ e' = mkEntry ke kind false ∅ 0 0 ∅) \/
  kept op reg id e'.
Proof.
  intros Hs He'. destruct Hs as [i ke kind reg|i reg|i hook reg r reg' out H|i l reg
    |kind zid eid ke reg reg' out H|kind zid eid ke reg reg' out H|i reg r reg' out H|reg].
  - unfold RegisterMatching in He'.
    apply lookup_insert_Some in He' as [[-> <-]|[Hn He]]; [left; by exists ke, kind|].
    right. solve_kept.
  - right. unfold UnregisterMatching in He'. destruct (reg !! i) eqn:E; cbn in He'.
    + apply lookup_delete_Some in He' as [Hn He]. solve_kept.
    + solve_kept.
  - right. unfold AttachMatchingListener in H. destruct (reg !! i) as [e|] eqn:E; simplify_eq;
      [solve_kept|solve_kept].
  - right. unfold DetachMatchingListener in He'. destruct (reg !! i) as [e|] eqn:E;
      [solve_kept|solve_kept].
  - right. injection H as <- _. apply lookup_fmap_Some in He' as (e & <- & He). exists e.
    destruct (entry_delta_frame kind (zid, eid) ke true e) as [Hk Hd]. split_and!; [done..|by intros []|].
    intros since. apply recorded_declare.
  - right. injection H as <- _. apply lookup_fmap_Some in He' as (e & <- & He). exists e.
    destruct (entry_delta_frame kind (zid, eid) ke false e) as [Hk Hd]. split_and!; [done..|by intros []|].
    intros since. apply recorded_undeclare.
  - right. unfold onMatchingSnapshotDone in H. destruct (reg !! i) as [e|] eqn:E; simplify_eq;
      [|solve_kept].
    destruct (me_initialDone e); simplify_eq; [solve_kept|solve_kept].
  - right. apply lookup_fmap_Some in He' as (e & <- & He). exists e. split_and!; [done..|by intros []|].
    intros since _ key. rewrite matched_since_cons. cbn. set_solver.
Qed.

Lemma mreach_faithful h reg log : mreach h reg log -> faithful h reg.
Proof.
  induction 1 as [|h reg log op out reg' Hr IH Hs]; [by intros id e; rewrite lookup_empty|].
  intros id e He.
  destruct (mstep_kept op reg out reg' id e Hs He) as [(ke & kind & -> & ->)|Hk];
    [|by eapply faithful_kept].
  exists []. split; [by exists h|]. intros key. split; [set_solver|].
  by intros ?%matched_since_nil.
Qed.

(** ** The theorems *)

(** In every reachable state of the matching registry the counter of an
    interest is the number of distinct remote declarations recorded for it.
    *)
Theorem matching_counts_declarations h reg log id e :
  mreach h reg log -> reg !! id = Some e ->
  me_matchCount e = Z.of_nat (size (me_declarations e)).
Proof. intros Hr He. exact (mreach_ok h reg log Hr id e He). Qed.

(** C35: Whatever registrations, declarations, withdrawals, snapshots,
    listeners and reconnects the matching registry has seen, in any order,
    the last status a listener was told, once the initial snapshot of its
    interest is complete, is true exactly when some remote entity of the
    interest's kind has, since the interest was registered, declared a key
    expression that intersects the interest's, and has neither withdrawn it
    nor been forgotten by a reconnect since. *)
Theorem matching_listener_informed h reg log id e l :
  mreach h reg log -> reg !! id = Some e -> me_initialDone e = true ->
  is_Some (me_listeners e !! l) ->
  exists since st,
    registered_since id (me_keyExpr e) (me_kind e) since h /\
    last (told id l log) = Some st /\
    (st = true <-> exists key, matched_since (me_kind e) (me_keyExpr e) since key).
Proof.
  intros Hr He Hd Hl. destruct (mreach_faithful h reg log Hr id e He) as (since & Hs & Hrec).
  exists since, (status e). split_and!; [done|by apply (mreach_informed h reg log Hr)|].
  rewrite (status_size e (mreach_ok h reg log Hr id e He)), bool_decide_eq_true. split.
  - intros [key Hk]%set_choose_L. exists key. by apply Hrec.
  - intros [key Hk%Hrec] Hn. rewrite Hn in Hk. by apply not_elem_of_empty in Hk.
Qed.

Lemma redeclare_idempotent kind zid eid ke ke' reg :
  let reg1 := (onMatchingDeclare kind zid eid ke reg).1 in
  (forall id e, reg !! id = Some e -> me_kind e = kind ->
     intersects (me_keyExpr e) ke' = true -> intersects (me_keyExpr e) ke = true) ->
  onMatchingDeclare kind zid eid ke' reg1 = (reg1, []).
Proof.
  intros reg1 Hsub. unfold onMatchingDeclare, applyMatchingDelta.
  assert (Hfix : forall id e, reg1 !! id = Some e ->
                   entry_delta kind (zid, eid) ke' true e = (e, None)).
  { intros id e He. apply lookup_fmap_Some in He as (e0 & <- & He).
    specialize (Hsub id e0 He).
    destruct (entry_delta_declared kind (zid, eid) ke e0) as [(Hk & ->)|[(Hi & ->)|[Hk Hin]]].
    - unfold entry_delta. by rewrite bool_decide_eq_true_2.
    - unfold entry_delta. case_bool_decide as Hk; [done|].
      destruct (intersects (me_keyExpr e0) ke') eqn:Hi'; [|done].
      exfalso. by rewrite Hsub in Hi.
    - by apply entry_delta_in. }
  f_equal.
  - apply map_eq. intros i. rewrite lookup_fmap. destruct (reg1 !! i) as [e|] eqn:E; [|done].
    cbn. by rewrite (Hfix i e E).
  - apply elem_of_nil_inv. intros d Hd. apply list_elem_of_bind in Hd as ([i e] & Hd & Hin).
    apply elem_of_map_to_list in Hin. cbn [fst snd] in Hd. rewrite (Hfix i e Hin) in Hd.
    by apply elem_of_nil in Hd.
Qed.

(** ** A concrete run *)

(** A listener of interest 1 on "demo/*" sees a subscriber come. *)
Definition sample_entry : gmap Z matchingEntry :=
  RegisterMatching 1 (mkKeyExpr (str "demo/*")) MatchingSubscribers ∅.
Definition sample_snapshot : bool * gmap Z matchingEntry * list (Z * Z * bool) :=
  onMatchingSnapshotDone 1 sample_entry.
Definition sample_attach : option Z * gmap Z matchingEntry * list (Z * Z * bool) :=
  AttachMatchingListener 1 false sample_snapshot.1.2.
Definition sample_declare : gmap Z matchingEntry * list (Z * Z * bool) :=
  onMatchingDeclare MatchingSubscribers [9] 4 (mkKeyExpr (str "demo/a")) sample_attach.1.2.

Definition sample_log : list (Z * Z * bool) :=
  ((([] ++ []) ++ sample_snapshot.2) ++ sample_attach.2) ++ sample_declare.2.

Definition sample_ops : list mop :=
  [MDeclare MatchingSubscribers ([9], 4) (mkKeyExpr (str "demo/a")); MAttach 1; MSnapshot 1;
   MRegister 1 (mkKeyExpr (str "demo/*")) MatchingSubscribers].

Lemma sample_reach : mreach sample_ops sample_declare.1 sample_log.
Proof.
  unfold sample_log. eapply (mr_step _ sample_attach.1.2).
  2:{ eapply ms_declare, surjective_pairing. }
  eapply (mr_step _ sample_snapshot.1.2).
  2:{ eapply (ms_attach 1 false _ sample_attach.1.1). by vm_compute. }
  eapply (mr_step _ sample_entry).
  2:{ eapply (ms_snapshot 1 _ sample_snapshot.1.1). by vm_compute. }
  eapply (mr_step _ ∅); [constructor|]. apply ms_register.
Qed.

Lemma matching_counts_declarations_witness :
  exists e, sample_declare.1 !! 1 = Some e /\ me_matchCount e = Z.of_nat (size (me_declarations e)).
Proof.
  eexists. split; [vm_compute; reflexivity|].
  apply (matching_counts_declarations sample_ops sample_declare.1 sample_log 1 _ sample_reach).
  vm_compute; reflexivity.
Defined.

Lemma matching_listener_informed_witness :
  exists e, sample_declare.1 !! 1 = Some e /\
    exists since st, registered_since 1 (me_keyExpr e) (me_kind e) since sample_ops /\
      last (told 1 1 sample_log) = Some st /\
      (st = true <-> exists key, matched_since (me_kind e) (me_keyExpr e) since key).
Proof.
  eexists. split; [vm_compute; reflexivity|].
  eapply (matching_listener_informed sample_ops sample_declare.1 sample_log 1 _ 1 sample_reach);
    [vm_compute; reflexivity|reflexivity|eexists; vm_compute; reflexivity].
Defined.
