(* ===== verification/Collector.v ===== *)
(** * internal/session/get_collector.go and the liveliness Get registry

    Both registries follow one discipline, modelled once for a reply type
    [A]: an in-flight Get has a channel; a reply is sent without blocking, the
    channel is closed on RESPONSE_FINAL, cancellation or teardown.  The
    channels live in a store of their own, since the consumer keeps its end
    after the registry has forgotten it.  A Go panic (a send on a closed
    channel, a second close) is the error [ErrPanic]; each operation is one
    atomic step, as the registry's mutex makes it. *)
From S2P Require Import Prelude.

Section Collector.
Context {A : Type}.

Definition ErrPanic : error := ErrMsg "panic".

(** ** Go channels *)

Record chan := mkChan { ch_cap : nat; ch_buf : list A; ch_closed : bool }.

(** [select { case ch <- a: default: }] *)
Definition chan_try_send (a : A) (c : chan) : result chan :=
  if ch_closed c then Err ErrPanic
  else if (length (ch_buf c) <? ch_cap c)%nat
  then Ok (mkChan (ch_cap c) (ch_buf c ++ [a]) false)
  else Ok c.

Definition chan_close (c : chan) : result chan :=
  if ch_closed c then Err ErrPanic else Ok (mkChan (ch_cap c) (ch_buf c) true).

(** A receive that does not block: a reply, the end, or nothing yet. *)
Inductive recv := RValue (a : A) | RClosed | RBlocked.

Definition chan_recv (c : chan) : recv * chan :=
  match ch_buf c with
  | a :: buf => (RValue a, mkChan (ch_cap c) buf (ch_closed c))
  | [] => (if ch_closed c then RClosed else RBlocked, c)
  end.

(** ** The registry *)

(** [getCollector]: the channel and whether [closeOnce] has fired. *)
Record collector := mkCollector { co_chan : chan; co_once : bool }.

(** [byReq] maps a request to its collector, a pointer. *)
Record gets := mkGets {
  g_byReq : gmap Z nat; g_store : gmap nat collector; g_next : nat }.

Definition NewGets : gets := mkGets ∅ ∅ 0.

Definition set_collector (r : nat) (c : collector) (g : gets) : gets :=
  mkGets (g_byReq g) (<[r := c]> (g_store g)) (g_next g).

(** The result is the consumer's end of the channel. *)
Definition RegisterGet (requestID : Z) (bufferSize : Z) (g : gets) : nat * gets :=
  let size := if bufferSize <=? 0 then 16%nat else Z.to_nat bufferSize in
  (g_next g,
   mkGets (<[requestID := g_next g]> (g_byReq g))
     (<[g_next g := mkCollector (mkChan size [] false) false]> (g_store g))
     (S (g_next g))).

Definition deliverReply (requestID : Z) (reply : A) (g : gets) : result gets :=
  match g_byReq g !! requestID with
  | None => Ok g
  | Some r =>
      match g_store g !! r with
      | None => Err ErrPanic
      | Some c =>
          match chan_try_send reply (co_chan c) with
          | Err e => Err e
          | Ok ch => Ok (set_collector r (mkCollector ch (co_once c)) g)
          end
      end
  end.

(** [closeOnce.Do(func() { close(c.replies) })] *)
Definition close_once (r : nat) (g : gets) : result gets :=
  match g_store g !! r with
  | None => Err ErrPanic
  | Some c =>
      if co_once c then Ok g
      else match chan_close (co_chan c) with
           | Err e => Err e
           | Ok ch => Ok (set_collector r (mkCollector ch true) g)
           end
  end.

Definition finaliseGet (requestID : Z) (g : gets) : result gets :=
  match g_byReq g !! requestID with
  | None => Ok g
  | Some r => close_once r (mkGets (delete requestID (g_byReq g)) (g_store g) (g_next g))
  end.

Definition CancelGet := finaliseGet.

Fixpoint finalise_all (ids : list Z) (g : gets) : result gets :=
  match ids with
  | [] => Ok g
  | id :: ids =>
      match finaliseGet id g with Err e => Err e | Ok g => finalise_all ids g end
  end.

Definition cancelAllGets (g : gets) : result gets :=
  finalise_all (map_to_list (g_byReq g)).*1 g.

(** The consumer receives from its end [r]. *)
Definition receive (r : nat) (g : gets) : recv * gets :=
  match g_store g !! r with
  | None => (RBlocked, g)
  | Some c =>
      let '(v, ch) := chan_recv (co_chan c) in
      (v, set_collector r (mkCollector ch (co_once c)) g)
  end.

(** ** Steps *)

Inductive gop :=
  | ORegister (requestID bufferSize : Z)
  | ODeliver (requestID : Z) (reply : A)
  | OFinalise (requestID : Z)
  | OCancelAll
  | OReceive (r : nat).

Definition gstep (o : gop) (g : gets) : result gets :=
  match o with
  | ORegister id n => Ok (RegisterGet id n g).2
  | ODeliver id a => deliverReply id a g
  | OFinalise id => finaliseGet id g
  | OCancelAll => cancelAllGets g
  | OReceive r => Ok (receive r g).2
  end.

Fixpoint gsteps (ops : list gop) (g : gets) : result gets :=
  match ops with
  | [] => Ok g
  | o :: ops => match gstep o g with Err e => Err e | Ok g => gsteps ops g end
  end.

(** ** The invariant *)

(** Registered collectors are allocated, open and pairwise distinct; a
    collector is closed exactly when its [closeOnce] has fired. *)
Record gets_ok (g : gets) : Prop := {
  gk_open : forall id r, g_byReq g !! id = Some r ->
    exists c, g_store g !! r = Some c /\ co_once c = false;
  gk_inj : forall id1 id2 r, g_byReq g !! id1 = Some r -> g_byReq g !! id2 = Some r -> id1 = id2;
  gk_fresh : forall r c, g_store g !! r = Some c -> (r < g_next g)%nat;
  gk_once : forall r c, g_store g !! r = Some c -> ch_closed (co_chan c) = co_once c;
}.

Lemma gets_ok_new : gets_ok NewGets.
Proof. constructor; intros *; cbn; rewrite lookup_empty; done. Qed.

Lemma gets_ok_store r c g : gets_ok g -> is_Some (g_store g !! r) ->
  ch_closed (co_chan c) = co_once c ->
  (co_once c = true -> forall id, g_byReq g !! id <> Some r) ->
  gets_ok (set_collector r c g).
Proof.
  intros [H1 H2 H3 H4] [c0 Hr] Hc Hid. constructor; cbn.
  - intros id r' E. destruct (decide (r' = r)) as [->|Hn].
    + exists c. rewrite lookup_insert_eq. split; [done|]. destruct (co_once c); [|done].
      by destruct (Hid eq_refl id).
    + rewrite lookup_insert_ne by done. eauto.
  - done.
  - intros r' c' E. apply lookup_insert_Some in E as [[<- <-]|[_ E]]; eauto.
  - intros r' c' E. apply lookup_insert_Some in E as [[<- <-]|[_ E]]; eauto.
Qed.

Lemma RegisterGet_ok id n g : gets_ok g -> gets_ok (RegisterGet id n g).2.
Proof.
  intros [H1 H2 H3 H4]. constructor; cbn.
  - intros i r E. apply lookup_insert_Some in E as [[<- <-]|[_ E]].
    + eexists. by rewrite lookup_insert_eq.
    + destruct (H1 i r E) as (c & Hc & Ho). exists c. split; [|done].
      rewrite lookup_insert_ne; [done|]. specialize (H3 _ _ Hc). lia.
  - assert (Hf : forall i, g_byReq g !! i <> Some (g_next g)).
    { intros i E. destruct (H1 _ _ E) as (c & Hc & _). specialize (H3 _ _ Hc). lia. }
    intros i1 i2 r E1 E2.
    apply lookup_insert_Some in E1 as [[<- <-]|[_ E1]], E2 as [[<- E]|[_ E2]];
      try done; [by destruct (Hf i2)|subst; by destruct (Hf i1)|eauto].
  - intros r c E. apply lookup_insert_Some in E as [[<- <-]|[_ E]]; [lia|].
    specialize (H3 _ _ E). lia.
  - intros r c E. apply lookup_insert_Some in E as [[<- <-]|[_ E]]; [done|eauto].
Qed.

Lemma deliverReply_ok id a g : gets_ok g -> exists g', deliverReply id a g = Ok g' /\ gets_ok g'.
Proof.
  intros Hg. pose proof Hg as [H1 H2 H3 H4]. unfold deliverReply.
  destruct (g_byReq g !! id) as [r|] eqn:E; [|by eauto].
  destruct (H1 id r E) as (c & Hc & Ho). rewrite Hc. unfold chan_try_send.
  rewrite (H4 r c Hc), Ho. destruct (_ <? _)%nat; eexists; (split; [done|]).
  - apply gets_ok_store; [done|by eexists|by cbn; rewrite ?Ho|by cbn; rewrite ?Ho].
  - apply gets_ok_store; [done|by eexists|by cbn; rewrite ?(H4 r c Hc), ?Ho|by cbn; rewrite ?Ho].
Qed.

Lemma finaliseGet_ok id g : gets_ok g ->
  exists g', finaliseGet id g = Ok g' /\ gets_ok g' /\ g_byReq g' = delete id (g_byReq g).
Proof.
  intros Hg. pose proof Hg as [H1 H2 H3 H4]. unfold finaliseGet.
  destruct (g_byReq g !! id) as [r|] eqn:E; [|by rewrite delete_id; eauto].
  destruct (H1 id r E) as (c & Hc & Ho). unfold close_once. cbn [g_store]. rewrite Hc, Ho.
  unfold chan_close. rewrite (H4 r c Hc), Ho. eexists. split; [done|]. split; [|done].
  apply gets_ok_store; [|by eexists|done|].
  - constructor; cbn.
    + intros i r' Ei. apply lookup_delete_Some in Ei as [_ Ei]. eauto.
    + intros i1 i2 r' E1 E2. apply lookup_delete_Some in E1 as [_ E1], E2 as [_ E2]. eauto.
    + done.
    + done.
  - cbn. intros _ i Ei. apply lookup_delete_Some in Ei as [Hn Ei].
    by apply Hn, (H2 _ _ r).
Qed.

Lemma finalise_all_ok ids : forall g, gets_ok g ->
  exists g', finalise_all ids g = Ok g' /\ gets_ok g' /\
    forall id, g_byReq g' !! id = if decide (id ∈ ids) then None else g_byReq g !! id.
Proof.
  induction ids as [|i ids IH]; intros g Hg; [by exists g|]. cbn [finalise_all].
  destruct (finaliseGet_ok i g Hg) as (g1 & -> & Hg1 & E1).
  destruct (IH g1 Hg1) as (g2 & -> & Hg2 & E2). exists g2. split_and!; [done|done|].
  intros id. rewrite E2, E1. destruct (decide (id = i)) as [->|Hn].
  - rewrite (decide_True (P := i ∈ i :: ids)) by (by left). rewrite lookup_delete_eq.
    by case_decide.
  - rewrite lookup_delete_ne by done. repeat case_decide; set_solver.
Qed.

Lemma receive_ok r g : gets_ok g -> gets_ok (receive r g).2.
Proof.
  intros Hg. unfold receive. destruct (g_store g !! r) as [c|] eqn:E; [|done].
  pose proof (gk_once g Hg r c E) as Ho.
  destruct (chan_recv (co_chan c)) as [v ch] eqn:Ec. cbn [snd].
  assert (ch_closed ch = co_once c) as Hch.
  { unfold chan_recv in Ec. destruct (ch_buf (co_chan c)); by simplify_eq. }
  apply gets_ok_store; [done|by eexists|done|]. cbn. intros Ht id Hid.
  destruct (gk_open g Hg id r Hid) as (c' & Hc' & Hf). simplify_eq. congruence.
Qed.

Lemma gstep_ok o g : gets_ok g -> exists g', gstep o g = Ok g' /\ gets_ok g'.
Proof.
  intros Hg. destruct o as [id n|id a|id| |r]; cbn [gstep].
  - eexists. split; [done|]. by apply RegisterGet_ok.
  - by apply deliverReply_ok.
  - destruct (finaliseGet_ok id g Hg) as (g' & ? & ? & _). eauto.
  - destruct (finalise_all_ok (map_to_list (g_byReq g)).*1 g Hg) as (g' & ? & ? & _). eauto.
  - eexists. split; [done|]. by apply receive_ok.
Qed.

Lemma gsteps_ok ops : forall g, gets_ok g -> exists g', gsteps ops g = Ok g' /\ gets_ok g'.
Proof.
  induction ops as [|o ops IH]; intros g Hg; [by exists g|]. cbn [gsteps].
  destruct (gstep_ok o g Hg) as (g1 & -> & Hg1). by apply IH.
Qed.

(** ** What a Get's consumer sees *)

Definition buffer (r : nat) (g : gets) : list A :=
  match g_store g !! r with Some c => ch_buf (co_chan c) | None => [] end.

Definition closed (r : nat) (g : gets) : bool :=
  match g_store g !! r with Some c => ch_closed (co_chan c) | None => false end.

(** The replies a step puts on channel [r]: a full channel drops them. *)
Definition accepted (r : nat) (o : gop) (g : gets) : list A :=
  match o with
  | ODeliver id a =>
      match g_store g !! r with
      | Some c =>
          if bool_decide (g_byReq g !! id = Some r)
             && (length (ch_buf (co_chan c)) <? ch_cap (co_chan c))%nat
          then [a] else []
      | None => []
      end
  | _ => []
  end.

Definition received (r : nat) (o : gop) (g : gets) : list A :=
  match o with
  | OReceive r' =>
      if decide (r' = r) then match (receive r g).1 with RValue a => [a] | _ => [] end else []
  | _ => []
  end.

(** The same along a run. *)
Fixpoint accepted_all (r : nat) (ops : list gop) (g : gets) : list A :=
  match ops with
  | [] => []
  | o :: ops =>
      accepted r o g ++
      match gstep o g with Ok g' => accepted_all r ops g' | Err _ => [] end
  end.
Fixpoint received_all (r : nat) (ops : list gop) (g : gets) : list A :=
  match ops with
  | [] => []
  | o :: ops =>
      received r o g ++
      match gstep o g with Ok g' => received_all r ops g' | Err _ => [] end
  end.

Lemma buffer_set r r' c g :
  buffer r (set_collector r' c g) = if decide (r = r') then ch_buf (co_chan c) else buffer r g.
Proof.
  unfold buffer, set_collector. cbn. case_decide as H.
  - subst. by rewrite lookup_insert_eq.
  - by rewrite lookup_insert_ne.
Qed.

Lemma closed_set r r' c g :
  closed r (set_collector r' c g) =
  if decide (r = r') then ch_closed (co_chan c) else closed r g.
Proof.
  unfold closed, set_collector. cbn. case_decide as H.
  - subst. by rewrite lookup_insert_eq.
  - by rewrite lookup_insert_ne.
Qed.

Lemma finaliseGet_channels id g g' r : gets_ok g -> finaliseGet id g = Ok g' ->
  buffer r g' = buffer r g /\
  closed r g' = closed r g || bool_decide (g_byReq g !! id = Some r).
Proof.
  intros Hg. unfold finaliseGet. destruct (g_byReq g !! id) as [r0|] eqn:E.
  2:{ intros [= <-]. rewrite bool_decide_eq_false_2 by done. by rewrite orb_false_r. }
  destruct (gk_open g Hg id r0 E) as (c & Hc & Ho). unfold close_once. cbn [g_store].
  rewrite Hc, Ho. unfold chan_close. rewrite (gk_once g Hg r0 c Hc), Ho. intros [= <-].
  rewrite buffer_set, closed_set. case_decide as Hr.
  - subst r0. rewrite bool_decide_eq_true_2 by done. rewrite orb_true_r.
    unfold buffer. by rewrite Hc.
  - rewrite bool_decide_eq_false_2 by congruence. by rewrite orb_false_r.
Qed.

Lemma finalise_all_channels ids r : forall g g', gets_ok g -> finalise_all ids g = Ok g' ->
  buffer r g' = buffer r g /\
  (closed r g' = true <-> closed r g = true \/ exists id, id ∈ ids /\ g_byReq g !! id = Some r).
Proof.
  induction ids as [|i ids IH]; intros g g' Hg; cbn [finalise_all].
  { intros [= <-]. split; [done|]. set_solver. }
  destruct (finaliseGet_ok i g Hg) as (g1 & E1 & Hg1 & Eb). rewrite E1. intros E2.
  destruct (finaliseGet_channels i g g1 r Hg E1) as [B1 C1].
  destruct (IH g1 g' Hg1 E2) as [B2 C2]. split; [congruence|].
  rewrite C2, C1, Eb, orb_true_iff, bool_decide_eq_true. split.
  - intros [[?|?]|(id & Hin & Hid)]; [by left|right; exists i; set_solver|].
    apply lookup_delete_Some in Hid as [_ Hid]. right. exists id. set_solver.
  - intros [?|(id & [-> |Hin]%elem_of_cons & Hid)]; [by left; left|by left; right|].
    destruct (decide (id = i)) as [->|Hn]; [by left; right|]. right. exists id.
    split; [done|]. by rewrite lookup_delete_ne.
Qed.

Lemma gstep_stream o r g g' : gets_ok g -> gstep o g = Ok g' ->
  buffer r g ++ accepted r o g = received r o g ++ buffer r g'.
Proof.
  intros Hg. destruct o as [id n|id a|id| |r']; cbn [gstep accepted received app].
  - intros [= <-]. rewrite app_nil_r. unfold buffer. cbn.
    destruct (decide (r = g_next g)) as [->|Hn].
    + rewrite lookup_insert_eq. cbn. destruct (g_store g !! g_next g) as [c|] eqn:E; [|done].
      pose proof (gk_fresh g Hg _ _ E). lia.
    + by rewrite lookup_insert_ne.
  - unfold deliverReply. destruct (g_byReq g !! id) as [r0|] eqn:E.
    2:{ intros [= <-]. destruct (g_store g !! r); by rewrite app_nil_r. }
    destruct (gk_open g Hg id r0 E) as (c & Hc & Ho). rewrite Hc. unfold chan_try_send.
    rewrite (gk_once g Hg r0 c Hc), Ho. destruct (decide (r = r0)) as [->|Hn].
    + rewrite Hc, bool_decide_eq_true_2 by done. cbn [andb]. unfold buffer at 1. rewrite Hc.
      destruct (_ <? _)%nat; intros [= <-]; rewrite buffer_set, decide_True by done; [done|].
      by rewrite app_nil_r.
    + rewrite bool_decide_eq_false_2 by congruence. cbn [andb].
      assert (match g_store g !! r with Some _ | _ => [] end = ([] : list A)) as ->
        by (by destruct (g_store g !! r)).
      rewrite app_nil_r.
      destruct (_ <? _)%nat; intros [= <-]; by rewrite buffer_set, decide_False.
  - intros E. rewrite app_nil_r. by destruct (finaliseGet_channels id g g' r Hg E).
  - intros E. rewrite app_nil_r. by destruct (finalise_all_channels _ r g g' Hg E).
  - intros [= <-]. rewrite app_nil_r. unfold receive.
    destruct (g_store g !! r') as [c|] eqn:E.
    + destruct (decide (r' = r)) as [->|Hn].
      * rewrite E. unfold buffer at 1. rewrite E. unfold chan_recv.
        destruct (ch_buf (co_chan c)) as [|a buf] eqn:Eb; cbn [fst snd];
          rewrite buffer_set, decide_True by done; cbn [co_chan ch_buf]; [|done].
        rewrite Eb. by destruct (ch_closed (co_chan c)).
      * destruct (chan_recv (co_chan c)). cbn [snd]. by rewrite buffer_set, decide_False by done.
    + case_decide as Hn; [subst r'; by rewrite E|done].
Qed.

Lemma gsteps_stream ops r : forall g g', gets_ok g -> gsteps ops g = Ok g' ->
  buffer r g ++ accepted_all r ops g = received_all r ops g ++ buffer r g'.
Proof.
  induction ops as [|o ops IH]; intros g g' Hg; cbn [gsteps accepted_all received_all].
  { intros [= ->]. by rewrite app_nil_r. }
  destruct (gstep_ok o g Hg) as (g1 & E1 & Hg1). rewrite E1. intros E2.
  rewrite app_assoc, (gstep_stream o r g g1 Hg E1), <- !app_assoc. f_equal. by apply IH.
Qed.
End Collector.
Arguments chan : clear implicits.
Arguments collector : clear implicits.
Arguments gets : clear implicits.
Arguments recv : clear implicits.
Arguments gop : clear implicits.

(** ** The theorems *)

(** No sequence of registrations, replies, finalisations,
    cancellations, teardowns and receptions makes the Get collectors send on
    a closed channel or close one twice, request ids reused included. *)
Theorem collector_never_panics {A} (ops : list (gop A)) :
  exists g, gsteps ops NewGets = Ok g /\ gets_ok g.
Proof. apply gsteps_ok, gets_ok_new. Qed.

(** At any time the replies accepted for a Get are those its consumer
    received, in the same order, followed by those still buffered: none is
    lost, repeated or reordered. *)
Theorem collector_fifo {A} (ops : list (gop A)) (r : nat) :
  exists g, gsteps ops NewGets = Ok g /\
    accepted_all r ops NewGets = received_all r ops NewGets ++ buffer r g.
Proof.
  destruct (gsteps_ok ops NewGets gets_ok_new) as (g & E & Hg). exists g. split; [done|].
  by rewrite <- (gsteps_stream ops r NewGets g gets_ok_new E).
Qed.

(** At teardown every Get in flight has its channel closed, with its
    buffered replies still readable, and the registry is empty. *)
Theorem cancelAll_closes_everything {A} (ops : list (gop A)) :
  exists g g', gsteps ops NewGets = Ok g /\ cancelAllGets g = Ok g' /\
    (forall id, g_byReq g' !! id = None) /\
    forall id r, g_byReq g !! id = Some r -> closed r g' = true /\ buffer r g' = buffer r g.
Proof.
  destruct (gsteps_ok ops NewGets gets_ok_new) as (g & E & Hg).
  set (ids := (map_to_list (g_byReq g)).*1).
  assert (Hids : forall id r, g_byReq g !! id = Some r -> id ∈ ids).
  { intros id r Hr. apply list_elem_of_fmap. exists (id, r). split; [done|].
    by apply elem_of_map_to_list. }
  destruct (finalise_all_ok ids g Hg) as (g' & E' & Hg' & Hb). exists g, g'.
  split_and!; [done|done| |].
  - intros id. rewrite Hb. case_decide as Hin; [done|].
    destruct (g_byReq g !! id) as [r|] eqn:Er; [|done]. by destruct (Hin (Hids id r Er)).
  - intros id r Hr. destruct (finalise_all_channels ids r g g' Hg E') as [B C].
    split; [|done]. apply C. right. exists id. split; [by eapply Hids|done].
Qed.
