(* ===== verification/Sha3.v ===== *)
(** * crypto/sha3: SHAKE-128, as FIPS 202 specifies it

    The hash behind the initial sequence numbers (initial_sn.go).  It is the
    Go standard library's; the definition is the standard's, and is checked on
    two digests computed independently. *)
From S2P Require Import Prelude.

Module Shake.
(** A state is 25 lanes of 64 bits, lane [(x, y)] at index [x + 5 y]. *)
Definition lane_at (s : list Z) (x y : nat) : Z := nth (x mod 5 + 5 * (y mod 5))%nat s 0.

Definition lanes (f : nat -> nat -> Z) : list Z :=
  (fun i => f (i mod 5) (i / 5))%nat <$> seq 0 25.

Definition rotl64 (v n : Z) : Z := Z.lor (uint64 (Z.shiftl v n)) (Z.shiftr v (64 - n)).

Definition theta (s : list Z) : list Z :=
  let c := (fun x => fold_right Z.lxor 0 ((fun y => lane_at s x y) <$> seq 0 5)) <$> seq 0 5 in
  let c_at x := nth (x mod 5)%nat c 0 in
  lanes (fun x y => Z.lxor (lane_at s x y) (Z.lxor (c_at (x + 4)%nat) (rotl64 (c_at (x + 1)%nat) 1))).

Definition rotations : list Z :=
  [0; 1; 62; 28; 27; 36; 44; 6; 55; 20; 3; 10; 43; 25; 39; 41; 45; 15; 21; 8; 18; 2; 61; 56; 14].

(** rho and pi together. *)
Definition rho_pi (s : list Z) : list Z :=
  lanes (fun x y => rotl64 (lane_at s (x + 3 * y) x) (lane_at rotations (x + 3 * y) x)).

Definition chi (s : list Z) : list Z :=
  lanes (fun x y => Z.lxor (lane_at s x y)
    (Z.land (Z.lxor (lane_at s (x + 1) y) (2 ^ 64 - 1)) (lane_at s (x + 2) y))).

Definition iota (rc : Z) (s : list Z) : list Z :=
  match s with [] => [] | l :: s => Z.lxor l rc :: s end.

Definition round_constants : list Z :=
  [0x0000000000000001; 0x0000000000008082; 0x800000000000808A; 0x8000000080008000;
   0x000000000000808B; 0x0000000080000001; 0x8000000080008081; 0x8000000000008009;
   0x000000000000008A; 0x0000000000000088; 0x0000000080008009; 0x000000008000000A;
   0x000000008000808B; 0x800000000000008B; 0x8000000000008089; 0x8000000000008003;
   0x8000000000008002; 0x8000000000000080; 0x000000000000800A; 0x800000008000000A;
   0x8000000080008081; 0x8000000000008080; 0x0000000080000001; 0x8000000080008008].

Definition keccak_f (s : list Z) : list Z :=
  fold_left (fun s rc => iota rc (chi (rho_pi (theta s)))) round_constants s.

(** The rate of SHAKE-128, in bytes. *)
Definition rate : nat := 168.

Definition le_lane (b : bytes) : Z := fold_right (fun x acc => x + 256 * acc) 0 b.
Definition lane_bytes (v : Z) : bytes :=
  (fun i => uint8 (Z.shiftr v (8 * Z.of_nat i))) <$> seq 0 8.

(** The suffix 1111 of SHAKE and the padding 10*1. *)
Definition pad (m : bytes) : bytes :=
  let q := (rate - length m mod rate)%nat in
  m ++ match q with
       | 1%nat => [0x9F]
       | _ => 0x1F :: replicate (q - 2) 0 ++ [0x80]
       end.

Definition absorb_block (s : list Z) (block : bytes) : list Z :=
  keccak_f ((fun i => Z.lxor (nth i s 0) (le_lane (take 8 (drop (8 * i) block)))) <$> seq 0 25).

Fixpoint absorb (blocks : nat) (s : list Z) (m : bytes) : list Z :=
  match blocks with
  | O => s
  | S k => absorb k (absorb_block s (take rate m)) (drop rate m)
  end.

Fixpoint squeeze (blocks : nat) (s : list Z) : bytes :=
  match blocks with
  | O => []
  | S k => take rate (s ≫= lane_bytes) ++ squeeze k (keccak_f s)
  end.

(** The first [n] bytes of the output. *)
Definition shake128 (m : bytes) (n : nat) : bytes :=
  let p := pad m in
  take n (squeeze (S (n / rate)) (absorb (length p / rate) (replicate 25 0) p)).

Example shake128_short : shake128 [1; 2; 3] 8 = [218; 239; 167; 7; 93; 32; 41; 187].
Proof. vm_compute. reflexivity. Qed.

Example shake128_long : shake128 (Z.of_nat <$> seq 0 200) 8 = [12; 66; 52; 202; 30; 49; 128; 26].
Proof. vm_compute. reflexivity. Qed.

Arguments shake128 : simpl never.
End Shake.
