(* ===== verification/Handshake.v ===== *)
(** * internal/session: the INIT/OPEN handshake

    handshake.go (the initiator), handshake_responder.go and initial_sn.go.
    Each side is a process: a finite tree of link operations ([PWrite],
    [PRead]) with the code's checks between them.  Two processes joined by two
    FIFO queues form the network, whose step relation interleaves them freely.
    The random cookie is a parameter. *)
From S2P Require Import Prelude Buffer Vle Codec WirePrim WireTransport Sha3.

(** ** Processes over a link *)

Inductive proc (A : Type) :=
  | PRet (r : result A)
  | PWrite (batch : bytes) (k : option error -> proc A)
  | PRead (k : result bytes -> proc A).
Arguments PRet {A}. Arguments PWrite {A}. Arguments PRead {A}.

Fixpoint proc_bind_ {A B} (m : proc A) (f : A -> proc B) : proc B :=
  match m with
  | PRet (Ok a) => f a
  | PRet (Err e) => PRet (Err e)
  | PWrite b k => PWrite b (fun e => proc_bind_ (k e) f)
  | PRead k => PRead (fun r => proc_bind_ (k r) f)
  end.
#[export] Instance proc_ret : MRet proc := fun A a => PRet (Ok a).
#[export] Instance proc_bind : MBind proc := fun A B f m => proc_bind_ m f.

Definition pfail {A} (e : error) : proc A := PRet (Err e).

(** [if b { return err }] *)
Definition pguard (b : bool) (e : error) : proc unit := if b then pfail e else mret tt.

(** [writeTransport], the error wrapped by the caller. *)
Definition writeTransport {T} `{Encoder T} (ctx : string) (msg : T) : proc unit :=
  match EncodeTo msg NewWriter with
  | Err e => pfail (ErrWrap ctx e)
  | Ok (_, w) =>
      PWrite (Writer_Bytes w) (fun err =>
        match err with Some e => pfail (ErrWrap ctx e) | None => mret tt end)
  end.

(** [_ = sendClose(link, reason)]: errors are dropped. *)
Definition sendClose (reason : Z) : proc unit :=
  match EncodeTo (mkClose true reason []) NewWriter with
  | Err e => mret tt
  | Ok (_, w) => PWrite (Writer_Bytes w) (fun _ => mret tt)
  end.

Definition CloseReasonGeneric : Z := 0.
Definition CloseReasonInvalid : Z := 2.
Definition CloseReasonConnectionToSelf : Z := 7.

Definition is_close_reason (reason : Z) (e : error) : bool :=
  bool_decide (e = ErrCloseReason reason).

(** [readHandshakeAck] on the bytes of one batch. *)
Definition parse_handshake {T} (label : string) (wantID : Z) (dec : Header -> RM T)
    (batch : bytes) : result T :=
  match DecodeHeader (NewReader batch) with
  | Err e => Err e
  | Ok (h, r) =>
      if hID h =? IDTransportClose then
        match DecodeClose h r with
        | Err e => Err (ErrWrap "decode peer CLOSE" e)
        | Ok (cl, _) => Err (ErrCloseReason (clReason cl))
        end
      else if negb (hID h =? wantID) then Err (ErrMsg "handshake: unexpected message id")
      else match dec h r with
           | Err e => Err (ErrWrap label e)
           | Ok (m, _) => Ok m
           end
  end.

Definition readHandshakeAck {T} (label : string) (wantID : Z) (dec : Header -> RM T) : proc T :=
  PRead (fun res =>
    match res with
    | Err e => pfail (ErrWrap label e)
    | Ok batch => PRet (parse_handshake label wantID dec batch)
    end).

Definition readInit (label : string) (ack : bool) : proc Init :=
  m ← readHandshakeAck label IDTransportInit DecodeInit;
  pguard (negb (bool_decide (inAck m = ack))) (ErrMsg "handshake: wrong INIT direction");;
  mret m.
Definition readInitAck : proc Init := readInit "INIT ACK" true.
Definition readInitSyn : proc Init := readInit "INIT SYN" false.

Definition readOpen (label : string) (ack : bool) : proc Open :=
  m ← readHandshakeAck label IDTransportOpen DecodeOpen;
  pguard (negb (bool_decide (opAck m = ack))) (ErrMsg "handshake: wrong OPEN direction");;
  mret m.
Definition readOpenAck : proc Open := readOpen "OPEN ACK" true.
Definition readOpenSyn : proc Open := readOpen "OPEN SYN" false.

(** ** Configurations and results *)

(** [HandshakeConfig] and [AcceptConfig] have the same fields. *)
Record HandshakeConfig := mkHsConfig {
  hcZID : ZenohID; hcWhatAmI : Z; hcBatchSize : Z; hcLeaseMillis : Z;
  hcResolution : Z; hcEnableQoS : bool }.

Definition DefaultHandshakeConfig (zid : ZenohID) (wai : Z) : HandshakeConfig :=
  mkHsConfig zid wai MaxBatchSize 10000 DefaultResolution true.

Record HandshakeResult := mkHsResult {
  hrPeerZID : ZenohID; hrPeerWhatAmI : Z; hrBatchSize : Z; hrResolution : Z;
  hrMyLease : Z; hrPeerLease : Z; hrMyInitialSN : Z; hrPeerInitialSN : Z;
  hrQoSEnabled : bool }.

Fixpoint hasQoSExt (exts : list Extension) : bool :=
  match exts with
  | [] => false
  | e :: exts =>
      ((eID (eHeader e) =? ExtIDQoS) && bool_decide (eEncoding (eHeader e) = ExtEncUnit))
      || hasQoSExt exts
  end.

Definition qos_unit_ext : Extension :=
  mkExtension (mkExtHeader ExtIDQoS false ExtEncUnit false) 0 [].

Definition qos_exts (b : bool) : list Extension := if b then [qos_unit_ext] else [].

Definition peerLease (m : Open) : Z :=
  if opLeaseSeconds m then uint64 (opLease m * 1000) else opLease m.

(** ** The two sides *)

(** [binary.LittleEndian.Uint64] *)
Fixpoint LittleEndian (b : bytes) : Z :=
  match b with [] => 0 | x :: b => x + 256 * LittleEndian b end.

Definition ComputeInitialSN (myZid peerZid : bytes) (fsnBits : Z) : Z :=
  let sn := LittleEndian (Shake.shake128 (myZid ++ peerZid) 8) in
  if fsnBits >=? 64 then sn else Z.land sn (uint64 (Z.shiftl 1 fsnBits - 1)).

Definition check_config (cfg : HandshakeConfig) : proc unit :=
  pguard (negb (ZenohID_IsValid (hcZID cfg))) (ErrMsg "handshake: local ZID must be 1..16 bytes");;
  pguard (hcBatchSize cfg =? 0) (ErrMsg "handshake: BatchSize must be > 0");;
  pguard (hcLeaseMillis cfg =? 0) (ErrMsg "handshake: LeaseMillis must be > 0").

Definition negotiate_batch (mine : Z) (m : Init) : Z :=
  if inHasSizeInfo m && (inBatchSize m <? mine) then inBatchSize m else mine.

(** Does the acknowledged resolution exceed the offer in a field? *)
Definition raised (offered acked : Z) : bool :=
  existsb (fun f => Resolution_Code acked f >? Resolution_Code offered f)
    [FieldFrameSN; FieldRequestID].

Definition DoHandshake (cfg : HandshakeConfig) : proc HandshakeResult :=
  check_config cfg;;
  writeTransport "send INIT SYN"
    (mkInit false ProtoVersion (hcZID cfg) (hcWhatAmI cfg) true (hcResolution cfg)
       (hcBatchSize cfg) [] (qos_exts (hcEnableQoS cfg)));;
  initAck ← readInitAck;
  pguard (negb (inVersion initAck =? ProtoVersion)) (ErrMsg "handshake: peer version");;
  (if ZenohID_Equal (inZID initAck) (hcZID cfg)
   then sendClose CloseReasonConnectionToSelf;;
        pfail (ErrCloseReason CloseReasonConnectionToSelf)
   else mret tt);;
  (if inHasSizeInfo initAck && raised (hcResolution cfg) (inResolution initAck)
   then sendClose CloseReasonInvalid;;
        pfail (ErrMsg "handshake: peer raised resolution field")
   else mret tt);;
  let negBatch := negotiate_batch (hcBatchSize cfg) initAck in
  let negResolution :=
    if inHasSizeInfo initAck then inResolution initAck else hcResolution cfg in
  let fsnBits := Resolution_Bits negResolution FieldFrameSN in
  let myInitialSN :=
    ComputeInitialSN (zid_bytes (hcZID cfg)) (zid_bytes (inZID initAck)) fsnBits in
  let qosAccepted := hcEnableQoS cfg && hasQoSExt (inExtensions initAck) in
  writeTransport "send OPEN SYN"
    (mkOpen false false (hcLeaseMillis cfg) myInitialSN (inCookie initAck)
       (qos_exts qosAccepted));;
  openAck ← readOpenAck;
  mret (mkHsResult (inZID initAck) (inWhatAmI initAck) negBatch negResolution
          (hcLeaseMillis cfg) (peerLease openAck) myInitialSN (opInitialSN openAck)
          qosAccepted).

(** [cookie] is what [rand.Read] yields. *)
Definition DoHandshakeResponder (cookie : result bytes) (cfg : HandshakeConfig) :
    proc HandshakeResult :=
  check_config cfg;;
  initSyn ← readInitSyn;
  (if negb (inVersion initSyn =? ProtoVersion)
   then sendClose CloseReasonInvalid;; pfail (ErrMsg "handshake-responder: peer version")
   else mret tt);;
  (if ZenohID_Equal (inZID initSyn) (hcZID cfg)
   then sendClose CloseReasonConnectionToSelf;;
        pfail (ErrCloseReason CloseReasonConnectionToSelf)
   else mret tt);;
  let negBatch := negotiate_batch (hcBatchSize cfg) initSyn in
  let negResolution :=
    if inHasSizeInfo initSyn then MinResolution (hcResolution cfg) (inResolution initSyn)
    else hcResolution cfg in
  let qosAccepted := hcEnableQoS cfg && hasQoSExt (inExtensions initSyn) in
  cookie ← PRet (match cookie with
                 | Ok c => Ok c
                 | Err e => Err (ErrWrap "handshake-responder: cookie rand" e)
                 end);
  writeTransport "send INIT ACK"
    (mkInit true ProtoVersion (hcZID cfg) (hcWhatAmI cfg) true negResolution negBatch
       cookie (qos_exts qosAccepted));;
  openSyn ← readOpenSyn;
  (if negb (bool_decide (opCookie openSyn = cookie))
   then sendClose CloseReasonInvalid;;
        pfail (ErrMsg "handshake-responder: OPEN SYN cookie mismatch")
   else mret tt);;
  let fsnBits := Resolution_Bits negResolution FieldFrameSN in
  let myInitialSN :=
    ComputeInitialSN (zid_bytes (hcZID cfg)) (zid_bytes (inZID initSyn)) fsnBits in
  writeTransport "send OPEN ACK"
    (mkOpen true false (hcLeaseMillis cfg) myInitialSN [] (qos_exts qosAccepted));;
  mret (mkHsResult (inZID initSyn) (inWhatAmI initSyn) negBatch negResolution
          (hcLeaseMillis cfg) (peerLease openSyn) myInitialSN (opInitialSN openSyn)
          qosAccepted).

(** ** The network: two processes and the batches in flight *)

Record net := mkNet {
  n_init : proc HandshakeResult; n_resp : proc HandshakeResult;
  n_to_resp : list bytes; n_to_init : list bytes }.

Inductive nstep : net -> net -> Prop :=
  | ns_init_write b k r q1 q2 :
      nstep (mkNet (PWrite b k) r q1 q2) (mkNet (k None) r (q1 ++ [b]) q2)
  | ns_init_read k r q1 b q2 :
      nstep (mkNet (PRead k) r q1 (b :: q2)) (mkNet (k (Ok b)) r q1 q2)
  | ns_resp_write i b k q1 q2 :
      nstep (mkNet i (PWrite b k) q1 q2) (mkNet i (k None) q1 (q2 ++ [b]))
  | ns_resp_read i k b q1 q2 :
      nstep (mkNet i (PRead k) (b :: q1) q2) (mkNet i (k (Ok b)) q1 q2).

(** [nsteps n c c']: an execution of [n] steps. *)
Inductive nsteps : nat -> net -> net -> Prop :=
  | nsteps_O c : nsteps 0 c c
  | nsteps_S n c c1 c2 : nstep c c1 -> nsteps n c1 c2 -> nsteps (S n) c c2.

Definition handshake_net (cookie : result bytes) (ci cr : HandshakeConfig) : net :=
  mkNet (DoHandshake ci) (DoHandshakeResponder cookie cr) [] [].

(** ** Parsing what the peer wrote *)

Lemma parse_handshake_sent {T} `{WireMessage T} label (m : T) :
  0 <= msg_id < 32 -> msg_id <> IDTransportClose -> wf_msg m ->
  exists e, EncodeTo m NewWriter = Ok (tt, mkWriter e) /\
    parse_handshake label msg_id decode_msg e = Ok m.
Proof.
  intros Hid Hc Hwf. destruct (receive_msg_sent m [] Hid Hwf) as (e & W & R).
  exists e. split; [done|]. rewrite app_nil_r in R. unfold receive_msg in R.
  unfold parse_handshake. apply stm_bind_Ok in R as (h & r & -> & Hd).
  destruct (Z.eqb_spec (hID h) msg_id) as [E|Hn].
  - rewrite (proj2 (Z.eqb_neq (hID h) _)) by congruence. cbn [negb]. by rewrite Hd.
  - pose proof (msg_reject h r Hn) as Hr. by rewrite Hd in Hr.
Qed.

Lemma parse_handshake_close {T} label wantID (dec : Header -> RM T) reason :
  exists e, EncodeTo (mkClose true reason []) NewWriter = Ok (tt, mkWriter e) /\
    parse_handshake label wantID dec e = Err (ErrCloseReason reason).
Proof. eexists. split; [reflexivity|]. reflexivity. Qed.

(** ** Running a process up to its next link operation *)

Lemma writeTransport_bind {T B} `{Encoder T} ctx (m : T) e (f : unit -> proc B) :
  EncodeTo m NewWriter = Ok (tt, mkWriter e) ->
  exists k, writeTransport ctx m ≫= f = PWrite e k /\ k None = f tt.
Proof. intros E. unfold writeTransport. rewrite E. eexists. split; reflexivity. Qed.

Lemma sendClose_bind {B} reason (f : unit -> proc B) :
  exists e k, sendClose reason ≫= f = PWrite e k /\ k None = f tt /\
    EncodeTo (mkClose true reason []) NewWriter = Ok (tt, mkWriter e).
Proof. eexists _, _. split; [reflexivity|]. split; reflexivity. Qed.

Lemma readInit_bind {B} label ack (f : Init -> proc B) :
  exists k, readInit label ack ≫= f = PRead k /\
    (forall b m, parse_handshake label IDTransportInit DecodeInit b = Ok m -> inAck m = ack ->
       k (Ok b) = f m) /\
    (forall b e, parse_handshake label IDTransportInit DecodeInit b = Err e ->
       k (Ok b) = PRet (Err e)).
Proof.
  eexists. split; [reflexivity|]. split.
  - intros b m E Ha. cbn. rewrite E. cbn. unfold pguard.
    by rewrite bool_decide_eq_true_2 by done.
  - intros b e E. cbn. by rewrite E.
Qed.

Lemma readOpen_bind {B} label ack (f : Open -> proc B) :
  exists k, readOpen label ack ≫= f = PRead k /\
    (forall b m, parse_handshake label IDTransportOpen DecodeOpen b = Ok m -> opAck m = ack ->
       k (Ok b) = f m).
Proof.
  eexists. split; [reflexivity|]. intros b m E Ha. cbn. rewrite E. cbn. unfold pguard.
  by rewrite bool_decide_eq_true_2 by done.
Qed.

(** The next link operation of the goal's process, and what follows it. *)
Ltac step_write k K :=
  match goal with
  | E : EncodeTo ?m NewWriter = Ok (tt, mkWriter ?e) |- context [writeTransport ?ctx ?m' ≫= ?f] =>
      let R := fresh "R" in
      destruct (writeTransport_bind ctx m' e f) as (k & R & K); [exact E|rewrite R; clear R]
  end.
Ltac step_init k K :=
  match goal with
  | |- context [readInit ?label ?ack ≫= ?f] =>
      let R := fresh "R" in
      destruct (readInit_bind label ack f) as (k & R & K & _); rewrite R; clear R
  end.
Ltac step_open k K :=
  match goal with
  | |- context [readOpen ?label ?ack ≫= ?f] =>
      let R := fresh "R" in
      destruct (readOpen_bind label ack f) as (k & R & K); rewrite R; clear R
  end.

Record wf_config (cfg : HandshakeConfig) : Prop := {
  wc_zid : wf_zid (hcZID cfg);
  wc_wai : wf_wai (hcWhatAmI cfg);
  wc_batch : 0 < hcBatchSize cfg < 2 ^ 16;
  wc_lease : 0 < hcLeaseMillis cfg < 2 ^ 64;
}.

Lemma check_config_bind {B} cfg (f : unit -> proc B) :
  wf_config cfg -> check_config cfg ≫= f = f tt.
Proof.
  intros [Hz Hw Hb Hl]. unfold check_config, pguard.
  apply ZenohID_IsValid_wf in Hz as ->. cbn [negb].
  rewrite (proj2 (Z.eqb_neq (hcBatchSize cfg) 0)) by lia.
  by rewrite (proj2 (Z.eqb_neq (hcLeaseMillis cfg) 0)) by lia.
Qed.

(** ** The messages of a successful handshake *)

Lemma ComputeInitialSN_range a b bits : 0 <= bits < 64 ->
  0 <= ComputeInitialSN a b bits < 2 ^ bits.
Proof.
  intros Hb. unfold ComputeInitialSN. replace (bits >=? 64) with false by lia.
  rewrite Z.shiftl_1_l. assert (0 < 2 ^ bits < 2 ^ 64) as Hp.
  { split; [apply Z.pow_pos_nonneg; lia|apply Z.pow_lt_mono_r; lia]. }
  unfold uint64. rewrite Z.mod_small by lia. replace (2 ^ bits - 1) with (Z.ones bits).
  - rewrite Z.land_ones by lia. apply Z.mod_pos_bound. lia.
  - rewrite Z.ones_equiv. lia.
Qed.

Lemma Resolution_Bits_range r f : 7 <= Resolution_Bits r f <= 63.
Proof. unfold Resolution_Bits. repeat case_match; lia. Qed.

Lemma wf_qos_exts b : wf_extensions (qos_exts b).
Proof.
  destruct b; [|by split; [constructor|]]. split; [|done].
  constructor; [|constructor]. by split.
Qed.

Lemma hasQoSExt_qos_exts b : hasQoSExt (qos_exts b) = b.
Proof. by destruct b. Qed.

Lemma negotiate_batch_min mine m :
  inHasSizeInfo m = true -> negotiate_batch mine m = Z.min mine (inBatchSize m).
Proof. intros Hs. unfold negotiate_batch. rewrite Hs. cbn. destruct (Z.ltb_spec (inBatchSize m) mine); lia. Qed.

Lemma raised_MinResolution a b : raised b (MinResolution a b) = false.
Proof.
  unfold raised. cbn. rewrite !MinResolution_Code.
  rewrite !orb_false_iff. split_and!; [| |done];
    (destruct (Z.gtb_spec (Z.min (Resolution_Code a FieldFrameSN) (Resolution_Code b FieldFrameSN))
       (Resolution_Code b FieldFrameSN));
     destruct (Z.gtb_spec (Z.min (Resolution_Code a FieldRequestID) (Resolution_Code b FieldRequestID))
       (Resolution_Code b FieldRequestID)); lia || done).
Qed.

(** Each state of the handshake has one successor. *)
Definition only_step (c c' : net) : Prop := nstep c c' /\ forall c2, nstep c c2 -> c2 = c'.

Fixpoint chain (c : net) (cs : list net) : Prop :=
  match cs with
  | [] => forall c', ~ nstep c c'
  | c' :: cs => only_step c c' /\ chain c' cs
  end.

Lemma chain_nsteps cs : forall c n c', chain c cs -> nsteps n c c' ->
  (n <= length cs)%nat /\ (n = length cs -> c' = List.last cs c) /\
  ((n < length cs)%nat -> exists c2, nstep c' c2).
Proof.
  induction cs as [|c1 cs IH]; intros c n c' Hc Hn.
  - destruct Hn as [|n c c1 c2 Hs]; [|by destruct (Hc _ Hs)]. split_and!; [done|done|cbn; lia].
  - destruct Hc as [[Hs Hu] Hc]. destruct Hn as [|n c c2 c3 Hs2 Hn].
    + split_and!; [lia|cbn; lia|by eauto].
    + rewrite (Hu _ Hs2) in Hn. destruct (IH c1 n c3 Hc Hn) as (H1 & H2 & H3).
      split_and!; [cbn; lia| |cbn; intros; apply H3; lia].
      intros E. rewrite H2 by (cbn in E; lia). destruct cs as [|c4 cs]; [done|].
      clear. revert c1 c4. induction cs as [|c5 cs IH]; intros; [done|]. cbn in *. apply IH; done.
Qed.

Definition waiting (p : proc HandshakeResult) : Prop :=
  match p with PWrite _ _ => False | _ => True end.

Lemma only_init_write b k j p :
  k None = p -> only_step (mkNet (PWrite b k) (PRead j) [] []) (mkNet p (PRead j) [b] []).
Proof.
  intros <-. split; [apply (ns_init_write b k _ [] [])|]. intros c H. by inversion H; subst.
Qed.
Lemma only_resp_read b k j p :
  j (Ok b) = p -> only_step (mkNet (PRead k) (PRead j) [b] []) (mkNet (PRead k) p [] []).
Proof. intros <-. split; [constructor|]. intros c H. by inversion H; subst. Qed.
Lemma only_resp_write b k j p :
  j None = p -> only_step (mkNet (PRead k) (PWrite b j) [] []) (mkNet (PRead k) p [] [b]).
Proof.
  intros <-. split; [apply (ns_resp_write _ b j [] [])|]. intros c H. by inversion H; subst.
Qed.
Lemma only_init_read b k r p : waiting r ->
  k (Ok b) = p -> only_step (mkNet (PRead k) r [] [b]) (mkNet p r [] []).
Proof. intros Hw <-. split; [constructor|]. intros c H. inversion H; by subst. Qed.

Ltac one_step :=
  first [ by apply only_init_write | by apply only_resp_read | by apply only_resp_write
        | by apply only_init_read ].

Section Agreement.
Variables (ci cr : HandshakeConfig) (cookie : bytes).
Hypothesis Hci : wf_config ci.
Hypothesis Hcr : wf_config cr.
Hypothesis Hcookie : len cookie <= 0xFFFF.

Definition init_syn : Init :=
  mkInit false ProtoVersion (hcZID ci) (hcWhatAmI ci) true (hcResolution ci)
    (hcBatchSize ci) [] (qos_exts (hcEnableQoS ci)).
Definition neg_batch : Z := Z.min (hcBatchSize ci) (hcBatchSize cr).
Definition neg_resolution : Z := MinResolution (hcResolution cr) (hcResolution ci).
Definition neg_qos : bool := hcEnableQoS cr && hcEnableQoS ci.
Definition sn_of (mine peer : HandshakeConfig) : Z :=
  ComputeInitialSN (zid_bytes (hcZID mine)) (zid_bytes (hcZID peer))
    (Resolution_Bits neg_resolution FieldFrameSN).
Definition init_ack : Init :=
  mkInit true ProtoVersion (hcZID cr) (hcWhatAmI cr) true neg_resolution neg_batch
    cookie (qos_exts neg_qos).
Definition open_syn : Open :=
  mkOpen false false (hcLeaseMillis ci) (sn_of ci cr) cookie (qos_exts neg_qos).
Definition open_ack : Open :=
  mkOpen true false (hcLeaseMillis cr) (sn_of cr ci) [] (qos_exts neg_qos).

Definition result_init : HandshakeResult :=
  mkHsResult (hcZID cr) (hcWhatAmI cr) neg_batch neg_resolution (hcLeaseMillis ci)
    (hcLeaseMillis cr) (sn_of ci cr) (sn_of cr ci) neg_qos.
Definition result_resp : HandshakeResult :=
  mkHsResult (hcZID ci) (hcWhatAmI ci) neg_batch neg_resolution (hcLeaseMillis cr)
    (hcLeaseMillis ci) (sn_of cr ci) (sn_of ci cr) neg_qos.

Lemma sn_of_range a b : 0 <= sn_of a b < 2 ^ Resolution_Bits neg_resolution FieldFrameSN.
Proof.
  apply ComputeInitialSN_range. pose proof (Resolution_Bits_range neg_resolution FieldFrameSN). lia.
Qed.

Lemma sn_of_u64 a b : 0 <= sn_of a b < 2 ^ 64.
Proof.
  pose proof (sn_of_range a b) as H. pose proof (Resolution_Bits_range neg_resolution FieldFrameSN).
  split; [lia|]. eapply Z.lt_le_trans; [apply H|]. apply Z.pow_le_mono_r; lia.
Qed.

Lemma wf_init_syn : wf_Init init_syn.
Proof. destruct Hci. split_and!; cbn; try done; try lia. by apply wf_qos_exts. Qed.
Lemma wf_init_ack : wf_Init init_ack.
Proof.
  destruct Hci, Hcr. unfold init_ack, neg_batch. split_and!; cbn; try done; try lia;
    apply wf_qos_exts.
Qed.
Lemma wf_open_syn : wf_Open open_syn.
Proof.
  destruct Hci. pose proof (sn_of_u64 ci cr). unfold wf_Open. cbn.
  split_and!; try done; try lia; apply wf_qos_exts.
Qed.
Lemma wf_open_ack : wf_Open open_ack.
Proof.
  destruct Hcr. pose proof (sn_of_u64 cr ci). unfold wf_Open. cbn.
  split_and!; try done; try lia; apply wf_qos_exts.
Qed.

Hypothesis Hdistinct : hcZID ci <> hcZID cr.

Lemma zid_not_equal a b : hcZID a <> hcZID b -> ZenohID_Equal (hcZID a) (hcZID b) = false.
Proof.
  intros H. unfold ZenohID_Equal. apply bool_decide_eq_false. intros E. apply H.
  destruct (hcZID a), (hcZID b). cbn in E. by subst.
Qed.

Lemma run_init e1 e2 e3 e4 :
  EncodeTo init_syn NewWriter = Ok (tt, mkWriter e1) ->
  parse_handshake "INIT ACK" IDTransportInit DecodeInit e2 = Ok init_ack ->
  EncodeTo open_syn NewWriter = Ok (tt, mkWriter e3) ->
  parse_handshake "OPEN ACK" IDTransportOpen DecodeOpen e4 = Ok open_ack ->
  exists k1 k2 k3 k4, DoHandshake ci = PWrite e1 k1 /\ k1 None = PRead k2 /\
    k2 (Ok e2) = PWrite e3 k3 /\ k3 None = PRead k4 /\
    k4 (Ok e4) = PRet (Ok result_init).
Proof.
  intros E1 E2 E3 E4. unfold DoHandshake. rewrite check_config_bind by done.
  step_write k1 K1. exists k1. rewrite K1. unfold readInitAck. step_init k2 K2.
  exists k2.
  rewrite (K2 _ _ E2 eq_refl). cbn [inVersion inZID inHasSizeInfo inResolution inCookie
    inExtensions inWhatAmI init_ack].
  unfold pguard at 1. rewrite Z.eqb_refl. cbn [negb].
  change (mret tt ≫= ?f) with (f tt). cbv beta.
  rewrite zid_not_equal by done. change (mret tt ≫= ?f) with (f tt). cbv beta.
  assert (raised (hcResolution ci) neg_resolution = false) as -> by apply raised_MinResolution.
  cbn [andb].
  change (mret tt ≫= ?f) with (f tt). cbv beta zeta.
  rewrite hasQoSExt_qos_exts.
  replace (hcEnableQoS ci && neg_qos) with neg_qos
    by (unfold neg_qos; destruct (hcEnableQoS cr), (hcEnableQoS ci); done).
  clear E1. step_write k3 K3. exists k3. rewrite K3. unfold readOpenAck.
  step_open k4 K4. exists k4.
  rewrite (K4 _ _ E4 eq_refl). split_and!; try done.
  unfold result_init, sn_of. rewrite negotiate_batch_min by done. cbn [inBatchSize init_ack].
  replace (Z.min (hcBatchSize ci) neg_batch) with neg_batch by (unfold neg_batch; lia).
  reflexivity.
Qed.

Lemma run_resp e1 e2 e3 e4 :
  parse_handshake "INIT SYN" IDTransportInit DecodeInit e1 = Ok init_syn ->
  EncodeTo init_ack NewWriter = Ok (tt, mkWriter e2) ->
  parse_handshake "OPEN SYN" IDTransportOpen DecodeOpen e3 = Ok open_syn ->
  EncodeTo open_ack NewWriter = Ok (tt, mkWriter e4) ->
  exists j1 j2 j3 j4, DoHandshakeResponder (Ok cookie) cr = PRead j1 /\
    j1 (Ok e1) = PWrite e2 j2 /\ j2 None = PRead j3 /\
    j3 (Ok e3) = PWrite e4 j4 /\ j4 None = PRet (Ok result_resp).
Proof.
  intros E1 E2 E3 E4. unfold DoHandshakeResponder. rewrite check_config_bind by done.
  unfold readInitSyn. step_init j1 K1. exists j1. rewrite (K1 _ _ E1 eq_refl).
  cbn [inVersion inZID inHasSizeInfo inResolution inExtensions inWhatAmI init_syn].
  rewrite Z.eqb_refl. cbn [negb]. change (mret tt ≫= ?f) with (f tt). cbv beta.
  rewrite zid_not_equal by done. change (mret tt ≫= ?f) with (f tt). cbv beta zeta.
  change (PRet (Ok cookie) ≫= ?f) with (f cookie). cbv beta.
  rewrite hasQoSExt_qos_exts, negotiate_batch_min by done. cbn [inBatchSize init_syn].
  assert (Z.min (hcBatchSize cr) (hcBatchSize ci) = neg_batch) as Hb by (unfold neg_batch; lia).
  rewrite Hb.
  step_write j2 K2. exists j2. rewrite K2. unfold readOpenSyn. step_open j3 K3.
  exists j3. rewrite (K3 _ _ E3 eq_refl). cbn [opCookie open_syn].
  rewrite bool_decide_eq_true_2 by done. cbn [negb].
  change (mret tt ≫= ?f) with (f tt). cbv beta zeta.
  clear E2. step_write j4 K4. exists j4. rewrite K4.
  split_and!; done.
Qed.

(** The states of the one execution. *)
Lemma handshake_chain :
  exists cs, chain (handshake_net (Ok cookie) ci cr) cs /\ length cs = 8%nat /\
    List.last cs (handshake_net (Ok cookie) ci cr) =
      mkNet (PRet (Ok result_init)) (PRet (Ok result_resp)) [] [].
Proof.
  destruct (parse_handshake_sent "INIT SYN" init_syn) as (e1 & W1 & P1);
    [done|done|apply wf_init_syn|].
  destruct (parse_handshake_sent "INIT ACK" init_ack) as (e2 & W2 & P2);
    [done|done|apply wf_init_ack|].
  destruct (parse_handshake_sent "OPEN SYN" open_syn) as (e3 & W3 & P3);
    [done|done|apply wf_open_syn|].
  destruct (parse_handshake_sent "OPEN ACK" open_ack) as (e4 & W4 & P4);
    [done|done|apply wf_open_ack|].
  destruct (run_init e1 e2 e3 e4 W1 P2 W3 P4) as (k1 & k2 & k3 & k4 & A0 & A1 & A2 & A3 & A4).
  destruct (run_resp e1 e2 e3 e4 P1 W2 P3 W4) as (j1 & j2 & j3 & j4 & B0 & B1 & B2 & B3 & B4).
  unfold handshake_net. rewrite A0, B0.
  exists [mkNet (k1 None) (PRead j1) [e1] []; mkNet (PRead k2) (j1 (Ok e1)) [] [];
          mkNet (PRead k2) (j2 None) [] [e2]; mkNet (k2 (Ok e2)) (PRead j3) [] [];
          mkNet (k3 None) (PRead j3) [e3] []; mkNet (PRead k4) (j3 (Ok e3)) [] [];
          mkNet (PRead k4) (j4 None) [] [e4]; mkNet (k4 (Ok e4)) (PRet (Ok result_resp)) [] []].
  rewrite A1, A2, A3, A4, B1, B2, B3, B4. split; [|done].
  cbn [chain]. split_and!; try one_step; intros c' H; inversion H.
Qed.
End Agreement.

(** ** The theorems *)

Lemma handshake_runs ci cr cookie :
  wf_config ci -> wf_config cr -> len cookie <= 0xFFFF -> hcZID ci <> hcZID cr ->
  forall n c, nsteps n (handshake_net (Ok cookie) ci cr) c ->
    (n <= 8)%nat /\
    (n = 8%nat -> c = mkNet (PRet (Ok (result_init ci cr)))
                        (PRet (Ok (result_resp ci cr))) [] []) /\
    ((n < 8)%nat -> exists c', nstep c c').
Proof.
  intros Hi Hr Hc Hd n c Hn.
  destruct (handshake_chain ci cr cookie Hi Hr Hc Hd) as (cs & Hch & Hl & Hlast).
  destruct (chain_nsteps cs _ n c Hch Hn) as (H1 & H2 & H3). rewrite Hl, Hlast in *. done.
Qed.

(** What the two sides agree on. *)
Record agree (ci cr : HandshakeConfig) (ri rr : HandshakeResult) : Prop := {
  ag_batch : hrBatchSize ri = hrBatchSize rr /\
             hrBatchSize ri = Z.min (hcBatchSize ci) (hcBatchSize cr);
  ag_resolution : hrResolution ri = hrResolution rr /\
    forall f, Resolution_Code (hrResolution ri) f =
      Z.min (Resolution_Code (hcResolution ci) f) (Resolution_Code (hcResolution cr) f);
  ag_qos : hrQoSEnabled ri = hrQoSEnabled rr /\
           hrQoSEnabled ri = hcEnableQoS ci && hcEnableQoS cr;
  ag_peers : hrPeerZID ri = hcZID cr /\ hrPeerZID rr = hcZID ci /\
             hrPeerWhatAmI ri = hcWhatAmI cr /\ hrPeerWhatAmI rr = hcWhatAmI ci;
  ag_leases : hrMyLease ri = hrPeerLease rr /\ hrMyLease rr = hrPeerLease ri;
  ag_sns : hrMyInitialSN ri = hrPeerInitialSN rr /\ hrMyInitialSN rr = hrPeerInitialSN ri;
  ag_mask : forall r, r = ri \/ r = rr ->
    0 <= hrMyInitialSN r <= Resolution_Mask (hrResolution r) FieldFrameSN;
}.

(** C5: Two nodes with different ZenohIDs that run DoHandshake and
    DoHandshakeResponder over a reliable link always finish, in exactly
    eight steps and under every interleaving, with the same batch size (the
    minimum), resolution (the minimum field by field), QoS mode (enabled
    when both enable it), matching leases and initial sequence numbers, each
    within the negotiated mask. *)
Theorem handshake_agreement ci cr cookie :
  wf_config ci -> wf_config cr -> len cookie <= 0xFFFF -> hcZID ci <> hcZID cr ->
  exists ri rr, agree ci cr ri rr /\
    forall n c, nsteps n (handshake_net (Ok cookie) ci cr) c ->
      (n <= 8)%nat /\
      (n = 8%nat -> c = mkNet (PRet (Ok ri)) (PRet (Ok rr)) [] []) /\
      ((n < 8)%nat -> exists c', nstep c c').
Proof.
  intros Hi Hr Hc Hd. exists (result_init ci cr), (result_resp ci cr).
  split; [|by apply handshake_runs]. constructor; cbn; try done.
  - split; [done|]. intros f. unfold neg_resolution. rewrite MinResolution_Code. lia.
  - split; [done|]. apply andb_comm.
  - intros r Hrr. rewrite Resolution_Mask_Bits.
    destruct Hrr as [->| ->]; cbn.
    + pose proof (sn_of_range ci cr ci cr). lia.
    + pose proof (sn_of_range ci cr cr ci). lia.
Qed.

(** When the two ends of a link have the same ZenohID, the handshake
    fails on both sides with the reason connection-to-self, in four steps
    and under every interleaving. *)
Theorem handshake_with_self ci cr cookie :
  wf_config ci -> wf_config cr -> hcZID ci = hcZID cr ->
  let e := ErrCloseReason CloseReasonConnectionToSelf in
  forall n c, nsteps n (handshake_net cookie ci cr) c ->
    (n <= 4)%nat /\
    (n = 4%nat -> c = mkNet (PRet (Err e)) (PRet (Err e)) [] []) /\
    ((n < 4)%nat -> exists c', nstep c c').
Proof.
  intros Hi Hr Heq e n c Hn.
  destruct (parse_handshake_sent "INIT SYN" (init_syn ci)) as (e1 & W1 & P1);
    [done|done|by apply wf_init_syn|].
  assert (HA : exists k1 k2, DoHandshake ci = PWrite e1 k1 /\ k1 None = PRead k2 /\
    forall b, parse_handshake "INIT ACK" IDTransportInit DecodeInit b = Err e ->
      k2 (Ok b) = PRet (Err e)).
  { unfold DoHandshake. rewrite check_config_bind by done.
    step_write k1 K1. exists k1. rewrite K1. unfold readInitAck.
    match goal with |- context [readInit ?l ?a ≫= ?f] =>
      destruct (readInit_bind l a f) as (k2 & R & _ & K2) end.
    rewrite R. exists k2. split_and!; [done|done|]. intros b. apply K2. }
  assert (HB : exists j1 e2 j2, DoHandshakeResponder cookie cr = PRead j1 /\
    j1 (Ok e1) = PWrite e2 j2 /\ j2 None = PRet (Err e) /\
    parse_handshake "INIT ACK" IDTransportInit DecodeInit e2 = Err e).
  { unfold DoHandshakeResponder. rewrite check_config_bind by done.
    unfold readInitSyn. step_init j1 K1. exists j1. rewrite (K1 _ _ P1 eq_refl).
    cbn [inVersion inZID init_syn]. rewrite Z.eqb_refl. cbn [negb].
    change (mret tt ≫= ?f) with (f tt). cbv beta.
    assert (ZenohID_Equal (hcZID ci) (hcZID cr) = true) as ->.
    { rewrite Heq. unfold ZenohID_Equal. by apply bool_decide_eq_true. }
    eexists _, _. split_and!; [done|reflexivity|reflexivity|].
    reflexivity. }
  destruct HA as (k1 & k2 & A0 & A1 & A2). destruct HB as (j1 & e2 & j2 & B0 & B1 & B2 & B3).
  assert (Hch : chain (handshake_net cookie ci cr)
    [mkNet (k1 None) (PRead j1) [e1] []; mkNet (PRead k2) (j1 (Ok e1)) [] [];
     mkNet (PRead k2) (j2 None) [] [e2]; mkNet (k2 (Ok e2)) (PRet (Err e)) [] []]).
  { pose proof (A2 _ B3) as A3. unfold handshake_net. rewrite A0, B0, A1, B1, B2, A3.
    cbn [chain]. split_and!; try one_step; intros c' H; inversion H. }
  destruct (chain_nsteps _ _ n c Hch Hn) as (H1 & H2 & H3). split_and!; [done| |done].
  intros ->. rewrite (H2 eq_refl). cbn. by rewrite (A2 _ B3).
Qed.

(** Two nodes that differ in batch size, resolution and QoS, and one node that
    dials itself. *)
Definition sample_config (zid : bytes) (batch resolution : Z) (qos : bool) : HandshakeConfig :=
  mkHsConfig (mkZID zid) WhatAmIPeer batch 10000 resolution qos.

Lemma handshake_agreement_witness :
  let ci := sample_config [1; 2] 65535 DefaultResolution true in
  let cr := sample_config [3; 4; 5] 2048 (NewResolution 1 2) false in
  exists ri rr, agree ci cr ri rr /\
    forall n c, nsteps n (handshake_net (Ok [7; 8; 9]) ci cr) c ->
      (n <= 8)%nat /\
      (n = 8%nat -> c = mkNet (PRet (Ok ri)) (PRet (Ok rr)) [] []) /\
      ((n < 8)%nat -> exists c', nstep c c').
Proof. apply handshake_agreement; [by_eval..|intros [=]]. Defined.

Lemma handshake_with_self_witness :
  let ci := sample_config [1; 2] 65535 DefaultResolution true in
  let e := ErrCloseReason CloseReasonConnectionToSelf in
  wf_config ci /\ forall n c, nsteps n (handshake_net (Ok [7; 8; 9]) ci ci) c ->
    (n <= 4)%nat /\
    (n = 4%nat -> c = mkNet (PRet (Err e)) (PRet (Err e)) [] []) /\
    ((n < 4)%nat -> exists c', nstep c c').
Proof. split; [by_eval|]. apply handshake_with_self; by_eval. Defined.
