(* ===== verification/Session.v ===== *)
(** * internal/session: the session's state and registries

    session.go, state.go, ids.go, aliases.go, subscriber.go, queryable.go,
    liveliness.go and the state transitions of run.go.  [Session] is a record
    of the registries; a call of a user callback is an [event] appended to
    [s_out].  Walks over a Go map use [map_to_list], one of the orders the
    code may take. *)
From S2P Require Import Prelude Codec WirePrim WireTransport WireNetwork KeyExpr Matching Collector.

(** ** What callbacks receive *)

Record PushSample := mkPushSample {
  ps_KeyExpr : bytes; ps_ParsedKeyExpr : KeyExpr; ps_Kind : Z; ps_Payload : bytes;
  ps_Encoding : option Encoding; ps_Timestamp : option Timestamp; ps_SourceZID : ZenohID }.

(** [remaining] points to the counter shared by the copies of one query. *)
Record QueryReceived := mkQueryReceived {
  qr_RequestID : Z; qr_KeyExpr : bytes; qr_ParsedKeyExpr : KeyExpr;
  qr_Parameters : bytes; qr_Consolidation : Z; qr_remaining : option nat }.

Record LivelinessEvent := mkLivelinessEvent {
  le_KeyExpr : bytes; le_ParsedKeyExpr : KeyExpr; le_IsAlive : bool }.

Record InboundReply := mkInboundReply {
  ir_KeyExpr : bytes; ir_ParsedKeyExpr : KeyExpr;
  ir_Put : option PutBody; ir_Del : option DelBody; ir_Err : option ErrBody }.

Inductive event :=
  | EvPush (subscriber : Z) (sample : PushSample)
  | EvQuery (queryable : Z) (q : QueryReceived)
  | EvLiveliness (subscriber : Z) (ev : LivelinessEvent)
  | EvMatching (d : Z * Z * bool)
  | EvUnmatched (requestID : Z).

(** ** The session *)

Inductive State :=
  | StateInit | StateDialing | StateHandshaking | StateActive | StateReconnecting
  | StateClosed.

#[export] Instance State_eq_dec : EqDecision State.
Proof. solve_decision. Defined.

(** [counters] holds the [remaining] counters; [unmatched] tells whether an
    unmatched-query handler is set. *)
Record Session := mkSession {
  s_subs : gmap Z KeyExpr;
  s_qbls : gmap Z (KeyExpr * bool);
  s_livelinessSubs : gmap Z KeyExpr;
  s_remoteAliases : gmap Z bytes;
  s_inboundTokens : gmap Z bytes;
  s_matching : gmap Z matchingEntry;
  s_gets : gets InboundReply;
  s_livelinessQueries : gets LivelinessEvent;
  s_counters : gmap nat Z;
  s_unmatched : bool;
  s_out : list event }.

Definition NewSession : Session :=
  mkSession ∅ ∅ ∅ ∅ ∅ ∅ NewGets NewGets ∅ false [].

Definition set_subs m s := mkSession m (s_qbls s) (s_livelinessSubs s) (s_remoteAliases s)
  (s_inboundTokens s) (s_matching s) (s_gets s) (s_livelinessQueries s) (s_counters s)
  (s_unmatched s) (s_out s).
Definition set_qbls m s := mkSession (s_subs s) m (s_livelinessSubs s) (s_remoteAliases s)
  (s_inboundTokens s) (s_matching s) (s_gets s) (s_livelinessQueries s) (s_counters s)
  (s_unmatched s) (s_out s).
Definition set_livelinessSubs m s := mkSession (s_subs s) (s_qbls s) m (s_remoteAliases s)
  (s_inboundTokens s) (s_matching s) (s_gets s) (s_livelinessQueries s) (s_counters s)
  (s_unmatched s) (s_out s).
Definition set_remoteAliases m s := mkSession (s_subs s) (s_qbls s) (s_livelinessSubs s) m
  (s_inboundTokens s) (s_matching s) (s_gets s) (s_livelinessQueries s) (s_counters s)
  (s_unmatched s) (s_out s).
Definition set_inboundTokens m s := mkSession (s_subs s) (s_qbls s) (s_livelinessSubs s)
  (s_remoteAliases s) m (s_matching s) (s_gets s) (s_livelinessQueries s) (s_counters s)
  (s_unmatched s) (s_out s).
Definition set_matching m s := mkSession (s_subs s) (s_qbls s) (s_livelinessSubs s)
  (s_remoteAliases s) (s_inboundTokens s) m (s_gets s) (s_livelinessQueries s)
  (s_counters s) (s_unmatched s) (s_out s).
Definition set_gets g s := mkSession (s_subs s) (s_qbls s) (s_livelinessSubs s)
  (s_remoteAliases s) (s_inboundTokens s) (s_matching s) g (s_livelinessQueries s)
  (s_counters s) (s_unmatched s) (s_out s).
Definition set_livelinessQueries g s := mkSession (s_subs s) (s_qbls s) (s_livelinessSubs s)
  (s_remoteAliases s) (s_inboundTokens s) (s_matching s) (s_gets s) g (s_counters s)
  (s_unmatched s) (s_out s).
Definition set_counters c s := mkSession (s_subs s) (s_qbls s) (s_livelinessSubs s)
  (s_remoteAliases s) (s_inboundTokens s) (s_matching s) (s_gets s) (s_livelinessQueries s)
  c (s_unmatched s) (s_out s).
Definition emit (evs : list event) s := mkSession (s_subs s) (s_qbls s) (s_livelinessSubs s)
  (s_remoteAliases s) (s_inboundTokens s) (s_matching s) (s_gets s) (s_livelinessQueries s)
  (s_counters s) (s_unmatched s) (s_out s ++ evs).
Definition SetUnmatchedQueryHandler s := mkSession (s_subs s) (s_qbls s)
  (s_livelinessSubs s) (s_remoteAliases s) (s_inboundTokens s) (s_matching s) (s_gets s)
  (s_livelinessQueries s) (s_counters s) true (s_out s).

Definition finaliseUnmatchedQuery (requestID : Z) (s : Session) : Session :=
  if s_unmatched s then emit [EvUnmatched requestID] s else s.

(** ** aliases.go *)

Definition declareRemoteAlias (exprID scope : Z) (suffix : bytes) (s : Session) : Session :=
  let key :=
    if scope =? 0 then suffix
    else match s_remoteAliases s !! scope with
         | None => suffix
         | Some base => base ++ suffix
         end in
  set_remoteAliases (<[exprID := key]> (s_remoteAliases s)) s.

Definition undeclareRemoteAlias (exprID : Z) (s : Session) : Session :=
  set_remoteAliases (delete exprID (s_remoteAliases s)) s.

Definition ResetRemoteAliases (s : Session) : Session := set_remoteAliases ∅ s.

Definition resolveRemoteKey (we : WireExpr) (s : Session) : option bytes :=
  if weScope we =? 0 then Some (weSuffix we)
  else match s_remoteAliases s !! weScope we with
       | None => None
       | Some base => Some (base ++ weSuffix we)
       end.

(** ** subscriber.go *)

Definition RegisterSubscriber (id : Z) (ke : KeyExpr) (s : Session) : Session :=
  set_subs (<[id := ke]> (s_subs s)) s.
Definition UnregisterSubscriber (id : Z) (s : Session) : Session :=
  set_subs (delete id (s_subs s)) s.
Definition ForEachSubscriber (s : Session) : list (Z * KeyExpr) := map_to_list (s_subs s).

(** The ids of a registry whose key expression intersects. *)
Definition matching_ids (m : list (Z * KeyExpr)) (ke : KeyExpr) : list Z :=
  (filter (fun p => intersects p.2 ke = true) m).*1.

Definition dispatchPush (pushKE : KeyExpr) (sample : PushSample) (s : Session) : Session :=
  emit ((fun id => EvPush id sample) <$> matching_ids (map_to_list (s_subs s)) pushKE) s.

Definition DispatchLocalPush := dispatchPush.

(** ** queryable.go *)

Definition RegisterQueryable (id : Z) (ke : KeyExpr) (complete : bool) (s : Session) : Session :=
  set_qbls (<[id := (ke, complete)]> (s_qbls s)) s.
Definition UnregisterQueryable (id : Z) (s : Session) : Session :=
  set_qbls (delete id (s_qbls s)) s.
Definition ForEachQueryable (s : Session) : list (Z * (KeyExpr * bool)) :=
  map_to_list (s_qbls s).

Definition set_remaining (q : QueryReceived) (r : option nat) : QueryReceived :=
  mkQueryReceived (qr_RequestID q) (qr_KeyExpr q) (qr_ParsedKeyExpr q)
    (qr_Parameters q) (qr_Consolidation q) r.

(** A conversion to [int32]. *)
Definition int32 (v : Z) : Z := (v + 2 ^ 31) mod 2 ^ 32 - 2 ^ 31.

(** Returns how many queryables received the query. *)
Definition dispatchQuery (queryKE : KeyExpr) (q : QueryReceived) (s : Session) : nat * Session :=
  let matched := matching_ids (prod_map id fst <$> map_to_list (s_qbls s)) queryKE in
  match matched with
  | [] => (0%nat, s)
  | _ =>
      let r := fresh (dom (s_counters s)) in
      let s := set_counters (<[r := int32 (Z.of_nat (length matched))]> (s_counters s)) s in
      (length matched,
       emit ((fun id => EvQuery id (set_remaining q (Some r))) <$> matched) s)
  end.

(** [remaining.Add(-1) == 0] *)
Definition QueryDone (q : QueryReceived) (s : Session) : bool * Session :=
  match qr_remaining q with
  | None => (true, s)
  | Some r =>
      let v := int32 (default 0 (s_counters s !! r) - 1) in
      (v =? 0, set_counters (<[r := v]> (s_counters s)) s)
  end.

(** ** liveliness.go *)

Definition RegisterLivelinessSubscriber (id : Z) (ke : KeyExpr) (s : Session) : Session :=
  set_livelinessSubs (<[id := ke]> (s_livelinessSubs s)) s.
Definition UnregisterLivelinessSubscriber (id : Z) (s : Session) : Session :=
  set_livelinessSubs (delete id (s_livelinessSubs s)) s.
Definition ForEachLivelinessSubscriber (s : Session) : list (Z * KeyExpr) :=
  map_to_list (s_livelinessSubs s).

Definition dispatchLiveliness (tokenKE : KeyExpr) (ev : LivelinessEvent) (s : Session) : Session :=
  emit ((fun id => EvLiveliness id ev) <$>
          matching_ids (map_to_list (s_livelinessSubs s)) tokenKE) s.

Definition RememberInboundToken (entityID : Z) (fullKey : bytes) (s : Session) : Session :=
  set_inboundTokens (<[entityID := fullKey]> (s_inboundTokens s)) s.
Definition ForgetInboundToken (entityID : Z) (s : Session) : option bytes * Session :=
  match s_inboundTokens s !! entityID with
  | Some key => (Some key, set_inboundTokens (delete entityID (s_inboundTokens s)) s)
  | None => (None, s)
  end.
Definition ResetInboundTokens (s : Session) : Session := set_inboundTokens ∅ s.

(** A channel operation's panic, if it could happen, would end the process. *)
Definition lift_gets (r : result (gets InboundReply)) (s : Session) : result Session :=
  match r with Ok g => Ok (set_gets g s) | Err e => Err e end.
Definition lift_queries (r : result (gets LivelinessEvent)) (s : Session) : result Session :=
  match r with Ok g => Ok (set_livelinessQueries g s) | Err e => Err e end.

Definition deliverLivelinessReply (interestID : Z) (ev : LivelinessEvent) (s : Session) :
    result Session :=
  lift_queries (deliverReply interestID ev (s_livelinessQueries s)) s.
Definition finaliseLivelinessQuery (interestID : Z) (s : Session) : result Session :=
  lift_queries (finaliseGet interestID (s_livelinessQueries s)) s.

(** ** ids.go: six counters of the same kind *)

Record idAllocators := mkIds {
  nextExprID : Z; nextSubsID : Z; nextQblsID : Z; nextTokenID : Z; nextRequestID : Z;
  nextInterestID : Z }.

(** [atomic.Uint32.Add(1)] *)
Definition alloc_id (next : Z) : Z := uint32 (next + 1).
Definition AllocRequestID (a : idAllocators) : Z * idAllocators :=
  let v := alloc_id (nextRequestID a) in
  (v, mkIds (nextExprID a) (nextSubsID a) (nextQblsID a) (nextTokenID a) v (nextInterestID a)).
Definition AllocInterestID (a : idAllocators) : Z * idAllocators :=
  let v := alloc_id (nextInterestID a) in
  (v, mkIds (nextExprID a) (nextSubsID a) (nextQblsID a) (nextTokenID a) (nextRequestID a) v).
Definition AllocSubsID (a : idAllocators) : Z * idAllocators :=
  let v := alloc_id (nextSubsID a) in
  (v, mkIds (nextExprID a) v (nextQblsID a) (nextTokenID a) (nextRequestID a) (nextInterestID a)).
Definition AllocQblsID (a : idAllocators) : Z * idAllocators :=
  let v := alloc_id (nextQblsID a) in
  (v, mkIds (nextExprID a) (nextSubsID a) v (nextTokenID a) (nextRequestID a) (nextInterestID a)).
Definition AllocTokenID (a : idAllocators) : Z * idAllocators :=
  let v := alloc_id (nextTokenID a) in
  (v, mkIds (nextExprID a) (nextSubsID a) (nextQblsID a) v (nextRequestID a) (nextInterestID a)).
Definition AllocExprID (a : idAllocators) : Z * idAllocators :=
  let v := alloc_id (nextExprID a) in
  (v, mkIds v (nextSubsID a) (nextQblsID a) (nextTokenID a) (nextRequestID a) (nextInterestID a)).

(** A counter of 32 bits does not wrap while it is non-negative. *)
Lemma int32_small v : 0 <= v < 2 ^ 31 -> int32 v = v.
Proof. intros Hv. unfold int32. rewrite Z.mod_small by lia. lia. Qed.
