(* ===== verification/Lifecycle.v ===== *)
(** * internal/session: the lifecycle state machine

    state.go, the transitions of run.go ([BeginHandshake], [EnterReconnecting]
    and the state change of [Run]) and [Close] of session.go, as goroutines
    that interleave at every atomic operation.  A goroutine is a program
    counter [pc]; [tstep] is its next atomic step.  Also the registry of
    runtimes of session.go. *)
From S2P Require Import Prelude Session.

(** ** Shared state *)

(** A [sync.Once] and the goroutine that is running its function. *)
Inductive once := OnceNew | OnceRunning (owner : nat) | OnceDone.

#[export] Instance once_eq_dec : EqDecision once.
Proof. solve_decision. Defined.

(** What the transitions did, for the statements: not part of the code. *)
Inductive transition := TActivated | TReconnecting.

#[export] Instance transition_eq_dec : EqDecision transition.
Proof. solve_decision. Defined.

(** [sh_userClose] counts the executions of [close(s.userClose)]: a second one
    would panic. *)
Record shared := mkShared {
  sh_state : State; sh_multiRuntime : bool; sh_closeOnce : once; sh_userClose : nat;
  sh_log : list transition }.

Definition New_shared (multi : bool) : shared := mkShared StateInit multi OnceNew 0 [].

Definition set_state (s : State) (sh : shared) : shared :=
  mkShared s (sh_multiRuntime sh) (sh_closeOnce sh) (sh_userClose sh) (sh_log sh).
Definition set_once (o : once) (sh : shared) : shared :=
  mkShared (sh_state sh) (sh_multiRuntime sh) o (sh_userClose sh) (sh_log sh).
Definition log_transition (t : transition) (sh : shared) : shared :=
  mkShared (sh_state sh) (sh_multiRuntime sh) (sh_closeOnce sh) (sh_userClose sh)
    (sh_log sh ++ [t]).
(** [close(s.userClose)] and the return of the function of [closeOnce]. *)
Definition close_userClose (sh : shared) : shared :=
  mkShared (sh_state sh) (sh_multiRuntime sh) OnceDone (S (sh_userClose sh)) (sh_log sh).

Definition CAS (old new : State) (sh : shared) : bool * shared :=
  if bool_decide (sh_state sh = old) then (true, set_state new sh) else (false, sh).

(** ** Goroutines *)

Inductive call := CBeginHandshake | CEnterReconnecting | CRun | CClose.

Inductive pc :=
  | PStart (c : call)
  | PBeginLoaded (old : State)
  | PBeginDialing
  | PRunLoaded (cur : State)
  | PCloseLoop
  | PCloseLoaded (old : State)
  | PCloseBroke
  | PReturn (c : call) (r : result unit).

Definition ErrState (ctx : string) : result unit := Err (ErrMsg ctx).

(** One atomic operation of [BeginHandshake], with the local code after it. *)
Definition begin_step (p : pc) (sh : shared) : option (pc * shared) :=
  match p with
  | PStart CBeginHandshake =>
      if sh_multiRuntime sh then
        if bool_decide (sh_state sh = StateClosed)
        then Some (PReturn CBeginHandshake
                     (ErrState "session: cannot handshake from state Closed"), sh)
        else Some (PReturn CBeginHandshake (Ok tt), sh)
      else Some (PBeginLoaded (sh_state sh), sh)
  | PBeginLoaded StateHandshaking => Some (PReturn CBeginHandshake (Ok tt), sh)
  | PBeginLoaded StateInit =>
      let '(ok, sh) := CAS StateInit StateDialing sh in
      Some (if ok : bool then PBeginDialing else PStart CBeginHandshake, sh)
  | PBeginLoaded StateReconnecting =>
      let '(ok, sh) := CAS StateReconnecting StateDialing sh in
      Some (if ok : bool then PBeginDialing else PStart CBeginHandshake, sh)
  | PBeginLoaded _ =>
      Some (PReturn CBeginHandshake (ErrState "session: cannot handshake from state"), sh)
  | PBeginDialing =>
      let '(ok, sh) := CAS StateDialing StateHandshaking sh in
      Some (PReturn CBeginHandshake
              (if ok : bool then Ok tt
               else ErrState "session: state raced during handshake transition"), sh)
  | _ => None
  end.

Definition reconnect_step (sh : shared) : pc * shared :=
  let '(ok, sh) := CAS StateActive StateReconnecting sh in
  if ok : bool then (PReturn CEnterReconnecting (Ok tt), log_transition TReconnecting sh)
  else (PReturn CEnterReconnecting
          (ErrState "session: cannot enter reconnecting from state"), sh).

(** The part of [Run] that moves the state; success is the start of a Runtime. *)
Definition run_step (p : pc) (sh : shared) : option (pc * shared) :=
  match p with
  | PStart CRun =>
      if sh_multiRuntime sh then Some (PRunLoaded (sh_state sh), sh)
      else let '(ok, sh) := CAS StateHandshaking StateActive sh in
           if ok : bool then Some (PReturn CRun (Ok tt), log_transition TActivated sh)
           else Some (PReturn CRun (ErrState "session: cannot Run from state"), sh)
  | PRunLoaded StateClosed =>
      Some (PReturn CRun (ErrState "session: cannot Run from state Closed"), sh)
  | PRunLoaded StateActive => Some (PReturn CRun (Ok tt), log_transition TActivated sh)
  | PRunLoaded cur =>
      let '(ok, sh) := CAS cur StateActive sh in
      if ok : bool then Some (PReturn CRun (Ok tt), log_transition TActivated sh)
      else Some (PStart CRun, sh)
  | _ => None
  end.

(** [Close]; a caller of [closeOnce.Do] waits for the one that runs it. *)
Definition close_step (tid : nat) (p : pc) (sh : shared) : option (pc * shared) :=
  match p with
  | PStart CClose =>
      match sh_closeOnce sh with
      | OnceNew => Some (PCloseLoop, set_once (OnceRunning tid) sh)
      | OnceRunning _ => None
      | OnceDone => Some (PReturn CClose (Ok tt), sh)
      end
  | PCloseLoop => Some (PCloseLoaded (sh_state sh), sh)
  | PCloseLoaded StateClosed => Some (PCloseBroke, sh)
  | PCloseLoaded old =>
      let '(ok, sh) := CAS old StateClosed sh in
      Some (if ok : bool then PCloseBroke else PCloseLoop, sh)
  | PCloseBroke => Some (PReturn CClose (Ok tt), close_userClose sh)
  | _ => None
  end.

(** [None]: the goroutine waits, or has returned. *)
Definition tstep (tid : nat) (p : pc) (sh : shared) : option (pc * shared) :=
  match p with
  | PStart CBeginHandshake | PBeginLoaded _ | PBeginDialing => begin_step p sh
  | PStart CEnterReconnecting => Some (reconnect_step sh)
  | PStart CRun | PRunLoaded _ => run_step p sh
  | PStart CClose | PCloseLoop | PCloseLoaded _ | PCloseBroke => close_step tid p sh
  | PReturn _ _ => None
  end.

(** ** Interleavings *)

Definition config := (list pc * shared)%type.

Definition sched_step (c : config) (tid : nat) : config :=
  match c.1 !! tid with
  | Some p => match tstep tid p c.2 with
              | Some (p', sh') => (<[tid := p']> c.1, sh')
              | None => c
              end
  | None => c
  end.

Definition run_schedule (sched : list nat) (c : config) : config := fold_left sched_step sched c.

(** One goroutine per call, started whenever it is first scheduled. *)
Definition start (multi : bool) (calls : list call) : config :=
  (PStart <$> calls, New_shared multi).

(** ** The transitions allowed *)

Definition edge (multi : bool) (s s' : State) : bool :=
  match s, s' with
  | StateInit, StateDialing | StateReconnecting, StateDialing
  | StateDialing, StateHandshaking | StateActive, StateReconnecting => true
  | StateHandshaking, StateActive => true
  | StateClosed, _ => false
  | _, StateActive => multi
  | _, StateClosed => true
  | _, _ => false
  end.

(** Case analysis of one step, down to the values of the states involved. *)
Ltac step_cases :=
  unfold tstep, begin_step, reconnect_step, run_step, close_step, CAS in *;
  repeat (case_match || case_bool_decide); simplify_eq/=; try congruence.

(** ** The invariant *)

Definition activations (l : list transition) : nat := length (filter (.= TActivated) l).
Definition reconnections (l : list transition) : nat := length (filter (.= TReconnecting) l).

Definition thread_ok (sh : shared) (tid : nat) (p : pc) : Prop :=
  match p with
  | PCloseLoop => sh_closeOnce sh = OnceRunning tid
  | PCloseLoaded old =>
      sh_closeOnce sh = OnceRunning tid /\ (old = StateClosed -> sh_state sh = StateClosed)
  | PCloseBroke => sh_closeOnce sh = OnceRunning tid /\ sh_state sh = StateClosed
  | PReturn CClose _ => sh_closeOnce sh = OnceDone
  | PRunLoaded _ => sh_multiRuntime sh = true
  | _ => True
  end.

(** With a single runtime, every activation but the current one was ended by
    a reconnection. *)
Definition counts_ok (sh : shared) : Prop :=
  match sh_state sh with
  | StateActive => activations (sh_log sh) = S (reconnections (sh_log sh))
  | StateClosed => activations (sh_log sh) = reconnections (sh_log sh) \/ activations (sh_log sh) = S (reconnections (sh_log sh))
  | _ => activations (sh_log sh) = reconnections (sh_log sh)
  end.

Definition once_ok (sh : shared) : Prop :=
  match sh_closeOnce sh with
  | OnceDone => sh_userClose sh = 1%nat /\ sh_state sh = StateClosed
  | _ => sh_userClose sh = 0%nat
  end.

Definition shared_ok (sh : shared) : Prop :=
  once_ok sh /\ (sh_multiRuntime sh = false -> counts_ok sh).

Definition config_ok (c : config) : Prop :=
  shared_ok c.2 /\ forall tid p, c.1 !! tid = Some p -> thread_ok c.2 tid p.

Lemma transitions_snoc l t :
  activations (l ++ [t]) = (activations l + if decide (t = TActivated) then 1 else 0)%nat /\
  reconnections (l ++ [t]) =
    (reconnections l + if decide (t = TReconnecting) then 1 else 0)%nat.
Proof.
  unfold activations, reconnections. rewrite !filter_app, !length_app, !filter_cons.
  by destruct t.
Qed.

Arguments activations : simpl never.
Arguments reconnections : simpl never.

Lemma activated_snoc l : activations (l ++ [TActivated]) = S (activations l) /\
  reconnections (l ++ [TActivated]) = reconnections l.
Proof. destruct (transitions_snoc l TActivated) as [-> ->]. repeat case_decide; done || lia. Qed.
Lemma reconnecting_snoc l : activations (l ++ [TReconnecting]) = activations l /\
  reconnections (l ++ [TReconnecting]) = S (reconnections l).
Proof. destruct (transitions_snoc l TReconnecting) as [-> ->]. repeat case_decide; done || lia. Qed.

Lemma tstep_edge tid p sh p' sh' : thread_ok sh tid p -> tstep tid p sh = Some (p', sh') ->
  sh_multiRuntime sh' = sh_multiRuntime sh /\
  (sh_state sh' = sh_state sh \/ edge (sh_multiRuntime sh) (sh_state sh) (sh_state sh') = true).
Proof.
  destruct sh as [s multi o n l]. intros Ht H. unfold thread_ok in Ht.
  destruct p as [[]|[]| |[]| |[]| |]; step_cases; auto; by destruct multi.
Qed.

(** A step keeps its own goroutine's invariant and the shared one. *)
Lemma tstep_thread tid p sh p' sh' : thread_ok sh tid p -> tstep tid p sh = Some (p', sh') ->
  thread_ok sh' tid p'.
Proof.
  destruct sh as [s multi o n l]. intros Ht H. unfold thread_ok in *.
  destruct p as [[]|[]| |[]| |[]| |]; step_cases; destruct_and?; auto.
Qed.

Lemma tstep_once tid p sh p' sh' : shared_ok sh -> thread_ok sh tid p ->
  tstep tid p sh = Some (p', sh') ->
  once_ok sh'.
Proof.
  destruct sh as [s multi o n l]. intros [Ho _] Ht H.
  destruct p as [[]|[]| |[]| |[]| |]; step_cases; unfold once_ok in *; cbn in *;
    destruct_and?; subst; try done; first [by destruct o; destruct_and?|by rewrite Ho].
Qed.

Lemma tstep_counts tid p sh p' sh' : shared_ok sh -> thread_ok sh tid p ->
  tstep tid p sh = Some (p', sh') -> sh_multiRuntime sh' = false -> counts_ok sh'.
Proof.
  intros [_ Hc] Ht H Hm. destruct (tstep_edge _ _ _ _ _ Ht H) as [Em _].
  rewrite Em in Hm. specialize (Hc Hm). destruct sh as [s multi o n l]. cbn in Hm. subst multi.
  destruct p as [[]|[]| |[]| |[]| |]; step_cases; unfold counts_ok in *; cbn in *;
    rewrite ?(proj1 (activated_snoc l)), ?(proj2 (activated_snoc l)),
      ?(proj1 (reconnecting_snoc l)), ?(proj2 (reconnecting_snoc l)); try done; lia.
Qed.

(** What the other goroutines rely on. *)
Lemma tstep_frame tid p sh p' sh' : thread_ok sh tid p -> tstep tid p sh = Some (p', sh') ->
  (sh_state sh = StateClosed -> sh_state sh' = StateClosed) /\
  (sh_closeOnce sh = OnceDone -> sh_closeOnce sh' = OnceDone) /\
  forall tid', tid' <> tid ->
    sh_closeOnce sh = OnceRunning tid' -> sh_closeOnce sh' = OnceRunning tid'.
Proof.
  destruct sh as [s multi o n l]. intros Ht H. unfold thread_ok in Ht.
  destruct p as [[]|[]| |[]| |[]| |]; step_cases; destruct_and?; subst;
    split_and!; intros; simplify_eq; try done.
Qed.

(** A step keeps the invariants of the other goroutines. *)
Lemma tstep_others tid p sh p' sh' tid' q : tid' <> tid ->
  thread_ok sh tid p -> thread_ok sh tid' q -> tstep tid p sh = Some (p', sh') ->
  thread_ok sh' tid' q.
Proof.
  intros Hne Ht Hq H. destruct (tstep_frame _ _ _ _ _ Ht H) as (H1 & H2 & H3).
  destruct (tstep_edge _ _ _ _ _ Ht H) as [Hm _]. specialize (H3 tid' Hne).
  destruct q as [[]|[]| |[]| |[]| |[] ?]; cbn in *; rewrite ?Hm; try tauto.
Qed.

Lemma sched_step_ok c tid : config_ok c -> config_ok (sched_step c tid).
Proof.
  intros [Hs Ht]. unfold sched_step. destruct (c.1 !! tid) as [p|] eqn:Ep; [|done].
  destruct (tstep tid p c.2) as [[p' sh']|] eqn:E; [|done]. pose proof (Ht _ _ Ep) as Hp.
  split; [split|]; cbn [fst snd].
  - by eapply tstep_once.
  - by eapply tstep_counts.
  - intros tid' q Hq. destruct (decide (tid' = tid)) as [->|Hne].
    + rewrite list_lookup_insert_eq in Hq by (by eapply lookup_lt_Some).
      simplify_eq. by eapply tstep_thread.
    + rewrite list_lookup_insert_ne in Hq by done. eapply tstep_others; eauto.
Qed.

Lemma start_ok multi calls : config_ok (start multi calls).
Proof.
  split; [by split|]. intros tid p (cl & -> & _)%list_lookup_fmap_Some. by destruct cl.
Qed.

Lemma run_schedule_ok sched c : config_ok c -> config_ok (run_schedule sched c).
Proof.
  revert c. induction sched as [|tid sched IH]; intros c Hc; [done|].
  by apply IH, sched_step_ok.
Qed.

Lemma sched_step_edge c tid : config_ok c ->
  sh_multiRuntime (sched_step c tid).2 = sh_multiRuntime c.2 /\
  (sh_state (sched_step c tid).2 = sh_state c.2 \/
   edge (sh_multiRuntime c.2) (sh_state c.2) (sh_state (sched_step c tid).2) = true).
Proof.
  intros [_ Ht]. unfold sched_step. destruct (c.1 !! tid) as [p|] eqn:Ep; [|by auto].
  destruct (tstep tid p c.2) as [[p' sh']|] eqn:E; [|by auto]. eapply tstep_edge; eauto.
Qed.

Lemma run_schedule_closed sched c : config_ok c -> sh_state c.2 = StateClosed ->
  sh_state (run_schedule sched c).2 = StateClosed.
Proof.
  revert c. induction sched as [|tid sched IH]; intros c Hc Hs; [done|].
  apply IH; [by apply sched_step_ok|].
  destruct (sched_step_edge c tid Hc) as [_ [->|He]]; [done|]. by rewrite Hs in He.
Qed.

Lemma run_schedule_multi sched c : config_ok c ->
  sh_multiRuntime (run_schedule sched c).2 = sh_multiRuntime c.2.
Proof.
  revert c. induction sched as [|tid sched IH]; intros c Hc; [done|]. cbn [run_schedule fold_left].
  fold (run_schedule sched (sched_step c tid)).
  rewrite IH by (by apply sched_step_ok). by apply sched_step_edge.
Qed.

Lemma run_schedule_snoc sched tid c :
  run_schedule (sched ++ [tid]) c = sched_step (run_schedule sched c) tid.
Proof. unfold run_schedule. by rewrite fold_left_app. Qed.

(** Under every interleaving of BeginHandshake, Run, EnterReconnecting
    and Close at the granularity of their atomic operations, each step
    leaves the state or moves it along an edge of the lifecycle diagram; no
    edge leaves Closed. *)
Theorem lifecycle_transitions multi calls sched tid :
  let s := sh_state (run_schedule sched (start multi calls)).2 in
  let s' := sh_state (run_schedule (sched ++ [tid]) (start multi calls)).2 in
  s' = s \/ edge multi s s' = true.
Proof.
  cbv zeta. rewrite run_schedule_snoc.
  pose proof (run_schedule_ok sched _ (start_ok multi calls)) as Hc.
  destruct (sched_step_edge _ tid Hc) as [_ H].
  by rewrite run_schedule_multi in H by apply start_ok.
Qed.

Lemma run_schedule_app sched later c :
  run_schedule (sched ++ later) c = run_schedule later (run_schedule sched c).
Proof. unfold run_schedule. by rewrite fold_left_app. Qed.

Lemma run_schedule_return sched tid cl r c :
  c.1 !! tid = Some (PReturn cl r) -> (run_schedule sched c).1 !! tid = Some (PReturn cl r).
Proof.
  revert c. induction sched as [|t sched IH]; intros c Hc; [done|]. apply IH.
  unfold sched_step. destruct (c.1 !! t) as [p|] eqn:Ep; [|done].
  destruct (tstep t p c.2) as [[p' sh']|] eqn:E; [|done]. cbn.
  rewrite list_lookup_insert_ne; [done|]. intros ->. rewrite Hc in Ep. by simplify_eq.
Qed.

Lemma returned_closed c tid r : config_ok c -> c.1 !! tid = Some (PReturn CClose r) ->
  sh_userClose c.2 = 1%nat /\ sh_state c.2 = StateClosed.
Proof.
  intros [[Ho _] Ht] Hr. specialize (Ht _ _ Hr). cbn in Ht. unfold once_ok in Ho.
  by rewrite Ht in Ho.
Qed.

(** C40: Once any call of Close has returned, the session is Closed and
    stays so whatever runs later, and userClose has been closed exactly once
    (a second close would panic). *)
Theorem close_is_final multi calls sched later tid r :
  (run_schedule sched (start multi calls)).1 !! tid = Some (PReturn CClose r) ->
  let sh := (run_schedule (sched ++ later) (start multi calls)).2 in
  sh_state sh = StateClosed /\ sh_userClose sh = 1%nat.
Proof.
  intros Hr. cbv zeta. rewrite run_schedule_app.
  apply (run_schedule_return later) in Hr. apply and_comm.
  eapply returned_closed; [|exact Hr]. do 2 apply run_schedule_ok. apply start_ok.
Qed.

(** In client mode, under every interleaving, Run succeeds at most once
    more often than EnterReconnecting: a new Runtime starts only after the
    previous one was given up; the session is Active exactly when one is
    current. *)
Theorem single_runtime calls sched :
  let sh := (run_schedule sched (start false calls)).2 in
  (reconnections (sh_log sh) <= activations (sh_log sh) <= S (reconnections (sh_log sh)))%nat /\
  (sh_state sh = StateActive <-> activations (sh_log sh) = S (reconnections (sh_log sh)) /\ sh_state sh <> StateClosed).
Proof.
  cbv zeta. pose proof (run_schedule_ok sched _ (start_ok false calls)) as [[_ Hc] _].
  rewrite run_schedule_multi in Hc by apply start_ok. specialize (Hc eq_refl).
  unfold counts_ok in Hc. destruct (sh_state _); split; try lia; split; intros;
    destruct_and?; try done; try split; try done; lia.
Qed.

(** ** Progress *)

Definition returned (p : pc) : bool := match p with PReturn _ _ => true | _ => false end.

(** A goroutine that runs alone for at most [n] steps. *)
Fixpoint run_alone (n : nat) (tid : nat) (p : pc) (sh : shared) : pc * shared :=
  match n with
  | O => (p, sh)
  | S n => match tstep tid p sh with
           | Some (p', sh') => run_alone n tid p' sh'
           | None => (p, sh)
           end
  end.

(** The only wait is for a [Close] that is under way. *)
Definition waits (p : pc) (sh : shared) : Prop :=
  p = PStart CClose /\ exists owner, sh_closeOnce sh = OnceRunning owner.

(** From every state and every point of its code, a lifecycle call that
    is not waiting for a Close under way returns within five of its own
    steps when no other goroutine interferes: its compare-and-swap loops
    cannot spin. *)
Theorem calls_return tid p sh : ~ waits p sh ->
  returned (run_alone 5 tid p sh).1 = true.
Proof.
  intros Hw. destruct sh as [s multi o n l].
  assert (Ho : p = PStart CClose -> o = OnceNew \/ o = OnceDone).
  { intros ->. destruct o as [|w|]; [by left| |by right]. exfalso. apply Hw. by split; [|exists w]. }
  clear Hw. destruct p as [[]|old| |old| |old| |]; try (destruct Ho as [->| ->]; [done|..]);
    try destruct old; destruct s, multi; reflexivity.
Qed.

(** ** Concrete runs *)

Lemma close_is_final_witness :
  let calls := [CBeginHandshake; CRun; CClose; CClose] in
  let sh := (run_schedule ([0; 0; 2; 2; 0; 3; 2; 2; 2; 2] ++ [1; 3; 3])%nat (start false calls)).2 in
  sh_state sh = StateClosed /\ sh_userClose sh = 1%nat.
Proof.
  apply (close_is_final false [CBeginHandshake; CRun; CClose; CClose]
    [0; 0; 2; 2; 0; 3; 2; 2; 2; 2]%nat [1; 3; 3]%nat 2 (Ok tt)).
  vm_compute. reflexivity.
Defined.

Lemma calls_return_witness :
  returned (run_alone 5 0 (PStart CBeginHandshake) (New_shared false)).1 = true.
Proof. apply calls_return. intros [H _]. discriminate H. Defined.
