(* ===== verification/Reconnect.v ===== *)
(** * internal/session: the registry of runtimes and the reconnect backoff

    The [runtimes] map of session.go (a Runtime is its identity, a natural
    number) and backoff.go, whose [float64] arithmetic is the standard
    library's executable model of binary64. *)
From Stdlib Require Import SpecFloat.
From S2P Require Import Prelude.

(** ** Runtimes *)

Module Runtimes.
Abbreviation runtimes := (gmap (list Z) nat) (only parsing).

(** [None] is a nil [*Runtime]. *)
Definition RegisterRuntime (peerZID : bytes) (rt : option nat) (m : runtimes) : runtimes :=
  match rt with None => m | Some rt => <[peerZID := rt]> m end.

Definition UnregisterRuntime (peerZID : bytes) (rt : option nat) (m : runtimes) : runtimes :=
  match m !! peerZID with
  | Some cur =>
      if bool_decide (rt = None) || bool_decide (rt = Some cur) then delete peerZID m else m
  | None => m
  end.

Definition RuntimeFor (peerZID : bytes) (m : runtimes) : option nat := m !! peerZID.
(** The walks over the map take one of the orders the code may take. *)
Definition ForEachRuntime (m : runtimes) : list (bytes * nat) := map_to_list m.
Definition SnapshotRuntimes (m : runtimes) : list nat := (map_to_list m).*2.
Definition AnyRuntime (m : runtimes) : option nat := head (SnapshotRuntimes m).

(** A runtime is registered when it starts; the observer of its teardown
    unregisters it. *)
Inductive rt_op :=
  | ORegister (peerZID : bytes) (rt : nat)
  | OTeardown (peerZID : bytes) (rt : nat).

Definition rt_step (m : runtimes) (o : rt_op) : runtimes :=
  match o with
  | ORegister z rt => RegisterRuntime z (Some rt) m
  | OTeardown z rt => UnregisterRuntime z (Some rt) m
  end.

Definition rt_run (ops : list rt_op) : runtimes := fold_left rt_step ops ∅.

(** [rt] is the last runtime registered for [z], and was not torn down since. *)
Definition live (z : bytes) (rt : nat) (ops : list rt_op) : Prop :=
  exists pre post, ops = pre ++ ORegister z rt :: post /\
    (forall rt', ORegister z rt' ∉ post) /\ OTeardown z rt ∉ post.

Lemma rt_run_snoc ops o : rt_run (ops ++ [o]) = rt_step (rt_run ops) o.
Proof. unfold rt_run. by rewrite fold_left_app. Qed.

(** The effect of one operation on one peer's entry. *)
Lemma rt_step_lookup z m o : rt_step m o !! z =
  match o with
  | ORegister z' rt => if bool_decide (z' = z) then Some rt else m !! z
  | OTeardown z' rt =>
      if bool_decide (z' = z) && bool_decide (m !! z = Some rt) then None else m !! z
  end.
Proof.
  destruct o as [z' rt|z' rt]; cbn.
  - case_bool_decide; subst; [by rewrite lookup_insert_eq|by rewrite lookup_insert_ne].
  - unfold UnregisterRuntime. destruct (decide (z' = z)) as [->|Hne].
    + rewrite (bool_decide_eq_true_2 (z = z)) by done. destruct (m !! z) as [cur|] eqn:E; cbn.
      * destruct (decide (rt = cur)) as [->|]; rewrite ?bool_decide_eq_true_2 by done;
          rewrite ?bool_decide_eq_false_2 by congruence; cbn; [by rewrite lookup_delete_eq|done].
      * by rewrite E.
    + rewrite (bool_decide_eq_false_2 (z' = z)) by done. cbn.
      destruct (m !! z'); [|done]. case_match; [by rewrite lookup_delete_ne|done].
Qed.

Lemma live_snoc z rt ops o : live z rt (ops ++ [o]) <->
  o = ORegister z rt \/
  live z rt ops /\ o <> OTeardown z rt /\ forall rt', o <> ORegister z rt'.
Proof.
  split.
  - intros (pre & post & E & H1 & H2). destruct post as [|p post' _] using rev_ind.
    + apply app_inj_tail in E as [_ ->]. by left.
    + rewrite app_comm_cons, app_assoc in E. apply app_inj_tail in E as [-> ->]. right.
      split; [|split; set_solver]. exists pre, post'. set_solver.
  - intros [->|((pre & post & -> & H1 & H2) & Ho & Hr)].
    + exists ops, []. set_solver.
    + exists pre, (post ++ [o]). rewrite <- app_assoc. set_solver.
Qed.

(** After any sequence of registrations and teardowns, RuntimeFor gives
    the last runtime registered for the peer, unless that very runtime was
    torn down since: the late teardown of a predecessor does not unregister
    its successor. *)
Theorem RuntimeFor_live z rt ops : RuntimeFor z (rt_run ops) = Some rt <-> live z rt ops.
Proof.
  unfold RuntimeFor. revert rt. induction ops as [|o ops IH] using rev_ind; intros rt.
  { split; [done|]. by intros (pre & post & E & _); destruct pre. }
  rewrite rt_run_snoc, rt_step_lookup, live_snoc. destruct o as [z' r|z' r].
  - case_bool_decide; subst; [|by rewrite IH; naive_solver].
    split; [intros [= ->]; by left|]. intros [[= ->]|(_ & _ & H)]; [done|]. by destruct (H r).
  - destruct (rt_run ops !! z) as [cur|] eqn:E.
    + pose proof (proj1 (IH cur) eq_refl) as Hl. case_bool_decide; case_bool_decide; cbn; naive_solver.
    + rewrite andb_false_r by done. naive_solver.
Qed.
End Runtimes.

(** ** Backoff *)

Module Retry.
(** [int64] and [float64] arithmetic. *)
Definition float64 (d : Z) : spec_float := binary_normalize 53 1024 d 0 false.
Definition float64_mul : spec_float -> spec_float -> spec_float := SFmul 53 1024.

(** Rounds toward zero; Go leaves the conversion of a value out of range to
    the implementation, here [outside]. *)
Definition float64_to_int64 (outside : spec_float -> Z) (x : spec_float) : Z :=
  match x with
  | S754_zero _ => 0
  | S754_finite neg m e =>
      let a := if 0 <=? e then Z.pos m * 2 ^ e else Z.pos m / 2 ^ (- e) in
      let v := if neg then - a else a in
      if (- 2 ^ 63 <=? v) && (v <? 2 ^ 63) then v else outside x
  | _ => outside x
  end.

Definition Millisecond : Z := 1000000.

Record ReconnectConfig := mkReconnectConfig {
  rc_InitialMs : Z; rc_MaxMs : Z; rc_IncreaseFactor : spec_float; rc_ExitOnFailure : bool }.

Definition DefaultReconnectConfig : ReconnectConfig :=
  mkReconnectConfig 1000 4000 (float64 2) false.

Record Backoff := mkBackoff { bo_cfg : ReconnectConfig; bo_current : Z; bo_maxDur : Z }.

Definition ms_duration (ms : Z) : Z := int64 (int64 ms * Millisecond).

Definition NewBackoff (cfg : ReconnectConfig) : Backoff :=
  mkBackoff cfg (ms_duration (rc_InitialMs cfg)) (ms_duration (rc_MaxMs cfg)).

Section Backoff.
Context (outside : spec_float -> Z).

Definition Backoff_Next (b : Backoff) : Z * Backoff :=
  let d := bo_current b in
  let next := float64_to_int64 outside
                (float64_mul (float64 d) (rc_IncreaseFactor (bo_cfg b))) in
  let next := if (next <=? 0) || (bo_maxDur b <? next) then bo_maxDur b else next in
  (d, mkBackoff (bo_cfg b) next (bo_maxDur b)).

Definition Backoff_Reset (b : Backoff) : Backoff :=
  mkBackoff (bo_cfg b) (ms_duration (rc_InitialMs (bo_cfg b))) (bo_maxDur b).

(** [n] waits in a row, and the backoff after them. *)
Fixpoint waits (n : nat) (b : Backoff) : list Z :=
  match n with
  | O => []
  | S n => let '(d, b') := Backoff_Next b in d :: waits n b'
  end.

Definition after (n : nat) (b : Backoff) : Backoff := Nat.iter n (fun b => (Backoff_Next b).2) b.

Lemma Next_bounds b : 0 < bo_maxDur b ->
  0 < bo_current (Backoff_Next b).2 <= bo_maxDur b.
Proof. intros Hm. cbn. destruct (_ || _) eqn:E; [lia|]. apply orb_false_iff in E. lia. Qed.

Lemma after_config n b : bo_cfg (after n b) = bo_cfg b /\ bo_maxDur (after n b) = bo_maxDur b.
Proof. induction n; [done|]. by rewrite <- (proj1 IHn), <- (proj2 IHn). Qed.

Lemma waits_bounded n : forall b, 0 < bo_maxDur b ->
  0 < bo_current b <= bo_maxDur b -> Forall (fun d => 0 < d <= bo_maxDur b) (waits n b).
Proof.
  induction n as [|n IH]; intros b Hm Hc; [constructor|]. cbn [waits Backoff_Next].
  constructor; [done|]. exact (IH (Backoff_Next b).2 Hm (Next_bounds b Hm)).
Qed.

(** For every configuration and every floating-point growth factor, the
    first wait is InitialMs, every later one is positive and at most MaxMs,
    and Reset restores the initial state. *)
Theorem Backoff_bounded n cfg b : 0 < ms_duration (rc_MaxMs cfg) ->
  b = NewBackoff cfg ->
  waits (S n) b = ms_duration (rc_InitialMs cfg) :: waits n (after 1 b) /\
  Forall (fun d => 0 < d <= ms_duration (rc_MaxMs cfg)) (waits n (after 1 b)) /\
  Backoff_Reset (after n b) = b.
Proof.
  intros Hm ->. split; [done|]. split.
  - apply (waits_bounded n (after 1 (NewBackoff cfg))); [done|].
    by apply (Next_bounds (NewBackoff cfg)).
  - unfold Backoff_Reset. by destruct (after_config n (NewBackoff cfg)) as [-> ->].
Qed.

Lemma waits_fixed n : waits n (mkBackoff DefaultReconnectConfig 4000000000 4000000000) =
  repeat 4000000000 n.
Proof.
  induction n as [|n IH]; [done|]. cbn [waits repeat].
  replace (Backoff_Next _) with
    (4000000000, mkBackoff DefaultReconnectConfig 4000000000 4000000000) by (vm_compute; reflexivity).
  by rewrite IH.
Qed.

(** With the default configuration the waits are one second, two seconds, then
    four seconds for ever, computed with binary64 arithmetic. *)
Lemma Backoff_default n :
  waits (2 + n) (NewBackoff DefaultReconnectConfig) =
  [1000 * Millisecond; 2000 * Millisecond] ++ repeat (4000 * Millisecond) n.
Proof.
  cbn [waits Nat.add].
  replace (Backoff_Next (NewBackoff _)) with
    (1000000000, mkBackoff DefaultReconnectConfig 2000000000 4000000000)
    by (vm_compute; reflexivity). cbn [waits].
  replace (Backoff_Next _) with
    (2000000000, mkBackoff DefaultReconnectConfig 4000000000 4000000000)
    by (vm_compute; reflexivity). by rewrite waits_fixed.
Qed.
End Backoff.

Lemma Backoff_bounded_witness :
  let cfg := mkReconnectConfig 500 300 (float64 3) false in
  waits (fun _ => 0) 2 (NewBackoff cfg) =
    ms_duration 500 :: waits (fun _ => 0) 1 (after (fun _ => 0) 1 (NewBackoff cfg)) /\
  Forall (fun d => 0 < d <= ms_duration 300)
    (waits (fun _ => 0) 1 (after (fun _ => 0) 1 (NewBackoff cfg))) /\
  Backoff_Reset (after (fun _ => 0) 1 (NewBackoff cfg)) = NewBackoff cfg.
Proof.
  apply (Backoff_bounded (fun _ => 0) 1 (mkReconnectConfig 500 300 (float64 3) false)); by_eval.
Defined.
End Retry.
