(* ===== verification/Dispatch.v ===== *)
(** * internal/session/dispatch.go: routing inbound network messages

    [NetworkDispatcherForPeer] decodes one network message from the reader and
    applies it to the session.  It is the [Dispatch] parameter of
    SessionReader; [dispatcher_handles] proves the contract Delivery asks of
    it, for every well-formed network message. *)
From S2P Require Import Prelude Buffer Vle Codec WirePrim WireTransport WireNetwork KeyExpr.
From S2P Require Import Matching Collector Session Transport SessionReader Delivery.

Definition zero_ke : KeyExpr := mkKeyExpr [].

(** ** Deep copies of bodies: extensions are not kept *)

Definition clonePutBody (p : PutBody) : PutBody :=
  mkPutBody (pbTimestamp p) (pbEncoding p) [] (pbPayload p).
Definition cloneDelBody (d : DelBody) : DelBody := mkDelBody (dbTimestamp d) [].
Definition cloneErrBody (e : ErrBody) : ErrBody :=
  mkErrBody (ebEncoding e) [] (ebPayload e).

(** ** The handlers *)

Definition onRequest (req : Request) (s : Session) : result Session :=
  match resolveRemoteKey (rqKeyExpr req) s with
  | None => Ok (finaliseUnmatchedQuery (rqRequestID req) s)
  | Some full =>
      match New full with
      | Err _ => Ok (finaliseUnmatchedQuery (rqRequestID req) s)
      | Ok ke =>
          let params := match rqBody req with Some b => qbParameters b | None => [] end in
          let cons := match rqBody req with
                      | Some b => default 0 (qbConsolidation b)
                      | None => 0
                      end in
          let qr := mkQueryReceived (rqRequestID req) full ke params cons None in
          let '(n, s) := dispatchQuery ke qr s in
          Ok (if (n =? 0)%nat then finaliseUnmatchedQuery (rqRequestID req) s else s)
      end
  end.

Definition onResponse (res : Response) (s : Session) : result Session :=
  let full := default [] (resolveRemoteKey (rsKeyExpr res) s) in
  let ke := match New full with Ok ke => ke | Err _ => zero_ke end in
  match rsBody res with
  | Some (RReply body) =>
      match rbInner body with
      | Some (PPut p) =>
          lift_gets (deliverReply (rsRequestID res)
            (mkInboundReply full ke (Some (clonePutBody p)) None None) (s_gets s)) s
      | Some (PDel d) =>
          lift_gets (deliverReply (rsRequestID res)
            (mkInboundReply full ke None (Some (cloneDelBody d)) None) (s_gets s)) s
      | None => Err (ErrMsg "dispatch RESPONSE: unknown reply inner type")
      end
  | Some (RErr e) =>
      lift_gets (deliverReply (rsRequestID res)
        (mkInboundReply full ke None None (Some (cloneErrBody e))) (s_gets s)) s
  | None => Err (ErrMsg "dispatch RESPONSE: unknown body type")
  end.

(** The zero key expression stands for "skip". *)
Definition resolveMatchingKey (we : WireExpr) (s : Session) : KeyExpr :=
  match resolveRemoteKey we s with
  | None => zero_ke
  | Some full =>
      if bool_decide (full = []) then zero_ke
      else match New full with Err _ => zero_ke | Ok ke => ke end
  end.

Definition apply_matching (r : gmap Z matchingEntry * list (Z * Z * bool)) (s : Session) :
    Session :=
  emit (EvMatching <$> r.2) (set_matching r.1 s).

Definition onMatchingEntityDeclare (kind : MatchingKind) (srcZID : ZenohID)
    (body : DeclareEntity) (s : Session) : Session :=
  let ke := resolveMatchingKey (deKeyExpr body) s in
  if KeyExpr_IsZero ke then s
  else apply_matching
         (onMatchingDeclare kind (zid_bytes srcZID) (deEntityID body) ke (s_matching s)) s.

Definition onMatchingEntityUndeclare (kind : MatchingKind) (srcZID : ZenohID)
    (body : UndeclareEntity) (s : Session) : Session :=
  let ke := resolveMatchingKey (ueWireExpr body) s in
  apply_matching
    (onMatchingUndeclare kind (zid_bytes srcZID) (ueEntityID body) ke (s_matching s)) s.

Definition onTokenDeclare (interestID : option Z) (body : DeclareEntity) (s : Session) :
    result Session :=
  match resolveRemoteKey (deKeyExpr body) s with
  | None => Ok s
  | Some full =>
      match New full with
      | Err _ => Ok s
      | Ok ke =>
          let s := RememberInboundToken (deEntityID body) full s in
          let ev := mkLivelinessEvent full ke true in
          let s := dispatchLiveliness ke ev s in
          match interestID with
          | Some id => deliverLivelinessReply id ev s
          | None => Ok s
          end
      end
  end.

Definition onTokenUndeclare (body : UndeclareEntity) (s : Session) : Session :=
  let '(cached, s) := ForgetInboundToken (ueEntityID body) s in
  let full :=
    match cached with
    | Some key => Some key
    | None =>
        match resolveRemoteKey (ueWireExpr body) s with
        | Some key => if bool_decide (key = []) then None else Some key
        | None => None
        end
    end in
  match full with
  | None => s
  | Some full =>
      match New full with
      | Err _ => s
      | Ok ke => dispatchLiveliness ke (mkLivelinessEvent full ke false) s
      end
  end.

Definition onPushFromPeer (p : Push) (srcZID : ZenohID) (s : Session) : result Session :=
  match resolveRemoteKey (puKeyExpr p) s with
  | None => Ok s
  | Some full =>
      match New full with
      | Err _ => Ok s
      | Ok ke =>
          match puBody p with
          | Some (PPut b) =>
              Ok (dispatchPush ke (mkPushSample full ke IDDataPut (pbPayload b)
                                     (pbEncoding b) (pbTimestamp b) srcZID) s)
          | Some (PDel b) =>
              Ok (dispatchPush ke (mkPushSample full ke IDDataDel [] None
                                     (dbTimestamp b) srcZID) s)
          | None => Err (ErrMsg "dispatch PUSH: unknown body type")
          end
      end
  end.

Definition onMatchingSnapshot (interestID : Z) (s : Session) : bool * Session :=
  let '(ok, reg, out) := onMatchingSnapshotDone interestID (s_matching s) in
  (ok, apply_matching (reg, out) s).

Definition onDeclareFromPeer (d : Declare_) (srcZID : ZenohID) (s : Session) : result Session :=
  let interest := if dcHasInterestID d then Some (dcInterestID d) else None in
  match dcBody d with
  | Some (BDeclareKeyExpr b) => Ok (declareRemoteAlias (dkExprID b) (dkScope b) (dkSuffix b) s)
  | Some (BUndeclareKeyExpr b) => Ok (undeclareRemoteAlias (ukExprID b) s)
  | Some (BDeclareEntity b) =>
      if deKind b =? IDDeclareToken then onTokenDeclare interest b s
      else if deKind b =? IDDeclareSubscriber
      then Ok (onMatchingEntityDeclare MatchingSubscribers srcZID b s)
      else if deKind b =? IDDeclareQueryable
      then Ok (onMatchingEntityDeclare MatchingQueryables srcZID b s)
      else Ok s
  | Some (BUndeclareEntity b) =>
      if ueKind b =? IDUndeclareToken then Ok (onTokenUndeclare b s)
      else if ueKind b =? IDUndeclareSubscriber
      then Ok (onMatchingEntityUndeclare MatchingSubscribers srcZID b s)
      else if ueKind b =? IDUndeclareQueryable
      then Ok (onMatchingEntityUndeclare MatchingQueryables srcZID b s)
      else Ok s
  | Some (BDeclareFinal _) =>
      match interest with
      | Some id =>
          let '(ok, s) := onMatchingSnapshot id s in
          if (ok : bool) then Ok s else finaliseLivelinessQuery id s
      | None => Ok s
      end
  | None => Ok s
  end.

(** Decode, then handle; the session changes only if decoding succeeds. *)
Definition decode_then {T} (ctx : string) (dec : RM T) (handle : T -> Session -> result Session)
    (r : Reader) (s : Session) : result Reader * Session :=
  match dec r with
  | Err e => (Err (ErrWrap ctx e), s)
  | Ok (m, r') =>
      match handle m s with Ok s' => (Ok r', s') | Err e => (Err e, s) end
  end.

Definition NetworkDispatcherForPeer (peerZID : ZenohID) (h : Header) (r : Reader) (s : Session) :
    result Reader * Session :=
  if hID h =? IDNetworkPush then
    decode_then "dispatch PUSH" (DecodePush h) (fun m => onPushFromPeer m peerZID) r s
  else if hID h =? IDNetworkRequest then
    decode_then "dispatch REQUEST" (DecodeRequest h) onRequest r s
  else if hID h =? IDNetworkResponse then
    decode_then "dispatch RESPONSE" (DecodeResponse h) onResponse r s
  else if hID h =? IDNetworkResponseFinal then
    decode_then "dispatch RESPONSE_FINAL" (DecodeResponseFinal h)
      (fun m s => lift_gets (finaliseGet (rfRequestID m) (s_gets s)) s) r s
  else if hID h =? IDNetworkDeclare then
    decode_then "dispatch DECLARE" (DecodeDeclare h) (fun m => onDeclareFromPeer m peerZID) r s
  else if hID h =? IDNetworkInterest then
    decode_then "dispatch INTEREST" (DecodeInterest h) (fun _ s => Ok s) r s
  else if hID h =? IDNetworkOAM then (Ok (advance r (Reader_Len r)), s)
  else (Err (ErrMsg "dispatch: unexpected network msg id"), s).

(** ** Network messages *)

Inductive NetworkMessage :=
  | NPush (m : Push)
  | NRequest (m : Request)
  | NResponse (m : Response)
  | NResponseFinal (m : ResponseFinal)
  | NDeclare (m : Declare_)
  | NInterest (m : Interest).

Definition wf_net (n : NetworkMessage) : Prop :=
  match n with
  | NPush m => wf_msg m | NRequest m => wf_msg m | NResponse m => wf_msg m
  | NResponseFinal m => wf_msg m | NDeclare m => wf_msg m | NInterest m => wf_msg m
  end.

Definition encode_net (n : NetworkMessage) : result bytes :=
  match n with
  | NPush m => EncodeNetworkMessage m | NRequest m => EncodeNetworkMessage m
  | NResponse m => EncodeNetworkMessage m | NResponseFinal m => EncodeNetworkMessage m
  | NDeclare m => EncodeNetworkMessage m | NInterest m => EncodeNetworkMessage m
  end.

(** The handler of a decoded message. *)
Definition handle_net (peerZID : ZenohID) (n : NetworkMessage) (s : Session) : result Session :=
  match n with
  | NPush m => onPushFromPeer m peerZID s
  | NRequest m => onRequest m s
  | NResponse m => onResponse m s
  | NResponseFinal m => lift_gets (finaliseGet (rfRequestID m) (s_gets s)) s
  | NDeclare m => onDeclareFromPeer m peerZID s
  | NInterest m => Ok s
  end.

Record session_ok (s : Session) : Prop := {
  so_gets : gets_ok (s_gets s);
  so_queries : gets_ok (s_livelinessQueries s);
  so_matching : registry_ok (s_matching s);
}.

Lemma session_ok_new : session_ok NewSession.
Proof. constructor; [apply gets_ok_new..|apply map_Forall_empty]. Qed.

(** ** The handlers never fail on decoded messages and keep the invariant *)

Lemma deliver_gets_ok id a s : session_ok s ->
  exists s', lift_gets (deliverReply id a (s_gets s)) s = Ok s' /\ session_ok s'.
Proof.
  intros [H1 H2 H3]. destruct (deliverReply_ok id a (s_gets s) H1) as (g & -> & Hg).
  eexists. split; [done|]. by constructor.
Qed.

Lemma finalise_gets_ok id s : session_ok s ->
  exists s', lift_gets (finaliseGet id (s_gets s)) s = Ok s' /\ session_ok s'.
Proof.
  intros [H1 H2 H3]. destruct (finaliseGet_ok id (s_gets s) H1) as (g & -> & Hg & _).
  eexists. split; [done|]. by constructor.
Qed.

Lemma deliver_queries_ok id a s : session_ok s ->
  exists s', deliverLivelinessReply id a s = Ok s' /\ session_ok s'.
Proof.
  intros [H1 H2 H3]. unfold deliverLivelinessReply.
  destruct (deliverReply_ok id a _ H2) as (g & -> & Hg).
  eexists. split; [done|]. by constructor.
Qed.

Lemma finalise_queries_ok id s : session_ok s ->
  exists s', finaliseLivelinessQuery id s = Ok s' /\ session_ok s'.
Proof.
  intros [H1 H2 H3]. unfold finaliseLivelinessQuery.
  destruct (finaliseGet_ok id _ H2) as (g & -> & Hg & _).
  eexists. split; [done|]. by constructor.
Qed.

Lemma unmatched_ok id s : session_ok s -> session_ok (finaliseUnmatchedQuery id s).
Proof. intros [H1 H2 H3]. unfold finaliseUnmatchedQuery. by destruct (s_unmatched s). Qed.

Lemma dispatchQuery_ok ke q s n s' :
  dispatchQuery ke q s = (n, s') -> session_ok s -> session_ok s'.
Proof.
  unfold dispatchQuery. intros H [H1 H2 H3].
  destruct (matching_ids _ _); simplify_eq; by constructor.
Qed.

Lemma apply_matching_ok reg out s :
  session_ok s -> registry_ok reg -> session_ok (apply_matching (reg, out) s).
Proof. intros [H1 H2 H3] Hr. by constructor. Qed.

Lemma delta_registry_ok kind zid eid ke b reg :
  registry_ok reg -> registry_ok (applyMatchingDelta kind zid eid ke b reg).1.
Proof.
  intros Hr i e He. apply lookup_fmap_Some in He as (e0 & <- & He).
  by apply entry_delta_ok, (Hr i).
Qed.

Lemma snapshot_registry_ok id reg : registry_ok reg ->
  registry_ok (onMatchingSnapshotDone id reg).1.2.
Proof.
  intros Hr. destruct (onMatchingSnapshotDone id reg) as [[ok reg'] out] eqn:E.
  exact (mstep_ok _ _ _ _ (ms_snapshot id reg ok reg' out E) Hr).
Qed.

Lemma onDeclareFromPeer_ok m zid s : session_ok s ->
  exists s', onDeclareFromPeer m zid s = Ok s' /\ session_ok s'.
Proof.
  intros Hs. pose proof Hs as [H1 H2 H3]. unfold onDeclareFromPeer.
  set (interest := if dcHasInterestID m then _ else _).
  destruct (dcBody m) as [[b|b|b|b|b]|]; [eexists; split; [done|by constructor].. | | | |by eauto].
  - destruct (deKind b =? IDDeclareToken).
    { unfold onTokenDeclare. destruct (resolveRemoteKey _ s); [|by eauto].
      destruct (New _) as [ke|]; [|by eauto]. destruct interest as [id|].
      - apply deliver_queries_ok. by constructor.
      - eexists. split; [done|by constructor]. }
    assert (forall kind, session_ok (onMatchingEntityDeclare kind zid b s)) as Hd.
    { intros kind. unfold onMatchingEntityDeclare. destruct (KeyExpr_IsZero _); [done|].
      apply (apply_matching_ok (applyMatchingDelta _ _ _ _ _ _).1); [done|].
      by apply delta_registry_ok. }
    destruct (deKind b =? _); [by eauto|]. destruct (deKind b =? _); by eauto.
  - destruct (ueKind b =? IDUndeclareToken).
    { eexists. split; [done|]. unfold onTokenUndeclare, ForgetInboundToken.
      destruct (s_inboundTokens s !! _); [destruct (New _); by constructor|].
      destruct (resolveRemoteKey _ s); [|done]. case_bool_decide; [done|].
      destruct (New _); [by constructor|done]. }
    assert (forall kind, session_ok (onMatchingEntityUndeclare kind zid b s)) as Hd.
    { intros kind. apply (apply_matching_ok (applyMatchingDelta _ _ _ _ _ _).1); [done|].
      by apply delta_registry_ok. }
    destruct (ueKind b =? _); [by eauto|]. destruct (ueKind b =? _); by eauto.
  - destruct interest as [id|]; [|by eauto]. unfold onMatchingSnapshot.
    pose proof (snapshot_registry_ok id _ H3) as Hr.
    destruct (onMatchingSnapshotDone id (s_matching s)) as [[ok reg] out].
    pose proof (apply_matching_ok reg out s Hs Hr) as Hs'.
    destruct ok; [by eauto|by apply finalise_queries_ok].
Qed.

Lemma handle_net_ok zid n s : wf_net n -> session_ok s ->
  exists s', handle_net zid n s = Ok s' /\ session_ok s'.
Proof.
  intros Hwf Hs. pose proof Hs as [H1 H2 H3].
  destruct n as [m|m|m|m|m|m]; cbn [handle_net wf_net] in *.
  - unfold onPushFromPeer. destruct (resolveRemoteKey _ s); [|by eauto].
    destruct (New _); [|by eauto]. destruct Hwf as (_ & _ & Hb).
    destruct (puBody m) as [[]|]; [eexists; split; [done|by constructor]..|done].
  - unfold onRequest. destruct (resolveRemoteKey _ s);
      [|eexists; split; [done|by apply unmatched_ok]].
    destruct (New _); [|eexists; split; [done|by apply unmatched_ok]].
    destruct (dispatchQuery _ _ s) as [k s'] eqn:E.
    apply dispatchQuery_ok in E; [|done].
    eexists. split; [done|]. destruct (k =? 0)%nat; [by apply unmatched_ok|done].
  - unfold onResponse. destruct Hwf as (_ & _ & _ & Hb).
    destruct (rsBody m) as [[b|b]|]; [|by apply deliver_gets_ok|done].
    destruct Hb as [_ Hb]. destruct (rbInner b) as [[]|]; [by apply deliver_gets_ok..|done].
  - by apply finalise_gets_ok.
  - by apply onDeclareFromPeer_ok.
  - by eauto.
Qed.

(** ** The contract of the dispatcher *)

(** The effect of a message's bytes on the session. *)
Definition run_bytes (peerZID : ZenohID) (e : bytes) (s : Session) : Session :=
  match e with
  | [] => s
  | b :: body => (NetworkDispatcherForPeer peerZID (UnpackHeader b) (NewReader body) s).2
  end.

Lemma decodes_not_nil {A} (m : RM A) v e : consumes 1 m -> decodes m v e -> e <> [].
Proof.
  intros Hc Hd ->. specialize (Hd (NewReader []) [] (reader_wf_NewReader _) eq_refl).
  destruct (Hc _ _ _ (reader_wf_NewReader []) Hd) as (_ & Ho & _). cbn in Ho. lia.
Qed.

(** One kind of message: what the dispatcher does with its identifier. *)
Lemma message_handled {T} `{WireMessage T} zid (m : T) ctx (hd : T -> Session -> result Session) e :
  25 <= msg_id <= 30 -> wf_msg m -> consumes 1 (decode_msg (msg_header m)) ->
  (forall r s, NetworkDispatcherForPeer zid (msg_header m) r s =
               decode_then ctx (decode_msg (msg_header m)) hd r s) ->
  (forall s, session_ok s -> exists s', hd m s = Ok s' /\ session_ok s') ->
  EncodeNetworkMessage m = Ok e ->
  handled (NetworkDispatcherForPeer zid) (run_bytes zid) session_ok e /\
  forall s, session_ok s -> hd m s = Ok (run_bytes zid e s).
Proof.
  intros Hid Hwf Hc Hdisp Hok He. destruct (msg_round_trip m Hwf) as (body & W & D).
  assert (e = PackHeader (msg_header m) :: body) as ->.
  { unfold EncodeNetworkMessage in He. rewrite (W NewWriter) in He. cbn in He. congruence. }
  assert (Hu : UnpackHeader (PackHeader (msg_header m)) = msg_header m)
    by (apply UnpackHeader_msg; lia).
  assert (Hrun : forall s s', hd m s = Ok s' ->
            run_bytes zid (PackHeader (msg_header m) :: body) s = s').
  { intros s s' Hs. unfold run_bytes. rewrite Hu, Hdisp. unfold decode_then.
    rewrite (D _ []); [by rewrite Hs|apply reader_wf_NewReader|by rewrite app_nil_r]. }
  split.
  - exists (PackHeader (msg_header m)), body. split_and!; [done| | |].
    + by eapply decodes_not_nil.
    + change (Z.land (PackHeader (msg_header m)) HdrIDMask)
        with (hID (UnpackHeader (PackHeader (msg_header m)))).
      rewrite Hu, msg_header_id. unfold IsNetworkMessageID, IDNetworkInterest, IDNetworkOAM. lia.
    + intros r rest s Hs Hr E. destruct (Hok s Hs) as (s' & Hs' & Hi).
      rewrite (Hrun s s' Hs'), Hu, Hdisp. unfold decode_then.
      rewrite (D r rest Hr E), Hs'. done.
  - intros s Hs. destruct (Hok s Hs) as (s' & Hs' & _). by rewrite (Hrun s s' Hs').
Qed.

(** ** Every network message is handled *)

#[export] Hint Extern 1 (consumes 1 (DecodeWireExpr _ _)) =>
  unfold DecodeWireExpr; solve_consumes : consumes.

Lemma consumes_Push_1 h : consumes 1 (DecodePush h).
Proof. unfold DecodePush. solve_consumes. Qed.
Lemma consumes_Request_1 h : consumes 1 (DecodeRequest h).
Proof. unfold DecodeRequest. solve_consumes. Qed.
Lemma consumes_Response_1 h : consumes 1 (DecodeResponse h).
Proof. unfold DecodeResponse. solve_consumes. Qed.
Lemma consumes_ResponseFinal_1 h : consumes 1 (DecodeResponseFinal h).
Proof. unfold DecodeResponseFinal. solve_consumes. Qed.
Lemma consumes_Declare_1 h : consumes 1 (DecodeDeclare h).
Proof. unfold DecodeDeclare. solve_consumes. Qed.
Lemma consumes_Interest_1 h : consumes 1 (DecodeInterest h).
Proof. unfold DecodeInterest. solve_consumes. Qed.

Lemma net_handled zid n e : wf_net n -> encode_net n = Ok e ->
  handled (NetworkDispatcherForPeer zid) (run_bytes zid) session_ok e /\
  forall s, session_ok s -> handle_net zid n s = Ok (run_bytes zid e s).
Proof.
  intros Hwf He.
  assert (Hok : forall s, session_ok s ->
            exists s', handle_net zid n s = Ok s' /\ session_ok s') by (intros s; by apply handle_net_ok).
  destruct n as [m|m|m|m|m|m]; cbn [wf_net encode_net handle_net] in *.
  - eapply (message_handled zid m _ (fun m => onPushFromPeer m zid)); try done.
    apply consumes_Push_1.
  - eapply (message_handled zid m _ onRequest); try done. apply consumes_Request_1.
  - eapply (message_handled zid m _ onResponse); try done. apply consumes_Response_1.
  - eapply (message_handled zid m _ (fun m s => lift_gets (finaliseGet (rfRequestID m) (s_gets s)) s));
      try done. apply consumes_ResponseFinal_1.
  - eapply (message_handled zid m _ (fun m => onDeclareFromPeer m zid)); try done.
    apply consumes_Declare_1.
  - eapply (message_handled zid m _ (fun _ s => Ok s)); try done. apply consumes_Interest_1.
Qed.

(** ** The dispatcher never loops *)

Definition no_fuel {A} (r : result A) : Prop :=
  match r with Ok _ => True | Err e => errors_is e ErrFuel = false end.

Lemma no_fuel_deliver {A} id (a : A) g : no_fuel (deliverReply id a g).
Proof.
  unfold deliverReply. destruct (g_byReq g !! id); [|done].
  destruct (g_store g !! _); [|done]. unfold chan_try_send.
  destruct (ch_closed _); [done|]. by destruct (_ <? _)%nat.
Qed.
Lemma no_fuel_finalise {A} id (g : gets A) : no_fuel (finaliseGet id g).
Proof.
  unfold finaliseGet, close_once. destruct (g_byReq g !! id); [|done]. cbn [g_store].
  destruct (g_store g !! _); [|done]. destruct (co_once _); [done|].
  unfold chan_close. by destruct (ch_closed _).
Qed.
Lemma no_fuel_lift_gets r s : no_fuel r -> no_fuel (lift_gets r s).
Proof. by destruct r. Qed.
Lemma no_fuel_lift_queries r s : no_fuel r -> no_fuel (lift_queries r s).
Proof. by destruct r. Qed.

Create HintDb handlers.
#[export] Hint Resolve no_fuel_deliver no_fuel_finalise no_fuel_lift_gets
  no_fuel_lift_queries : handlers.
#[export] Hint Extern 1 (no_fuel (deliverLivelinessReply _ _ _)) =>
  unfold deliverLivelinessReply : handlers.
#[export] Hint Extern 1 (no_fuel (finaliseLivelinessQuery _ _)) =>
  unfold finaliseLivelinessQuery : handlers.

(** Case analysis on a handler, down to its calls. *)
Ltac solve_handler :=
  repeat first
    [ exact I
    | solve [auto with handlers]
    | match goal with |- no_fuel (match ?x with _ => _ end) => destruct x end
    | reflexivity ].

Lemma no_fuel_onPush m zid s : no_fuel (onPushFromPeer m zid s).
Proof. unfold onPushFromPeer. solve_handler. Qed.
Lemma no_fuel_onRequest m s : no_fuel (onRequest m s).
Proof. unfold onRequest. solve_handler. Qed.
Lemma no_fuel_onResponse m s : no_fuel (onResponse m s).
Proof. unfold onResponse. cbv zeta. solve_handler. Qed.
Lemma no_fuel_onDeclare m zid s : no_fuel (onDeclareFromPeer m zid s).
Proof. unfold onDeclareFromPeer, onTokenDeclare. cbv zeta. solve_handler. Qed.

Lemma forward_decode_then {T} ctx (dec : RM T) hd r s :
  consumes 0 dec -> no_fuel_err dec -> (forall m s, no_fuel (hd m s)) -> reader_wf r ->
  match decode_then ctx dec hd r s with
  | (Ok r', _) => r_buf r' = r_buf r /\ (r_off r <= r_off r')%nat /\ reader_wf r'
  | (Err e, _) => errors_is e ErrFuel = false
  end.
Proof.
  intros Hc Hn Hh Hr. unfold decode_then. destruct (dec r) as [[m r']|e] eqn:E.
  - destruct (Hc _ _ _ Hr E) as (? & ? & ?). specialize (Hh m s).
    destruct (hd m s); [|done]. split_and!; [done|lia|done].
  - cbn. by rewrite (Hn _ _ Hr E).
Qed.

Lemma dispatcher_forward zid : dispatch_forward (NetworkDispatcherForPeer zid).
Proof.
  intros h r s Hr. unfold NetworkDispatcherForPeer.
  destruct (hID h =? _); [|destruct (hID h =? _); [|destruct (hID h =? _);
    [|destruct (hID h =? _); [|destruct (hID h =? _); [|destruct (hID h =? _);
    [|destruct (hID h =? _)]]]]]]; [..|done].
  7: { unfold advance, reader_wf, Reader_Len in *; cbn. split_and!; [done|lia|lia]. }
  all: apply forward_decode_then; auto with consumes no_fuel; intros;
    auto using no_fuel_onPush, no_fuel_onRequest, no_fuel_onResponse, no_fuel_onDeclare with handlers.
  done.
Qed.

(** ** From one session's batcher to the other session *)

(** A network message and the form in which its sender enqueues it: the encoding
    is no longer than [mx], the largest message the receiver reassembles. *)
Definition outgoing_ok (mx : Z) (no : NetworkMessage * OutboundMessage) : Prop :=
  wf_net no.1 /\ encode_net no.1 = Ok (om_Encoded no.2) /\ om_Priority no.2 <= 7 /\
  len (om_Encoded no.2) <= mx.

Definition outgoing_on (k : LaneKey) (ns : list (NetworkMessage * OutboundMessage)) :
    list NetworkMessage :=
  fst <$> filter (fun no => lane_key (om_Priority no.2) (om_Reliable no.2) = k) ns.

(** The handlers of a list of messages, one after the other. *)
Fixpoint handle_all (zid : ZenohID) (ns : list NetworkMessage) (s : Session) : result Session :=
  match ns with
  | [] => Ok s
  | n :: ns => match handle_net zid n s with Ok s' => handle_all zid ns s' | Err e => Err e end
  end.

(** A log of encodings that agrees lane by lane with queues of messages is the
    encoding of a log of those messages. *)
Lemma relabel_log (R : NetworkMessage -> bytes -> Prop) log :
  forall f : LaneKey -> list NetworkMessage,
  Forall (fun km => valid_key km.1) log ->
  (forall k, valid_key k -> Forall2 R (f k) (log_on k log)) ->
  exists log', log'.*1 = log.*1 /\ Forall2 R log'.*2 log.*2 /\
    forall k, valid_key k -> log_on k log' = f k.
Proof.
  induction log as [|[k e] log IH]; intros f Hv Hf.
  { exists []. split; [done|]. split; [constructor|]. intros k Hk. specialize (Hf k Hk).
    by apply Forall2_nil_inv_r in Hf as ->. }
  apply Forall_cons in Hv as [Hk Hv]. cbn [fst] in Hk. pose proof (Hf k Hk) as Hfk.
  unfold log_on in Hfk. rewrite filter_cons_True in Hfk by done. cbn [fmap list_fmap snd] in Hfk.
  apply Forall2_cons_inv_r in Hfk as (n & rest & Hn & Hrest & Ek).
  destruct (IH (upd k rest f) Hv) as (log' & H0 & H1 & H2).
  { intros k' Hk'. destruct (decide (k' = k)) as [->|Hne]; [by rewrite upd_same|].
    rewrite upd_other by done. specialize (Hf k' Hk'). unfold log_on in *.
    rewrite filter_cons_False in Hf; [done|]. cbn. congruence. }
  exists ((k, n) :: log'). split; [cbn; by f_equal|]. split; [by constructor|]. intros k' Hk'.
  specialize (H2 k' Hk'). unfold log_on in *. destruct (decide (k' = k)) as [->|Hne].
  - rewrite upd_same in H2. rewrite filter_cons_True by done. cbn. by rewrite H2.
  - rewrite upd_other in H2 by done. rewrite filter_cons_False; [done|]. cbn. congruence.
Qed.

Lemma handle_all_effects zid ns es s :
  Forall2 (fun n e => wf_net n /\ encode_net n = Ok e) ns es -> session_ok s ->
  handle_all zid ns s = Ok (effects (run_bytes zid) es s) /\
  session_ok (effects (run_bytes zid) es s).
Proof.
  intros H. revert s. induction H as [|n e ns es [Hw He] _ IH]; intros s Hs; [done|].
  destruct (net_handled zid n e Hw He) as [Hh Hr]. cbn [handle_all]. rewrite (Hr s Hs).
  apply IH. by eapply handled_inv.
Qed.

Lemma sent_on_outgoing (R : NetworkMessage -> bytes -> Prop) k ns :
  Forall (fun no => R no.1 (om_Encoded no.2)) ns ->
  Forall2 R (outgoing_on k ns) (sent_on k ns.*2).
Proof.
  unfold outgoing_on, sent_on. induction 1 as [|[n o] ns H _ IH]; [constructor|].
  cbn [fmap list_fmap snd]. destruct (decide (lane_key (om_Priority o) (om_Reliable o) = k)).
  - rewrite !filter_cons_True by done. by constructor.
  - rewrite !filter_cons_False by done. done.
Qed.


(** C38: On every batch, well-formed or not, and in every state of the
    session and the reassembler, the reader's nested loops stop: the fuel
    given to them, the number of bytes, never runs out. *)
Theorem processBatch_terminates zid batch x :
  no_fuel (processBatch (NetworkDispatcherForPeer zid) batch x).1.
Proof.
  destruct (processBatch _ batch x) as [[?|e] x'] eqn:E; [done|].
  eapply processBatch_no_fuel_error; [apply (dispatcher_forward zid)|exact E].
Qed.

(** A 100-byte payload, which is fragmented, between two small messages. *)
Definition sample_push (n : nat) : NetworkMessage :=
  NPush (mkPush (mkWireExpr 0 (str "demo/a") false) []
    (Some (PPut (mkPutBody None None [] (replicate n 7))))).
Definition sample_outgoing (n : NetworkMessage) (priority : Z) :
    NetworkMessage * OutboundMessage :=
  (n, mkOutbound (match encode_net n with Ok e => e | Err _ => [] end) priority true false).
Definition sample_traffic : list (NetworkMessage * OutboundMessage) :=
  [sample_outgoing (sample_push 3) 5; sample_outgoing (sample_push 100) 5;
   sample_outgoing (NResponseFinal (mkResponseFinal 9 [])) 2].


(** C39: The handler of every well-formed network message succeeds in every
    session that satisfies the invariant, and keeps the invariant: no send
    on a closed channel, no double close, exact matching counts. *)
Theorem handlers_total zid n s : wf_net n -> session_ok s ->
  exists s', handle_net zid n s = Ok s' /\ session_ok s'.
Proof. apply handle_net_ok. Qed.

Lemma handlers_total_witness :
  exists s', handle_net (mkZID [1]) (sample_push 3) NewSession = Ok s' /\ session_ok s'.
Proof. apply handlers_total; [by_eval|apply session_ok_new]. Defined.
