(* ===== verification/Consolidation.v ===== *)
(** * zenoh/get.go: the consolidation of replies

    The goroutines between the channel of raw replies of a Get and the channel
    the user reads.  The input is the replies received until the channel
    closes; the output is what is sent to the user.  Each [select] against
    [ctx.Done()] asks [done], the cancellation as the [n]-th select sees it. *)
From S2P Require Import Prelude WirePrim WireNetwork KeyExpr Session.

(** ** Public values *)

Definition SampleKindPut : Z := 0.
Definition SampleKindDelete : Z := 1.

(** [option] stands for the pairs of a value and its [has] flag. *)
Record Sample := mkSample {
  sa_keyExpr : KeyExpr; sa_payload : bytes; sa_kind : Z;
  sa_encoding : option Encoding; sa_ts : option Timestamp }.

Record Reply := mkReply {
  rp_keyExpr : KeyExpr; rp_sample : option Sample; rp_errBody : option ErrBody }.

Definition buildPublicReply (raw : InboundReply) : Reply :=
  let ke := ir_ParsedKeyExpr raw in
  match ir_Put raw with
  | Some p =>
      mkReply ke (Some (mkSample ke (pbPayload p) SampleKindPut (pbEncoding p) (pbTimestamp p)))
        None
  | None =>
      match ir_Del raw with
      | Some d => mkReply ke (Some (mkSample ke [] SampleKindDelete None (dbTimestamp d))) None
      | None => mkReply ke None (ir_Err raw)
      end
  end.

Definition reply_key (r : Reply) : bytes := KeyExpr_String (rp_keyExpr r).

(** The time of a data reply that carries a timestamp. *)
Definition reply_time (r : Reply) : option Z :=
  match rp_sample r with
  | Some s => tNTP64 <$> sa_ts s
  | None => None
  end.

(** ** The translators *)

Section Translators.
(** Does the [n]-th select take the cancellation? *)
Variable done : nat -> bool.

(** [decide] is a closure over the state [St]. *)
Fixpoint streamRepliesGeneric {St In} (decide : St -> In -> Reply * bool * St)
    (n : nat) (st : St) (inbound : list In) : list Reply :=
  match inbound with
  | [] => []
  | raw :: inbound =>
      let '(reply, keep, st) := decide st raw in
      if negb keep then streamRepliesGeneric decide n st inbound
      else if done n then [] else reply :: streamRepliesGeneric decide (S n) st inbound
  end.

Definition runStreamTranslator (inbound : list InboundReply) : list Reply :=
  streamRepliesGeneric (fun st raw => (buildPublicReply raw, true, st)) 0 tt inbound.

Definition monotonic_decide (latest : gmap (list Z) Z) (raw : InboundReply) :
    Reply * bool * gmap (list Z) Z :=
  let reply := buildPublicReply raw in
  match reply_time reply with
  | Some ts =>
      match latest !! reply_key reply with
      | Some prev =>
          if ts <=? prev then (reply, false, latest)
          else (reply, true, <[reply_key reply := ts]> latest)
      | None => (reply, true, <[reply_key reply := ts]> latest)
      end
  | None => (reply, true, latest)
  end.

Definition runMonotonicTranslator (inbound : list InboundReply) : list Reply :=
  streamRepliesGeneric monotonic_decide 0 ∅ inbound.

(** The variables of [runLatestTranslator]; an entry is a reply and its time. *)
Record latest_state := mkLatest {
  la_buf : gmap (list Z) (Reply * option Z); la_order : list bytes; la_errs : list Reply }.

Definition latest_take (st : latest_state) (raw : InboundReply) : latest_state :=
  let reply := buildPublicReply raw in
  match rp_sample reply with
  | None => mkLatest (la_buf st) (la_order st) (la_errs st ++ [reply])
  | Some _ =>
      let key := reply_key reply in
      let entry := (reply, reply_time reply) in
      match la_buf st !! key with
      | Some (_, prev) =>
          match reply_time reply, prev with
          | Some ts, Some prev_ts =>
              if ts <=? prev_ts then st
              else mkLatest (<[key := entry]> (la_buf st)) (la_order st) (la_errs st)
          | _, _ => mkLatest (<[key := entry]> (la_buf st)) (la_order st) (la_errs st)
          end
      | None => mkLatest (<[key := entry]> (la_buf st)) (la_order st ++ [key]) (la_errs st)
      end
  end.

Fixpoint flush (n : nat) (rs : list Reply) : list Reply :=
  match rs with
  | [] => []
  | r :: rs => if done n then [] else r :: flush (S n) rs
  end.

Fixpoint latest_loop (n : nat) (st : latest_state) (inbound : list InboundReply) : list Reply :=
  if done n then []
  else match inbound with
       | [] => flush (S n) (la_errs st ++ omap (fun k => fst <$> la_buf st !! k) (la_order st))
       | raw :: inbound => latest_loop (S n) (latest_take st raw) inbound
       end.

Definition runLatestTranslator (inbound : list InboundReply) : list Reply :=
  latest_loop 0 (mkLatest ∅ [] []) inbound.

Definition runReplyTranslator (inbound : list InboundReply) (mode : Z) : list Reply :=
  if mode =? ConsolidationNone then runStreamTranslator inbound
  else if mode =? ConsolidationMonotonic then runMonotonicTranslator inbound
  else runLatestTranslator inbound.

(** Two selects per reply: the receive and the send. *)
Fixpoint budgetLimit_loop (src : list InboundReply) (n count budget : nat) : list InboundReply :=
  if (budget <=? count)%nat then []
  else if done n then []
  else match src with
       | [] => []
       | r :: src =>
           if done (S n) then [] else r :: budgetLimit_loop src (S (S n)) (S count) budget
       end.

Definition budgetLimit (src : list InboundReply) (budget : Z) : list InboundReply :=
  budgetLimit_loop src 0 0 (Z.to_nat budget).
End Translators.

(** A context that is never cancelled. *)
Definition background : nat -> bool := fun _ => false.

(** ** Monotonic *)

Definition same_key (r r' : Reply) : Prop := reply_key r = reply_key r'.

(** Some reply seen before carries a time at least as late, for the same key. *)
Definition outdated (seen : list Reply) (r : Reply) : Prop :=
  exists r' t t', r' ∈ seen /\ same_key r' r /\ reply_time r = Some t /\
    reply_time r' = Some t' /\ t <= t'.

(** [kept seen rs out]: [out] is [rs] without the replies that are outdated by
    the ones before them, those of [seen] included. *)
Inductive kept : list Reply -> list Reply -> list Reply -> Prop :=
  | kept_nil seen : kept seen [] []
  | kept_take seen r rs out :
      ~ outdated seen r -> kept (seen ++ [r]) rs out -> kept seen (r :: rs) (r :: out)
  | kept_drop seen r rs out :
      outdated seen r -> kept (seen ++ [r]) rs out -> kept seen (r :: rs) out.

(** [latest] holds the latest time seen for every key. *)
Definition high_water (latest : gmap (list Z) Z) (seen : list Reply) : Prop :=
  (forall r t, r ∈ seen -> reply_time r = Some t ->
     exists w, latest !! reply_key r = Some w /\ t <= w) /\
  (forall k w, latest !! k = Some w ->
     exists r, r ∈ seen /\ reply_key r = k /\ reply_time r = Some w).

Lemma high_water_unstamped latest seen r :
  high_water latest seen -> reply_time r = None -> high_water latest (seen ++ [r]).
Proof.
  intros [H1 H2] Hr. split.
  - intros x t [Hx|Hx%list_elem_of_singleton]%elem_of_app Ht; [by apply H1|congruence].
  - intros k w Hk. destruct (H2 k w Hk) as (x & Hx & ?). exists x. set_solver.
Qed.

Lemma high_water_stamped latest seen r t : high_water latest seen -> reply_time r = Some t ->
  (forall w, latest !! reply_key r = Some w -> w < t) ->
  high_water (<[reply_key r := t]> latest) (seen ++ [r]).
Proof.
  intros [H1 H2] Hr Hw. split.
  - intros x u [Hx|Hx%list_elem_of_singleton]%elem_of_app Hu.
    + destruct (H1 x u Hx Hu) as (w & Hk & Hle). destruct (decide (reply_key x = reply_key r)) as [E|E].
      * rewrite E, lookup_insert_eq. exists t. rewrite E in Hk. specialize (Hw w Hk). split; [done|lia].
      * rewrite lookup_insert_ne by done. by exists w.
    + subst. rewrite lookup_insert_eq. exists t. split; [done|]. simplify_eq. lia.
  - intros k w [[<- <-]|[Hne Hk]]%lookup_insert_Some; [exists r; set_solver|].
    destruct (H2 k w Hk) as (x & Hx & ?). exists x. set_solver.
Qed.

Lemma high_water_dropped latest seen r t w : high_water latest seen -> reply_time r = Some t ->
  latest !! reply_key r = Some w -> t <= w -> high_water latest (seen ++ [r]).
Proof.
  intros [H1 H2] Hr Hk Hle. split.
  - intros x u [Hx|Hx%list_elem_of_singleton]%elem_of_app Hu; [by apply H1|].
    subst. simplify_eq. by exists w.
  - intros k v Hv. destruct (H2 k v Hv) as (x & Hx & ?). exists x. set_solver.
Qed.

Lemma monotonic_kept inbound : forall n latest seen, high_water latest seen ->
  kept seen (buildPublicReply <$> inbound)
    (streamRepliesGeneric background monotonic_decide n latest inbound).
Proof.
  induction inbound as [|raw inbound IH]; intros n latest seen Hw; [constructor|].
  cbn [fmap list_fmap streamRepliesGeneric]. unfold monotonic_decide at 1.
  set (r := buildPublicReply raw). destruct (reply_time r) as [t|] eqn:Et.
  2:{ constructor; [|by apply IH, high_water_unstamped].
      intros (r' & u & t' & _ & _ & E & _). congruence. }
  assert (Hnew : (forall w, latest !! reply_key r = Some w -> w < t) -> ~ outdated seen r).
  { intros Hlt (r' & u & t' & Hin & Hsk & E & E' & Hle). destruct Hw as [H1 _].
    destruct (H1 r' t' Hin E') as (w & Hk & Hle'). rewrite Hsk in Hk. specialize (Hlt w Hk).
    simplify_eq. lia. }
  destruct (latest !! reply_key r) as [prev|] eqn:Ep.
  - destruct (Z.leb_spec t prev) as [Hle|Hlt]; cbn [negb].
    + apply kept_drop; [|by eapply IH, high_water_dropped].
      destruct Hw as [_ H2]. destruct (H2 _ _ Ep) as (x & Hx & Hk & Ht). by exists x, t, prev.
    + constructor; [apply Hnew; naive_solver|]. apply IH, high_water_stamped; [done..|].
      rewrite Ep. naive_solver.
  - constructor; [apply Hnew; naive_solver|]. apply IH, high_water_stamped; [done..|].
    rewrite Ep. naive_solver.
Qed.

(** ** Cancellation *)

Lemma streamRepliesGeneric_prefix {St In} (decide : St -> In -> Reply * bool * St) done inbound :
  forall n m st, streamRepliesGeneric done decide n st inbound `prefix_of`
                 streamRepliesGeneric background decide m st inbound.
Proof.
  induction inbound as [|raw inbound IH]; intros n m st; [done|]. cbn.
  destruct (decide st raw) as [[r []] st'] eqn:E; cbn; [|apply IH].
  destruct (done n); [apply prefix_nil|]. apply prefix_cons, IH.
Qed.

Lemma flush_prefix done rs : forall n, flush done n rs `prefix_of` rs.
Proof.
  induction rs as [|r rs IH]; intros n; [done|]. cbn. destruct (done n); [apply prefix_nil|].
  by apply prefix_cons.
Qed.

Lemma flush_background rs n : flush background n rs = rs.
Proof. revert n. induction rs as [|r rs IH]; intros n; [done|]. cbn. by f_equal. Qed.

Lemma latest_loop_prefix done inbound : forall n m st,
  latest_loop done n st inbound `prefix_of` latest_loop background m st inbound.
Proof.
  induction inbound as [|raw inbound IH]; intros n m st; cbn; (destruct (done n); [apply prefix_nil|]).
  - rewrite flush_background. apply flush_prefix.
  - apply IH.
Qed.

(** With the Monotonic mode a Get delivers, in the order of arrival,
    exactly the replies that no earlier reply of the same key equals or
    exceeds in time; errors and unstamped replies always pass. A
    cancellation at any point leaves a prefix of this. *)
Theorem consolidation_monotonic done inbound :
  exists out, kept [] (buildPublicReply <$> inbound) out /\
    runReplyTranslator background inbound ConsolidationMonotonic = out /\
    runReplyTranslator done inbound ConsolidationMonotonic `prefix_of` out.
Proof.
  eexists. split; [|split; [reflexivity|apply streamRepliesGeneric_prefix]].
  apply (monotonic_kept inbound 0 ∅ []). split; [by intros r t ?%elem_of_nil|].
  intros k w Hk. by rewrite lookup_empty in Hk.
Qed.

(** ** Latest *)

Definition is_data (r : Reply) : Prop := is_Some (rp_sample r).
#[export] Instance is_data_dec r : Decision (is_data r) := is_Some_dec (rp_sample r).

(** The keys of the data replies, in the order of their first arrival. *)
Definition arrival_order (rs : list Reply) : list bytes :=
  reverse (remove_dups (reverse (reply_key <$> rs))).

(** [r] is the first of the latest replies of its key. *)
Definition newest (rs : list Reply) (r : Reply) : Prop :=
  exists pre post t, rs = pre ++ r :: post /\ reply_time r = Some t /\
    (forall x u, x ∈ pre -> same_key x r -> reply_time x = Some u -> u < t) /\
    (forall x u, x ∈ post -> same_key x r -> reply_time x = Some u -> u <= t).

Lemma arrival_order_snoc rs r : arrival_order (rs ++ [r]) =
  if decide (reply_key r ∈ reply_key <$> rs) then arrival_order rs
  else arrival_order rs ++ [reply_key r].
Proof.
  unfold arrival_order. rewrite fmap_app, reverse_app.
  change (reverse (reply_key <$> [r])) with [reply_key r]. cbn [app remove_dups].
  destruct (decide_rel _ _ _) as [H|H]; rewrite elem_of_reverse in H.
  - by rewrite decide_True.
  - rewrite decide_False by done. by rewrite reverse_cons.
Qed.

Lemma elem_of_arrival_order rs k : k ∈ arrival_order rs <-> k ∈ reply_key <$> rs.
Proof. unfold arrival_order. by rewrite elem_of_reverse, elem_of_remove_dups, elem_of_reverse. Qed.

Lemma newest_snoc_other rs r x : newest rs r ->
  (same_key x r -> forall t u, reply_time r = Some t -> reply_time x = Some u -> u <= t) ->
  newest (rs ++ [x]) r.
Proof.
  intros (pre & post & t & -> & Ht & H1 & H2) Hx. exists pre, (post ++ [x]), t.
  rewrite <- app_assoc. split_and!; [done|done|done|].
  intros y u [Hy|Hy%list_elem_of_singleton]%elem_of_app Hk Hu; [by eapply H2|]. subst. by eapply Hx.
Qed.

Lemma newest_snoc_new rs r t : reply_time r = Some t ->
  (forall x u, x ∈ rs -> same_key x r -> reply_time x = Some u -> u < t) ->
  newest (rs ++ [r]) r.
Proof. intros Ht H. exists rs, [], t. split_and!; [done|done|done|]. by intros x u ?%elem_of_nil. Qed.

(** A reply that beats the newest one of its key beats them all. *)
Lemma newest_max rs r t : newest rs r -> reply_time r = Some t ->
  forall x u, x ∈ rs -> same_key x r -> reply_time x = Some u -> u <= t.
Proof.
  intros (pre & post & t' & -> & Ht & H1 & H2) Ht' x u Hx Hk Hu. simplify_eq.
  apply elem_of_app in Hx as [Hx|Hx]; [specialize (H1 x u Hx Hk Hu); lia|].
  apply elem_of_cons in Hx as [->|Hx]; [simplify_eq; lia|by eapply H2].
Qed.

(** The variables after the replies [rs]. *)
Record latest_ok (rs : list Reply) (st : latest_state) : Prop := {
  lo_errs : la_errs st = filter (fun r => ~ is_data r) rs;
  lo_order : la_order st = arrival_order (filter is_data rs);
  lo_dom : forall k, is_Some (la_buf st !! k) <-> k ∈ la_order st;
  lo_buf : forall k r t, la_buf st !! k = Some (r, t) ->
    reply_key r = k /\ t = reply_time r /\ newest (filter is_data rs) r;
}.

Definition stamped (rs : list Reply) : Prop :=
  Forall (fun r => is_data r -> is_Some (reply_time r)) rs.

Lemma filter_snoc_data rs r : is_data r ->
  filter is_data (rs ++ [r]) = filter is_data rs ++ [r] /\
  filter (fun x => ~ is_data x) (rs ++ [r]) = filter (fun x => ~ is_data x) rs.
Proof.
  intros H. rewrite !filter_app, !filter_cons. repeat case_decide; try done.
  by rewrite app_nil_r.
Qed.

Lemma filter_snoc_err rs r : ~ is_data r ->
  filter is_data (rs ++ [r]) = filter is_data rs /\
  filter (fun x => ~ is_data x) (rs ++ [r]) = filter (fun x => ~ is_data x) rs ++ [r].
Proof.
  intros H. rewrite !filter_app, !filter_cons. repeat case_decide; try done.
  by rewrite app_nil_r.
Qed.

(** Storing the reply [r], newest of its key. *)
Lemma latest_ok_store rs st r order :
  is_data r -> latest_ok rs st -> newest (filter is_data rs ++ [r]) r ->
  order = arrival_order (filter is_data rs ++ [r]) ->
  (forall k, k ∈ order <-> k = reply_key r \/ k ∈ la_order st) ->
  latest_ok (rs ++ [r])
    (mkLatest (<[reply_key r := (r, reply_time r)]> (la_buf st)) order (la_errs st)).
Proof.
  intros Hdata [He Ho Hd Hb] Hn Hord Hin. destruct (filter_snoc_data rs r Hdata) as [E1 E2].
  constructor; cbn; rewrite ?E1, ?E2; [done|done| |].
  - intros k. rewrite Hin, lookup_insert_is_Some, <- Hd. destruct (decide (reply_key r = k)); naive_solver.
  - intros k r' t [[<- [= <- <-]]|[Hne Hk]]%lookup_insert_Some; [done|].
    destruct (Hb k r' t Hk) as (<- & -> & H). split_and!; [done|done|].
    apply newest_snoc_other; [done|]. intros Hs. by destruct Hne.
Qed.

Lemma latest_ok_err rs st r : ~ is_data r -> latest_ok rs st ->
  latest_ok (rs ++ [r]) (mkLatest (la_buf st) (la_order st) (la_errs st ++ [r])).
Proof.
  intros H [He Ho Hd Hb]. destruct (filter_snoc_err rs r H) as [E1 E2].
  constructor; cbn; rewrite ?E1, ?E2; [by rewrite He|done..].
Qed.

Lemma latest_ok_old rs st r prev t pt : is_data r -> latest_ok rs st ->
  la_buf st !! reply_key r = Some (prev, Some pt) -> reply_time r = Some t -> t <= pt ->
  latest_ok (rs ++ [r]) st.
Proof.
  intros Hdata [He Ho Hd Hb] Hk Ht Hle. destruct (filter_snoc_data rs r Hdata) as [E1 E2].
  assert (Hin : reply_key r ∈ la_order st) by (apply Hd; by rewrite Hk).
  constructor; rewrite ?E1, ?E2; [done| |done|].
  - rewrite arrival_order_snoc, decide_True; [done|]. by rewrite <- elem_of_arrival_order, <- Ho.
  - intros k r' u Hk'. destruct (Hb k r' u Hk') as (Ek & Eu & H). split_and!; [done|done|].
    apply newest_snoc_other; [done|]. intros Hs t' u' Ht' Hu'. unfold same_key in Hs.
    rewrite Hs, Ek, Hk' in Hk. injection Hk as -> ->.
    assert (t' = pt) by congruence. assert (u' = t) by congruence. lia.
Qed.

Lemma latest_ok_snoc rs st raw : stamped (rs ++ [buildPublicReply raw]) -> latest_ok rs st ->
  latest_ok (rs ++ [buildPublicReply raw]) (latest_take st raw).
Proof.
  intros Hst Hok. pose proof Hok as [He Ho Hd Hb]. unfold latest_take.
  set (r := buildPublicReply raw) in *. apply Forall_app in Hst as [_ Hr].
  apply Forall_cons in Hr as [Hr _].
  destruct (rp_sample r) as [s|] eqn:Es.
  2:{ apply latest_ok_err; [|done]. unfold is_data. rewrite Es. by intros []. }
  assert (Hdata : is_data r) by (unfold is_data; by rewrite Es).
  destruct (Hr Hdata) as [t Ht]. cbv zeta.
  assert (Hin : reply_key r ∈ reply_key <$> filter is_data rs <-> is_Some (la_buf st !! reply_key r))
    by (rewrite Hd, Ho; by rewrite elem_of_arrival_order).
  destruct (la_buf st !! reply_key r) as [[prev pt]|] eqn:Ek.
  - destruct (Hb _ _ _ Ek) as (Ekey & -> & Hn). pose proof Hn as (pre & post & pt & _ & Ept & _).
    rewrite Ept, Ht in *. assert (Hin' : reply_key r ∈ la_order st) by (apply Hd; by rewrite Ek).
    destruct (Z.leb_spec t pt) as [Hle|Hlt]; [by eapply latest_ok_old|].
    rewrite <- Ht. apply latest_ok_store; [done|done| | |set_solver].
    + apply newest_snoc_new with t; [done|]. intros x u Hx Hk Hu.
      assert (u <= pt); [|lia]. eapply (newest_max _ prev); [done|done|exact Hx| |done].
      unfold same_key in *. congruence.
    + rewrite arrival_order_snoc, decide_True; [done|]. rewrite Hin. by eexists.
  - assert (Hni : reply_key r ∉ reply_key <$> filter is_data rs) by (rewrite Hin; by intros []).
    apply latest_ok_store; [done|done| | |set_solver].
    + apply newest_snoc_new with t; [done|]. intros x u Hx Hk Hu. exfalso. apply Hni.
      apply list_elem_of_fmap. by exists x.
    + by rewrite arrival_order_snoc, decide_False, Ho.
Qed.

Lemma latest_run inbound : stamped (buildPublicReply <$> inbound) ->
  latest_ok (buildPublicReply <$> inbound) (fold_left latest_take inbound (mkLatest ∅ [] [])).
Proof.
  induction inbound as [|raw inbound IH] using rev_ind; intros Hst.
  { constructor; cbn; [done|done| |]; intros k; rewrite lookup_empty; [|done].
    split; [by intros []|by intros ?%elem_of_nil]. }
  rewrite fold_left_app, fmap_app in *. apply latest_ok_snoc; [done|].
  apply IH. by apply Forall_app in Hst as [].
Qed.

Lemma latest_loop_background inbound : forall n st,
  latest_loop background n st inbound =
  let st' := fold_left latest_take inbound st in
  la_errs st' ++ omap (fun k => fst <$> la_buf st' !! k) (la_order st').
Proof.
  induction inbound as [|raw inbound IH]; intros n st; cbn; [by rewrite flush_background|].
  by rewrite IH.
Qed.

(** With the Latest or Auto mode, when every data reply carries a
    timestamp, a Get delivers first the errors in the order of arrival, then
    exactly one reply per key, in the order of the keys' first arrival: the
    first of those with the largest timestamp of that key. A cancellation at
    any point leaves a prefix of this. *)
Theorem consolidation_latest done inbound mode :
  mode <> ConsolidationNone -> mode <> ConsolidationMonotonic ->
  let rs := buildPublicReply <$> inbound in
  stamped rs ->
  exists data,
    runReplyTranslator background inbound mode = filter (fun r => ~ is_data r) rs ++ data /\
    (reply_key <$> data) = arrival_order (filter is_data rs) /\
    Forall (newest (filter is_data rs)) data /\
    runReplyTranslator done inbound mode `prefix_of` runReplyTranslator background inbound mode.
Proof.
  intros H1 H2 rs Hst. unfold runReplyTranslator.
  rewrite (proj2 (Z.eqb_neq _ _) H1), (proj2 (Z.eqb_neq _ _) H2).
  unfold runLatestTranslator. rewrite latest_loop_background. cbv zeta.
  destruct (latest_run inbound Hst) as [He Ho Hd Hb]. fold rs in He, Ho, Hb. rewrite He.
  set (st := fold_left _ _ _) in *.
  eexists. split; [reflexivity|].
  assert (Hall : forall l, (forall k, k ∈ l -> k ∈ la_order st) ->
    (reply_key <$> omap (fun k => fst <$> la_buf st !! k) l) = l /\
    Forall (newest (filter is_data rs)) (omap (fun k => fst <$> (la_buf st !! k)) l)).
  { induction l as [|k l IH]; intros Hl; [done|]. cbn.
    assert (is_Some (la_buf st !! k)) as [[r t] Ek] by (apply Hd, Hl; by left).
    rewrite Ek. cbn. destruct (Hb _ _ _ Ek) as (Hk & _ & Hn).
    destruct IH as [E Hf]; [intros x Hx; apply Hl; by right|].
    split; [by rewrite E, Hk|by constructor]. }
  destruct (Hall (la_order st)) as [E Hf]; [done|]. rewrite E. split_and!; [by rewrite Ho|done|].
  etransitivity; [apply latest_loop_prefix with (m := 0%nat)|]. rewrite latest_loop_background. cbv zeta.
  subst st. by rewrite He.
Qed.

(** ** Concrete replies *)

Definition sample_reply (key : bytes) (time : option Z) (payload : bytes) : InboundReply :=
  mkInboundReply key (mkKeyExpr key)
    (Some (mkPutBody ((fun t => mkTimestamp t (mkZID [7])) <$> time) None [] payload)) None None.

Definition payloads (rs : list Reply) : list bytes := omap (fun r => sa_payload <$> rp_sample r) rs.

(** Keys [a] (97) and [b] (98): the reply of [a] with time 9 replaces the one
    with time 5, the one with time 8 arrives too late. *)
Definition four_replies : list InboundReply :=
  [sample_reply [97] (Some 5) [1]; sample_reply [98] (Some 6) [2];
   sample_reply [97] (Some 9) [3]; sample_reply [97] (Some 8) [4]].

Example four_replies_latest :
  payloads (runReplyTranslator background four_replies ConsolidationAuto) = [[3]; [2]].
Proof. vm_compute. reflexivity. Qed.

Example four_replies_monotonic :
  payloads (runReplyTranslator background four_replies ConsolidationMonotonic) = [[1]; [2]; [3]].
Proof. vm_compute. reflexivity. Qed.

(** A cancellation at the send of the second reply. *)
Example four_replies_cancelled :
  payloads (runReplyTranslator (fun n => (6 <=? n)%nat) four_replies ConsolidationAuto) = [[3]].
Proof. vm_compute. reflexivity. Qed.

Lemma consolidation_latest_witness :
  let rs := buildPublicReply <$> four_replies in
  exists data,
    runReplyTranslator background four_replies ConsolidationAuto =
      filter (fun r => ~ is_data r) rs ++ data /\
    (reply_key <$> data) = arrival_order (filter is_data rs) /\
    Forall (newest (filter is_data rs)) data /\
    runReplyTranslator (fun n => (6 <=? n)%nat) four_replies ConsolidationAuto `prefix_of`
      runReplyTranslator background four_replies ConsolidationAuto.
Proof.
  apply (consolidation_latest (fun n => (6 <=? n)%nat) four_replies ConsolidationAuto); [done|done|].
  unfold stamped, four_replies. repeat constructor; intros _; by eexists.
Defined.

(** The reply with time 5 is forgotten at the unstamped reply, so that the
    later one with time 3 is the one emitted. *)
Example latest_unstamped_poison :
  payloads (runReplyTranslator background
    [sample_reply [97] (Some 5) [1]; sample_reply [97] None [2]; sample_reply [97] (Some 3) [3]]
    ConsolidationLatest) = [[3]].
Proof. vm_compute. reflexivity. Qed.

(** ** The budget *)

Lemma budgetLimit_loop_spec done src : forall n count budget,
  budgetLimit_loop done src n count budget `prefix_of` take (budget - count) src.
Proof.
  induction src as [|r src IH]; intros n count budget; cbn [budgetLimit_loop].
  - destruct (_ <=? _)%nat; [apply prefix_nil|]. destruct (done n); apply prefix_nil.
  - destruct (Nat.leb_spec budget count) as [H|H]; [apply prefix_nil|].
    destruct (done n); [apply prefix_nil|]. destruct (done (S n)); [apply prefix_nil|].
    replace (budget - count)%nat with (S (budget - S count)) by lia.
    apply prefix_cons, IH.
Qed.

Lemma budgetLimit_loop_background src : forall n count budget,
  budgetLimit_loop background src n count budget = take (budget - count) src.
Proof.
  induction src as [|r src IH]; intros n count budget; cbn [budgetLimit_loop].
  - destruct (_ <=? _)%nat; by rewrite take_nil.
  - destruct (Nat.leb_spec budget count) as [H|H].
    + by replace (budget - count)%nat with 0%nat by lia.
    + cbn. rewrite IH. by replace (budget - count)%nat with (S (budget - S count)) by lia.
Qed.

(** The budget cuts the stream of replies after [budget] of them. *)
Lemma budgetLimit_spec done src budget :
  budgetLimit background src budget = take (Z.to_nat budget) src /\
  budgetLimit done src budget `prefix_of` take (Z.to_nat budget) src.
Proof.
  unfold budgetLimit. rewrite budgetLimit_loop_background, Nat.sub_0_r. split; [done|].
  etransitivity; [apply budgetLimit_loop_spec|]. by rewrite Nat.sub_0_r.
Qed.
