(* ===== verification/Encodings.v ===== *)
(** * zenoh/encoding.go: encodings as strings

    The catalogue of predefined encodings, the printer [String] and the
    parser [NewEncodingFromString]. The public [Encoding] has the two fields
    of the wire's one, whose record is used for both ([toWire],
    [encodingFromWire]). *)
From S2P Require Import Prelude WirePrim.
From Stdlib Require Import DecimalString.

Definition schemaSep : Z := 59.

(** The names in the order of their ids. *)
Definition encodingIDToPrefix : list bytes := str <$> [
  "zenoh/bytes"; "zenoh/string"; "zenoh/serialized"; "application/octet-stream";
  "text/plain"; "application/json"; "text/json"; "application/cdr"; "application/cbor";
  "application/yaml"; "text/yaml"; "text/json5"; "application/python-serialized-object";
  "application/protobuf"; "application/java-serialized-object";
  "application/openmetrics-text"; "image/png"; "image/jpeg"; "image/gif"; "image/bmp";
  "image/webp"; "application/xml"; "application/x-www-form-urlencoded"; "text/html";
  "text/xml"; "text/css"; "text/javascript"; "text/markdown"; "text/csv";
  "application/sql"; "application/coap-payload"; "application/json-patch+json";
  "application/json-seq"; "application/jsonpath"; "application/jwt"; "application/mp4";
  "application/soap+xml"; "application/yang"; "audio/aac"; "audio/flac"; "audio/mp4";
  "audio/ogg"; "audio/vorbis"; "video/h261"; "video/h263"; "video/h264"; "video/h265";
  "video/h266"; "video/mp4"; "video/ogg"; "video/raw"; "video/vp8"; "video/vp9"]%string.

Definition lookup_prefix (id : Z) : option bytes :=
  if id <? 0 then None else encodingIDToPrefix !! Z.to_nat id.

(** The map derived from the catalogue at package initialisation. *)
Definition encodingPrefixToID : gmap (list Z) Z :=
  list_to_map (imap (fun i p => (p, Z.of_nat i)) encodingIDToPrefix).

(** [strings.Cut(s, ";")] *)
Fixpoint cut_schema (s : bytes) : bytes * bytes * bool :=
  match s with
  | [] => ([], [], false)
  | b :: s =>
      if b =? schemaSep then ([], s, true)
      else let '(prefix, schema, found) := cut_schema s in (b :: prefix, schema, found)
  end.

Definition NewEncodingFromString (s : bytes) : Encoding :=
  let '(prefix, schema, _) := cut_schema s in
  match encodingPrefixToID !! prefix with
  | Some id => mkEncoding id schema
  | None => mkEncoding 0 s
  end.

(** [strconv.FormatUint(id, 10)] between angle brackets. *)
Definition fmtUnknownEncoding (id : Z) : bytes :=
  str "<" ++ str (NilZero.string_of_uint (N.to_uint (Z.to_N id))) ++ str ">".

Definition Encoding_String (e : Encoding) : bytes :=
  let prefix := match lookup_prefix (encID e) with
                | Some prefix => prefix
                | None => fmtUnknownEncoding (encID e)
                end in
  match encSchema e with
  | [] => prefix
  | _ => prefix ++ schemaSep :: encSchema e
  end.

Definition AllPredefinedEncodings : list Encoding :=
  (fun i => mkEncoding (Z.of_nat i) []) <$> seq 0 (length encodingIDToPrefix).

(** ** The catalogue *)

(** The table has no two equal names, and no name holds the separator. *)
Lemma catalogue_ok :
  NoDup encodingIDToPrefix /\ Forall (fun p => schemaSep ∉ p) encodingIDToPrefix.
Proof.
  split; [apply (bool_decide_eq_true_1 (NoDup encodingIDToPrefix))
         |apply (bool_decide_eq_true_1 (Forall (fun p => schemaSep ∉ p) encodingIDToPrefix))];
    vm_compute; reflexivity.
Qed.

Lemma predefined_length : length encodingIDToPrefix = 53%nat.
Proof. reflexivity. Qed.

Lemma lookup_prefix_Some id p :
  lookup_prefix id = Some p <-> 0 <= id /\ encodingIDToPrefix !! Z.to_nat id = Some p.
Proof. unfold lookup_prefix. destruct (Z.ltb_spec id 0); naive_solver lia. Qed.

(** The derived map is the inverse of the table. *)
Lemma encodingPrefixToID_Some p id :
  encodingPrefixToID !! p = Some id <-> lookup_prefix id = Some p.
Proof.
  unfold encodingPrefixToID. rewrite lookup_prefix_Some, <- elem_of_list_to_map.
  2:{ replace (imap _ encodingIDToPrefix).*1 with encodingIDToPrefix; [apply catalogue_ok|].
      vm_compute. reflexivity. }
  rewrite elem_of_lookup_imap. split.
  - intros (i & x & [= -> ->] & Hi). rewrite Nat2Z.id. split; [lia|done].
  - intros [H Hi]. exists (Z.to_nat id), p. rewrite Z2Nat.id by done. done.
Qed.

(** ** Cut *)

Lemma cut_schema_found prefix schema : schemaSep ∉ prefix ->
  cut_schema (prefix ++ schemaSep :: schema) = (prefix, schema, true).
Proof.
  induction prefix as [|b prefix IH]; intros H; cbn; [done|].
  apply not_elem_of_cons in H as [Hb H]. rewrite (proj2 (Z.eqb_neq _ _)) by congruence.
  cbn in IH. by rewrite IH.
Qed.

Lemma cut_schema_absent s : schemaSep ∉ s -> cut_schema s = (s, [], false).
Proof.
  induction s as [|b s IH]; intros H; cbn; [done|].
  apply not_elem_of_cons in H as [Hb H]. rewrite (proj2 (Z.eqb_neq _ _)) by congruence.
  by rewrite IH.
Qed.

Lemma cut_schema_join s : forall prefix schema found, cut_schema s = (prefix, schema, found) ->
  s = (if found then prefix ++ schemaSep :: schema else prefix) /\
  (found = false -> schema = []).
Proof.
  induction s as [|b s IH]; intros prefix schema found H; cbn in H; [by simplify_eq|].
  destruct (Z.eqb_spec b schemaSep); [by simplify_eq|].
  destruct (cut_schema s) as [[p sc] f]. destruct (IH p sc f eq_refl) as [-> Hs].
  simplify_eq. by destruct found.
Qed.

Lemma encoding_print_parse e p : lookup_prefix (encID e) = Some p ->
  NewEncodingFromString (Encoding_String e) = e.
Proof.
  intros H. pose proof (proj2 (encodingPrefixToID_Some p (encID e)) H) as Hid.
  assert (Hp : schemaSep ∉ p).
  { apply lookup_prefix_Some in H as [_ H]. destruct catalogue_ok as [_ F].
    by apply (Forall_lookup_1 _ _ _ _ F H). }
  unfold NewEncodingFromString, Encoding_String. rewrite H. destruct e as [id schema]; cbn in *.
  destruct schema as [|b schema].
  - by rewrite cut_schema_absent, Hid.
  - by rewrite (cut_schema_found p (b :: schema)), Hid.
Qed.

(** The strings that survive: a known name, followed or not by a non-empty
    schema. *)
Definition canonical (s : bytes) : Prop :=
  exists p schema, p ∈ encodingIDToPrefix /\
    s = match schema with [] => p | _ => p ++ schemaSep :: schema end.

(** What [String] gives back for a parsed string. *)
Lemma encoding_parse_print s : Encoding_String (NewEncodingFromString s) = s <-> canonical s.
Proof.
  split.
  - intros H. unfold NewEncodingFromString in H. destruct (cut_schema s) as [[p schema] f] eqn:Ec.
    destruct (encodingPrefixToID !! p) as [id|] eqn:Ei.
    + apply encodingPrefixToID_Some in Ei. unfold Encoding_String in H. cbn in H. rewrite Ei in H.
      apply lookup_prefix_Some in Ei as [_ Ei]. exists p, schema.
      split; [by eapply list_elem_of_lookup_2|done].
    + exfalso. unfold Encoding_String in H. cbn [encID encSchema] in H.
      change (lookup_prefix 0) with (Some (str "zenoh/bytes")) in H.
      destruct s as [|b s]; [by vm_compute in H|].
      apply (f_equal length) in H. rewrite !length_app in H. cbn in H. lia.
  - intros (p & schema & Hp & ->). apply list_elem_of_lookup in Hp as [i Hi].
    assert (H : lookup_prefix (Z.of_nat i) = Some p)
      by (apply lookup_prefix_Some; rewrite Nat2Z.id; split; [lia|done]).
    pose proof (proj2 (encodingPrefixToID_Some p (Z.of_nat i)) H) as Hid.
    assert (Hsep : schemaSep ∉ p).
    { destruct catalogue_ok as [_ F]. by apply (Forall_lookup_1 _ _ _ _ F Hi). }
    unfold NewEncodingFromString, Encoding_String. cbn [encSchema].
    destruct schema as [|b schema].
    + rewrite cut_schema_absent, Hid by done. cbn [encID encSchema]. by rewrite H.
    + rewrite (cut_schema_found p (b :: schema)), Hid by done. cbn [encID encSchema]. by rewrite H.
Qed.

(** Every encoding of the catalogue, whatever its schema, is read back
    from the string it is printed as; a string is printed back from the
    encoding it is read as exactly when it is a name of the catalogue, alone
    or followed by a non-empty schema: foo/bar and text/plain; are not. *)
Theorem encoding_strings :
  (forall e, is_Some (lookup_prefix (encID e)) ->
     NewEncodingFromString (Encoding_String e) = e) /\
  (forall s, Encoding_String (NewEncodingFromString s) = s <-> canonical s) /\
  ~ canonical (str "foo/bar") /\ ~ canonical (str "text/plain;").
Proof.
  split; [intros e [p Hp]; by eapply encoding_print_parse|].
  split; [apply encoding_parse_print|].
  split; rewrite <- encoding_parse_print; by vm_compute.
Qed.

(** A string that is not in the catalogue is printed as the schema of the
    default encoding; an empty schema loses its separator. *)
Example unknown_not_lossless :
  Encoding_String (NewEncodingFromString (str "foo/bar")) = str "zenoh/bytes;foo/bar" /\
  Encoding_String (NewEncodingFromString (str "text/plain;")) = str "text/plain".
Proof. vm_compute. split; reflexivity. Qed.

(** An encoding outside the catalogue does not parse back either. *)
Example unknown_id_printed :
  Encoding_String (mkEncoding 60 []) = str "<60>" /\
  NewEncodingFromString (str "<60>") = mkEncoding 0 (str "<60>").
Proof. vm_compute. split; reflexivity. Qed.
