(* ===== verification/SessionSpec.v ===== *)
(** * What the session promises to its users

    Contracts of the registries of Session and of the handlers of Dispatch:
    which callbacks a message reaches, stated with the sets of keys that key
    expressions denote; when a query delivered to several queryables is
    finalised; what an alias stands for. *)
From S2P Require Import Prelude Codec WirePrim WireNetwork KeyExpr KeyExprSpec Matching.
From S2P Require Import Collector Session Dispatch.

(** ** Delivery *)

Definition subs_valid (s : Session) : Prop := map_Forall (fun _ ke => valid_ke ke) (s_subs s).
Definition qbls_valid (s : Session) : Prop :=
  map_Forall (fun _ p => valid_ke p.1) (s_qbls s).

(** Some key belongs to both expressions. *)
Definition overlap (a b : KeyExpr) : Prop := exists key, denotes a key /\ denotes b key.

Lemma matching_ids_spec (m : gmap Z KeyExpr) ke :
  map_Forall (fun _ k => valid_ke k) m -> valid_ke ke ->
  NoDup (matching_ids (map_to_list m) ke) /\
  forall id, id ∈ matching_ids (map_to_list m) ke <->
    exists k, m !! id = Some k /\ overlap k ke.
Proof.
  intros Hm Hke. unfold matching_ids. split.
  { pose proof (NoDup_fst_map_to_list m) as Hnd; eapply sublist_NoDup; [exact Hnd|]. apply fmap_sublist, sublist_filter. }
  intros id. rewrite list_elem_of_fmap. split.
  - intros ([i k] & -> & [Hi He]%list_elem_of_filter). cbn in *.
    apply elem_of_map_to_list in He. exists k. split; [done|].
    by apply (intersects_denotes k ke (Hm _ _ He) Hke).
  - intros (k & Hk & Ho). exists (id, k). split; [done|]. apply list_elem_of_filter.
    split; [|by apply elem_of_map_to_list]. by apply (intersects_denotes k ke (Hm _ _ Hk) Hke).
Qed.

(** The sample made of a PUSH body. *)
Definition sample_of (p : Push) (full : bytes) (zid : ZenohID) (x : PushSample) : Prop :=
  ps_KeyExpr x = full /\ ps_SourceZID x = zid /\
  match puBody p with
  | Some (PPut b) => ps_Kind x = IDDataPut /\ ps_Payload x = pbPayload b /\
      ps_Encoding x = pbEncoding b /\ ps_Timestamp x = pbTimestamp b
  | Some (PDel b) => ps_Kind x = IDDataDel /\ ps_Payload x = [] /\ ps_Timestamp x = dbTimestamp b
  | None => False
  end.

Lemma New_valid s ke : New s = Ok ke -> valid_ke ke.
Proof. intros H. pose proof H as [-> _]%New_ok. exact H. Qed.

(** A PUSH whose key resolves to a valid expression is delivered to
    exactly the subscribers whose set of keys meets the set of the pushed
    expression, once each, with the payload, kind, encoding and timestamp of
    the message, and changes nothing else. *)
Theorem push_reaches_matching p zid s full ke s' :
  subs_valid s -> resolveRemoteKey (puKeyExpr p) s = Some full -> New full = Ok ke ->
  onPushFromPeer p zid s = Ok s' ->
  exists x ids, sample_of p full zid x /\
    s' = emit ((fun id => EvPush id x) <$> ids) s /\ NoDup ids /\
    forall id, id ∈ ids <-> exists k, s_subs s !! id = Some k /\ overlap k ke.
Proof.
  intros Hs Hr Hn. pose proof (New_valid _ _ Hn) as Hke. unfold onPushFromPeer. rewrite Hr, Hn.
  destruct (matching_ids_spec (s_subs s) ke Hs Hke) as [Hnd Hids].
  destruct (puBody p) as [[b|b]|] eqn:Eb; [..|done]; intros [= <-];
    eexists _, _; (split; [|split; [reflexivity|done]]);
    unfold sample_of; by rewrite Eb.
Qed.

(** ** Queries *)

Lemma queryable_ids_spec s ke : qbls_valid s -> valid_ke ke ->
  let ids := matching_ids (prod_map id fst <$> map_to_list (s_qbls s)) ke in
  NoDup ids /\
  forall id, id ∈ ids <-> exists k c, s_qbls s !! id = Some (k, c) /\ overlap k ke.
Proof.
  intros Hq Hke. cbv zeta.
  assert (E : prod_map id fst <$> map_to_list (s_qbls s) = map_to_list (fst <$> s_qbls s))
    by (by rewrite map_to_list_fmap).
  rewrite E. destruct (matching_ids_spec (fst <$> s_qbls s) ke) as [Hnd Hids]; [|done|].
  { intros i k Hk. apply lookup_fmap_Some in Hk as (q & <- & Hq'). by apply (Hq _ _ Hq'). }
  split; [done|]. intros id. rewrite Hids. split.
  - intros (k & Hk & Ho). apply lookup_fmap_Some in Hk as ([k' c] & <- & Hk'). by exists k', c.
  - intros (k & c & Hk & Ho). exists k. by rewrite lookup_fmap, Hk.
Qed.

(** Everything but the counters of queries and the events. *)
Definition same_registries (s s' : Session) : Prop :=
  s' = emit (drop (length (s_out s)) (s_out s')) (set_counters (s_counters s') s).

(** A REQUEST whose key resolves to a valid expression reaches exactly
    the queryables that overlap it, once each, sharing a fresh counter that
    starts at their number; when there is none, the unmatched handler
    finalises it at once. *)
Theorem request_reaches_matching m s full ke :
  qbls_valid s -> resolveRemoteKey (rqKeyExpr m) s = Some full -> New full = Ok ke ->
  exists s' ids, onRequest m s = Ok s' /\ same_registries s s' /\ NoDup ids /\
    (forall id, id ∈ ids <-> exists k c, s_qbls s !! id = Some (k, c) /\ overlap k ke) /\
    if decide (ids = [])
    then s_counters s' = s_counters s /\
         s_out s' = s_out s ++ (if s_unmatched s then [EvUnmatched (rqRequestID m)] else [])
    else exists q r, qr_RequestID q = rqRequestID m /\ qr_KeyExpr q = full /\
         qr_remaining q = Some r /\ s_counters s !! r = None /\
         s_counters s' = <[r := int32 (Z.of_nat (length ids))]> (s_counters s) /\
         s_out s' = s_out s ++ ((fun id => EvQuery id q) <$> ids).
Proof.
  intros Hq Hr Hn. pose proof (New_valid _ _ Hn) as Hke. unfold onRequest. rewrite Hr, Hn.
  destruct (queryable_ids_spec s ke Hq Hke) as [Hnd Hids]. unfold dispatchQuery.
  set (ids := matching_ids _ _) in *. unfold same_registries. destruct ids as [|id ids'] eqn:E.
  - cbn. eexists _, []. split; [reflexivity|]. split; [|split; [done|split; [done|]]].
    + unfold finaliseUnmatchedQuery. destruct (s_unmatched s); cbn; rewrite ?drop_app_length.
      * by destruct s.
      * rewrite drop_all. destruct s. unfold emit; cbn. by rewrite app_nil_r.
    + unfold finaliseUnmatchedQuery. destruct (s_unmatched s); cbn; [done|by rewrite app_nil_r].
  - eexists _, (id :: ids'). split; [cbn; reflexivity|].
    split; [|split; [done|split; [done|]]].
    + cbn. rewrite drop_app_length. by destruct s.
    + rewrite decide_False by done. eexists _, _.
      split_and!; [| | | | |cbn; reflexivity]; try reflexivity.
      apply not_elem_of_dom, is_fresh.
Qed.

(** Queries arriving and copies being finished, in any order. *)
Inductive qop :=
  | QDispatch (ke : KeyExpr) (q : QueryReceived)
  | QDone (q : QueryReceived).

(** The session after the operations, and how often [QueryDone] was true for a
    copy that counts down [r]: how often the query was finalised. *)
Fixpoint run_queries (r : nat) (ops : list qop) (s : Session) : nat * Session :=
  match ops with
  | [] => (0%nat, s)
  | QDispatch ke q :: ops => run_queries r ops (dispatchQuery ke q s).2
  | QDone q :: ops =>
      let '(b, s) := QueryDone q s in
      let '(n, s) := run_queries r ops s in
      ((if (b : bool) && bool_decide (qr_remaining q = Some r) then 1 else 0) + n, s)%nat
  end.

(** How many copies that count down [r] were finished. *)
Fixpoint dones (r : nat) (ops : list qop) : nat :=
  match ops with
  | [] => 0
  | QDispatch _ _ :: ops => dones r ops
  | QDone q :: ops => (if decide (qr_remaining q = Some r) then 1 else 0) + dones r ops
  end.

Lemma dispatchQuery_counter ke q s r v :
  s_counters s !! r = Some v -> s_counters (dispatchQuery ke q s).2 !! r = Some v.
Proof.
  intros Hr. unfold dispatchQuery. destruct (matching_ids _ _); [done|].
  cbn [snd emit set_counters s_counters]. rewrite lookup_insert_ne; [done|].
  intros E. pose proof (is_fresh (dom (s_counters s))) as Hf. rewrite E in Hf.
  by apply Hf, elem_of_dom.
Qed.

Lemma run_queries_count r ops : forall s v,
  s_counters s !! r = Some v -> 0 <= v < 2 ^ 31 -> Z.of_nat (dones r ops) <= v ->
  (run_queries r ops s).1 =
  if bool_decide (0 < v /\ Z.of_nat (dones r ops) = v) then 1%nat else 0%nat.
Proof.
  induction ops as [|[ke q|q] ops IH]; intros s v Hr Hv Hd.
  - cbn. rewrite bool_decide_eq_false_2; [done|]. cbn. lia.
  - cbn [run_queries dones] in *.
    apply IH; [by apply dispatchQuery_counter|done|done].
  - cbn [run_queries dones] in *. unfold QueryDone.
    destruct (qr_remaining q) as [r'|] eqn:Eq.
    + destruct (decide (r' = r)) as [->|Hne].
      * rewrite decide_True in * by done. rewrite Hr. cbn [default from_option id].
        rewrite int32_small by lia.
        specialize (IH (set_counters (<[r := v - 1]> (s_counters s)) s) (v - 1)).
        destruct (run_queries r ops _) as [n s'] eqn:En. cbn [fst] in IH |- *.
        rewrite IH; [|cbn; by rewrite lookup_insert_eq|lia|lia]. clear IH En.
        rewrite (bool_decide_eq_true_2 (Some r = Some r)) by done.
        repeat case_bool_decide; destruct (v - 1 =? 0) eqn:E; cbn; try lia.
      * rewrite decide_False in * by congruence.
        specialize (IH (set_counters (<[r' := int32 (default 0 (s_counters s !! r') - 1)]>
          (s_counters s)) s) v).
        destruct (run_queries r ops _) as [n s'] eqn:En. cbn [fst] in IH |- *.
        rewrite IH; [|cbn; by rewrite lookup_insert_ne|done|done].
        rewrite (bool_decide_eq_false_2 (Some r' = Some r)) by congruence. by rewrite andb_false_r.
    + rewrite decide_False in * by done. specialize (IH s v Hr Hv Hd).
      destruct (run_queries r ops s) as [n s'] eqn:En. cbn [fst] in IH |- *. rewrite IH.
      by rewrite (bool_decide_eq_false_2 (None = Some r)) by done.
Qed.

(** A query delivered to n queryables is finalised exactly once, when
    the n-th copy is done, however the completions interleave with other
    queries and their completions. *)
Theorem query_finalised_once ke q s n s0 :
  dispatchQuery ke q s = (n, s0) -> (0 < n)%nat -> Z.of_nat n < 2 ^ 31 ->
  exists r ids, length ids = n /\
    s_out s0 = s_out s ++ ((fun id => EvQuery id (set_remaining q (Some r))) <$> ids) /\
    forall ops, (dones r ops <= n)%nat ->
      (run_queries r ops s0).1 = if decide (dones r ops = n) then 1%nat else 0%nat.
Proof.
  intros Hd Hn Hb. unfold dispatchQuery in Hd. destruct (matching_ids _ _) as [|i ids] eqn:E.
  { simplify_eq. lia. }
  injection Hd as <- <-. eexists _, (i :: ids). split; [done|]. split; [reflexivity|]. intros ops Hle.
  erewrite run_queries_count; [|cbn; apply lookup_insert_eq| |]; rewrite int32_small; try lia.
  repeat case_decide; case_bool_decide; lia.
Qed.

(** ** Aliases *)

Inductive alias_op :=
  | ADeclare (exprID scope : Z) (suffix : bytes)
  | AUndeclare (exprID : Z).

Definition alias_id (o : alias_op) : Z :=
  match o with ADeclare id _ _ => id | AUndeclare id => id end.

Definition alias_step (s : Session) (o : alias_op) : Session :=
  match o with
  | ADeclare id scope suffix => declareRemoteAlias id scope suffix s
  | AUndeclare id => undeclareRemoteAlias id s
  end.

Lemma alias_step_other s o id : alias_id o <> id ->
  s_remoteAliases (alias_step s o) !! id = s_remoteAliases s !! id.
Proof.
  intros Hn. destruct o as [i sc sf|i]; cbn in *;
    [by rewrite lookup_insert_ne|by rewrite lookup_delete_ne].
Qed.

Lemma alias_run_other ops : forall s id, Forall (fun o => alias_id o <> id) ops ->
  s_remoteAliases (fold_left alias_step ops s) !! id = s_remoteAliases s !! id.
Proof.
  induction ops as [|o ops IH]; intros s id Hops; [done|].
  apply Forall_cons in Hops as [Ho Hops]. cbn. rewrite IH by done. by apply alias_step_other.
Qed.

(** An alias stands for the key its declaration resolved to:
    undeclaring or redeclaring other aliases, the base it was declared on
    included, does not change it; once undeclared it resolves no more. *)
Theorem alias_snapshot id scope suffix base mapping s ops sfx :
  id <> 0 -> resolveRemoteKey (mkWireExpr scope suffix mapping) s = Some base ->
  Forall (fun o => alias_id o <> id) ops ->
  let declared := declareRemoteAlias id scope suffix s in
  resolveRemoteKey (mkWireExpr id sfx mapping) (fold_left alias_step ops declared) =
    Some (base ++ sfx) /\
  resolveRemoteKey (mkWireExpr id sfx mapping)
    (fold_left alias_step (ops ++ [AUndeclare id]) declared) = None.
Proof.
  intros Hid Hr Hops. cbv zeta. set (d := declareRemoteAlias id scope suffix s).
  assert (Hd : s_remoteAliases d !! id = Some base).
  { unfold d, declareRemoteAlias, resolveRemoteKey in *. cbn in *. rewrite lookup_insert_eq.
    destruct (scope =? 0); [done|]. by destruct (s_remoteAliases s !! scope). }
  unfold resolveRemoteKey. cbn [weScope weSuffix]. rewrite (proj2 (Z.eqb_neq _ _) Hid).
  rewrite fold_left_app. cbn. rewrite lookup_delete_eq.
  by rewrite alias_run_other, Hd by done.
Qed.

(** ** A concrete session *)

Definition sample_session : Session :=
  RegisterQueryable 7 (mkKeyExpr (str "demo/**")) true
    (RegisterSubscriber 2 (mkKeyExpr (str "other"))
      (RegisterSubscriber 1 (mkKeyExpr (str "demo/*")) NewSession)).

Lemma sample_subs_valid : subs_valid sample_session.
Proof. apply map_Forall_insert_2; [done|]. apply map_Forall_insert_2; [done|apply map_Forall_empty]. Qed.
Lemma sample_qbls_valid : qbls_valid sample_session.
Proof. apply map_Forall_insert_2; [done|apply map_Forall_empty]. Qed.

Lemma push_reaches_matching_witness :
  let p := mkPush (mkWireExpr 0 (str "demo/a") false) []
             (Some (PPut (mkPutBody None None [] [42]))) in
  exists s' x ids, onPushFromPeer p (mkZID [1]) sample_session = Ok s' /\
    sample_of p (str "demo/a") (mkZID [1]) x /\
    s' = emit ((fun id => EvPush id x) <$> ids) sample_session /\ NoDup ids /\
    forall id, id ∈ ids <->
      exists k, s_subs sample_session !! id = Some k /\ overlap k (mkKeyExpr (str "demo/a")).
Proof.
  cbv zeta. eexists. 
  destruct (push_reaches_matching
    (mkPush (mkWireExpr 0 (str "demo/a") false) [] (Some (PPut (mkPutBody None None [] [42]))))
    (mkZID [1]) sample_session (str "demo/a") (mkKeyExpr (str "demo/a")) _
    sample_subs_valid eq_refl eq_refl eq_refl) as (x & ids & H).
  exists x, ids. split; [reflexivity|exact H].
Defined.

Lemma request_reaches_matching_witness :
  let m := mkRequest 5 (mkWireExpr 0 (str "demo/a/b") false) []
             (Some (mkQueryBody None (str "k=v") [])) in
  exists s' (ids : list Z), onRequest m sample_session = Ok s' /\
    same_registries sample_session s' /\
    forall id, id ∈ ids <-> exists k c, s_qbls sample_session !! id = Some (k, c) /\
      overlap k (mkKeyExpr (str "demo/a/b")).
Proof.
  cbv zeta. destruct (request_reaches_matching
    (mkRequest 5 (mkWireExpr 0 (str "demo/a/b") false) [] (Some (mkQueryBody None (str "k=v") [])))
    sample_session (str "demo/a/b") (mkKeyExpr (str "demo/a/b"))
    sample_qbls_valid eq_refl eq_refl) as (s' & ids & H1 & H2 & _ & H3 & _).
  by exists s', ids.
Defined.

Definition sample_query : QueryReceived :=
  mkQueryReceived 5 (str "demo/a") (mkKeyExpr (str "demo/a")) [] 0 None.

(** Two queryables match; the query is finalised when both are done. *)
Lemma query_finalised_once_witness :
  let s := RegisterQueryable 8 (mkKeyExpr (str "demo/a")) true sample_session in
  exists r (ids : list Z), length ids = 2%nat /\
    let done := QDone (set_remaining sample_query (Some r)) in
    (run_queries r [done]
       (dispatchQuery (mkKeyExpr (str "demo/a")) sample_query s).2).1 = 0%nat /\
    (run_queries r [done; QDispatch (mkKeyExpr (str "demo/a")) sample_query; done]
       (dispatchQuery (mkKeyExpr (str "demo/a")) sample_query s).2).1 = 1%nat.
Proof.
  cbv zeta.
  destruct (query_finalised_once (mkKeyExpr (str "demo/a")) sample_query
    (RegisterQueryable 8 (mkKeyExpr (str "demo/a")) true sample_session) 2
    (dispatchQuery (mkKeyExpr (str "demo/a")) sample_query
      (RegisterQueryable 8 (mkKeyExpr (str "demo/a")) true sample_session)).2)
    as (r & ids & Hl & _ & H); [vm_compute; reflexivity|lia|lia|].
  exists r, ids. split; [done|].
  assert (D : forall ops, dones r (QDone (set_remaining sample_query (Some r)) :: ops) =
                S (dones r ops)) by (intros ops; cbn; by rewrite decide_True).
  assert (D' : forall ke q ops, dones r (QDispatch ke q :: ops) = dones r ops) by done.
  split; rewrite H; rewrite ?D, ?D', ?D; cbn [dones]; done || lia.
Defined.

Lemma alias_snapshot_witness :
  let s := declareRemoteAlias 3 0 (str "demo/") NewSession in
  let ops := [AUndeclare 3; ADeclare 3 0 (str "x")] in
  resolveRemoteKey (mkWireExpr 4 (str "/z") true)
    (fold_left alias_step ops (declareRemoteAlias 4 3 (str "a") s)) = Some (str "demo/a/z") /\
  resolveRemoteKey (mkWireExpr 4 (str "/z") true)
    (fold_left alias_step (ops ++ [AUndeclare 4]) (declareRemoteAlias 4 3 (str "a") s)) = None.
Proof.
  apply (alias_snapshot 4 3 (str "a") (str "demo/a") true
    (declareRemoteAlias 3 0 (str "demo/") NewSession)
    [AUndeclare 3; ADeclare 3 0 (str "x")] (str "/z")); by_eval.
Defined.
