(* ===== verification/Messages.v ===== *)
(** * internal/wire: every message survives the wire

    The round trips of all messages, collected per layer, and the safety of
    their decoders on arbitrary input. *)
From S2P Require Import Prelude Buffer Vle Codec WirePrim WireTransport WireNetwork Session.
From S2P Require Import Transport Dispatch.

(** ** Transport and scouting messages *)

Inductive TransportMessage :=
  | TKeepAlive (m : KeepAlive)
  | TClose (m : Close)
  | TInit (m : Init)
  | TOpen (m : Open)
  | TJoin (m : Join)
  | TScout (m : Scout)
  | THello (m : Hello)
  | TFrame (m : Frame)
  | TFragment (m : Fragment).

Definition wf_transport (t : TransportMessage) : Prop :=
  match t with
  | TKeepAlive m => wf_msg m | TClose m => wf_msg m | TInit m => wf_msg m
  | TOpen m => wf_msg m | TJoin m => wf_msg m | TScout m => wf_msg m | THello m => wf_msg m
  | TFrame m => sn_ok (frSeqNum m) /\ wf_extensions (frExtensions m)
  | TFragment m => sn_ok (fgSeqNum m) /\ wf_extensions (fgExtensions m)
  end.

Definition encode_transport (t : TransportMessage) : result bytes :=
  match t with
  | TKeepAlive m => EncodeNetworkMessage m | TClose m => EncodeNetworkMessage m
  | TInit m => EncodeNetworkMessage m | TOpen m => EncodeNetworkMessage m
  | TJoin m => EncodeNetworkMessage m | TScout m => EncodeNetworkMessage m
  | THello m => EncodeNetworkMessage m | TFrame m => EncodeNetworkMessage m
  | TFragment m => EncodeNetworkMessage m
  end.

(** [receives dec m e tail]: [dec] reads [m] from [e ++ tail], and stops at
    [tail]. *)
Definition receives {A} (dec : RM A) (m : A) (e tail : bytes) : Prop :=
  dec (NewReader (e ++ tail)) = Ok (m, mkReader (e ++ tail) (length e)).

Definition receive_frame : RM Frame := h ← DecodeHeader; DecodeFrame h.
Definition receive_fragment : RM Fragment := h ← DecodeHeader; DecodeFragment h.

(** A FRAME's body and a FRAGMENT's reach to the end of the batch; the body of
    a FRAME is left to the dispatcher of network messages. *)
Definition received_transport (t : TransportMessage) (e tail : bytes) : Prop :=
  match t with
  | TKeepAlive m => receives receive_msg m e tail | TClose m => receives receive_msg m e tail
  | TInit m => receives receive_msg m e tail | TOpen m => receives receive_msg m e tail
  | TJoin m => receives receive_msg m e tail | TScout m => receives receive_msg m e tail
  | THello m => receives receive_msg m e tail
  | TFrame m => exists hdr, e = hdr ++ frBody m /\
      receives receive_frame (mkFrame (frReliable m) (frSeqNum m) (frExtensions m) [])
        hdr (frBody m ++ tail)
  | TFragment m => tail = [] -> receives receive_fragment m e []
  end.

Lemma encode_sent {T} `{WireMessage T} (m : T) tail : 0 <= msg_id < 32 -> wf_msg m ->
  exists e, EncodeNetworkMessage m = Ok e /\ receives receive_msg m e tail.
Proof.
  intros Hid Hwf. destruct (receive_msg_sent m tail Hid Hwf) as (e & He & Hr).
  exists e. split; [|done]. unfold EncodeNetworkMessage. by rewrite He.
Qed.

Lemma writes_encode {T} `{Encoder T} (m : T) e :
  writes (EncodeTo m) e -> EncodeNetworkMessage m = Ok e.
Proof. intros W. unfold EncodeNetworkMessage. by rewrite (W NewWriter). Qed.

Lemma receive_header {A} h (dec : Header -> RM A) m e tail :
  0 <= hID h < 32 ->
  dec h (advance (NewReader (PackHeader h :: e ++ tail)) 1) =
    Ok (m, advance (advance (NewReader (PackHeader h :: e ++ tail)) 1) (length e)) ->
  receives (h ← DecodeHeader; dec h) m (PackHeader h :: e) tail.
Proof.
  intros Hh Hd. unfold receives. cbn [app].
  assert (E : DecodeHeader (NewReader (PackHeader h :: e ++ tail)) =
              Ok (h, advance (NewReader (PackHeader h :: e ++ tail)) 1)).
  { unfold DecodeHeader. rewrite (stm_bind_step _ _ _ _ _ (ReadByte_cons (NewReader _) _ _ eq_refl)).
    cbn. by rewrite UnpackHeader_PackHeader. }
  rewrite (stm_bind_step _ _ _ _ _ E), Hd. done.
Qed.

(** C32: Every well-formed INIT, OPEN, JOIN, CLOSE, KEEPALIVE, SCOUT, HELLO,
    FRAME and FRAGMENT encodes, and decoding the bytes gives it back; the
    body of a FRAME stays in the reader, that of a FRAGMENT is the rest of
    the batch. *)
Theorem transport_round_trip t tail : wf_transport t ->
  exists e, encode_transport t = Ok e /\ received_transport t e tail.
Proof.
  intros Hwf. destruct t; cbn [wf_transport encode_transport received_transport] in *;
    try (apply encode_sent; [done|exact Hwf]).
  - destruct Hwf as [Hs He]. destruct (Frame_round_trip m Hs He) as (e & W & D).
    exists (PackHeader (Frame_header m) :: e ++ frBody m). split; [by apply writes_encode|].
    exists (PackHeader (Frame_header m) :: e). split; [done|].
    apply receive_header; [done|]. eapply (D _ (frBody m ++ tail)); [|done].
    by eapply reader_wf_cons; [apply reader_wf_NewReader|].
  - destruct Hwf as [Hs He]. destruct (Fragment_round_trip m Hs He) as (e & W & D).
    exists (PackHeader (Fragment_header m) :: e). split; [by apply writes_encode|].
    intros _. apply receive_header; [done|]. rewrite app_nil_r. apply D; [|done].
    by eapply reader_wf_cons; [apply reader_wf_NewReader|].
Qed.

(** ** Network messages *)

Definition received_net (n : NetworkMessage) (e tail : bytes) : Prop :=
  match n with
  | NPush m => receives receive_msg m e tail | NRequest m => receives receive_msg m e tail
  | NResponse m => receives receive_msg m e tail
  | NResponseFinal m => receives receive_msg m e tail
  | NDeclare m => receives receive_msg m e tail | NInterest m => receives receive_msg m e tail
  end.

(** C31: Every well-formed PUSH, REQUEST, RESPONSE, RESPONSE_FINAL, DECLARE
    and INTEREST encodes, and decoding the bytes, whatever follows them,
    gives the message back and stops at its end. *)
Theorem network_round_trip n tail : wf_net n ->
  exists e, encode_net n = Ok e /\ received_net n e tail.
Proof.
  intros Hwf. destruct n; cbn [wf_net encode_net received_net] in *;
    by (apply encode_sent; [done|exact Hwf]).
Qed.

(** ** Arbitrary input *)

(** The answers to [b] allowed to the decoder of [T]. *)
Definition safe_answer {T} `{WireMessage T} (b : bytes) (res : result (T * Reader)) : Prop :=
  match res with
  | Ok (m, r) => r_buf r = b /\ (1 <= r_off r <= length b)%nat /\
      hID (UnpackHeader (hd 0 b)) = msg_id
  | Err e => errors_is e ErrFuel = false
  end.

(** On arbitrary bytes every message decoder either fails with an error
    of the code or stops inside the buffer after at least one byte, and it
    accepts only the message identifier it is for. *)
Theorem decoders_safe {T} `{WireMessage T} b :
  safe_answer b (receive_msg (NewReader b)).
Proof.
  unfold safe_answer, receive_msg. destruct b as [|x b]; [done|].
  set (r0 := NewReader (x :: b)). pose proof (reader_wf_NewReader (x :: b)) as Hr0.
  rewrite (stm_bind_step DecodeHeader _ r0 (UnpackHeader x) (advance r0 1)).
  2:{ unfold DecodeHeader.
      by rewrite (stm_bind_step _ _ _ _ _ (ReadByte_cons r0 _ _ eq_refl)). }
  assert (Hr1 : reader_wf (advance r0 1)) by (by eapply reader_wf_cons).
  destruct (decode_msg (UnpackHeader x) (advance r0 1)) as [[m r]|e] eqn:E.
  - destruct (msg_consumes (UnpackHeader x) _ _ _ Hr1 E) as (Hb & Ho & Hw).
    split; [done|]. split.
    + unfold reader_wf in Hw. rewrite Hb in Hw. cbn in *. lia.
    + cbn [hd]. destruct (decide (hID (UnpackHeader x) = msg_id)) as [|Hne]; [done|].
      pose proof (msg_reject (UnpackHeader x) (advance r0 1) Hne) as Hj. by rewrite E in Hj.
  - by eapply (msg_no_fuel (UnpackHeader x)).
Qed.

Lemma transport_round_trip_witness :
  exists e, encode_transport (TFragment (mkFragment true true 300 [] [1; 2; 3])) = Ok e /\
    receives receive_fragment (mkFragment true true 300 [] [1; 2; 3]) e [].
Proof.
  destruct (transport_round_trip (TFragment (mkFragment true true 300 [] [1; 2; 3])) [])
    as (e & He & H); [by_eval|]. exists e. split; [exact He|exact (H eq_refl)].
Defined.

Lemma network_round_trip_witness :
  exists e, encode_net (sample_push 3) = Ok e /\ received_net (sample_push 3) e [1; 2].
Proof. apply network_round_trip. by_eval. Defined.
