(* ===== verification/Multicast.v ===== *)
(** * internal/session/multicast_peer.go: peers on a multicast group

    The table of peers built from JOIN messages and the handling of a
    datagram: JOINs update the table, FRAMEs and FRAGMENTs go through the
    reassembler of the peer their source address belongs to.  Entries are
    shared between the two maps of the table, so they live in a store and the
    maps hold pointers.  A [*net.UDPAddr] is its [String()].  The dispatcher is
    a parameter, as [MulticastInboundDispatch] is in the code. *)
From S2P Require Import Prelude Buffer Vle Codec WirePrim WireTransport Transport.

(** ** The peer table *)

Record MulticastPeerEntry := mkPeer {
  pe_ZID : ZenohID; pe_WhatAmI : Z; pe_LeaseMs : Z; pe_BatchSize : Z; pe_Resolution : Z;
  pe_LaneSNs : option LaneSNs; pe_NextSNRel : Z; pe_NextSNBE : Z; pe_SrcAddr : bytes;
  pe_LastSeenUnixMs : Z; pe_reasm : option Reassembler }.

Definition touch_peer (src : bytes) (now : Z) (e : MulticastPeerEntry) : MulticastPeerEntry :=
  mkPeer (pe_ZID e) (pe_WhatAmI e) (pe_LeaseMs e) (pe_BatchSize e) (pe_Resolution e)
    (pe_LaneSNs e) (pe_NextSNRel e) (pe_NextSNBE e) src now (pe_reasm e).

Definition set_peer_reasm (ra : Reassembler) (e : MulticastPeerEntry) : MulticastPeerEntry :=
  mkPeer (pe_ZID e) (pe_WhatAmI e) (pe_LeaseMs e) (pe_BatchSize e) (pe_Resolution e)
    (pe_LaneSNs e) (pe_NextSNRel e) (pe_NextSNBE e) (pe_SrcAddr e) (pe_LastSeenUnixMs e)
    (Some ra).

Record MulticastPeerTable := mkPeerTable {
  mt_store : gmap Z MulticastPeerEntry; mt_next : Z;
  mt_byZID : gmap (list Z) Z; mt_bySrcAddr : gmap (list Z) Z }.

Definition NewMulticastPeerTable : MulticastPeerTable := mkPeerTable ∅ 0 ∅ ∅.

(** The entry a JOIN introduces. *)
Definition peer_of_join (j : Join) (src : bytes) (now : Z) : MulticastPeerEntry :=
  mkPeer (jZID j) (jWhatAmI j)
    (if jLeaseSeconds j then uint64 (jLease j * 1000) else jLease j)
    (jBatchSize j) (jResolution j)
    (match DecodeLaneSNs j with Ok sns => sns | Err _ => None end)
    (jNextSNRel j) (jNextSNBE j) src now None.

(** The pointer, whether the peer is new, and the table. *)
Definition Insert (j : Join) (src : bytes) (now : Z) (t : MulticastPeerTable) :
    Z * bool * MulticastPeerTable :=
  let key := zid_bytes (jZID j) in
  match mt_byZID t !! key with
  | Some p =>
      (p, false, mkPeerTable (alter (touch_peer src now) p (mt_store t)) (mt_next t)
                   (mt_byZID t) (<[src := p]> (mt_bySrcAddr t)))
  | None =>
      let p := mt_next t in
      (p, true, mkPeerTable (<[p := peer_of_join j src now]> (mt_store t)) (p + 1)
                  (<[key := p]> (mt_byZID t)) (<[src := p]> (mt_bySrcAddr t)))
  end.

Definition deref (t : MulticastPeerTable) (op : option Z) : option MulticastPeerEntry :=
  p ← op; mt_store t !! p.

Definition LookupByZID (zid : ZenohID) (t : MulticastPeerTable) : option MulticastPeerEntry :=
  deref t (mt_byZID t !! zid_bytes zid).

Definition LookupBySrcAddr (addr : bytes) (t : MulticastPeerTable) : option MulticastPeerEntry :=
  deref t (mt_bySrcAddr t !! addr).

Definition Snapshot (t : MulticastPeerTable) : list MulticastPeerEntry :=
  omap (fun kp => mt_store t !! kp.2) (map_to_list (mt_byZID t)).

(** [e.LastSeenUnixMs.Load() + int64(e.LeaseMs) < cut] on [int64]. *)
Definition lease_expired (cut : Z) (e : MulticastPeerEntry) : bool :=
  int64 (pe_LastSeenUnixMs e + int64 (pe_LeaseMs e)) <? cut.

Definition evict_one (cut : Z) (kp : list Z * Z) (acc : list Z * MulticastPeerTable) :
    list Z * MulticastPeerTable :=
  let '(dropped, t) := acc in
  match mt_store t !! kp.2 with
  | Some e =>
      if lease_expired cut e
      then (kp.2 :: dropped,
            mkPeerTable (mt_store t) (mt_next t) (delete kp.1 (mt_byZID t))
              (delete (pe_SrcAddr e) (mt_bySrcAddr t)))
      else acc
  | None => acc
  end.

(** The pointers of the evicted peers, and the table. *)
Definition EvictExpired (cut : Z) (t : MulticastPeerTable) : list Z * MulticastPeerTable :=
  foldr (evict_one cut) ([], t) (map_to_list (mt_byZID t)).

(** ** Datagrams *)

Fixpoint zidEqual (a b : bytes) : bool :=
  match a, b with
  | [], [] => true
  | x :: a, y :: b => (x =? y) && zidEqual a b
  | _, _ => false
  end.

(** What a datagram acts on; [mw_joins] are the peers [OnPeerJoin] was called
    for, in order. *)
Record MulticastWorld (D : Type) := mkMW {
  mw_table : MulticastPeerTable; mw_d : D; mw_joins : list Z }.
Arguments mkMW {D}. Arguments mw_table {D}. Arguments mw_d {D}. Arguments mw_joins {D}.

Section Datagrams.
Context {D : Type}.

Definition MulticastInboundDispatch := ZenohID -> Header -> Reader -> D -> result Reader * D.

(** [rt.dispatch] ([nil] is [None]), [cfg.ZID], [rt.maxMsgSz], [rt.snMask]. *)
Variable dispatch : option MulticastInboundDispatch.
Variables (selfZID : ZenohID) (maxMsgSz snMask : Z).

(** One message to the dispatcher; [false] when the rest is to be dropped. *)
Definition mc_dispatch_one (disp : MulticastInboundDispatch) (zid : ZenohID) (r : Reader) (d : D) :
    bool * Reader * D :=
  match DecodeHeader r with
  | Err _ => (false, r, d)
  | Ok (h, r) =>
      match disp zid h r d with
      | (Err _, d) => (false, r, d)
      | (Ok r', d) =>
          (negb ((0 <? Reader_Len r')%nat && (Reader_Len r' =? Reader_Len r)%nat), r', d)
      end
  end.

(** [None]: out of fuel. *)
Fixpoint mc_frame_loop (disp : MulticastInboundDispatch) (zid : ZenohID) (fuel : nat)
    (r : Reader) (d : D) : option (bool * Reader * D) :=
  match fuel with
  | O => None
  | S fuel =>
      if (Reader_Len r =? 0)%nat then Some (true, r, d)
      else
        match PeekByte r with
        | Err _ => Some (false, r, d)
        | Ok (b, _) =>
            if negb (IsNetworkMessageID (Z.land b HdrIDMask)) then Some (true, r, d)
            else
              let '(go, r, d) := mc_dispatch_one disp zid r d in
              if go : bool then mc_frame_loop disp zid fuel r d else Some (false, r, d)
        end
  end.

Definition dispatchMulticastFrameMessages (zid : ZenohID) (r : Reader) (d : D) :
    option (bool * Reader * D) :=
  match dispatch with
  | None => Some (false, r, d)
  | Some disp => mc_frame_loop disp zid (S (Reader_Len r)) r d
  end.

Fixpoint mc_body_loop (disp : MulticastInboundDispatch) (zid : ZenohID) (fuel : nat)
    (r : Reader) (d : D) : option D :=
  match fuel with
  | O => None
  | S fuel =>
      if (Reader_Len r =? 0)%nat then Some d
      else
        let '(go, r, d) := mc_dispatch_one disp zid r d in
        if go : bool then mc_body_loop disp zid fuel r d else Some d
  end.

Definition dispatchMulticastFrameBody (zid : ZenohID) (body : bytes) (d : D) : option D :=
  match dispatch with
  | None => Some d
  | Some disp => mc_body_loop disp zid (S (length body)) (NewReader body) d
  end.

Definition peer_reasm (e : MulticastPeerEntry) : Reassembler :=
  default (NewReassembler maxMsgSz snMask) (pe_reasm e).

(** The assembled body, if any, and the table with the entry's reassembler. *)
Definition pushFragment (p : Z) (e : MulticastPeerEntry) (lane : LaneKey) (sn : Z) (more : bool)
    (body : bytes) (t : MulticastPeerTable) : option bytes * MulticastPeerTable :=
  let '(res, ra) := Reassembler_Push lane sn more body (peer_reasm e) in
  (match res with Ok complete => complete | Err _ => None end,
   mkPeerTable (<[p := set_peer_reasm ra e]> (mt_store t)) (mt_next t) (mt_byZID t)
     (mt_bySrcAddr t)).

(** The pointer and the entry for a datagram's source. *)
Definition peerForDatagram (src : bytes) (t : MulticastPeerTable) :
    option (Z * MulticastPeerEntry) :=
  p ← mt_bySrcAddr t !! src; e ← mt_store t !! p; Some (p, e).

Definition set_mw_d (d : D) (w : MulticastWorld D) : MulticastWorld D :=
  mkMW (mw_table w) d (mw_joins w).

Fixpoint handleDatagram_loop (src : bytes) (now : Z) (fuel : nat) (r : Reader)
    (w : MulticastWorld D) : option (MulticastWorld D) :=
  match fuel with
  | O => None
  | S fuel =>
      if (Reader_Len r =? 0)%nat then Some w
      else
        match DecodeHeader r with
        | Err _ => Some w
        | Ok (h, r) =>
            if hID h =? IDTransportJoin then
              match DecodeJoin h r with
              | Err _ => Some w
              | Ok (j, r) =>
                  if zidEqual (zid_bytes (jZID j)) (zid_bytes selfZID)
                  then handleDatagram_loop src now fuel r w
                  else
                    let '(p, isNew, t) := Insert j src now (mw_table w) in
                    handleDatagram_loop src now fuel r
                      (mkMW t (mw_d w) (mw_joins w ++ if isNew : bool then [p] else []))
              end
            else if hID h =? IDTransportKeepAlive then
              match DecodeKeepAlive h r with
              | Err _ => Some w
              | Ok (_, r) => handleDatagram_loop src now fuel r w
              end
            else if hID h =? IDTransportFrame then
              match peerForDatagram src (mw_table w) with
              | None => Some w
              | Some (p, e) =>
                  match DecodeFrame h r with
                  | Err _ => Some w
                  | Ok (_, r) =>
                      match dispatchMulticastFrameMessages (pe_ZID e) r (mw_d w) with
                      | None => None
                      | Some (go, r, d) =>
                          if go : bool then handleDatagram_loop src now fuel r (set_mw_d d w)
                          else Some (set_mw_d d w)
                      end
                  end
              end
            else if hID h =? IDTransportFragment then
              match peerForDatagram src (mw_table w) with
              | None => Some w
              | Some (p, e) =>
                  match DecodeFragment h r with
                  | Err _ => Some w
                  | Ok (frag, r) =>
                      let lane := (LanePriorityFromExts (fgExtensions frag), fgReliable frag) in
                      let '(complete, t) := pushFragment p e lane (fgSeqNum frag) (fgMore frag)
                                              (fgBody frag) (mw_table w) in
                      let w := mkMW t (mw_d w) (mw_joins w) in
                      match complete with
                      | None => handleDatagram_loop src now fuel r w
                      | Some body =>
                          match dispatchMulticastFrameBody (pe_ZID e) body (mw_d w) with
                          | None => None
                          | Some d => handleDatagram_loop src now fuel r (set_mw_d d w)
                          end
                      end
                  end
              end
            else Some w
        end
  end.

Definition handleDatagram (src : bytes) (now : Z) (body : bytes) (w : MulticastWorld D) :
    option (MulticastWorld D) :=
  handleDatagram_loop src now (S (length body)) (NewReader body) w.

(** The buffer of [runReadLoop]. *)
Definition MulticastBatchSize : Z := 8192.

(** [ReadFromUDP] cuts a datagram that is larger than the buffer. *)
Definition ReadBatchFrom (buflen : Z) (datagram : bytes) : bytes := take (Z.to_nat buflen) datagram.

(** [runReadLoop]: a source address, the time of reception and the datagram. *)
Fixpoint runReadLoop (dgs : list (bytes * Z * bytes)) (w : MulticastWorld D) :
    option (MulticastWorld D) :=
  match dgs with
  | [] => Some w
  | (src, now, datagram) :: dgs =>
      w ← handleDatagram src now (ReadBatchFrom MulticastBatchSize datagram) w;
      runReadLoop dgs w
  end.

Lemma runReadLoop_cons src now datagram dgs w : runReadLoop ((src, now, datagram) :: dgs) w =
  handleDatagram src now (ReadBatchFrom MulticastBatchSize datagram) w ≫= runReadLoop dgs.
Proof. reflexivity. Qed.
End Datagrams.

Lemma ReadBatchFrom_fits buflen datagram : len datagram <= buflen ->
  ReadBatchFrom buflen datagram = datagram.
Proof. unfold ReadBatchFrom, len. intros H. apply take_ge. lia. Qed.

#[global] Opaque ReadBatchFrom.

(** ** Configuration and start *)

(** [cfg_hasLink]: the [Link] field is not [nil].  Durations are nanoseconds. *)
Record MulticastConfig := mkMulticastConfig {
  cfg_hasLink : bool; cfg_ZID : ZenohID; cfg_WhatAmI : Z; cfg_LeaseMillis : Z;
  cfg_KeepAliveDivisor : Z; cfg_Resolution : Z; cfg_BatchSize : Z; cfg_InitialSNs : LaneSNs;
  cfg_MaxMsgSz : Z; cfg_OutQSize : Z; cfg_EvictionInterval : Z }.

Definition zeroLaneSNs : LaneSNs := mkLaneSNs (replicate 8 0) (replicate 8 0).

#[export] Instance LaneSNs_eq_dec : EqDecision LaneSNs.
Proof. solve_decision. Defined.

Definition Millisecond : Z := 1000000.

Definition nonzero_or (v d : Z) : Z := if v =? 0 then d else v.
Definition positive_or (v d : Z) : Z := if v <=? 0 then d else v.

(** The defaults; [GenerateMulticastInitialSNs] (random) is a parameter. *)
Definition multicast_defaults (generate : Z -> LaneSNs) (cfg : MulticastConfig) : MulticastConfig :=
  let res := nonzero_or (cfg_Resolution cfg) DefaultResolution in
  mkMulticastConfig (cfg_hasLink cfg) (cfg_ZID cfg) (cfg_WhatAmI cfg) (cfg_LeaseMillis cfg)
    (positive_or (cfg_KeepAliveDivisor cfg) 4) res
    (nonzero_or (cfg_BatchSize cfg) (uint16 MulticastBatchSize))
    (if decide (cfg_InitialSNs cfg = zeroLaneSNs) then generate res else cfg_InitialSNs cfg)
    (positive_or (cfg_MaxMsgSz cfg) (2 ^ 30)) (positive_or (cfg_OutQSize cfg) 1024)
    (nonzero_or (cfg_EvictionInterval cfg)
       (int64 (int64 (cfg_LeaseMillis cfg / 4) * Millisecond))).

(** [seeds[p][0]] is best effort, [seeds[p][1]] reliable. *)
Definition laneSeedsFromSNs (sns : LaneSNs) : Z -> bool -> Z := fun p reliable =>
  nth (Z.to_nat p) (if reliable then lsReliable sns else lsBestEffort sns) 0.

(** What [StartMulticastPeer] gives its goroutines: the completed
    configuration, the batcher, the mask and the JOIN interval. *)
Record MulticastStart := mkStart {
  st_cfg : MulticastConfig; st_batcher : Batcher; st_snMask : Z; st_joinInterval : Z }.

Definition StartMulticastPeer (generate : Z -> LaneSNs) (cfg : MulticastConfig) :
    result MulticastStart :=
  if negb (cfg_hasLink cfg) then Err (ErrMsg "multicast: nil link")
  else if cfg_LeaseMillis cfg =? 0 then Err (ErrMsg "multicast: LeaseMillis must be > 0")
  else
    let cfg := multicast_defaults generate cfg in
    let snMask := Resolution_Mask (cfg_Resolution cfg) FieldFrameSN in
    Ok (mkStart cfg
          (NewBatcherWithLaneSeeds (cfg_BatchSize cfg) true (laneSeedsFromSNs (cfg_InitialSNs cfg))
             snMask)
          snMask
          (Z.quot (int64 (int64 (cfg_LeaseMillis cfg) * Millisecond))
             (int64 (cfg_KeepAliveDivisor cfg)))).

Definition encodeJoin (cfg : MulticastConfig) : result bytes :=
  let sns := cfg_InitialSNs cfg in
  let at_data l := nth (Z.to_nat QoSPriorityData) l 0 in
  let j := mkJoin false true ProtoVersion (cfg_ZID cfg) (cfg_WhatAmI cfg) (cfg_Resolution cfg)
             (cfg_BatchSize cfg) (cfg_LeaseMillis cfg) (at_data (lsReliable sns))
             (at_data (lsBestEffort sns)) [] in
  match AttachLaneSNs j sns with
  | Err e => Err (ErrWrap "encode JOIN: attach lane SNs" e)
  | Ok j =>
      match EncodeTo j NewWriter with
      | Err e => Err (ErrWrap "encode JOIN" e)
      | Ok (_, w) => Ok (Writer_Bytes w)
      end
  end.

(** ** The outbound queue *)

Record OutQ (I : Type) := mkOutQ {
  oq_items : list I; oq_cap : nat; oq_closed : bool; oq_dropped : Z }.
Arguments mkOutQ {I}. Arguments oq_items {I}. Arguments oq_cap {I}.
Arguments oq_closed {I}. Arguments oq_dropped {I}.

(** [Enqueue]: the select takes a ready case, [pick] when both are. *)
Definition Enqueue_multicast {I} (pick : bool) (item : I) (q : OutQ I) : bool * OutQ I :=
  let room := (length (oq_items q) <? oq_cap q)%nat in
  if room && (negb (oq_closed q) || pick)
  then (true, mkOutQ (oq_items q ++ [item]) (oq_cap q) (oq_closed q) (oq_dropped q))
  else if oq_closed q then (false, q)
  else (false, mkOutQ (oq_items q) (oq_cap q) (oq_closed q) (uint64 (oq_dropped q + 1))).
