(* ===== verification/MulticastTable.v ===== *)
(** * The multicast peer table: invariant, leases, routes

    What the two maps of the table promise: an entry is found under its own
    ZenohID, a JOIN refreshes it, an eviction removes exactly the peers whose
    lease has run out, and, as long as every peer keeps its address, the
    address of a datagram finds exactly the live peer it comes from. *)
From S2P Require Import Prelude Buffer Vle Codec WirePrim WireTransport Transport Multicast.

(** ** The invariant *)

Record table_ok (t : MulticastPeerTable) : Prop := {
  to_store : forall p e, mt_store t !! p = Some e -> p < mt_next t;
  to_zid : forall k p, mt_byZID t !! k = Some p ->
    exists e, mt_store t !! p = Some e /\ zid_bytes (pe_ZID e) = k;
  to_addr : forall a p, mt_bySrcAddr t !! a = Some p -> is_Some (mt_store t !! p);
}.

Lemma table_ok_new : table_ok NewMulticastPeerTable.
Proof. constructor; intros ?? H; cbn in H; by rewrite lookup_empty in H. Qed.

Lemma to_zid_inj t k k' p : table_ok t ->
  mt_byZID t !! k = Some p -> mt_byZID t !! k' = Some p -> k = k'.
Proof.
  intros Ht H1 H2. destruct (to_zid t Ht _ _ H1) as (e & E1 & <-).
  destruct (to_zid t Ht _ _ H2) as (e' & E2 & <-). congruence.
Qed.

Lemma deref_zid t k p : table_ok t -> mt_byZID t !! k = Some p ->
  exists e, mt_store t !! p = Some e /\ deref t (mt_byZID t !! k) = Some e /\
            zid_bytes (pe_ZID e) = k.
Proof.
  intros Ht H. destruct (to_zid t Ht k p H) as (e & E & Ez). exists e. unfold deref. by rewrite H.
Qed.

(** The store changes only by entries that keep their ZenohID. *)
Definition same_zid (e e' : MulticastPeerEntry) : Prop :=
  zid_bytes (pe_ZID e) = zid_bytes (pe_ZID e').

Lemma table_ok_update t p e e' : table_ok t -> mt_store t !! p = Some e -> same_zid e e' ->
  table_ok (mkPeerTable (<[p := e']> (mt_store t)) (mt_next t) (mt_byZID t) (mt_bySrcAddr t)).
Proof.
  intros Ht Hp Hz. constructor; cbn.
  - intros q x [[<- <-]|[_ H]]%lookup_insert_Some; by eapply to_store.
  - intros k q H. destruct (to_zid t Ht k q H) as (x & Ex & Hx). destruct (decide (q = p)) as [->|].
    + exists e'. rewrite lookup_insert_eq. unfold same_zid in Hz. split; [done|congruence].
    + exists x. by rewrite lookup_insert_ne.
  - intros a q H. apply lookup_insert_is_Some'. right. by eapply to_addr.
Qed.

Lemma table_ok_route t a p : table_ok t -> is_Some (mt_store t !! p) ->
  table_ok (mkPeerTable (mt_store t) (mt_next t) (mt_byZID t) (<[a := p]> (mt_bySrcAddr t))).
Proof.
  intros Ht Hp. constructor; cbn; [apply to_store, Ht|apply to_zid, Ht|].
  intros b q [[<- <-]|[_ H]]%lookup_insert_Some; [done|by eapply to_addr].
Qed.

Lemma alter_insert_Some (m : gmap Z MulticastPeerEntry) f p e :
  m !! p = Some e -> alter f p m = <[p := f e]> m.
Proof.
  intros H. apply map_eq. intros q. destruct (decide (q = p)) as [->|].
  - by rewrite lookup_alter_eq, lookup_insert_eq, H.
  - by rewrite lookup_alter_ne, lookup_insert_ne.
Qed.

(** What [Insert] does, by whether the peer is known. *)
Lemma Insert_known j src now t p e : mt_byZID t !! zid_bytes (jZID j) = Some p ->
  mt_store t !! p = Some e ->
  Insert j src now t = (p, false, mkPeerTable (<[p := touch_peer src now e]> (mt_store t))
    (mt_next t) (mt_byZID t) (<[src := p]> (mt_bySrcAddr t))).
Proof. intros H Hp. unfold Insert. by rewrite H, (alter_insert_Some _ _ _ _ Hp). Qed.

Lemma Insert_ok j src now t : table_ok t -> table_ok (Insert j src now t).2.
Proof.
  intros Ht. destruct (mt_byZID t !! zid_bytes (jZID j)) as [p|] eqn:E.
  - destruct (to_zid t Ht _ _ E) as (e & Ep & Hz). rewrite (Insert_known _ _ _ _ _ _ E Ep). cbn [snd].
    pose proof (table_ok_update t p e (touch_peer src now e) Ht Ep eq_refl) as Hu.
    apply (table_ok_route _ src p Hu). eexists. apply lookup_insert_eq.
  - unfold Insert. rewrite E. cbn. constructor; cbn.
    + intros q x [[<- <-]|[_ H]]%lookup_insert_Some; [lia|]. apply (to_store t Ht) in H. lia.
    + intros k q [[<- <-]|[Hk H]]%lookup_insert_Some.
      * eexists. rewrite lookup_insert_eq. by split.
      * destruct (to_zid t Ht k q H) as (x & Ex & Hx). exists x.
        rewrite lookup_insert_ne; [done|]. apply (to_store t Ht) in Ex. lia.
    + intros a q [[<- <-]|[_ H]]%lookup_insert_Some; [by rewrite lookup_insert_eq|].
      apply lookup_insert_is_Some'. right. by eapply to_addr.
Qed.

(** ** A JOIN *)

(** The peer is found under its ZenohID and its address, with the time of the
    JOIN; the others are found as before. *)
Lemma Insert_lookup j src now t : table_ok t ->
  let '(p, isNew, t') := Insert j src now t in
  (exists e, LookupByZID (jZID j) t' = Some e /\ LookupBySrcAddr src t' = Some e /\
     zid_bytes (pe_ZID e) = zid_bytes (jZID j) /\ pe_SrcAddr e = src /\ pe_LastSeenUnixMs e = now /\
     mt_byZID t' !! zid_bytes (jZID j) = Some p /\
     (if isNew : bool then e = peer_of_join j src now
      else exists e0, LookupByZID (jZID j) t = Some e0 /\ e = touch_peer src now e0)) /\
  (isNew = true <-> LookupByZID (jZID j) t = None) /\
  (forall zid, zid_bytes zid <> zid_bytes (jZID j) -> LookupByZID zid t' = LookupByZID zid t).
Proof.
  intros Ht. destruct (mt_byZID t !! zid_bytes (jZID j)) as [p|] eqn:E.
  - destruct (to_zid t Ht _ _ E) as (e & Ep & Hz). rewrite (Insert_known _ _ _ _ _ _ E Ep).
    assert (E0 : LookupByZID (jZID j) t = Some e).
    { unfold LookupByZID, deref. rewrite E. exact Ep. }
    rewrite E0. unfold LookupByZID, LookupBySrcAddr, deref.
    cbn [mt_store mt_byZID mt_bySrcAddr]. rewrite E, lookup_insert_eq. cbn [mbind option_bind].
    rewrite lookup_insert_eq. split_and!; [|done|].
    + exists (touch_peer src now e). split_and!; [done..|]. by exists e.
    + intros zid Hn. destruct (mt_byZID t !! zid_bytes zid) as [q|] eqn:Eq; [|done].
      cbn [mbind option_bind]. apply lookup_insert_ne. intros <-. by eapply Hn, to_zid_inj.
  - unfold Insert, LookupByZID, LookupBySrcAddr, deref. rewrite E.
    cbn [mt_store mt_byZID mt_bySrcAddr]. rewrite !lookup_insert_eq. cbn [mbind option_bind].
    rewrite lookup_insert_eq. split_and!; [|done|].
    + by exists (peer_of_join j src now).
    + intros zid Hn. rewrite lookup_insert_ne by done.
      destruct (mt_byZID t !! zid_bytes zid) as [q|] eqn:Eq; [|done]. cbn [mbind option_bind].
      apply lookup_insert_ne. destruct (to_zid t Ht _ _ Eq) as (x & Ex & _).
      apply (to_store t Ht) in Ex. lia.
Qed.

(** ** Evictions *)

(** The lease of the entry at [p] has run out. *)
Definition expired_at (cut : Z) (t : MulticastPeerTable) (p : Z) (e : MulticastPeerEntry) : Prop :=
  mt_store t !! p = Some e /\ lease_expired cut e = true.

#[export] Instance expired_at_dec cut t p : Decision (exists e, expired_at cut t p e).
Proof.
  destruct (mt_store t !! p) as [e|] eqn:E.
  - destruct (lease_expired cut e) eqn:El; [left; by exists e|].
    right. intros (x & Hx & Hl). congruence.
  - right. intros (x & Hx & _). congruence.
Qed.

Definition hits (cut : Z) (t : MulticastPeerTable) (l : list (list Z * Z)) (k : list Z) (p : Z)
    (e : MulticastPeerEntry) : Prop := (k, p) ∈ l /\ expired_at cut t p e.

Lemma hits_nil cut t k p e : hits cut t [] k p e <-> False.
Proof. unfold hits. split; [by intros [?%elem_of_nil _]|done]. Qed.

Lemma hits_cons cut t k0 p0 e0 l k p e : expired_at cut t p0 e0 ->
  hits cut t ((k0, p0) :: l) k p e <-> (k = k0 /\ p = p0 /\ e = e0) \/ hits cut t l k p e.
Proof.
  intros H0. unfold hits. rewrite elem_of_cons. unfold expired_at in *. split.
  - intros [[[= -> ->]|?] ?]; [left; naive_solver|by right].
  - intros [(-> & -> & ->)|[? ?]]; auto.
Qed.

Lemma hits_skip cut t k0 p0 l k p e : (forall x, ~ expired_at cut t p0 x) ->
  hits cut t ((k0, p0) :: l) k p e <-> hits cut t l k p e.
Proof.
  intros H0. unfold hits. rewrite elem_of_cons. split; [|naive_solver].
  intros [[[= -> ->]|?] ?]; [by edestruct H0|done].
Qed.

(** What the loop removes: the first map loses the keys it hits, the second
    the addresses of the entries it hits. *)
Definition evicted (cut : Z) (t : MulticastPeerTable) (l : list (list Z * Z)) (dropped : list Z)
    (t' : MulticastPeerTable) : Prop :=
  mt_store t' = mt_store t /\ mt_next t' = mt_next t /\
  (forall p, p ∈ dropped <-> exists k e, hits cut t l k p e) /\
  (forall k p, mt_byZID t' !! k = Some p <->
     mt_byZID t !! k = Some p /\ ~ exists q e, hits cut t l k q e) /\
  (forall a p, mt_bySrcAddr t' !! a = Some p <-> mt_bySrcAddr t !! a = Some p /\
     ~ exists k q e, hits cut t l k q e /\ pe_SrcAddr e = a).

Lemma evict_fold cut t l :
  evicted cut t l (foldr (evict_one cut) ([], t) l).1 (foldr (evict_one cut) ([], t) l).2.
Proof.
  unfold evicted. induction l as [|[k0 p0] l IH]; cbn [foldr].
  { setoid_rewrite hits_nil. split_and!; [done|done|set_solver|naive_solver..]. }
  destruct (foldr _ _ l) as [dropped t']. destruct IH as (E1 & E2 & Hd & Hz & Ha).
  cbn [fst snd] in *. unfold evict_one. cbn [fst snd]. rewrite E1.
  destruct (decide (exists e0, expired_at cut t p0 e0)) as [(e0 & He0)|Hn].
  - pose proof He0 as [-> ->]. cbn [fst snd mt_store mt_next mt_byZID mt_bySrcAddr].
    setoid_rewrite (fun k p e => hits_cons cut t k0 p0 e0 l k p e He0).
    split_and!; [done|done| | |].
    + intros p. rewrite elem_of_cons, Hd. naive_solver.
    + intros k p. rewrite lookup_delete_Some, Hz. naive_solver.
    + intros a p. rewrite lookup_delete_Some, Ha. naive_solver.
  - assert (Hs : forall k p e, hits cut t ((k0, p0) :: l) k p e <-> hits cut t l k p e).
    { intros k p e. apply hits_skip. intros x Hx. apply Hn. by exists x. }
    setoid_rewrite Hs.
    destruct (mt_store t !! p0) as [x|] eqn:Ex; [|done].
    destruct (lease_expired cut x) eqn:El; [|done]. destruct Hn. by exists x.
Qed.

Lemma EvictExpired_spec cut t : table_ok t ->
  let '(dropped, t') := EvictExpired cut t in
  mt_store t' = mt_store t /\ mt_next t' = mt_next t /\
  (forall p, p ∈ dropped <-> exists k e, mt_byZID t !! k = Some p /\ expired_at cut t p e) /\
  (forall k p, mt_byZID t' !! k = Some p <->
     mt_byZID t !! k = Some p /\ forall e, ~ expired_at cut t p e) /\
  (forall a p, mt_bySrcAddr t' !! a = Some p <-> mt_bySrcAddr t !! a = Some p /\
     forall k q e, mt_byZID t !! k = Some q -> expired_at cut t q e -> pe_SrcAddr e <> a).
Proof.
  intros Ht. unfold EvictExpired. pose proof (evict_fold cut t (map_to_list (mt_byZID t))) as H.
  destruct (foldr _ _ _) as [dropped t']. destruct H as (E1 & E2 & Hd & Hz & Ha).
  cbn [fst snd] in *. unfold hits in *. split_and!; [done|done| | |].
  - intros p. rewrite Hd. by setoid_rewrite elem_of_map_to_list.
  - intros k p. rewrite Hz. setoid_rewrite elem_of_map_to_list. naive_solver.
  - intros a p. rewrite Ha. setoid_rewrite elem_of_map_to_list. naive_solver.
Qed.

Lemma EvictExpired_ok cut t : table_ok t -> table_ok (EvictExpired cut t).2.
Proof.
  intros Ht. pose proof (EvictExpired_spec cut t Ht) as H.
  destruct (EvictExpired cut t) as [dropped t']. destruct H as (E1 & E2 & _ & Hz & Ha). cbn.
  constructor; rewrite ?E1, ?E2; [apply Ht| |].
  - intros k p [H _]%Hz. by apply Ht.
  - intros a p [H _]%Ha. by eapply to_addr.
Qed.

Lemma expired_at_store cut t t' p e : mt_store t' = mt_store t ->
  expired_at cut t' p e <-> expired_at cut t p e.
Proof. unfold expired_at. by intros ->. Qed.

(** A peer survives an eviction exactly when its lease has not run out. *)
Lemma EvictExpired_LookupByZID cut t zid : table_ok t ->
  LookupByZID zid (EvictExpired cut t).2 =
  (e ← LookupByZID zid t; if lease_expired cut e then None else Some e).
Proof.
  intros Ht. pose proof (EvictExpired_spec cut t Ht) as H.
  destruct (EvictExpired cut t) as [dropped t']. destruct H as (E1 & _ & _ & Hz & _). cbn [snd].
  unfold LookupByZID, deref. rewrite E1.
  destruct (mt_byZID t !! zid_bytes zid) as [p|] eqn:E; cbn [mbind option_bind].
  2:{ destruct (mt_byZID t' !! zid_bytes zid) as [q|] eqn:E'; [|done].
      apply Hz in E' as [E' _]. congruence. }
  destruct (to_zid t Ht _ _ E) as (e & Ep & _). rewrite Ep. cbn [mbind option_bind].
  destruct (lease_expired cut e) eqn:El.
  - destruct (mt_byZID t' !! zid_bytes zid) as [q|] eqn:E'; [|done].
    apply Hz in E' as [E' Hn]. assert (q = p) as -> by congruence.
    destruct (Hn e). by split.
  - assert (mt_byZID t' !! zid_bytes zid = Some p) as ->; [|done]. apply Hz. split; [done|].
    intros x [Hx Hl]. congruence.
Qed.

(** Without wrap-around the lease ends [pe_LeaseMs] after the last JOIN. *)
Lemma lease_expired_spec cut e :
  0 <= pe_LastSeenUnixMs e -> 0 <= pe_LeaseMs e ->
  pe_LastSeenUnixMs e + pe_LeaseMs e < 2 ^ 63 ->
  lease_expired cut e = negb (cut <=? pe_LastSeenUnixMs e + pe_LeaseMs e).
Proof.
  intros H1 H2 H3. unfold lease_expired, int64.
  rewrite (Z.mod_small (pe_LeaseMs e + _)) by lia.
  replace (pe_LeaseMs e + 2 ^ 63 - 2 ^ 63) with (pe_LeaseMs e) by lia.
  rewrite Z.mod_small by lia. lia.
Qed.

(** After a JOIN a peer is kept by every eviction up to the end of its
    lease and removed by the first one later; the lease is the one of the
    JOIN that created the entry, in milliseconds. *)
Theorem multicast_lease j src now cut t e : table_ok t ->
  LookupByZID (jZID j) (Insert j src now t).2 = Some e ->
  0 <= now -> 0 <= pe_LeaseMs e -> now + pe_LeaseMs e < 2 ^ 63 ->
  LookupByZID (jZID j) (EvictExpired cut (Insert j src now t).2).2 =
    (if cut <=? now + pe_LeaseMs e then Some e else None) /\
  pe_LeaseMs e = match LookupByZID (jZID j) t with
                 | Some e0 => pe_LeaseMs e0
                 | None => if jLeaseSeconds j then uint64 (jLease j * 1000) else jLease j
                 end.
Proof.
  intros Ht He Hnow Hl Hmax. pose proof (Insert_ok j src now t Ht) as Ht'.
  rewrite EvictExpired_LookupByZID by done. rewrite He.
  pose proof (Insert_lookup j src now t Ht) as H. revert He. clear Ht'.
  destruct (Insert j src now t) as [[p isNew] t']. cbn [snd]. intros He.
  destruct H as ((x & Ex & _ & _ & _ & Hseen & _ & Hnew) & Hiff & _).
  assert (x = e) as -> by congruence. cbn [mbind option_bind]. split.
  - rewrite lease_expired_spec by (rewrite ?Hseen; lia). rewrite Hseen. by destruct (cut <=? _).
  - destruct isNew.
    + by rewrite (proj1 Hiff eq_refl), Hnew.
    + by destruct Hnew as (e0 & -> & ->).
Qed.

(** ** Steps of the table *)

(** A JOIN, the reassembly of a fragment, an eviction. *)
Inductive table_step : MulticastPeerTable -> MulticastPeerTable -> Prop :=
  | ts_join t j src now : table_step t (Insert j src now t).2
  | ts_reasm t p e ra : mt_store t !! p = Some e ->
      table_step t (mkPeerTable (<[p := set_peer_reasm ra e]> (mt_store t)) (mt_next t)
                      (mt_byZID t) (mt_bySrcAddr t))
  | ts_evict t cut : table_step t (EvictExpired cut t).2.

Lemma table_step_ok t t' : table_step t t' -> table_ok t -> table_ok t'.
Proof.
  destruct 1 as [t j src now|t p e ra He|t cut]; intros Ht.
  - by apply Insert_ok.
  - by apply table_ok_update with e.
  - by apply EvictExpired_ok.
Qed.

(** The same where every peer keeps its address. *)
Section Routes.
Variable addr : list Z -> bytes.

Inductive stable_step : MulticastPeerTable -> MulticastPeerTable -> Prop :=
  | ss_join t j now :
      stable_step t (Insert j (addr (zid_bytes (jZID j))) now t).2
  | ss_reasm t p e ra : mt_store t !! p = Some e ->
      stable_step t (mkPeerTable (<[p := set_peer_reasm ra e]> (mt_store t)) (mt_next t)
                       (mt_byZID t) (mt_bySrcAddr t))
  | ss_evict t cut : stable_step t (EvictExpired cut t).2.

Record routed (t : MulticastPeerTable) : Prop := {
  rd_ok : table_ok t;
  rd_addr : forall k p e, mt_byZID t !! k = Some p -> mt_store t !! p = Some e ->
    pe_SrcAddr e = addr k;
  rd_route : forall a p, mt_bySrcAddr t !! a = Some p <->
    exists k, mt_byZID t !! k = Some p /\ addr k = a;
}.

Lemma routed_new : routed NewMulticastPeerTable.
Proof.
  constructor; [apply table_ok_new|..]; cbn; intros; rewrite ?lookup_empty in *; [done|].
  split; [done|]. intros (k & H & _). by rewrite lookup_empty in H.
Qed.

Hypothesis addr_inj : forall k k', addr k = addr k' -> k = k'.

Lemma routed_join j now t : routed t -> routed (Insert j (addr (zid_bytes (jZID j))) now t).2.
Proof.
  intros [Ht Ha Hr]. set (k0 := zid_bytes (jZID j)).
  destruct (mt_byZID t !! k0) as [p|] eqn:E.
  - destruct (to_zid t Ht _ _ E) as (e & Ep & Hz).
    assert (Hsrc : <[addr k0 := p]> (mt_bySrcAddr t) = mt_bySrcAddr t)
      by (apply insert_id, Hr; by exists k0).
    constructor; [by apply Insert_ok|..]; rewrite (Insert_known _ _ _ _ _ _ E Ep);
      cbn [snd mt_store mt_byZID mt_bySrcAddr].
    + intros k q x Hk [[<- <-]|[_ Hx]]%lookup_insert_Some; [|by eapply Ha].
      cbn. f_equal. by eapply to_zid_inj.
    + by rewrite Hsrc.
  - pose proof (Insert_ok j (addr k0) now t Ht) as Ht'. constructor; [exact Ht'|..];
      unfold Insert; fold k0; rewrite E; cbn [snd mt_store mt_byZID mt_bySrcAddr].
    + intros k q x [[<- <-]|[Hne Hk]]%lookup_insert_Some.
      * rewrite lookup_insert_eq. by intros [= <-].
      * destruct (to_zid t Ht k q Hk) as (y & Hy & _). pose proof (to_store t Ht _ _ Hy).
        rewrite lookup_insert_ne by lia. by apply Ha.
    + intros a q. split.
      * intros [[<- <-]|[Hne Hq]]%lookup_insert_Some; [exists k0; by rewrite lookup_insert_eq|].
        apply Hr in Hq as (k & Hk & <-). exists k. rewrite lookup_insert_ne by congruence. done.
      * intros (k & [[<- <-]|[Hne Hk]]%lookup_insert_Some & <-); [by rewrite lookup_insert_eq|].
        rewrite lookup_insert_ne by (intros ?%addr_inj; congruence). apply Hr. by exists k.
Qed.

Lemma routed_reasm t p e ra : mt_store t !! p = Some e -> routed t ->
  routed (mkPeerTable (<[p := set_peer_reasm ra e]> (mt_store t)) (mt_next t)
            (mt_byZID t) (mt_bySrcAddr t)).
Proof.
  intros He [Ht Ha Hr]. constructor; cbn; [by apply table_ok_update with e| |done].
  intros k q x Hk [[<- <-]|[_ Hx]]%lookup_insert_Some; [|by eapply Ha].
  cbn. by eapply Ha.
Qed.

Lemma routed_evict t cut : routed t -> routed (EvictExpired cut t).2.
Proof.
  intros [Ht Ha Hr]. pose proof (EvictExpired_ok cut t Ht) as Ht'.
  pose proof (EvictExpired_spec cut t Ht) as H.
  destruct (EvictExpired cut t) as [dropped t']. cbn [snd] in *.
  destruct H as (E1 & _ & _ & Hz & Hs). constructor; [done|..].
  - intros k p e [Hk _]%Hz He. rewrite E1 in He. by eapply Ha.
  - intros a p. rewrite Hs, Hr. setoid_rewrite Hz. split.
    + intros [(k & Hk & Hak) Hn]. exists k. split_and!; [done| |done]. intros e He.
      apply (Hn k p e Hk He). rewrite <- Hak. destruct He. by eapply Ha.
    + intros (k & [Hk Hn] & Hak). split; [by exists k|]. intros k' q e Hk' He Ea.
      rewrite (Ha _ _ _ Hk' (proj1 He)), <- Hak in Ea. apply addr_inj in Ea as ->.
      assert (q = p) as -> by congruence. by eapply Hn.
Qed.

Lemma routed_step t t' : stable_step t t' -> routed t -> routed t'.
Proof.
  destruct 1; intros H0; [by apply routed_join|by apply routed_reasm|by apply routed_evict].
Qed.

Lemma routed_reachable t : rtc stable_step NewMulticastPeerTable t -> routed t.
Proof.
  revert t. apply rtc_ind_r; [apply routed_new|]. intros y z _ Hs IH. by eapply routed_step.
Qed.
End Routes.

(** While every peer keeps to one address of its own, a lookup by address gives
    exactly the peer whose datagrams come from there. *)
Theorem multicast_routes_exact addr t a e :
  (forall k k', addr k = addr k' -> k = k') ->
  rtc (stable_step addr) NewMulticastPeerTable t ->
  LookupBySrcAddr a t = Some e <->
  LookupByZID (pe_ZID e) t = Some e /\ a = pe_SrcAddr e.
Proof.
  intros Hinj Hr. destruct (routed_reachable addr Hinj t Hr) as [Ht Ha Hrt].
  unfold LookupBySrcAddr, LookupByZID, deref. split.
  - intros (p & Hp & He)%bind_Some. apply Hrt in Hp as (k & Hk & <-).
    destruct (to_zid t Ht k p Hk) as (x & Hx & <-). assert (x = e) as -> by congruence.
    rewrite Hk. split; [done|]. symmetry. by eapply Ha.
  - intros [(p & Hp & He)%bind_Some ->]. apply bind_Some. exists p. split; [|done].
    apply Hrt. exists (zid_bytes (pe_ZID e)). split; [done|]. symmetry. by eapply Ha.
Qed.

(** ** Two peers on a group *)

Definition sample_join (zid : bytes) (lease : Z) : Join :=
  mkJoin false true 9 (mkZID zid) WhatAmIPeer DefaultResolution 8192 lease 0 0 [].

(** Peer [7] at "a", peer [8] at "b", and an eviction. *)
Definition sample_addr (k : list Z) : bytes := k.
Definition sample_table : MulticastPeerTable :=
  (EvictExpired 10500
     (Insert (sample_join [8] 10000) [8] 2000
        (Insert (sample_join [7] 10000) [7] 0 NewMulticastPeerTable).2).2).2.

Definition sample_peer : MulticastPeerEntry := peer_of_join (sample_join [8] 10000) [8] 2000.

Lemma multicast_routes_exact_witness :
  LookupBySrcAddr [8] sample_table = Some sample_peer <->
  LookupByZID (mkZID [8]) sample_table = Some sample_peer /\ [8] = pe_SrcAddr sample_peer.
Proof.
  apply (multicast_routes_exact sample_addr sample_table [8] sample_peer); [by intros k k'|].
  apply rtc_l with (Insert (sample_join [7] 10000) [7] 0 NewMulticastPeerTable).2.
  { apply (ss_join sample_addr). }
  apply rtc_l with (Insert (sample_join [8] 10000) [8] 2000
    (Insert (sample_join [7] 10000) [7] 0 NewMulticastPeerTable).2).2.
  { apply (ss_join sample_addr _ (sample_join [8] 10000)). }
  apply rtc_once. apply ss_evict.
Defined.

(** The peer of the first JOIN is gone, the second one is alive. *)
Example sample_table_live :
  LookupByZID (mkZID [7]) sample_table = None /\
  LookupByZID (mkZID [8]) sample_table = Some sample_peer /\
  LookupBySrcAddr [7] sample_table = None.
Proof. vm_compute. by split_and!. Qed.

Lemma multicast_lease_witness :
  LookupByZID (mkZID [7])
    (EvictExpired 10001 (Insert (sample_join [7] 10000) [7] 0 NewMulticastPeerTable).2).2 = None /\
  10000 = 10000.
Proof.
  apply (multicast_lease (sample_join [7] 10000) [7] 0 10001 NewMulticastPeerTable
    (peer_of_join (sample_join [7] 10000) [7] 0)); [apply table_ok_new|reflexivity|..]; cbn; lia.
Defined.

(** A peer that moved to another address and was then evicted is still routed
    from its old address. *)
Theorem multicast_stale_route :
  let t1 := (Insert (sample_join [7] 10000) [1] 0 NewMulticastPeerTable).2 in
  let t2 := (Insert (sample_join [7] 10000) [2] 100 t1).2 in
  let t3 := (EvictExpired 10101 t2).2 in
  LookupByZID (mkZID [7]) t3 = None /\ LookupBySrcAddr [2] t3 = None /\
  is_Some (LookupBySrcAddr [1] t3).
Proof. vm_compute. split_and!; [done|done|by eexists]. Qed.
