(* ===== verification/MulticastDelivery.v ===== *)
(** * From one node's multicast batcher to the other nodes' dispatchers

    Datagrams are handled to their end on every input; a datagram from a known
    peer does what the unicast reader does with that peer's reassembler; and
    whatever mixture of senders reaches a node, each sender's messages are
    dispatched in the order of its lanes. *)
From S2P Require Import Prelude Buffer Vle Codec WirePrim WireTransport Transport.
From S2P Require Import SessionReader Delivery Multicast MulticastTable.

Section Datagram.
Context {D : Type}.
Variable disp : @MulticastInboundDispatch D.
Variables (selfZID : ZenohID) (maxMsgSz snMask : Z).

Abbreviation handle := (handleDatagram (Some disp) selfZID maxMsgSz snMask).
Abbreviation handle_loop := (handleDatagram_loop (Some disp) selfZID maxMsgSz snMask).

(** ** Every datagram is handled to its end *)

Hypothesis disp_forward : forall zid, dispatch_forward (disp zid).

(** [r'] is [r] moved forward. *)
Definition forward (n : nat) (r r' : Reader) : Prop :=
  r_buf r' = r_buf r /\ (r_off r + n <= r_off r')%nat /\ reader_wf r'.

Lemma forward_len n r r' : reader_wf r -> forward n r r' ->
  (Reader_Len r' + n <= Reader_Len r)%nat.
Proof. unfold forward, Reader_Len, reader_wf. intros Hr (-> & Ho & Hr'). lia. Qed.

Lemma forward_trans n1 n2 r1 r2 r3 : forward n1 r1 r2 -> forward n2 r2 r3 ->
  forward (n1 + n2) r1 r3.
Proof.
  unfold forward. intros (E1 & H1 & _) (E2 & H2 & Hw). split_and!; [congruence|lia|done].
Qed.

Lemma decoded_forward {A} n (m : RM A) r a r' : consumes n m -> reader_wf r ->
  m r = Ok (a, r') -> forward n r r'.
Proof. intros Hc Hr E. by apply (Hc r a r'). Qed.

Lemma consumes_DecodeHeader : consumes 1 DecodeHeader.
Proof. unfold DecodeHeader. solve_consumes. Qed.

Lemma mc_dispatch_one_forward zid r d : reader_wf r ->
  let '(go, r', _) := mc_dispatch_one disp zid r d in go = true -> forward 1 r r'.
Proof.
  intros Hr. unfold mc_dispatch_one. destruct (DecodeHeader r) as [[h r1]|e] eqn:E; [|done].
  apply (decoded_forward 1) in E; [|apply consumes_DecodeHeader|done].
  pose proof (disp_forward zid h r1 d (proj2 (proj2 E))) as Hf.
  destruct (disp zid h r1 d) as [[r2|e] d']; [|done]. intros _.
  apply (forward_trans 1 0 r r1 r2); [done|]. destruct Hf as (?&?&?). split_and!; [done|lia|done].
Qed.

Lemma mc_frame_loop_total zid fuel : forall r d, reader_wf r -> (Reader_Len r < fuel)%nat ->
  exists go r' d', mc_frame_loop disp zid fuel r d = Some (go, r', d') /\
    (go = true -> forward 0 r r').
Proof.
  assert (H0 : forall r, reader_wf r -> forward 0 r r) by (intros r Hr; split_and!; [done|lia|done]).
  induction fuel as [|fuel IH]; intros r d Hr Hf; [lia|]. cbn [mc_frame_loop].
  destruct (Reader_Len r =? 0)%nat; [eexists _, _, _; split; [done|by auto]|].
  destruct (PeekByte r) as [[b r0]|]; [|eexists _, _, _; split; [done|by auto]]. destruct (negb _); [eexists _, _, _; split; [done|by auto]|].
  pose proof (mc_dispatch_one_forward zid r d Hr) as H1.
  destruct (mc_dispatch_one disp zid r d) as [[[] r1] d1]; [|by eexists _, _, _].
  specialize (H1 eq_refl). pose proof (forward_len _ _ _ Hr H1).
  destruct (IH r1 d1) as (go & r' & d' & E & Hg); [apply H1|lia|].
  exists go, r', d'. split; [done|]. intros Hgo. destruct (forward_trans _ _ _ _ _ H1 (Hg Hgo)) as (?&?&?).
  split_and!; [done|lia|done].
Qed.

Lemma mc_body_loop_total zid fuel : forall r d, reader_wf r -> (Reader_Len r < fuel)%nat ->
  is_Some (mc_body_loop disp zid fuel r d).
Proof.
  induction fuel as [|fuel IH]; intros r d Hr Hf; [lia|]. cbn [mc_body_loop].
  destruct (Reader_Len r =? 0)%nat; [done|].
  pose proof (mc_dispatch_one_forward zid r d Hr) as H1.
  destruct (mc_dispatch_one disp zid r d) as [[[] r1] d1]; [|done].
  specialize (H1 eq_refl). pose proof (forward_len _ _ _ Hr H1). apply IH; [apply H1|lia].
Qed.

Lemma handle_loop_total src now fuel : forall r w, reader_wf r -> (Reader_Len r < fuel)%nat ->
  is_Some (handle_loop src now fuel r w).
Proof.
  induction fuel as [|fuel IH]; intros r w Hr Hf; [lia|]. cbn [handleDatagram_loop].
  destruct (Reader_Len r =? 0)%nat; [done|].
  destruct (DecodeHeader r) as [[h r1]|e] eqn:E; [|done].
  apply (decoded_forward 1) in E; [|apply consumes_DecodeHeader|done].
  pose proof (forward_len _ _ _ Hr E) as Hl. destruct E as (_ & _ & Hr1).
  assert (Hnext : forall A (m : RM A) a r2 w2, consumes 0 m -> m r1 = Ok (a, r2) ->
    is_Some (handle_loop src now fuel r2 w2)).
  { intros A m a r2 w2 Hc E2. apply (decoded_forward 0) in E2; [|done|done].
    pose proof (forward_len _ _ _ Hr1 E2). apply IH; [apply E2|lia]. }
  destruct (hID h =? _); [|destruct (hID h =? _); [|destruct (hID h =? _);
    [|destruct (hID h =? _); [|done]]]].
  - destruct (DecodeJoin h r1) as [[j r2]|] eqn:E2; [|done].
    destruct (zidEqual _ _); [|destruct (Insert j src now (mw_table w)) as [[p new] t]];
      (eapply Hnext; [|exact E2]); auto with consumes.
  - destruct (DecodeKeepAlive h r1) as [[j r2]|] eqn:E2; [|done].
    eapply Hnext; [|exact E2]. auto with consumes.
  - destruct (peerForDatagram src _) as [[p e]|]; [|done].
    destruct (DecodeFrame h r1) as [[j r2]|] eqn:E2; [|done].
    apply (decoded_forward 0) in E2; [|auto with consumes|done].
    pose proof (forward_len _ _ _ Hr1 E2). cbn [dispatchMulticastFrameMessages].
    destruct (mc_frame_loop_total (pe_ZID e) (S (Reader_Len r2)) r2 (mw_d w))
      as (go & r3 & d' & -> & Hg); [apply E2|lia|].
    destruct go; [|done]. specialize (Hg eq_refl).
    pose proof (forward_len _ _ _ (proj2 (proj2 E2)) Hg). apply IH; [apply Hg|lia].
  - destruct (peerForDatagram src _) as [[p e]|]; [|done].
    destruct (DecodeFragment h r1) as [[frag r2]|] eqn:E2; [|done].
    destruct (pushFragment _ _ _ _ _ _ _ _ _) as [[body|] t];
      [|eapply Hnext; [|exact E2]; auto with consumes].
    cbn [dispatchMulticastFrameBody].
    destruct (mc_body_loop_total (pe_ZID e) (S (length body)) (NewReader body) (mw_d w)) as [d' Ed].
    + apply reader_wf_NewReader.
    + unfold Reader_Len. cbn. lia.
    + cbn [mw_d]. rewrite Ed. eapply Hnext; [|exact E2]. auto with consumes.
Qed.

Lemma handleDatagram_total src now body w : is_Some (handle src now body w).
Proof.
  apply handle_loop_total; [apply reader_wf_NewReader|]. unfold Reader_Len. cbn. lia.
Qed.

(** ** A datagram as the unicast reader sees it *)

Lemma dispatch_one_unicast zid r x r' x' :
  dispatch_one (disp zid) (r, x) = (Ok tt, (r', x')) ->
  mc_dispatch_one disp zid r (rx_d x) = (true, r', rx_d x') /\
  x' = mkRx (rx_reasm x) (rx_d x') (rx_closed x).
Proof.
  unfold dispatch_one, mc_dispatch_one, mbind, sem_bind, decode, wrap, call_dispatch.
  destruct (DecodeHeader r) as [[h r1]|e]; [|done]. cbn [reader_len].
  destruct (disp zid h r1 (rx_d x)) as [[r2|e] d]; [|done]. cbn [reader_len].
  destruct (_ && _); [done|]. intros [= <- <-]. done.
Qed.

Lemma frame_loop_unicast zid fuel : forall r x r' x',
  dispatchFrameMessages_loop (disp zid) fuel (r, x) = (Ok tt, (r', x')) ->
  mc_frame_loop disp zid fuel r (rx_d x) = Some (true, r', rx_d x') /\
  x' = mkRx (rx_reasm x) (rx_d x') (rx_closed x).
Proof.
  assert (Hx : forall x : RxState D, x = mkRx (rx_reasm x) (rx_d x) (rx_closed x)) by (by intros []).
  induction fuel as [|fuel IH]; intros r x r' x'; [done|].
  cbn [dispatchFrameMessages_loop mc_frame_loop]. unfold mbind at 1, sem_bind at 1.
  cbn [reader_len]. destruct (Reader_Len r =? 0)%nat; [intros [= <- <-]; by split|].
  unfold mbind at 1, sem_bind at 1, decode at 1.
  destruct (PeekByte r) as [[b r0]|e] eqn:Ep; [|done].
  assert (r0 = r) as ->.
  { unfold PeekByte in Ep. destruct (r_buf r !! r_off r); [congruence|done]. }
  destruct (negb _); [intros [= <- <-]; by split|]. unfold mbind, sem_bind.
  destruct (dispatch_one (disp zid) (r, x)) as [[[]|e] [r1 x1]] eqn:E1; [|done].
  apply dispatch_one_unicast in E1 as [-> ->]. intros H. by apply IH in H.
Qed.

Lemma body_loop_unicast zid fuel : forall r x r' x',
  dispatchFrameBody_loop (disp zid) fuel (r, x) = (Ok tt, (r', x')) ->
  mc_body_loop disp zid fuel r (rx_d x) = Some (rx_d x') /\
  x' = mkRx (rx_reasm x) (rx_d x') (rx_closed x).
Proof.
  induction fuel as [|fuel IH]; intros r x r' x'; [done|].
  cbn [dispatchFrameBody_loop mc_body_loop]. unfold mbind at 1, sem_bind at 1.
  cbn [reader_len]. destruct (Reader_Len r =? 0)%nat; [intros [= <- <-]; by destruct x|].
  unfold mbind, sem_bind.
  destruct (dispatch_one (disp zid) (r, x)) as [[[]|e] [r1 x1]] eqn:E1; [|done].
  apply dispatch_one_unicast in E1 as [-> ->]. intros H. by apply IH in H.
Qed.

(** The entry at [p] with its reassembler at [ra]: nothing else changes. *)
Definition with_reasm (p : Z) (e : MulticastPeerEntry) (ra : Reassembler)
    (t t' : MulticastPeerTable) : Prop :=
  exists e', t' = mkPeerTable (<[p := e']> (mt_store t)) (mt_next t) (mt_byZID t) (mt_bySrcAddr t) /\
    peer_reasm maxMsgSz snMask e' = ra /\ (e' = e \/ e' = set_peer_reasm ra e).

Lemma with_reasm_refl p e t : mt_store t !! p = Some e ->
  with_reasm p e (peer_reasm maxMsgSz snMask e) t t.
Proof.
  intros H. exists e. rewrite insert_id by done. split_and!; [by destruct t|done|by left].
Qed.

Lemma with_reasm_set p e ra ra' t t' :
  with_reasm p (set_peer_reasm ra e) ra'
    (mkPeerTable (<[p := set_peer_reasm ra e]> (mt_store t)) (mt_next t) (mt_byZID t)
       (mt_bySrcAddr t)) t' ->
  with_reasm p e ra' t t'.
Proof.
  intros (e' & -> & Hr & He). exists e'. cbn. rewrite insert_insert_eq. split_and!; [done|done|].
  right. destruct He as [->| ->]; [|done]. cbn in Hr. by subst.
Qed.

Lemma peerForDatagram_Some src t p e : peerForDatagram src t = Some (p, e) <->
  mt_bySrcAddr t !! src = Some p /\ mt_store t !! p = Some e.
Proof.
  unfold peerForDatagram. rewrite bind_Some. setoid_rewrite bind_Some. naive_solver.
Qed.

Lemma ReadRest_end r b r' : ReadRest r = Ok (b, r') -> Reader_Len r' = 0%nat.
Proof.
  unfold ReadRest, get_reader, mbind, stm_bind, Skip, mret, stm_ret.
  destruct (_ <? 0); [done|]. destruct (_ >? _); [done|]. intros [= _ <-].
  unfold Reader_Len, advance. cbn. rewrite Nat2Z.id. lia.
Qed.

Lemma DecodeFragment_end h r frag r' : DecodeFragment h r = Ok (frag, r') -> Reader_Len r' = 0%nat.
Proof.
  unfold DecodeFragment. intros H. do 3 apply stm_bind_Ok in H as (? & ? & _ & H).
  apply stm_bind_Ok in H as (? & r1 & Hr & [= _ <-]). by eapply ReadRest_end.
Qed.

(** Where [processBatch] succeeds without a CLOSE, the datagram has the same
    effect on the reassembler of its peer and on the dispatcher's state. *)
Lemma handle_loop_unicast src now fuel : forall n r p e w c r' ra' d' w',
  peerForDatagram src (mw_table w) = Some (p, e) ->
  processBatch_loop (disp (pe_ZID e)) fuel (r, mkRx (peer_reasm maxMsgSz snMask e) (mw_d w) c) =
    (Ok tt, (r', mkRx ra' d' c)) ->
  handle_loop src now n r w = Some w' ->
  exists t', w' = mkMW t' d' (mw_joins w) /\ with_reasm p e ra' (mw_table w) t'.
Proof.
  induction fuel as [|fuel IH]; intros n r p e w c r' ra' d' w' Hp; [done|].
  pose proof (proj1 (peerForDatagram_Some _ _ _ _) Hp) as [Hsrc Hst].
  destruct n as [|n]; [done|]. cbn [processBatch_loop handleDatagram_loop].
  unfold mbind at 1, sem_bind at 1. cbn [reader_len].
  destruct (Reader_Len r =? 0)%nat.
  { intros [= <- <- <-] [= <-]. exists (mw_table w). split; [by destruct w|by apply with_reasm_refl]. }
  unfold mbind at 1, sem_bind at 1, decode at 1, wrap at 1.
  destruct (DecodeHeader r) as [[h r1]|err]; [|done].
  destruct (hID h =? IDTransportKeepAlive) eqn:E1.
  { apply Z.eqb_eq in E1 as E1'. rewrite E1'. cbn [Z.eqb Pos.eqb IDTransportKeepAlive IDTransportJoin].
    unfold mbind, sem_bind, decode. destruct (DecodeKeepAlive h r1) as [[k r2]|err]; [|done].
    by apply IH. }
  destruct (hID h =? IDTransportClose) eqn:E2.
  { unfold mbind, sem_bind, decode. destruct (DecodeClose h r1) as [[k r2]|err]; [|done].
    unfold on_close. cbn. intros [= _ _ _ Hc]. by apply (f_equal length) in Hc;
      rewrite length_app in Hc; cbn in Hc; lia. }
  destruct (hID h =? IDTransportFrame) eqn:E3.
  { apply Z.eqb_eq in E3 as E3'. rewrite E3'. cbn [Z.eqb Pos.eqb IDTransportFrame IDTransportJoin].
    rewrite Hp. unfold mbind at 1, sem_bind at 1, decode at 1, wrap at 1.
    destruct (DecodeFrame h r1) as [[k r2]|err]; [|done].
    unfold mbind at 1, sem_bind at 1, dispatchFrameMessages, mbind at 1, sem_bind at 1.
    cbn [reader_len dispatchMulticastFrameMessages].
    destruct (dispatchFrameMessages_loop _ _ _) as [[[]|err] [r3 x3]] eqn:El; [|done].
    apply frame_loop_unicast in El as [El ->]. cbn [rx_reasm rx_d rx_closed] in *. rewrite El.
    intros H1 H2. by eapply (IH n r3 p e (set_mw_d (rx_d x3) w)). }
  destruct (hID h =? IDTransportFragment) eqn:E4.
  2:{ by destruct (hID h =? IDTransportOAM). }
  apply Z.eqb_eq in E4 as E4'. rewrite E4'. cbn [Z.eqb Pos.eqb IDTransportFragment IDTransportJoin].
  rewrite Hp. unfold mbind at 1, sem_bind at 1, decode at 1, wrap at 1.
  destruct (DecodeFragment h r1) as [[frag r2]|err] eqn:Ef; [|done].
  apply DecodeFragment_end in Ef. unfold mbind at 1, sem_bind at 1, process_fragment.
  unfold mbind at 1, sem_bind at 1, reassemble, pushFragment. cbn [rx_reasm rx_d rx_closed].
  destruct (Reassembler_Push _ _ _ _ _) as [res ra1].
  set (e1 := set_peer_reasm ra1 e). set (t1 := mkPeerTable (<[p := e1]> _) _ _ _).
  assert (Hp1 : peerForDatagram src t1 = Some (p, e1)).
  { apply peerForDatagram_Some. cbn. by rewrite lookup_insert_eq. }
  destruct res as [[body|]|err].
  - unfold mbind at 1, sem_bind at 1, dispatchFrameBody. cbn [dispatchMulticastFrameBody mw_d].
    destruct (dispatchFrameBody_loop _ _ _) as [[[]|err] [r3 x3]] eqn:El; [|done].
    apply body_loop_unicast in El as [El ->]. cbn [rx_reasm rx_d rx_closed] in *. rewrite El.
    intros H1 H2. destruct (IH n r2 p e1 (mkMW t1 (rx_d x3) (mw_joins w)) c r' ra' d' w')
      as (t' & -> & Hw); [done..|]. exists t'. split; [done|]. by eapply with_reasm_set.
  - intros H1 H2. destruct (IH n r2 p e1 (mkMW t1 (mw_d w) (mw_joins w)) c r' ra' d' w')
      as (t' & -> & Hw); [done..|]. exists t'. split; [done|]. by eapply with_reasm_set.
  - intros [= _ <- <-]. destruct n as [|n]; [done|]. cbn [handleDatagram_loop].
    rewrite Ef. cbn. intros [= <-]. exists t1. split; [done|]. exists e1. by split_and!; [| |right].
Qed.

(** ** JOINs *)

(** [b] is a datagram that holds one JOIN, [j]. *)
Definition join_bytes (j : Join) (b : bytes) : Prop := exists h e,
  b = PackHeader h :: e /\ hID h = IDTransportJoin /\ decodes (DecodeJoin h) j e.

Lemma zidEqual_spec a : forall b, zidEqual a b = bool_decide (a = b).
Proof.
  induction a as [|x a IH]; intros [|y b]; try done. cbn. rewrite IH.
  destruct (Z.eqb_spec x y) as [->|Hn]; cbn.
  - apply bool_decide_ext. split; [by intros ->|by intros [= ->]].
  - symmetry. apply bool_decide_eq_false_2. congruence.
Qed.

Lemma handle_join src now j b w : join_bytes j b -> zid_bytes (jZID j) <> zid_bytes selfZID ->
  handle src now b w =
  Some (let '(p, isNew, t) := Insert j src now (mw_table w) in
        mkMW t (mw_d w) (mw_joins w ++ if isNew : bool then [p] else [])).
Proof.
  intros (h & e & -> & Hh & Dc) Hz. unfold handleDatagram. cbn [length handleDatagram_loop].
  set (r := NewReader (PackHeader h :: e)).
  assert (E0 : Reader_Bytes r = PackHeader h :: e) by done.
  rewrite (Reader_Len_bytes _ _ E0). cbn [length Nat.eqb].
  rewrite (decode_Header h e r) by (rewrite ?Hh; done || apply reader_wf_NewReader).
  rewrite Hh, Z.eqb_refl.
  assert (E1 : Reader_Bytes (advance r 1) = e ++ []) by (by rewrite app_nil_r).
  rewrite (Dc (advance r 1) []); [|eapply reader_wf_cons; [apply reader_wf_NewReader|exact E0]|done].
  rewrite zidEqual_spec, bool_decide_eq_false_2 by done.
  destruct (Insert j src now (mw_table w)) as [[p new] t].
  assert (E2 : Reader_Len (advance (advance r 1) (length e)) = 0%nat).
  { by rewrite (Reader_Len_bytes _ _ (Reader_Bytes_app _ _ _ E1)). }
  cbn [handleDatagram_loop]. by rewrite E2.
Qed.

(** ** Any datagrams from anywhere *)

(** What no datagram breaks: the table's invariant, and the node itself is not
    one of its peers. *)
Definition peers_ok (w : MulticastWorld D) : Prop :=
  table_ok (mw_table w) /\ LookupByZID selfZID (mw_table w) = None.

Lemma peers_ok_set_d w d : peers_ok w -> peers_ok (set_mw_d d w).
Proof. done. Qed.

Lemma peers_ok_insert src now j w js : zid_bytes (jZID j) <> zid_bytes selfZID -> peers_ok w ->
  peers_ok (mkMW (Insert j src now (mw_table w)).2 (mw_d w) js).
Proof.
  intros Hn [Ht Hs]. split; [by apply Insert_ok|]. cbn [mw_table].
  pose proof (Insert_lookup j src now (mw_table w) Ht) as H.
  destruct (Insert j src now (mw_table w)) as [[p new] t]. destruct H as (_ & _ & H). cbn [snd].
  rewrite H; [done|congruence].
Qed.

Lemma peers_ok_fragment src p e lane sn more body w complete t :
  peerForDatagram src (mw_table w) = Some (p, e) ->
  pushFragment maxMsgSz snMask p e lane sn more body (mw_table w) = (complete, t) ->
  peers_ok w -> peers_ok (mkMW t (mw_d w) (mw_joins w)).
Proof.
  intros [Hs He]%peerForDatagram_Some H [Ht Hself]. unfold pushFragment in H.
  destruct (Reassembler_Push _ _ _ _ _) as [res ra]. injection H as _ <-. split; cbn [mw_table].
  - by apply table_ok_update with e.
  - unfold LookupByZID, deref in *. cbn [mt_byZID mt_store].
    destruct (mt_byZID (mw_table w) !! zid_bytes selfZID) as [q|] eqn:Eq; [|done].
    destruct (to_zid _ Ht _ _ Eq) as (x & Hx & _). cbn in Hself. congruence.
Qed.

Lemma handle_loop_peers src now fuel : forall r w w', handle_loop src now fuel r w = Some w' ->
  peers_ok w -> peers_ok w'.
Proof.
  induction fuel as [|fuel IH]; intros r w w'; [done|]. cbn [handleDatagram_loop].
  destruct (Reader_Len r =? 0)%nat; [by intros [= <-]|].
  destruct (DecodeHeader r) as [[h r1]|e]; [|by intros [= <-]].
  destruct (hID h =? _); [|destruct (hID h =? _); [|destruct (hID h =? _);
    [|destruct (hID h =? _); [|by intros [= <-]]]]].
  - destruct (DecodeJoin h r1) as [[j r2]|]; [|by intros [= <-]].
    rewrite zidEqual_spec. case_bool_decide as Hz; [apply IH|].
    destruct (Insert j src now (mw_table w)) as [[p new] t] eqn:E. intros H Hw.
    eapply IH; [exact H|]. replace t with (Insert j src now (mw_table w)).2 by (by rewrite E).
    by apply peers_ok_insert.
  - destruct (DecodeKeepAlive h r1) as [[j r2]|]; [apply IH|by intros [= <-]].
  - destruct (peerForDatagram src _) as [[p e]|]; [|by intros [= <-]].
    destruct (DecodeFrame h r1) as [[j r2]|]; [|by intros [= <-]].
    destruct (dispatchMulticastFrameMessages _ _ _ _) as [[[[] r3] d]|]; [|by intros [= <-]|done].
    intros H Hw. by eapply IH.
  - destruct (peerForDatagram src _) as [[p e]|] eqn:Ep; [|by intros [= <-]].
    destruct (DecodeFragment h r1) as [[frag r2]|]; [|by intros [= <-]].
    destruct (pushFragment _ _ _ _ _ _ _ _ _) as [complete t] eqn:Epf. intros H Hw.
    pose proof (peers_ok_fragment _ _ _ _ _ _ _ _ _ _ Ep Epf Hw) as Hw1.
    destruct complete as [body|]; [|by eapply IH].
    destruct (dispatchMulticastFrameBody _ _ _ _) as [d|]; [|done]. by eapply IH.
Qed.

Lemma runReadLoop_any dgs : forall w, peers_ok w ->
  exists w', runReadLoop (Some disp) selfZID maxMsgSz snMask dgs w = Some w' /\ peers_ok w'.
Proof.
  induction dgs as [|[[src now] body] dgs IH]; intros w Hw; [by exists w|].
  rewrite runReadLoop_cons.
  destruct (handleDatagram_total src now (ReadBatchFrom MulticastBatchSize body) w) as [w1 E].
  rewrite E. cbn [mbind option_bind]. apply IH. by eapply handle_loop_peers.
Qed.
End Datagram.

Lemma writes_LaneSNs rel : forall be, exists e, writes (EncodeLaneSNs rel be) e /\
  Z.of_nat (length e) <= 18 * Z.of_nat (length rel).
Proof.
  induction rel as [|r rel IH]; intros [|b be]; cbn [EncodeLaneSNs].
  1-3: exists []; split; [apply writes_ret|cbn [length]; lia].
  destruct (IH be) as (e & W & Hl). exists (vle_loop 8 r ++ vle_loop 8 b ++ e). split.
  - apply writes_bind; [apply writes_AppendBytes|]. by apply writes_bind; [apply writes_AppendBytes|].
  - pose proof (vle_loop_length_le 8 r). pose proof (vle_loop_length_le 8 b).
    rewrite !length_app. cbn [length]. lia.
Qed.

(** ** The size of a JOIN *)

Definition at_most (n : nat) (m : WM unit) : Prop := forall w w',
  m w = Ok (tt, w') -> (length (w_buf w') <= length (w_buf w) + n)%nat.

Lemma at_most_weaken n n' m : (n <= n')%nat -> at_most n m -> at_most n' m.
Proof. intros Hn H w w' E. apply H in E. lia. Qed.

Lemma at_most_bind n n' m m' : at_most n m -> at_most n' m' -> at_most (n + n') (m;; m').
Proof.
  intros H H' w w' E. apply stm_bind_Ok in E as ([] & w1 & E1 & E2).
  apply H in E1. apply H' in E2. lia.
Qed.

Lemma at_most_ret : at_most 0 (mret tt).
Proof. intros w w' [= <-]. lia. Qed.

Lemma at_most_guard b e : at_most 0 (guard_err b e).
Proof. destruct b; [done|apply at_most_ret]. Qed.

Lemma at_most_when n b m : at_most n m -> at_most n (when b m).
Proof.
  intros H. destruct b; [done|]. eapply at_most_weaken; [|apply at_most_ret]. lia.
Qed.

Lemma at_most_AppendBytes p : at_most (length p) (AppendBytes p).
Proof. intros w w' [= <-]. cbn. rewrite length_app. lia. Qed.

Lemma at_most_AppendByte b : at_most 1 (AppendByte b).
Proof. apply (at_most_AppendBytes [b]). Qed.

Lemma at_most_Z64 v : at_most 9 (EncodeZ64 v).
Proof.
  eapply at_most_weaken; [|apply at_most_AppendBytes]. pose proof (vle_loop_length_le 8 v). done.
Qed.

Lemma at_most_ZBuf (h : ExtHeader) v (e : bytes) : eEncoding h = ExtEncZBuf ->
  at_most (length e + 10) (EncodeExtensions [mkExtension h v e]).
Proof.
  intros Hh. unfold EncodeExtensions. cbn [normalise_more EncodeExtension_list].
  eapply (at_most_weaken (1 + (0 + (9 + length e)) + 0)); [lia|].
  apply at_most_bind; [|apply at_most_ret]. unfold EncodeExtension. cbn [set_more eHeader eEncoding].
  rewrite Hh. apply at_most_bind; [apply at_most_AppendByte|].
  apply at_most_bind; [apply at_most_guard|].
  apply at_most_bind; [apply at_most_Z64|apply at_most_AppendBytes].
Qed.

Lemma at_most_Join (j : Join) n : (length (zid_bytes (jZID j)) <= 16)%nat ->
  at_most n (EncodeExtensions (jExtensions j)) -> at_most (n + 49) (EncodeTo j).
Proof.
  intros Hz Hn. eapply (at_most_weaken (1 + (1 + ((0 + (0 + 1)) + ((0 + length (zid_bytes (jZID j))) +
    ((1 + 2) + (9 + (9 + (9 + n))))))))); [lia|].
  repeat first [exact Hn|apply at_most_guard|apply at_most_Z64|apply at_most_AppendByte
    |apply at_most_AppendBytes|apply at_most_when|apply at_most_bind].
Qed.

(** A configuration whose JOIN can be encoded. *)
Definition wf_multicast (cfg : MulticastConfig) : Prop :=
  wf_zid (cfg_ZID cfg) /\ wf_wai (cfg_WhatAmI cfg) /\ 0 <= cfg_BatchSize cfg < 2 ^ 16 /\
  0 <= cfg_LeaseMillis cfg < 2 ^ 64 /\ wf_lane_sns 8 (cfg_InitialSNs cfg).

Lemma nth_bound l i : Forall (fun v => 0 <= v < 2 ^ 64) l -> 0 <= nth i l 0 < 2 ^ 64.
Proof.
  intros H. destruct (decide (i < length l)%nat) as [Hi|Hi].
  - destruct (lookup_lt_is_Some_2 l i Hi) as [v Hv]. rewrite (nth_lookup_Some _ _ _ _ Hv).
    by apply (Forall_lookup_1 _ _ _ _ H Hv).
  - rewrite nth_overflow by lia. lia.
Qed.

(** The JOIN a node announces itself with decodes to its identifier, its lease
    and the sequence numbers its batcher starts from. *)
Lemma encodeJoin_ok cfg : wf_multicast cfg -> exists b j,
  encodeJoin cfg = Ok b /\ join_bytes j b /\ jZID j = cfg_ZID cfg /\
  jLease j = cfg_LeaseMillis cfg /\ jLeaseSeconds j = false /\
  jBatchSize j = cfg_BatchSize cfg /\ jResolution j = cfg_Resolution cfg /\
  DecodeLaneSNs j = Ok (Some (cfg_InitialSNs cfg)) /\
  len b <= MulticastBatchSize.
Proof.
  intros (Hz & Hw & Hb & Hl & Hs). unfold encodeJoin. cbv zeta.
  set (j0 := mkJoin _ _ _ _ _ _ _ _ _ _ _).
  destruct (LaneSNs_round_trip j0 (cfg_InitialSNs cfg) Hs) as (j & Ha & Hd); [constructor|].
  rewrite Ha. unfold AttachLaneSNs in Ha.
  destruct (writes_LaneSNs (lsReliable (cfg_InitialSNs cfg)) (lsBestEffort (cfg_InitialSNs cfg)))
    as (e & We & Hle). rewrite (We NewWriter) in Ha. injection Ha as <-.
  destruct Hs as (L1 & L2 & F1 & F2). rewrite L1 in Hle.
  match goal with |- context [EncodeTo ?x NewWriter] => set (j := x) in * end.
  assert (Hj : wf_Join j).
  { unfold wf_Join. split; [done|]. split; [done|]. split; [done|]. split; [cbn; lia|].
    split; [by apply (nth_bound _ 5)|]. split; [by apply (nth_bound _ 5)|].
    split; [|done]. apply Forall_singleton. split; [by cbn|]. cbn. unfold len. lia. }
  destruct (Join_round_trip j Hj) as (x & W & Dc). rewrite (W NewWriter).
  exists (PackHeader (Join_header j) :: x), j. split_and!; try done; [by exists (Join_header j), x|].
  assert (Hm : at_most (length e + 10 + 49) (EncodeTo j)).
  { apply at_most_Join; [|by apply at_most_ZBuf]. unfold wf_zid, len in Hz. cbn. lia. }
  specialize (W NewWriter). apply Hm in W. unfold len, MulticastBatchSize. cbn in W |- *. lia.
Qed.
