(* ===== verification/MulticastGroup.v ===== *)
(** * Several senders on one multicast group

    Each sender announces itself by a JOIN, repeats it, and sends the batches
    of its batcher; the datagrams of all of them arrive in any mixture.  The
    receiver ends as if the messages had been handled one by one, those of each
    sender in the order of its lanes, and each sender is announced to
    [OnPeerJoin] once. *)
From S2P Require Import Prelude Buffer Vle Codec WirePrim WireTransport Transport.
From S2P Require Import SessionReader Delivery Multicast MulticastTable MulticastDelivery.

(** What a receiver owes to a sender: a call of [OnPeerJoin], or a message
    handed to the dispatcher. *)
Inductive gevent :=
  | GJoin
  | GMsg (k : Z * bool) (m : bytes).

#[export] Instance gevent_eq_dec : EqDecision gevent.
Proof. solve_decision. Defined.

Definition events_of (src : bytes) (log : list (bytes * gevent)) : list gevent :=
  snd <$> filter (fun se => se.1 = src) log.

Definition from_src (src : bytes) (dgs : list (bytes * Z * bytes)) : list bytes :=
  snd <$> filter (fun dg => dg.1.1 = src) dgs.

Lemma events_of_app src l1 l2 : events_of src (l1 ++ l2) = events_of src l1 ++ events_of src l2.
Proof. unfold events_of. by rewrite filter_app, fmap_app. Qed.
Lemma events_of_same src evs : events_of src (map (pair src) evs) = evs.
Proof.
  unfold events_of. induction evs as [|ev evs IH]; [done|]. cbn [map].
  rewrite filter_cons_True by done. cbn. by f_equal.
Qed.
Lemma events_of_other src src' evs : src <> src' -> events_of src (map (pair src') evs) = [].
Proof.
  intros Hn. unfold events_of. induction evs as [|ev evs IH]; [done|]. cbn [map].
  rewrite filter_cons_False; [done|]. cbn. congruence.
Qed.

Section Group.
Context {D : Type}.
Variable disp : @MulticastInboundDispatch D.
Variables (selfZID : ZenohID) (maxMsgSz snMask : Z).
Variable effect : ZenohID -> bytes -> D -> D.
Variable Inv : D -> Prop.
Hypothesis disp_forward : forall zid, dispatch_forward (disp zid).

(** The sender behind a source address. *)
Variable zidOf : bytes -> ZenohID.

Abbreviation handle := (handleDatagram (Some disp) selfZID maxMsgSz snMask).
Abbreviation run := (runReadLoop (Some disp) selfZID maxMsgSz snMask).
Abbreviation takes_from zid := (takes (disp zid) (effect zid) Inv).

Definition group_effects (log : list (bytes * gevent)) (d : D) : D :=
  fold_left (fun d se => match se.2 with GJoin => d | GMsg _ m => effect (zidOf se.1) m d end)
    log d.

(** The peers [OnPeerJoin] was called for. *)
Definition announced (w : MulticastWorld D) : list (list Z) :=
  omap (fun p => zid_bytes ∘ pe_ZID <$> mt_store (mw_table w) !! p) (mw_joins w).

Definition joins_of (log : list (bytes * gevent)) : list (list Z) :=
  omap (fun se => match se.2 with GJoin => Some (zid_bytes (zidOf se.1)) | GMsg _ _ => None end) log.

(** ** What one sender sends *)

(** From the state [o] of its reassembler ([None]: the sender is unknown). *)
Inductive script (zid : ZenohID) : option Reassembler -> list bytes -> list gevent -> Prop :=
  | sc_nil o : script zid o [] []
  | sc_first j b bs evs : join_bytes j b -> jZID j = zid ->
      script zid (Some (NewReassembler maxMsgSz snMask)) bs evs ->
      script zid None (b :: bs) (GJoin :: evs)
  | sc_again j b bs ra evs : join_bytes j b -> jZID j = zid ->
      script zid (Some ra) bs evs -> script zid (Some ra) (b :: bs) evs
  | sc_batch b bs k gs ra ra1 evs : takes_from zid b ra gs ra1 ->
      script zid (Some ra1) bs evs ->
      script zid (Some ra) (b :: bs) (map (GMsg k) gs ++ evs).

(** ** What the receiver knows of a sender *)

Definition known (src : bytes) (zid : ZenohID) (o : option Reassembler) (t : MulticastPeerTable) :
    Prop :=
  match o with
  | None => mt_byZID t !! zid_bytes zid = None
  | Some ra => exists p e, mt_byZID t !! zid_bytes zid = Some p /\ mt_bySrcAddr t !! src = Some p /\
      mt_store t !! p = Some e /\ pe_ZID e = zid /\ peer_reasm maxMsgSz snMask e = ra
  end.

(** A step for one sender leaves the others alone. *)
Record kept (src : bytes) (zid : ZenohID) (t t' : MulticastPeerTable) : Prop := {
  kp_ok : table_ok t';
  kp_zid : forall z, z <> zid_bytes zid -> mt_byZID t' !! z = mt_byZID t !! z;
  kp_src : forall a, a <> src -> mt_bySrcAddr t' !! a = mt_bySrcAddr t !! a;
  kp_store : forall z p, z <> zid_bytes zid -> mt_byZID t !! z = Some p ->
    mt_store t' !! p = mt_store t !! p;
  kp_zids : forall p e, mt_store t !! p = Some e ->
    exists e', mt_store t' !! p = Some e' /\ pe_ZID e' = pe_ZID e;
}.

Lemma known_kept src zid src' zid' o t t' : kept src zid t t' ->
  src' <> src -> zid' <> zid -> known src' zid' o t -> known src' zid' o t'.
Proof.
  intros [Hok Hz Hs Hst _] Hsrc Hzid.
  assert (Hb : zid_bytes zid' <> zid_bytes zid) by (destruct zid, zid'; cbn; congruence).
  destruct o as [ra|]; cbn.
  - intros (p & e & H1 & H2 & H3 & H4 & H5). exists p, e.
    rewrite (Hz _ Hb), (Hs _ Hsrc), (Hst _ _ Hb H1). done.
  - by rewrite (Hz _ Hb).
Qed.

(** A store that keeps the ZenohIDs of its entries announces the same peers. *)
Lemma announced_kept (t t' : MulticastPeerTable) (js : list Z) (d d' : D) :
  (forall p e, mt_store t !! p = Some e ->
     exists e', mt_store t' !! p = Some e' /\ pe_ZID e' = pe_ZID e) ->
  Forall (fun p => is_Some (mt_store t !! p)) js ->
  announced (mkMW t' d' js) = announced (mkMW t d js) /\
  Forall (fun p => is_Some (mt_store t' !! p)) js.
Proof.
  intros Hz Hj. unfold announced. cbn. induction Hj as [|p js [e He] _ [IH1 IH2]]; [done|].
  destruct (Hz p e He) as (e' & He' & Ez). cbn. rewrite He, He'. cbn. rewrite Ez, IH1.
  split; [done|]. constructor; [by rewrite He'|done].
Qed.

Definition joins_valid (w : MulticastWorld D) : Prop :=
  Forall (fun p => is_Some (mt_store (mw_table w) !! p)) (mw_joins w).

Lemma kept_insert_known src now j t p e : table_ok t ->
  mt_byZID t !! zid_bytes (jZID j) = Some p -> mt_store t !! p = Some e ->
  kept src (jZID j) t (Insert j src now t).2.
Proof.
  intros Ht Hp He. constructor; [by apply Insert_ok|..];
    rewrite (Insert_known _ _ _ _ _ _ Hp He); cbn [snd mt_store mt_byZID mt_bySrcAddr].
  - done.
  - intros a Ha. by rewrite lookup_insert_ne.
  - intros z q Hz Hq. apply lookup_insert_ne. intros <-. by eapply Hz, to_zid_inj.
  - intros q x Hx. destruct (decide (q = p)) as [->|Hn].
    + rewrite lookup_insert_eq. assert (x = e) as -> by congruence. by eexists.
    + rewrite lookup_insert_ne by done. by exists x.
Qed.

Lemma kept_insert_new src now j t : table_ok t -> mt_byZID t !! zid_bytes (jZID j) = None ->
  kept src (jZID j) t (Insert j src now t).2.
Proof.
  intros Ht Hp. constructor; [by apply Insert_ok|..]; unfold Insert; rewrite Hp;
    cbn [snd mt_store mt_byZID mt_bySrcAddr].
  - intros z Hz. by rewrite lookup_insert_ne.
  - intros a Ha. by rewrite lookup_insert_ne.
  - intros z q Hz Hq. destruct (to_zid t Ht _ _ Hq) as (x & Hx & _).
    apply (to_store t Ht) in Hx. by rewrite lookup_insert_ne by lia.
  - intros q x Hx. pose proof (to_store t Ht _ _ Hx). rewrite lookup_insert_ne by lia. by exists x.
Qed.

Lemma join_step src now j b w o : join_bytes j b -> zid_bytes (jZID j) <> zid_bytes selfZID ->
  table_ok (mw_table w) -> joins_valid w -> known src (jZID j) o (mw_table w) ->
  exists w', handle src now b w = Some w' /\ mw_d w' = mw_d w /\
    kept src (jZID j) (mw_table w) (mw_table w') /\ joins_valid w' /\
    known src (jZID j) (Some (default (NewReassembler maxMsgSz snMask) o)) (mw_table w') /\
    announced w' = announced w ++ match o with Some _ => [] | None => [zid_bytes (jZID j)] end.
Proof.
  intros Hj Hz Ht Hv Hk. rewrite (handle_join disp selfZID maxMsgSz snMask src now j b w Hj Hz).
  destruct w as [t d js]; cbn [mw_table mw_d mw_joins] in *. destruct o as [ra|]; cbn in Hk.
  - destruct Hk as (p & e & Hp & Hs & He & Hze & Hr).
    pose proof (kept_insert_known src now j t p e Ht Hp He) as Hkept.
    rewrite (Insert_known _ _ _ _ _ _ Hp He) in *. cbn [snd] in Hkept.
    set (t' := mkPeerTable _ _ _ _) in *. eexists. split; [reflexivity|]. cbn [mw_table mw_d mw_joins].
    rewrite app_nil_r. destruct (announced_kept t t' js d d (kp_zids _ _ _ _ Hkept) Hv) as [Ea Hv'].
    split_and!; [done|done|done| |by rewrite app_nil_r].
    exists p, (touch_peer src now e). subst t'. cbn. rewrite !lookup_insert_eq. by split_and!.
  - pose proof (kept_insert_new src now j t Ht Hk) as Hkept.
    assert (Hins : Insert j src now t = (mt_next t, true, (Insert j src now t).2))
      by (unfold Insert; by rewrite Hk).
    pose proof (kp_zids _ _ _ _ Hkept) as Hids.
    assert (Hnew : mt_store (Insert j src now t).2 !! mt_next t = Some (peer_of_join j src now)).
    { unfold Insert. rewrite Hk. apply lookup_insert_eq. }
    rewrite Hins. destruct (announced_kept t _ js d d Hids Hv) as [Ea Hv'].
    eexists. split; [reflexivity|]. cbn [mw_table mw_d mw_joins]. split_and!; [done|done| | |].
    + apply Forall_app. split; [done|]. apply Forall_singleton. cbn [mw_table]. by rewrite Hnew.
    + exists (mt_next t), (peer_of_join j src now). split; [|split; [|by split_and!]];
        unfold Insert; rewrite Hk; apply lookup_insert_eq.
    + unfold announced in *. cbn [mw_table mw_joins] in *. rewrite omap_app, Ea. cbn. by rewrite Hnew.
Qed.

Lemma kept_with_reasm src zid p e ra t t' : table_ok t ->
  mt_byZID t !! zid_bytes zid = Some p -> mt_store t !! p = Some e ->
  with_reasm maxMsgSz snMask p e ra t t' -> kept src zid t t'.
Proof.
  intros Ht Hp He (e' & -> & _ & Hee). assert (Ez : pe_ZID e' = pe_ZID e) by (by destruct Hee; subst).
  constructor; cbn; [|done|done|..].
  - apply table_ok_update with e; [done|done|]. unfold same_zid. by rewrite Ez.
  - intros z q Hz Hq. apply lookup_insert_ne. intros <-. by eapply Hz, to_zid_inj.
  - intros q x Hx. destruct (decide (q = p)) as [->|Hn].
    + rewrite lookup_insert_eq. exists e'. split; [done|]. congruence.
    + rewrite lookup_insert_ne by done. by exists x.
Qed.

Lemma batch_step src zid now b gs ra ra1 w : takes_from zid b ra gs ra1 -> Inv (mw_d w) ->
  table_ok (mw_table w) -> joins_valid w -> known src zid (Some ra) (mw_table w) ->
  exists w', handle src now b w = Some w' /\ mw_d w' = effects (effect zid) gs (mw_d w) /\
    kept src zid (mw_table w) (mw_table w') /\ joins_valid w' /\
    known src zid (Some ra1) (mw_table w') /\ announced w' = announced w.
Proof.
  intros [_ Hb] Hi Ht Hv (p & e & Hp & Hs & He & Hze & Hr).
  destruct (handleDatagram_total disp selfZID maxMsgSz snMask disp_forward src now b w) as [w' Hw].
  exists w'. split; [done|].
  assert (Hpd : peerForDatagram src (mw_table w) = Some (p, e)) by (by apply peerForDatagram_Some).
  specialize (Hb (mw_d w) [] Hi). unfold processBatch in Hb.
  destruct (processBatch_loop _ _ _) as [[[]|err] [r' x']] eqn:El; [|done].
  injection Hb as ->. rewrite <- Hze, <- Hr in El.
  destruct (handle_loop_unicast disp selfZID maxMsgSz snMask src now _ _ _ _ _ _ _ _ _ _ _ Hpd El Hw)
    as (t' & -> & Hwr). rewrite Hze. cbn [mw_d mw_table mw_joins].
  pose proof (kept_with_reasm src zid p e ra1 _ _ Ht Hp He Hwr) as Hkept.
  destruct w as [t d js]; cbn [mw_table mw_d mw_joins] in *.
  destruct (announced_kept t t' js d (effects (effect zid) gs d) (kp_zids _ _ _ _ Hkept) Hv) as [Ea Hv'].
  split_and!; [done|done|done| |done].
  destruct Hwr as (e' & -> & Hr' & Hee). exists p, e'. cbn. rewrite lookup_insert_eq.
  split_and!; [done|done|done| |done]. by destruct Hee as [->| ->].
Qed.

Lemma group_effects_msgs src zid k gs d : zidOf src = zid ->
  group_effects (map (pair src) (map (GMsg k) gs)) d = effects (effect zid) gs d.
Proof.
  intros Hz. revert d. induction gs as [|g gs IH]; intros d; [done|]. cbn. rewrite Hz. apply IH.
Qed.

Lemma joins_of_msgs src k gs : joins_of (map (pair src) (map (GMsg k) gs)) = [].
Proof. induction gs as [|g gs IH]; [done|]. exact IH. Qed.

(** The next datagram of a sender. *)
Lemma script_step src now b bs w o evs : zid_bytes (zidOf src) <> zid_bytes selfZID ->
  Inv (mw_d w) -> table_ok (mw_table w) -> joins_valid w ->
  known src (zidOf src) o (mw_table w) -> script (zidOf src) o (b :: bs) evs ->
  exists ra evs0 evs1 w1, evs = evs0 ++ evs1 /\ script (zidOf src) (Some ra) bs evs1 /\
    handle src now b w = Some w1 /\ mw_d w1 = group_effects (map (pair src) evs0) (mw_d w) /\
    Inv (mw_d w1) /\ kept src (zidOf src) (mw_table w) (mw_table w1) /\ joins_valid w1 /\
    known src (zidOf src) (Some ra) (mw_table w1) /\
    announced w1 = announced w ++ joins_of (map (pair src) evs0).
Proof.
  intros Hz Hi Ht Hv Hk Hs.
  inversion Hs as [|j b' bs' evs' Hj Ez Hs'|j b' bs' ra evs' Hj Ez Hs'|b' bs' k gs ra ra1 evs' Htk Hs']; subst.
  - rewrite <- Ez in *. destruct (join_step src now j b w None Hj Hz Ht Hv Hk)
      as (w1 & E & Ed & Hkp & Hv1 & Hk1 & Ea).
    exists (NewReassembler maxMsgSz snMask), [GJoin], evs', w1. cbn. rewrite <- Ez, Ed. by split_and!.
  - rewrite <- Ez in *. destruct (join_step src now j b w (Some ra) Hj Hz Ht Hv Hk)
      as (w1 & E & Ed & Hkp & Hv1 & Hk1 & Ea).
    exists ra, [], evs, w1. cbn. rewrite Ed. by split_and!.
  - destruct (batch_step src (zidOf src) now b gs ra ra1 w Htk Hi Ht Hv Hk)
      as (w1 & E & Ed & Hkp & Hv1 & Hk1 & Ea).
    exists ra1, (map (GMsg k) gs), evs', w1. rewrite (group_effects_msgs src (zidOf src)) by done.
    rewrite joins_of_msgs, app_nil_r, Ed. split_and!; try done.
    eapply effects_inv; [apply Htk|done].
Qed.

Section Senders.
Variable srcs : list bytes.
Hypothesis zid_inj : forall s s', s ∈ srcs -> s' ∈ srcs -> zidOf s = zidOf s' -> s = s'.
Hypothesis zid_other : forall s, s ∈ srcs -> zid_bytes (zidOf s) <> zid_bytes selfZID.

Lemma from_src_same src now b dgs : from_src src ((src, now, b) :: dgs) = b :: from_src src dgs.
Proof. unfold from_src. by rewrite filter_cons_True. Qed.
Lemma from_src_other src src' now b dgs : src' <> src ->
  from_src src ((src', now, b) :: dgs) = from_src src dgs.
Proof. intros H. unfold from_src. by rewrite filter_cons_False. Qed.

Lemma group_effects_app l1 l2 d : group_effects (l1 ++ l2) d = group_effects l2 (group_effects l1 d).
Proof. unfold group_effects. apply fold_left_app. Qed.

Lemma group_run dgs : forall w (o : bytes -> option Reassembler) (evs : bytes -> list gevent),
  Forall (fun dg => dg.1.1 ∈ srcs /\ len dg.2 <= MulticastBatchSize) dgs -> Inv (mw_d w) ->
  table_ok (mw_table w) -> joins_valid w ->
  (forall s, s ∈ srcs -> known s (zidOf s) (o s) (mw_table w) /\
                         script (zidOf s) (o s) (from_src s dgs) (evs s)) ->
  exists log w', run dgs w = Some w' /\ mw_d w' = group_effects log (mw_d w) /\ Inv (mw_d w') /\
    announced w' = announced w ++ joins_of log /\
    Forall (fun se => se.1 ∈ srcs) log /\ (forall s, s ∈ srcs -> events_of s log = evs s) /\
    forall s, s ∈ srcs -> is_Some (o s) \/ from_src s dgs <> [] ->
      exists ra, known s (zidOf s) (Some ra) (mw_table w').
Proof.
  induction dgs as [|[[src now] b] dgs IH]; intros w o evs Hsrc Hi Ht Hv Hs.
  { exists [], w. cbn. rewrite app_nil_r. split_and!; try done.
    - intros s Hin. destruct (Hs s Hin) as [_ H]. by inversion H.
    - intros s Hin [[ra Hra]|Hn]; [|done]. exists ra. pose proof (proj1 (Hs s Hin)) as H. by rewrite Hra in H. }
  apply Forall_cons in Hsrc as [[Hin Hlen] Hsrc]. cbn [fst snd] in Hin, Hlen. destruct (Hs src Hin) as [Hk Hsc].
  rewrite from_src_same in Hsc.
  destruct (script_step src now b _ w (o src) (evs src) (zid_other src Hin) Hi Ht Hv Hk Hsc)
    as (ra & evs0 & evs1 & w1 & Eevs & Hsc1 & E & Ed & Hi1 & Hkp & Hv1 & Hk1 & Ea).
  set (o1 := fun s => if decide (s = src) then Some ra else o s).
  set (e1 := fun s => if decide (s = src) then evs1 else evs s).
  destruct (IH w1 o1 e1) as (log & w' & Er & Ed' & Hi' & Ea' & Hl & He & Hf);
    [done|done|apply Hkp|done| |].
  { intros s Hin'. unfold o1, e1. destruct (decide (s = src)) as [->|Hn]; [done|].
    destruct (Hs s Hin') as [Hk' Hs']. rewrite from_src_other in Hs' by done. split; [|done].
    eapply known_kept; [exact Hkp|done| |done]. intros Hz. by apply Hn, zid_inj. }
  exists (map (pair src) evs0 ++ log), w'.
  rewrite runReadLoop_cons, ReadBatchFrom_fits, E by done. cbn [mbind option_bind].
  split_and!; [done|by rewrite group_effects_app, <- Ed|done| | | |].
  - unfold joins_of in *. by rewrite omap_app, app_assoc, <- Ea.
  - apply Forall_app. split; [|done]. by apply Forall_map, Forall_true.
  - intros s Hin'. rewrite events_of_app, (He s Hin'). unfold e1.
    destruct (decide (s = src)) as [->|Hn]; [by rewrite events_of_same|]. by rewrite events_of_other.
  - intros s Hin' Hor. apply (Hf s Hin'). unfold o1. destruct (decide (s = src)) as [->|Hn]; [by left|].
    by rewrite from_src_other in Hor.
Qed.
End Senders.
End Group.
