(* ===== verification/MulticastSession.v ===== *)
(** * internal/session/multicast_dispatch.go, and a session on a group

    [MulticastDispatcher] routes PUSH and DECLARE to the handlers of the
    session and drops everything else; with it the theorems about groups
    become theorems about sessions. *)
From S2P Require Import Prelude Buffer Vle Codec WirePrim WireTransport WireNetwork KeyExpr.
From S2P Require Import Transport SessionReader Delivery Session Dispatch SessionSpec.
From S2P Require Import Multicast MulticastTable MulticastDelivery MulticastGroup.

(** [r.Skip(r.Len())] leaves nothing of the datagram. *)
Definition MulticastDispatcher (srcZID : ZenohID) (h : Header) (r : Reader) (s : Session) :
    result Reader * Session :=
  if hID h =? IDNetworkPush then
    decode_then "multicast dispatch PUSH" (DecodePush h) (fun m => onPushFromPeer m srcZID) r s
  else if hID h =? IDNetworkDeclare then
    decode_then "multicast dispatch DECLARE" (DecodeDeclare h)
      (fun m => onDeclareFromPeer m srcZID) r s
  else if (hID h =? IDNetworkRequest) || (hID h =? IDNetworkResponse)
          || (hID h =? IDNetworkResponseFinal) || (hID h =? IDNetworkInterest)
  then (Ok (advance r (Reader_Len r)), s)
  else if hID h =? IDNetworkOAM then (Ok (advance r (Reader_Len r)), s)
  else (Err (ErrMsg "multicast dispatch: unexpected msg id"), s).

(** ** The contract *)

Lemma multicast_dispatcher_forward zid : dispatch_forward (MulticastDispatcher zid).
Proof.
  intros h r s Hr. unfold MulticastDispatcher.
  destruct (hID h =? _); [|destruct (hID h =? IDNetworkDeclare)].
  1-2: apply forward_decode_then; auto with consumes no_fuel; intros;
    auto using no_fuel_onPush, no_fuel_onDeclare.
  destruct (_ || _); [|destruct (hID h =? _); [|done]];
    unfold advance, reader_wf, Reader_Len in *; cbn; (split_and!; [done|lia|lia]).
Qed.

(** PUSH and DECLARE are what the unicast dispatcher makes of them. *)
Lemma multicast_as_unicast zid h r s r' s' :
  hID h = IDNetworkPush \/ hID h = IDNetworkDeclare ->
  NetworkDispatcherForPeer zid h r s = (Ok r', s') -> MulticastDispatcher zid h r s = (Ok r', s').
Proof.
  intros H. unfold NetworkDispatcherForPeer, MulticastDispatcher, decode_then.
  destruct H as [-> | ->]; cbn [Z.eqb Pos.eqb IDNetworkPush IDNetworkDeclare IDNetworkRequest
    IDNetworkResponse IDNetworkResponseFinal].
  - destruct (DecodePush h r) as [[m r1]|e]; [|done]. by destruct (onPushFromPeer m zid s).
  - destruct (DecodeDeclare h r) as [[m r1]|e]; [|done]. by destruct (onDeclareFromPeer m zid s).
Qed.

Definition multicast_message (n : NetworkMessage) : Prop :=
  match n with NPush _ | NDeclare _ => True | _ => False end.

Lemma encoded_header {T} `{WireMessage T} (m : T) e : wf_msg m -> 0 <= msg_id < 32 ->
  EncodeNetworkMessage m = Ok e -> exists body, e = PackHeader (msg_header m) :: body /\
    hID (UnpackHeader (PackHeader (msg_header m))) = msg_id.
Proof.
  intros Hwf Hid He. destruct (msg_round_trip m Hwf) as (body & W & _). exists body.
  unfold EncodeNetworkMessage in He. rewrite (W NewWriter) in He. injection He as <-.
  split; [done|]. rewrite UnpackHeader_msg by lia. apply msg_header_id.
Qed.

Lemma multicast_handled zid n e : multicast_message n -> wf_net n -> encode_net n = Ok e ->
  handled (MulticastDispatcher zid) (run_bytes zid) session_ok e.
Proof.
  intros Hm Hwf He. destruct (net_handled zid n e Hwf He) as [(b & body & -> & Hne & Hid & Hd) _].
  exists b, body. split_and!; [done|done|done|]. intros r rest s Hs Hr E.
  destruct (Hd r rest s Hs Hr E) as [Hu Hi]. split; [|done].
  apply multicast_as_unicast; [|done].
  destruct n as [m| | | |m|]; try done; cbn in Hwf, He;
    apply encoded_header in He as (x & Ex & Hh); try done; injection Ex as -> _; [left|right];
    exact Hh.
Qed.

(** ** Senders and their datagrams *)

(** [bs] is [batches] with repetitions of the JOIN [jb] between them. *)
Inductive announces (jb : bytes) : list bytes -> list bytes -> Prop :=
  | an_end : announces jb [] []
  | an_join bs batches : announces jb bs batches -> announces jb (jb :: bs) batches
  | an_batch b bs batches : announces jb bs batches -> announces jb (b :: bs) (b :: batches).

(** The node behind [src] has started with [st], enqueues [out], and its
    datagrams are among [dgs], in order, its JOIN first. *)
Record sender_ok (rx : MulticastStart) (dgs : list (bytes * Z * bytes)) (src : bytes)
    (st : MulticastStart) (out : list (NetworkMessage * OutboundMessage)) : Prop := {
  sd_started : exists generate cfg, StartMulticastPeer generate cfg = Ok st;
  sd_wf : wf_multicast (st_cfg st);
  sd_size : 16 < cfg_BatchSize (st_cfg st) <= MulticastBatchSize;
  sd_mask : st_snMask st = st_snMask rx;
  sd_out : Forall (fun no => multicast_message no.1 /\
                     outgoing_ok (cfg_MaxMsgSz (st_cfg rx)) no) out;
  sd_sent : exists jb batches b' rest, encodeJoin (st_cfg st) = Ok jb /\
    send_all (st_batcher st) out.*2 = (Ok tt, (b', batches)) /\
    from_src src dgs = jb :: rest /\ announces jb rest batches;
}.

Abbreviation st_ZID st := (cfg_ZID (st_cfg st)).

Definition messages_of (src : bytes) (k : LaneKey) (log : list (bytes * LaneKey * NetworkMessage)) :
    list NetworkMessage := snd <$> filter (fun x => x.1 = (src, k)) log.

(** The handlers, one message after the other. *)
Fixpoint handle_group (zidOf : bytes -> ZenohID) (log : list (bytes * LaneKey * NetworkMessage))
    (s : Session) : result Session :=
  match log with
  | [] => Ok s
  | (src, _, n) :: log =>
      match handle_net (zidOf src) n s with
      | Ok s' => handle_group zidOf log s'
      | Err e => Err e
      end
  end.

Lemma Resolution_Mask_range r f : 0 <= Resolution_Mask r f < 2 ^ 64.
Proof.
  unfold Resolution_Mask, Resolution_Bits. cbv zeta.
  destruct (_ =? 0); [by vm_compute|]. destruct (_ =? 1); [by vm_compute|].
  destruct (_ =? 2); by vm_compute.
Qed.

Lemma laneSeeds_ok sns : wf_lane_sns 8 sns -> seeds_ok (laneSeedsFromSNs sns).
Proof. intros (_ & _ & F1 & F2) p []; by apply nth_bound. Qed.

Lemma started_batcher st : (exists generate cfg, StartMulticastPeer generate cfg = Ok st) ->
  st_batcher st = NewBatcherWithLaneSeeds (cfg_BatchSize (st_cfg st)) true
    (laneSeedsFromSNs (cfg_InitialSNs (st_cfg st))) (st_snMask st) /\ 0 <= st_snMask st < 2 ^ 64.
Proof.
  intros (g & cfg & H). unfold StartMulticastPeer in H.
  destruct (negb _); [done|]. destruct (_ =? 0); [done|]. injection H as <-.
  split; [done|]. apply Resolution_Mask_range.
Qed.

Abbreviation mc_takes_all zid := (takes_all (MulticastDispatcher zid) (run_bytes zid) session_ok).
Abbreviation mc_script mx mask zid :=
  (script MulticastDispatcher mx mask run_bytes session_ok zid).

Definition as_events (log : list (Z * bool * bytes)) : list gevent :=
  map (fun km => GMsg km.1 km.2) log.

Lemma announces_script mx mask zid j jb rest batches :
  join_bytes j jb -> jZID j = zid -> announces jb rest batches ->
  forall ra log ra', mc_takes_all zid batches ra log ra' ->
  mc_script mx mask zid (Some ra) rest (as_events log).
Proof.
  intros Hj Hz. induction 1 as [|bs batches _ IH|b bs batches _ IH]; intros ra log ra' Ht.
  - inversion Ht; subst. constructor.
  - eapply sc_again; [done|done|by eapply IH].
  - inversion Ht as [|b' bs' ra0 k gs ra1 log' ra0' Hb Hrest]; subst. unfold as_events.
    rewrite map_app, map_map. cbn [fst snd]. eapply sc_batch; [done|by eapply IH].
Qed.

Lemma announces_Forall (P : bytes -> Prop) jb rest batches :
  announces jb rest batches -> P jb -> Forall P batches -> Forall P rest.
Proof.
  intros Ha Hj. induction Ha as [|bs batches _ IH|b bs batches _ IH]; [done|..]; intros Hb.
  - constructor; auto.
  - apply Forall_cons in Hb as [Hb Hbs]. constructor; auto.
Qed.

Lemma outgoing_sendable mx out :
  Forall (fun no => multicast_message no.1 /\ outgoing_ok mx no) out ->
  Forall (fun m => om_Priority m <= 7 /\ om_Encoded m <> []) out.*2.
Proof.
  intros H. apply Forall_fmap. eapply Forall_impl; [exact H|].
  intros [n o] (Hm & Hw & He & Hp & _). cbn [fst snd compose] in *. split; [lia|].
  destruct (multicast_handled (mkZID []) n (om_Encoded o) Hm Hw He) as (b & body & -> & _). done.
Qed.

(** Every datagram of a sender fits into the buffer of the reader. *)
Lemma sender_fits rx dgs src st out : sender_ok rx dgs src st out ->
  Forall (fun b => len b <= MulticastBatchSize) (from_src src dgs).
Proof.
  intros [Hst Hwf [Hb Hmax] Hm Ho (jb & batches & b' & rest & Hj & Hs & -> & Ha)].
  destruct (started_batcher st Hst) as [Eb Hmask].
  destruct (encodeJoin_ok _ Hwf) as (jb' & j & Hj' & _ & _ & _ & _ & _ & _ & _ & Hlen).
  assert (jb' = jb) as -> by congruence. constructor; [done|].
  eapply announces_Forall; [done|done|].
  destruct (send_all_ok (cfg_BatchSize (st_cfg st)) true (laneSeedsFromSNs (cfg_InitialSNs (st_cfg st)))
    (st_snMask st) out.*2 Hb Hmask) as (tr & b1 & Hs' & _ & Hl & _);
    [apply laneSeeds_ok, Hwf|by eapply outgoing_sendable|].
  rewrite <- Eb, Hs in Hs'. injection Hs' as _ ->.
  eapply Forall_impl; [exact Hl|]. cbn. lia.
Qed.

(** What a sender has sent is a script, and its messages are those enqueued. *)
Lemma sender_script rx dgs src st out : sender_ok rx dgs src st out ->
  exists log, mc_script (cfg_MaxMsgSz (st_cfg rx)) (st_snMask rx) (st_ZID st) None
                (from_src src dgs) (GJoin :: as_events log) /\
    Forall (fun km => valid_key km.1) log /\
    forall k, valid_key k -> log_on k log = sent_on k out.*2.
Proof.
  intros [Hst Hwf Hb Hm Ho (jb & batches & b' & rest & Hj & Hs & Ef & Ha)].
  destruct (started_batcher st Hst) as [Eb Hmask].
  destruct (encodeJoin_ok _ Hwf) as (jb' & j & Hj' & Hjb & Hz & _).
  assert (jb' = jb) as -> by congruence.
  destruct (batcher_takes (MulticastDispatcher (st_ZID st)) (run_bytes (st_ZID st)) session_ok
    (cfg_BatchSize (st_cfg st)) true (laneSeedsFromSNs (cfg_InitialSNs (st_cfg st))) (st_snMask st)
    (cfg_MaxMsgSz (st_cfg rx)) out.*2) as (bs' & b1 & log & ra' & Hs' & Ht & Hv & Hc).
  - lia.
  - done.
  - apply laneSeeds_ok, Hwf.
  - apply Forall_fmap. eapply Forall_impl; [exact Ho|]. intros [n o] (Hmm & Hw & He & Hp & Hl).
    split_and!; [done| |done]. by apply (multicast_handled _ n).
  - rewrite <- Eb, Hs in Hs'. injection Hs' as <- <-. exists log. split_and!; [|done|done].
    rewrite Ef. eapply sc_first; [exact Hjb|done|]. rewrite Hm in Ht. by eapply announces_script.
Qed.

(** ** From events to messages *)

(** The messages of a group's log, by sender and lane. *)
Definition group_msgs (log : list (bytes * gevent)) : list (bytes * LaneKey * bytes) :=
  omap (fun se => match se.2 with GJoin => None | GMsg k m => Some (se.1, k, m) end) log.

Lemma group_msgs_cons se log : group_msgs (se :: log) =
  match se.2 with GJoin => group_msgs log | GMsg k m => (se.1, k, m) :: group_msgs log end.
Proof. destruct se as [src [|k m]]; done. Qed.

(** The values of a keyed log at one key. *)
Lemma at_key_cons {K A} `{EqDecision K} (key k : K) (a : A) l :
  snd <$> filter (fun x => x.1 = key) ((k, a) :: l) =
  if decide (k = key) then a :: (snd <$> filter (fun x => x.1 = key) l)
  else snd <$> filter (fun x => x.1 = key) l.
Proof.
  destruct (decide (k = key)); [by rewrite filter_cons_True|by rewrite filter_cons_False].
Qed.

(** A keyed log whose values, key by key, are related to queues of values is
    related to a log of those. *)
Lemma relabel {K A B} `{EqDecision K} (R : A -> B -> Prop) (log : list (K * B)) :
  forall f : K -> list A, (forall k, Forall2 R (f k) (snd <$> filter (fun x => x.1 = k) log)) ->
  exists log', Forall2 (fun x y => x.1 = y.1 /\ R x.2 y.2) log' log /\
    forall k, snd <$> filter (fun x => x.1 = k) log' = f k.
Proof.
  induction log as [|[k b] log IH]; intros f Hf.
  { exists []. split; [constructor|]. intros k. specialize (Hf k).
    by apply Forall2_nil_inv_r in Hf as ->. }
  pose proof (Hf k) as Hk. rewrite filter_cons_True in Hk by done.
  cbn [fmap list_fmap snd] in Hk. apply Forall2_cons_inv_r in Hk as (a & rest & Ha & Hrest & Ek).
  destruct (IH (fun k' => if decide (k' = k) then rest else f k')) as (log' & H1 & H2).
  { intros k'. destruct (decide (k' = k)) as [->|Hn]; [done|]. specialize (Hf k').
    rewrite filter_cons_False in Hf; [done|]. cbn. congruence. }
  exists ((k, a) :: log'). split; [by constructor|]. intros k'. specialize (H2 k').
  destruct (decide (k' = k)) as [->|Hn].
  - rewrite filter_cons_True by done. cbn. by rewrite H2.
  - rewrite filter_cons_False; [done|]. cbn. congruence.
Qed.

Lemma group_msgs_of src k log : snd <$> filter (fun x => x.1 = (src, k)) (group_msgs log) =
  log_on k (omap (fun ev => match ev with GJoin => None | GMsg k m => Some (k, m) end)
              (events_of src log)).
Proof.
  induction log as [|[s ev] log IH]; [done|]. rewrite group_msgs_cons. cbn [snd fst].
  unfold events_of in *. rewrite (at_key_cons src s). destruct (decide (s = src)) as [->|Hn].
  - destruct ev as [|k' m]; [done|]. cbn [omap list_omap]. unfold log_on in *.
    rewrite at_key_cons, (at_key_cons k). rewrite IH.
    destruct (decide (k' = k)) as [->|Hk]; [by rewrite decide_True|].
    rewrite decide_False by congruence. done.
  - destruct ev as [|k' m]; [done|]. rewrite at_key_cons, decide_False by congruence. done.
Qed.

Lemma omap_as_events log :
  omap (fun ev => match ev with GJoin => None | GMsg k m => Some (k, m) end) (as_events log) = log.
Proof. induction log as [|[k m] log IH]; [done|]. cbn. by f_equal. Qed.

Lemma handle_group_effects zidOf (R : NetworkMessage -> bytes -> Prop) ns :
  (forall n e, R n e -> wf_net n /\ encode_net n = Ok e) -> forall log s,
  Forall2 (fun x y => x.1 = y.1 /\ R x.2 y.2) ns (group_msgs log) -> session_ok s ->
  handle_group zidOf ns s = Ok (group_effects run_bytes zidOf log s).
Proof.
  intros HR log. revert ns. induction log as [|[src [|k e]] log IH]; intros ns s H Hs.
  - by inversion H; subst.
  - by apply IH.
  - rewrite group_msgs_cons in H. cbn [snd fst] in H.
    apply Forall2_cons_inv_r in H as ([sk n] & ns' & [Ek Hn] & Hrest & ->).
    cbn [fst snd] in Ek. subst sk. destruct (HR n e Hn) as [Hw He].
    destruct (net_handled (zidOf src) n e Hw He) as [Hh Hr]. cbn [handle_group]. rewrite (Hr s Hs).
    apply IH; [done|]. by eapply handled_inv.
Qed.

(** A sender whose events hold one [GJoin] is announced once. *)
Lemma joins_of_count zidOf (srcs : list bytes) src log :
  (forall s s', s ∈ srcs -> s' ∈ srcs -> zidOf s = zidOf s' -> s = s') -> src ∈ srcs ->
  Forall (fun se => se.1 ∈ srcs) log ->
  length (filter (fun z => z = zid_bytes (zidOf src)) (joins_of zidOf log)) =
  length (filter (fun ev => ev = GJoin) (events_of src log)).
Proof.
  intros Hinj Hin. induction 1 as [|[s ev] log Hs _ IH]; [done|]. cbn [fst] in Hs.
  unfold events_of in *. rewrite at_key_cons. unfold joins_of in *. cbn [omap list_omap snd fst].
  destruct ev as [|k m].
  - destruct (decide (s = src)) as [->|Hn].
    + rewrite !filter_cons_True by done. cbn [length]. by rewrite IH.
    + rewrite filter_cons_False; [done|]. intros Hz. apply Hn, Hinj; [done|done|].
      by destruct (zidOf s), (zidOf src); cbn in Hz; subst.
  - destruct (decide (s = src)); [rewrite filter_cons_False by done|]; done.
Qed.

Lemma no_join_as_events log : filter (fun ev => ev = GJoin) (as_events log) = [].
Proof.
  unfold as_events. induction log as [|[k m] log IH]; [done|]. cbn [map].
  by rewrite filter_cons_False.
Qed.

Lemma filter_key_none {K A} `{EqDecision K} (key : K) (P : K -> Prop) (l : list (K * A)) :
  Forall (fun x => P x.1) l -> ~ P key -> snd <$> filter (fun x => x.1 = key) l = [].
Proof.
  intros Hl Hn. induction Hl as [|[k a] l Hk _ IH]; [done|].
  rewrite at_key_cons, decide_False; [done|]. by intros ->.
Qed.

(** One witness for each element of a list. *)
Lemma choice_in {A B} `{EqDecision A} `{Inhabited B} (l : list A) (P : A -> B -> Prop) :
  (forall a, a ∈ l -> exists b, P a b) -> exists f, forall a, a ∈ l -> P a (f a).
Proof.
  induction l as [|x l IH]; intros HP; [exists (fun _ => inhabitant); by intros a ?%elem_of_nil|].
  destruct (HP x) as [b Hb]; [by left|]. destruct IH as [f Hf]; [intros a Ha; apply HP; by right|].
  exists (fun a => if decide (a = x) then b else f a). intros a [->|Ha]%elem_of_cons.
  - by rewrite decide_True.
  - destruct (decide (a = x)) as [->|]; [done|by apply Hf].
Qed.


(** ** Two senders on a group *)

Definition sample_config (zid : bytes) : MulticastConfig :=
  mkMulticastConfig true (mkZID zid) WhatAmIPeer 10000 0 0 64 zeroLaneSNs 1000 0 0.
Definition sample_sns (res : Z) : LaneSNs :=
  mkLaneSNs [0; 1; 2; 3; 4; 5; 6; 2 ^ 28 - 1] [7; 6; 5; 4; 3; 2; 1; 0].
Definition sample_start (zid : bytes) : MulticastStart :=
  match StartMulticastPeer sample_sns (sample_config zid) with
  | Ok st => st
  | Err _ => mkStart (sample_config zid) (NewBatcher 0 true 0 0) 0 0
  end.

Lemma sample_start_zid a : st_ZID (sample_start a) = mkZID a.
Proof. reflexivity. Qed.

(** The sender at address [x] has the ZenohID [x]; [1] sends a message that
    is fragmented, [2] a small one. *)
Definition sample_out (src : bytes) : list (NetworkMessage * OutboundMessage) :=
  if bool_decide (src = [1]) then [sample_outgoing (sample_push 100) 5; sample_outgoing (sample_push 3) 7]
  else [sample_outgoing (sample_push 4) 5].

Definition sample_jb (src : bytes) : bytes :=
  match encodeJoin (st_cfg (sample_start src)) with Ok b => b | Err _ => [] end.
Definition sample_batches (src : bytes) : list bytes :=
  (send_all (st_batcher (sample_start src)) (sample_out src).*2).2.2.

(** The batches of [2] and a second JOIN arrive among the fragments of [1]. *)
Definition sample_datagrams : list (bytes * Z * bytes) :=
  let from src b := (src, 0, b) in
  [from [1] (sample_jb [1]); from [2] (sample_jb [2])]
  ++ (from [1] <$> take 1 (sample_batches [1])) ++ (from [2] <$> sample_batches [2])
  ++ [from [1] (sample_jb [1])] ++ (from [1] <$> drop 1 (sample_batches [1])).

Lemma sample_announces jb (l1 l2 : list bytes) : announces jb (l1 ++ jb :: l2) (l1 ++ l2).
Proof.
  assert (H : forall l, announces jb l l) by (induction l; by constructor).
  induction l1 as [|b l1 IH]; cbn; constructor; [apply H|done].
Qed.

Lemma sample_sender src : src ∈ [[1]; [2]] ->
  sender_ok (sample_start [9]) sample_datagrams src (sample_start src) (sample_out src).
Proof.
  assert (Hwf : forall x, wf_lane_sns 8 (sample_sns x)) by (intros x; by_eval).
  intros [E|[E|[]%elem_of_nil]%elem_of_cons]%elem_of_cons; subst src; constructor.
  1: by exists sample_sns, (sample_config [1]).
  6: by exists sample_sns, (sample_config [2]).
  - do 4 (split; [by_eval|]). apply (Hwf 10).
  - by vm_compute.
  - by vm_compute.
  - by_eval.
  - exists (sample_jb [1]), (sample_batches [1]), (send_all (st_batcher (sample_start [1])) (sample_out [1]).*2).2.1,
      (take 1 (sample_batches [1]) ++ sample_jb [1] :: drop 1 (sample_batches [1])).
    split_and!; [vm_compute; reflexivity..|].
    rewrite <- (take_drop 1 (sample_batches [1])) at 3. apply sample_announces.
  - do 4 (split; [by_eval|]). apply (Hwf 10).
  - by vm_compute.
  - by vm_compute.
  - by_eval.
  - exists (sample_jb [2]), (sample_batches [2]), (send_all (st_batcher (sample_start [2])) (sample_out [2]).*2).2.1,
      (sample_batches [2]).
    split_and!; [vm_compute; reflexivity..|].
    vm_compute. repeat constructor.
Qed.


(** Whatever datagrams arrive from whatever addresses, well-formed or
    not, the read loop handles each of them to its end, the two maps of the
    peer table stay consistent, and the node never becomes its own peer. *)
Theorem multicast_any_datagrams self mx mask dgs s :
  exists w, runReadLoop (Some MulticastDispatcher) self mx mask dgs
              (mkMW NewMulticastPeerTable s []) = Some w /\
    table_ok (mw_table w) /\ LookupByZID self (mw_table w) = None.
Proof.
  destruct (runReadLoop_any MulticastDispatcher self mx mask multicast_dispatcher_forward dgs
    (mkMW NewMulticastPeerTable s [])) as (w & E & Hw).
  - split; [apply table_ok_new|]. unfold LookupByZID. cbn. by rewrite lookup_empty.
  - by exists w.
Qed.

(** A query or an interest inside a FRAME makes the reader drop what follows it
    in the datagram. *)
Theorem multicast_query_drops_rest zid b rest s :
  hID (UnpackHeader b) ∈
    [IDNetworkRequest; IDNetworkResponse; IDNetworkResponseFinal; IDNetworkInterest] ->
  exists r, dispatchMulticastFrameMessages (Some MulticastDispatcher) zid (NewReader (b :: rest)) s =
              Some (true, r, s) /\ Reader_Len r = 0%nat.
Proof.
  intros Hid. set (r0 := NewReader (b :: rest)).
  assert (E0 : Reader_Bytes r0 = b :: rest) by done.
  set (r1 := advance r0 1). set (r2 := advance r1 (Reader_Len r1)).
  assert (Hl2 : Reader_Len r2 = 0%nat) by (unfold r2, Reader_Len, advance; cbn; lia).
  assert (Hone : mc_dispatch_one MulticastDispatcher zid r0 s = (true, r2, s)).
  { unfold mc_dispatch_one, DecodeHeader.
    rewrite (stm_bind_step _ _ _ _ _ (ReadByte_cons r0 _ _ E0)). cbn [mret stm_ret].
    fold r1.
    assert (MulticastDispatcher zid (UnpackHeader b) r1 s = (Ok r2, s)) as ->; [|by rewrite Hl2].
    unfold MulticastDispatcher. rewrite !elem_of_cons in Hid.
    by destruct Hid as [-> |[-> |[-> |[-> |[]%elem_of_nil]]]]. }
  exists r2. split; [|done]. cbn [dispatchMulticastFrameMessages mc_frame_loop].
  rewrite (Reader_Len_bytes _ _ E0). cbn [length Nat.eqb].
  assert (PeekByte r0 = Ok (b, r0)) as -> by done.
  assert (IsNetworkMessageID (Z.land b HdrIDMask) = true) as ->.
  { change (Z.land b HdrIDMask) with (hID (UnpackHeader b)). rewrite !elem_of_cons in Hid.
    by destruct Hid as [-> |[-> |[-> |[-> |[]%elem_of_nil]]]]. }
  cbn [negb]. rewrite Hone. cbn [mc_frame_loop]. by rewrite Hl2.
Qed.

(** A RESPONSE_FINAL before a PUSH in the same FRAME. *)
Lemma multicast_query_drops_rest_witness :
  let frame := sample_outgoing (NResponseFinal (mkResponseFinal 9 [])) 5 in
  let push := sample_outgoing (sample_push 3) 5 in
  exists r, dispatchMulticastFrameMessages (Some MulticastDispatcher) (mkZID [7])
              (NewReader (om_Encoded frame.2 ++ om_Encoded push.2)) NewSession =
              Some (true, r, NewSession) /\ Reader_Len r = 0%nat.
Proof.
  intros frame push.
  apply (multicast_query_drops_rest (mkZID [7]) (PackHeader (ResponseFinal_header (mkResponseFinal 9 [])))
    (drop 1 (om_Encoded frame.2) ++ om_Encoded push.2) NewSession).
  right; right; left.
Defined.

(** ** A batch larger than the reader's buffer *)

(** The configuration may ask for batches of up to 65535 bytes, and JOIN
    announces them; a member whose batches exceed 8192 bytes loses messages. *)
Definition big_start (size : Z) : MulticastStart :=
  let cfg := mkMulticastConfig true (mkZID [1]) WhatAmIPeer 10000 0 0 size zeroLaneSNs 20000 0 0 in
  match StartMulticastPeer sample_sns cfg with Ok st => st | Err _ => mkStart cfg (NewBatcher 0 true 0 0) 0 0 end.

(** The publications a node with a subscriber of everything is given, when a
    member with this batch size sends one of 9000 bytes. *)
Definition big_received (size : Z) : option nat :=
  let st := big_start size in
  let batches := (send_all (st_batcher st) [(sample_outgoing (sample_push (Z.to_nat 9000)) 5).2]).2.2 in
  match encodeJoin (st_cfg st) with
  | Ok jb =>
      let w := runReadLoop (Some MulticastDispatcher) (mkZID [9]) 20000 (st_snMask st)
        ((fun b => ([1], 0, b)) <$> jb :: batches) (mkMW NewMulticastPeerTable sample_session []) in
      (fun w => length (s_out (mw_d w))) <$> w
  | Err _ => None
  end.

Example oversized_batch_lost : big_received 8192 = Some 1%nat /\ big_received 16000 = Some 0%nat.
Proof. by vm_compute. Qed.
