(* ===== verification/Json5.v ===== *)
(** * zenoh/json5.go: the JSON5 reader

    The parser's [src] and [pos] are the buffer and the offset of a [Reader].
    The loops over the source text are functions on the unread bytes that
    return how many they consume.  A Go map is a list of pairs without
    repeated keys ([obj_set] is the assignment).  The Unicode tables behind
    [unicode.IsLetter] and [unicode.IsDigit] are parameters. *)
From S2P Require Import Prelude Buffer.
From Stdlib Require Import SpecFloat.

(** ** Values *)

Inductive json :=
  | JNull
  | JBool (b : bool)
  | JInt (n : Z)
  | JFloat (f : spec_float)
  | JString (s : bytes)
  | JArray (l : list json)
  | JObject (l : list (bytes * json)).

(** [out[key] = val] *)
Fixpoint obj_set (key : bytes) (val : json) (l : list (bytes * json)) : list (bytes * json) :=
  match l with
  | [] => [(key, val)]
  | (k, v) :: l => if decide (k = key) then (key, val) :: l else (k, v) :: obj_set key val l
  end.

(** ** Characters *)

Definition chr (s : string) : Z := match str s with b :: _ => b | [] => 0 end.

Definition is_ws (c : Z) : bool := (c =? 32) || (c =? 9) || (c =? 10) || (c =? 13).
Definition is_dec (c : Z) : bool := (48 <=? c) && (c <=? 57).
Definition isHexDigit (c : Z) : bool :=
  is_dec c || ((97 <=? c) && (c <=? 102)) || ((65 <=? c) && (c <=? 70)).

Definition hex_value (c : Z) : Z :=
  if is_dec c then c - 48 else if 97 <=? c then c - 87 else c - 55.

(** ** Whitespace and comments: one function per loop *)

Fixpoint skip_len (l : bytes) : nat :=
  match l with
  | [] => 0%nat
  | c :: l' =>
      if is_ws c then S (skip_len l')
      else if c =? 47 then
        match l' with
        | d :: l'' =>
            if d =? 47 then S (S (skip_line l''))
            else if d =? 42 then S (S (skip_block l''))
            else 0%nat
        | [] => 0%nat
        end
      else 0%nat
  end
with skip_line (l : bytes) : nat :=
  match l with
  | [] => 0%nat
  | c :: l' => if c =? 10 then S (skip_len l') else S (skip_line l')
  end
with skip_block (l : bytes) : nat :=
  match l with
  | c :: l' =>
      match l' with
      | d :: l'' => if (c =? 42) && (d =? 47) then S (S (skip_len l'')) else S (skip_block l')
      | [] => 0%nat
      end
  | [] => 0%nat
  end.

(** ** Runes *)

Definition RuneError : Z := 0xFFFD.

Definition cont_in (lo hi : Z) (l : bytes) (i : nat) : bool :=
  match l !! i with Some b => (lo <=? b) && (b <=? hi) | None => false end.

Definition cont_bits (l : bytes) (i : nat) : Z := Z.land (default 0 (l !! i)) 0x3F.

(** [utf8.DecodeRuneInString]: the rune and its width. *)
Definition DecodeRune (l : bytes) : Z * nat :=
  match l with
  | [] => (RuneError, 0%nat)
  | b :: _ =>
      let cont := cont_in 0x80 0xBF l in
      if b <? 0x80 then (b, 1%nat)
      else if (0xC2 <=? b) && (b <=? 0xDF) && cont 1%nat then
        (Z.lor (Z.shiftl (Z.land b 0x1F) 6) (cont_bits l 1), 2%nat)
      else if (0xE0 <=? b) && (b <=? 0xEF)
              && cont_in (if b =? 0xE0 then 0xA0 else 0x80) (if b =? 0xED then 0x9F else 0xBF) l 1
              && cont 2%nat then
        (Z.lor (Z.shiftl (Z.land b 0x0F) 12)
           (Z.lor (Z.shiftl (cont_bits l 1) 6) (cont_bits l 2)), 3%nat)
      else if (0xF0 <=? b) && (b <=? 0xF4)
              && cont_in (if b =? 0xF0 then 0x90 else 0x80) (if b =? 0xF4 then 0x8F else 0xBF) l 1
              && cont 2%nat && cont 3%nat then
        (Z.lor (Z.shiftl (Z.land b 0x07) 18)
           (Z.lor (Z.shiftl (cont_bits l 1) 12)
              (Z.lor (Z.shiftl (cont_bits l 2) 6) (cont_bits l 3))), 4%nat)
      else (RuneError, 1%nat)
  end.

(** [WriteRune] of a rune below 0x10000; a surrogate is written as U+FFFD. *)
Definition EncodeRune (r : Z) : bytes :=
  if r <? 0x80 then [r]
  else if r <? 0x800 then [Z.lor 0xC0 (Z.shiftr r 6); Z.lor 0x80 (Z.land r 0x3F)]
  else
    let r := if (0xD800 <=? r) && (r <=? 0xDFFF) then RuneError else r in
    [Z.lor 0xE0 (Z.shiftr r 12); Z.lor 0x80 (Z.land (Z.shiftr r 6) 0x3F);
     Z.lor 0x80 (Z.land r 0x3F)].

(** ** Strings *)

(** [strconv.ParseUint(s, 16, _)] of a few digits. *)
Definition parse_hex (l : bytes) : option Z :=
  if forallb isHexDigit l then Some (fold_left (fun n c => n * 16 + hex_value c) l 0) else None.

(** What the escapes of one byte stand for. *)
Definition simple_escape (esc : Z) : option bytes :=
  if (esc =? 34) || (esc =? 39) || (esc =? 92) || (esc =? 47) then Some [esc]
  else if esc =? chr "n" then Some [10]
  else if esc =? chr "t" then Some [9]
  else if esc =? chr "r" then Some [13]
  else if esc =? chr "b" then Some [8]
  else if esc =? chr "f" then Some [12]
  else if esc =? chr "0" then Some [0]
  else if esc =? 10 then Some []
  else None.

(** The text after the opening quote: the string and the bytes consumed, the
    closing quote included. *)
Fixpoint string_body (quote : Z) (l : bytes) : result (bytes * nat) :=
  let prepend (out : bytes) (n : nat) (rest : result (bytes * nat)) :=
    '(s, k) ← rest; mret (out ++ s, (n + k)%nat) in
  match l with
  | [] => Err (ErrMsg "unterminated string")
  | c :: l =>
      if c =? quote then Ok ([], 1%nat)
      else if c =? 92 then
        match l with
        | [] => Err (ErrMsg "unterminated escape")
        | esc :: l =>
            match simple_escape esc with
            | Some out => prepend out 2%nat (string_body quote l)
            | None =>
                if esc =? chr "u" then
                  match l with
                  | a :: b :: c :: d :: l =>
                      match parse_hex [a; b; c; d] with
                      | Some n => prepend (EncodeRune n) 6%nat (string_body quote l)
                      | None => Err (ErrMsg "bad \u escape")
                      end
                  | _ => Err (ErrMsg "truncated \u escape")
                  end
                else if esc =? chr "x" then
                  match l with
                  | a :: b :: l =>
                      match parse_hex [a; b] with
                      | Some n => prepend [n] 4%nat (string_body quote l)
                      | None => Err (ErrMsg "bad \x escape")
                      end
                  | _ => Err (ErrMsg "truncated \x escape")
                  end
                else Err (ErrMsg "unknown escape")
            end
        end
      else prepend [c] 1%nat (string_body quote l)
  end.

(** ** Numbers *)

Definition dec_value (l : bytes) : Z := fold_left (fun n c => n * 10 + (c - 48)) l 0.

(** An optional sign. *)
Definition split_sign (l : bytes) : bool * bytes :=
  match l with
  | c :: l' => if c =? 45 then (true, l') else if c =? 43 then (false, l') else (false, l)
  | [] => (false, l)
  end.

(** The range check of [strconv.ParseInt(_, _, 64)]. *)
Definition to_int64 (neg : bool) (n : Z) : option Z :=
  if neg then if n <=? 2 ^ 63 then Some (- n) else None
  else if n <? 2 ^ 63 then Some n else None.

(** [strconv.ParseInt(lit, 10, 64)] *)
Definition ParseInt10 (lit : bytes) : option Z :=
  let '(neg, ds) := split_sign lit in
  match ds with
  | [] => None
  | _ => if forallb is_dec ds then to_int64 neg (dec_value ds) else None
  end.

(** The nearest [float64] to [m * 10^e]; [None] when it overflows. *)
Definition decimal_float (neg : bool) (m e : Z) : option spec_float :=
  let f :=
    if m =? 0 then S754_zero neg
    else if 0 <=? e then binary_normalize 53 1024 ((if neg then -1 else 1) * (m * 10 ^ e)) 0 neg
    else SFdiv 53 1024 (S754_finite neg (Z.to_pos m) 0) (S754_finite false (Z.to_pos (10 ^ (- e))) 0) in
  match f with S754_infinity _ | S754_nan => None | _ => Some f end.

Fixpoint span (p : Z -> bool) (l : bytes) : bytes * bytes :=
  match l with
  | c :: l' => if p c then let '(a, b) := span p l' in (c :: a, b) else ([], l)
  | [] => ([], [])
  end.

(** The exponent stops growing at five digits. *)
Definition exp_value (l : bytes) : Z :=
  fold_left (fun e c => if e <? 10000 then e * 10 + (c - 48) else e) l 0.

(** [strconv.ParseFloat(lit, 64)] of a literal without letters other than the
    exponent's. *)
Definition ParseFloat (lit : bytes) : option spec_float :=
  let '(neg, l) := split_sign lit in
  let '(ip, l) := span is_dec l in
  let '(fp, l) := match l with c :: l' => if c =? 46 then span is_dec l' else ([], l) | [] => ([], l) end in
  let m := dec_value (ip ++ fp) in
  let scale := - Z.of_nat (length fp) in
  if bool_decide (ip ++ fp = []) then None
  else
    match l with
    | [] => decimal_float neg m scale
    | c :: l =>
        if (c =? 101) || (c =? 69) then
          let '(eneg, ds) := split_sign l in
          match ds with
          | [] => None
          | _ => if forallb is_dec ds
                 then decimal_float neg m (scale + if eneg then - exp_value ds else exp_value ds)
                 else None
          end
        else None
    end.

Definition in_number (c : Z) : bool :=
  is_dec c || (c =? 46) || (c =? 101) || (c =? 69) || (c =? 43) || (c =? 45).

(** The value of a literal that is not hexadecimal. *)
Definition literal_value (lit : bytes) : result json :=
  if bool_decide (lit = []) || bool_decide (lit = [43]) || bool_decide (lit = [45])
  then Err (ErrMsg "empty number")
  else if forallb is_dec (split_sign lit).2 then
    match ParseInt10 lit with
    | Some n => Ok (JInt n)
    | None => match ParseFloat lit with
              | Some f => Ok (JFloat f)
              | None => Err (ErrMsg "int parse")
              end
    end
  else match ParseFloat lit with
       | Some f => Ok (JFloat f)
       | None => Err (ErrMsg "float parse")
       end.

(** The value and the bytes consumed. *)
Definition number_lex (l : bytes) : result (json * nat) :=
  let '(neg, l') := split_sign l in
  let sign := (length l - length l')%nat in
  let other :=
    let lit := take sign l ++ (span in_number l').1 in
    v ← literal_value lit; mret (v, length lit) in
  match l' with
  | a :: b :: l'' =>
      if (a =? 48) && ((b =? 120) || (b =? 88)) then
        let ds := (span isHexDigit l'').1 in
        match parse_hex ds with
        | Some n =>
            if bool_decide (ds = []) then Err (ErrMsg "empty hex literal")
            else match to_int64 neg n with
                 | Some n => Ok (JInt n, (sign + 2 + length ds)%nat)
                 | None => Err (ErrMsg "hex parse")
                 end
        | None => Err (ErrMsg "empty hex literal")
        end
      else other
  | _ => other
  end.

(** ** The parser *)

(** [unicode.IsLetter] and [unicode.IsDigit]. *)
Section Parser.
Variables IsLetter IsDigit : Z -> bool.

Definition peek : RM Z := fun r => Ok (default 0 (r_buf r !! r_off r), r).
Definition bump (n : nat) : RM unit := fun r => Ok (tt, advance r n).
Definition skip : RM unit := fun r => Ok (tt, advance r (skip_len (Reader_Bytes r))).
Definition unread : RM bytes := fun r => Ok (Reader_Bytes r, r).

(** A function on the unread bytes, as a method of the parser. *)
Definition lexeme {A} (lex : bytes -> result (A * nat)) : RM A := fun r =>
  match lex (Reader_Bytes r) with Ok (a, n) => Ok (a, advance r n) | Err e => Err e end.

(** [string]: [quote] is the byte at [pos]. *)
Definition string_ : RM bytes :=
  quote ← peek; bump 1;; lexeme (string_body quote).

(** The bytes of an identifier; [first] at its first rune. *)
Fixpoint ident_len (fuel : nat) (first : bool) (l : bytes) : nat :=
  match fuel with
  | O => 0%nat
  | S fuel =>
      match l with
      | [] => 0%nat
      | _ =>
          let '(r, w) := DecodeRune l in
          if IsLetter r || (r =? 95) || (r =? 36) || (negb first && IsDigit r)
          then (w + ident_len fuel false (drop w l))%nat
          else 0%nat
      end
  end.

Definition key : RM bytes :=
  c ← peek;
  if (c =? 34) || (c =? 39) then string_
  else lexeme (fun l =>
    let n := ident_len (length l) true l in
    if (n =? 0)%nat then Err (ErrMsg "expected object key") else Ok (take n l, n)).

Definition HasPrefix (l prefix : bytes) : bool := bool_decide (take (length prefix) l = prefix).

Definition bool_ : RM bool :=
  l ← unread;
  if HasPrefix l (str "true") then bump 4;; mret true
  else if HasPrefix l (str "false") then bump 5;; mret false
  else throw (ErrMsg "invalid literal").

Definition null : RM unit :=
  l ← unread;
  if HasPrefix l (str "null") then bump 4 else throw (ErrMsg "invalid literal").

(** One value, then what follows it: [Some] at the closing bracket. *)
Section Containers.
Variable value : RM json.

Fixpoint object_loop (n : nat) (out : list (bytes * json)) : RM (list (bytes * json)) :=
  match n with
  | O => throw ErrFuel
  | S n =>
      skip;;
      k ← key;
      skip;;
      c ← peek;
      if negb (c =? 58) then throw (ErrMsg "expected ':' after key")
      else
        bump 1;; skip;;
        v ← value;
        let out := obj_set k v out in
        skip;;
        c ← peek;
        if c =? 44 then
          bump 1;; skip;;
          c ← peek;
          if c =? 125 then bump 1;; mret out else object_loop n out
        else if c =? 125 then bump 1;; mret out
        else throw (ErrMsg "expected ',' or '}' in object")
  end.

Definition object : RM (list (bytes * json)) :=
  bump 1;; skip;;
  c ← peek;
  if c =? 125 then bump 1;; mret []
  else l ← unread; object_loop (S (length l)) [].

Fixpoint array_loop (n : nat) (out : list json) : RM (list json) :=
  match n with
  | O => throw ErrFuel
  | S n =>
      skip;;
      v ← value;
      let out := out ++ [v] in
      skip;;
      c ← peek;
      if c =? 44 then
        bump 1;; skip;;
        c ← peek;
        if c =? 93 then bump 1;; mret out else array_loop n out
      else if c =? 93 then bump 1;; mret out
      else throw (ErrMsg "expected ',' or ']' in array")
  end.

Definition array : RM (list json) :=
  bump 1;; skip;;
  c ← peek;
  if c =? 93 then bump 1;; mret []
  else l ← unread; array_loop (S (length l)) [].
End Containers.

(** The fuel bounds the depth of nesting. *)
Fixpoint value (fuel : nat) : RM json :=
  match fuel with
  | O => throw ErrFuel
  | S fuel =>
      l ← unread;
      match l with
      | [] => throw (ErrMsg "unexpected end of input")
      | c :: _ =>
          if c =? 123 then JObject <$> object (value fuel)
          else if c =? 91 then JArray <$> array (value fuel)
          else if (c =? 34) || (c =? 39) then JString <$> string_
          else if (c =? chr "t") || (c =? chr "f") then JBool <$> bool_
          else if c =? chr "n" then null;; mret JNull
          else if (c =? 45) || (c =? 43) || (c =? 46) || is_dec c then lexeme number_lex
          else throw (ErrMsg "unexpected character")
      end
  end.

Definition parseJSON5 (s : bytes) : result json :=
  match (skip;; v ← value (S (length s)); skip;; l ← unread; mret (v, l)) (NewReader s) with
  | Ok ((v, []), _) => Ok v
  | Ok _ => Err (ErrMsg "unexpected trailing input")
  | Err e => Err e
  end.
End Parser.

(** ** Examples, with the ASCII part of the Unicode tables *)

Definition ascii_letter (c : Z) : bool :=
  ((65 <=? c) && (c <=? 90)) || ((97 <=? c) && (c <=? 122)).
Definition ascii_parse (s : string) : result json := parseJSON5 ascii_letter is_dec (str s).

Example ascii_parse_example :
  ascii_parse "{mode: 'client', /* where */ connect: {endpoints: ['tcp/a:1',],}, n: [0x1F, -3, +7,1.5]} // end"
  = Ok (JObject [(str "mode", JString (str "client"));
                 (str "connect", JObject [(str "endpoints", JArray [JString (str "tcp/a:1")])]);
                 (str "n", JArray [JInt 31; JInt (-3); JInt 7;
                                   JFloat (S754_finite false 6755399441055744 (-52))])]).
Proof. vm_compute. reflexivity. Qed.

Example parse_errors :
  is_ok (ascii_parse "{a:1 b:2}") = false /\ is_ok (ascii_parse "[1,,2]") = false /\
  is_ok (ascii_parse "") = false /\ is_ok (ascii_parse "1 2") = false /\
  is_ok (ascii_parse "1e999") = false.
Proof. vm_compute. by split_and!. Qed.

(** A block comment without an end is skipped up to the last byte, which is
    read as if it followed the comment. *)
Example parse_unterminated_comment :
  ascii_parse "{a: 1 /* no end }" = Ok (JObject [(str "a", JInt 1)]) /\
  ascii_parse "/* 12" = Ok (JInt 2) /\ ascii_parse "1 /*" = Ok (JInt 1).
Proof. vm_compute. by split_and!. Qed.
