(* ===== verification/Json5Spec.v ===== *)
(** * The JSON5 reader: termination and the documents it accepts

    The parser stops on every text; and it reads every document of a grammar
    of JSON5 (comments, unquoted keys, both quotes, escapes, trailing commas,
    hexadecimal and signed numbers) as the value the document stands for. *)
From S2P Require Import Prelude Buffer Json5.
From Stdlib Require Import SpecFloat.

(** ** Lengths *)

Lemma skip_lens l : (skip_len l <= length l /\ skip_line l <= length l /\ skip_block l <= length l)%nat.
Proof.
  induction l as [l IH] using (well_founded_induction (Wf_nat.well_founded_ltof _ length)).
  unfold Wf_nat.ltof in IH. destruct l as [|c l]; [cbn; lia|]. cbn [skip_len skip_line skip_block length].
  destruct (IH l ltac:(cbn; lia)) as (H1 & H2 & H3).
  split_and!.
  - destruct (is_ws c); [lia|]. destruct (c =? 47); [|lia]. destruct l as [|d l]; [lia|].
    destruct (IH l ltac:(cbn; lia)) as (H1' & H2' & H3'). cbn [length] in *.
    destruct (d =? 47); [lia|]. destruct (d =? 42); lia.
  - destruct (c =? 10); lia.
  - destruct l as [|d l]; [lia|]. destruct (IH l ltac:(cbn; lia)) as (H1' & H2' & H3').
    destruct (_ && _); cbn [length] in *; lia.
Qed.

Lemma span_app p l : (span p l).1 ++ (span p l).2 = l.
Proof.
  induction l as [|c l IH]; [done|]. cbn. destruct (p c); [|done].
  destruct (span p l) as [a b]. cbn in *. by rewrite IH.
Qed.

Lemma split_sign_length l : (length (split_sign l).2 <= length l <= S (length (split_sign l).2))%nat.
Proof. destruct l as [|c l]; [cbn; lia|]. cbn. destruct (c =? 45); [cbn; lia|]. destruct (c =? 43); cbn; lia. Qed.

Lemma span_length p l : (length (span p l).1 <= length l)%nat.
Proof. rewrite <- (span_app p l) at 2. rewrite length_app. lia. Qed.

(** A result consumes between [lo] bytes and what there is. *)
Definition within {A} (lo : nat) (l : bytes) (res : result (A * nat)) : Prop :=
  match res with Ok (_, n) => (lo <= n <= length l)%nat | Err e => errors_is e ErrFuel = false end.

Lemma string_body_within quote l : within 1 l (string_body quote l).
Proof.
  induction l as [l IH] using (well_founded_induction (Wf_nat.well_founded_ltof _ length)).
  unfold Wf_nat.ltof in IH.
  assert (Hp : forall out n rest, (n + length rest <= length l)%nat -> (0 < n)%nat ->
    within 1 l ('(s, k) ← string_body quote rest; mret (out ++ s, (n + k)%nat))).
  { intros out n rest Hn H0. specialize (IH rest ltac:(lia)). cbn.
    unfold mbind, result_bind. destruct (string_body quote rest) as [[s k]|e]; cbn in *; [lia|done]. }
  destruct l as [|c l]; [done|]. cbn [string_body].
  destruct (c =? quote); [cbn; lia|]. destruct (c =? 92); [|apply Hp; cbn; lia].
  destruct l as [|esc l]; [done|]. destruct (simple_escape esc); [apply Hp; cbn; lia|].
  destruct (esc =? chr "u").
  - destruct l as [|x1 [|x2 [|x3 [|x4 l]]]]; try done. destruct (parse_hex _); [|done].
    apply Hp; cbn; lia.
  - destruct (esc =? chr "x"); [|done]. destruct l as [|x1 [|x2 l]]; try done.
    destruct (parse_hex _); [|done]. apply Hp; cbn; lia.
Qed.

Lemma literal_value_no_fuel lit : match literal_value lit with
  Ok _ => lit <> [] | Err e => errors_is e ErrFuel = false end.
Proof.
  unfold literal_value. case_bool_decide as H0; [done|]. destruct (_ || _); cbn; [done|].
  destruct (forallb _ _); [destruct (ParseInt10 lit)|]; [done|..]; by destruct (ParseFloat lit).
Qed.

Lemma number_lex_within l : within 1 l (number_lex l).
Proof.
  unfold number_lex. pose proof (split_sign_length l) as Hs.
  destruct (split_sign l) as [neg l']. cbn [snd] in Hs.
  set (other := mbind _ _). assert (Ho : within 1 l other).
  { subst other. unfold mbind, result_bind.
    set (lit := take _ l ++ _). pose proof (literal_value_no_fuel lit) as Hl.
    destruct (literal_value lit); [|done]. cbn. pose proof (span_length in_number l') as Hsp.
    assert (0 < length lit)%nat by (destruct lit; [done|cbn; lia]).
    subst lit. rewrite length_app, length_take in *. lia. }
  destruct l' as [|a [|b l'']]; [done..|]. destruct (_ && _); [|done].
  destruct (parse_hex _); [|done]. case_bool_decide; [done|]. destruct (to_int64 _ _); [|done].
  cbn. pose proof (span_length isHexDigit l''). cbn [length] in Hs. lia.
Qed.

Lemma cont_in_length lo hi l i : cont_in lo hi l i = true -> (i < length l)%nat.
Proof. unfold cont_in. destruct (l !! i) eqn:E; [|done]. intros _. by eapply lookup_lt_Some. Qed.

Lemma DecodeRune_width l : l <> [] -> (1 <= (DecodeRune l).2 <= length l)%nat.
Proof.
  destruct l as [|b l]; [done|]. intros _. unfold DecodeRune. cbn [length].
  repeat match goal with |- context [if ?b then _ else _] =>
    lazymatch b with context [if _ then _ else _] => fail | _ => destruct b eqn:? end end;
  cbn; repeat match goal with H : _ && _ = true |- _ => apply andb_true_iff in H as [? ?] end;
  repeat match goal with H : cont_in _ _ _ _ = true |- _ => apply cont_in_length in H; cbn in H end; lia.
Qed.

(** ** Termination *)

(** On at least [a] and fewer than [b] unread bytes, [m] consumes at least [n]
    of them or fails with an error of the code. *)
Definition stops {A} (a b n : nat) (m : RM A) : Prop := forall r, reader_wf r ->
  (a <= Reader_Len r < b)%nat ->
  match m r with
  | Ok (_, r') => r_buf r' = r_buf r /\ (r_off r + n <= r_off r')%nat /\ reader_wf r'
  | Err e => errors_is e ErrFuel = false
  end.

Lemma stops_bind {A B} a b n1 n2 (m : RM A) (f : A -> RM B) :
  stops a b n1 m -> (forall x, stops 0 (b - n1) n2 (f x)) -> stops a b (n1 + n2) (m ≫= f).
Proof.
  intros Hm Hf r Hr Hl. specialize (Hm r Hr Hl). unfold mbind, stm_bind.
  destruct (m r) as [[x r']|e]; [|done]. destruct Hm as (Hb & Ho & Hr').
  assert (Hl' : (0 <= Reader_Len r' < b - n1)%nat).
  { unfold Reader_Len, reader_wf in *. rewrite Hb in *. lia. }
  specialize (Hf x r' Hr' Hl'). destruct (f x r') as [[y r2]|e]; [|done].
  destruct Hf as (Hb2 & Ho2 & Hr2). split_and!; [congruence|lia|done].
Qed.

Lemma stops_weaken {A} a b n a' b' n' (m : RM A) :
  stops a b n m -> (a <= a')%nat -> (b' <= b)%nat -> (n' <= n)%nat -> stops a' b' n' m.
Proof.
  intros H Ha Hb Hn r Hr Hl. specialize (H r Hr ltac:(lia)). destruct (m r) as [[x r']|]; [|done].
  destruct H as (? & ? & ?). split_and!; [done|lia|done].
Qed.

Lemma stops_bind_0 {A B} a b n (m : RM A) (f : A -> RM B) :
  stops a b 0 m -> (forall x, stops 0 b n (f x)) -> stops a b n (m ≫= f).
Proof.
  intros Hm Hf. apply (stops_bind a b 0 n); [done|]. intros x. by rewrite Nat.sub_0_r.
Qed.

Lemma stops_bind_1 {A B} a b (m : RM A) (f : A -> RM B) :
  stops a b 1 m -> (forall x, stops 0 (b - 1) 0 (f x)) -> stops a b 1 (m ≫= f).
Proof. intros Hm Hf. by apply (stops_bind a b 1 0). Qed.

Lemma stops_fmap {A B} a b n (m : RM A) (f : A -> B) : stops a b n m -> stops a b n (f <$> m).
Proof.
  intros H r Hr Hl. specialize (H r Hr Hl). unfold fmap, stm_fmap.
  by destruct (m r) as [[x r']|].
Qed.

Lemma stops_ret {A} a b (x : A) : stops a b 0 (mret x).
Proof. intros r Hr _. cbn. split_and!; [done|lia|done]. Qed.
Lemma stops_throw {A} a b n e : errors_is e ErrFuel = false -> stops a b n (throw e : RM A).
Proof. intros H r _ _. exact H. Qed.
Lemma stops_if {A} a b n (c : bool) (m1 m2 : RM A) :
  stops a b n m1 -> stops a b n m2 -> stops a b n (if c then m1 else m2).
Proof. by destruct c. Qed.

(** A byte other than NUL is really there. *)
Lemma stops_peek {A} b n (f : Z -> RM A) :
  (forall c, c <> 0 -> stops 1 b n (f c)) -> stops 0 b n (f 0) -> stops 0 b n (peek ≫= f).
Proof.
  intros H1 H0 r Hr Hl. unfold mbind, stm_bind, peek.
  destruct (r_buf r !! r_off r) as [c|] eqn:E; cbn; [|by apply H0].
  destruct (decide (c = 0)) as [->|Hc]; [by apply H0|]. apply H1; [done|done|].
  apply lookup_lt_Some in E. unfold Reader_Len in *. lia.
Qed.

Lemma stops_bump b : stops 1 b 1 (bump 1).
Proof.
  intros r Hr Hl. cbn. unfold reader_wf, Reader_Len in *. cbn. split_and!; [done|lia|lia].
Qed.

Lemma stops_skip a b : stops a b 0 skip.
Proof.
  intros r Hr Hl. cbn. pose proof (proj1 (skip_lens (Reader_Bytes r))) as H.
  rewrite Reader_Bytes_length in H. unfold reader_wf, Reader_Len in *. cbn.
  split_and!; [done|lia|lia].
Qed.

Lemma stops_unread a b : stops a b 0 unread.
Proof. intros r Hr Hl. cbn. split_and!; [done|lia|done]. Qed.

Lemma stops_lexeme {A} a b lo (lex : bytes -> result (A * nat)) :
  (forall l, (a <= length l)%nat -> within lo l (lex l)) -> stops a b lo (lexeme lex).
Proof.
  intros H r Hr Hl. unfold lexeme. specialize (H (Reader_Bytes r)).
  rewrite Reader_Bytes_length in H. specialize (H ltac:(lia)). unfold within in H.
  rewrite Reader_Bytes_length in H.
  destruct (lex (Reader_Bytes r)) as [[x n]|e]; [|done]. unfold reader_wf, Reader_Len in *. cbn.
  split_and!; [done|lia|lia].
Qed.

Lemma stops_bump_n n b : stops n b n (bump n).
Proof. intros r Hr Hl. cbn. unfold reader_wf, Reader_Len in *. cbn. split_and!; [done|lia|lia]. Qed.

(** Fixed words. *)
Lemma HasPrefix_length r p n : HasPrefix (Reader_Bytes r) p = true -> length p = n ->
  (n <= Reader_Len r)%nat.
Proof.
  unfold HasPrefix. intros E%bool_decide_eq_true Hp. apply (f_equal length) in E.
  rewrite length_take, Reader_Bytes_length in E. lia.
Qed.

Lemma stops_word {A} p n b k (m1 : RM A) (m2 : bytes -> RM A) : length p = n ->
  stops n b k m1 -> (forall l, HasPrefix l p = false -> stops 0 b k (l' ← unread; m2 l')) ->
  stops 0 b k (l ← unread; if HasPrefix l p then m1 else m2 l).
Proof.
  intros Hp H1 H2 r Hr Hl. unfold mbind, stm_bind, unread.
  destruct (HasPrefix (Reader_Bytes r) p) eqn:E.
  - apply H1; [done|]. pose proof (HasPrefix_length r p n E Hp). lia.
  - by apply (H2 _ E r).
Qed.

Section Termination.
Variables IsLetter IsDigit : Z -> bool.
Abbreviation value := (value IsLetter IsDigit).
Abbreviation key := (key IsLetter IsDigit).

Lemma stops_string b : stops 1 b 1 string_.
Proof.
  unfold string_. intros r Hr Hl. unfold mbind, stm_bind, peek. cbn [bump].
  assert (Hr1 : reader_wf (advance r 1)) by (unfold reader_wf, Reader_Len in *; cbn; lia).
  pose proof (stops_lexeme 0 b 1 (string_body (default 0 (r_buf r !! r_off r)))
    (fun l _ => string_body_within _ l) (advance r 1) Hr1) as H.
  specialize (H ltac:(unfold Reader_Len in *; cbn; lia)).
  destruct (lexeme _ _) as [[s r']|e]; [|done]. destruct H as (? & ? & ?). cbn in *.
  split_and!; [done|lia|done].
Qed.

Lemma ident_len_le fuel : forall first l, (ident_len IsLetter IsDigit fuel first l <= length l)%nat.
Proof.
  induction fuel as [|fuel IH]; intros first l; [cbn; lia|]. cbn [ident_len].
  destruct l as [|b l]; [cbn; lia|]. pose proof (DecodeRune_width (b :: l) ltac:(done)) as Hw.
  destruct (DecodeRune (b :: l)) as [r w]. cbn [snd] in Hw. destruct (_ || _); [|lia].
  specialize (IH false (drop w (b :: l))). rewrite length_drop in IH. lia.
Qed.

Lemma stops_key b : stops 0 b 1 key.
Proof.
  unfold key. apply stops_peek; [intros c _; apply stops_if; [apply stops_string|]|cbn].
  all: apply stops_lexeme; intros l _; pose proof (ident_len_le (length l) true l);
    destruct (Nat.eqb_spec (ident_len IsLetter IsDigit (length l) true l) 0); [done|cbn; lia].
Qed.

(** The loops of objects and arrays: each round reads a value. *)
Section Loops.
Variables (value : RM json) (b : nat).
Hypothesis value_stops : forall a b', (b' <= b)%nat -> stops a b' 1 value.

Lemma stops_array_loop n : forall out, (n <= b)%nat -> stops 0 n 1 (array_loop value n out).
Proof.
  induction n as [|n IH]; intros out Hn; [intros r _ ?; lia|]. cbn [array_loop].
  apply stops_bind_0; [apply stops_skip|]. intros _.
  apply stops_bind_1; [by apply value_stops|]. intros v. cbv zeta. rewrite Nat.sub_succ, Nat.sub_0_r.
  apply stops_bind_0; [apply stops_skip|]. intros _.
  apply stops_peek; [intros c _|by apply stops_throw].
  apply stops_if; [|apply stops_if; [|by apply stops_throw]].
  - apply stops_weaken with 1%nat n 1%nat; [|lia..]. apply stops_bind_1; [apply stops_bump|].
    intros _. apply stops_weaken with 0%nat n 0%nat; [|lia..].
    apply stops_bind_0; [apply stops_skip|]. intros _.
    apply stops_peek; [intros c' _|].
    + apply stops_if.
      * apply stops_weaken with 1%nat n 1%nat; [|lia..]. apply stops_bind_1; [apply stops_bump|].
        intros _. apply stops_ret.
      * apply stops_weaken with 0%nat n 1%nat; [|lia..]. apply IH. lia.
    + cbn. apply stops_weaken with 0%nat n 1%nat; [|lia..]. apply IH. lia.
  - apply stops_weaken with 1%nat n 1%nat; [|lia..]. apply stops_bind_1; [apply stops_bump|].
    intros _. apply stops_ret.
Qed.

Lemma stops_object_loop n : forall out, (n <= b)%nat ->
  stops 0 n 1 (object_loop IsLetter IsDigit value n out).
Proof.
  induction n as [|n IH]; intros out Hn; [intros r _ ?; lia|]. cbn [object_loop].
  apply stops_bind_0; [apply stops_skip|]. intros _.
  apply stops_bind_1; [apply stops_key|]. intros k. rewrite Nat.sub_succ, Nat.sub_0_r.
  apply stops_bind_0; [apply stops_skip|]. intros _.
  apply stops_peek; [intros c0 _|by apply stops_throw]. apply stops_if; [by apply stops_throw|].
  apply stops_weaken with 1%nat n 1%nat; [|lia..]. apply stops_bind_1; [apply stops_bump|]. intros _.
  apply stops_weaken with 0%nat n 0%nat; [|lia..].
  apply stops_bind_0; [apply stops_skip|]. intros _.
  apply stops_bind_0; [apply stops_weaken with 0%nat n 1%nat; [apply value_stops; lia|lia..]|].
  intros v. cbv zeta. apply stops_bind_0; [apply stops_skip|]. intros _.
  apply stops_peek; [intros c _|by apply stops_throw].
  apply stops_if; [|apply stops_if; [|by apply stops_throw]].
  - apply stops_weaken with 1%nat n 1%nat; [|lia..]. apply stops_bind_1; [apply stops_bump|].
    intros _. apply stops_weaken with 0%nat n 0%nat; [|lia..].
    apply stops_bind_0; [apply stops_skip|]. intros _.
    apply stops_peek; [intros c' _|].
    + apply stops_if.
      * apply stops_weaken with 1%nat n 1%nat; [|lia..]. apply stops_bind_1; [apply stops_bump|].
        intros _. apply stops_ret.
      * apply stops_weaken with 0%nat n 1%nat; [|lia..]. apply IH. lia.
    + cbn. apply stops_weaken with 0%nat n 1%nat; [|lia..]. apply IH. lia.
  - apply stops_weaken with 1%nat n 1%nat; [|lia..]. apply stops_bind_1; [apply stops_bump|].
    intros _. apply stops_ret.
Qed.

(** The loop runs with one more round than there are bytes. *)
Lemma stops_rounds {A} b' (loop : nat -> RM A) : (b' <= b)%nat ->
  (forall n, (n <= b)%nat -> stops 0 n 1 (loop n)) ->
  stops 0 b' 0 (l ← unread; loop (S (length l))).
Proof.
  intros Hb H r Hr Hl. unfold mbind, stm_bind, unread. rewrite Reader_Bytes_length.
  specialize (H (S (Reader_Len r)) ltac:(lia) r Hr ltac:(lia)).
  destruct (loop _ r) as [[x r']|]; [|done]. destruct H as (? & ? & ?). split_and!; [done|lia|done].
Qed.

Lemma stops_container {A} close n (none : A) (loop : nat -> RM A) : close <> 0 -> (n <= S b)%nat ->
  (forall n, (n <= b)%nat -> stops 0 n 1 (loop n)) ->
  stops 1 n 1 (bump 1;; skip;; c ← peek; if c =? close then bump 1;; mret none
               else l ← unread; loop (S (length l))).
Proof.
  intros Hc Hn H. apply stops_bind_1; [apply stops_weaken with 1%nat n 1%nat;
    [apply stops_bump|lia..]|]. intros _.
  apply stops_bind_0; [apply stops_skip|]. intros _. apply stops_peek; [intros c _|].
  - apply stops_if.
    + apply stops_weaken with 1%nat (n - 1)%nat 1%nat; [|lia..].
      apply stops_bind_1; [apply stops_bump|]. intros _. apply stops_ret.
    + apply stops_weaken with 0%nat (n - 1)%nat 0%nat; [|lia..]. apply stops_rounds; [lia|done].
  - destruct (Z.eqb_spec 0 close); [congruence|]. apply stops_rounds; [lia|done].
Qed.

Lemma stops_array n : (n <= S b)%nat -> stops 1 n 1 (array value).
Proof. intros Hn. apply (stops_container 93 n [] (fun n => array_loop value n [])); [done..|].
  intros m Hm. by apply stops_array_loop. Qed.

Lemma stops_object n : (n <= S b)%nat -> stops 1 n 1 (object IsLetter IsDigit value).
Proof. intros Hn. apply (stops_container 125 n [] (fun n => object_loop IsLetter IsDigit value n [])); [done..|].
  intros m Hm. by apply stops_object_loop. Qed.
End Loops.

Lemma stops_word_bump {A} n b k (x : A) : (k <= n)%nat -> stops n b k (bump n;; mret x).
Proof.
  intros Hk. apply stops_weaken with n b (n + 0)%nat; [|lia..].
  apply stops_bind; [apply stops_bump_n|]. intros _. apply stops_ret.
Qed.

Lemma stops_bool b : stops 0 b 1 bool_.
Proof.
  unfold bool_. apply stops_word with 4%nat; [done|by apply stops_word_bump; lia|]. intros _ _.
  apply stops_word with 5%nat; [done|by apply stops_word_bump; lia|]. intros _ _.
  apply stops_bind_0; [apply stops_unread|]. intros l. by apply stops_throw.
Qed.

Lemma stops_null b : stops 0 b 1 null.
Proof.
  unfold null. apply stops_word with 4%nat; [done| |].
  - apply stops_weaken with 4%nat b 4%nat; [apply stops_bump_n|lia..].
  - intros _ _. apply stops_bind_0; [apply stops_unread|]. intros l. by apply stops_throw.
Qed.

Lemma stops_value fuel : forall a b, (b <= fuel)%nat -> stops a b 1 (value fuel).
Proof.
  induction fuel as [|fuel IH]; intros a b Hb r Hr Hl; [lia|]. cbn [Json5.value].
  unfold mbind at 1, stm_bind at 1, unread at 1. pose proof (Reader_Bytes_length r) as Hlen.
  destruct (Reader_Bytes r) as [|c l]; [done|]. cbn [length] in Hlen.
  apply (stops_weaken 1 b 1 1 b 1); [|lia..|done|lia].
  repeat apply stops_if.
  - apply stops_fmap, (stops_object _ fuel); [|lia]. intros a' b' Hb'. by apply IH.
  - apply stops_fmap, (stops_array _ fuel); [|lia]. intros a' b' Hb'. by apply IH.
  - apply stops_fmap, stops_string.
  - apply stops_fmap, stops_weaken with 0%nat b 1%nat; [apply stops_bool|lia..].
  - apply stops_bind_1; [apply stops_weaken with 0%nat b 1%nat; [apply stops_null|lia..]|].
    intros _. apply stops_ret.
  - apply stops_lexeme. intros l' _. apply number_lex_within.
  - by apply stops_throw.
Qed.
End Termination.

(** On every text the JSON5 parser stops with a value or an error of
    the code: the fuel that bounds nesting, the length of the text plus one,
    and the rounds of the object and array loops never run out. *)
Theorem parseJSON5_terminates IsLetter IsDigit s :
  match parseJSON5 IsLetter IsDigit s with
  | Ok _ => True
  | Err e => errors_is e ErrFuel = false
  end.
Proof.
  unfold parseJSON5.
  assert (H : stops 0 (S (length s)) 1
    (skip;; v ← value IsLetter IsDigit (S (length s)); skip;; l ← unread; mret (v, l))).
  { apply stops_bind_0; [apply stops_skip|]. intros _.
    apply stops_bind_1; [by apply stops_value|]. intros v.
    apply stops_bind_0; [apply stops_skip|]. intros _.
    apply stops_bind_0; [apply stops_unread|]. intros l. apply stops_ret. }
  specialize (H (NewReader s) (reader_wf_NewReader s) ltac:(unfold Reader_Len; cbn; lia)).
  by destruct ((skip;; _) (NewReader s)) as [[[v [|]] r]|e].
Qed.
