(* ===== verification/Json5Grammar.v ===== *)
(** * The documents the JSON5 reader accepts

    A grammar of JSON5: comments, unquoted keys, both quotes, escapes, trailing
    commas, signed, hexadecimal and floating-point numbers.  Each production
    names the value its text stands for, in terms of its own: digits are
    positions in a table, runes are UTF-8 by the arithmetic of RFC 3629, a
    number is its numeral's, and a float is Stdlib's IEEE 754 rounding of the
    rational.  The parser of [Json5] reads every document as that value.

    Two escapes stand for what the code makes of them and not for what JSON5
    says: a backslash x of 0x80 and above is one raw byte, and a backslash u of
    a surrogate is U+FFFD, so that a pair of them is two. *)
From S2P Require Import Prelude Buffer Json5 Json5Spec.
From Stdlib Require Import SpecFloat.

(** ** Tokens *)

(** [t] does not contain the byte pair [c d]. *)
Fixpoint no_pair (c d : Z) (t : bytes) : bool :=
  match t with
  | x :: t' => match t' with y :: _ => negb ((x =? c) && (y =? d)) && no_pair c d t' | [] => true end
  | [] => true
  end.

Inductive blank : bytes -> Prop :=
  | blank_nil : blank []
  | blank_ws c w : c ∈ [32; 9; 10; 13] -> blank w -> blank (c :: w)
  | blank_line t w : Forall (fun c => c <> 10) t -> blank w -> blank (47 :: 47 :: t ++ 10 :: w)
  | blank_block t w : no_pair 42 47 (t ++ [42]) = true -> blank w ->
      blank (47 :: 42 :: t ++ 42 :: 47 :: w).

(** What may follow the last value of a document. *)
Inductive tail_text : bytes -> Prop :=
  | tail_blank w : blank w -> tail_text w
  | tail_line w t : blank w -> Forall (fun c => c <> 10) t -> tail_text (w ++ 47 :: 47 :: t).

(** A digit is a position in one of the [tables]; a numeral is read from the
    left. *)
Inductive numeral (base : Z) (tables : list bytes) : bytes -> Z -> Prop :=
  | numeral_nil : numeral base tables [] 0
  | numeral_snoc ds n table c d : numeral base tables ds n -> table ∈ tables ->
      table !! d = Some c -> numeral base tables (ds ++ [c]) (base * n + Z.of_nat d).

Abbreviation decimal := (numeral 10 [str "0123456789"]).
Abbreviation hexadecimal := (numeral 16 [str "0123456789abcdef"; str "0123456789ABCDEF"]).

(** RFC 3629. *)
Inductive utf8 : Z -> bytes -> Prop :=
  | utf8_1 c : 0 <= c < 128 -> utf8 c [c]
  | utf8_2 a b : 2 <= a < 32 -> 0 <= b < 64 -> utf8 (64 * a + b) [192 + a; 128 + b]
  | utf8_3 a b c : 0 <= a < 16 -> 0 <= b < 64 -> 0 <= c < 64 ->
      2048 <= 4096 * a + 64 * b + c -> ~ (55296 <= 4096 * a + 64 * b + c < 57344) ->
      utf8 (4096 * a + 64 * b + c) [224 + a; 128 + b; 128 + c]
  | utf8_4 a b c d : 0 <= a < 5 -> 0 <= b < 64 -> 0 <= c < 64 -> 0 <= d < 64 ->
      65536 <= 262144 * a + 4096 * b + 64 * c + d < 1114112 ->
      utf8 (262144 * a + 4096 * b + 64 * c + d) [240 + a; 128 + b; 128 + c; 128 + d].

(** The escapes of one character: itself, a control character, or nothing for
    the end of a line. *)
Inductive escape : Z -> bytes -> Prop :=
  | escape_self c : c ∈ [34; 39; 47; 92] -> escape c [c]
  | escape_newline : escape (chr "n") [10]
  | escape_tab : escape (chr "t") [9]
  | escape_return : escape (chr "r") [13]
  | escape_backspace : escape (chr "b") [8]
  | escape_formfeed : escape (chr "f") [12]
  | escape_nul : escape (chr "0") [0]
  | escape_continuation : escape 10 [].

Inductive chars (quote : Z) : bytes -> bytes -> Prop :=
  | chars_nil : chars quote [] []
  | chars_plain c s e : c <> quote -> c <> 92 -> chars quote s e -> chars quote (c :: s) (c :: e)
  | chars_escape x out s e : escape x out -> chars quote s e ->
      chars quote (out ++ s) (92 :: x :: e)
  | chars_hex a b n s e : hexadecimal [a; b] n -> chars quote s e ->
      chars quote (n :: s) (92 :: chr "x" :: a :: b :: e)
  | chars_unicode a b c d n rune s e : hexadecimal [a; b; c; d] n -> utf8 n rune -> chars quote s e ->
      chars quote (rune ++ s) (92 :: chr "u" :: a :: b :: c :: d :: e)
  | chars_surrogate a b c d n rune s e : hexadecimal [a; b; c; d] n -> 0xD800 <= n < 0xE000 ->
      utf8 0xFFFD rune -> chars quote s e ->
      chars quote (rune ++ s) (92 :: chr "u" :: a :: b :: c :: d :: e).

Inductive quoted : bytes -> bytes -> Prop :=
  | quoted_intro q s e : q = 34 \/ q = 39 -> chars q s e -> quoted s (q :: e ++ [q]).

(** An identifier, of the letters and digits of the Unicode tables, the dollar
    sign and the underscore. *)
Section Keys.
Variables letter digit : Z -> bool.

Definition starts_ident (c : Z) : Prop := letter c = true \/ c = 95 \/ c = 36.

Inductive ident_rest : bytes -> Prop :=
  | ident_end : ident_rest []
  | ident_more c rune l : starts_ident c \/ digit c = true -> utf8 c rune -> ident_rest l ->
      ident_rest (rune ++ l).

Inductive member_key : bytes -> bytes -> Prop :=
  | key_quoted s e : quoted s e -> member_key s e
  | key_ident c rune l : starts_ident c -> utf8 c rune -> ident_rest l ->
      member_key (rune ++ l) (rune ++ l).
End Keys.

Inductive sign : bytes -> bool -> Prop :=
  | sign_none : sign [] false
  | sign_plus : sign [43] false
  | sign_minus : sign [45] true.

(** The signed value, when it fits into 64 bits. *)
Inductive int64_of : bool -> Z -> Z -> Prop :=
  | int64_pos n : n < 2 ^ 63 -> int64_of false n n
  | int64_neg n : n <= 2 ^ 63 -> int64_of true n (- n).

Definition finite_float (v : spec_float) : Prop :=
  match v with S754_zero _ | S754_finite _ _ _ => True | _ => False end.

(** The float nearest to [m * 10 ^ e], by the IEEE 754 operations of Stdlib:
    the integer rounded, or the rounded quotient of two integers.  It has to be
    finite. *)
Inductive float64 (neg : bool) (m e : Z) : spec_float -> Prop :=
  | float64_zero : m = 0 -> float64 neg m e (S754_zero neg)
  | float64_integer v : 0 < m -> 0 <= e ->
      binary_normalize 53 1024 ((if neg then -1 else 1) * (m * 10 ^ e)) 0 neg = v ->
      finite_float v -> float64 neg m e v
  | float64_quotient v : 0 < m -> e < 0 ->
      SFdiv 53 1024 (S754_finite neg (Z.to_pos m) 0) (S754_finite false (Z.to_pos (10 ^ (- e))) 0) = v ->
      finite_float v -> float64 neg m e v.

Inductive fraction : bytes -> bytes -> Prop :=
  | fraction_none : fraction [] []
  | fraction_some fp : fraction (46 :: fp) fp.

(** Exponents of up to 99999. *)
Inductive exponent : bytes -> Z -> Prop :=
  | exponent_none : exponent [] 0
  | exponent_some c s neg ds n : c = 101 \/ c = 69 -> sign s neg -> ds <> [] -> decimal ds n ->
      n < 100000 -> exponent (c :: s ++ ds) (if neg then - n else n).

Inductive number : json -> bytes -> Prop :=
  | number_int s neg ds m n : sign s neg -> ds <> [] -> decimal ds m -> int64_of neg m n ->
      number (JInt n) (s ++ ds)
  | number_big s neg ds m v : sign s neg -> ds <> [] -> decimal ds m ->
      (if neg then 2 ^ 63 < m else 2 ^ 63 <= m) ->
      float64 neg m 0 v -> number (JFloat v) (s ++ ds)
  | number_hex s neg x hs m n : sign s neg -> x = 120 \/ x = 88 -> hs <> [] ->
      hexadecimal hs m -> int64_of neg m n -> number (JInt n) (s ++ 48 :: x :: hs)
  | number_float s neg ip f fp x m e v : sign s neg -> fraction f fp -> exponent x e ->
      f ++ x <> [] -> ip ++ fp <> [] -> decimal (ip ++ fp) m ->
      float64 neg m (- Z.of_nat (length fp) + e) v ->
      number (JFloat v) (s ++ ip ++ f ++ x).

(** ** Values; a container's text starts after its opening bracket *)

Section Documents.
Variables letter digit : Z -> bool.
Abbreviation member_key := (member_key letter digit).

(** The map after assigning the members in turn: a new key comes last, one that
    is there keeps its place and takes the new value. *)
Inductive assigned : list (bytes * json) -> list (bytes * json) -> Prop :=
  | assigned_nil : assigned [] []
  | assigned_new l m k v : assigned l m -> k ∉ m.*1 -> assigned (l ++ [(k, v)]) (m ++ [(k, v)])
  | assigned_again l m1 m2 k v0 v : assigned l (m1 ++ (k, v0) :: m2) -> k ∉ m1.*1 ->
      assigned (l ++ [(k, v)]) (m1 ++ (k, v) :: m2).

Inductive text : json -> bytes -> Prop :=
  | text_null : text JNull (str "null")
  | text_true : text (JBool true) (str "true")
  | text_false : text (JBool false) (str "false")
  | text_string s e : quoted s e -> text (JString s) e
  | text_number v e : number v e -> text v e
  | text_array l e : items l e -> text (JArray l) (91 :: e)
  | text_object l m e : members l e -> assigned l m -> text (JObject m) (123 :: e)
with items : list json -> bytes -> Prop :=
  | items_end w : blank w -> items [] (w ++ [93])
  | items_last w v e w' : blank w -> text v e -> blank w' -> items [v] (w ++ e ++ w' ++ [93])
  | items_more w v e w' l t : blank w -> text v e -> blank w' -> items l t ->
      items (v :: l) (w ++ e ++ w' ++ 44 :: t)
with members : list (bytes * json) -> bytes -> Prop :=
  | members_end w : blank w -> members [] (w ++ [125])
  | members_last w k ke w1 w2 v e w' : blank w -> member_key k ke -> blank w1 -> blank w2 ->
      text v e -> blank w' ->
      members [(k, v)] (w ++ ke ++ w1 ++ 58 :: w2 ++ e ++ w' ++ [125])
  | members_more w k ke w1 w2 v e w' l t : blank w -> member_key k ke -> blank w1 -> blank w2 ->
      text v e -> blank w' -> members l t ->
      members ((k, v) :: l) (w ++ ke ++ w1 ++ 58 :: w2 ++ e ++ w' ++ 44 :: t).

Scheme text_mut := Induction for text Sort Prop
  with items_mut := Induction for items Sort Prop
  with members_mut := Induction for members Sort Prop.
Combined Scheme text_items_members from text_mut, items_mut, members_mut.

Inductive document : json -> bytes -> Prop :=
  | document_intro w v e w' : blank w -> text v e -> tail_text w' -> document v (w ++ e ++ w').
End Documents.

(** ** What the parser's functions compute *)

Lemma decimal_digit table c d : table ∈ [str "0123456789"] -> table !! d = Some c ->
  is_dec c = true /\ c - 48 = Z.of_nat d.
Proof.
  intros ->%list_elem_of_singleton H. do 10 (destruct d as [|d]; [by injection H as <-|]). done.
Qed.

Lemma hex_digit_table table c d :
  table ∈ [str "0123456789abcdef"; str "0123456789ABCDEF"] -> table !! d = Some c ->
  isHexDigit c = true /\ hex_value c = Z.of_nat d /\ Z.of_nat d < 16.
Proof.
  intros [->|[->|[]%elem_of_nil]%elem_of_cons]%elem_of_cons H;
    do 16 (destruct d as [|d]; [by injection H as <-|]); done.
Qed.

Abbreviation digits := (Forall (fun c => is_dec c = true)).

Lemma decimal_value ds n : decimal ds n -> digits ds /\ dec_value ds = n /\ 0 <= n.
Proof.
  induction 1 as [|ds n table c d _ (H1 & H2 & H3) Ht Hc]; [by split_and!|].
  destruct (decimal_digit table c d Ht Hc) as [Hd Hv]. split_and!; [by apply Forall_app; auto| |lia].
  unfold dec_value in *. rewrite fold_left_app, H2. cbn. lia.
Qed.

Lemma decimal_exponent ds n : decimal ds n -> n < 100000 -> exp_value ds = n.
Proof.
  induction 1 as [|ds n table c d H IH Ht Hc]; [done|]. intros Hn.
  destruct (decimal_digit table c d Ht Hc) as [_ Hv].
  unfold exp_value in *. rewrite fold_left_app, IH by lia. cbn.
  destruct (Z.ltb_spec n 10000); lia.
Qed.

Lemma hexadecimal_value ds n : hexadecimal ds n ->
  Forall (fun c => isHexDigit c = true) ds /\ parse_hex ds = Some n /\ 0 <= n < 16 ^ Z.of_nat (length ds).
Proof.
  intros H. assert (Hd : Forall (fun c => isHexDigit c = true) ds /\
    fold_left (fun n c => n * 16 + hex_value c) ds 0 = n /\ 0 <= n < 16 ^ Z.of_nat (length ds)).
  { induction H as [|ds n table c d _ (H1 & H2 & H3) Ht Hc]; [split; [done|split; [done|by cbn; lia]]|].
    destruct (hex_digit_table table c d Ht Hc) as (Hx & Hv & Hlt).
    split; [by apply Forall_app; auto|]. rewrite fold_left_app, H2, length_app, Nat2Z.inj_add.
    rewrite Z.pow_add_r by lia. cbn. lia. }
  destruct Hd as (H1 & H2 & H3). split_and!; [done| |lia..]. unfold parse_hex.
  assert (forallb isHexDigit ds = true) as ->; [|by rewrite H2].
  clear -H1. induction H1 as [|c ds Hc _ IH]; cbn; [done|]. by rewrite Hc.
Qed.

Lemma int64_of_value neg m n : int64_of neg m n -> to_int64 neg m = Some n.
Proof.
  intros [k H|k H]; unfold to_int64.
  - by destruct (Z.ltb_spec k (2 ^ 63)); [|lia].
  - by destruct (Z.leb_spec k (2 ^ 63)); [|lia].
Qed.

Lemma float64_value neg m e v : float64 neg m e v -> decimal_float neg m e = Some v.
Proof.
  intros [->|v' Hm He <- Hf|v' Hm He <- Hf]; unfold decimal_float; [done|..];
    destruct (Z.eqb_spec m 0); try lia; destruct (Z.leb_spec 0 e); try lia;
    match goal with |- match ?x with _ => _ end = _ => by destruct x end.
Qed.

Lemma obj_set_new k v m : k ∉ m.*1 -> obj_set k v m = m ++ [(k, v)].
Proof.
  induction m as [|[k' v'] m IH]; [done|]. rewrite fmap_cons, not_elem_of_cons. cbn. intros [Hk Hm].
  rewrite decide_False by done. by rewrite IH.
Qed.

Lemma obj_set_again k v v0 m1 m2 : k ∉ m1.*1 ->
  obj_set k v (m1 ++ (k, v0) :: m2) = m1 ++ (k, v) :: m2.
Proof.
  induction m1 as [|[k' v'] m IH]; cbn; [intros _; by rewrite decide_True|].
  rewrite not_elem_of_cons. intros [Hk Hm]. rewrite decide_False by done. by rewrite IH.
Qed.

Lemma assigned_value l m : assigned l m -> fold_left (fun m kv => obj_set kv.1 kv.2 m) l [] = m.
Proof.
  induction 1 as [|l m k v _ IH Hk|l m1 m2 k v0 v _ IH Hk]; [done|..]; rewrite fold_left_app, IH; cbn.
  - by apply obj_set_new.
  - by apply obj_set_again.
Qed.

(** *** UTF-8 *)

Lemma lead2_bits : forall a, 0 <= a < 32 -> Z.lor 0xC0 a = 192 + a /\ Z.land (192 + a) 0x1F = a.
Proof. by_range 32%nat. Qed.
Lemma lead3_bits : forall a, 0 <= a < 16 -> Z.lor 0xE0 a = 224 + a /\ Z.land (224 + a) 0x0F = a.
Proof. by_range 16%nat. Qed.
Lemma lead4_bits : forall a, 0 <= a < 8 -> Z.land (240 + a) 0x07 = a.
Proof. by_range 8%nat. Qed.
Lemma cont_bits_of : forall b, 0 <= b < 64 -> Z.lor 0x80 b = 128 + b /\ Z.land (128 + b) 0x3F = b.
Proof. by_range 64%nat. Qed.

Lemma low_bits h b : 0 <= b < 64 -> Z.land (64 * h + b) 0x3F = b /\ Z.shiftr (64 * h + b) 6 = h.
Proof.
  intros Hb. change 0x3F with (Z.ones 6). rewrite Z.land_ones, Z.shiftr_div_pow2 by lia.
  change (2 ^ 6) with 64. split.
  - rewrite Z.add_comm, Z.mul_comm, Z_mod_plus_full. by apply Z.mod_small.
  - rewrite Z.add_comm, Z.mul_comm, Z_div_plus_full by lia. rewrite Z.div_small by lia. lia.
Qed.

Lemma utf8_EncodeRune n rune : utf8 n rune -> n < 65536 -> EncodeRune n = rune.
Proof.
  intros [c Hc|a b Ha Hb|a b c Ha Hb Hc Hn Hs|a b c d Ha Hb Hc Hd Hn] H; [..|lia]; unfold EncodeRune.
  - by destruct (Z.ltb_spec c 0x80); [|lia].
  - destruct (Z.ltb_spec (64 * a + b) 0x80); [lia|]. destruct (Z.ltb_spec (64 * a + b) 0x800); [|lia].
    destruct (low_bits a b Hb) as [-> ->]. by rewrite (proj1 (lead2_bits a ltac:(lia))), (proj1 (cont_bits_of b Hb)).
  - set (m := 4096 * a + 64 * b + c) in *.
    destruct (Z.ltb_spec m 0x80); [lia|]. destruct (Z.ltb_spec m 0x800); [lia|].
    assert ((0xD800 <=? m) && (m <=? 0xDFFF) = false) as -> by lia.
    assert (E : m = 64 * (64 * a + b) + c) by lia. rewrite E.
    destruct (low_bits (64 * a + b) c Hc) as [-> E2].
    assert (Z.shiftr (64 * (64 * a + b) + c) 12 = a) as ->.
    { change 12 with (6 + 6). rewrite <- Z.shiftr_shiftr, E2 by lia. by apply low_bits. }
    rewrite E2. destruct (low_bits a b Hb) as [-> _].
    by rewrite (proj1 (lead3_bits a Ha)), (proj1 (cont_bits_of b Hb)), (proj1 (cont_bits_of c Hc)).
Qed.

Lemma utf8_replacement n rune : 0xD800 <= n < 0xE000 -> utf8 0xFFFD rune -> EncodeRune n = rune.
Proof.
  intros Hn H. rewrite <- (utf8_EncodeRune 0xFFFD rune) by (done || lia). unfold EncodeRune.
  destruct (Z.ltb_spec n 0x80); [lia|]. destruct (Z.ltb_spec n 0x800); [lia|].
  assert ((0xD800 <=? n) && (n <=? 0xDFFF) = true) as -> by lia. done.
Qed.

Lemma lor_shiftl_low h k b : 0 <= k -> 0 <= b < 2 ^ k -> Z.lor (Z.shiftl h k) b = h * 2 ^ k + b.
Proof.
  intros Hk Hb. rewrite Z.lor_comm, lor_shiftl_add by lia. lia.
Qed.

Lemma utf8_DecodeRune n rune l : utf8 n rune -> DecodeRune (rune ++ l) = (n, length rune).
Proof.
  intros [c Hc|a b Ha Hb|a b c Ha Hb Hc Hn Hs|a b c d Ha Hb Hc Hd Hn]; cbn [app length];
    unfold DecodeRune, cont_in, cont_bits; cbn [lookup list_lookup default]; unfold id.
  - by destruct (Z.ltb_spec c 0x80); [|lia].
  - assert ((192 + a <? 0x80) = false) as -> by lia.
    match goal with |- (if ?t then _ else _) = _ => assert (t = true) as -> by lia end.
    rewrite (proj2 (lead2_bits a ltac:(lia))), (proj2 (cont_bits_of b Hb)), lor_shiftl_low by lia.
    f_equal. lia.
  - assert ((224 + a <? 0x80) = false) as -> by lia.
    assert ((0xC2 <=? 224 + a) && (224 + a <=? 0xDF) && ((0x80 <=? 128 + b) && (128 + b <=? 0xBF)) = false) as -> by lia.
    match goal with |- (if ?t then _ else _) = _ => assert (t = true) as -> end.
    { destruct (Z.eqb_spec (224 + a) 0xE0), (Z.eqb_spec (224 + a) 0xED); lia. }
    rewrite (proj2 (lead3_bits a Ha)), (proj2 (cont_bits_of b Hb)), (proj2 (cont_bits_of c Hc)).
    rewrite (lor_shiftl_low b 6 c), (lor_shiftl_low a 12) by lia. f_equal. lia.
  - assert ((240 + a <? 0x80) = false) as -> by lia.
    assert ((0xC2 <=? 240 + a) && (240 + a <=? 0xDF) && ((0x80 <=? 128 + b) && (128 + b <=? 0xBF)) = false) as -> by lia.
    assert ((0xE0 <=? 240 + a) && (240 + a <=? 0xEF) = false) as -> by lia. cbn [andb].
    match goal with |- (if ?t then _ else _) = _ => assert (t = true) as -> end.
    { destruct (Z.eqb_spec (240 + a) 0xF0), (Z.eqb_spec (240 + a) 0xF4); lia. }
    rewrite (lead4_bits a ltac:(lia)), (proj2 (cont_bits_of b Hb)), (proj2 (cont_bits_of c Hc)),
      (proj2 (cont_bits_of d Hd)).
    rewrite (lor_shiftl_low c 6 d), (lor_shiftl_low b 12), (lor_shiftl_low a 18) by lia. f_equal. lia.
Qed.

(** The first byte of an identifier is no quote, blank, comment or bracket. *)
Lemma rune_head letter c rune l : (forall c, c < 0x80 -> letter c = ascii_letter c) ->
  starts_ident letter c -> utf8 c rune ->
  exists b l', rune ++ l = b :: l' /\ (b =? 34) || (b =? 39) = false /\ is_ws b = false /\ b <> 47 /\ b <> 125.
Proof.
  intros Hl Hc Hu. destruct Hu as [c Hr|a b Ha|a b d Ha|a b d e Ha]; cbn [app]; eexists _, _; (split; [reflexivity|]).
  - assert (ascii_letter c = true \/ c = 95 \/ c = 36) as Hc' by (unfold starts_ident in Hc; by rewrite <- Hl by lia).
    unfold ascii_letter in Hc'. unfold is_ws. split_and!; lia.
  - unfold is_ws. split_and!; lia.
  - unfold is_ws. split_and!; lia.
  - unfold is_ws. split_and!; lia.
Qed.

(** ** Blanks *)

(** Nothing to skip. *)
Definition solid (l : bytes) : Prop := skip_len l = 0%nat.

Lemma skip_line_to t w : Forall (fun c => c <> 10) t ->
  skip_line (t ++ 10 :: w) = (length t + S (skip_len w))%nat.
Proof.
  induction 1 as [|c t Hc _ IH]; [done|]. cbn [skip_line app length].
  destruct (Z.eqb_spec c 10); [done|]. rewrite IH. lia.
Qed.

Lemma skip_line_end t : Forall (fun c => c <> 10) t -> skip_line t = length t.
Proof.
  induction 1 as [|c t Hc _ IH]; [done|]. cbn [skip_line length].
  destruct (Z.eqb_spec c 10); [done|]. by rewrite IH.
Qed.

Lemma skip_block_to t w : no_pair 42 47 (t ++ [42]) = true ->
  skip_block (t ++ 42 :: 47 :: w) = (length t + S (S (skip_len w)))%nat.
Proof.
  induction t as [|c t IH]; [done|]. intros H.
  assert (no_pair 42 47 (t ++ [42]) = true /\
    skip_block (c :: t ++ 42 :: 47 :: w) = S (skip_block (t ++ 42 :: 47 :: w))) as [Ht Hs].
  { destruct t as [|d t]; cbn [app no_pair] in H |- *.
    - cbn. by destruct (c =? 42).
    - apply andb_true_iff in H as [H1 H2]. apply negb_true_iff in H1. split; [done|].
      cbn [skip_block]. by rewrite H1. }
  cbn [app]. rewrite Hs, IH by done. cbn [length]. lia.
Qed.

Lemma blank_byte c : c ∈ [32; 9; 10; 13] -> is_ws c = true.
Proof. rewrite !elem_of_cons, elem_of_nil. naive_solver. Qed.

Lemma skip_blank w l : blank w -> skip_len (w ++ l) = (length w + skip_len l)%nat.
Proof.
  induction 1 as [|c w Hc _ IH|t w Ht _ IH|t w Ht _ IH]; [done|..].
  - cbn [skip_len app length]. by rewrite (blank_byte c Hc), IH.
  - cbn [skip_len app length]. cbn [is_ws Z.eqb orb Pos.eqb]. rewrite <- app_assoc. cbn [app].
    rewrite skip_line_to, IH, length_app by done. cbn [length]. lia.
  - cbn [skip_len app length]. cbn [is_ws Z.eqb orb Pos.eqb]. rewrite <- app_assoc. cbn [app].
    rewrite skip_block_to, IH, length_app by done. cbn [length]. lia.
Qed.

Lemma skip_tail w : tail_text w -> skip_len w = length w.
Proof.
  intros [w' H|w' t H Ht].
  - rewrite <- (app_nil_r w') at 1. rewrite skip_blank by done. cbn. lia.
  - rewrite skip_blank, length_app by done. cbn [skip_len length]. cbn. by rewrite skip_line_end.
Qed.

Lemma solid_head c l : is_ws c = false -> c <> 47 -> solid (c :: l).
Proof. unfold solid. cbn [skip_len]. intros -> H. by destruct (Z.eqb_spec c 47). Qed.

(** ** Reading: [m] turns the unread bytes [l] into [l'] and returns [v] *)

Definition reads {A} (m : RM A) (v : A) (l l' : bytes) : Prop := forall r, Reader_Bytes r = l ->
  exists r', m r = Ok (v, r') /\ Reader_Bytes r' = l'.

Lemma reads_bind {A B} (m : RM A) (f : A -> RM B) v w l1 l2 l3 :
  reads m v l1 l2 -> reads (f v) w l2 l3 -> reads (m ≫= f) w l1 l3.
Proof.
  intros Hm Hf r Hr. destruct (Hm r Hr) as (r' & E & Hr'). destruct (Hf r' Hr') as (r2 & E2 & Hr2).
  exists r2. by rewrite (stm_bind_step _ _ _ _ _ E).
Qed.

Lemma reads_ret {A} (v : A) l : reads (mret v) v l l.
Proof. intros r Hr. by exists r. Qed.

Lemma reads_fmap {A B} (f : A -> B) m v l l' : reads m v l l' -> reads (f <$> m) (f v) l l'.
Proof.
  intros H r Hr. destruct (H r Hr) as (r' & E & Hr'). exists r'. unfold fmap, stm_fmap. by rewrite E.
Qed.

Lemma reads_unread l : reads unread l l l.
Proof. intros r Hr. exists r. split; [|done]. unfold unread. by rewrite Hr. Qed.

Lemma reads_peek c l : reads peek c (c :: l) (c :: l).
Proof.
  intros r Hr. exists r. split; [|done]. unfold peek. unfold Reader_Bytes in Hr.
  assert (r_buf r !! r_off r = Some c) as ->; [|done].
  rewrite <- (Nat.add_0_r (r_off r)), <- lookup_drop, Hr. done.
Qed.

Lemma reads_advance {A} (m : RM A) v l l' n : (forall r, Reader_Bytes r = l -> m r = Ok (v, advance r n)) ->
  drop n l = l' -> reads m v l l'.
Proof.
  intros H Hl r Hr. exists (advance r n). split; [by apply H|]. by rewrite Reader_Bytes_advance, Hr.
Qed.

Lemma reads_bump e l : reads (bump (length e)) tt (e ++ l) l.
Proof. apply reads_advance with (length e); [done|]. apply drop_app_length. Qed.

Lemma reads_bump_1 c l : reads (bump 1) tt (c :: l) l.
Proof. apply (reads_bump [c]). Qed.

Lemma reads_skip w l : blank w -> solid l -> reads skip tt (w ++ l) l.
Proof.
  intros Hw Hl. apply reads_advance with (length w); [|apply drop_app_length].
  intros r Hr. unfold skip. rewrite Hr, skip_blank, Hl by done. by rewrite Nat.add_0_r.
Qed.

Lemma reads_skip_solid l : solid l -> reads skip tt l l.
Proof. apply (reads_skip []). constructor. Qed.

Lemma reads_lexeme {A} (lex : bytes -> result (A * nat)) v e l :
  lex (e ++ l) = Ok (v, length e) -> reads (lexeme lex) v (e ++ l) l.
Proof.
  intros H. apply reads_advance with (length e); [|apply drop_app_length].
  intros r Hr. unfold lexeme. by rewrite Hr, H.
Qed.

(** ** Strings *)

Lemma escape_value x out : escape x out -> simple_escape x = Some out.
Proof. intros [c Hc| | | | | | |]; [|done..]. rewrite !elem_of_cons, elem_of_nil in Hc. naive_solver. Qed.

(** The parser after a backslash, at a [u]. *)
Lemma unicode_escape q a b c d n rune s e l : (92 =? q) = false ->
  hexadecimal [a; b; c; d] n -> EncodeRune n = rune ->
  string_body q (e ++ q :: l) = Ok (s, S (length e)) ->
  string_body q (92 :: chr "u" :: a :: b :: c :: d :: e ++ q :: l)
  = Ok (rune ++ s, S (length (92 :: chr "u" :: a :: b :: c :: d :: e))).
Proof.
  intros Hq (_ & Hn & _)%hexadecimal_value <- IH. cbn [string_body]. rewrite Hq.
  change (92 =? 92) with true. change (simple_escape (chr "u")) with (@None bytes).
  change (chr "u" =? chr "u") with true. cbv iota. by rewrite Hn, IH.
Qed.

Lemma string_body_chars q s e l : q = 34 \/ q = 39 -> chars q s e ->
  string_body q (e ++ q :: l) = Ok (s, S (length e)).
Proof.
  intros Hq. assert (Hq92 : (92 =? q) = false) by (destruct Hq; subst; done).
  induction 1 as [|c s e Hcq Hc _ IH|x out s e Hx _ IH|a b n s e Hn _ IH|a b c d n rune s e Hn Hr _ IH
    |a b c d n rune s e Hn Hr Hu _ IH]; cbn [app];
    [cbn [string_body]..|eapply unicode_escape|eapply unicode_escape]; try done.
  - by rewrite Z.eqb_refl.
  - destruct (Z.eqb_spec c q); [done|]. destruct (Z.eqb_spec c 92); [done|]. by rewrite IH.
  - rewrite Hq92. cbn [Z.eqb Pos.eqb]. by rewrite (escape_value x out Hx), IH.
  - rewrite Hq92. change (92 =? 92) with true. change (simple_escape (chr "x")) with (@None bytes).
    cbn [chr]. change (chr "x" =? chr "u") with false. change (chr "x" =? chr "x") with true.
    cbv iota. destruct (hexadecimal_value _ _ Hn) as (_ & -> & _). by rewrite IH.
  - apply utf8_EncodeRune; [done|]. by destruct (hexadecimal_value _ _ Hn) as (_ & _ & _ & H).
  - by apply utf8_replacement.
Qed.

Lemma reads_string s e l : quoted s e -> reads string_ s (e ++ l) l.
Proof.
  intros [q s' e' Hq H]. cbn [app]. rewrite <- app_assoc. cbn [app]. unfold string_.
  eapply reads_bind; [apply reads_peek|]. eapply reads_bind; [apply reads_bump_1|].
  change (q :: l) with ([q] ++ l). rewrite app_assoc. apply reads_lexeme.
  rewrite <- app_assoc. cbn [app]. rewrite (string_body_chars q s') by done.
  rewrite length_app. cbn. do 2 f_equal. lia.
Qed.

(** ** Numbers *)

Definition stop_at (p : Z -> bool) (l : bytes) : Prop :=
  match l with c :: _ => p c = false | [] => True end.

Lemma span_all p e l : Forall (fun c => p c = true) e -> stop_at p l -> span p (e ++ l) = (e, l).
Proof.
  intros He Hl. induction He as [|c e Hc _ IH]; cbn.
  - destruct l as [|c l]; cbn in *; [done|]. by rewrite Hl.
  - by rewrite Hc, IH.
Qed.

Lemma forallb_Forall p (l : bytes) : Forall (fun c => p c = true) l -> forallb p l = true.
Proof. induction 1 as [|c l Hc _ IH]; cbn; [done|]. by rewrite Hc. Qed.

(** The bytes that may follow a value. *)
Definition is_delim (c : Z) : bool :=
  is_ws c || (c =? 47) || (c =? 44) || (c =? 93) || (c =? 125).
Definition delim (l : bytes) : Prop := match l with c :: _ => is_delim c = true | [] => True end.

Lemma is_delim_cases c : is_delim c = true ->
  c = 32 \/ c = 9 \/ c = 10 \/ c = 13 \/ c = 47 \/ c = 44 \/ c = 93 \/ c = 125.
Proof. unfold is_delim, is_ws. intros H. lia. Qed.

Lemma delim_stop p l : delim l -> (forall c, is_delim c = true -> p c = false) -> stop_at p l.
Proof. destruct l; cbn; auto. Qed.

Ltac by_delim := let c := fresh in let H := fresh in
  intros c H; apply is_delim_cases in H; naive_solver.

Lemma is_dec_range c : is_dec c = true -> 48 <= c <= 57.
Proof. unfold is_dec. lia. Qed.

Definition is_sign (c : Z) : bool := (c =? 45) || (c =? 43).

Lemma split_sign_app s neg l : sign s neg -> stop_at is_sign l -> split_sign (s ++ l) = (neg, l).
Proof.
  intros [] Hl; [|done..]. destruct l as [|c l]; cbn in *; [done|].
  unfold is_sign in Hl. apply orb_false_iff in Hl as [-> ->]. done.
Qed.

Lemma digits_no_sign ds l : ds <> [] -> digits ds -> stop_at is_sign (ds ++ l).
Proof.
  intros Hd H. destruct H as [|c ds Hc]; [done|]. cbn. apply is_dec_range in Hc. unfold is_sign. lia.
Qed.

Lemma number_other s neg body l v : sign s neg -> body <> [] ->
  Forall (fun c => in_number c = true) body -> stop_at is_sign body -> delim l ->
  literal_value (s ++ body) = Ok v -> number_lex (s ++ body ++ l) = Ok (v, length (s ++ body)).
Proof.
  intros Hs Hb Hn Hsg Hl Hv. unfold number_lex.
  rewrite (split_sign_app s neg) by (try done; by destruct body).
  rewrite span_all by (done || (apply delim_stop; [done|by_delim])).
  replace (length (s ++ body ++ l) - length (body ++ l))%nat with (length s)
    by (rewrite !length_app; lia).
  rewrite take_app_length. cbn [fst].
  assert (Hx : forall c, in_number c = true -> (c =? 120) || (c =? 88) = false)
    by (intros c; unfold in_number, is_dec; lia).
  assert (Hd : forall c, is_delim c = true -> (c =? 120) || (c =? 88) = false) by by_delim.
  assert (Ho : (v0 ← literal_value (s ++ body); mret (v0, length (s ++ body)))
               = Ok (v, length (s ++ body))) by by rewrite Hv.
  destruct body as [|a [|b body]]; [done| |].
  - destruct l as [|b l]; cbn [app]; [done|]. rewrite (Hd b) by done. by rewrite andb_false_r.
  - apply Forall_cons in Hn as [_ [Hb' _]%Forall_cons]. cbn [app].
    by rewrite (Hx b), andb_false_r.
Qed.

Lemma not_just_sign s neg b : sign s neg -> b <> [] -> stop_at is_sign b ->
  bool_decide (s ++ b = []) || bool_decide (s ++ b = [43]) || bool_decide (s ++ b = [45]) = false.
Proof.
  intros Hs Hb Hg. destruct b as [|c b]; [done|]. cbn in Hg.
  rewrite !bool_decide_eq_false_2; [done| | |]; intros E; destruct Hs; try done; injection E as -> ->; done.
Qed.

Lemma exponent_digits x e : exponent x e -> stop_at is_dec x.
Proof. by intros [|c ? ? ? ? [-> | ->]]. Qed.

Lemma ParseFloat_text s neg ip f fp x m e v : sign s neg -> fraction f fp -> exponent x e ->
  ip ++ fp <> [] -> decimal (ip ++ fp) m -> stop_at is_sign (ip ++ f ++ x) ->
  float64 neg m (- Z.of_nat (length fp) + e) v ->
  ParseFloat (s ++ ip ++ f ++ x) = Some v.
Proof.
  intros Hs Hf Hx Hne ([Hip Hfp]%Forall_app & <- & _)%decimal_value Hg <-%float64_value.
  unfold ParseFloat. rewrite (split_sign_app s neg) by done.
  pose proof (exponent_digits x e Hx) as Hxs.
  assert (Hf' : (let '(fp0, l) := match f ++ x with
      | [] => ([], f ++ x) | c :: l' => if c =? 46 then span is_dec l' else ([], f ++ x) end in (fp0, l))
      = (fp, x)).
  { destruct Hf as [|fp]; cbn.
    - destruct Hx as [|c ? ? ? ? [-> | ->]]; done.
    - by rewrite span_all. }
  rewrite span_all; [|done|].
  2: { destruct Hf; [by cbn|done]. }
  destruct (match f ++ x with [] => _ | _ => _ end) as [fp' x'] eqn:E. injection Hf' as -> ->.
  rewrite bool_decide_eq_false_2 by done.
  destruct Hx as [|c s' neg' ds n Hc Hs' Hds Hn Hmax]; [by rewrite Z.add_0_r|].
  assert ((c =? 101) || (c =? 69) = true) as -> by (destruct Hc; subst; done).
  pose proof (decimal_exponent ds n Hn Hmax) as Hexp.
  destruct (decimal_value ds n Hn) as [Hdd _].
  rewrite (split_sign_app s' neg'), forallb_Forall, Hexp; [|done..|].
  - by destruct ds.
  - rewrite <- (app_nil_r ds). by apply digits_no_sign.
Qed.

(** A numeral alone: an integer, or a float when it does not fit. *)
Lemma literal_value_int s neg ds m : sign s neg -> ds <> [] -> decimal ds m ->
  literal_value (s ++ ds) = match to_int64 neg m with
    | Some n => Ok (JInt n)
    | None => match ParseFloat (s ++ ds) with Some f => Ok (JFloat f) | None => Err (ErrMsg "int parse") end
    end.
Proof.
  intros Hs Hd (H & <- & _)%decimal_value. unfold literal_value, ParseInt10.
  assert (Hg : stop_at is_sign ds) by (rewrite <- (app_nil_r ds); by apply digits_no_sign).
  rewrite (split_sign_app s neg) by done. cbn [snd]. rewrite forallb_Forall by done.
  rewrite (not_just_sign s neg) by done. by destruct ds.
Qed.

Lemma literal_value_float s neg ip f fp x m e v : sign s neg -> fraction f fp -> exponent x e ->
  f ++ x <> [] -> ip ++ fp <> [] -> decimal (ip ++ fp) m -> stop_at is_sign (ip ++ f ++ x) ->
  float64 neg m (- Z.of_nat (length fp) + e) v -> literal_value (s ++ ip ++ f ++ x) = Ok (JFloat v).
Proof.
  intros Hs Hf Hx Hfx Hne Hm Hg Hv. unfold literal_value.
  rewrite (ParseFloat_text s neg ip f fp x m e v) by done.
  rewrite (split_sign_app s neg) by done. cbn [snd].
  assert (forallb is_dec (ip ++ f ++ x) = false) as ->.
  { rewrite forallb_app. apply andb_false_intro2.
    destruct Hf; cbn; [|done]. destruct Hx as [|c ? ? ? ? [-> | ->]]; done. }
  assert (Hlen : ip ++ f ++ x <> []).
  { intros E. apply app_eq_nil in E as [-> E]. by rewrite E in Hfx. }
  by rewrite (not_just_sign s neg).
Qed.

Lemma literal_value_big s neg ds m v : sign s neg -> ds <> [] -> decimal ds m ->
  (if neg then 2 ^ 63 < m else 2 ^ 63 <= m) -> float64 neg m 0 v ->
  literal_value (s ++ ds) = Ok (JFloat v).
Proof.
  intros Hs Hd Hm Hbig Hv. rewrite (literal_value_int s neg ds m) by done.
  assert (to_int64 neg m = None) as ->.
  { unfold to_int64. destruct neg; [destruct (Z.leb_spec m (2 ^ 63))|destruct (Z.ltb_spec m (2 ^ 63))]; lia || done. }
  pose proof (ParseFloat_text s neg ds [] [] [] m 0 v Hs) as Hp. rewrite !app_nil_r in Hp.
  rewrite Hp; [done|constructor|constructor|done|done| |done].
  rewrite <- (app_nil_r ds). apply digits_no_sign; [done|]. by apply (decimal_value ds m).
Qed.

Lemma digits_in_number l : digits l -> Forall (fun c => in_number c = true) l.
Proof. intros H. apply (Forall_impl _ _ _ H). unfold in_number. by intros c ->. Qed.

Lemma sign_in_number s neg : sign s neg -> Forall (fun c => in_number c = true) s.
Proof. intros []; repeat constructor. Qed.

Lemma float_in_number ip f fp x e : digits (ip ++ fp) -> fraction f fp -> exponent x e ->
  Forall (fun c => in_number c = true) (ip ++ f ++ x).
Proof.
  intros [Hip Hfp]%Forall_app Hf Hx. rewrite !Forall_app. split_and!; [by apply digits_in_number|..].
  - destruct Hf; [done|]. constructor; [done|]. by apply digits_in_number.
  - destruct Hx as [|c s neg ds n Hc Hs _ Hd]; [done|]. constructor; [by destruct Hc; subst|].
    apply Forall_app. split; [by eapply sign_in_number|]. by apply digits_in_number, (decimal_value ds n).
Qed.

Lemma float_no_sign ip f fp x : digits (ip ++ fp) -> fraction f fp -> ip ++ fp <> [] ->
  stop_at is_sign (ip ++ f ++ x).
Proof.
  intros [Hip _]%Forall_app Hf Hne. destruct ip as [|c ip]; [|by apply digits_no_sign]. destruct Hf; done.
Qed.

Lemma number_lex_text v e l : number v e -> delim l -> number_lex (e ++ l) = Ok (v, length e).
Proof.
  assert (Hint : forall s neg ds m v, sign s neg -> ds <> [] -> decimal ds m -> delim l ->
    literal_value (s ++ ds) = Ok v -> number_lex ((s ++ ds) ++ l) = Ok (v, length (s ++ ds))).
  { intros s neg ds m v' Hs Hd (Hds & _)%decimal_value Hl Hv. rewrite <- app_assoc.
    apply number_other with neg; [done..| | |done|done].
    - by apply digits_in_number.
    - rewrite <- (app_nil_r ds). by apply digits_no_sign. }
  intros [s neg ds m n Hs Hd Hm Hn|s neg ds m v' Hs Hd Hm Hbig Hv|s neg x hs m n Hs Hx Hh Hm Hn
    |s neg ip f fp x m e' v' Hs Hf Hx Hfx Hne Hm Hv] Hl.
  - eapply Hint; [done..|]. by rewrite (literal_value_int s neg ds m), (int64_of_value neg m n).
  - eapply Hint; [done..|]. by apply literal_value_big with neg m.
  - destruct (hexadecimal_value hs m Hm) as (Hhs & Hp & _). apply int64_of_value in Hn.
    rewrite <- app_assoc. unfold number_lex. cbn [app]. rewrite (split_sign_app s neg) by done.
    assert ((48 =? 48) && ((x =? 120) || (x =? 88)) = true) as -> by (destruct Hx; subst; done).
    rewrite span_all by (done || (apply delim_stop; [done|by_delim])). cbn [fst].
    rewrite Hp, bool_decide_eq_false_2, Hn by done. do 2 f_equal.
    rewrite !length_app. cbn [length]. rewrite length_app. lia.
  - rewrite <- app_assoc. destruct (decimal_value _ m Hm) as [Hds _].
    pose proof (float_no_sign ip f fp x Hds Hf Hne) as Hg.
    apply number_other with neg; [done| | |done..|].
    + intros E. apply app_eq_nil in E as [-> E]. by rewrite E in Hfx.
    + by eapply float_in_number.
    + by apply literal_value_float with neg fp m e'.
Qed.

(** ** What texts start with *)

Lemma delim_blank w l : blank w -> delim l -> delim (w ++ l).
Proof. intros [|c w' Hc _| |] Hl; cbn; [done| |done..]. unfold is_delim. by rewrite (blank_byte _ Hc). Qed.

Definition is_letter_word (c : Z) : bool := (c =? 110) || (c =? 116) || (c =? 102).
(** The bytes a value starts with. *)
Definition starts_value (c : Z) : bool :=
  is_letter_word c || (c =? 34) || (c =? 39) || (c =? 91) || (c =? 123)
  || (c =? 45) || (c =? 43) || (c =? 46) || is_dec c.

Lemma digits_head ds l : ds <> [] -> digits ds -> exists c l', ds ++ l = c :: l' /\ is_dec c = true.
Proof. intros Hd H. destruct H as [|c ds Hc]; [done|]. by exists c, (ds ++ l). Qed.

Definition starts_number (c : Z) : bool := (c =? 45) || (c =? 43) || (c =? 46) || is_dec c.

Lemma number_head v e : number v e -> exists c e', e = c :: e' /\ starts_number c = true.
Proof.
  assert (Hsign : forall s neg b c b', sign s neg -> b = c :: b' -> starts_number c = true ->
    exists c e', s ++ b = c :: e' /\ starts_number c = true).
  { intros s neg b c b' [] -> Hc; eauto. }
  assert (Hdec : forall c, is_dec c = true -> starts_number c = true).
  { intros c Hc. unfold starts_number. by rewrite Hc, orb_true_r. }
  intros [s neg ds m n Hs Hd Hm _|s neg ds m v' Hs Hd Hm _ _|s neg x hs m n Hs _ _ _ _
    |s neg ip f fp x m e' v' Hs Hf _ _ Hne Hm _].
  1-2: destruct (decimal_value ds m Hm) as [Hds _];
    destruct (digits_head ds [] Hd Hds) as (c & l' & E & Hc); rewrite app_nil_r in E; eauto.
  - eauto.
  - apply decimal_value in Hm as ([Hip _]%Forall_app & _). destruct ip as [|c ip].
    + destruct Hf as [|fp]; [done|]. cbn. by eapply Hsign.
    + apply Forall_cons in Hip as [Hc _]. by eapply Hsign; eauto.
Qed.

Section Grammar.
Variables IsLetter IsDigit : Z -> bool.
(** The tables agree with ASCII below 0x80. *)
Hypothesis IsLetter_ascii : forall c, c < 0x80 -> IsLetter c = ascii_letter c.
Hypothesis IsDigit_ascii : forall c, c < 0x80 -> IsDigit c = is_dec c.
Abbreviation value := (value IsLetter IsDigit).
Abbreviation key := (key IsLetter IsDigit).
Abbreviation text := (text IsLetter IsDigit).
Abbreviation items := (items IsLetter IsDigit).
Abbreviation members := (members IsLetter IsDigit).
Abbreviation member_key := (member_key IsLetter IsDigit).
Abbreviation document := (document IsLetter IsDigit).

Lemma text_head v e : text v e -> exists c e', e = c :: e' /\ starts_value c = true.
Proof.
  intros [| | |s e' Hq|v' e' Hn| |]; try (by eexists _, _).
  - destruct Hq as [q s e'' [-> | ->]]; by eexists _, _.
  - destruct (number_head v' e' Hn) as (c & e'' & -> & Hc). exists c, e''. split; [done|].
    unfold starts_number, starts_value in *. rewrite !orb_true_iff in *. tauto.
Qed.

Lemma starts_value_cases c : starts_value c = true ->
  is_ws c = false /\ c <> 47 /\ c <> 93 /\ c <> 125.
Proof. unfold starts_value, is_letter_word, is_ws, is_dec. intros H. split_and!; lia. Qed.

Lemma text_solid v e l : text v e -> solid (e ++ l).
Proof.
  intros H. destruct (text_head v e H) as (c & e' & -> & Hc). apply starts_value_cases in Hc.
  apply solid_head; tauto.
Qed.

(** ** Keys *)

Lemma starts_ident_test c first : IsLetter c || (c =? 95) || (c =? 36) || (negb first && IsDigit c) = true <->
  starts_ident IsLetter c \/ (first = false /\ IsDigit c = true).
Proof. unfold starts_ident. rewrite !orb_true_iff, andb_true_iff, !Z.eqb_eq, negb_true_iff. tauto. Qed.

(** A rune of the identifier is one round of the loop. *)
Lemma ident_len_rune first c rune l fuel : utf8 c rune ->
  starts_ident IsLetter c \/ (first = false /\ IsDigit c = true) ->
  ident_len IsLetter IsDigit (S fuel) first (rune ++ l)
  = (length rune + ident_len IsLetter IsDigit fuel false l)%nat.
Proof.
  intros Hu Hc%starts_ident_test.
  assert (exists b l', rune ++ l = b :: l') as (b & l' & E) by (destruct Hu; by eexists _, _).
  assert (Hs : ident_len IsLetter IsDigit (S fuel) first (rune ++ l) =
    let '(r, w) := DecodeRune (rune ++ l) in
    if IsLetter r || (r =? 95) || (r =? 36) || (negb first && IsDigit r)
    then (w + ident_len IsLetter IsDigit fuel false (drop w (rune ++ l)))%nat else 0%nat)
    by (cbn [ident_len]; by rewrite E).
  rewrite Hs, (utf8_DecodeRune c), Hc, drop_app_length by done. done.
Qed.

(** No identifier goes on at this byte. *)
Definition ends_ident (c : Z) : Prop := c < 0x80 /\ ~ starts_ident IsLetter c /\ IsDigit c = false.

Lemma ident_len_rest l rest fuel : ident_rest IsLetter IsDigit l -> (length l <= fuel)%nat ->
  (forall c, head rest = Some c -> ends_ident c) ->
  ident_len IsLetter IsDigit fuel false (l ++ rest) = length l.
Proof.
  intros Hl. revert fuel. induction Hl as [|c rune l Hc Hu _ IH]; intros fuel Hf Hr.
  - destruct fuel as [|fuel]; [done|]. cbn [app]. destruct rest as [|c rest]; [done|].
    destruct (Hr c eq_refl) as (Hlt & Hs & Hd). cbn [ident_len DecodeRune].
    destruct (Z.ltb_spec c 128); [|lia].
    destruct (IsLetter c || _ || _ || _) eqn:E; [|done]. apply starts_ident_test in E.
    destruct E as [E|[_ E]]; [done|congruence].
  - assert (1 <= length rune)%nat by (destruct Hu; cbn; lia). rewrite length_app in Hf.
    destruct fuel as [|fuel]; [lia|]. rewrite <- app_assoc, (ident_len_rune false c) by (done || naive_solver).
    rewrite length_app, IH; [done|lia|done].
Qed.

(** What follows a key. *)
Lemma colon_head w l c : blank w -> head (w ++ 58 :: l) = Some c -> ends_ident c.
Proof.
  assert (H : forall c, c ∈ [32; 9; 10; 13; 47; 58] -> ends_ident c).
  { intros c' Hc. rewrite !elem_of_cons, elem_of_nil in Hc. unfold ends_ident, starts_ident.
    rewrite IsLetter_ascii, IsDigit_ascii by lia.
    unfold ascii_letter, is_dec. split_and!; [lia| |lia]. lia. }
  intros [|c' w' Hc _| |]; cbn; intros [= <-]; apply H; set_solver.
Qed.

Lemma reads_key k ke w l : member_key k ke -> blank w ->
  reads key k (ke ++ w ++ 58 :: l) (w ++ 58 :: l).
Proof.
  intros H Hw. unfold key. destruct H as [s e H|c rune n Hc Hu Hn].
  - assert (exists q e', e = q :: e' /\ (q =? 34) || (q =? 39) = true) as (q & e' & -> & Hq)
      by (destruct H as [q s' e' [-> | ->]]; eauto).
    eapply reads_bind; [apply reads_peek|]. rewrite Hq.
    by apply (reads_string s (q :: e')).
  - rewrite <- app_assoc.
    destruct (rune_head IsLetter c rune (n ++ w ++ 58 :: l) IsLetter_ascii Hc Hu) as (b & l' & E & Hb & _).
    assert (reads peek b (rune ++ n ++ w ++ 58 :: l) (rune ++ n ++ w ++ 58 :: l)) as Hp
      by (rewrite E; apply reads_peek).
    eapply reads_bind; [exact Hp|]. rewrite Hb, app_assoc. apply reads_lexeme. rewrite <- app_assoc.
    assert (1 <= length rune)%nat by (destruct Hu; cbn; lia).
    destruct (length (rune ++ n ++ w ++ 58 :: l)) as [|fuel] eqn:Ef; [rewrite length_app in Ef; lia|].
    rewrite (ident_len_rune true c) by (done || by left). rewrite !length_app in Ef.
    rewrite ident_len_rest; [|done|lia|intros c'; by apply colon_head].
    rewrite <- length_app. rewrite (proj2 (Nat.eqb_neq _ _)) by (rewrite length_app; lia).
    by rewrite app_assoc, take_app_length.
Qed.

Lemma key_solid k ke l : member_key k ke -> solid (ke ++ l) /\ exists c l', ke ++ l = c :: l' /\ c <> 125.
Proof.
  intros [s e [q s' e' [-> | ->] _]|c rune n Hc Hu _]; [split; [by apply solid_head|by eexists _, _]..|].
  rewrite <- app_assoc.
  destruct (rune_head IsLetter c rune (n ++ l) IsLetter_ascii Hc Hu) as (b & l' & -> & _ & Hw & Hs & Hb).
  split; [by apply solid_head|by eexists _, _].
Qed.

(** ** Values *)

Lemma HasPrefix_app (p l : bytes) : HasPrefix (p ++ l) p = true.
Proof. unfold HasPrefix. by rewrite take_app_length, bool_decide_eq_true_2. Qed.

Lemma reads_word {A} (p : bytes) (m1 : RM A) (m2 : bytes -> RM A) v l l' :
  reads m1 v (p ++ l) l' -> reads (x ← unread; if HasPrefix x p then m1 else m2 x) v (p ++ l) l'.
Proof.
  intros H. eapply reads_bind; [apply reads_unread|]. by rewrite HasPrefix_app.
Qed.

Lemma reads_bump_ret {A} (p : bytes) (v : A) l : reads (bump (length p);; mret v) v (p ++ l) l.
Proof. eapply reads_bind; [apply reads_bump|apply reads_ret]. Qed.

(** What a container does where an element or its closing bracket may come. *)
Definition next {A} (close : Z) (out : A) (loop : RM A) : RM A :=
  skip;; c ← peek; if c =? close then bump 1;; mret out else loop.

Lemma reads_next_close {A} close (out : A) loop w l : blank w -> solid (close :: l) ->
  reads (next close out loop) out (w ++ close :: l) l.
Proof.
  intros Hw Hs. eapply reads_bind; [by apply reads_skip|].
  eapply reads_bind; [apply reads_peek|]. rewrite Z.eqb_refl. apply (reads_bump_ret [close]).
Qed.

Lemma reads_next_loop {A} close (out v : A) loop w c l l' : blank w -> solid (c :: l) -> c <> close ->
  reads loop v (c :: l) l' -> reads (next close out loop) v (w ++ c :: l) l'.
Proof.
  intros Hw Hs Hc Hl. eapply reads_bind; [by apply reads_skip|].
  eapply reads_bind; [apply reads_peek|]. by destruct (Z.eqb_spec c close).
Qed.

(** After an element: the closing bracket, or a comma and what follows. *)
Definition after {A} (close : Z) (out : A) (loop : RM A) (err : error) : RM A :=
  skip;; c ← peek;
  if c =? 44 then bump 1;; next close out loop
  else if c =? close then bump 1;; mret out else throw err.

Lemma reads_after_close {A} close (out : A) loop err w l : blank w -> solid (close :: l) -> close <> 44 ->
  reads (after close out loop err) out (w ++ close :: l) l.
Proof.
  intros Hw Hs Hc. eapply reads_bind; [by apply reads_skip|].
  eapply reads_bind; [apply reads_peek|]. destruct (Z.eqb_spec close 44); [done|].
  rewrite Z.eqb_refl. apply (reads_bump_ret [close]).
Qed.

Lemma reads_after_comma {A} close (out v : A) loop err w l l' : blank w ->
  reads (next close out loop) v l l' -> reads (after close out loop err) v (w ++ 44 :: l) l'.
Proof.
  intros Hw Hl. eapply reads_bind; [apply reads_skip; [done|by apply solid_head]|].
  eapply reads_bind; [apply reads_peek|]. eapply reads_bind; [apply reads_bump_1|]. exact Hl.
Qed.

Lemma reads_rounds {A} (loop : nat -> RM A) v l l' : reads (loop (S (length l))) v l l' ->
  reads (x ← unread; loop (S (length x))) v l l'.
Proof. intros H. eapply reads_bind; [apply reads_unread|exact H]. Qed.

Definition text_reads v e : Prop := forall fuel rest, (length e <= fuel)%nat -> delim rest ->
  reads (value fuel) v (e ++ rest) rest.
Definition items_read l e : Prop := forall fuel n out rest, (length e <= fuel)%nat -> (length l <= n)%nat ->
  reads (next 93 out (array_loop (value fuel) n out)) (out ++ l) (e ++ rest) rest.
Definition members_read l e : Prop := forall fuel n out rest, (length e <= fuel)%nat -> (length l <= n)%nat ->
  reads (next 125 out (object_loop IsLetter IsDigit (value fuel) n out))
    (fold_left (fun m kv => obj_set kv.1 kv.2 m) l out) (e ++ rest) rest.

(** One round of the array loop, and what the rest must do. *)
Lemma reads_item v e fuel n out w' l l' res : text v e -> text_reads v e -> blank w' -> delim (w' ++ l) ->
  (length e <= fuel)%nat ->
  reads (after 93 (out ++ [v]) (array_loop (value fuel) n (out ++ [v]))
           (ErrMsg "expected ',' or ']' in array")) res (w' ++ l) l' ->
  reads (array_loop (value fuel) (S n) out) res (e ++ w' ++ l) l'.
Proof.
  intros Ht Hv Hw Hd Hf Hr. cbn [array_loop].
  eapply reads_bind; [apply reads_skip_solid; by eapply text_solid|].
  eapply reads_bind; [by apply Hv|]. exact Hr.
Qed.

Lemma reads_member k ke v e fuel n out w1 w2 w' l l' res : member_key k ke -> blank w1 -> blank w2 ->
  text v e -> text_reads v e -> blank w' -> delim (w' ++ l) -> (length e <= fuel)%nat ->
  reads (after 125 (obj_set k v out) (object_loop IsLetter IsDigit (value fuel) n (obj_set k v out))
           (ErrMsg "expected ',' or '}' in object")) res (w' ++ l) l' ->
  reads (object_loop IsLetter IsDigit (value fuel) (S n) out) res
    (ke ++ w1 ++ 58 :: w2 ++ e ++ w' ++ l) l'.
Proof.
  intros Hk H1 H2 Ht Hv Hw Hd Hf Hr. cbn [object_loop].
  eapply reads_bind; [apply reads_skip_solid; by eapply key_solid|].
  eapply reads_bind; [by apply reads_key|].
  eapply reads_bind; [apply reads_skip; [done|by apply solid_head]|].
  eapply reads_bind; [apply reads_peek|]. cbn [Z.eqb Pos.eqb negb].
  eapply reads_bind; [apply reads_bump_1|].
  eapply reads_bind; [apply reads_skip; [done|by eapply text_solid]|].
  eapply reads_bind; [by apply Hv|]. exact Hr.
Qed.

Lemma delim_after w c l : blank w -> is_delim c = true -> delim (w ++ c :: l).
Proof. intros Hw Hc. by apply delim_blank. Qed.

(** The first byte of an element, seen by [next]. *)
Lemma reads_next_item {A} (out res : A) loop w v e l l' : blank w -> text v e ->
  reads loop res (e ++ l) l' -> reads (next 93 out loop) res (w ++ e ++ l) l'.
Proof.
  intros Hw Ht H. pose proof (text_solid v e l Ht) as Hs.
  destruct (text_head v e Ht) as (c & e' & -> & Hc). apply starts_value_cases in Hc.
  apply reads_next_loop; tauto.
Qed.

Lemma reads_next_member {A} (out res : A) loop w k ke l l' : blank w -> member_key k ke ->
  reads loop res (ke ++ l) l' -> reads (next 125 out loop) res (w ++ ke ++ l) l'.
Proof.
  intros Hw Hk H. destruct (key_solid k ke l Hk) as (Hs & c & l2 & E & Hc). rewrite E in *.
  by apply reads_next_loop.
Qed.

Lemma reads_unread_bind {A} (f : bytes -> RM A) v l l' : reads (f l) v l l' -> reads (unread ≫= f) v l l'.
Proof. apply reads_bind, reads_unread. Qed.

Lemma text_word_reads v (p : string) : v = JNull /\ p = "null"%string \/ v = JBool true /\ p = "true"%string
  \/ v = JBool false /\ p = "false"%string -> text_reads v (str p).
Proof.
  intros H [|fuel] rest Hf Hd; destruct H as [[-> ->]|[[-> ->]|[-> ->]]]; try (by cbn in Hf; lia);
    cbn [Json5.value]; apply reads_unread_bind.
  - apply (reads_bind null _ tt _ _ rest); [|apply reads_ret]. unfold null.
    apply reads_word. apply (reads_bump (str "null")).
  - apply (reads_fmap JBool). unfold bool_. apply reads_word, (reads_bump_ret (str "true")).
  - apply (reads_fmap JBool). unfold bool_. apply reads_unread_bind.
    change (HasPrefix (str "false" ++ rest) (str "true")) with false.
    rewrite HasPrefix_app. apply (reads_bump_ret (str "false")).
Qed.

Lemma text_string_reads s e : quoted s e -> text_reads (JString s) e.
Proof.
  intros Hq [|fuel] rest Hf Hd; [destruct Hq; cbn in Hf; lia|].
  pose proof (reads_fmap JString _ _ _ _ (reads_string s e rest Hq)) as Hs.
  cbn [Json5.value]. apply reads_unread_bind. destruct Hq as [q s e [-> | ->] _]; exact Hs.
Qed.

Lemma text_number_reads v e : number v e -> text_reads v e.
Proof.
  intros Hn [|fuel] rest Hf Hd; destruct (number_head v e Hn) as (c & e' & He & Hc).
  { rewrite He in Hf. cbn in Hf. lia. }
  cbn [Json5.value]. apply reads_unread_bind. rewrite He at 1. cbn [app].
  change (chr "t") with 116; change (chr "f") with 102; change (chr "n") with 110.
  unfold starts_number in Hc.
  assert ((c =? 123) = false /\ (c =? 91) = false /\ (c =? 34) || (c =? 39) = false /\
    (c =? 116) || (c =? 102) = false /\ (c =? 110) = false /\ (c =? 45) || (c =? 43) || (c =? 46) || is_dec c = true)
    as (-> & -> & -> & -> & -> & ->) by (unfold is_dec in *; split_and!; lia).
  by apply (reads_lexeme number_lex), number_lex_text.
Qed.

(** ** Containers: their loops have enough rounds *)

Lemma items_count l e rest : items l e -> (length l + skip_len (e ++ rest) <= length e)%nat.
Proof.
  induction 1 as [w Hw|w v e w' Hw Ht Hw'|w v e w' l t Hw Ht Hw' _ IH];
    rewrite <- app_assoc, skip_blank, !length_app by done.
  - cbn. lia.
  - rewrite <- app_assoc. rewrite (text_solid _ _ _ Ht).
    destruct (text_head v e Ht) as (c & e' & -> & _). cbn. lia.
  - rewrite <- app_assoc. rewrite (text_solid _ _ _ Ht).
    destruct (text_head v e Ht) as (c & e' & -> & _). cbn. lia.
Qed.

Lemma members_count l e rest : members l e -> (length l + skip_len (e ++ rest) <= length e)%nat.
Proof.
  induction 1 as [w Hw|w k ke w1 w2 v e w' Hw Hk _ _ _ _|w k ke w1 w2 v e w' l t Hw Hk _ _ _ _ _ IH];
    rewrite <- app_assoc, skip_blank, !length_app by done.
  - cbn. lia.
  - rewrite <- app_assoc. rewrite (proj1 (key_solid _ _ _ Hk)).
    destruct (key_solid k ke [] Hk) as (_ & c & l' & E & _). rewrite app_nil_r in E. subst ke.
    cbn [length app]. rewrite !length_app. cbn. lia.
  - rewrite <- app_assoc. rewrite (proj1 (key_solid _ _ _ Hk)).
    destruct (key_solid k ke [] Hk) as (_ & c & l' & E & _). rewrite app_nil_r in E. subst ke.
    repeat (cbn [length app]; rewrite ?length_app). lia.
Qed.

Lemma reads_container {A} open close (out v : A) (loop : nat -> RM A) k l l' :
  (forall n, (k <= n)%nat -> reads (next close out (loop n)) v l l') ->
  (k + skip_len l <= length l)%nat ->
  reads (bump 1;; skip;; c ← peek; if c =? close then bump 1;; mret out
         else x ← unread; loop (S (length x))) v (open :: l) l'.
Proof.
  intros H Hk. eapply reads_bind; [apply reads_bump_1|]. intros r Hr.
  set (r1 := advance r (skip_len l)).
  assert (Hs : skip r = Ok (tt, r1)) by (unfold skip; by rewrite Hr).
  assert (H1 : Reader_Bytes r1 = drop (skip_len l) l) by (unfold r1; by rewrite Reader_Bytes_advance, Hr).
  specialize (H (S (length (drop (skip_len l) l)))). rewrite length_drop in H.
  destruct (H ltac:(lia) r Hr) as (r' & E & Hr'). exists r'. split; [|done]. clear H.
  unfold next in E. rewrite (stm_bind_step _ _ _ _ _ Hs) in E.
  rewrite (stm_bind_step _ _ _ _ _ Hs).
  unfold peek in *. unfold mbind, stm_bind in *. destruct (_ =? close); [done|].
  unfold unread. by rewrite H1, length_drop.
Qed.

Lemma text_array_reads l e : items l e -> items_read l e -> text_reads (JArray l) (91 :: e).
Proof.
  intros Ht Hl [|fuel] rest Hf Hd; [cbn in Hf; lia|]. cbn [length] in Hf.
  cbn [Json5.value app]. apply reads_unread_bind. cbn [Z.eqb Pos.eqb]. apply (reads_fmap JArray).
  apply (reads_container 91 93 [] l (fun n => array_loop (value fuel) n []) (length l)).
  - intros n Hn. apply (Hl fuel n [] rest); lia.
  - pose proof (items_count l e rest Ht). rewrite length_app. lia.
Qed.

Lemma text_object_reads l m e : members l e -> members_read l e -> assigned l m ->
  text_reads (JObject m) (123 :: e).
Proof.
  intros Ht Hl <-%assigned_value [|fuel] rest Hf Hd; [cbn in Hf; lia|]. cbn [length] in Hf.
  cbn [Json5.value app]. apply reads_unread_bind. cbn [Z.eqb Pos.eqb]. apply (reads_fmap JObject).
  apply (reads_container 123 125 [] _ (fun n => object_loop IsLetter IsDigit (value fuel) n []) (length l)).
  - intros n Hn. apply (Hl fuel n [] rest); lia.
  - pose proof (members_count l e rest Ht). rewrite length_app. lia.
Qed.

Lemma reads_texts : (forall v e, text v e -> text_reads v e) /\
  (forall l e, items l e -> items_read l e) /\ (forall l e, members l e -> members_read l e).
Proof.
  apply (text_items_members _ _ (fun v e _ => text_reads v e) (fun l e _ => items_read l e)
    (fun l e _ => members_read l e)).
  - apply text_word_reads. auto.
  - apply text_word_reads. auto.
  - apply text_word_reads. auto.
  - apply text_string_reads.
  - apply text_number_reads.
  - apply text_array_reads.
  - intros l m e Ht Hl. by apply text_object_reads.
  - intros w Hw fuel n out rest _ _. rewrite app_nil_r, <- app_assoc. cbn [app].
    apply reads_next_close; [done|by apply solid_head].
  - intros w v e w' Hw Ht Hv Hw' fuel n out rest Hf Hn. rewrite !length_app in *. cbn [length] in *.
    destruct n as [|n]; [lia|]. rewrite <- !app_assoc. cbn [app].
    apply reads_next_item with v; [done..|].
    apply reads_item with v; [done..|by apply delim_after|lia|].
    apply reads_after_close; [done|by apply solid_head|done].
  - intros w v e w' l t Hw Ht Hv Hw' _ IH fuel n out rest Hf Hn. rewrite !length_app in *. cbn [length] in *.
    destruct n as [|n]; [lia|]. rewrite <- !app_assoc. cbn [app].
    apply reads_next_item with v; [done..|].
    apply reads_item with v; [done..|by apply delim_after|lia|].
    apply reads_after_comma; [done|].
    specialize (IH fuel n (out ++ [v]) rest ltac:(lia) ltac:(lia)). by rewrite <- app_assoc in IH.
  - intros w Hw fuel n out rest _ _. rewrite <- app_assoc. cbn [app].
    apply reads_next_close; [done|by apply solid_head].
  - intros w k ke w1 w2 v e w' Hw Hk H1 H2 Ht Hv Hw' fuel n out rest Hf Hn.
    rewrite ?length_app in *. cbn [length] in *. rewrite ?length_app in *. cbn [length] in *.
    destruct n as [|n]; [lia|]. rewrite <- !app_assoc. cbn [app]. rewrite <- !app_assoc. cbn [app].
    apply reads_next_member with k; [done..|].
    apply reads_member with k v; [done..|by apply delim_after|lia|].
    apply reads_after_close; [done|by apply solid_head|done].
  - intros w k ke w1 w2 v e w' l t Hw Hk H1 H2 Ht Hv Hw' _ IH fuel n out rest Hf Hn.
    rewrite ?length_app in *. cbn [length] in *. rewrite ?length_app in *. cbn [length] in *.
    destruct n as [|n]; [lia|]. rewrite <- !app_assoc. cbn [app]. rewrite <- !app_assoc. cbn [app].
    apply reads_next_member with k; [done..|].
    apply reads_member with k v; [done..|by apply delim_after|lia|].
    apply reads_after_comma; [done|]. apply IH; lia.
Qed.

Lemma delim_tail w : tail_text w -> delim w.
Proof.
  intros [w' H|w' t H _]; [rewrite <- (app_nil_r w')|]; by apply delim_blank.
Qed.

Lemma parse_document v s : document v s -> parseJSON5 IsLetter IsDigit s = Ok v.
Proof.
  intros [w v' e w' Hw Hv Hw']. unfold parseJSON5.
  assert (Hd : drop (skip_len w') w' = []) by (rewrite skip_tail by done; apply drop_all).
  assert (H : reads (skip;; x ← value (S (length (w ++ e ++ w'))); skip;; l ← unread; mret (x, l))
    (v', []) (w ++ e ++ w') []).
  { eapply reads_bind; [apply reads_skip; [done|by eapply text_solid]|].
    eapply reads_bind; [apply reads_texts; [done| |by apply delim_tail]|].
    - rewrite !length_app. lia.
    - eapply reads_bind.
      + apply reads_advance with (skip_len w'); [|exact Hd]. intros r Hr. unfold skip. by rewrite Hr.
      + eapply reads_bind; [apply reads_unread|apply reads_ret]. }
  destruct (H (NewReader (w ++ e ++ w')) (Reader_Bytes_NewReader _)) as (r' & -> & _). done.
Qed.
End Grammar.


(** The grammar is unambiguous. *)
Lemma document_unique v v' s :
  document ascii_letter is_dec v s -> document ascii_letter is_dec v' s -> v = v'.
Proof.
  intros H%(parse_document ascii_letter is_dec) H'%(parse_document ascii_letter is_dec); [congruence|done..].
Qed.

(** What JSON5 reads as one character each: U+00E9 and U+1F600. *)
Example escapes_not_of_json5 :
  ascii_parse "'\xe9'" = Ok (JString [0xE9]) /\
  ascii_parse "'\u00e9'" = Ok (JString [0xC3; 0xA9]) /\
  ascii_parse "'\ud83d\ude00'" = Ok (JString [0xEF; 0xBF; 0xBD; 0xEF; 0xBF; 0xBD]).
Proof. by vm_compute. Qed.

Lemma numeral_step base tables ds n table c d m : numeral base tables ds n -> table ∈ tables ->
  table !! d = Some c -> m = base * n + Z.of_nat d -> numeral base tables (ds ++ [c]) m.
Proof. intros H1 H2 H3 ->. by apply numeral_snoc with table. Qed.

(** [{a: [-1, 'x\n\u00e9',], /* b */ "c": 0x1F} // end] *)
Definition sample_document : bytes := str "{a: [-1, 'x\n\u00e9',], /* b */ 'c': 0x1F} // end".
Definition sample_value : json :=
  JObject [(str "a", JArray [JInt (-1); JString [120; 10; 195; 169]]); (str "c", JInt 31)].

Lemma sample_document_ok : document ascii_letter is_dec sample_value sample_document.
Proof.
  apply (document_intro _ _ [] _ (str "{a: [-1, 'x\n\u00e9',], /* b */ 'c': 0x1F}") (str " // end"));
    [constructor| |apply (tail_line [32] (str " end")); [by repeat constructor|by repeat constructor]].
  apply (text_object _ _ [(str "a", JArray [JInt (-1); JString [120; 10; 195; 169]]); (str "c", JInt 31)]).
  2: { apply (assigned_new [(str "a", _)] [(str "a", _)]);
         [apply (assigned_new [] []); [constructor|set_solver]|by apply (bool_decide_unpack _); vm_compute]. }
  apply (members_more _ _ [] _ (str "a") [] [32] _ (str "[-1, 'x\n\u00e9',]") [] _ (str " /* b */ 'c': 0x1F}"));
    [constructor| |constructor|by repeat constructor| |constructor|].
  - apply (key_ident _ _ 97 [97] []); [by left|by apply (utf8_1 97)|constructor].
  - apply text_array. apply (items_more _ _ [] _ (str "-1") [] _ (str " 'x\n\u00e9',]"));
      [constructor| |constructor|].
    + apply text_number. apply (number_int [45] true [49] 1 (-1)); [constructor|done| |by apply (int64_neg 1)].
      apply (numeral_step _ _ [] 0 (str "0123456789") 49 1); [constructor|by left|done|done].
    + apply (items_more _ _ [32] _ (str "'x\n\u00e9'") [] _ (str "]"));
        [by repeat constructor| |constructor|apply (items_end _ _ []); constructor].
      apply text_string. apply (quoted_intro 39 _ (str "x\n\u00e9")); [auto|].
      apply chars_plain; [done..|]. apply (chars_escape 39 110 [10] [195; 169]); [constructor|].
      apply (chars_unicode 39 48 48 101 57 233 [195; 169] []); [|by apply (utf8_2 3 41)|constructor].
      apply (numeral_step _ _ [48; 48; 101] 14 (str "0123456789abcdef") 57 9); [|by left|done|done].
      apply (numeral_step _ _ [48; 48] 0 (str "0123456789abcdef") 101 14); [|by left|done|done].
      apply (numeral_step _ _ [48] 0 (str "0123456789abcdef") 48 0); [|by left|done|done].
      apply (numeral_step _ _ [] 0 (str "0123456789abcdef") 48 0); [constructor|by left|done|done].
  - apply (members_last _ _ (str " /* b */ ") _ (str "'c'") [] [32] _ (str "0x1F") []);
      [|constructor; apply (quoted_intro 39 (str "c") (str "c")); [auto|by apply chars_plain; [..|constructor]]
       |constructor|by repeat constructor| |constructor].
    + apply blank_ws; [by left|]. apply (blank_block (str " b ") [32]); [done|by repeat constructor].
    + apply text_number. apply (number_hex [] false 120 (str "1F") 31);
        [constructor|by left|done| |by apply (int64_pos 31)].
      apply (numeral_step _ _ [49] 1 (str "0123456789ABCDEF") 70 15); [|by right; left|done|done].
      apply (numeral_step _ _ [] 0 (str "0123456789ABCDEF") 49 1); [constructor|by right; left|done|done].
Qed.

