(* ===== verification/Config.v ===== *)
(** * zenoh/config.go: configuration documents

    The handler trees [connectHandlers], [listenHandlers] and
    [scoutingHandlers], the walker over them, [NewConfigFromString] and
    [InsertJSON5].  A handler runs in [sem Config]: what it stored before an
    error stays.  The list of a [JObject] is the order in which the walker
    meets the keys of the Go map; [shuffle] is the order Go chooses. *)
From S2P Require Import Prelude KeyExpr Json5 Reconnect.
From Stdlib Require Import SpecFloat.
From stdpp Require Import pretty.
#[local] Open Scope Z_scope.

(** ** The data *)

Inductive SessionMode := ModeClient | ModePeer | ModeRouter | ModeOther (n : Z).
Inductive MulticastMode := MulticastAuto | MulticastOff.

Definition SessionMode_String (m : SessionMode) : bytes :=
  match m with
  | ModeClient => str "client"
  | ModePeer => str "peer"
  | ModeRouter => str "router"
  | ModeOther n => str ("unknown(" +:+ pretty n +:+ ")")
  end.

Definition WhatAmIRouter : Z := 0.
Definition WhatAmIPeer : Z := 1.
Definition WhatAmIClient : Z := 2.

Definition AsWhatAmI (m : SessionMode) : Z :=
  match m with ModePeer => WhatAmIPeer | ModeRouter => WhatAmIRouter | _ => WhatAmIClient end.

Definition WhatRouter : Z := Z.shiftl 1 WhatAmIRouter.
Definition WhatPeer : Z := Z.shiftl 1 WhatAmIPeer.
Definition WhatClient : Z := Z.shiftl 1 WhatAmIClient.

Record ScoutingConfig := mkScouting {
  sc_MulticastMode : MulticastMode; sc_MulticastAddress : bytes; sc_MulticastInterface : bytes;
  sc_MulticastTTL : Z; sc_MulticastListen : bool; sc_Timeout : Z }.

Record Config := mkConfig {
  Mode : SessionMode; Endpoints : list bytes; ListenEndpoints : list bytes; cfg_ZID : bytes;
  ReconnectInitial : Z; ReconnectMax : Z; ReconnectFactor : spec_float;
  Scouting : ScoutingConfig; AutoconnectMask : Z }.

Definition NewConfig : Config :=
  mkConfig ModeClient [] [] [] 0 0 (S754_zero false)
    (mkScouting MulticastAuto [] [] 0 false 0) 0.

(** Assignments to a field. *)
Definition set_Mode x c := mkConfig x (Endpoints c) (ListenEndpoints c) (cfg_ZID c)
  (ReconnectInitial c) (ReconnectMax c) (ReconnectFactor c) (Scouting c) (AutoconnectMask c).
Definition set_Endpoints x c := mkConfig (Mode c) x (ListenEndpoints c) (cfg_ZID c)
  (ReconnectInitial c) (ReconnectMax c) (ReconnectFactor c) (Scouting c) (AutoconnectMask c).
Definition set_ListenEndpoints x c := mkConfig (Mode c) (Endpoints c) x (cfg_ZID c)
  (ReconnectInitial c) (ReconnectMax c) (ReconnectFactor c) (Scouting c) (AutoconnectMask c).
Definition set_ZID x c := mkConfig (Mode c) (Endpoints c) (ListenEndpoints c) x
  (ReconnectInitial c) (ReconnectMax c) (ReconnectFactor c) (Scouting c) (AutoconnectMask c).
Definition set_ReconnectInitial x c := mkConfig (Mode c) (Endpoints c) (ListenEndpoints c) (cfg_ZID c)
  x (ReconnectMax c) (ReconnectFactor c) (Scouting c) (AutoconnectMask c).
Definition set_ReconnectMax x c := mkConfig (Mode c) (Endpoints c) (ListenEndpoints c) (cfg_ZID c)
  (ReconnectInitial c) x (ReconnectFactor c) (Scouting c) (AutoconnectMask c).
Definition set_ReconnectFactor x c := mkConfig (Mode c) (Endpoints c) (ListenEndpoints c) (cfg_ZID c)
  (ReconnectInitial c) (ReconnectMax c) x (Scouting c) (AutoconnectMask c).
Definition set_AutoconnectMask x c := mkConfig (Mode c) (Endpoints c) (ListenEndpoints c) (cfg_ZID c)
  (ReconnectInitial c) (ReconnectMax c) (ReconnectFactor c) (Scouting c) x.
Definition on_Scouting (f : ScoutingConfig -> ScoutingConfig) c :=
  mkConfig (Mode c) (Endpoints c) (ListenEndpoints c) (cfg_ZID c)
    (ReconnectInitial c) (ReconnectMax c) (ReconnectFactor c) (f (Scouting c)) (AutoconnectMask c).
Definition set_MulticastMode x := on_Scouting (fun s => mkScouting x (sc_MulticastAddress s)
  (sc_MulticastInterface s) (sc_MulticastTTL s) (sc_MulticastListen s) (sc_Timeout s)).
Definition set_MulticastAddress x := on_Scouting (fun s => mkScouting (sc_MulticastMode s) x
  (sc_MulticastInterface s) (sc_MulticastTTL s) (sc_MulticastListen s) (sc_Timeout s)).
Definition set_MulticastInterface x := on_Scouting (fun s => mkScouting (sc_MulticastMode s)
  (sc_MulticastAddress s) x (sc_MulticastTTL s) (sc_MulticastListen s) (sc_Timeout s)).
Definition set_MulticastTTL x := on_Scouting (fun s => mkScouting (sc_MulticastMode s)
  (sc_MulticastAddress s) (sc_MulticastInterface s) x (sc_MulticastListen s) (sc_Timeout s)).
Definition set_MulticastListen x := on_Scouting (fun s => mkScouting (sc_MulticastMode s)
  (sc_MulticastAddress s) (sc_MulticastInterface s) (sc_MulticastTTL s) x (sc_Timeout s)).
Definition set_Timeout x := on_Scouting (fun s => mkScouting (sc_MulticastMode s)
  (sc_MulticastAddress s) (sc_MulticastInterface s) (sc_MulticastTTL s) (sc_MulticastListen s) x).

Definition WithEndpoint (endpoint : bytes) (c : Config) : Config :=
  set_Endpoints (Endpoints c ++ [endpoint]) c.

(** ** Coercions *)

Definition asString (v : json) : result bytes :=
  match v with JString s => Ok s | _ => Err (ErrMsg "expected string") end.
Definition asBool (v : json) : result bool :=
  match v with JBool b => Ok b | _ => Err (ErrMsg "expected bool") end.

Fixpoint all_strings (l : list json) : result (list bytes) :=
  match l with
  | [] => Ok []
  | JString s :: l => ss ← all_strings l; mret (s :: ss)
  | _ :: _ => Err (ErrMsg "expected string")
  end.
Definition asStringSlice (v : json) : result (list bytes) :=
  match v with JArray l => all_strings l | _ => Err (ErrMsg "expected array") end.

(** [uint64(f)]; [outside] is its value out of range, which Go leaves to the
    implementation. *)
Definition float64_to_uint64 (outside : spec_float -> Z) (f : spec_float) : Z :=
  match f with
  | S754_zero _ => 0
  | S754_finite neg m e =>
      let a := if 0 <=? e then Z.pos m * 2 ^ e else Z.pos m / 2 ^ (- e) in
      let v := if neg then - a else a in
      if (0 <=? v) && (v <? 2 ^ 64) then v else uint64 (outside f)
  | _ => uint64 (outside f)
  end.

Section Coerce.
Variable outside : spec_float -> Z.

Definition asUint (v : json) : result Z :=
  match v with
  | JInt n => if n <? 0 then Err (ErrMsg "expected non-negative integer") else Ok n
  | JFloat f =>
      let n := float64_to_uint64 outside f in
      if SFltb f (S754_zero false) || negb (SFeqb f (Retry.float64 n))
      then Err (ErrMsg "expected non-negative integer") else Ok n
  | _ => Err (ErrMsg "expected number")
  end.
End Coerce.

Definition asFloat (v : json) : result spec_float :=
  match v with
  | JInt n => Ok (Retry.float64 n)
  | JFloat f => Ok f
  | _ => Err (ErrMsg "expected number")
  end.

Definition role_mask (s : bytes) : result Z :=
  if decide (s = str "router") then Ok WhatRouter
  else if decide (s = str "peer") then Ok WhatPeer
  else if decide (s = str "client") then Ok WhatClient
  else Err (ErrMsg "unknown role").

Fixpoint autoconnectFromArray (mask : Z) (l : list json) : result Z :=
  match l with
  | [] => Ok mask
  | JString s :: l => b ← role_mask s; autoconnectFromArray (Z.lor mask b) l
  | _ :: _ => Err (ErrMsg "expected string")
  end.

(** [m[k]] *)
Fixpoint assoc (k : bytes) (m : list (bytes * json)) : option json :=
  match m with
  | [] => None
  | (k', v) :: m => if decide (k' = k) then Some v else assoc k m
  end.

Definition is_role (k : bytes) : bool :=
  bool_decide (k = str "router") || bool_decide (k = str "peer") || bool_decide (k = str "client").

Definition parseAutoconnect (localMode : SessionMode) (v : json) : result Z :=
  match v with
  | JArray l => autoconnectFromArray 0 l
  | JObject m =>
      if forallb is_role m.*1 then
        match assoc (SessionMode_String localMode) m with
        | None => Ok 0
        | Some (JArray l) => autoconnectFromArray 0 l
        | Some _ => Err (ErrMsg "expected array")
        end
      else Err (ErrMsg "unknown role key (want router/peer/client)")
  | _ => Err (ErrMsg "expected array or object")
  end.

(** ** Handlers *)

Definition handler := json -> sem Config unit.

Definition fail (e : error) : sem Config unit := fun c => (Err e, c).
Definition modify (f : Config -> Config) : sem Config unit := fun c => (Ok tt, f c).

(** Coerce, then assign. *)
Definition assign {A} (coerce : json -> result A) (set : A -> Config -> Config) : handler := fun v =>
  match coerce v with Ok a => modify (set a) | Err e => fail e end.

(** Every config key ends in a leaf. *)
Inductive node := Leaf (h : handler) | Subtree (l : list (bytes * node)).

Definition unknownKeyError : error := ErrMsg "unknown config key".
Definition isUnknownKey (e : error) : bool := bool_decide (e = unknownKeyError).

(** [if err := m; err != nil && !isUnknownKey(err) { return err }] *)
Definition ignore_unknown (m : sem Config unit) : sem Config unit := fun c =>
  match m c with
  | (Err e, c) => if isUnknownKey e then (Ok tt, c) else (Err e, c)
  | r => r
  end.

Fixpoint child (k : bytes) (l : list (bytes * node)) : option node :=
  match l with
  | [] => None
  | (k', n) :: l => if decide (k' = k) then Some n else child k l
  end.

(** The descent of [walk] along the path after the bucket's name. *)
Fixpoint navigate (path : list bytes) (n : node) : option node :=
  match path with
  | [] => Some n
  | k :: path =>
      match n with
      | Leaf _ => None
      | Subtree l => match child k l with Some n => navigate path n | None => None end
      end
  end.

Fixpoint walk (tree : node) (path : list bytes) (v : json) {struct v} : sem Config unit :=
  match navigate path tree with
  | None => fail unknownKeyError
  | Some (Leaf h) => h v
  | Some (Subtree _) =>
      match v with
      | JObject m =>
          (fix each (m : list (bytes * json)) : sem Config unit :=
             match m with
             | [] => mret tt
             | (k, val) :: m => ignore_unknown (walk tree (path ++ [k]) val);; each m
             end) m
      | _ => fail (ErrMsg "expected object")
      end
  end.

Section Documents.
Variable outside : spec_float -> Z.
Abbreviation asUint := (asUint outside).

(** [time.Duration(ms) * time.Millisecond] *)
Definition set_ms (set : Z -> Config -> Config) (ms : Z) : Config -> Config :=
  set (Retry.ms_duration ms).

Definition listenHandlers : node :=
  Subtree [(str "endpoints", Leaf (assign asStringSlice set_ListenEndpoints))].

Definition connectHandlers : node :=
  Subtree [
    (str "endpoints", Leaf (assign asStringSlice set_Endpoints));
    (str "retry", Subtree [
      (str "period_init_ms", Leaf (assign asUint (set_ms set_ReconnectInitial)));
      (str "period_max_ms", Leaf (assign asUint (set_ms set_ReconnectMax)));
      (str "period_increase_factor", Leaf (assign asFloat set_ReconnectFactor))])].

Definition scoutingHandlers : node :=
  Subtree [
    (str "timeout", Leaf (assign asUint (set_ms set_Timeout)));
    (str "multicast", Subtree [
      (str "enabled", Leaf (assign asBool
         (fun b => set_MulticastMode (if b : bool then MulticastAuto else MulticastOff))));
      (str "address", Leaf (assign asString set_MulticastAddress));
      (str "interface", Leaf (assign asString
         (fun s => set_MulticastInterface (if decide (s = str "auto") then [] else s))));
      (str "ttl", Leaf (assign asUint (fun n => set_MulticastTTL (int64 n))));
      (str "listen", Leaf (fun v =>
         match v with JBool b => modify (set_MulticastListen b) | _ => mret tt end));
      (str "autoconnect", Leaf (fun v c =>
         assign (parseAutoconnect (Mode c)) set_AutoconnectMask v c))])].

Definition parse_mode (v : json) : result SessionMode :=
  s ← asString v;
  if decide (s = [] \/ s = str "client") then Ok ModeClient
  else if decide (s = str "peer") then Ok ModePeer
  else if decide (s = str "router") then Ok ModeRouter
  else Err (ErrMsg "mode not supported").

Definition leafString (path : list bytes) (h : handler) : handler := fun v =>
  match path with [] => h v | _ => fail unknownKeyError end.

(** [path] is what follows [k], the first segment. *)
Definition applyKey (k : bytes) (path : list bytes) : handler := fun v =>
  if decide (k = str "mode") then leafString path (assign parse_mode set_Mode) v
  else if decide (k = str "id") then leafString path (assign asString set_ZID) v
  else if decide (k = str "connect") then walk connectHandlers path v
  else if decide (k = str "listen") then walk listenHandlers path v
  else if decide (k = str "scouting") then walk scoutingHandlers path v
  else fail unknownKeyError.

Fixpoint apply_rest (root : list (bytes * json)) : sem Config unit :=
  match root with
  | [] => mret tt
  | (k, v) :: root =>
      (if decide (k = str "mode") then mret tt else ignore_unknown (applyKey k [] v));; apply_rest root
  end.

(** [mode] comes first, for [autoconnect]. *)
Definition applyConfig (root : list (bytes * json)) : sem Config unit :=
  match assoc (str "mode") root with Some v => applyKey (str "mode") [] v | None => mret tt end;;
  apply_rest root.

Variables (IsLetter IsDigit : Z -> bool) (shuffle : json -> json).

Definition NewConfigFromString (s : bytes) : result Config :=
  v ← parseJSON5 IsLetter IsDigit s;
  match shuffle v with
  | JObject root =>
      match applyConfig root NewConfig with (Ok _, c) => Ok c | (Err e, _) => Err e end
  | _ => Err (ErrMsg "config root must be a JSON object")
  end.

Definition InsertJSON5 (keyPath jsonValue : bytes) : sem Config unit := fun c =>
  match parseJSON5 IsLetter IsDigit jsonValue with
  | Err e => (Err e, c)
  | Ok v =>
      match SplitSeq keyPath with
      | [] | [] :: _ => (Err (ErrMsg "InsertJSON5: empty key path"), c)
      | k :: path => applyKey k path (shuffle v) c
      end
  end.
End Documents.

(** ** Examples *)

Definition sample_config_text : bytes :=
  str "{scouting: {multicast: {autoconnect: {peer: ['router'], client: []}, ttl: 3}, timeout: 1.5e3}, mode: 'peer', connect: {endpoints: ['tcp/h:1'], retry: {period_init_ms: 500}, other: 1}}".

Definition sample_load := NewConfigFromString (fun _ => 0) ascii_letter is_dec (fun v => v).

Example load_sample :
  sample_load sample_config_text
  = Ok (mkConfig ModePeer [str "tcp/h:1"] [] [] 500000000 0 (S754_zero false)
          (mkScouting MulticastAuto [] [] 3 false 1500000000) 1).
Proof. vm_compute. reflexivity. Qed.

(** A number of milliseconds beyond 2^63 nanoseconds becomes a negative wait. *)
Example load_overflow :
  ReconnectInitial <$> sample_load (str "{connect: {retry: {period_init_ms: 9300000000000}}}")
  = Ok (-9146744073709551616).
Proof. vm_compute. reflexivity. Qed.
