(* ===== verification/ConfigSpec.v ===== *)
(** * What a configuration document means

    [doc_config] reads every field at its path in the document.  The walker of
    [Config] computes it, in whatever order Go visits the keys of the maps. *)
From S2P Require Import Prelude Buffer KeyExpr Json5 Reconnect Config.
From Stdlib Require Import SpecFloat.

(** ** Documents: induction, distinct keys, reordering *)

Section JsonInd.
Variable P : json -> Prop.
Hypothesis H_null : P JNull.
Hypothesis H_bool : forall b, P (JBool b).
Hypothesis H_int : forall n, P (JInt n).
Hypothesis H_float : forall f, P (JFloat f).
Hypothesis H_string : forall s, P (JString s).
Hypothesis H_array : forall l, Forall P l -> P (JArray l).
Hypothesis H_object : forall m, Forall (fun kv => P kv.2) m -> P (JObject m).

Fixpoint json_ind' (v : json) : P v :=
  match v with
  | JNull => H_null
  | JBool b => H_bool b
  | JInt n => H_int n
  | JFloat f => H_float f
  | JString s => H_string s
  | JArray l => H_array l ((fix go l := match l return Forall P l with
      | [] => Forall_nil_2 P | v :: l => Forall_cons_2 P v l (json_ind' v) (go l) end) l)
  | JObject m => H_object m ((fix go m := match m return Forall (fun kv => P kv.2) m with
      | [] => Forall_nil_2 _ | kv :: m => Forall_cons_2 _ kv m (json_ind' kv.2) (go m) end) m)
  end.
End JsonInd.

(** The keys of every object are distinct, as in a Go map. *)
Fixpoint json_ok (v : json) : Prop :=
  match v with
  | JArray l => (fix go l := match l with [] => True | v :: l => json_ok v /\ go l end) l
  | JObject m => NoDup m.*1 /\
      (fix go m := match m with [] => True | kv :: m => json_ok kv.2 /\ go m end) m
  | _ => True
  end.

Lemma json_ok_array l : json_ok (JArray l) <-> Forall json_ok l.
Proof. cbn. induction l as [|v l IH]; [done|]. by rewrite Forall_cons, <- IH. Qed.

Lemma json_ok_object m : json_ok (JObject m) <-> NoDup m.*1 /\ Forall (fun kv => json_ok kv.2) m.
Proof.
  cbn. apply and_iff_compat_l. induction m as [|v m IH]; [done|]. by rewrite Forall_cons, <- IH.
Qed.

Lemma json_ok_cons k v m : json_ok (JObject ((k, v) :: m)) <->
  (k ∉ m.*1) /\ json_ok v /\ json_ok (JObject m).
Proof.
  rewrite !json_ok_object, fmap_cons, NoDup_cons, Forall_cons. cbn. tauto.
Qed.

(** The same document with the keys of its objects in another order. *)
Inductive reorder : json -> json -> Prop :=
  | reorder_scalar v : match v with JArray _ | JObject _ => False | _ => True end -> reorder v v
  | reorder_array l l' : Forall2 reorder l l' -> reorder (JArray l) (JArray l')
  | reorder_object m m1 m' : Forall2 (fun a b => a.1 = b.1 /\ reorder a.2 b.2) m m1 ->
      m1 ≡ₚ m' -> reorder (JObject m) (JObject m').

(** ** The meaning of a document *)

Definition opt {A} (r : result A) : option A := match r with Ok a => Some a | Err _ => None end.

(** The value at a key, with a default when it is absent. *)
Definition get {A} (k : string) (coerce : json -> option A) (default : A) (m : list (bytes * json))
    : option A :=
  match assoc (str k) m with None => Some default | Some v => coerce v end.

Definition as_object (v : json) : option (list (bytes * json)) :=
  match v with JObject m => Some m | _ => None end.

Section Meaning.
Variable outside : spec_float -> Z.

Definition as_ms (v : json) : option Z := Retry.ms_duration <$> opt (asUint outside v).

(** [scouting/multicast/listen]: every value that is no boolean is passed over
    and leaves the default, so that this key alone never makes a document
    fail. *)
Definition as_listen (v : json) : option bool :=
  match v with JBool b => Some b | _ => Some false end.

Definition doc_config (root : list (bytes * json)) : option Config :=
  mode ← get "mode" (fun v => opt (parse_mode v)) ModeClient root;
  zid ← get "id" (fun v => opt (asString v)) [] root;
  connect ← get "connect" as_object [] root;
  endpoints ← get "endpoints" (fun v => opt (asStringSlice v)) [] connect;
  retry ← get "retry" as_object [] connect;
  initial ← get "period_init_ms" as_ms 0 retry;
  maximum ← get "period_max_ms" as_ms 0 retry;
  factor ← get "period_increase_factor" (fun v => opt (asFloat v)) (S754_zero false) retry;
  listen ← get "listen" as_object [] root;
  listen_endpoints ← get "endpoints" (fun v => opt (asStringSlice v)) [] listen;
  scouting ← get "scouting" as_object [] root;
  timeout ← get "timeout" as_ms 0 scouting;
  multicast ← get "multicast" as_object [] scouting;
  enabled ← get "enabled" (fun v => opt (asBool v)) true multicast;
  address ← get "address" (fun v => opt (asString v)) [] multicast;
  interface ← get "interface" (fun v => opt (asString v)) [] multicast;
  ttl ← get "ttl" (fun v => int64 <$> opt (asUint outside v)) 0 multicast;
  multicast_listen ← get "listen" as_listen false multicast;
  mask ← get "autoconnect" (fun v => opt (parseAutoconnect mode v)) 0 multicast;
  Some (mkConfig mode endpoints listen_endpoints zid initial maximum factor
    (mkScouting (if enabled : bool then MulticastAuto else MulticastOff) address
       (if decide (interface = str "auto") then [] else interface) ttl multicast_listen timeout)
    mask).

Definition document_config (v : json) : option Config := root ← as_object v; doc_config root.
End Meaning.

(** ** Successful runs *)

Definition run (m : sem Config unit) (c : Config) : option Config :=
  match m c with (Ok _, c) => Some c | (Err _, _) => None end.

Lemma run_bind m m' c : run (m;; m') c = run m c ≫= run m'.
Proof. unfold run, mbind, sem_bind. by destruct (m c) as [[[]|e] c']. Qed.

Definition never_unknown (m : sem Config unit) : Prop := forall c, (m c).1 <> Err unknownKeyError.

Lemma ignore_unknown_run m c : never_unknown m -> run (ignore_unknown m) c = run m c.
Proof.
  intros H. specialize (H c). unfold run, ignore_unknown, isUnknownKey.
  destruct (m c) as [[u|e] c']; [done|]. cbn in H. rewrite bool_decide_eq_false_2; [done|congruence].
Qed.

Lemma ignore_unknown_never m : never_unknown (ignore_unknown m).
Proof.
  intros c. unfold ignore_unknown, isUnknownKey. destruct (m c) as [[u|e] c']; [done|].
  case_bool_decide; [done|]. cbn. congruence.
Qed.

Lemma never_unknown_bind m m' : never_unknown m -> never_unknown m' -> never_unknown (m;; m').
Proof.
  intros H H' c. specialize (H c). unfold mbind, sem_bind. destruct (m c) as [[u|e] c']; [apply H'|done].
Qed.

(** ** Handler trees as functions of the document *)

Abbreviation action := (Config -> option Config).
Definition commute (a b : action) : Prop := forall c, (a c ≫= b) = (b c ≫= a).

(** The handlers run in the order of the tree. *)
Fixpoint sem_node (n : node) (v : json) : action :=
  match n with
  | Leaf h => run (h v)
  | Subtree l =>
      match v with
      | JObject m =>
          (fix go l : action := match l with
             | [] => Some
             | (k, n) :: l => fun c =>
                 match assoc k m with None => Some c | Some v => sem_node n v c end ≫= go l
             end) l
      | _ => fun _ => None
      end
  end.

Definition on_key (k : bytes) (n : node) (m : list (bytes * json)) : action := fun c =>
  match assoc k m with None => Some c | Some v => sem_node n v c end.
Fixpoint sem_keys (l : list (bytes * node)) (m : list (bytes * json)) : action :=
  match l with [] => Some | (k, n) :: l => fun c => on_key k n m c ≫= sem_keys l m end.

Lemma sem_subtree l m c : sem_node (Subtree l) (JObject m) c = sem_keys l m c.
Proof.
  cbn. revert c. induction l as [|[k n] l IH]; intros c; [done|]. cbn. unfold on_key.
  destruct (match assoc k m with Some _ => _ | None => _ end) as [c'|]; [apply IH|done].
Qed.

(** The handlers run in the order of the document. *)
Fixpoint sem_doc (l : list (bytes * node)) (m : list (bytes * json)) : action :=
  match m with
  | [] => Some
  | (k, v) :: m => fun c =>
      match child k l with None => Some c | Some n => sem_node n v c end ≫= sem_doc l m
  end.

(** Siblings have distinct keys and commute, leaves know their key. *)
Inductive good : node -> Prop :=
  | good_leaf h : (forall v, never_unknown (h v)) -> good (Leaf h)
  | good_subtree l : good_keys l -> good (Subtree l)
with good_keys : list (bytes * node) -> Prop :=
  | good_nil : good_keys []
  | good_cons k n l : child k l = None -> good n -> good_keys l ->
      Forall (fun kn => forall v v', commute (sem_node n v) (sem_node kn.2 v')) l ->
      good_keys ((k, n) :: l).

Lemma assoc_None k m : assoc k m = None <-> k ∉ m.*1.
Proof.
  induction m as [|[k' v] m IH]; cbn; [by split; [intros _ ?%not_elem_of_nil|]|].
  rewrite not_elem_of_cons. destruct (decide (k' = k)) as [->|Hk]; [naive_solver|].
  rewrite IH. naive_solver.
Qed.

Lemma good_child l k n : good_keys l -> child k l = Some n -> good n.
Proof.
  induction 1 as [|k' n' l _ Hn _ IH _]; [done|]. cbn. destruct (decide (k' = k)); [|done].
  by intros [= <-].
Qed.

Lemma child_Forall P l k n : Forall (fun kn => P kn.2) l -> child k l = Some n -> P n.
Proof.
  induction 1 as [|[k' n'] l Hn _ IH]; [done|]. cbn. destruct (decide (k' = k)); [|done].
  by intros [= <-].
Qed.

Lemma commute_bind a b b' : commute a b -> commute a b' -> commute a (fun c => b c ≫= b').
Proof.
  intros H H' c. specialize (H c). destruct (a c) as [c1|] eqn:Ea; cbn in *.
  - rewrite H. destruct (b c) as [c2|] eqn:Eb; cbn in *; [|done].
    rewrite <- H'. by rewrite <- H.
  - destruct (b c) as [c2|]; [|done]. cbn in *. rewrite <- H'. by rewrite <- H.
Qed.
Lemma commute_Some a : commute a Some.
Proof. intros c. cbn. by destruct (a c). Qed.
Lemma commute_None a : commute a (fun _ => None).
Proof. intros c. cbn. by destruct (a c). Qed.
Lemma commute_sym a b : commute a b -> commute b a.
Proof. intros H c. by rewrite H. Qed.

(** ** The order of the keys does not matter *)

Lemma commute_on_key a k n m : (forall v, commute a (sem_node n v)) -> commute a (on_key k n m).
Proof. intros H c. unfold on_key. destruct (assoc k m); [apply H|apply commute_Some]. Qed.

Lemma sem_keys_other l k v m c : child k l = None -> sem_keys l ((k, v) :: m) c = sem_keys l m c.
Proof.
  revert c. induction l as [|[k' n] l IH]; intros c; [done|]. cbn.
  destruct (decide (k' = k)) as [|Hk]; [done|]. intros Hc. unfold on_key. cbn.
  destruct (decide (k = k')); [congruence|].
  destruct (match assoc k' m with Some _ => _ | None => _ end); [by apply IH|done].
Qed.

(** The first key of the document may be handled first. *)
Lemma sem_keys_first l k v m c : good_keys l -> k ∉ m.*1 ->
  sem_keys l ((k, v) :: m) c
  = match child k l with None => Some c | Some n => sem_node n v c end ≫= sem_keys l m.
Proof.
  intros Hl Hk. revert c. induction Hl as [|k' n0 l Hkl Hn Hl IH Hcom]; intros c; [done|].
  cbn [child]. destruct (decide (k' = k)) as [->|Hkk].
  - cbn [sem_keys]. unfold on_key at 1. cbn [assoc]. destruct (decide (k = k)); [|done].
    destruct (sem_node n0 v c) as [c'|]; [|done]. cbn. rewrite sem_keys_other by done.
    unfold on_key. by rewrite (proj2 (assoc_None k m)).
  - cbn [sem_keys]. assert (E : on_key k' n0 ((k, v) :: m) = on_key k' n0 m).
    { unfold on_key. cbn. by destruct (decide (k = k')); [congruence|]. }
    rewrite E. destruct (child k l) as [n'|] eqn:Ec.
    + assert (Hc : commute (sem_node n' v) (on_key k' n0 m)).
      { apply commute_on_key. intros v'. apply commute_sym.
        by apply (child_Forall (fun n' => forall v v', commute (sem_node n0 v) (sem_node n' v')) l k n'). }
      specialize (Hc c). destruct (on_key k' n0 m c) as [c1|]; cbn in *.
      * rewrite IH. destruct (sem_node n' v c) as [c2|]; cbn in *; [by rewrite Hc|by rewrite <- Hc].
      * destruct (sem_node n' v c) as [c2|]; cbn in *; [by rewrite Hc|done].
    + cbn. destruct (on_key k' n0 m c) as [c1|]; [|done]. cbn. apply IH.
Qed.

Lemma sem_doc_keys l m c : good_keys l -> NoDup m.*1 -> sem_doc l m c = sem_keys l m c.
Proof.
  intros Hl. revert c. induction m as [|[k v] m IH]; intros c; cbn [fmap list_fmap].
  - intros _. clear Hl. revert c. induction l as [|[k n] l IH]; intros c; [done|]. cbn. apply IH.
  - intros [Hk Hm]%NoDup_cons. rewrite sem_keys_first by done. cbn [sem_doc].
    destruct (match child k l with Some _ => _ | None => _ end); [by apply IH|done].
Qed.

(** ** The walker *)

Lemma navigate_app p k n : navigate (p ++ [k]) n =
  match navigate p n with Some (Subtree l) => child k l | _ => None end.
Proof.
  revert n. induction p as [|k' p IH]; intros n; cbn.
  - destruct n as [h|l]; [done|]. by destruct (child k l).
  - destruct n as [h|l]; [done|]. destruct (child k' l); [apply IH|done].
Qed.

Lemma navigate_good p n n' : good n -> navigate p n = Some n' -> good n'.
Proof.
  revert n. induction p as [|k p IH]; intros n; cbn; [by intros ? [= <-]|].
  intros [h Hh|l Hl]; [done|]. destruct (child k l) as [n0|] eqn:E; [|done].
  apply IH. by eapply good_child.
Qed.

Fixpoint walk_each (tree : node) (path : list bytes) (m : list (bytes * json)) : sem Config unit :=
  match m with
  | [] => mret tt
  | (k, val) :: m => ignore_unknown (walk tree (path ++ [k]) val);; walk_each tree path m
  end.

Lemma walk_subtree tree path l m : navigate path tree = Some (Subtree l) ->
  walk tree path (JObject m) = walk_each tree path m.
Proof.
  intros H. cbn [walk]. rewrite H. induction m as [|[k v] m IH]; [done|]. cbn. by rewrite IH.
Qed.

Lemma walk_leaf tree path h v : navigate path tree = Some (Leaf h) -> walk tree path v = h v.
Proof. intros H. by destruct v; cbn [walk]; rewrite H. Qed.

Lemma walk_none tree path v : navigate path tree = None -> walk tree path v = fail unknownKeyError.
Proof. intros H. by destruct v; cbn [walk]; rewrite H. Qed.

Lemma walk_each_never tree path m : never_unknown (walk_each tree path m).
Proof.
  induction m as [|[k v] m IH]; cbn [walk_each]; [by intros c|].
  apply never_unknown_bind; [apply ignore_unknown_never|done].
Qed.

Lemma walk_never tree path n v : good tree -> navigate path tree = Some n ->
  never_unknown (walk tree path v).
Proof.
  intros Ht Hn. pose proof (navigate_good _ _ _ Ht Hn) as Hg. destruct Hg as [h Hh|l Hl].
  - rewrite (walk_leaf _ _ h) by done. apply Hh.
  - destruct v as [| | | | | |m]; try (by cbn [walk]; rewrite Hn; intros c).
    rewrite (walk_subtree _ _ l) by done. apply walk_each_never.
Qed.

Lemma walk_sem tree v : good tree -> json_ok v -> forall path n c, navigate path tree = Some n ->
  run (walk tree path v) c = sem_node n v c.
Proof.
  intros Ht. induction v as [|b|z|f|s|l _|m IH] using json_ind'; intros Hv path n c Hn;
    (destruct n as [h|l']; [by rewrite (walk_leaf _ _ h)|]);
    try (by cbn [walk sem_node]; rewrite Hn).
  pose proof (navigate_good _ _ _ Ht Hn) as Hg. inversion Hg as [|? Hl]; subst.
  rewrite (walk_subtree _ _ l') by done. rewrite sem_subtree.
  apply json_ok_object in Hv as [Hnd Hv]. rewrite <- sem_doc_keys by done. clear Hnd. revert c.
  induction m as [|[k v] m IHm]; intros c; [done|]. cbn [walk_each sem_doc]. rewrite run_bind.
  apply Forall_cons in IH as [IHv IH]. apply Forall_cons in Hv as [Hv Hm]. cbn in IHv, Hv.
  assert (E : run (ignore_unknown (walk tree (path ++ [k]) v)) c
              = match child k l' with None => Some c | Some n => sem_node n v c end).
  { pose proof (navigate_app path k tree) as Ha. rewrite Hn in Ha.
    destruct (child k l') as [n'|] eqn:Ec.
    - rewrite ignore_unknown_run by (by eapply walk_never). by apply IHv.
    - by rewrite walk_none. }
  rewrite E. destruct (match child k l' with Some _ => _ | None => _ end) as [c'|]; [|done].
  by apply IHm.
Qed.

(** ** The trees of the code are good *)

Section Trees.
Variable outside : spec_float -> Z.
Abbreviation asUint := (asUint outside).

Definition known {A} (r : result A) : Prop := r <> Err unknownKeyError.

Lemma all_strings_known l : known (all_strings l).
Proof.
  induction l as [|[] l IH]; cbn; try done. unfold mbind, result_bind.
  by destruct (all_strings l).
Qed.

Lemma role_mask_known s : known (role_mask s).
Proof. unfold role_mask. by repeat case_decide. Qed.

Lemma autoconnect_known l : forall mask, known (autoconnectFromArray mask l).
Proof.
  induction l as [|[] l IH]; intros mask; cbn; try done. unfold mbind, result_bind.
  pose proof (role_mask_known s). destruct (role_mask s); [apply IH|done].
Qed.

Lemma parseAutoconnect_known m v : known (parseAutoconnect m v).
Proof.
  destruct v as [| | | | |l|o]; cbn; try done; [apply autoconnect_known|].
  destruct (forallb _ _); [|done]. destruct (assoc _ o) as [[]|]; try done. apply autoconnect_known.
Qed.

Lemma coercions_known v :
  known (asString v) /\ known (asBool v) /\ known (asStringSlice v) /\ known (asUint v) /\
  known (asFloat v) /\ known (parse_mode v).
Proof.
  split_and!; destruct v as [|b|n|f|s|l|m]; try done.
  - apply all_strings_known.
  - cbn. by destruct (n <? 0).
  - cbn [Config.asUint]. by destruct (_ || _).
  - unfold parse_mode. cbn. by repeat case_decide.
Qed.

Lemma assign_known {A} (coerce : json -> result A) set v : known (coerce v) ->
  never_unknown (assign coerce set v).
Proof. intros H c. unfold assign. destruct (coerce v) as [a|e]; cbn; [done|]. congruence. Qed.

Lemma commute_ext a b b' : (forall c, b c = b' c) -> commute a b -> commute a b'.
Proof.
  intros E H c. specialize (H c). rewrite E in H. rewrite <- H. destruct (a c); [|done]. cbn. by rewrite E.
Qed.

Lemma commute_keys a l m : Forall (fun kn => forall v, commute a (sem_node kn.2 v)) l ->
  commute a (sem_keys l m).
Proof.
  induction 1 as [|[k n] l Hn _ IH]; [apply commute_Some|]. cbn [sem_keys].
  apply commute_bind; [by apply commute_on_key|done].
Qed.

Lemma commute_subtree a l v : Forall (fun kn => forall v, commute a (sem_node kn.2 v)) l ->
  commute a (sem_node (Subtree l) v).
Proof.
  intros H. destruct v as [| | | | | |m]; try apply commute_None.
  apply commute_ext with (sem_keys l m); [intros c; by rewrite sem_subtree|]. by apply commute_keys.
Qed.

(** Two leaves that assign different fields commute. *)
Ltac by_leaves :=
  intros c; cbn [sem_node]; unfold run, assign, set_ms, mret, sem_ret;
  repeat (match goal with
  | |- context [match ?v with JBool _ => modify _ | _ => _ end] => is_var v; destruct v
  | |- context [match ?r with Ok _ => modify _ | Err _ => _ end] => destruct r
  end; cbn [mbind option_bind modify fail Mode set_ReconnectInitial set_ReconnectMax
    set_ReconnectFactor set_Endpoints set_ListenEndpoints set_ZID set_AutoconnectMask
    set_MulticastMode set_MulticastAddress set_MulticastInterface set_MulticastTTL
    set_MulticastListen set_Timeout on_Scouting]);
  reflexivity.

Ltac by_commute :=
  cbn [snd]; intros; lazymatch goal with
  | |- commute _ (sem_node (Subtree _) _) => apply commute_subtree; repeat constructor; by_commute
  | |- commute (sem_node (Subtree _) _) _ => apply commute_sym; by_commute
  | |- _ => by_leaves
  end.

Ltac by_good := repeat constructor; try done;
  try (intros v; apply assign_known, coercions_known); try (intros v v'; by_commute).

Lemma good_listen : good listenHandlers.
Proof. unfold listenHandlers. by_good. Qed.

Lemma good_connect : good (connectHandlers outside).
Proof. unfold connectHandlers. by_good. Qed.

Lemma good_scouting : good (scoutingHandlers outside).
Proof.
  unfold scoutingHandlers. by_good.
  - intros v c. destruct v; done.
  - intros v c. by apply assign_known, parseAutoconnect_known.
Qed.

(** The keys of the document's root other than [mode]. *)
Definition roots : list (bytes * node) :=
  [(str "id", Leaf (assign asString set_ZID)); (str "connect", connectHandlers outside);
   (str "listen", listenHandlers); (str "scouting", scoutingHandlers outside)].

Lemma good_roots : good_keys roots.
Proof.
  pose proof good_connect. pose proof good_listen. pose proof good_scouting.
  unfold roots. repeat (apply good_cons; [done| | |]); try done; try apply good_nil; try by_good.
  all: unfold connectHandlers, listenHandlers, scoutingHandlers; intros v v'; by_commute.
Qed.

(** ** The root *)

Lemma applyKey_root k v c : k <> str "mode" -> json_ok v ->
  run (ignore_unknown (applyKey outside k [] v)) c
  = match child k roots with None => Some c | Some n => sem_node n v c end.
Proof.
  intros Hk Hv.
  assert (Hw : forall tree, good tree ->
    run (ignore_unknown (walk tree [] v)) c = sem_node tree v c).
  { intros tree Ht. rewrite ignore_unknown_run by (by eapply (walk_never tree [])).
    by apply walk_sem. }
  unfold applyKey, roots. cbn [child]. destruct (decide (k = str "mode")); [done|].
  destruct (decide (k = str "id")) as [->|Hid].
  { rewrite decide_True by done. cbn [leafString]. rewrite ignore_unknown_run; [done|].
    apply assign_known, coercions_known. }
  rewrite (decide_False (P := str "id" = k)) by congruence.
  destruct (decide (k = str "connect")) as [->|Hc].
  { rewrite decide_True by done. apply Hw, good_connect. }
  rewrite (decide_False (P := str "connect" = k)) by congruence.
  destruct (decide (k = str "listen")) as [->|Hl].
  { rewrite decide_True by done. apply Hw, good_listen. }
  rewrite (decide_False (P := str "listen" = k)) by congruence.
  destruct (decide (k = str "scouting")) as [->|Hs].
  { rewrite decide_True by done. apply Hw, good_scouting. }
  by rewrite (decide_False (P := str "scouting" = k)) by congruence.
Qed.

Lemma apply_rest_sem root c : json_ok (JObject root) ->
  run (apply_rest outside root) c = sem_doc roots root c.
Proof.
  revert c. induction root as [|[k v] root IH]; intros c; [done|].
  rewrite json_ok_cons. intros (Hk & Hv & Hr). cbn [apply_rest sem_doc]. rewrite run_bind.
  destruct (decide (k = str "mode")) as [->|Hm]; [by apply IH|].
  rewrite applyKey_root by done.
  destruct (match child k roots with Some _ => _ | None => _ end); [by apply IH|done].
Qed.

Lemma applyConfig_sem root c : json_ok (JObject root) ->
  run (applyConfig outside root) c
  = on_key (str "mode") (Leaf (assign parse_mode set_Mode)) root c ≫= sem_keys roots root.
Proof.
  intros Hr. unfold applyConfig. rewrite run_bind. unfold on_key.
  assert (E : forall c, run (apply_rest outside root) c = sem_keys roots root c).
  { intros c'. rewrite apply_rest_sem by done. apply sem_doc_keys; [apply good_roots|].
    by apply json_ok_object in Hr as []. }
  destruct (assoc (str "mode") root) as [v|]; [|apply E].
  change (applyKey outside (str "mode") [] v) with (assign parse_mode set_Mode v). cbn [sem_node].
  destruct (run _ c); [apply E|done].
Qed.

(** ** The walker computes the meaning *)

Lemma on_leaf {B} k h m c (co : json -> option B) d (set : B -> Config -> Config) :
  (forall v, run (h v) c = (b ← co v; Some (set b c))) -> set d c = c ->
  on_key (str k) (Leaf h) m c = (b ← get k co d m; Some (set b c)).
Proof.
  intros Hh Hd. unfold on_key, get. destruct (assoc (str k) m) as [v|]; [apply Hh|]. cbn. by rewrite Hd.
Qed.

Lemma on_section k l m c : sem_keys l [] c = Some c ->
  on_key (str k) (Subtree l) m c = (m' ← get k as_object [] m; sem_keys l m' c).
Proof.
  intros Hl. unfold on_key, get. destruct (assoc (str k) m) as [v|]; [|cbn [mbind option_bind]; by rewrite Hl].
  destruct v as [| | | | | |o]; try done. cbn [as_object mbind option_bind]. apply sem_subtree.
Qed.

Lemma on_assign {A} k (co : json -> result A) d set m c : set d c = c ->
  on_key (str k) (Leaf (assign co set)) m c = (b ← get k (fun v => opt (co v)) d m; Some (set b c)).
Proof.
  apply on_leaf. intros v. unfold run, assign, modify, fail. by destruct (co v).
Qed.

Lemma on_ms k set m c : set 0 c = c ->
  on_key (str k) (Leaf (assign asUint (set_ms set))) m c
  = (b ← get k (as_ms outside) 0 m; Some (set b c)).
Proof.
  apply on_leaf. intros v. unfold run, assign, modify, fail, as_ms, set_ms.
  by destruct (asUint v).
Qed.

(** The sections of the root, from the configuration before them. *)
Lemma sem_retry m mode eps zid :
  let c i x f := mkConfig mode eps [] zid i x f (Scouting NewConfig) 0 in
  on_key (str "retry") (Subtree [
      (str "period_init_ms", Leaf (assign asUint (set_ms set_ReconnectInitial)));
      (str "period_max_ms", Leaf (assign asUint (set_ms set_ReconnectMax)));
      (str "period_increase_factor", Leaf (assign asFloat set_ReconnectFactor))]) m (c 0 0 (S754_zero false))
  = (retry ← get "retry" as_object [] m;
     initial ← get "period_init_ms" (as_ms outside) 0 retry;
     maximum ← get "period_max_ms" (as_ms outside) 0 retry;
     factor ← get "period_increase_factor" (fun v => opt (asFloat v)) (S754_zero false) retry;
     Some (c initial maximum factor)).
Proof.
  intros c. rewrite on_section by done. destruct (get "retry" _ _ _) as [r|]; [|done].
  cbn [mbind option_bind sem_keys].
  rewrite on_ms by done. destruct (get "period_init_ms" _ _ _) as [i|]; [|done]. cbn [mbind option_bind].
  rewrite on_ms by done. destruct (get "period_max_ms" _ _ _) as [x|]; [|done]. cbn [mbind option_bind].
  rewrite (on_assign _ _ (S754_zero false)) by done. by destruct (get "period_increase_factor" _ _ _).
Qed.

Lemma sem_connect m mode zid :
  let c eps i x f := mkConfig mode eps [] zid i x f (Scouting NewConfig) 0 in
  on_key (str "connect") (connectHandlers outside) m (c [] 0 0 (S754_zero false))
  = (connect ← get "connect" as_object [] m;
     endpoints ← get "endpoints" (fun v => opt (asStringSlice v)) [] connect;
     retry ← get "retry" as_object [] connect;
     initial ← get "period_init_ms" (as_ms outside) 0 retry;
     maximum ← get "period_max_ms" (as_ms outside) 0 retry;
     factor ← get "period_increase_factor" (fun v => opt (asFloat v)) (S754_zero false) retry;
     Some (c endpoints initial maximum factor)).
Proof.
  intros c. unfold connectHandlers. rewrite on_section by done.
  destruct (get "connect" _ _ _) as [r|]; [|done]. cbn [mbind option_bind sem_keys].
  rewrite (on_assign _ _ []) by done. destruct (get "endpoints" _ _ _) as [eps|]; [|done].
  cbn [mbind option_bind]. unfold c, set_Endpoints. cbn [Mode ListenEndpoints cfg_ZID
    ReconnectInitial ReconnectMax ReconnectFactor Scouting AutoconnectMask].
  rewrite sem_retry. destruct (get "retry" _ _ _) as [t|]; [|done]. cbn [mbind option_bind].
  destruct (get "period_init_ms" _ _ _) as [i|]; [|done]. cbn [mbind option_bind].
  destruct (get "period_max_ms" _ _ _) as [x|]; [|done]. cbn [mbind option_bind].
  by destruct (get "period_increase_factor" _ _ _).
Qed.

Lemma sem_multicast m mode eps leps zid i x f t :
  let c s k := mkConfig mode eps leps zid i x f s k in
  on_key (str "multicast") (Subtree [
      (str "enabled", Leaf (assign asBool
         (fun b => set_MulticastMode (if b : bool then MulticastAuto else MulticastOff))));
      (str "address", Leaf (assign asString set_MulticastAddress));
      (str "interface", Leaf (assign asString
         (fun s => set_MulticastInterface (if decide (s = str "auto") then [] else s))));
      (str "ttl", Leaf (assign asUint (fun n => set_MulticastTTL (int64 n))));
      (str "listen", Leaf (fun v =>
         match v with JBool b => modify (set_MulticastListen b) | _ => mret tt end));
      (str "autoconnect", Leaf (fun v c =>
         assign (parseAutoconnect (Mode c)) set_AutoconnectMask v c))]) m
    (c (mkScouting MulticastAuto [] [] 0 false t) 0)
  = (multicast ← get "multicast" as_object [] m;
     enabled ← get "enabled" (fun v => opt (asBool v)) true multicast;
     address ← get "address" (fun v => opt (asString v)) [] multicast;
     interface ← get "interface" (fun v => opt (asString v)) [] multicast;
     ttl ← get "ttl" (fun v => int64 <$> opt (asUint v)) 0 multicast;
     multicast_listen ← get "listen" as_listen false multicast;
     mask ← get "autoconnect" (fun v => opt (parseAutoconnect mode v)) 0 multicast;
     Some (c (mkScouting (if enabled : bool then MulticastAuto else MulticastOff) address
       (if decide (interface = str "auto") then [] else interface) ttl multicast_listen t) mask)).
Proof.
  intros c. rewrite on_section by done.
  destruct (get "multicast" _ _ _) as [r|]; [|done]. cbn [mbind option_bind sem_keys].
  rewrite (on_assign _ _ true) by done. destruct (get "enabled" _ _ _) as [b|]; [|done].
  cbn [mbind option_bind].
  rewrite (on_assign _ _ []) by done. destruct (get "address" _ _ _) as [a|]; [|done].
  cbn [mbind option_bind].
  rewrite (on_assign _ _ []) by done. destruct (get "interface" _ _ _) as [n|]; [|done].
  cbn [mbind option_bind].
  rewrite (on_leaf "ttl" _ _ _ (fun v => int64 <$> opt (asUint v)) 0 set_MulticastTTL); [|
    intros v; unfold run, assign, modify, fail; by destruct (asUint v)|done].
  destruct (get "ttl" _ _ _) as [l|]; [|done]. cbn [mbind option_bind].
  rewrite (on_leaf "listen" _ _ _ as_listen false set_MulticastListen); [|by intros []|done].
  destruct (get "listen" _ _ _) as [li|]; [|done]. cbn [mbind option_bind].
  rewrite (on_leaf "autoconnect" _ _ _ (fun v => opt (parseAutoconnect mode v)) 0 set_AutoconnectMask);
    [|intros v; unfold run, assign, modify, fail; cbn [Mode set_MulticastListen on_Scouting
        set_MulticastTTL set_MulticastInterface set_MulticastAddress set_MulticastMode c];
      by destruct (parseAutoconnect mode v)|done].
  by destruct (get "autoconnect" _ _ _).
Qed.

Lemma sem_roots root mode :
  sem_keys roots root (set_Mode mode NewConfig)
  = (zid ← get "id" (fun v => opt (asString v)) [] root;
     connect ← get "connect" as_object [] root;
     endpoints ← get "endpoints" (fun v => opt (asStringSlice v)) [] connect;
     retry ← get "retry" as_object [] connect;
     initial ← get "period_init_ms" (as_ms outside) 0 retry;
     maximum ← get "period_max_ms" (as_ms outside) 0 retry;
     factor ← get "period_increase_factor" (fun v => opt (asFloat v)) (S754_zero false) retry;
     listen ← get "listen" as_object [] root;
     listen_endpoints ← get "endpoints" (fun v => opt (asStringSlice v)) [] listen;
     scouting ← get "scouting" as_object [] root;
     timeout ← get "timeout" (as_ms outside) 0 scouting;
     multicast ← get "multicast" as_object [] scouting;
     enabled ← get "enabled" (fun v => opt (asBool v)) true multicast;
     address ← get "address" (fun v => opt (asString v)) [] multicast;
     interface ← get "interface" (fun v => opt (asString v)) [] multicast;
     ttl ← get "ttl" (fun v => int64 <$> opt (asUint v)) 0 multicast;
     multicast_listen ← get "listen" as_listen false multicast;
     mask ← get "autoconnect" (fun v => opt (parseAutoconnect mode v)) 0 multicast;
     Some (mkConfig mode endpoints listen_endpoints zid initial maximum factor
       (mkScouting (if enabled : bool then MulticastAuto else MulticastOff) address
          (if decide (interface = str "auto") then [] else interface) ttl multicast_listen timeout)
       mask)).
Proof.
  unfold roots. cbn [sem_keys].
  rewrite (on_assign _ _ []) by done. destruct (get "id" _ _ _) as [zid|]; [|done].
  cbn [mbind option_bind].
  change (set_ZID zid (set_Mode mode NewConfig))
    with (mkConfig mode [] [] zid 0 0 (S754_zero false) (Scouting NewConfig) 0).
  rewrite sem_connect. destruct (get "connect" _ _ _) as [co|]; [|done]. cbn [mbind option_bind].
  destruct (get "endpoints" _ _ co) as [eps|]; [|done]. cbn [mbind option_bind].
  destruct (get "retry" _ _ _) as [re|]; [|done]. cbn [mbind option_bind].
  destruct (get "period_init_ms" _ _ _) as [i|]; [|done]. cbn [mbind option_bind].
  destruct (get "period_max_ms" _ _ _) as [x|]; [|done]. cbn [mbind option_bind].
  destruct (get "period_increase_factor" _ _ _) as [f|]; [|done]. cbn [mbind option_bind].
  unfold listenHandlers. rewrite on_section by done.
  destruct (get "listen" as_object _ _) as [li|]; [|done]. cbn [mbind option_bind sem_keys].
  rewrite (on_assign _ _ []) by done. destruct (get "endpoints" _ _ li) as [leps|]; [|done].
  cbn [mbind option_bind]. unfold scoutingHandlers. rewrite on_section by done.
  destruct (get "scouting" _ _ _) as [sc|]; [|done]. cbn [mbind option_bind sem_keys].
  rewrite on_ms by done. destruct (get "timeout" _ _ _) as [t|]; [|done]. cbn [mbind option_bind].
  change (set_Timeout t _)
    with (mkConfig mode eps leps zid i x f (mkScouting MulticastAuto [] [] 0 false t) 0).
  rewrite sem_multicast. destruct (get "multicast" _ _ _) as [mu|]; [|done]. cbn [mbind option_bind].
  destruct (get "enabled" _ _ _); [|done]. cbn [mbind option_bind].
  destruct (get "address" _ _ _); [|done]. cbn [mbind option_bind].
  destruct (get "interface" _ _ _); [|done]. cbn [mbind option_bind].
  destruct (get "ttl" _ _ _); [|done]. cbn [mbind option_bind].
  destruct (get "listen" _ _ _); [|done]. cbn [mbind option_bind].
  by destruct (get "autoconnect" _ _ _).
Qed.

Lemma applyConfig_doc root : json_ok (JObject root) ->
  run (applyConfig outside root) NewConfig = doc_config outside root.
Proof.
  intros Hr. rewrite applyConfig_sem by done. rewrite (on_assign _ _ ModeClient) by done.
  unfold doc_config. destruct (get "mode" _ _ _) as [mode|]; [|done]. cbn [mbind option_bind].
  apply sem_roots.
Qed.
End Trees.

(** ** Reordering *)

Abbreviation same_member := (fun a b : bytes * json => a.1 = b.1 /\ reorder a.2 b.2).

Lemma same_members_keys m m1 : Forall2 same_member m m1 -> m1.*1 = m.*1.
Proof. induction 1 as [|[a u] [b w] l l' [H _] _ IH]; [done|]. cbn in *. by rewrite IH, H. Qed.

Lemma assoc_permutation k m m' : NoDup m.*1 -> m ≡ₚ m' -> assoc k m' = assoc k m.
Proof.
  intros Hnd Hp. induction Hp as [|[a u] l l' _ IH|[a u] [b w] l|l l2 l3 H1 IH1 H2 IH2]; cbn in *.
  - done.
  - apply NoDup_cons in Hnd as [_ Hnd]. by rewrite IH.
  - apply NoDup_cons in Hnd as [Hn _]. apply not_elem_of_cons in Hn as [Hn _].
    destruct (decide (a = k)), (decide (b = k)); congruence.
  - rewrite IH2, IH1; [done|done|]. by rewrite <- H1.
Qed.

Lemma reorder_assoc k m m' : json_ok (JObject m) -> reorder (JObject m) (JObject m') ->
  option_Forall2 reorder (assoc k m) (assoc k m').
Proof.
  intros [Hnd _]%json_ok_object Hr. inversion Hr as [|? ? ?|? m1 ? H2 Hp]; subst; [done|].
  rewrite (assoc_permutation k m1 m') by (done || by rewrite (same_members_keys m)).
  clear -H2. induction H2 as [|[a u] [b w] l l' [H Hr] _ IH]; [constructor|]. cbn in *. subst b.
  destruct (decide (a = k)); [by constructor|done].
Qed.

Lemma assoc_ok k m v : json_ok (JObject m) -> assoc k m = Some v -> json_ok v.
Proof.
  intros [_ H]%json_ok_object. induction H as [|[a u] l Hu _ IH]; [done|]. cbn in *.
  destruct (decide (a = k)); [by intros [= <-]|done].
Qed.

Lemma reorder_ok v : forall v', reorder v v' -> json_ok v -> json_ok v'.
Proof.
  induction v as [|b|z|f|s|l IH|m IH] using json_ind'; intros v' Hr;
    inversion Hr as [? Hs|? l' H2|? m1 m' H2 Hp]; subst; try done.
  - rewrite !json_ok_array. clear Hr.
    induction H2 as [|v w l l' Hv _ IHl]; [done|]. rewrite !Forall_cons in *.
    intros [Hv' Hl]. destruct IH as [IHv IH]. auto.
  - rewrite !json_ok_object, <- Hp. rewrite (same_members_keys m m1) by done. clear Hr Hp.
    intros [Hnd Hf]. split; [done|]. clear Hnd.
    induction H2 as [|[a v] [b w] l l' [_ Hv] _ IHl]; [done|]. rewrite !Forall_cons in *.
    destruct IH as [IHv IH], Hf as [Hv' Hf]. auto.
Qed.

(** Coercions do not see the order. *)
Definition stable {A} (co : json -> option A) : Prop :=
  forall v v', json_ok v -> reorder v v' -> co v' = co v.

Lemma get_stable {A} k (co : json -> option A) d m m' : stable co ->
  json_ok (JObject m) -> reorder (JObject m) (JObject m') -> get k co d m' = get k co d m.
Proof.
  intros Hco Hm Hr. unfold get. pose proof (reorder_assoc (str k) m m' Hm Hr) as H.
  destruct (assoc (str k) m) as [v|] eqn:E, (assoc (str k) m') as [v'|]; inversion H; subst; [|done].
  apply Hco; [by eapply assoc_ok|done].
Qed.

Definition same_object m m' : Prop := json_ok (JObject m) /\ reorder (JObject m) (JObject m').

Lemma get_section k m m' : same_object m m' ->
  option_Forall2 same_object (get k as_object [] m) (get k as_object [] m').
Proof.
  intros [Hm Hr]. unfold get. pose proof (reorder_assoc (str k) m m' Hm Hr) as H.
  destruct (assoc (str k) m) as [v|] eqn:E, (assoc (str k) m') as [v'|]; inversion H as [? ? Hv|]; subst.
  - pose proof (assoc_ok _ _ _ Hm E) as Ho. destruct Hv as [v Hv|l l' Hl|o o1 o' H2 Hp]; cbn.
    + destruct v; try done; constructor.
    + constructor.
    + constructor. split; [done|]. by eapply reorder_object.
  - constructor. split; [by apply json_ok_object; split; constructor|]. by apply (reorder_object [] []).
Qed.

Lemma all_strings_stable l l' : Forall2 reorder l l' -> opt (all_strings l') = opt (all_strings l).
Proof.
  induction 1 as [|v v' l l' Hv _ IH]; [done|].
  destruct Hv as [v Hv|? ? _|? ? ? _ _]; [|done..]. destruct v; try done. cbn. unfold mbind, result_bind.
  by destruct (all_strings l), (all_strings l'); simplify_eq/=.
Qed.

Lemma autoconnect_stable l l' : Forall2 reorder l l' ->
  forall mask, opt (autoconnectFromArray mask l') = opt (autoconnectFromArray mask l).
Proof.
  induction 1 as [|v v' l l' Hv _ IH]; intros mask; [done|].
  destruct Hv as [v Hv|? ? _|? ? ? _ _]; [|done..]. destruct v; try done. cbn. unfold mbind, result_bind.
  destruct (role_mask _); [apply IH|done].
Qed.

Lemma forallb_permutation (p : bytes -> bool) l l' : l ≡ₚ l' -> forallb p l' = forallb p l.
Proof.
  induction 1 as [|x l l' _ IH|x y l|l l2 l3 _ IH1 _ IH2]; cbn; [done|by rewrite IH| |congruence].
  by rewrite !andb_assoc, (andb_comm (p x)).
Qed.

Lemma parseAutoconnect_stable mode : stable (fun v => opt (parseAutoconnect mode v)).
Proof.
  intros v v' Hv Hr. destruct Hr as [v _|l l' Hl|m m1 m' H2 Hp]; [done|by apply autoconnect_stable|].
  cbn. assert (Hk : forallb is_role m'.*1 = forallb is_role m.*1).
  { rewrite <- (same_members_keys m m1) by done. apply forallb_permutation. by rewrite Hp. }
  rewrite Hk. clear Hk. destruct (forallb _ _); [|done].
  pose proof (reorder_assoc (SessionMode_String mode) m m' Hv (reorder_object _ _ _ H2 Hp)) as H.
  destruct (assoc _ m) as [v|], (assoc _ m') as [v'|]; inversion H as [? ? Hvv|]; subst; [|done].
  destruct Hvv as [w Hw|l l' Hl|? ? ? _ _]; [by destruct w|by apply autoconnect_stable|done].
Qed.

Section Reorder.
Variable outside : spec_float -> Z.

Ltac by_stable :=
  let v := fresh in let v' := fresh in let Hv := fresh in let Hr := fresh in
  intros v v' Hv Hr; revert Hv; destruct Hr; intros _;
  first [done | by apply all_strings_stable].

(** The next field is read alike. *)
Ltac same_leaf H :=
  lazymatch goal with |- (get ?k ?co ?d ?m' ≫= _) = _ =>
    let Hs := fresh in
    assert (Hs : stable co) by first [apply parseAutoconnect_stable | by_stable];
    rewrite (get_stable k co d _ m' Hs (proj1 H) (proj2 H)); clear Hs
  end;
  lazymatch goal with |- (?x ≫= _) = _ => destruct x; [|done] end; cbn [mbind option_bind].
Ltac same_section H H' :=
  lazymatch goal with |- (get ?k _ _ _ ≫= _) = _ =>
    destruct (get_section k _ _ H) as [? ? H'|]; [|done]; cbn [mbind option_bind]
  end.

Lemma document_config_reorder v v' : json_ok v -> reorder v v' ->
  document_config outside v' = document_config outside v.
Proof.
  intros Hv Hr. unfold document_config. destruct Hr as [v Hr|l l' _|m m1 m' H2 Hp]; [done..|].
  assert (H : same_object m m') by (split; [done|by eapply reorder_object]). clear Hv H2 Hp.
  cbn [as_object mbind option_bind]. unfold doc_config.
  do 2 same_leaf H.
  same_section H Hc. same_leaf Hc. same_section Hc Hre. do 3 same_leaf Hre.
  same_section H Hl. same_leaf Hl.
  same_section H Hs. same_leaf Hs. same_section Hs Hm. by do 6 same_leaf Hm.
Qed.
End Reorder.

(** ** What the reader returns has distinct keys *)

Section Distinct.
Variables IsLetter IsDigit : Z -> bool.

Definition returns {A} (P : A -> Prop) (m : RM A) : Prop := forall r,
  match m r with Ok (a, _) => P a | Err _ => True end.

Lemma returns_any {A} (m : RM A) : returns (fun _ => True) m.
Proof. intros r. by destruct (m r) as [[]|]. Qed.

Lemma returns_bind {A B} (P : A -> Prop) (Q : B -> Prop) (m : RM A) (f : A -> RM B) :
  returns P m -> (forall a, P a -> returns Q (f a)) -> returns Q (m ≫= f).
Proof.
  intros Hm Hf r. specialize (Hm r). unfold mbind, stm_bind. destruct (m r) as [[a r']|]; [|done].
  by apply Hf.
Qed.
Lemma returns_then {A B} (Q : B -> Prop) (m : RM A) (f : A -> RM B) :
  (forall a, returns Q (f a)) -> returns Q (m ≫= f).
Proof. intros Hf. apply (returns_bind _ _ _ _ (returns_any m)). auto. Qed.
Lemma returns_ret {A} (P : A -> Prop) a : P a -> returns P (mret a).
Proof. intros H r. exact H. Qed.
Lemma returns_throw {A} (P : A -> Prop) e : returns P (throw e).
Proof. intros r. done. Qed.
Lemma returns_fmap {A B} (P : B -> Prop) (f : A -> B) m : returns (fun a => P (f a)) m -> returns P (f <$> m).
Proof. intros H r. specialize (H r). unfold fmap, stm_fmap. by destruct (m r) as [[]|]. Qed.

Lemma obj_set_ok k v m : json_ok v -> json_ok (JObject m) -> json_ok (JObject (obj_set k v m)).
Proof.
  intros Hv. induction m as [|[a u] m IH]; cbn [obj_set]; rewrite ?json_ok_cons.
  - intros _. split_and!; [by apply not_elem_of_nil|done|]. split; [constructor|done].
  - intros (Ha & Hu & Hm). destruct (decide (a = k)) as [->|Hk]; rewrite json_ok_cons; [done|].
    split_and!; [|done|by apply IH]. clear -Ha Hk.
    induction m as [|[b w] m IH]; cbn; [by apply not_elem_of_cons; split|].
    cbn in Ha. apply not_elem_of_cons in Ha as [Hab Ha].
    destruct (decide (b = k)) as [->|]; cbn; apply not_elem_of_cons; auto.
Qed.

(** Bodies of the loops, whatever follows an element. *)
Ltac by_returns := repeat first
  [ apply returns_throw | apply returns_ret; done | apply returns_then; intros ?
  | progress case_match ].

Lemma object_loop_ok value n : returns json_ok value -> forall out, json_ok (JObject out) ->
  returns (fun m => json_ok (JObject m)) (object_loop IsLetter IsDigit value n out).
Proof.
  intros Hv. induction n as [|n IH]; intros out Ho; [apply returns_throw|]. cbn [object_loop].
  do 4 (apply returns_then; intros ?). case_match; [apply returns_throw|].
  do 2 (apply returns_then; intros ?). eapply returns_bind; [exact Hv|]. intros v Hok. cbv zeta.
  pose proof (obj_set_ok a0 v out Hok Ho) as Ho'. by_returns. by apply IH.
Qed.

Lemma array_loop_ok value n : returns json_ok value -> forall out, json_ok (JArray out) ->
  returns (fun l => json_ok (JArray l)) (array_loop value n out).
Proof.
  intros Hv. induction n as [|n IH]; intros out Ho; [apply returns_throw|]. cbn [array_loop].
  apply returns_then; intros ?. eapply returns_bind; [exact Hv|]. intros v Hok. cbv zeta.
  assert (Ho' : json_ok (JArray (out ++ [v])))
    by (rewrite json_ok_array, Forall_app, Forall_singleton in *; done).
  by_returns. by apply IH.
Qed.

Lemma json_ok_empty : json_ok (JObject []).
Proof. apply json_ok_object. split; constructor. Qed.

Lemma value_ok fuel : returns json_ok (value IsLetter IsDigit fuel).
Proof.
  induction fuel as [|fuel IH]; [apply returns_throw|]. cbn [value]. apply returns_then. intros [|c l].
  { apply returns_throw. }
  repeat case_match; try apply returns_throw; try apply returns_fmap.
  - unfold object. do 3 (apply returns_then; intros ?). case_match; apply returns_then; intros ?.
    + apply returns_ret, json_ok_empty.
    + by apply object_loop_ok, json_ok_empty.
  - unfold array. do 3 (apply returns_then; intros ?). case_match; apply returns_then; intros ?.
    + by apply returns_ret.
    + by apply array_loop_ok.
  - apply (returns_any string_).
  - apply (returns_any bool_).
  - by_returns.
  - intros r. unfold lexeme, number_lex. destruct (split_sign (Reader_Bytes r)) as [neg l'].
    unfold literal_value, mbind, result_bind, mret, result_ret.
    repeat case_match; by simplify_eq.
Qed.

Lemma parse_ok s v : parseJSON5 IsLetter IsDigit s = Ok v -> json_ok v.
Proof.
  unfold parseJSON5.
  assert (H : returns (fun p : json * bytes => json_ok p.1)
    (skip;; v ← value IsLetter IsDigit (S (length s)); skip;; l ← unread; mret (v, l))).
  { apply returns_then. intros _. eapply returns_bind; [apply value_ok|]. intros v' Hv'. by_returns. }
  specialize (H (NewReader s)).
  destruct ((skip;; _) (NewReader s)) as [[[w [|]] r]|e]; [|done..]. by intros [= <-].
Qed.
End Distinct.

(** ** The theorems *)

(** C33: NewConfigFromString gives each field the value at its path in the
    parsed document, converted to the field's type, or its default, whatever
    the order in which Go walks the maps; it fails exactly when the text is
    not JSON5, its root or a section is not an object, or the value at a
    recognised key cannot be converted; only scouting/multicast/listen never
    fails: a value there that is not a boolean is passed over and leaves the
    default. *)
Theorem config_document outside IsLetter IsDigit shuffle s : (forall v, reorder v (shuffle v)) ->
  opt (NewConfigFromString outside IsLetter IsDigit shuffle s)
  = (v ← opt (parseJSON5 IsLetter IsDigit s); document_config outside v).
Proof.
  intros Hs. unfold NewConfigFromString, mbind at 1, result_bind.
  destruct (parseJSON5 IsLetter IsDigit s) as [v|e] eqn:E; [|done]. cbn [opt mbind option_bind].
  pose proof (parse_ok _ _ _ _ E) as Hv. specialize (Hs v).
  rewrite <- (document_config_reorder outside v (shuffle v)) by done.
  pose proof (reorder_ok v (shuffle v) Hs Hv) as Hv'. clear Hs E Hv.
  destruct (shuffle v) as [| | | | | |root]; try done. cbn [document_config as_object mbind option_bind].
  rewrite <- applyConfig_doc by done. unfold run. by destruct (applyConfig outside root NewConfig) as [[[]|] c].
Qed.

(** ** Single keys *)

(** The schema, [mode] included. *)
Definition schema outside : node :=
  Subtree ((str "mode", Leaf (assign parse_mode set_Mode)) :: roots outside).

Lemma assign_atomic {A} (co : json -> result A) set v c e c' :
  assign co set v c = (Err e, c') -> c' = c.
Proof. unfold assign, modify, fail. destruct (co v); by intros [=]. Qed.

Lemma applyKey_schema outside k path v :
  applyKey outside k path v = match child k ((str "mode", Leaf (assign parse_mode set_Mode)) :: roots outside) with
    | Some (Leaf h) => leafString path h v
    | Some (Subtree l) => walk (Subtree l) path v
    | None => fail unknownKeyError
    end.
Proof.
  unfold applyKey. cbn [child roots].
  destruct (decide (k = str "mode")) as [->|H1]; [by rewrite decide_True|].
  rewrite (decide_False (P := str "mode" = k)) by congruence.
  destruct (decide (k = str "id")) as [->|H2]; [by rewrite decide_True|].
  rewrite (decide_False (P := str "id" = k)) by congruence.
  destruct (decide (k = str "connect")) as [->|H3]; [by rewrite decide_True|].
  rewrite (decide_False (P := str "connect" = k)) by congruence.
  destruct (decide (k = str "listen")) as [->|H4]; [by rewrite decide_True|].
  rewrite (decide_False (P := str "listen" = k)) by congruence.
  destruct (decide (k = str "scouting")) as [->|H5]; [by rewrite decide_True|].
  by rewrite (decide_False (P := str "scouting" = k)) by congruence.
Qed.

(** Leaves other than sections assign all or nothing. *)
Inductive atomic : node -> Prop :=
  | atomic_leaf h : (forall v c e c', h v c = (Err e, c') -> c' = c) -> atomic (Leaf h)
  | atomic_subtree l : Forall (fun kn => atomic kn.2) l -> atomic (Subtree l).

Lemma atomic_child l k n : Forall (fun kn => atomic kn.2) l -> child k l = Some n -> atomic n.
Proof. apply (child_Forall atomic). Qed.

Lemma atomic_schema outside : atomic (schema outside).
Proof.
  unfold schema, roots, connectHandlers, listenHandlers, scoutingHandlers. repeat constructor.
  all: try (intros v c e c'; apply assign_atomic). by intros [].
Qed.

Lemma navigate_atomic p n h : atomic n -> navigate p n = Some (Leaf h) -> atomic (Leaf h).
Proof.
  revert n. induction p as [|k p IH]; intros n; cbn; [by intros ? [= <-]|].
  intros [h' Hh|l Hl]; [done|]. destruct (child k l) as [n'|] eqn:E; [|done].
  apply IH. by eapply atomic_child.
Qed.

(** InsertJSON5 on the path of a field stores the converted value or
    fails and changes nothing; on a path that is not in the schema it fails
    and changes nothing. *)
Theorem InsertJSON5_path outside IsLetter IsDigit shuffle keyPath jsonValue c :
  let '(res, c') := InsertJSON5 outside IsLetter IsDigit shuffle keyPath jsonValue c in
  match navigate (SplitSeq keyPath) (schema outside) with
  | None => is_ok res = false /\ c' = c
  | Some (Leaf h) =>
      match parseJSON5 IsLetter IsDigit jsonValue with
      | Ok v => (res, c') = h (shuffle v) c
      | Err e => res = Err e
      end /\ (is_ok res = false -> c' = c)
  | Some (Subtree _) => True
  end.
Proof.
  unfold InsertJSON5. destruct (parseJSON5 _ _ _) as [v|e].
  2: { by destruct (navigate _ _) as [[]|]. }
  destruct (SplitSeq keyPath) as [|k path] eqn:Es; [done|].
  destruct k as [|b k].
  { cbn. done. }
  rewrite applyKey_schema. cbn [navigate schema].
  destruct (child (b :: k) _) as [n|] eqn:Ec; [|done].
  pose proof (atomic_schema outside) as Ha. inversion Ha as [|? Hl]; subst.
  pose proof (atomic_child _ _ _ Hl Ec) as Hn.
  destruct n as [h|l].
  - destruct path as [|k' path]; cbn [navigate leafString]; [|done].
    destruct (h (shuffle v) c) as [res c'] eqn:E. split; [done|].
    inversion Hn as [? Hh|]; subst. destruct res; [done|]. intros _. by eapply Hh.
  - destruct (navigate path (Subtree l)) as [[h|l']|] eqn:En.
    + rewrite (walk_leaf _ _ h) by done. destruct (h (shuffle v) c) as [res c'] eqn:E. split; [done|].
      pose proof (navigate_atomic _ _ _ Hn En) as Hh. inversion Hh as [? Hh'|]; subst.
      destruct res; [done|]. intros _. by eapply Hh'.
    + by destruct (walk _ _ _ _).
    + by rewrite walk_none.
Qed.

Lemma reorder_refl v : reorder v v.
Proof.
  induction v as [|b|z|f|s|l IH|m IH] using json_ind'; try by constructor.
  - apply reorder_array. induction IH; by constructor.
  - apply reorder_object with m; [|done]. induction IH as [|kv m Hkv _ IHm]; by constructor.
Qed.

(** Go may visit the root's keys from the last to the first. *)
Definition backwards (v : json) : json :=
  match v with JObject m => JObject (reverse m) | _ => v end.

Lemma backwards_reorder v : reorder v (backwards v).
Proof.
  destruct v as [| | | | | |m]; try apply reorder_refl. apply reorder_object with m.
  - induction m as [|kv m IH]; constructor; [|done]. split; [done|apply reorder_refl].
  - by rewrite reverse_Permutation.
Qed.

(** A listen that is neither a boolean nor the object of roles is accepted
    like an absent one, although the comments of [applyConfig] and
    [NewConfigFromString] promise an error. *)
Example listen_passed_over :
  let read t := opt (NewConfigFromString (fun _ => 0) ascii_letter is_dec id (str t)) in
  read "{scouting:{multicast:{listen:'yes'}}}" = read "{}" /\
  read "{scouting:{multicast:{listen:7}}}" = read "{}" /\
  read "{scouting:{multicast:{enabled:'yes'}}}" = None.
Proof. vm_compute. done. Qed.

Lemma config_document_witness :
  opt (NewConfigFromString (fun _ => 0) ascii_letter is_dec backwards sample_config_text)
  = Some (mkConfig ModePeer [str "tcp/h:1"] [] [] 500000000 0 (S754_zero false)
            (mkScouting MulticastAuto [] [] 3 false 1500000000) 1).
Proof.
  rewrite (config_document (fun _ => 0) ascii_letter is_dec backwards sample_config_text backwards_reorder).
  vm_compute. reflexivity.
Defined.
