(* ===== verification/Handler.v ===== *)
(** * zenoh/handler.go: the receivers of a subscriber

    [Closure], [FifoChannel] and [RingChannel]: what [deliver] does with a
    value, what the user receives, and what [drop] leaves behind.  A [select]
    with a default is one step; a [deliver] of [RingChannel] is several, with
    the consumer in between.  [Subscription] is the protocol between the
    dispatch of a registry and the [Drop] of one of its entries. *)
From S2P Require Import Prelude Collector.

(** A relation that models one step of the goroutines, and the states it
    reaches. *)
Abbreviation reachable step init := (rtc step init) (only parsing).

#[local] Arguments Nat.ltb : simpl never.

Section Handlers.
Context {T : Type}.
Implicit Types (v : T) (c : @chan T).

(** [if cap <= 0 { cap = 256 }] *)
Definition channel_cap (capacity : Z) : nat := if capacity <=? 0 then 256%nat else Z.to_nat capacity.

Lemma channel_cap_pos capacity : (0 < channel_cap capacity)%nat.
Proof. unfold channel_cap. destruct (Z.leb_spec capacity 0); lia. Qed.

(** ** FifoChannel *)

(** The channel, the calls of [deliver] so far, each with the number of
    values pending when it was made, and what the user has received. *)
Record fifo := mkFifo { ff_chan : @chan T; ff_calls : list (T * nat); ff_received : list T }.

Definition Fifo_Attach (capacity : Z) : fifo := mkFifo (mkChan (channel_cap capacity) [] false) [] [].

Definition fifo_deliver v (s : fifo) : result fifo :=
  c ← chan_try_send v (ff_chan s);
  mret (mkFifo c (ff_calls s ++ [(v, length (ch_buf (ff_chan s)))]) (ff_received s)).

Definition fifo_drop (s : fifo) : result fifo :=
  c ← chan_close (ff_chan s); mret (mkFifo c (ff_calls s) (ff_received s)).

(** [<-handle] *)
Definition fifo_recv (s : fifo) : @recv T * fifo :=
  let '(r, c) := chan_recv (ff_chan s) in
  (r, mkFifo c (ff_calls s) (match r with RValue v => ff_received s ++ [v] | _ => ff_received s end)).

Inductive fifo_step : fifo -> fifo -> Prop :=
  | fifo_step_deliver v s s' : fifo_deliver v s = Ok s' -> fifo_step s s'
  | fifo_step_drop s s' : fifo_drop s = Ok s' -> fifo_step s s'
  | fifo_step_recv s : fifo_step s (fifo_recv s).2.

(** The values for which there was room. *)
Definition accepted (cap : nat) (calls : list (T * nat)) : list T :=
  (filter (fun e => e.2 < cap)%nat calls).*1.

Arguments accepted : simpl never.

Record fifo_inv (cap : nat) (s : fifo) : Prop := {
  fi_cap : ch_cap (ff_chan s) = cap;
  fi_room : (length (ch_buf (ff_chan s)) <= cap)%nat;
  fi_values : ff_received s ++ ch_buf (ff_chan s) = accepted cap (ff_calls s) }.

Lemma accepted_snoc cap calls v n :
  accepted cap (calls ++ [(v, n)]) = accepted cap calls ++ (if (n <? cap)%nat then [v] else []).
Proof.
  unfold accepted. rewrite filter_app, fmap_app. f_equal.
  destruct (Nat.ltb_spec n cap) as [H|H].
  - by rewrite filter_cons_True.
  - rewrite filter_cons_False; [done|cbn; lia].
Qed.

Lemma fifo_step_inv cap s s' : fifo_inv cap s -> fifo_step s s' -> fifo_inv cap s'.
Proof.
  intros Hi Hs; revert Hi; destruct Hs as [v s0 s1 E|s0 s1 E|s0];
    intros [Hc Hr Hv]; destruct s0 as [[k buf cl] calls rcv];
    cbn [ff_chan ch_cap ch_buf ff_calls ff_received] in *; subst k.
  - unfold fifo_deliver, chan_try_send, mbind, result_bind in E.
    cbn [ch_closed ch_buf ch_cap ff_chan ff_calls ff_received] in E. destruct cl; [done|].
    destruct (Nat.ltb_spec (length buf) cap) as [Hl|Hl]; cbn in E; injection E as <-; split; cbn; try done.
    + rewrite length_app. cbn. lia.
    + rewrite accepted_snoc. destruct (Nat.ltb_spec (length buf) cap); [|lia]. by rewrite app_assoc, Hv.
    + rewrite accepted_snoc. destruct (Nat.ltb_spec (length buf) cap); [lia|]. by rewrite app_nil_r, Hv.
  - unfold fifo_drop, chan_close, mbind, result_bind in E.
    cbn [ch_closed ch_buf ch_cap ff_chan ff_calls ff_received] in E. destruct cl; [done|]. by injection E as <-.
  - unfold fifo_recv, chan_recv. cbn. destruct buf as [|b buf]; cbn in *; [by destruct cl|].
    split; cbn; [done|lia|]. by rewrite <- app_assoc.
Qed.

(** ** RingChannel *)

(** Where the goroutine that holds [mu] is in the loop of [deliver]. *)
Inductive ring_pc := RIdle | RSend v | RPop v.

Record ring := mkRing { rg_chan : @chan T; rg_pc : ring_pc;
  rg_delivered : list T; rg_received : list T }.

Definition Ring_Attach (capacity : Z) : ring := mkRing (mkChan (channel_cap capacity) [] false) RIdle [] [].

(** One [select] of [deliver]. *)
Definition ring_select (s : ring) : result ring :=
  match rg_pc s with
  | RIdle => Ok s
  | RSend v =>
      c ← chan_try_send v (rg_chan s);
      mret (if (length (ch_buf (rg_chan s)) <? ch_cap (rg_chan s))%nat
            then mkRing c RIdle (rg_delivered s ++ [v]) (rg_received s)
            else mkRing c (RPop v) (rg_delivered s) (rg_received s))
  | RPop v =>
      Ok (mkRing (chan_recv (rg_chan s)).2 (RSend v) (rg_delivered s) (rg_received s))
  end.

Definition ring_recv (s : ring) : @recv T * ring :=
  let '(r, c) := chan_recv (rg_chan s) in
  (r, mkRing c (rg_pc s) (rg_delivered s)
        (match r with RValue v => rg_received s ++ [v] | _ => rg_received s end)).

Definition ring_drop (s : ring) : result ring :=
  c ← chan_close (rg_chan s); mret (mkRing c (rg_pc s) (rg_delivered s) (rg_received s)).

(** [drop] runs when no [deliver] does (see [Subscription]). *)
Inductive ring_step : ring -> ring -> Prop :=
  | ring_step_begin v s : rg_pc s = RIdle -> ch_closed (rg_chan s) = false ->
      ring_step s (mkRing (rg_chan s) (RSend v) (rg_delivered s) (rg_received s))
  | ring_step_select s s' : ring_select s = Ok s' -> ring_step s s'
  | ring_step_recv s : ring_step s (ring_recv s).2
  | ring_step_drop s s' : rg_pc s = RIdle -> ring_drop s = Ok s' -> ring_step s s'.

Record ring_inv (cap : nat) (s : ring) : Prop := {
  ri_cap : ch_cap (rg_chan s) = cap;
  ri_room : (length (ch_buf (rg_chan s)) <= cap)%nat;
  ri_open : rg_pc s <> RIdle -> ch_closed (rg_chan s) = false;
  ri_values : exists old, rg_delivered s = old ++ ch_buf (rg_chan s) /\ rg_received s `sublist_of` old;
  ri_newest : rg_pc s = RIdle -> last (rg_received s ++ ch_buf (rg_chan s)) = last (rg_delivered s) }.

Lemma ring_recv_inv cap s : ring_inv cap s -> ring_inv cap (ring_recv s).2.
Proof.
  intros [Hc Hr Ho (old & Hd & Hs) Hn]. destruct s as [[k buf cl] pc del rcv]. cbn in *.
  unfold ring_recv, chan_recv. cbn. destruct buf as [|b buf]; cbn in *; [destruct cl; split; cbn; eauto|].
  split; cbn; [done|lia|done| |].
  - exists (old ++ [b]). rewrite <- app_assoc. split; [done|]. by apply sublist_app.
  - intros H. rewrite <- app_assoc. by apply Hn.
Qed.

(** A [select] never panics, and the loop gets closer to its end. *)
Definition ring_rank (s : ring) : nat :=
  match rg_pc s with
  | RIdle => 0
  | RSend _ => if (length (ch_buf (rg_chan s)) <? ch_cap (rg_chan s))%nat then 1 else 3
  | RPop _ => 2
  end.

Lemma ring_select_inv cap s : (0 < cap)%nat -> ring_inv cap s -> exists s',
  ring_select s = Ok s' /\ ring_inv cap s' /\ (ring_rank s' <= ring_rank s - 1)%nat.
Proof.
  intros Hcap Hi. pose proof Hi as [Hc Hr Ho (old & Hd & Hs) Hn].
  destruct s as [[k buf cl] [|v|v] del rcv]; cbn in *; subst k.
  - eexists. by split_and!.
  - specialize (Ho ltac:(done)). subst cl. cbn.
    destruct (Nat.ltb_spec (length buf) cap) as [Hl|Hl].
    + eexists. split; [done|]. split; [|cbn; lia]. split; cbn; [done|rewrite length_app; cbn; lia|done| |].
      * exists old. by rewrite Hd, app_assoc.
      * intros _. by rewrite app_assoc, !last_snoc.
    + eexists. split; [done|]. split; [|cbn; lia]. split; cbn; [done|lia|done|by exists old|done].
  - eexists. split; [done|]. unfold ring_rank, chan_recv. cbn.
    destruct buf as [|b buf]; cbn in *.
    + split; [|destruct (Nat.ltb_spec 0 cap); lia]. split; cbn; [done|lia|by intros _; apply Ho|by exists old|done].
    + split; [|destruct (Nat.ltb_spec (length buf) cap); lia].
      split; cbn; [done|lia|by intros _; apply Ho| |done]. exists (old ++ [b]). rewrite <- app_assoc. split; [done|].
      by apply sublist_inserts_r.
Qed.

Lemma ring_step_inv cap s s' : (0 < cap)%nat -> ring_inv cap s -> ring_step s s' -> ring_inv cap s'.
Proof.
  intros Hcap Hi Hs. destruct Hs as [v s Hpc Ho|s s' E|s|s s' Hpc E].
  - destruct Hi as [Hc Hr _ Hv _]. split; cbn; done.
  - destruct (ring_select_inv cap s Hcap Hi) as (s2 & E2 & H & _). congruence.
  - by apply ring_recv_inv.
  - destruct Hi as [Hc Hr _ Hv Hn]. destruct s as [[k buf cl] pc del rcv].
    unfold ring_drop, chan_close, mbind, result_bind in E. cbn in *. destruct cl; [done|].
    injection E as <-. by split.
Qed.

Lemma ring_attach_inv capacity : ring_inv (channel_cap capacity) (Ring_Attach capacity).
Proof. split; cbn; [done|lia|done|by exists []|done]. Qed.

Lemma ring_reachable_inv capacity s : rtc ring_step (Ring_Attach capacity) s ->
  ring_inv (channel_cap capacity) s.
Proof.
  intros H. pose proof (ring_attach_inv capacity) as Hi. induction H as [|s s1 s2 H _ IH]; [done|].
  apply IH. by eapply ring_step_inv, H; [apply channel_cap_pos|].
Qed.

(** ** Closure *)

(** The goroutine of [Attach]: [range ch], [callSafe(c.Call, v)], [c.Drop],
    [close(done)].  A panic of the user's code is recovered. *)
Inductive closure_pc := CRange | CCall v | CDrop | CClosing | CExit.
Inductive closure_event := ECall v | EDrop.

Record closure := mkClosure { cl_chan : @chan T; cl_pc : closure_pc; cl_done : bool;
  cl_calls : list (T * nat); cl_events : list closure_event }.

Definition closure_capacity : nat := 1024.
Definition Closure_Attach : closure := mkClosure (mkChan closure_capacity [] false) CRange false [] [].

Definition closure_deliver v (s : closure) : result closure :=
  c ← chan_try_send v (cl_chan s);
  mret (mkClosure c (cl_pc s) (cl_done s) (cl_calls s ++ [(v, length (ch_buf (cl_chan s)))]) (cl_events s)).

(** The first half of [drop]; the second waits for [done]. *)
Definition closure_close (s : closure) : result closure :=
  c ← chan_close (cl_chan s); mret (mkClosure c (cl_pc s) (cl_done s) (cl_calls s) (cl_events s)).

Definition closure_goroutine (has_drop : bool) (s : closure) : closure :=
  match cl_pc s with
  | CRange =>
      let '(r, c) := chan_recv (cl_chan s) in
      let pc := match r with RValue v => CCall v | RClosed => CDrop | RBlocked => CRange end in
      mkClosure c pc (cl_done s) (cl_calls s) (cl_events s)
  | CCall v => mkClosure (cl_chan s) CRange (cl_done s) (cl_calls s) (cl_events s ++ [ECall v])
  | CDrop => mkClosure (cl_chan s) CClosing (cl_done s) (cl_calls s)
               (cl_events s ++ if has_drop then [EDrop] else [])
  | CClosing => mkClosure (cl_chan s) CExit true (cl_calls s) (cl_events s)
  | CExit => s
  end.

Inductive closure_step (has_drop : bool) : closure -> closure -> Prop :=
  | closure_step_deliver v s s' : closure_deliver v s = Ok s' -> closure_step has_drop s s'
  | closure_step_close s s' : closure_close s = Ok s' -> closure_step has_drop s s'
  | closure_step_run s : closure_step has_drop s (closure_goroutine has_drop s).

Definition in_call (pc : closure_pc) : list T := match pc with CCall v => [v] | _ => [] end.
Definition finished (pc : closure_pc) : bool := match pc with CDrop | CClosing | CExit => true | _ => false end.

(** The calls so far, the one under way and those to come are the accepted
    values, in order; [Drop] comes after them. *)
Record closure_inv (has_drop : bool) (s : closure) : Prop := {
  ci_cap : ch_cap (cl_chan s) = closure_capacity;
  ci_events : exists called,
    cl_events s = (ECall <$> called)
      ++ (if has_drop && match cl_pc s with CClosing | CExit => true | _ => false end then [EDrop] else []) /\
    called ++ in_call (cl_pc s) ++ ch_buf (cl_chan s) = accepted closure_capacity (cl_calls s);
  ci_finished : finished (cl_pc s) = true -> ch_closed (cl_chan s) = true /\ ch_buf (cl_chan s) = [];
  ci_done : cl_done s = match cl_pc s with CExit => true | _ => false end }.

Lemma closure_step_inv has_drop s s' : closure_inv has_drop s -> closure_step has_drop s s' ->
  closure_inv has_drop s'.
Proof.
  intros Hi Hs. destruct Hs as [v s s' E|s s' E|s];
    destruct Hi as [Hc (called & He & Hv) Hf Hd]; destruct s as [[k buf cl] pc dn calls evs];
    cbn in Hc, He, Hv, Hf, Hd; subst k.
  - unfold closure_deliver, chan_try_send, mbind, result_bind in E. cbn in E. destruct cl; [done|].
    assert (Hnf : finished pc = false) by (destruct (finished pc); [by destruct Hf|done]).
    destruct (Nat.ltb_spec (length buf) closure_capacity) as [Hl|Hl]; injection E as <-;
      (split; cbn; [done| |by rewrite Hnf|done]); exists called; (split; [done|]); rewrite accepted_snoc.
    + destruct (Nat.ltb_spec (length buf) closure_capacity); [|lia]. by rewrite <- Hv, !app_assoc.
    + destruct (Nat.ltb_spec (length buf) closure_capacity); [lia|]. by rewrite app_nil_r.
  - unfold closure_close, chan_close, mbind, result_bind in E. cbn in E. destruct cl; [done|].
    injection E as <-. split; cbn; [done|by exists called| |done]. intros H. split; [done|by apply Hf].
  - unfold closure_goroutine. cbn. destruct pc; cbn.
    + unfold chan_recv. cbn. destruct buf as [|b buf]; cbn.
      * destruct cl; (split; cbn; [done|by exists called|done|done]).
      * split; cbn; [done|by exists called|done|done].
    + split; cbn; [done| |done|done]. exists (called ++ [v]). cbn in Hv.
      split; [|by rewrite <- app_assoc]. by rewrite He, andb_false_r, !app_nil_r, fmap_app.
    + destruct (Hf eq_refl) as [-> ->]. split; cbn; [done| |done|done]. exists called. split; [|done].
      rewrite He, andb_false_r, app_nil_r. by destruct has_drop.
    + destruct (Hf eq_refl) as [-> ->]. split; cbn; [done|by exists called|done|done].
    + by split; cbn; [done|exists called|..].
Qed.

Lemma closure_attach_inv has_drop : closure_inv has_drop Closure_Attach.
Proof.
  split; cbn; [done| |done|done]. exists []. split; [|done]. by rewrite andb_false_r.
Qed.

Lemma closure_reachable_inv has_drop s : rtc (closure_step has_drop) Closure_Attach s ->
  closure_inv has_drop s.
Proof.
  intros H. pose proof (closure_attach_inv has_drop) as Hi.
  induction H as [|s s1 s2 H _ IH]; [done|]. apply IH. by eapply closure_step_inv.
Qed.

(** What is left for the goroutine to do once the channel is closed. *)
Definition closure_rank (s : closure) : nat :=
  match cl_pc s with
  | CRange => 2 * length (ch_buf (cl_chan s)) + 3
  | CCall _ => 2 * length (ch_buf (cl_chan s)) + 4
  | CDrop => 2
  | CClosing => 1
  | CExit => 0
  end.

Lemma closure_goroutine_rank has_drop s : ch_closed (cl_chan s) = true -> cl_pc s <> CExit ->
  closure_rank (closure_goroutine has_drop s) = (closure_rank s - 1)%nat.
Proof.
  destruct s as [[k buf cl] pc dn calls evs]. cbn. intros -> Hp.
  destruct pc as [|v| | |]; unfold closure_goroutine, closure_rank, chan_recv; cbn; try done; try lia.
  destruct buf; cbn; lia.
Qed.

Lemma closure_goroutine_frame has_drop s :
  ch_closed (cl_chan (closure_goroutine has_drop s)) = ch_closed (cl_chan s) /\
  cl_calls (closure_goroutine has_drop s) = cl_calls s.
Proof.
  destruct s as [[k buf cl] pc dn calls evs]. unfold closure_goroutine, chan_recv. cbn.
  destruct pc; cbn; try done. by destruct buf.
Qed.

Lemma closure_finishes has_drop n : forall s, closure_inv has_drop s -> ch_closed (cl_chan s) = true ->
  (closure_rank s <= n)%nat ->
  let s' := Nat.iter n (closure_goroutine has_drop) s in
  closure_inv has_drop s' /\ cl_pc s' = CExit /\ cl_calls s' = cl_calls s.
Proof.
  induction n as [|n IH]; intros s Hi Hcl Hn.
  - cbn. split_and!; [done| |done]. unfold closure_rank in Hn. destruct (cl_pc s); [lia..|done].
  - rewrite Nat.iter_succ_r. destruct (closure_goroutine_frame has_drop s) as [Hf Hc].
    rewrite <- Hc. apply IH.
    + eapply closure_step_inv; [done|apply closure_step_run].
    + by rewrite Hf.
    + assert (Hp : cl_pc s = CExit \/ cl_pc s <> CExit) by (destruct (cl_pc s); auto; by right).
      destruct Hp as [Hp|Hp]; [|rewrite closure_goroutine_rank by done; lia].
      unfold closure_goroutine. rewrite Hp. unfold closure_rank. rewrite Hp. lia.
Qed.
End Handlers.

(** ** What a subscriber sees *)

(** A FIFO channel gives the user the values for which there was room, in
    order. *)
Theorem fifo_channel {T} capacity (s : @fifo T) : rtc fifo_step (Fifo_Attach capacity) s ->
  ff_received s ++ ch_buf (ff_chan s) = accepted (channel_cap capacity) (ff_calls s) /\
  (length (ch_buf (ff_chan s)) <= channel_cap capacity)%nat.
Proof.
  intros H. assert (Hi : fifo_inv (channel_cap capacity) (Fifo_Attach capacity : @fifo T))
    by (split; cbn; [done|lia|done]).
  induction H as [s|s s1 s2 H _ IH]; [by destruct Hi|]. apply IH. by eapply fifo_step_inv.
Qed.

(** However deliveries and receptions interleave, the values pending in
    a ring channel are the most recent ones delivered, at most its capacity;
    those received are older and in order; and the newest value delivered is
    never the one discarded. *)
Theorem ring_channel {T} capacity (s : @ring T) : rtc ring_step (Ring_Attach capacity) s ->
  (exists old, rg_delivered s = old ++ ch_buf (rg_chan s) /\ rg_received s `sublist_of` old) /\
  (rg_pc s = RIdle -> last (rg_received s ++ ch_buf (rg_chan s)) = last (rg_delivered s)) /\
  (length (ch_buf (rg_chan s)) <= channel_cap capacity)%nat.
Proof. by intros [_ Hr _ Hv Hn]%ring_reachable_inv. Qed.

(** The retry loop of a ring channel's deliver ends after at most three
    selects of its own, never sends on a closed channel, and receptions by
    the user in between do not delay it. *)
Theorem ring_deliver_returns {T} capacity (s : @ring T) :
  rtc ring_step (Ring_Attach capacity) s -> rg_pc s <> RIdle ->
  (ring_rank s <= 3)%nat /\
  (exists s', ring_select s = Ok s' /\ (ring_rank s' < ring_rank s)%nat /\
     (ring_rank s' = 0%nat -> rg_pc s' = RIdle)) /\
  (ring_rank (ring_recv s).2 <= ring_rank s)%nat.
Proof.
  intros H Hpc. pose proof (ring_reachable_inv capacity s H) as Hi.
  pose proof (channel_cap_pos capacity) as Hcap.
  assert (Hr : (0 < ring_rank s <= 3)%nat).
  { unfold ring_rank. destruct (rg_pc s); [done| |lia]. destruct (_ <? _)%nat; lia. }
  split; [lia|]. split.
  - destruct (ring_select_inv _ s Hcap Hi) as (s' & E & _ & Hl). exists s'. split_and!; [done|lia|].
    unfold ring_rank. destruct (rg_pc s'); [done| |done]. by destruct (_ <? _)%nat.
  - destruct s as [[k buf cl] pc del rcv]. unfold ring_recv, chan_recv, ring_rank. cbn.
    destruct buf as [|b buf]; cbn; [done|]. destruct pc; [done| |done].
    destruct (Nat.ltb_spec (length buf) k), (Nat.ltb_spec (S (length buf)) k); lia.
Qed.

(** After drop has closed the queue of a Closure, its goroutine
    finishes within a bounded number of steps; by then the callback has been
    called on every value accepted, in order, and Drop once, after the last
    call, and nothing can happen any more. *)
Theorem closure_drop_waits {T} has_drop (s : @closure T) :
  rtc (closure_step has_drop) Closure_Attach s -> ch_closed (cl_chan s) = true ->
  let s' := Nat.iter (closure_rank s) (closure_goroutine has_drop) s in
  cl_done s' = true /\
  cl_events s' = (ECall <$> accepted closure_capacity (cl_calls s)) ++ (if has_drop then [EDrop] else []) /\
  forall s2, closure_step has_drop s' s2 -> s2 = s'.
Proof.
  intros H Hcl s'. pose proof (closure_reachable_inv has_drop s H) as Hi.
  destruct (closure_finishes has_drop _ s Hi Hcl (le_n _)) as ([Hc (called & He & Hv) Hf Hd] & Hp & Hk).
  fold s' in Hc, He, Hv, Hf, Hd, Hp, Hk. rewrite Hp in He, Hv, Hf, Hd. cbn in Hv, Hf, Hd.
  destruct (Hf eq_refl) as [Hcl' Hb]. rewrite Hb, app_nil_r in Hv. split_and!; [done| |].
  - rewrite <- Hk, <- Hv, He. by rewrite andb_true_r.
  - intros s2 Hs. inversion Hs as [v ? ? E|? ? E|]; subst.
    + unfold closure_deliver, chan_try_send in E. by rewrite Hcl' in E.
    + unfold closure_close, chan_close in E. by rewrite Hcl' in E.
    + unfold closure_goroutine. by rewrite Hp.
Qed.

(** ** Subscription: [Drop] against the dispatch

    [dispatchPush] holds the registry's read lock while it delivers;
    [Subscriber.Drop] (and [Queryable.Drop]) takes the write lock to forget the
    entry before it closes the handler's channel. *)

(** Where a call of [Drop] is. *)
Inductive drop_pc := DStart | DWon | DUnregistered | DReturned.

Record subscription := mkSub {
  sb_dropped : bool; sb_registered : bool; sb_readers : nat; sb_closed : bool; sb_panic : bool;
  sb_drops : list drop_pc }.

Definition Declared (calls : nat) : subscription :=
  mkSub false true 0 false false (replicate calls DStart).

Definition sub_enter (s : subscription) : subscription :=
  mkSub (sb_dropped s) (sb_registered s) (S (sb_readers s)) (sb_closed s) (sb_panic s) (sb_drops s).
Definition sub_leave (s : subscription) : subscription :=
  mkSub (sb_dropped s) (sb_registered s) (pred (sb_readers s)) (sb_closed s) (sb_panic s) (sb_drops s).
(** A send on a closed channel panics. *)
Definition sub_deliver (s : subscription) : subscription :=
  mkSub (sb_dropped s) (sb_registered s) (sb_readers s) (sb_closed s)
    (sb_panic s || (sb_registered s && sb_closed s)) (sb_drops s).
(** [s.dropped.CompareAndSwap(false, true)] *)
Definition sub_cas (i : nat) (s : subscription) : subscription :=
  mkSub true (sb_registered s) (sb_readers s) (sb_closed s) (sb_panic s)
    (<[i := if sb_dropped s then DReturned else DWon]> (sb_drops s)).
Definition sub_unregister (i : nat) (s : subscription) : subscription :=
  mkSub (sb_dropped s) false (sb_readers s) (sb_closed s) (sb_panic s) (<[i := DUnregistered]> (sb_drops s)).
(** [s.dropFn()] closes the channel. *)
Definition sub_close (i : nat) (s : subscription) : subscription :=
  mkSub (sb_dropped s) (sb_registered s) (sb_readers s) true (sb_panic s || sb_closed s)
    (<[i := DReturned]> (sb_drops s)).

Inductive sub_step : subscription -> subscription -> Prop :=
  | sub_step_enter s : sub_step s (sub_enter s)
  | sub_step_deliver s : (0 < sb_readers s)%nat -> sub_step s (sub_deliver s)
  | sub_step_leave s : (0 < sb_readers s)%nat -> sub_step s (sub_leave s)
  | sub_step_cas i s : sb_drops s !! i = Some DStart -> sub_step s (sub_cas i s)
  | sub_step_unregister i s : sb_drops s !! i = Some DWon -> sb_readers s = 0%nat ->
      sub_step s (sub_unregister i s)
  | sub_step_close i s : sb_drops s !! i = Some DUnregistered -> sub_step s (sub_close i s).

(** A call that owns the teardown. *)
Definition owner (pc : drop_pc) : bool := match pc with DWon | DUnregistered => true | _ => false end.

Record sub_inv (s : subscription) : Prop := {
  si_panic : sb_panic s = false;
  si_closed : sb_closed s = true -> sb_registered s = false /\ sb_dropped s = true;
  si_owner : forall i pc, sb_drops s !! i = Some pc -> owner pc = true ->
    sb_dropped s = true /\ sb_closed s = false /\ (pc = DUnregistered -> sb_registered s = false);
  si_unique : forall i j pc pc', sb_drops s !! i = Some pc -> sb_drops s !! j = Some pc' ->
    owner pc = true -> owner pc' = true -> i = j }.

(** A call that becomes [pc] while no other owns the teardown. *)
Lemma sub_step_inv s s' : sub_inv s -> sub_step s s' -> sub_inv s'.
Proof.
  intros Hi Hs. destruct Hs as [s|s Hr|s Hr|i s E|i s E Hr|i s E]; destruct Hi as [Hp Hc Ho Hu].
  - by split.
  - split; cbn; [|done..]. rewrite Hp. cbn. destruct (sb_closed s); [|by rewrite andb_false_r].
    by destruct Hc as [-> _].
  - by split.
  - assert (Hnone : sb_dropped s = false -> forall j pc, sb_drops s !! j = Some pc -> owner pc = false).
    { intros Hd j pc Hj. destruct (owner pc) eqn:Hpc; [|done]. destruct (Ho j pc Hj Hpc). congruence. }
    split; cbn; [done| | |].
    + intros H. by destruct (Hc H).
    + intros j pc [[<- [<- _]]|[Hij Hj]]%list_lookup_insert_Some Hpc.
      * destruct (sb_dropped s) eqn:Hd; [done|]. split_and!; [done| |done].
        destruct (sb_closed s); [by destruct Hc|done].
      * by destruct (Ho j pc Hj Hpc) as (_ & ? & ?).
    + intros j k pc pc' [[<- [<- _]]|[Hij Hj]]%list_lookup_insert_Some
        [[<- [<- _]]|[Hik Hk]]%list_lookup_insert_Some Hpc Hpc'; [done| | |by eapply Hu].
      * destruct (sb_dropped s) eqn:Hd; [done|]. by rewrite (Hnone eq_refl k pc' Hk) in Hpc'.
      * destruct (sb_dropped s) eqn:Hd; [done|]. by rewrite (Hnone eq_refl j pc Hj) in Hpc.
  - destruct (Ho i DWon E eq_refl) as (Hd & Hcl & _). split; cbn; [done| | |].
    + intros H. by destruct (Hc H).
    + intros j pc [[<- [<- _]]|[Hij Hj]]%list_lookup_insert_Some Hpc; [done|].
      destruct Hij. by eapply Hu.
    + intros j k pc pc' [[<- [<- _]]|[Hij Hj]]%list_lookup_insert_Some
        [[<- [<- _]]|[Hik Hk]]%list_lookup_insert_Some Hpc Hpc'; [done| | |by eapply Hu].
      * by eapply (Hu i k).
      * by eapply (Hu j i).
  - destruct (Ho i DUnregistered E eq_refl) as (Hd & Hcl & Hr). split; cbn.
    + by rewrite Hp, Hcl.
    + auto.
    + intros j pc [[<- [<- _]]|[Hij Hj]]%list_lookup_insert_Some Hpc; [done|].
      destruct Hij. by eapply (Hu i j).
    + intros j k pc pc' [[<- [<- _]]|[Hij Hj]]%list_lookup_insert_Some
        [[<- [<- _]]|[Hik Hk]]%list_lookup_insert_Some Hpc Hpc'; [done..|by eapply Hu].
Qed.

(** However calls of Drop and deliveries of the session interleave, no
    value is delivered to a handler after it was dropped and no handler is
    dropped twice: neither a send on a closed channel nor a double close can
    happen. *)
Theorem subscription_drop_safe calls s : rtc sub_step (Declared calls) s ->
  sb_panic s = false /\ (sb_closed s = true -> sb_registered s = false) /\
  (forall i j pc pc', sb_drops s !! i = Some pc -> sb_drops s !! j = Some pc' ->
     owner pc = true -> owner pc' = true -> i = j).
Proof.
  intros H. assert (Hi : sub_inv (Declared calls)).
  { split; cbn; [done|done| |].
    - intros i pc Hi. apply lookup_replicate in Hi as [-> _]. done.
    - intros i j pc pc' Hi. apply lookup_replicate in Hi as [-> _]. done. }
  induction H as [s|s s1 s2 H _ IH].
  - destruct Hi as [Hp Hc Ho Hu]. split_and!; [done|intros Hcl; by destruct (Hc Hcl)|done].
  - apply IH. by eapply sub_step_inv.
Qed.

(** ** Examples and witnesses *)

Definition sample_fifo : @fifo Z :=
  match (s ← fifo_deliver 1 (Fifo_Attach 2); s ← fifo_deliver 2 s; s ← fifo_deliver 3 s;
         fifo_deliver 4 (fifo_recv s).2) with
  | Ok s => s | Err _ => Fifo_Attach 2 end.

(** Capacity 2, four calls and a receive after the third: 3 is lost. *)
Example sample_fifo_state : ch_buf (ff_chan sample_fifo) = [2; 4] /\ ff_received sample_fifo = [1].
Proof. by vm_compute. Qed.

Lemma fifo_channel_witness :
  ff_received sample_fifo ++ ch_buf (ff_chan sample_fifo) = accepted 2 (ff_calls sample_fifo) /\
  (length (ch_buf (ff_chan sample_fifo)) <= 2)%nat.
Proof.
  apply (fifo_channel 2 sample_fifo).
  eapply rtc_l; [by apply (fifo_step_deliver 1)|]. eapply rtc_l; [by apply (fifo_step_deliver 2)|].
  eapply rtc_l; [by apply (fifo_step_deliver 3)|]. eapply rtc_l; [apply fifo_step_recv|].
  eapply rtc_l; [by apply (fifo_step_deliver 4)|]. apply rtc_refl.
Defined.

(** Capacity 1: the second value replaces the first. *)
Definition ring_after (s : @ring Z) : ring := match ring_select s with Ok s => s | Err _ => s end.
Definition ring_begin (v : Z) (s : @ring Z) : ring :=
  mkRing (rg_chan s) (RSend v) (rg_delivered s) (rg_received s).
Definition sample_ring_full : @ring Z := ring_after (ring_begin 1 (Ring_Attach 1)).
Definition sample_ring_popped : @ring Z := ring_after (ring_begin 2 sample_ring_full).
Definition sample_ring : @ring Z := ring_after (ring_after sample_ring_popped).

Lemma sample_ring_full_reachable : rtc ring_step (Ring_Attach 1) (ring_begin 2 sample_ring_full).
Proof.
  eapply rtc_l; [by apply (ring_step_begin 1)|].
  eapply rtc_l; [by apply (ring_step_select (ring_begin 1 (Ring_Attach 1)) sample_ring_full)|].
  apply rtc_once. by apply (ring_step_begin 2).
Qed.

Lemma ring_channel_witness :
  ch_buf (rg_chan sample_ring) = [2] /\
  (exists old, rg_delivered sample_ring = old ++ ch_buf (rg_chan sample_ring) /\
     rg_received sample_ring `sublist_of` old) /\
  (rg_pc sample_ring = RIdle ->
     last (rg_received sample_ring ++ ch_buf (rg_chan sample_ring)) = last (rg_delivered sample_ring)) /\
  (length (ch_buf (rg_chan sample_ring)) <= 1)%nat.
Proof.
  split; [reflexivity|]. apply (ring_channel 1 sample_ring).
  etransitivity; [exact sample_ring_full_reachable|].
  eapply rtc_l; [by apply (ring_step_select _ sample_ring_popped)|].
  eapply rtc_l; [by apply (ring_step_select _ (ring_after sample_ring_popped))|].
  apply rtc_once. by apply (ring_step_select _ sample_ring).
Defined.

Lemma ring_deliver_returns_witness :
  let s := ring_begin 2 sample_ring_full in
  ring_rank s = 3%nat /\ (ring_rank s <= 3)%nat /\
  (exists s', ring_select s = Ok s' /\ (ring_rank s' < ring_rank s)%nat /\
     (ring_rank s' = 0%nat -> rg_pc s' = RIdle)) /\
  (ring_rank (ring_recv s).2 <= ring_rank s)%nat.
Proof.
  cbv zeta. split; [reflexivity|].
  apply (ring_deliver_returns 1); [exact sample_ring_full_reachable|done].
Defined.

(** Two values, the first one received when the channel is closed. *)
Definition sample_closure : @closure Z :=
  match (s ← closure_deliver 1 Closure_Attach; s ← closure_deliver 2 s;
         closure_close (closure_goroutine true s)) with
  | Ok s => s | Err _ => Closure_Attach end.

Lemma closure_drop_waits_witness :
  let s' := Nat.iter (closure_rank sample_closure) (closure_goroutine true) sample_closure in
  cl_events s' = [ECall 1; ECall 2; EDrop] /\
  cl_done s' = true /\
  cl_events s' = (ECall <$> accepted closure_capacity (cl_calls sample_closure)) ++ [EDrop] /\
  forall s2, closure_step true s' s2 -> s2 = s'.
Proof.
  cbv zeta. split; [vm_compute; reflexivity|].
  apply (closure_drop_waits true sample_closure); [|vm_compute; reflexivity].
  eapply rtc_l; [by apply (closure_step_deliver true 1)|].
  eapply rtc_l; [by apply (closure_step_deliver true 2)|].
  eapply rtc_l; [apply closure_step_run|]. apply rtc_once. by apply closure_step_close.
Defined.

(** Two calls of [Drop], one dispatch under way: the first one to win waits for
    the dispatch, the other returns. *)
Definition sample_subscription : subscription :=
  sub_close 0 (sub_unregister 0 (sub_leave (sub_deliver (sub_cas 1 (sub_cas 0 (sub_enter (Declared 2))))))).

Lemma subscription_drop_safe_witness :
  sb_closed sample_subscription = true /\ sb_panic sample_subscription = false /\
  (sb_closed sample_subscription = true -> sb_registered sample_subscription = false) /\
  (forall i j pc pc', sb_drops sample_subscription !! i = Some pc ->
     sb_drops sample_subscription !! j = Some pc' -> owner pc = true -> owner pc' = true -> i = j).
Proof.
  split; [reflexivity|]. apply (subscription_drop_safe 2).
  eapply rtc_l; [apply sub_step_enter|]. eapply rtc_l; [by apply (sub_step_cas 0)|].
  eapply rtc_l; [by apply (sub_step_cas 1)|].
  eapply rtc_l; [apply sub_step_deliver; cbn; lia|]. eapply rtc_l; [apply sub_step_leave; cbn; lia|].
  eapply rtc_l; [by apply (sub_step_unregister 0)|]. apply rtc_once. by apply (sub_step_close 0).
Defined.
