(* ===== verification/Writer.v ===== *)
(** * internal/session/writer.go: the writer goroutine

    [writerLoop] as a step relation over the outbound queue: senders, the
    signals [drain] and [closing], and the [select]s of the loop interleave
    freely.  [keepalive.go] and [close.go] contribute the batches that bypass
    the batcher. *)
From S2P Require Import Prelude Buffer Vle Codec WirePrim WireTransport WireNetwork Transport.

(** Exactly one field of the Go struct is set. *)
Inductive OutboundItem :=
  | INetwork (m : OutboundMessage)
  | IRaw (batch : bytes)
  | IEmpty.

Definition encodeKeepAlive : result bytes := EncodeNetworkMessage (mkKeepAlive []).
Definition EncodeCloseMessage (reason : Z) : result bytes :=
  EncodeNetworkMessage (mkClose true reason []).

(** [time.Duration] of the keepalive ticker, in nanoseconds; [None] when the
    loop does not start. *)
Definition keepalive_interval (peerLeaseMs divisor : Z) : option Z :=
  let divisor := if divisor <=? 0 then 4 else divisor in
  let interval := Z.max (Z.quot (int64 (int64 peerLeaseMs * 1000000)) divisor) 50000000 in
  if peerLeaseMs =? 0 then None else Some interval.

(** Where the goroutine is: the main [select], [drainAvailable],
    [drainOnExit], or gone ([writerDone] closed). *)
Inductive writer_pc := WLoop | WAvailable | WDraining | WExited.

Section Writer.
Context {W : Type}.
(** [link.WriteBatch]. *)
Variable WriteBatch : bytes -> W -> option error * W.

Definition write_raw (batch : bytes) : sem (Batcher * W) unit := fun '(b, w) =>
  let '(err, w) := WriteBatch batch w in (of_error err, (b, w)).

Definition handleItem (item : OutboundItem) : sem (Batcher * W) unit :=
  match item with
  | INetwork m => Enqueue WriteBatch m
  | IRaw batch => FlushAll WriteBatch;; write_raw batch
  | IEmpty => mret tt
  end.

(** [wr_taken] records the items received from the queue, [wr_sent] those
    put into it. *)
Record writer := mkWriter {
  wr_batcher : Batcher; wr_link : W; wr_outQ : list OutboundItem; wr_dead : bool; wr_pc : writer_pc;
  wr_drain : bool; wr_closing : bool; wr_taken : list OutboundItem; wr_sent : list OutboundItem }.

Definition start_writer (b : Batcher) (w : W) : writer := mkWriter b w [] false WLoop false false [] [].

(** [case item := <-outQ] in any of the three [select]s. *)
Definition writer_take (s : writer) : writer :=
  match wr_outQ s with
  | [] => s
  | item :: q =>
      let taken := wr_taken s ++ [item] in
      if wr_dead s
      then mkWriter (wr_batcher s) (wr_link s) q true (wr_pc s) (wr_drain s) (wr_closing s) taken (wr_sent s)
      else
        let '(r, (b, w)) := handleItem item (wr_batcher s, wr_link s) in
        let pc := match wr_pc s with WLoop => if is_ok r then WAvailable else WLoop | pc => pc end in
        mkWriter b w q (negb (is_ok r)) pc (wr_drain s) (wr_closing s) taken (wr_sent s)
  end.

(** The deferred [batcher.FlushAll()] and [close(writerDone)]. *)
Definition writer_exit (s : writer) : writer :=
  let '(_, (b, w)) := FlushAll WriteBatch (wr_batcher s, wr_link s) in
  mkWriter b w (wr_outQ s) (wr_dead s) WExited (wr_drain s) (wr_closing s) (wr_taken s) (wr_sent s).

(** [if !writeDead { batcher.FlushAll() }] at the end of a drain. *)
Definition writer_flush (s : writer) : writer :=
  if wr_dead s then s
  else
    let '(r, (b, w)) := FlushAll WriteBatch (wr_batcher s, wr_link s) in
    mkWriter b w (wr_outQ s) (negb (is_ok r)) (wr_pc s) (wr_drain s) (wr_closing s) (wr_taken s) (wr_sent s).

Definition set_pc (pc : writer_pc) (s : writer) : writer :=
  mkWriter (wr_batcher s) (wr_link s) (wr_outQ s) (wr_dead s) pc (wr_drain s) (wr_closing s) (wr_taken s) (wr_sent s).

(** The [default] branches. *)
Definition writer_default (s : writer) : writer :=
  match wr_pc s with
  | WAvailable => set_pc WLoop (writer_flush s)
  | WDraining => writer_exit (writer_flush s)
  | _ => s
  end.

Definition writer_send (item : OutboundItem) (s : writer) : writer :=
  mkWriter (wr_batcher s) (wr_link s) (wr_outQ s ++ [item]) (wr_dead s) (wr_pc s) (wr_drain s)
    (wr_closing s) (wr_taken s) (wr_sent s ++ [item]).
Definition writer_signal (drain closing : bool) (s : writer) : writer :=
  mkWriter (wr_batcher s) (wr_link s) (wr_outQ s) (wr_dead s) (wr_pc s) (wr_drain s || drain)
    (wr_closing s || closing) (wr_taken s) (wr_sent s).

(** What the goroutine may do next. *)
Inductive writer_run : writer -> writer -> Prop :=
  | run_take s : wr_pc s <> WExited -> wr_outQ s <> [] -> writer_run s (writer_take s)
  | run_default s : wr_pc s = WAvailable \/ wr_pc s = WDraining -> wr_outQ s = [] ->
      writer_run s (writer_default s)
  | run_drain s : wr_pc s = WLoop -> wr_drain s = true -> writer_run s (set_pc WDraining s)
  | run_stop s : wr_pc s = WLoop -> wr_closing s = true -> writer_run s (writer_exit s).

(** The goroutine, or its environment: a sender of an item [allowed], into a
    queue of [cap], or a signal. *)
Inductive writer_step (allowed : OutboundItem -> Prop) (cap : nat) : writer -> writer -> Prop :=
  | step_run s s' : writer_run s s' -> writer_step allowed cap s s'
  | step_send item s : allowed item -> (length (wr_outQ s) < cap)%nat ->
      writer_step allowed cap s (writer_send item s)
  | step_signal drain closing s : writer_step allowed cap s (writer_signal drain closing s).
End Writer.

(** ** What is on the wire *)

(** A unit of the batcher, or a batch that bypassed it. *)
Inductive wunit := WUnit (k : LaneKey) (u : tunit) | WRaw (batch : bytes).

Definition wunit_bytes (a : bool) (x : wunit) : bytes :=
  match x with WUnit k u => unit_bytes a k u | WRaw batch => batch end.
Definition wire_bytes (a : bool) (l : list wunit) : list bytes := map (wunit_bytes a) l.

Definition units (l : list wunit) : list (LaneKey * tunit) :=
  omap (fun x => match x with WUnit k u => Some (k, u) | WRaw _ => None end) l.
Definition raws (l : list wunit) : list bytes :=
  omap (fun x => match x with WRaw b => Some b | _ => None end) l.

Definition network (items : list OutboundItem) : list OutboundMessage :=
  omap (fun i => match i with INetwork m => Some m | _ => None end) items.
Definition raw_items (items : list OutboundItem) : list bytes :=
  omap (fun i => match i with IRaw b => Some b | _ => None end) items.

Definition item_ok (i : OutboundItem) : Prop :=
  match i with INetwork m => om_Priority m <= 7 /\ om_Encoded m <> [] | _ => True end.

(** Per lane, the units carry the network messages among [items], in order, and
    nothing of another message comes between the fragments of one. *)
Definition carries (mask : Z) (seeds : Z -> bool -> Z) (l : list wunit) (items : list OutboundItem) : Prop :=
  contiguous mask (units l) /\
  forall k, valid_key k -> exists sn',
    delivers mask (seeds k.1 k.2) (on_lane k (units l)) sn' (sent_on k (network items)).

(** When a raw batch is written, what was queued before it is on the wire. *)
Definition flushed_before_raw (mask : Z) (seeds : Z -> bool -> Z) (l : list wunit)
    (items : list OutboundItem) : Prop :=
  forall pre batch post, l = pre ++ WRaw batch :: post ->
  exists before rest, items = before ++ IRaw batch :: rest /\
    raws pre = raw_items before /\ carries mask seeds pre before.

(** ** Invariant of a writer whose link works *)

Record wire_ok (mask : Z) (b : Batcher) (out : list bytes) (items : list OutboundItem)
    (l : list wunit) (pend : LaneKey -> list bytes) : Prop := {
  wo_out : out = wire_bytes (b_attachQoS b) l;
  wo_batcher : batcher_ok mask b (units l) (fun k => sent_on k (network items)) pend;
  wo_raws : raws l = raw_items items;
  wo_flushed : flushed_before_raw mask (b_laneSeeds b) l items }.

Lemma units_app l l' : units (l ++ l') = units l ++ units l'.
Proof. apply omap_app. Qed.
Lemma raws_app l l' : raws (l ++ l') = raws l ++ raws l'.
Proof. apply omap_app. Qed.
Lemma wire_bytes_app a l l' : wire_bytes a (l ++ l') = wire_bytes a l ++ wire_bytes a l'.
Proof. apply map_app. Qed.

(** The units of a trace of the batcher. *)
Definition of_trace (tr : list (LaneKey * tunit)) : list wunit := map (fun ku => WUnit ku.1 ku.2) tr.

Lemma units_of_trace tr : units (of_trace tr) = tr.
Proof. unfold units in *. induction tr as [|[k u] tr IH]; [done|]. cbn. by f_equal. Qed.
Lemma raws_of_trace tr : raws (of_trace tr) = [].
Proof. by induction tr. Qed.
Lemma wire_bytes_of_trace a tr : wire_bytes a (of_trace tr) = trace_bytes a tr.
Proof. unfold wire_bytes, of_trace, trace_bytes. by rewrite map_map. Qed.

(** A raw batch inside [l ++ l'] is inside [l] when [l'] has none. *)
Lemma raw_split l l' pre batch post : raws l' = [] -> l ++ l' = pre ++ WRaw batch :: post ->
  exists post', l = pre ++ WRaw batch :: post'.
Proof.
  revert pre. induction l as [|x l IH]; intros pre Hr E.
  - cbn in E. subst l'. rewrite raws_app in Hr. cbn in Hr. by apply app_eq_nil in Hr as [_ ?].
  - destruct pre as [|y pre]; cbn in E; injection E as -> E; [by exists l|].
    destruct (IH pre Hr E) as (post' & ->). by exists post'.
Qed.

Lemma flushed_extend mask seeds l l' items items' : raws l' = [] ->
  flushed_before_raw mask seeds l items -> flushed_before_raw mask seeds (l ++ l') (items ++ items').
Proof.
  intros Hr H pre batch post E. destruct (raw_split l l' pre batch post Hr E) as (post' & E').
  destruct (H pre batch post' E') as (before & rest & -> & Hp & Hc).
  exists before, (rest ++ items'). by rewrite <- app_assoc.
Qed.

Lemma FlushAll_ok mask b tr msgs pend w : batcher_ok mask b tr msgs pend -> exists tr' b',
  FlushAll rec_sink (b, w) = (Ok tt, (b', w ++ trace_bytes (b_attachQoS b) tr')) /\
  batcher_ok mask b' (tr ++ tr') msgs (fun _ => []) /\ same_config b b'.
Proof.
  intros Hb. destruct (flush_keys_ok mask all_lanes b tr msgs pend w Hb) as (tr' & b' & pend' & E & Hb' & Hs & Hp).
  { apply Forall_forall. intros k. by rewrite all_lanes_spec. }
  exists tr', b'. split_and!; [done| |done]. eapply batcher_ok_ext; [exact Hb'|done|].
  intros k. rewrite Hp. case_decide as Hk; [done|]. rewrite all_lanes_spec in Hk.
  destruct (b_lanes b !! k) as [l|] eqn:El; [by destruct (bo_lane _ _ _ _ _ Hb k l El)|].
  by destruct (bo_absent _ _ _ _ _ Hb k El) as (_ & _ & ?).
Qed.

Lemma wire_ok_flush mask b out items l pend : wire_ok mask b out items l pend -> exists l' b' out',
  FlushAll rec_sink (b, out) = (Ok tt, (b', out')) /\ wire_ok mask b' out' items (l ++ l') (fun _ => []) /\
  raws l' = [] /\ same_config b b'.
Proof.
  intros [Ho Hb Hr Hf]. destruct (FlushAll_ok mask b _ _ _ out Hb) as (tr & b' & E & Hb' & Hs).
  exists (of_trace tr), b', (out ++ trace_bytes (b_attachQoS b) tr).
  split_and!; [done| |apply raws_of_trace|done]. destruct Hs as (_ & Ha & Hs). split.
  - rewrite wire_bytes_app, wire_bytes_of_trace. by rewrite Ha, <- Ho.
  - by rewrite units_app, units_of_trace.
  - by rewrite raws_app, raws_of_trace, app_nil_r.
  - rewrite Hs. rewrite <- (app_nil_r items). by apply flushed_extend; [apply raws_of_trace|].
Qed.

Lemma sent_on_snoc k msgs m : sent_on k (msgs ++ [m])
  = sent_on k msgs ++ (if decide (lane_key (om_Priority m) (om_Reliable m) = k) then [om_Encoded m] else []).
Proof.
  unfold sent_on. rewrite filter_app, fmap_app. f_equal. by rewrite filter_cons; case_decide.
Qed.

(** A flushed batcher has sent everything. *)
Lemma flushed_carries mask b out items l : wire_ok mask b out items l (fun _ => []) ->
  carries mask (b_laneSeeds b) l items.
Proof.
  intros [_ Hb _ _]. split; [by apply Hb|]. intros k Hk. destruct (b_lanes b !! k) as [x|] eqn:E.
  - destruct (bo_lane _ _ _ _ _ Hb k x E) as (_ & _ & ms & Hd & Hm). rewrite app_nil_r in Hm. subst ms. eauto.
  - destruct (bo_absent _ _ _ _ _ Hb k E) as (-> & -> & _). eexists. constructor.
Qed.

Lemma handleItem_ok mask b out items l pend item : wire_ok mask b out items l pend -> item_ok item ->
  exists l' b' out' pend', handleItem rec_sink item (b, out) = (Ok tt, (b', out')) /\
    wire_ok mask b' out' (items ++ [item]) (l ++ l') pend' /\ same_config b b'.
Proof.
  intros Hw Hi. destruct item as [m|batch|].
  - destruct Hi as [Hp Hm]. destruct Hw as [Ho Hb Hr Hf].
    destruct (Enqueue_ok mask b _ _ _ m out Hb Hp Hm) as (us & b' & pend' & E & Hb' & Hs).
    set (k := lane_key (om_Priority m) (om_Reliable m)) in *.
    exists (of_trace (map (pair k) us)), b', (out ++ trace_bytes (b_attachQoS b) (map (pair k) us)), pend'.
    split_and!; [done| |done]. destruct Hs as (_ & Ha & Hs). split.
    + by rewrite wire_bytes_app, wire_bytes_of_trace, Ha, <- Ho.
    + rewrite units_app, units_of_trace. eapply batcher_ok_ext; [exact Hb'| |done].
      intros k'. unfold network. rewrite omap_app. cbn. rewrite sent_on_snoc. fold k. unfold upd.
      destruct (decide (k' = k)) as [->|Hk]; [by rewrite decide_True|].
      by rewrite decide_False, app_nil_r by congruence.
    + unfold raw_items. by rewrite raws_app, raws_of_trace, omap_app, Hr.
    + rewrite Hs. by apply flushed_extend; [apply raws_of_trace|].
  - destruct (wire_ok_flush _ _ _ _ _ _ Hw) as (l' & b' & out' & E & Hw' & Hl' & Hs).
    exists (l' ++ [WRaw batch]), b', (out' ++ [batch]), (fun _ => []). split_and!; [| |done].
    + unfold handleItem, mbind, sem_bind. by rewrite E.
    + pose proof (flushed_carries _ _ _ _ _ Hw') as Hc. destruct Hw' as [Ho Hb Hr Hf].
      rewrite app_assoc. split.
      * by rewrite wire_bytes_app, <- Ho.
      * rewrite units_app. cbn. rewrite app_nil_r. eapply batcher_ok_ext; [exact Hb| |done].
        intros k. unfold network. rewrite omap_app. cbn. by rewrite app_nil_r.
      * unfold raw_items. by rewrite raws_app, omap_app, Hr.
      * intros pre batch' post Ep.
        destruct (decide (post = [])) as [->|Hpost].
        -- apply app_inj_tail in Ep as [<- [= <-]]. exists items, []. split_and!; [done|done|done].
        -- destruct (exists_last Hpost) as (post' & x & ->).
           rewrite app_comm_cons, app_assoc in Ep. apply app_inj_tail in Ep as [Ep _].
           destruct (Hf pre batch' post' Ep) as (before & rest & -> & H1 & H2).
           exists before, (rest ++ [IRaw batch]). by rewrite <- app_assoc.
  - exists [], b, out, pend. split_and!; [done| |done]. destruct Hw as [Ho Hb Hr Hf].
    rewrite app_nil_r. split; [done| | |].
    + eapply batcher_ok_ext; [exact Hb| |done]. intros k. unfold network. rewrite omap_app. cbn. by rewrite app_nil_r.
    + unfold raw_items. by rewrite omap_app, app_nil_r.
    + rewrite <- (app_nil_r l). by apply flushed_extend.
Qed.

(** ** The theorems *)

Record writer_inv (mask : Z) (b0 : Batcher) (s : @writer (list bytes)) : Prop := {
  wi_alive : wr_dead s = false;
  wi_sent : wr_sent s = wr_taken s ++ wr_outQ s;
  wi_queue : Forall item_ok (wr_outQ s);
  wi_config : same_config b0 (wr_batcher s);
  wi_wire : exists l pend, wire_ok mask (wr_batcher s) (wr_link s) (wr_taken s) l pend /\
    (wr_pc s = WExited -> carries mask (b_laneSeeds b0) l (wr_taken s)) }.

Lemma writer_flush_inv mask b0 s : writer_inv mask b0 s -> writer_inv mask b0 (writer_flush rec_sink s) /\
  wr_pc (writer_flush rec_sink s) = wr_pc s /\ wr_outQ (writer_flush rec_sink s) = wr_outQ s.
Proof.
  intros [Hd Hs Hq Hc (l & pend & Hw & He)]. unfold writer_flush. rewrite Hd.
  destruct (wire_ok_flush _ _ _ _ _ _ Hw) as (l' & b' & out' & E & Hw' & Hl' & Hs'). rewrite E. cbn.
  split; [|done]. split; cbn; [done..|by eapply same_config_trans|].
  exists (l ++ l'), (fun _ => []). split; [done|]. intros _.
  pose proof (flushed_carries _ _ _ _ _ Hw') as H. destruct Hc as (_ & _ & Hc), Hs' as (_ & _ & Hs').
  by rewrite Hs', Hc in H.
Qed.

Lemma writer_exit_inv mask b0 s : writer_inv mask b0 s -> writer_inv mask b0 (writer_exit rec_sink s).
Proof.
  intros [Hd Hs Hq Hc (l & pend & Hw & He)]. unfold writer_exit.
  destruct (wire_ok_flush _ _ _ _ _ _ Hw) as (l' & b' & out' & E & Hw' & Hl' & Hs'). rewrite E.
  split; cbn; [done..|by eapply same_config_trans|].
  exists (l ++ l'), (fun _ => []). split; [done|]. intros _.
  pose proof (flushed_carries _ _ _ _ _ Hw') as H. destruct Hc as (_ & _ & Hc), Hs' as (_ & _ & Hs').
  by rewrite Hs', Hc in H.
Qed.

Lemma set_pc_inv mask b0 pc s : pc <> WExited -> writer_inv mask b0 s -> writer_inv mask b0 (set_pc pc s).
Proof. intros Hp [Hd Hs Hq Hc (l & pend & Hw & He)]. split; cbn; try done. by exists l, pend. Qed.

Lemma writer_take_inv mask b0 s : wr_pc s <> WExited -> writer_inv mask b0 s ->
  writer_inv mask b0 (writer_take rec_sink s).
Proof.
  intros Hp Hi. pose proof Hi as [Hd Hs Hq Hc (l & pend & Hw & He)]. unfold writer_take.
  destruct (wr_outQ s) as [|item q] eqn:Eq; [done|]. rewrite Hd.
  apply Forall_cons in Hq as [Hi1 Hq].
  destruct (handleItem_ok _ _ _ _ _ _ item Hw Hi1) as (l' & b' & out' & pend' & E & Hw' & Hs').
  rewrite E. cbn. split; cbn; [done| |done|by eapply same_config_trans|].
  - by rewrite Hs, <- app_assoc.
  - exists (l ++ l'), pend'. split; [done|]. by destruct (wr_pc s).
Qed.

Lemma writer_step_inv mask b0 cap s s' : writer_inv mask b0 s ->
  writer_step rec_sink item_ok cap s s' -> writer_inv mask b0 s'.
Proof.
  intros Hi Hst. revert Hi. destruct Hst as [s1 s2 Hr|item s1 Ha _|drain closing s1]; intros Hi.
  - revert Hi. destruct Hr as [s1 Hp _|s1 Hp Hq|s1 _ _|s1 _ _]; intros Hi.
    + by apply writer_take_inv.
    + destruct (writer_flush_inv _ _ _ Hi) as [Hf _]. unfold writer_default.
      destruct Hp as [-> | ->]; [by apply set_pc_inv|by apply writer_exit_inv].
    + by apply set_pc_inv.
    + by apply writer_exit_inv.
  - destruct Hi as [Hd Hs Hq Hc Hw]. split; cbn; try done.
    + by rewrite Hs, <- app_assoc.
    + by apply Forall_app, conj, Forall_singleton.
  - by destruct Hi as [Hd Hs Hq Hc Hw]; split.
Qed.

Lemma writer_reaches bs a seeds mask cap s : 16 < bs -> 0 <= mask < 2 ^ 64 -> seeds_ok seeds ->
  rtc (writer_step rec_sink item_ok cap) (start_writer (NewBatcherWithLaneSeeds bs a seeds mask) []) s ->
  writer_inv (normalizeSNMask mask) (NewBatcherWithLaneSeeds bs a seeds mask) s.
Proof.
  intros Hb Hm Hs H. set (b0 := NewBatcherWithLaneSeeds bs a seeds mask) in *.
  assert (Hi : writer_inv (normalizeSNMask mask) b0 (start_writer b0 [])).
  { split; cbn; [done..|]. exists [], (fun _ => []). split; [|done]. split; [done| |done|].
    - by apply NewBatcher_ok.
    - intros pre batch post E. by destruct pre. }
  clear Hb Hm Hs. induction H as [s|s s1 s2 Hst _ IH]; [done|]. apply IH. by eapply writer_step_inv.
Qed.

(** What is on the link of a reachable writer. *)
Lemma writer_wire bs a seeds mask cap s : 16 < bs -> 0 <= mask < 2 ^ 64 -> seeds_ok seeds ->
  rtc (writer_step rec_sink item_ok cap) (start_writer (NewBatcherWithLaneSeeds bs a seeds mask) []) s ->
  exists l, wr_link s = wire_bytes a l /\
    Forall (fun ku => valid_key ku.1 /\ len (unit_bytes a ku.1 ku.2) <= bs) (units l) /\
    raws l = raw_items (wr_taken s) /\
    flushed_before_raw (normalizeSNMask mask) seeds l (wr_taken s) /\
    (wr_pc s = WExited -> carries (normalizeSNMask mask) seeds l (wr_taken s)) /\
    wr_sent s = wr_taken s ++ wr_outQ s.
Proof.
  intros Hb Hm Hs H.
  destruct (writer_reaches bs a seeds mask cap s Hb Hm Hs H)
    as [_ Hsent _ (Cb & Ca & Cs) (l & pend & [Ho Hbt Hr Hfl] & He)].
  cbn in Cb, Ca, Cs. rewrite Ca in Ho. rewrite Cs in Hfl. exists l. split_and!; try done.
  pose proof (bo_bound _ _ _ _ _ Hbt) as Hbd. rewrite Ca, Cb in Hbd.
  rewrite Forall_forall in Hbd |- *. intros [k u] Hin. split; [|by apply Hbd].
  by eapply batcher_keys.
Qed.


Section Stops.
Context {W : Type} (WriteBatch : bytes -> W -> option error * W).

(** An upper bound of what the goroutine still does once it must stop. *)
Definition writer_rank (s : @writer W) : nat :=
  match wr_pc s with
  | WExited => 0
  | WDraining => 2 * length (wr_outQ s) + 1
  | WLoop => 2 * length (wr_outQ s) + 2
  | WAvailable => 2 * length (wr_outQ s) + 3
  end.

Lemma writer_flush_frame s : wr_pc (writer_flush WriteBatch s) = wr_pc s /\
  wr_outQ (writer_flush WriteBatch s) = wr_outQ s /\
  wr_closing (writer_flush WriteBatch s) = wr_closing s /\ wr_drain (writer_flush WriteBatch s) = wr_drain s.
Proof. unfold writer_flush. destruct (wr_dead s); [done|]. by destruct (FlushAll _ _) as [r [b w]]. Qed.

Lemma writer_exit_frame s : wr_pc (writer_exit WriteBatch s) = WExited /\
  wr_outQ (writer_exit WriteBatch s) = wr_outQ s /\
  wr_closing (writer_exit WriteBatch s) = wr_closing s /\ wr_drain (writer_exit WriteBatch s) = wr_drain s.
Proof. unfold writer_exit. by destruct (FlushAll _ _) as [r [b w]]. Qed.

Lemma writer_take_frame s item q : wr_outQ s = item :: q ->
  wr_outQ (writer_take WriteBatch s) = q /\
  (wr_pc (writer_take WriteBatch s) = wr_pc s \/
   wr_pc s = WLoop /\ wr_pc (writer_take WriteBatch s) = WAvailable).
Proof.
  intros E. unfold writer_take. rewrite E. destruct (wr_dead s); [by cbn; auto|].
  destruct (handleItem _ _ _) as [r [b w]]. cbn. split; [done|]. destruct (wr_pc s); auto.
  destruct (is_ok r); auto.
Qed.

Lemma writer_run_rank s s' : writer_run WriteBatch s s' -> (writer_rank s' < writer_rank s)%nat.
Proof.
  unfold writer_rank. intros [s1 Hp Hq|s1 Hp Hq|s1 Hp _|s1 Hp _].
  - destruct (wr_outQ s1) as [|item q] eqn:E; [done|].
    destruct (writer_take_frame s1 item q E) as [Hq' Hpc]. rewrite Hq'. cbn [length].
    destruct Hpc as [Hpc|[Hl Hpc]]; rewrite Hpc; [|rewrite Hl; lia]. destruct (wr_pc s1); [lia..|done].
  - unfold writer_default. destruct (writer_flush_frame s1) as (Hf & Hfq & _).
    destruct Hp as [Hp|Hp]; rewrite Hp; cbn [set_pc wr_pc wr_outQ].
    + rewrite Hfq. lia.
    + destruct (writer_exit_frame (writer_flush WriteBatch s1)) as [-> _]. lia.
  - cbn. rewrite Hp. lia.
  - destruct (writer_exit_frame s1) as [-> _]. rewrite Hp. lia.
Qed.

(** A drain empties the queue before the goroutine exits. *)
Lemma writer_run_drained s s' : wr_closing s = false -> (wr_pc s = WExited -> wr_outQ s = []) ->
  writer_run WriteBatch s s' ->
  wr_closing s' = false /\ (wr_pc s' = WExited -> wr_outQ s' = []) /\ wr_drain s' = wr_drain s.
Proof.
  intros Hc He Hr. revert Hc He.
  destruct Hr as [s1 Hp Hq|s1 Hp Hq|s1 Hp _|s1 Hp Hs]; intros Hc He.
  - unfold writer_take. destruct (wr_outQ s1) as [|item q]; [done|].
    destruct (wr_dead s1); cbn; [done|]. destruct (handleItem _ _ _) as [r [b w]]. cbn.
    split_and!; [done| |done]. by destruct (wr_pc s1), (is_ok r).
  - unfold writer_default. destruct (writer_flush_frame s1) as (Hf & Hfq & Hfc & Hfd).
    destruct (writer_exit_frame (writer_flush WriteBatch s1)) as (He1 & He2 & He3 & He4).
    destruct Hp as [Hp|Hp]; rewrite Hp; cbn; split_and!; congruence.
  - done.
  - congruence.
Qed.

(** The goroutine has been told to stop. *)
Definition signalled (s : @writer W) : Prop := wr_drain s = true \/ wr_closing s = true.

Lemma writer_run_signalled s s' : signalled s -> writer_run WriteBatch s s' -> signalled s'.
Proof.
  unfold signalled. intros Hsig Hr. revert Hsig.
  destruct Hr as [s1 _ _|s1 Hp _|s1 _ _|s1 _ _]; intros Hsig; [| |done|].
  - unfold writer_take. destruct (wr_outQ s1); [done|]. destruct (wr_dead s1); [done|].
    by destruct (handleItem _ _ _) as [? [? ?]].
  - unfold writer_default. destruct (writer_flush_frame s1) as (Hf & Hfq & Hfc & Hfd).
    destruct (writer_exit_frame (writer_flush WriteBatch s1)) as (He1 & He2 & He3 & He4).
    destruct Hp as [Hp|Hp]; rewrite Hp; cbn; destruct Hsig; (left + right); congruence.
  - destruct (writer_exit_frame s1) as (_ & _ & He3 & He4). destruct Hsig; (left + right); congruence.
Qed.

Lemma writer_run_progress s : signalled s -> wr_pc s <> WExited -> exists s', writer_run WriteBatch s s'.
Proof.
  intros Hs Hp. destruct (decide (wr_outQ s = [])) as [Hq|Hq]; [|by exists (writer_take WriteBatch s); apply run_take].
  destruct (wr_pc s) eqn:Epc; [|eexists; apply run_default; auto..|done].
  destruct Hs as [Hs|Hs]; [by eexists; apply run_drain|by eexists; apply run_stop].
Qed.

(** Left alone, it exits. *)
Lemma writer_run_exit s : signalled s -> exists s', rtc (writer_run WriteBatch) s s' /\ wr_pc s' = WExited.
Proof.
  remember (writer_rank s) as n eqn:En. revert s En.
  induction n as [n IH] using lt_wf_ind; intros s -> Hs.
  assert (Hx : wr_pc s = WExited \/ wr_pc s <> WExited) by (destruct (wr_pc s); auto).
  destruct Hx as [Hx|Hx]; [by exists s|]. destruct (writer_run_progress s Hs Hx) as [s1 H1].
  destruct (IH _ (writer_run_rank s s1 H1) s1 eq_refl) as (s' & H & Hx'); [by eapply writer_run_signalled|].
  exists s'. split; [by eapply rtc_l|done].
Qed.

Lemma writer_run_sent s s' : writer_run WriteBatch s s' -> wr_sent s' = wr_sent s.
Proof.
  assert (He : forall s, wr_sent (writer_exit WriteBatch s) = wr_sent s)
    by (intros x; unfold writer_exit; by destruct (FlushAll _ _) as [? [? ?]]).
  assert (Hf : forall s, wr_sent (writer_flush WriteBatch s) = wr_sent s).
  { intros x. unfold writer_flush. destruct (wr_dead x); [done|]. by destruct (FlushAll _ _) as [? [? ?]]. }
  intros [s1 _ _|s1 [Hp|Hp] _|s1 _ _|s1 _ _]; [|unfold writer_default; rewrite Hp..|done|done].
  - unfold writer_take. destruct (wr_outQ s1); [done|]. destruct (wr_dead s1); [done|].
    by destruct (handleItem _ _ _) as [? [? ?]].
  - apply Hf.
  - by rewrite He.
Qed.
End Stops.

(** Once drain or closing is signalled and no more items are sent, the
    writer exits on every schedule within a bounded number of steps and is
    never stuck, whatever the link does; after a drain alone it leaves no
    item in the queue. *)
Theorem writer_stops {W} (WriteBatch : bytes -> W -> option error * W) s :
  wr_drain s = true \/ wr_closing s = true ->
  (forall n s', nsteps (writer_run WriteBatch) n s s' -> (n <= writer_rank s)%nat) /\
  (forall s', rtc (writer_run WriteBatch) s s' -> wr_pc s' <> WExited -> exists s2, writer_run WriteBatch s' s2) /\
  (wr_closing s = false -> wr_pc s <> WExited ->
     forall s', rtc (writer_run WriteBatch) s s' -> wr_pc s' = WExited -> wr_outQ s' = []).
Proof.
  intros Hsig. split_and!.
  - intros n s' H. clear Hsig. induction H as [s|n s s1 s2 Hr _ IH]; [lia|].
    apply writer_run_rank in Hr. lia.
  - intros s' H Hp. assert (Hs' : signalled s').
    { clear Hp. induction H as [s|s s1 s2 Hr _ IH]; [done|]. apply IH. by eapply writer_run_signalled. }
    by apply writer_run_progress.
  - intros Hc Hp s' H. assert (He : wr_pc s = WExited -> wr_outQ s = []) by done. clear Hp Hsig.
    induction H as [s|s s1 s2 Hr _ IH]; [done|].
    destruct (writer_run_drained WriteBatch s s1 Hc He Hr) as (Hc' & He' & _). by apply IH.
Qed.

(** A single message whose priority exceeds 7 makes the writer drop
    every later item, keepalives included, although the link works: nothing
    more is written until the writer exits. *)
Theorem writer_invalid_priority {W} (WriteBatch : bytes -> W -> option error * W) s m q :
  wr_outQ s = INetwork m :: q -> wr_dead s = false -> 7 < om_Priority m ->
  let s1 := writer_take WriteBatch s in
  wr_link s1 = wr_link s /\ wr_dead s1 = true /\
  forall allowed cap s2, rtc (writer_step WriteBatch allowed cap) s1 s2 -> wr_pc s2 <> WExited ->
    wr_link s2 = wr_link s /\ wr_dead s2 = true.
Proof.
  intros Eq Hd Hp s1.
  assert (H1 : wr_link s1 = wr_link s /\ wr_dead s1 = true).
  { subst s1. unfold writer_take. rewrite Eq, Hd. unfold handleItem, Enqueue, QoSPriority_IsValid,
      QoSPriorityBackground. replace (om_Priority m <=? 7) with false by lia. done. }
  destruct H1 as [Hl Hd1]. split_and!; [done..|]. intros allowed cap s2 H.
  enough (wr_dead s2 = true /\ (wr_pc s2 <> WExited -> wr_link s2 = wr_link s)) by tauto.
  assert (Hl' : wr_pc s1 <> WExited -> wr_link s1 = wr_link s) by done. clear Hl.
  induction H as [s'|s' s3 s4 Hst _ IH]; [done|].
  revert Hd1 Hl'. destruct Hst as [s' s3 Hr|item s' _ _|drain closing s']; intros Hd1 Hl'; [|by apply IH..].
  revert Hd1 Hl'. destruct Hr as [s' Hpc _|s' Hpc _|s' Hpc _|s' _ _]; intros Hd1 Hl'.
  - apply IH; unfold writer_take; (destruct (wr_outQ s'); [done|]); rewrite Hd1; [done|].
    intros _. by apply Hl'.
  - apply IH; unfold writer_default, writer_flush; rewrite Hd1; unfold writer_exit.
    + destruct Hpc as [-> | ->]; [done|]. by destruct (FlushAll _ _) as [? [? ?]].
    + destruct Hpc as [Hpc|Hpc]; rewrite Hpc; [intros _; apply Hl'; by rewrite Hpc|].
      by destruct (FlushAll _ _) as [? [? ?]].
  - apply IH; [done|]. intros _. apply Hl'. by rewrite Hpc.
  - apply IH; unfold writer_exit; by destruct (FlushAll _ _) as [? [? ?]].
Qed.

(** ** Witnesses *)

Example sample_keepalive : encodeKeepAlive = Ok [4] /\ EncodeCloseMessage 0 = Ok [35; 0].
Proof. by vm_compute. Qed.

(** A publication, a keepalive after it, and a graceful stop. *)
Definition sample_item : OutboundItem := INetwork (mkOutbound [1; 2; 3] 5 true false).
Definition sample_start_writer : @writer (list bytes) :=
  start_writer (NewBatcherWithLaneSeeds 100 true (fun _ _ => 7) (2 ^ 28 - 1)) [].
Definition sample_queued : @writer (list bytes) :=
  writer_signal true false (writer_send (IRaw [4]) (writer_send sample_item sample_start_writer)).
Definition sample_exited : @writer (list bytes) :=
  writer_default rec_sink (set_pc WDraining (writer_default rec_sink
    (writer_take rec_sink (writer_take rec_sink sample_queued)))).

Lemma sample_queued_reachable : rtc (writer_step rec_sink item_ok 8) sample_start_writer sample_queued.
Proof.
  eapply rtc_l; [by apply (step_send _ _ _ sample_item); [|cbn; lia]|].
  eapply rtc_l; [by apply (step_send _ _ _ (IRaw [4])); [|cbn; lia]|].
  apply rtc_once, step_signal.
Qed.

Lemma sample_exited_run : rtc (writer_run rec_sink) sample_queued sample_exited.
Proof.
  eapply rtc_l; [by apply run_take|]. eapply rtc_l; [by apply run_take|].
  eapply rtc_l; [apply run_default; [by left|reflexivity]|].
  eapply rtc_l; [by apply run_drain|]. apply rtc_once, run_default; [by right|reflexivity].
Qed.


Lemma writer_stops_witness :
  writer_rank sample_queued = 6%nat /\
  (forall n s', nsteps (writer_run rec_sink) n sample_queued s' -> (n <= writer_rank sample_queued)%nat) /\
  (forall s', rtc (writer_run rec_sink) sample_queued s' -> wr_pc s' <> WExited ->
     exists s2, writer_run rec_sink s' s2) /\
  (wr_closing sample_queued = false -> wr_pc sample_queued <> WExited ->
     forall s', rtc (writer_run rec_sink) sample_queued s' -> wr_pc s' = WExited -> wr_outQ s' = []).
Proof. split; [reflexivity|]. apply (writer_stops rec_sink sample_queued). by left. Defined.

(** A publication with priority 9, then a keepalive that nobody will see. *)
Definition sample_poisoned : @writer (list bytes) :=
  writer_send (IRaw [4]) (writer_send (INetwork (mkOutbound [1] 9 true false)) sample_start_writer).

Lemma writer_invalid_priority_witness :
  let s1 := writer_take rec_sink sample_poisoned in
  wr_link s1 = [] /\ wr_dead s1 = true /\
  forall allowed cap s2, rtc (writer_step rec_sink allowed cap) s1 s2 -> wr_pc s2 <> WExited ->
    wr_link s2 = [] /\ wr_dead s2 = true.
Proof.
  apply (writer_invalid_priority rec_sink sample_poisoned (mkOutbound [1] 9 true false) [IRaw [4]]);
    [reflexivity|reflexivity|cbn; lia].
Defined.
