(* ===== verification/Outbound.v ===== *)
(** * zenoh/put.go: handing a message to every transport

    [enqueueNetwork] and the sends below it (with the Enqueue methods of
    session/replay_target.go and multicast_peer.go), and the sentinel errors of
    error.go.  A send may wait, and other goroutines run meanwhile, so the fan-out
    is a machine: [enq_step] is one send, [env_step] is anything the writers,
    the links, the caller's context and other senders may do in between. *)
From S2P Require Import Prelude WirePrim WireTransport WireNetwork Transport Session Dispatch.
From S2P Require Import Multicast Writer.

(** ** error.go *)

Definition ErrAlreadyDropped : error := ErrMsg "entity already dropped".
Definition ErrConnectionLost : error := ErrMsg "connection lost".
Definition ErrSessionClosed : error := ErrMsg "session is closed".
Definition ErrInvalidKeyExpr : error := ErrMsg "invalid or zero-value KeyExpr".
Definition ErrSessionNotReady : error := ErrMsg "session not ready".

(** ** Transports *)

(** Of a Runtime: the peer, the queue the writer drains, and whether
    [LinkClosed] is closed. [OutQ] itself is never closed. *)
Record Runtime := mkRuntime {
  rt_PeerZID : bytes; rt_OutQ : list OutboundItem; rt_cap : nat; rt_LinkClosed : bool }.
Record MulticastRuntime := mkMulticastRuntime {
  mrt_Table : MulticastPeerTable; mrt_outQ : OutQ OutboundItem }.

(** Runtimes are pointers; [w_ctx] is [ctx.Err()] of the caller's context. *)
Record world := mkWorld {
  w_runtimes : gmap nat Runtime; w_multicast : gmap nat MulticastRuntime;
  w_ctx : option error }.

Definition rt_room (rt : Runtime) : bool := (length (rt_OutQ rt) <? rt_cap rt)%nat.
Arguments rt_room : simpl never.
Definition rt_push (item : OutboundItem) (rt : Runtime) : Runtime :=
  mkRuntime (rt_PeerZID rt) (rt_OutQ rt ++ [item]) (rt_cap rt) (rt_LinkClosed rt).

(** The cases of a [select]; a case that is not ready cannot be taken. *)
Inductive select_case := CaseSend | CaseClosed | CaseDone.

(** [None]: the case is not ready; the inner option is the returned error. *)
Definition deliverEncoded (c : select_case) (item : OutboundItem) (ctx : option error)
    (rt : Runtime) : option (option error * Runtime) :=
  match c with
  | CaseSend => if rt_room rt then Some (None, rt_push item rt) else None
  | CaseClosed => if rt_LinkClosed rt then Some (Some ErrConnectionLost, rt) else None
  | CaseDone => match ctx with Some e => Some (Some e, rt) | None => None end
  end.

Definition Runtime_Enqueue (c : select_case) (item : OutboundItem) (rt : Runtime) :
    option (bool * Runtime) :=
  match c with
  | CaseSend => if rt_room rt then Some (true, rt_push item rt) else None
  | CaseClosed => if rt_LinkClosed rt then Some (false, rt) else None
  | CaseDone => None
  end.

(** An EntityReplayTarget: [nil], a Runtime or a MulticastRuntime; the boolean
    is the outcome of its Enqueue. *)
Inductive target := TUnicast (rt : nat) | TMulticast (rt : nat).

#[export] Instance target_eq_dec : EqDecision target.
Proof. solve_decision. Defined.

Definition outbound (encoded : bytes) (prio : Z) (reliable express : bool) : OutboundItem :=
  INetwork (mkOutbound encoded prio reliable express).

(** [enqueueNetworkOn] up to the target's Enqueue, and its result after. *)
Definition enqueueNetworkOn_item (tgt : option target) (msg : NetworkMessage) (prio : Z)
    (reliable express : bool) : result (target * OutboundItem) :=
  match tgt with
  | None => Err ErrSessionNotReady
  | Some t => encoded ← encode_net msg; mret (t, outbound encoded prio reliable express)
  end.
Definition enqueueNetworkOn_result (accepted : bool) : option error :=
  if accepted then None else Some ErrConnectionLost.

Definition multicastFullyOverlapsUnicast (t : MulticastPeerTable) (unicastPeers : gset (list Z)) :
    bool :=
  let peers := Snapshot t in
  if is_nil peers then false
  else forallb (fun p => bool_decide (zid_bytes (pe_ZID p) ∈ unicastPeers)) peers.

(** ** enqueueNetwork *)

(** What became of the message at one transport. The log is of the model; the
    code keeps the counters. *)
Inductive outcome :=
  | Accepted
  | Refused (e : error)
  | Dropped
  | Skipped (peers : list (list Z)).

#[export] Instance outcome_eq_dec : EqDecision outcome.
Proof. solve_decision. Defined.

Record enq := mkEnq {
  e_item : OutboundItem; e_unicastPeers : gset (list Z); e_firstErr : option error;
  e_unicastDelivered : nat; e_multicastAttempted : nat; e_multicastDelivered : nat;
  e_log : list (target * outcome) }.

(** The transports still to try, or the result. *)
Inductive enq_pc :=
  | EUnicast (rts mrts : list nat)
  | EMulticast (mrts : list nat)
  | EReturn (r : option error).

Definition enq_start (item : OutboundItem) : enq := mkEnq item ∅ None 0 0 0 [].

(** The checks before the first send, on the two snapshots. *)
Definition enqueueNetwork (rts mrts : list nat) (msg : NetworkMessage) (prio : Z)
    (reliable express : bool) : enq_pc * enq :=
  if is_nil rts && is_nil mrts then (EReturn (Some ErrSessionNotReady), enq_start IEmpty)
  else match encode_net msg with
       | Err e => (EReturn (Some e), enq_start IEmpty)
       | Ok encoded => (EUnicast rts mrts, enq_start (outbound encoded prio reliable express))
       end.

Definition enq_result (s : enq) : option error :=
  if (0 <? e_unicastDelivered s + e_multicastDelivered s)%nat then None
  else match e_firstErr s with
       | Some e => Some e
       | None => Some ErrConnectionLost
       end.

Definition unicast_sent (p : nat) (zid : bytes) (err : option error) (s : enq) : enq :=
  mkEnq (e_item s) ({[zid]} ∪ e_unicastPeers s)
    (match err, e_firstErr s with Some e, None => Some e | _, f => f end)
    (match err with None => S (e_unicastDelivered s) | Some _ => e_unicastDelivered s end)
    (e_multicastAttempted s) (e_multicastDelivered s)
    (e_log s ++ [(TUnicast p, match err with None => Accepted | Some e => Refused e end)]).

Definition multicast_skipped (p : nat) (t : MulticastPeerTable) (s : enq) : enq :=
  mkEnq (e_item s) (e_unicastPeers s) (e_firstErr s) (e_unicastDelivered s)
    (e_multicastAttempted s) (e_multicastDelivered s)
    (e_log s ++ [(TMulticast p, Skipped ((fun e => zid_bytes (pe_ZID e)) <$> Snapshot t))]).

Definition multicast_sent (p : nat) (ok : bool) (s : enq) : enq :=
  mkEnq (e_item s) (e_unicastPeers s) (e_firstErr s) (e_unicastDelivered s)
    (S (e_multicastAttempted s))
    (if ok then S (e_multicastDelivered s) else e_multicastDelivered s)
    (e_log s ++ [(TMulticast p, if ok then Accepted else Dropped)]).

Definition set_runtime (p : nat) (rt : Runtime) (w : world) : world :=
  mkWorld (<[p := rt]> (w_runtimes w)) (w_multicast w) (w_ctx w).
Definition set_multicast (p : nat) (m : MulticastRuntime) (w : world) : world :=
  mkWorld (w_runtimes w) (<[p := m]> (w_multicast w)) (w_ctx w).

(** One send, [c] and [pick] choosing among the ready cases; [None] when the
    chosen case is not ready. *)
Definition enq_step (c : select_case) (pick : bool) (pc : enq_pc) (s : enq) (w : world) :
    option (enq_pc * enq * world) :=
  match pc with
  | EUnicast (p :: rts) mrts =>
      rt ← w_runtimes w !! p;
      '(err, rt') ← deliverEncoded c (e_item s) (w_ctx w) rt;
      Some (EUnicast rts mrts, unicast_sent p (rt_PeerZID rt) err s, set_runtime p rt' w)
  | EUnicast [] mrts => Some (EMulticast mrts, s, w)
  | EMulticast (p :: mrts) =>
      m ← w_multicast w !! p;
      if multicastFullyOverlapsUnicast (mrt_Table m) (e_unicastPeers s)
      then Some (EMulticast mrts, multicast_skipped p (mrt_Table m) s, w)
      else let '(ok, q) := Enqueue_multicast pick (e_item s) (mrt_outQ m) in
           Some (EMulticast mrts, multicast_sent p ok s,
                 set_multicast p (mkMulticastRuntime (mrt_Table m) q) w)
  | EMulticast [] => Some (EReturn (enq_result s), s, w)
  | EReturn _ => None
  end.

(** What others may do: queues and peer tables change, a closed link stays
    closed and a finished context stays finished. *)
Record env_step (w w' : world) : Prop := {
  env_runtimes p rt : w_runtimes w !! p = Some rt ->
    exists rt', w_runtimes w' !! p = Some rt' /\ rt_PeerZID rt' = rt_PeerZID rt /\
      rt_cap rt' = rt_cap rt /\ (rt_LinkClosed rt = true -> rt_LinkClosed rt' = true);
  env_multicast p : is_Some (w_multicast w !! p) -> is_Some (w_multicast w' !! p);
  env_ctx e : w_ctx w = Some e -> w_ctx w' = Some e }.

Inductive enq_run : enq_pc * enq * world -> enq_pc * enq * world -> Prop :=
  | er_here c : enq_run c c
  | er_step c pick pc s w c1 c2 :
      enq_step c pick pc s w = Some c1 -> enq_run c1 c2 -> enq_run (pc, s, w) c2
  | er_env pc s w w' c2 : env_step w w' -> enq_run (pc, s, w') c2 -> enq_run (pc, s, w) c2.

(** ** What the fan-out has done at any moment *)

Definition pc_targets (pc : enq_pc) : list target :=
  match pc with
  | EUnicast rts mrts => (TUnicast <$> rts) ++ (TMulticast <$> mrts)
  | EMulticast mrts => TMulticast <$> mrts
  | EReturn _ => []
  end.

Definition refusal (o : outcome) : option error :=
  match o with Refused e => Some e | _ => None end.

(** [z] is the peer of one of the runtimes [rts]. *)
Definition peer_of (rts : list nat) (w : world) (z : bytes) : Prop :=
  exists q rt, q ∈ rts /\ w_runtimes w !! q = Some rt /\ rt_PeerZID rt = z.

(** A refusal has a cause, and a group is skipped only when it has members and
    each of them is the peer of a unicast runtime. *)
Definition outcome_ok (rts : list nat) (w : world) (to : target * outcome) : Prop :=
  match to with
  | (TUnicast p, Accepted) => True
  | (TUnicast p, Refused e) =>
      (e = ErrConnectionLost /\
       exists rt, w_runtimes w !! p = Some rt /\ rt_LinkClosed rt = true) \/ w_ctx w = Some e
  | (TMulticast p, Accepted) | (TMulticast p, Dropped) => True
  | (TMulticast p, Skipped peers) => peers <> [] /\ Forall (peer_of rts w) peers
  | _ => False
  end.

Record enq_ok (rts mrts : list nat) (c : enq_pc * enq * world) : Prop := {
  eo_targets : (e_log c.1.2).*1 ++ pc_targets c.1.1 = (TUnicast <$> rts) ++ (TMulticast <$> mrts);
  eo_outcomes : Forall (outcome_ok rts c.2) (e_log c.1.2);
  eo_delivered : (0 < e_unicastDelivered c.1.2 + e_multicastDelivered c.1.2)%nat <->
    Accepted ∈ (e_log c.1.2).*2;
  eo_first : e_firstErr c.1.2 = head (omap refusal (e_log c.1.2).*2);
  eo_peers z : z ∈ e_unicastPeers c.1.2 -> peer_of rts c.2 z;
  eo_known : forall p, p ∈ rts -> is_Some (w_runtimes c.2 !! p);
  eo_known_multicast : forall p, p ∈ mrts -> is_Some (w_multicast c.2 !! p);
  eo_return r : c.1.1 = EReturn r -> r = enq_result c.1.2 }.

Lemma env_step_peer rts w w' z : env_step w w' -> peer_of rts w z -> peer_of rts w' z.
Proof.
  intros He (q & rt & Hq & Hrt & <-). destruct (env_runtimes _ _ He q rt Hrt) as (rt' & H & Hz & _).
  by exists q, rt'.
Qed.

Lemma env_step_outcome rts w w' to : env_step w w' -> outcome_ok rts w to -> outcome_ok rts w' to.
Proof.
  intros He. destruct to as [[p|p] [|e| |peers]]; cbn; try done.
  - intros [[-> (rt & Hrt & Hc)]|H]; [|by right; apply (env_ctx _ _ He)]. left. split; [done|].
    destruct (env_runtimes _ _ He p rt Hrt) as (rt' & H & _ & _ & Hm). exists rt'. auto.
  - intros [Hn Hp]. split; [done|]. eapply Forall_impl; [exact Hp|].
    intros z. by apply env_step_peer.
Qed.

(** A send of this goroutine changes the world as others may. *)
Lemma set_runtime_env p rt rt' w :
  w_runtimes w !! p = Some rt -> rt_PeerZID rt' = rt_PeerZID rt -> rt_cap rt' = rt_cap rt ->
  (rt_LinkClosed rt = true -> rt_LinkClosed rt' = true) -> env_step w (set_runtime p rt' w).
Proof.
  intros Hp Hz Hc Hl. constructor; cbn; [|done..]. intros q r Hq.
  destruct (decide (q = p)) as [->|]; [|rewrite lookup_insert_ne by done; eauto].
  rewrite lookup_insert_eq. rewrite Hp in Hq. injection Hq as <-. eauto.
Qed.
Lemma set_multicast_env p m w : env_step w (set_multicast p m w).
Proof.
  constructor; cbn; [by eauto|intros q Hq|done].
  destruct (decide (q = p)) as [->|]; [by rewrite lookup_insert_eq|by rewrite lookup_insert_ne].
Qed.

Lemma deliverEncoded_spec c item ctx rt err rt' :
  deliverEncoded c item ctx rt = Some (err, rt') ->
  rt_PeerZID rt' = rt_PeerZID rt /\ rt_cap rt' = rt_cap rt /\ rt_LinkClosed rt' = rt_LinkClosed rt /\
  match err with
  | None => rt' = rt_push item rt /\ rt_room rt = true
  | Some e => rt' = rt /\ (e = ErrConnectionLost /\ rt_LinkClosed rt = true \/ ctx = Some e)
  end.
Proof.
  unfold deliverEncoded. destruct c.
  - destruct (rt_room rt); [|done]. by intros [= <- <-].
  - destruct (rt_LinkClosed rt) eqn:E; [|done]. intros [= <- <-]. naive_solver.
  - destruct ctx; [|done]. intros [= <- <-]. naive_solver.
Qed.

Lemma overlaps_spec t peers : multicastFullyOverlapsUnicast t peers = true ->
  let zs := (fun e => zid_bytes (pe_ZID e)) <$> Snapshot t in
  zs <> [] /\ Forall (.∈ peers) zs.
Proof.
  unfold multicastFullyOverlapsUnicast. destruct (Snapshot t) as [|e l] eqn:E; [done|].
  cbn [is_nil]. intros H. split; [done|]. apply Forall_fmap, Forall_forall. intros x Hx.
  rewrite forallb_forall in H. apply list_elem_of_In in Hx. apply H in Hx. by case_bool_decide.
Qed.

Lemma enq_ok_env rts mrts pc s w w' : env_step w w' ->
  enq_ok rts mrts (pc, s, w) -> enq_ok rts mrts (pc, s, w').
Proof.
  intros He [H1 H2 H3 H4 H5 H6 H7 H8]. constructor; cbn in *; try done.
  - eapply Forall_impl; [exact H2|]. intros to. by apply env_step_outcome.
  - intros z Hz. by eapply env_step_peer, H5.
  - intros p Hp. destruct (H6 p Hp) as [rt Hrt].
    destruct (env_runtimes _ _ He p rt Hrt) as (rt' & -> & _). eauto.
  - intros p Hp. by apply (env_multicast _ _ He), H7.
Qed.

(** One more target has its outcome. *)
Lemma enq_ok_log rts mrts pc pc' s s' w t o :
  enq_ok rts mrts (pc, s, w) ->
  pc_targets pc = t :: pc_targets pc' -> (forall r, pc' <> EReturn r) ->
  e_log s' = e_log s ++ [(t, o)] -> outcome_ok rts w (t, o) ->
  (e_unicastDelivered s' + e_multicastDelivered s' =
    match o with Accepted => 1 | _ => 0 end + (e_unicastDelivered s + e_multicastDelivered s))%nat ->
  e_firstErr s' = match e_firstErr s with Some e => Some e | None => refusal o end ->
  (forall z, z ∈ e_unicastPeers s' -> peer_of rts w z) ->
  enq_ok rts mrts (pc', s', w).
Proof.
  intros [H1 H2 H3 H4 H5 H6 H7 H8] Ht Hn Hl Ho Hd Hf Hp. cbn in *. constructor; cbn; try done.
  - rewrite Hl, fmap_app, <- app_assoc. cbn. by rewrite <- Ht.
  - rewrite Hl. apply Forall_app. split; [done|]. by constructor.
  - rewrite Hl, fmap_app, elem_of_app, <- H3, Hd. cbn. rewrite list_elem_of_singleton.
    destruct o; split; try (intros [?|?]; done || lia); intros; try (by left; lia); try (by right); lia.
  - rewrite Hl, fmap_app, omap_app, Hf, H4. cbn. destruct (omap refusal _); cbn; [|done].
    by destruct (refusal o).
  - intros r E. by apply Hn in E.
Qed.

Lemma enq_ok_step rts mrts c pick pc s w x :
  enq_step c pick pc s w = Some x -> enq_ok rts mrts (pc, s, w) -> enq_ok rts mrts x.
Proof.
  intros Hs Hok. pose proof Hok as [H1 H2 H3 H4 H5 H6 H7 H8]. cbn in *.
  destruct pc as [[|p us] ms|[|p ms]|]; cbn in Hs.
  - injection Hs as <-. by constructor.
  - destruct (w_runtimes w !! p) as [rt|] eqn:Ert; [|done]. cbn in Hs.
    destruct (deliverEncoded c (e_item s) (w_ctx w) rt) as [[err rt']|] eqn:E; [|done].
    injection Hs as <-. apply deliverEncoded_spec in E as (Hz & Hcap & Hcl & Herr).
    assert (Hin : p ∈ rts).
    { assert (Hp : TUnicast p ∈ (TUnicast <$> rts) ++ (TMulticast <$> mrts))
        by (rewrite <- H1; apply elem_of_app; right; cbn; by left).
      apply elem_of_app in Hp as [Hp|Hp]; apply list_elem_of_fmap in Hp as (q & [= ->] & Hq); done. }
    apply (enq_ok_env _ _ _ _ w); [by apply (set_runtime_env p rt); [..|congruence]|].
    eapply enq_ok_log; [exact Hok|cbn; reflexivity|done|cbn; reflexivity|..].
    + destruct err as [e|]; [|done]. destruct Herr as [_ [[-> Hc]|Hc]]; cbn; eauto.
    + destruct err; cbn; lia.
    + cbn. by destruct err, (e_firstErr s).
    + cbn. intros z [->%elem_of_singleton|Hz']%elem_of_union; [by exists p, rt|by apply H5].
  - injection Hs as <-. constructor; cbn; try done. by intros r [= <-].
  - destruct (w_multicast w !! p) as [m|] eqn:Em; [|done]. cbn in Hs.
    destruct (multicastFullyOverlapsUnicast _ _) eqn:E.
    + injection Hs as <-. apply overlaps_spec in E as [Hn Hp].
      eapply enq_ok_log; [exact Hok|cbn; reflexivity|done|cbn; reflexivity|..]; cbn; try done.
      * split; [done|]. eapply Forall_impl; [exact Hp|]. intros z. apply H5.
      * by destruct (e_firstErr s).
    + destruct (Enqueue_multicast _ _ _) as [ok q]. injection Hs as <-.
      apply (enq_ok_env _ _ _ _ w); [apply set_multicast_env|].
      eapply enq_ok_log; [exact Hok|cbn; reflexivity|done|cbn; reflexivity|..]; cbn;
        try by destruct ok.
      by destruct ok, (e_firstErr s).
  - done.
Qed.

Lemma enq_ok_run rts mrts x y : enq_run x y -> enq_ok rts mrts x -> enq_ok rts mrts y.
Proof.
  induction 1 as [|c pick pc s w c1 c2 Hs Hr IH|pc s w w' c2 He Hr IH]; intros Hok; [done|..].
  - apply IH. by eapply enq_ok_step.
  - apply IH. by eapply enq_ok_env.
Qed.

(** The pointers of the snapshots are valid. *)
Definition snapshots_ok (rts mrts : list nat) (w : world) : Prop :=
  (forall p, p ∈ rts -> is_Some (w_runtimes w !! p)) /\
  (forall p, p ∈ mrts -> is_Some (w_multicast w !! p)).

Lemma enq_ok_start rts mrts item w : snapshots_ok rts mrts w ->
  enq_ok rts mrts (EUnicast rts mrts, enq_start item, w).
Proof.
  intros [H1 H2]. constructor; cbn; try done.
  split; [lia|]. by intros H%elem_of_nil.
Qed.

(** What the caller is told, given what happened at each transport. *)
Definition told_outcome (rts : list nat) (log : list (target * outcome)) (r : option error) : Prop :=
  (r = None <-> Accepted ∈ log.*2) /\
  (Accepted ∉ log.*2 -> r = Some (default ErrConnectionLost (head (omap refusal log.*2)))) /\
  (rts = [] -> r = None \/ r = Some ErrConnectionLost).

Lemma refusals_unicast rts mrts w log : log.*1 = (TUnicast <$> rts) ++ (TMulticast <$> mrts) ->
  Forall (outcome_ok rts w) log -> rts = [] -> omap refusal log.*2 = [].
Proof.
  intros Ht Ho ->. cbn in Ht. revert mrts Ht.
  induction Ho as [|[t o] log Hto _ IH]; intros [|m mrts] Ht; cbn in *; try done.
  injection Ht as -> Ht. destruct o; cbn in *; try done; by apply (IH mrts).
Qed.

(** C19: Whatever the other goroutines, links and writers do meanwhile, a
    call of enqueueNetwork that returns has tried every transport of its
    snapshots once, in order; a unicast runtime refused only because its
    link is closed or the context is done, a multicast group was skipped
    only if it has members and all of them are peers of unicast runtimes;
    and the call returns nil exactly when some transport accepted the
    message, otherwise the first refusal of a unicast runtime, or connection
    lost. *)
Theorem enqueue_outcome msg encoded prio reliable express rts mrts w r s w' :
  encode_net msg = Ok encoded -> snapshots_ok rts mrts w -> rts ++ mrts <> [] ->
  enq_run (enqueueNetwork rts mrts msg prio reliable express, w) (EReturn r, s, w') ->
  (e_log s).*1 = (TUnicast <$> rts) ++ (TMulticast <$> mrts) /\
  Forall (outcome_ok rts w') (e_log s) /\ told_outcome rts (e_log s) r.
Proof.
  intros He Hw Hne Hr. unfold enqueueNetwork in Hr. rewrite He in Hr.
  replace (is_nil rts && is_nil mrts) with false in Hr by (by destruct rts, mrts).
  apply (enq_ok_run rts mrts) in Hr; [|by apply enq_ok_start].
  destruct Hr as [H1 H2 H3 H4 _ _ _ H8]. cbn in *. rewrite app_nil_r in H1.
  split; [done|]. split; [done|]. specialize (H8 r eq_refl). subst r.
  assert (Hx : enq_result s = None <-> Accepted ∈ (e_log s).*2).
  { rewrite <- H3. unfold enq_result. destruct (Nat.ltb_spec 0 (e_unicastDelivered s + e_multicastDelivered s));
      [naive_solver|]. destruct (e_firstErr s); naive_solver lia. }
  assert (Hy : Accepted ∉ (e_log s).*2 ->
    enq_result s = Some (default ErrConnectionLost (head (omap refusal (e_log s).*2)))).
  { intros Hn. rewrite <- H3 in Hn. unfold enq_result.
    destruct (Nat.ltb_spec 0 (e_unicastDelivered s + e_multicastDelivered s)); [done|].
    rewrite H4. by destruct (head _). }
  split; [done|]. split; [done|]. intros ->.
  destruct (decide (Accepted ∈ (e_log s).*2)) as [Ha|Ha]; [left; by apply Hx|right].
  rewrite Hy by done. by rewrite (refusals_unicast [] mrts w').
Qed.

(** ** Waiting *)

(** The send to [p] cannot proceed: its queue is full, its link is open, and
    the caller's context is not done. *)
Definition waits_for (p : nat) (w : world) : Prop :=
  exists rt, w_runtimes w !! p = Some rt /\ rt_room rt = false /\ rt_LinkClosed rt = false /\
    w_ctx w = None.

Definition pc_ok (pc : enq_pc) (w : world) : Prop :=
  match pc with
  | EUnicast rts mrts => snapshots_ok rts mrts w
  | EMulticast mrts => snapshots_ok [] mrts w
  | EReturn _ => True
  end.

Definition enq_rank (pc : enq_pc) : nat :=
  match pc with
  | EUnicast rts mrts => 2 + length rts + length mrts
  | EMulticast mrts => 1 + length mrts
  | EReturn _ => 0
  end.

Lemma enq_step_rank c pick pc s w pc' s' w' :
  enq_step c pick pc s w = Some (pc', s', w') -> enq_rank pc = S (enq_rank pc').
Proof.
  destruct pc as [[|p us] ms|[|p ms]|]; cbn; [..|done].
  - by intros [= <- _ _].
  - destruct (w_runtimes w !! p); cbn; [|done].
    destruct (deliverEncoded _ _ _ _) as [[]|]; [|done]. by intros [= <- _ _].
  - by intros [= <- _ _].
  - destruct (w_multicast w !! p); cbn; [|done].
    destruct (multicastFullyOverlapsUnicast _ _); [by intros [= <- _ _]|].
    destruct (Enqueue_multicast _ _ _). by intros [= <- _ _].
Qed.

(** A send proceeds unless it waits for the runtime it is at. *)
Lemma enq_step_ready pc s w : pc_ok pc w -> (forall r, pc <> EReturn r) ->
  (exists c x, enq_step c true pc s w = Some x) \/
  (exists p rts mrts, pc = EUnicast (p :: rts) mrts /\ waits_for p w).
Proof.
  intros Hok Hn. destruct pc as [[|p us] ms|[|p ms]|r]; cbn in *.
  - left. by exists CaseSend; eauto.
  - destruct Hok as [H1 _]. destruct (H1 p) as [rt Hrt]; [by left|]. rewrite Hrt. cbn.
    destruct (rt_room rt) eqn:Er; [left; exists CaseSend; cbn; rewrite Er; cbn; eauto|].
    destruct (rt_LinkClosed rt) eqn:El; [left; exists CaseClosed; cbn; rewrite El; cbn; eauto|].
    destruct (w_ctx w) as [e|] eqn:Ec; [left; exists CaseDone; cbn; eauto|].
    right. exists p, us, ms. split; [done|]. by exists rt.
  - left. by exists CaseSend; eauto.
  - destruct Hok as [_ H2]. destruct (H2 p) as [m Hm]; [by left|]. rewrite Hm. cbn. left.
    exists CaseSend. destruct (multicastFullyOverlapsUnicast _ _); [eauto|].
    destruct (Enqueue_multicast _ _ _). eauto.
  - by destruct (Hn r).
Qed.

(** A call of enqueueNetwork under way can do nothing exactly when the
    next unicast runtime has a full queue, an open link and the caller's
    context is not done; every step it takes brings it one nearer to its
    return, so a full multicast queue never blocks it. *)
Theorem enqueue_waits pc s w : pc_ok pc w -> (forall r, pc <> EReturn r) ->
  ((forall c pick, enq_step c pick pc s w = None) <->
   exists p rts mrts, pc = EUnicast (p :: rts) mrts /\ waits_for p w) /\
  (forall c pick pc' s' w', enq_step c pick pc s w = Some (pc', s', w') ->
     enq_rank pc = S (enq_rank pc')).
Proof.
  intros Hok Hn. split; [|by eauto using enq_step_rank]. split.
  - intros Hb. destruct (enq_step_ready pc s w Hok Hn) as [(c & x & Hx)|]; [|done].
    by rewrite Hb in Hx.
  - intros (p & rts & mrts & -> & rt & Hrt & Hr & Hl & Hc) c pick. cbn. rewrite Hrt. cbn.
    unfold deliverEncoded. rewrite Hr, Hl, Hc. by destruct c.
Qed.

(** ** Concrete fan-outs *)

Definition sample_runtime (zid : Z) (closed : bool) : Runtime := mkRuntime [zid] [] (if closed then 0 else 4) closed.
Definition sample_group (zids : list Z) : MulticastRuntime :=
  mkMulticastRuntime
    (fold_right (fun z t => (Insert (mkJoin false false 9 (mkZID [z]) 2 0 0 0 0 0 []) [z] 0 t).2)
       NewMulticastPeerTable zids)
    (mkOutQ [] 1 false 0).

(** Peer 1's link is closed, peer 2's open; a group of peers 1 and 3. *)
Definition sample_world : world :=
  mkWorld {[0%nat := sample_runtime 1 true; 1%nat := sample_runtime 2 false]}
    {[0%nat := sample_group [1; 3]; 1%nat := sample_group [1]]} None.

(** The thread alone, taking at each send the first case that is ready. *)
Fixpoint enq_alone (fuel : nat) (x : enq_pc * enq * world) : enq_pc * enq * world :=
  match fuel with
  | O => x
  | S fuel =>
      match enq_step CaseSend true x.1.1 x.1.2 x.2, enq_step CaseClosed true x.1.1 x.1.2 x.2 with
      | Some y, _ => enq_alone fuel y
      | None, Some y => enq_alone fuel y
      | None, None => x
      end
  end.

Lemma enq_alone_run fuel x : enq_run x (enq_alone fuel x).
Proof.
  revert x. induction fuel as [|fuel IH]; intros [[pc s] w]; cbn; [constructor|].
  destruct (enq_step CaseSend _ _ _ _) eqn:E; [by eapply er_step|].
  destruct (enq_step CaseClosed _ _ _ _) eqn:E'; [by eapply er_step|constructor].
Qed.

Definition sample_final : NetworkMessage := NResponseFinal (mkResponseFinal 7 []).

Definition sample_fanout (rts mrts : list nat) : enq_pc * enq * world :=
  enq_alone 9 (enqueueNetwork rts mrts sample_final 5 true false, sample_world).

Lemma sample_snapshots rts mrts : Forall (fun p => p < 2)%nat (rts ++ mrts) ->
  snapshots_ok rts mrts sample_world.
Proof.
  intros [H1 H2]%Forall_app.
  split; intros p Hp; eapply Forall_forall in Hp; try done; destruct p as [|[|]]; try lia; eauto.
Qed.

Lemma enqueue_outcome_witness :
  let '(pc, s, w) := sample_fanout [0; 1]%nat [0; 1]%nat in
  pc = EReturn None /\
  (e_log s).*2 = [Refused ErrConnectionLost; Accepted; Accepted; Skipped [[1]]] /\
  told_outcome [0; 1]%nat (e_log s) None.
Proof.
  destruct (sample_fanout [0; 1]%nat [0; 1]%nat) as [[pc s] w] eqn:E.
  assert (Hpc : pc = EReturn None) by (change pc with (pc, s, w).1.1; rewrite <- E; vm_compute; reflexivity).
  assert (Hl : (e_log s).*2 = [Refused ErrConnectionLost; Accepted; Accepted; Skipped [[1]]])
    by (change s with (pc, s, w).1.2; rewrite <- E; vm_compute; reflexivity).
  split; [done|]. split; [done|]. subst pc.
  refine (proj2 (proj2 (enqueue_outcome sample_final _ 5 true false [0; 1]%nat [0; 1]%nat
    sample_world None s w eq_refl _ _ _))).
  - apply sample_snapshots. by_eval.
  - discriminate.
  - rewrite <- E. apply enq_alone_run.
Defined.

Lemma enqueue_waits_witness :
  let w := mkWorld {[0%nat := mkRuntime [1] [] 0 false]} ∅ None in
  let s := enq_start IEmpty in
  (forall c pick, enq_step c pick (EUnicast [0%nat] []) s w = None) /\
  exists x, enq_step CaseDone true (EUnicast [0%nat] []) s
              (mkWorld (w_runtimes w) ∅ (Some (ErrMsg "context canceled"))) = Some x.
Proof.
  cbv zeta. split; [|eexists; vm_compute; reflexivity].
  eapply enqueue_waits; [|discriminate|].
  - split; intros p Hp; [|by apply elem_of_nil in Hp].
    apply list_elem_of_singleton in Hp as ->. by eexists.
  - eexists 0%nat, [], []. split; [done|]. eexists. split; [reflexivity|]. done.
Defined.

(** The send to the only peer fails, the group is skipped because that peer is
    on it, and the message reaches nobody. *)
Theorem overlap_hides_a_lost_peer :
  let '(pc, s, w) := sample_fanout [0]%nat [1]%nat in
  pc = EReturn (Some ErrConnectionLost) /\
  (e_log s).*2 = [Refused ErrConnectionLost; Skipped [[1]]] /\
  (oq_items ∘ mrt_outQ <$> w_multicast w !! 1%nat) = Some [].
Proof. vm_compute. auto. Qed.
