(* ===== verification/Entities.v ===== *)
(** * zenoh: declaring and dropping entities

    subscriber.go, queryable.go, querier.go, publisher.go, liveliness.go and
    the replay of session.go: the registries of the public session and the
    messages that tell the network about them.  The network is an interface,
    [Network]: what happens to a message handed to [enqueueNetwork]. *)
From S2P Require Import Prelude Codec WirePrim WireNetwork KeyExpr Matching Collector Session Dispatch.
From S2P Require Import Outbound.

(** ** What the public layer asks of put.go *)

Class Network (N : Type) := {
  send_all : NetworkMessage -> Z -> bool -> bool -> N -> option error * N;
  send_to : option target -> NetworkMessage -> Z -> bool -> bool -> N -> option error * N }.

Section Sends.
Context {N : Type} `{Network N}.
Definition enqueueControl (msg : NetworkMessage) : N -> option error * N :=
  send_all msg QoSPriorityControl true false.
Definition enqueueControlOn (tgt : option target) (msg : NetworkMessage) : N -> option error * N :=
  send_to tgt msg QoSPriorityControl true false.
End Sends.

(** ** Messages *)

Definition toWire (k : KeyExpr) : WireExpr := mkWireExpr 0 (KeyExpr_String k) false.

Definition QueryableInfoExtID : Z := 0x01.
Definition queryableInfoExt (complete : bool) (distance : Z) : Extension :=
  let v := Z.shiftl distance 8 in
  NewZ64Ext QueryableInfoExtID false (if complete then Z.lor v 1 else v).

Definition declaration (b : DeclareBody) : NetworkMessage :=
  NDeclare (mkDeclare 0 false [] (Some b)).

Definition buildDeclareSubscriber (id : Z) (ke : KeyExpr) : NetworkMessage :=
  declaration (BDeclareEntity (NewDeclareSubscriber id (toWire ke))).
Definition buildUndeclareSubscriber (id : Z) (ke : KeyExpr) : NetworkMessage :=
  declaration (BUndeclareEntity (mkUndeclareEntity IDUndeclareSubscriber id (toWire ke) [])).

(** [QueryableOptions]; [None] is a nil pointer. *)
Definition buildDeclareQueryable (id : Z) (ke : KeyExpr) (opts : option bool) : NetworkMessage :=
  let body := NewDeclareQueryable id (toWire ke) in
  declaration (BDeclareEntity
    (if default false opts
     then mkDeclareEntity (deKind body) (deEntityID body) (deKeyExpr body)
            (deExtensions body ++ [queryableInfoExt true 0])
     else body)).
Definition buildUndeclareQueryable (id : Z) (ke : KeyExpr) : NetworkMessage :=
  declaration (BUndeclareEntity (mkUndeclareEntity IDUndeclareQueryable id (toWire ke) [])).

Definition buildDeclareToken (id : Z) (ke : KeyExpr) : NetworkMessage :=
  declaration (BDeclareEntity (NewDeclareToken id (toWire ke))).
Definition buildUndeclareToken (id : Z) (ke : KeyExpr) : NetworkMessage :=
  declaration (BUndeclareEntity (mkUndeclareEntity IDUndeclareToken id (toWire ke) [])).

Definition buildQuerierInterest (id : Z) (ke : KeyExpr) : NetworkMessage :=
  NInterest (mkInterest id InterestModeCurrentFuture
    (mkInterestFilter false false true false false) (Some (toWire ke)) []).
Definition buildPublisherInterest (id : Z) (ke : KeyExpr) : NetworkMessage :=
  NInterest (mkInterest id InterestModeCurrentFuture
    (mkInterestFilter true true false false false) (Some (toWire ke)) []).
Definition buildLivelinessSubscriberInterest (id : Z) (ke : KeyExpr) (history : bool) :
    NetworkMessage :=
  NInterest (mkInterest id (if history then InterestModeCurrentFuture else InterestModeFuture)
    (mkInterestFilter true false false true false) (Some (toWire ke)) []).
Definition buildInterestFinal (id : Z) : NetworkMessage :=
  NInterest (mkInterest id InterestModeFinal NoFilter None []).

(** ** The public session *)

Record QuerierOptions := mkQuerierOptions {
  qo_Target : Z; qo_HasTarget : bool; qo_Consolidation : Z; qo_HasConsolidation : bool;
  qo_Timeout : Z }.
Definition zeroQuerierOptions : QuerierOptions := mkQuerierOptions 0 false 0 false 0.

Record querierState := mkQuerierState { qs_keyExpr : KeyExpr; qs_opts : QuerierOptions }.
Record publisherState := mkPublisherState { pst_keyExpr : KeyExpr }.
Record livelinessSubReplayState := mkLivelinessSubReplayState {
  lsr_keyExpr : KeyExpr; lsr_history : bool }.

Record ZSession := mkZSession {
  z_closed : bool; z_inner : Session; z_ids : idAllocators;
  z_tokens : gmap Z KeyExpr; z_queriers : gmap Z querierState;
  z_publishers : gmap Z publisherState;
  z_livelinessSubsReplay : gmap Z livelinessSubReplayState }.

Definition on_inner (f : Session -> Session) (s : ZSession) : ZSession :=
  mkZSession (z_closed s) (f (z_inner s)) (z_ids s) (z_tokens s) (z_queriers s)
    (z_publishers s) (z_livelinessSubsReplay s).
Definition set_ids (a : idAllocators) (s : ZSession) : ZSession :=
  mkZSession (z_closed s) (z_inner s) a (z_tokens s) (z_queriers s) (z_publishers s)
    (z_livelinessSubsReplay s).
Definition set_tokens (m : gmap Z KeyExpr) (s : ZSession) : ZSession :=
  mkZSession (z_closed s) (z_inner s) (z_ids s) m (z_queriers s) (z_publishers s)
    (z_livelinessSubsReplay s).
Definition set_queriers (m : gmap Z querierState) (s : ZSession) : ZSession :=
  mkZSession (z_closed s) (z_inner s) (z_ids s) (z_tokens s) m (z_publishers s)
    (z_livelinessSubsReplay s).
Definition set_publishers (m : gmap Z publisherState) (s : ZSession) : ZSession :=
  mkZSession (z_closed s) (z_inner s) (z_ids s) (z_tokens s) (z_queriers s) m
    (z_livelinessSubsReplay s).
Definition set_livelinessSubsReplay (m : gmap Z livelinessSubReplayState) (s : ZSession) : ZSession :=
  mkZSession (z_closed s) (z_inner s) (z_ids s) (z_tokens s) (z_queriers s) (z_publishers s) m.

(** ** Registering

    For each kind of entity, the part of its Declare before the send (a new id
    and the registry entries) and the part that takes it back. *)

Definition registerSubscriber (ke : KeyExpr) (s : ZSession) : Z * ZSession :=
  let '(id, ids) := AllocSubsID (z_ids s) in
  (id, on_inner (RegisterSubscriber id ke) (set_ids ids s)).
Definition unregisterSubscriber (id : Z) (s : ZSession) : ZSession :=
  on_inner (UnregisterSubscriber id) s.

Definition registerQueryable (ke : KeyExpr) (opts : option bool) (s : ZSession) : Z * ZSession :=
  let '(id, ids) := AllocQblsID (z_ids s) in
  (id, on_inner (RegisterQueryable id ke (default false opts)) (set_ids ids s)).
Definition unregisterQueryable (id : Z) (s : ZSession) : ZSession :=
  on_inner (UnregisterQueryable id) s.

Definition registerToken (ke : KeyExpr) (s : ZSession) : Z * ZSession :=
  let '(id, ids) := AllocTokenID (z_ids s) in
  (id, set_tokens (<[id := ke]> (z_tokens s)) (set_ids ids s)).
Definition unregisterToken (id : Z) (s : ZSession) : ZSession :=
  set_tokens (delete id (z_tokens s)) s.

Definition inner_RegisterMatching (id : Z) (ke : KeyExpr) (kind : MatchingKind) (s : Session) :
    Session := set_matching (RegisterMatching id ke kind (s_matching s)) s.
(** The listeners' drop hooks belong to the user's handlers. *)
Definition inner_UnregisterMatching (id : Z) (s : Session) : Session :=
  set_matching (UnregisterMatching id (s_matching s)).1 s.

Definition registerQuerier (ke : KeyExpr) (opts : option QuerierOptions) (s : ZSession) :
    Z * ZSession :=
  let '(id, ids) := AllocInterestID (z_ids s) in
  let opts := default zeroQuerierOptions opts in
  (id, on_inner (inner_RegisterMatching id ke MatchingQueryables)
         (set_queriers (<[id := mkQuerierState ke opts]> (z_queriers s)) (set_ids ids s))).
Definition unregisterQuerier (id : Z) (s : ZSession) : ZSession :=
  on_inner (inner_UnregisterMatching id) (set_queriers (delete id (z_queriers s)) s).

Definition registerPublisher (ke : KeyExpr) (s : ZSession) : Z * ZSession :=
  let '(id, ids) := AllocInterestID (z_ids s) in
  (id, on_inner (inner_RegisterMatching id ke MatchingSubscribers)
         (set_publishers (<[id := mkPublisherState ke]> (z_publishers s)) (set_ids ids s))).
Definition unregisterPublisher (id : Z) (s : ZSession) : ZSession :=
  on_inner (inner_UnregisterMatching id) (set_publishers (delete id (z_publishers s)) s).

Definition registerLivelinessSubscriber (ke : KeyExpr) (history : bool) (s : ZSession) :
    Z * ZSession :=
  let '(id, ids) := AllocInterestID (z_ids s) in
  let s := on_inner (RegisterLivelinessSubscriber id ke) (set_ids ids s) in
  (id, set_livelinessSubsReplay
         (<[id := mkLivelinessSubReplayState ke history]> (z_livelinessSubsReplay s)) s).
Definition unregisterLivelinessSubscriber (id : Z) (s : ZSession) : ZSession :=
  let s := on_inner (UnregisterLivelinessSubscriber id) s in
  set_livelinessSubsReplay (delete id (z_livelinessSubsReplay s)) s.

(** ** The handles, and the calls on them *)

Record Subscriber := mkSubscriber { sb_keyExpr : KeyExpr; sb_id : Z; sb_dropped : bool }.
Record Queryable := mkQueryable { qb_keyExpr : KeyExpr; qb_id : Z; qb_dropped : bool }.
Record LivelinessToken := mkLivelinessToken { lt_keyExpr : KeyExpr; lt_id : Z; lt_dropped : bool }.
Record Querier := mkQuerier {
  qr_keyExpr : KeyExpr; qr_opts : QuerierOptions; qr_interestID : Z; qr_dropped : bool }.
Record PutOptions := mkPutOptions {
  po_Encoding : Encoding; po_HasEncoding : bool; po_Priority : Z; po_HasPriority : bool;
  po_CongestionControl : Z; po_HasCongestion : bool; po_IsExpress : bool }.
Definition zeroPutOptions : PutOptions := mkPutOptions (mkEncoding 0 []) false 0 false 0 false false.
Record Publisher := mkPublisher {
  pb_keyExpr : KeyExpr; pb_options : PutOptions; pb_interestID : Z; pb_dropped : bool }.
Record LivelinessSubscriber := mkLivelinessSubscriber {
  ls_keyExpr : KeyExpr; ls_interestID : Z; ls_history : bool; ls_dropped : bool }.

Section Calls.
Context {N : Type} `{Network N}.
Abbreviation api A := (sem (ZSession * N) A) (only parsing).

Definition sendDeclareSubscriber (id : Z) (ke : KeyExpr) : N -> option error * N :=
  enqueueControl (buildDeclareSubscriber id ke).
Definition sendUndeclareSubscriber (id : Z) (ke : KeyExpr) : N -> option error * N :=
  enqueueControl (buildUndeclareSubscriber id ke).
Definition sendDeclareQueryable (id : Z) (ke : KeyExpr) (opts : option bool) : N -> option error * N :=
  enqueueControl (buildDeclareQueryable id ke opts).
Definition sendUndeclareQueryable (id : Z) (ke : KeyExpr) : N -> option error * N :=
  enqueueControl (buildUndeclareQueryable id ke).
Definition sendDeclareToken (id : Z) (ke : KeyExpr) : N -> option error * N :=
  enqueueControl (buildDeclareToken id ke).
Definition sendUndeclareToken (id : Z) (ke : KeyExpr) : N -> option error * N :=
  enqueueControl (buildUndeclareToken id ke).
Definition sendQuerierInterest (id : Z) (ke : KeyExpr) : N -> option error * N :=
  enqueueControl (buildQuerierInterest id ke).
Definition sendPublisherInterest (id : Z) (ke : KeyExpr) : N -> option error * N :=
  enqueueControl (buildPublisherInterest id ke).
Definition sendLivelinessSubscriberInterest (id : Z) (ke : KeyExpr) (history : bool) :
    N -> option error * N := enqueueControl (buildLivelinessSubscriberInterest id ke history).
Definition sendInterestFinal (id : Z) : N -> option error * N :=
  enqueueControl (buildInterestFinal id).

Definition DeclareSubscriber (ke : KeyExpr) : api Subscriber := fun '(s, n) =>
  if z_closed s then (Err ErrSessionClosed, (s, n))
  else if KeyExpr_IsZero ke then (Err ErrInvalidKeyExpr, (s, n))
  else
    let '(id, s) := registerSubscriber ke s in
    let '(err, n) := sendDeclareSubscriber id ke n in
    match err with
    | Some e => (Err (ErrWrap "send D_SUBSCRIBER" e), (unregisterSubscriber id s, n))
    | None => (Ok (mkSubscriber ke id false), (s, n))
    end.

Definition Subscriber_Drop (h : Subscriber) : api Subscriber := fun '(s, n) =>
  if sb_dropped h then (Ok h, (s, n))
  else
    let s := unregisterSubscriber (sb_id h) s in
    let '(_, n) := sendUndeclareSubscriber (sb_id h) (sb_keyExpr h) n in
    (Ok (mkSubscriber (sb_keyExpr h) (sb_id h) true), (s, n)).

(** [nil_handler]: the handler argument is nil. *)
Definition DeclareQueryable (ke : KeyExpr) (nil_handler : bool) (opts : option bool) :
    api Queryable := fun '(s, n) =>
  if z_closed s then (Err ErrSessionClosed, (s, n))
  else if KeyExpr_IsZero ke then (Err ErrInvalidKeyExpr, (s, n))
  else if nil_handler then (Err ErrInvalidKeyExpr, (s, n))
  else
    let '(id, s) := registerQueryable ke opts s in
    let '(err, n) := sendDeclareQueryable id ke opts n in
    match err with
    | Some e => (Err e, (unregisterQueryable id s, n))
    | None => (Ok (mkQueryable ke id false), (s, n))
    end.

Definition Queryable_Drop (h : Queryable) : api Queryable := fun '(s, n) =>
  if qb_dropped h then (Ok h, (s, n))
  else
    let s := unregisterQueryable (qb_id h) s in
    let '(_, n) := sendUndeclareQueryable (qb_id h) (qb_keyExpr h) n in
    (Ok (mkQueryable (qb_keyExpr h) (qb_id h) true), (s, n)).

Definition DeclareToken (ke : KeyExpr) : api LivelinessToken := fun '(s, n) =>
  if z_closed s then (Err ErrSessionClosed, (s, n))
  else if KeyExpr_IsZero ke then (Err ErrInvalidKeyExpr, (s, n))
  else
    let '(id, s) := registerToken ke s in
    let '(err, n) := sendDeclareToken id ke n in
    match err with
    | Some e => (Err (ErrWrap "send D_TOKEN" e), (unregisterToken id s, n))
    | None => (Ok (mkLivelinessToken ke id false), (s, n))
    end.

Definition LivelinessToken_Drop (h : LivelinessToken) : api LivelinessToken := fun '(s, n) =>
  if lt_dropped h then (Ok h, (s, n))
  else
    let s := unregisterToken (lt_id h) s in
    let '(_, n) := sendUndeclareToken (lt_id h) (lt_keyExpr h) n in
    (Ok (mkLivelinessToken (lt_keyExpr h) (lt_id h) true), (s, n)).

Definition DeclareQuerier (ke : KeyExpr) (opts : option QuerierOptions) : api Querier :=
  fun '(s, n) =>
  if z_closed s then (Err ErrSessionClosed, (s, n))
  else if KeyExpr_IsZero ke then (Err ErrInvalidKeyExpr, (s, n))
  else
    let '(id, s) := registerQuerier ke opts s in
    let '(err, n) := sendQuerierInterest id ke n in
    match err with
    | Some e => (Err (ErrWrap "send INTEREST" e), (unregisterQuerier id s, n))
    | None => (Ok (mkQuerier ke (default zeroQuerierOptions opts) id false), (s, n))
    end.

Definition Querier_Drop (h : Querier) : api Querier := fun '(s, n) =>
  if qr_dropped h then (Ok h, (s, n))
  else
    let s := unregisterQuerier (qr_interestID h) s in
    let '(_, n) := sendInterestFinal (qr_interestID h) n in
    (Ok (mkQuerier (qr_keyExpr h) (qr_opts h) (qr_interestID h) true), (s, n)).

Definition DeclarePublisher (ke : KeyExpr) (opts : option PutOptions) : api Publisher :=
  fun '(s, n) =>
  if z_closed s then (Err ErrSessionClosed, (s, n))
  else if KeyExpr_IsZero ke then (Err ErrInvalidKeyExpr, (s, n))
  else
    let '(id, s) := registerPublisher ke s in
    let '(err, n) := sendPublisherInterest id ke n in
    match err with
    | Some e => (Err (ErrWrap "send INTEREST" e), (unregisterPublisher id s, n))
    | None => (Ok (mkPublisher ke (default zeroPutOptions opts) id false), (s, n))
    end.

Definition Publisher_Drop (h : Publisher) : api Publisher := fun '(s, n) =>
  if pb_dropped h then (Ok h, (s, n))
  else
    let s := unregisterPublisher (pb_interestID h) s in
    let '(_, n) := sendInterestFinal (pb_interestID h) n in
    (Ok (mkPublisher (pb_keyExpr h) (pb_options h) (pb_interestID h) true), (s, n)).

(** [Liveliness.DeclareSubscriber]; the options are the history flag. *)
Definition DeclareLivelinessSubscriber (ke : KeyExpr) (opts : option bool) :
    api LivelinessSubscriber := fun '(s, n) =>
  if z_closed s then (Err ErrSessionClosed, (s, n))
  else if KeyExpr_IsZero ke then (Err ErrInvalidKeyExpr, (s, n))
  else
    let history := default false opts in
    let '(id, s) := registerLivelinessSubscriber ke history s in
    let '(err, n) := sendLivelinessSubscriberInterest id ke history n in
    match err with
    | Some e => (Err (ErrWrap "send liveliness INTEREST" e), (unregisterLivelinessSubscriber id s, n))
    | None => (Ok (mkLivelinessSubscriber ke id history false), (s, n))
    end.

Definition LivelinessSubscriber_Drop (h : LivelinessSubscriber) : api LivelinessSubscriber :=
  fun '(s, n) =>
  if ls_dropped h then (Ok h, (s, n))
  else
    let s := unregisterLivelinessSubscriber (ls_interestID h) s in
    let '(_, n) := sendInterestFinal (ls_interestID h) n in
    (Ok (mkLivelinessSubscriber (ls_keyExpr h) (ls_interestID h) (ls_history h) true), (s, n)).

(** ** Replay *)

Definition inner_ResetMatching (s : Session) : Session :=
  set_matching (ResetMatching (s_matching s)) s.

(** The plan in the order of the six registries. The label is dropped. *)
Definition plan_subscribers (s : ZSession) : list (Z * NetworkMessage) :=
  (fun e => (e.1, buildDeclareSubscriber e.1 e.2)) <$> ForEachSubscriber (z_inner s).
Definition plan_queryables (s : ZSession) : list (Z * NetworkMessage) :=
  (fun e => (e.1, buildDeclareQueryable e.1 e.2.1 (Some e.2.2))) <$> ForEachQueryable (z_inner s).
Definition plan_tokens (s : ZSession) : list (Z * NetworkMessage) :=
  (fun e => (e.1, buildDeclareToken e.1 e.2)) <$> map_to_list (z_tokens s).
Definition plan_queriers (s : ZSession) : list (Z * NetworkMessage) :=
  (fun e => (e.1, buildQuerierInterest e.1 (qs_keyExpr e.2))) <$> map_to_list (z_queriers s).
Definition plan_publishers (s : ZSession) : list (Z * NetworkMessage) :=
  (fun e => (e.1, buildPublisherInterest e.1 (pst_keyExpr e.2))) <$> map_to_list (z_publishers s).
Definition plan_livelinessSubs (s : ZSession) : list (Z * NetworkMessage) :=
  (fun e => (e.1, buildLivelinessSubscriberInterest e.1 (lsr_keyExpr e.2) (lsr_history e.2))) <$>
    map_to_list (z_livelinessSubsReplay s).

Definition replay_parts : list (ZSession -> list (Z * NetworkMessage)) :=
  [plan_subscribers; plan_queryables; plan_tokens; plan_queriers; plan_publishers;
   plan_livelinessSubs].

Definition replay_plan (s : ZSession) : list (Z * NetworkMessage) :=
  part ← replay_parts; part s.

(** The loop over the plan; the errors [errors.Join] joins, [nil] if none. *)
Fixpoint replay_sends (tgt : option target) (plan : list (Z * NetworkMessage)) (n : N) :
    list error * N :=
  match plan with
  | [] => ([], n)
  | (_, msg) :: plan =>
      let '(err, n) := enqueueControlOn tgt msg n in
      let '(errs, n) := replay_sends tgt plan n in
      (match err with Some e => ErrWrap "id" e :: errs | None => errs end, n)
  end.

Definition replayToTarget (tgt : option target) (s : ZSession) (n : N) : list error * N :=
  match tgt with
  | None => ([ErrSessionNotReady], n)
  | Some _ => replay_sends tgt (replay_plan s) n
  end.

(** [curRuntime]: the runtime the orchestrator has just installed. *)
Definition replayEntities (curRuntime : option nat) (s : ZSession) (n : N) :
    list error * (ZSession * N) :=
  let s := on_inner ResetRemoteAliases s in
  let s := on_inner ResetInboundTokens s in
  let s := on_inner inner_ResetMatching s in
  match curRuntime with
  | None => ([ErrSessionNotReady], (s, n))
  | Some rt => let '(errs, n) := replayToTarget (Some (TUnicast rt)) s n in (errs, (s, n))
  end.
End Calls.
