(* ===== verification/EntitiesSpec.v ===== *)
(** * What declarations promise

    The six kinds of entity treated alike ([request]), the declarations a peer
    has received and not seen withdrawn ([view]), and the theorem that, call
    after call, every open link's view is exactly the entities the user
    holds. *)
From S2P Require Import Prelude Codec WirePrim WireNetwork KeyExpr Matching Collector Session Dispatch.
From S2P Require Import Outbound Entities.

(** ** The six kinds at once *)

Inductive request :=
  | RSubscriber (ke : KeyExpr)
  | RQueryable (ke : KeyExpr) (nil_handler : bool) (opts : option bool)
  | RToken (ke : KeyExpr)
  | RQuerier (ke : KeyExpr) (opts : option QuerierOptions)
  | RPublisher (ke : KeyExpr) (opts : option PutOptions)
  | RLiveliness (ke : KeyExpr) (opts : option bool).

Definition req_register (r : request) (s : ZSession) : Z * ZSession :=
  match r with
  | RSubscriber ke => registerSubscriber ke s
  | RQueryable ke _ opts => registerQueryable ke opts s
  | RToken ke => registerToken ke s
  | RQuerier ke opts => registerQuerier ke opts s
  | RPublisher ke _ => registerPublisher ke s
  | RLiveliness ke opts => registerLivelinessSubscriber ke (default false opts) s
  end.

Definition req_unregister (r : request) (id : Z) (s : ZSession) : ZSession :=
  match r with
  | RSubscriber _ => unregisterSubscriber id s
  | RQueryable _ _ _ => unregisterQueryable id s
  | RToken _ => unregisterToken id s
  | RQuerier _ _ => unregisterQuerier id s
  | RPublisher _ _ => unregisterPublisher id s
  | RLiveliness _ _ => unregisterLivelinessSubscriber id s
  end.

Definition req_declare (r : request) (id : Z) : NetworkMessage :=
  match r with
  | RSubscriber ke => buildDeclareSubscriber id ke
  | RQueryable ke _ opts => buildDeclareQueryable id ke opts
  | RToken ke => buildDeclareToken id ke
  | RQuerier ke _ => buildQuerierInterest id ke
  | RPublisher ke _ => buildPublisherInterest id ke
  | RLiveliness ke opts => buildLivelinessSubscriberInterest id ke (default false opts)
  end.

Definition req_undeclare (r : request) (id : Z) : NetworkMessage :=
  match r with
  | RSubscriber ke => buildUndeclareSubscriber id ke
  | RQueryable ke _ _ => buildUndeclareQueryable id ke
  | RToken ke => buildUndeclareToken id ke
  | RQuerier _ _ | RPublisher _ _ | RLiveliness _ _ => buildInterestFinal id
  end.

Definition req_key (r : request) (id : Z) : Z * Z :=
  match r with
  | RSubscriber _ => (IDDeclareSubscriber, id)
  | RQueryable _ _ _ => (IDDeclareQueryable, id)
  | RToken _ => (IDDeclareToken, id)
  | RQuerier _ _ | RPublisher _ _ | RLiveliness _ _ => (IDNetworkInterest, id)
  end.

Definition req_refused (r : request) : bool :=
  match r with
  | RQueryable ke nil_handler _ => KeyExpr_IsZero ke || nil_handler
  | RSubscriber ke | RToken ke | RQuerier ke _ | RPublisher ke _ | RLiveliness ke _ =>
      KeyExpr_IsZero ke
  end.

Definition req_error (r : request) (e : error) : error :=
  match r with
  | RSubscriber _ => ErrWrap "send D_SUBSCRIBER" e
  | RQueryable _ _ _ => e
  | RToken _ => ErrWrap "send D_TOKEN" e
  | RQuerier _ _ | RPublisher _ _ => ErrWrap "send INTEREST" e
  | RLiveliness _ _ => ErrWrap "send liveliness INTEREST" e
  end.

(** A handle of any kind. *)
Inductive handle :=
  | HSubscriber (h : Subscriber)
  | HQueryable (h : Queryable)
  | HToken (h : LivelinessToken)
  | HQuerier (h : Querier)
  | HPublisher (h : Publisher)
  | HLiveliness (h : LivelinessSubscriber).

Definition handle_of (r : request) (id : Z) (dropped : bool) : handle :=
  match r with
  | RSubscriber ke => HSubscriber (mkSubscriber ke id dropped)
  | RQueryable ke _ _ => HQueryable (mkQueryable ke id dropped)
  | RToken ke => HToken (mkLivelinessToken ke id dropped)
  | RQuerier ke opts => HQuerier (mkQuerier ke (default zeroQuerierOptions opts) id dropped)
  | RPublisher ke opts => HPublisher (mkPublisher ke (default zeroPutOptions opts) id dropped)
  | RLiveliness ke opts =>
      HLiveliness (mkLivelinessSubscriber ke id (default false opts) dropped)
  end.

Definition map_sem {S A B} (f : A -> B) (m : sem S A) : sem S B := fun st =>
  match m st with (Ok a, st) => (Ok (f a), st) | (Err e, st) => (Err e, st) end.

Section Calls.
Context {N : Type} `{Network N}.

Definition Declare_entity (r : request) : sem (ZSession * N) handle :=
  match r with
  | RSubscriber ke => map_sem HSubscriber (DeclareSubscriber ke)
  | RQueryable ke nil_handler opts => map_sem HQueryable (DeclareQueryable ke nil_handler opts)
  | RToken ke => map_sem HToken (DeclareToken ke)
  | RQuerier ke opts => map_sem HQuerier (DeclareQuerier ke opts)
  | RPublisher ke opts => map_sem HPublisher (DeclarePublisher ke opts)
  | RLiveliness ke opts => map_sem HLiveliness (DeclareLivelinessSubscriber ke opts)
  end.

Definition Drop_entity (h : handle) : sem (ZSession * N) handle :=
  match h with
  | HSubscriber h => map_sem HSubscriber (Subscriber_Drop h)
  | HQueryable h => map_sem HQueryable (Queryable_Drop h)
  | HToken h => map_sem HToken (LivelinessToken_Drop h)
  | HQuerier h => map_sem HQuerier (Querier_Drop h)
  | HPublisher h => map_sem HPublisher (Publisher_Drop h)
  | HLiveliness h => map_sem HLiveliness (LivelinessSubscriber_Drop h)
  end.

(** Every Declare registers, sends, and takes the registration back when the
    send fails. *)
Lemma Declare_entity_eq r s n : Declare_entity r (s, n) =
  if z_closed s then (Err ErrSessionClosed, (s, n))
  else if req_refused r then (Err ErrInvalidKeyExpr, (s, n))
  else let '(id, s) := req_register r s in
       let '(err, n) := enqueueControl (req_declare r id) n in
       match err with
       | Some e => (Err (req_error r e), (req_unregister r id s, n))
       | None => (Ok (handle_of r id false), (s, n))
       end.
Proof.
  destruct r; cbn; unfold map_sem, DeclareSubscriber, DeclareQueryable, DeclareToken,
    DeclareQuerier, DeclarePublisher, DeclareLivelinessSubscriber;
    destruct (z_closed s); try done; destruct (KeyExpr_IsZero ke); try done;
    try (destruct nil_handler; [done|]); cbn;
    unfold sendDeclareSubscriber, sendDeclareQueryable, sendDeclareToken,
      sendQuerierInterest, sendPublisherInterest, sendLivelinessSubscriberInterest;
    by destruct (enqueueControl _ _) as [[]].
Qed.

Lemma Drop_entity_eq r id s n : Drop_entity (handle_of r id false) (s, n) =
  (Ok (handle_of r id true),
   (req_unregister r id s, (enqueueControl (req_undeclare r id) n).2)).
Proof.
  destruct r; cbn; unfold map_sem, Subscriber_Drop, Queryable_Drop, LivelinessToken_Drop,
    Querier_Drop, Publisher_Drop, LivelinessSubscriber_Drop; cbn;
    unfold sendUndeclareSubscriber, sendUndeclareQueryable, sendUndeclareToken, sendInterestFinal;
    by destruct (enqueueControl _ _).
Qed.

Lemma Drop_entity_again r id st : Drop_entity (handle_of r id true) st = (Ok (handle_of r id true), st).
Proof. by destruct r, st. Qed.
End Calls.

(** ** What a peer knows *)

(** The entity a message declares (true) or withdraws (false). *)
Definition msg_effect (m : NetworkMessage) : option (Z * Z * bool) :=
  match m with
  | NDeclare d =>
      match dcBody d with
      | Some (BDeclareEntity e) => Some (deKind e, deEntityID e, true)
      | Some (BUndeclareEntity e) => Some (ueKind e - 1, ueEntityID e, false)
      | _ => None
      end
  | NInterest i => Some (IDNetworkInterest, itInterestID i, negb (itMode i =? InterestModeFinal))
  | _ => None
  end.

Definition view_step (v : gmap (Z * Z) NetworkMessage) (m : NetworkMessage) :
    gmap (Z * Z) NetworkMessage :=
  match msg_effect m with
  | Some (k, true) => <[k := m]> v
  | Some (k, false) => delete k v
  | None => v
  end.

(** The declarations in force after receiving [msgs]. *)
Definition view (msgs : list NetworkMessage) : gmap (Z * Z) NetworkMessage :=
  fold_left view_step msgs ∅.

Lemma view_app msgs m : view (msgs ++ [m]) = view_step (view msgs) m.
Proof. unfold view. by rewrite fold_left_app. Qed.

Lemma declare_effect r id : msg_effect (req_declare r id) = Some (req_key r id, true).
Proof. destruct r as [|ke nh opts| | | |ke opts]; cbn; try done; destruct opts as [[]|]; done. Qed.
Lemma undeclare_effect r id : msg_effect (req_undeclare r id) = Some (req_key r id, false).
Proof. by destruct r. Qed.

Lemma view_declare msgs r id :
  view (msgs ++ [req_declare r id]) = <[req_key r id := req_declare r id]> (view msgs).
Proof. by rewrite view_app; unfold view_step; rewrite declare_effect. Qed.
Lemma view_undeclare msgs r id :
  view (msgs ++ [req_undeclare r id]) = delete (req_key r id) (view msgs).
Proof. by rewrite view_app; unfold view_step; rewrite undeclare_effect. Qed.

(** ** The registries as one map *)

Definition live_interest (s : ZSession) (id : Z) : option NetworkMessage :=
  match z_queriers s !! id, z_publishers s !! id, z_livelinessSubsReplay s !! id with
  | Some q, _, _ => Some (buildQuerierInterest id (qs_keyExpr q))
  | None, Some p, _ => Some (buildPublisherInterest id (pst_keyExpr p))
  | None, None, Some l => Some (buildLivelinessSubscriberInterest id (lsr_keyExpr l) (lsr_history l))
  | None, None, None => None
  end.

Definition live_at (s : ZSession) (k : Z * Z) : option NetworkMessage :=
  let '(kind, id) := k in
  if kind =? IDDeclareSubscriber then buildDeclareSubscriber id <$> s_subs (z_inner s) !! id
  else if kind =? IDDeclareQueryable then
    (fun e => buildDeclareQueryable id e.1 (Some e.2)) <$> s_qbls (z_inner s) !! id
  else if kind =? IDDeclareToken then buildDeclareToken id <$> z_tokens s !! id
  else if kind =? IDNetworkInterest then live_interest s id
  else None.

(** The last id given out for a kind. *)
Definition last_id (a : idAllocators) (kind : Z) : Z :=
  if kind =? IDDeclareSubscriber then nextSubsID a
  else if kind =? IDDeclareQueryable then nextQblsID a
  else if kind =? IDDeclareToken then nextTokenID a
  else nextInterestID a.

Definition allocated (a : idAllocators) (k : Z * Z) : Prop := 1 <= k.2 <= last_id a k.1.

(** The registries of the two layers agree, no interest id is used twice, and
    ids come from the counters. *)
Record zs_ok (s : ZSession) : Prop := {
  zo_ids k : is_Some (live_at s k) -> allocated (z_ids s) k;
  zo_q_p : dom (z_queriers s) ## dom (z_publishers s);
  zo_q_l : dom (z_queriers s) ## dom (z_livelinessSubsReplay s);
  zo_p_l : dom (z_publishers s) ## dom (z_livelinessSubsReplay s);
  zo_matching : dom (s_matching (z_inner s)) = dom (z_queriers s) ∪ dom (z_publishers s);
  zo_liveliness id :
    s_livelinessSubs (z_inner s) !! id = lsr_keyExpr <$> z_livelinessSubsReplay s !! id }.

(** The counters are below [c]. *)
Definition ids_below (c : Z) (a : idAllocators) : Prop :=
  0 <= nextSubsID a <= c /\ 0 <= nextQblsID a <= c /\ 0 <= nextTokenID a <= c /\
  0 <= nextInterestID a <= c.

Lemma alloc_id_fresh next : 0 <= next < 2 ^ 32 - 1 -> alloc_id next = next + 1.
Proof. intros H. unfold alloc_id, uint32. apply Z.mod_small. lia. Qed.

Definition req_kind (r : request) : Z := (req_key r 0).1.
Lemma req_key_kind r id : req_key r id = (req_kind r, id).
Proof. by destruct r. Qed.

Definition bump (r : request) (a : idAllocators) : idAllocators :=
  match r with
  | RSubscriber _ => (AllocSubsID a).2
  | RQueryable _ _ _ => (AllocQblsID a).2
  | RToken _ => (AllocTokenID a).2
  | RQuerier _ _ | RPublisher _ _ | RLiveliness _ _ => (AllocInterestID a).2
  end.

(** ** Registering and unregistering *)

Lemma register_id r s c : ids_below c (z_ids s) -> c < 2 ^ 32 - 1 ->
  (req_register r s).1 = last_id (z_ids s) (req_kind r) + 1.
Proof. intros (H1 & H2 & H3 & H4) Hc. destruct r; cbn; apply alloc_id_fresh; lia. Qed.

Lemma register_ids r s : z_ids (req_register r s).2 = bump r (z_ids s).
Proof. by destruct r. Qed.

Lemma bump_below r c a : ids_below c a -> c < 2 ^ 32 - 1 -> ids_below (c + 1) (bump r a).
Proof.
  intros (H1 & H2 & H3 & H4) Hc. destruct r; cbn; unfold ids_below; cbn;
    rewrite alloc_id_fresh by lia; lia.
Qed.

Lemma bump_last r c a kind : ids_below c a -> c < 2 ^ 32 - 1 ->
  last_id (bump r a) kind = last_id a kind \/
  (last_id a kind = last_id a (req_kind r) /\ last_id (bump r a) kind = last_id a kind + 1).
Proof.
  intros (H1 & H2 & H3 & H4) Hc. unfold last_id.
  destruct (kind =? IDDeclareSubscriber), (kind =? IDDeclareQueryable), (kind =? IDDeclareToken),
    r; cbn; rewrite ?alloc_id_fresh by lia; lia.
Qed.

Lemma allocated_bump r c a k : ids_below c a -> c < 2 ^ 32 - 1 ->
  allocated a k -> allocated (bump r a) k.
Proof.
  intros Hb Hc [H1 H2]. destruct (bump_last r c a k.1 Hb Hc) as [E|[_ E]]; split; rewrite ?E; lia.
Qed.


Lemma live_interest_None s id : live_interest s id = None ->
  z_queriers s !! id = None /\ z_publishers s !! id = None /\ z_livelinessSubsReplay s !! id = None.
Proof. unfold live_interest. by repeat case_match. Qed.

(** Lookups of a [live_at] of a kind that is a numeral. *)
Ltac live_kinds kind :=
  destruct (Z.eqb_spec kind IDDeclareSubscriber) as [->|];
  [|destruct (Z.eqb_spec kind IDDeclareQueryable) as [->|];
  [|destruct (Z.eqb_spec kind IDDeclareToken) as [->|];
  [|destruct (Z.eqb_spec kind IDNetworkInterest) as [->|]]]].

Lemma register_live r s : live_at s (req_key r (req_register r s).1) = None ->
  forall k, live_at (req_register r s).2 k =
    if decide (k = req_key r (req_register r s).1) then Some (req_declare r (req_register r s).1)
    else live_at s k.
Proof.
  intros Hn [kind id]. destruct (decide _) as [->|Hne].
  - destruct r as [ke|ke nh opts|ke|ke opts|ke opts|ke opts]; cbn in *;
      rewrite ?lookup_insert_eq; cbn; try done;
      apply live_interest_None in Hn as (Hq & Hp & Hl);
      unfold live_interest; cbn; by rewrite ?Hq, ?Hp, ?lookup_insert_eq.
  - unfold live_at. rewrite req_key_kind in Hne. unfold req_kind in Hne.
    live_kinds kind; try done; destruct r as [ke|ke nh opts|ke|ke opts|ke opts|ke opts];
      cbn in *; try done; unfold live_interest; cbn; rewrite ?lookup_insert_ne; congruence.
Qed.

Lemma fresh_not_live r s c : zs_ok s -> ids_below c (z_ids s) -> c < 2 ^ 32 - 1 ->
  let k := req_key r (req_register r s).1 in ~ allocated (z_ids s) k /\ live_at s k = None.
Proof.
  intros Hs Hb Hc k.
  assert (Ha : ~ allocated (z_ids s) k).
  { unfold k, allocated. rewrite req_key_kind, (register_id r s c) by done. cbn. lia. }
  split; [done|]. destruct (live_at s k) eqn:E; [|done]. destruct Ha. by apply Hs.
Qed.

Lemma register_allocated r s c : ids_below c (z_ids s) -> c < 2 ^ 32 - 1 ->
  allocated (z_ids (req_register r s).2) (req_key r (req_register r s).1).
Proof.
  intros Hb Hc. unfold allocated. rewrite register_ids, req_key_kind, (register_id r s c) by done.
  pose proof Hb as (H1 & H2 & H3 & H4). destruct r; cbn; rewrite alloc_id_fresh by lia; lia.
Qed.

Lemma register_ok r s c : zs_ok s -> ids_below c (z_ids s) -> c < 2 ^ 32 - 1 ->
  zs_ok (req_register r s).2.
Proof.
  intros Hs Hb Hc. destruct (fresh_not_live r s c Hs Hb Hc) as [Hf Hn].
  pose proof Hs as [H1 H2 H3 H4 H5 H6]. constructor.
  - intros k Hk. rewrite (register_live r s Hn) in Hk. destruct (decide _) as [->|_].
    + by eapply register_allocated.
    + rewrite register_ids. eapply allocated_bump; [done..|]. by apply H1.
  - destruct r; cbn in *; try done; apply live_interest_None in Hn as (Hq & Hp & Hl);
      apply not_elem_of_dom in Hq, Hp; set_solver.
  - destruct r; cbn in *; try done; apply live_interest_None in Hn as (Hq & Hp & Hl);
      apply not_elem_of_dom in Hq, Hl; set_solver.
  - destruct r; cbn in *; try done; apply live_interest_None in Hn as (Hq & Hp & Hl);
      apply not_elem_of_dom in Hp, Hl; set_solver.
  - destruct r; cbn in *; try done; unfold RegisterMatching; rewrite !dom_insert_L, H5; set_solver.
  - intros id. destruct r; cbn in *; try done.
    match goal with |- <[?i := _]> _ !! _ = _ => destruct (decide (i = id)) as [<-|] end;
      [by rewrite !lookup_insert_eq|by rewrite !lookup_insert_ne].
Qed.

(** The registration under [k] is the one [r] made with [id]. *)
Lemma live_declared r id s : live_at s (req_key r id) = Some (req_declare r id) ->
  match r with
  | RQuerier _ _ => is_Some (z_queriers s !! id)
  | RPublisher _ _ => is_Some (z_publishers s !! id)
  | RLiveliness _ _ => is_Some (z_livelinessSubsReplay s !! id)
  | _ => True
  end.
Proof.
  destruct r; cbn; try done; unfold live_interest;
    destruct (z_queriers s !! id), (z_publishers s !! id), (z_livelinessSubsReplay s !! id);
    intros [=]; eauto.
Qed.

(** Taking back a registration of a disjoint union of registries. *)
Lemma unregister_live r id s : zs_ok s -> live_at s (req_key r id) = Some (req_declare r id) ->
  forall k, live_at (req_unregister r id s) k =
    if decide (k = req_key r id) then None else live_at s k.
Proof.
  intros Hs Hl [kind id']. apply live_declared in Hl. destruct Hs as [_ Hqp Hql Hpl _ _].
  destruct (decide _) as [E|Hne].
  - destruct r; injection E as -> ->; cbn in *; rewrite ?lookup_delete_eq; try done;
      unfold live_interest; cbn; rewrite ?lookup_delete_eq;
      apply elem_of_dom in Hl;
      repeat case_match; try done; exfalso;
      match goal with E : _ !! _ = Some _ |- _ => apply elem_of_dom_2 in E; set_solver end.
  - unfold live_at. rewrite req_key_kind in Hne. unfold req_kind in Hne.
    live_kinds kind; try done; destruct r; cbn in *; try done;
      unfold live_interest; cbn; rewrite ?lookup_delete_ne; congruence.
Qed.

Lemma unregister_ids r id s : z_ids (req_unregister r id s) = z_ids s.
Proof. by destruct r. Qed.

Lemma dom_UnregisterMatching id (reg : gmap Z matchingEntry) :
  dom (UnregisterMatching id reg).1 = dom reg ∖ {[id]}.
Proof.
  unfold UnregisterMatching. destruct (reg !! id) eqn:E; cbn.
  - by rewrite dom_delete_L.
  - apply not_elem_of_dom in E. set_solver.
Qed.

Lemma unregister_ok r id s : zs_ok s -> live_at s (req_key r id) = Some (req_declare r id) ->
  zs_ok (req_unregister r id s).
Proof.
  intros Hs Hl. pose proof (unregister_live r id s Hs Hl) as Hk. apply live_declared in Hl.
  destruct Hs as [H1 H2 H3 H4 H5 H6]. constructor.
  - intros k Hx. rewrite unregister_ids. apply H1. rewrite Hk in Hx. by destruct (decide _).
  - destruct r; cbn; rewrite ?dom_delete_L; set_solver.
  - destruct r; cbn; rewrite ?dom_delete_L; set_solver.
  - destruct r; cbn; rewrite ?dom_delete_L; set_solver.
  - destruct r; cbn in *; try done; rewrite dom_UnregisterMatching, ?dom_delete_L, H5;
      apply elem_of_dom in Hl; set_solver.
  - intros id'. destruct r; cbn in *; try done.
    destruct (decide (id' = id)) as [->|]; [by rewrite !lookup_delete_eq|by rewrite !lookup_delete_ne].
Qed.

(** The plan of a replay holds exactly the registered entities. *)
Lemma live_interest_cases s id m : zs_ok s -> live_interest s id = Some m <->
  (exists q, z_queriers s !! id = Some q /\ m = buildQuerierInterest id (qs_keyExpr q)) \/
  (exists p, z_publishers s !! id = Some p /\ m = buildPublisherInterest id (pst_keyExpr p)) \/
  (exists l, z_livelinessSubsReplay s !! id = Some l /\
     m = buildLivelinessSubscriberInterest id (lsr_keyExpr l) (lsr_history l)).
Proof.
  intros [_ H2 H3 H4 _ _]. unfold live_interest.
  assert (Hd : forall {A B} (x : gmap Z A) (y : gmap Z B) a b, dom x ## dom y ->
            x !! id = Some a -> y !! id = Some b -> False)
    by (intros A B x y a b Hd Ha Hb; apply elem_of_dom_2 in Ha, Hb; set_solver).
  destruct (z_queriers s !! id) eqn:Eq, (z_publishers s !! id) eqn:Ep,
    (z_livelinessSubsReplay s !! id) eqn:El; try (exfalso; by eauto); naive_solver.
Qed.

Lemma plan_live s id m : zs_ok s ->
  ((id, m) ∈ replay_plan s <->
   exists kind, live_at s (kind, id) = Some m /\ msg_effect m = Some (kind, id, true)).
Proof.
  intros Hs.
  assert (Hpart : (id, m) ∈ replay_plan s <-> Exists (fun part => (id, m) ∈ part s) replay_parts).
  { unfold replay_plan. rewrite list_elem_of_bind, Exists_exists. naive_solver. }
  assert (Hmap : forall {A} (f : Z * A -> NetworkMessage) (x : gmap Z A),
            (id, m) ∈ ((fun e => (e.1, f e)) <$> map_to_list x) <->
            exists a, x !! id = Some a /\ m = f (id, a)).
  { intros A f x. rewrite list_elem_of_fmap. split.
    - intros ([i a] & [= -> ->] & Hi%elem_of_map_to_list). eauto.
    - intros (a & Ha%elem_of_map_to_list & ->). by exists (id, a). }
  rewrite Hpart. unfold replay_parts. rewrite !Exists_cons, Exists_nil.
  unfold plan_subscribers, plan_queryables, plan_tokens, plan_queriers, plan_publishers,
    plan_livelinessSubs, ForEachSubscriber, ForEachQueryable. rewrite !Hmap. cbn. split.
  - intros [H|[H|[H|[H|[H|[H|[]]]]]]]; destruct H as (a & Ha & ->).
    + exists IDDeclareSubscriber. cbn. by rewrite Ha.
    + exists IDDeclareQueryable. cbn. rewrite Ha. by destruct a as [? []].
    + exists IDDeclareToken. cbn. by rewrite Ha.
    + exists IDNetworkInterest. cbn. split; [|done]. apply live_interest_cases; eauto 6.
    + exists IDNetworkInterest. cbn. split; [|done]. apply live_interest_cases; eauto 6.
    + exists IDNetworkInterest. cbn. split; [apply live_interest_cases; eauto 6|].
      by destruct (lsr_history a).
  - intros (kind & Hl & _). revert Hl. unfold live_at. live_kinds kind; try done; cbn.
    + rewrite fmap_Some. naive_solver.
    + rewrite fmap_Some. naive_solver.
    + rewrite fmap_Some. naive_solver.
    + rewrite live_interest_cases by done. naive_solver.
Qed.

Lemma live_effect s k m : live_at s k = Some m -> msg_effect m = Some (k, true).
Proof.
  destruct k as [kind id]. unfold live_at. live_kinds kind; try done; cbn.
  - by intros (ke & _ & ->)%fmap_Some.
  - by intros ([ke []] & _ & ->)%fmap_Some.
  - by intros (ke & _ & ->)%fmap_Some.
  - unfold live_interest. repeat case_match; intros [= <-]; cbn; try done. by destruct (lsr_history _).
Qed.

Lemma plan_live_at s id m : zs_ok s ->
  ((id, m) ∈ replay_plan s <-> exists kind, live_at s (kind, id) = Some m).
Proof.
  intros Hs. rewrite plan_live by done. split; intros (kind & Hk); [naive_solver|].
  exists kind. split; [done|]. by eapply live_effect.
Qed.
