(* ===== verification/Declarations.v ===== *)
(** * Declarations, call after call

    The calls of the public session run one after the other over a network
    that delivers to every open link ([ReliableNetwork], which
    [Outbound.enqueue_outcome] justifies for calls that wait without a deadline), with
    links that open, are replayed to, and close.  What each open link has been
    told is then exactly what the user holds. *)
From S2P Require Import Prelude Codec WirePrim WireNetwork KeyExpr Matching Collector Session Dispatch.
From S2P Require Import Outbound Entities EntitiesSpec.

(** ** The network *)

Class ReliableNetwork (N : Type) `{Network N} := {
  open_link : nat -> N -> Prop;
  sent : nat -> N -> list NetworkMessage;
  send_all_delivers m p r x n :
    (forall rt, open_link rt (send_all m p r x n).2 <-> open_link rt n) /\
    (forall rt, open_link rt n -> sent rt (send_all m p r x n).2 = sent rt n ++ [m]) /\
    (forall rt, open_link rt n -> (send_all m p r x n).1 = None);
  send_to_delivers rt m p r x n : open_link rt n ->
    let res := send_to (Some (TUnicast rt)) m p r x n in
    res.1 = None /\ (forall rt', open_link rt' res.2 <-> open_link rt' n) /\
    sent rt res.2 = sent rt n ++ [m] /\
    (forall rt', rt' <> rt -> open_link rt' n -> sent rt' res.2 = sent rt' n) }.

(** ** The calls *)

(** An entity the user was given a handle to. *)
Record held := mkHeld { hd_req : request; hd_id : Z; hd_dropped : bool }.

Section Runs.
Context {N : Type} `{ReliableNetwork N}.

(** [n'] differs from [n] by links that have closed, and by [fresh_link]. *)
Definition links_change (fresh_link : option nat) (n n' : N) : Prop :=
  forall rt, open_link rt n' ->
    if decide (fresh_link = Some rt) then sent rt n' = []
    else open_link rt n /\ sent rt n' = sent rt n.

Definition close_session (s : ZSession) : ZSession :=
  mkZSession true (z_inner s) (z_ids s) (z_tokens s) (z_queriers s) (z_publishers s)
    (z_livelinessSubsReplay s).

(** One call, or one event of the network; [c] counts the declarations. *)
Inductive api_step : Z * list held * ZSession * N -> Z * list held * ZSession * N -> Prop :=
  | api_declare c hs s n r id s' n' :
      Declare_entity r (s, n) = (Ok (handle_of r id false), (s', n')) ->
      api_step (c, hs, s, n) (c + 1, hs ++ [mkHeld r id false], s', n')
  | api_refused c hs s n r e s' n' :
      Declare_entity r (s, n) = (Err e, (s', n')) ->
      api_step (c, hs, s, n) (c + 1, hs, s', n')
  | api_drop c hs s n i r id d h s' n' :
      hs !! i = Some (mkHeld r id d) ->
      Drop_entity (handle_of r id d) (s, n) = (Ok h, (s', n')) ->
      api_step (c, hs, s, n) (c, <[i := mkHeld r id true]> hs, s', n')
  | api_links c hs s n n' :
      links_change None n n' -> api_step (c, hs, s, n) (c, hs, s, n')
  | api_peer c hs s n n1 rt errs n' :
      links_change (Some rt) n n1 -> open_link rt n1 ->
      replayToTarget (Some (TUnicast rt)) s n1 = (errs, n') ->
      api_step (c, hs, s, n) (c, hs, s, n')
  | api_reconnect c hs s n n1 rt errs s' n' :
      links_change (Some rt) n n1 -> open_link rt n1 ->
      replayEntities (Some rt) s n1 = (errs, (s', n')) ->
      api_step (c, hs, s, n) (c, hs, s', n')
  | api_close c hs s n : api_step (c, hs, s, n) (c, hs, close_session s, n).

Inductive api_run (x : Z * list held * ZSession * N) : Z * list held * ZSession * N -> Prop :=
  | api_here : api_run x x
  | api_more y z : api_run x y -> api_step y z -> api_run x z.

(** The user holds an entity that is announced as [m] under [k]. *)
Definition holds (hs : list held) (k : Z * Z) (m : NetworkMessage) : Prop :=
  exists h, h ∈ hs /\ hd_dropped h = false /\
    req_key (hd_req h) (hd_id h) = k /\ req_declare (hd_req h) (hd_id h) = m.

(** Two entities held at once are announced under different keys. *)
Definition keys_apart (hs : list held) : Prop :=
  forall i j h h', hs !! i = Some h -> hs !! j = Some h' ->
    hd_dropped h = false -> hd_dropped h' = false ->
    req_key (hd_req h) (hd_id h) = req_key (hd_req h') (hd_id h') -> i = j.

Record api_ok (x : Z * list held * ZSession * N) : Prop := {
  ao_zs : zs_ok x.1.2;
  ao_ids : ids_below x.1.1.1 (z_ids x.1.2);
  ao_apart : keys_apart x.1.1.2;
  ao_live k m : live_at x.1.2 k = Some m <-> holds x.1.1.2 k m;
  ao_view rt k : open_link rt x.2 -> view (sent rt x.2) !! k = live_at x.1.2 k }.

(** The sends of a replay reach the target, and only it. *)
Lemma replay_sends_delivers rt plan n errs n' :
  open_link rt n -> replay_sends (Some (TUnicast rt)) plan n = (errs, n') ->
  errs = [] /\ (forall rt', open_link rt' n' <-> open_link rt' n) /\
  sent rt n' = sent rt n ++ plan.*2 /\
  (forall rt', rt' <> rt -> open_link rt' n -> sent rt' n' = sent rt' n).
Proof.
  revert n errs n'. induction plan as [|[id m] plan IH]; intros n errs n' Ho; cbn.
  { intros [= <- <-]. rewrite app_nil_r. naive_solver. }
  unfold enqueueControlOn.
  pose proof (send_to_delivers rt m QoSPriorityControl true false n Ho) as (He & Hl & Hs & Hn).
  destruct (send_to _ m _ _ _ n) as [err n1]. cbn in *. subst err.
  destruct (replay_sends _ plan n1) as [errs1 n2] eqn:E. intros [= <- <-].
  apply IH in E as (-> & Hl' & Hs' & Hn'); [|by apply Hl].
  split; [done|]. split; [intros rt'; by rewrite Hl', Hl|].
  split; [by rewrite Hs', Hs, <- app_assoc|].
  intros rt' Hne Hr. rewrite Hn', Hn; [done..|by apply Hl].
Qed.

(** A view after the declarations of a plan. *)
Lemma view_plan (plan : list (Z * NetworkMessage)) k :
  (forall id m, (id, m) ∈ plan -> exists k, msg_effect m = Some (k, true)) ->
  (forall id m id' m' k, (id, m) ∈ plan -> (id', m') ∈ plan ->
     msg_effect m = Some (k, true) -> msg_effect m' = Some (k, true) -> m = m') ->
  forall m, view plan.*2 !! k = Some m <->
    exists id, (id, m) ∈ plan /\ msg_effect m = Some (k, true).
Proof.
  induction plan as [|[id m0] plan IH] using rev_ind; intros Hd Hu m.
  { cbn. split; [done|]. intros (id & Hi & _). by apply elem_of_nil in Hi. }
  rewrite fmap_app. cbn. rewrite view_app. unfold view_step.
  destruct (Hd id m0) as [k0 Hk0]; [set_solver|]. rewrite Hk0.
  assert (IH' := IH ltac:(set_solver) 
    ltac:(intros i1 m1 i2 m2 k1 ??; apply (Hu i1 m1 i2 m2 k1); set_solver) m).
  destruct (decide (k0 = k)) as [->|Hne].
  - rewrite lookup_insert_eq. split.
    + intros [= <-]. exists id. set_solver.
    + intros (i & Hi & Hm). f_equal. apply (Hu id m0 i m k); [set_solver|done..].
  - rewrite lookup_insert_ne, IH' by done. split; [set_solver|].
    intros (i & [Hi|Hi]%elem_of_app & Hm); [by eauto|].
    apply list_elem_of_singleton in Hi as [= -> ->]. congruence.
Qed.

Lemma view_replay s k : zs_ok s -> view (replay_plan s).*2 !! k = live_at s k.
Proof.
  intros Hs. apply option_eq. intros m. rewrite view_plan.
  - split.
    + intros (id & (kind & Hl)%plan_live_at & Hm); [|done].
      pose proof (live_effect _ _ _ Hl). congruence.
    + intros Hl. destruct k as [kind id]. exists id. rewrite plan_live_at by done.
      split; [by exists kind|by eapply live_effect].
  - intros id m' (kind & Hl)%plan_live_at; [|done]. eexists. by eapply live_effect.
  - intros id m1 id' m2 k1 (k2 & H1)%plan_live_at (k3 & H2)%plan_live_at; try done. intros E1 E2.
    rewrite (live_effect _ _ _ H1) in E1. rewrite (live_effect _ _ _ H2) in E2. congruence.
Qed.

Lemma holds_app hs r id k m : holds (hs ++ [mkHeld r id false]) k m <->
  holds hs k m \/ (req_key r id = k /\ req_declare r id = m).
Proof.
  unfold holds. split.
  - intros (h & [Hh|Hh]%elem_of_app & Hd & Hk & Hm); [by left; exists h|].
    apply list_elem_of_singleton in Hh as ->. by right.
  - intros [(h & Hh & Hd)|Hk]; [exists h; set_solver|]. exists (mkHeld r id false). set_solver.
Qed.

Lemma holds_drop hs i r id k m : keys_apart hs -> hs !! i = Some (mkHeld r id false) ->
  holds (<[i := mkHeld r id true]> hs) k m <-> holds hs k m /\ k <> req_key r id.
Proof.
  intros Ha Hi. pose proof (lookup_lt_Some _ _ _ Hi) as Hlt. split.
  - intros (h & (j & Hj)%list_elem_of_lookup & Hd & Hk & Hm).
    apply list_lookup_insert_Some in Hj as [(<- & <- & _)|(Hne & Hj)]; [done|].
    split; [exists h; split; [by eapply list_elem_of_lookup_2|done]|].
    intros ->. apply Hne. by eapply Ha; [exact Hi|exact Hj|..].
  - intros [(h & (j & Hj)%list_elem_of_lookup & Hd & Hk & Hm) Hne]. exists h. split; [|done].
    apply list_elem_of_lookup. exists j. rewrite list_lookup_insert_ne; [done|].
    intros ->. rewrite Hi in Hj. injection Hj as <-. by destruct Hne.
Qed.

Lemma keys_apart_drop hs i h h' : keys_apart hs -> hs !! i = Some h -> hd_dropped h' = true ->
  keys_apart (<[i := h']> hs).
Proof.
  intros Ha Hi Hd a b x y Hx Hy Dx Dy Hk.
  apply list_lookup_insert_Some in Hx as [(<- & <- & _)|(_ & Hx)]; [congruence|].
  apply list_lookup_insert_Some in Hy as [(<- & <- & _)|(_ & Hy)]; [congruence|]. by eapply Ha.
Qed.

Lemma keys_apart_app hs r id : keys_apart hs ->
  (forall m, ~ holds hs (req_key r id) m) -> keys_apart (hs ++ [mkHeld r id false]).
Proof.
  intros Ha Hf i j x y Hx Hy Dx Dy Hk.
  apply lookup_snoc_Some in Hx as [[Hi Hx]|[-> <-]], Hy as [[Hj Hy]|[-> <-]]; try done.
  - by eapply Ha.
  - exfalso. eapply Hf. exists x. repeat split; eauto using list_elem_of_lookup_2.
  - symmetry in Hk. exfalso. eapply Hf. exists y. repeat split; eauto using list_elem_of_lookup_2.
Qed.

(** Reduces [ao_view] to one message sent to every open link. *)
Lemma enqueueControl_view m n rt : open_link rt (enqueueControl m n).2 ->
  open_link rt n /\ (enqueueControl m n).1 = None /\
  sent rt (enqueueControl m n).2 = sent rt n ++ [m].
Proof.
  unfold enqueueControl. destruct (send_all_delivers m QoSPriorityControl true false n) as (Hl & Hs & He).
  intros Ho. apply Hl in Ho. eauto.
Qed.

Lemma api_ok_declare c hs s n r res s' n' : c + 1 < 2 ^ 32 ->
  api_ok (c, hs, s, n) -> Declare_entity r (s, n) = (res, (s', n')) ->
  match res with
  | Ok h => forall id, h = handle_of r id false ->
      api_ok (c + 1, hs ++ [mkHeld r id false], s', n')
  | Err _ => api_ok (c + 1, hs, s', n')
  end.
Proof.
  intros Hc [H1 H2 H3 H4 H5] Hd. cbn in *. rewrite Declare_entity_eq in Hd.
  assert (Hid : ids_below (c + 1) (z_ids s)) by (unfold ids_below in *; lia).
  assert (Herr : forall e, (Err e : result handle, (s, n)) = (res, (s', n')) ->
    match res with Ok _ => False | Err _ => api_ok (c + 1, hs, s', n') end)
    by (intros e [= <- <- <-]; by constructor).
  destruct (z_closed s); [specialize (Herr _ Hd); by destruct res|].
  destruct (req_refused r); [specialize (Herr _ Hd); by destruct res|].
  destruct (fresh_not_live r s c H1 H2 ltac:(lia)) as [_ Hf].
  pose proof (register_ok r s c H1 H2 ltac:(lia)) as Hok.
  pose proof (register_live r s Hf) as Hl.
  assert (Hids : ids_below (c + 1) (z_ids (req_register r s).2))
    by (rewrite register_ids; apply bump_below; [done|lia]).
  destruct (req_register r s) as [id s1]. cbn in *.
  pose proof (fun rt => enqueueControl_view (req_declare r id) n rt) as Hv.
  destruct (enqueueControl (req_declare r id) n) as [[e|] n1]; injection Hd as <- <- <-; cbn in Hv.
  - assert (Hr : live_at s1 (req_key r id) = Some (req_declare r id)) by (by rewrite Hl, decide_True).
    assert (Hu : forall k, live_at (req_unregister r id s1) k = live_at s k).
    { intros k. rewrite (unregister_live r id s1 Hok Hr), Hl.
      by destruct (decide (k = req_key r id)) as [->|]. }
    constructor; cbn; [by apply unregister_ok|by rewrite unregister_ids|done|..].
    + intros k m. by rewrite Hu, H4.
    + intros rt k Ho. destruct (Hv rt Ho) as (_ & [=] & _).
  - intros id' E. assert (id' = id) as -> by (destruct r; injection E; congruence).
    constructor; cbn; [done|done|..].
    + apply keys_apart_app; [done|]. intros m Hm%H4. congruence.
    + intros k m. rewrite Hl, holds_app, <- H4. destruct (decide (k = req_key r id)) as [->|];
        naive_solver.
    + intros rt k Ho. destruct (Hv rt Ho) as (Ho' & _ & ->). rewrite view_declare, Hl.
      destruct (decide (k = req_key r id)) as [->|]; [by rewrite lookup_insert_eq|].
      rewrite lookup_insert_ne by done. by apply H5.
Qed.

Lemma api_ok_drop c hs s n i r id d h s' n' :
  api_ok (c, hs, s, n) -> hs !! i = Some (mkHeld r id d) ->
  Drop_entity (handle_of r id d) (s, n) = (Ok h, (s', n')) ->
  api_ok (c, <[i := mkHeld r id true]> hs, s', n').
Proof.
  intros Hok Hi Hd. destruct d.
  { rewrite Drop_entity_again in Hd. injection Hd as <- <- <-. by rewrite list_insert_id. }
  destruct Hok as [H1 H2 H3 H4 H5]. cbn in *. rewrite Drop_entity_eq in Hd.
  injection Hd as <- <- <-.
  assert (Hl : live_at s (req_key r id) = Some (req_declare r id)).
  { apply H4. exists (mkHeld r id false). split; [by eapply list_elem_of_lookup_2|done]. }
  pose proof (unregister_live r id s H1 Hl) as Hu.
  constructor; cbn; [by apply unregister_ok|by rewrite unregister_ids|by eapply keys_apart_drop|..].
  - intros k m. rewrite Hu, (holds_drop hs i r id k m H3 Hi), <- H4.
    destruct (decide (k = req_key r id)); naive_solver.
  - intros rt k Ho. apply enqueueControl_view in Ho as (Ho & _ & ->).
    rewrite view_undeclare, Hu. destruct (decide (k = req_key r id)) as [->|].
    + by rewrite lookup_delete_eq.
    + rewrite lookup_delete_ne by done. by apply H5.
Qed.

Lemma api_ok_replay c hs s n n1 rt errs n' :
  api_ok (c, hs, s, n) -> links_change (Some rt) n n1 -> open_link rt n1 ->
  replay_sends (Some (TUnicast rt)) (replay_plan s) n1 = (errs, n') ->
  api_ok (c, hs, s, n').
Proof.
  intros [H1 H2 H3 H4 H5] Hc Ho E. cbn in *.
  apply replay_sends_delivers in E as (_ & Hl & Hs & Hn); [|done].
  constructor; cbn; try done. intros rt' k Ho'. apply Hl in Ho'.
  pose proof (Hc rt' Ho') as Hr. destruct (decide (rt' = rt)) as [->|Hne].
  - rewrite decide_True in Hr by done. rewrite Hs, Hr. by apply view_replay.
  - rewrite decide_False in Hr by congruence. destruct Hr as [Hr Hs'].
    rewrite Hn, Hs' by done. by apply H5.
Qed.

Lemma reset_live s k :
  live_at (on_inner inner_ResetMatching (on_inner ResetInboundTokens (on_inner ResetRemoteAliases s))) k
    = live_at s k.
Proof. by destruct k. Qed.

Lemma reset_ok s : zs_ok s ->
  zs_ok (on_inner inner_ResetMatching (on_inner ResetInboundTokens (on_inner ResetRemoteAliases s))).
Proof.
  intros [H1 H2 H3 H4 H5 H6]. constructor; cbn; try done.
  unfold ResetMatching. by rewrite dom_fmap_L.
Qed.

Lemma api_ok_step x y : y.1.1.1 < 2 ^ 32 -> api_ok x -> api_step x y -> api_ok y.
Proof.
  intros Hc Hok Hs. destruct Hs as [c hs s n r id s' n' Hd|c hs s n r e s' n' Hd|
    c hs s n i r id d h s' n' Hi Hd|c hs s n n' Hl|c hs s n n1 rt errs n' Hl Ho Hr|
    c hs s n n1 rt errs s' n' Hl Ho Hr|c hs s n]; cbn in Hc.
  - by apply (api_ok_declare _ _ _ _ _ _ _ _ Hc Hok Hd).
  - apply (api_ok_declare _ _ _ _ _ _ _ _ Hc Hok Hd).
  - by eapply api_ok_drop.
  - destruct Hok as [H1 H2 H3 H4 H5]. constructor; cbn in *; try done.
    intros rt k Ho. destruct (Hl rt Ho) as [Ho' ->]. by apply H5.
  - by eapply api_ok_replay.
  - unfold replayEntities in Hr. destruct (replayToTarget _ _ n1) as [errs' n2] eqn:E.
    injection Hr as <- <- <-. eapply api_ok_replay; [|exact Hl|exact Ho|exact E].
    destruct Hok as [H1 H2 H3 H4 H5]. constructor; cbn; try done. by apply reset_ok.
  - destruct Hok as [[]]. constructor; cbn in *; try done.
Qed.

(** C7: Whatever sequence of Declare and Drop calls of all six kinds, links
    lost, reconnections with their replay and Close has happened, on every
    open link the declarations in force, as the messages sent on it define
    them, are exactly those the user holds: none is missing, none is left
    over, and a Declare that failed leaves no trace. *)
Theorem declarations_in_force c hs s n s0 n0 rt k m :
  s0 = mkZSession false NewSession (mkIds 0 0 0 0 0 0) ∅ ∅ ∅ ∅ ->
  (forall rt, ~ open_link rt n0) ->
  api_run (0, [], s0, n0) (c, hs, s, n) -> c < 2 ^ 32 -> open_link rt n ->
  view (sent rt n) !! k = Some m <-> holds hs k m.
Proof.
  intros -> Hn0 Hr Hc Ho.
  cut (forall x y, api_run x y -> api_ok x -> y.1.1.1 < 2 ^ 32 -> api_ok y).
  { intros Hrun. destruct (Hrun _ _ Hr) as [_ _ _ H4 H5]; [|done|by rewrite H5, H4].
    constructor; cbn.
    - constructor; cbn; try set_solver. intros [kind id] [x Hx].
      unfold live_at in Hx. live_kinds kind; done.
    - done.
    - intros i j h h' Hi. done.
    - intros k' m'. split; [|intros (h & Hh & _); by apply elem_of_nil in Hh].
      destruct k' as [kind id]. unfold live_at. by live_kinds kind.
    - intros rt' k' Ho'. by apply Hn0 in Ho'. }
  clear. intros x y Hr. induction Hr as [|y z Hr IH Hs]; intros Hok Hc; [done|].
  eapply api_ok_step; [done|apply IH; [done|]|done]. destruct Hs; cbn in *; lia.
Qed.
End Runs.

(** ** A network of links *)

(** Whether each link is open, and what was sent on it. *)
Abbreviation links := (gmap nat (bool * list NetworkMessage)) (only parsing).

Definition links_send (m : NetworkMessage) (l : bool * list NetworkMessage) :=
  if l.1 then (true, l.2 ++ [m]) else l.

#[export] Instance links_network : Network links := {
  send_all m _ _ _ n :=
    (if decide (n = ∅) then Some ErrSessionNotReady
     else if decide (map_Exists (fun _ l => l.1 = true) n) then None else Some ErrConnectionLost,
     links_send m <$> n);
  send_to tgt m _ _ _ n :=
    match tgt with
    | Some (TUnicast rt) =>
        match n !! rt with
        | Some (true, l) => (None, <[rt := (true, l ++ [m])]> n)
        | _ => (Some ErrConnectionLost, n)
        end
    | Some (TMulticast _) => (Some ErrConnectionLost, n)
    | None => (Some ErrSessionNotReady, n)
    end }.

Definition links_open (rt : nat) (n : links) : Prop := fst <$> n !! rt = Some true.
Definition links_sent (rt : nat) (n : links) : list NetworkMessage := default [] (snd <$> n !! rt).

Lemma links_send_all_spec m p r x (n : links) :
  (forall rt, links_open rt (send_all m p r x n).2 <-> links_open rt n) /\
  (forall rt, links_open rt n -> links_sent rt (send_all m p r x n).2 = links_sent rt n ++ [m]) /\
  (forall rt, links_open rt n -> (send_all m p r x n).1 = None).
Proof.
  unfold links_open, links_sent. cbn. split; [|split]; intros rt.
  - rewrite lookup_fmap. by destruct (n !! rt) as [[[] l]|].
  - rewrite lookup_fmap. by destruct (n !! rt) as [[[] l]|].
  - destruct (n !! rt) as [[b l]|] eqn:E; [|done]. intros [= ->].
    rewrite decide_False by (intros ->; by rewrite lookup_empty in E).
    rewrite decide_True; [done|]. by exists rt, (true, l).
Qed.

Lemma links_send_to_spec rt m p r x (n : links) : links_open rt n ->
  let res := send_to (Some (TUnicast rt)) m p r x n in
  res.1 = None /\ (forall rt', links_open rt' res.2 <-> links_open rt' n) /\
  links_sent rt res.2 = links_sent rt n ++ [m] /\
  (forall rt', rt' <> rt -> links_open rt' n -> links_sent rt' res.2 = links_sent rt' n).
Proof.
  unfold links_open, links_sent. cbn. destruct (n !! rt) as [[[] l]|] eqn:E; try done. intros _.
  cbn. rewrite lookup_insert_eq. split; [done|]. split; [|split; [done|]].
  - intros rt'. destruct (decide (rt' = rt)) as [->|];
      [by rewrite lookup_insert_eq, E|by rewrite lookup_insert_ne].
  - intros rt' Hne _. by rewrite lookup_insert_ne.
Qed.

#[export] Instance links_reliable : ReliableNetwork links := {
  open_link := links_open; sent := links_sent;
  send_all_delivers := links_send_all_spec; send_to_delivers := links_send_to_spec }.

Definition sample_ke : KeyExpr := mkKeyExpr (str "demo/**").
Definition sample_zsession : ZSession :=
  mkZSession false NewSession (mkIds 0 0 0 0 0 0) ∅ ∅ ∅ ∅.

(** A subscriber and a complete queryable, the link is lost and another one
    opens, the subscriber is dropped. *)
Lemma declarations_in_force_witness :
  exists c hs s (n : links),
    api_run (0, [], sample_zsession, ∅) (c, hs, s, n) /\
    (view (sent 1%nat n) !! (IDDeclareQueryable, 1) =
      Some (buildDeclareQueryable 1 sample_ke (Some true)) <->
     holds hs (IDDeclareQueryable, 1) (buildDeclareQueryable 1 sample_ke (Some true))) /\
    holds hs (IDDeclareQueryable, 1) (buildDeclareQueryable 1 sample_ke (Some true)).
Proof.
  assert (Hrun : exists c hs s (n : links),
    api_run (0, [], sample_zsession, ∅) (c, hs, s, n) /\ c = 2 /\ links_open 1%nat n /\
    holds hs (IDDeclareQueryable, 1) (buildDeclareQueryable 1 sample_ke (Some true))).
  { do 4 eexists. split; [|split; [|split]].
    - eapply api_more; [eapply api_more; [eapply api_more; [eapply api_more; [eapply api_more;
        [apply api_here|]|]|]|]|].
      + eapply (api_peer _ _ _ _ {[0%nat := (true, [])]} 0%nat); [|by vm_compute|reflexivity].
        intros [|rt]; [by rewrite decide_True|].
        unfold open_link, links_reliable, links_open. by rewrite lookup_singleton_ne.
      + eapply (api_declare _ _ _ _ (RSubscriber sample_ke) 1). reflexivity.
      + eapply (api_declare _ _ _ _ (RQueryable sample_ke false (Some true)) 1). reflexivity.
      + eapply (api_reconnect _ _ _ _ {[1%nat := (true, [])]} 1%nat); [|by vm_compute|reflexivity].
        intros rt. destruct (decide (rt = 1%nat)) as [->|Hne]; [by rewrite decide_True|].
        unfold open_link, links_reliable, links_open. by rewrite lookup_singleton_ne.
      + eapply (api_drop _ _ _ _ 0 (RSubscriber sample_ke) 1 false); reflexivity.
    - reflexivity.
    - by vm_compute.
    - exists (mkHeld (RQueryable sample_ke false (Some true)) 1 false). cbn. set_solver. }
  destruct Hrun as (c & hs & s & n & Hr & -> & Ho & Hh).
  exists 2, hs, s, n. split; [exact Hr|]. split; [|exact Hh].
  apply (declarations_in_force 2 hs s n sample_zsession ∅ 1%nat); [reflexivity| |exact Hr|lia|exact Ho].
  intros rt. unfold open_link, links_reliable, links_open. by rewrite lookup_empty.
Defined.
