(* ===== verification/Replay.v ===== *)
(** * Declarations and replays at the same time

    The Declare and Drop calls of the user's goroutines interleaved with the
    replays of new links, at every access to shared state: a registry, the
    registry of runtimes, one send.  A declaration is never lost
    ([declarations_not_lost]); a Drop that falls between the snapshot of a
    replay and its sends is undone on that link ([drop_during_replay]). *)
From S2P Require Import Prelude Codec WirePrim WireNetwork KeyExpr Matching Collector Session Dispatch.
From S2P Require Import Outbound Entities EntitiesSpec.

(** ** Goroutines *)

(** A goroutine of the user declares an entity and later drops it; a goroutine
    of the session installs a runtime and replays to it. [rest] are the
    runtimes of the snapshot still to send to. *)
Inductive pc :=
  | PDeclare (r : request)
  | PRegistered (r : request) (id : Z)
  | PDeclaring (r : request) (id : Z) (rest : list nat) (delivered : bool)
  | PHeld (r : request) (id : Z)
  | PFailed
  | PUnregistered (r : request) (id : Z)
  | PUndeclaring (r : request) (id : Z) (rest : list nat)
  | PDropped (r : request) (id : Z)
  | PInstall (rt : nat)
  | PSnapshot (rt : nat) (part : nat) (plan : list (Z * NetworkMessage))
  | PReplay (rt : nat) (plan : list (Z * NetworkMessage))
  | PServing (rt : nat).

(** [g_links] maps a runtime to whether its link is open and to what was sent
    on it; [g_runtimes] is the registry [SnapshotRuntimes] reads; [g_count]
    counts the declarations. *)
Record config := mkConfig {
  g_threads : list pc; g_s : ZSession; g_links : gmap nat (bool * list NetworkMessage);
  g_runtimes : gset nat; g_count : Z }.

(** A send waits for room in the queue of an open link, so it succeeds; on a
    closed one it fails. *)
Definition link_send (rt : nat) (m : NetworkMessage) (l : gmap nat (bool * list NetworkMessage)) :
    bool * gmap nat (bool * list NetworkMessage) :=
  match l !! rt with
  | Some (true, ms) => (true, <[rt := (true, ms ++ [m])]> l)
  | _ => (false, l)
  end.

(** The next step of a goroutine, over the session, the links, the registry
    and the counter. *)
Inductive tstep : pc * ZSession * gmap nat (bool * list NetworkMessage) * gset nat * Z ->
    pc * ZSession * gmap nat (bool * list NetworkMessage) * gset nat * Z -> Prop :=
  | t_refuse r s l q c : (z_closed s || req_refused r = true) ->
      tstep (PDeclare r, s, l, q, c) (PFailed, s, l, q, c)
  | t_register r s l q c : (z_closed s || req_refused r = false) ->
      tstep (PDeclare r, s, l, q, c)
        (PRegistered r (req_register r s).1, (req_register r s).2, l, q, c + 1)
  | t_runtimes r id s l q c :
      tstep (PRegistered r id, s, l, q, c) (PDeclaring r id (elements q) false, s, l, q, c)
  | t_declare r id rt rest d s l q c :
      tstep (PDeclaring r id (rt :: rest) d, s, l, q, c)
        (PDeclaring r id rest (d || (link_send rt (req_declare r id) l).1), s,
         (link_send rt (req_declare r id) l).2, q, c)
  | t_held r id s l q c :
      tstep (PDeclaring r id [] true, s, l, q, c) (PHeld r id, s, l, q, c)
  | t_failed r id s l q c :
      tstep (PDeclaring r id [] false, s, l, q, c) (PFailed, req_unregister r id s, l, q, c)
  | t_unregister r id s l q c :
      tstep (PHeld r id, s, l, q, c) (PUnregistered r id, req_unregister r id s, l, q, c)
  | t_undeclare_runtimes r id s l q c :
      tstep (PUnregistered r id, s, l, q, c) (PUndeclaring r id (elements q), s, l, q, c)
  | t_undeclare r id rt rest s l q c :
      tstep (PUndeclaring r id (rt :: rest), s, l, q, c)
        (PUndeclaring r id rest, s, (link_send rt (req_undeclare r id) l).2, q, c)
  | t_dropped r id s l q c :
      tstep (PUndeclaring r id [], s, l, q, c) (PDropped r id, s, l, q, c)
  | t_install rt s l q c : l !! rt = None ->
      tstep (PInstall rt, s, l, q, c)
        (PSnapshot rt 0 [], s, <[rt := (true, [])]> l, {[rt]} ∪ q, c)
  | t_snapshot rt i part plan s l q c : replay_parts !! i = Some part ->
      tstep (PSnapshot rt i plan, s, l, q, c) (PSnapshot rt (S i) (plan ++ part s), s, l, q, c)
  | t_planned rt plan s l q c :
      tstep (PSnapshot rt 6 plan, s, l, q, c) (PReplay rt plan, s, l, q, c)
  | t_replay rt e plan s l q c :
      tstep (PReplay rt (e :: plan), s, l, q, c)
        (PReplay rt plan, s, (link_send rt e.2 l).2, q, c)
  | t_serving rt s l q c :
      tstep (PReplay rt [], s, l, q, c) (PServing rt, s, l, q, c).

Inductive gstep : config -> config -> Prop :=
  | g_thread ts i p p' s s' l l' q q' c c' :
      ts !! i = Some p -> tstep (p, s, l, q, c) (p', s', l', q', c') ->
      gstep (mkConfig ts s l q c) (mkConfig (<[i := p']> ts) s' l' q' c')
  | g_close ts s l q c rt ms :
      l !! rt = Some (true, ms) ->
      gstep (mkConfig ts s l q c) (mkConfig ts s (<[rt := (false, ms)]> l) q c)
  | g_teardown ts s l q c rt ms :
      l !! rt = Some (false, ms) ->
      gstep (mkConfig ts s l q c) (mkConfig ts s l (q ∖ {[rt]}) c).

Definition started (p : pc) : bool :=
  match p with PDeclare _ | PInstall _ => false | _ => true end.

(** A new session, and goroutines that have not begun. *)
Definition initial (g : config) : Prop :=
  Forall (fun p => started p = false) (g_threads g) /\
  g_s g = mkZSession false NewSession (mkIds 0 0 0 0 0 0) ∅ ∅ ∅ ∅ /\
  g_links g = ∅ /\ g_runtimes g = ∅ /\ g_count g = 0.

(** ** The invariant *)

(** The key a goroutine's entity was given. *)
Definition owned (p : pc) : option (Z * Z) :=
  match p with
  | PRegistered r id | PDeclaring r id _ _ | PHeld r id | PUnregistered r id
  | PUndeclaring r id _ | PDropped r id => Some (req_key r id)
  | _ => None
  end.

(** The entity a goroutine has in the registries. *)
Definition registered (p : pc) : option (request * Z) :=
  match p with
  | PRegistered r id | PDeclaring r id _ _ | PHeld r id => Some (r, id)
  | _ => None
  end.

Definition plan_of (p : pc) : list (Z * NetworkMessage) :=
  match p with PSnapshot _ _ plan | PReplay _ plan => plan | _ => [] end.

(** The part of the plan an entity is in. *)
Definition part_of (r : request) : nat :=
  match r with
  | RSubscriber _ => 0 | RQueryable _ _ _ => 1 | RToken _ => 2 | RQuerier _ _ => 3
  | RPublisher _ _ => 4 | RLiveliness _ _ => 5
  end.

(** The goroutine has yet to declare its entity on the link of [rt]. *)
Definition will_declare (p : pc) (rt : nat) : Prop :=
  match p with PRegistered _ _ => True | PDeclaring _ _ rest _ => rt ∈ rest | _ => False end.

(** The goroutine has yet to replay the entity on the link of [rt]. *)
Definition will_replay (p : pc) (rt : nat) (r : request) (id : Z) : Prop :=
  match p with
  | PSnapshot rt' i plan =>
      rt' = rt /\ ((i <= part_of r)%nat \/ (id, req_declare r id) ∈ plan)
  | PReplay rt' plan => rt' = rt /\ (id, req_declare r id) ∈ plan
  | _ => False
  end.

Definition entry_known (s : ZSession) (e : Z * NetworkMessage) : Prop :=
  exists k, msg_effect e.2 = Some (k, true) /\ allocated (z_ids s) k /\
    forall m, live_at s k = Some m -> m = e.2.

Record local_ok (ts : list pc) (s : ZSession) (c : Z) : Prop := {
  lo_zs : zs_ok s;
  lo_ids : ids_below c (z_ids s);
  lo_owned i p k : ts !! i = Some p -> owned p = Some k -> allocated (z_ids s) k;
  lo_apart i j p p' k : ts !! i = Some p -> ts !! j = Some p' ->
    owned p = Some k -> owned p' = Some k -> i = j;
  lo_live i p r id : ts !! i = Some p -> registered p = Some (r, id) ->
    live_at s (req_key r id) = Some (req_declare r id);
  lo_plans i p e : ts !! i = Some p -> e ∈ plan_of p -> entry_known s e }.

(** Every open link was told of every registered entity, or will be. *)
Definition told (ts : list pc) (l : gmap nat (bool * list NetworkMessage)) : Prop :=
  forall i p r id rt ms, ts !! i = Some p -> registered p = Some (r, id) ->
    l !! rt = Some (true, ms) ->
    view ms !! req_key r id = Some (req_declare r id) \/ will_declare p rt \/
    exists j p', ts !! j = Some p' /\ will_replay p' rt r id.

Record config_ok (g : config) : Prop := {
  go_local : local_ok (g_threads g) (g_s g) (g_count g);
  go_runtimes rt ms : g_links g !! rt = Some (true, ms) -> rt ∈ g_runtimes g;
  go_told : told (g_threads g) (g_links g) }.

(** ** Steps that leave the session alone *)

Lemma insert_lookup_cases (ts : list pc) i p' j q :
  <[i := p']> ts !! j = Some q -> (j = i /\ q = p') \/ (j <> i /\ ts !! j = Some q).
Proof. intros [(<- & <- & _)|(Hn & Hj)]%list_lookup_insert_Some; eauto. Qed.

Lemma registered_owned p r id : registered p = Some (r, id) -> owned p = Some (req_key r id).
Proof. destruct p; try done; cbn; congruence. Qed.

Lemma local_ok_thread ts s c i p p' :
  local_ok ts s c -> ts !! i = Some p ->
  (owned p' = owned p \/ owned p' = None) ->
  (registered p' = registered p \/ registered p' = None) ->
  (forall e, e ∈ plan_of p' -> e ∈ plan_of p \/ entry_known s e) ->
  local_ok (<[i := p']> ts) s c.
Proof.
  intros [H1 H2 H3 H4 H5 H6] Hi Ho Hr Hp.
  assert (Hown : forall j q k, <[i := p']> ts !! j = Some q -> owned q = Some k ->
            exists q', ts !! j = Some q' /\ owned q' = Some k).
  { intros j q k [[-> ->]|[_ Hj]]%insert_lookup_cases Hk; [|by eauto].
    exists p. destruct Ho as [<-|Ho]; [done|congruence]. }
  constructor; try done.
  - intros j q k Hj Hk. destruct (Hown _ _ _ Hj Hk) as (q' & Hq & Hk'). by eapply H3.
  - intros j j' q q' k Hj Hj' Hk Hk'.
    destruct (Hown _ _ _ Hj Hk) as (x & Hx & Hkx), (Hown _ _ _ Hj' Hk') as (y & Hy & Hky).
    by eapply (H4 j j').
  - intros j q r id [[-> ->]|[_ Hj]]%insert_lookup_cases Hq; [|by eapply H5].
    destruct Hr as [Hr|Hr]; [|congruence]. eapply H5; [exact Hi|]. congruence.
  - intros j q e [[-> ->]|[_ Hj]]%insert_lookup_cases He; [|by eapply H6].
    destruct (Hp e He) as [He'|]; [by eapply H6|done].
Qed.

Lemma told_step ts l l' i p p' : told ts l -> ts !! i = Some p ->
  (forall rt ms', l' !! rt = Some (true, ms') ->
     (exists ms, l !! rt = Some (true, ms) /\
        forall j q r id, <[i := p']> ts !! j = Some q -> registered q = Some (r, id) ->
          (view ms !! req_key r id = Some (req_declare r id) ->
           view ms' !! req_key r id = Some (req_declare r id)) /\
          (will_replay p rt r id -> will_replay p' rt r id \/
           view ms' !! req_key r id = Some (req_declare r id))) \/
     (forall r id, will_replay p' rt r id)) ->
  (forall r id, registered p' = Some (r, id) ->
     (forall rt, will_declare p' rt) \/
     (registered p = Some (r, id) /\
      forall rt ms', l' !! rt = Some (true, ms') -> will_declare p rt ->
        will_declare p' rt \/ view ms' !! req_key r id = Some (req_declare r id))) ->
  told (<[i := p']> ts) l'.
Proof.
  intros Ht Hi Hl Hd j q r id rt ms' Hj Hq Hrt.
  pose proof (lookup_lt_Some _ _ _ Hi) as Hlen.
  assert (Hi' : <[i := p']> ts !! i = Some p') by (by apply list_lookup_insert_eq).
  destruct (Hl rt ms' Hrt) as [(ms & Hms & Hkeep)|Hnew]; [|by eauto 6].
  destruct (Hkeep j q r id Hj Hq) as [Hv Hr].
  assert (Hrep : (exists j p', ts !! j = Some p' /\ will_replay p' rt r id) ->
    view ms' !! req_key r id = Some (req_declare r id) \/
    exists j q, <[i := p']> ts !! j = Some q /\ will_replay q rt r id).
  { intros (j' & q' & Hj' & Hw). destruct (decide (j' = i)) as [->|Hne].
    - rewrite Hi in Hj'. injection Hj' as <-. destruct (Hr Hw); eauto.
    - right. exists j', q'. by rewrite list_lookup_insert_ne. }
  apply insert_lookup_cases in Hj as [[-> ->]|[Hne Hj]].
  - destruct (Hd r id Hq) as [Hall|[Hp Hw]]; [by eauto|].
    destruct (Ht i p r id rt ms Hi Hp Hms) as [H|[H|H]]; [by eauto|destruct (Hw rt ms' Hrt H); eauto|].
    destruct (Hrep H); eauto.
  - destruct (Ht j q r id rt ms Hj Hq Hms) as [H|[H|H]]; [by eauto|by eauto|].
    destruct (Hrep H); eauto.
Qed.

(** ** Steps on the session *)

Lemma entry_known_plan s part e : zs_ok s -> part ∈ replay_parts -> e ∈ part s -> entry_known s e.
Proof.
  intros Hs Hp He. destruct e as [id m].
  assert (Hin : (id, m) ∈ replay_plan s) by (apply list_elem_of_bind; eauto).
  apply plan_live_at in Hin as (kind & Hl); [|done]. exists (kind, id).
  split; [by eapply live_effect|]. split; [apply Hs; eauto|]. intros m'. rewrite Hl. by intros [= <-].
Qed.

Lemma local_ok_register ts s c i r : local_ok ts s c -> c + 1 < 2 ^ 32 ->
  ts !! i = Some (PDeclare r) ->
  local_ok (<[i := PRegistered r (req_register r s).1]> ts) (req_register r s).2 (c + 1).
Proof.
  intros [H1 H2 H3 H4 H5 H6] Hc Hi.
  destruct (fresh_not_live r s c H1 H2 ltac:(lia)) as [Hf Hn].
  pose proof (register_live r s Hn) as Hl.
  assert (Hmono : forall k, allocated (z_ids s) k -> allocated (z_ids (req_register r s).2) k)
    by (intros k; rewrite register_ids; apply (allocated_bump r c); [done|lia]).
  assert (Hfresh : forall k, allocated (z_ids s) k -> k <> req_key r (req_register r s).1)
    by (intros k Hk ->; done).
  constructor.
  - by apply (register_ok r s c); [..|lia].
  - rewrite register_ids. by apply bump_below; [|lia].
  - intros j q k [[-> ->]|[_ Hj]]%insert_lookup_cases Hk; [|by eauto].
    injection Hk as <-. by apply (register_allocated r s c); [|lia].
  - intros j j' q q' k [[-> ->]|[_ Hj]]%insert_lookup_cases
      [[-> ->]|[_ Hj']]%insert_lookup_cases Hk Hk'; try done.
    + injection Hk as <-. by destruct (Hfresh _ (H3 _ _ _ Hj' Hk')).
    + injection Hk' as <-. by destruct (Hfresh _ (H3 _ _ _ Hj Hk)).
    + by eapply (H4 j j').
  - intros j q r' id [[-> ->]|[_ Hj]]%insert_lookup_cases Hq.
    + injection Hq as <- <-. by rewrite Hl, decide_True.
    + rewrite Hl, decide_False; [by eapply H5|]. eapply Hfresh, H3, registered_owned; eauto.
  - intros j q e [[-> ->]|[_ Hj]]%insert_lookup_cases He; [by apply elem_of_nil in He|].
    destruct (H6 _ _ _ Hj He) as (k & Hk & Ha & Hm). exists k. split; [done|]. split; [by apply Hmono|].
    intros m. rewrite Hl, decide_False by (by apply Hfresh). apply Hm.
Qed.

Lemma local_ok_unregister ts s c i p p' r id : local_ok ts s c -> ts !! i = Some p ->
  registered p = Some (r, id) -> owned p' = owned p \/ owned p' = None ->
  registered p' = None -> plan_of p' = [] ->
  local_ok (<[i := p']> ts) (req_unregister r id s) c.
Proof.
  intros Hok Hi Hp Ho Hr Hpl. pose proof Hok as [H1 H2 H3 H4 H5 H6].
  pose proof (H5 _ _ _ _ Hi Hp) as Hl. pose proof (unregister_live r id s H1 Hl) as Hu.
  assert (Hthread : local_ok (<[i := p']> ts) s c).
  { apply (local_ok_thread ts s c i p p'); [done|done|done|by right|]. rewrite Hpl.
    intros e He. by apply elem_of_nil in He. }
  destruct Hthread as [_ _ T3 T4 T5 T6]. constructor.
  - by apply unregister_ok.
  - by rewrite unregister_ids.
  - rewrite unregister_ids. exact T3.
  - exact T4.
  - intros j q r' id' Hj Hq. rewrite Hu. destruct (decide _) as [E|]; [|by eapply T5].
    exfalso. apply insert_lookup_cases in Hj as [[-> ->]|[Hne Hj]]; [congruence|].
    apply Hne, (H4 j i q p (req_key r id)); [done|done| |by apply registered_owned].
    rewrite <- E. by apply registered_owned.
  - intros j q e Hj He. destruct (T6 _ _ _ Hj He) as (k & Hk & Ha & Hm). exists k.
    split; [done|]. rewrite unregister_ids. split; [done|]. intros m. rewrite Hu.
    destruct (decide _); [done|apply Hm].
Qed.

(** ** Sends *)

Lemma link_send_lookup rt0 m l rt ms' : (link_send rt0 m l).2 !! rt = Some (true, ms') ->
  exists ms, l !! rt = Some (true, ms) /\ ms' = (if decide (rt = rt0) then ms ++ [m] else ms).
Proof.
  unfold link_send. destruct (l !! rt0) as [[[] ms0]|] eqn:E; cbn.
  - destruct (decide (rt = rt0)) as [->|Hne].
    + rewrite lookup_insert_eq. intros [= <-]. eauto.
    + rewrite lookup_insert_ne by done. eauto.
  - intros H. exists ms'. split; [done|]. rewrite decide_False; [done|congruence].
  - intros H. exists ms'. split; [done|]. rewrite decide_False; [done|congruence].
Qed.

(** Receiving [m] does not change what is known of the entity. *)
Definition keeps (m : NetworkMessage) (r : request) (id : Z) : Prop :=
  match msg_effect m with
  | Some (k, true) => k = req_key r id -> m = req_declare r id
  | Some (k, false) => k <> req_key r id
  | None => True
  end.

Lemma keeps_view m r id ms : keeps m r id ->
  view ms !! req_key r id = Some (req_declare r id) ->
  view (ms ++ [m]) !! req_key r id = Some (req_declare r id).
Proof.
  unfold keeps. rewrite view_app. unfold view_step. destruct (msg_effect m) as [[k []]|]; [..|done].
  - intros Hk Hv. destruct (decide (k = req_key r id)) as [->|];
      [rewrite lookup_insert_eq; by rewrite Hk|by rewrite lookup_insert_ne].
  - intros Hk Hv. by rewrite lookup_delete_ne.
Qed.

(** A goroutine's send, of [m] to [rt0]. *)
Lemma told_send ts l i p p' rt0 m : told ts l -> ts !! i = Some p ->
  (forall j q r id, <[i := p']> ts !! j = Some q -> registered q = Some (r, id) -> keeps m r id) ->
  (forall r id rt, will_replay p rt r id ->
     will_replay p' rt r id \/ (rt = rt0 /\ m = req_declare r id)) ->
  (registered p' = registered p \/ registered p' = None) ->
  (forall r id rt, registered p' = Some (r, id) -> will_declare p rt ->
     will_declare p' rt \/ (rt = rt0 /\ m = req_declare r id)) ->
  told (<[i := p']> ts) (link_send rt0 m l).2.
Proof.
  intros Ht Hi Hk Hrep Hreg Hdec.
  assert (Hlen := lookup_lt_Some _ _ _ Hi).
  apply (told_step ts l _ i p p' Ht Hi).
  - intros rt ms' Hrt. left. apply link_send_lookup in Hrt as (ms & Hms & ->).
    exists ms. split; [done|]. intros j q r id Hj Hq. split.
    + destruct (decide _); [|done]. by apply keeps_view, (Hk j q).
    + intros Hw. destruct (Hrep _ _ _ Hw) as [|[-> ->]]; [by left|]. right.
      by rewrite decide_True, view_declare, lookup_insert_eq.
  - intros r id Hq. right. split; [destruct Hreg; congruence|]. intros rt ms' Hrt Hw.
    destruct (Hdec _ _ _ Hq Hw) as [|[-> ->]]; [by left|right].
    apply link_send_lookup in Hrt as (ms & Hms & ->).
    by rewrite decide_True, view_declare, lookup_insert_eq.
Qed.

(** A registered entity is in its part of the plan. *)
Lemma part_live r id s part : zs_ok s -> live_at s (req_key r id) = Some (req_declare r id) ->
  replay_parts !! part_of r = Some part -> (id, req_declare r id) ∈ part s.
Proof.
  intros Hs Hl Hp.
  assert (Hmap : forall {A} (f : Z * A -> NetworkMessage) (x : gmap Z A) a,
            x !! id = Some a -> req_declare r id = f (id, a) ->
            (id, req_declare r id) ∈ ((fun e => (e.1, f e)) <$> map_to_list x)).
  { intros A f x a Ha Hf. apply list_elem_of_fmap. exists (id, a).
    split; [by rewrite <- Hf|by apply elem_of_map_to_list]. }
  destruct r; injection Hp as <-; cbn in *;
    try (apply live_interest_cases in Hl; [|done];
         destruct Hl as [(a & Ha & E)|[(a & Ha & E)|(a & Ha & E)]]; try discriminate E;
         by eapply Hmap);
    apply fmap_Some in Hl as (a & Ha & E); by eapply Hmap.
Qed.

(** Only the owner of an entity sends about it. *)
Lemma keeps_own ts s c i p m r id (b : bool) : local_ok ts s c -> ts !! i = Some p ->
  owned p = Some (req_key r id) -> msg_effect m = Some (req_key r id, b) ->
  (if b then m = req_declare r id /\ registered p = Some (r, id) else registered p = None) ->
  forall j q r' id', ts !! j = Some q -> registered q = Some (r', id') -> keeps m r' id'.
Proof.
  intros Hok Hi Ho He Hb j q r' id' Hj Hq. unfold keeps. rewrite He.
  assert (Hsame : req_key r id = req_key r' id' -> j = i /\ q = p).
  { intros E. assert (j = i) as ->.
    { eapply (lo_apart _ _ _ Hok j i q p (req_key r' id')); [done|done| |by rewrite <- E].
      by apply registered_owned. }
    split; [done|congruence]. }
  destruct b.
  - destruct Hb as [-> Hp]. intros [_ ->]%Hsame. congruence.
  - intros [_ ->]%Hsame. congruence.
Qed.

Lemma told_thread ts l i p p' (q : gset nat) : told ts l -> ts !! i = Some p ->
  (forall rt ms, l !! rt = Some (true, ms) -> rt ∈ q) ->
  (forall r id rt, will_replay p rt r id -> will_replay p' rt r id) ->
  (registered p' = registered p \/ registered p' = None) ->
  (forall rt, will_declare p rt -> rt ∈ q -> will_declare p' rt) ->
  told (<[i := p']> ts) l.
Proof.
  intros Ht Hi Hq Hrep Hreg Hdec. apply (told_step ts l l i p p' Ht Hi).
  - intros rt ms Hrt. left. exists ms. split; [done|]. intros j q' r id _ _. eauto.
  - intros r id Hr. right. split; [destruct Hreg; congruence|]. eauto.
Qed.

(** A step that changes neither the links nor what a goroutine has to send. *)
Ltac same_thread Ht Hi :=
  eapply (told_thread _ _ _ _ _ _ Ht Hi); [eassumption| | |]; cbn; try done; try tauto; eauto;
  try (by intros ? ?%elem_of_nil); try (by intros ? ? ? [_ ?%elem_of_nil]).

Lemma config_ok_thread ts i p p' s s' l l' q q' c c' :
  ts !! i = Some p -> tstep (p, s, l, q, c) (p', s', l', q', c') -> c' < 2 ^ 32 ->
  config_ok (mkConfig ts s l q c) -> config_ok (mkConfig (<[i := p']> ts) s' l' q' c').
Proof.
  intros Hi Hs Hc [Hloc Hrun Ht]. cbn in *.
  assert (Hlo : (owned p' = owned p \/ owned p' = None) ->
    (registered p' = registered p \/ registered p' = None) ->
    (forall e, e ∈ plan_of p' -> e ∈ plan_of p \/ entry_known s e) ->
    local_ok (<[i := p']> ts) s c) by (by apply local_ok_thread).
  inversion Hs; subst; clear Hs; cbn in *.
  - (* refused *)
    constructor; cbn; [apply Hlo; auto|done|same_thread Ht Hi].
  - (* registered *)
    constructor; cbn; [by apply local_ok_register|done|].
    apply (told_step ts l' l' i _ _ Ht Hi); cbn; [|by eauto].
    intros rt ms Hrt. left. exists ms. split; [done|]. by eauto.
  - (* snapshot of the runtimes *)
    constructor; cbn; [apply Hlo; auto|done|same_thread Ht Hi].
    intros rt _ Hrt. by apply elem_of_elements.
  - (* declare on one link *)
    assert (Hn : local_ok (<[i := PDeclaring r id rest (d || (link_send rt (req_declare r id) l).1)]> ts) s' c')
      by (apply Hlo; auto).
    pose proof (lookup_lt_Some _ _ _ Hi) as Hlen.
    constructor; cbn; [done| |].
    + intros rt' ms (ms' & Hms & _)%link_send_lookup. by eapply Hrun.
    + eapply told_send; [exact Ht|exact Hi| |by auto|by auto|].
      * eapply (keeps_own _ _ _ i _ _ r id true Hn); [by apply list_lookup_insert_eq|done| |done].
        apply declare_effect.
      * cbn. intros r' id' rt' [= <- <-] [->|]%elem_of_cons; auto.
  - (* held *)
    constructor; cbn; [apply Hlo; auto|done|same_thread Ht Hi].
  - (* failed *)
    constructor; cbn; [by eapply local_ok_unregister; eauto|done|same_thread Ht Hi].
  - (* unregistered by Drop *)
    constructor; cbn; [by eapply local_ok_unregister; eauto|done|same_thread Ht Hi].
  - constructor; cbn; [apply Hlo; auto|done|same_thread Ht Hi].
  - (* undeclare on one link *)
    assert (Hn : local_ok (<[i := PUndeclaring r id rest]> ts) s' c') by (apply Hlo; auto).
    pose proof (lookup_lt_Some _ _ _ Hi) as Hlen.
    constructor; cbn; [done| |].
    + intros rt' ms (ms' & Hms & _)%link_send_lookup. by eapply Hrun.
    + eapply told_send; [exact Ht|exact Hi| |by auto|by auto|done].
      eapply (keeps_own _ _ _ i _ _ r id false Hn); [by apply list_lookup_insert_eq|done| |done].
      apply undeclare_effect.
  - constructor; cbn; [apply Hlo; auto|done|same_thread Ht Hi].
  - (* a runtime is installed *)
    constructor; cbn; [apply Hlo; auto| |].
    + intros rt' ms. destruct (decide (rt' = rt)) as [->|]; [set_solver|].
      rewrite lookup_insert_ne by done. intros Hms. apply Hrun in Hms. set_solver.
    + apply (told_step ts l _ i _ _ Ht Hi); cbn; [|done]. intros rt' ms.
      destruct (decide (rt' = rt)) as [->|].
      * intros _. right. intros r id. split; [done|]. left. lia.
      * rewrite lookup_insert_ne by done. intros Hms. left. exists ms. split; [done|]. by auto.
  - (* one registry of the plan *)
    constructor; cbn; [|done|].
    + apply Hlo; [auto|auto|]. intros e [He|He]%elem_of_app; [by auto|right].
      eapply entry_known_plan; [apply Hloc|by eapply list_elem_of_lookup_2|done].
    + apply (told_step ts l' l' i _ _ Ht Hi); cbn; [|done].
      intros rt' ms Hms. left. exists ms. split; [done|]. intros j x r id Hj Hx. split; [done|].
      intros [-> [Hle|Hin]]; left; (split; [done|]); [|right; set_solver].
      destruct (decide (part_of r = i0)) as [<-|]; [right|left; lia].
      apply elem_of_app. right. apply part_live; [apply Hloc| |done].
      apply insert_lookup_cases in Hj as [[-> ->]|[_ Hj]]; [done|by eapply Hloc].
  - (* the plan is complete *)
    constructor; cbn; [apply Hlo; auto|done|].
    same_thread Ht Hi. intros r id rt' [-> [Hle|]]; [|done]. destruct r; cbn in Hle; lia.
  - (* replay of one entity *)
    constructor; cbn.
    + apply Hlo; [auto|auto|]. intros e' He. left. by right.
    + intros rt' ms (ms' & Hms & _)%link_send_lookup. by eapply Hrun.
    + eapply told_send; [exact Ht|exact Hi| | |by auto|done].
      * intros j x r id [[-> ->]|[_ Hj]]%insert_lookup_cases Hx; [done|].
        destruct (lo_plans _ _ _ Hloc i _ e Hi) as (k & Hk & _ & Hm); [by left|].
        unfold keeps. rewrite Hk. intros ->. symmetry. by eapply Hm, Hloc.
      * cbn. intros r id rt' [-> [<-|Hin]%elem_of_cons]; auto.
  - constructor; cbn; [apply Hlo; auto|done|same_thread Ht Hi].
Qed.

Lemma config_ok_step g g' : gstep g g' -> g_count g' < 2 ^ 32 -> config_ok g -> config_ok g'.
Proof.
  destruct 1 as [ts i p p' s s' l l' q q' c c' Hi Hs|ts s l q c rt ms Hrt|ts s l q c rt ms Hrt];
    intros Hc Hok; [by eapply config_ok_thread|..]; destruct Hok as [H1 H2 H3]; cbn in *.
  - constructor; cbn; [done|..].
    + intros rt' ms'. destruct (decide (rt' = rt)) as [->|]; [by rewrite lookup_insert_eq|].
      rewrite lookup_insert_ne by done. apply H2.
    + intros i p r id rt' ms' Hi Hp. destruct (decide (rt' = rt)) as [->|];
        [by rewrite lookup_insert_eq|]. rewrite lookup_insert_ne by done. by apply (H3 i p).
  - constructor; cbn; [done| |done]. intros rt' ms' Hms. pose proof (H2 _ _ Hms).
    assert (rt' <> rt) by congruence. set_solver.
Qed.

Lemma gstep_count g g' : gstep g g' -> g_count g <= g_count g'.
Proof.
  destruct 1 as [ts i p p' s s' l l' q q' c c' Hi Hs|ts s l q c rt ms Hrt|ts s l q c rt ms Hrt];
    cbn; [inversion Hs; subst; lia|lia|lia].
Qed.

Lemma initial_ok g : initial g -> config_ok g.
Proof.
  destruct g as [ts s l q c]. unfold initial. cbn. intros (Ht & -> & -> & -> & ->).
  assert (Hp : forall i p, ts !! i = Some p ->
            owned p = None /\ registered p = None /\ plan_of p = []).
  { intros i p Hi. eapply Forall_lookup_1 in Ht; [|exact Hi]. by destruct p. }
  constructor; cbn.
  - constructor; cbn.
    + constructor; cbn; try set_solver. intros [kind id] [x Hx]. revert Hx.
      unfold live_at. by live_kinds kind.
    + done.
    + intros i p k Hi. destruct (Hp i p Hi) as (-> & _). done.
    + intros i j p p' k Hi _. destruct (Hp i p Hi) as (-> & _). done.
    + intros i p r id Hi. destruct (Hp i p Hi) as (_ & -> & _). done.
    + intros i p e Hi. destruct (Hp i p Hi) as (_ & _ & ->). by intros He%elem_of_nil.
  - done.
  - intros i p r id rt ms Hi. destruct (Hp i p Hi) as (_ & -> & _). done.
Qed.

(** The goroutine is installing the runtime or replaying to it. *)
Definition replaying (rt : nat) (p : pc) : bool :=
  match p with
  | PSnapshot rt' _ _ | PReplay rt' _ => bool_decide (rt' = rt)
  | _ => false
  end.

(** C9: With Declare and Drop calls of any number of goroutines interleaved,
    at every access to shared state, with the installation of new links and
    their replays, an entity whose Declare has returned and that is not
    being dropped is in force on every open link whose replay is over. *)
Theorem declarations_not_lost g0 g i r id rt ms :
  initial g0 -> rtc gstep g0 g -> g_count g < 2 ^ 32 ->
  g_threads g !! i = Some (PHeld r id) -> g_links g !! rt = Some (true, ms) ->
  Forall (fun p => replaying rt p = false) (g_threads g) ->
  view ms !! req_key r id = Some (req_declare r id).
Proof.
  intros Hi0 Hr Hc Hi Hrt Hn.
  assert (Hok : config_ok g).
  { clear Hi Hrt Hn. revert g Hr Hc. refine (rtc_ind_r (fun g => g_count g < 2 ^ 32 -> config_ok g) g0 _ _).
    - intros _. by apply initial_ok.
    - intros g g' _ Hs IH Hc. apply (config_ok_step _ _ Hs Hc), IH.
      pose proof (gstep_count _ _ Hs). lia. }
  destruct (go_told _ Hok i _ r id rt ms Hi eq_refl Hrt) as [|[[]|(j & p & Hj & Hw)]]; [done|].
  eapply Forall_lookup_1 in Hn; [|exact Hj].
  destruct p; cbn in *; try done; destruct Hw as [-> _]; by rewrite bool_decide_eq_true_2 in Hn.
Qed.

(** ** Executions *)

(** The step of a goroutine as a function. *)
Definition tnext (x : pc * ZSession * gmap nat (bool * list NetworkMessage) * gset nat * Z) :
    option (pc * ZSession * gmap nat (bool * list NetworkMessage) * gset nat * Z) :=
  let '(p, s, l, q, c) := x in
  match p with
  | PDeclare r =>
      if z_closed s || req_refused r then Some (PFailed, s, l, q, c)
      else Some (PRegistered r (req_register r s).1, (req_register r s).2, l, q, c + 1)
  | PRegistered r id => Some (PDeclaring r id (elements q) false, s, l, q, c)
  | PDeclaring r id (rt :: rest) d =>
      Some (PDeclaring r id rest (d || (link_send rt (req_declare r id) l).1), s,
            (link_send rt (req_declare r id) l).2, q, c)
  | PDeclaring r id [] true => Some (PHeld r id, s, l, q, c)
  | PDeclaring r id [] false => Some (PFailed, req_unregister r id s, l, q, c)
  | PHeld r id => Some (PUnregistered r id, req_unregister r id s, l, q, c)
  | PUnregistered r id => Some (PUndeclaring r id (elements q), s, l, q, c)
  | PUndeclaring r id (rt :: rest) =>
      Some (PUndeclaring r id rest, s, (link_send rt (req_undeclare r id) l).2, q, c)
  | PUndeclaring r id [] => Some (PDropped r id, s, l, q, c)
  | PInstall rt =>
      match l !! rt with
      | None => Some (PSnapshot rt 0 [], s, <[rt := (true, [])]> l, {[rt]} ∪ q, c)
      | Some _ => None
      end
  | PSnapshot rt i plan =>
      match replay_parts !! i with
      | Some part => Some (PSnapshot rt (S i) (plan ++ part s), s, l, q, c)
      | None => if decide (i = 6%nat) then Some (PReplay rt plan, s, l, q, c) else None
      end
  | PReplay rt (e :: plan) => Some (PReplay rt plan, s, (link_send rt e.2 l).2, q, c)
  | PReplay rt [] => Some (PServing rt, s, l, q, c)
  | PFailed | PDropped _ _ | PServing _ => None
  end.

Lemma tnext_sound x y : tnext x = Some y -> tstep x y.
Proof.
  destruct x as [[[[p s] l] q] c]. cbn.
  destruct p as [r|r id|r id [|rt rest] []|r id| |r id|r id [|rt rest]|r id|rt|rt i plan|rt [|e plan]|rt];
    try (by intros [= <-]; constructor).
  - destruct (z_closed s || req_refused r) eqn:E; intros [= <-]; by constructor.
  - destruct (l !! rt) eqn:E; [done|]. intros [= <-]. by constructor.
  - destruct (replay_parts !! i) eqn:E; [intros [= <-]; by constructor|].
    destruct (decide (i = 6%nat)) as [->|]; [|done]. intros [= <-]. constructor.
Qed.

Arguments tnext : simpl never.

Definition gnext (g : config) (i : nat) : config :=
  match g_threads g !! i with
  | None => g
  | Some p =>
      match tnext (p, g_s g, g_links g, g_runtimes g, g_count g) with
      | None => g
      | Some (p', s, l, q, c) => mkConfig (<[i := p']> (g_threads g)) s l q c
      end
  end.

Lemma gnext_run g sched : rtc gstep g (fold_left gnext sched g).
Proof.
  revert g. induction sched as [|i sched IH]; intros g; [apply rtc_refl|]. cbn.
  transitivity (gnext g i); [|apply IH]. unfold gnext. destruct g as [ts s l q c]. cbn.
  destruct (ts !! i) as [p|] eqn:Hi; [|apply rtc_refl].
  destruct (tnext (p, s, l, q, c)) as [[[[[p' s'] l'] q'] c']|] eqn:E; [|apply rtc_refl].
  apply rtc_once. eapply g_thread; [exact Hi|by apply tnext_sound].
Qed.

Definition sample_sub : request := RSubscriber (mkKeyExpr (str "demo/**")).
Definition sample_config : config :=
  mkConfig [PDeclare sample_sub; PInstall 0; PInstall 1]
    (mkZSession false NewSession (mkIds 0 0 0 0 0 0) ∅ ∅ ∅ ∅) ∅ ∅ 0.

Lemma sample_initial : initial sample_config.
Proof. repeat split; repeat constructor. Qed.

(** Runtime 0 is installed and serving; the subscriber is declared on it, the
    second runtime installed and replayed to meanwhile. *)
Definition sample_schedule : list nat :=
  replicate 9 1%nat ++ [0; 0]%nat ++ replicate 10 2%nat ++ [0; 0]%nat.

Lemma declarations_not_lost_witness :
  let g := fold_left gnext sample_schedule sample_config in
  exists ms, g_links g !! 1%nat = Some (true, ms) /\ g_threads g !! 0%nat = Some (PHeld sample_sub 1) /\
    view ms !! (IDDeclareSubscriber, 1) = Some (buildDeclareSubscriber 1 (mkKeyExpr (str "demo/**"))).
Proof.
  cbv zeta. eexists. split; [vm_compute; reflexivity|]. split; [vm_compute; reflexivity|].
  apply (declarations_not_lost sample_config (fold_left gnext sample_schedule sample_config) 0
    sample_sub 1 1).
  - exact sample_initial.
  - apply gnext_run.
  - vm_compute. reflexivity.
  - vm_compute. reflexivity.
  - vm_compute. reflexivity.
  - assert (E : g_threads (fold_left gnext sample_schedule sample_config) =
      [PHeld sample_sub 1; PServing 0; PServing 1]) by (vm_compute; reflexivity).
    rewrite E. by repeat constructor.
Defined.

(** The second runtime has taken its snapshot when the subscriber is dropped,
    and sends afterwards. *)
Definition race_schedule : list nat :=
  replicate 9 1%nat ++ replicate 4 0%nat ++ replicate 8 2%nat ++ replicate 5 0%nat ++ [2; 2]%nat.

(** An entity dropped between the snapshot of a replay and its send stays
    declared on the new link. *)
Theorem drop_during_replay :
  let g := fold_left gnext race_schedule sample_config in
  rtc gstep sample_config g /\
  g_threads g = [PDropped sample_sub 1; PServing 0; PServing 1] /\
  replay_plan (g_s g) = [] /\
  exists ms, g_links g !! 1%nat = Some (true, ms) /\
    view ms !! req_key sample_sub 1 = Some (req_declare sample_sub 1).
Proof.
  cbv zeta. split; [apply gnext_run|]. split; [vm_compute; reflexivity|].
  split; [vm_compute; reflexivity|]. eexists. split; vm_compute; reflexivity.
Qed.
