(* ===== verification/Publish.v ===== *)
(** * zenoh: publishing, replying and asking

    put.go and publisher.go down to [enqueueNetwork], query.go and the query
    handlers of queryable.go, and the REQUEST that get.go and querier.go build.
    A call either returns at once or hands one message to the fan-out of
    [Outbound] ([Sending]).  The theorems follow the message to the session
    that receives it. *)
From S2P Require Import Prelude Buffer Vle Codec WirePrim WireTransport WireNetwork KeyExpr KeyExprSpec.
From S2P Require Import Transport Matching Collector Session Dispatch SessionSpec Consolidation.
From S2P Require Import Messages Outbound Entities.

(** ** Options *)

Definition CongestionControlBlock : Z := 1.
Definition QoSPriorityDefault : Z := QoSPriorityData.

Definition resolveEncoding (opts : option PutOptions) : option Encoding :=
  match opts with
  | Some o => if po_HasEncoding o then Some (po_Encoding o) else None
  | None => None
  end.

(** Priority, reliable, express. *)
Definition pushQoS (opts : option PutOptions) : Z * bool * bool :=
  match opts with
  | None => (QoSPriorityData, false, false)
  | Some o =>
      (if po_HasPriority o then po_Priority o else QoSPriorityData,
       po_HasCongestion o && (po_CongestionControl o =? CongestionControlBlock),
       po_IsExpress o)
  end.

(** The per-call options over the publisher's. *)
Definition mergeOptions (p : Publisher) (perCall : option PutOptions) : PutOptions :=
  let m := pb_options p in
  match perCall with
  | None => m
  | Some c =>
      mkPutOptions
        (if po_HasEncoding c then po_Encoding c else po_Encoding m)
        (po_HasEncoding c || po_HasEncoding m)
        (if po_HasPriority c then po_Priority c else po_Priority m)
        (po_HasPriority c || po_HasPriority m)
        (if po_HasCongestion c then po_CongestionControl c else po_CongestionControl m)
        (po_HasCongestion c || po_HasCongestion m)
        (po_IsExpress c || po_IsExpress m)
  end.

(** ** Put and Delete *)

(** A call returns, or continues with [enqueueNetwork] of a message. *)
Inductive sending :=
  | Returned (err : option error)
  | Sending (msg : NetworkMessage) (prio : Z) (reliable express : bool).

(** A nil body is no case of [wire.PushBody]. *)
Definition dispatchLocalPush (zid : ZenohID) (ke : KeyExpr) (body : PushBody) (s : ZSession) :
    ZSession :=
  let sample := match body with
    | PPut b => mkPushSample (KeyExpr_String ke) ke IDDataPut (pbPayload b) (pbEncoding b)
                  (pbTimestamp b) zid
    | PDel b => mkPushSample (KeyExpr_String ke) ke IDDataDel [] None (dbTimestamp b) zid
    end in
  on_inner (DispatchLocalPush ke sample) s.

Definition pushExtensions (prio : Z) (reliable express : bool) : list Extension :=
  if negb (prio =? QoSPriorityDefault) || reliable || express
  then [NewZ64Ext ExtIDQoS false (QoS_EncodeZ64 (mkQoS prio reliable express false))]
  else [].

Definition enqueuePush (zid : ZenohID) (ke : KeyExpr) (body : PushBody) (opts : option PutOptions)
    (s : ZSession) : sending * ZSession :=
  let '(prio, reliable, express) := pushQoS opts in
  let push := mkPush (toWire ke) (pushExtensions prio reliable express) (Some body) in
  (Sending (NPush push) prio reliable express, dispatchLocalPush zid ke body s).

(** [ctxErr] is [ctx.Err()]. *)
Definition PutWithContext (zid : ZenohID) (ctxErr : option error) (ke : KeyExpr) (payload : bytes)
    (opts : option PutOptions) (s : ZSession) : sending * ZSession :=
  if z_closed s then (Returned (Some ErrSessionClosed), s)
  else if KeyExpr_IsZero ke then (Returned (Some ErrInvalidKeyExpr), s)
  else match ctxErr with
       | Some e => (Returned (Some e), s)
       | None => enqueuePush zid ke (PPut (mkPutBody None (resolveEncoding opts) [] payload)) opts s
       end.

Definition DeleteWithContext (zid : ZenohID) (ctxErr : option error) (ke : KeyExpr)
    (opts : option PutOptions) (s : ZSession) : sending * ZSession :=
  if z_closed s then (Returned (Some ErrSessionClosed), s)
  else if KeyExpr_IsZero ke then (Returned (Some ErrInvalidKeyExpr), s)
  else match ctxErr with
       | Some e => (Returned (Some e), s)
       | None => enqueuePush zid ke (PDel (mkDelBody None [])) opts s
       end.

Definition Publisher_Put (zid : ZenohID) (p : Publisher) (payload : bytes)
    (perCall : option PutOptions) (s : ZSession) : sending * ZSession :=
  if pb_dropped p then (Returned (Some ErrAlreadyDropped), s)
  else PutWithContext zid None (pb_keyExpr p) payload (Some (mergeOptions p perCall)) s.

Definition Publisher_Delete (zid : ZenohID) (p : Publisher) (perCall : option PutOptions)
    (s : ZSession) : sending * ZSession :=
  if pb_dropped p then (Returned (Some ErrAlreadyDropped), s)
  else DeleteWithContext zid None (pb_keyExpr p) (Some (mergeOptions p perCall)) s.

(** ** subscriber.go: the public sample *)

Definition buildSample (p : PushSample) : Sample :=
  mkSample (ps_ParsedKeyExpr p) (ps_Payload p)
    (if ps_Kind p =? IDDataDel then SampleKindDelete else SampleKindPut)
    (ps_Encoding p) (ps_Timestamp p).

(** ** query.go *)

Record Query := mkQuery { qy_requestID : Z; qy_keyExpr : KeyExpr; qy_parameters : bytes }.
Record QueryReplyOptions := mkQueryReplyOptions {
  qro_Encoding : Encoding; qro_HasEncoding : bool; qro_TimeStamp : Timestamp;
  qro_HasTimeStamp : bool }.

Definition buildQuery (q : QueryReceived) : Query :=
  mkQuery (qr_RequestID q) (qr_ParsedKeyExpr q) (qr_Parameters q).

Definition encodingFromOpts (opts : option QueryReplyOptions) : option Encoding :=
  match opts with
  | Some o => if qro_HasEncoding o then Some (qro_Encoding o) else None
  | None => None
  end.
Definition timestampFromOpts (opts : option QueryReplyOptions) : option Timestamp :=
  match opts with
  | Some o => if qro_HasTimeStamp o then Some (qro_TimeStamp o) else None
  | None => None
  end.

Definition sendResponse (q : Query) (ke : KeyExpr) (body : ResponseBody) : sending :=
  Sending (NResponse (mkResponse (qy_requestID q) (toWire ke) [] (Some body)))
    QoSPriorityData true false.
Definition sendResponseFinal (requestID : Z) : sending :=
  Sending (NResponseFinal (mkResponseFinal requestID [])) QoSPriorityData true false.

Definition Query_Reply (q : Query) (ke : KeyExpr) (payload : bytes)
    (opts : option QueryReplyOptions) : sending :=
  if KeyExpr_IsZero ke then Returned (Some ErrInvalidKeyExpr)
  else sendResponse q ke (RReply (mkReplyBody None []
         (Some (PPut (mkPutBody (timestampFromOpts opts) (encodingFromOpts opts) [] payload))))).
Definition Query_ReplyDel (q : Query) (ke : KeyExpr) (opts : option QueryReplyOptions) : sending :=
  if KeyExpr_IsZero ke then Returned (Some ErrInvalidKeyExpr)
  else sendResponse q ke (RReply (mkReplyBody None []
         (Some (PDel (mkDelBody (timestampFromOpts opts) []))))).
Definition Query_ReplyErr (q : Query) (payload : bytes) (encoding : option Encoding) : sending :=
  sendResponse q (qy_keyExpr q) (RErr (mkErrBody encoding [] payload)).

(** ** get.go and querier.go: asking *)

(** Durations are nanoseconds. [cancelCtx] is merged into the context. *)
Record GetOptions := mkGetOptions {
  go_Consolidation : Z; go_HasConsolidation : bool; go_Parameters : bytes; go_Target : Z;
  go_HasTarget : bool; go_Budget : Z; go_Timeout : Z; go_Buffer : Z }.
Definition zeroGetOptions : GetOptions := mkGetOptions 0 false [] 0 false 0 0 0.

Definition getTimeoutWireGrace : Z := 100 * 1000000.
Definition defaultQueryTimeout : Z := 10 * 1000000000.

Definition effectiveQueryTimeout (t : Z) : Z :=
  if t >? 0 then t else if t <? 0 then 0 else defaultQueryTimeout.

(** [time.Duration.Milliseconds] *)
Definition Milliseconds (d : Z) : Z := Z.quot d 1000000.

(** The extensions of the REQUEST; a nil [opts] is the zero one here, as each
    of its fields is then read as unset. *)
Definition getExtensions (o : GetOptions) : list Extension :=
  (if go_HasTarget o then [QueryTargetExt (go_Target o)] else []) ++
  (if go_Budget o >? 0 then [BudgetExt (go_Budget o)] else []) ++
  (let timeout := effectiveQueryTimeout (go_Timeout o) in
   let ms := Milliseconds timeout in
   if (timeout >? 0) && (ms >? 0)
   then [TimeoutExt (uint64 (ms + Milliseconds getTimeoutWireGrace))] else []).

Definition inner_RegisterGet (id bufSize : Z) (s : Session) : nat * Session :=
  let '(r, g) := RegisterGet id bufSize (s_gets s) in (r, set_gets g s).

(** The request id and the consumer's channel when the request is sent. *)
Definition GetWithContext (ctxErr : option error) (ke : KeyExpr) (opts : option GetOptions)
    (s : ZSession) : sending * option (Z * nat) * ZSession :=
  if z_closed s then (Returned (Some ErrSessionClosed), None, s)
  else if KeyExpr_IsZero ke then (Returned (Some ErrInvalidKeyExpr), None, s)
  else match ctxErr with
       | Some e => (Returned (Some e), None, s)
       | None =>
           let o := default zeroGetOptions opts in
           let '(reqID, ids) := AllocRequestID (z_ids s) in
           let bufSize := if go_Buffer o >? 0 then go_Buffer o else 16 in
           let '(ch, inner) := inner_RegisterGet reqID bufSize (z_inner s) in
           let s := on_inner (fun _ => inner) (set_ids ids s) in
           let body := mkQueryBody
             (if go_HasConsolidation o then Some (go_Consolidation o) else None)
             (go_Parameters o) [] in
           (Sending (NRequest (mkRequest reqID (toWire ke) (getExtensions o) (Some body)))
              QoSPriorityData true false, Some (reqID, ch), s)
       end.

(** After [enqueueNetwork] has failed. *)
Definition get_refused (reqID : Z) (s : ZSession) : result ZSession :=
  inner ← lift_gets (CancelGet reqID (s_gets (z_inner s))) (z_inner s);
  mret (on_inner (fun _ => inner) s).

Record QuerierGetOptions := mkQuerierGetOptions {
  qgo_Parameters : bytes; qgo_Consolidation : Z; qgo_HasConsolidation : bool; qgo_Target : Z;
  qgo_HasTarget : bool; qgo_Timeout : Z; qgo_Budget : Z; qgo_Buffer : Z }.

Definition mergeGetOptions (q : Querier) (call : option QuerierGetOptions) : GetOptions :=
  let d := qr_opts q in
  match call with
  | None => mkGetOptions (qo_Consolidation d) (qo_HasConsolidation d) [] (qo_Target d)
              (qo_HasTarget d) 0 (qo_Timeout d) 0
  | Some c =>
      mkGetOptions
        (if qgo_HasConsolidation c then qgo_Consolidation c else qo_Consolidation d)
        (qgo_HasConsolidation c || qo_HasConsolidation d)
        (qgo_Parameters c)
        (if qgo_HasTarget c then qgo_Target c else qo_Target d)
        (qgo_HasTarget c || qo_HasTarget d)
        (if qgo_Budget c >? 0 then qgo_Budget c else 0)
        (if negb (qgo_Timeout c =? 0) then qgo_Timeout c else qo_Timeout d)
        (if qgo_Buffer c >? 0 then qgo_Buffer c else 0)
  end.

Definition Querier_Get (ctxErr : option error) (q : Querier) (call : option QuerierGetOptions)
    (s : ZSession) : sending * option (Z * nat) * ZSession :=
  if qr_dropped q then (Returned (Some ErrAlreadyDropped), None, s)
  else GetWithContext ctxErr (qr_keyExpr q) (Some (mergeGetOptions q call)) s.

(** ** The receiving session *)

(** A key expression the public constructors give, that fits the wire. *)
Definition wire_ke (ke : KeyExpr) : Prop := valid_ke ke /\ wf_string 0xFFFF (KeyExpr_String ke).

Lemma wf_toWire ke : wire_ke ke -> wf_wireexpr (toWire ke).
Proof. intros [_ Hs]. split; [cbn; lia|done]. Qed.

Lemma resolve_toWire ke s : resolveRemoteKey (toWire ke) s = Some (KeyExpr_String ke).
Proof. done. Qed.

Lemma New_String ke : wire_ke ke -> New (KeyExpr_String ke) = Ok ke.
Proof. by intros [Hv _]. Qed.

Lemma QoS_EncodeZ64_bounds p d e : 0 <= QoS_EncodeZ64 (mkQoS p d e false) < 2 ^ 64.
Proof.
  assert (E : QoS_EncodeZ64 (mkQoS p d e false) = QoS_EncodeZ64 (mkQoS (Z.land p 7) d e false)).
  { unfold QoS_EncodeZ64. cbn [qPriority]. by rewrite <- Z.land_assoc. }
  rewrite E. change 7 with (2 ^ 3 - 1). rewrite land_ones_mod by lia.
  pose proof (QoS_EncodeZ64_range (mkQoS (p mod 2 ^ 3) d e false)) as H. cbn [qPriority] in H.
  pose proof (Z.mod_pos_bound p (2 ^ 3)). lia.
Qed.

Lemma wf_pushExtensions prio reliable express : wf_extensions (pushExtensions prio reliable express).
Proof.
  unfold pushExtensions. destruct (_ || _); [|by split; [constructor|]].
  split; [|done]. constructor; [|constructor]. split; [done|]. cbn. split; [|done].
  apply QoS_EncodeZ64_bounds.
Qed.

Lemma wire_ke_nonzero ke : wire_ke ke -> KeyExpr_IsZero ke = false.
Proof.
  intros [Hv _]. unfold KeyExpr_IsZero. apply bool_decide_eq_false_2. intros E.
  unfold valid_ke in Hv. rewrite E in Hv. vm_compute in Hv. discriminate.
Qed.

(** A well-formed message encodes, and the receiver's dispatcher handles the
    message when it is handed the bytes. *)
Lemma net_carried zid n : wf_net n ->
  exists e, encode_net n = Ok e /\
    forall s, session_ok s -> handle_net zid n s = Ok (run_bytes zid e s).
Proof.
  intros Hwf.
  assert (exists e, encode_net n = Ok e) as [e He].
  { destruct n as [m|m|m|m|m|m]; cbn [encode_net wf_net] in *;
      destruct (encode_sent m [] ltac:(done) Hwf) as (e & He & _); by exists e. }
  exists e. split; [done|]. by apply (net_handled zid n e).
Qed.

(** ** Publications *)

Inductive publication := Put (payload : bytes) | Delete.

Definition publish (zid : ZenohID) (ke : KeyExpr) (p : publication) (opts : option PutOptions)
    (z : ZSession) : sending * ZSession :=
  match p with
  | Put payload => PutWithContext zid None ke payload opts z
  | Delete => DeleteWithContext zid None ke opts z
  end.

(** The encoding and the quality of service the options ask for. *)
Definition asked_encoding (opts : option PutOptions) : option Encoding :=
  o ← opts; guard (po_HasEncoding o = true);; Some (po_Encoding o).
Definition asked_qos (opts : option PutOptions) (prio : Z) (reliable express : bool) : Prop :=
  match opts with
  | None => prio = 5 /\ reliable = false /\ express = false
  | Some o =>
      prio = (if po_HasPriority o then po_Priority o else 5) /\
      (reliable = true <-> po_HasCongestion o = true /\ po_CongestionControl o = 1) /\
      express = po_IsExpress o
  end.

Lemma resolveEncoding_asked opts : resolveEncoding opts = asked_encoding opts.
Proof. destruct opts as [o|]; [|done]. cbn. by destruct (po_HasEncoding o). Qed.
Lemma pushQoS_asked opts : let '(prio, reliable, express) := pushQoS opts in
  asked_qos opts prio reliable express.
Proof.
  destruct opts as [o|]; [|done]. cbn. split; [done|]. split; [|done].
  by rewrite andb_true_iff, Z.eqb_eq.
Qed.

Definition wf_publication (p : publication) (opts : option PutOptions) : Prop :=
  match p with
  | Put payload => len payload <= 0xFFFFFFFF /\ wf_opt wf_encoding (asked_encoding opts)
  | Delete => True
  end.

(** What the user's handlers are given. *)
Definition published (ke : KeyExpr) (p : publication) (opts : option PutOptions) : Sample :=
  match p with
  | Put payload => mkSample ke payload SampleKindPut (asked_encoding opts) None
  | Delete => mkSample ke [] SampleKindDelete None None
  end.

(** [s'] is [s] after its matching subscribers have been given [x], once each. *)
Definition delivered_to (ke : KeyExpr) (x : PushSample) (s s' : Session) : Prop :=
  exists ids, s' = emit ((fun id => EvPush id x) <$> ids) s /\ NoDup ids /\
    forall id, id ∈ ids <-> exists k, s_subs s !! id = Some k /\ overlap k ke.

Lemma dispatchPush_delivers ke x s : subs_valid s -> valid_ke ke ->
  delivered_to ke x s (dispatchPush ke x s).
Proof.
  intros Hs Hk. destruct (matching_ids_spec (s_subs s) ke Hs Hk) as [Hnd Hids].
  by eexists.
Qed.

(** The message of a publication, and what its handler does wherever it goes. *)
Lemma publish_sends zid ke p opts z : z_closed z = false -> wire_ke ke -> wf_publication p opts ->
  exists msg prio reliable express x,
    publish zid ke p opts z =
      (Sending msg prio reliable express, on_inner (fun _ => dispatchPush ke x (z_inner z)) z) /\
    asked_qos opts prio reliable express /\ wf_net msg /\ buildSample x = published ke p opts /\
    forall s, handle_net zid msg s = Ok (dispatchPush ke x s).
Proof.
  intros Hc Hke Hp. pose proof (wire_ke_nonzero ke Hke) as Hk.
  pose proof (resolveEncoding_asked opts) as Henc.
  set (body := match p with
    | Put payload => PPut (mkPutBody None (resolveEncoding opts) [] payload)
    | Delete => PDel (mkDelBody None []) end).
  assert (E : publish zid ke p opts z = enqueuePush zid ke body opts z).
  { unfold publish, PutWithContext, DeleteWithContext. rewrite Hc, Hk. by destruct p. }
  rewrite E. unfold enqueuePush. pose proof (pushQoS_asked opts) as Eq.
  destruct (pushQoS opts) as [[prio rel] exp].
  set (push := NPush (mkPush (toWire ke) (pushExtensions prio rel exp) (Some body))).
  set (x := match p with
    | Put payload => mkPushSample (KeyExpr_String ke) ke IDDataPut payload (resolveEncoding opts) None zid
    | Delete => mkPushSample (KeyExpr_String ke) ke IDDataDel [] None None zid end).
  exists push, prio, rel, exp, x. split; [by destruct p|]. split; [done|].
  split; [|split; [by destruct p; cbn; rewrite <- ?Henc|]].
  - split; [by apply wf_toWire|]. split; [apply wf_pushExtensions|].
    destruct p; cbn; [destruct Hp as [? Hp]; rewrite <- Henc in Hp; repeat split; try done; constructor|].
    repeat split; constructor.
  - intros s. unfold push, handle_net, onPushFromPeer. cbn [puKeyExpr puBody].
    rewrite resolve_toWire, New_String by done. by destruct p.
Qed.

(** C8: Put and Delete on an open session with a valid key send one message
    that encodes, with the priority, congestion control and express flag of
    the options; the session's own matching subscribers get the sample, and
    on any receiving session exactly the subscribers whose keys meet the
    publication's get it, once each, with its payload, kind and encoding. *)
Theorem publication_reaches_subscribers zid ke p opts z :
  z_closed z = false -> subs_valid (z_inner z) -> wire_ke ke -> wf_publication p opts ->
  exists msg prio reliable express x inner e,
    publish zid ke p opts z = (Sending msg prio reliable express, on_inner (fun _ => inner) z) /\
    asked_qos opts prio reliable express /\ encode_net msg = Ok e /\
    buildSample x = published ke p opts /\ delivered_to ke x (z_inner z) inner /\
    forall s, session_ok s -> subs_valid s -> delivered_to ke x s (run_bytes zid e s).
Proof.
  intros Hc Hz Hke Hp.
  destruct (publish_sends zid ke p opts z Hc Hke Hp) as (msg & prio & rel & exp & x & E & Eq & Hwf & Hx & Hh).
  destruct (net_carried zid msg Hwf) as (e & He & Hr).
  exists msg, prio, rel, exp, x, (dispatchPush ke x (z_inner z)), e.
  split_and!; [done..|by apply dispatchPush_delivers; [|apply Hke]|]. intros s Hs Hv.
  pose proof (Hr s Hs) as E'. rewrite Hh in E'. injection E' as <-.
  by apply dispatchPush_delivers; [|apply Hke].
Qed.

(** ** Replies *)

Inductive reply_call :=
  | CReply (ke : KeyExpr) (payload : bytes) (opts : option QueryReplyOptions)
  | CReplyDel (ke : KeyExpr) (opts : option QueryReplyOptions)
  | CReplyErr (payload : bytes) (encoding : option Encoding).

Definition send_reply (q : Query) (c : reply_call) : sending :=
  match c with
  | CReply ke payload opts => Query_Reply q ke payload opts
  | CReplyDel ke opts => Query_ReplyDel q ke opts
  | CReplyErr payload encoding => Query_ReplyErr q payload encoding
  end.

Definition wf_reply (q : Query) (c : reply_call) : Prop :=
  match c with
  | CReply ke payload opts =>
      wire_ke ke /\ len payload <= 0xFFFFFFFF /\ wf_opt wf_encoding (encodingFromOpts opts) /\
      wf_opt wf_timestamp (timestampFromOpts opts)
  | CReplyDel ke opts => wire_ke ke /\ wf_opt wf_timestamp (timestampFromOpts opts)
  | CReplyErr payload encoding =>
      wire_ke (qy_keyExpr q) /\ len payload <= 0xFFFFFFFF /\ wf_opt wf_encoding encoding
  end.

(** What the querier reads from its channel. *)
Definition replied (q : Query) (c : reply_call) : Reply :=
  match c with
  | CReply ke payload opts =>
      mkReply ke (Some (mkSample ke payload SampleKindPut (encodingFromOpts opts)
                          (timestampFromOpts opts))) None
  | CReplyDel ke opts =>
      mkReply ke (Some (mkSample ke [] SampleKindDelete None (timestampFromOpts opts))) None
  | CReplyErr payload encoding => mkReply (qy_keyExpr q) None (Some (mkErrBody encoding [] payload))
  end.

(** C13: Reply, ReplyDel and ReplyErr send one message that encodes; the
    session that receives it hands the collector of that request exactly one
    raw reply, which the public API presents with the key, payload, encoding
    and timestamp of the call. *)
Theorem reply_reaches_querier zid q c :
  0 <= qy_requestID q < 2 ^ 32 -> wf_reply q c ->
  exists msg e raw, send_reply q c = Sending msg QoSPriorityData true false /\
    encode_net msg = Ok e /\ buildPublicReply raw = replied q c /\
    forall s, session_ok s ->
      lift_gets (deliverReply (qy_requestID q) raw (s_gets s)) s = Ok (run_bytes zid e s).
Proof.
  intros Hid Hc.
  assert (Hmsg : exists msg raw, send_reply q c = Sending msg QoSPriorityData true false /\
    wf_net msg /\ buildPublicReply raw = replied q c /\
    forall s, handle_net zid msg s = lift_gets (deliverReply (qy_requestID q) raw (s_gets s)) s).
  { destruct c as [ke payload opts|ke opts|payload encoding]; cbn [send_reply].
    - destruct Hc as (Hke & Hl & He & Ht). unfold Query_Reply. rewrite wire_ke_nonzero by done.
      eexists _, (mkInboundReply (KeyExpr_String ke) ke
        (Some (mkPutBody (timestampFromOpts opts) (encodingFromOpts opts) [] payload)) None None).
      split; [reflexivity|]. split; [|split; [done|]].
      + split; [done|]. split; [by apply wf_toWire|]. repeat split; try done; constructor.
      + intros s. cbn [handle_net]. unfold onResponse. cbn [rsKeyExpr rsBody rbInner rsRequestID].
        rewrite resolve_toWire. cbn [default from_option id]. by rewrite New_String.
    - destruct Hc as (Hke & Ht). unfold Query_ReplyDel. rewrite wire_ke_nonzero by done.
      eexists _, (mkInboundReply (KeyExpr_String ke) ke None
        (Some (mkDelBody (timestampFromOpts opts) [])) None).
      split; [reflexivity|]. split; [|split; [done|]].
      + split; [done|]. split; [by apply wf_toWire|]. repeat split; try done; constructor.
      + intros s. cbn [handle_net]. unfold onResponse. cbn [rsKeyExpr rsBody rbInner rsRequestID].
        rewrite resolve_toWire. cbn [default from_option id]. by rewrite New_String.
    - destruct Hc as (Hke & Hl & He).
      eexists _, (mkInboundReply (KeyExpr_String (qy_keyExpr q)) (qy_keyExpr q) None None
        (Some (mkErrBody encoding [] payload))).
      split; [reflexivity|]. split; [|split; [done|]].
      + split; [done|]. split; [by apply wf_toWire|]. repeat split; try done; constructor.
      + intros s. cbn [handle_net]. unfold onResponse. cbn [rsKeyExpr rsBody rsRequestID].
        rewrite resolve_toWire. cbn [default from_option id]. by rewrite New_String. }
  destruct Hmsg as (msg & raw & Hs & Hwf & Hp & Hh).
  destruct (net_carried zid msg Hwf) as (e & He & Hr). exists msg, e, raw.
  split; [done|]. split; [done|]. split; [done|]. intros s Hok. by rewrite <- Hh, Hr.
Qed.

(** ** Queries *)

Lemma normalise_more_hasExts exts : hasExts (normalise_more exts) = hasExts exts.
Proof. by destruct exts. Qed.

Lemma normalise_more_idem exts : normalise_more (normalise_more exts) = normalise_more exts.
Proof.
  induction exts as [|e exts IH]; [done|].
  by rewrite !normalise_more_cons, IH, normalise_more_hasExts.
Qed.

Lemma EncodeExtensions_normalised exts : EncodeExtensions (normalise_more exts) = EncodeExtensions exts.
Proof. unfold EncodeExtensions. by rewrite normalise_more_idem. Qed.

(** The encoder sets the More flags. *)
Lemma Request_normalised id ke exts body :
  EncodeNetworkMessage (mkRequest id ke (normalise_more exts) body) =
  EncodeNetworkMessage (mkRequest id ke exts body).
Proof.
  unfold EncodeNetworkMessage, EncodeTo, Request_Encoder, Request_header. cbn.
  by rewrite normalise_more_hasExts, EncodeExtensions_normalised.
Qed.

Definition wf_get (o : GetOptions) : Prop :=
  0 <= go_Target o < 256 /\ 0 <= go_Budget o < 2 ^ 32 /\ - 2 ^ 63 <= go_Timeout o < 2 ^ 63 /\
  wf_string 0xFFFF (go_Parameters o).

Lemma effective_bounds t : - 2 ^ 63 <= t < 2 ^ 63 -> 0 <= effectiveQueryTimeout t < 2 ^ 63.
Proof.
  intros Ht. unfold effectiveQueryTimeout, defaultQueryTimeout.
  destruct (Z.gtb_spec t 0), (Z.ltb_spec t 0); lia.
Qed.

Lemma wf_getExtensions o : wf_get o -> Forall wf_extension (getExtensions o).
Proof.
  intros (Ht & Hb & Hd & _). unfold getExtensions. apply Forall_app. split; [|apply Forall_app; split].
  - destruct (go_HasTarget o); [|constructor]. constructor; [|constructor]. split; [done|].
    cbn. split; [lia|done].
  - destruct (go_Budget o >? 0); [|constructor]. constructor; [|constructor]. split; [done|].
    cbn. split; [lia|done].
  - destruct (_ && _); [|constructor]. constructor; [|constructor]. split; [done|]. cbn. split; [|done].
    apply Z.mod_pos_bound. lia.
Qed.

Lemma wf_normalise exts : Forall wf_extension exts -> wf_extensions (normalise_more exts).
Proof.
  intros He. split; [|apply normalise_more_idem]. induction He as [|e exts Hx _ IH]; [constructor|].
  rewrite normalise_more_cons. constructor; [by destruct e as [[]]|done].
Qed.

(** The query [q] is handed to exactly the queryables that overlap it, or,
    when there is none, finalised at once. *)
Definition queried (ke : KeyExpr) (q : QueryReceived) (s s' : Session) : Prop :=
  exists ids, NoDup ids /\
    (forall id, id ∈ ids <-> exists k c, s_qbls s !! id = Some (k, c) /\ overlap k ke) /\
    s_out s' = s_out s ++
      match ids with
      | [] => if s_unmatched s then [EvUnmatched (qr_RequestID q)] else []
      | _ => (fun id => EvQuery id (set_remaining q (Some (fresh (dom (s_counters s)))))) <$> ids
      end.

Lemma dispatchQuery_queried ke q s : qbls_valid s -> valid_ke ke ->
  queried ke q s (let '(n, s') := dispatchQuery ke q s in
                  if (n =? 0)%nat then finaliseUnmatchedQuery (qr_RequestID q) s' else s').
Proof.
  intros Hs Hk. destruct (queryable_ids_spec s ke Hs Hk) as [Hnd Hids].
  set (ids := matching_ids (prod_map id fst <$> map_to_list (s_qbls s)) ke) in *.
  exists ids. split; [done|]. split; [done|]. unfold dispatchQuery. fold ids.
  destruct ids as [|i ids']; cbn; [|done].
  unfold finaliseUnmatchedQuery. destruct (s_unmatched s); cbn; [done|by rewrite app_nil_r].
Qed.

(** The router's deadline, in nanoseconds, when the request carries one. *)
Definition wire_deadline (exts : list Extension) : option Z :=
  head (omap (fun e => if eID (eHeader e) =? ReqExtIDTimeout then Some (eZ64 e * 1000000) else None) exts).

Lemma deadline_after_local o : wf_get o ->
  match wire_deadline (getExtensions o) with
  | Some d => effectiveQueryTimeout (go_Timeout o) + 99 * 1000000 < d
  | None => effectiveQueryTimeout (go_Timeout o) < 1000000
  end.
Proof.
  intros (_ & _ & Hd & _). pose proof (effective_bounds _ Hd) as Hb.
  unfold wire_deadline, getExtensions. rewrite !omap_app.
  assert (E1 : forall b t, omap (fun e => if eID (eHeader e) =? ReqExtIDTimeout
              then Some (eZ64 e * 1000000) else None) (if b : bool then [QueryTargetExt t] else []) = [])
    by (by intros []).
  assert (E2 : forall b t, omap (fun e => if eID (eHeader e) =? ReqExtIDTimeout
              then Some (eZ64 e * 1000000) else None) (if b : bool then [BudgetExt t] else []) = [])
    by (by intros []).
  rewrite E1, E2. cbn [app]. set (t := effectiveQueryTimeout (go_Timeout o)) in *. clearbody t.
  unfold Milliseconds. rewrite Z.quot_div_nonneg by lia.
  pose proof (Z.div_mod t 1000000 ltac:(lia)) as Hq.
  pose proof (Z.mod_pos_bound t 1000000 ltac:(lia)) as Hr.
  destruct (Z.gtb_spec t 0), (Z.gtb_spec (t / 1000000) 0); cbn [andb omap list_omap head]; try lia.
  unfold TimeoutExt, NewZ64Ext. cbn [eHeader eID eZ64].
  change (Z.quot getTimeoutWireGrace 1000000) with 100. unfold uint64.
  change (ReqExtIDTimeout =? ReqExtIDTimeout) with true. cbn iota. cbn [head].
  assert (t / 1000000 < 2 ^ 63 / 1000000 + 1) by (apply Z.lt_succ_r, Z.div_le_mono; lia).
  rewrite Z.mod_small by (change (2 ^ 63 / 1000000) with 9223372036854 in *; lia). lia.
Qed.

(** Every Get in flight has an id the counter has given out, and the counter
    has ids left. *)
Definition gets_below (z : ZSession) : Prop :=
  0 <= nextRequestID (z_ids z) < 2 ^ 32 /\
  map_Forall (fun id _ => 0 <= id <= nextRequestID (z_ids z)) (g_byReq (s_gets (z_inner z))).

(** The next id is the counter's successor, so no Get in flight has it. *)
Lemma RegisterGet_fresh z z' reqID ch :
  gets_below z -> nextRequestID (z_ids z) < 2 ^ 32 - 1 ->
  reqID = alloc_id (nextRequestID (z_ids z)) -> nextRequestID (z_ids z') = reqID ->
  g_byReq (s_gets (z_inner z')) = <[reqID := ch]> (g_byReq (s_gets (z_inner z))) ->
  g_byReq (s_gets (z_inner z)) !! reqID = None /\ gets_below z'.
Proof.
  intros [Hn Hb] Hlt Hid Hn' Hg. assert (Hv : reqID = nextRequestID (z_ids z) + 1).
  { rewrite Hid. unfold alloc_id, uint32. by rewrite Z.mod_small by lia. }
  split.
  - destruct (_ !! reqID) as [c|] eqn:E; [|done]. apply (Hb reqID c) in E. lia.
  - split; [lia|]. rewrite Hg, Hn'. apply map_Forall_insert_2; [lia|].
    eapply map_Forall_impl; [exact Hb|]. cbn. lia.
Qed.

(** C12: A Get on an open session with a valid key registers a channel and
    sends one REQUEST that encodes, under the successor of the session's
    counter as request id: while the counter has not wrapped and the ids of
    the Gets in flight come from it, no other Get in flight has that id, and
    the same holds after the call. On any receiving session exactly the
    queryables whose keys meet the query's get it with its key, parameters
    and identifier; and the deadline on the wire, which is left out only for
    timeouts below a millisecond, exceeds the local one by more than 99
    milliseconds. *)
Theorem get_reaches_queryables zid ke opts z :
  z_closed z = false -> wire_ke ke -> wf_get (default zeroGetOptions opts) ->
  exists msg reqID ch z' e q,
    GetWithContext None ke opts z =
      (Sending msg QoSPriorityData true false, Some (reqID, ch), z') /\
    g_byReq (s_gets (z_inner z')) !! reqID = Some ch /\ encode_net msg = Ok e /\
    (gets_below z -> nextRequestID (z_ids z) < 2 ^ 32 - 1 ->
     g_byReq (s_gets (z_inner z)) !! reqID = None /\ gets_below z') /\
    buildQuery q = mkQuery reqID ke (go_Parameters (default zeroGetOptions opts)) /\
    (forall s, session_ok s -> qbls_valid s -> queried ke q s (run_bytes zid e s)) /\
    match msg with
    | NRequest m =>
        match wire_deadline (rqExtensions m) with
        | Some d => effectiveQueryTimeout (go_Timeout (default zeroGetOptions opts)) + 99 * 1000000 < d
        | None => effectiveQueryTimeout (go_Timeout (default zeroGetOptions opts)) < 1000000
        end
    | _ => False
    end.
Proof.
  intros Hc Hke Hg. set (o := default zeroGetOptions opts) in *.
  pose proof (wire_ke_nonzero ke Hke) as Hk.
  set (reqID := alloc_id (nextRequestID (z_ids z))).
  set (body := mkQueryBody (if go_HasConsolidation o then Some (go_Consolidation o) else None)
                 (go_Parameters o) []).
  set (msg := mkRequest reqID (toWire ke) (getExtensions o) (Some body)).
  set (nmsg := mkRequest reqID (toWire ke) (normalise_more (getExtensions o)) (Some body)).
  assert (Hwf : wf_net (NRequest nmsg)).
  { split; [apply Z.mod_pos_bound; lia|]. split; [by apply wf_toWire|].
    split; [by apply wf_normalise, wf_getExtensions|]. split; [apply Hg|]. by split; [constructor|]. }
  destruct (net_carried zid (NRequest nmsg) Hwf) as (e & He & Hr).
  cbn [encode_net] in He. unfold nmsg in He. rewrite Request_normalised in He.
  set (q := mkQueryReceived reqID (KeyExpr_String ke) ke (go_Parameters o)
              (default 0 (qbConsolidation body)) None).
  eexists (NRequest msg), reqID, (g_next (s_gets (z_inner z))), _, e, q.
  split; [|split; [|split; [done|split; [|split; [done|split; [|by apply deadline_after_local]]]]]].
  - unfold GetWithContext. rewrite Hc, Hk. fold o. cbn. reflexivity.
  - cbn. by rewrite lookup_insert_eq.
  - intros Hb Hlt. by eapply RegisterGet_fresh.
  - intros s Hs Hv.
    assert (Hh : handle_net zid (NRequest nmsg) s =
      Ok (let '(n, s') := dispatchQuery ke q s in
          if (n =? 0)%nat then finaliseUnmatchedQuery (qr_RequestID q) s' else s')).
    { unfold nmsg, handle_net, onRequest. cbn [rqKeyExpr rqBody rqRequestID].
      rewrite resolve_toWire, New_String by done. unfold q. cbn. by destruct (dispatchQuery _ _ s). }
    rewrite Hr in Hh by done. injection Hh as ->. by apply dispatchQuery_queried; [|apply Hke].
Qed.

(** ** Concrete calls *)

Definition sample_zs : ZSession := mkZSession false sample_session (mkIds 0 0 0 0 0 0) ∅ ∅ ∅ ∅.
Definition sample_key : KeyExpr := mkKeyExpr (str "demo/a").

Lemma sample_wire_ke : wire_ke sample_key.
Proof. split; by_eval. Qed.
Lemma sample_session_ok : session_ok sample_session.
Proof. destruct session_ok_new as [H1 H2 H3]. by constructor. Qed.

Lemma publication_reaches_subscribers_witness :
  exists msg prio reliable express x inner e,
    publish (mkZID [1]) sample_key (Put [42]) None sample_zs =
      (Sending msg prio reliable express, on_inner (fun _ => inner) sample_zs) /\
    encode_net msg = Ok e /\ sa_payload (buildSample x) = [42] /\
    delivered_to sample_key x sample_session inner /\
    delivered_to sample_key x sample_session (run_bytes (mkZID [1]) e sample_session).
Proof.
  destruct (publication_reaches_subscribers (mkZID [1]) sample_key (Put [42]) None sample_zs)
    as (msg & prio & rel & exp & x & inner & e & H1 & _ & H3 & H4 & H5 & H6);
    [reflexivity|exact sample_subs_valid|exact sample_wire_ke|by_eval|].
  exists msg, prio, rel, exp, x, inner, e. split; [exact H1|]. split; [exact H3|].
  split; [by rewrite H4|]. split; [exact H5|].
  exact (H6 sample_session sample_session_ok sample_subs_valid).
Defined.

Lemma reply_reaches_querier_witness :
  exists msg e raw,
    send_reply (mkQuery 5 sample_key []) (CReplyErr [1] None) = Sending msg QoSPriorityData true false /\
    encode_net msg = Ok e /\
    buildPublicReply raw = mkReply sample_key None (Some (mkErrBody None [] [1])) /\
    lift_gets (deliverReply 5 raw (s_gets sample_session)) sample_session =
      Ok (run_bytes (mkZID [1]) e sample_session).
Proof.
  destruct (reply_reaches_querier (mkZID [1]) (mkQuery 5 sample_key []) (CReplyErr [1] None))
    as (msg & e & raw & H1 & H2 & H3 & H4); [by_eval| |].
  - split; [exact sample_wire_ke|by_eval].
  - exists msg, e, raw. split; [exact H1|]. split; [exact H2|]. split; [exact H3|].
    exact (H4 sample_session sample_session_ok).
Defined.

Lemma get_reaches_queryables_witness :
  exists msg reqID ch z' e q,
    GetWithContext None sample_key None sample_zs =
      (Sending msg QoSPriorityData true false, Some (reqID, ch), z') /\
    encode_net msg = Ok e /\ gets_below z' /\ buildQuery q = mkQuery reqID sample_key [] /\
    queried sample_key q sample_session (run_bytes (mkZID [1]) e sample_session).
Proof.
  destruct (get_reaches_queryables (mkZID [1]) sample_key None sample_zs)
    as (msg & reqID & ch & z' & e & q & H1 & _ & H3 & Hf & H4 & H5 & _);
    [reflexivity|exact sample_wire_ke|by_eval|].
  exists msg, reqID, ch, z', e, q. split; [exact H1|]. split; [exact H3|].
  split; [apply Hf; [by split; [|apply map_Forall_empty]|reflexivity]|]. split; [exact H4|].
  exact (H5 sample_session sample_session_ok sample_qbls_valid).
Defined.
