(* ===== verification/Queries.v ===== *)
(** * zenoh/queryable.go: answering one request from several queryables

    A request that matches several queryables is delivered to each of them.
    Each dispatcher goroutine runs the user's handler, whose replies are sent
    as they come, and then settles its share of the completion; the last one
    sends RESPONSE_FINAL.  The goroutines run interleaved. *)
From S2P Require Import Prelude WirePrim WireNetwork KeyExpr KeyExprSpec Transport Matching Collector.
From S2P Require Import Session Dispatch SessionSpec Outbound Entities Publish.

(** A delivery: the replies the handler still makes and whether it then
    panics; the ERR reply a panic leads to; [finishQuery]; the final it owes. *)
Inductive delivery_pc :=
  | QHandling (calls : list reply_call) (panics : bool)
  | QPanicked
  | QFinishing
  | QFinal
  | QEnd.

(** The result of a send is ignored; a call that sends nothing leaves no trace. *)
Definition sends (x : sending) : list NetworkMessage :=
  match x with Sending m _ _ _ => [m] | Returned _ => [] end.

Definition panic_reply : reply_call := CReplyErr (str "queryable handler panicked") None.

(** The goroutines, the session with the counter of [q], and what was sent. *)
Record deliveries := mkDeliveries {
  d_threads : list delivery_pc; d_s : Session; d_sent : list NetworkMessage }.

Section Deliveries.
Variables (q : QueryReceived) (r : nat).

(** One step of [runQueryHandler]. A delivery that finds the queue of its
    queryable full starts at [QFinishing]. *)
Definition runQueryHandler (p : delivery_pc) (s : Session) :
    option (delivery_pc * Session * list NetworkMessage) :=
  match p with
  | QHandling (c :: calls) b => Some (QHandling calls b, s, sends (send_reply (buildQuery q) c))
  | QHandling [] true => Some (QPanicked, s, [])
  | QHandling [] false => Some (QFinishing, s, [])
  | QPanicked => Some (QFinishing, s, sends (send_reply (buildQuery q) panic_reply))
  | QFinishing =>
      let '(last, s) := QueryDone (set_remaining q (Some r)) s in
      Some (if last then QFinal else QEnd, s, [])
  | QFinal => Some (QEnd, s, sends (sendResponseFinal (qr_RequestID q)))
  | QEnd => None
  end.

Inductive dstep : deliveries -> deliveries -> Prop :=
  | d_run ts i p p' s s' out msgs :
      ts !! i = Some p -> runQueryHandler p s = Some (p', s', msgs) ->
      dstep (mkDeliveries ts s out) (mkDeliveries (<[i := p']> ts) s' (out ++ msgs))
  | d_other ts s s' out :
      s_counters s' !! r = s_counters s !! r ->
      dstep (mkDeliveries ts s out) (mkDeliveries ts s' out).

(** The delivery has not settled its share. *)
Definition unsettled (p : delivery_pc) : bool :=
  match p with QHandling _ _ | QPanicked | QFinishing => true | _ => false end.
Definition owes_final (p : delivery_pc) : bool :=
  match p with QFinal => true | _ => false end.

Definition count_of (f : delivery_pc -> bool) (ts : list delivery_pc) : nat :=
  length (filter (fun p => f p = true) ts).

Arguments count_of : simpl never.

Definition is_final (m : NetworkMessage) : bool :=
  match m with NResponseFinal _ => true | _ => false end.

(** No RESPONSE_FINAL yet. *)
Definition replies_only (l : list NetworkMessage) : Prop := Forall (fun m => is_final m = false) l.

Definition final_of : NetworkMessage := NResponseFinal (mkResponseFinal (qr_RequestID q) []).

Definition sent_ok (ts : list delivery_pc) (out : list NetworkMessage) : Prop :=
  match count_of unsettled ts, count_of owes_final ts with
  | S _, 0%nat => replies_only out
  | 0%nat, 1%nat => replies_only out
  | 0%nat, 0%nat => exists out', out = out' ++ [final_of] /\ replies_only out'
  | _, _ => False
  end.

Definition deliveries_ok (d : deliveries) : Prop :=
  s_counters (d_s d) !! r = Some (Z.of_nat (count_of unsettled (d_threads d))) /\
  Z.of_nat (count_of unsettled (d_threads d)) < 2 ^ 31 /\ sent_ok (d_threads d) (d_sent d).

Lemma count_insert f ts i p p' : ts !! i = Some p ->
  (count_of f (<[i := p']> ts) + Nat.b2n (f p) = count_of f ts + Nat.b2n (f p'))%nat.
Proof.
  intros Hi. pose proof (lookup_lt_Some _ _ _ Hi).
  rewrite <- (take_drop_middle ts i p Hi) at 2. rewrite insert_take_drop by done.
  unfold count_of. rewrite !filter_app, !length_app, !filter_cons.
  destruct (f p), (f p'); repeat case_decide; try done; cbn; lia.
Qed.

Lemma count_pos f ts i p : ts !! i = Some p -> f p = true -> count_of f ts <> 0%nat.
Proof.
  intros Hi Hp Hn%nil_length_inv.
  assert (Hin : p ∈ filter (fun p => f p = true) ts)
    by (apply list_elem_of_filter; split; [done|by eapply list_elem_of_lookup_2]).
  rewrite Hn in Hin. by apply elem_of_nil in Hin.
Qed.

Lemma replies_sends c : replies_only (sends (send_reply (buildQuery q) c)).
Proof.
  destruct c; cbn; unfold Query_Reply, Query_ReplyDel, Query_ReplyErr;
    repeat case_match; repeat constructor; done.
Qed.

Lemma replies_app l l' : replies_only l -> replies_only l' -> replies_only (l ++ l').
Proof. intros H1 H2. by apply Forall_app. Qed.

(** A step of an unsettled delivery that leaves it unsettled. *)
Lemma ok_reply ts i p p' s out msgs : ts !! i = Some p -> unsettled p = true ->
  unsettled p' = true -> replies_only msgs -> deliveries_ok (mkDeliveries ts s out) ->
  deliveries_ok (mkDeliveries (<[i := p']> ts) s (out ++ msgs)).
Proof.
  intros Hi Hp Hp' Hm (Hc & Hb & Ho). unfold deliveries_ok, sent_ok in *. cbn in *.
  pose proof (count_insert unsettled ts i p p' Hi) as E1.
  pose proof (count_insert owes_final ts i p p' Hi) as E2.
  assert (owes_final p = false /\ owes_final p' = false) as [F F'] by (by destruct p, p').
  rewrite Hp, Hp' in E1. rewrite F, F' in E2. cbn in *.
  assert (count_of unsettled (<[i:=p']> ts) = count_of unsettled ts) as -> by lia.
  assert (count_of owes_final (<[i:=p']> ts) = count_of owes_final ts) as -> by lia.
  split; [done|]. split; [done|].
  destruct (count_of unsettled ts) as [|k] eqn:Ek, (count_of owes_final ts) as [|[]]; try done;
    try (by apply replies_app).
  by destruct (count_pos unsettled ts i p Hi Hp).
Qed.

(** Settling: the delivery that brings the counter to zero owes the final. *)
Lemma ok_settle ts i s out last s' : ts !! i = Some QFinishing ->
  QueryDone (set_remaining q (Some r)) s = (last, s') -> deliveries_ok (mkDeliveries ts s out) ->
  deliveries_ok (mkDeliveries (<[i := if last then QFinal else QEnd]> ts) s' out).
Proof.
  intros Hi Hq (Hc & Hb & Ho). cbn in *. unfold QueryDone in Hq. cbn in Hq.
  rewrite Hc in Hq. cbn in Hq.
  destruct (count_of unsettled ts) as [|k] eqn:Ek;
    [by destruct (count_pos unsettled ts i QFinishing Hi eq_refl)|].
  replace (Z.of_nat (S k) - 1) with (Z.of_nat k) in Hq by lia.
  rewrite int32_small in Hq by lia. injection Hq as <- <-.
  set (p' := if Z.of_nat k =? 0 then QFinal else QEnd).
  pose proof (count_insert unsettled ts i QFinishing p' Hi) as E1.
  pose proof (count_insert owes_final ts i QFinishing p' Hi) as E2.
  assert (E3 : unsettled p' = false) by (unfold p'; by destruct (_ =? 0)).
  rewrite E3, Ek in E1. cbn in E1, E2.
  assert (E4 : count_of unsettled (<[i:=p']> ts) = k) by lia.
  unfold deliveries_ok, sent_ok. cbn. rewrite E4, lookup_insert_eq. split; [done|]. split; [lia|].
  unfold sent_ok in Ho. rewrite Ek in Ho. destruct (count_of owes_final ts) as [|] eqn:Ef; [|done].
  destruct k as [|k].
  - change p' with QFinal in *. cbn in E2.
    assert (count_of owes_final (<[i:=QFinal]> ts) = 1%nat) as -> by lia. done.
  - change p' with QEnd in *. cbn in E2.
    assert (count_of owes_final (<[i:=QEnd]> ts) = 0%nat) as -> by lia. done.
Qed.

Lemma ok_final ts i s out : ts !! i = Some QFinal -> deliveries_ok (mkDeliveries ts s out) ->
  deliveries_ok (mkDeliveries (<[i := QEnd]> ts) s (out ++ [final_of])).
Proof.
  intros Hi (Hc & Hb & Ho). unfold deliveries_ok, sent_ok in *. cbn in *.
  pose proof (count_insert unsettled ts i QFinal QEnd Hi) as E1.
  pose proof (count_insert owes_final ts i QFinal QEnd Hi) as E2. cbn in *.
  pose proof (count_pos owes_final ts i QFinal Hi eq_refl).
  destruct (count_of unsettled ts) as [|k], (count_of owes_final ts) as [|[]]; try done.
  assert (count_of unsettled (<[i:=QEnd]> ts) = 0%nat) as -> by lia.
  assert (count_of owes_final (<[i:=QEnd]> ts) = 0%nat) as -> by lia.
  split; [done|]. split; [done|]. by exists out.
Qed.

Arguments QueryDone : simpl never.

Lemma deliveries_ok_step d d' : dstep d d' -> deliveries_ok d -> deliveries_ok d'.
Proof.
  intros [ts i p p' s s' out msgs Hi Hp|ts s s' out Hc] Hok.
  - destruct p as [[|c calls] []| | | |]; cbn in Hp; try done.
    + injection Hp as <- <- <-. by eapply ok_reply; [..|constructor|].
    + injection Hp as <- <- <-. by eapply ok_reply; [..|constructor|].
    + injection Hp as <- <- <-. eapply ok_reply; [exact Hi|done..|apply replies_sends|done].
    + injection Hp as <- <- <-. eapply ok_reply; [exact Hi|done..|apply replies_sends|done].
    + injection Hp as <- <- <-. eapply ok_reply; [exact Hi|done|done|apply (replies_sends panic_reply)|done].
    + destruct (QueryDone (set_remaining q (Some r)) s) as [last s1] eqn:E.
      injection Hp as <- <- <-. rewrite app_nil_r. by eapply ok_settle.
    + injection Hp as <- <- <-. by apply ok_final.
  - unfold deliveries_ok in *. cbn in *. by rewrite Hc.
Qed.
End Deliveries.
Arguments count_of : simpl never.

(** The deliveries the dispatcher makes, before any has begun. *)
Definition begun (p : delivery_pc) : Prop :=
  match p with QHandling _ _ | QFinishing => True | _ => False end.

Lemma begun_counts ts : Forall begun ts ->
  count_of unsettled ts = length ts /\ count_of owes_final ts = 0%nat.
Proof.
  unfold count_of. induction 1 as [|p ts Hp _ [IH1 IH2]]; [done|].
  rewrite !filter_cons. destruct p; try done; repeat case_decide; try done; cbn; lia.
Qed.

(** C18: However the handlers of the queryables that share a query
    interleave, panic or find their queue full, once they are all done
    exactly one RESPONSE_FINAL was sent for it, after every reply of every
    one of them. *)
Theorem one_final_after_replies ke q n s s' ts d :
  dispatchQuery ke q s = (n, s') -> (0 < n)%nat -> Z.of_nat n < 2 ^ 31 ->
  length ts = n -> Forall begun ts ->
  rtc (dstep q (fresh (dom (s_counters s)))) (mkDeliveries ts s' []) d ->
  Forall (fun p => p = QEnd) (d_threads d) ->
  exists replies, d_sent d = replies ++ [NResponseFinal (mkResponseFinal (qr_RequestID q) [])] /\
    replies_only replies.
Proof.
  intros Hd Hn Hb Hl Ht Hr He.
  assert (Hok : deliveries_ok q (fresh (dom (s_counters s))) d).
  { clear He. revert d Hr. refine (rtc_ind_r (deliveries_ok q (fresh (dom (s_counters s)))) _ _ _).
    - destruct (begun_counts ts Ht) as [E1 E2]. unfold deliveries_ok, sent_ok. cbn.
      rewrite E1, E2, Hl. split; [|split; [done|by destruct n; [lia|constructor]]].
      unfold dispatchQuery in Hd. destruct (matching_ids _ ke) as [|i ids]; injection Hd as <- <-; [lia|].
      cbn. rewrite lookup_insert_eq. f_equal. by rewrite int32_small by lia.
    - intros d1 d2 _ Hs Hok. by eapply deliveries_ok_step. }
  destruct Hok as (_ & _ & Ho). unfold sent_ok in Ho.
  assert (Hz : forall f, f QEnd = false -> count_of f (d_threads d) = 0%nat).
  { intros f Hf. unfold count_of. clear Ho. induction He as [|p ts' -> _ IH]; [done|].
    rewrite filter_cons, decide_False by congruence. exact IH. }
  by rewrite !Hz in Ho.
Qed.

(** ** Two queryables *)

(** The goroutines taken in the order of [sched]. *)
Definition dnext (q : QueryReceived) (r : nat) (d : deliveries) (i : nat) : deliveries :=
  match d_threads d !! i with
  | None => d
  | Some p =>
      match runQueryHandler q r p (d_s d) with
      | None => d
      | Some (p', s, msgs) => mkDeliveries (<[i := p']> (d_threads d)) s (d_sent d ++ msgs)
      end
  end.
Arguments runQueryHandler : simpl never.

Lemma dnext_run q r d sched : rtc (dstep q r) d (fold_left (dnext q r) sched d).
Proof.
  revert d. induction sched as [|i sched IH]; intros d; [apply rtc_refl|]. cbn.
  transitivity (dnext q r d i); [|apply IH]. destruct d as [ts s out]. unfold dnext. cbn.
  destruct (ts !! i) as [p|] eqn:Hi; [|apply rtc_refl].
  destruct (runQueryHandler q r p s) as [[[p' s'] msgs]|] eqn:E; [|apply rtc_refl].
  apply rtc_once. by econstructor.
Qed.

Definition two_queryables : Session :=
  RegisterQueryable 8 (mkKeyExpr (str "demo/a")) true sample_session.
Definition two_deliveries : list delivery_pc :=
  [QHandling [CReply (mkKeyExpr (str "demo/a")) [1] None] false; QHandling [] true].

Lemma one_final_after_replies_witness :
  let '(n, s') := dispatchQuery (mkKeyExpr (str "demo/a")) sample_query two_queryables in
  let d := fold_left (dnext sample_query (fresh (dom (s_counters two_queryables))))
             [1; 1; 0; 0; 0; 1; 1; 0; 1]%nat (mkDeliveries two_deliveries s' []) in
  length (d_sent d) = 3%nat /\
  exists replies, d_sent d = replies ++ [NResponseFinal (mkResponseFinal 5 [])] /\
    replies_only replies.
Proof.
  destruct (dispatchQuery (mkKeyExpr (str "demo/a")) sample_query two_queryables) as [n s'] eqn:E.
  assert (n = 2%nat) as -> by (change n with (n, s').1; rewrite <- E; vm_compute; reflexivity).
  assert (Es : s' = (dispatchQuery (mkKeyExpr (str "demo/a")) sample_query two_queryables).2)
    by (by rewrite E).
  cbv zeta. split; [rewrite Es; vm_compute; reflexivity|].
  apply (one_final_after_replies (mkKeyExpr (str "demo/a")) sample_query 2 two_queryables s' two_deliveries
    _ E ltac:(lia) ltac:(lia) eq_refl).
  - by repeat constructor.
  - apply dnext_run.
  - assert (Ed : d_threads (fold_left (dnext sample_query (fresh (dom (s_counters two_queryables))))
      [1; 1; 0; 0; 0; 1; 1; 0; 1]%nat (mkDeliveries two_deliveries s' [])) = [QEnd; QEnd])
      by (rewrite Es; vm_compute; reflexivity).
    rewrite Ed. by repeat constructor.
Defined.
