(* ===== verification/QueryableRun.v ===== *)
(** * src/zenoh/queryable.go: the goroutine of a queryable

    Between the deliveries of the session, the dispatcher goroutine that runs
    the user's handler, and Drop: the queue of 32 queries, what is refused
    when it is full, and the end of the goroutine.  What a handler sends and
    how the deliveries of one request settle it is the subject of [Queries]; a
    query is its number here.  A call of Drop that finds [dropped] set returns
    at once and changes nothing; the call that sets it is followed. *)
From S2P Require Import Prelude Collector.

(** [VHandle]: the handler runs. *)
Inductive worker_pc := VRecv | VHandle (q : nat) | VGone.
Inductive drop_pc := PIdle | PUnregister | PUndeclare | PClose | PWait | PDone.

#[export] Instance drop_pc_eq_dec : EqDecision drop_pc.
Proof. solve_decision. Defined.

(** [w_self]: the handler itself has called Drop; [w_accepted], [w_refused],
    [w_settled]: the queries queued, refused for want of room and settled at
    once, and settled after their handler. *)
Record worker := mkWorker {
  w_registered : bool; w_queue : list nat; w_closed : bool; w_pc : worker_pc; w_drop : drop_pc; w_self : bool;
  w_accepted : list nat; w_refused : list nat; w_settled : list nat }.

Definition inQ_cap : nat := 32.

Inductive worker_action := VWorker | VDropper | VDeliver (q : nat) | VDrop (self : bool).

(** The body of the loop; the handler goes on when a Drop of its own has
    returned. *)
Definition worker_step (w : worker) : option worker :=
  let '(mkWorker rg qu cl pc dr sf ac re se) := w in
  match pc with
  | VRecv =>
      match qu with
      | q :: qu => Some (mkWorker rg qu cl (VHandle q) dr sf ac re se)
      | [] => if cl then Some (mkWorker rg qu cl VGone dr sf ac re se) else None
      end
  | VHandle q =>
      if sf && negb (bool_decide (dr = PDone)) then None
      else Some (mkWorker rg qu cl VRecv dr false ac re (se ++ [q]))
  | VGone => None
  end.

Definition Queryable_Drop_step (w : worker) : option (result worker) :=
  let '(mkWorker rg qu cl pc dr sf ac re se) := w in
  match dr with
  | PIdle | PDone => None
  | PUnregister => Some (Ok (mkWorker false qu cl pc PUndeclare sf ac re se))
  | PUndeclare => Some (Ok (mkWorker rg qu cl pc PClose sf ac re se))
  | PClose => Some (if cl then Err ErrPanic else Ok (mkWorker rg qu true pc PWait sf ac re se))
  | PWait => match pc with VGone => Some (Ok (mkWorker rg qu cl pc PDone sf ac re se)) | _ => None end
  end.

(** [deliverFn], under the lock of the registry: a send on a closed channel
    panics. *)
Definition deliver_query (q : nat) (w : worker) : result worker :=
  let '(mkWorker rg qu cl pc dr sf ac re se) := w in
  if cl then Err ErrPanic
  else if (length qu <? inQ_cap)%nat then Ok (mkWorker rg (qu ++ [q]) cl pc dr sf (ac ++ [q]) re se)
  else Ok (mkWorker rg qu cl pc dr sf ac (re ++ [q]) se).

Definition worker_act (a : worker_action) (w : worker) : option (result worker) :=
  match a with
  | VWorker => Ok <$> worker_step w
  | VDropper => Queryable_Drop_step w
  | VDeliver q => if w_registered w then Some (deliver_query q w) else None
  | VDrop self =>
      let '(mkWorker rg qu cl pc dr sf ac re se) := w in
      match dr, self, pc with
      | PIdle, false, _ | PIdle, true, VHandle _ => Some (Ok (mkWorker rg qu cl pc PUnregister self ac re se))
      | _, _, _ => None
      end
  end.

Fixpoint run_worker (acts : list worker_action) (w : worker) : option worker :=
  match acts with
  | [] => Some w
  | a :: acts => match worker_act a w with Some (Ok w) => run_worker acts w | _ => None end
  end.

(** [DeclareQueryable] has returned. *)
Definition start_worker : worker := mkWorker true [] false VRecv PIdle false [] [] [].

Definition running (p : worker_pc) : list nat := match p with VHandle q => [q] | _ => [] end.

Record worker_ok (w : worker) : Prop := {
  wo_queries : w_settled w ++ running (w_pc w) ++ w_queue w = w_accepted w;
  wo_registered : w_registered w = true -> w_drop w = PIdle \/ w_drop w = PUnregister;
  wo_closed : w_closed w = true <-> w_drop w = PWait \/ w_drop w = PDone;
  wo_gone : w_pc w = VGone -> w_closed w = true /\ w_queue w = [];
  wo_done : w_drop w = PDone -> w_pc w = VGone;
  wo_self : w_self w = true -> (exists q, w_pc w = VHandle q) /\ w_drop w <> PIdle }.

Lemma worker_ok_start : worker_ok start_worker.
Proof. constructor; cbn; try done; [by left|split; [done|by intros []]]. Qed.

Lemma worker_act_ok a w x : worker_ok w -> worker_act a w = Some x -> exists w', x = Ok w' /\ worker_ok w'.
Proof.
  intros [H1 H2 H3 H4 H5 H6] Ha. destruct w as [rg qu cl pc dr sf ac re se]. cbn in H1, H2, H3, H4, H5, H6.
  assert (Hdone : dr = PDone -> pc <> VGone -> False) by naive_solver.
  destruct a as [| |q|self]; cbn in Ha.
  - destruct pc as [|q|]; [destruct qu as [|q qu]; [destruct cl; [|done]|]| |done]; cbn in Ha.
    + injection Ha as <-. eexists. split; [done|]. constructor; cbn; naive_solver.
    + injection Ha as <-. eexists. split; [done|]. constructor; cbn; try done; naive_solver.
    + case_match; [done|]. injection Ha as <-. eexists. split; [done|].
      constructor; cbn in *; try done; [by rewrite <- H1, <- app_assoc|naive_solver].
  - destruct dr; cbn in Ha; [done|..|done].
    + injection Ha as <-. eexists. split; [done|]. constructor; cbn; naive_solver.
    + injection Ha as <-. eexists. split; [done|]. constructor; cbn; naive_solver.
    + destruct cl; [naive_solver|]. injection Ha as <-. eexists. split; [done|]. constructor; cbn; naive_solver.
    + destruct pc; try done. injection Ha as <-. eexists. split; [done|]. constructor; cbn; naive_solver.
  - destruct rg; [|done]. destruct cl; [naive_solver|]. destruct (_ <=? _)%nat; injection Ha as <-;
      (eexists; split; [done|]; constructor; cbn; try done).
    + by rewrite <- H1, !app_assoc.
    + naive_solver.
  - destruct dr, self, pc; try done; injection Ha as <-; (eexists; split; [done|]; constructor; cbn; naive_solver).
Qed.

(** ** The end *)

Definition is_wown (a : worker_action) : bool := match a with VWorker | VDropper => true | _ => false end.
Definition wown_steps (acts : list worker_action) : nat := length (filter (fun a => is_wown a = true) acts).
Definition worker_events (acts : list worker_action) : nat := length (filter (fun a => is_wown a = false) acts).

Definition worker_rank (w : worker) : nat :=
  match w_pc w with VRecv => 1 | VHandle _ => 2 | VGone => 0 end + 2 * length (w_queue w) +
  match w_drop w with PIdle => 0 | PUnregister => 4 | PUndeclare => 3 | PClose => 2 | PWait => 1 | PDone => 0 end.

Lemma worker_act_rank a w w' : worker_act a w = Some (Ok w') ->
  ((if is_wown a then 1 else 0) + worker_rank w' <= worker_rank w + if is_wown a then 0 else 4)%nat.
Proof.
  destruct w as [rg qu cl pc dr sf ac re se]. unfold worker_rank. intros Ha.
  destruct a as [| |q|self]; cbn in Ha |- *.
  - destruct pc as [|q|]; [destruct qu as [|q qu]; [destruct cl; [|done]|]|case_match; [done|]|done];
      injection Ha as <-; cbn; lia.
  - destruct dr; cbn in Ha; [done|..|done]; [..|destruct cl; [done|]|destruct pc; try done]; injection Ha as <-; cbn; lia.
  - destruct rg; [|done]. destruct cl; [done|]. destruct (_ <=? _)%nat; injection Ha as <-; cbn; rewrite ?length_app; cbn; lia.
  - destruct dr, self, pc; try done; injection Ha as <-; cbn; lia.
Qed.

Lemma run_worker_inv acts : forall w w', worker_ok w -> run_worker acts w = Some w' ->
  worker_ok w' /\ (wown_steps acts + worker_rank w' <= worker_rank w + 4 * worker_events acts)%nat.
Proof.
  induction acts as [|a acts IH]; intros w w' Hw; cbn [run_worker]; [intros [= <-]; split; [done|cbn; lia]|].
  destruct (worker_act a w) as [x|] eqn:E; [|done]. destruct (worker_act_ok a w x Hw E) as (w1 & -> & H1).
  intros H. destruct (IH w1 w' H1 H) as [H2 H3]. split; [done|]. apply worker_act_rank in E.
  unfold wown_steps, worker_events in *. rewrite !filter_cons.
  destruct (is_wown a); repeat ((rewrite decide_True by done) || (rewrite decide_False by done)); cbn [length]; lia.
Qed.

(** No goroutine can step: the worker waits for a query of an open queue, or
    it has ended and so has Drop, or Drop was called by the handler it waits
    for. *)
Lemma worker_stuck w : worker_ok w -> (forall a, is_wown a = true -> worker_act a w = None) ->
  (w_drop w = PIdle /\ w_pc w = VRecv /\ w_queue w = []) \/
  (w_drop w = PDone /\ w_pc w = VGone /\ w_queue w = []) \/
  (w_self w = true /\ w_drop w = PWait).
Proof.
  intros [_ _ H3 H4 H5 H6] Hs. destruct w as [rg qu cl pc dr sf ac re se]. cbn in H3, H4, H5, H6.
  pose proof (Hs VWorker eq_refl) as H1. pose proof (Hs VDropper eq_refl) as H2. cbn in H1, H2 |- *.
  destruct dr; try done.
  - destruct pc as [|q|]; [destruct qu; [|done]; destruct cl; [done|by left]| |].
    + destruct sf; [|done]. by destruct (H6 eq_refl).
    + by destruct (proj1 H3 (proj1 (H4 eq_refl))).
  - assert (cl = true) as -> by (apply H3; by left). destruct pc as [|q|]; [destruct qu; done| |done]. destruct sf; [by right; right|done].
  - destruct (H4 (H5 eq_refl)) as [_ ->]. right. left. auto.
Qed.

(** A handler that drops its own queryable waits for itself, for ever. *)
Lemma self_drop_deadlocks : exists acts w, run_worker acts start_worker = Some w /\
  w_pc w = VHandle 7 /\ w_drop w = PWait /\
  forall a w', worker_act a w = Some (Ok w') -> w' = w.
Proof.
  exists [VDeliver 7; VWorker; VDrop true; VDropper; VDropper; VDropper]. eexists. split; [by vm_compute|].
  split; [done|]. split; [done|]. by intros [| |q|[]] w'.
Qed.

(** Whatever deliveries and calls of Drop reach a queryable, no goroutine
    panics, and every query is settled in turn, refused ones apart, or still
    with it; its steps are bounded by the events; and unless the handler has
    called Drop itself, a Drop that was called and can go no further has
    returned, the goroutine has ended and every query was settled. *)
Lemma queryable_drop_returns acts w : run_worker acts start_worker = Some w ->
  (forall a x, worker_act a w = Some x -> is_ok x = true) /\
  w_settled w ++ running (w_pc w) ++ w_queue w = w_accepted w /\
  (wown_steps acts <= 1 + 4 * worker_events acts)%nat /\
  ((forall a, is_wown a = true -> worker_act a w = None) -> w_drop w <> PIdle -> w_self w = false ->
   w_drop w = PDone /\ w_pc w = VGone /\ w_settled w = w_accepted w).
Proof.
  intros Hr. destruct (run_worker_inv _ _ _ worker_ok_start Hr) as [Hw Hb]. change (worker_rank start_worker) with 1%nat in Hb.
  pose proof (wo_queries _ Hw) as Hq. split_and!; [|done|lia|].
  - intros a x Ha. by destruct (worker_act_ok a w x Hw Ha) as (w' & -> & _).
  - intros Hs Hd Hf. destruct (worker_stuck w Hw Hs) as [(E & _)|[(E1 & E2 & E3)|(E & _)]]; [done| |by rewrite Hf in E].
    rewrite E2, E3 in Hq. cbn in Hq. rewrite app_nil_r in Hq. done.
Qed.
