(* ===== verification/Locator.v ===== *)
(** * internal/locator and the dialer: locator strings

    [Parse] and [String] of locator.go, with what they use of Go's [strings],
    [net] and [strconv]; the endpoint lists of session/dialer.go and
    zenoh/session_peer.go. The dialers are registered elsewhere and are a
    parameter. *)
From S2P Require Import Prelude.

(** ** The standard library *)

(** [strings.Cut] with a separator of one byte. *)
Fixpoint Cut (sep : Z) (s : bytes) : bytes * bytes * bool :=
  match s with
  | [] => ([], [], false)
  | b :: s =>
      if b =? sep then ([], s, true)
      else let '(before, after, found) := Cut sep s in (b :: before, after, found)
  end.

(** [strings.SplitSeq] with a separator of one byte. *)
Fixpoint Split (sep : Z) (s : bytes) : list bytes :=
  match s with
  | [] => [[]]
  | b :: s =>
      if b =? sep then [] :: Split sep s
      else match Split sep s with
           | [] => [[b]]
           | p :: ps => (b :: p) :: ps
           end
  end.

(** The index of the first, and of the last, occurrence of a byte. *)
Fixpoint IndexByte (c : Z) (s : bytes) : option nat :=
  match s with
  | [] => None
  | b :: s => if b =? c then Some 0%nat else S <$> IndexByte c s
  end.
Fixpoint LastIndexByte (c : Z) (s : bytes) : option nat :=
  match s with
  | [] => None
  | b :: s =>
      match LastIndexByte c s with
      | Some i => Some (S i)
      | None => if b =? c then Some 0%nat else None
      end
  end.
Definition contains_byte (c : Z) (s : bytes) : bool := existsb (Z.eqb c) s.

Definition colon : Z := 58.
Definition open_bracket : Z := 91.
Definition close_bracket : Z := 93.

(** [net.SplitHostPort] *)
Definition SplitHostPort (hostport : bytes) : result (bytes * bytes) :=
  match LastIndexByte colon hostport with
  | None => Err (ErrMsg "missing port in address")
  | Some i =>
      let rest j k host :=
        if contains_byte open_bracket (drop j hostport)
        then Err (ErrMsg "unexpected '[' in address")
        else if contains_byte close_bracket (drop k hostport)
        then Err (ErrMsg "unexpected ']' in address")
        else Ok (host, drop (S i) hostport) in
      if bool_decide (head hostport = Some open_bracket) then
        match IndexByte close_bracket hostport with
        | None => Err (ErrMsg "missing ']' in address")
        | Some e =>
            if (S e =? length hostport)%nat then Err (ErrMsg "missing port in address")
            else if (S e =? i)%nat then rest 1%nat (S e) (take (e - 1) (drop 1 hostport))
            else if bool_decide (hostport !! S e = Some colon)
            then Err (ErrMsg "too many colons in address")
            else Err (ErrMsg "missing port in address")
        end
      else
        let host := take i hostport in
        if contains_byte colon host then Err (ErrMsg "too many colons in address")
        else rest 0%nat 0%nat host
  end.

Definition is_digit (b : Z) : bool := (48 <=? b) && (b <=? 57).

(** [strconv.ParseUint(s, 10, 16)] *)
Fixpoint ParseUint_loop (s : bytes) (n : Z) : result Z :=
  match s with
  | [] => Ok n
  | b :: s =>
      if is_digit b
      then let n := n * 10 + (b - 48) in
           if n >? 65535 then Err (ErrMsg "value out of range") else ParseUint_loop s n
      else Err (ErrMsg "invalid syntax")
  end.
Definition ParseUint16 (s : bytes) : result Z :=
  match s with [] => Err (ErrMsg "invalid syntax") | _ => ParseUint_loop s 0 end.

(** ** locator.go *)

Inductive Scheme :=
  | SchemeTCP | SchemeUDP | SchemeTLS | SchemeQUIC | SchemeWS | SchemeWSS | SchemeUnix
  | SchemeSerial.

#[export] Instance Scheme_eq_dec : EqDecision Scheme.
Proof. solve_decision. Defined.

Definition Scheme_String (s : Scheme) : bytes :=
  str match s with
      | SchemeTCP => "tcp" | SchemeUDP => "udp" | SchemeTLS => "tls" | SchemeQUIC => "quic"
      | SchemeWS => "ws" | SchemeWSS => "wss" | SchemeUnix => "unixsock-stream"
      | SchemeSerial => "serial"
      end.

Definition all_schemes : list Scheme :=
  [SchemeTCP; SchemeUDP; SchemeTLS; SchemeQUIC; SchemeWS; SchemeWSS; SchemeUnix; SchemeSerial].

(** [knownSchemes] *)
Definition knownScheme (s : bytes) : option Scheme :=
  find (fun sch => bool_decide (Scheme_String sch = s)) all_schemes.

(** A nil map reads as the empty one. *)
Record Locator := mkLocator {
  loc_Scheme : Scheme; loc_Address : bytes; loc_Metadata : gmap (list Z) (list Z) }.

Definition validateHostPort (addr : bytes) : result unit :=
  match SplitHostPort addr with
  | Err e => Err (ErrWrap "invalid host:port" e)
  | Ok (host, portStr) =>
      if bool_decide (host = []) then Err (ErrMsg "empty host")
      else match ParseUint16 portStr with
           | Err e => Err (ErrWrap "invalid port" e)
           | Ok port => if port =? 0 then Err (ErrMsg "port must be non-zero") else Ok tt
           end
  end.

Definition kv_add (out : gmap (list Z) (list Z)) (pair : bytes) : gmap (list Z) (list Z) :=
  if bool_decide (pair = []) then out
  else let '(k, v, ok) := Cut 61 pair in
       if ok then <[k := v]> out else <[pair := []]> out.
Definition parseKV (s : bytes) : gmap (list Z) (list Z) :=
  if bool_decide (s = []) then ∅ else fold_left kv_add (Split 59 s) ∅.

Definition network_scheme (s : Scheme) : bool :=
  match s with SchemeUnix | SchemeSerial => false | _ => true end.

Definition Locator_Parse (s : bytes) : result Locator :=
  let '(rest, metaStr, _) := Cut 63 s in
  let '(scheme, address, ok) := Cut 47 rest in
  if negb ok then Err (ErrMsg "locator: missing '/' separator")
  else match knownScheme scheme with
       | None => Err (ErrMsg "locator: unknown scheme")
       | Some sch =>
           if bool_decide (address = []) then Err (ErrMsg "locator: empty address")
           else match (if network_scheme sch then validateHostPort address else Ok tt) with
                | Err e => Err (ErrWrap "locator" e)
                | Ok _ => Ok (mkLocator sch address (parseKV metaStr))
                end
       end.

Definition Locator_String (l : Locator) : bytes :=
  Scheme_String (loc_Scheme l) ++ [47] ++ loc_Address l.

(** ** Endpoint lists *)

(** [splitMulticastEndpoints]: the UDP endpoints and the others. *)
Fixpoint splitMulticastEndpoints (eps : list bytes) : result (list bytes * list bytes) :=
  match eps with
  | [] => Ok ([], [])
  | ep :: eps =>
      match Locator_Parse ep with
      | Err e => Err (ErrWrap "invalid endpoint" e)
      | Ok loc =>
          '(udp, other) ← splitMulticastEndpoints eps;
          if bool_decide (loc_Scheme loc = SchemeUDP) then mret (ep :: udp, other)
          else mret (udp, ep :: other)
      end
  end.

Fixpoint validateEndpointsParse (eps : list bytes) : result unit :=
  match eps with
  | [] => Ok tt
  | ep :: eps =>
      match Locator_Parse ep with
      | Err e => Err (ErrWrap "invalid endpoint" e)
      | Ok _ => validateEndpointsParse eps
      end
  end.

Section Dial.
(** The dialer of a scheme, if one is registered, and what it answers. *)
Context {Link : Type} (DialerFor : Scheme -> option (Locator -> result Link)).

Definition DialOne (endpoint : bytes) : result Link :=
  match Locator_Parse endpoint with
  | Err e => Err (ErrWrap "parse" e)
  | Ok loc =>
      match DialerFor (loc_Scheme loc) with
      | None => Err (ErrMsg "no dialer for scheme")
      | Some dial => match dial loc with Ok l => Ok l | Err e => Err (ErrWrap "dial" e) end
      end
  end.

(** [ctxErr n] is [ctx.Err()] before the [n]-th endpoint. The errors of the
    attempts are joined. *)
Fixpoint DialFirst_loop (ctxErr : nat -> option error) (n : nat) (eps : list bytes)
    (attempts : list error) : Link + list error :=
  match eps with
  | [] => inr attempts
  | ep :: eps =>
      match ctxErr n with
      | Some e => inr (attempts ++ [ErrWrap "endpoint" e])
      | None =>
          match Locator_Parse ep with
          | Err e => DialFirst_loop ctxErr (S n) eps (attempts ++ [ErrWrap "parse" e])
          | Ok loc =>
              match DialerFor (loc_Scheme loc) with
              | None => DialFirst_loop ctxErr (S n) eps
                          (attempts ++ [ErrMsg "no dialer for scheme"])
              | Some dial =>
                  match dial loc with
                  | Ok l => inl l
                  | Err e => DialFirst_loop ctxErr (S n) eps (attempts ++ [ErrWrap "endpoint" e])
                  end
              end
          end
      end
  end.

Definition DialFirst (ctxErr : nat -> option error) (eps : list bytes) : Link + list error :=
  if bool_decide (eps = []) then inr [ErrMsg "dialer: no endpoints"]
  else DialFirst_loop ctxErr 0 eps [].
End Dial.

(** ** Searching bytes *)

Lemma contains_byte_elem c s : contains_byte c s = true <-> c ∈ s.
Proof.
  unfold contains_byte. rewrite existsb_exists. split.
  - intros (x & Hx & ->%Z.eqb_eq). by apply list_elem_of_In.
  - intros Hc. exists c. split; [by apply list_elem_of_In|]. apply Z.eqb_refl.
Qed.
Lemma contains_byte_false c s : contains_byte c s = false <-> c ∉ s.
Proof. rewrite <- contains_byte_elem. by destruct (contains_byte c s). Qed.

Lemma Cut_found sep s before after : Cut sep s = (before, after, true) <->
  s = before ++ sep :: after /\ sep ∉ before.
Proof.
  revert before. induction s as [|b s IH]; intros before; cbn.
  { split; [done|]. intros [H _]. by destruct before. }
  destruct (Z.eqb_spec b sep) as [->|Hne].
  - split; [intros [= <- <-]; set_solver|]. intros [H Hn]. destruct before as [|b before].
    + by injection H as ->.
    + injection H as <- _. set_solver.
  - destruct (Cut sep s) as [[x y] []]; split.
    + intros [= <- <-]. destruct (proj1 (IH x)) as [-> Hx]; [done|]. set_solver.
    + intros [H Hn]. destruct before as [|b' before]; [by injection H|]. injection H as <- ->.
      assert (E : (x, y, true) = (before, after, true)) by (apply IH; set_solver). congruence.
    + done.
    + intros [H Hn]. destruct before as [|b' before]; [by injection H|]. injection H as <- ->.
      assert (E : (x, y, false) = (before, after, true)) by (apply IH; set_solver). congruence.
Qed.

Lemma Cut_missing sep s : sep ∉ s -> Cut sep s = (s, [], false).
Proof.
  induction s as [|b s IH]; [done|]. intros Hn. cbn.
  destruct (Z.eqb_spec b sep) as [->|]; [set_solver|]. rewrite IH by set_solver. done.
Qed.

Lemma Cut_absent sep s before after : Cut sep s = (before, after, false) ->
  before = s /\ after = [] /\ sep ∉ s.
Proof.
  revert before. induction s as [|b s IH]; intros before; cbn; [intros [= <- <-]; set_solver|].
  destruct (Z.eqb_spec b sep) as [->|]; [done|].
  destruct (Cut sep s) as [[x y] []] eqn:E; [done|]. intros [= <- <-].
  destruct (IH x) as (-> & -> & Hn); [done|]. set_solver.
Qed.

Lemma LastIndexByte_spec c s i : LastIndexByte c s = Some i <->
  exists l r, s = l ++ c :: r /\ length l = i /\ c ∉ r.
Proof.
  revert i. induction s as [|b s IH]; intros i; cbn.
  { split; [done|]. intros (l & r & E & _). by destruct l. }
  destruct (LastIndexByte c s) as [j|] eqn:E.
  - destruct (proj1 (IH j) eq_refl) as (l & r & -> & Hl & Hr). split.
    + intros [= <-]. exists (b :: l), r. cbn. by rewrite Hl.
    + intros (l' & r' & E' & <- & Hr'). destruct l' as [|x l'].
      * injection E' as -> <-. set_solver.
      * injection E' as -> E'. cbn. f_equal. assert (Some j = Some (length l')); [|congruence].
        apply IH. by exists l', r'.
  - assert (Hn : c ∉ s).
    { intros Hc. apply list_elem_of_split in Hc as (l & r & ->).
      destruct (decide (c ∈ r)) as [Hr|Hr].
      - apply list_elem_of_split_r in Hr as (l' & r' & -> & Hr').
        assert (None = Some (length (l ++ c :: l'))); [|done]. apply IH.
        exists (l ++ c :: l'), r'. by rewrite <- app_assoc.
      - assert (None = Some (length l)); [|done]. apply IH. by exists l, r. }
    destruct (Z.eqb_spec b c) as [->|Hne]; split.
    + intros [= <-]. by exists [], s.
    + intros (l & r & E' & <- & Hr). destruct l as [|x l]; [done|]. injection E' as -> ->. set_solver.
    + done.
    + intros (l & r & E' & <- & Hr). destruct l as [|x l]; [by injection E'|].
      injection E' as -> ->. set_solver.
Qed.

Lemma IndexByte_spec c s i : IndexByte c s = Some i <->
  exists l r, s = l ++ c :: r /\ length l = i /\ c ∉ l.
Proof.
  revert i. induction s as [|b s IH]; intros i; cbn.
  { split; [done|]. intros (l & r & E & _). by destruct l. }
  destruct (Z.eqb_spec b c) as [->|Hne]; split.
  - intros [= <-]. exists [], s. set_solver.
  - intros (l & r & E & <- & Hl). destruct l as [|x l]; [done|]. injection E as -> _. set_solver.
  - intros (j & Hj & ->)%fmap_Some. apply IH in Hj as (l & r & -> & <- & Hl).
    exists (b :: l), r. set_solver.
  - intros (l & r & E & <- & Hl). destruct l as [|x l]; [by injection E|]. injection E as -> ->.
    cbn. apply fmap_Some. exists (length l). split; [|done]. apply IH. exists l, r. set_solver.
Qed.

(** ** Host and port *)

Definition dec_from (s : bytes) (n : Z) : Z := fold_left (fun n b => n * 10 + (b - 48)) s n.

Lemma dec_from_mono s n : Forall (fun b => is_digit b = true) s -> 0 <= n -> n <= dec_from s n.
Proof.
  intros Hs. revert n. induction Hs as [|b s Hb _ IH]; intros n Hn; cbn; [lia|].
  unfold is_digit in Hb. specialize (IH (n * 10 + (b - 48)) ltac:(lia)). unfold dec_from in IH. lia.
Qed.

Lemma ParseUint_loop_spec s n m : 0 <= n <= 65535 ->
  ParseUint_loop s n = Ok m <->
  Forall (fun b => is_digit b = true) s /\ dec_from s n = m /\ m <= 65535.
Proof.
  revert n. induction s as [|b s IH]; intros n Hn; cbn [ParseUint_loop dec_from fold_left].
  { split; [intros [= <-]; repeat split; [constructor|lia]|]. by intros (_ & <- & _). }
  destruct (is_digit b) eqn:Eb.
  - assert (Hd : 0 <= n * 10 + (b - 48)) by (unfold is_digit in Eb; lia).
    destruct (Z.gtb_spec (n * 10 + (b - 48)) 65535) as [Hbig|Hle].
    + split; [done|]. intros (Hs & Hm & Hle). apply Forall_cons in Hs as [_ Hs].
      pose proof (dec_from_mono s _ Hs Hd) as Hmono. unfold dec_from in Hmono. lia.
    + rewrite IH by lia. rewrite Forall_cons. unfold dec_from. tauto.
  - split; [done|]. intros (Hs & _). apply Forall_cons in Hs as [Hb _]. congruence.
Qed.

(** A decimal port from 1 to 65535; leading zeros are allowed. *)
Definition port_text (p : bytes) : Prop :=
  p <> [] /\ Forall (fun b => is_digit b = true) p /\ 1 <= dec_from p 0 <= 65535.

Definition plain_byte (b : Z) : Prop := b <> colon /\ b <> open_bracket /\ b <> close_bracket.

(** "host:port", or "[host]:port" for a host with colons. *)
Inductive host_port : bytes -> Prop :=
  | hp_plain host port :
      host <> [] -> Forall plain_byte host -> port_text port ->
      host_port (host ++ colon :: port)
  | hp_bracketed host port :
      host <> [] -> open_bracket ∉ host -> close_bracket ∉ host -> port_text port ->
      host_port (open_bracket :: host ++ close_bracket :: colon :: port).

Lemma digits_plain p : Forall (fun b => is_digit b = true) p -> Forall plain_byte p.
Proof.
  intros H. eapply Forall_impl; [exact H|]. intros b Hb. unfold is_digit in Hb.
  unfold plain_byte, colon, open_bracket, close_bracket. lia.
Qed.

Lemma plain_notin p c : Forall plain_byte p -> c = colon \/ c = open_bracket \/ c = close_bracket ->
  c ∉ p.
Proof. intros Hp Hc Hin. eapply Forall_forall in Hp; [|exact Hin]. unfold plain_byte in Hp. naive_solver. Qed.

Lemma plain_bytes s : colon ∉ s -> open_bracket ∉ s -> close_bracket ∉ s -> Forall plain_byte s.
Proof. intros H1 H2 H3. apply Forall_forall. intros b Hb. unfold plain_byte. by split_and!; intros ->. Qed.

Lemma split_at_colon (l r : bytes) : drop (S (length l)) (l ++ colon :: r) = r.
Proof.
  replace (S (length l)) with (length l + 1)%nat by lia. by rewrite <- drop_drop, drop_app_length.
Qed.

Lemma SplitHostPort_sound hp host port : SplitHostPort hp = Ok (host, port) ->
  (hp = host ++ colon :: port /\ Forall plain_byte host /\ Forall plain_byte port) \/
  (hp = (open_bracket :: host ++ close_bracket :: colon :: port) /\
   (open_bracket ∉ host) /\ (close_bracket ∉ host) /\ Forall plain_byte port).
Proof.
  unfold SplitHostPort. destruct (LastIndexByte colon hp) as [i|] eqn:Ei; [|done].
  apply LastIndexByte_spec in Ei as (l & r & -> & <- & Hr). cbv zeta.
  rewrite split_at_colon. case_bool_decide as Eh.
  - destruct (IndexByte close_bracket (l ++ colon :: r)) as [e|] eqn:Ee; [|done].
    apply IndexByte_spec in Ee as (l' & r' & E & <- & Hl').
    destruct (_ =? _)%nat; [done|]. destruct (Nat.eqb_spec (S (length l')) (length l)) as [Hi|];
      [|by case_bool_decide].
    rewrite (cons_middle close_bracket), app_assoc in E.
    apply app_inj_1 in E as [-> E]; [|rewrite length_app; cbn; lia]. subst r'.
    destruct l' as [|b l']; [done|]. cbn in Eh. injection Eh as ->.
    rewrite <- !app_assoc. cbn [app drop length].
    replace (S (length l') - 1)%nat with (length l') by lia. rewrite drop_0, take_app_length.
    replace (S (length l')) with (length l' + 1)%nat by lia. rewrite <- drop_drop, drop_app_length.
    cbn [drop].
    destruct (contains_byte open_bracket _) eqn:E1; [done|].
    destruct (contains_byte close_bracket _) eqn:E2; [done|]. intros [= <- <-].
    apply contains_byte_false in E1, E2. right. split; [done|].
    split; [set_solver|]. split; [set_solver|]. apply plain_bytes; set_solver.
  - rewrite take_app_length. destruct (contains_byte colon l) eqn:E0; [done|].
    cbn [drop]. destruct (contains_byte open_bracket _) eqn:E1; [done|].
    destruct (contains_byte close_bracket _) eqn:E2; [done|]. intros [= <- <-].
    apply contains_byte_false in E0, E1, E2. left. split; [done|].
    split; apply plain_bytes; set_solver.
Qed.

Lemma SplitHostPort_plain host port : Forall plain_byte host -> Forall plain_byte port ->
  SplitHostPort (host ++ colon :: port) = Ok (host, port).
Proof.
  intros Hh Hp. unfold SplitHostPort.
  rewrite (proj2 (LastIndexByte_spec _ _ (length host)))
    by (exists host, port; split_and!; [done..|apply plain_notin; auto]).
  cbv zeta. rewrite split_at_colon, take_app_length.
  assert (Hn : forall c, c = open_bracket \/ c = close_bracket -> c ∉ host ++ colon :: port).
  { intros c Hc H. apply elem_of_app in H as [H|H]; [|apply elem_of_cons in H as [H|H]].
    - revert H. apply plain_notin; naive_solver.
    - subst. destruct Hc; done.
    - revert H. apply plain_notin; naive_solver. }
  rewrite bool_decide_eq_false_2.
  2:{ intros Hh'. apply (Hn open_bracket); [by left|].
      destruct host; cbn in Hh'; injection Hh' as Hh'; [done|]. rewrite Hh'. by left. }
  cbn [drop]. rewrite (proj2 (contains_byte_false colon host)) by auto using plain_notin.
  by rewrite !(proj2 (contains_byte_false _ _)) by (apply Hn; auto).
Qed.

Lemma SplitHostPort_bracketed host port : open_bracket ∉ host -> close_bracket ∉ host ->
  Forall plain_byte port ->
  SplitHostPort (open_bracket :: host ++ close_bracket :: colon :: port) = Ok (host, port).
Proof.
  intros Ho Hc Hp. set (l := open_bracket :: host ++ [close_bracket]).
  assert (El : open_bracket :: host ++ close_bracket :: colon :: port = l ++ colon :: port)
    by (unfold l; cbn; by rewrite <- app_assoc).
  assert (Hll : length l = S (S (length host))) by (unfold l; cbn; rewrite length_app; cbn; lia).
  unfold SplitHostPort. rewrite El.
  rewrite (proj2 (LastIndexByte_spec _ _ (length l)))
    by (exists l, port; split_and!; [done..|apply plain_notin; auto]).
  rewrite bool_decide_eq_true_2 by done.
  rewrite (proj2 (IndexByte_spec _ _ (S (length host))))
    by (exists (open_bracket :: host), (colon :: port); rewrite <- El; set_solver).
  cbv zeta. rewrite split_at_colon, length_app, Hll. cbn [length].
  replace (S (S (length host)) =? _)%nat with false by (symmetry; apply Nat.eqb_neq; lia).
  rewrite Nat.eqb_refl, <- El. cbn [Nat.sub drop]. rewrite drop_0, Nat.sub_0_r, take_app_length.
  replace (S (length host)) with (length host + 1)%nat by lia.
  rewrite <- drop_drop, drop_app_length. cbn [drop].
  pose proof (plain_notin _ open_bracket Hp ltac:(auto)).
  pose proof (plain_notin _ close_bracket Hp ltac:(auto)).
  by rewrite !(proj2 (contains_byte_false _ _)) by set_solver.
Qed.

(** ** The grammar *)

(** ** The grammar of locators *)

Lemma validateHostPort_spec addr : validateHostPort addr = Ok tt <-> host_port addr.
Proof.
  unfold validateHostPort. split.
  - destruct (SplitHostPort addr) as [[host port]|e] eqn:E; [|done].
    case_bool_decide as Eh; [done|]. unfold ParseUint16.
    destruct port as [|d ds] eqn:Ed; [done|]. rewrite <- Ed in *.
    destruct (ParseUint_loop port 0) as [p|e] eqn:Ep; [|done].
    apply ParseUint_loop_spec in Ep as (Hd & Hv & Hle); [|lia].
    destruct (Z.eqb_spec p 0) as [|Hp]; [done|]. intros _.
    assert (Hport : port_text port).
    { split; [congruence|]. split; [done|].
      pose proof (dec_from_mono port 0 Hd ltac:(lia)). lia. }
    apply SplitHostPort_sound in E as [(-> & Hh & _)|(-> & Ho & Hc & _)]; by constructor.
  - intros Hhp.
    assert (E : exists host port, SplitHostPort addr = Ok (host, port) /\ host <> [] /\
      port_text port).
    { destruct Hhp as [host port Hne Hh Hp|host port Hne Ho Hc Hp]; exists host, port;
        pose proof Hp as (_ & Hd & _).
      - by rewrite SplitHostPort_plain by auto using digits_plain.
      - by rewrite SplitHostPort_bracketed by auto using digits_plain. }
    destruct E as (host & port & -> & Hh & Hne & Hd & Hv). rewrite bool_decide_eq_false_2 by done.
    assert (Ep : ParseUint16 port = Ok (dec_from port 0)).
    { unfold ParseUint16. destruct port as [|d ds] eqn:Ed; [done|]. rewrite <- Ed in *.
      apply ParseUint_loop_spec; [lia|]. split; [done|]. lia. }
    rewrite Ep. destruct (Z.eqb_spec (dec_from port 0) 0); [lia|done].
Qed.

Lemma knownScheme_spec s sch : knownScheme s = Some sch <-> s = Scheme_String sch.
Proof.
  split.
  - intros H. apply find_some in H as [_ H]. by apply bool_decide_eq_true in H.
  - intros ->. by destruct sch.
Qed.

Lemma Scheme_String_plain sch : (47 ∉ Scheme_String sch) /\ (63 ∉ Scheme_String sch).
Proof. rewrite <- !contains_byte_false. by destruct sch. Qed.

(** What a locator string consists of: a scheme, "/", a non-empty address with
    no "?", and optionally "?" with the metadata. *)
Definition locator_text (l : Locator) (s : bytes) : Prop :=
  exists tail, s = Locator_String l ++ tail /\ (63 ∉ loc_Address l) /\ loc_Address l <> [] /\
    (network_scheme (loc_Scheme l) = true -> host_port (loc_Address l)) /\
    ((tail = [] /\ loc_Metadata l = ∅) \/
     exists meta, tail = 63 :: meta /\ loc_Metadata l = parseKV meta).

(** Parse accepts exactly the strings of the grammar scheme/address or
    scheme/address?metadata, with one of the eight schemes, a non-empty
    address without a question mark which for the network schemes is
    host:port or [host]:port with a non-empty host and a port from 1 to
    65535, and returns their parts. *)
Theorem locator_grammar s l : Locator_Parse s = Ok l <-> locator_text l s.
Proof.
  unfold Locator_Parse, locator_text, Locator_String. split.
  - destruct (Cut 63 s) as [[rest meta] fm] eqn:Es.
    destruct (Cut 47 rest) as [[scheme addr] ok] eqn:Er.
    destruct ok; [|done]. cbn [negb]. apply Cut_found in Er as [-> Hsc].
    destruct (knownScheme scheme) as [sch|] eqn:Ek; [|done]. apply knownScheme_spec in Ek as ->.
    case_bool_decide as Ea; [done|].
    destruct (if network_scheme sch then _ else _) as [u|] eqn:Ev; [|done]. intros [= <-].
    cbn [loc_Scheme loc_Address loc_Metadata].
    assert (Hhp : network_scheme sch = true -> host_port addr).
    { intros Hn. rewrite Hn in Ev. destruct u. by apply validateHostPort_spec. }
    destruct fm.
    + apply Cut_found in Es as [-> Hq]. exists (63 :: meta).
      split; [by rewrite <- !app_assoc|]. split; [set_solver|]. split_and!; [done..|].
      right. by exists meta.
    + apply Cut_absent in Es as (<- & -> & Hq). exists []. rewrite app_nil_r.
      split; [done|]. split; [set_solver|]. split_and!; [done..|]. by left.
  - intros (tail & -> & Hq & Hne & Hhp & Htail). destruct l as [sch addr md].
    cbn [loc_Scheme loc_Address loc_Metadata] in *.
    pose proof (Scheme_String_plain sch) as [H47 H63].
    assert (Ec : exists meta f,
      Cut 63 ((Scheme_String sch ++ [47] ++ addr) ++ tail) = (Scheme_String sch ++ [47] ++ addr, meta, f) /\
      md = parseKV meta).
    { destruct Htail as [[-> ->]|(meta & -> & ->)].
      - exists [], false. rewrite app_nil_r. split; [|done]. apply Cut_missing. set_solver.
      - exists meta, true. split; [|done]. apply Cut_found. set_solver. }
    destruct Ec as (meta & f & -> & ->).
    assert (Er : Cut 47 (Scheme_String sch ++ [47] ++ addr) = (Scheme_String sch, addr, true))
      by (by apply Cut_found).
    rewrite Er. cbn [negb]. rewrite (proj2 (knownScheme_spec _ sch)) by done.
    rewrite bool_decide_eq_false_2 by done.
    destruct (network_scheme sch); [|done].
    by rewrite (proj2 (validateHostPort_spec addr)) by auto.
Qed.

Example Parse_ipv6 : Locator_Parse (str "tls/[::1]:07447?cert=a;cert=b;x") =
  Ok (mkLocator SchemeTLS (str "[::1]:07447")
       (<[str "x" := []]> (<[str "cert" := str "b"]> ∅))).
Proof. vm_compute. reflexivity. Qed.
Example Parse_unix : Locator_Parse (str "unixsock-stream//tmp/zenoh.sock") =
  Ok (mkLocator SchemeUnix (str "/tmp/zenoh.sock") ∅).
Proof. vm_compute. reflexivity. Qed.
Example Parse_rejects : map (fun s => is_ok (Locator_Parse (str s)))
  ["tcp/h:0"; "tcp/h:65536"; "tcp/::1:7447"; "tcp/:7447"; "foo/h:1"; "tcp/"; "tcp"; "tcp/h:+1"] =
  repeat false 8.
Proof. vm_compute. reflexivity. Qed.

