(* ===== verification/PeerLink.v ===== *)
(** * zenoh/session_peer.go: one link per pair of peers

    Peers dial each other, so two of them may be connected more than once.
    [startRuntimeForPeer] decides which link survives.  The nodes are a mesh:
    links appear between any two of them, their ends finish the handshake and
    are installed in any order, links fail, sessions are closed, and the
    outbound loops dial again. What a new runtime is sent at its start is the
    subject of [Replay]. *)
From S2P Require Import Prelude.

(** ** The rule *)

(** [bytes.Compare] *)
Fixpoint bytes_Compare (a b : bytes) : Z :=
  match a, b with
  | [], [] => 0
  | [], _ => -1
  | _, [] => 1
  | x :: a, y :: b => if x <? y then -1 else if y <? x then 1 else bytes_Compare a b
  end.

Definition isCanonicalLink (myZID peerZID : bytes) (isInitiator : bool) : bool :=
  let myLower := bytes_Compare myZID peerZID <? 0 in
  if isInitiator then myLower else negb myLower.

(** ** A node *)

(** A runtime is named by its link. [n_watching]: the runtimes whose teardown
    is still to be noticed. *)
Record node := mkNode {
  n_runtimes : gmap (list Z) nat; n_curRuntime : option nat; n_watching : gset nat;
  n_closed : bool }.

Definition NewNode : node := mkNode ∅ None ∅ false.

(** The runtime or the error, the node, and the links this end closes. *)
Definition startRuntimeForPeer (myZID peerZID : bytes) (link : nat) (isInitiator : bool)
    (n : node) : result nat * node * gset nat :=
  let install (shut : gset nat) :=
    if n_closed n
    then (Err (ErrWrap "run" (ErrMsg "session: cannot Run from state Closed")), n, {[link]} ∪ shut)
    else (Ok link,
          mkNode (<[peerZID := link]> (n_runtimes n)) (Some link) ({[link]} ∪ n_watching n)
            (n_closed n), shut) in
  match n_runtimes n !! peerZID with
  | Some existing =>
      if negb (isCanonicalLink myZID peerZID isInitiator) then (Ok existing, n, {[link]})
      else install {[existing]}
  | None => install ∅
  end.

(** [uninstallRuntime], with [UnregisterRuntime]. *)
Definition uninstallRuntime (peerZID : bytes) (rt : nat) (n : node) : node :=
  mkNode (if bool_decide (n_runtimes n !! peerZID = Some rt) then delete peerZID (n_runtimes n)
          else n_runtimes n)
    (if bool_decide (n_curRuntime n = Some rt) then None else n_curRuntime n)
    (n_watching n ∖ {[rt]}) (n_closed n).

(** ** The mesh *)

(** Where [runOutboundLoop] is: before a dial, in the handshake of a link, or
    waiting for a runtime to end. *)
Inductive loop_pc := LDial | LHandshake (link : nat) | LWait (rt : nat).

#[export] Instance loop_pc_eq_dec : EqDecision loop_pc.
Proof. solve_decision. Defined.

Record loop := mkLoop { lp_owner : bytes; lp_peer : bytes; lp_pc : loop_pc }.

(** The two ends of each link, initiator first; the links that are closed, and
    those of them that a failure or a Close of a session took; the ends that
    have finished their handshake and not yet called [startRuntimeForPeer]. *)
Record mesh := mkMesh {
  m_nodes : gmap (list Z) node; m_links : gmap nat (bytes * bytes);
  m_closed : gset nat; m_lost : gset nat; m_pending : gset (list Z * nat);
  m_loops : list loop }.

Definition node_of (m : mesh) (z : bytes) : node := default NewNode (m_nodes m !! z).

Inductive action :=
  | AConnect (from to : bytes) (link : nat)
  | ADial (i : nat) (link : nat)
  | AInstall (z : bytes) (link : nat)
  | AAbandon (z : bytes) (link : nat)
  | AUninstall (z : bytes) (rt : nat)
  | ARedial (i : nat)
  | AFail (link : nat)
  | AClose (z : bytes).

Definition connect (from to : bytes) (link : nat) (loops : list loop) (m : mesh) : mesh :=
  mkMesh (m_nodes m) (<[link := (from, to)]> (m_links m)) (m_closed m) (m_lost m)
    ({[(from, link); (to, link)]} ∪ m_pending m) loops.

(** The loop of [z] whose dial made [link] learns the outcome. *)
Definition loop_result (z : bytes) (link : nat) (pc : loop_pc) (lp : loop) : loop :=
  if bool_decide (lp_owner lp = z /\ lp_pc lp = LHandshake link)
  then mkLoop (lp_owner lp) (lp_peer lp) pc else lp.

Definition the_other (z : bytes) (ends : bytes * bytes) : bytes :=
  if bool_decide (z = ends.1) then ends.2 else ends.1.

(** A handshake fails between a node and itself. A link's end that was closed
    by the other may still finish its handshake, or fail it. *)
Definition mesh_step (a : action) (m : mesh) : option mesh :=
  match a with
  | AConnect from to link =>
      if bool_decide (from = to) then None
      else match m_links m !! link with
           | Some _ => None
           | None => Some (connect from to link (m_loops m) m)
           end
  | ADial i link =>
      lp ← m_loops m !! i;
      if bool_decide (lp_pc lp = LDial) && negb (bool_decide (lp_owner lp = lp_peer lp)) &&
         negb (n_closed (node_of m (lp_owner lp))) && bool_decide (m_links m !! link = None)
      then Some (connect (lp_owner lp) (lp_peer lp) link
                   (<[i := mkLoop (lp_owner lp) (lp_peer lp) (LHandshake link)]> (m_loops m)) m)
      else None
  | AInstall z link =>
      ends ← m_links m !! link;
      if bool_decide ((z, link) ∈ m_pending m)
      then let '(r, n, shut) :=
             startRuntimeForPeer z (the_other z ends) link (bool_decide (z = ends.1)) (node_of m z) in
           let pc := match r with Ok rt => LWait rt | Err _ => LDial end in
           Some (mkMesh (<[z := n]> (m_nodes m)) (m_links m) (m_closed m ∪ shut) (m_lost m)
                   (m_pending m ∖ {[(z, link)]}) (loop_result z link pc <$> m_loops m))
      else None
  | AAbandon z link =>
      if bool_decide ((z, link) ∈ m_pending m /\ link ∈ m_closed m)
      then Some (mkMesh (m_nodes m) (m_links m) (m_closed m) (m_lost m)
                   (m_pending m ∖ {[(z, link)]}) (loop_result z link LDial <$> m_loops m))
      else None
  | AUninstall z rt =>
      ends ← m_links m !! rt;
      if bool_decide (rt ∈ n_watching (node_of m z) /\ rt ∈ m_closed m)
      then Some (mkMesh (<[z := uninstallRuntime (the_other z ends) rt (node_of m z)]> (m_nodes m))
                   (m_links m) (m_closed m) (m_lost m) (m_pending m) (m_loops m))
      else None
  | ARedial i =>
      lp ← m_loops m !! i;
      match lp_pc lp with
      | LWait rt =>
          if bool_decide (rt ∈ m_closed m)
          then Some (mkMesh (m_nodes m) (m_links m) (m_closed m) (m_lost m) (m_pending m)
                       (<[i := mkLoop (lp_owner lp) (lp_peer lp) LDial]> (m_loops m)))
          else None
      | _ => None
      end
  | AFail link =>
      Some (mkMesh (m_nodes m) (m_links m) ({[link]} ∪ m_closed m) ({[link]} ∪ m_lost m)
              (m_pending m) (m_loops m))
  | AClose z =>
      let n := node_of m z in
      let rts : gset nat := list_to_set (map_to_list (n_runtimes n)).*2 in
      Some (mkMesh (<[z := mkNode (n_runtimes n) (n_curRuntime n) (n_watching n) true]> (m_nodes m))
              (m_links m) (rts ∪ m_closed m) (rts ∪ m_lost m) (m_pending m) (m_loops m))
  end.

Fixpoint mesh_run (acts : list action) (m : mesh) : option mesh :=
  match acts with
  | [] => Some m
  | a :: acts => mesh_step a m ≫= mesh_run acts
  end.

(** A mesh without links, with loops that have not begun. *)
Definition start_mesh (targets : list (bytes * bytes)) : mesh :=
  mkMesh ∅ ∅ ∅ ∅ ∅ ((fun t => mkLoop t.1 t.2 LDial) <$> targets).

Definition reachable (m : mesh) : Prop :=
  exists targets acts, mesh_run acts (start_mesh targets) = Some m.

(** ** The two ends of a link reach the same answer *)

Definition smaller (a b : bytes) : bool := bytes_Compare a b <? 0.

Lemma bytes_Compare_flip a b : bytes_Compare b a = - bytes_Compare a b.
Proof.
  revert b. induction a as [|x a IH]; intros [|y b]; cbn; try done.
  destruct (Z.ltb_spec x y), (Z.ltb_spec y x); try lia. apply IH.
Qed.

Lemma bytes_Compare_eq a b : bytes_Compare a b = 0 -> a = b.
Proof.
  revert b. induction a as [|x a IH]; intros [|y b]; cbn; try done.
  destruct (Z.ltb_spec x y), (Z.ltb_spec y x); try done. intros Hc. f_equal; [lia|by apply IH].
Qed.

Lemma smaller_flip a b : a <> b -> smaller b a = negb (smaller a b).
Proof.
  intros Hne. unfold smaller. rewrite bytes_Compare_flip.
  assert (bytes_Compare a b <> 0) by (intros ?; by apply Hne, bytes_Compare_eq).
  destruct (Z.ltb_spec (- bytes_Compare a b) 0), (Z.ltb_spec (bytes_Compare a b) 0); cbn; lia.
Qed.

Definition end_of (z : bytes) (ends : bytes * bytes) : Prop := z = ends.1 \/ z = ends.2.

Lemma canonical_ends z ends : ends.1 <> ends.2 -> end_of z ends ->
  isCanonicalLink z (the_other z ends) (bool_decide (z = ends.1)) = smaller ends.1 ends.2.
Proof.
  destruct ends as [f t]; cbn. intros Hne Hz. unfold isCanonicalLink, the_other. cbn.
  case_bool_decide as E; [by subst|]. destruct Hz as [Hz|Hz]; cbn in Hz; [done|subst].
  fold (smaller t f). by rewrite smaller_flip, negb_involutive.
Qed.

Lemma the_other_end z ends : ends.1 <> ends.2 -> end_of z ends ->
  (z = ends.1 /\ the_other z ends = ends.2) \/ (z = ends.2 /\ the_other z ends = ends.1).
Proof.
  destruct ends as [f t]; cbn. intros Hne [->| ->]; unfold the_other; cbn.
  - left. by rewrite bool_decide_eq_true_2.
  - right. by rewrite bool_decide_eq_false_2.
Qed.

(** ** What holds in every mesh *)

Record mesh_ok (m : mesh) : Prop := {
  mo_ends l ends : m_links m !! l = Some ends -> ends.1 <> ends.2;
  mo_pending z l : (z, l) ∈ m_pending m -> exists ends, m_links m !! l = Some ends /\ end_of z ends;
  mo_watching z l : l ∈ n_watching (node_of m z) -> exists ends,
    m_links m !! l = Some ends /\ end_of z ends /\ ((z, l) ∉ m_pending m) /\
    (l ∈ m_closed m \/ n_runtimes (node_of m z) !! the_other z ends = Some l);
  mo_runtimes z p l : n_runtimes (node_of m z) !! p = Some l -> l ∈ n_watching (node_of m z) /\
    exists ends, m_links m !! l = Some ends /\ p = the_other z ends;
  mo_gone z l ends : m_links m !! l = Some ends -> end_of z ends ->
    (z, l) ∈ m_pending m \/ l ∈ n_watching (node_of m z) \/ l ∈ m_closed m }.

Lemma node_of_insert m z z' n ls c lo pe lps :
  node_of (mkMesh (<[z := n]> (m_nodes m)) ls c lo pe lps) z' =
  if bool_decide (z' = z) then n else node_of m z'.
Proof.
  unfold node_of. cbn. case_bool_decide as E; [subst; by rewrite lookup_insert_eq|].
  by rewrite lookup_insert_ne.
Qed.

(** What [startRuntimeForPeer] can do. *)
Inductive installed (p : bytes) (link : nat) (canonical : bool) (n : node) :
    result nat -> node -> gset nat -> Prop :=
  | in_kept rt : n_runtimes n !! p = Some rt -> canonical = false ->
      installed p link canonical n (Ok rt) n {[link]}
  | in_closed e shut : n_closed n = true -> (forall l, l ∈ shut -> n_runtimes n !! p = Some l) ->
      installed p link canonical n (Err e) n ({[link]} ∪ shut)
  | in_started shut : n_closed n = false ->
      (canonical = false -> n_runtimes n !! p = None) ->
      (forall l, l ∈ shut <-> n_runtimes n !! p = Some l) ->
      installed p link canonical n (Ok link)
        (mkNode (<[p := link]> (n_runtimes n)) (Some link) ({[link]} ∪ n_watching n) (n_closed n))
        shut.

Lemma startRuntimeForPeer_spec z p link i n :
  let '(r, n', shut) := startRuntimeForPeer z p link i n in
  installed p link (isCanonicalLink z p i) n r n' shut.
Proof.
  unfold startRuntimeForPeer. cbv zeta.
  destruct (n_runtimes n !! p) as [rt|] eqn:E.
  - destruct (isCanonicalLink z p i); cbn [negb]; [|by constructor].
    destruct (n_closed n) eqn:Ec; rewrite <- Ec; constructor; try done.
    + intros l. rewrite elem_of_singleton. by intros ->.
    + intros l. rewrite elem_of_singleton, E. naive_solver.
  - destruct (n_closed n) eqn:Ec; rewrite <- Ec; constructor; try done; set_solver.
Qed.

Ltac at_node z' z :=
  let E := fresh "E" in rewrite (node_of_insert _ z z'); case_bool_decide as E; [subst z'|].

Lemma connect_ok from to link loops m : mesh_ok m -> from <> to -> m_links m !! link = None ->
  mesh_ok (connect from to link loops m).
Proof.
  intros [H1 H2 H3 H4 H5] Hne Hf.
  assert (Hl : forall l ends, m_links m !! l = Some ends ->
    <[link := (from, to)]> (m_links m) !! l = Some ends).
  { intros l ends H. rewrite lookup_insert_ne; [done|]. intros ->. congruence. }
  constructor; cbn [connect m_links m_pending m_closed]; intros *.
  - destruct (decide (l = link)) as [->|]; [|rewrite lookup_insert_ne by done; apply H1].
    rewrite lookup_insert_eq. by intros [= <-].
  - rewrite elem_of_union. intros [Hin|Hin].
    + exists (from, to). assert (l = link) as -> by set_solver. rewrite lookup_insert_eq.
      split; [done|]. unfold end_of. set_solver.
    + destruct (H2 z l Hin) as (ends & He & Hz). eauto.
  - intros Hin. destruct (H3 z l Hin) as (ends & He & Hz & Hp & Ho). exists ends.
    split_and!; [by apply Hl|done| |done].
    assert (l <> link) by congruence. set_solver.
  - intros Hr. destruct (H4 z p l Hr) as (Hw & ends & He & ->). eauto.
  - destruct (decide (l = link)) as [->|].
    + rewrite lookup_insert_eq. intros [= <-] [->| ->]; set_solver.
    + rewrite lookup_insert_ne by done. intros He Hz. destruct (H5 z l ends He Hz); set_solver.
Qed.

(** An end leaves the pending ones, and links close. *)
Lemma mesh_ok_shrink m closed lost pending loops : mesh_ok m ->
  pending ⊆ m_pending m -> (forall z l, (z, l) ∈ m_pending m -> (z, l) ∈ pending \/ l ∈ closed) ->
  m_closed m ⊆ closed ->
  mesh_ok (mkMesh (m_nodes m) (m_links m) closed lost pending loops).
Proof.
  intros [H1 H2 H3 H4 H5] Hp Hq Hc. constructor; cbn; [done|set_solver| |done|].
  - intros z l Hin. destruct (H3 z l Hin) as (ends & He & Hz & Hp' & Ho). exists ends. set_solver.
  - intros z l ends He Hz. destruct (H5 z l ends He Hz) as [Hpe|[Hw|Hcl]]; [|auto..].
    destruct (Hq z l Hpe); auto.
Qed.

Lemma install_ok z link ends r n shut loops m : mesh_ok m -> m_links m !! link = Some ends ->
  (z, link) ∈ m_pending m ->
  installed (the_other z ends) link (smaller ends.1 ends.2) (node_of m z) r n shut ->
  mesh_ok (mkMesh (<[z := n]> (m_nodes m)) (m_links m) (m_closed m ∪ shut) (m_lost m)
             (m_pending m ∖ {[(z, link)]}) loops).
Proof.
  intros Hok He Hin Hi. pose proof Hok as [H1 H2 H3 H4 H5].
  assert (Hsame : n = node_of m z -> link ∈ shut -> mesh_ok (mkMesh (<[z := n]> (m_nodes m)) (m_links m)
    (m_closed m ∪ shut) (m_lost m) (m_pending m ∖ {[(z, link)]}) loops)).
  { intros -> Hsl. constructor; cbn [m_links m_pending m_closed]; [done|set_solver|..]; intros z' *.
    - at_node z' z; intros Hw; destruct (H3 _ _ Hw) as (e & ? & ? & ? & ?); exists e; set_solver.
    - at_node z' z; apply H4.
    - intros Hel Hz. specialize (H5 z' l ends0 Hel Hz). destruct (decide (l = link)) as [->|]; [set_solver|].
      at_node z' z; set_solver. }
  destruct Hi as [rt Hr Hc|e shut Hcl Hs|shut Hcl Hc Hs]; [apply Hsame; set_solver..|]. clear Hsame.
  assert (Hend : end_of z ends).
  { destruct (H2 z link Hin) as (ends' & He' & Hz). by rewrite He in He'; injection He' as <-. }
  constructor; cbn [m_links m_pending m_closed]; [done|set_solver|..]; intros z' *.
  - at_node z' z; cbn [n_watching n_runtimes].
    + rewrite elem_of_union, elem_of_singleton. intros [->|Hw].
      * exists ends. rewrite lookup_insert_eq. set_solver.
      * destruct (H3 z l Hw) as (e & Hel & Hze & Hp & Ho). exists e. split; [done|]. split; [done|].
        split; [set_solver|]. destruct Ho as [Ho|Ho]; [set_solver|].
        destruct (decide (the_other z e = the_other z ends)) as [Eq|Ne].
        -- left. rewrite Eq in Ho. apply elem_of_union_r. by apply Hs.
        -- right. by rewrite lookup_insert_ne.
    + intros Hw. destruct (H3 z' l Hw) as (e & Hel & Hze & Hp & Ho). exists e. set_solver.
  - at_node z' z; [|apply H4]. cbn [n_watching n_runtimes].
    destruct (decide (p = the_other z ends)) as [->|Ne].
    + rewrite lookup_insert_eq. intros [= <-]. set_solver.
    + rewrite lookup_insert_ne by done. intros Hr. destruct (H4 z p l Hr) as (Hw & Hp). set_solver.
  - intros Hel Hz. specialize (H5 z' l ends0 Hel Hz). at_node z' z; cbn [n_watching].
    + destruct (decide (l = link)); set_solver.
    + set_solver.
Qed.

Lemma uninstall_ok z rt ends m : mesh_ok m -> m_links m !! rt = Some ends -> rt ∈ m_closed m ->
  mesh_ok (mkMesh (<[z := uninstallRuntime (the_other z ends) rt (node_of m z)]> (m_nodes m))
             (m_links m) (m_closed m) (m_lost m) (m_pending m) (m_loops m)).
Proof.
  intros [H1 H2 H3 H4 H5] He Hc. constructor; cbn [m_links m_pending m_closed]; [done..|idtac| |]; intros z' *.
  - at_node z' z; [|apply H3]. cbn. rewrite elem_of_difference, elem_of_singleton. intros [Hw Hne].
    destruct (H3 z l Hw) as (e & Hel & Hze & Hp & Ho). exists e. split_and!; [done..|].
    destruct Ho as [Ho|Ho]; [by left|]. right. case_bool_decide as Er; [|done].
    rewrite lookup_delete_ne; [done|]. intros Eq. rewrite Eq in Er. congruence.
  - at_node z' z; [|apply H4]. cbn. case_bool_decide as Er.
    + rewrite lookup_delete_Some. intros [Hne Hr]. destruct (H4 z p l Hr) as (Hw & e & Hel & ->).
      split; [|eauto]. apply elem_of_difference. split; [done|]. rewrite elem_of_singleton.
      intros ->. apply Hne. congruence.
    + intros Hr. destruct (H4 z p l Hr) as (Hw & e & Hel & ->). split; [|eauto].
      apply elem_of_difference. split; [done|]. rewrite elem_of_singleton. intros ->. congruence.
  - intros Hel Hz. specialize (H5 z' l ends0 Hel Hz). at_node z' z; [|done]. cbn.
    destruct (decide (l = rt)) as [->|]; set_solver.
Qed.

Lemma close_ok z closed lost m : mesh_ok m -> m_closed m ⊆ closed ->
  mesh_ok (mkMesh (<[z := mkNode (n_runtimes (node_of m z)) (n_curRuntime (node_of m z))
                            (n_watching (node_of m z)) true]> (m_nodes m))
             (m_links m) closed lost (m_pending m) (m_loops m)).
Proof.
  intros [H1 H2 H3 H4 H5] Hc. constructor; cbn [m_links m_pending m_closed]; [done..|idtac| |]; intros z' *.
  - at_node z' z; intros Hw; destruct (H3 _ l Hw) as (e & ? & ? & ? & ?); exists e; set_solver.
  - at_node z' z; apply H4.
  - intros Hel Hz. specialize (H5 z' l ends Hel Hz). at_node z' z; cbn; set_solver.
Qed.

Lemma dial_split m i link m' : mesh_step (ADial i link) m = Some m' ->
  exists lp, m_loops m !! i = Some lp /\ lp_pc lp = LDial /\ lp_owner lp <> lp_peer lp /\
    n_closed (node_of m (lp_owner lp)) = false /\ m_links m !! link = None /\
    m' = connect (lp_owner lp) (lp_peer lp) link
           (<[i := mkLoop (lp_owner lp) (lp_peer lp) (LHandshake link)]> (m_loops m)) m.
Proof.
  cbn. destruct (m_loops m !! i) as [lp|]; [|done]. cbn. destruct (_ && _) eqn:E; [|done].
  intros [= <-]. rewrite !andb_true_iff, !negb_true_iff in E. destruct E as [[[E1 E2] E3] E4].
  apply bool_decide_eq_true in E1, E4. apply bool_decide_eq_false in E2. by exists lp.
Qed.

Lemma install_split m z link m' : mesh_ok m -> mesh_step (AInstall z link) m = Some m' ->
  exists ends r n shut, m_links m !! link = Some ends /\ (z, link) ∈ m_pending m /\ end_of z ends /\
    installed (the_other z ends) link (smaller ends.1 ends.2) (node_of m z) r n shut /\
    m' = mkMesh (<[z := n]> (m_nodes m)) (m_links m) (m_closed m ∪ shut) (m_lost m)
           (m_pending m ∖ {[(z, link)]})
           (loop_result z link (match r with Ok rt => LWait rt | Err _ => LDial end) <$> m_loops m).
Proof.
  intros [H1 H2 _ _ _] Hs. unfold mesh_step in Hs.
  destruct (m_links m !! link) as [ends|] eqn:He; [|done]. cbn [mbind option_bind] in Hs.
  case_bool_decide as Hin; [|done].
  assert (Hz : end_of z ends) by (destruct (H2 _ _ Hin) as (e & ? & ?); by simplify_eq).
  pose proof (startRuntimeForPeer_spec z (the_other z ends) link (bool_decide (z = ends.1))
    (node_of m z)) as Hi.
  rewrite canonical_ends in Hi by eauto.
  destruct (startRuntimeForPeer _ _ _ _ _) as [[r n] shut]. injection Hs as <-.
  by exists ends, r, n, shut.
Qed.

Lemma mesh_step_ok a m m' : mesh_ok m -> mesh_step a m = Some m' -> mesh_ok m'.
Proof.
  intros Hok Hs. destruct a as [from to link|i link|z link|z link|z rt|i|link|z].
  - cbn in Hs. case_bool_decide; [done|]. destruct (m_links m !! link) eqn:E; [done|].
    injection Hs as <-. by apply connect_ok.
  - apply dial_split in Hs as (lp & _ & _ & Hne & _ & Hf & ->). by apply connect_ok.
  - apply install_split in Hs as (ends & r & n & shut & He & Hin & _ & Hi & ->); [|done].
    by eapply install_ok.
  - cbn in Hs. case_bool_decide as Hp; [|done]. injection Hs as <-. destruct Hp as [_ Hc].
    apply mesh_ok_shrink; [done|set_solver| |done]. intros z' l Hin.
    destruct (decide ((z', l) = (z, link))) as [[= -> ->]|]; [by right|left; set_solver].
  - cbn in Hs. destruct (m_links m !! rt) as [ends|] eqn:He; [|done]. cbn in Hs.
    case_bool_decide as Hc; [|done]. injection Hs as <-. destruct Hc. by apply uninstall_ok.
  - cbn in Hs. destruct (m_loops m !! i) as [lp|]; [|done]. cbn in Hs.
    destruct (lp_pc lp) as [| |rt]; try done. case_bool_decide; [|done]. injection Hs as <-.
    apply mesh_ok_shrink; auto.
  - injection Hs as <-. apply mesh_ok_shrink; [done| |by left|]; set_solver.
  - injection Hs as <-. apply close_ok; [done|]. set_solver.
Qed.

Lemma mesh_run_ind (P : mesh -> Prop) acts m m' :
  (forall a m m', P m -> mesh_step a m = Some m' -> P m') ->
  P m -> mesh_run acts m = Some m' -> P m'.
Proof.
  intros Hstep. revert m. induction acts as [|a acts IH]; intros m Hm; cbn.
  - by intros [= <-].
  - destruct (mesh_step a m) as [m1|] eqn:E; [|done]. cbn. apply IH. by eapply Hstep.
Qed.

Lemma start_mesh_ok targets : mesh_ok (start_mesh targets).
Proof.
  constructor; cbn; intros *; unfold node_of; cbn; rewrite ?lookup_empty; cbn; try done; set_solver.
Qed.

Lemma reachable_ok m : reachable m -> mesh_ok m.
Proof.
  intros (targets & acts & H). revert H. apply mesh_run_ind; [by intros; eapply mesh_step_ok|].
  apply start_mesh_ok.
Qed.

(** In every reachable mesh a node has at most one runtime per peer
    whose link is not closed, and it is the one the registry holds under the
    ZenohID of that peer; a teardown noticed late never removes the
    successor. *)
Theorem one_runtime_per_peer m z p (Hm : reachable m) :
  (forall l ends, l ∈ n_watching (node_of m z) -> l ∉ m_closed m -> m_links m !! l = Some ends ->
     the_other z ends = p -> n_runtimes (node_of m z) !! p = Some l) /\
  (forall l, n_runtimes (node_of m z) !! p = Some l ->
     exists ends, m_links m !! l = Some ends /\ end_of z ends /\ the_other z ends = p).
Proof.
  apply reachable_ok in Hm as [H1 H2 H3 H4 H5]. split.
  - intros l ends Hw Hc He <-. destruct (H3 z l Hw) as (e & He' & _ & _ & [Ho|Ho]); [done|].
    by simplify_eq.
  - intros l Hr. destruct (H4 z p l Hr) as (Hw & ends & He & ->).
    destruct (H3 z l Hw) as (e & He' & Hz & _). simplify_eq. eauto.
Qed.

(** ** One link from the smaller end *)

(** Both ends of [l] have still to install it or have it as their runtime. *)
Definition holds_link (a b : bytes) (l : nat) (m : mesh) : Prop :=
  (l ∉ m_closed m) /\
  ((a, l) ∈ m_pending m \/ n_runtimes (node_of m a) !! b = Some l) /\
  ((b, l) ∈ m_pending m \/ n_runtimes (node_of m b) !! a = Some l).

(** [l] is the only link that [a] made to [b], nothing but the tiebreak can
    have closed it, and both sessions are open. *)
Definition sole_link (a b : bytes) (l : nat) (m : mesh) : Prop :=
  m_links m !! l = Some (a, b) /\ (forall l', m_links m !! l' = Some (a, b) -> l' = l) /\
  (l ∉ m_lost m) /\ n_closed (node_of m a) = false /\ n_closed (node_of m b) = false.

Definition tiebreak_ok (a b : bytes) (l : nat) (m : mesh) : Prop :=
  (forall l, l ∈ m_closed m -> l ∈ m_lost m \/ is_Some (m_links m !! l)) /\
  (sole_link a b l m -> holds_link a b l m).

Lemma installed_closed p l c n r n' shut : installed p l c n r n' shut -> n_closed n' = n_closed n.
Proof. by destruct 1. Qed.

(** At an end of [l], another link to the same peer goes the other way. *)
Lemma sole_link_other a b l m link ends p q : mesh_ok m -> sole_link a b l m ->
  smaller a b = true -> m_links m !! link = Some ends -> end_of p ends -> the_other p ends = q ->
  (p = a /\ q = b) \/ (p = b /\ q = a) ->
  (link = l /\ smaller ends.1 ends.2 = true) \/ (link <> l /\ smaller ends.1 ends.2 = false).
Proof.
  intros Hok (Hl & Hu & _) Hab He Hp Eq Hpq.
  assert (Hne : ends.1 <> ends.2) by (by eapply mo_ends).
  assert (Hab' : a <> b) by (intros ->; by apply (mo_ends _ Hok l (b, b))).
  assert (Hends : ends = (a, b) \/ ends = (b, a)).
  { destruct ends as [f t]; cbn in *.
    destruct (the_other_end p (f, t)) as [[E1 E2]|[E1 E2]]; [done..|cbn in *|cbn in *];
      rewrite E2 in Eq; destruct Hpq as [[-> ->]|[-> ->]]; subst; auto. }
  destruct Hends as [-> | ->]; cbn.
  - left. split; [by apply Hu|done].
  - right. rewrite smaller_flip, Hab by done. split; [|done]. intros ->. simplify_eq.
Qed.

(** Installing a link at an end of [l] keeps [l] there, or puts it there. *)
Lemma install_keeps a b l m link ends p q r n shut : mesh_ok m -> sole_link a b l m ->
  smaller a b = true -> m_links m !! link = Some ends -> (p, link) ∈ m_pending m ->
  end_of p ends -> the_other p ends = q -> (p = a /\ q = b) \/ (p = b /\ q = a) ->
  installed q link (smaller ends.1 ends.2) (node_of m p) r n shut ->
  ((p, l) ∈ m_pending m \/ n_runtimes (node_of m p) !! q = Some l) ->
  (l ∉ shut) /\
  ((p, l) ∈ m_pending m ∖ {[(p, link)]} \/ n_runtimes n !! q = Some l).
Proof.
  intros Hok Hs Hab He Hin Hp Eq Hpq Hi Hhas.
  assert (Hopen : n_closed (node_of m p) = false)
    by (destruct Hs as (_ & _ & _ & Ha & Hb); destruct Hpq as [[-> _]|[-> _]]; done).
  destruct (sole_link_other a b l m link ends p q) as [[-> Hc]|[Hne Hc]]; try done; rewrite Hc in Hi.
  - destruct Hi as [|e shut Hclo Hsh|shut Hclo Hf Hsh]; [done|congruence|]. cbn.
    rewrite lookup_insert_eq. split; [|by right]. intros Hr%Hsh.
    destruct (mo_runtimes _ Hok _ _ _ Hr) as [Hw _].
    by destruct (mo_watching _ Hok _ _ Hw) as (? & _ & _ & Hnp & _).
  - destruct Hi as [rt Hr Hf|e shut Hclo Hsh|shut Hclo Hf Hsh]; [|congruence|]; cbn.
    + split; [set_solver|]. destruct Hhas; [left; set_solver|by right].
    + specialize (Hf eq_refl). split; [intros Hr%Hsh; congruence|].
      destruct Hhas as [|Hr]; [left; set_solver|congruence].
Qed.

(** Installing a link elsewhere does not close [l]. *)
Lemma install_elsewhere a b l m link ends z r n shut : mesh_ok m -> sole_link a b l m ->
  m_links m !! link = Some ends -> (z, link) ∈ m_pending m -> end_of z ends ->
  ~ ((z = a /\ the_other z ends = b) \/ (z = b /\ the_other z ends = a)) ->
  installed (the_other z ends) link (smaller ends.1 ends.2) (node_of m z) r n shut ->
  (l ∉ shut) /\ link <> l /\
  forall q, (z = a /\ q = b) \/ (z = b /\ q = a) -> n_runtimes n !! q = n_runtimes (node_of m z) !! q.
Proof.
  intros Hok (Hl & _) He Hin Hz Hnot Hi.
  assert (Hab' : a <> b) by (intros ->; by apply (mo_ends _ Hok l (b, b))).
  assert (Hrt : forall e, m_links m !! l = Some e -> end_of z e -> the_other z e <> the_other z ends).
  { intros e He' Hze Eq. simplify_eq. apply Hnot. rewrite <- Eq.
    destruct (the_other_end z (a, b)) as [[-> E]|[-> E]]; auto. }
  assert (Hlink : link <> l) by (intros ->; by eapply Hrt).
  assert (Hsh : forall x, n_runtimes (node_of m z) !! the_other z ends = Some x -> x <> l).
  { intros x Hr ->. destruct (mo_runtimes _ Hok _ _ _ Hr) as (Hw & e & He' & Ee).
    destruct (mo_watching _ Hok _ _ Hw) as (e' & He'' & Hze & _). simplify_eq. by eapply Hrt. }
  destruct Hi as [rt Hr Hf|e shut Hclo Hs|shut Hclo Hf Hs]; cbn.
  - set_solver.
  - split; [|done]. rewrite elem_of_union, elem_of_singleton. intros [->|Hx%Hs]; [done|].
    by eapply Hsh.
  - split; [intros Hx%Hs; by eapply Hsh|]. split; [done|]. intros q Hq.
    rewrite lookup_insert_ne; [done|]. intros <-. by apply Hnot.
Qed.

Lemma tiebreak_install a b l z link ends r n shut loops m :
  mesh_ok m -> smaller a b = true -> m_links m !! link = Some ends -> (z, link) ∈ m_pending m ->
  end_of z ends ->
  installed (the_other z ends) link (smaller ends.1 ends.2) (node_of m z) r n shut ->
  tiebreak_ok a b l m ->
  tiebreak_ok a b l (mkMesh (<[z := n]> (m_nodes m)) (m_links m) (m_closed m ∪ shut) (m_lost m)
                       (m_pending m ∖ {[(z, link)]}) loops).
Proof.
  intros Hok Hab He Hin Hz Hi [Hdom Hh]. set (m' := mkMesh _ _ _ _ _ _).
  assert (Hcl : forall x, n_closed (node_of m' x) = n_closed (node_of m x)).
  { intros x. unfold m'. at_node x z; [by eapply installed_closed|done]. }
  split.
  { intros x. cbn. rewrite elem_of_union. intros [Hx|Hx]; [by apply Hdom|right].
    assert (x = link \/ n_runtimes (node_of m z) !! the_other z ends = Some x) as [->|Hr]
      by (destruct Hi; set_solver); [by eexists|].
    destruct (mo_runtimes _ Hok _ _ _ Hr) as (_ & e & -> & _). by eexists. }
  intros Hs'. assert (Hs : sole_link a b l m) by (unfold sole_link in *; rewrite !Hcl in Hs'; done).
  destruct (Hh Hs) as (Hc & Hpa & Hpb).
  assert (Hab' : a <> b) by (intros ->; apply (mo_ends _ Hok l (b, b)); [apply Hs|done]).
  assert (Hend : forall p q, (p = a /\ q = b) \/ (p = b /\ q = a) ->
    ((p, l) ∈ m_pending m \/ n_runtimes (node_of m p) !! q = Some l) ->
    (z = p -> l ∉ shut) /\
    ((p, l) ∈ m_pending m' \/ n_runtimes (node_of m' p) !! q = Some l)).
  { intros p q Hpq Hhas. unfold m'. cbn [m_pending]. at_node p z; [|split; [done|set_solver]].
    destruct (decide (the_other z ends = q)) as [Eq|Nq].
    - rewrite Eq in Hi. destruct (install_keeps a b l m link ends z q r n shut); try done.
    - destruct (install_elsewhere a b l m link ends z r n shut) as (? & ? & Hsame); try done.
      { intros H. apply Nq. naive_solver. }
      rewrite Hsame by done. split; [done|]. set_solver. }
  destruct (Hend a b) as [Ha1 Ha2]; [by left|done|].
  destruct (Hend b a) as [Hb1 Hb2]; [by right|done|].
  split; [|done]. cbn. rewrite elem_of_union. intros [?|Hsh]; [done|].
  destruct (decide (z = a)) as [->|]; [by apply Ha1|]. destruct (decide (z = b)) as [->|]; [by apply Hb1|].
  destruct (install_elsewhere a b l m link ends z r n shut) as (? & _); try done. naive_solver.
Qed.

Lemma tiebreak_step a b l act m m' : smaller a b = true -> mesh_ok m ->
  mesh_step act m = Some m' -> tiebreak_ok a b l m -> tiebreak_ok a b l m'.
Proof.
  intros Hab Hok Hs Ht. pose proof Ht as [Hdom Hh].
  assert (Hconn : forall from to link loops, from <> to -> m_links m !! link = None ->
    tiebreak_ok a b l (connect from to link loops m)).
  { intros from to link loops Hne Hf. split.
    - intros x Hx. cbn. destruct (decide (x = link)) as [->|]; [rewrite lookup_insert_eq; eauto|].
      rewrite lookup_insert_ne by done. by apply Hdom.
    - unfold sole_link, holds_link. cbn. intros (Hl & Hu & Hlo & Ha & Hb).
      destruct (decide (l = link)) as [->|Hn].
      + rewrite lookup_insert_eq in Hl. injection Hl as -> ->. split; [|set_solver].
        intros Hc. destruct (Hdom _ Hc) as [?|[? ?]]; [done|congruence].
      + rewrite lookup_insert_ne in Hl by done. destruct Hh as (Hc & Hpa & Hpb); [|set_solver].
        split; [done|]. split; [|by split]. intros l' Hl'. apply Hu.
        rewrite lookup_insert_ne; [done|]. intros ->. congruence. }
  destruct act as [from to link|i link|z link|z link|z rt|i|link|z].
  - cbn in Hs. case_bool_decide; [done|]. destruct (m_links m !! link) eqn:E; [done|].
    injection Hs as <-. by apply Hconn.
  - apply dial_split in Hs as (lp & _ & _ & Hne & _ & Hf & ->). by apply Hconn.
  - apply install_split in Hs as (ends & r & n & shut & He & Hin & Hz & Hi & ->); [|done].
    by eapply tiebreak_install.
  - cbn in Hs. case_bool_decide as Hp; [|done]. injection Hs as <-. split; [done|]. intros Hso.
    destruct (Hh Hso) as (Hc & Hpa & Hpb). unfold holds_link. cbn. destruct Hp as [_ Hlc].
    assert (link <> l) by (by intros ->). set_solver.
  - cbn in Hs. destruct (m_links m !! rt) as [ends|] eqn:He; [|done]. cbn in Hs.
    case_bool_decide as Hc; [|done]. injection Hs as <-. destruct Hc as [Hw Hc].
    assert (Hn : forall x, n_closed (node_of (mkMesh (<[z := uninstallRuntime (the_other z ends) rt
      (node_of m z)]> (m_nodes m)) (m_links m) (m_closed m) (m_lost m) (m_pending m) (m_loops m)) x) =
      n_closed (node_of m x)) by (intros x; by at_node x z).
    split; [done|]. unfold sole_link, holds_link. rewrite !Hn. intros Hso.
    destruct (Hh Hso) as (Hlc & Hpa & Hpb). split; [done|]. cbn [m_pending].
    assert (Hk : forall x q, n_runtimes (node_of m x) !! q = Some l ->
      n_runtimes (node_of (mkMesh (<[z := uninstallRuntime (the_other z ends) rt (node_of m z)]>
        (m_nodes m)) (m_links m) (m_closed m) (m_lost m) (m_pending m) (m_loops m)) x) !! q = Some l).
    { intros x q Hr. at_node x z; [|done]. cbn. case_bool_decide as Er; [|done].
      rewrite lookup_delete_ne; [done|]. intros <-. congruence. }
    naive_solver.
  - cbn in Hs. destruct (m_loops m !! i) as [lp|]; [|done]. cbn in Hs.
    destruct (lp_pc lp) as [| |rt]; try done. case_bool_decide; [|done]. by injection Hs as <-.
  - injection Hs as <-. split; [set_solver|]. unfold sole_link, holds_link. cbn.
    intros (Hl & Hu & Hlo & Ha & Hb). destruct Hh as (Hc & ? & ?); [|set_solver].
    split_and!; try done. set_solver.
  - injection Hs as <-. split; [set_solver|]. unfold sole_link, holds_link. cbn [m_links m_lost].
    intros (Hl & Hu & Hlo & Ha & Hb). revert Ha Hb.
    at_node a z; [done|]. at_node b z; [done|]. intros Ha Hb.
    destruct Hh as (Hc & ? & ?); [|set_solver]. split_and!; try done. set_solver.
Qed.

(** C11: When, of all the links between two peers, the one with the smaller
    ZenohID made exactly one, then, in whatever order the two ends install
    the links and notice teardowns, both end with that link as their
    runtime, nobody closes it, and every link the other peer made is closed.
    *)
Theorem tiebreak_agrees a b l m (Hm : reachable m) (Hab : smaller a b = true)
    (Hs : sole_link a b l m) (Ha : (a, l) ∉ m_pending m) (Hb : (b, l) ∉ m_pending m) :
  n_runtimes (node_of m a) !! b = Some l /\ n_runtimes (node_of m b) !! a = Some l /\
  (l ∉ m_closed m) /\
  (forall l', m_links m !! l' = Some (b, a) ->
     (a, l') ∉ m_pending m \/ (b, l') ∉ m_pending m -> l' ∈ m_closed m).
Proof.
  pose proof (reachable_ok m Hm) as Hok.
  assert (Ht : mesh_ok m /\ tiebreak_ok a b l m).
  { destruct Hm as (targets & acts & Hr). revert Hr.
    apply (mesh_run_ind (fun m => mesh_ok m /\ tiebreak_ok a b l m)).
    - intros act m1 m2 [H1 H2] Hst. split; [by eapply mesh_step_ok|by eapply tiebreak_step].
    - split; [apply start_mesh_ok|]. split; [cbn; set_solver|]. by intros (H & _). }
  destruct Ht as [_ [_ Hh]]. destruct (Hh Hs) as (Hc & [?|Hra] & [?|Hrb]); [done..|].
  split_and!; [done..|]. intros l' Hl' Hp.
  assert (Hne : l' <> l).
  { intros ->. destruct Hs as (Hl & _). assert (a = b) as -> by congruence.
    by apply (mo_ends _ Hok l (b, b)). }
  assert (Hz : forall z p, end_of z (b, a) -> the_other z (b, a) = p ->
    n_runtimes (node_of m z) !! p = Some l -> (z, l') ∉ m_pending m -> l' ∈ m_closed m).
  { intros z p Hz <- Hr Hnp. destruct (mo_gone _ Hok z l' (b, a)) as [?|[Hw|?]]; [done..| |done].
    destruct (mo_watching _ Hok _ _ Hw) as (e & He & _ & _ & [?|Hr']); [done|].
    simplify_eq. }
  assert (Hba : b <> a) by (by apply (mo_ends _ Hok l' (b, a))).
  destruct Hp as [Hp|Hp].
  - apply (Hz a b); [by right| |done..]. unfold the_other. by rewrite bool_decide_eq_false_2.
  - apply (Hz b a); [by left| |done..]. unfold the_other. by rewrite bool_decide_eq_true_2.
Qed.

(** Two peers with an outbound loop each; the larger also has a second link,
    as an endpoint found by scouting gives. The smaller's link is installed
    last on one side and first on the other. *)
Definition peer_a : bytes := [1; 2].
Definition peer_b : bytes := [1; 3].
Definition crossing : list action :=
  [ADial 0 0; ADial 1 1; AConnect peer_b peer_a 2;
   AInstall peer_a 1; AInstall peer_a 2; AInstall peer_a 0;
   AInstall peer_b 0; AInstall peer_b 1; AInstall peer_b 2; AUninstall peer_a 1].
Definition crossed : mesh :=
  default (start_mesh []) (mesh_run crossing (start_mesh [(peer_a, peer_b); (peer_b, peer_a)])).

Lemma run_reachable targets acts m : is_Some (mesh_run acts (start_mesh targets)) ->
  m = default (start_mesh []) (mesh_run acts (start_mesh targets)) -> reachable m.
Proof. intros [m' E] ->. exists targets, acts. by rewrite E. Qed.

Lemma tiebreak_agrees_witness :
  n_runtimes (node_of crossed peer_a) !! peer_b = Some 0%nat /\
  n_runtimes (node_of crossed peer_b) !! peer_a = Some 0%nat /\
  1%nat ∈ m_closed crossed.
Proof.
  assert (Hm : reachable crossed).
  { eapply run_reachable; [|reflexivity]. apply is_Some_alt. vm_compute. exact I. }
  assert (Hl : map_to_list (m_links crossed) =
    [(2%nat, (peer_b, peer_a)); (1%nat, (peer_b, peer_a)); (0%nat, (peer_a, peer_b))])
    by (vm_compute; reflexivity).
  assert (Hs : sole_link peer_a peer_b 0 crossed).
  { split; [vm_compute; reflexivity|]. split; [|split; [|by split]].
    - intros l' H. apply elem_of_map_to_list in H. rewrite Hl in H.
      rewrite !elem_of_cons, elem_of_nil in H. destruct H as [[=]|[[=]|[[=]|[]]]]. done.
    - refine (proj1 (bool_decide_eq_false _) _). vm_compute. reflexivity. }
  assert (Hp : (peer_a, 0%nat) ∉ m_pending crossed)
    by (refine (proj1 (bool_decide_eq_false _) _); vm_compute; reflexivity).
  assert (Hq : (peer_b, 0%nat) ∉ m_pending crossed)
    by (refine (proj1 (bool_decide_eq_false _) _); vm_compute; reflexivity).
  assert (Hr : (peer_a, 1%nat) ∉ m_pending crossed)
    by (refine (proj1 (bool_decide_eq_false _) _); vm_compute; reflexivity).
  destruct (tiebreak_agrees peer_a peer_b 0 crossed Hm eq_refl Hs Hp Hq) as (H1 & H2 & _ & H3).
  split_and!; [exact H1|exact H2|]. apply H3; [vm_compute; reflexivity|left; exact Hr].
Defined.

Lemma one_runtime_per_peer_witness :
  exists ends, m_links crossed !! 0%nat = Some ends /\ end_of peer_a ends /\
    the_other peer_a ends = peer_b.
Proof.
  apply (one_runtime_per_peer crossed peer_a peer_b); [|vm_compute; reflexivity].
  eapply run_reachable; [|reflexivity]. apply is_Some_alt. vm_compute. exact I.
Defined.

(** ** Links in the same direction

    The rule compares directions only: two links that one node made to the
    same peer are ranked by the order of their installation, which need not be
    the same at both ends. Here each end closes the link the other kept, with
    either node as the initiator. *)

Definition doubled (from to : bytes) : list action :=
  [AConnect from to 0; AConnect from to 1;
   AInstall from 0; AInstall from 1; AInstall to 1; AInstall to 0].

Lemma same_direction_closes_both :
  (fun ft => elements ∘ m_closed <$> mesh_run (doubled ft.1 ft.2) (start_mesh [])) <$>
    [(peer_a, peer_b); (peer_b, peer_a)] = replicate 2 (Some [1%nat; 0%nat]).
Proof. vm_compute. reflexivity. Qed.

(** ** Two endpoints of the same peer

    When the smaller node has two endpoints that reach the same peer, each
    loop's dial replaces the other's runtime, whose loop then dials again. *)

Definition loop_link (pc : loop_pc) : option nat :=
  match pc with LDial => None | LHandshake l | LWait l => Some l end.

Definition rival (a b : bytes) (lp : loop) : Prop := lp_owner lp = a /\ lp_peer lp = b.

(** The loop's link is being installed or is a runtime that was started. *)
Definition busy_on (a b : bytes) (m : mesh) (pc : loop_pc) (l : nat) : Prop :=
  m_links m !! l = Some (a, b) /\
  match pc with
  | LWait _ => l ∈ n_watching (node_of m a) \/ l ∈ m_closed m
  | _ => (a, l) ∈ m_pending m
  end.

Record rivals_ok (a b : bytes) (m : mesh) : Prop := {
  ri_link i lp l : m_loops m !! i = Some lp -> rival a b lp -> loop_link (lp_pc lp) = Some l ->
    busy_on a b m (lp_pc lp) l;
  ri_apart i j lp lq l : m_loops m !! i = Some lp -> m_loops m !! j = Some lq -> rival a b lp ->
    rival a b lq -> loop_link (lp_pc lp) = Some l -> loop_link (lp_pc lq) = Some l -> i = j }.

(** No loop is on a new link. *)
Lemma rivals_ok_map a b m m1 : rivals_ok a b m ->
  (forall i lp' l, m_loops m1 !! i = Some lp' -> rival a b lp' -> loop_link (lp_pc lp') = Some l ->
     exists lp, m_loops m !! i = Some lp /\ rival a b lp /\ loop_link (lp_pc lp) = Some l /\
       busy_on a b m1 (lp_pc lp') l) ->
  rivals_ok a b m1.
Proof.
  intros [_ Ha] H. constructor.
  - intros i lp l Hi Hr Hl. by destruct (H i lp l Hi Hr Hl) as (? & _ & _ & _ & ?).
  - intros i j lp lq l Hi Hj Hr Hq Hl Hl'. destruct (H i lp l) as (lp0 & ? & ? & ? & _); [done..|].
    destruct (H j lq l) as (lq0 & ? & ? & ? & _); [done..|]. by eapply (Ha i j lp0 lq0 l).
Qed.

Lemma busy_on_mono a b m m1 pc l : busy_on a b m pc l ->
  (m_links m !! l = Some (a, b) -> m_links m1 !! l = Some (a, b)) ->
  ((a, l) ∈ m_pending m -> pc = LHandshake l -> (a, l) ∈ m_pending m1) ->
  (l ∈ n_watching (node_of m a) -> l ∈ n_watching (node_of m1 a) \/ l ∈ m_closed m1) ->
  m_closed m ⊆ m_closed m1 -> loop_link pc = Some l -> busy_on a b m1 pc l.
Proof.
  intros [H1 H2] Hl Hp Hw Hc Hpc. split; [by apply Hl|].
  destruct pc as [|l'|rt]; [done|injection Hpc as ->; auto|set_solver].
Qed.

(** The loops are as before, and nothing is forgotten. *)
Lemma rivals_ok_same a b m m1 : rivals_ok a b m -> m_loops m1 = m_loops m ->
  (forall l, m_links m !! l = Some (a, b) -> m_links m1 !! l = Some (a, b)) ->
  m_pending m ⊆ m_pending m1 ->
  (forall l, l ∈ n_watching (node_of m a) -> l ∈ n_watching (node_of m1 a) \/ l ∈ m_closed m1) ->
  m_closed m ⊆ m_closed m1 -> rivals_ok a b m1.
Proof.
  intros Hok E Hl Hp Hw Hc. eapply rivals_ok_map; [exact Hok|]. rewrite E.
  intros i lp l Hi Hr Hpc. exists lp. split_and!; [done..|].
  eapply busy_on_mono; [by eapply ri_link|auto..].
Qed.

Lemma rivals_dial a b i lp link m : rivals_ok a b m -> m_loops m !! i = Some lp ->
  m_links m !! link = None ->
  rivals_ok a b (connect (lp_owner lp) (lp_peer lp) link
    (<[i := mkLoop (lp_owner lp) (lp_peer lp) (LHandshake link)]> (m_loops m)) m).
Proof.
  intros [Hl Ha] Hi Hf. set (m1 := connect _ _ _ _ _).
  assert (Hold : forall j lq l, j <> i -> m_loops m !! j = Some lq -> rival a b lq ->
    loop_link (lp_pc lq) = Some l -> l <> link).
  { intros j lq l _ Hj Hr Hq ->. destruct (Hl j lq link Hj Hr Hq). congruence. }
  constructor.
  - intros j lq l Hj Hr Hq. cbn [m_loops connect m1] in Hj. apply list_lookup_insert_Some in Hj.
    destruct Hj as [(<- & <- & _)|[Hne Hj]].
    + cbn in *. injection Hq as <-. destruct Hr as [<- <-]. split; cbn; [|set_solver].
      by rewrite lookup_insert_eq.
    + eapply busy_on_mono; [by eapply Hl|..]; try done; unfold m1; cbn; [|set_solver|by left].
      rewrite lookup_insert_ne; [done|]. intros <-. by eapply Hold.
  - intros j k lq lr l Hj Hk Hr Hr' Hq Hq'. cbn [m_loops connect m1] in Hj, Hk.
    apply list_lookup_insert_Some in Hj, Hk.
    destruct Hj as [(<- & <- & _)|[Hne Hj]], Hk as [(<- & <- & _)|[Hne' Hk]]; [done|..].
    + cbn in Hq. injection Hq as <-. exfalso. by eapply (Hold k).
    + cbn in Hq'. injection Hq' as <-. exfalso. by eapply (Hold j).
    + by eapply Ha.
Qed.

Lemma loop_result_rival a b z link pc lp : rival a b (loop_result z link pc lp) -> rival a b lp.
Proof. unfold loop_result. by case_bool_decide. Qed.

Lemma rivals_install a b z link ends r n shut m : smaller a b = true -> mesh_ok m ->
  m_links m !! link = Some ends -> (z, link) ∈ m_pending m ->
  installed (the_other z ends) link (smaller ends.1 ends.2) (node_of m z) r n shut ->
  rivals_ok a b m ->
  rivals_ok a b (mkMesh (<[z := n]> (m_nodes m)) (m_links m) (m_closed m ∪ shut) (m_lost m)
    (m_pending m ∖ {[(z, link)]})
    (loop_result z link (match r with Ok rt => LWait rt | Err _ => LDial end) <$> m_loops m)).
Proof.
  intros Hab Hok He Hin Hi Hri. set (m1 := mkMesh _ _ _ _ _ _).
  assert (Hw : forall x l, l ∈ n_watching (node_of m x) -> l ∈ n_watching (node_of m1 x)).
  { intros x l. unfold m1. at_node x z; [|done]. destruct Hi; cbn; set_solver. }
  eapply rivals_ok_map; [exact Hri|]. intros i lp' l Hi' Hr Hpc. cbn [m_loops m1] in Hi'.
  apply list_lookup_fmap_Some in Hi' as (lp & -> & Hlp). apply loop_result_rival in Hr as Hr'.
  exists lp. split; [done|]. split; [done|]. unfold loop_result in *.
  case_bool_decide as E; cbn [lp_pc] in *.
  - destruct E as [Ez Epc]. destruct (ri_link _ _ _ Hri i lp link) as [Hl _]; [done..|by rewrite Epc|].
    simplify_eq. cbn in Hi. rewrite Hab in Hi.
    destruct Hi as [| |shut Hclo Hf Hs]; try done. injection Hpc as <-. rewrite Epc.
    split; [done|]. split; [done|]. cbn. left. unfold m1. rewrite node_of_insert.
    destruct Hr' as [<- _]. rewrite bool_decide_eq_true_2 by done. cbn. set_solver.
  - split; [done|]. eapply busy_on_mono; [by eapply ri_link|done| |auto|set_solver|done].
    intros Hp Epc. unfold m1. cbn. apply elem_of_difference. split; [done|].
    rewrite elem_of_singleton. intros [= -> ->]. apply E. by destruct Hr' as [-> _].
Qed.

Lemma rivals_step a b act m m' : smaller a b = true -> mesh_ok m ->
  mesh_step act m = Some m' -> rivals_ok a b m -> rivals_ok a b m'.
Proof.
  intros Hab Hok Hs Hri. destruct act as [from to link|i link|z link|z link|z rt|i|link|z].
  - cbn in Hs. case_bool_decide; [done|]. destruct (m_links m !! link) eqn:E; [done|].
    injection Hs as <-. eapply rivals_ok_same; [exact Hri|done| |cbn; set_solver|by left|done].
    intros l Hl. cbn. rewrite lookup_insert_ne; [done|]. intros ->. congruence.
  - apply dial_split in Hs as (lp & Hi & _ & _ & _ & Hf & ->). by apply rivals_dial.
  - apply install_split in Hs as (ends & r & n & shut & He & Hin & _ & Hi & ->); [|done].
    by eapply rivals_install.
  - cbn in Hs. case_bool_decide as Hp; [|done]. injection Hs as <-. destruct Hp as [_ Hc].
    eapply rivals_ok_map; [exact Hri|]. intros i lp' l Hi' Hr Hpc. cbn [m_loops] in Hi'.
    apply list_lookup_fmap_Some in Hi' as (lp & -> & Hlp). apply loop_result_rival in Hr as Hr'.
    exists lp. split; [done|]. split; [done|]. unfold loop_result in *.
    case_bool_decide as E; [done|]. split; [done|].
    eapply busy_on_mono; [by eapply ri_link|done| |by left|done|done]. intros Hp Epc. cbn.
    apply elem_of_difference. split; [done|]. rewrite elem_of_singleton. intros [= -> ->].
    apply E. by destruct Hr' as [-> _].
  - cbn in Hs. destruct (m_links m !! rt) as [ends|] eqn:He; [|done]. cbn in Hs.
    case_bool_decide as Hc; [|done]. injection Hs as <-. destruct Hc as [Hw Hc].
    eapply rivals_ok_same; [exact Hri|done|done|done| |done]. intros l Hl. at_node a z; [|by left].
    cbn. destruct (decide (l = rt)) as [->|]; [by right|left; set_solver].
  - cbn in Hs. destruct (m_loops m !! i) as [lp|] eqn:Ei; [|done]. cbn in Hs.
    destruct (lp_pc lp) as [| |rt]; try done. case_bool_decide; [|done]. injection Hs as <-.
    eapply rivals_ok_map; [exact Hri|]. intros j lq l Hj Hr Hpc. cbn [m_loops] in Hj.
    apply list_lookup_insert_Some in Hj as [(<- & <- & _)|[Hne Hj]]; [done|].
    exists lq. split_and!; try done. destruct (ri_link _ _ _ Hri j lq l) as [H1 H2]; done.
  - injection Hs as <-. eapply rivals_ok_same; try done; cbn; [by left|set_solver].
  - injection Hs as <-. eapply rivals_ok_same; try done; cbn; [|set_solver].
    intros l. at_node a z; by left.
Qed.

(** What the node does by itself: neither a failure, a Close, nor a new
    connection of someone else. *)
Definition own_action (act : action) : bool :=
  match act with AConnect _ _ _ | AFail _ | AClose _ => false | _ => true end.

(** While the smaller node is open and has two loops for the same peer, the
    mesh never comes to rest. *)
Lemma two_endpoints_never_settle a b m i j lp lq : reachable m -> smaller a b = true ->
  n_closed (node_of m a) = false -> i <> j -> m_loops m !! i = Some lp ->
  m_loops m !! j = Some lq -> rival a b lp -> rival a b lq ->
  exists act, own_action act = true /\ is_Some (mesh_step act m).
Proof.
  intros Hm Hab Hopen Hij Hi Hj Hr Hr'. pose proof (reachable_ok m Hm) as Hok.
  assert (Hri : rivals_ok a b m).
  { destruct Hm as (targets & acts & Hrun). revert Hrun.
    apply (mesh_run_ind (fun m => mesh_ok m /\ rivals_ok a b m)).
    - intros act m1 m2 [H1 H2] Hst. split; [by eapply mesh_step_ok|by eapply rivals_step].
    - split; [apply start_mesh_ok|]. constructor; cbn; intros *.
      + intros (t & -> & _)%list_lookup_fmap_Some. done.
      + intros (t & -> & _)%list_lookup_fmap_Some. done. }
  assert (Hab' : a <> b).
  { intros ->. unfold smaller in Hab. rewrite Z.ltb_lt in Hab.
    pose proof (bytes_Compare_flip b b). lia. }
  (* a loop that is not waiting for an open runtime can go on *)
  assert (Hgo : forall k lk, m_loops m !! k = Some lk -> rival a b lk ->
    (exists act, own_action act = true /\ is_Some (mesh_step act m)) \/
    exists l, lp_pc lk = LWait l /\ n_runtimes (node_of m a) !! b = Some l).
  { intros k lk Hk [Ho Hpe]. destruct (lp_pc lk) as [|l|l] eqn:Epc.
    - left. set (l := fresh (dom (m_links m))).
      assert (Hf : m_links m !! l = None) by apply not_elem_of_dom, is_fresh.
      exists (ADial k l). split; [done|]. cbn. rewrite Hk. cbn. rewrite Epc, Ho, Hpe, Hopen, Hf.
      rewrite !bool_decide_eq_true_2, bool_decide_eq_false_2 by done. by eexists.
    - left. destruct (ri_link _ _ _ Hri k lk l) as [Hl Hp]; [done|done|by rewrite Epc|].
      rewrite Epc in Hp. exists (AInstall a l). split; [done|]. unfold mesh_step. rewrite Hl.
      cbn [mbind option_bind]. rewrite bool_decide_eq_true_2 by done.
      destruct (startRuntimeForPeer _ _ _ _ _) as [[? ?] ?]. by eexists.
    - destruct (ri_link _ _ _ Hri k lk l) as [Hl Hp]; [done|done|by rewrite Epc|].
      rewrite Epc in Hp. destruct (decide (l ∈ m_closed m)) as [Hc|Hc].
      + left. exists (ARedial k). split; [done|]. cbn. rewrite Hk. cbn. rewrite Epc.
        rewrite bool_decide_eq_true_2 by done. by eexists.
      + right. exists l. split; [done|]. destruct Hp as [Hw|]; [|done].
        destruct (mo_watching _ Hok a l Hw) as (e & He & _ & _ & [?|Hrt]); [done|].
        simplify_eq. unfold the_other in Hrt. by rewrite bool_decide_eq_true_2 in Hrt. }
  destruct (Hgo i lp) as [?|(l & Hl & Hrl)]; [done..|].
  destruct (Hgo j lq) as [?|(l' & Hl' & Hrl')]; [done..|]. exfalso. apply Hij.
  eapply (ri_apart _ _ _ Hri i j lp lq l); rewrite ?Hl, ?Hl'; try done. cbn. congruence.
Qed.

(** With one endpoint on each side the same nodes are at rest in [crossed]. *)
Lemma crossed_at_rest : m_loops crossed =
  [mkLoop peer_a peer_b (LWait 0); mkLoop peer_b peer_a (LWait 0)].
Proof. vm_compute. reflexivity. Qed.
