(* ===== verification/Scouting.v ===== *)
(** * internal/scout and zenoh/scout.go: finding other nodes

    What a scouter sends, how it reads the HELLOs that come back on its
    sockets and which of them it reports, the options of a Scout call, and
    what peer mode does with a report (session_peer.go). Sockets are the
    sequence of the datagrams read from them; an address is printed by the
    [net] package. *)
From S2P Require Import Prelude Buffer Codec WirePrim WireTransport Transport Dispatch Messages Reconnect.
From S2P Require Import Config Locator.

(** ** common.go: identifiers as text *)

(** [hex.DecodeString] and [hex.EncodeToString] *)
Definition hex_value (b : Z) : option Z :=
  if (48 <=? b) && (b <=? 57) then Some (b - 48)
  else if (97 <=? b) && (b <=? 102) then Some (b - 97 + 10)
  else if (65 <=? b) && (b <=? 70) then Some (b - 65 + 10)
  else None.
Fixpoint hex_DecodeString (s : bytes) : result bytes :=
  match s with
  | [] => Ok []
  | [b] => match hex_value b with
           | Some _ => Err (ErrMsg "encoding/hex: odd length hex string")
           | None => Err (ErrMsg "encoding/hex: invalid byte")
           end
  | a :: b :: s =>
      match hex_value a, hex_value b with
      | Some x, Some y => l ← hex_DecodeString s; mret (16 * x + y :: l)
      | _, _ => Err (ErrMsg "encoding/hex: invalid byte")
      end
  end.
Definition hex_digit (v : Z) : Z := if v <? 10 then 48 + v else 97 + (v - 10).
Definition hex_EncodeToString (s : bytes) : bytes := b ← s; [hex_digit (b / 16); hex_digit (b mod 16)].

Definition NewIdFromBytes (b : bytes) : result ZenohID :=
  if (len b =? 0) || (len b >? 16) then Err (ErrMsg "zenoh: Id length must be 1..16")
  else Ok (mkZID b).
Definition NewIdFromHex (s : bytes) : result ZenohID :=
  match hex_DecodeString s with
  | Err e => Err (ErrWrap "zenoh: Id hex decode" e)
  | Ok b => NewIdFromBytes b
  end.
Definition Id_String (id : ZenohID) : bytes := hex_EncodeToString (zid_bytes id).

(** ** internal/scout/scout.go *)

Definition readBufSize : nat := 4096.
Definition DefaultMulticastAddressV4 : bytes := str "224.0.0.224:7446".
(** Durations are nanoseconds. *)
Definition DefaultTimeout : Z := 3 * 1000000000.
Definition DefaultInterval : Z := 1000000000.

(** The [Hello] of the package, after decoding. *)
Record ScoutHello := mkScoutHello { h_WhatAmI : Z; h_ZID : ZenohID; h_Locators : list bytes }.

Definition synthesised (src : bytes) : bytes := Locator_String (mkLocator SchemeUDP src ∅).

Definition decode_message : RM Hello :=
  h ← wrap "decode header" DecodeHeader;
  guard_err (negb (hID h =? IDScoutHello)) (ErrMsg "expected HELLO id");;
  DecodeHello h.

Definition decodeHello (buf src : bytes) : result ScoutHello :=
  match decode_message (NewReader buf) with
  | Err e => Err e
  | Ok (msg, _) =>
      Ok (mkScoutHello (heWhatAmI msg) (heZID msg)
            (if is_nil (heLocators msg) then [synthesised src] else heLocators msg))
  end.

(** [d_delivered] are the calls of [deliver]. *)
Record dispatcher := mkDispatcher {
  d_seen : gset (list Z); d_selfZID : ZenohID; d_delivered : list ScoutHello }.

Definition newDispatcher (selfZID : ZenohID) : dispatcher := mkDispatcher ∅ selfZID [].

Definition tryDeliver (h : ScoutHello) (d : dispatcher) : dispatcher :=
  if ZenohID_IsValid (d_selfZID d) && ZenohID_Equal (h_ZID h) (d_selfZID d) then d
  else let key := zid_bytes (h_ZID h) in
       if bool_decide (key ∈ d_seen d) then d
       else mkDispatcher ({[key]} ∪ d_seen d) (d_selfZID d) (d_delivered d ++ [h]).

(** One datagram: its source, and its bytes as the buffer cuts them. *)
Definition readLoop_step (d : dispatcher) (datagram : bytes * bytes) : dispatcher :=
  match decodeHello (take readBufSize datagram.2) datagram.1 with
  | Err _ => d
  | Ok h => tryDeliver h d
  end.

(** The read loops of all sockets, in the order in which their datagrams reach
    the mutex. *)
Definition readLoop (datagrams : list (bytes * bytes)) (d : dispatcher) : dispatcher :=
  fold_left readLoop_step datagrams d.

Definition encodeScout (zid : ZenohID) (matcher : Z) : result bytes :=
  EncodeNetworkMessage (mkScout ProtoVersion matcher zid []).

Definition scoutMulticastAddress (addr : bytes) : bytes :=
  if is_nil addr then DefaultMulticastAddressV4 else addr.

Record Options {Interface : Type} := mkOptions {
  MulticastEnabled : bool; MulticastAddress : bytes; MulticastInterface : option Interface;
  MulticastTTL : Z; MulticastListen : bool; UnicastAddresses : list bytes; Matcher : Z;
  ZID : ZenohID; Interval : Z; Timeout : Z }.
Arguments Options : clear implicits.
Arguments mkOptions {Interface}.

(** The defaults at the start of [Run]: interval, timeout (none when not
    positive), matcher and the multicast group (none when empty). *)
Definition Run_defaults {I} (o : Options I) : Z * Z * Z * bytes :=
  (if Interval o <=? 0 then DefaultInterval else Interval o,
   if Timeout o =? 0 then DefaultTimeout else Timeout o,
   if Matcher o =? 0 then MatcherAny else Matcher o,
   if negb (MulticastEnabled o) && negb (MulticastListen o) then []
   else scoutMulticastAddress (MulticastAddress o)).

(** ** zenoh/scout.go *)

Definition WhatAny : Z := Z.lor (Z.lor WhatRouter WhatPeer) WhatClient.
Definition WhatDefault : Z := Z.lor WhatRouter WhatPeer.

Record ScoutOptions := mkScoutOptions { so_TimeoutMs : Z; so_What : Z }.

Section Build.
Context {Interface : Type} (InterfaceByName : bytes -> result Interface).

Definition unicast_of (ep : bytes) : option bytes :=
  match Locator_Parse ep with
  | Ok loc => if bool_decide (loc_Scheme loc = SchemeUDP) then Some (loc_Address loc) else None
  | Err _ => None
  end.

Definition buildScoutOptions (config : Config) (options : option ScoutOptions) :
    result (Options Interface) :=
  let options := default (mkScoutOptions 0 0) options in
  let what := if so_What options =? 0 then WhatDefault else so_What options in
  if negb (Z.ldiff what WhatAny =? 0) then Err (ErrMsg "zenoh: Scout What has invalid bits")
  else
    let unicast := omap unicast_of (Endpoints config) in
    let sc := Scouting config in
    let mcastAddr := default (sc_MulticastAddress sc) (unicast_of (sc_MulticastAddress sc)) in
    match (if is_nil (cfg_ZID config) then Ok (mkZID []) else NewIdFromHex (cfg_ZID config)) with
    | Err e => Err (ErrWrap "zenoh: Scout invalid ZID" e)
    | Ok zid =>
        let timeout := Retry.ms_duration (so_TimeoutMs options) in
        let timeout := if timeout =? 0 then sc_Timeout sc else timeout in
        match (if is_nil (sc_MulticastInterface sc) then Ok None
               else Some <$> InterfaceByName (sc_MulticastInterface sc)) with
        | Err e => Err (ErrWrap "zenoh: Scout interface" e)
        | Ok iface =>
            Ok (mkOptions (match sc_MulticastMode sc with MulticastOff => false | _ => true end) mcastAddr iface
                  (sc_MulticastTTL sc) (sc_MulticastListen sc) unicast what zid 0 timeout)
        end
    end.
End Build.

(** ** session_peer.go *)

(** Whether [onHello] starts to dial; [connected] is [RuntimeFor(zid) != nil]. *)
Definition onHello (mask : Z) (myZID : ZenohID) (connected : bytes -> bool) (h : ScoutHello) : bool :=
  if Z.land (uint8 (Z.shiftl 1 (h_WhatAmI h))) mask =? 0 then false
  else if ZenohID_Equal (h_ZID h) myZID then false
  else negb (connected (zid_bytes (h_ZID h))).

(** [dialDiscoveredPeer]: the locators dialled. Before the [n]-th, [closing n]
    tells whether the session is closed and [connected n] whether the peer has
    a runtime; [dial] is [dialOneAndRun]. *)
Fixpoint dialDiscoveredPeer (closing connected : nat -> bool) (dial : nat -> bytes -> bool) (n : nat)
    (locs : list bytes) : list bytes :=
  match locs with
  | [] => []
  | ep :: locs =>
      if closing n || connected n then []
      else if dial n ep then [ep]
      else ep :: dialDiscoveredPeer closing connected dial (S n) locs
  end.

(** ** Reading a HELLO *)

(** What a HELLO sent from [src] is reported as. *)
Definition report (src : bytes) (m : Hello) : ScoutHello :=
  mkScoutHello (heWhatAmI m) (heZID m)
    (match heLocators m with [] => [str "udp/" ++ src] | l => l end).

(** Bytes after the HELLO do not matter. *)
Lemma decodeHello_sent m e rest src : wf_Hello m -> EncodeNetworkMessage m = Ok e ->
  decodeHello (e ++ rest) src = Ok (report src m).
Proof.
  intros Hwf He. destruct (encode_sent m rest ltac:(by_eval) Hwf) as (e' & He' & Hr).
  rewrite He in He'. injection He' as <-. unfold receives, receive_msg in Hr.
  unfold decodeHello, decode_message.
  apply stm_bind_Ok in Hr as (h & r & Hh & Hr).
  assert (Hid : hID h = IDScoutHello).
  { destruct (Z.eq_dec (hID h) IDScoutHello) as [E|E]; [done|exfalso].
    pose proof (msg_reject (T := Hello) h r E) as Hrej. by rewrite Hr in Hrej. }
  rewrite (stm_bind_step _ _ _ h r) by (by apply wrap_Ok). rewrite Hid.
  rewrite (stm_bind_step _ _ _ tt r) by done. cbn [decode_msg Hello_WireMessage] in Hr. rewrite Hr.
  unfold report. by destruct (heLocators m).
Qed.

(** ** Reports *)

Definition self (myZID : ZenohID) (h : ScoutHello) : bool :=
  ZenohID_IsValid myZID && ZenohID_Equal (h_ZID h) myZID.

Definition key_of (h : ScoutHello) : bytes := zid_bytes (h_ZID h).

(** [out] are the first HELLO of each node but ourselves, in order. *)
Record first_reports (myZID : ZenohID) (heard out : list ScoutHello) : Prop := {
  fr_order : out `sublist_of` heard;
  fr_once : NoDup (key_of <$> out);
  fr_others : Forall (fun h => self myZID h = false) out;
  fr_first i h : heard !! i = Some h -> self myZID h = false ->
    exists j h', (j <= i)%nat /\ heard !! j = Some h' /\ h' ∈ out /\ key_of h' = key_of h /\
      forall k x, heard !! k = Some x -> key_of x = key_of h -> (j <= k)%nat }.

Record reported (myZID : ZenohID) (heard : list ScoutHello) (d : dispatcher) : Prop := {
  rp_self : d_selfZID d = myZID;
  rp_seen k : k ∈ d_seen d <-> k ∈ key_of <$> d_delivered d;
  rp_first : first_reports myZID heard (d_delivered d) }.

Lemma self_key myZID h h' : key_of h = key_of h' -> self myZID h = self myZID h'.
Proof. unfold self, ZenohID_Equal, key_of. by intros ->. Qed.

Lemma first_reports_keep myZID heard out h : first_reports myZID heard out ->
  (self myZID h = true \/ key_of h ∈ key_of <$> out) -> first_reports myZID (heard ++ [h]) out.
Proof.
  intros [H1 H2 H3 H4] Hh. constructor; [by apply sublist_inserts_r|done|done|].
  assert (Hold : forall i x, heard !! i = Some x -> self myZID x = false ->
    exists j h', (j <= i)%nat /\ (heard ++ [h]) !! j = Some h' /\ h' ∈ out /\ key_of h' = key_of x /\
      forall k y, (heard ++ [h]) !! k = Some y -> key_of y = key_of x -> (j <= k)%nat).
  { intros i x Hi Hs. destruct (H4 i x Hi Hs) as (j & h' & Hj & Hjh & Ho & Hk & Hmin).
    exists j, h'. split_and!; [done|by apply lookup_app_l_Some|done|done|].
    intros k y Hy Hyk. apply lookup_app_Some in Hy as [Hy|[Hle _]]; [by eapply Hmin|].
    pose proof (lookup_lt_Some _ _ _ Hjh). lia. }
  intros i x Hi Hs. apply lookup_app_Some in Hi as [Hi|[Hle Hi]]; [by eapply Hold|].
  apply list_lookup_singleton_Some in Hi as [Hi <-]. destruct Hh as [Hh|Hh]; [congruence|].
  apply list_elem_of_fmap in Hh as (y & Hy & Hyo).
  assert (Hyh : y ∈ heard) by (by eapply elem_of_sublist).
  apply list_elem_of_lookup in Hyh as (j & Hj).
  rewrite (self_key _ _ _ Hy) in Hs. destruct (Hold j y Hj Hs) as (j' & h' & Hj' & H & Ho & Hk & Hmin).
  exists j', h'. rewrite Hy. pose proof (lookup_lt_Some _ _ _ Hj). split_and!; [lia|done..].
Qed.

Lemma first_reports_new myZID heard out h : first_reports myZID heard out ->
  self myZID h = false -> key_of h ∉ key_of <$> out ->
  first_reports myZID (heard ++ [h]) (out ++ [h]).
Proof.
  intros [H1 H2 H3 H4] Hs Hn. constructor.
  - by apply sublist_app.
  - rewrite fmap_app. apply NoDup_app. split; [done|]. split; [|apply NoDup_singleton].
    intros x Hx Hx'. apply list_elem_of_singleton in Hx' as ->. by apply Hn.
  - apply Forall_app. split; [done|]. by constructor.
  - intros i x Hi Hsx. apply lookup_app_Some in Hi as [Hi|[Hle Hi]].
    + destruct (H4 i x Hi Hsx) as (j & h' & Hj & Hjh & Ho & Hk & Hmin). exists j, h'.
      split_and!; [done|by apply lookup_app_l_Some|set_solver|done|].
      intros k y Hy Hyk. apply lookup_app_Some in Hy as [Hy|[Hle _]]; [by eapply Hmin|].
      pose proof (lookup_lt_Some _ _ _ Hjh). lia.
    + apply list_lookup_singleton_Some in Hi as [Hi <-].
      assert (i = length heard) as -> by lia. exists (length heard), h.
      split_and!; [done|by rewrite list_lookup_middle|set_solver|done|].
      intros k y Hy Hyk. apply lookup_app_Some in Hy as [Hy|[Hle2 _]]; [|done]. exfalso.
      destruct (H4 k y Hy) as (j & h' & _ & _ & Ho & Hk & _); [by rewrite (self_key _ _ _ Hyk)|].
      apply Hn. rewrite <- Hyk, <- Hk. apply list_elem_of_fmap. by exists h'.
Qed.

Lemma tryDeliver_reported myZID heard d h : reported myZID heard d ->
  reported myZID (heard ++ [h]) (tryDeliver h d).
Proof.
  intros [Hself Hseen Hf]. unfold tryDeliver. rewrite Hself. fold (self myZID h).
  destruct (self myZID h) eqn:Es.
  - constructor; [done|done|]. apply first_reports_keep; [done|by left].
  - fold (key_of h). case_bool_decide as Hin.
    + constructor; [done|done|]. apply first_reports_keep; [done|]. right. by apply Hseen.
    + constructor; cbn; [done| |].
      * intros k. rewrite fmap_app. cbn. rewrite elem_of_union, elem_of_app, Hseen. set_solver.
      * apply first_reports_new; [done|done|]. by rewrite <- Hseen.
Qed.

(** What is heard in one datagram: the HELLO the buffer decodes to, if it does. *)
Definition hears (datagram : bytes * bytes) : option ScoutHello :=
  match decodeHello (take readBufSize datagram.2) datagram.1 with Ok h => Some h | Err _ => None end.

Arguments readBufSize : simpl never.

(** A HELLO that fits into the buffer is heard, whatever follows it. *)
Lemma hears_sent m e rest src : wf_Hello m -> EncodeNetworkMessage m = Ok e ->
  (length e <= readBufSize)%nat -> hears (src, e ++ rest) = Some (report src m).
Proof.
  intros Hwf He Hl. unfold hears. cbn [fst snd].
  by rewrite take_app_ge, (decodeHello_sent m) by done.
Qed.

Lemma readLoop_reported datagrams : forall myZID heard d, reported myZID heard d ->
  reported myZID (heard ++ omap hears datagrams) (readLoop datagrams d).
Proof.
  induction datagrams as [|dg datagrams IH]; intros myZID heard d Hd; [by rewrite app_nil_r|].
  unfold readLoop. cbn [fold_left omap list_omap].
  fold (readLoop datagrams (readLoop_step d dg)).
  unfold readLoop_step, hears at 1. destruct (decodeHello _ _) as [h|]; [|by apply IH].
  rewrite cons_middle, app_assoc. by apply IH, tryDeliver_reported.
Qed.

Lemma reported_new myZID : reported myZID [] (newDispatcher myZID).
Proof. constructor; [done|set_solver|]. constructor; [done|constructor|constructor|done]. Qed.

(** Whatever datagrams reach the sockets of a scouter, it reports
    exactly the first HELLO of each node other than itself, in order, with
    its role, its identifier and its locators, or the source of the datagram
    when it gave none; anything else is skipped. *)
Theorem scout_reports myZID datagrams :
  first_reports myZID (omap hears datagrams) (d_delivered (readLoop datagrams (newDispatcher myZID))).
Proof. apply (readLoop_reported datagrams myZID []), reported_new. Qed.

(** Three datagrams: garbage, a HELLO without locators, and a later one of the
    same node with a locator: the first is reported, with its source. *)
Definition sample_hello (locs : list bytes) : Hello := mkHello ProtoVersion WhatAmIPeer (mkZID [7]) locs [].
Definition sample_datagram (locs : list bytes) : bytes :=
  match EncodeNetworkMessage (sample_hello locs) with Ok e => e | Err _ => [] end.

Example scout_reports_sample :
  let datagrams := [(str "a:1", [0]); (str "b:2", sample_datagram [] ++ [255]);
                    (str "b:2", sample_datagram [str "tcp/b:3"])] in
  d_delivered (readLoop datagrams (newDispatcher (mkZID [1])))
  = [mkScoutHello WhatAmIPeer (mkZID [7]) [str "udp/b:2"]].
Proof. by vm_compute. Qed.

(** ** What peer mode does with the reports *)

(** A node is dialled for at most one of its HELLOs, however its links fare
    later and whatever the other HELLOs offer. *)
Lemma dialled_once mask myZID connected heard out : first_reports myZID heard out ->
  NoDup (key_of <$> filter (fun h => onHello mask myZID connected h = true) out).
Proof.
  intros [_ H _ _]. revert H. induction out as [|h out IH]; [done|].
  rewrite fmap_cons, NoDup_cons, filter_cons. intros [Hn H]. case_decide; [|by apply IH].
  rewrite fmap_cons, NoDup_cons. split; [|by apply IH].
  intros (y & Hy & Hyo)%list_elem_of_fmap. apply list_elem_of_filter in Hyo as [_ Hyo].
  apply Hn, list_elem_of_fmap. eauto.
Qed.

(** The locators are dialled in order, up to the first that works; without a
    Close or another link to the peer, all of them if none does. *)
Lemma dialDiscoveredPeer_spec closing connected dial locs n :
  let tried := dialDiscoveredPeer closing connected dial n locs in
  tried `prefix_of` locs /\
  (forall i ep, tried !! i = Some ep -> dial (n + i)%nat ep = true -> S i = length tried) /\
  ((forall k, closing k || connected k = false) -> (forall k ep, dial k ep = false) -> tried = locs).
Proof.
  revert n. induction locs as [|ep locs IH]; intros n tried; [by split_and!|]. subst tried.
  cbn [dialDiscoveredPeer]. destruct (closing n || connected n) eqn:Ec.
  { split_and!; [apply prefix_nil|done|]. intros H. by rewrite H in Ec. }
  destruct (dial n ep) eqn:Ed.
  - split_and!; [by apply prefix_cons, prefix_nil| |].
    + by intros [|i] x; [|by destruct i].
    + intros _ H. by rewrite H in Ed.
  - destruct (IH (S n)) as (H1 & H2 & H3). split_and!.
    + by apply prefix_cons.
    + intros [|i] x; cbn.
      * intros [= <-]. rewrite Nat.add_0_r. congruence.
      * intros Hi Hd. f_equal. apply (H2 i x Hi). by rewrite Nat.add_succ_comm.
    + intros Hc Hd. f_equal. by apply H3.
Qed.

(** ** Identifiers *)

Lemma hex_value_digit v : 0 <= v < 16 -> hex_value (hex_digit v) = Some v.
Proof. revert v. by_range 16%nat. Qed.

(** An identifier is read back from its text. *)
Lemma NewIdFromHex_String id : wf_zid id -> Forall is_byte (zid_bytes id) ->
  NewIdFromHex (Id_String id) = Ok id.
Proof.
  destruct id as [b]. unfold NewIdFromHex, Id_String, wf_zid. cbn [zid_bytes]. intros Hlen Hb.
  assert (E : hex_DecodeString (hex_EncodeToString b) = Ok b).
  { clear Hlen. induction Hb as [|x b Hx _ IH]; [done|]. unfold is_byte in Hx. cbn.
    rewrite !hex_value_digit by (split; [apply Z.div_pos || apply Z.mod_pos_bound|
      apply Z.div_lt_upper_bound || apply Z.mod_pos_bound]; lia).
    unfold hex_EncodeToString in IH. cbn in IH. rewrite IH. cbn.
    do 2 f_equal. pose proof (Z.div_mod x 16). lia. }
  rewrite E. unfold NewIdFromBytes. rewrite (proj2 (Z.eqb_neq _ _)) by lia.
  destruct (Z.gtb_spec (len b) 16); [lia|done].
Qed.
