(* ===== verification/ScoutRun.v ===== *)
(** * internal/scout/scout.go, src/zenoh/scout.go: the goroutines of a scouter

    [Run] from the start of its goroutines to its end, in a call of [Scout]:
    the loops that send SCOUT, one per address family, the read loops of all
    sockets with the dispatcher they share, the goroutine that wakes them when
    the context ends, and the caller, which waits for all of them, closes the
    sockets and drops the user's handler.  What a datagram does to the
    dispatcher is [Scouting]'s, the sockets are those of [Sockets]. *)
From S2P Require Import Prelude WirePrim WireTransport Transport Dispatch Messages Scouting.

(** [SdSend]: the targets left of a round. *)
Inductive send_pc := SdSend (left : nat) | SdSelect | SdGone.
Inductive recv_pc := RdRead | RdGot (datagram : bytes * bytes) | RdGone.
(** [MnWait]: [wg.Wait]; [MnClose]: the deferred [CloseAll]; [MnDrop]: [drop]. *)
Inductive scout_main := MnWait | MnClose | MnDrop | MnGone.

#[export] Instance send_pc_eq_dec : EqDecision send_pc.
Proof. solve_decision. Defined.
#[export] Instance recv_pc_eq_dec : EqDecision recv_pc.
Proof. solve_decision. Defined.

#[export] Instance scout_main_eq_dec : EqDecision scout_main.
Proof. solve_decision. Defined.

(** [sr_done]: the context has ended; [sr_watch]: the goroutine that waits for
    it; [sr_expired]: the read deadlines; [sr_handled]: the datagrams handled,
    in the order of the mutex; [sr_drops]: the calls of [drop]. *)
Record scouter := mkScouter {
  sr_disp : dispatcher; sr_handled : list (bytes * bytes); sr_done : bool; sr_watch : bool; sr_expired : bool;
  sr_senders : list send_pc; sr_readers : list recv_pc; sr_open : bool; sr_main : scout_main; sr_drops : nat }.

Inductive scout_action :=
  | AcSender (i : nat) | AcReader (i : nat) | AcWatch | AcMain
  | AcTick (i : nat) | AcDatagram (i : nat) (datagram : bytes * bytes) | AcReadError (i : nat) | AcEnd.

Section Run.
(** The number of targets of each send loop. *)
Context (targets : list nat).

Definition sendLoop_step (done open : bool) (p : send_pc) : option send_pc :=
  match p with
  | SdSend (S k) => Some (if open : bool then SdSend k else SdGone)
  | SdSend O => Some SdSelect
  | SdSelect => if done : bool then Some SdGone else None
  | SdGone => None
  end.

Definition all_gone (s : scouter) : bool :=
  forallb (fun p => bool_decide (p = SdGone)) (sr_senders s) &&
  forallb (fun p => bool_decide (p = RdGone)) (sr_readers s) && negb (sr_watch s).

Definition scout_act (a : scout_action) (s : scouter) : option scouter :=
  let '(mkScouter d h dn wt ex sd rd op mn dr) := s in
  match a with
  | AcSender i =>
      p ← sd !! i; p ← sendLoop_step dn op p; Some (mkScouter d h dn wt ex (<[i := p]> sd) rd op mn dr)
  | AcReader i =>
      p ← rd !! i;
      match p with
      | RdGot dg => Some (mkScouter (readLoop_step d dg) (h ++ [dg]) dn wt ex sd (<[i := RdRead]> rd) op mn dr)
      | RdRead =>
          if ex || negb op then Some (mkScouter d h dn wt ex sd (<[i := RdGone]> rd) op mn dr) else None
      | RdGone => None
      end
  | AcWatch => if wt && dn then Some (mkScouter d h dn false true sd rd op mn dr) else None
  | AcMain =>
      match mn with
      | MnWait => if all_gone s then Some (mkScouter d h dn wt ex sd rd op MnClose dr) else None
      | MnClose => Some (mkScouter d h true wt ex sd rd false MnDrop dr)
      | MnDrop => Some (mkScouter d h dn wt ex sd rd op MnGone (S dr))
      | MnGone => None
      end
  | AcTick i =>
      p ← sd !! i; n ← targets !! i;
      match p with SdSelect => Some (mkScouter d h dn wt ex (<[i := SdSend n]> sd) rd op mn dr) | _ => None end
  | AcDatagram i dg =>
      p ← rd !! i;
      match p with
      | RdRead => if ex || negb op then None else Some (mkScouter d h dn wt ex sd (<[i := RdGot dg]> rd) op mn dr)
      | _ => None
      end
  | AcReadError i =>
      p ← rd !! i;
      match p with RdRead => Some (mkScouter d h dn wt ex sd (<[i := RdGone]> rd) op mn dr) | _ => None end
  | AcEnd => Some (mkScouter d h true wt ex sd rd op mn dr)
  end.

Fixpoint scout_acts (acts : list scout_action) (s : scouter) : option scouter :=
  match acts with
  | [] => Some s
  | a :: acts => scout_act a s ≫= scout_acts acts
  end.

(** The goroutines have started, with [conns] sockets. *)
Definition start_scouter (myZID : ZenohID) (conns : nat) : scouter :=
  mkScouter (newDispatcher myZID) [] false true false (SdSend <$> targets) (replicate conns RdRead) true MnWait 0.

(** ** The invariant *)

Definition main_left (m : scout_main) : nat := match m with MnGone => 1 | _ => 0 end.

Record scouter_ok (myZID : ZenohID) (s : scouter) : Prop := {
  so_disp : sr_disp s = readLoop (sr_handled s) (newDispatcher myZID);
  so_targets : length (sr_senders s) = length targets;
  so_gone : sr_main s <> MnWait -> all_gone s = true;
  so_watch : sr_watch s = false -> sr_expired s = true;
  so_open : sr_open s = true <-> sr_main s = MnWait \/ sr_main s = MnClose;
  so_drops : sr_drops s = main_left (sr_main s) }.

Lemma all_are {A} `{EqDecision A} (x : A) l : forallb (fun p => bool_decide (p = x)) l = true <-> Forall (fun p => p = x) l.
Proof.
  induction l as [|y l IH]; cbn; [by split|].
  by rewrite andb_true_iff, bool_decide_eq_true, Forall_cons, IH.
Qed.

Lemma all_gone_spec s : all_gone s = true <->
  Forall (fun p => p = SdGone) (sr_senders s) /\ Forall (fun p => p = RdGone) (sr_readers s) /\ sr_watch s = false.
Proof. unfold all_gone. rewrite !andb_true_iff, negb_true_iff, !all_are. tauto. Qed.

Lemma still_gone {A} (g : A) l i p : Forall (fun p => p = g) l -> l !! i = Some p -> p = g.
Proof. intros H Hi. by apply (Forall_lookup_1 _ _ _ _ H Hi). Qed.

Lemma scouter_ok_start myZID conns : scouter_ok myZID (start_scouter myZID conns).
Proof. constructor; cbn; try done; [by rewrite length_fmap|split; auto]. Qed.

Lemma scout_act_ok myZID a s s' : scouter_ok myZID s -> scout_act a s = Some s' -> scouter_ok myZID s'.
Proof.
  intros [H1 H2 H3 H4 H5 H6] Ha. destruct s as [d h dn wt ex sd rd op mn dr]. cbn in H1, H2, H4, H5, H6.
  assert (Hg : mn <> MnWait -> Forall (fun p => p = SdGone) sd /\ Forall (fun p => p = RdGone) rd /\ wt = false)
    by (intros H; by apply (all_gone_spec (mkScouter d h dn wt ex sd rd op mn dr)), H3).
  assert (Hsd : forall i p, sd !! i = Some p -> p <> SdGone -> mn = MnWait).
  { intros i p Hi Hp. destruct (decide (mn = MnWait)) as [|Hn]; [done|]. by destruct Hp, (still_gone _ _ _ _ (proj1 (Hg Hn)) Hi). }
  assert (Hrd : forall i p, rd !! i = Some p -> p <> RdGone -> mn = MnWait).
  { intros i p Hi Hp. destruct (decide (mn = MnWait)) as [|Hn]; [done|].
    by destruct Hp, (still_gone _ _ _ _ (proj1 (proj2 (Hg Hn))) Hi). }
  destruct a as [i|i| | |i|i dg|i|]; cbn [scout_act] in Ha.
  - destruct (sd !! i) as [p|] eqn:Ei; [|done]. cbn [mbind option_bind] in Ha.
    destruct (sendLoop_step dn op p) as [p'|] eqn:Ep; [|done]. injection Ha as <-.
    assert (mn = MnWait) as -> by (apply (Hsd i p Ei); by intros ->).
    constructor; cbn; try done. by rewrite length_insert.
  - destruct (rd !! i) as [[|dg|]|] eqn:Ei; [..|done]; cbn [mbind option_bind] in Ha; [| |done];
      assert (mn = MnWait) as -> by (by apply (Hrd i _ Ei)).
    + destruct (ex || negb op); [|done]. injection Ha as <-. by constructor.
    + injection Ha as <-. constructor; cbn; try done. unfold readLoop. rewrite fold_left_app. cbn. by rewrite H1.
  - destruct (wt && dn) eqn:E; [|done]. injection Ha as <-. apply andb_true_iff in E as [-> ->].
    assert (mn = MnWait) as -> by (destruct (decide (mn = MnWait)) as [|Hn]; [done|by destruct (Hg Hn) as (_ & _ & [=])]).
    by constructor.
  - destruct mn; [|injection Ha as <-..|done].
    + destruct (all_gone _) eqn:E in Ha; [|done]. injection Ha as <-. constructor; cbn; try done.
      split; [by auto|]. intros _. apply H5. by left.
    + constructor; cbn; try done; [|by split; [|intros []]].
      intros _. apply all_gone_spec. by apply Hg.
    + constructor; cbn; try done; [|split; [|by intros []]|by rewrite H6].
      * intros _. apply all_gone_spec. by apply Hg.
      * intros H%H5. by destruct H.
  - destruct (sd !! i) as [p|] eqn:Ei; [|done]. cbn [mbind option_bind] in Ha.
    destruct (targets !! i) as [n|]; [|done]. destruct p; try done. injection Ha as <-.
    assert (mn = MnWait) as -> by (by apply (Hsd i _ Ei)). constructor; cbn; try done. by rewrite length_insert.
  - destruct (rd !! i) as [[|?|]|] eqn:Ei; try done. cbn [mbind option_bind] in Ha.
    destruct (ex || negb op); [done|]. injection Ha as <-.
    assert (mn = MnWait) as -> by (by apply (Hrd i _ Ei)). by constructor.
  - destruct (rd !! i) as [[|?|]|] eqn:Ei; try done. injection Ha as <-.
    assert (mn = MnWait) as -> by (by apply (Hrd i _ Ei)). by constructor.
  - injection Ha as <-. constructor; try done.
Qed.

(** ** The end *)

Definition is_sown (a : scout_action) : bool :=
  match a with AcSender _ | AcReader _ | AcWatch | AcMain => true | _ => false end.
Definition sown_steps (acts : list scout_action) : nat := length (filter (fun a => is_sown a = true) acts).

(** The steps an event may cause. *)
Definition scout_weight (a : scout_action) : nat :=
  match a with AcTick i => S (default O (targets !! i)) | AcDatagram _ _ => 1 | _ => 0 end.

Definition send_rank (p : send_pc) : nat := match p with SdSend k => 2 + k | SdSelect => 1 | SdGone => 0 end.
Definition recv_rank (p : recv_pc) : nat := match p with RdGot _ => 2 | RdRead => 1 | RdGone => 0 end.
Definition main_rank (m : scout_main) : nat := match m with MnWait => 3 | MnClose => 2 | MnDrop => 1 | MnGone => 0 end.
Definition scouter_rank (s : scouter) : nat :=
  sum_list_with send_rank (sr_senders s) + sum_list_with recv_rank (sr_readers s) +
  (if sr_watch s then 1 else 0) + main_rank (sr_main s).

Lemma scout_act_rank a s s' : scout_act a s = Some s' ->
  ((if is_sown a then 1 else 0) + scouter_rank s' <= scouter_rank s + scout_weight a)%nat.
Proof.
  destruct s as [d h dn wt ex sd rd op mn dr]. unfold scouter_rank.
  destruct a as [i|i| | |i|i dg|i|]; cbn [scout_act is_sown scout_weight]; intros Ha.
  - destruct (sd !! i) as [p|] eqn:Ei; [|done]. cbn [mbind option_bind] in Ha.
    destruct (sendLoop_step dn op p) as [p'|] eqn:Ep; [|done]. injection Ha as <-.
    pose proof (sum_list_insert send_rank sd i p p' Ei).
    assert (send_rank p' < send_rank p)%nat
      by (destruct p as [[|k]| |]; cbn in Ep; [|destruct op|destruct dn|done]; simplify_eq; cbn; lia).
    cbn. lia.
  - destruct (rd !! i) as [[|dg|]|] eqn:Ei; try done; cbn [mbind option_bind] in Ha.
    + destruct (ex || negb op); [|done]. injection Ha as <-.
      pose proof (sum_list_insert recv_rank rd i _ RdGone Ei). cbn in *. lia.
    + injection Ha as <-. pose proof (sum_list_insert recv_rank rd i _ RdRead Ei). cbn in *. lia.
  - destruct wt, dn; try done. injection Ha as <-. cbn. lia.
  - destruct mn; [destruct (all_gone _); [|done]|..|done]; injection Ha as <-; cbn; lia.
  - destruct (sd !! i) as [p|] eqn:Ei; [|done]. cbn [mbind option_bind] in Ha.
    destruct (targets !! i) as [n|]; [|done]. destruct p; try done. injection Ha as <-.
    pose proof (sum_list_insert send_rank sd i _ (SdSend n) Ei). cbn in *. lia.
  - destruct (rd !! i) as [[|?|]|] eqn:Ei; try done. cbn [mbind option_bind] in Ha.
    destruct (ex || negb op); [done|]. injection Ha as <-.
    pose proof (sum_list_insert recv_rank rd i _ (RdGot dg) Ei). cbn in *. lia.
  - destruct (rd !! i) as [[|?|]|] eqn:Ei; try done. injection Ha as <-.
    pose proof (sum_list_insert recv_rank rd i _ RdGone Ei). cbn in *. lia.
  - injection Ha as <-. cbn. lia.
Qed.

Lemma scout_acts_inv myZID acts : forall s s', scouter_ok myZID s -> scout_acts acts s = Some s' ->
  scouter_ok myZID s' /\
  (sown_steps acts + scouter_rank s' <= scouter_rank s + sum_list_with scout_weight acts)%nat.
Proof.
  induction acts as [|a acts IH]; intros s s' Hs; cbn [scout_acts]; [intros [= <-]; split; [done|cbn; lia]|].
  destruct (scout_act a s) as [s1|] eqn:E; [|done]. intros H.
  destruct (IH s1 s' (scout_act_ok _ _ _ _ Hs E) H) as [H1 H2]. split; [done|].
  apply scout_act_rank in E. unfold sown_steps in *. cbn [sum_list_with]. rewrite filter_cons.
  destruct (is_sown a); [rewrite decide_True by done; cbn [length]|rewrite decide_False by done]; lia.
Qed.

(** Once the handler was dropped no goroutine is left to call it. *)
Lemma dropped_for_good myZID s a s' : scouter_ok myZID s -> sr_drops s = 1%nat -> scout_act a s = Some s' ->
  sr_disp s' = sr_disp s /\ sr_drops s' = 1%nat.
Proof.
  intros [_ _ H3 _ _ H6] Hd Ha. destruct s as [d h dn wt ex sd rd op mn dr]. cbn in H6, Hd. subst dr.
  destruct mn; [done..|]. specialize (H3 ltac:(done)). apply all_gone_spec in H3 as (Hs & Hr & Hw).
  destruct a as [i|i| | |i|i dg|i|]; cbn [scout_act] in Ha.
  - destruct (sd !! i) as [p|]; [|done]. cbn [mbind option_bind] in Ha.
    destruct (sendLoop_step dn op p); [|done]. by injection Ha as <-.
  - destruct (rd !! i) as [p|] eqn:Ei; [|done]. by rewrite (still_gone _ _ _ _ Hr Ei) in Ha.
  - destruct (wt && dn); [|done]. by injection Ha as <-.
  - done.
  - destruct (sd !! i) as [p|]; [|done]. cbn [mbind option_bind] in Ha.
    destruct (targets !! i), p; try done. by injection Ha as <-.
  - destruct (rd !! i) as [p|] eqn:Ei; [|done]. by rewrite (still_gone _ _ _ _ Hr Ei) in Ha.
  - destruct (rd !! i) as [p|] eqn:Ei; [|done]. by rewrite (still_gone _ _ _ _ Hr Ei) in Ha.
  - by injection Ha as <-.
Qed.

(** When the context has ended, the goroutines can only be stuck at the end. *)
Lemma scouter_stuck myZID s : scouter_ok myZID s -> sr_done s = true ->
  (forall a, is_sown a = true -> scout_act a s = None) -> sr_drops s = 1%nat /\ sr_open s = false.
Proof.
  intros [_ _ _ H4 H5 H6] Hd Hst. destruct s as [d h dn wt ex sd rd op mn dr]. cbn in H4, H5, H6, Hd. subst dn.
  assert (Hs : Forall (fun p => p = SdGone) sd).
  { apply Forall_lookup_2. intros i p Hi. specialize (Hst (AcSender i) eq_refl). cbn in Hst. rewrite Hi in Hst.
    by destruct p as [[|k]| |]. }
  assert (Hw : wt = false) by (specialize (Hst AcWatch eq_refl); cbn in Hst; by destruct wt).
  assert (Hr : Forall (fun p => p = RdGone) rd).
  { apply Forall_lookup_2. intros i p Hi. specialize (Hst (AcReader i) eq_refl). cbn in Hst.
    rewrite Hi, (H4 Hw) in Hst. by destruct p. }
  assert (Hg : all_gone (mkScouter d h true wt ex sd rd op mn dr) = true) by (by apply all_gone_spec).
  specialize (Hst AcMain eq_refl). cbn [scout_act] in Hst. rewrite Hg in Hst. destruct mn; try done.
  split; [done|]. cbn. destruct op; [|done]. by destruct (proj1 H5 eq_refl).
Qed.
End Run.

(** C25: Whatever datagrams reach the sockets of a scouter and however its
    goroutines interleave, it reports exactly the first HELLO of each node
    other than itself, in the order in which they were handled, a HELLO
    being what its decoder makes of the first 4096 bytes of a datagram, and
    a datagram that begins with an encoded well-formed HELLO being heard as
    that HELLO; its goroutines take a number of steps bounded by the
    datagrams and ticks; the user's handler is dropped at most once, when
    the sockets are closed and no goroutine is left to call it; and once the
    context has ended, the handler is dropped when none of them can step. *)
Theorem scouter_ends targets myZID conns acts s :
  scout_acts targets acts (start_scouter targets myZID conns) = Some s ->
  first_reports myZID (omap hears (sr_handled s)) (d_delivered (sr_disp s)) /\
  (forall src m e rest, wf_Hello m -> EncodeNetworkMessage m = Ok e -> (length e <= readBufSize)%nat ->
    hears (src, e ++ rest) = Some (report src m)) /\
  (sown_steps acts <= scouter_rank (start_scouter targets myZID conns) + sum_list_with (scout_weight targets) acts)%nat /\
  (sr_drops s <= 1)%nat /\
  (sr_drops s = 1%nat -> sr_open s = false /\
    forall a s', scout_act targets a s = Some s' -> sr_disp s' = sr_disp s /\ sr_drops s' = 1%nat) /\
  (sr_done s = true -> (forall a, is_sown a = true -> scout_act targets a s = None) -> sr_drops s = 1%nat).
Proof.
  intros Hr. destruct (scout_acts_inv targets myZID _ _ _ (scouter_ok_start _ _ _) Hr) as [Hs Hb]. split_and!.
  - rewrite (so_disp _ _ _ Hs). apply (readLoop_reported _ myZID []), reported_new.
  - intros src m e rest. by apply hears_sent.
  - lia.
  - rewrite (so_drops _ _ _ Hs). destruct (sr_main s); cbn; lia.
  - intros Hd. split; [|intros a s' Ha; by eapply dropped_for_good].
    rewrite (so_drops _ _ _ Hs) in Hd. destruct (sr_open s) eqn:Eo; [|done].
    by destruct (proj1 (so_open _ _ _ Hs) Eo) as [E|E]; rewrite E in Hd.
  - intros Hd Hst. by apply (scouter_stuck targets myZID s).
Qed.

(** A scouter with two sockets that hears garbage and two HELLOs of one node,
    the first with a byte too many. *)
Definition scouted : list scout_action :=
  [AcSender 0; AcSender 0; AcDatagram 0 (str "a:1", [0]); AcDatagram 1 (str "b:2", sample_datagram [] ++ [255]); AcReader 1;
   AcReader 0; AcTick 0; AcSender 0; AcSender 0; AcDatagram 1 (str "b:2", sample_datagram [str "tcp/b:3"]); AcEnd;
   AcReader 1; AcSender 0; AcWatch; AcReader 0; AcReader 1; AcMain; AcMain; AcMain].

Lemma scouter_ends_witness : exists s,
  scout_acts [1%nat] scouted (start_scouter [1%nat] (mkZID [1]) 2) = Some s /\
  omap hears (sr_handled s) = [report (str "b:2") (sample_hello []); report (str "b:2") (sample_hello [str "tcp/b:3"])] /\
  first_reports (mkZID [1]) (omap hears (sr_handled s)) [mkScoutHello WhatAmIPeer (mkZID [7]) [str "udp/b:2"]] /\
  sr_open s = false.
Proof.
  destruct (scout_acts [1%nat] scouted (start_scouter [1%nat] (mkZID [1]) 2)) as [s|] eqn:E; [|by vm_compute in E].
  destruct (scouter_ends [1%nat] (mkZID [1]) 2 scouted s E) as (H1 & _ & _ & _ & H4 & _).
  assert (Hd : d_delivered (sr_disp s) = [mkScoutHello WhatAmIPeer (mkZID [7]) [str "udp/b:2"]] /\ sr_drops s = 1%nat /\
    omap hears (sr_handled s) = [report (str "b:2") (sample_hello []); report (str "b:2") (sample_hello [str "tcp/b:3"])])
    by (vm_compute in E; injection E as <-; by vm_compute).
  exists s. destruct Hd as (Hd1 & Hd2 & Hd3). rewrite Hd1 in H1. split; [done|]. split; [done|]. split; [done|]. by apply H4.
Defined.
