(* ===== verification/Reconnecting.v ===== *)
(** * zenoh/session.go: reconnecting and closing

    In client mode one goroutine, [runReconnectLoop], waits for the runtime to
    end, dials again with backoff and installs the next runtime, while a user
    may call Close.  The two run here at the granularity of their atomic
    operations, over the state machine of [Lifecycle] and the registry of
    [Reconnect]; a runtime may lose its link at any time, and its reader may
    come to wait in a handler for room in a send queue, which [Supervise] has
    in detail.  What replayEntities sends is the subject of [Declarations] and
    [Replay]. *)
From Stdlib Require Import SpecFloat.
From S2P Require Import Prelude Session Lifecycle Reconnect.

(** ** State *)

Inductive phase := RtOpen | RtStopping | RtDone.

#[export] Instance phase_eq_dec : EqDecision phase.
Proof. solve_decision. Defined.

(** A runtime: its peer; whether it runs, is ending (it was told to shut down
    or has lost its link), or has closed [Done]; and whether its reader waits
    in a handler for room in a send queue, in [enqueueNetwork] under the
    background's context: then it cannot return, and [Done] is not closed. *)
Record runtime := mkRuntime { rt_peer : bytes; rt_phase : phase; rt_held : bool }.

(** [w_rts] are all runtimes so far, named by their position; [w_waits] the
    arguments of [time.After]. *)
Record world := mkWorld {
  w_sh : shared; w_closed : bool; w_runtimes : gmap (list Z) nat; w_curRuntime : option nat;
  w_rts : list runtime; w_done : bool; w_waits : list Z }.

Definition set_sh (sh : shared) (w : world) : world :=
  mkWorld sh (w_closed w) (w_runtimes w) (w_curRuntime w) (w_rts w) (w_done w) (w_waits w).
Definition set_closed (w : world) : world :=
  mkWorld (w_sh w) true (w_runtimes w) (w_curRuntime w) (w_rts w) (w_done w) (w_waits w).
Definition set_runtimes (m : gmap (list Z) nat) (w : world) : world :=
  mkWorld (w_sh w) (w_closed w) m (w_curRuntime w) (w_rts w) (w_done w) (w_waits w).
Definition set_cur (c : option nat) (w : world) : world :=
  mkWorld (w_sh w) (w_closed w) (w_runtimes w) c (w_rts w) (w_done w) (w_waits w).
Definition set_rts (l : list runtime) (w : world) : world :=
  mkWorld (w_sh w) (w_closed w) (w_runtimes w) (w_curRuntime w) l (w_done w) (w_waits w).
Definition set_done (w : world) : world :=
  mkWorld (w_sh w) (w_closed w) (w_runtimes w) (w_curRuntime w) (w_rts w) true (w_waits w).
Definition add_wait (d : Z) (w : world) : world :=
  mkWorld (w_sh w) (w_closed w) (w_runtimes w) (w_curRuntime w) (w_rts w) (w_done w)
    (w_waits w ++ [d]).

Definition userClosed (w : world) : bool := (0 <? sh_userClose (w_sh w))%nat.
Definition peer_of (rt : nat) (w : world) : bytes := default [] (rt_peer <$> w_rts w !! rt).
Definition phase_of (rt : nat) (w : world) : phase := default RtDone (rt_phase <$> w_rts w !! rt).
Definition held_of (rt : nat) (w : world) : bool := default false (rt_held <$> w_rts w !! rt).
Definition set_phase (rt : nat) (ph : phase) (w : world) : world :=
  set_rts (alter (fun r => mkRuntime (rt_peer r) ph (rt_held r)) rt (w_rts w)) w.
Definition set_held (rt : nat) (h : bool) (w : world) : world :=
  set_rts (alter (fun r => mkRuntime (rt_peer r) (rt_phase r) h) rt (w_rts w)) w.
Arguments userClosed : simpl never.
Arguments phase_of : simpl never.
Arguments peer_of : simpl never.
Arguments held_of : simpl never.

(** ** The reconnect loop *)

(** What a dial, a handshake, a [select] or the queue the replay sends to
    gives: the peer is the one the handshake found. *)
Inductive choice := CYes (peer : bytes) | CNo.

Inductive loop_pc :=
  | LLoad
  | LWait (rt : nat)
  | LUnregister (rt : nat)
  | LClear (rt : nat)
  | LCheck
  | LEnter
  | LAttempt (b : Retry.Backoff)
  | LDial (b : Retry.Backoff)
  | LBegin (b : Retry.Backoff) (p : pc)
  | LHandshake (b : Retry.Backoff)
  | LRun (b : Retry.Backoff) (peer : bytes)
  | LBackoff (b : Retry.Backoff)
  | LRegister (rt : nat)
  | LStore (rt : nat)
  | LReplay (rt : nat)
  | LExit.

Section Loop.
(** The value of a conversion Go leaves to the processor, and [s.backoff]. *)
Context (outside : spec_float -> Z) (cfg : Retry.ReconnectConfig).

(** The end of a failed attempt in [reconnectWithBackoff]. *)
Definition attempt_failed (b : Retry.Backoff) (w : world) : loop_pc * world :=
  let '(wait, b) := Retry.Backoff_Next outside b in (LBackoff b, add_wait wait w).

Arguments attempt_failed : simpl never.

(** [reconnectWithBackoff], with [dialAndRun] inside. *)
Definition reconnectWithBackoff (c : choice) (p : loop_pc) (w : world) : option (loop_pc * world) :=
  match p with
  | LAttempt b => if userClosed w then Some (LExit, set_done w) else Some (LDial b, w)
  | LDial b =>
      match c with
      | CYes _ => Some (LBegin b (PStart CBeginHandshake), w)
      | CNo => Some (attempt_failed b w)
      end
  | LBegin b (PReturn _ (Ok _)) => Some (LHandshake b, w)
  | LBegin b (PReturn _ (Err _)) => Some (attempt_failed b w)
  | LBegin b p => '(p, sh) ← begin_step p (w_sh w); Some (LBegin b p, set_sh sh w)
  | LHandshake b =>
      match c with CYes peer => Some (LRun b peer, w) | CNo => Some (attempt_failed b w) end
  | LRun b peer =>
      '(p, sh) ← run_step (PStart CRun) (w_sh w);
      match p with
      | PReturn _ (Ok _) =>
          Some (LRegister (length (w_rts w)), set_rts (w_rts w ++ [mkRuntime peer RtOpen false]) (set_sh sh w))
      | _ => Some (attempt_failed b (set_sh sh w))
      end
  | LBackoff b =>
      match c with
      | CYes _ => Some (LAttempt b, w)
      | CNo => if userClosed w then Some (LExit, set_done w) else None
      end
  | _ => None
  end.

(** [installRuntime] and [uninstallRuntime] are two steps each. replayEntities
    needs room in the queue of the runtime, unless that has ended. *)
Definition runReconnectLoop (c : choice) (p : loop_pc) (w : world) : option (loop_pc * world) :=
  match p with
  | LLoad =>
      match w_curRuntime w with
      | None => Some (LExit, set_done w)
      | Some rt => Some (LWait rt, w)
      end
  | LWait rt => if bool_decide (phase_of rt w = RtDone) then Some (LUnregister rt, w) else None
  | LUnregister rt =>
      Some (LClear rt,
            set_runtimes (Runtimes.UnregisterRuntime (peer_of rt w) (Some rt) (w_runtimes w)) w)
  | LClear rt =>
      Some (LCheck, if bool_decide (w_curRuntime w = Some rt) then set_cur None w else w)
  | LCheck => if userClosed w then Some (LExit, set_done w) else Some (LEnter, w)
  | LEnter =>
      match reconnect_step (w_sh w) with
      | (PReturn _ (Ok _), sh) => Some (LAttempt (Retry.NewBackoff cfg), set_sh sh w)
      | (_, sh) => Some (LExit, set_done (set_sh sh w))
      end
  | LRegister rt =>
      Some (LStore rt,
            set_runtimes (Runtimes.RegisterRuntime (peer_of rt w) (Some rt) (w_runtimes w)) w)
  | LStore rt => Some (LReplay rt, set_cur (Some rt) w)
  | LReplay rt =>
      match c with
      | CYes _ => Some (LLoad, w)
      | CNo => if bool_decide (phase_of rt w = RtDone) then Some (LLoad, w) else None
      end
  | LExit => None
  | p => reconnectWithBackoff c p w
  end.

(** ** Close *)

Inductive close_pc := CStart | CInner (p : pc) | CShut | CWait | CReturned.

Definition shut_runtime (w : world) (rt : nat) : world :=
  if bool_decide (phase_of rt w = RtOpen) then set_phase rt RtStopping w else w.

(** The farewells sent first, which wait for nothing, are not here. [CShut] is [ForEachRuntime]
    with [GracefulShutdown], under the lock of the registry. *)
Definition Session_Close (p : close_pc) (w : world) : option (close_pc * world) :=
  match p with
  | CStart =>
      if w_closed w then Some (CReturned, w) else Some (CInner (PStart CClose), set_closed w)
  | CInner (PReturn _ _) => Some (CShut, w)
  | CInner p => '(p, sh) ← close_step 0 p (w_sh w); Some (CInner p, set_sh sh w)
  | CShut => Some (CWait, fold_left shut_runtime (Runtimes.SnapshotRuntimes (w_runtimes w)) w)
  | CWait => if w_done w then Some (CReturned, w) else None
  | CReturned => None
  end.

(** ** Both together *)

Record rstate := mkRstate { r_loop : loop_pc; r_close : close_pc; r_world : world }.

(** [ATeardown]: the goroutines of an ending runtime return; [AFail]: the link
    is lost; [AHold], [AFree]: the reader comes to wait for room in a queue, and
    gets it. *)
Inductive action := ALoop (c : choice) | AClose | ATeardown (rt : nat)
  | AFail (rt : nat) | AHold (rt : nat) | AFree (rt : nat).

Definition act (a : action) (g : rstate) : option rstate :=
  match a with
  | ALoop c =>
      '(p, w) ← runReconnectLoop c (r_loop g) (r_world g); Some (mkRstate p (r_close g) w)
  | AClose =>
      '(p, w) ← Session_Close (r_close g) (r_world g); Some (mkRstate (r_loop g) p w)
  | ATeardown rt =>
      if bool_decide (phase_of rt (r_world g) = RtStopping) && negb (held_of rt (r_world g))
      then Some (mkRstate (r_loop g) (r_close g) (set_phase rt RtDone (r_world g))) else None
  | AFail rt =>
      if bool_decide (phase_of rt (r_world g) = RtOpen)
      then Some (mkRstate (r_loop g) (r_close g) (set_phase rt RtStopping (r_world g))) else None
  | AHold rt =>
      if bool_decide (phase_of rt (r_world g) <> RtDone) && negb (held_of rt (r_world g))
      then Some (mkRstate (r_loop g) (r_close g) (set_held rt true (r_world g))) else None
  | AFree rt =>
      if held_of rt (r_world g)
      then Some (mkRstate (r_loop g) (r_close g) (set_held rt false (r_world g))) else None
  end.

Definition act_all (acts : list action) (g : rstate) : option rstate :=
  fold_left (fun g a => g ≫= act a) acts (Some g).

(** What Open returns. *)
Definition opened (peer : bytes) : rstate :=
  mkRstate LLoad CStart
    (mkWorld (mkShared StateActive false OnceNew 0 [TActivated]) false {[peer := 0%nat]} (Some 0%nat)
       [mkRuntime peer RtOpen false] false []).

Definition step (g g' : rstate) : Prop := exists a, act a g = Some g'.
Definition reachable (g : rstate) : Prop := exists peer, rtc step (opened peer) g.

(** ** Invariant *)

(** The runtime the loop is at. *)
Definition at_runtime (p : loop_pc) (w : world) : option nat :=
  match p with
  | LLoad => w_curRuntime w
  | LWait rt | LUnregister rt | LClear rt | LRegister rt | LStore rt | LReplay rt => Some rt
  | _ => None
  end.

(** The state of the session at each point of the loop, until it is closed. *)
Definition state_at (p : loop_pc) (s : State) : Prop :=
  match p with
  | LAttempt _ | LDial _ | LBackoff _ => s = StateReconnecting \/ s = StateHandshaking
  | LBegin _ p =>
      match p with
      | PStart CBeginHandshake => s = StateReconnecting \/ s = StateHandshaking
      | PBeginLoaded old => s = old /\ (s = StateReconnecting \/ s = StateHandshaking)
      | PBeginDialing => s = StateDialing
      | PReturn _ (Ok _) => s = StateHandshaking
      | _ => False
      end
  | LHandshake _ | LRun _ _ => s = StateHandshaking
  | LExit => False
  | _ => s = StateActive
  end.

Definition begin_pc (p : loop_pc) : Prop :=
  match p with
  | LBegin _ (PStart CBeginHandshake) | LBegin _ (PBeginLoaded _) | LBegin _ PBeginDialing
  | LBegin _ (PReturn CBeginHandshake _) => True
  | LBegin _ _ => False
  | _ => True
  end.

(** How far Close has come. *)
Definition closing_at (p : close_pc) (sh : shared) : Prop :=
  match p with
  | CStart | CInner (PStart CClose) => sh_closeOnce sh = OnceNew /\ sh_userClose sh = 0%nat
  | CInner PCloseLoop => sh_userClose sh = 0%nat
  | CInner (PCloseLoaded old) =>
      sh_userClose sh = 0%nat /\ (old = StateClosed -> sh_state sh = StateClosed)
  | CInner PCloseBroke => sh_userClose sh = 0%nat /\ sh_state sh = StateClosed
  | CInner (PReturn _ _) | CShut | CWait | CReturned =>
      sh_userClose sh = 1%nat /\ sh_state sh = StateClosed
  | _ => False
  end.

Definition registry_at (p : loop_pc) (w : world) : gmap (list Z) nat :=
  match p with
  | LRegister _ | LClear _ => ∅
  | p => match at_runtime p w with Some rt => {[peer_of rt w := rt]} | None => ∅ end
  end.

Definition cur_at (p : loop_pc) (cur : option nat) : Prop :=
  match p with
  | LLoad => is_Some cur
  | LWait rt | LUnregister rt | LClear rt | LReplay rt => cur = Some rt
  | _ => cur = None
  end.

Definition ended_at (p : loop_pc) : option nat :=
  match p with LUnregister rt | LClear rt => Some rt | _ => None end.

Definition exited (p : loop_pc) : bool := match p with LExit => true | _ => false end.

Record loop_inv (p : loop_pc) (w : world) : Prop := {
  li_multi : sh_multiRuntime (w_sh w) = false;
  li_state : sh_state (w_sh w) = StateClosed \/ state_at p (sh_state (w_sh w));
  li_begin : begin_pc p;
  li_live rt : phase_of rt w <> RtDone -> at_runtime p w = Some rt;
  li_range rt : at_runtime p w = Some rt -> (rt < length (w_rts w))%nat;
  li_cur : cur_at p (w_curRuntime w);
  li_registry : w_runtimes w = registry_at p w;
  li_ended rt : ended_at p = Some rt -> phase_of rt w = RtDone;
  li_done : w_done w = exited p }.

Definition inv (g : rstate) : Prop :=
  loop_inv (r_loop g) (r_world g) /\ closing_at (r_close g) (w_sh (r_world g)).

Lemma set_sh_id w : set_sh (w_sh w) w = w.
Proof. by destruct w. Qed.

Lemma phase_of_app rt w w0 r : phase_of rt (set_rts (w_rts w ++ [r]) w0) =
  if bool_decide (rt = length (w_rts w)) then rt_phase r else phase_of rt w.
Proof.
  unfold phase_of. cbn. case_bool_decide as E; [subst; by rewrite list_lookup_middle|].
  destruct (decide (rt < length (w_rts w))%nat) as [H|H]; [by rewrite lookup_app_l|].
  rewrite lookup_app_r, !(lookup_ge_None_2 _ rt) by lia.
  by rewrite lookup_ge_None_2 by (cbn; lia).
Qed.

(** An attempt that fails changes nothing but the waits. *)
Lemma attempt_failed_spec b w : exists d b', Retry.Backoff_Next outside b = (d, b') /\
  attempt_failed b w = (LBackoff b', add_wait d w).
Proof. unfold attempt_failed. destruct (Retry.Backoff_Next outside b) as [d b']. eauto. Qed.

(** The loop is not at a runtime, before and after; only the state, the waits
    and [done] may change. *)
Lemma loop_inv_idle p p' w w' : loop_inv p w ->
  at_runtime p w = None -> at_runtime p' w' = None -> ended_at p' = None -> begin_pc p' ->
  cur_at p' (w_curRuntime w) ->
  sh_multiRuntime (w_sh w') = false ->
  (sh_state (w_sh w') = StateClosed \/ state_at p' (sh_state (w_sh w'))) ->
  w_rts w' = w_rts w -> w_runtimes w' = w_runtimes w -> w_curRuntime w' = w_curRuntime w ->
  registry_at p w = ∅ -> registry_at p' w' = ∅ -> w_done w' = exited p' -> loop_inv p' w'.
Proof.
  intros [H1 H2 H3 H4 H5 H6 H7 H8 H9] Ha Ha' He Hb Hc Hm Hs Hr Hrt Hcu Hre Hre' Hd.
  constructor; try done.
  - intros rt. unfold phase_of. rewrite Hr. intros Hp. rewrite (H4 rt Hp) in Ha. done.
  - intros rt. by rewrite Ha'.
  - by rewrite Hcu.
  - by rewrite Hrt, H7, Hre, Hre'.
  - intros rt. by rewrite He.
Qed.

(** What the loop leaves alone. *)
Definition sh_kept (sh sh' : shared) : Prop :=
  sh_closeOnce sh' = sh_closeOnce sh /\ sh_userClose sh' = sh_userClose sh /\
  (sh_state sh = StateClosed -> sh_state sh' = StateClosed).

Ltac idle H := eapply loop_inv_idle; [exact H|..]; try done; try (by destruct H).

(** The steps at a runtime, and the installation. *)
Lemma loop_step_runtime c p w p' w' : loop_inv p w -> is_Some (at_runtime p w) ->
  (userClosed w = true -> sh_state (w_sh w) = StateClosed) ->
  runReconnectLoop c p w = Some (p', w') -> loop_inv p' w' /\ sh_kept (w_sh w) (w_sh w').
Proof.
  intros H [rt0 Hat] Hu Hs. pose proof H as [H1 H2 H3 H4 H5 H6 H7 H8 H9].
  destruct p; try done; cbn in Hat, Hs, H6, H7.
  - rewrite Hat in Hs, H7. injection Hs as <- <-. split; [|done]. constructor; cbn; try done.
    + by rewrite <- Hat.
    + by rewrite <- Hat.
  - case_bool_decide as E; [|done]. injection Hs as <- <-. split; [|done]. constructor; try done.
    cbn. by intros ? [= <-].
  - injection Hs as <- <-. split; [|done]. constructor; try done; cbn.
    unfold Runtimes.UnregisterRuntime. rewrite H7, lookup_singleton_eq, (bool_decide_eq_true_2 (Some rt = Some rt)) by done.
    rewrite orb_true_r. apply delete_singleton_eq.
  - injection Hs as <- <-. rewrite bool_decide_eq_true_2 by done. split; [|done].
    constructor; cbn; try done. intros rt1 Hp. exfalso. apply Hp. specialize (H4 rt1 Hp).
    injection H4 as <-. by apply (H8 rt).
  - injection Hs as <- <-. split; [|done]. constructor; try done; cbn.
    by rewrite H7.
  - injection Hs as <- <-. split; [|done]. constructor; try done.
  - assert (Hs' : LLoad = p' /\ w = w')
      by (destruct c; [|case_bool_decide]; by simplify_eq).
    destruct Hs' as [<- <-]. split; [|done]. constructor; try done; cbn; by rewrite H6.
Qed.

Lemma begin_step_spec p sh p' sh' : sh_multiRuntime sh = false -> begin_step p sh = Some (p', sh') ->
  (sh_state sh = StateClosed \/
   match p with
   | PStart CBeginHandshake => sh_state sh = StateReconnecting \/ sh_state sh = StateHandshaking
   | PBeginLoaded old => sh_state sh = old /\
       (sh_state sh = StateReconnecting \/ sh_state sh = StateHandshaking)
   | PBeginDialing => sh_state sh = StateDialing
   | _ => False
   end) ->
  sh_multiRuntime sh' = false /\ sh_kept sh sh' /\
  (sh_state sh' = StateClosed \/
   match p' with
   | PStart CBeginHandshake => sh_state sh' = StateReconnecting \/ sh_state sh' = StateHandshaking
   | PBeginLoaded old => sh_state sh' = old /\
       (sh_state sh' = StateReconnecting \/ sh_state sh' = StateHandshaking)
   | PBeginDialing => sh_state sh' = StateDialing
   | PReturn _ (Ok _) => sh_state sh' = StateHandshaking
   | _ => False
   end) /\
  match p' with
  | PStart CBeginHandshake | PBeginLoaded _ | PBeginDialing | PReturn CBeginHandshake _ => True
  | _ => False
  end.
Proof.
  intros Hm Hs Hst. destruct sh as [st m o u l]. cbn in Hm. subst m. unfold sh_kept.
  destruct p as [[]|old| | | | | |]; try done; cbn in Hs, Hst.
  - injection Hs as <- <-. cbn. naive_solver.
  - destruct old; cbn in Hs; unfold CAS in Hs; cbn in Hs;
      try case_bool_decide; simplify_eq/=; naive_solver congruence.
  - unfold CAS in Hs; cbn in Hs. case_bool_decide; simplify_eq/=; naive_solver congruence.
Qed.

#[local] Arguments begin_step : simpl never.

Lemma loop_step_idle c p w p' w' : loop_inv p w -> at_runtime p w = None ->
  (userClosed w = true -> sh_state (w_sh w) = StateClosed) ->
  runReconnectLoop c p w = Some (p', w') -> loop_inv p' w' /\ sh_kept (w_sh w) (w_sh w').
Proof.
  intros H Hat Hu Hs. pose proof H as [H1 H2 H3 H4 H5 H6 H7 H8 H9].
  assert (Hfail : forall b sh, Some (attempt_failed b (set_sh sh w)) = Some (p', w') -> w_curRuntime w = None ->
    registry_at p w = ∅ -> exited p = false -> sh_multiRuntime sh = false -> sh_kept (w_sh w) sh ->
    (sh_state sh = StateClosed \/ sh_state sh = StateReconnecting \/ sh_state sh = StateHandshaking) ->
    loop_inv p' w' /\ sh_kept (w_sh w) (w_sh w')).
  { intros b sh E Hc Hre Hx Hm Hk Hst. destruct (attempt_failed_spec b (set_sh sh w)) as (d & b' & _ & E').
    rewrite E' in E. injection E as <- <-. split; [|done]. idle H. cbn. by rewrite H9. }
  destruct p as [| | | | | |b|b|b q|b|b peer|b| | | |]; try done; cbn in Hat, Hs, H2, H6, H7, H9.
  - cbn in H6. destruct H6 as [x Hx]. congruence.
  - destruct (userClosed w) eqn:Eu; injection Hs as <- <-; (split; [idle H|done]); left; by apply Hu.
  - destruct (w_sh w) as [st m o u l] eqn:Esh. cbn in H1, H2. subst m.
    unfold reconnect_step, CAS in Hs. cbn in Hs. case_bool_decide as Ea; injection Hs as <- <-.
    + split; [idle H; by right; left|]. unfold sh_kept. cbn. split_and!; [done..|congruence].
    + split; [idle H; left; naive_solver|]. unfold sh_kept. done.
  - destruct (userClosed w) eqn:Eu; injection Hs as <- <-; (split; [idle H|done]); left; by apply Hu.
  - destruct c; [injection Hs as <- <-; split; [idle H|done]|].
    apply (Hfail b (w_sh w)); try done.
  - assert (Hret : forall cl r, q = PReturn cl r -> loop_inv p' w' /\ sh_kept (w_sh w) (w_sh w')).
    { intros cl r ->. destruct r as [[]|e].
      - injection Hs as <- <-. split; [idle H|done].
      - apply (Hfail b (w_sh w)); try done. destruct H2; [by left|done]. }
    destruct (begin_step q (w_sh w)) as [[q' sh']|] eqn:Eb;
      [|destruct q; try done; by eapply Hret].
    destruct (begin_step_spec q (w_sh w) q' sh' H1 Eb) as (Hm & Hk & Hst & Hb).
    { destruct H2 as [|H2]; [by left|right]. destruct q as [[]| | | | | | |? [|]]; done. }
    destruct q as [[]| | | | | | |? ?]; try done; cbn in Hs; injection Hs as <- <-;
      (split; [idle H|done]); destruct q' as [[]| | | | | | |[] ?]; done.
  - destruct c; [injection Hs as <- <-; split; [idle H|done]|].
    apply (Hfail b (w_sh w)); try done. destruct H2; auto.
  - rewrite H1 in Hs. unfold CAS in Hs. case_bool_decide as Eh; cbn in Hs.
    + injection Hs as <- <-. split; [|unfold sh_kept; cbn; split_and!; [done..|congruence]].
      constructor; try done; cbn.
      * by right.
      * intros rt. rewrite phase_of_app. case_bool_decide as Er; [by subst|]. intros Hp.
        by specialize (H4 rt Hp).
      * intros rt [= <-]. rewrite length_app. cbn. lia.
    + apply (Hfail b (w_sh w)); try done. destruct H2; [by left|done].
  - destruct c; [injection Hs as <- <-; split; [idle H|done]|].
    destruct (userClosed w) eqn:Eu; [|done]. injection Hs as <- <-. split; [idle H|done]. left. by apply Hu.
Qed.

Lemma loop_step_inv c p w p' w' : loop_inv p w ->
  (userClosed w = true -> sh_state (w_sh w) = StateClosed) ->
  runReconnectLoop c p w = Some (p', w') -> loop_inv p' w' /\ sh_kept (w_sh w) (w_sh w').
Proof.
  intros H Hu Hs. destruct (at_runtime p w) eqn:E.
  - eapply loop_step_runtime; [done|by rewrite E|done..].
  - by eapply loop_step_idle.
Qed.

(** Close changes the state to Closed only; the teardown of a runtime changes
    its phase only. *)
Lemma loop_inv_sh p sh w w' : loop_inv p w -> sh_multiRuntime sh = false ->
  sh_state sh = StateClosed \/ sh_state sh = sh_state (w_sh w) ->
  w' = set_sh sh w \/ w' = set_closed (set_sh sh w) -> loop_inv p w'.
Proof.
  intros [H1 H2 H3 H4 H5 H6 H7 H8 H9] Hm Hs Hw.
  assert (Hst : sh_state sh = StateClosed \/ state_at p (sh_state sh))
    by (destruct Hs as [|Hs]; [by left|by rewrite Hs]).
  destruct Hw as [-> | ->]; constructor; done.
Qed.

Lemma phase_of_set_phase rt rt' ph w : phase_of rt w <> RtDone ->
  phase_of rt' (set_phase rt ph w) = if bool_decide (rt' = rt) then ph else phase_of rt' w.
Proof.
  unfold phase_of, set_phase. cbn. intros Hp. case_bool_decide as E.
  - subst. rewrite list_lookup_alter_eq. by destruct (w_rts w !! rt).
  - by rewrite list_lookup_alter_ne.
Qed.

Lemma set_phase_kept rt ph w : length (w_rts (set_phase rt ph w)) = length (w_rts w) /\
  forall rt', peer_of rt' (set_phase rt ph w) = peer_of rt' w.
Proof.
  split; [apply length_alter|]. intros rt'. unfold peer_of, set_phase. cbn.
  destruct (decide (rt = rt')) as [->|]; [|by rewrite list_lookup_alter_ne].
  rewrite list_lookup_alter_eq. by destruct (w_rts w !! rt').
Qed.

Lemma loop_inv_phase p rt ph w : loop_inv p w -> phase_of rt w <> RtDone ->
  loop_inv p (set_phase rt ph w).
Proof.
  intros [H1 H2 H3 H4 H5 H6 H7 H8 H9] Hp.
  destruct (set_phase_kept rt ph w) as [Hl Hpe].
  assert (Hat : at_runtime p (set_phase rt ph w) = at_runtime p w) by (by destruct p).
  constructor; try done.
  - intros rt' Hp'. rewrite Hat. apply H4. rewrite phase_of_set_phase in Hp' by done.
    case_bool_decide; by subst.
  - intros rt'. rewrite Hat, Hl. apply H5.
  - cbn. rewrite H7. unfold registry_at. rewrite Hat.
    destruct p; try done; destruct (at_runtime _ w); by rewrite ?Hpe.
  - intros rt' He. rewrite phase_of_set_phase by done. case_bool_decide; [|by apply H8].
    subst. by rewrite (H8 rt He) in Hp.
Qed.

Lemma set_held_kept rt h w : length (w_rts (set_held rt h w)) = length (w_rts w) /\
  (forall rt', peer_of rt' (set_held rt h w) = peer_of rt' w) /\
  forall rt', phase_of rt' (set_held rt h w) = phase_of rt' w.
Proof.
  split; [apply length_alter|]. unfold peer_of, phase_of, set_held. cbn.
  split; intros rt'; (destruct (decide (rt = rt')) as [->|]; [|by rewrite list_lookup_alter_ne]);
    rewrite list_lookup_alter_eq; by destruct (w_rts w !! rt').
Qed.

Lemma loop_inv_held p rt h w : loop_inv p w -> loop_inv p (set_held rt h w).
Proof.
  intros [H1 H2 H3 H4 H5 H6 H7 H8 H9]. destruct (set_held_kept rt h w) as (Hl & Hpe & Hph).
  assert (Hat : at_runtime p (set_held rt h w) = at_runtime p w) by (by destruct p).
  constructor; try done.
  - intros rt'. rewrite Hph, Hat. apply H4.
  - intros rt'. rewrite Hat, Hl. apply H5.
  - cbn. rewrite H7. unfold registry_at. rewrite Hat.
    destruct p; try done; destruct (at_runtime _ w); by rewrite ?Hpe.
  - intros rt' He. rewrite Hph. by apply H8.
Qed.

Lemma shut_runtime_inv p w rts : loop_inv p w ->
  let w' := fold_left shut_runtime rts w in
  loop_inv p w' /\ w_sh w' = w_sh w /\ w_runtimes w' = w_runtimes w /\
  forall rt, phase_of rt w' = if bool_decide (rt ∈ rts /\ phase_of rt w = RtOpen) then RtStopping
                             else phase_of rt w.
Proof.
  revert w. induction rts as [|r rts IH]; intros w Hw w'; subst w'.
  { split_and!; [done..|]. intros rt. rewrite bool_decide_eq_false_2; [done|]. set_solver. }
  cbn [fold_left]. destruct (decide (phase_of r w = RtOpen)) as [Er|Er].
  - assert (E : shut_runtime w r = set_phase r RtStopping w)
      by (unfold shut_runtime; by rewrite bool_decide_eq_true_2).
    rewrite E. destruct (IH (set_phase r RtStopping w)) as (H1 & H2 & H3 & H4).
    { apply loop_inv_phase; [done|]. by rewrite Er. }
    split_and!; [done..|]. intros rt. rewrite H4, phase_of_set_phase by (by rewrite Er).
    case_bool_decide as E1; case_bool_decide as E2; case_bool_decide as E3; subst;
      try done; try set_solver.
  - assert (E : shut_runtime w r = w)
      by (unfold shut_runtime; by rewrite bool_decide_eq_false_2).
    rewrite E. destruct (IH w Hw) as (H1 & H2 & H3 & H4). split_and!; [done..|]. intros rt. rewrite H4.
    case_bool_decide as E1; case_bool_decide as E2; try done; [set_solver|].
    destruct E2 as [Hin E2]. apply elem_of_cons in Hin as [->|Hin]; [done|]. by destruct E1.
Qed.

Lemma closing_kept p sh sh' : closing_at p sh -> sh_kept sh sh' -> closing_at p sh'.
Proof.
  intros Hc (H1 & H2 & H3). destruct p as [|[[]| | | | | | |]| | |]; try done; cbn in *;
    rewrite ?H1, ?H2; naive_solver.
Qed.

Lemma closing_closed p sh : closing_at p sh -> (0 < sh_userClose sh)%nat -> sh_state sh = StateClosed.
Proof.
  intros Hc Hu. destruct p as [|[[]| | | | | | |]| | |]; try done; cbn in Hc; try lia; tauto.
Qed.

Lemma close_step_closing p sh p' sh' : closing_at (CInner p) sh -> close_step 0 p sh = Some (p', sh') ->
  closing_at (CInner p') sh' /\ sh_multiRuntime sh' = sh_multiRuntime sh /\
  (sh_state sh' = StateClosed \/ sh_state sh' = sh_state sh).
Proof.
  intros Hc Hs. destruct sh as [st m o u l].
  destruct p as [[]| | | | |old| |]; try done; cbn in Hc, Hs.
  - destruct Hc as [-> ->]. injection Hs as <- <-. cbn. auto.
  - injection Hs as <- <-. cbn. auto.
  - unfold CAS in Hs. cbn in Hs. destruct old; try case_bool_decide; simplify_eq/=; naive_solver.
  - injection Hs as <- <-. cbn. naive_solver.
Qed.

Lemma runReconnectLoop_closed c p w p' w' : runReconnectLoop c p w = Some (p', w') ->
  w_closed w' = w_closed w.
Proof.
  unfold runReconnectLoop, reconnectWithBackoff, attempt_failed. intros Hs.
  repeat first
    [ case_match
    | match type of Hs with _ ≫= _ = _ => apply bind_Some in Hs as ([? ?] & _ & Hs) end ];
    by simplify_eq/=.
Qed.

(** [r_close] is the Close that wins the compare-and-swap of [s.closed]. *)
Definition rinv (g : rstate) : Prop :=
  inv g /\ w_closed (r_world g) = match r_close g with CStart => false | _ => true end.

Lemma act_inv a g g' : rinv g -> act a g = Some g' -> rinv g'.
Proof.
  intros [[Hl Hc] Hcl] Hs. destruct g as [p q w]. unfold rinv, inv. cbn [r_loop r_close r_world] in *.
  assert (Hphase : forall rt ph, phase_of rt w <> RtDone ->
    rinv (mkRstate p q (set_phase rt ph w))).
  { intros rt ph Hp. split; [split; [by apply loop_inv_phase|done]|done]. }
  assert (Hheld : forall rt h, rinv (mkRstate p q (set_held rt h w)))
    by (intros rt h; split; [split; [by apply loop_inv_held|done]|done]).
  destruct a as [c| |rt|rt|rt|rt]; cbn in Hs.
  - destruct (runReconnectLoop c p w) as [[p' w']|] eqn:E; [|done]. cbn in Hs. injection Hs as <-.
    destruct (loop_step_inv c p w p' w' Hl) as [Hl' Hk]; [|done|].
    { unfold userClosed. rewrite Nat.ltb_lt. by apply (closing_closed q). }
    split; [split; [done|by eapply closing_kept]|]. cbn. by rewrite (runReconnectLoop_closed _ _ _ _ _ E).
  - destruct (Session_Close q w) as [[q' w']|] eqn:E; [|done]. cbn in Hs. injection Hs as <-.
    assert (Hinner : forall pc, q = CInner pc ->
      close_step 0 pc (w_sh w) ≫= (fun '(p, sh) => Some (CInner p, set_sh sh w)) = Some (q', w') ->
      rinv (mkRstate p q' w')).
    { intros pc -> Es. destruct (close_step 0 pc (w_sh w)) as [[pc' sh']|] eqn:Ec; [|done].
      injection Es as <- <-. destruct (close_step_closing pc (w_sh w) pc' sh' Hc Ec) as (H1 & H2 & H3).
      split; [split; [|done]|done]. eapply loop_inv_sh; [done| |done|by left].
      rewrite H2. apply (li_multi _ _ Hl). }
    destruct q as [|pc| | |]; cbn in E.
    + rewrite Hcl in E. injection E as <- <-. split; [split; [|done]|done].
      eapply (loop_inv_sh p (w_sh w) w); [done|apply (li_multi _ _ Hl)|by right|right].
      by rewrite set_sh_id.
    + destruct pc as [| | | | | | |cl r]; try by eapply Hinner. injection E as <- <-.
      by split; [split|].
    + injection E as <- <-.
      destruct (shut_runtime_inv p w (Runtimes.SnapshotRuntimes (w_runtimes w)) Hl) as (H1 & H2 & H3 & _).
      split; [split; [done|]|].
      * cbn. by rewrite H2.
      * cbn. rewrite <- Hcl. clear. generalize (Runtimes.SnapshotRuntimes (w_runtimes w)) as l.
        intros l. revert w. induction l as [|r l IH]; intros w; [done|]. cbn. rewrite IH.
        unfold shut_runtime. by case_bool_decide.
    + destruct (w_done w); [|done]. by injection E as <- <-.
    + done.
  - case_bool_decide as Ep; [|done]. destruct (held_of rt w); [done|]. injection Hs as <-.
    apply Hphase. by rewrite Ep.
  - case_bool_decide as Ep; [|done]. injection Hs as <-. apply Hphase. by rewrite Ep.
  - destruct (_ && _); [|done]. injection Hs as <-. apply (Hheld rt true).
  - destruct (held_of rt w); [|done]. injection Hs as <-. apply (Hheld rt false).
Qed.

Lemma opened_inv peer : rinv (opened peer).
Proof.
  split; [split; [|done]|done]. constructor; try done; cbn; [by right| | |eauto].
  - intros [|rt]; [done|]. unfold phase_of. cbn. by destruct rt.
  - intros rt [= <-]. lia.
Qed.

Lemma reachable_inv g : reachable g -> rinv g.
Proof.
  intros (peer & H). pose proof (opened_inv peer) as Hi. induction H as [|g g1 g2 [a Ha] _ IH]; [done|].
  apply IH. by eapply act_inv.
Qed.

(** ** Close returns *)

Definition begin_rank (p : pc) : nat :=
  match p with
  | PBeginLoaded (StateReconnecting | StateInit) => 11
  | PStart _ => 10
  | PReturn _ _ => 7
  | _ => 9
  end.

Definition loop_rank (p : loop_pc) : nat :=
  match p with
  | LRegister _ => 22 | LStore _ => 21 | LReplay _ => 20 | LLoad => 19 | LWait _ => 18
  | LUnregister _ => 17 | LClear _ => 16 | LCheck => 15 | LEnter => 14
  | LDial _ => 12 | LBegin _ p => begin_rank p | LHandshake _ => 6 | LRun _ _ => 5
  | LBackoff _ => 4 | LAttempt _ => 3 | LExit => 0
  end.

Definition phase_rank (r : runtime) : nat :=
  match rt_phase r with RtOpen => 2 | RtStopping => 1 | RtDone => 0 end.

Definition close_rank (q : close_pc) : nat :=
  match q with CShut => 2 | CWait => 1 | CReturned => 0 | _ => 3 end.

Definition rank (g : rstate) : nat :=
  loop_rank (r_loop g) + close_rank (r_close g) + sum_list_with phase_rank (w_rts (r_world g)).

Definition registering (p : loop_pc) : bool := match p with LRegister _ => true | _ => false end.

(** A reader that waits for room, or gets it. *)
Definition waits_for_room (a : action) : bool :=
  match a with AHold _ | AFree _ => true | _ => false end.

(** What the links and the queues decide: a lost link, room in a queue. *)
Definition from_outside (g : rstate) (a : action) : bool :=
  match a, r_loop g with
  | AFail _, _ | AHold _, _ | AFree _, _ | ALoop (CYes _), LReplay _ => true
  | _, _ => false
  end.

Definition moves (g : rstate) : Prop :=
  exists a, from_outside g a = false /\ is_Some (act a g).

(** An ending runtime whose reader waits for room. *)
Definition stalled (g : rstate) : Prop :=
  exists rt, phase_of rt (r_world g) = RtStopping /\ held_of rt (r_world g) = true.

(** The session is closed, Close has at least come to its registry, and it
    misses no runtime. *)
Definition ending (g : rstate) : Prop :=
  rinv g /\ registering (r_loop g) = false /\
  match r_close g with
  | CShut => True
  | CWait | CReturned => forall rt, phase_of rt (r_world g) <> RtOpen
  | _ => False
  end.

Lemma ending_closed g : ending g ->
  sh_state (w_sh (r_world g)) = StateClosed /\ userClosed (r_world g) = true.
Proof.
  intros ([[_ Hc] _] & _ & Hq). unfold userClosed. destruct (r_close g); try done;
    destruct Hc as [-> ->]; done.
Qed.

Lemma loop_ending c p w p' w' : sh_state (w_sh w) = StateClosed -> userClosed w = true ->
  loop_inv p w -> registering p = false -> runReconnectLoop c p w = Some (p', w') ->
  (loop_rank p' < loop_rank p)%nat /\ w_rts w' = w_rts w /\ registering p' = false.
Proof.
  intros Hc Hu Hl Hr Hs. pose proof (li_multi _ _ Hl) as Hm. pose proof (li_begin _ _ Hl) as Hb.
  destruct p as [| | | | | |b|b|b q|b|b peer|b| | | |]; try done; cbn in Hs.
  - destruct (w_curRuntime w); injection Hs as <- <-; cbn; auto with lia.
  - case_bool_decide; [|done]. injection Hs as <- <-. cbn. auto with lia.
  - injection Hs as <- <-. cbn. auto with lia.
  - injection Hs as <- <-. case_bool_decide; cbn; auto with lia.
  - rewrite Hu in Hs. injection Hs as <- <-. cbn. auto with lia.
  - unfold reconnect_step, CAS in Hs. rewrite Hc in Hs. injection Hs as <- <-. cbn. auto with lia.
  - rewrite Hu in Hs. injection Hs as <- <-. cbn. auto with lia.
  - destruct c; injection Hs as <- <-; cbn; auto with lia.
  - destruct q as [[]|old| | | | | |cl r]; try done.
    + unfold begin_step in Hs. rewrite Hm in Hs. injection Hs as <- <-. rewrite Hc. cbn. auto with lia.
    + unfold begin_step, CAS in Hs. rewrite Hc in Hs. destruct old; cbn in Hs; injection Hs as <- <-; cbn; auto with lia.
    + unfold begin_step, CAS in Hs. rewrite Hc in Hs. injection Hs as <- <-. cbn. auto with lia.
    + destruct r; injection Hs as <- <-; cbn; auto with lia.
  - destruct c; injection Hs as <- <-; cbn; auto with lia.
  - unfold CAS in Hs. rewrite Hm, Hc in Hs. injection Hs as <- <-. cbn. auto with lia.
  - rewrite Hu in Hs. destruct c; injection Hs as <- <-; cbn; auto with lia.
  - injection Hs as <- <-. cbn. auto with lia.
  - destruct c; [|case_bool_decide; [|done]]; injection Hs as <- <-; cbn; auto with lia.
Qed.

Lemma rank_set_held rt h w :
  sum_list_with phase_rank (w_rts (set_held rt h w)) = sum_list_with phase_rank (w_rts w).
Proof.
  unfold set_held. cbn. generalize (w_rts w) as l. intros l. revert rt.
  induction l as [|r l IH]; intros rt; [done|]. destruct rt as [|rt]; [done|].
  exact (f_equal (Nat.add (phase_rank r)) (IH rt)).
Qed.

Lemma sum_set_phase rt ph w : phase_of rt w <> RtDone ->
  (sum_list_with phase_rank (w_rts (set_phase rt ph w)) + phase_rank (mkRuntime [] (phase_of rt w) false) =
   sum_list_with phase_rank (w_rts w) + phase_rank (mkRuntime [] ph false))%nat.
Proof.
  unfold phase_of, set_phase. cbn. generalize (w_rts w) as l. intros l. revert rt.
  induction l as [|r l IH]; intros rt Hp; [done|]. destruct rt as [|rt]; cbn in Hp |- *.
  - destruct r. unfold phase_rank at 1 3 4 6. cbn [rt_phase]. lia.
  - specialize (IH rt Hp). rewrite <- Nat.add_assoc. etrans; [exact (f_equal (Nat.add (phase_rank r)) IH)|]. lia.
Qed.

Lemma shut_runtimes_rank rts w :
  (sum_list_with phase_rank (w_rts (fold_left shut_runtime rts w)) <=
   sum_list_with phase_rank (w_rts w))%nat.
Proof.
  revert w. induction rts as [|r rts IH]; intros w; [done|]. cbn [fold_left].
  etrans; [apply IH|]. unfold shut_runtime. case_bool_decide as E; [|done].
  pose proof (sum_set_phase r RtStopping w) as H. rewrite E in H. specialize (H ltac:(done)).
  change (phase_rank (mkRuntime [] RtStopping false)) with 1%nat in H.
  change (phase_rank (mkRuntime [] RtOpen false)) with 2%nat in H. lia.
Qed.

Lemma ending_step a g g' : ending g -> act a g = Some g' -> ending g' /\
  ((if waits_for_room a then 0 else 1) + rank g' <= rank g)%nat.
Proof.
  intros He Hs. destruct (ending_closed g He) as [Hc Hu]. destruct He as (Hi & Hr & Hq).
  pose proof (act_inv a g g' Hi Hs) as Hi'. unfold ending, rank. destruct g as [p q w].
  pose proof Hi as [[Hl _] _]. cbn [r_loop r_close r_world] in *.
  assert (Hphase : forall rt ph, phase_of rt w <> RtDone -> ph <> RtOpen ->
    (phase_rank (mkRuntime [] ph false) < phase_rank (mkRuntime [] (phase_of rt w) false))%nat ->
    g' = mkRstate p q (set_phase rt ph w) ->
    ending g' /\ (1 + rank g' <= loop_rank p + close_rank q + sum_list_with phase_rank (w_rts w))%nat).
  { intros rt ph Hp Hne Hlt ->. split; [split_and!; try done|].
    - cbn [r_close r_world]. destruct q; try done; intros rt'; rewrite phase_of_set_phase by done;
        (case_bool_decide; [done|apply Hq]).
    - unfold rank. cbn [r_loop r_close r_world]. pose proof (sum_set_phase rt ph w Hp). lia. }
  assert (Hheld : forall rt h, g' = mkRstate p q (set_held rt h w) ->
    ending g' /\ (rank g' <= loop_rank p + close_rank q + sum_list_with phase_rank (w_rts w))%nat).
  { intros rt h ->. split; [split_and!; try done|].
    - cbn [r_close r_world]. destruct (set_held_kept rt h w) as (_ & _ & Hph).
      destruct q; try done; intros rt'; by rewrite Hph.
    - unfold rank. cbn [r_loop r_close r_world]. by rewrite rank_set_held. }
  destruct a as [c| |rt|rt|rt|rt]; cbn in Hs; cbn [waits_for_room].
  - destruct (runReconnectLoop c p w) as [[p' w']|] eqn:E; [|done]. cbn in Hs. injection Hs as <-.
    destruct (loop_ending c p w p' w' Hc Hu Hl Hr E) as (Hlt & Hrt & Hr').
    cbn [r_loop r_close r_world]. rewrite Hrt. split; [|lia]. split_and!; try done.
    unfold phase_of. by rewrite Hrt.
  - destruct (Session_Close q w) as [[q' w']|] eqn:E; [|done]. cbn in Hs. injection Hs as <-.
    destruct q; try done; cbn in E.
    + injection E as <- <-. cbn [r_loop r_close r_world]. cbn [close_rank].
      pose proof (shut_runtimes_rank (Runtimes.SnapshotRuntimes (w_runtimes w)) w).
      split; [|lia]. split_and!; try done. intros rt.
      destruct (shut_runtime_inv p w (Runtimes.SnapshotRuntimes (w_runtimes w)) Hl) as (_ & _ & _ & ->).
      case_bool_decide as Eo; [done|]. intros Hopen. apply Eo. split; [|done].
      assert (Hat : at_runtime p w = Some rt) by (apply (li_live _ _ Hl); by rewrite Hopen).
      rewrite (li_registry _ _ Hl). unfold registry_at. rewrite Hat.
      assert (Hne : ended_at p <> Some rt).
      { intros Hen. by rewrite (li_ended _ _ Hl rt Hen) in Hopen. }
      destruct p; try done; cbn in Hat; try (injection Hat as ->; done);
        unfold Runtimes.SnapshotRuntimes; rewrite map_to_list_singleton; cbn; set_solver.
    + destruct (w_done w); [|done]. injection E as <- <-. cbn. split; [|lia]. by split_and!.
  - case_bool_decide as Ep; [|done]. destruct (held_of rt w); [done|]. injection Hs as <-.
    apply (Hphase rt RtDone); [by rewrite Ep|done|rewrite Ep; cbn; lia|done].
  - case_bool_decide as Ep; [|done]. injection Hs as <-.
    apply (Hphase rt RtStopping); [by rewrite Ep|done|rewrite Ep; cbn; lia|done].
  - destruct (_ && _); [|done]. injection Hs as <-. by apply (Hheld rt true).
  - destruct (held_of rt w); [|done]. injection Hs as <-. by apply (Hheld rt false).
Qed.

(** An ending runtime is torn down, unless its reader waits. *)
Lemma teardown_moves g rt : phase_of rt (r_world g) = RtStopping -> moves g \/ stalled g.
Proof.
  intros Hp. destruct (held_of rt (r_world g)) eqn:Eh; [right; by exists rt|left].
  exists (ATeardown rt). split; [done|]. cbn. rewrite Hp, Eh. cbn. by eexists.
Qed.

(** Something other than a failure can happen until Close has returned, or a
    reader waits. *)
Lemma ending_progress g : ending g -> r_close g <> CReturned -> moves g \/ stalled g.
Proof.
  intros He Hq. destruct (ending_closed g He) as [_ Hu]. destruct He as ([[Hl _] _] & Hr & Hph).
  destruct g as [p q w]. cbn [r_loop r_close r_world] in *.
  destruct q; try done; [left; exists AClose; split; [done|]; cbn; eauto|].
  assert (Hloop : forall x, runReconnectLoop (CYes []) p w = Some x ->
    (forall rt, p <> LReplay rt) -> moves (mkRstate p CWait w) \/ stalled (mkRstate p CWait w)).
  { intros [p' w'] E Hne. left. exists (ALoop (CYes [])). split; [|cbn; rewrite E; by eexists].
    destruct p; try done. by destruct (Hne rt). }
  destruct p as [|rt| | | | |b|b|b q|b|b peer|b| | | |]; try (by eapply Hloop); try done.
  - destruct (li_cur _ _ Hl) as [rt Hrt]. cbn in Hloop. rewrite Hrt in Hloop. by eapply Hloop.
  - specialize (Hph rt). destruct (phase_of rt w) eqn:E; [done| |].
    + by apply (teardown_moves _ rt).
    + cbn in Hloop. rewrite E in Hloop. by eapply Hloop.
  - cbn in Hloop. rewrite Hu in Hloop. by eapply Hloop.
  - cbn in Hloop. unfold reconnect_step in Hloop.
    destruct (CAS _ _ (w_sh w)) as [[] sh]; by eapply Hloop.
  - cbn in Hloop. rewrite Hu in Hloop. by eapply Hloop.
  - pose proof (li_begin _ _ Hl) as Hb. pose proof (li_multi _ _ Hl) as Hm. cbn in Hloop.
    destruct q as [[]|old| | | | | |cl r]; try done.
    + unfold begin_step in Hloop. rewrite Hm in Hloop. by eapply Hloop.
    + unfold begin_step in Hloop.
      destruct old; cbn in Hloop; try (by eapply Hloop); destruct (CAS _ _ (w_sh w)) as [[] sh]; by eapply Hloop.
    + unfold begin_step in Hloop. destruct (CAS _ _ (w_sh w)) as [[] sh]; by eapply Hloop.
    + destruct r; by eapply Hloop.
  - pose proof (li_multi _ _ Hl) as Hm. cbn in Hloop. rewrite Hm in Hloop.
    destruct (CAS _ _ (w_sh w)) as [[] sh]; by eapply Hloop.
  - specialize (Hph rt). destruct (phase_of rt w) eqn:E; [done|by apply (teardown_moves _ rt)|].
    left. exists (ALoop CNo). split; [done|]. cbn. rewrite E. cbn. by eexists.
  - left. exists AClose. split; [done|]. cbn. rewrite (li_done _ _ Hl). by eexists.
Qed.

(** C21: When Close comes to its walk over the registry while the reconnect
    loop is not between the start of a runtime and its registration, then
    whatever interleaving of Close, the loop, teardowns, lost links and
    readers that wait for room in a send queue follows, the number of steps
    other than such a wait beginning or ending is bounded, and until Close
    has returned either some step is possible that depends neither on the
    loss of a link nor on room in a queue, the answer to a dial or a
    handshake under way being one, or the reader of an ending runtime waits
    for room in a send queue. *)
Theorem close_returns g : reachable g -> r_close g = CShut ->
  (forall rt, r_loop g <> LRegister rt) ->
  (forall acts g', act_all acts g = Some g' ->
     (length (filter (fun a => waits_for_room a = false) acts) <= rank g)%nat) /\
  (forall g', rtc step g g' -> r_close g' <> CReturned -> moves g' \/ stalled g').
Proof.
  intros Hg Hq Hr.
  assert (He : ending g).
  { split; [by apply reachable_inv|]. rewrite Hq. split; [|done].
    destruct (r_loop g) eqn:E; try done. exfalso. by eapply Hr. }
  clear Hg Hq Hr. split.
  - intros acts. revert g He. induction acts as [|a acts IH]; intros g He g' H; [cbn; lia|].
    unfold act_all in H. cbn in H. destruct (act a g) as [g1|] eqn:Ea.
    + destruct (ending_step a g g1 He Ea) as [He1 Hle]. specialize (IH g1 He1 g' H).
      rewrite filter_cons. destruct (waits_for_room a); case_decide; cbn in Hle |- *; (done || lia).
    + exfalso. clear -H. induction acts; [done|by apply IHacts].
  - intros g' H. apply ending_progress. induction H as [g|g g1 g2 [a Ha] _ IH]; [done|].
    apply IH. by eapply ending_step.
Qed.
End Loop.

(** ** The loop reconnects *)

Inductive fate := DialFails | HandshakeFails.

(** What the network answers when the attempts fail as [fs] says, and then
    one finds [peer]; every timer fires. *)
Definition answer (p : loop_pc) (fs : list fate) (peer : bytes) : choice :=
  match p, fs with
  | LDial _, DialFails :: _ | LHandshake _, HandshakeFails :: _ => CNo
  | _, _ => CYes peer
  end.

Definition left_over (p : loop_pc) (fs : list fate) : list fate :=
  match p, fs with
  | LDial _, DialFails :: fs | LHandshake _, HandshakeFails :: fs => fs
  | _, _ => fs
  end.

Section Attempts.
Context (outside : spec_float -> Z) (cfg : Retry.ReconnectConfig) (peer : bytes).

(** At most [n] steps of the loop alone, until it waits for a live runtime. *)
Fixpoint loop_alone (n : nat) (fs : list fate) (p : loop_pc) (w : world) : option (nat * world) :=
  match n with
  | O => None
  | S n =>
      let go := '(p', w') ← runReconnectLoop outside cfg (answer p fs peer) p w;
                loop_alone n (left_over p fs) p' w' in
      match p with
      | LWait rt => if bool_decide (phase_of rt w = RtOpen) then Some (rt, w) else go
      | _ => go
      end
  end.

Definition leads (fs : list fate) (p : loop_pc) (w : world) (fs' : list fate) (p' : loop_pc)
    (w' : world) : Prop :=
  exists n, forall k, loop_alone (n + k) fs p w = loop_alone k fs' p' w'.

Lemma leads_refl fs p w : leads fs p w fs p w.
Proof. by exists 0%nat. Qed.

Lemma leads_step fs p w p1 w1 fs' p' w' :
  (forall rt, p = LWait rt -> phase_of rt w <> RtOpen) ->
  runReconnectLoop outside cfg (answer p fs peer) p w = Some (p1, w1) ->
  leads (left_over p fs) p1 w1 fs' p' w' -> leads fs p w fs' p' w'.
Proof.
  intros Hp Hs [n Hn]. exists (S n). intros k. rewrite Nat.add_succ_l. cbn [loop_alone]. rewrite Hs.
  cbn. destruct p; try apply Hn. rewrite bool_decide_eq_false_2 by by apply Hp. apply Hn.
Qed.

Lemma leads_trans fs p w fs1 p1 w1 fs' p' w' :
  leads fs p w fs1 p1 w1 -> leads fs1 p1 w1 fs' p' w' -> leads fs p w fs' p' w'.
Proof. intros [n Hn] [m Hm]. exists (n + m)%nat. intros k. by rewrite <- Nat.add_assoc, Hn, Hm. Qed.

(** Only the state and the waits have changed. *)
Definition retrying (w : world) (ws : list Z) (w' : world) : Prop :=
  exists st log, w' = mkWorld (mkShared st (sh_multiRuntime (w_sh w)) (sh_closeOnce (w_sh w))
                                (sh_userClose (w_sh w)) log)
    (w_closed w) (w_runtimes w) (w_curRuntime w) (w_rts w) (w_done w) (w_waits w ++ ws) /\
  (st = StateReconnecting \/ st = StateHandshaking).

Ltac forward := eapply leads_step; [done|reflexivity|]; cbn [left_over answer].

(** BeginHandshake succeeds between two attempts. *)
Lemma begin_leads fs b w ws w1 : sh_multiRuntime (w_sh w) = false -> retrying w ws w1 ->
  exists w2, leads fs (LBegin b (PStart CBeginHandshake)) w1 fs (LHandshake b) w2 /\
    retrying w ws w2 /\ sh_state (w_sh w2) = StateHandshaking.
Proof.
  intros Hm (st & log & -> & Hst). rewrite Hm. destruct Hst as [-> | ->].
  - eexists. split; [do 4 forward; apply leads_refl|].
    split; [|reflexivity]. eexists _, _. split; [by rewrite Hm|by right].
  - eexists. split; [do 3 forward; apply leads_refl|].
    split; [|reflexivity]. eexists _, _. split; [by rewrite Hm|by right].
Qed.

Lemma retrying_wait w ws d w1 : retrying w ws w1 -> retrying w (ws ++ [d]) (add_wait d w1).
Proof.
  intros (st & log & -> & Hst). exists st, log. split; [|done].
  unfold add_wait. cbn. by rewrite app_assoc.
Qed.

(** One failed attempt takes one wait of the backoff. *)
Lemma attempt_fails f fs b w ws w1 : sh_multiRuntime (w_sh w) = false ->
  sh_userClose (w_sh w) = 0%nat -> retrying w ws w1 ->
  exists w2, leads (f :: fs) (LAttempt b) w1 fs (LAttempt (Retry.Backoff_Next outside b).2) w2 /\
    retrying w (ws ++ [(Retry.Backoff_Next outside b).1]) w2.
Proof.
  intros Hm Hu Hr.
  assert (Hopen : userClosed w1 = false)
    by (destruct Hr as (st & log & -> & _); unfold userClosed; cbn; by rewrite Hu).
  assert (Hfirst : forall fs' p' w', leads (f :: fs) (LDial b) w1 fs' p' w' ->
    leads (f :: fs) (LAttempt b) w1 fs' p' w').
  { intros fs' p' w' H. eapply leads_step; [done| |exact H]. cbn. by rewrite Hopen. }
  destruct f.
  - exists (add_wait (Retry.Backoff_Next outside b).1 w1). split; [|by apply retrying_wait].
    apply Hfirst. do 2 forward. apply leads_refl.
  - destruct (begin_leads (HandshakeFails :: fs) b w ws w1 Hm Hr) as (w2 & H2 & Hr2 & _).
    exists (add_wait (Retry.Backoff_Next outside b).1 w2). split; [|by apply retrying_wait].
    apply Hfirst. forward. eapply leads_trans; [exact H2|]. do 2 forward. apply leads_refl.
Qed.

Lemma attempts_lead fs w : sh_multiRuntime (w_sh w) = false -> sh_userClose (w_sh w) = 0%nat ->
  forall b ws w1, retrying w ws w1 ->
  exists b' w2, leads fs (LAttempt b) w1 [] (LRun b' peer) w2 /\
    retrying w (ws ++ Retry.waits outside (length fs) b) w2 /\ sh_state (w_sh w2) = StateHandshaking.
Proof.
  intros Hm Hu. induction fs as [|f fs IH]; intros b ws w1 Hr.
  - assert (Hopen : userClosed w1 = false)
      by (destruct Hr as (st & log & -> & _); unfold userClosed; cbn; by rewrite Hu).
    destruct (begin_leads [] b w ws w1 Hm Hr) as (w2 & H2 & Hr2 & Hst).
    exists b, w2. split; [|split; [|done]].
    + eapply leads_step; [done|cbn; by rewrite Hopen|]. forward.
      eapply leads_trans; [exact H2|]. forward. apply leads_refl.
    + by rewrite app_nil_r.
  - destruct (attempt_fails f fs b w ws w1 Hm Hu Hr) as (w2 & H2 & Hr2).
    destruct (IH (Retry.Backoff_Next outside b).2 _ w2 Hr2) as (b' & w3 & H3 & Hr3 & Hst).
    exists b', w3. split; [by eapply leads_trans|]. split; [|done].
    cbn [length Retry.waits]. destruct (Retry.Backoff_Next outside b) as [d b1].
    cbn [fst snd] in Hr3. by rewrite <- app_assoc in Hr3.
Qed.

(** Only Close closes. *)
Lemma loop_not_closed c p w p' w' : runReconnectLoop outside cfg c p w = Some (p', w') ->
  sh_state (w_sh w) <> StateClosed -> sh_state (w_sh w') <> StateClosed.
Proof.
  unfold runReconnectLoop, reconnectWithBackoff, attempt_failed, begin_step, run_step,
    reconnect_step, CAS. intros Hs Hc.
  repeat first
    [ case_match
    | match type of Hs with _ ≫= _ = _ => apply bind_Some in Hs as ([? ?] & ? & Hs) end ];
    by simplify_eq/=.
Qed.

Lemma reachable_open g : reachable outside cfg g -> r_close g = CStart ->
  sh_state (w_sh (r_world g)) <> StateClosed.
Proof.
  intros [p0 Hg]. revert g Hg. apply (rtc_ind_r (fun g => r_close g = CStart ->
    sh_state (w_sh (r_world g)) <> StateClosed)); [done|].
  intros g g' _ [a Ha] IH Hq. destruct g as [p q w]. cbn [r_close r_world] in *.
  destruct a as [c| |rt|rt|rt|rt]; cbn in Ha.
  - destruct (runReconnectLoop outside cfg c p w) as [[p' w']|] eqn:E; [|done].
    injection Ha as <-. cbn in *. eapply loop_not_closed; [exact E|by apply IH].
  - destruct (Session_Close q w) as [[q' w']|] eqn:E; [|done]. injection Ha as <-.
    cbn in Hq. subst q'. exfalso. destruct q; cbn in E; repeat case_match; try done.
    all: apply bind_Some in E as ([? ?] & ? & E); done.
  - case_match; [|done]. injection Ha as <-. by apply IH.
  - case_match; [|done]. injection Ha as <-. by apply IH.
  - case_match; [|done]. injection Ha as <-. by apply IH.
  - case_match; [|done]. injection Ha as <-. by apply IH.
Qed.

(** From the end of a runtime to the first attempt. *)
Lemma lost_leads rt w fs : loop_inv (LWait rt) w -> phase_of rt w = RtDone ->
  sh_state (w_sh w) = StateActive -> sh_userClose (w_sh w) = 0%nat ->
  exists w1, leads fs (LWait rt) w fs (LAttempt (Retry.NewBackoff cfg)) w1 /\ w_runtimes w1 = ∅ /\
    w_curRuntime w1 = None /\ w_rts w1 = w_rts w /\ w_waits w1 = w_waits w /\
    sh_multiRuntime (w_sh w1) = false /\ sh_userClose (w_sh w1) = 0%nat /\ retrying w1 [] w1.
Proof.
  intros Hl Hp Hs Hu. pose proof (li_registry _ _ Hl) as Hreg. pose proof (li_cur _ _ Hl) as Hcur.
  pose proof (li_multi _ _ Hl) as Hm. cbn in Hreg, Hcur.
  assert (Hdel : Runtimes.UnregisterRuntime (peer_of rt w) (Some rt) (w_runtimes w) = ∅).
  { rewrite Hreg. unfold Runtimes.UnregisterRuntime. rewrite lookup_singleton_eq.
    rewrite (bool_decide_eq_true_2 (Some rt = Some rt)) by done. cbn. apply delete_singleton_eq. }
  destruct w as [[st mr co uc log] cl rts cur rl dn ws]. cbn in *. subst st mr uc cur.
  eexists. split.
  { eapply leads_step; [intros ? [= <-]; by rewrite Hp|cbn; by rewrite Hp|].
    eapply leads_step; [done|cbn; unfold set_runtimes; cbn; by rewrite Hdel|].
    eapply leads_step; [done|cbn; by rewrite bool_decide_eq_true_2|]. do 2 forward. apply leads_refl. }
  cbn. split_and!; try done. eexists _, _. cbn. rewrite app_nil_r. split; [reflexivity|by left].
Qed.

(** From Run to the wait for the new runtime. *)
Lemma installed_leads b w : sh_state (w_sh w) = StateHandshaking ->
  sh_multiRuntime (w_sh w) = false -> w_runtimes w = ∅ ->
  let new := length (w_rts w) in
  exists sh, sh_state sh = StateActive /\
    leads [] (LRun b peer) w [] (LWait new)
      (mkWorld sh (w_closed w) {[peer := new]} (Some new) (w_rts w ++ [mkRuntime peer RtOpen false])
         (w_done w) (w_waits w)).
Proof.
  destruct w as [[st mr co uc log] cl rts cur rl dn ws]. cbn. intros -> -> ->.
  eexists. split; [|do 2 forward; unfold peer_of; cbn; rewrite list_lookup_middle by done; cbn;
    do 3 forward; apply leads_refl]. done.
Qed.

(** C20: After the loss of the link, whatever dials and handshakes fail
    before one succeeds, the reconnect loop alone installs exactly one new
    runtime, registered under the peer the handshake found and current, in
    the state Active, after the waits of the backoff, one per failed
    attempt. *)
Theorem reconnects g rt fs : reachable outside cfg g -> r_close g = CStart ->
  r_loop g = LWait rt -> phase_of rt (r_world g) = RtDone ->
  exists n w', let new := length (w_rts (r_world g)) in
  loop_alone n fs (r_loop g) (r_world g) = Some (new, w') /\
  w_rts w' = w_rts (r_world g) ++ [mkRuntime peer RtOpen false] /\
  w_runtimes w' = {[peer := new]} /\ w_curRuntime w' = Some new /\
  sh_state (w_sh w') = StateActive /\
  w_waits w' = w_waits (r_world g) ++ Retry.waits outside (length fs) (Retry.NewBackoff cfg).
Proof.
  intros Hg Hq Hp Hd. pose proof (reachable_open g Hg Hq) as Hopen.
  apply reachable_inv in Hg as [[Hl Hc] _]. rewrite Hq in Hc. rewrite Hp in Hl |- *. destruct Hc as [_ Hu].
  pose proof (li_state _ _ Hl) as [Hs|Hs]; [done|]. cbn in Hs.
  destruct (lost_leads rt (r_world g) fs Hl Hd Hs Hu)
    as (w1 & [n1 H1] & Hreg & Hcur & Hrts & Hws & Hm1 & Hu1 & Hr1).
  destruct (attempts_lead fs w1 Hm1 Hu1 (Retry.NewBackoff cfg) [] w1 Hr1) as (b' & w2 & [n2 H2] & Hr2 & Hst).
  assert (Hw2 : w_runtimes w2 = ∅ /\ sh_multiRuntime (w_sh w2) = false /\
    w_rts w2 = w_rts (r_world g) /\
    w_waits w2 = w_waits (r_world g) ++ Retry.waits outside (length fs) (Retry.NewBackoff cfg)).
  { destruct Hr2 as (st & log & -> & _). cbn. by rewrite Hws. }
  destruct Hw2 as (Hreg2 & Hm2 & Hrts2 & Hws2).
  destruct (installed_leads b' w2 Hst Hm2 Hreg2) as (sh & Hsh & [n3 H3]).
  rewrite Hrts2, Hws2 in H3. eexists (n1 + (n2 + (n3 + 1)))%nat, _. split.
  - rewrite H1, H2, H3. cbn. unfold phase_of. cbn. by rewrite list_lookup_middle.
  - by split_and!.
Qed.
End Attempts.

(** ** Close may hang

    In three ways.  The loop has started a runtime and not registered it yet when Close walks
    the registry. *)

Definition first_cfg : Retry.ReconnectConfig := Retry.DefaultReconnectConfig.

Definition hanging : list action :=
  AFail 0 :: ATeardown 0 :: repeat (ALoop (CYes [2])) 14 ++ repeat AClose 7 ++ repeat (ALoop (CYes [2])) 4.

(** Then Close waits for the loop, the loop for a runtime that nobody has told
    to stop, and only the loss of the link would end it. *)
Lemma close_hangs : exists g,
  act_all (fun _ => 0) first_cfg hanging (opened [1]) = Some g /\
  r_close g = CWait /\ r_loop g = LWait 1 /\ phase_of 1 (r_world g) = RtOpen /\
  ~ moves (fun _ => 0) first_cfg g.
Proof.
  destruct (act_all (fun _ => 0) first_cfg hanging (opened [1])) as [g|] eqn:E;
    [|vm_compute in E; done].
  exists g. split; [done|].
  assert (H1 : r_close g = CWait /\ r_loop g = LWait 1 /\ w_done (r_world g) = false /\
    w_rts (r_world g) = [mkRuntime [1] RtDone false; mkRuntime [2] RtOpen false]).
  { vm_compute in E. injection E as <-. done. }
  clear E. destruct g as [p q w]. cbn in H1. destruct H1 as (-> & -> & Hd & Hr).
  assert (Hp : phase_of 1 w = RtOpen) by (unfold phase_of; by rewrite Hr).
  split_and!; [done..|]. intros ([c| |rt|rt|rt|rt] & Ho & [g' Ha]); try done; cbn in Ha.
  - by rewrite Hp in Ha.
  - by rewrite Hd in Ha.
  - case_bool_decide as Ep; [|done]. unfold phase_of in Ep. rewrite Hr in Ep.
    by destruct rt as [|[|rt]].
Qed.

(** A handshake has no deadline: one that the peer does not answer holds up
    the loop, and Close with it. *)
Definition unanswered : list action :=
  AFail 0 :: ATeardown 0 :: repeat (ALoop (CYes [2])) 12 ++ repeat AClose 7.

Lemma close_waits_for_handshake : exists g b,
  act_all (fun _ => 0) first_cfg unanswered (opened [1]) = Some g /\
  r_close g = CWait /\ r_loop g = LHandshake b /\
  forall a g', act (fun _ => 0) first_cfg a g = Some g' -> exists answer, a = ALoop answer.
Proof.
  destruct (act_all (fun _ => 0) first_cfg unanswered (opened [1])) as [g|] eqn:E;
    [|vm_compute in E; done].
  exists g, (match r_loop g with LHandshake b => b | _ => Retry.NewBackoff first_cfg end).
  split; [done|].
  assert (H1 : r_close g = CWait /\ (exists b, r_loop g = LHandshake b) /\ w_done (r_world g) = false /\
    w_rts (r_world g) = [mkRuntime [1] RtDone false]).
  { vm_compute in E. injection E as <-. repeat split. by eexists. }
  clear E. destruct g as [p q w]. cbn in H1. destruct H1 as (-> & [b ->] & Hd & Hr).
  assert (Hdone : forall rt, phase_of rt w = RtDone /\ held_of rt w = false)
    by (intros rt; unfold phase_of, held_of; rewrite Hr; by destruct rt).
  split_and!; [done..|]. intros [c| |rt|rt|rt|rt] g'; cbn; [by eexists|by rewrite Hd|..];
    destruct (Hdone rt) as [E1 E2]; by rewrite ?E1, ?E2.
Qed.

(** The reader of the runtime has come to wait for room in a queue that nobody
    empties any more, as in [shutdown_hangs] of [Supervise]: Close waits for
    the loop, the loop for the runtime, the runtime for its reader, and the
    reader for [LinkClosed], which is its own to close. *)
Definition overfull : list action :=
  ALoop CNo :: AHold 0 :: repeat AClose 7.

Lemma close_waits_for_reader : exists g,
  act_all (fun _ => 0) first_cfg overfull (opened [1]) = Some g /\
  r_close g = CWait /\ stalled g /\
  forall a g', act (fun _ => 0) first_cfg a g = Some g' -> a = AFree 0.
Proof.
  destruct (act_all (fun _ => 0) first_cfg overfull (opened [1])) as [g|] eqn:E;
    [|vm_compute in E; done].
  exists g. split; [done|].
  assert (H1 : r_close g = CWait /\ r_loop g = LWait 0 /\ w_done (r_world g) = false /\
    w_rts (r_world g) = [mkRuntime [1] RtStopping true]).
  { vm_compute in E. injection E as <-. done. }
  clear E. destruct g as [p q w]. cbn in H1. destruct H1 as (-> & -> & Hd & Hr).
  assert (Hp : phase_of 0 w = RtStopping) by (unfold phase_of; by rewrite Hr).
  assert (Hh : held_of 0 w = true) by (unfold held_of; by rewrite Hr).
  assert (Hne : forall rt, rt <> 0%nat -> phase_of rt w = RtDone /\ held_of rt w = false)
    by (intros [|rt] Hn; [done|]; unfold phase_of, held_of; by rewrite Hr).
  split_and!; [done|by exists 0%nat|]. intros [c| |rt|rt|rt|rt] g'; cbn;
    [by rewrite Hp|by rewrite Hd|..];
    (destruct (decide (rt = 0%nat)) as [->|Hn]; [by rewrite ?Hp, ?Hh|]);
    destruct (Hne rt Hn) as [E1 E2]; by rewrite ?E1, ?E2.
Qed.

Lemma act_all_steps outside cfg acts g g' : act_all outside cfg acts g = Some g' ->
  rtc (step outside cfg) g g'.
Proof.
  unfold act_all. revert g. induction acts as [|a acts IH]; intros g; cbn; [by intros [= ->]|].
  destruct (act outside cfg a g) as [g1|] eqn:E; [intros H|].
  - eapply rtc_l; [by exists a|by apply IH].
  - intros H. exfalso. clear -H. induction acts; [done|by apply IHacts].
Qed.

(** Close has come to the registry, the loop waits for the runtime. *)
Definition closing : list action := ALoop CNo :: repeat AClose 6.

Lemma close_returns_witness : exists g,
  act_all (fun _ => 0) first_cfg closing (opened [1]) = Some g /\
  (forall acts g', act_all (fun _ => 0) first_cfg acts g = Some g' ->
     (length (filter (fun a => waits_for_room a = false) acts) <= 22)%nat) /\
  (forall g', rtc (step (fun _ => 0) first_cfg) g g' -> r_close g' <> CReturned ->
     moves (fun _ => 0) first_cfg g' \/ stalled g').
Proof.
  destruct (act_all (fun _ => 0) first_cfg closing (opened [1])) as [g|] eqn:E;
    [|vm_compute in E; discriminate E].
  exists g. split; [reflexivity|].
  assert (H : r_close g = CShut /\ r_loop g = LWait 0 /\ rank g = 22%nat)
    by (vm_compute in E; injection E as <-; vm_compute; done).
  destruct H as (Hq & Hp & <-). apply close_returns; [|done|by rewrite Hp].
  exists [1]. by apply (act_all_steps _ _ closing).
Defined.

Lemma reconnects_witness : exists g n w',
  act_all (fun _ => 0) first_cfg [ALoop CNo; AFail 0; ATeardown 0] (opened [1]) = Some g /\
  loop_alone (fun _ => 0) first_cfg [2] n [DialFails; HandshakeFails] (r_loop g) (r_world g)
    = Some (1%nat, w') /\
  w_runtimes w' = {[[2] := 1%nat]} /\ w_waits w' = [1000000000; 2000000000].
Proof.
  destruct (act_all (fun _ => 0) first_cfg [ALoop CNo; AFail 0; ATeardown 0] (opened [1])) as [g|] eqn:E;
    [|vm_compute in E; discriminate E].
  assert (H : r_close g = CStart /\ r_loop g = LWait 0 /\ phase_of 0 (r_world g) = RtDone /\
    length (w_rts (r_world g)) = 1%nat /\ w_waits (r_world g) = [])
    by (vm_compute in E; injection E as <-; vm_compute; done).
  destruct H as (Hq & Hp & Hd & Hn & Hw).
  assert (Hg : reachable (fun _ => 0) first_cfg g) by (exists [1]; by apply (act_all_steps _ _ _ _ _ E)).
  destruct (reconnects (fun _ => 0) first_cfg [2] g 0 [DialFails; HandshakeFails] Hg Hq Hp Hd)
    as (n & w' & Hr & _ & Hreg & _ & _ & Hws).
  rewrite Hn in Hr, Hreg. rewrite Hw in Hws. exists g, n, w'. split_and!; [done|done|done|].
  rewrite Hws. vm_compute. reflexivity.
Defined.
