(* ===== verification/Sockets.v ===== *)
(** * internal/multicast/socket.go: the sockets of a multicast operation

    [Open] over an operating system that may refuse any call, and the life of
    its sockets in a Run of internal/scout/scout.go.  [net.ResolveUDPAddr]
    and the answers of the system are parameters. *)
From S2P Require Import Prelude WirePrim Transport Config Locator Scouting.

Section Sockets.
Context {Addr Interface : Type} (ResolveUDPAddr : bytes -> result Addr) (is_v4 : Addr -> bool).

Record Plan := mkPlan {
  p_Group : bytes; p_Interface : option Interface; p_TTL : Z; p_EnableSend : bool;
  p_EnableListen : bool; p_LoopbackDisabled : bool; p_Unicast : list bytes }.

(** Sockets are named in the order in which they are opened. *)
Record Sockets := mkSockets {
  SendV4 : option nat; SendV6 : option nat; ListenV4 : option nat; ListenV6 : option nat;
  TargetsV4 : list Addr; TargetsV6 : list Addr; McastV4 : option Addr; McastV6 : option Addr }.

Definition Conns (s : Sockets) : list nat :=
  omap id [SendV4 s; SendV6 s; ListenV4 s; ListenV6 s].

(** ** The system *)

Inductive call :=
  | ListenUDP (v6 : bool)
  | ListenMulticastUDP (v6 : bool) (iface : option Interface) (group : Addr)
  | SetMulticastTTL (v6 : bool) (c : nat) (ttl : Z)
  | SetMulticastInterface (v6 : bool) (c : nat) (iface : Interface)
  | SetMulticastLoopback (v6 : bool) (c : nat) (on : bool).

(** The calls so far, those that close a socket apart; the sockets that are
    open. *)
Record os := mkOs { os_calls : list call; os_next : nat; os_live : list nat }.

(** The error with which the system refuses its [n]-th call, if it does. *)
Context (refusal : nat -> option error).

Definition logged (c : call) (s : os) : os := mkOs (os_calls s ++ [c]) (os_next s) (os_live s).

Definition Close (c : nat) (s : os) : os :=
  mkOs (os_calls s) (os_next s) (filter (fun x => x <> c) (os_live s)).
Definition CloseAll (sock : Sockets) (s : os) : os := fold_left (fun s c => Close c s) (Conns sock) s.

(** [out.F, err = net.Listen...]: a refused call leaves nil. *)
Definition listen (ctx : string) (c : call) (set : nat -> Sockets -> Sockets) :
    sem (os * Sockets) unit := fun '(s, sock) =>
  match refusal (length (os_calls s)) with
  | Some e => (Err (ErrWrap ctx e), (logged c s, sock))
  | None => (Ok tt, (mkOs (os_calls s ++ [c]) (S (os_next s)) (os_live s ++ [os_next s]), set (os_next s) sock))
  end.

Definition set_option (ctx : string) (c : call) : sem (os * Sockets) unit := fun '(s, sock) =>
  match refusal (length (os_calls s)) with
  | Some e => (Err (ErrWrap ctx e), (logged c s, sock))
  | None => (Ok tt, (logged c s, sock))
  end.

(** ** socket.go *)

Record resolved := mkResolved {
  targetsV4 : list Addr; targetsV6 : list Addr; mcastV4 : option Addr; mcastV6 : option Addr }.

Definition add_target (u : Addr) (r : resolved) : resolved :=
  if is_v4 u then mkResolved (targetsV4 r ++ [u]) (targetsV6 r) (mcastV4 r) (mcastV6 r)
  else mkResolved (targetsV4 r) (targetsV6 r ++ [u]) (mcastV4 r) (mcastV6 r).

Fixpoint resolve_unicast (l : list bytes) (r : resolved) : result resolved :=
  match l with
  | [] => Ok r
  | s :: l =>
      match ResolveUDPAddr s with
      | Err e => Err (ErrWrap "multicast: resolve unicast" e)
      | Ok u => resolve_unicast l (add_target u r)
      end
  end.

Definition resolvePlan (plan : Plan) : result resolved :=
  let r := mkResolved [] [] None None in
  if negb (is_nil (p_Group plan)) && (p_EnableSend plan || p_EnableListen plan) then
    match ResolveUDPAddr (p_Group plan) with
    | Err e => Err (ErrWrap "multicast: resolve group" e)
    | Ok u =>
        let r := if is_v4 u then mkResolved [] [] (Some u) None else mkResolved [] [] None (Some u) in
        resolve_unicast (p_Unicast plan) (if p_EnableSend plan then add_target u r else r)
    end
  else resolve_unicast (p_Unicast plan) r.

Definition applySendOpts (v6 : bool) (c : nat) (plan : Plan) : sem (os * Sockets) unit :=
  (if 0 <? p_TTL plan
   then set_option "multicast: set multicast TTL" (SetMulticastTTL v6 c (p_TTL plan)) else mret tt);;
  match p_Interface plan with
  | Some i => set_option "multicast: set multicast interface" (SetMulticastInterface v6 c i)
  | None => mret tt
  end;;
  (if p_LoopbackDisabled plan
   then set_option "multicast: set multicast loopback off" (SetMulticastLoopback v6 c false) else mret tt).

Definition set_SendV4 (c : nat) (s : Sockets) : Sockets :=
  mkSockets (Some c) (SendV6 s) (ListenV4 s) (ListenV6 s) (TargetsV4 s) (TargetsV6 s) (McastV4 s) (McastV6 s).
Definition set_SendV6 (c : nat) (s : Sockets) : Sockets :=
  mkSockets (SendV4 s) (Some c) (ListenV4 s) (ListenV6 s) (TargetsV4 s) (TargetsV6 s) (McastV4 s) (McastV6 s).
Definition set_ListenV4 (c : nat) (s : Sockets) : Sockets :=
  mkSockets (SendV4 s) (SendV6 s) (Some c) (ListenV6 s) (TargetsV4 s) (TargetsV6 s) (McastV4 s) (McastV6 s).
Definition set_ListenV6 (c : nat) (s : Sockets) : Sockets :=
  mkSockets (SendV4 s) (SendV6 s) (ListenV4 s) (Some c) (TargetsV4 s) (TargetsV6 s) (McastV4 s) (McastV6 s).

(** [applySendOpts(out.F, v6, plan)] *)
Definition send_options (v6 : bool) (field : Sockets -> option nat) (plan : Plan) :
    sem (os * Sockets) unit := fun st =>
  match field st.2 with Some c => applySendOpts v6 c plan st | None => (Ok tt, st) end.

Definition open_sockets (plan : Plan) (r : resolved) : sem (os * Sockets) unit :=
  (if is_nil (targetsV4 r) then mret tt
   else listen "multicast: listen udp4" (ListenUDP false) set_SendV4;; send_options false SendV4 plan);;
  (if is_nil (targetsV6 r) then mret tt
   else listen "multicast: listen udp6" (ListenUDP true) set_SendV6;; send_options true SendV6 plan);;
  match p_EnableListen plan, mcastV4 r with
  | true, Some g =>
      listen "multicast: listen multicast v4" (ListenMulticastUDP false (p_Interface plan) g) set_ListenV4
  | _, _ => mret tt
  end;;
  match p_EnableListen plan, mcastV6 r with
  | true, Some g =>
      listen "multicast: listen multicast v6" (ListenMulticastUDP true (p_Interface plan) g) set_ListenV6
  | _, _ => mret tt
  end.

Definition Open (plan : Plan) : sem os Sockets := fun s =>
  match resolvePlan plan with
  | Err e => (Err e, s)
  | Ok r =>
      let out := mkSockets None None None None (targetsV4 r) (targetsV6 r) (mcastV4 r) (mcastV6 r) in
      match open_sockets plan r (s, out) with
      | (Err e, (s, out)) => (Err e, CloseAll out s)
      | (Ok _, (s, out)) => (Ok out, s)
      end
  end.

(** ** scout.go: Run *)

Definition scout_plan (o : Options Interface) : Plan :=
  let '(_, _, _, group) := Run_defaults o in
  mkPlan group (MulticastInterface o) (MulticastTTL o) (MulticastEnabled o) (MulticastListen o)
    false (UnicastAddresses o).

(** [serve] is what the loops do with the SCOUT and the sockets until the
    context ends. *)
Definition Run (o : Options Interface) (serve : bytes -> Sockets -> os -> os) : sem os unit := fun s =>
  let '(_, _, matcher, _) := Run_defaults o in
  match Open (scout_plan o) s with
  | (Err e, s) => (Err e, s)
  | (Ok sock, s) =>
      let hasSend := negb (is_nil (TargetsV4 sock)) || negb (is_nil (TargetsV6 sock)) in
      let hasListen := MulticastListen o &&
        match McastV4 sock, McastV6 sock with None, None => false | _, _ => true end in
      if negb hasSend && negb hasListen then
        (Err (ErrMsg "scout: no multicast/unicast targets and no multicast listener configured"),
         CloseAll sock s)
      else match encodeScout (ZID o) matcher with
           | Err e => (Err (ErrWrap "scout: encode SCOUT" e), CloseAll sock s)
           | Ok body => (Ok tt, CloseAll sock (serve body sock s))
           end
  end.

(** ** Nothing is left open *)

Lemma sem_seq_Ok {S} (m f : sem S unit) s st : (m;; f) s = (Ok tt, st) <->
  exists s1, m s = (Ok tt, s1) /\ f s1 = (Ok tt, st).
Proof.
  unfold mbind, sem_bind. destruct (m s) as [[[]|e] s1]; naive_solver.
Qed.

(** The first [k] fields may hold a socket. *)
Definition unset_from (k : nat) (s : Sockets) : Prop :=
  forall i, (k <= i)%nat -> [SendV4 s; SendV6 s; ListenV4 s; ListenV6 s] !! i = Some None \/ (4 <= i)%nat.

(** The sockets that are open are those of before and those held. *)
Record held (live : list nat) (next k : nat) (st : os * Sockets) : Prop := {
  hd_live : os_live st.1 ≡ₚ live ++ Conns st.2;
  hd_next : (next <= os_next st.1)%nat;
  hd_own : Forall (fun c => (next <= c)%nat) (Conns st.2);
  hd_unset : unset_from k st.2 }.

Lemma held_mono live next k k' st : (k <= k')%nat -> held live next k st -> held live next k' st.
Proof. intros Hk [H1 H2 H3 H4]. split; try done. intros i Hi. apply H4. lia. Qed.

Lemma held_seq live next i j k (m f : sem (os * Sockets) unit) st : (j <= k)%nat ->
  (forall st, held live next i st -> held live next j (m st).2) ->
  (forall st, held live next j st -> held live next k (f st).2) ->
  held live next i st -> held live next k ((m;; f) st).2.
Proof.
  intros Hjk Hm Hf Hst. specialize (Hm st Hst). unfold mbind, sem_bind.
  destruct (m st) as [[[]|e] st1]; [by apply Hf|]. by eapply held_mono.
Qed.

Lemma held_option live next k ctx c st : held live next k st ->
  held live next k (set_option ctx c st).2.
Proof. destruct st as [s out]. intros [H1 H2 H3 H4]. cbn. by case_match; split. Qed.

Lemma held_options live next k v6 c plan st : held live next k st ->
  held live next k (applySendOpts v6 c plan st).2.
Proof.
  apply held_seq with (j := k); [done| |]; [|intros st1; apply held_seq with (j := k); [done| |]];
    intros st2 H; repeat case_match; try done; by apply held_option.
Qed.

Lemma held_send_options live next k v6 field plan st : held live next k st ->
  held live next k (send_options v6 field plan st).2.
Proof. intros H. unfold send_options. case_match; [by apply held_options|done]. Qed.

(** Setting the [k]-th field. *)
Lemma held_listen live next k ctx c set st :
  (forall n s, unset_from k s -> Conns (set n s) ≡ₚ Conns s ++ [n] /\ unset_from (S k) (set n s)) ->
  held live next k st -> held live next (S k) (listen ctx c set st).2.
Proof.
  intros Hset [H1 H2 H3 H4]. destruct st as [s out]. cbn in *. destruct (refusal _).
  - split; try done. intros i Hi. apply H4. lia.
  - destruct (Hset (os_next s) out H4) as [Hc Hu]. split; cbn; try done; [|lia|].
    + by rewrite Hc, H1, app_assoc.
    + rewrite Hc. apply Forall_app. split; [done|]. by constructor.
Qed.

Lemma open_sockets_held live next plan r st : held live next 0 st ->
  held live next 4 (open_sockets plan r st).2.
Proof.
  assert (Hset : forall (set : nat -> Sockets -> Sockets) k n s, unset_from k s ->
    (k = 0%nat /\ set = set_SendV4 \/ k = 1%nat /\ set = set_SendV6 \/
     k = 2%nat /\ set = set_ListenV4 \/ k = 3%nat /\ set = set_ListenV6) ->
    Conns (set n s) ≡ₚ Conns s ++ [n] /\ unset_from (S k) (set n s)).
  { intros set k n [s4 s6 l4 l6 ? ? ? ?] H Hk. pose proof (fun i => H i) as Hu. unfold Conns, unset_from in *. cbn in *.
    destruct Hk as [[-> ->]|[[-> ->]|[[-> ->]|[-> ->]]]]; cbn;
      try (destruct (Hu 0%nat) as [[= ->]|]; [lia| |lia]);
      try (destruct (Hu 1%nat) as [[= ->]|]; [lia| |lia]);
      try (destruct (Hu 2%nat) as [[= ->]|]; [lia| |lia]);
      (destruct (Hu 3%nat) as [[= ->]|]; [lia| |lia]);
      (split; [by repeat match goal with x : option nat |- _ => destruct x end|]); intros [|[|[|[|i]]]] Hi; cbn; auto; lia. }
  apply held_seq with (j := 1%nat); [lia| |]; [|intros st1; apply held_seq with (j := 2%nat); [lia| |];
    [|intros st2; apply held_seq with (j := 3%nat); [lia| |]]]; intros st3 H.
  - case_match; [eapply held_mono; [|exact H]; lia|]. revert H. apply held_seq with (j := 1%nat); [lia| |].
    + intros st4. apply held_listen. intros n s Hs. apply Hset; auto.
    + intros st4. apply held_send_options.
  - case_match; [eapply held_mono; [|exact H]; lia|]. revert H. apply held_seq with (j := 2%nat); [lia| |].
    + intros st4. apply held_listen. intros n s Hs. apply Hset; auto.
    + intros st4. apply held_send_options.
  - repeat case_match; try (eapply held_mono; [|exact H]; lia). apply held_listen; [|done]. intros n s Hs. apply Hset; auto.
  - repeat case_match; try (eapply held_mono; [|exact H]; lia). apply held_listen; [|done]. intros n s Hs. apply Hset; auto.
Qed.

Lemma filter_keep `{forall x, Decision (P x)} (l : list nat) : Forall P l -> filter P l = l.
Proof. induction 1 as [|x l Hx _ IH]; [done|]. rewrite filter_cons_True by done. by rewrite IH. Qed.

Lemma filter_drop `{forall x, Decision (P x)} (l : list nat) : Forall (fun x => ~ P x) l -> filter P l = [].
Proof. induction 1 as [|x l Hx _ IH]; [done|]. by rewrite filter_cons_False. Qed.

Lemma Close_live cs s :
  os_live (fold_left (fun s c => Close c s) cs s) = filter (fun x => x ∉ cs) (os_live s).
Proof.
  revert s. induction cs as [|c cs IH]; intros s; cbn [fold_left].
  - rewrite filter_keep; [done|]. apply Forall_true. intros x. by apply not_elem_of_nil.
  - rewrite IH. cbn. rewrite list_filter_filter. apply list_filter_iff. intros x. set_solver.
Qed.

Lemma held_closed live next k st : Forall (fun c => (c < next)%nat) live -> held live next k st ->
  os_live (CloseAll st.2 st.1) ≡ₚ live.
Proof.
  intros Hlive [H1 _ H3 _]. unfold CloseAll. rewrite Close_live, H1, filter_app.
  assert (E1 : filter (fun x => x ∉ Conns st.2) live = live).
  { apply filter_keep, Forall_forall. intros x Hx. rewrite Forall_forall in Hlive, H3.
    intros Hc. specialize (Hlive x Hx). specialize (H3 x Hc). lia. }
  assert (E2 : filter (fun x => x ∉ Conns st.2) (Conns st.2) = []) by (apply filter_drop, Forall_forall; naive_solver).
  by rewrite E1, E2, app_nil_r.
Qed.

(** What success says. *)
Definition option_calls (v6 : bool) (c : nat) (plan : Plan) : list call :=
  (if 0 <? p_TTL plan then [SetMulticastTTL v6 c (p_TTL plan)] else []) ++
  (match p_Interface plan with Some i => [SetMulticastInterface v6 c i] | None => [] end) ++
  (if p_LoopbackDisabled plan then [SetMulticastLoopback v6 c false] else []).

Lemma set_option_Ok ctx c st st' : set_option ctx c st = (Ok tt, st') ->
  st' = (logged c st.1, st.2).
Proof. destruct st as [s out]. unfold set_option. case_match; [done|]. by intros [= <-]. Qed.

Lemma applySendOpts_Ok v6 c plan st st' : applySendOpts v6 c plan st = (Ok tt, st') ->
  st'.2 = st.2 /\ os_calls st'.1 = os_calls st.1 ++ option_calls v6 c plan.
Proof.
  unfold applySendOpts, option_calls. rewrite !sem_seq_Ok.
  intros (st1 & H1 & (st2 & H2 & H3)%sem_seq_Ok).
  assert (E1 : st1.2 = st.2 /\ os_calls st1.1 = os_calls st.1 ++
    (if 0 <? p_TTL plan then [SetMulticastTTL v6 c (p_TTL plan)] else [])).
  { destruct (0 <? p_TTL plan); [by apply set_option_Ok in H1 as ->|].
    injection H1 as <-. by rewrite app_nil_r. }
  assert (E2 : st2.2 = st1.2 /\ os_calls st2.1 = os_calls st1.1 ++
    (match p_Interface plan with Some i => [SetMulticastInterface v6 c i] | None => [] end)).
  { destruct (p_Interface plan); [by apply set_option_Ok in H2 as ->|].
    injection H2 as <-. by rewrite app_nil_r. }
  assert (E3 : st'.2 = st2.2 /\ os_calls st'.1 = os_calls st2.1 ++
    (if p_LoopbackDisabled plan then [SetMulticastLoopback v6 c false] else [])).
  { destruct (p_LoopbackDisabled plan); [by apply set_option_Ok in H3 as ->|].
    injection H3 as <-. by rewrite app_nil_r. }
  destruct E1 as [F1 E1], E2 as [F2 E2], E3 as [F3 E3].
  split; [congruence|]. by rewrite E3, E2, E1, <- !app_assoc.
Qed.

Lemma listen_Ok ctx c set st st' : listen ctx c set st = (Ok tt, st') ->
  os_calls st'.1 = os_calls st.1 ++ [c] /\ exists n, st'.2 = set n st.2.
Proof. destruct st as [s out]. unfold listen. case_match; [done|]. intros [= <-]. cbn. eauto. Qed.

Lemma prefix_incl {A} (l l' : list A) : l `prefix_of` l' -> l ⊆ l'.
Proof. intros [k ->]. set_solver. Qed.

(** The system is only asked for more. *)
Definition more (st st' : os * Sockets) : Prop := os_calls st.1 `prefix_of` os_calls st'.1.

(** A send socket, when there is a target for it, with its options. *)
Lemma open_send_Ok (targets : list Addr) v6 ctx set field plan st st' :
  (forall n s, field (set n s) = Some n) ->
  (if is_nil targets then mret tt else listen ctx (ListenUDP v6) set;; send_options v6 field plan) st
    = (Ok tt, st') ->
  more st st' /\
  (targets = [] /\ st'.2 = st.2 \/
   targets <> [] /\ exists n, st'.2 = set n st.2 /\ option_calls v6 n plan ⊆ os_calls st'.1).
Proof.
  intros Hset H. unfold more. destruct targets as [|u targets]; cbn [is_nil] in H.
  { injection H as <-. auto. }
  apply sem_seq_Ok in H as (st1 & (Hc & n & Hn)%listen_Ok & H). unfold send_options in H.
  rewrite Hn, Hset in H. apply applySendOpts_Ok in H as [H1 H2]. rewrite H2, Hc. split.
  - rewrite <- app_assoc. by apply prefix_app_r.
  - right. split; [done|]. exists n. split; [congruence|]. intros x Hx. apply elem_of_app. by right.
Qed.

Lemma open_listen_Ok (enable : bool) (mcast : option Addr) ctx (c : Addr -> call) set st st' :
  match enable, mcast with true, Some g => listen ctx (c g) set | _, _ => mret tt end st = (Ok tt, st') ->
  more st st' /\
  ((enable = false \/ mcast = None) /\ st'.2 = st.2 \/
   enable = true /\ is_Some mcast /\ exists n, st'.2 = set n st.2).
Proof.
  intros H. unfold more. destruct enable; [destruct mcast as [g|]|].
  - apply listen_Ok in H as (H1 & n & H2). rewrite H1. split; [by apply prefix_app_r|eauto 10].
  - injection H as <-. auto 10.
  - injection H as <-. auto 10.
Qed.

Lemma not_listening (enable : bool) (mcast : option Addr) : enable = false \/ mcast = None ->
  is_Some (@None nat) <-> enable = true /\ is_Some mcast.
Proof. intros [-> | ->]; (split; [by intros []|]); intros [H1 H2]; [done|by destruct H2]. Qed.

(** Whichever calls the system refuses, an Open that fails leaves no
    socket open that was not open before; one that succeeds leaves open
    exactly the sockets it returns: a send socket for each address family
    with targets, with every option the plan asks for, and a listening one
    for the family of the group when the plan listens. *)
Theorem Open_keeps_no_other plan s : Forall (fun c => (c < os_next s)%nat) (os_live s) ->
  match Open plan s with
  | (Err _, s') => os_live s' ≡ₚ os_live s
  | (Ok sock, s') =>
      os_live s' ≡ₚ os_live s ++ Conns sock /\
      exists r, resolvePlan plan = Ok r /\ TargetsV4 sock = targetsV4 r /\ TargetsV6 sock = targetsV6 r /\
        McastV4 sock = mcastV4 r /\ McastV6 sock = mcastV6 r /\
        (is_Some (SendV4 sock) <-> targetsV4 r <> []) /\
        (is_Some (SendV6 sock) <-> targetsV6 r <> []) /\
        (is_Some (ListenV4 sock) <-> p_EnableListen plan = true /\ is_Some (mcastV4 r)) /\
        (is_Some (ListenV6 sock) <-> p_EnableListen plan = true /\ is_Some (mcastV6 r)) /\
        (forall c, SendV4 sock = Some c -> option_calls false c plan ⊆ os_calls s') /\
        (forall c, SendV6 sock = Some c -> option_calls true c plan ⊆ os_calls s')
  end.
Proof.
  intros Hs. unfold Open. destruct (resolvePlan plan) as [r|e]; [|done].
  set (out := mkSockets None None None None _ _ _ _).
  assert (H0 : held (os_live s) (os_next s) 0 (s, out)).
  { split; [by rewrite app_nil_r|done|constructor|]. intros i _.
    destruct i as [|[|[|[|i]]]]; cbn; auto; lia. }
  apply (open_sockets_held (os_live s) (os_next s) plan r) in H0.
  destruct (open_sockets plan r (s, out)) as [[[]|e] [s' sock]] eqn:E; cbn [snd] in H0.
  2:{ by apply (held_closed _ _ _ _ Hs H0). }
  split; [apply H0|]. exists r. split; [done|]. unfold open_sockets in E.
  apply sem_seq_Ok in E as (st1 & [M1 E1]%open_send_Ok & (st2 & [M2 E2]%open_send_Ok & (st3 & [M3 E3]%open_listen_Ok &
    [M4 E4]%open_listen_Ok)%sem_seq_Ok)%sem_seq_Ok); [|done|done].
  unfold more in *. cbn [fst snd] in *.
  apply prefix_incl in M2, M3, M4.
  assert (Hm2 : os_calls st2.1 ⊆ os_calls s') by by etrans.
  assert (Hm1 : os_calls st1.1 ⊆ os_calls s') by by etrans.
  assert (F1 : st1.2 = out /\ targetsV4 r = [] \/ exists n, st1.2 = set_SendV4 n out /\ targetsV4 r <> [] /\
    option_calls false n plan ⊆ os_calls s') by naive_solver (by etrans).
  assert (F2 : st2.2 = st1.2 /\ targetsV6 r = [] \/ exists n, st2.2 = set_SendV6 n st1.2 /\ targetsV6 r <> [] /\
    option_calls true n plan ⊆ os_calls s') by naive_solver (by etrans).
  clear E1 E2 M1 M2 M3 M4 Hm1 Hm2 H0.
  destruct F1 as [[F1 ?]|(n1 & F1 & ? & ?)], F2 as [[F2 ?]|(n2 & F2 & ? & ?)],
    E3 as [[? E3]|(? & ? & n3 & E3)], E4 as [[? E4]|(? & ? & n4 & E4)];
    rewrite E4, E3, F2, F1; subst out; cbn; split_and!;
    first [done|by naive_solver|by apply not_listening].
Qed.

(** ** The life of a scouter *)

(** Whatever happens, no socket that Run opened outlives it. *)
Lemma Run_closes o serve s : Forall (fun c => (c < os_next s)%nat) (os_live s) ->
  (forall body sock s, os_live (serve body sock s) = os_live s) ->
  os_live (Run o serve s).2 ≡ₚ os_live s.
Proof.
  intros Hs Hserve. unfold Run. destruct (Run_defaults o) as [[[i t] m] g].
  unfold Open. destruct (resolvePlan (scout_plan o)) as [r|e]; [|done].
  set (out := mkSockets None None None None _ _ _ _).
  assert (H0 : held (os_live s) (os_next s) 0 (s, out)).
  { split; [by rewrite app_nil_r|done|constructor|]. intros k _.
    destruct k as [|[|[|[|k]]]]; cbn; auto; lia. }
  apply (open_sockets_held (os_live s) (os_next s) (scout_plan o) r) in H0.
  destruct (open_sockets (scout_plan o) r (s, out)) as [[[]|e] [s' sock]] eqn:E; cbn [snd] in H0;
    pose proof (held_closed _ _ _ _ Hs H0) as Hc; cbn [fst snd] in Hc; [|exact Hc].
  case_match; [exact Hc|]. destruct (encodeScout _ _) as [body|e]; [|exact Hc]. cbn [snd].
  rewrite <- Hc. unfold CloseAll. by rewrite !Close_live, Hserve.
Qed.
End Sockets.

(** The system refuses the third call, the listening socket: the send socket
    opened before is closed. *)
Definition sample_plan : @Plan bytes :=
  mkPlan (str "224.0.0.224:7446") None 4 true true false [str "10.0.0.1:7447"].
Definition sample_refusal (n : nat) : option error :=
  if (n =? 2)%nat then Some (ErrMsg "permission denied") else None.

Lemma Open_keeps_no_other_witness :
  let s' := (Open (Interface := bytes) Ok (fun _ => true) sample_refusal sample_plan (mkOs [] 5 [3%nat])).2 in
  os_live s' ≡ₚ [3%nat] /\ length (os_calls s') = 3%nat.
Proof.
  intros s'. split; [|vm_compute; reflexivity]. subst s'.
  pose proof (Open_keeps_no_other (Interface := bytes) Ok (fun _ => true) sample_refusal sample_plan
    (mkOs [] 5 [3%nat])) as H.
  destruct (Open Ok (fun _ => true) sample_refusal sample_plan (mkOs [] 5 [3%nat])) as [[sock|e] s1] eqn:E;
    [vm_compute in E; discriminate E|].
  cbn [snd]. apply H. repeat constructor.
Defined.
