(* ===== verification/Links.v ===== *)
(** * internal/transport: links

    link.go, stubs.go: the registries of dialers and listener factories, and
    what Open and bindListener of src/zenoh find in them; tcp.go: the TCP
    listener, whose Accept is woken by a goroutine that sets a deadline;
    udp_multicast.go: the datagram link over the sockets of [Sockets].
    [net.DialContext], [net.Listen], name resolution and the system's answers
    are parameters; reads and writes of a stream are [Framing]'s. *)
From S2P Require Import Prelude WirePrim Transport Config Locator Scouting Multicast Sockets.

(** ** link.go, stubs.go *)

Section Registries.
Context {Conn Sock : Type} (DialContext : bytes -> result Conn) (Listen : bytes -> result (Sock * bytes)).

Record tcpLink := mkTcpLink { tl_conn : Conn; tl_loc : Locator }.
Record tcpListener := mkTcpListener { tln_ln : Sock; tln_loc : Locator }.

Record Dialer := mkDialer { d_Scheme : Scheme; d_Dial : Locator -> result tcpLink }.
Record ListenerFactory := mkFactory { f_Scheme : Scheme; f_Listen : Locator -> result tcpListener }.

(** The two maps; what [init] has registered last for a scheme comes first. *)
Definition RegisterDialer (d : Dialer) (m : list Dialer) : list Dialer := d :: m.
Definition RegisterListenerFactory (f : ListenerFactory) (m : list ListenerFactory) : list ListenerFactory := f :: m.

Definition tcp_Dial (loc : Locator) : result tcpLink :=
  match DialContext (loc_Address loc) with
  | Err e => Err (ErrWrap "tcp dial" e)
  | Ok conn => Ok (mkTcpLink conn loc)
  end.
Definition tcpDialer : Dialer := mkDialer SchemeTCP tcp_Dial.

(** [Listen] gives the socket with the address it is bound to. *)
Definition tcp_Listen (loc : Locator) : result tcpListener :=
  match Listen (loc_Address loc) with
  | Err e => Err (ErrWrap "tcp listen" e)
  | Ok (ln, addr) => Ok (mkTcpListener ln (mkLocator (loc_Scheme loc) addr (loc_Metadata loc)))
  end.
Definition tcpListenerFactory : ListenerFactory := mkFactory SchemeTCP tcp_Listen.

Definition stubSchemes : list Scheme :=
  [SchemeUDP; SchemeTLS; SchemeQUIC; SchemeWS; SchemeWSS; SchemeUnix; SchemeSerial].
Definition stubListenSchemes : list Scheme :=
  [SchemeUDP; SchemeTLS; SchemeQUIC; SchemeWS; SchemeWSS; SchemeUnix].

Definition ErrStub : error := ErrMsg "transport: scheme not yet implemented".
Definition stubDialer (s : Scheme) : Dialer := mkDialer s (fun _ => Err ErrStub).
Definition stubListenerFactory (s : Scheme) : ListenerFactory := mkFactory s (fun _ => Err ErrStub).

(** The [init] functions, in the order of the files. *)
Definition dialers : list Dialer :=
  RegisterDialer tcpDialer (fold_left (fun m s => RegisterDialer (stubDialer s) m) stubSchemes []).
Definition listenerFactories : list ListenerFactory :=
  RegisterListenerFactory tcpListenerFactory
    (fold_left (fun m s => RegisterListenerFactory (stubListenerFactory s) m) stubListenSchemes []).

Definition DialerFor (s : Scheme) : option (Locator -> result tcpLink) :=
  d_Dial <$> find (fun d => bool_decide (d_Scheme d = s)) dialers.
Definition ListenerFactoryFor (s : Scheme) : option (Locator -> result tcpListener) :=
  f_Listen <$> find (fun f => bool_decide (f_Scheme f = s)) listenerFactories.

(** session_peer.go *)
Definition bindListener (endpoint : bytes) : result tcpListener :=
  loc ← Locator_Parse endpoint;
  match ListenerFactoryFor (loc_Scheme loc) with
  | None => Err (ErrMsg "no listener factory for scheme")
  | Some listen => listen loc
  end.

Lemma DialerFor_spec s :
  DialerFor s = Some (if bool_decide (s = SchemeTCP) then tcp_Dial else fun _ => Err ErrStub).
Proof. by destruct s. Qed.

Lemma ListenerFactoryFor_spec s : ListenerFactoryFor s =
  match s with SchemeTCP => Some tcp_Listen | SchemeSerial => None | _ => Some (fun _ => Err ErrStub) end.
Proof. by destruct s. Qed.

(** A dial that succeeds went to a TCP endpoint, and is the one the system
    made to its address. *)
Lemma DialOne_only_tcp ep l : DialOne DialerFor ep = Ok l <->
  exists loc conn, Locator_Parse ep = Ok loc /\ loc_Scheme loc = SchemeTCP /\
    DialContext (loc_Address loc) = Ok conn /\ l = mkTcpLink conn loc.
Proof.
  unfold DialOne. destruct (Locator_Parse ep) as [loc|e]; [|by split; [|intros (? & ? & [=] & _)]].
  rewrite DialerFor_spec. case_bool_decide as Hs; [|split; [done|by intros (? & ? & [= <-] & ? & _)]].
  unfold tcp_Dial. destruct (DialContext (loc_Address loc)) as [conn|e] eqn:E.
  - split; [intros [= <-]; by exists loc, conn|]. intros (? & ? & [= <-] & _ & E' & ->). congruence.
  - split; [done|]. intros (? & ? & [= <-] & _ & E' & ->). congruence.
Qed.

(** The same for a listener, whose locator has the address it is bound to. *)
Lemma bindListener_only_tcp ep l : bindListener ep = Ok l <->
  exists loc ln addr, Locator_Parse ep = Ok loc /\ loc_Scheme loc = SchemeTCP /\
    Listen (loc_Address loc) = Ok (ln, addr) /\ l = mkTcpListener ln (mkLocator SchemeTCP addr (loc_Metadata loc)).
Proof.
  unfold bindListener, mbind, result_bind. destruct (Locator_Parse ep) as [loc|e]; [|by split; [|intros (? & ? & ? & [=] & _)]].
  rewrite ListenerFactoryFor_spec.
  destruct (loc_Scheme loc) eqn:Es; [|split; [done|intros (? & ? & ? & [= <-] & ? & _); congruence]..].
  unfold tcp_Listen. rewrite Es. destruct (Listen (loc_Address loc)) as [[ln addr]|e] eqn:E.
  - split; [intros [= <-]; by exists loc, ln, addr|]. intros (? & ? & ? & [= <-] & _ & E' & ->). congruence.
  - split; [done|]. intros (? & ? & ? & [= <-] & _ & E' & ->). congruence.
Qed.
End Registries.

(** ** udp_multicast.go *)

Section MulticastLink.
Context {Addr Interface : Type} (ResolveUDPAddr : bytes -> result Addr) (is_v4 : Addr -> bool)
  (refusal : nat -> option error).

Record UDPMulticastLink := mkMulticastLink {
  ml_listenConn : nat; ml_sendConn : nat; ml_group : Addr; ml_loc : Locator; ml_batchSize : Z }.
Record MulticastDialOpts := mkMulticastDialOpts {
  mo_Interface : option Interface; mo_TTL : Z; mo_LoopbackDisabled : bool; mo_BatchSize : Z }.

Definition dial_plan (loc : Locator) (opts : MulticastDialOpts) : @Plan Interface :=
  mkPlan (loc_Address loc) (mo_Interface opts) (mo_TTL opts) true true (mo_LoopbackDisabled opts) [].

Definition DialMulticastUDP (loc : Locator) (opts : MulticastDialOpts) : sem (os (Addr := Addr) (Interface := Interface)) UDPMulticastLink :=
  fun s =>
  if negb (bool_decide (loc_Scheme loc = SchemeUDP)) then (Err (ErrMsg "udp_multicast: expected udp scheme"), s)
  else match Open ResolveUDPAddr is_v4 refusal (dial_plan loc opts) s with
  | (Err e, s) => (Err (ErrWrap "udp_multicast: open sockets" e), s)
  | (Ok sockets, s) =>
      let '(send, listen, group) :=
        match SendV4 sockets with
        | Some _ => (SendV4 sockets, ListenV4 sockets, McastV4 sockets)
        | None => (SendV6 sockets, ListenV6 sockets, McastV6 sockets)
        end in
      match send, listen, group with
      | Some send, Some listen, Some group =>
          (Ok (mkMulticastLink listen send group loc (positive_or (mo_BatchSize opts) MulticastBatchSize)),
           fold_left (fun s c => if bool_decide (c <> send /\ c <> listen) then Sockets.Close c s else s)
             (Conns sockets) s)
      | _, _, _ => (Err (ErrMsg "udp_multicast: failed to open both send and listen sockets"), CloseAll sockets s)
      end
  end.

Definition UDPMulticastLink_Close (l : UDPMulticastLink) (s : os (Addr := Addr) (Interface := Interface)) :=
  Sockets.Close (ml_listenConn l) (Sockets.Close (ml_sendConn l) s).

Lemma Open_held (plan : @Plan Interface) s sock s' : Open ResolveUDPAddr is_v4 refusal plan s = (Ok sock, s') -> held (os_live s) (os_next s) 4 (s', sock).
Proof.
  unfold Sockets.Open. destruct (resolvePlan _ _ plan) as [r|e]; [|done].
  set (out := mkSockets None None None None _ _ _ _). intros E.
  assert (H0 : held (os_live s) (os_next s) 0 (s, out)).
  { split; [by rewrite app_nil_r|done|constructor|]. intros i _.
    destruct i as [|[|[|[|i]]]]; cbn; auto; lia. }
  apply (open_sockets_held refusal (os_live s) (os_next s) plan r) in H0.
  destruct (open_sockets refusal plan r (s, out)) as [[[]|e] [s1 sock1]]; [|done]. by simplify_eq.
Qed.

(** The sockets of a dial: a pair for the family of the group. *)
Lemma dial_sockets loc (opts : MulticastDialOpts) s sock s' : Forall (fun c => (c < os_next s)%nat) (os_live s) ->
  loc_Address loc <> [] -> Open ResolveUDPAddr is_v4 refusal (dial_plan loc opts) s = (Ok sock, s') ->
  exists send listen group, ResolveUDPAddr (loc_Address loc) = Ok group /\ Conns sock = [send; listen] /\
    if is_v4 group then SendV4 sock = Some send /\ ListenV4 sock = Some listen /\ McastV4 sock = Some group
    else SendV4 sock = None /\ SendV6 sock = Some send /\ ListenV6 sock = Some listen /\ McastV6 sock = Some group.
Proof.
  intros Hs Ha E. pose proof (Open_keeps_no_other ResolveUDPAddr is_v4 refusal (dial_plan loc opts) s Hs) as H.
  rewrite E in H. destruct H as (_ & r & Hr & _ & _ & M4 & M6 & S4 & S6 & L4 & L6 & _).
  unfold resolvePlan, dial_plan in Hr. cbn in Hr. destruct (loc_Address loc) as [|x l]; [done|]. cbn in Hr.
  destruct (ResolveUDPAddr (x :: l)) as [group|e]; [|done].
  unfold add_target in Hr. destruct (is_v4 group) eqn:Ev; injection Hr as <-; cbn in *; rewrite M4, M6 in *;
    destruct sock as [s4 s6 l4 l6 ? ? ? ?]; cbn in *; unfold is_Some in *.
  - assert (s6 = None) as -> by (destruct s6; naive_solver). assert (l6 = None) as -> by (destruct l6; naive_solver).
    destruct S4 as [_ [send ->]]; [done|]. destruct L4 as [_ [listen ->]]; [naive_solver|].
    exists send, listen, group. by rewrite Ev.
  - assert (s4 = None) as -> by (destruct s4; naive_solver). assert (l4 = None) as -> by (destruct l4; naive_solver).
    destruct S6 as [_ [send ->]]; [done|]. destruct L6 as [_ [listen ->]]; [naive_solver|].
    exists send, listen, group. by rewrite Ev.
Qed.

(** Whatever calls the system refuses, a dial that fails leaves open what was
    open before; one that succeeds leaves open two sockets more, both of the
    family of the group, and none once the link is closed. *)
Lemma DialMulticastUDP_sockets loc opts s : Forall (fun c => (c < os_next s)%nat) (os_live s) ->
  loc_Address loc <> [] ->
  match DialMulticastUDP loc opts s with
  | (Err _, s') => os_live s' ≡ₚ os_live s
  | (Ok link, s') =>
      loc_Scheme loc = SchemeUDP /\ ResolveUDPAddr (loc_Address loc) = Ok (ml_group link) /\
      os_live s' ≡ₚ os_live s ++ [ml_sendConn link; ml_listenConn link] /\ 0 < ml_batchSize link /\
      os_live (UDPMulticastLink_Close link s') ≡ₚ os_live s
  end.
Proof.
  intros Hs Ha. unfold DialMulticastUDP. destruct (decide (loc_Scheme loc = SchemeUDP)) as [Hu|Hu].
  2:{ rewrite (bool_decide_eq_false_2 _ Hu). cbn. reflexivity. }
  rewrite (bool_decide_eq_true_2 _ Hu). cbn [negb].
  destruct (Open ResolveUDPAddr is_v4 refusal (dial_plan loc opts) s) as [[sock|e] s'] eqn:E.
  2:{ pose proof (Open_keeps_no_other ResolveUDPAddr is_v4 refusal (dial_plan loc opts) s Hs) as H. by rewrite E in H. }
  destruct (dial_sockets loc opts s sock s' Hs Ha E) as (send & listen & group & Hg & Hc & Hf).
  pose proof (Open_held _ _ _ _ E) as Hh. pose proof (hd_live _ _ _ _ Hh) as Hl. cbn [fst snd] in Hl. rewrite Hc in Hl.
  assert (Hfam : exists l, (match SendV4 sock with Some _ => (SendV4 sock, ListenV4 sock, McastV4 sock)
      | None => (SendV6 sock, ListenV6 sock, McastV6 sock) end) = l /\ l = (Some send, Some listen, Some group)).
  { eexists. split; [done|]. destruct (is_v4 group); [destruct Hf as (-> & -> & ->)|destruct Hf as (-> & -> & -> & ->)]; done. }
  destruct Hfam as (l & -> & ->). rewrite Hc. cbn [fold_left ml_group ml_sendConn ml_listenConn ml_batchSize].
  rewrite !bool_decide_eq_false_2 by naive_solver.
  split_and!; [done..| |].
  - unfold positive_or. by destruct (Z.leb_spec (mo_BatchSize opts) 0).
  - pose proof (held_closed refusal _ _ _ _ Hs Hh) as Hx. cbn [fst snd] in Hx. unfold CloseAll in Hx. by rewrite Hc in Hx.
Qed.
End MulticastLink.

(** ** tcp.go: Accept

    Calls of [Accept], one after the other, each with its context, and the
    goroutine each leaves behind, which sets the deadline of the socket in the
    past when its context ends and leaves when the call is over. *)

Inductive accept_result := AcLink | AcListenerClosed | AcContext | AcTimeout | AcError.

#[export] Instance accept_result_eq_dec : EqDecision accept_result.
Proof. solve_decision. Defined.

(** [AFailed]: the system call has failed, [timeout] for the deadline. *)
Inductive accept_pc :=
  | AIdle | ACheck (ctx : nat) | AClear (ctx : nat) | AWait (ctx : nat) | AFailed (ctx : nat) (timeout : bool).

(** [al_helpers]: the goroutines, with the number of their call and its
    context; [al_results]: the calls that have returned. *)
Record acceptor := mkAcceptor {
  al_expired : bool; al_closed : bool; al_cancelled : list nat; al_pc : accept_pc;
  al_helpers : list (nat * nat); al_results : list (nat * accept_result) }.

Inductive accept_action :=
  | AcCaller | AcHelper (i : nat) (quit : bool) | AcCall (ctx : nat) | AcIncoming (ok : bool) | AcCancel (ctx : nat) | AcClose.

Definition cancelled (ctx : nat) (a : acceptor) : bool := bool_decide (ctx ∈ al_cancelled a).

(** [close(done)] has been called. *)
Definition call_over (n : nat) (a : acceptor) : bool := (n <? length (al_results a))%nat.

Definition set_accept_pc (pc : accept_pc) (a : acceptor) : acceptor :=
  mkAcceptor (al_expired a) (al_closed a) (al_cancelled a) pc (al_helpers a) (al_results a).

Definition accept_return (ctx : nat) (r : accept_result) (a : acceptor) : acceptor :=
  mkAcceptor (al_expired a) (al_closed a) (al_cancelled a) AIdle (al_helpers a) (al_results a ++ [(ctx, r)]).

(** A step of [Accept]; the system call returns a connection or an error of
    its own at [AcIncoming]. *)
Definition Accept_step (a : acceptor) : option acceptor :=
  match al_pc a with
  | AIdle => None
  | ACheck ctx => Some (if cancelled ctx a then accept_return ctx AcContext a else set_accept_pc (AClear ctx) a)
  | AClear ctx =>
      Some (mkAcceptor false (al_closed a) (al_cancelled a) (AWait ctx)
              (al_helpers a ++ [(length (al_results a), ctx)]) (al_results a))
  | AWait ctx =>
      if al_closed a then Some (accept_return ctx AcListenerClosed a)
      else if al_expired a then Some (set_accept_pc (AFailed ctx true) a) else None
  | AFailed ctx timeout =>
      Some (accept_return ctx (if cancelled ctx a then AcContext else if timeout then AcTimeout else AcError) a)
  end.

(** The [select] of the goroutine: [quit] when it takes [done]. *)
Definition helper_step (i : nat) (quit : bool) (a : acceptor) : option acceptor :=
  '(n, ctx) ← al_helpers a !! i;
  if quit : bool then
    if call_over n a
    then Some (mkAcceptor (al_expired a) (al_closed a) (al_cancelled a) (al_pc a) (delete i (al_helpers a)) (al_results a))
    else None
  else
    if cancelled ctx a
    then Some (mkAcceptor true (al_closed a) (al_cancelled a) (al_pc a) (delete i (al_helpers a)) (al_results a))
    else None.

Definition accept_act (x : accept_action) (a : acceptor) : option acceptor :=
  match x with
  | AcCaller => Accept_step a
  | AcHelper i quit => helper_step i quit a
  | AcCall ctx => match al_pc a with AIdle => Some (set_accept_pc (ACheck ctx) a) | _ => None end
  | AcIncoming ok =>
      match al_pc a with
      | AWait ctx =>
          if al_closed a || al_expired a then None
          else Some (if ok then accept_return ctx AcLink a else set_accept_pc (AFailed ctx false) a)
      | _ => None
      end
  | AcCancel ctx =>
      Some (mkAcceptor (al_expired a) (al_closed a) (ctx :: al_cancelled a) (al_pc a) (al_helpers a) (al_results a))
  | AcClose => Some (mkAcceptor (al_expired a) true (al_cancelled a) (al_pc a) (al_helpers a) (al_results a))
  end.

Definition start_accept : acceptor := mkAcceptor false false [] AIdle [] [].

Fixpoint run_accept (acts : list accept_action) (a : acceptor) : option acceptor :=
  match acts with
  | [] => Some a
  | x :: acts => accept_act x a ≫= run_accept acts
  end.

(** The call under way, with its context. *)
Definition accepting (ctx : nat) (pc : accept_pc) : Prop := pc = AWait ctx \/ exists t, pc = AFailed ctx t.

(** Why a call returned what it did: a timeout is the mark of an earlier call
    with another context. *)
Definition accept_cause (a : acceptor) (i ctx : nat) (r : accept_result) : Prop :=
  match r with
  | AcListenerClosed => al_closed a = true
  | AcContext => ctx ∈ al_cancelled a
  | AcTimeout => exists j ctx' r', (j < i)%nat /\ al_results a !! j = Some (ctx', r') /\
      ctx' ∈ al_cancelled a /\ ctx' <> ctx
  | AcLink | AcError => True
  end.

(** The context of call number [n] is [ctx]. *)
Definition call_ctx (a : acceptor) (n ctx : nat) : Prop :=
  match al_results a !! n with
  | Some (ctx', _) => ctx' = ctx
  | None => n = length (al_results a) /\ accepting ctx (al_pc a)
  end.

Record accept_ok (a : acceptor) : Prop := {
  a_helpers : forall n ctx, (n, ctx) ∈ al_helpers a -> call_ctx a n ctx;
  a_expired : al_expired a = true -> exists n ctx, ctx ∈ al_cancelled a /\ call_ctx a n ctx;
  a_failed : forall ctx, al_pc a = AFailed ctx true -> al_expired a = true;
  a_waiting : forall ctx, al_pc a = AWait ctx ->
    al_expired a = true \/ (length (al_results a), ctx) ∈ al_helpers a;
  a_results : forall i ctx r, al_results a !! i = Some (ctx, r) -> accept_cause a i ctx r }.

Lemma accept_ok_start : accept_ok start_accept.
Proof. constructor; cbn; try done; intros *; by rewrite ?elem_of_nil. Qed.

(** The end of a call. *)
Lemma accept_return_ok ctx r a : accept_ok a -> (accepting ctx (al_pc a) \/ al_pc a = ACheck ctx) ->
  (accept_cause (accept_return ctx r a) (length (al_results a)) ctx r) -> accept_ok (accept_return ctx r a).
Proof.
  intros [H1 H2 _ _ H5] Hp Hc.
  assert (Hcc : forall n c, call_ctx a n c -> call_ctx (accept_return ctx r a) n c).
  { unfold call_ctx. cbn. intros n c H. destruct (al_results a !! n) as [[c' r']|] eqn:E.
    - by rewrite (lookup_app_l_Some _ _ _ _ E).
    - destruct H as [-> Ha]. rewrite list_lookup_middle by done.
      by destruct Ha as [Ha|[? Ha]], Hp as [[Hp|[? Hp]]|Hp]; congruence. }
  constructor; cbn; try done.
  - auto.
  - intros He. destruct (H2 He) as (n & c & Hx & Hn). eauto.
  - intros i c r' Hi. apply lookup_app_Some in Hi as [Hi|[Hi Hi']].
    + specialize (H5 i c r' Hi). unfold accept_cause in *. destruct r'; try done.
      destruct H5 as (j & c' & r' & ? & Hj & ?). exists j, c', r'. cbn. by rewrite (lookup_app_l_Some _ _ _ _ Hj).
    + apply list_lookup_singleton_Some in Hi' as [Hi' [= <- <-]].
      by replace i with (length (al_results a)) by lia.
Qed.

(** The other steps. *)
Lemma accept_keep_ok a a' : accept_ok a -> al_results a' = al_results a ->
  (forall c, accepting c (al_pc a) -> accepting c (al_pc a')) ->
  al_cancelled a ⊆ al_cancelled a' -> (al_closed a = true -> al_closed a' = true) ->
  (forall n c, (n, c) ∈ al_helpers a' ->
    (n, c) ∈ al_helpers a \/ (n = length (al_results a) /\ accepting c (al_pc a'))) ->
  (al_expired a' = true -> al_expired a = true \/ exists n c, c ∈ al_cancelled a /\ (n, c) ∈ al_helpers a) ->
  (forall c, al_pc a' = AFailed c true -> al_expired a' = true) ->
  (forall c, al_pc a' = AWait c -> al_expired a' = true \/ (length (al_results a), c) ∈ al_helpers a') ->
  accept_ok a'.
Proof.
  intros [H1 H2 _ _ H5] Hr Hp Hx Hc Hh He Hf Hw.
  assert (Hcc : forall n c, call_ctx a n c -> call_ctx a' n c).
  { unfold call_ctx. intros n c. rewrite Hr. case_match; [done|]. intros [-> ?]. auto. }
  constructor; rewrite ?Hr; try done.
  - intros n c [Hn|[-> Hn]]%Hh; [auto|]. unfold call_ctx. by rewrite Hr, lookup_ge_None_2.
  - intros [(n & c & ? & ?)%H2|(n & c & ? & ?)]%He; exists n, c; auto.
  - intros i c r Hi. specialize (H5 i c r Hi). unfold accept_cause in *. rewrite Hr.
    destruct r; auto. destruct H5 as (j & c' & r' & ? & ? & ? & ?). exists j, c', r'. auto.
Qed.

Lemma Accept_step_ok a a' : accept_ok a -> Accept_step a = Some a' -> accept_ok a'.
Proof.
  intros Ha. pose proof Ha as [H1 H2 H3 H4 H5]. unfold Accept_step.
  assert (Hno : forall c p, (p = ACheck c \/ p = AClear c) -> forall x, accepting x p -> False)
    by (intros c p [-> | ->] x [[=]|[? [=]]]).
  destruct (al_pc a) as [|c|c|c|c t] eqn:Ep; [done| | | |].
  - destruct (cancelled c a) eqn:Ec; intros [= <-].
    + apply accept_return_ok; [done|by right|]. by apply bool_decide_eq_true in Ec.
    + apply (accept_keep_ok a); cbn; auto; try done. rewrite Ep. intros x []%(Hno c); auto.
  - intros [= <-]. apply (accept_keep_ok a); cbn; try done.
    + rewrite Ep. intros x []%(Hno c); auto.
    + intros n x [Hn|[= -> ->]%list_elem_of_singleton]%elem_of_app; [auto|]. right. split; [done|by left].
    + intros x [= <-]. right. set_solver.
  - destruct (al_closed a) eqn:Ec; [|destruct (al_expired a) eqn:Ee; [|done]]; intros [= <-].
    + apply accept_return_ok; [done|rewrite Ep; left; by left|]. done.
    + apply (accept_keep_ok a); cbn; auto; rewrite ?Ec, ?Ep; try done.
      intros x [[= ->]|[? [=]]]. right. by eexists.
  - intros [= <-]. apply accept_return_ok; [done|rewrite Ep; left; right; by eexists|].
    destruct (cancelled c a) eqn:Ec; [by apply bool_decide_eq_true in Ec|]. apply bool_decide_eq_false in Ec.
    destruct t; [|done]. destruct (H2 (H3 c eq_refl)) as (n & x & Hx & Hn). unfold call_ctx in Hn.
    destruct (al_results a !! n) as [[x' r]|] eqn:En.
    + subst x'. exists n, x, r. cbn. rewrite (lookup_app_l_Some _ _ _ _ En).
      split; [by eapply lookup_lt_Some|]. split; [done|]. split; [done|]. by intros ->.
    + destruct Hn as [_ [Hn|[t Hn]]]; [congruence|]. rewrite Ep in Hn. by injection Hn as -> _.
Qed.

Lemma accept_act_ok x a a' : accept_ok a -> accept_act x a = Some a' -> accept_ok a'.
Proof.
  intros Ha. destruct x as [|i quit|c|ok|c|]; cbn [accept_act].
  - by apply Accept_step_ok.
  - unfold helper_step. destruct (al_helpers a !! i) as [[n c]|] eqn:Ei; [|done]. cbn [mbind option_bind].
    pose proof (list_elem_of_lookup_2 _ _ _ Ei) as Hin. pose proof (a_helpers _ Ha n c Hin) as Hn.
    assert (Hdel : forall h, h ∈ al_helpers a <-> h = (n, c) \/ h ∈ delete i (al_helpers a)).
    { intros h. rewrite <- elem_of_cons. pose proof (delete_Permutation _ _ _ Ei) as Hp.
      split; intros H; [by rewrite <- Hp|by rewrite Hp]. }
    destruct quit; [destruct (call_over n a) eqn:En; [|done]|destruct (cancelled c a) eqn:Ec; [|done]]; intros [= <-].
    + apply Nat.ltb_lt in En. apply (accept_keep_ok a); cbn; auto; try apply Ha; [by intros; left; apply Hdel; right|].
      intros x Hp. destruct (a_waiting _ Ha x Hp) as [?|[[= <- _]|?]%Hdel]; [by left|lia|by right].
    + apply bool_decide_eq_true in Ec. apply (accept_keep_ok a); cbn; auto; [by intros; left; apply Hdel; right|].
      intros _. right. eauto.
  - destruct (al_pc a) eqn:Ep; try done. intros [= <-]. apply (accept_keep_ok a); cbn; auto; try done.
    rewrite Ep. by intros x [|[]].
  - destruct (al_pc a) as [| | |c|] eqn:Ep; try done. destruct (_ || _) eqn:Ee; [done|].
    destruct ok; intros [= <-].
    + apply accept_return_ok; [done|rewrite Ep; left; by left|done].
    + apply (accept_keep_ok a); cbn; auto; try done. rewrite Ep. intros x [[= ->]|[? [=]]]. right. by eexists.
  - intros [= <-]. apply (accept_keep_ok a); cbn; auto; try apply Ha. set_solver.
  - intros [= <-]. apply (accept_keep_ok a); cbn; auto; apply Ha.
Qed.

Lemma run_accept_ok acts : forall a a', accept_ok a -> run_accept acts a = Some a' -> accept_ok a'.
Proof.
  induction acts as [|x acts IH]; intros a a' Ha; cbn [run_accept]; [by intros [= <-]|].
  destruct (accept_act x a) as [a1|] eqn:E; [|done]. by apply IH, (accept_act_ok x a).
Qed.

(** The steps of the callers and the goroutines. *)
Definition is_aown (x : accept_action) : bool := match x with AcCaller | AcHelper _ _ => true | _ => false end.
Definition aown_steps (acts : list accept_action) : nat := length (filter (fun x => is_aown x = true) acts).
Definition is_call (x : accept_action) : bool := match x with AcCall _ => true | _ => false end.
Definition calls_made (acts : list accept_action) : nat := length (filter (fun x => is_call x = true) acts).

Definition accept_rank (p : accept_pc) : nat :=
  match p with AIdle => 0 | AFailed _ _ => 1 | AWait _ => 2 | AClear _ => 4 | ACheck _ => 5 end.

Lemma accept_act_rank x a a' : accept_act x a = Some a' ->
  ((if is_aown x then 1 else 0) + (accept_rank (al_pc a') + length (al_helpers a')) <=
   accept_rank (al_pc a) + length (al_helpers a) + if is_call x then 5 else 0)%nat.
Proof.
  destruct x as [|i quit|c|ok|c|]; cbn [accept_act is_aown is_call].
  - unfold Accept_step. destruct (al_pc a) as [|c|c|c|c t]; [done|..].
    + intros [= <-]. destruct (cancelled c a); cbn; lia.
    + intros [= <-]. cbn. rewrite length_app. cbn. lia.
    + destruct (al_closed a); [|destruct (al_expired a); [|done]]; intros [= <-]; cbn; lia.
    + intros [= <-]. cbn. lia.
  - unfold helper_step. destruct (al_helpers a !! i) as [[n c]|] eqn:Ei; [|done]. cbn [mbind option_bind].
    assert (Hd : length (delete i (al_helpers a)) = (length (al_helpers a) - 1)%nat) by (apply length_delete; by rewrite Ei).
    apply lookup_lt_Some in Ei.
    destruct quit; [destruct (call_over n a); [|done]|destruct (cancelled c a); [|done]]; intros [= <-]; cbn; lia.
  - destruct (al_pc a); try done. intros [= <-]. cbn. lia.
  - destruct (al_pc a); try done. destruct (_ || _); [done|]. destruct ok; intros [= <-]; cbn; lia.
  - intros [= <-]. cbn. lia.
  - intros [= <-]. cbn. lia.
Qed.

Lemma run_accept_rank acts : forall a a', run_accept acts a = Some a' ->
  (aown_steps acts + (accept_rank (al_pc a') + length (al_helpers a')) <=
   accept_rank (al_pc a) + length (al_helpers a) + 5 * calls_made acts)%nat.
Proof.
  induction acts as [|x acts IH]; intros a a'; cbn [run_accept]; [intros [= <-]; cbn; lia|].
  destruct (accept_act x a) as [a1|] eqn:E; [|done]. intros H%IH. apply accept_act_rank in E.
  unfold aown_steps, calls_made in *. rewrite !filter_cons.
  destruct (is_aown x), (is_call x); repeat ((rewrite decide_True by done) || (rewrite decide_False by done));
    cbn [length]; lia.
Qed.

(** When the caller and the goroutines can do nothing: no call is under way,
    or one that waits for a connection, its context and the listener being
    open, and the goroutine of that call is the only one. *)
Lemma accept_stuck a : accept_ok a -> (forall x, is_aown x = true -> accept_act x a = None) ->
  (al_pc a = AIdle /\ al_helpers a = []) \/
  (exists c, al_pc a = AWait c /\ al_closed a = false /\ (c ∉ al_cancelled a) /\
     forall h, h ∈ al_helpers a -> h = (length (al_results a), c)).
Proof.
  intros Ha Hs.
  assert (Hh : forall n c, (n, c) ∈ al_helpers a ->
    n = length (al_results a) /\ accepting c (al_pc a) /\ c ∉ al_cancelled a).
  { intros n c Hn. pose proof (a_helpers _ Ha n c Hn) as Hc. apply list_elem_of_lookup in Hn as [i Hi].
    pose proof (Hs (AcHelper i true) eq_refl) as H1. pose proof (Hs (AcHelper i false) eq_refl) as H2.
    cbn in H1, H2. unfold helper_step in H1, H2. rewrite Hi in H1, H2. cbn [mbind option_bind] in H1, H2.
    unfold call_over in H1. unfold cancelled in H2. unfold call_ctx in Hc.
    destruct (Nat.ltb_spec n (length (al_results a))); [done|]. rewrite lookup_ge_None_2 in Hc by lia.
    case_bool_decide; [done|]. naive_solver. }
  pose proof (Hs AcCaller eq_refl) as Hc. cbn in Hc. unfold Accept_step in Hc.
  destruct (al_pc a) as [|c|c|c|c t] eqn:Ep; try done.
  - left. split; [done|]. destruct (al_helpers a) as [|[n c] l]; [done|].
    destruct (Hh n c) as (_ & [[=]|[? [=]]] & _). by left.
  - right. exists c. destruct (al_closed a); [done|]. destruct (al_expired a) eqn:Ee; [done|].
    split; [done|]. split; [done|]. split.
    + destruct (a_waiting _ Ha c Ep) as [?|Hw]; [congruence|]. by destruct (Hh _ _ Hw) as (_ & _ & ?).
    + intros [n x] Hn. destruct (Hh _ _ Hn) as (-> & [[= ->]|[? [=]]] & _). done.
Qed.

(** The calls of a listener that has one context for all of them, as
    [runAcceptLoop] has, never return a timeout. *)
Lemma one_context_no_timeout acts a ctx : run_accept acts start_accept = Some a ->
  (forall i c r, al_results a !! i = Some (c, r) -> c = ctx) ->
  forall i c, al_results a !! i <> Some (c, AcTimeout).
Proof.
  intros Hr Hone i c Hi. pose proof (run_accept_ok _ _ _ accept_ok_start Hr) as Ha.
  destruct (a_results _ Ha _ _ _ Hi) as (j & c' & r' & _ & Hj & _ & Hne).
  apply Hone in Hi, Hj. congruence.
Qed.

(** The context of the first call ends while the call returns a connection;
    its goroutine sets the deadline after the second call has cleared it. *)
Lemma stale_deadline : exists acts a, run_accept acts start_accept = Some a /\
  al_closed a = false /\ al_cancelled a = [1%nat] /\ al_results a = [(1%nat, AcLink); (2%nat, AcTimeout)].
Proof.
  exists [AcCall 1; AcCaller; AcCaller; AcCancel 1; AcIncoming true; AcCall 2; AcCaller; AcCaller;
     AcHelper 0 false; AcCaller; AcCaller].
  eexists. split; [vm_compute; reflexivity|]. done.
Qed.

(** C24: Whatever calls of Accept a TCP listener gets, one after the other,
    with whatever contexts, and however their goroutines, the ends of
    contexts, connections and Close interleave: a call that reports its
    context's error had a context that ended, one that reports a closed
    listener was on one, one that returns a timeout comes after a call with
    another context that ended; the calls and their goroutines take at most
    five steps per call; and when none can step, no call is under way and no
    goroutine is left, or a call waits on an open listener with a live
    context. *)
Theorem accept_outcomes acts a : run_accept acts start_accept = Some a ->
  (forall i ctx r, al_results a !! i = Some (ctx, r) -> accept_cause a i ctx r) /\
  (aown_steps acts <= 5 * calls_made acts)%nat /\
  ((forall x, is_aown x = true -> accept_act x a = None) ->
   (al_pc a = AIdle /\ al_helpers a = []) \/
   (exists c, al_pc a = AWait c /\ al_closed a = false /\ (c ∉ al_cancelled a) /\
      forall h, h ∈ al_helpers a -> h = (length (al_results a), c))).
Proof.
  intros Hr. pose proof (run_accept_ok _ _ _ accept_ok_start Hr) as Ha.
  apply run_accept_rank in Hr. change (al_pc start_accept) with AIdle in Hr. cbn in Hr. split_and!.
  - apply Ha.
  - lia.
  - by apply accept_stuck.
Qed.

(** A call that its context ends, one that is given a connection and one that
    the closing listener ends. *)
Definition accepted : list accept_action :=
  [AcCall 1; AcCaller; AcCaller; AcCancel 1; AcHelper 0 false; AcCaller; AcCaller; AcCall 2; AcCaller;
   AcCaller; AcIncoming true; AcHelper 0 true; AcCall 2; AcCaller; AcCaller; AcClose; AcCaller; AcHelper 0 true].

Lemma accept_outcomes_witness : exists a, run_accept accepted start_accept = Some a /\
  al_results a = [(1%nat, AcContext); (2%nat, AcLink); (2%nat, AcListenerClosed)] /\
  al_pc a = AIdle /\ al_helpers a = [].
Proof.
  destruct (run_accept accepted start_accept) as [a|] eqn:E; [|by vm_compute in E].
  destruct (accept_outcomes accepted a E) as (_ & _ & Hs).
  exists a. split; [done|]. vm_compute in E. injection E as <-. split; [done|].
  destruct Hs as [Hs|(c & [=] & _)]; [|done]. intros [|[|i] []| | | |]; by cbn.
Defined.
