(* ===== verification/Supervise.v ===== *)
(** * internal/session/run.go, watchdog.go: the goroutines of a runtime

    A runtime is a reader, a writer, a keepalive sender, a lease watchdog and
    an orchestrator that joins them, with callers of Shutdown and
    GracefulShutdown.  They run here at the granularity of their channel
    operations; what the reader and the writer do with their data is the
    subject of [SessionReader] and [Writer].  The second part is the watchdog
    with its clock. *)
From S2P Require Import Prelude Session Reconnect.

(** ** State *)

Inductive chan := ChStop | ChDrain | ChWriterDone | ChLinkClosed | ChDone.

(** What happens once to a runtime: [close] of a channel, [link.Close], the
    cancelling of the Gets in flight. *)
Inductive event := EClose (c : chan) | ELinkClose | ECancelGets.

#[export] Instance chan_eq_dec : EqDecision chan.
Proof. solve_decision. Defined.
#[export] Instance event_eq_dec : EqDecision event.
Proof. solve_decision. Defined.

(** Where the function given to [stopOnce.Do] is. *)
Inductive body := BDrain | BWait | BLink | BStop.
Inductive once_state := ONew | ORunning (b : body) | ODone.

(** A call of Shutdown ([graceful = false]) or GracefulShutdown: at
    [stopOnce.Do], and then until [Do] returns. [Do] returns to whoever runs
    the function, and to those who came later, when it is over. *)
Inductive shut_pc := XDo (graceful : bool) | XWait | XReturned.

(** [rt_broken]: the peer or the network ended the link. [rt_fast] and
    [rt_timedOut]: Shutdown came first; the time of GracefulShutdown was up. *)
Record shared := mkShared {
  rt_log : list event; rt_once : once_state; rt_broken : bool; rt_outQ : nat;
  rt_peerClose : option Z; rt_fast : bool; rt_timedOut : bool }.

Definition happened (e : event) (s : shared) : bool := bool_decide (e ∈ rt_log s).
Definition log_event (e : event) (s : shared) : shared :=
  mkShared (rt_log s ++ [e]) (rt_once s) (rt_broken s) (rt_outQ s) (rt_peerClose s) (rt_fast s) (rt_timedOut s).
Definition close (c : chan) : shared -> shared := log_event (EClose c).
Definition closed (c : chan) : shared -> bool := happened (EClose c).
Definition set_once (o : once_state) (s : shared) : shared :=
  mkShared (rt_log s) o (rt_broken s) (rt_outQ s) (rt_peerClose s) (rt_fast s) (rt_timedOut s).
Definition set_outQ (n : nat) (s : shared) : shared :=
  mkShared (rt_log s) (rt_once s) (rt_broken s) n (rt_peerClose s) (rt_fast s) (rt_timedOut s).
Definition set_peerClose (r : option Z) (s : shared) : shared :=
  mkShared (rt_log s) (rt_once s) (rt_broken s) (rt_outQ s) r (rt_fast s) (rt_timedOut s).
Definition set_broken (s : shared) : shared :=
  mkShared (rt_log s) (rt_once s) true (rt_outQ s) (rt_peerClose s) (rt_fast s) (rt_timedOut s).
Definition set_fast (s : shared) : shared :=
  mkShared (rt_log s) (rt_once s) (rt_broken s) (rt_outQ s) (rt_peerClose s) true (rt_timedOut s).
Definition set_timedOut (s : shared) : shared :=
  mkShared (rt_log s) (rt_once s) (rt_broken s) (rt_outQ s) (rt_peerClose s) (rt_fast s) true.

(** A read of the link fails. *)
Definition link_down (s : shared) : bool := rt_broken s || happened ELinkClose s.

(** ** Shutdown and GracefulShutdown *)

(** The function run by [stopOnce]; [timer] is the choice of the [select]. *)
Definition once_step (timer : bool) (s : shared) : option shared :=
  match rt_once s with
  | ORunning BDrain => Some (close ChDrain (set_once (ORunning BWait) s))
  | ORunning BWait =>
      if timer then Some (set_timedOut (set_once (ORunning BLink) s))
      else if closed ChWriterDone s then Some (set_once (ORunning BLink) s) else None
  | ORunning BLink => Some (log_event ELinkClose (set_once (ORunning BStop) s))
  | ORunning BStop => Some (close ChStop (set_once ODone s))
  | _ => None
  end.

Definition shut_step (p : shut_pc) (s : shared) : option (shut_pc * shared) :=
  match p with
  | XDo graceful =>
      match rt_once s with
      | ONew =>
          Some (XWait, if graceful then set_once (ORunning BDrain) s
                       else set_fast (set_once (ORunning BLink) s))
      | _ => Some (XWait, s)
      end
  | XWait => match rt_once s with ODone => Some (XReturned, s) | _ => None end
  | XReturned => None
  end.

(** ** The goroutines *)

(** What comes of a batch: it is handled, it is not (or a handler panics), it
    ends in a CLOSE. *)
Inductive inbound := InBatch | InBad | InClose (reason : Z).

(** A message the handlers send before they return, the RESPONSE_FINAL of a
    query without a queryable or with a full one, goes into the queue of every
    runtime of the session: this one's and the others'. *)
Inductive send := SOwn | SOther.

#[export] Instance inbound_eq_dec : EqDecision inbound.
Proof. solve_decision. Defined.
#[export] Instance send_eq_dec : EqDecision send.
Proof. solve_decision. Defined.

(** [RSend]: in the handlers of a batch, with the sends left and what comes of
    it then; [RExit]: the deferred [close(linkClosed)]. *)
Inductive reader_pc :=
  | RCheck | RRead | RSend (todo : list send) (i : inbound) | RShut (p : shut_pc) | RExit | RGone.

#[export] Instance shut_pc_eq_dec : EqDecision shut_pc.
Proof. solve_decision. Defined.
#[export] Instance reader_pc_eq_dec : EqDecision reader_pc.
Proof. solve_decision. Defined.

Definition outQ_cap : nat := 256.

(** [deliverEncoded]: room in the queue, or the link's end; its context is the
    background's. *)
Definition send_step (s : shared) : option shared :=
  if (rt_outQ s <? outQ_cap)%nat then Some (set_outQ (S (rt_outQ s)) s)
  else if closed ChLinkClosed s then Some s else None.

(** A batch that is read comes with its sends and its outcome; when a send to
    another runtime ends, that runtime decides. *)
Definition reader_step (sends : list send) (i : inbound) (p : reader_pc) (s : shared) :
    option (reader_pc * shared) :=
  match p with
  | RCheck => Some (if closed ChStop s then RExit else RRead, s)
  | RRead => Some (if link_down s then RExit else RSend sends i, s)
  | RSend (SOwn :: todo) i => s ← send_step s; Some (RSend todo i, s)
  | RSend (SOther :: todo) i => Some (RSend todo i, s)
  | RSend [] InBatch => Some (RCheck, s)
  | RSend [] InBad => Some (RExit, s)
  | RSend [] (InClose reason) =>
      Some (RShut (XDo false),
            match rt_peerClose s with None => set_peerClose (Some reason) s | _ => s end)
  | RShut XReturned => Some (RCheck, s)
  | RShut p => '(p, s) ← shut_step p s; Some (RShut p, s)
  | RExit => Some (RGone, close ChLinkClosed s)
  | RGone => None
  end.

(** The [select]s of the writer, with the latch [dead]; the write of an item
    taken at one of them; the flush that ends [drainAvailable], the one that
    ends [drainOnExit], and the deferred one. *)
Inductive select_at := WSelect | WAvailable | WDraining.
Inductive flush_at := FAvailable | FDraining | FFinal.
Inductive writer_pc := WAt (a : select_at) (dead : bool) | WItem (a : select_at) | WFlush (f : flush_at) | WGone.

Inductive wchoice := WTake | WDefault | WDrain | WStop.

(** [fails]: the write fails, as it must on a link that was closed. *)
Definition writer_step (c : wchoice) (fails : bool) (p : writer_pc) (s : shared) :
    option (writer_pc * shared) :=
  let fails := fails || happened ELinkClose s in
  match p with
  | WAt a dead =>
      match c, a, rt_outQ s with
      | WTake, _, S n => Some (if dead then WAt a dead else WItem a, set_outQ n s)
      | WDrain, WSelect, _ => if closed ChDrain s then Some (WAt WDraining dead, s) else None
      | WStop, WSelect, _ => if closed ChStop s then Some (WFlush FFinal, s) else None
      | WDefault, WAvailable, O => Some (if dead then WAt WSelect dead else WFlush FAvailable, s)
      | WDefault, WDraining, O => Some (WFlush (if dead then FFinal else FDraining), s)
      | _, _, _ => None
      end
  | WItem WSelect => Some (WAt (if fails then WSelect else WAvailable) fails, s)
  | WItem a => Some (WAt a fails, s)
  | WFlush FAvailable => Some (WAt WSelect fails, s)
  | WFlush FDraining => Some (WFlush FFinal, s)
  | WFlush FFinal => Some (WGone, close ChWriterDone s)
  | WGone => None
  end.

(** The [select] of [keepaliveLoop], and its send. *)
Inductive keepalive_pc := KSelect | KSend | KGone.

Definition keepalive_step (stop : bool) (p : keepalive_pc) (s : shared) :
    option (keepalive_pc * shared) :=
  match p with
  | KGone => None
  | p =>
      if stop then if closed ChStop s then Some (KGone, s) else None
      else match p with
           | KSelect => Some (KSend, s)
           | _ => if (rt_outQ s <? outQ_cap)%nat then Some (KSelect, set_outQ (S (rt_outQ s)) s) else None
           end
  end.

(** [leaseWatchdog]: the second choice is a tick that finds the lease over;
    other ticks change nothing. *)
Inductive watchdog_pc := DSelect | DShut (p : shut_pc) | DGone.

Definition watchdog_step (stop : bool) (p : watchdog_pc) (s : shared) : option (watchdog_pc * shared) :=
  match p with
  | DSelect =>
      if stop then if closed ChStop s then Some (DGone, s) else None
      else Some (DShut (XDo false), s)
  | DShut XReturned => Some (DGone, s)
  | DShut p => '(p, s) ← shut_step p s; Some (DShut p, s)
  | DGone => None
  end.

Inductive orchestrator_pc := OWait | OShut (p : shut_pc) | OJoin | OCancel | OClose | OGone.

Definition orchestrator_step (all_gone : bool) (p : orchestrator_pc) (s : shared) :
    option (orchestrator_pc * shared) :=
  match p with
  | OWait => if closed ChLinkClosed s then Some (OShut (XDo false), s) else None
  | OShut XReturned => Some (OJoin, s)
  | OShut p => '(p, s) ← shut_step p s; Some (OShut p, s)
  | OJoin => if all_gone then Some (OCancel, s) else None
  | OCancel => Some (OClose, log_event ECancelGets s)
  | OClose => Some (OGone, close ChDone s)
  | OGone => None
  end.

(** ** All together *)

Record runtime := mkRuntime {
  r_shared : shared; r_reader : reader_pc; r_writer : writer_pc; r_keepalive : keepalive_pc;
  r_watchdog : watchdog_pc; r_orch : orchestrator_pc; r_callers : list shut_pc }.

Definition all_gone (g : runtime) : bool :=
  match r_reader g, r_writer g, r_keepalive g, r_watchdog g with
  | RGone, WGone, KGone, DGone => true
  | _, _, _, _ => false
  end.

Inductive action :=
  | AOnce (timer : bool)
  | AReader (sends : list send) (i : inbound)
  | AWriter (c : wchoice) (fails : bool)
  | AKeepalive (stop : bool)
  | AWatchdog (stop : bool)
  | AOrchestrator
  | ACaller (i : nat)
  | ACall (graceful : bool)
  | ASend
  | ABreak.

Definition act (a : action) (g : runtime) : option runtime :=
  let '(mkRuntime s r w k d o cs) := g in
  match a with
  | AOnce timer => s ← once_step timer s; Some (mkRuntime s r w k d o cs)
  | AReader sends i => '(r, s) ← reader_step sends i r s; Some (mkRuntime s r w k d o cs)
  | AWriter c fails => '(w, s) ← writer_step c fails w s; Some (mkRuntime s r w k d o cs)
  | AKeepalive stop => '(k, s) ← keepalive_step stop k s; Some (mkRuntime s r w k d o cs)
  | AWatchdog stop => '(d, s) ← watchdog_step stop d s; Some (mkRuntime s r w k d o cs)
  | AOrchestrator => '(o, s) ← orchestrator_step (all_gone g) o s; Some (mkRuntime s r w k d o cs)
  | ACaller i =>
      p ← cs !! i; '(p, s) ← shut_step p s; Some (mkRuntime s r w k d o (<[i := p]> cs))
  | ACall graceful => Some (mkRuntime s r w k d o (cs ++ [XDo graceful]))
  | ASend =>
      if (rt_outQ s <? outQ_cap)%nat then Some (mkRuntime (set_outQ (S (rt_outQ s)) s) r w k d o cs) else None
  | ABreak => Some (mkRuntime (set_broken s) r w k d o cs)
  end.

(** [Run]: the goroutines with a lease to keep are started only for one. *)
Definition Run (myLeaseMillis peerLeaseMillis : Z) : runtime :=
  mkRuntime (mkShared [] ONew false 0 None false false) RCheck (WAt WSelect false)
    (if 0 <? myLeaseMillis then KSelect else KGone)
    (if 0 <? peerLeaseMillis then DSelect else DGone) OWait [].

Definition step (g g' : runtime) : Prop := exists a, act a g = Some g'.
Definition reachable (g : runtime) : Prop := exists my peer, rtc step (Run my peer) g.

(** ** Invariant *)

(** A graceful end waits for the writer, unless its time is up. *)
Definition flushed (s : shared) : Prop :=
  rt_fast s = true \/ rt_timedOut s = true \/ EClose ChWriterDone ∈ rt_log s.

Definition once_ok (s : shared) : Prop :=
  match rt_once s with
  | ONew | ORunning BDrain =>
      (EClose ChDrain ∉ rt_log s) /\ (ELinkClose ∉ rt_log s) /\ EClose ChStop ∉ rt_log s
  | ORunning BWait => (ELinkClose ∉ rt_log s) /\ EClose ChStop ∉ rt_log s
  | ORunning BLink => (ELinkClose ∉ rt_log s) /\ (EClose ChStop ∉ rt_log s) /\ flushed s
  | ORunning BStop => ELinkClose ∈ rt_log s /\ (EClose ChStop ∉ rt_log s) /\ flushed s
  | ODone => ELinkClose ∈ rt_log s /\ EClose ChStop ∈ rt_log s /\ flushed s
  end.

Definition call_ok (s : shared) (p : shut_pc) : Prop :=
  match p with XDo _ => True | XWait => rt_once s <> ONew | XReturned => rt_once s = ODone end.

Definition orch_ok (g : runtime) : Prop :=
  match r_orch g with
  | OWait => True
  | OShut p => r_reader g = RGone /\ call_ok (r_shared g) p
  | OJoin => r_reader g = RGone /\ rt_once (r_shared g) = ODone
  | _ => all_gone g = true /\ rt_once (r_shared g) = ODone
  end.

Definition reader_ok (s : shared) (p : reader_pc) : Prop :=
  (EClose ChLinkClosed ∈ rt_log s <-> p = RGone) /\ match p with RShut p => call_ok s p | _ => True end.
Definition watchdog_ok (s : shared) (p : watchdog_pc) : Prop :=
  match p with DShut p => call_ok s p | _ => True end.

Record inv (g : runtime) : Prop := {
  i_log : NoDup (rt_log (r_shared g));
  i_once : once_ok (r_shared g);
  i_reader : reader_ok (r_shared g) (r_reader g);
  i_writer : EClose ChWriterDone ∈ rt_log (r_shared g) <-> r_writer g = WGone;
  i_watchdog : watchdog_ok (r_shared g) (r_watchdog g);
  i_callers : Forall (call_ok (r_shared g)) (r_callers g);
  i_orch : orch_ok g;
  i_cancel : ECancelGets ∈ rt_log (r_shared g) <-> r_orch g = OClose \/ r_orch g = OGone;
  i_done : EClose ChDone ∈ rt_log (r_shared g) <-> r_orch g = OGone }.

(** What a step of one goroutine leaves the others: the events of [own] are
    its own, and [stopOnce] moves on. *)
Record later (own : list event) (s s' : shared) : Prop := {
  la_log e : e ∉ own -> (e ∈ rt_log s' <-> e ∈ rt_log s);
  la_new : rt_once s <> ONew -> rt_once s' <> ONew;
  la_done : rt_once s = ODone -> rt_once s' = ODone }.

Lemma later_call own s s' p : later own s s' -> call_ok s p -> call_ok s' p.
Proof. intros [_ H1 H2]. destruct p; cbn; auto. Qed.
#[local] Hint Resolve later_call : core.

Lemma shut_step_ok p s p' s' : once_ok s -> call_ok s p -> shut_step p s = Some (p', s') ->
  rt_log s' = rt_log s /\ once_ok s' /\ call_ok s' p' /\ later [] s s'.
Proof.
  intros Ho Hp Hs. unfold once_ok, flushed in *. destruct p as [graceful| |]; cbn in *; [| |done].
  - destruct (rt_once s) as [|b|] eqn:E; injection Hs as <- <-.
    + destruct Ho as (H1 & H2 & H3).
      destruct graceful; cbn; (split; [done|]); (split; [by auto|]); split; try done; split; cbn;
        try done; congruence.
    + rewrite E. repeat split; done || congruence.
    + rewrite E. repeat split; done || congruence || tauto.
  - destruct (rt_once s) eqn:E; try done. injection Hs as <- <-. rewrite E.
    repeat split; done || congruence || tauto.
Qed.

Lemma later_refl s s' : rt_log s' = rt_log s -> rt_once s' = rt_once s -> later [] s s'.
Proof. intros H1 H2. split; by rewrite ?H1, ?H2. Qed.

Lemma once_ok_same s s' : rt_log s' = rt_log s -> rt_once s' = rt_once s -> rt_fast s' = rt_fast s ->
  rt_timedOut s' = rt_timedOut s -> once_ok s -> once_ok s'.
Proof. unfold once_ok, flushed. by intros -> -> -> ->. Qed.

Lemma NoDup_snoc {A} (l : list A) x : NoDup l -> x ∉ l -> NoDup (l ++ [x]).
Proof. intros H Hx. apply NoDup_app. split; [done|]. split; [set_solver|apply NoDup_singleton]. Qed.

Lemma once_step_ok timer s s' : NoDup (rt_log s) -> once_ok s -> once_step timer s = Some s' ->
  NoDup (rt_log s') /\ once_ok s' /\ later [EClose ChDrain; ELinkClose; EClose ChStop] s s'.
Proof.
  intros Hn Ho Hs. unfold once_ok, once_step, flushed, closed, happened in *.
  destruct (rt_once s) as [|b|] eqn:E; [done| |done].
  destruct b; [| | |]; repeat (case_match; try done); simplify_eq/=;
    try (rewrite bool_decide_eq_true in *);
    (split; [first [done|apply NoDup_snoc; [done|tauto]]|]);
    (split; [set_solver|]); split; cbn; try done; try congruence; set_solver.
Qed.

Lemma log_event_ok e s : e ∉ rt_log s -> e ∉ [EClose ChDrain; ELinkClose; EClose ChStop] ->
  NoDup (rt_log s) -> once_ok s ->
  NoDup (rt_log (log_event e s)) /\ once_ok (log_event e s) /\ later [e] s (log_event e s).
Proof.
  intros He Hne Hn Ho. split; [by apply NoDup_snoc|]. split.
  - unfold once_ok, flushed in *. cbn. destruct (rt_once s) as [|[]|]; set_solver.
  - split; cbn; [set_solver|done|done].
Qed.

Ltac not_own := apply (bool_decide_unpack _); vm_compute; exact I.

(** The parts of the invariant that a step of another goroutine leaves. *)
Lemma reader_later own s s' p : later own s s' -> EClose ChLinkClosed ∉ own ->
  reader_ok s p -> reader_ok s' p.
Proof.
  intros Hl Ho [H1 H2]. split; [by rewrite (la_log _ _ _ Hl)|]. destruct p; eauto.
Qed.

Lemma watchdog_later own s s' p : later own s s' -> watchdog_ok s p -> watchdog_ok s' p.
Proof. intros Hl. destruct p; cbn; eauto. Qed.

Lemma callers_later own s s' cs : later own s s' -> Forall (call_ok s) cs -> Forall (call_ok s') cs.
Proof. intros Hl H. eapply Forall_impl; [exact H|eauto]. Qed.

Lemma orch_later own s s' r w k d o cs w' k' d' cs' : later own s s' ->
  (all_gone (mkRuntime s r w k d o cs) = true -> all_gone (mkRuntime s' r w' k' d' o cs') = true) ->
  orch_ok (mkRuntime s r w k d o cs) -> orch_ok (mkRuntime s' r w' k' d' o cs').
Proof.
  intros Hl Hg. pose proof (la_done _ _ _ Hl). unfold orch_ok. cbn. destruct o; naive_solver eauto.
Qed.

(** A step in which the reader and the orchestrator do nothing. *)
Lemma inv_others own s r w k d o cs s' w' k' d' cs' :
  inv (mkRuntime s r w k d o cs) -> NoDup (rt_log s') -> once_ok s' -> later own s s' ->
  EClose ChLinkClosed ∉ own -> ECancelGets ∉ own -> EClose ChDone ∉ own ->
  (EClose ChWriterDone ∈ rt_log s' <-> w' = WGone) -> watchdog_ok s' d' ->
  Forall (call_ok s') cs' ->
  (all_gone (mkRuntime s r w k d o cs) = true -> all_gone (mkRuntime s' r w' k' d' o cs') = true) ->
  inv (mkRuntime s' r w' k' d' o cs').
Proof.
  intros [H1 H2 H3 H4 H5 H6 H7 H8 H9] Hn Ho Hl He1 He2 He3 Hw Hd Hc Hg.
  constructor; cbn in *; try done.
  - by eapply reader_later.
  - by eapply orch_later.
  - by rewrite (la_log _ _ _ Hl).
  - by rewrite (la_log _ _ _ Hl).
Qed.

Lemma writer_step_ok c fails p s p' s' : NoDup (rt_log s) -> once_ok s ->
  (EClose ChWriterDone ∈ rt_log s <-> p = WGone) -> writer_step c fails p s = Some (p', s') ->
  NoDup (rt_log s') /\ once_ok s' /\ later [EClose ChWriterDone] s s' /\ p <> WGone /\
  (EClose ChWriterDone ∈ rt_log s' <-> p' = WGone).
Proof.
  intros Hn Ho Hw Hs.
  assert (Hq : forall n, later [EClose ChWriterDone] s (set_outQ n s)) by by (intros n; split).
  assert (Hid : later [EClose ChWriterDone] s s) by by split.
  assert (Hne : p <> WGone) by by intros ->.
  assert (Hlog : EClose ChWriterDone ∉ rt_log s) by by rewrite Hw.
  destruct p as [a dead|a|[]|]; cbn in Hs; try done.
  - assert (Hs2 : p' <> WGone /\ (s' = s \/ exists n, s' = set_outQ n s))
      by (repeat (case_match; try done); simplify_eq; split; eauto; by destruct dead).
    destruct Hs2 as (Hp' & [->|[n ->]]); split_and!; try done.
  - assert (Hs2 : p' <> WGone /\ s' = s) by (repeat (case_match; try done); simplify_eq; split; eauto).
    destruct Hs2 as (Hp' & ->). split_and!; try done.
  - injection Hs as <- <-. split_and!; try done.
  - injection Hs as <- <-. split_and!; try done.
  - injection Hs as <- <-.
    destruct (log_event_ok (EClose ChWriterDone) s) as (H1 & H2 & H3); [done|set_solver|done|done|].
    split_and!; try done. split; [done|]. intros _. apply elem_of_app. right. by apply list_elem_of_singleton.
Qed.

(** A call of Shutdown leaves the log alone. *)
Lemma inv_call s r w k d o cs s' d' cs' :
  inv (mkRuntime s r w k d o cs) -> rt_log s' = rt_log s -> once_ok s' -> later [] s s' ->
  watchdog_ok s' d' -> Forall (call_ok s') cs' -> (d = DGone -> d' = DGone) ->
  inv (mkRuntime s' r w k d' o cs').
Proof.
  intros Hi Hlog Ho Hl Hd Hc Hg. eapply (inv_others []); [exact Hi|..]; try done; try not_own.
  - rewrite Hlog. apply Hi.
  - rewrite Hlog. apply Hi.
  - unfold all_gone. cbn. destruct r, w, k, d; try done. by rewrite Hg.
Qed.

(** Until the reader has gone, the orchestrator waits for it. *)
Lemma orch_waits g : orch_ok g -> r_reader g <> RGone -> r_orch g = OWait.
Proof.
  unfold orch_ok, all_gone. intros Ho Hr. destruct (r_orch g); try done; destruct (r_reader g); naive_solver.
Qed.

Lemma reader_step_ok sends i p s p' s' : NoDup (rt_log s) -> once_ok s -> reader_ok s p ->
  reader_step sends i p s = Some (p', s') ->
  NoDup (rt_log s') /\ once_ok s' /\ later [EClose ChLinkClosed] s s' /\ p <> RGone /\ reader_ok s' p'.
Proof.
  intros Hn Ho [Hr Hc] Hs. assert (Hne : p <> RGone) by by intros ->.
  assert (Hlog : EClose ChLinkClosed ∉ rt_log s) by by rewrite Hr.
  assert (Hsame : forall s1 p1, rt_log s1 = rt_log s -> rt_once s1 = rt_once s -> once_ok s1 ->
    p1 <> RGone -> match p1 with RShut q => call_ok s1 q | _ => True end ->
    NoDup (rt_log s1) /\ once_ok s1 /\ later [EClose ChLinkClosed] s s1 /\ p <> RGone /\ reader_ok s1 p1).
  { intros s1 p1 E1 E2 Ho1 Hp1 Hc1. unfold reader_ok. rewrite E1.
    repeat split; try done; try (by rewrite ?E1, ?E2). }
  destruct p as [| |todo i0|q| |]; cbn in Hs; try done.
  - injection Hs as <- <-. by destruct (closed ChStop s); apply Hsame.
  - injection Hs as <- <-. by destruct (link_down s); apply Hsame.
  - destruct todo as [|[] todo].
    + destruct i0; injection Hs as <- <-; apply Hsame; try done; by destruct (rt_peerClose s).
    + apply bind_Some in Hs as (s1 & E & [= <- <-]). unfold send_step in E.
      repeat (case_match; try done); simplify_eq; by apply Hsame.
    + injection Hs as <- <-. by apply Hsame.
  - assert (Hs2 : q = XReturned /\ p' = RCheck /\ s' = s \/
      exists q', shut_step q s = Some (q', s') /\ p' = RShut q').
    { destruct q; [right|right|left]; try by simplify_eq.
      all: destruct (shut_step _ s) as [[q' s1]|]; [|done]; injection Hs as <- <-; eauto. }
    destruct Hs2 as [(-> & -> & ->)|(q' & Es & ->)]; [by apply Hsame|].
    destruct (shut_step_ok q s q' s' Ho Hc Es) as (Hlog' & Ho' & Hq' & Hl).
    split_and!; try done; [by rewrite Hlog'| |split; [by rewrite Hlog'|done]].
    split; [by rewrite Hlog'|apply Hl|apply Hl].
  - injection Hs as <- <-.
    destruct (log_event_ok (EClose ChLinkClosed) s) as (H1 & H2 & H3); [done|not_own|done|done|].
    split_and!; try done. split; [|done]. split; [done|]. intros _. apply elem_of_app. right.
    by apply list_elem_of_singleton.
Qed.

(** The orchestrator logs an event of its own. *)
Lemma orch_logs e s r w k d o cs o' : inv (mkRuntime s r w k d o cs) ->
  (e ∉ rt_log s) -> e ∉ [EClose ChDrain; ELinkClose; EClose ChStop; EClose ChLinkClosed; EClose ChWriterDone] ->
  orch_ok (mkRuntime (log_event e s) r w k d o' cs) ->
  (e = ECancelGets \/ o = OClose \/ o = OGone <-> o' = OClose \/ o' = OGone) ->
  (e = EClose ChDone \/ o = OGone <-> o' = OGone) ->
  inv (mkRuntime (log_event e s) r w k d o' cs).
Proof.
  intros [H1 H2 H3 H4 H5 H6 H7 H8 H9] He Hne Ho Hc Hd. cbn in *.
  destruct (log_event_ok e s He ltac:(set_solver) H1 H2) as (G1 & G2 & G3).
  constructor; cbn [r_shared r_reader r_writer r_keepalive r_watchdog r_orch r_callers];
    [exact G1|exact G2| | | | |exact Ho| |].
  - eapply reader_later; [exact G3|set_solver|exact H3].
  - rewrite (la_log _ _ _ G3) by set_solver. exact H4.
  - by eapply watchdog_later.
  - by eapply callers_later.
  - cbn. rewrite elem_of_app, list_elem_of_singleton, H8, <- Hc. naive_solver.
  - cbn. rewrite elem_of_app, list_elem_of_singleton, H9, <- Hd. naive_solver.
Qed.

Lemma orchestrator_step_ok s r w k d o cs o' s' : let g := mkRuntime s r w k d o cs in
  inv g -> orchestrator_step (all_gone g) o s = Some (o', s') -> inv (mkRuntime s' r w k d o' cs).
Proof.
  intros g Hi Hs. pose proof Hi as [H1 H2 H3 H4 H5 H6 H7 H8 H9]. subst g.
  cbn [r_shared r_reader r_writer r_keepalive r_watchdog r_orch r_callers] in *.
  assert (Hshut : forall q q', o = OShut q -> shut_step q s = Some (q', s') ->
    inv (mkRuntime s' r w k d (OShut q') cs)).
  { intros q q' -> Es. destruct H7 as [Hr Hq].
    destruct (shut_step_ok q s q' s' H2 Hq Es) as (Hlog & Ho & Hq' & Hl).
    pose proof (inv_call s r w k d _ cs s' d cs Hi Hlog Ho Hl) as [G1 G2 G3 G4 G5 G6 G7 G8 G9];
      [by eapply watchdog_later|by eapply callers_later|done|].
    constructor; try done. cbn in *. rewrite G8. naive_solver. cbn in *. rewrite G9. naive_solver. }
  destruct o as [|q| | | |]; cbn in Hs; try done.
  - unfold closed, happened in Hs. case_bool_decide as Hc; [|done]. injection Hs as <- <-.
    constructor; cbn; try done; [by apply H3 in Hc|naive_solver|naive_solver].
  - destruct q; cbn in Hs.
    + destruct (rt_once s) eqn:E; injection Hs as <- <-; (eapply Hshut; [done|]); cbn; by rewrite E.
    + destruct (rt_once s) eqn:E; try done. injection Hs as <- <-. eapply Hshut; [done|]. cbn. by rewrite E.
    + injection Hs as <- <-. constructor; try done; cbn; [naive_solver|naive_solver].
  - destruct (all_gone _) eqn:Ea; [|done]. injection Hs as <- <-.
    constructor; try done; cbn in *; naive_solver.
  - injection Hs as <- <-. apply (orch_logs _ _ _ _ _ _ OCancel); [done| |not_own|done|naive_solver|naive_solver].
    rewrite H8. naive_solver.
  - injection Hs as <- <-. apply (orch_logs _ _ _ _ _ _ OClose); [done| |not_own|done|naive_solver|naive_solver].
    rewrite H9. naive_solver.
Qed.

Lemma act_keeps a g g' : inv g -> act a g = Some g' -> inv g'.
Proof.
  intros Hi Hs. destruct g as [s r w k d o cs]. pose proof Hi as [H1 H2 H3 H4 H5 H6 H7 H8 H9].
  cbn [r_shared r_reader r_writer r_keepalive r_watchdog r_orch r_callers] in *.
  destruct a as [timer|sends i|c fails|stop|stop| |i|graceful| |]; cbn [act] in Hs.
  - destruct (once_step timer s) as [s'|] eqn:E; [|done]. injection Hs as <-.
    destruct (once_step_ok timer s s' H1 H2 E) as (Hn & Ho & Hl).
    eapply inv_others; [exact Hi|exact Hn|exact Ho|exact Hl|not_own..| | | |done].
    + rewrite (la_log _ _ _ Hl) by not_own. done.
    + by eapply watchdog_later.
    + by eapply callers_later.
  - destruct (reader_step sends i r s) as [[r' s']|] eqn:E; [|done]. injection Hs as <-.
    destruct (reader_step_ok sends i r s r' s' H1 H2 H3 E) as (Hn & Ho & Hl & Hne & Hr).
    pose proof (orch_waits _ H7 Hne) as Hw. cbn in Hw. subst o.
    constructor; cbn; try done.
    + rewrite (la_log _ _ _ Hl) by not_own. done.
    + by eapply watchdog_later.
    + by eapply callers_later.
    + rewrite (la_log _ _ _ Hl) by not_own. done.
    + rewrite (la_log _ _ _ Hl) by not_own. done.
  - destruct (writer_step c fails w s) as [[w' s']|] eqn:E; [|done]. injection Hs as <-.
    destruct (writer_step_ok c fails w s w' s' H1 H2 H4 E) as (Hn & Ho & Hl & Hne & Hw).
    eapply inv_others; [exact Hi|exact Hn|exact Ho|exact Hl|not_own..| | | |].
    + done.
    + by eapply watchdog_later.
    + by eapply callers_later.
    + unfold all_gone. cbn. destruct r, w, k, d; done.
  - assert (Hk : exists k' n, g' = mkRuntime (set_outQ n s) r w k' d o cs /\ k <> KGone).
    { destruct k; cbn in Hs; [| |done]; repeat (case_match; try done); simplify_eq/=;
        first [by eexists _, (rt_outQ s); destruct s|by eexists _, _]. }
    destruct Hk as (k' & n & -> & Hk).
    eapply (inv_others []); [exact Hi|..]; try done; try not_own.
    unfold all_gone. cbn. by destruct r, w, k, d.
  - destruct (watchdog_step stop d s) as [[d' s']|] eqn:E; [|done]. injection Hs as <-.
    assert (Hid : d <> DGone) by by intros ->.
    destruct d as [|p|]; cbn in E; [|destruct p|done].
    + repeat (case_match; try done); simplify_eq; (eapply inv_call; [exact Hi|..]; done || by apply later_refl).
    + destruct (shut_step (XDo graceful) s) as [[p' s1]|] eqn:Es; [|done]. injection E as <- <-.
      destruct (shut_step_ok _ _ _ _ H2 H5 Es) as (Hlog & Ho & Hp & Hl).
      eapply inv_call; [exact Hi|..]; try done. by eapply callers_later.
    + destruct (shut_step XWait s) as [[p' s1]|] eqn:Es; [|done]. injection E as <- <-.
      destruct (shut_step_ok _ _ _ _ H2 H5 Es) as (Hlog & Ho & Hp & Hl).
      eapply inv_call; [exact Hi|..]; try done. by eapply callers_later.
    + injection E as <- <-. eapply inv_call; [exact Hi|..]; done || by apply later_refl.
  - destruct (orchestrator_step _ o s) as [[o' s']|] eqn:E; [|done]. injection Hs as <-.
    by eapply orchestrator_step_ok.
  - destruct (cs !! i) as [p|] eqn:Ec; [|done]. cbn in Hs.
    destruct (shut_step p s) as [[p' s']|] eqn:Es; [|done]. injection Hs as <-.
    destruct (shut_step_ok _ _ _ _ H2 (proj1 (Forall_lookup _ _) H6 i p Ec) Es) as (Hlog & Ho & Hp & Hl).
    eapply inv_call; [exact Hi|..]; try done; [by eapply watchdog_later|].
    apply Forall_insert; [by eapply callers_later|done].
  - injection Hs as <-. eapply inv_call; [exact Hi|..]; try done.
    apply Forall_app. split; [done|]. by constructor.
  - destruct (_ <? _)%nat; [|done]. injection Hs as <-.
    eapply inv_call; [exact Hi|..]; try done; by apply later_refl.
  - injection Hs as <-. eapply inv_call; [exact Hi|..]; try done; by apply later_refl.
Qed.

Lemma Run_inv my peer : inv (Run my peer).
Proof.
  assert (Hnil : forall e P, ~ P -> e ∈ @nil event <-> P)
    by (intros e P HP; split; [by intros ?%elem_of_nil|done]).
  constructor; cbn [r_shared r_reader r_writer r_keepalive r_watchdog r_orch r_callers Run].
  - constructor.
  - split_and!; not_own.
  - split; [by apply Hnil|done].
  - by apply Hnil.
  - by case_match.
  - constructor.
  - done.
  - apply Hnil. by intros [|].
  - by apply Hnil.
Qed.

Lemma rtc_inv g g' : inv g -> rtc step g g' -> inv g'.
Proof. intros Hi H. induction H as [|g g1 g2 [a Ha] _ IH]; [done|]. apply IH. by eapply act_keeps. Qed.

Lemma reachable_keeps g : reachable g -> inv g.
Proof. intros (my & peer & H). eapply rtc_inv; [apply Run_inv|done]. Qed.

(** C26: Whatever the reader, the writer, the keepalive sender, the
    watchdog, the orchestrator of a runtime and any callers of Shutdown and
    GracefulShutdown do, in any order, no channel is closed twice and the
    link is closed once, before the stop signal; unless Shutdown came first
    or the time was up, it is closed only after the writer has flushed and
    gone; and Done is closed last, after every goroutine has ended and the
    Gets in flight were cancelled. *)
Theorem runtime_teardown g : reachable g ->
  let log := rt_log (r_shared g) in
  NoDup log /\
  (EClose ChStop ∈ log -> ELinkClose ∈ log) /\
  (ELinkClose ∈ log -> flushed (r_shared g)) /\
  (EClose ChDone ∈ log -> all_gone g = true /\
     forall e, e ∈ [ELinkClose; EClose ChStop; EClose ChLinkClosed; EClose ChWriterDone; ECancelGets] ->
       e ∈ log).
Proof.
  intros [H1 H2 H3 H4 H5 H6 H7 H8 H9]%reachable_keeps log. split; [exact H1|].
  unfold once_ok in H2. split; [|split].
  - destruct (rt_once (r_shared g)) as [|[]|]; tauto.
  - destruct (rt_once (r_shared g)) as [|[]|]; tauto.
  - intros Ho%H9. unfold orch_ok in H7. rewrite Ho in H7. destruct H7 as [Hg Hd]. rewrite Hd in H2.
    split; [done|]. unfold all_gone in Hg. destruct H3 as [H3 _].
    intros e. rewrite !elem_of_cons, elem_of_nil.
    destruct (r_reader g); try done. destruct (r_writer g); try done. naive_solver.
Qed.

(** ** The end *)

(** Steps of the goroutines that wait for nobody outside: not a batch of the
    peer, a tick, a call of the user or a new item; a write ends when the link
    is closed. *)
Definition own (a : action) (g : runtime) : bool :=
  match a with
  | AOnce _ | AOrchestrator | ACaller _ => true
  | AReader _ _ =>
      match r_reader g with
      | RRead => link_down (r_shared g) | RSend (SOther :: _) _ => false | _ => true
      end
  | AWriter _ _ =>
      match r_writer g with WItem _ | WFlush _ => happened ELinkClose (r_shared g) | _ => true end
  | AKeepalive stop => stop || match r_keepalive g with KSend => true | _ => false end
  | AWatchdog stop => stop || match r_watchdog g with DSelect => false | _ => true end
  | _ => false
  end.
Definition own_step (g g' : runtime) : Prop := exists a, own a g = true /\ act a g = Some g'.

(** What ends a runtime: the link is down, a call of Shutdown or
    GracefulShutdown was made, or the reader stopped over a batch. *)
Definition called (p : shut_pc) : bool := match p with XDo _ => true | _ => false end.
Definition ending (g : runtime) : Prop :=
  link_down (r_shared g) = true \/ rt_once (r_shared g) <> ONew \/
  existsb called (r_callers g) = true \/
  match r_reader g with RExit | RGone => True | RShut p => called p = true | _ => False end \/
  match r_watchdog g with DShut p => called p = true | _ => False end.

Definition shut_rank (p : shut_pc) : nat :=
  match p with XDo _ => 2 | XWait => 1 | XReturned => 0 end.
Definition once_rank (o : once_state) : nat :=
  match o with ONew => 5 | ORunning BDrain => 4 | ORunning BWait => 3 | ORunning BLink => 2
  | ORunning BStop => 1 | ODone => 0 end.
Definition reader_rank (p : reader_pc) : nat :=
  match p with RSend todo _ => 7 + 12 * length todo | RShut p => 4 + shut_rank p | RCheck => 3 | RRead => 2 | RExit => 1 | RGone => 0 end.
Definition writer_rank (p : writer_pc) : nat :=
  match p with
  | WAt WSelect _ => 5 | WAt WAvailable _ => 7 | WAt WDraining _ => 4
  | WItem WSelect => 8 | WItem WAvailable => 8 | WItem WDraining => 5
  | WFlush FAvailable => 6 | WFlush FDraining => 3 | WFlush FFinal => 2 | WGone => 0
  end.
Definition keepalive_rank (p : keepalive_pc) : nat :=
  match p with KSend => 12 | KSelect => 1 | KGone => 0 end.
Definition watchdog_rank (p : watchdog_pc) : nat :=
  match p with DShut p => 2 + shut_rank p | DSelect => 1 | DGone => 0 end.
Definition orchestrator_rank (p : orchestrator_pc) : nat :=
  match p with OWait => 7 | OShut p => 4 + shut_rank p | OJoin => 3 | OCancel => 2 | OClose => 1 | OGone => 0 end.

Definition rank (g : runtime) : nat :=
  once_rank (rt_once (r_shared g)) + 10 * rt_outQ (r_shared g) + reader_rank (r_reader g) +
  writer_rank (r_writer g) + keepalive_rank (r_keepalive g) + watchdog_rank (r_watchdog g) +
  orchestrator_rank (r_orch g) + sum_list_with shut_rank (r_callers g).

(** The rank of what the goroutines share. *)
Definition shared_rank (s : shared) : nat := once_rank (rt_once s) + 10 * rt_outQ s.

Lemma shut_step_rank p s p' s' : shut_step p s = Some (p', s') ->
  (shared_rank s' <= shared_rank s)%nat /\ (shut_rank p' < shut_rank p)%nat.
Proof.
  unfold shut_step, shared_rank. destruct p as [graceful| |]; [| |done];
    destruct (rt_once s) eqn:E; intros Hs; try done; injection Hs as <- <-; rewrite ?E; cbn; try lia.
  destruct graceful; cbn; lia.
Qed.

Lemma writer_step_rank c fails p s p' s' : writer_step c fails p s = Some (p', s') ->
  (shared_rank s' + writer_rank p' < shared_rank s + writer_rank p)%nat.
Proof.
  unfold shared_rank. intros Hs. destruct p as [a dead|a|[]|]; cbn in Hs; try done.
  - destruct c, a; destruct (rt_outQ s) as [|n] eqn:E; try done; cbn in Hs;
      try (destruct (closed _ s); try done); injection Hs as <- <-; destruct dead; cbn; lia.
  - destruct a; injection Hs as <- <-; try (destruct (fails || _)); cbn; lia.
  - injection Hs as <- <-. cbn. lia.
  - injection Hs as <- <-. cbn. lia.
  - injection Hs as <- <-. cbn. lia.
Qed.

Lemma own_step_rank g g' : own_step g g' -> (rank g' < rank g)%nat.
Proof.
  intros (a & Ho & Hs). destruct g as [s r w k d o cs]. unfold rank.
  destruct a as [timer|sends i|c fails|stop|stop| |i|graceful| |]; cbn [act own] in *; try done;
    cbn [r_shared r_reader r_writer r_keepalive r_watchdog r_orch r_callers] in *.
  - unfold once_step in Hs. destruct (rt_once s) as [|[]|] eqn:E; try done; cbn in Hs;
      repeat (case_match; try done); simplify_eq/=; lia.
  - destruct r as [| |todo i0|p| |]; cbn in Hs.
    + destruct (closed _ _); injection Hs as <-; cbn; lia.
    + rewrite Ho in Hs. injection Hs as <-. cbn. lia.
    + destruct todo as [|[] todo]; [|unfold send_step in Hs|done].
      * destruct i0; injection Hs as <-; cbn; try lia. by destruct (rt_peerClose s); cbn; lia.
      * repeat (case_match; try done); simplify_eq/=; lia.
    + destruct p; [| |by injection Hs as <-; cbn; lia].
      all: destruct (shut_step _ s) as [[p' s']|] eqn:E; [|done]; injection Hs as <-;
        apply shut_step_rank in E as [E1 E2]; unfold shared_rank in E1; cbn in *; lia.
    + injection Hs as <-. cbn. lia.
    + done.
  - destruct (writer_step c fails w s) as [[w' s']|] eqn:E; [|done]. injection Hs as <-.
    apply writer_step_rank in E. unfold shared_rank in E. cbn in *. lia.
  - destruct k; cbn in Hs; try done; destruct stop; try done; repeat (case_match; try done);
      simplify_eq/=; lia.
  - destruct d as [|p|]; cbn in Hs; [| |done].
    + destruct stop; [|done]. case_match; [|done]. injection Hs as <-. cbn. lia.
    + destruct p; [| |by injection Hs as <-; cbn; lia].
      all: destruct (shut_step _ s) as [[p' s']|] eqn:E; [|done]; injection Hs as <-;
        apply shut_step_rank in E as [E1 E2]; unfold shared_rank in E1; cbn in *; lia.
  - destruct o as [|p| | | |]; cbn in Hs; [|destruct p| | | |done].
    + destruct (closed _ _); [|done]. injection Hs as <-. cbn. lia.
    + destruct (shut_step _ s) as [[p' s']|] eqn:E; [|done]. injection Hs as <-.
      apply shut_step_rank in E as [E1 E2]. unfold shared_rank in E1. cbn in *. lia.
    + cbn in Hs. destruct (rt_once s) eqn:Eo; cbn in Hs; try done. injection Hs as <-. cbn. rewrite Eo. cbn. lia.
    + injection Hs as <-. cbn. lia.
    + destruct (all_gone _); [|done]. injection Hs as <-. cbn. lia.
    + injection Hs as <-. cbn. lia.
    + injection Hs as <-. cbn. lia.
  - destruct (cs !! i) as [p|] eqn:Ec; [|done]. cbn in Hs.
    destruct (shut_step p s) as [[p' s']|] eqn:E; [|done]. injection Hs as <-.
    apply shut_step_rank in E as [E1 E2]. unfold shared_rank in E1.
    pose proof (sum_list_insert shut_rank cs i p p' Ec). cbn in *. lia.
Qed.

(** What the goroutines share only grows. *)
Record grows (s s' : shared) : Prop := {
  gr_log e : e ∈ rt_log s -> e ∈ rt_log s';
  gr_broken : rt_broken s = true -> rt_broken s' = true;
  gr_once : rt_once s <> ONew -> rt_once s' <> ONew }.

Lemma grows_refl s : grows s s.
Proof. by split. Qed.
Lemma grows_queue s n : grows s (set_outQ n s).
Proof. by split. Qed.
Lemma grows_event s e : grows s (log_event e s).
Proof. split; cbn; [set_solver|done|done]. Qed.
#[local] Hint Resolve grows_refl grows_queue grows_event : core.

Lemma shut_step_grows p s p' s' : shut_step p s = Some (p', s') -> grows s s' /\
  (called p = true -> rt_once s' <> ONew).
Proof.
  unfold shut_step. destruct p as [graceful| |]; intros Hs; try done; destruct (rt_once s) eqn:E; try done;
    injection Hs as <- <-; split; try done; try (by rewrite E).
  - destruct graceful; by split.
  - by destruct graceful.
Qed.

Lemma once_step_grows timer s s' : once_step timer s = Some s' -> grows s s'.
Proof.
  unfold once_step. intros Hs. destruct (rt_once s) as [|[]|] eqn:E; try done;
    repeat (case_match; try done); simplify_eq; split; cbn; try done; set_solver.
Qed.

Lemma writer_step_grows c fails p s p' s' : writer_step c fails p s = Some (p', s') -> grows s s'.
Proof.
  destruct p as [a dead|[]|[]|]; cbn; intros Hs; repeat (case_match; try done); simplify_eq; auto.
  all: unfold close; auto.
Qed.

Lemma act_grows a g g' : act a g = Some g' -> grows (r_shared g) (r_shared g').
Proof.
  intros Hs. destruct g as [s r w k d o cs].
  assert (Hshut : forall {A} (c : shut_pc -> A) p x y,
    ('(p', s') ← shut_step p s; Some (c p', s')) = Some (x, y) -> grows s y).
  { intros A c p x y H. destruct (shut_step p s) as [[p' s']|] eqn:E; [|done]. cbn in H.
    injection H as <- <-. by eapply shut_step_grows. }
  destruct a as [timer|sends i|c fails|stop|stop| |i|graceful| |]; cbn [act r_shared] in *.
  - destruct (once_step timer s) eqn:E; [|done]. injection Hs as <-. by eapply once_step_grows.
  - destruct (reader_step sends i r s) as [[r' s']|] eqn:E; [|done]. injection Hs as <-. cbn.
    destruct r as [| |todo i0|p| |]; try done; [| |destruct todo as [|[] todo]|destruct p| ];
      try (by eapply (Hshut _ RShut)); cbn in E; unfold send_step in E;
      repeat (case_match; try done); simplify_eq/=; auto.
    + by split.
    + apply grows_event.
  - destruct (writer_step c fails w s) as [[w' s']|] eqn:E; [|done]. injection Hs as <-.
    by eapply writer_step_grows.
  - destruct (keepalive_step stop k s) as [[k' s']|] eqn:E; [|done]. injection Hs as <-. cbn.
    destruct k; cbn in E; repeat (case_match; try done); simplify_eq; auto.
  - destruct (watchdog_step stop d s) as [[d' s']|] eqn:E; [|done]. injection Hs as <-. cbn.
    destruct d as [|p|]; try done; [|destruct p];
      try (by eapply (Hshut _ DShut)); cbn in E; repeat (case_match; try done); simplify_eq; auto.
  - destruct (orchestrator_step _ o s) as [[o' s']|] eqn:E; [|done]. injection Hs as <-. cbn.
    destruct o as [|p| | | |]; try done; [|destruct p| | |];
      try (by eapply (Hshut _ OShut)); cbn in E; repeat (case_match; try done); simplify_eq; auto.
    apply grows_event.
  - destruct (cs !! i) as [p|]; [|done]. cbn in Hs.
    destruct (shut_step p s) as [[p' s']|] eqn:E; [|done]. injection Hs as <-. by eapply shut_step_grows.
  - by injection Hs as <-.
  - destruct (_ <? _)%nat; [|done]. injection Hs as <-. apply grows_queue.
  - injection Hs as <-. by split.
Qed.

(** Whose step it is. *)
Lemma act_frame a g g' : act a g = Some g' ->
  match a with ACaller _ | ACall _ => True | _ => r_callers g' = r_callers g end /\
  match a with AReader _ _ => True | _ => r_reader g' = r_reader g end /\
  match a with AWatchdog _ => True | _ => r_watchdog g' = r_watchdog g end.
Proof.
  destruct g as [s r w k d o cs]. intros Hs. destruct a; cbn [act] in Hs;
    repeat match type of Hs with _ ≫= _ = _ => apply bind_Some in Hs as (? & ? & Hs) end;
    repeat (case_match; try done); by simplify_eq/=.
Qed.

Definition reader_ends (p : reader_pc) : Prop :=
  match p with RExit | RGone => True | RShut p => called p = true | _ => False end.
Definition watchdog_ends (p : watchdog_pc) : Prop :=
  match p with DShut p => called p = true | _ => False end.

Lemma reader_ends_step sends i p s p' s' : reader_ends p -> reader_step sends i p s = Some (p', s') ->
  rt_once s' <> ONew \/ reader_ends p'.
Proof.
  intros He Hs. destruct p as [| | |p| |]; try done; cbn in Hs.
  - destruct p as [graceful| |]; try done.
    destruct (shut_step _ s) as [[p1 s1]|] eqn:E; [|done]. injection Hs as <- <-.
    left. by apply (shut_step_grows _ _ _ _ E).
  - injection Hs as <- <-. by right.
Qed.

Lemma watchdog_ends_step stop p s p' s' : watchdog_ends p -> watchdog_step stop p s = Some (p', s') ->
  rt_once s' <> ONew.
Proof.
  intros He Hs. destruct p as [|[graceful| |]|]; try done; cbn [watchdog_step] in Hs.
  destruct (shut_step _ s) as [[p1 s1]|] eqn:E; [|done]. injection Hs as <- <-.
  by apply (shut_step_grows _ _ _ _ E).
Qed.

Lemma callers_step a g g' : existsb called (r_callers g) = true -> act a g = Some g' ->
  rt_once (r_shared g') <> ONew \/ existsb called (r_callers g') = true.
Proof.
  intros He Hs. pose proof (act_frame a g g' Hs) as (Hc & _ & _).
  destruct a as [| | | | | |i|graceful| |]; try (right; by rewrite Hc);
    destruct g as [s r w k d o cs]; cbn in Hs, He.
  - destruct (cs !! i) as [q|] eqn:Ei; [|done]. cbn in Hs.
    destruct (shut_step q s) as [[q' s']|] eqn:Es; [|done]. injection Hs as <-. cbn.
    destruct (shut_step_grows _ _ _ _ Es) as [_ Hq]. destruct (called q) eqn:Eq; [left; auto|right].
    rewrite <- (take_drop_middle _ _ _ Ei), existsb_app in He. cbn in He. rewrite Eq in He. cbn in He.
    rewrite insert_take_drop by (by eapply lookup_lt_Some). rewrite existsb_app. cbn.
    apply orb_true_iff in He as [-> | ->]; [done|]. by rewrite !orb_true_r.
  - injection Hs as <-. right. cbn. by rewrite existsb_app, He.
Qed.

Lemma ending_keeps a g g' : ending g -> act a g = Some g' -> ending g'.
Proof.
  intros He Hs. pose proof (act_grows a g g' Hs) as [G1 G2 G3].
  pose proof (act_frame a g g' Hs) as (_ & Hr & Hd). unfold ending in *.
  destruct He as [He|[He|[He|[He|He]]]].
  - left. revert He. unfold link_down, happened. rewrite !orb_true_iff, !bool_decide_eq_true. naive_solver.
  - auto.
  - destruct (callers_step a g g' He Hs); auto.
  - fold (reader_ends (r_reader g)) in He. fold (reader_ends (r_reader g')).
    destruct a; try (rewrite Hr; auto). destruct g as [s r w k d o cs]. cbn in Hs, He.
    destruct (reader_step sends i r s) as [[r' s']|] eqn:E; [|done]. injection Hs as <-.
    destruct (reader_ends_step sends i r s r' s' He E); auto.
  - fold (watchdog_ends (r_watchdog g)) in He. fold (watchdog_ends (r_watchdog g')).
    destruct a; try (rewrite Hd; auto). destruct g as [s r w k d o cs]. cbn in Hs, He.
    destruct (watchdog_step stop d s) as [[d' s']|] eqn:E; [|done]. injection Hs as <-.
    right; left. by eapply watchdog_ends_step.
Qed.

(** ** Progress *)

Definition can_go (g : runtime) : Prop := exists a, own a g = true /\ is_Some (act a g).

Lemma shut_step_some p s : rt_once s = ONew /\ call_ok s p \/ rt_once s = ODone -> p <> XReturned ->
  is_Some (shut_step p s).
Proof.
  intros [[Hn Hp]|Hd] Hne; destruct p as [graceful| |]; cbn in *; try done; rewrite ?Hn, ?Hd; eauto.
Qed.

Ltac shut_goes := match goal with |- context [shut_step ?p ?s] =>
  destruct (shut_step_some p s) as [[? ?] ->]; [tauto|done|cbn; eauto] end.

(** The reader waits for room in a send queue: its own while that is full and
    the writer has gone or is in a write to the open link, or another
    runtime's. *)
Definition stalled (g : runtime) : Prop :=
  match r_reader g with
  | RSend (SOwn :: _) _ =>
      (outQ_cap <= rt_outQ (r_shared g))%nat /\
      match r_writer g with
      | WGone => True
      | WAt _ _ => False
      | WItem _ | WFlush _ => happened ELinkClose (r_shared g) = false
      end
  | RSend (SOther :: _) _ => True
  | _ => False
  end.

(** A full queue that is not drained is one whose writer cannot step. *)
Lemma send_goes g todo i : r_reader g = RSend (SOwn :: todo) i -> can_go g \/ stalled g.
Proof.
  intros Hr. destruct g as [s r w k d o cs]. unfold stalled. cbn in *. subst r.
  destruct (Nat.lt_ge_cases (rt_outQ s) outQ_cap) as [Hq|Hq].
  { left. exists (AReader [] InBatch). split; [done|]. cbn. unfold send_step.
    apply Nat.ltb_lt in Hq. rewrite Hq. by eexists. }
  destruct (rt_outQ s) as [|n] eqn:Eq; [by apply Nat.le_0_r in Hq|].
  destruct w as [a dead|a|f|]; [| | |by right].
  - left. exists (AWriter WTake true). split; [done|]. cbn. rewrite Eq. by eexists.
  - destruct (happened ELinkClose s) eqn:El; [left|by right].
    exists (AWriter WTake true). cbn. rewrite El. destruct a; eauto.
  - destruct (happened ELinkClose s) eqn:El; [left|by right].
    exists (AWriter WTake true). cbn. rewrite El. destruct f; eauto.
Qed.

(** The reader goes on, waits in a send, or is gone. *)
Lemma reader_goes g : inv g -> link_down (r_shared g) = true \/ reader_ends (r_reader g) ->
  rt_once (r_shared g) = ONew \/ rt_once (r_shared g) = ODone -> r_reader g <> RGone ->
  can_go g \/ stalled g.
Proof.
  intros [_ _ [_ Hr] _ _ _ _ _ _] Hdown Ho Hne.
  destruct (r_reader g) as [| |[|[] todo] i|p| |] eqn:Er; try done; [| | |by eapply send_goes| | |].
  4: by right; unfold stalled; rewrite Er.
  all: left; exists (AReader [] InBatch); destruct g as [s r w k d o cs]; cbn in *; subst r; cbn; eauto.
  - destruct Hdown as [Hd|]; [|done]. rewrite Hd. eauto.
  - destruct i; eauto.
  - split; [done|]. destruct p as [graceful| |]; [| |eauto].
    all: by shut_goes.
Qed.

Lemma orch_goes g : inv g -> r_reader g = RGone ->
  rt_once (r_shared g) = ONew \/ rt_once (r_shared g) = ODone ->
  r_orch g <> OGone -> (r_orch g <> OJoin \/ all_gone g = true) -> can_go g.
Proof.
  intros [_ _ [Hr _] _ _ _ H7 _ _] Hg Ho Hne Hj. exists AOrchestrator. split; [done|].
  destruct g as [s r w k d o cs]. cbn in *. unfold orch_ok in H7. cbn in H7.
  destruct o as [|p| | | |]; try done; cbn; try (by eauto).
  - unfold closed, happened. rewrite bool_decide_eq_true_2 by (by apply Hr). eauto.
  - destruct H7 as [_ Hp]. destruct p as [graceful| |]; [| |eauto].
    all: by shut_goes.
  - destruct Hj as [|Ha]; [done|]. rewrite Ha. eauto.
Qed.

(** After the stop, every goroutine comes to its end. *)
Lemma stopped_goes g : inv g -> rt_once (r_shared g) = ODone -> r_orch g <> OGone ->
  can_go g \/ stalled g.
Proof.
  intros Hi Hd Hne. pose proof (i_once g Hi) as Ho. unfold once_ok in Ho. rewrite Hd in Ho.
  destruct Ho as (Hlink & Hstop & _).
  destruct (decide (r_reader g = RGone)) as [Hr|Hr].
  2:{ apply reader_goes; auto. left. unfold link_down, happened.
      rewrite (bool_decide_eq_true_2 _ Hlink). apply orb_true_r. }
  left. destruct (all_gone g) eqn:Ea; [by apply orch_goes; auto|].
  destruct g as [s r w k d o cs]. cbn [r_shared r_reader] in *. subst r. unfold all_gone in Ea.
  assert (Hs : closed ChStop s = true) by by apply bool_decide_eq_true.
  assert (Hl : happened ELinkClose s = true) by by apply bool_decide_eq_true.
  destruct w as [a dead|a|f|].
  - destruct a; [exists (AWriter WStop true)|destruct (rt_outQ s) eqn:Eq..].
    + cbn. rewrite Hs. eauto.
    + exists (AWriter WDefault true). cbn. rewrite Eq. eauto.
    + exists (AWriter WTake true). cbn. rewrite Eq. eauto.
    + exists (AWriter WDefault true). cbn. rewrite Eq. eauto.
    + exists (AWriter WTake true). cbn. rewrite Eq. eauto.
  - exists (AWriter WTake true). cbn. rewrite Hl. destruct a; eauto.
  - exists (AWriter WTake true). cbn. rewrite Hl. destruct f; eauto.
  - destruct k; [exists (AKeepalive true); cbn; rewrite Hs; by eauto..|].
    pose proof (i_watchdog _ Hi) as Hw. cbn in Hw.
    destruct d as [|p|]; [exists (AWatchdog true); cbn; rewrite Hs; by eauto| |done].
    exists (AWatchdog true). cbn. split; [done|]. destruct p as [graceful| |]; [| |eauto].
    all: by shut_goes.
Qed.

Lemma ending_goes g : inv g -> ending g -> r_orch g <> OGone -> can_go g \/ stalled g.
Proof.
  intros Hi He Hne. destruct (rt_once (r_shared g)) as [|b|] eqn:Eo.
  - pose proof (i_orch g Hi) as Ho. unfold orch_ok in Ho.
    assert (Hreader : link_down (r_shared g) = true \/ reader_ends (r_reader g) -> can_go g \/ stalled g).
    { intros H. destruct (decide (r_reader g = RGone)) as [Hr|Hr]; [|by apply reader_goes; auto].
      left. apply orch_goes; auto. left. intros E. rewrite E, Eo in Ho. naive_solver. }
    destruct He as [He|[He|[He|[He|He]]]]; [by auto|done|left|by auto|left].
    + apply existsb_exists in He as (p & Hp & Hc). apply list_elem_of_In, list_elem_of_lookup in Hp as [j Hj].
      exists (ACaller j). split; [done|]. destruct g as [s r w k d o cs]. cbn in *. rewrite Hj. cbn.
      destruct p as [graceful| |]; try done. cbn. rewrite Eo. eauto.
    + exists (AWatchdog true). split; [done|]. destruct g as [s r w k d o cs]. cbn in *.
      destruct d as [|[graceful| |]|]; try done. cbn. rewrite Eo. eauto.
  - left. exists (AOnce true). split; [done|]. destruct g as [s r w k d o cs]. cbn in *. unfold once_step.
    rewrite Eo. destruct b; cbn; eauto.
  - by apply stopped_goes.
Qed.

(** C27: Once the link of a runtime is down, Shutdown or GracefulShutdown
    was called, or the reader has stopped over a batch, its goroutines can
    take a bounded number of further steps of their own, and until Done is
    closed one of them is always possible, whatever callers, senders, the
    peer and the clock do in between, unless the reader waits in a handler
    for room in a send queue: that of this runtime, full while its writer
    has gone or is in a write to a link not closed yet, or that of another
    runtime. *)
Theorem runtime_ends g : reachable g -> ending g ->
  (forall n g', nsteps own_step n g g' -> (n <= rank g)%nat) /\
  (forall g', rtc step g g' -> EClose ChDone ∉ rt_log (r_shared g') ->
     (exists a, own a g' = true /\ is_Some (act a g')) \/ stalled g').
Proof.
  intros Hi%reachable_keeps He. split.
  - intros n g' H. clear Hi He. induction H as [|n g g1 g2 Hs _ IH]; [lia|].
    apply own_step_rank in Hs. lia.
  - intros g' H Hd. assert (Hi' : inv g') by by eapply rtc_inv.
    apply ending_goes; [done| |by rewrite <- (i_done g' Hi')].
    clear Hi Hd Hi'. induction H as [|g g1 g2 [a Ha] _ IH]; [done|]. apply IH. by eapply ending_keeps.
Qed.

(** ** The reader that waits for ever

    A reader whose handlers send into the full queue of a writer that has gone
    waits for [linkClosed], which it would close itself. *)

Definition reader_stuck (g : runtime) : Prop :=
  (exists todo i, r_reader g = RSend (SOwn :: todo) i) /\ r_writer g = WGone /\
  (outQ_cap <= rt_outQ (r_shared g))%nat.

Lemma act_queue a g g' : act a g = Some g' -> r_writer g = WGone ->
  r_writer g' = WGone /\ (rt_outQ (r_shared g) <= rt_outQ (r_shared g'))%nat.
Proof.
  intros Hs Hw. destruct g as [s r w k d o cs]. cbn in Hw. subst w.
  assert (Hshut : forall p p' s', shut_step p s = Some (p', s') -> rt_outQ s' = rt_outQ s).
  { intros p p' s' E. unfold shut_step in E. repeat (case_match; try done); by simplify_eq/=. }
  destruct a; cbn [act] in Hs;
    repeat match type of Hs with _ ≫= _ = _ => apply bind_Some in Hs as (? & ? & Hs) end;
    repeat (case_match; try done); simplify_eq/=; (split; [done|]); try lia.
  - unfold once_step in *. repeat (case_match; try done); simplify_eq/=; lia.
  - match goal with H : reader_step _ _ ?p _ = _ |- _ => destruct p as [| |[|[] ?] ?|[] | |]; cbn in H end;
      unfold send_step in *; repeat (case_match; try done); simplify_eq/=; try lia;
      match goal with H : _ ≫= _ = Some _ |- _ => apply bind_Some in H as (? & E & ?) end;
      repeat (case_match; try done); simplify_eq/=; try lia; by erewrite <- Hshut.
  - match goal with H : keepalive_step _ ?p _ = _ |- _ => destruct p; cbn in H end;
      repeat (case_match; try done); simplify_eq/=; lia.
  - match goal with H : watchdog_step _ ?p _ = _ |- _ => destruct p as [|[]|]; cbn in H end;
      repeat (case_match; try done); simplify_eq/=; try lia;
      match goal with H : _ ≫= _ = Some _ |- _ => apply bind_Some in H as (? & E & ?) end;
      repeat (case_match; try done); simplify_eq/=; by erewrite <- Hshut.
  - match goal with H : orchestrator_step _ ?p _ = _ |- _ => destruct p as [|[]| | | |]; cbn in H end;
      repeat (case_match; try done); simplify_eq/=; try lia;
      match goal with H : _ ≫= _ = Some _ |- _ => apply bind_Some in H as (? & E & ?) end;
      repeat (case_match; try done); simplify_eq/=; by erewrite <- Hshut.
  - by erewrite <- Hshut.
Qed.

Lemma reader_stuck_step a g g' : inv g -> reader_stuck g -> act a g = Some g' -> reader_stuck g'.
Proof.
  intros Hi ((todo & i & Hr) & Hw & Hq) Hs. destruct (act_queue a g g' Hs Hw) as [Hw' Hq'].
  split; [|split; [done|lia]].
  pose proof (act_frame a g g' Hs) as (_ & Hr' & _). destruct a; try (rewrite Hr'; by exists todo, i).
  exfalso. pose proof (i_reader g Hi) as [Hc _]. destruct g as [s r w k d o cs]. cbn in *. subst r.
  assert (Hcl : closed ChLinkClosed s = false).
  { unfold closed, happened. rewrite bool_decide_eq_false, Hc. done. }
  cbn in Hs. unfold send_step in Hs. rewrite Hcl in Hs.
  destruct (Nat.ltb_spec (rt_outQ s) outQ_cap); [lia|done].
Qed.

Lemma reader_blocks_for_ever g g' : reachable g -> reader_stuck g -> rtc step g g' ->
  reader_stuck g' /\ EClose ChDone ∉ rt_log (r_shared g').
Proof.
  intros Hi%reachable_keeps Hst H. induction H as [g|g g1 g2 [a Ha] _ IH].
  - split; [done|]. intros Hd%(i_done g Hi). pose proof (i_orch g Hi) as Ho. unfold orch_ok in Ho.
    rewrite Hd in Ho. destruct Ho as [Ho _]. destruct Hst as [(todo & i & Hr) _].
    unfold all_gone in Ho. by rewrite Hr in Ho.
  - apply IH; [by eapply act_keeps|by eapply reader_stuck_step].
Qed.

(** ** A run: a user ends the runtime gracefully *)

Definition act_all (acts : list action) (g : runtime) : option runtime :=
  fold_left (fun g a => g ≫= act a) acts (Some g).

Lemma play_all_steps acts g g' : act_all acts g = Some g' -> rtc step g g'.
Proof.
  unfold act_all. revert g. induction acts as [|a acts IH]; intros g; cbn; [by intros [= ->]|].
  destruct (act a g) as [g1|] eqn:E; [intros H; eapply rtc_l; [by exists a|by apply IH]|].
  intros H. exfalso. clear -H. induction acts; [done|by apply IHacts].
Qed.

Definition graceful_end : list action :=
  [ACall true; ACaller 0; AOnce false; AWriter WDrain false; AWriter WDefault false;
   AWriter WDefault false; AWriter WDefault false; AOnce false; AOnce false; AOnce false;
   AReader [] InBatch; AReader [] InBatch; AOrchestrator; AOrchestrator; AOrchestrator; AOrchestrator;
   AKeepalive true; AWatchdog true; AOrchestrator; AOrchestrator; AOrchestrator].

Lemma runtime_teardown_witness : exists g, act_all graceful_end (Run 10000 10000) = Some g /\
  NoDup (rt_log (r_shared g)) /\ EClose ChDone ∈ rt_log (r_shared g) /\ all_gone g = true /\
  EClose ChWriterDone ∈ rt_log (r_shared g).
Proof.
  destruct (act_all graceful_end (Run 10000 10000)) as [g|] eqn:E; [|vm_compute in E; discriminate E].
  exists g. split; [reflexivity|].
  assert (Hg : reachable g) by (exists 10000, 10000; by apply (play_all_steps _ _ _ E)).
  destruct (runtime_teardown g Hg) as (Hn & _ & _ & Hd).
  assert (Hdone : EClose ChDone ∈ rt_log (r_shared g)).
  { apply (bool_decide_unpack _). vm_compute in E. injection E as <-. vm_compute. exact I. }
  destruct (Hd Hdone) as [Ha Hall]. split_and!; [done|done|done|]. apply Hall. not_own || set_solver.
Defined.

Lemma runtime_ends_witness : exists g, act_all [ABreak] (Run 10000 0) = Some g /\
  (forall n g', nsteps own_step n g g' -> (n <= 21)%nat) /\
  (forall g', rtc step g g' -> EClose ChDone ∉ rt_log (r_shared g') ->
     (exists a, own a g' = true /\ is_Some (act a g')) \/ stalled g').
Proof.
  destruct (act_all [ABreak] (Run 10000 0)) as [g|] eqn:E; [|vm_compute in E; discriminate E].
  exists g. split; [reflexivity|].
  assert (H : rank g = 21%nat /\ link_down (r_shared g) = true)
    by (vm_compute in E; injection E as <-; by split).
  destruct H as [<- Hd]. apply runtime_ends; [|by left]. exists 10000, 0.
  by apply (play_all_steps [ABreak]).
Defined.

(** A query without a queryable is read, and the user shuts the runtime down
    while senders fill the queue. *)
Definition stuck_end : list action :=
  [AReader [] InBatch; AReader [SOwn] InBatch; ACall false; ACaller 0; AOnce false; AOnce false;
   AWriter WStop false; AWriter WStop false] ++ replicate outQ_cap ASend.

Lemma shutdown_hangs : exists g, act_all stuck_end (Run 10000 10000) = Some g /\
  rt_once (r_shared g) = ODone /\
  forall g', rtc step g g' -> EClose ChDone ∉ rt_log (r_shared g').
Proof.
  destruct (act_all stuck_end (Run 10000 10000)) as [g|] eqn:E; [|vm_compute in E; discriminate E].
  exists g. split; [done|].
  assert (Hg : reachable g) by (exists 10000, 10000; by apply (play_all_steps _ _ _ E)).
  assert (Hs : rt_once (r_shared g) = ODone /\ r_reader g = RSend [SOwn] InBatch /\ r_writer g = WGone /\
    rt_outQ (r_shared g) = outQ_cap) by (vm_compute in E; injection E as <-; by vm_compute).
  destruct Hs as (Ho & Hr & Hw & Hq). split; [done|]. intros g' H.
  apply (reader_blocks_for_ever g g' Hg); [|done]. split; [by exists [], InBatch|]. split; [done|]. by rewrite Hq.
Qed.

(** ** The lease watchdog *)

Definition Millisecond : Z := 1000000.
Definition lease_duration (leaseMs : Z) : Z := Retry.ms_duration leaseMs.
Definition check_interval (leaseMs : Z) : Z :=
  Z.max (Z.quot (lease_duration leaseMs) 8) (50 * Millisecond).
(** [time.Now().UnixMilli()] *)
Definition UnixMilli (now : Z) : Z := now / Millisecond.
(** [time.Since(time.UnixMilli(last))], which saturates. *)
Definition Since (now last : Z) : Z :=
  Z.max (- 2 ^ 63) (Z.min (2 ^ 63 - 1) (now - last * Millisecond)).

(** A batch was received, the ticker fired; times in nanoseconds. *)
Inductive moment := MBatch (now : Z) | MTick (now : Z).
Definition time_of (m : moment) : Z := match m with MBatch t | MTick t => t end.

(** When [onExpire] is called. *)
Fixpoint watch (leaseMs last : Z) (ms : list moment) : option Z :=
  match ms with
  | [] => None
  | MBatch now :: ms => watch leaseMs (UnixMilli now) ms
  | MTick now :: ms =>
      if negb (last =? 0) && (lease_duration leaseMs <? Since now last) then Some now
      else watch leaseMs last ms
  end.
Definition leaseWatchdog (leaseMs start : Z) (ms : list moment) : option Z :=
  if leaseMs =? 0 then None else watch leaseMs (UnixMilli start) ms.

(** The last time the peer was heard. *)
Fixpoint heard (t : Z) (ms : list moment) : Z :=
  match ms with
  | [] => t
  | MBatch now :: ms => heard now ms
  | MTick _ :: ms => heard t ms
  end.

(** Times after the first millisecond of 1970, before 2262. *)
Definition in_time (t : Z) : Prop := Millisecond <= t < 2 ^ 63.

Lemma watch_spec leaseMs start ms : 0 < leaseMs * Millisecond < 2 ^ 63 -> in_time start ->
  Forall (fun m => in_time (time_of m)) ms ->
  (forall t, watch leaseMs (UnixMilli start) ms = Some t -> exists pre post, ms = pre ++ MTick t :: post /\
     leaseMs * Millisecond < t - heard start pre + Millisecond) /\
  (forall pre post t, ms = pre ++ MTick t :: post -> leaseMs * Millisecond < t - heard start pre ->
     exists pre' t', watch leaseMs (UnixMilli start) ms = Some t' /\ 
       (pre' ++ [MTick t']) `prefix_of` (pre ++ [MTick t])).
Proof.
  intros Hl Hs Hms.
  assert (Hd : lease_duration leaseMs = leaseMs * Millisecond).
  { unfold lease_duration, Retry.ms_duration, Retry.Millisecond, Millisecond in *. rewrite (int64_small leaseMs) by lia. apply int64_small. lia. }
  revert start Hs. induction Hms as [|m ms Hm Hms IH]; intros start Hs.
  { split; [done|]. by intros [|? ?]. }
  assert (Htick : forall now, in_time now ->
    negb (UnixMilli start =? 0) && (lease_duration leaseMs <? Since now (UnixMilli start)) =
    (leaseMs * Millisecond <? now - UnixMilli start * Millisecond)).
  { intros now Hnow. unfold in_time, UnixMilli, Since in *. rewrite Hd.
    pose proof (Z.div_mod start Millisecond ltac:(unfold Millisecond; lia)).
    pose proof (Z.mod_pos_bound start Millisecond ltac:(unfold Millisecond; lia)).
    unfold Millisecond in *.
    assert (start / 1000000 <> 0) by lia. rewrite (proj2 (Z.eqb_neq _ _)) by done. cbn.
    destruct (Z.ltb_spec (leaseMs * 1000000) (now - start / 1000000 * 1000000));
      [apply Z.ltb_lt|apply Z.ltb_ge]; lia. }
  assert (Hmilli : start - Millisecond < UnixMilli start * Millisecond <= start).
  { unfold UnixMilli, Millisecond. pose proof (Z.div_mod start 1000000). pose proof (Z.mod_pos_bound start 1000000). lia. }
  destruct m as [now|now]; cbn [watch time_of] in *.
  - destruct (IH now Hm) as [H1 H2]. split.
    + intros t Ht. destruct (H1 t Ht) as (pre & post & -> & H). by exists (MBatch now :: pre), post.
    + intros [|m pre] post t E Ht; [done|]. injection E as <- ->.
      destruct (H2 pre post t eq_refl Ht) as (pre' & t' & -> & Hp). exists (MBatch now :: pre'), t'.
      split; [done|]. by apply prefix_cons.
  - rewrite (Htick now Hm). destruct (Z.ltb_spec (leaseMs * Millisecond) (now - UnixMilli start * Millisecond)).
    + split.
      * intros t [= <-]. exists [], ms. cbn. split; [done|lia].
      * intros pre post t E _. exists [], now. split; [done|].
        destruct pre as [|m pre]; injection E as <- E; cbn; apply prefix_cons, prefix_nil.
    + destruct (IH start Hs) as [H1 H2]. split.
      * intros t Ht. destruct (H1 t Ht) as (pre & post & -> & H0). by exists (MTick now :: pre), post.
      * intros [|m pre] post t E Ht; injection E as <- E; cbn in Ht; [lia|].
        destruct (H2 pre post t E Ht) as (pre' & t' & Hw & Hp). exists (MTick now :: pre'), t'.
        split; [done|]. by apply prefix_cons.
Qed.

(** For a lease whose nanoseconds fit into an int64, the watchdog ends
    the runtime at no tick before the peer has been silent for the lease
    less one millisecond, and at the latest at the first tick after it has
    been silent for longer than the lease. *)
Theorem watchdog_expires leaseMs start ms : 0 < leaseMs * Millisecond < 2 ^ 63 -> in_time start ->
  Forall (fun m => in_time (time_of m)) ms ->
  (forall t, leaseWatchdog leaseMs start ms = Some t ->
     exists pre post, ms = pre ++ MTick t :: post /\
       leaseMs * Millisecond < t - heard start pre + Millisecond) /\
  (forall pre post t, ms = pre ++ MTick t :: post -> leaseMs * Millisecond < t - heard start pre ->
     exists pre' t', leaseWatchdog leaseMs start ms = Some t' /\
       (pre' ++ [MTick t']) `prefix_of` (pre ++ [MTick t])).
Proof.
  intros Hl. unfold leaseWatchdog. rewrite (proj2 (Z.eqb_neq leaseMs 0)) by lia. by apply watch_spec.
Qed.

(** A lease of one second; the peer is heard after 800 ms and then no more. *)
Definition sample_moments : list moment :=
  [MTick 50125000000; MBatch 50800000000; MTick 51750000000; MTick 51875000000].

Lemma watchdog_expires_witness :
  leaseWatchdog 1000 50000000000 sample_moments = Some 51875000000 /\
  exists pre post, sample_moments = pre ++ MTick 51875000000 :: post /\
    1000 * Millisecond < 51875000000 - heard 50000000000 pre + Millisecond.
Proof.
  split; [vm_compute; reflexivity|].
  apply (watchdog_expires 1000 50000000000 sample_moments).
  - unfold Millisecond. lia.
  - unfold in_time, Millisecond. lia.
  - repeat constructor; unfold in_time, Millisecond; cbn; lia.
  - vm_compute. reflexivity.
Defined.

(** A lease whose nanoseconds do not fit is over at the first tick. *)
Lemma endless_lease_expires leaseMs start now ms : lease_duration leaseMs < 0 -> leaseMs <> 0 ->
  in_time start -> in_time now -> start <= now ->
  leaseWatchdog leaseMs start (MTick now :: ms) = Some now.
Proof.
  intros Hl Hne Hs Hn Hle. unfold leaseWatchdog, in_time, Since, UnixMilli, Millisecond in *.
  rewrite (proj2 (Z.eqb_neq _ _)) by done. cbn [watch]. unfold Since, Millisecond.
  pose proof (Z.div_mod start 1000000 ltac:(lia)). pose proof (Z.mod_pos_bound start 1000000 ltac:(lia)).
  assert (start / 1000000 <> 0) by lia. rewrite (proj2 (Z.eqb_neq _ _)) by done. cbn.
  rewrite (proj2 (Z.ltb_lt _ _)) by lia. done.
Qed.

Example lease_overflow : lease_duration (2 ^ 64 - 1) = - 1000000 /\ lease_duration 9223372036855 < 0.
Proof. by split. Qed.
