(* ===== verification/Listeners.v ===== *)
(** * zenoh/matching.go: the handlers of matching listeners

    A listener's handler is released by whoever detaches the listener first:
    its own Drop or Undeclare, or the end of its Publisher or Querier.  The
    registry is the one of [Matching]; calls run in goroutines, one step per
    operation on shared state. *)
From S2P Require Import Prelude KeyExpr Matching Outbound.

(** ** State *)

(** [ml_drops] counts the calls of the handler's drop, [ml_told] are the
    statuses it was given; [ml_late]: one came after a drop, which is a send
    on a closed channel. *)
Record listener := mkListener {
  ml_detached : bool; ml_drops : nat; ml_told : list bool; ml_late : bool }.

Abbreviation key := (Z * Z)%type (only parsing).

(** The goroutines inside [detach] and inside [onEntryRemoved]. *)
Inductive task :=
  | DCas (k : Z * Z)
  | DUnregister (k : Z * Z)
  | DDrop (k : Z * Z)
  | HCas (k : Z * Z)
  | HDrop (k : Z * Z)
  | TDone.

#[export] Instance task_eq_dec : EqDecision task.
Proof. solve_decision. Defined.

(** [a_used] are the interest ids given out so far. *)
Record api_state := mkApi {
  a_reg : gmap Z matchingEntry; a_listeners : gmap (Z * Z) listener; a_tasks : list task;
  a_used : gset Z }.

Definition new_listener : listener := mkListener false 0 [] false.

Definition tell (st : bool) (l : listener) : listener :=
  mkListener (ml_detached l) (ml_drops l) (ml_told l ++ [st])
    (ml_late l || negb (Nat.eqb (ml_drops l) 0)).

(** The deliveries of an operation of the registry. *)
Definition deliver (out : list (Z * Z * bool)) (ls : gmap (Z * Z) listener) : gmap (Z * Z) listener :=
  fold_left (fun ls d => alter (tell d.2) d.1 ls) out ls.

(** ** Operations *)

Inductive declare_result := Refused (e : error) | Attached (interestID listenerID : Z).

(** [declareMatchingListener] on an open session; a handler that finds no
    entry is dropped at once and forgotten. *)
Definition declareMatchingListener (closed : bool) (interestID : Z) (s : api_state) :
    declare_result * api_state :=
  if closed then (Refused ErrSessionClosed, s)
  else match AttachMatchingListener interestID true (a_reg s) with
       | (None, _, _) => (Refused ErrAlreadyDropped, s)
       | (Some l, reg, out) =>
           (Attached interestID l,
            mkApi reg (deliver out (<[(interestID, l) := new_listener]> (a_listeners s)))
              (a_tasks s) (a_used s))
       end.

Definition getMatchingStatus (closed : bool) (interestID : Z) (s : api_state) : result bool :=
  if closed then Err ErrSessionClosed
  else match GetMatchingStatus interestID (a_reg s) with
       | None => Err ErrAlreadyDropped
       | Some st => Ok st
       end.

Definition set_detached (l : listener) : listener :=
  mkListener true (ml_drops l) (ml_told l) (ml_late l).
Definition add_drop (l : listener) : listener :=
  mkListener (ml_detached l) (S (ml_drops l)) (ml_told l) (ml_late l).

Definition is_detached (k : Z * Z) (s : api_state) : bool :=
  match a_listeners s !! k with Some l => ml_detached l | None => true end.

(** [detach] and [onEntryRemoved]. *)
Definition task_step (t : task) (s : api_state) : task * api_state :=
  let alter_ls f k := mkApi (a_reg s) (alter f k (a_listeners s)) (a_tasks s) (a_used s) in
  match t with
  | DCas k => if is_detached k s then (TDone, s) else (DUnregister k, alter_ls set_detached k)
  | DUnregister k =>
      (DDrop k, mkApi (DetachMatchingListener k.1 k.2 (a_reg s)) (a_listeners s) (a_tasks s) (a_used s))
  | DDrop k => (TDone, alter_ls add_drop k)
  | HCas k => if is_detached k s then (TDone, s) else (HDrop k, alter_ls set_detached k)
  | HDrop k => (TDone, alter_ls add_drop k)
  | TDone => (TDone, s)
  end.

Definition run_task (i : nat) (s : api_state) : api_state :=
  match a_tasks s !! i with
  | None => s
  | Some t =>
      let '(t', s') := task_step t s in
      mkApi (a_reg s') (a_listeners s') (<[i := t']> (a_tasks s')) (a_used s')
  end.

(** The end of a Publisher or Querier: the hooks run one after the other,
    which is among the orders of their steps. *)
Definition unregister (interestID : Z) (s : api_state) : api_state :=
  let '(reg, hooks) := UnregisterMatching interestID (a_reg s) in
  mkApi reg (a_listeners s) (a_tasks s ++ ((fun l => HCas (interestID, l)) <$> hooks)) (a_used s).

(** Interest ids are fresh, and an entry has fewer than 2^32 listeners in its
    life; the rest is free. *)
Inductive api_step : api_state -> api_state -> Prop :=
  | st_register id ke kind s : id ∉ a_used s ->
      api_step s (mkApi (RegisterMatching id ke kind (a_reg s)) (a_listeners s) (a_tasks s) ({[id]} ∪ a_used s))
  | st_declare closed id s :
      (forall e, a_reg s !! id = Some e -> me_nextListenerID e + 1 < 2 ^ 32) ->
      api_step s (declareMatchingListener closed id s).2
  | st_drop k s : is_Some (a_listeners s !! k) ->
      api_step s (mkApi (a_reg s) (a_listeners s) (a_tasks s ++ [DCas k]) (a_used s))
  | st_unregister id s : api_step s (unregister id s)
  | st_task i s : api_step s (run_task i s)
  | st_remote declare kind zid eid ke s reg out :
      applyMatchingDelta kind zid eid ke declare (a_reg s) = (reg, out) ->
      api_step s (mkApi reg (deliver out (a_listeners s)) (a_tasks s) (a_used s))
  | st_snapshot id s r reg out : onMatchingSnapshotDone id (a_reg s) = (r, reg, out) ->
      api_step s (mkApi reg (deliver out (a_listeners s)) (a_tasks s) (a_used s))
  | st_reset s : api_step s (mkApi (ResetMatching (a_reg s)) (a_listeners s) (a_tasks s) (a_used s)).

Definition api_init : api_state := mkApi ∅ ∅ [] ∅.

(** ** Invariant *)

(** The task has detached [k] and not yet dropped its handler. *)
Definition owns (k : Z * Z) (t : task) : nat :=
  match t with
  | DUnregister k' | DDrop k' | HDrop k' => if bool_decide (k' = k) then 1 else 0
  | _ => 0
  end.

Definition registered (k : Z * Z) (reg : gmap Z matchingEntry) : Prop :=
  exists e, reg !! k.1 = Some e /\ is_Some (me_listeners e !! k.2).

(** The keys of listeners that may still come to the registry. *)
Definition known (k : Z * Z) (s : api_state) : Prop :=
  k.1 ∈ a_used s /\ forall e, a_reg s !! k.1 = Some e -> k.2 <= me_nextListenerID e.

Definition task_ok (reg : gmap Z matchingEntry) (t : task) : Prop :=
  match t with DDrop k | HCas k | HDrop k => ~ registered k reg | _ => True end.

Definition task_key (t : task) : option (Z * Z) :=
  match t with
  | DCas k | DUnregister k | DDrop k | HCas k | HDrop k => Some k
  | TDone => None
  end.

Definition removed (k : Z * Z) (s : api_state) : Prop := HCas k ∈ a_tasks s.

Record api_inv (s : api_state) : Prop := {
  ai_reg id e : a_reg s !! id = Some e ->
    id ∈ a_used s /\ 0 <= me_nextListenerID e /\
    (forall l, l > me_nextListenerID e -> me_listeners e !! l = None) /\
    forall l h, me_listeners e !! l = Some h -> h = true /\ is_Some (a_listeners s !! (id, l));
  ai_known k x : a_listeners s !! k = Some x -> known k s;
  ai_owner k x : a_listeners s !! k = Some x ->
    (sum_list_with (owns k) (a_tasks s) + ml_drops x = if ml_detached x then 1 else 0)%nat;
  ai_alive k x : a_listeners s !! k = Some x -> ml_detached x = false ->
    registered k (a_reg s) \/ removed k s;
  ai_tasks t : t ∈ a_tasks s -> task_ok (a_reg s) t;
  ai_keys t k : t ∈ a_tasks s -> task_key t = Some k -> is_Some (a_listeners s !! k);
  ai_dropped k x : a_listeners s !! k = Some x -> registered k (a_reg s) -> ml_drops x = 0%nat;
  ai_late k x : a_listeners s !! k = Some x -> ml_late x = false }.

(** ** Deliveries *)

Definition shape (e : matchingEntry) : Z * gmap Z bool := (me_nextListenerID e, me_listeners e).
Definition same_shape (reg reg' : gmap Z matchingEntry) : Prop :=
  forall id, shape <$> reg' !! id = shape <$> reg !! id.

Lemma same_shape_lookup reg reg' id e' : same_shape reg reg' -> reg' !! id = Some e' ->
  exists e, reg !! id = Some e /\ me_nextListenerID e' = me_nextListenerID e /\
    me_listeners e' = me_listeners e.
Proof.
  intros H He. specialize (H id). rewrite He in H. destruct (reg !! id) as [e|]; [|done].
  cbn in H. injection H as H1 H2. eauto.
Qed.

Lemma same_shape_registered reg reg' k : same_shape reg reg' -> registered k reg' <-> registered k reg.
Proof.
  intros H. assert (Hs : same_shape reg' reg) by (intros id; by rewrite H).
  split; intros (e & He & Hl).
  - destruct (same_shape_lookup _ _ _ _ H He) as (e0 & H0 & _ & Heq). exists e0. by rewrite <- Heq.
  - destruct (same_shape_lookup _ _ _ _ Hs He) as (e0 & H0 & _ & Heq). exists e0. by rewrite <- Heq.
Qed.

Lemma deliver_all_registered reg id e st d : reg !! id = Some e -> d ∈ deliver_all id e st ->
  registered d.1 reg.
Proof.
  intros He Hd. unfold deliver_all in Hd. apply list_elem_of_fmap in Hd as (l & -> & Hl).
  apply list_elem_of_fmap in Hl as ([l' h] & -> & Hl). apply elem_of_map_to_list in Hl.
  exists e. cbn. eauto.
Qed.

Lemma entry_delta_shape kind key ke declare e : shape (entry_delta kind key ke declare e).1 = shape e.
Proof. unfold entry_delta. by repeat case_match. Qed.

Lemma applyMatchingDelta_shape kind zid eid ke declare reg reg' out :
  applyMatchingDelta kind zid eid ke declare reg = (reg', out) ->
  same_shape reg reg' /\ forall d, d ∈ out -> registered d.1 reg.
Proof.
  unfold applyMatchingDelta. intros [= <- <-]. split.
  - intros id. rewrite lookup_fmap. destruct (reg !! id); [|done]. cbn. by rewrite entry_delta_shape.
  - intros d Hd. apply list_elem_of_bind in Hd as ([id e] & Hd & He). apply elem_of_map_to_list in He.
    case_match; [|by apply elem_of_nil in Hd]. by eapply deliver_all_registered.
Qed.

Lemma onMatchingSnapshotDone_shape id reg r reg' out :
  onMatchingSnapshotDone id reg = (r, reg', out) ->
  same_shape reg reg' /\ forall d, d ∈ out -> registered d.1 reg.
Proof.
  unfold onMatchingSnapshotDone. destruct (reg !! id) as [e|] eqn:E; [destruct (me_initialDone e)|];
    intros [= <- <- <-].
  - split; [done|]. by intros d Hd%elem_of_nil.
  - split; [|intros d; by apply deliver_all_registered].
    intros i. destruct (decide (i = id)) as [->|]; [by rewrite lookup_insert_eq, E|by rewrite lookup_insert_ne].
  - split; [done|]. by intros d Hd%elem_of_nil.
Qed.

Lemma ResetMatching_shape reg : same_shape reg (ResetMatching reg).
Proof. intros id. unfold ResetMatching. rewrite lookup_fmap. by destruct (reg !! id). Qed.

Lemma deliver_lookup out ls k x' : deliver out ls !! k = Some x' ->
  exists x, ls !! k = Some x /\ ml_detached x' = ml_detached x /\ ml_drops x' = ml_drops x /\
    (ml_drops x = 0%nat \/ (forall d, d ∈ out -> d.1 <> k) -> ml_late x' = ml_late x).
Proof.
  revert ls. induction out as [|d out IH]; intros ls H; [by exists x'|].
  cbn [deliver fold_left] in H. destruct (IH _ H) as (x & Hx & H1 & H2 & H3).
  destruct (decide (d.1 = k)) as [<-|Hne].
  - rewrite lookup_alter_eq in Hx. destruct (ls !! d.1) as [y|] eqn:Ey; [|done]. injection Hx as <-.
    exists y. split_and!; try done. intros [Hz|Hn].
    + rewrite H3 by (by left). cbn. rewrite Hz. apply orb_false_r.
    + exfalso. by eapply (Hn d); [left|].
  - rewrite lookup_alter_ne in Hx by done. exists x. split_and!; try done.
    intros [Hz|Hn]; apply H3; [by left|right]. intros d' Hd'. apply Hn. by right.
Qed.

Lemma deliver_dom out ls k : is_Some (deliver out ls !! k) <-> is_Some (ls !! k).
Proof.
  revert ls. induction out as [|d out IH]; intros ls; [done|]. cbn [deliver fold_left].
  etrans; [apply IH|]. destruct (decide (d.1 = k)) as [<-|Hne].
  - rewrite lookup_alter_eq. by rewrite fmap_is_Some.
  - by rewrite lookup_alter_ne.
Qed.

(** Operations that leave the listeners of the registry as they are. *)
Lemma inv_deliver s reg' out : api_inv s -> same_shape (a_reg s) reg' ->
  (forall d, d ∈ out -> registered d.1 (a_reg s)) ->
  api_inv (mkApi reg' (deliver out (a_listeners s)) (a_tasks s) (a_used s)).
Proof.
  intros [H1 H2 H3 H4 H5 Hk H6 H7] Hs Hout.
  pose proof (fun k => same_shape_registered _ _ k Hs) as Hreg.
  constructor; cbn.
  - intros id e' He'. destruct (same_shape_lookup _ _ _ _ Hs He') as (e & He & -> & ->).
    destruct (H1 id e He) as (G1 & G2 & G3 & G4). split_and!; try done. intros l h Hl.
    destruct (G4 l h Hl) as [G5 G6]. split; [done|]. by apply deliver_dom.
  - intros k x' Hx'. destruct (deliver_lookup _ _ _ _ Hx') as (x & Hx & _).
    destruct (H2 k x Hx) as [G1 G2]. split; [done|]. cbn. intros e' He'.
    destruct (same_shape_lookup _ _ _ _ Hs He') as (e & He & -> & _). by apply G2.
  - intros k x' Hx'. destruct (deliver_lookup _ _ _ _ Hx') as (x & Hx & -> & -> & _). by apply H3.
  - intros k x' Hx' Hd. destruct (deliver_lookup _ _ _ _ Hx') as (x & Hx & E & _). rewrite E in Hd.
    rewrite Hreg. by eapply H4.
  - intros t Ht. specialize (H5 t Ht). destruct t; cbn in *; try done; by rewrite Hreg.
  - intros t k Ht Ek. apply deliver_dom. by eapply Hk.
  - intros k x' Hx' Hrk. destruct (deliver_lookup _ _ _ _ Hx') as (x & Hx & _ & -> & _).
    apply (H6 k x Hx). by apply Hreg.
  - intros k x' Hx'. destruct (deliver_lookup _ _ _ _ Hx') as (x & Hx & _ & _ & E).
    rewrite E; [by eapply H7|]. destruct (decide (ml_drops x = 0%nat)) as [|Hz]; [by left|right].
    intros d Hd <-. apply Hz. apply (H6 d.1 x Hx). by apply Hout.
Qed.

(** ** Every step keeps the invariant *)

Lemma registered_insert k id e reg : registered k (<[id := e]> reg) <->
  (k.1 = id /\ is_Some (me_listeners e !! k.2)) \/ (k.1 <> id /\ registered k reg).
Proof.
  unfold registered. destruct (decide (k.1 = id)) as [E|E].
  - rewrite E, lookup_insert_eq. naive_solver.
  - rewrite lookup_insert_ne by done. naive_solver.
Qed.

Lemma register_inv id ke kind s : api_inv s -> id ∉ a_used s ->
  api_inv (mkApi (RegisterMatching id ke kind (a_reg s)) (a_listeners s) (a_tasks s) ({[id]} ∪ a_used s)).
Proof.
  intros [H1 H2 H3 H4 H5 Hk H6 H7] Hid. unfold RegisterMatching.
  assert (Hnew : forall k, registered k (<[id := mkEntry ke kind false ∅ 0 0 ∅]> (a_reg s)) ->
    registered k (a_reg s)).
  { intros k. rewrite registered_insert. intros [[_ [h Hh]]|[_ H]]; [done|done]. }
  assert (Hne : forall k x, a_listeners s !! k = Some x -> k.1 <> id).
  { intros k x Hx <-. by apply Hid, (H2 k x Hx). }
  constructor; cbn.
  - intros i e He. destruct (decide (i = id)) as [->|Hi].
    + rewrite lookup_insert_eq in He. injection He as <-. cbn. split_and!; [set_solver|lia|done|done].
    + rewrite lookup_insert_ne in He by done. destruct (H1 i e He) as (G1 & G2). split; [set_solver|done].
  - intros k x Hx. destruct (H2 k x Hx) as [G1 G2]. split; [cbn; set_solver|]. cbn. intros e He.
    rewrite lookup_insert_ne in He; [by apply G2|]. intros E. by apply (Hne k x Hx).
  - done.
  - intros k x Hx Hd. destruct (H4 k x Hx Hd) as [G|G]; [left|by right].
    apply registered_insert. right. split; [by eapply Hne|done].
  - intros t Ht. specialize (H5 t Ht). destruct t; cbn in *; auto.
  - done.
  - intros k x Hx Hrk. by eapply H6; [|apply Hnew].
  - done.
Qed.

Lemma attach_inv id s e : api_inv s -> a_reg s !! id = Some e -> me_nextListenerID e + 1 < 2 ^ 32 ->
  let l := uint32 (me_nextListenerID e + 1) in
  api_inv (mkApi (<[id := set_listeners e l (<[l := true]> (me_listeners e))]> (a_reg s))
             (<[(id, l) := new_listener]> (a_listeners s)) (a_tasks s) (a_used s)).
Proof.
  intros [H1 H2 H3 H4 H5 Hk H6 H7] He Hlt l. destruct (H1 id e He) as (U1 & U2 & U3 & U4).
  assert (El : l = me_nextListenerID e + 1) by (subst l; unfold uint32; apply Z.mod_small; lia).
  clearbody l. subst l. set (l := me_nextListenerID e + 1).
  assert (Hfresh : a_listeners s !! (id, l) = None).
  { destruct (a_listeners s !! (id, l)) as [x|] eqn:Ex; [|done]. destruct (H2 _ _ Ex) as [_ G].
    specialize (G e He). subst l. cbn in G. lia. }
  assert (Hreg : forall k, registered k (<[id := set_listeners e l (<[l := true]> (me_listeners e))]> (a_reg s)) <->
    k = (id, l) \/ registered k (a_reg s)).
  { intros [i j]. rewrite registered_insert. unfold registered. cbn. destruct (decide (i = id)) as [->|Hi].
    - rewrite He. destruct (decide (j = l)) as [->|Hj].
      + rewrite lookup_insert_eq. naive_solver.
      + rewrite lookup_insert_ne by done. naive_solver congruence.
    - naive_solver congruence. }
  assert (Hne : forall t k, t ∈ a_tasks s -> task_key t = Some k -> k <> (id, l)).
  { intros t k Ht Ek ->. destruct (Hk t _ Ht Ek) as [x Hx]. congruence. }
  assert (Hquiet : sum_list_with (owns (id, l)) (a_tasks s) = 0%nat).
  { assert (Hall : Forall (fun t => owns (id, l) t = 0%nat) (a_tasks s)).
    { apply Forall_forall. intros t Ht. destruct t as [k|k|k|k|k|]; cbn; try done;
        case_bool_decide as E; try done; subst k; by destruct (Hne _ _ Ht eq_refl). }
    clear -Hall. induction Hall as [|t ts Ht _ IH]; [done|]. cbn. lia. }
  constructor; cbn.
  - intros i e' He'. destruct (decide (i = id)) as [->|Hi].
    + rewrite lookup_insert_eq in He'. injection He' as <-. cbn. split_and!; [done|lia| |].
      * intros j Hj. rewrite lookup_insert_ne by lia. apply U3. lia.
      * intros j h Hj. destruct (decide (j = l)) as [->|Hjl].
        -- rewrite lookup_insert_eq in Hj. injection Hj as <-. by rewrite lookup_insert_eq.
        -- rewrite lookup_insert_ne in Hj by done. destruct (U4 j h Hj) as [-> Hls]. split; [done|].
           by rewrite lookup_insert_ne by congruence.
    + rewrite lookup_insert_ne in He' by done. destruct (H1 i e' He') as (G1 & G2 & G3 & G4).
      split_and!; try done. intros j h Hj. destruct (G4 j h Hj) as [-> Hls]. split; [done|].
      by rewrite lookup_insert_ne by congruence.
  - intros k x Hx. assert (Hold : k = (id, l) \/ a_listeners s !! k = Some x).
    { destruct (decide (k = (id, l))) as [|Hkl]; [by left|right]. by rewrite lookup_insert_ne in Hx. }
    destruct Hold as [->|Hold].
    + split; [done|]. cbn. intros e'. rewrite lookup_insert_eq. intros [= <-]. cbn. lia.
    + destruct (H2 k x Hold) as [G1 G2]. split; [done|]. cbn. intros e' He'.
      destruct (decide (k.1 = id)) as [E|E].
      * rewrite E, lookup_insert_eq in He'. injection He' as <-. cbn. rewrite E in G2. specialize (G2 e He). lia.
      * rewrite lookup_insert_ne in He' by done. by apply G2.
  - intros k x Hx. destruct (decide (k = (id, l))) as [->|Hkl].
    + rewrite lookup_insert_eq in Hx. injection Hx as <-. by rewrite Hquiet.
    + rewrite lookup_insert_ne in Hx by done. by apply H3.
  - intros k x Hx Hd. destruct (decide (k = (id, l))) as [->|Hkl]; [left; apply Hreg; by left|].
    rewrite lookup_insert_ne in Hx by done. destruct (H4 k x Hx Hd) as [G|G]; [left|by right].
    apply Hreg. by right.
  - intros t Ht. specialize (H5 t Ht). pose proof (Hne t) as Hn.
    destruct t; cbn in *; try done; rewrite Hreg; intros [E|G]; naive_solver.
  - intros t k Ht Ek. rewrite lookup_insert_ne; [by eapply Hk|]. intros E. by apply (Hne t k Ht Ek).
  - intros k x Hx Hrk. destruct (decide (k = (id, l))) as [->|Hkl].
    + rewrite lookup_insert_eq in Hx. by injection Hx as <-.
    + rewrite lookup_insert_ne in Hx by done. apply Hreg in Hrk as [|Hrk]; [done|]. by eapply H6.
  - intros k x Hx. destruct (decide (k = (id, l))) as [->|Hkl].
    + rewrite lookup_insert_eq in Hx. by injection Hx as <-.
    + rewrite lookup_insert_ne in Hx by done. by eapply H7.
Qed.

Lemma declare_inv closed id s : api_inv s ->
  (forall e, a_reg s !! id = Some e -> me_nextListenerID e + 1 < 2 ^ 32) ->
  api_inv (declareMatchingListener closed id s).2.
Proof.
  intros Hi Hlt. unfold declareMatchingListener, AttachMatchingListener.
  destruct closed; [done|]. destruct (a_reg s !! id) as [e|] eqn:E; [|done]. cbn [snd].
  apply (inv_deliver _ _ _ (attach_inv id s e Hi E (Hlt e eq_refl))); [done|].
  intros d Hd. destruct (me_initialDone e); [|by apply elem_of_nil in Hd].
  apply list_elem_of_singleton in Hd as ->. cbn [fst a_reg]. apply registered_insert. left. cbn.
  split; [done|]. rewrite lookup_insert_eq. eauto.
Qed.

(** A new task that owns nothing. *)
Lemma add_tasks_inv s ts : api_inv s ->
  (forall t, t ∈ ts -> task_ok (a_reg s) t /\ (forall k, owns k t = 0%nat) /\
     forall k, task_key t = Some k -> is_Some (a_listeners s !! k)) ->
  api_inv (mkApi (a_reg s) (a_listeners s) (a_tasks s ++ ts) (a_used s)).
Proof.
  intros [H1 H2 H3 H4 H5 Hk H6 H7] Hts. constructor; cbn; try done.
  - intros k x Hx. rewrite sum_list_with_app. rewrite <- (H3 k x Hx).
    assert (E : sum_list_with (owns k) ts = 0%nat); [|lia]. clear -Hts.
    induction ts as [|t ts IH]; [done|]. cbn. rewrite IH by (intros; apply Hts; by right).
    destruct (Hts t ltac:(by left)) as (_ & -> & _). done.
  - intros k x Hx Hd. destruct (H4 k x Hx Hd) as [G|G]; [by left|right]. apply elem_of_app. by left.
  - intros t [Ht|Ht]%elem_of_app; [by apply H5|by apply Hts].
  - intros t k [Ht|Ht]%elem_of_app; [by eapply Hk|by apply Hts].
Qed.

Lemma unregister_inv id s : api_inv s -> api_inv (unregister id s).
Proof.
  intros Hi. pose proof Hi as [H1 H2 H3 H4 H5 Hk H6 H7]. unfold unregister, UnregisterMatching.
  destruct (a_reg s !! id) as [e|] eqn:E.
  2:{ cbn. rewrite app_nil_r. by destruct s. }
  destruct (H1 id e E) as (_ & _ & _ & U4).
  set (hooks := (filter (fun l : Z * bool => l.2 = true) (map_to_list (me_listeners e))).*1).
  assert (Hhooks : forall l, l ∈ hooks <-> is_Some (me_listeners e !! l)).
  { intros l. subst hooks. rewrite list_elem_of_fmap. split.
    - intros ([l' h] & -> & Hl). apply list_elem_of_filter in Hl as [_ Hl].
      apply elem_of_map_to_list in Hl. cbn. eauto.
    - intros [h Hl]. exists (l, h). split; [done|]. apply list_elem_of_filter.
      split; [by destruct (U4 l h Hl)|by apply elem_of_map_to_list]. }
  assert (Hreg : forall k, registered k (delete id (a_reg s)) <-> k.1 <> id /\ registered k (a_reg s)).
  { intros k. unfold registered. destruct (decide (k.1 = id)) as [Ek|Ek].
    - rewrite Ek, lookup_delete_eq. naive_solver.
    - rewrite lookup_delete_ne by done. naive_solver. }
  cbn. constructor; cbn.
  - intros i e' He'. apply lookup_delete_Some in He' as [_ He']. by apply H1.
  - intros k x Hx. destruct (H2 k x Hx) as [G1 G2]. split; [done|]. cbn. intros e' He'.
    apply lookup_delete_Some in He' as [_ He']. by apply G2.
  - intros k x Hx. rewrite sum_list_with_app, <- (H3 k x Hx).
    assert (E0 : sum_list_with (owns k) ((fun l => HCas (id, l)) <$> hooks) = 0%nat); [|lia].
    clear. induction hooks as [|l ls IH]; [done|]. by cbn.
  - intros k x Hx Hd. unfold removed. cbn. rewrite elem_of_app, Hreg.
    destruct (H4 k x Hx Hd) as [(e' & He' & Hl)|G]; [|auto].
    destruct (decide (k.1 = id)) as [Ek|Ek]; [right; right|left; split; [done|by exists e']].
    rewrite Ek, E in He'. injection He' as <-. apply list_elem_of_fmap. exists k.2.
    rewrite Hhooks. destruct k. cbn in *. by subst.
  - intros t [Ht|Ht]%elem_of_app.
    + specialize (H5 t Ht). destruct t; cbn in *; try done; rewrite Hreg; tauto.
    + apply list_elem_of_fmap in Ht as (l & -> & _). cbn. rewrite Hreg. cbn. tauto.
  - intros t k [Ht|Ht]%elem_of_app Ek; [by eapply Hk|].
    apply list_elem_of_fmap in Ht as (l & -> & Hl). injection Ek as <-. apply Hhooks in Hl as [h Hl].
    by destruct (U4 l h Hl).
  - intros k x Hx [_ Hrk]%Hreg. by eapply H6.
  - done.
Qed.

Section Task.
Context (i : nat) (t t' : task) (s : api_state) (Ht : a_tasks s !! i = Some t).

Lemma in_insert t0 : t0 ∈ <[i := t']> (a_tasks s) -> t0 = t' \/ t0 ∈ a_tasks s.
Proof.
  intros [j Hj]%list_elem_of_lookup. destruct (decide (i = j)) as [<-|Hne].
  - rewrite list_lookup_insert_eq in Hj by (by eapply lookup_lt_Some). injection Hj as <-. by left.
  - rewrite list_lookup_insert_ne in Hj by done. right. by eapply list_elem_of_lookup_2.
Qed.

Lemma keep_insert t0 : t0 ∈ a_tasks s -> t0 <> t -> t0 ∈ <[i := t']> (a_tasks s).
Proof.
  intros [j Hj]%list_elem_of_lookup Hne. apply (list_elem_of_lookup_2 _ j).
  rewrite list_lookup_insert_ne; [done|]. intros <-. congruence.
Qed.

(** A task changes one listener. *)
Lemma replace_inv f k reg' : api_inv s ->
  task_key t = Some k -> (t' = TDone \/ task_key t' = Some k) -> task_ok reg' t' ->
  (reg' = a_reg s \/ t = DUnregister k /\ reg' = DetachMatchingListener k.1 k.2 (a_reg s)) ->
  (forall k', k' <> k -> owns k' t' = owns k' t) ->
  (forall x, a_listeners s !! k = Some x ->
     (owns k t' + ml_drops (f x) + (if ml_detached x then 1 else 0) =
      owns k t + ml_drops x + (if ml_detached (f x) then 1 else 0))%nat /\
     (ml_detached (f x) = false -> ml_detached x = false /\ forall k, t <> HCas k) /\
     (registered k reg' -> ml_drops (f x) = ml_drops x) /\ ml_late (f x) = ml_late x) ->
  api_inv (mkApi reg' (alter f k (a_listeners s)) (<[i := t']> (a_tasks s)) (a_used s)).
Proof.
  intros [H1 H2 H3 H4 H5 Hk H6 H7] Ekey Ekey' Hok Hreg' Hown Hf.
  assert (Hdom : forall k0, is_Some (alter f k (a_listeners s) !! k0) <-> is_Some (a_listeners s !! k0)).
  { intros k0. destruct (decide (k0 = k)) as [->|Hne].
    - by rewrite lookup_alter_eq, fmap_is_Some.
    - by rewrite lookup_alter_ne. }
  assert (Hls : forall k0 x, alter f k (a_listeners s) !! k0 = Some x ->
    k0 = k /\ (exists y, a_listeners s !! k = Some y /\ x = f y) \/ k0 <> k /\ a_listeners s !! k0 = Some x).
  { intros k0 x. destruct (decide (k0 = k)) as [->|Hne].
    - rewrite lookup_alter_eq. destruct (a_listeners s !! k); naive_solver.
    - rewrite lookup_alter_ne by done. auto. }
  (* the registry: as before, or without this listener *)
  assert (Hr : (forall id e', reg' !! id = Some e' -> exists e, a_reg s !! id = Some e /\
      me_nextListenerID e' = me_nextListenerID e /\
      forall l, me_listeners e' !! l = None \/ me_listeners e' !! l = me_listeners e !! l) /\
    (forall k0, registered k0 reg' -> registered k0 (a_reg s)) /\
    (forall k0, registered k0 (a_reg s) -> registered k0 reg' \/ k0 = k /\ t = DUnregister k)).
  { destruct Hreg' as [->|[-> ->]]; [split_and!; [eauto 10|auto|auto]|].
    unfold DetachMatchingListener. destruct (a_reg s !! k.1) as [e0|] eqn:E0; [|split_and!; eauto 10].
    split_and!.
    - intros id e'. destruct (decide (id = k.1)) as [->|Hne].
      + rewrite lookup_insert_eq. intros [= <-]. exists e0. split_and!; try done. cbn. intros l.
        destruct (decide (l = k.2)) as [->|Hl]; [left; apply lookup_delete_eq|right; by apply lookup_delete_ne].
      + rewrite lookup_insert_ne by done. eauto 10.
    - intros k0. rewrite registered_insert. intros [[E1 [h Hh]]|[_ H]]; [|done]. cbn in Hh.
      apply lookup_delete_Some in Hh as [_ Hh]. exists e0. rewrite E1. eauto.
    - intros k0 (e & He & Hl). destruct (decide (k0 = k)) as [->|Hne]; [by right|left].
      apply registered_insert. destruct (decide (k0.1 = k.1)) as [E1|E1]; [left|right; split; [done|by exists e]].
      split; [done|]. rewrite E1, E0 in He. injection He as <-. cbn.
      rewrite lookup_delete_ne; [done|]. intros E2. apply Hne. destruct k0, k. cbn in *. congruence. }
  destruct Hr as (R1 & R2 & R3). constructor; cbn.
  - intros id e' He'. destruct (R1 id e' He') as (e & He & En & El).
    destruct (H1 id e He) as (G1 & G2 & G3 & G4). rewrite En. split_and!; try done.
    + intros l Hl. destruct (El l) as [-> | ->]; [done|by apply G3].
    + intros l h Hl. rewrite Hdom. destruct (El l) as [E|E]; rewrite E in Hl; [done|by apply G4].
  - intros k0 x Hx. assert (Hin : is_Some (a_listeners s !! k0)) by by apply Hdom.
    destruct Hin as [y Hy]. destruct (H2 k0 y Hy) as [G1 G2]. split; [done|]. cbn. intros e' He'.
    destruct (R1 _ e' He') as (e & He & -> & _). by apply G2.
  - intros k0 x Hx. pose proof (sum_list_insert (owns k0) (a_tasks s) i t t' Ht) as Hsum.
    destruct (Hls k0 x Hx) as [(-> & y & Hy & ->)|[Hne Hy]].
    + destruct (Hf y Hy) as [G _]. specialize (H3 k y Hy). lia.
    + rewrite (Hown k0 Hne) in Hsum. specialize (H3 k0 x Hy). lia.
  - intros k0 x Hx Hd. unfold removed in *. cbn.
    destruct (Hls k0 x Hx) as [(-> & y & Hy & ->)|[Hne Hy]].
    + destruct (Hf y Hy) as (G0 & G & _). destruct (G Hd) as [Gd Gt].
      destruct (H4 k y Hy Gd) as [Gr|Gr]; [|right; by apply keep_insert].
      destruct (R3 k Gr) as [|[_ Et]]; [by left|]. exfalso. specialize (H3 k y Hy). rewrite Gd in H3.
      pose proof (sum_list_insert (owns k) (a_tasks s) i t TDone Ht) as Hsum. rewrite Et in Hsum. cbn in Hsum.
      rewrite bool_decide_eq_true_2 in Hsum by done. lia.
    + destruct (H4 k0 x Hy Hd) as [Gr|Gr].
      * left. destruct (R3 k0 Gr) as [|[-> _]]; done.
      * right. apply keep_insert; [done|]. intros <-. cbn in Ekey. congruence.
  - intros t0 [-> |Ht0]%in_insert; [done|]. specialize (H5 t0 Ht0). destruct t0; cbn in *; auto.
  - intros t0 k0 [-> |Ht0]%in_insert Ek0; rewrite Hdom; [|by eapply Hk].
    destruct Ekey' as [-> |E]; [done|]. rewrite E in Ek0. injection Ek0 as <-.
    eapply Hk; [by eapply list_elem_of_lookup_2|done].
  - intros k0 x Hx Hrk. destruct (Hls k0 x Hx) as [(-> & y & Hy & ->)|[Hne Hy]].
    + destruct (Hf y Hy) as (_ & _ & G & _). rewrite (G Hrk). apply (H6 k y Hy), R2, Hrk.
    + apply (H6 k0 x Hy), R2, Hrk.
  - intros k0 x Hx. destruct (Hls k0 x Hx) as [(-> & y & Hy & ->)|[Hne Hy]]; [|by eapply H7].
    destruct (Hf y Hy) as (_ & _ & _ & ->). by eapply H7.
Qed.
End Task.

Lemma alter_same (k : Z * Z) (ls : gmap (Z * Z) listener) : alter (fun x : listener => x) k ls = ls.
Proof. by apply alter_id. Qed.

(** The task that runs owns its listener, or does not. *)
Lemma own_pos s i t k x : api_inv s -> a_tasks s !! i = Some t -> owns k t = 1%nat ->
  a_listeners s !! k = Some x -> ml_detached x = true /\ ml_drops x = 0%nat.
Proof.
  intros Hi Ht Ho Hx. pose proof (ai_owner s Hi k x Hx) as H.
  pose proof (sum_list_insert (owns k) (a_tasks s) i t TDone Ht) as Hs. rewrite Ho in Hs. cbn in Hs.
  destruct (ml_detached x); [split; [done|]|]; lia.
Qed.

Lemma owns_eq k : owns k (DUnregister k) = 1%nat /\ owns k (DDrop k) = 1%nat /\ owns k (HDrop k) = 1%nat.
Proof. cbn. by rewrite bool_decide_eq_true_2. Qed.

Lemma owns_ne k k' t : task_key t = Some k -> k' <> k -> owns k' t = 0%nat.
Proof. intros E Hne. destruct t; cbn in *; simplify_eq; try done; by rewrite bool_decide_eq_false_2. Qed.

Lemma run_task_inv i s : api_inv s -> api_inv (run_task i s).
Proof.
  intros Hi. unfold run_task. destruct (a_tasks s !! i) as [t|] eqn:Ht; [|done].
  assert (Hdone : task_key t = None -> t = TDone) by by destruct t.
  assert (Hid : t = TDone -> api_inv (mkApi (a_reg s) (a_listeners s) (<[i := t]> (a_tasks s)) (a_used s))).
  { intros _. rewrite list_insert_id by done. by destruct s. }
  assert (Hkey : forall k, task_key t = Some k -> is_Some (a_listeners s !! k))
    by (intros k; eapply ai_keys; [done|by eapply list_elem_of_lookup_2]).
  assert (Hnop : forall k, task_key t = Some k -> is_detached k s = true -> owns k t = 0%nat ->
    api_inv (mkApi (a_reg s) (a_listeners s) (<[i := TDone]> (a_tasks s)) (a_used s))).
  { intros k Ek Hd Ho. rewrite <- (alter_same k (a_listeners s)).
    eapply (replace_inv i t TDone s Ht); try done; [by left|by left| |].
    - intros k' Hne. by rewrite (owns_ne k k' t).
    - intros x Hx. unfold is_detached in Hd. rewrite Hx in Hd. rewrite Ho, Hd. split_and!; done || lia. }
  pose proof (ai_tasks s Hi t (list_elem_of_lookup_2 _ _ _ Ht)) as Hok.
  destruct t as [k|k|k|k|k|]; cbn [task_step]; cbn in Hkey; try destruct (Hkey k eq_refl) as [x0 Hx0].
  - destruct (is_detached k s) eqn:Ed; [by eapply Hnop|]. cbn.
    eapply (replace_inv i _ _ s Ht); try done; [by right|by left| |].
    + intros k' Hne. cbn. by rewrite bool_decide_eq_false_2 by congruence.
    + intros x Hx. unfold is_detached in Ed. rewrite Hx in Ed. rewrite Ed. cbn.
      rewrite bool_decide_eq_true_2 by done. split_and!; done || lia.
  - cbn. rewrite <- (alter_same k (a_listeners s)).
    eapply (replace_inv i _ _ s Ht); try done; [by right| |by right].
    cbn. unfold registered, DetachMatchingListener. destruct (a_reg s !! k.1) as [e|] eqn:Ee.
    + intros (e' & He' & Hl). rewrite lookup_insert_eq in He'. injection He' as <-. cbn in Hl.
      rewrite lookup_delete_eq in Hl. by destruct Hl.
    + intros (e' & He' & Hl). congruence.
  - cbn. eapply (replace_inv i _ _ s Ht); try done; [by left|by left| |].
    + intros k' Hne. cbn. by rewrite bool_decide_eq_false_2 by congruence.
    + intros x Hx. destruct (own_pos s i _ k x Hi Ht (proj1 (proj2 (owns_eq k))) Hx) as [Hd Hz].
      rewrite (proj1 (proj2 (owns_eq k))). cbn. rewrite Hd, Hz. split_and!; done || lia.
  - destruct (is_detached k s) eqn:Ed; [by eapply Hnop|]. cbn.
    eapply (replace_inv i _ _ s Ht); try done; [by right|by left| |].
    + intros k' Hne. cbn. by rewrite bool_decide_eq_false_2 by congruence.
    + intros x Hx. unfold is_detached in Ed. rewrite Hx in Ed. rewrite Ed. cbn.
      rewrite bool_decide_eq_true_2 by done. split_and!; done || lia.
  - cbn. eapply (replace_inv i _ _ s Ht); try done; [by left|by left| |].
    + intros k' Hne. cbn. by rewrite bool_decide_eq_false_2 by congruence.
    + intros x Hx. destruct (own_pos s i _ k x Hi Ht (proj2 (proj2 (owns_eq k))) Hx) as [Hd Hz].
      rewrite (proj2 (proj2 (owns_eq k))). cbn. rewrite Hd, Hz. split_and!; done || lia.
  - by apply Hid.
Qed.

Lemma api_step_inv s s' : api_inv s -> api_step s s' -> api_inv s'.
Proof.
  intros Hi Hs. destruct Hs as [id ke kind s Hid|closed id s Hlt|k s Hk|id s|i s|d kind zid eid ke s reg out E|id s r reg out E|s].
  - by apply register_inv.
  - by apply declare_inv.
  - apply add_tasks_inv; [done|]. intros t ->%list_elem_of_singleton. split_and!; [done|done|].
    by intros k' [= <-].
  - by apply unregister_inv.
  - by apply run_task_inv.
  - apply applyMatchingDelta_shape in E as [E1 E2]. by apply inv_deliver.
  - apply onMatchingSnapshotDone_shape in E as [E1 E2]. by apply inv_deliver.
  - apply (inv_deliver s _ []); [done|apply ResetMatching_shape|]. by intros d Hd%elem_of_nil.
Qed.

Lemma api_init_inv : api_inv api_init.
Proof. by constructor; cbn; intros *; rewrite ?lookup_empty; intros; try done; apply elem_of_nil in H. Qed.

(** C28: However declarations of matching listeners, their Drop and
    Undeclare calls, the end of their Publisher or Querier and the
    deliveries of the registry interleave, a handler is dropped at most once
    and told nothing afterwards; and when no call is under way, the handlers
    dropped are those of the listeners that are no longer registered. *)
Theorem matching_handlers_released s : rtc api_step api_init s ->
  forall k x, a_listeners s !! k = Some x ->
  ml_late x = false /\ (ml_drops x <= 1)%nat /\
  (Forall (eq TDone) (a_tasks s) -> 
     ml_drops x = (if ml_detached x then 1 else 0)%nat /\
     (ml_detached x = false <-> registered k (a_reg s))).
Proof.
  intros Hs k x Hx.
  assert (Hi : api_inv s).
  { clear Hx. apply (rtc_ind_r (fun s => api_inv s)) in Hs; [done|apply api_init_inv|].
    intros y z _ Hyz Hy. by eapply api_step_inv. }
  pose proof (ai_owner s Hi k x Hx) as Ho. split; [by eapply ai_late|].
  split; [destruct (ml_detached x); lia|]. intros Hdone.
  assert (E0 : sum_list_with (owns k) (a_tasks s) = 0%nat).
  { clear -Hdone. induction Hdone as [|t ts <- _ IH]; [done|]. by cbn. }
  rewrite E0 in Ho. cbn in Ho. split; [done|]. split.
  - intros Hd. destruct (ai_alive s Hi k x Hx Hd) as [|Hr]; [done|].
    rewrite Forall_forall in Hdone. by specialize (Hdone _ Hr).
  - intros Hr. pose proof (ai_dropped s Hi k x Hx Hr) as Hz. rewrite Hz in Ho. by destruct (ml_detached x).
Qed.

(** A listener that the user drops while its Publisher is dropped. *)
Definition sample_registered : api_state :=
  mkApi (RegisterMatching 1 (mkKeyExpr (str "a/*")) MatchingSubscribers ∅) ∅ [] ({[1]} ∪ ∅).
Definition sample_attached : api_state := (declareMatchingListener false 1 sample_registered).2.
Definition sample_told : api_state :=
  let '(_, reg, out) := onMatchingSnapshotDone 1 (a_reg sample_attached) in
  mkApi reg (deliver out (a_listeners sample_attached)) (a_tasks sample_attached) (a_used sample_attached).
Definition sample_dropping : api_state :=
  mkApi (a_reg sample_told) (a_listeners sample_told) (a_tasks sample_told ++ [DCas (1, 1)]) (a_used sample_told).
Definition sample_gone : api_state := unregister 1 sample_dropping.
Definition sample_detached : api_state := run_task 0 sample_gone.
Definition sample_hooked : api_state := run_task 1 sample_detached.
Definition sample_unregistered : api_state := run_task 0 sample_hooked.
Definition sample_released : api_state := run_task 0 sample_unregistered.

Lemma sample_told_step : api_step sample_attached sample_told.
Proof.
  unfold sample_told. destruct (onMatchingSnapshotDone 1 (a_reg sample_attached)) as [[r reg] out] eqn:E.
  exact (st_snapshot 1 sample_attached r reg out E).
Qed.

Lemma sample_attached_step : api_step sample_registered sample_attached.
Proof.
  refine (st_declare false 1 sample_registered _).
  unfold sample_registered, RegisterMatching. cbn [a_reg]. intros e. rewrite lookup_insert_eq.
  by intros [= <-].
Qed.

Lemma sample_dropping_step : api_step sample_told sample_dropping.
Proof. refine (st_drop (1, 1) sample_told _). vm_compute. eauto. Qed.

Lemma sample_released_reachable : rtc api_step api_init sample_released.
Proof.
  refine (rtc_l _ _ sample_registered _ _ _).
  { refine (st_register 1 _ _ api_init _). set_solver. }
  refine (rtc_l _ _ sample_attached _ sample_attached_step _).
  refine (rtc_l _ _ sample_told _ sample_told_step _).
  refine (rtc_l _ _ sample_dropping _ sample_dropping_step _).
  refine (rtc_l _ _ sample_gone _ (st_unregister 1 sample_dropping) _).
  refine (rtc_l _ _ sample_detached _ (st_task 0 sample_gone) _).
  refine (rtc_l _ _ sample_hooked _ (st_task 1 sample_detached) _).
  refine (rtc_l _ _ sample_unregistered _ (st_task 0 sample_hooked) _).
  refine (rtc_l _ _ sample_released _ (st_task 0 sample_unregistered) _).
  apply rtc_refl.
Qed.

Lemma matching_handlers_released_witness : exists x,
  a_listeners sample_released !! (1, 1) = Some x /\ ml_told x = [false] /\
  ml_late x = false /\ ml_drops x = 1%nat.
Proof.
  destruct (a_listeners sample_released !! (1, 1)) as [x|] eqn:E; [|vm_compute in E; discriminate E].
  exists x. destruct (matching_handlers_released sample_released sample_released_reachable (1, 1) x E)
    as (Hl & _ & Hd).
  assert (Hx : ml_told x = [false] /\ ml_detached x = true)
    by (vm_compute in E; injection E as <-; by split).
  destruct Hx as [Ht Hx]. destruct Hd as [Hd _].
  { apply Forall_forall. intros t Ht'. apply list_elem_of_lookup in Ht' as [i Hi].
    vm_compute in Hi. destruct i as [|[|i]]; [by injection Hi as <-..|discriminate Hi]. }
  split; [reflexivity|]. split; [done|]. split; [done|]. by rewrite Hd, Hx.
Defined.
