(* ===== verification/GetRun.v ===== *)
(** * zenoh/get.go, liveliness.go: the goroutines of a Get

    A Get in flight: the channel its replies come in, the translator that
    turns them into public replies, the watcher that cancels it, and the user
    who reads.  The translators of [Consolidation] are functions on the list
    of replies; here they are goroutines with a full or an empty channel at
    either side.  A liveliness Get is the same with its own translator. *)
From S2P Require Import Prelude WirePrim WireNetwork KeyExpr Collector Session Consolidation.
From S2P Require Import Dispatch Messages Outbound Entities Publish.

(** ** Translators *)

(** The closures of a translator: what a reply gives and the new state, what
    is emitted at the end; [tr_ctx]: a receive also watches the context. *)
Record translator (In St : Type) := mkTranslator {
  tr_init : St; tr_recv : St -> In -> St * option Reply; tr_end : St -> list Reply; tr_ctx : bool }.
Arguments mkTranslator {In St}.
Arguments tr_init {In St}.
Arguments tr_recv {In St}.
Arguments tr_end {In St}.
Arguments tr_ctx {In St}.

Definition streaming {In St} (decide : St -> In -> Reply * bool * St) (init : St) : translator In St :=
  mkTranslator init
    (fun st raw => let '(reply, keep, st) := decide st raw in (st, if keep then Some reply else None))
    (fun _ => []) false.

Definition stream_translator : translator InboundReply unit :=
  streaming (fun st raw => (buildPublicReply raw, true, st)) tt.
Definition monotonic_translator : translator InboundReply (gmap (list Z) Z) :=
  streaming monotonic_decide ∅.
Definition latest_translator : translator InboundReply latest_state :=
  mkTranslator (mkLatest ∅ [] []) (fun st raw => (latest_take st raw, None))
    (fun st => la_errs st ++ omap (fun k => fst <$> la_buf st !! k) (la_order st)) true.

(** A token has a key only. *)
Definition livelinessReply (ev : LivelinessEvent) : Reply :=
  mkReply (le_ParsedKeyExpr ev)
    (Some (mkSample (le_ParsedKeyExpr ev) [] SampleKindPut None None)) None.
Definition liveliness_translator : translator LivelinessEvent unit :=
  streaming (fun st ev => (livelinessReply ev, true, st)) tt.

Section Get.
Context {In St : Type} (T : translator In St).

(** ** State *)

(** The translator receives; sends [rs], the last ones or with [st] to go on
    from; closes [translatorExited]; closes [out]. *)
Inductive translator_pc :=
  | TRecv (st : St)
  | TSend (st : option St) (rs : list Reply)
  | TExit
  | TClose
  | TGone.

Inductive watcher_pc := WWait | WCancel | WGone.

(** [g_accepted], [g_received], [g_emitted], [g_read]: the replies put into the
    inbound channel, taken from it, put into [out], read by the user. *)
Record get := mkGet {
  g_registered : bool; g_in : chan In; g_out : chan Reply; g_exited : bool;
  g_tr : translator_pc; g_watch : watcher_pc; g_ctx : bool; g_timer : bool;
  g_accepted : list In; g_received : list In; g_emitted : list Reply; g_read : list Reply }.

(** A reply for the request, RESPONSE_FINAL, cancellation, teardown. *)
Definition deliver (a : In) (g : get) : result get :=
  if g_registered g then
    c ← chan_try_send a (g_in g);
    Ok (mkGet true c (g_out g) (g_exited g) (g_tr g) (g_watch g) (g_ctx g) (g_timer g)
          (if (length (ch_buf (g_in g)) <? ch_cap (g_in g))%nat then g_accepted g ++ [a] else g_accepted g)
          (g_received g) (g_emitted g) (g_read g))
  else Ok g.

Definition finalise (g : get) : result get :=
  if g_registered g then
    c ← chan_close (g_in g);
    Ok (mkGet false c (g_out g) (g_exited g) (g_tr g) (g_watch g) (g_ctx g) (g_timer g)
          (g_accepted g) (g_received g) (g_emitted g) (g_read g))
  else Ok g.

Definition set_tr (p : translator_pc) (g : get) : get :=
  mkGet (g_registered g) (g_in g) (g_out g) (g_exited g) p (g_watch g) (g_ctx g) (g_timer g)
    (g_accepted g) (g_received g) (g_emitted g) (g_read g).
Definition set_watch (p : watcher_pc) (g : get) : get :=
  mkGet (g_registered g) (g_in g) (g_out g) (g_exited g) (g_tr g) p (g_ctx g) (g_timer g)
    (g_accepted g) (g_received g) (g_emitted g) (g_read g).
Definition set_exited (g : get) : get :=
  mkGet (g_registered g) (g_in g) (g_out g) true (g_tr g) (g_watch g) (g_ctx g) (g_timer g)
    (g_accepted g) (g_received g) (g_emitted g) (g_read g).
Definition set_ctx (g : get) : get :=
  mkGet (g_registered g) (g_in g) (g_out g) (g_exited g) (g_tr g) (g_watch g) true (g_timer g)
    (g_accepted g) (g_received g) (g_emitted g) (g_read g).
Definition set_timer (g : get) : get :=
  mkGet (g_registered g) (g_in g) (g_out g) (g_exited g) (g_tr g) (g_watch g) (g_ctx g) true
    (g_accepted g) (g_received g) (g_emitted g) (g_read g).
Definition take_in (a : In) (c : chan In) (g : get) : get :=
  mkGet (g_registered g) c (g_out g) (g_exited g) (g_tr g) (g_watch g) (g_ctx g) (g_timer g)
    (g_accepted g) (g_received g ++ [a]) (g_emitted g) (g_read g).
Definition put_out (r : Reply) (c : chan Reply) (g : get) : get :=
  mkGet (g_registered g) (g_in g) c (g_exited g) (g_tr g) (g_watch g) (g_ctx g) (g_timer g)
    (g_accepted g) (g_received g) (g_emitted g ++ [r]) (g_read g).
Definition set_out (c : chan Reply) (read : list Reply) (g : get) : get :=
  mkGet (g_registered g) (g_in g) c (g_exited g) (g_tr g) (g_watch g) (g_ctx g) (g_timer g)
    (g_accepted g) (g_received g) (g_emitted g) read.

(** ** Steps *)

(** After the last of the replies to send. *)
Definition sent (st : option St) (rs : list Reply) : translator_pc :=
  match rs, st with
  | [], Some st => TRecv st
  | [], None => TExit
  | rs, st => TSend st rs
  end.

(** [ctx] is the choice of a [select]. *)
Definition translator_step (ctx : bool) (g : get) : option (result get) :=
  match g_tr g with
  | TRecv st =>
      if ctx then if tr_ctx T && g_ctx g then Some (Ok (set_tr TExit g)) else None
      else match chan_recv (g_in g) with
           | (RValue a, c) =>
               let '(st, o) := tr_recv T st a in
               Some (Ok (set_tr (sent (Some st) (option_list o)) (take_in a c g)))
           | (RClosed, _) => Some (Ok (set_tr (sent None (tr_end T st)) g))
           | (RBlocked, _) => None
           end
  | TSend st (r :: rs) =>
      if ctx then if g_ctx g then Some (Ok (set_tr TExit g)) else None
      else if (length (ch_buf (g_out g)) <? ch_cap (g_out g))%nat
      then Some (c ← chan_try_send r (g_out g); Ok (set_tr (sent st rs) (put_out r c g)))
      else None
  | TSend _ [] => None
  | TExit => Some (Ok (set_tr TClose (set_exited g)))
  | TClose => Some (c ← chan_close (g_out g); Ok (set_tr TGone (set_out c (g_read g) g)))
  | TGone => None
  end.

Inductive reason := ByCtx | ByTimer | ByExit.

(** [runCancelWatcher] *)
Definition watcher_step (why : reason) (g : get) : option (result get) :=
  match g_watch g with
  | WWait =>
      match why with
      | ByCtx => if g_ctx g then Some (Ok (set_watch WCancel g)) else None
      | ByTimer => if g_timer g then Some (Ok (set_watch WCancel g)) else None
      | ByExit => if g_exited g then Some (Ok (set_watch WGone g)) else None
      end
  | WCancel => Some (finalise (set_watch WGone g))
  | WGone => None
  end.

Definition user_reads (g : get) : option (result get) :=
  match chan_recv (g_out g) with
  | (RValue r, c) => Some (Ok (set_out c (g_read g ++ [r]) g))
  | _ => None
  end.

Inductive get_action :=
  | GTranslator (ctx : bool)
  | GWatcher (why : reason)
  | GRead
  | GDeliver (a : In)
  | GFinal
  | GCtx
  | GTimer.

(** [can_cancel], [can_expire]: the context can be done, a time was set. *)
Context (can_cancel can_expire : bool).

Definition get_act (a : get_action) (g : get) : option (result get) :=
  match a with
  | GTranslator ctx => translator_step ctx g
  | GWatcher why => watcher_step why g
  | GRead => user_reads g
  | GDeliver a => Some (deliver a g)
  | GFinal => Some (finalise g)
  | GCtx => if can_cancel then Some (Ok (set_ctx g)) else None
  | GTimer => if can_expire then Some (Ok (set_timer g)) else None
  end.

(** What GetWithContext leaves behind when it returns. *)
Definition start_get (bufSize : nat) : get :=
  mkGet true (mkChan bufSize [] false) (mkChan bufSize [] false) false (TRecv (tr_init T))
    (if can_cancel || can_expire then WWait else WGone) false false [] [] [] [].

(** ** What the translator emits *)

Fixpoint translate (st : St) (l : list In) : St * list Reply :=
  match l with
  | [] => (st, [])
  | a :: l =>
      let '(st, o) := tr_recv T st a in
      let '(st, rs) := translate st l in (st, option_list o ++ rs)
  end.

(** All of it, up to the end. *)
Definition translation (l : list In) : list Reply :=
  let '(st, rs) := translate (tr_init T) l in rs ++ tr_end T st.

Lemma translate_app st l l' : translate st (l ++ l') =
  let '(st1, rs1) := translate st l in let '(st2, rs2) := translate st1 l' in (st2, rs1 ++ rs2).
Proof.
  revert st. induction l as [|a l IH]; intros st; cbn.
  - by destruct (translate st l') as [st2 rs2].
  - destruct (tr_recv T st a) as [st1 o]. rewrite IH. destruct (translate st1 l) as [st2 rs2].
    destruct (translate st2 l') as [st3 rs3]. by rewrite app_assoc.
Qed.

Lemma translation_app st l l' rs : translate (tr_init T) l = (st, rs) ->
  rs `prefix_of` translation (l ++ l').
Proof.
  intros E. unfold translation. rewrite translate_app, E.
  destruct (translate st l') as [st2 rs2]. rewrite <- app_assoc. apply prefix_app_r. done.
Qed.

(** ** The invariant *)

Definition drained (g : get) : Prop := ch_closed (g_in g) = true /\ ch_buf (g_in g) = [].

(** Whatever is still to come, the user is owed what was emitted. *)
Definition owed (g : get) : Prop :=
  forall more, (drained g -> more = []) -> g_emitted g `prefix_of` translation (g_received g ++ more).

Definition on_course (g : get) : Prop :=
  match g_tr g with
  | TRecv st => translate (tr_init T) (g_received g) = (st, g_emitted g)
  | TSend (Some st) rs => rs <> [] /\
      translate (tr_init T) (g_received g) = (st, g_emitted g ++ rs)
  | TSend None rs => rs <> [] /\ drained g /\ translation (g_received g) = g_emitted g ++ rs
  | _ => (drained g /\ translation (g_received g) = g_emitted g) \/ (g_ctx g = true /\ owed g)
  end.

Record get_ok (bufSize : nat) (g : get) : Prop := {
  go_registered : g_registered g = negb (ch_closed (g_in g));
  go_exited : g_exited g = match g_tr g with TClose | TGone => true | _ => false end;
  go_out : ch_closed (g_out g) = match g_tr g with TGone => true | _ => false end;
  go_caps : ch_cap (g_in g) = bufSize /\ ch_cap (g_out g) = bufSize;
  go_watch : g_watch g = WGone ->
    g_registered g = false \/ g_exited g = true \/ (can_cancel = false /\ can_expire = false);
  go_flags : (g_ctx g = true -> can_cancel = true) /\ (g_timer g = true -> can_expire = true);
  go_accepted : g_accepted g = g_received g ++ ch_buf (g_in g);
  go_emitted : g_emitted g = g_read g ++ ch_buf (g_out g);
  go_course : on_course g }.

Lemma get_ok_start n : get_ok n (start_get n).
Proof.
  constructor; cbn; try done. intros H. right. right. by destruct can_cancel, can_expire.
Qed.

Lemma on_course_more g g' : g_tr g' = g_tr g -> g_received g' = g_received g ->
  g_emitted g' = g_emitted g -> (g_ctx g = true -> g_ctx g' = true) ->
  (drained g -> drained g') -> on_course g -> on_course g'.
Proof.
  unfold on_course, owed. intros -> -> -> Hc Hd.
  destruct (g_tr g) as [st|[st|] rs| | |]; try tauto.
  all: intros [[??]|[??]]; [left; tauto|right; split; [tauto|]; intros more Hm; auto].
Qed.

(** Nobody sends on a closed channel or closes one twice. *)
Lemma deliver_step n a g : get_ok n g -> exists g', deliver a g = Ok g' /\ get_ok n g'.
Proof.
  intros H. unfold deliver. destruct (g_registered g) eqn:Er; [|by eauto].
  pose proof (go_registered _ _ H) as E. rewrite Er in E.
  destruct (ch_closed (g_in g)) eqn:Ec; [done|]. unfold chan_try_send. rewrite Ec.
  destruct H. destruct (_ <? _)%nat eqn:El; eexists; (split; [done|]); constructor; cbn;
    rewrite ?Ec; rewrite ?Er in *; try done.
  - by rewrite go_accepted0, app_assoc.
  - eapply on_course_more; [..|exact go_course0]; cbn; try done. unfold drained. rewrite Ec. by intros [??].
Qed.

Lemma finalise_step n g : get_ok n g -> exists g', finalise g = Ok g' /\ get_ok n g'.
Proof.
  intros H. unfold finalise. destruct (g_registered g) eqn:Er; [|by eauto].
  pose proof (go_registered _ _ H) as E. rewrite Er in E.
  destruct (ch_closed (g_in g)) eqn:Ec; [done|]. unfold chan_close. rewrite Ec.
  destruct H. eexists; (split; [done|]); constructor; cbn; try done.
  - by left.
  - eapply on_course_more; [..|exact go_course0]; cbn; try done. unfold drained. rewrite Ec. by intros [??].
Qed.

Lemma owed_closed g : drained g -> g_emitted g `prefix_of` translation (g_received g) -> owed g.
Proof. intros Hd Hp more Hm. by rewrite (Hm Hd), app_nil_r. Qed.

Lemma owed_open g st rs : translate (tr_init T) (g_received g) = (st, g_emitted g ++ rs) -> owed g.
Proof.
  intros E more _. etrans; [|by eapply translation_app]. by apply prefix_app_r.
Qed.

(** Whatever the translator is doing, what it emitted is owed. *)
Lemma owed_on_course g : on_course g -> owed g.
Proof.
  unfold on_course. intros H. destruct (g_tr g) as [st|[st|] rs| | |].
  4-6: destruct H as [[Hd E]|[_ H]]; [apply owed_closed; [done|by rewrite E]|done].
  - eapply (owed_open g st []). by rewrite app_nil_r.
  - destruct H as [_ H]. by eapply owed_open.
  - destruct H as (_ & Hd & E). apply owed_closed; [done|]. rewrite E. by apply prefix_app_r.
Qed.

Lemma sent_on_course g st o : translate (tr_init T) (g_received g) = (st, g_emitted g ++ option_list o) ->
  on_course (set_tr (sent (Some st) (option_list o)) g).
Proof. destruct o as [r|]; cbn; [done|]. by rewrite app_nil_r. Qed.

Lemma translate_snoc l a st rs : translate (tr_init T) l = (st, rs) ->
  translate (tr_init T) (l ++ [a]) =
    ((tr_recv T st a).1, rs ++ option_list (tr_recv T st a).2).
Proof.
  intros E. rewrite translate_app, E. cbn. destruct (tr_recv T st a) as [st' o]. cbn.
  by rewrite app_nil_r.
Qed.

Lemma sent_exited st rs : match sent st rs with TClose | TGone => true | _ => false end = false.
Proof. by destruct rs, st. Qed.
Lemma sent_gone st rs : match sent st rs with TGone => true | _ => false end = false.
Proof. by destruct rs, st. Qed.

(** A reply received. *)
Lemma receive_step n g st a buf : get_ok n g -> g_tr g = TRecv st -> ch_buf (g_in g) = a :: buf ->
  get_ok n (set_tr (sent (Some (tr_recv T st a).1) (option_list (tr_recv T st a).2))
              (take_in a (mkChan (ch_cap (g_in g)) buf (ch_closed (g_in g))) g)).
Proof.
  intros [] Et Eb. rewrite Et in *. constructor; cbn; try done.
  - by rewrite sent_exited.
  - by rewrite sent_gone.
  - by rewrite go_accepted0, Eb, <- app_assoc.
  - apply sent_on_course. cbn. apply translate_snoc. unfold on_course in go_course0. by rewrite Et in go_course0.
Qed.

(** The inbound channel is closed. *)
Lemma end_step n g st : get_ok n g -> g_tr g = TRecv st -> drained g ->
  get_ok n (set_tr (sent None (tr_end T st)) g).
Proof.
  intros [] Et Hd. rewrite Et in *. constructor; cbn; try done.
  - by rewrite sent_exited.
  - by rewrite sent_gone.
  - unfold on_course in *. rewrite Et in go_course0. cbn.
    assert (E : translation (g_received g) = g_emitted g ++ tr_end T st)
      by (unfold translation; by rewrite go_course0).
    destruct (tr_end T st) as [|r rs]; cbn; [|done]. left. by rewrite app_nil_r in E.
Qed.

Lemma exit_step n g : get_ok n g -> g_ctx g = true ->
  (match g_tr g with TRecv _ | TSend _ _ => True | _ => False end) ->
  get_ok n (set_tr TExit g).
Proof.
  intros [] Hc Hp. constructor; cbn; try done.
  - by destruct (g_tr g).
  - by destruct (g_tr g).
  - right. split; [done|]. change (owed g). by apply owed_on_course.
Qed.

(** A reply put into [out]. *)
Lemma send_step n g st r rs : get_ok n g -> g_tr g = TSend st (r :: rs) ->
  get_ok n (set_tr (sent st rs)
              (put_out r (mkChan (ch_cap (g_out g)) (ch_buf (g_out g) ++ [r]) false) g)).
Proof.
  intros [] Et. rewrite Et in *. constructor; cbn; try done.
  - by rewrite sent_exited.
  - by rewrite sent_gone.
  - by rewrite go_emitted0, <- app_assoc.
  - unfold on_course in *. rewrite Et in go_course0. destruct st as [st|]; cbn.
    + destruct go_course0 as [_ E]. destruct rs as [|r' rs]; cbn; [done|].
      split; [done|]. by rewrite <- app_assoc.
    + destruct go_course0 as (_ & Hd & E). destruct rs as [|r' rs]; cbn; [by left|].
      split_and!; [done|done|]. by rewrite <- app_assoc.
Qed.

Lemma translator_step_ok n ctx g r : get_ok n g -> translator_step ctx g = Some r ->
  exists g', r = Ok g' /\ get_ok n g'.
Proof.
  intros H. unfold translator_step. destruct (g_tr g) as [st|st [|x rs]| | |] eqn:Et; try done.
  - destruct ctx.
    + destruct (tr_ctx T && g_ctx g) eqn:Ec; [|done]. apply andb_true_iff in Ec as [_ Ec].
      intros [= <-]. eexists. split; [done|]. apply exit_step; [done..|]. by rewrite Et.
    + unfold chan_recv. destruct (ch_buf (g_in g)) as [|a buf] eqn:Eb.
      * destruct (ch_closed (g_in g)) eqn:Ed; [|done]. intros [= <-].
        eexists. split; [done|]. by apply end_step.
      * pose proof (receive_step n g st a buf H Et Eb) as Hr. destruct (tr_recv T st a) as [st' o].
        intros [= <-]. by eexists.
  - destruct ctx.
    + destruct (g_ctx g) eqn:Ec; [|done]. intros [= <-]. eexists. split; [done|].
      apply exit_step; [done..|]. by rewrite Et.
    + destruct (_ <? _)%nat eqn:El; [|done]. unfold chan_try_send.
      pose proof (go_out _ _ H) as Eo. rewrite Et in Eo. rewrite Eo, El. intros [= <-].
      eexists. split; [done|]. by apply send_step.
  - intros [= <-]. eexists. split; [done|]. destruct H. rewrite Et in *.
    constructor; cbn; try done; [by right; left|]. unfold on_course in go_course0.
    by rewrite Et in go_course0.
  - unfold chan_close. pose proof (go_out _ _ H) as Eo. rewrite Et in Eo. rewrite Eo.
    intros [= <-]. eexists. split; [done|]. destruct H. rewrite Et in *.
    constructor; cbn; try done. unfold on_course in go_course0. by rewrite Et in go_course0.
Qed.

Lemma watcher_step_ok n why g r : get_ok n g -> watcher_step why g = Some r ->
  exists g', r = Ok g' /\ get_ok n g'.
Proof.
  intros H. unfold watcher_step. destruct (g_watch g) eqn:Ew; [| |done].
  - assert (Hw : forall p, (p = WGone -> g_exited g = true) -> get_ok n (set_watch p g)).
    { intros p Hp. destruct H. constructor; cbn; try done. intros E. right. left. by apply Hp. }
    destruct why; case_match eqn:E; try done; intros [= <-]; eexists; (split; [done|]); by apply Hw.
  - intros [= <-]. unfold finalise. destruct (g_registered (set_watch WGone g)) eqn:Er; cbn in Er.
    + destruct (finalise_step n g H) as (g' & E & Hg'). unfold finalise in E. rewrite Er in E.
      cbn in *. destruct (chan_close (g_in g)); [|done]. injection E as <-.
      eexists. split; [done|]. destruct Hg'. constructor; cbn in *; try done. by left.
    + eexists. split; [done|]. destruct H. constructor; cbn; try done. by left.
Qed.

Lemma get_act_ok n a g r : get_ok n g -> get_act a g = Some r -> exists g', r = Ok g' /\ get_ok n g'.
Proof.
  intros H. destruct a as [ctx|why| |a| | |]; cbn [get_act].
  - by apply translator_step_ok.
  - by apply watcher_step_ok.
  - unfold user_reads, chan_recv. destruct (ch_buf (g_out g)) as [|x buf] eqn:Eb;
      [by destruct (ch_closed (g_out g))|]. intros [= <-]. eexists. split; [done|].
    destruct H. constructor; cbn; try done. by rewrite go_emitted0, Eb, <- app_assoc.
  - intros [= <-]. by apply deliver_step.
  - intros [= <-]. by apply finalise_step.
  - destruct can_cancel eqn:Ec; [|done]. intros [= <-]. eexists. split; [done|].
    destruct H. constructor; cbn; try done; [tauto|].
    by eapply on_course_more; [..|exact go_course0].
  - destruct can_expire eqn:Ec; [|done]. intros [= <-]. eexists. split; [done|].
    destruct H. constructor; cbn; try done. tauto.
Qed.

Fixpoint run_get (acts : list get_action) (g : get) : option get :=
  match acts with
  | [] => Some g
  | a :: acts => match get_act a g with Some (Ok g) => run_get acts g | _ => None end
  end.

Lemma run_get_ok n acts : forall g g', get_ok n g -> run_get acts g = Some g' -> get_ok n g'.
Proof.
  induction acts as [|a acts IH]; intros g g' H; cbn [run_get]; [by intros [= <-]|].
  destruct (get_act a g) as [r|] eqn:E; [|done].
  destruct (get_act_ok n a g r H E) as (g1 & -> & H1). by apply IH.
Qed.

(** ** Termination *)

(** [tr_weight st]: how much the translator may still hold. *)
Class Bounded := {
  tr_weight : St -> nat;
  bounded_recv st a : (tr_weight (tr_recv T st a).1 + length (option_list (tr_recv T st a).2)
                       <= tr_weight st + 1)%nat;
  bounded_end st : (length (tr_end T st) <= tr_weight st)%nat }.

Definition is_own (a : get_action) : bool :=
  match a with GTranslator _ | GWatcher _ | GRead => true | _ => false end.

(** The steps that the Get and its user take, and the replies put in. *)
Definition own_steps (acts : list get_action) : nat := length (filter (fun a => is_own a = true) acts).

Section Rank.
Context {B : Bounded}.

Definition pc_rank (p : translator_pc) : nat :=
  match p with
  | TRecv st => 3 * tr_weight st + 3
  | TSend (Some st) rs => 3 * tr_weight st + 3 * length rs + 3
  | TSend None rs => 3 * length rs + 2
  | TExit => 2 | TClose => 1 | TGone => 0
  end.
Definition watch_rank (p : watcher_pc) : nat :=
  match p with WWait => 2 | WCancel => 1 | WGone => 0 end.

Definition rank (g : get) : nat :=
  4 * length (ch_buf (g_in g)) + pc_rank (g_tr g) + length (ch_buf (g_out g)) + watch_rank (g_watch g).

Lemma sent_rank_on st rs : pc_rank (sent (Some st) rs) = (3 * tr_weight st + 3 * length rs + 3)%nat.
Proof. destruct rs; cbn; lia. Qed.
Lemma sent_rank_end rs : pc_rank (sent None rs) = (3 * length rs + 2)%nat.
Proof. destruct rs; cbn; lia. Qed.

Lemma translator_step_rank ctx g g' : translator_step ctx g = Some (Ok g') ->
  (rank g' < rank g)%nat /\ g_accepted g' = g_accepted g.
Proof.
  unfold translator_step. destruct (g_tr g) as [st|st [|x rs]| | |] eqn:Et; try done.
  - destruct ctx.
    + destruct (_ && _); [|done]. intros [= <-]. split; [|done]. unfold rank. rewrite Et. cbn. lia.
    + unfold chan_recv. destruct (ch_buf (g_in g)) as [|a buf] eqn:Eb.
      * destruct (ch_closed (g_in g)); [|done]. intros [= <-]. split; [|done].
        pose proof (bounded_end st). unfold rank. rewrite Et. cbn [g_tr set_tr g_in g_out g_watch].
        rewrite sent_rank_end, Eb. cbn [pc_rank]. lia.
      * pose proof (bounded_recv st a) as Hb. destruct (tr_recv T st a) as [st' o]. intros [= <-].
        split; [|done]. unfold rank. rewrite Et, Eb. cbn [g_tr set_tr take_in g_in g_out g_watch ch_buf].
        rewrite sent_rank_on. cbn [pc_rank length fst snd] in *. lia.
  - destruct ctx.
    + destruct (g_ctx g); [|done]. intros [= <-]. split; [|done]. unfold rank. rewrite Et. destruct st; cbn; lia.
    + destruct (_ <? _)%nat eqn:El; [|done]. unfold chan_try_send. rewrite El.
      destruct (ch_closed (g_out g)); [done|]. intros [= <-]. split; [|done].
      unfold rank. rewrite Et. cbn [g_tr set_tr put_out g_in g_out g_watch ch_buf].
      rewrite length_app. destruct st; rewrite ?sent_rank_on, ?sent_rank_end; cbn; lia.
  - intros [= <-]. split; [|done]. unfold rank. rewrite Et. cbn. lia.
  - unfold chan_close. destruct (ch_closed (g_out g)); [done|]. intros [= <-]. split; [|done].
    unfold rank. rewrite Et. cbn. lia.
Qed.

Lemma finalise_rank g g' : finalise g = Ok g' -> rank g' = rank g /\ g_accepted g' = g_accepted g.
Proof.
  unfold finalise, chan_close. destruct (g_registered g); [|by intros [= <-]].
  by destruct (ch_closed (g_in g)); [|intros [= <-]].
Qed.

Lemma watcher_step_rank why g g' : watcher_step why g = Some (Ok g') ->
  (rank g' < rank g)%nat /\ g_accepted g' = g_accepted g.
Proof.
  unfold watcher_step. destruct (g_watch g) eqn:Ew; [| |done].
  - destruct why; case_match; try done; intros [= <-]; (split; [|done]); unfold rank; rewrite Ew; cbn; lia.
  - intros [= E]. destruct (finalise_rank _ _ E) as [-> ->]. split; [|done]. unfold rank. rewrite Ew. cbn. lia.
Qed.

(** Every own step lowers the rank; the others leave it, but for the replies
    put in. *)
Lemma get_act_rank a g g' : get_act a g = Some (Ok g') ->
  ((if is_own a then 1 else 0) + rank g' + 4 * length (g_accepted g)
     <= rank g + 4 * length (g_accepted g'))%nat.
Proof.
  destruct a as [ctx|why| |a| | |]; cbn [get_act is_own].
  - intros [H ->]%translator_step_rank. lia.
  - intros [H ->]%watcher_step_rank. lia.
  - unfold user_reads, chan_recv. destruct (ch_buf (g_out g)) as [|x buf] eqn:Eb;
      [by destruct (ch_closed (g_out g))|]. intros [= <-]. unfold rank. rewrite Eb. cbn. lia.
  - unfold deliver, chan_try_send. destruct (g_registered g); [|intros [= <-]; lia].
    destruct (ch_closed (g_in g)); [done|]. destruct (_ <? _)%nat; intros [= <-]; unfold rank; cbn;
      rewrite ?length_app; cbn; lia.
  - intros [= [-> ->]%finalise_rank]. lia.
  - destruct can_cancel; [|done]. intros [= <-]. unfold rank. cbn. lia.
  - destruct can_expire; [|done]. intros [= <-]. unfold rank. cbn. lia.
Qed.

Lemma run_get_rank acts : forall g g', run_get acts g = Some g' ->
  (own_steps acts + rank g' + 4 * length (g_accepted g) <= rank g + 4 * length (g_accepted g'))%nat.
Proof.
  induction acts as [|a acts IH]; intros g g'; cbn [run_get]; [intros [= <-]; cbn; lia|].
  destruct (get_act a g) as [[g1|]|] eqn:E; try done. intros H%IH.
  pose proof (get_act_rank a g g1 E) as Ha. unfold own_steps in *.
  rewrite filter_cons. destruct (is_own a).
  - rewrite decide_True by done. cbn [length]. lia.
  - rewrite decide_False by done. lia.
Qed.
End Rank.

(** The Get is to end: it was finalised, or its watcher has a reason to. *)
Definition ending (g : get) : Prop :=
  g_registered g = false \/ g_ctx g = true \/ g_timer g = true.

(** The user has read everything, and nothing is left behind. *)
Definition over (g : get) : Prop :=
  ch_closed (g_out g) = true /\ ch_buf (g_out g) = [] /\ g_tr g = TGone /\ g_watch g = WGone.

(** With nothing to read for the user, the translator waits only for a reply. *)
Lemma translator_stuck n g : (0 < n)%nat -> get_ok n g -> user_reads g = None ->
  translator_step false g = None ->
  ch_buf (g_out g) = [] /\
  (g_tr g = TGone \/ (exists st, g_tr g = TRecv st) /\ ch_buf (g_in g) = [] /\ g_registered g = true).
Proof.
  intros Hn H Er Et. destruct (go_caps _ _ H) as [Hi Ho].
  assert (Hr : ch_buf (g_out g) = []) by (unfold user_reads, chan_recv in Er; by destruct (ch_buf (g_out g))).
  split; [done|]. unfold translator_step in Et. destruct (g_tr g) as [st|st [|x rs]| | |] eqn:Etr; try done; [| | |by left].
  - right. unfold chan_recv in Et. destruct (ch_buf (g_in g)); [|by destruct (tr_recv T st i)].
    destruct (ch_closed (g_in g)) eqn:Ec; [done|]. split; [by eexists|]. split; [done|].
    by rewrite (go_registered _ _ H), Ec.
  - pose proof (go_course _ _ H) as Hc. unfold on_course in Hc. rewrite Etr in Hc.
    destruct st; by destruct Hc.
  - rewrite Hr, Ho in Et. cbn in Et. destruct n; [lia|done].
Qed.

Lemma stuck_over n g : (0 < n)%nat -> get_ok n g -> ending g ->
  (forall a, is_own a = true -> get_act a g = None) -> over g.
Proof.
  intros Hn H He Hs.
  destruct (translator_stuck n g Hn H (Hs GRead eq_refl) (Hs (GTranslator false) eq_refl)) as [Hr Ht].
  assert (Hx : g_watch g = WGone \/ (g_watch g = WWait /\ g_ctx g = false /\ g_timer g = false /\
    g_exited g = false)).
  { pose proof (Hs (GWatcher ByCtx) eq_refl) as E1. pose proof (Hs (GWatcher ByTimer) eq_refl) as E2.
    pose proof (Hs (GWatcher ByExit) eq_refl) as E3. cbn in *. unfold watcher_step in *.
    destruct (g_watch g); [right|done|by left].
    destruct (g_ctx g), (g_timer g), (g_exited g); done. }
  assert (Htr : g_tr g = TGone).
  { destruct Ht as [|([st Etr] & Eb & Er)]; [done|]. exfalso.
    pose proof (go_exited _ _ H) as Ex. rewrite Etr in Ex. destruct (go_flags _ _ H) as [F1 F2].
    destruct Hx as [Hw|(_ & Hc & Htm & _)]; [|destruct He as [?|[?|?]]; congruence].
    destruct (go_watch _ _ H Hw) as [?|[?|[? ?]]]; [congruence..|].
    destruct He as [?|[?|?]]; [congruence|rewrite F1 in *|rewrite F2 in *]; congruence. }
  pose proof (go_out _ _ H) as Eo. pose proof (go_exited _ _ H) as Ex. rewrite Htr in Eo, Ex.
  split_and!; [done..|]. destruct Hx as [|(_ & _ & _ & ?)]; [done|congruence].
Qed.
End Get.
Arguments get : clear implicits.
Arguments get_action : clear implicits.
Arguments Bounded {In St} T.
Arguments tr_weight {In St T _} st.

(** ** What the translators hold and emit *)

#[export] Instance streaming_bounded {In St} (decide : St -> In -> Reply * bool * St) init :
  Bounded (streaming decide init).
Proof.
  refine {| tr_weight := fun _ => 0%nat |}; [|done]. intros st a. cbn.
  destruct (decide st a) as [[r []] st']; cbn; lia.
Defined.

Lemma latest_take_length st raw :
  (length (la_errs (latest_take st raw)) + length (la_order (latest_take st raw))
     <= length (la_errs st) + length (la_order st) + 1)%nat.
Proof.
  unfold latest_take. repeat case_match; cbn; rewrite ?length_app; cbn; lia.
Qed.

Lemma length_omap_le {A B} (f : A -> option B) l : (length (omap f l) <= length l)%nat.
Proof. induction l as [|a l IH]; cbn; [done|]. destruct (f a); cbn; lia. Qed.

#[export] Instance latest_bounded : Bounded latest_translator.
Proof.
  refine {| tr_weight := fun st => (length (la_errs st) + length (la_order st))%nat |}.
  - intros st a. cbn. pose proof (latest_take_length st a). lia.
  - intros st. cbn. rewrite length_app.
    pose proof (length_omap_le (fun k => fst <$> la_buf st !! k) (la_order st)). lia.
Defined.

#[export] Instance stream_bounded : Bounded stream_translator := streaming_bounded _ _.
#[export] Instance monotonic_bounded : Bounded monotonic_translator := streaming_bounded _ _.
#[export] Instance liveliness_bounded : Bounded liveliness_translator := streaming_bounded _ _.

(** The switch of [runReplyTranslator]. *)
Definition mode_translator (mode : Z) : {St & translator InboundReply St} :=
  if mode =? ConsolidationNone then existT _ stream_translator
  else if mode =? ConsolidationMonotonic then existT _ monotonic_translator
  else existT _ latest_translator.

#[export] Instance mode_bounded mode : Bounded (projT2 (mode_translator mode)).
Proof. unfold mode_translator. repeat case_match; cbn; apply _. Defined.

Lemma translate_streaming {In St} (decide : St -> In -> Reply * bool * St) init l : forall n st,
  (translate (streaming decide init) st l).2 = streamRepliesGeneric background decide n st l.
Proof.
  induction l as [|a l IH]; intros n st; cbn; [done|]. destruct (decide st a) as [[r k] st'].
  destruct k; cbn; rewrite <- IH; by destruct (translate _ st' l).
Qed.

Lemma translation_streaming {In St} (decide : St -> In -> Reply * bool * St) init l :
  translation (streaming decide init) l = streamRepliesGeneric background decide 0 init l.
Proof.
  rewrite <- (translate_streaming decide init). unfold translation. cbn [tr_init streaming].
  destruct (translate _ init l). by rewrite app_nil_r.
Qed.

Lemma translate_latest l : forall st, translate latest_translator st l = (fold_left latest_take l st, []).
Proof. induction l as [|a l IH]; intros st; cbn; [done|]. by rewrite IH. Qed.

Lemma translation_mode mode l :
  translation (projT2 (mode_translator mode)) l = runReplyTranslator background l mode.
Proof.
  unfold mode_translator, runReplyTranslator. destruct (mode =? ConsolidationNone).
  { by apply translation_streaming. }
  destruct (mode =? ConsolidationMonotonic); [by apply translation_streaming|].
  cbn. unfold runLatestTranslator. rewrite latest_loop_background.
  unfold translation. cbn [tr_init latest_translator]. by rewrite translate_latest.
Qed.

(** ** The theorems *)

(** C14: Whatever the router, the clock, the context, the translator, the
    watcher and the user do, in any order, no channel of a Get is closed
    twice or sent on after its end; its goroutines and its user take a
    number of steps bounded by the replies put in; and once the Get is
    final, timed out or cancelled, one of those steps is possible until the
    user has read everything and seen the end, and no goroutine is left. *)
Theorem get_ends {In St} (T : translator In St) `{B : !Bounded T} can_cancel can_expire n acts g :
  (0 < n)%nat -> run_get T can_cancel can_expire acts (start_get T can_cancel can_expire n) = Some g ->
  (forall a e, get_act T can_cancel can_expire a g <> Some (Err e)) /\
  (own_steps acts <= 3 * tr_weight (tr_init T) + 5 + 4 * length (g_accepted g))%nat /\
  (ending g -> (forall a, is_own a = true -> get_act T can_cancel can_expire a g = None) -> over g).
Proof.
  intros Hn Hr. pose proof (run_get_ok T _ _ n acts _ _ (get_ok_start T _ _ n) Hr) as Hg.
  split; [|split].
  - intros a e E. destruct (get_act_ok T _ _ n a g _ Hg E) as (g' & [=] & _).
  - pose proof (run_get_rank T _ _ acts _ _ Hr) as Hk. unfold rank in Hk. cbn in Hk.
    destruct (can_cancel || can_expire); cbn in Hk; lia.
  - by apply (stuck_over T _ _ n).
Qed.

(** What the user has read, in any state of the invariant. *)
Lemma read_consolidated mode can_cancel can_expire n g :
  let T := projT2 (mode_translator mode) in
  get_ok T can_cancel can_expire n g ->
  g_read g `prefix_of` runReplyTranslator background (g_accepted g) mode /\
  (g_tr g = TGone -> ch_buf (g_out g) = [] -> g_ctx g = false ->
     g_read g = runReplyTranslator background (g_accepted g) mode).
Proof.
  intros T Hg. rewrite <- translation_mode. fold T. split.
  - pose proof (owed_on_course T g (go_course _ _ _ _ _ Hg) (ch_buf (g_in g)) ltac:(by intros [_ ->])) as Hp.
    rewrite <- (go_accepted _ _ _ _ _ Hg) in Hp. etrans; [|exact Hp].
    rewrite (go_emitted _ _ _ _ _ Hg). by apply prefix_app_r.
  - intros Ht Hb Hc. pose proof (go_course _ _ _ _ _ Hg) as Ho.
    unfold on_course in Ho. rewrite Ht in Ho. destruct Ho as [[[_ Hi] E]|[? _]]; [|congruence].
    rewrite (go_accepted _ _ _ _ _ Hg), Hi, app_nil_r, E, (go_emitted _ _ _ _ _ Hg), Hb.
    by rewrite app_nil_r.
Qed.

(** C15: At any time, what the user of a Get has read is a prefix of what
    its consolidation mode makes of the replies put into its channel; when
    it has ended without a cancellation of its context, it is all of it,
    however the goroutines interleaved. *)
Theorem get_reads_the_consolidation mode can_cancel can_expire n acts g :
  let T := projT2 (mode_translator mode) in
  run_get T can_cancel can_expire acts (start_get T can_cancel can_expire n) = Some g ->
  g_read g `prefix_of` runReplyTranslator background (g_accepted g) mode /\
  (over g -> g_ctx g = false -> g_read g = runReplyTranslator background (g_accepted g) mode).
Proof.
  intros T Hr. pose proof (run_get_ok T _ _ n acts _ _ (get_ok_start T _ _ n) Hr) as Hg.
  destruct (read_consolidated mode _ _ n g Hg) as [H1 H2]. split; [done|].
  intros (_ & Hb & Ht & _). by apply H2.
Qed.

(** ** Liveliness.Get *)

(** [CancelLivelinessQuery] *)
Definition CancelLivelinessQuery (id : Z) (s : ZSession) : result ZSession :=
  inner ← lift_queries (CancelGet id (s_livelinessQueries (z_inner s))) (z_inner s);
  mret (on_inner (fun _ => inner) s).

Definition RegisterLivelinessQuery (id bufferSize : Z) (s : Session) : nat * Session :=
  let '(r, q) := RegisterGet id bufferSize (s_livelinessQueries s) in
  (r, set_livelinessQueries q s).

Record LivelinessGetOptions := mkLivelinessGetOptions { lgo_Timeout : Z; lgo_Buffer : Z }.

(** What [Liveliness.GetWithContext] goes on with: the interest id, the inbound
    channel, the capacity of [out], and the timeout of the watcher. *)
Record liveliness_run := mkLivelinessRun {
  lr_id : Z; lr_inbound : nat; lr_bufSize : Z; lr_timeout : Z }.

Section LivelinessGet.
Context {N : Type} `{Network N}.

Definition Liveliness_GetWithContext (ctxErr : option error) (ke : KeyExpr)
    (opts : option LivelinessGetOptions) : sem (ZSession * N) liveliness_run := fun '(s, n) =>
  if z_closed s then (Err ErrSessionClosed, (s, n))
  else if KeyExpr_IsZero ke then (Err ErrInvalidKeyExpr, (s, n))
  else match ctxErr with
       | Some e => (Err e, (s, n))
       | None =>
           let bufSize := match opts with
             | Some o => if lgo_Buffer o >? 0 then lgo_Buffer o else 16
             | None => 16 end in
           let timeout := effectiveQueryTimeout (default 0 (lgo_Timeout <$> opts)) in
           let '(id, ids) := AllocInterestID (z_ids s) in
           let '(ch, inner) := RegisterLivelinessQuery id bufSize (z_inner s) in
           let s := on_inner (fun _ => inner) (set_ids ids s) in
           let msg := NInterest (mkInterest id InterestModeCurrent
             (mkInterestFilter true false false true false) (Some (toWire ke)) []) in
           let '(err, n) := enqueueControl msg n in
           match err with
           | Some e =>
               match CancelLivelinessQuery id s with
               | Ok s => (Err (ErrWrap "send liveliness INTEREST" e), (s, n))
               | Err p => (Err p, (s, n))
               end
           | None => (Ok (mkLivelinessRun id ch bufSize timeout), (s, n))
           end
       end.

Lemma queries_on_inner s q : s_livelinessQueries (z_inner (on_inner (set_livelinessQueries q) s)) = q.
Proof. done. Qed.

(** A Get that is let through has its channel under the interest id; one that
    fails leaves no query behind, and nothing panics. *)
Lemma liveliness_get_registered ctxErr ke opts s n res s' n' :
  gets_ok (s_livelinessQueries (z_inner s)) ->
  Liveliness_GetWithContext ctxErr ke opts (s, n) = (res, (s', n')) ->
  let id := (AllocInterestID (z_ids s)).1 in
  let queries z := s_livelinessQueries (z_inner z) in
  gets_ok (queries s') /\
  match res with
  | Ok r => lr_id r = id /\ buffer (lr_inbound r) (queries s') = [] /\
      g_byReq (queries s') = <[id := lr_inbound r]> (g_byReq (queries s)) /\ 0 < lr_bufSize r
  | Err e => g_byReq (queries s') = g_byReq (queries s) \/
      g_byReq (queries s') = delete id (g_byReq (queries s))
  end.
Proof.
  intros Hg. unfold Liveliness_GetWithContext.
  destruct (z_closed s); [intros [= <- <- <-]; by split; [|left]|].
  destruct (KeyExpr_IsZero ke); [intros [= <- <- <-]; by split; [|left]|].
  destruct ctxErr as [e|]; [intros [= <- <- <-]; by split; [|left]|].
  set (bufSize := match opts with Some o => _ | None => 16 end).
  assert (Hb : 0 < bufSize) by (subst bufSize; repeat case_match; lia).
  destruct (AllocInterestID (z_ids s)) as [id ids]. unfold RegisterLivelinessQuery.
  pose proof (RegisterGet_ok id bufSize _ Hg) as Hr.
  set (q := (RegisterGet id bufSize (s_livelinessQueries (z_inner s))).2) in *.
  assert (Eq : RegisterGet id bufSize (s_livelinessQueries (z_inner s)) =
    (g_next (s_livelinessQueries (z_inner s)), q)) by done. rewrite Eq.
  destruct (enqueueControl _ n) as [[e|] n1].
  - unfold CancelLivelinessQuery, CancelGet. cbn [z_inner on_inner set_ids s_livelinessQueries set_livelinessQueries].
    destruct (finaliseGet_ok id q Hr) as (q' & -> & Hq & Ed). intros [= <- <- <-].
    split; [exact Hq|]. right. cbn in *. rewrite Ed. by rewrite delete_insert_eq.
  - intros [= <- <- <-]. split; [exact Hr|]. split_and!; [done| |done|done].
    unfold buffer. cbn. by rewrite lookup_insert_eq.
Qed.
End LivelinessGet.

(** ** A Get that times out *)

(** Two replies, the deadline, a third one that comes too late. *)
Definition timed_out_run : list (get_action InboundReply) :=
  GDeliver (sample_reply (str "a") None [1]) :: GDeliver (sample_reply (str "b") None [2]) ::
  GTranslator false :: GTimer :: GWatcher ByTimer :: GWatcher ByTimer ::
  GDeliver (sample_reply (str "c") None [3]) ::
  replicate 6 (GTranslator false) ++ [GRead; GRead].

Definition timed_out_get (mode : Z) :=
  let T := projT2 (mode_translator mode) in
  default (start_get T true true 16) (run_get T true true timed_out_run (start_get T true true 16)).

Lemma get_ends_witness :
  let T := stream_translator in
  let g := timed_out_get ConsolidationNone in
  ending g /\ over g /\ (own_steps timed_out_run <= 5 + 4 * 2)%nat.
Proof.
  intros T g.
  destruct (get_ends T true true 16 timed_out_run g) as (_ & Hb & Ho); [lia|vm_compute; reflexivity|].
  assert (ending g) as He by (left; vm_compute; reflexivity).
  split; [exact He|]. split; [|exact Hb].
  apply Ho; [exact He|]. intros [[]|[]| | | | |]; vm_compute; congruence.
Defined.

Lemma get_reads_the_consolidation_witness :
  payloads (g_read (timed_out_get ConsolidationLatest)) = [[1]; [2]] /\
  g_read (timed_out_get ConsolidationLatest) =
    runReplyTranslator background (g_accepted (timed_out_get ConsolidationLatest)) ConsolidationLatest.
Proof.
  split; [vm_compute; reflexivity|].
  apply (get_reads_the_consolidation ConsolidationLatest true true 16 timed_out_run);
    [vm_compute; reflexivity|repeat split; vm_compute; reflexivity|vm_compute; reflexivity].
Defined.
