(* ===== verification/GetBudget.v ===== *)
(** * zenoh/get.go: a Get with a budget

    [budgetLimit] puts a goroutine and a channel [dst] between the registered
    channel of a Get and its translator.  The state is that of [GetRun] with
    [dst] as the channel that the translator reads, and in front of it the
    registered channel; the watcher cancels the latter. *)
From S2P Require Import Prelude WirePrim WireNetwork KeyExpr Collector Session Consolidation.
From S2P Require Import Dispatch GetRun.

(** Receiving; sending a reply to [dst]; the deferred close of [dst]. *)
Inductive budget_pc (In : Type) := BRecv | BSend (r : In) | BClose | BGone.
Arguments BRecv {In}. Arguments BSend {In}. Arguments BClose {In}. Arguments BGone {In}.

Section Budget.
Context {In St : Type} (T : translator In St) (budget : nat) (can_cancel can_expire : bool).

(** [b_src] is the registered channel, [b_watch] the watcher (the one of
    [b_get] is not run); [b_accepted] and [b_taken] are the replies put into
    [b_src] and received from it. *)
Record bget := mkBGet {
  b_get : get In St; b_src : chan In; b_registered : bool; b_pc : budget_pc In; b_count : nat;
  b_watch : watcher_pc; b_accepted : list In; b_taken : list In }.

Definition set_get (g : get In St) (b : bget) : bget :=
  mkBGet g (b_src b) (b_registered b) (b_pc b) (b_count b) (b_watch b) (b_accepted b) (b_taken b).
Definition set_bpc (p : budget_pc In) (b : bget) : bget :=
  mkBGet (b_get b) (b_src b) (b_registered b) p (b_count b) (b_watch b) (b_accepted b) (b_taken b).
Definition set_bwatch (p : watcher_pc) (b : bget) : bget :=
  mkBGet (b_get b) (b_src b) (b_registered b) (b_pc b) (b_count b) p (b_accepted b) (b_taken b).

(** A reply for the request; the end of the registration. *)
Definition bget_deliver (a : In) (b : bget) : result bget :=
  if b_registered b then
    c ← chan_try_send a (b_src b);
    Ok (mkBGet (b_get b) c true (b_pc b) (b_count b) (b_watch b)
          (if (length (ch_buf (b_src b)) <? ch_cap (b_src b))%nat then b_accepted b ++ [a] else b_accepted b)
          (b_taken b))
  else Ok b.

Definition bget_finalise (b : bget) : result bget :=
  if b_registered b then
    c ← chan_close (b_src b);
    Ok (mkBGet (b_get b) c false (b_pc b) (b_count b) (b_watch b) (b_accepted b) (b_taken b))
  else Ok b.

(** The test of the loop. *)
Definition budget_loop (count : nat) : budget_pc In := if (count <? budget)%nat then BRecv else BClose.

(** [ctx] is the choice of a [select]. *)
Definition budget_step (ctx : bool) (b : bget) : option (result bget) :=
  match b_pc b with
  | BRecv =>
      if ctx then if g_ctx (b_get b) then Some (Ok (set_bpc BClose b)) else None
      else match chan_recv (b_src b) with
           | (RValue r, c) => Some (Ok (mkBGet (b_get b) c (b_registered b) (BSend r) (b_count b)
               (b_watch b) (b_accepted b) (b_taken b ++ [r])))
           | (RClosed, _) => Some (Ok (set_bpc BClose b))
           | (RBlocked, _) => None
           end
  | BSend r =>
      if ctx then if g_ctx (b_get b) then Some (Ok (set_bpc BClose b)) else None
      else if (length (ch_buf (g_in (b_get b))) <? ch_cap (g_in (b_get b)))%nat
      then Some (g ← deliver r (b_get b);
                 Ok (mkBGet g (b_src b) (b_registered b) (budget_loop (S (b_count b))) (S (b_count b))
                       (b_watch b) (b_accepted b) (b_taken b)))
      else None
  | BClose => Some (g ← finalise (b_get b); Ok (set_bpc BGone (set_get g b)))
  | BGone => None
  end.

Definition bwatcher_step (why : reason) (b : bget) : option (result bget) :=
  match b_watch b with
  | WWait =>
      match why with
      | ByCtx => if g_ctx (b_get b) then Some (Ok (set_bwatch WCancel b)) else None
      | ByTimer => if g_timer (b_get b) then Some (Ok (set_bwatch WCancel b)) else None
      | ByExit => if g_exited (b_get b) then Some (Ok (set_bwatch WGone b)) else None
      end
  | WCancel => Some (bget_finalise (set_bwatch WGone b))
  | WGone => None
  end.

Inductive bget_action :=
  | BBudget (ctx : bool)
  | BTranslator (ctx : bool)
  | BWatcher (why : reason)
  | BRead
  | BDeliver (a : In)
  | BFinal
  | BCtx
  | BTimer.

(** A step of the translator, the user or the clock. *)
Definition inner_act (a : get_action In) (b : bget) : option (result bget) :=
  r ← get_act T can_cancel can_expire a (b_get b); Some (g ← r; Ok (set_get g b)).

Definition bget_act (a : bget_action) (b : bget) : option (result bget) :=
  match a with
  | BBudget ctx => budget_step ctx b
  | BTranslator ctx => inner_act (GTranslator ctx) b
  | BWatcher why => bwatcher_step why b
  | BRead => inner_act GRead b
  | BDeliver a => Some (bget_deliver a b)
  | BFinal => Some (bget_finalise b)
  | BCtx => inner_act GCtx b
  | BTimer => inner_act GTimer b
  end.

(** What GetWithContext leaves behind when it returns; all three channels have
    the capacity [bufSize]. *)
Definition start_bget (bufSize : nat) : bget :=
  mkBGet (start_get T can_cancel can_expire bufSize) (mkChan bufSize [] false) true (budget_loop 0) 0
    (if can_cancel || can_expire then WWait else WGone) [] [].

Fixpoint run_bget (acts : list bget_action) (b : bget) : option bget :=
  match acts with
  | [] => Some b
  | a :: acts => match bget_act a b with Some (Ok b) => run_bget acts b | _ => None end
  end.

(** ** The invariant *)

(** What became of the replies received from the registered channel. *)
Definition forwarding (b : bget) : Prop :=
  let fwd := g_accepted (b_get b) in
  match b_pc b with
  | BRecv => b_taken b = fwd /\ (b_count b < budget)%nat
  | BSend r => b_taken b = fwd ++ [r] /\ (b_count b < budget)%nat
  | _ => (g_ctx (b_get b) = true /\ fwd `prefix_of` b_taken b) \/
         (b_taken b = fwd /\
           (b_count b = budget \/ (ch_closed (b_src b) = true /\ ch_buf (b_src b) = [])))
  end.

Record bget_ok (n : nat) (b : bget) : Prop := {
  bo_get : get_ok T can_cancel can_expire n (b_get b);
  bo_registered : b_registered b = negb (ch_closed (b_src b));
  bo_dst : g_registered (b_get b) = match b_pc b with BGone => false | _ => true end;
  bo_count : length (g_accepted (b_get b)) = b_count b /\ (b_count b <= budget)%nat;
  bo_taken : b_accepted b = b_taken b ++ ch_buf (b_src b);
  bo_forwarding : forwarding b;
  bo_watch : b_watch b = WGone ->
    b_registered b = false \/ g_exited (b_get b) = true \/ (can_cancel = false /\ can_expire = false) }.

Lemma budget_loop_spec count : (count <= budget)%nat ->
  (budget_loop count = BRecv /\ (count < budget)%nat) \/ (budget_loop count = BClose /\ count = budget).
Proof. unfold budget_loop. intros H. destruct (Nat.ltb_spec count budget); [by left|right; split; [done|lia]]. Qed.

Lemma bget_ok_start n : bget_ok n (start_bget n).
Proof.
  constructor; cbn; try done.
  - apply get_ok_start.
  - by destruct (budget_loop_spec 0 ltac:(lia)) as [[-> _]|[-> _]].
  - split; [done|lia].
  - unfold forwarding. cbn. destruct (budget_loop_spec 0 ltac:(lia)) as [[-> ?]|[-> E]]; [done|].
    right. split; [done|]. by left.
  - destruct can_cancel, can_expire; naive_solver.
Qed.

(** A step of the inner state that neither receives nor closes [dst]. *)
Lemma set_get_ok n b g : bget_ok n b -> get_ok T can_cancel can_expire n g ->
  g_registered g = g_registered (b_get b) -> g_accepted g = g_accepted (b_get b) ->
  (g_ctx (b_get b) = true -> g_ctx g = true) -> (g_exited (b_get b) = true -> g_exited g = true) ->
  bget_ok n (set_get g b).
Proof.
  intros [] Hg Hr Ha Hc He. constructor; cbn; [done|done|congruence|by rewrite Ha|done| |].
  - unfold forwarding in *. cbn. rewrite Ha. destruct (b_pc b); naive_solver.
  - naive_solver.
Qed.

(** The translator, the user and the clock leave [dst] open. *)
Definition is_inner (a : get_action In) : bool :=
  match a with GTranslator _ | GRead | GCtx | GTimer => true | _ => false end.

Lemma inner_frame a g g' : is_inner a = true -> get_act T can_cancel can_expire a g = Some (Ok g') ->
  g_registered g' = g_registered g /\ g_accepted g' = g_accepted g /\
  (g_ctx g = true -> g_ctx g' = true) /\ (g_exited g = true -> g_exited g' = true).
Proof.
  destruct a; cbn [is_inner get_act]; try done; intros _.
  - unfold translator_step. destruct (g_tr g) as [st|st [|x rs]| | |]; try done.
    + destruct ctx; [case_match; [|done]; by intros [= <-]|].
      destruct (chan_recv (g_in g)) as [[a| |] c]; [destruct (tr_recv T st a)|..]; by intros [= <-].
    + destruct ctx; [case_match; [|done]; by intros [= <-]|]. case_match; [|done].
      destruct (chan_try_send x (g_out g)); cbn; [|done]. by intros [= <-].
    + by intros [= <-].
    + destruct (chan_close (g_out g)); cbn; [|done]. by intros [= <-].
  - unfold user_reads. destruct (chan_recv (g_out g)) as [[r| |] c]; try done. by intros [= <-].
  - case_match; [|done]. by intros [= <-].
  - case_match; [|done]. by intros [= <-].
Qed.

Lemma inner_act_ok n a b r : is_inner a = true -> bget_ok n b -> inner_act a b = Some r ->
  exists b', r = Ok b' /\ bget_ok n b'.
Proof.
  intros Ha H. unfold inner_act. destruct (get_act T can_cancel can_expire a (b_get b)) as [r0|] eqn:E; [|done].
  destruct (get_act_ok T _ _ n a _ _ (bo_get _ _ H) E) as (g & -> & Hg). cbn. intros [= <-].
  destruct (inner_frame a _ _ Ha E) as (H1 & H2 & H3 & H4). eexists. split; [done|]. by apply set_get_ok.
Qed.

(** The goroutine of the budget. *)
Lemma budget_close_ok n b : bget_ok n b -> b_pc b <> BGone -> g_ctx (b_get b) = true \/
    (b_taken b = g_accepted (b_get b) /\
      (b_count b = budget \/ (ch_closed (b_src b) = true /\ ch_buf (b_src b) = []))) ->
  bget_ok n (set_bpc BClose b).
Proof.
  intros [] Hp Hc. constructor; cbn; try done.
  - by destruct (b_pc b).
  - unfold forwarding in *. cbn. destruct Hc as [Hc|Hc]; [left|by right].
    destruct (b_pc b); [..|by destruct bo_forwarding0 as [[_ H]|[-> _]]|done].
    + by destruct bo_forwarding0 as [-> _].
    + destruct bo_forwarding0 as [-> _]. split; [done|by apply prefix_app_r].
Qed.

Lemma budget_step_ok n ctx b r : bget_ok n b -> budget_step ctx b = Some r ->
  exists b', r = Ok b' /\ bget_ok n b'.
Proof.
  intros H. unfold budget_step. pose proof (bo_forwarding _ _ H) as Hf. unfold forwarding in Hf.
  destruct (b_pc b) as [|r0| |] eqn:Ep; [| | |done].
  - destruct ctx.
    { destruct (g_ctx (b_get b)) eqn:Ec; [|done]. intros [= <-]. eexists. split; [done|].
      apply budget_close_ok; [done|by rewrite Ep|by left]. }
    destruct Hf as [Hf Hlt]. unfold chan_recv. destruct (ch_buf (b_src b)) as [|a buf] eqn:Eb.
    + destruct (ch_closed (b_src b)) eqn:Ec; [|done]. intros [= <-]. eexists. split; [done|].
      apply budget_close_ok; [done|by rewrite Ep|]. right. split; [done|]. by right.
    + intros [= <-]. eexists. split; [done|]. destruct H. rewrite Ep in *. constructor; cbn; try done.
      * by rewrite bo_taken0, Eb, <- app_assoc.
      * unfold forwarding. cbn. by rewrite Hf.
  - destruct ctx.
    { destruct (g_ctx (b_get b)) eqn:Ec; [|done]. intros [= <-]. eexists. split; [done|].
      apply budget_close_ok; [done|by rewrite Ep|by left]. }
    destruct (_ <? _)%nat eqn:El; [|done]. destruct Hf as [Hf Hlt].
    destruct (deliver_step T _ _ n r0 (b_get b) (bo_get _ _ H)) as (g & Eg & Hg).
    pose proof (bo_dst _ _ H) as Hd. rewrite Ep in Hd.
    assert (Hx : g_registered g = true /\ g_accepted g = g_accepted (b_get b) ++ [r0] /\
      g_ctx g = g_ctx (b_get b) /\ g_exited g = g_exited (b_get b)).
    { revert Eg. unfold deliver. rewrite Hd, El. unfold chan_try_send. rewrite El.
      destruct (ch_closed _); cbn; [done|]. by intros [= <-]. }
    destruct Hx as (Hr & Ha & Hc & He). rewrite Eg. cbn. intros [= <-]. eexists. split; [done|].
    destruct H. constructor; cbn; try done.
    + rewrite Hr. by destruct (budget_loop_spec (S (b_count b)) ltac:(lia)) as [[-> _]|[-> _]].
    + rewrite Ha, length_app. cbn. lia.
    + unfold forwarding. cbn. rewrite Ha.
      destruct (budget_loop_spec (S (b_count b)) ltac:(lia)) as [[-> ?]|[-> E]]; [done|].
      right. split; [done|]. by left.
    + by rewrite He.
  - destruct (finalise_step T _ _ n (b_get b) (bo_get _ _ H)) as (g & Eg & Hg).
    pose proof (bo_dst _ _ H) as Hd. rewrite Ep in Hd.
    assert (Hx : g_registered g = false /\ g_accepted g = g_accepted (b_get b) /\
      g_ctx g = g_ctx (b_get b) /\ g_exited g = g_exited (b_get b)).
    { revert Eg. unfold finalise. rewrite Hd. destruct (chan_close _); cbn; [|done]. by intros [= <-]. }
    destruct Hx as (Hr & Ha & Hc & He). rewrite Eg. cbn. intros [= <-]. eexists. split; [done|].
    destruct H. constructor; cbn; try done.
    + by rewrite Ha.
    + unfold forwarding. cbn. by rewrite Ha, Hc.
    + by rewrite He.
Qed.

Lemma bget_finalise_ok n b : bget_ok n b -> exists b', bget_finalise b = Ok b' /\ bget_ok n b' /\
  b_registered b' = false /\ b_watch b' = b_watch b.
Proof.
  intros H. unfold bget_finalise. destruct (b_registered b) eqn:Er; [|by exists b].
  pose proof (bo_registered _ _ H) as E. rewrite Er in E. unfold chan_close.
  destruct (ch_closed (b_src b)) eqn:Ec; [done|]. cbn. eexists. split; [done|]. split; [|done].
  destruct H. constructor; cbn; try done; [|by left].
  unfold forwarding in *. cbn. destruct (b_pc b); naive_solver.
Qed.

Lemma bget_act_ok n a b r : bget_ok n b -> bget_act a b = Some r -> exists b', r = Ok b' /\ bget_ok n b'.
Proof.
  intros H. destruct a as [ctx|ctx|why| |a| | |]; cbn [bget_act];
    [by apply budget_step_ok|by apply inner_act_ok| |by apply inner_act_ok| | |by apply inner_act_ok..].
  - unfold bwatcher_step. destruct (b_watch b) eqn:Ew; [| |done].
    + assert (Hw : forall p, (p = WGone -> g_exited (b_get b) = true) -> bget_ok n (set_bwatch p b)).
      { intros p Hp. destruct H. constructor; cbn; try done. intros E. right. left. by apply Hp. }
      destruct why; case_match eqn:E; try done; intros [= <-]; eexists; (split; [done|]); by apply Hw.
    + intros [= <-]. pose proof (bget_finalise_ok n b H) as (b' & E & Hb & Hr & _). unfold bget_finalise in *.
      cbn. destruct (b_registered b) eqn:Er; cbn in *.
      * destruct (chan_close (b_src b)); [|done]. injection E as <-. eexists. split; [done|].
        destruct Hb. by constructor; cbn in *; try done; left.
      * eexists. split; [done|]. destruct H. by constructor; cbn; try done; left.
  - intros [= <-]. unfold bget_deliver. destruct (b_registered b) eqn:Er; [|by eauto].
    pose proof (bo_registered _ _ H) as E. rewrite Er in E. unfold chan_try_send.
    destruct (ch_closed (b_src b)) eqn:Ec; [done|].
    destruct (_ <? _)%nat eqn:El; eexists; (split; [done|]).
    + destruct H. rewrite Er in *. constructor; cbn; rewrite ?Ec; try done.
      * by rewrite bo_taken0, app_assoc.
      * unfold forwarding in *. cbn. rewrite Ec in *. destruct (b_pc b); naive_solver.
    + destruct H. rewrite Er in *. by constructor.
  - intros [= <-]. destruct (bget_finalise_ok n b H) as (b' & E & Hb & _). eauto.
Qed.

Lemma run_bget_ok n acts : forall b b', bget_ok n b -> run_bget acts b = Some b' -> bget_ok n b'.
Proof.
  induction acts as [|a acts IH]; intros b b' H; cbn [run_bget]; [by intros [= <-]|].
  destruct (bget_act a b) as [r|] eqn:E; [|done].
  destruct (bget_act_ok n a b r H E) as (b1 & -> & H1). by apply IH.
Qed.

(** ** Termination *)

Definition is_bown (a : bget_action) : bool :=
  match a with BBudget _ | BTranslator _ | BWatcher _ | BRead => true | _ => false end.
Definition bown_steps (acts : list bget_action) : nat := length (filter (fun a => is_bown a = true) acts).

Section Rank.
Context {B : Bounded T}.

Definition bpc_rank (p : budget_pc In) : nat :=
  match p with BRecv => 2 | BSend _ => 7 | BClose => 1 | BGone => 0 end.

Definition brank (b : bget) : nat :=
  7 * length (ch_buf (b_src b)) + bpc_rank (b_pc b) + rank T (b_get b) + watch_rank (b_watch b).

Lemma bpc_rank_loop count : (bpc_rank (budget_loop count) <= 2)%nat.
Proof. unfold budget_loop. destruct (_ <? _)%nat; cbn; lia. Qed.

Lemma inner_rank a b b' : is_inner a = true -> inner_act a b = Some (Ok b') ->
  ((if is_own a then 1 else 0) + brank b' <= brank b)%nat /\ b_accepted b' = b_accepted b.
Proof.
  intros Ha. unfold inner_act. destruct (get_act T can_cancel can_expire a (b_get b)) as [[g|]|] eqn:E; cbn; try done.
  intros [= <-]. split; [|done]. destruct (inner_frame a _ _ Ha E) as (_ & Hacc & _).
  pose proof (get_act_rank T can_cancel can_expire a _ _ E) as Hr. rewrite Hacc in Hr.
  unfold brank, rank in *. cbn [b_src b_pc b_get b_watch set_get]. lia.
Qed.

Lemma budget_step_rank ctx b b' : budget_step ctx b = Some (Ok b') ->
  (brank b' < brank b)%nat /\ b_accepted b' = b_accepted b.
Proof.
  unfold budget_step. destruct (b_pc b) as [|r| |] eqn:Ep; [| | |done].
  - destruct ctx.
    { case_match; [|done]. intros [= <-]. split; [|done]. unfold brank. rewrite Ep. cbn. lia. }
    unfold chan_recv. destruct (ch_buf (b_src b)) as [|a buf] eqn:Eb.
    + destruct (ch_closed (b_src b)); [|done]. intros [= <-]. split; [|done]. unfold brank. rewrite Ep. cbn. lia.
    + intros [= <-]. split; [|done]. unfold brank. rewrite Ep, Eb. cbn. lia.
  - destruct ctx.
    { case_match; [|done]. intros [= <-]. split; [|done]. unfold brank. rewrite Ep. cbn. lia. }
    destruct (_ <? _)%nat; [|done]. destruct (deliver r (b_get b)) as [g|] eqn:E; [|done]. intros [= <-].
    split; [|done]. pose proof (get_act_rank T can_cancel can_expire (GDeliver r) (b_get b) g) as Hr.
    cbn [get_act is_own] in Hr. rewrite E in Hr. specialize (Hr eq_refl).
    assert (Ha : (length (g_accepted g) <= length (g_accepted (b_get b)) + 1)%nat).
    { revert E. unfold deliver. destruct (g_registered _); [|intros [= <-]; lia].
      destruct (chan_try_send r _); [|done]. intros [= <-]. cbn [g_accepted].
      destruct (_ <? _)%nat; rewrite ?length_app; cbn; lia. }
    pose proof (bpc_rank_loop (S (b_count b))). unfold brank, rank in *.
    rewrite Ep. cbn [b_src b_pc b_get b_watch bpc_rank]. lia.
  - destruct (finalise (b_get b)) as [g|] eqn:E; [|done]. intros [= <-]. split; [|done].
    destruct (finalise_rank T _ _ E) as [Hr _]. unfold brank, rank in *. rewrite Ep.
    cbn [b_src b_pc b_get b_watch set_bpc set_get bpc_rank]. lia.
Qed.

Lemma bget_finalise_rank b b' : bget_finalise b = Ok b' ->
  brank b' = brank b /\ b_accepted b' = b_accepted b.
Proof.
  unfold bget_finalise, chan_close. destruct (b_registered b); [|by intros [= <-]].
  by destruct (ch_closed (b_src b)); [|intros [= <-]].
Qed.

Lemma bget_act_rank a b b' : bget_act a b = Some (Ok b') ->
  ((if is_bown a then 1 else 0) + brank b' + 7 * length (b_accepted b)
     <= brank b + 7 * length (b_accepted b'))%nat.
Proof.
  destruct a as [ctx|ctx|why| |a| | |]; cbn [bget_act is_bown].
  - intros [H ->]%budget_step_rank. lia.
  - intros [H ->]%inner_rank; [|done]. cbn [is_own] in H. lia.
  - unfold bwatcher_step. destruct (b_watch b) eqn:Ew; [| |done].
    + destruct why; case_match; try done; intros [= <-]; unfold brank; rewrite Ew; cbn; lia.
    + intros [= E]. destruct (bget_finalise_rank _ _ E) as [-> ->]. unfold brank. rewrite Ew. cbn. lia.
  - intros [H ->]%inner_rank; [|done]. cbn [is_own] in H. lia.
  - unfold bget_deliver, chan_try_send. destruct (b_registered b); [|intros [= <-]; lia].
    destruct (ch_closed (b_src b)); [done|]. destruct (_ <? _)%nat; intros [= <-]; unfold brank; cbn;
      rewrite ?length_app; cbn; lia.
  - intros [= [-> ->]%bget_finalise_rank]. lia.
  - intros [H ->]%inner_rank; [|done]. cbn [is_own] in H. lia.
  - intros [H ->]%inner_rank; [|done]. cbn [is_own] in H. lia.
Qed.

Lemma run_bget_rank acts : forall b b', run_bget acts b = Some b' ->
  (bown_steps acts + brank b' + 7 * length (b_accepted b) <= brank b + 7 * length (b_accepted b'))%nat.
Proof.
  induction acts as [|a acts IH]; intros b b'; cbn [run_bget]; [intros [= <-]; cbn; lia|].
  destruct (bget_act a b) as [[b1|]|] eqn:E; try done. intros H%IH.
  pose proof (bget_act_rank a b b1 E) as Ha. unfold bown_steps in *.
  rewrite filter_cons. destruct (is_bown a).
  - rewrite decide_True by done. cbn [length]. lia.
  - rewrite decide_False by done. lia.
Qed.
End Rank.

(** The Get is to end: it was finalised, its watcher has a reason to, or the
    budget is used up. *)
Definition bending (b : bget) : Prop :=
  b_registered b = false \/ g_ctx (b_get b) = true \/ g_timer (b_get b) = true \/ b_count b = budget.

(** The user has read everything, and no goroutine is left. *)
Definition bover (b : bget) : Prop :=
  ch_closed (g_out (b_get b)) = true /\ ch_buf (g_out (b_get b)) = [] /\ g_tr (b_get b) = TGone /\
  b_pc b = BGone /\ b_watch b = WGone.

Lemma inner_stuck a b : inner_act a b = None -> get_act T can_cancel can_expire a (b_get b) = None.
Proof. unfold inner_act. by destruct (get_act _ _ _ a (b_get b)). Qed.

(** The goroutine of the budget waits only for a reply, with room for it. *)
Lemma budget_stuck n b : (0 < n)%nat -> bget_ok n b -> ch_buf (g_in (b_get b)) = [] ->
  budget_step false b = None ->
  b_pc b = BGone \/ (b_pc b = BRecv /\ ch_buf (b_src b) = [] /\ b_registered b = true).
Proof.
  intros Hn H Hb Hs. unfold budget_step in Hs. destruct (b_pc b) as [|r| |]; [right| |done|by left].
  - unfold chan_recv in Hs. destruct (ch_buf (b_src b)); [|done].
    destruct (ch_closed (b_src b)) eqn:Ec; [done|]. by rewrite (bo_registered _ _ H), Ec.
  - destruct (go_caps _ _ _ _ _ (bo_get _ _ H)) as [Hi _]. rewrite Hb, Hi in Hs. cbn in Hs.
    by destruct n; [lia|].
Qed.

Lemma bstuck_over n b : (0 < n)%nat -> bget_ok n b -> bending b ->
  (forall a, is_bown a = true -> bget_act a b = None) -> bover b.
Proof.
  intros Hn H He Hs. pose proof (bo_get _ _ H) as Hg.
  destruct (translator_stuck T _ _ n (b_get b) Hn Hg (inner_stuck _ _ (Hs BRead eq_refl))
    (inner_stuck _ _ (Hs (BTranslator false) eq_refl))) as [Hr Ht].
  pose proof (Hs (BBudget true) eq_refl) as Hbc. pose proof (Hs (BBudget false) eq_refl) as Hbf. cbn in Hbc, Hbf.
  assert (Hw : b_watch b = WGone \/ (b_watch b = WWait /\ g_ctx (b_get b) = false /\
    g_timer (b_get b) = false /\ g_exited (b_get b) = false)).
  { pose proof (Hs (BWatcher ByCtx) eq_refl) as E1. pose proof (Hs (BWatcher ByTimer) eq_refl) as E2.
    pose proof (Hs (BWatcher ByExit) eq_refl) as E3. cbn in *. unfold bwatcher_step in *.
    destruct (b_watch b); [right|done|by left].
    destruct (g_ctx (b_get b)), (g_timer (b_get b)), (g_exited (b_get b)); done. }
  pose proof (go_exited _ _ _ _ _ Hg) as Ex. pose proof (go_out _ _ _ _ _ Hg) as Eo.
  pose proof (bo_dst _ _ H) as Hd.
  assert (Hgone : g_tr (b_get b) = TGone /\ b_pc b = BGone).
  { destruct Ht as [Ht|([st Et] & Eb & Er)].
    - split; [done|]. pose proof (go_course _ _ _ _ _ Hg) as Hc. unfold on_course in Hc. rewrite Ht in Hc.
      destruct Hc as [[[Hc _] _]|[Hc _]].
      + rewrite (go_registered _ _ _ _ _ Hg), Hc in Hd. by destruct (b_pc b).
      + unfold budget_step in Hbc. rewrite Hc in Hbc. by destruct (b_pc b).
    - exfalso. rewrite Et in Ex. rewrite Er in Hd.
      destruct (budget_stuck n b Hn H Eb Hbf) as [Ep|(Ep & _ & Hreg)]; [by rewrite Ep in Hd|].
      unfold budget_step in Hbc. rewrite Ep in Hbc. destruct (g_ctx (b_get b)) eqn:Ec; [done|].
      pose proof (bo_forwarding _ _ H) as Hf. unfold forwarding in Hf. rewrite Ep in Hf.
      destruct He as [He|[He|[He|He]]]; [congruence..| |lia].
      destruct Hw as [Hw|(_ & _ & Hw & _)]; [|congruence].
      destruct (go_flags _ _ _ _ _ Hg) as [_ F2].
      destruct (bo_watch _ _ H Hw) as [?|[?|[_ ?]]]; [congruence..|]. rewrite F2 in *; congruence. }
  clear Ht. destruct Hgone as [Ht Hp]. rewrite Ht in Ex, Eo. split_and!; [done..|].
  destruct Hw as [|(_ & _ & _ & ?)]; [done|congruence].
Qed.

(** ** What is forwarded *)

Lemma forwarded_prefix n b : bget_ok n b -> g_accepted (b_get b) `prefix_of` take budget (b_accepted b).
Proof.
  intros H. pose proof (bo_forwarding _ _ H) as Hf. destruct (bo_count _ _ H) as [Hc Hle].
  assert (Hp : g_accepted (b_get b) `prefix_of` b_taken b).
  { unfold forwarding in Hf. destruct (b_pc b) as [|r| |].
    - by destruct Hf as [-> _].
    - destruct Hf as [-> _]. by apply prefix_app_r.
    - by destruct Hf as [[_ ?]|[-> _]].
    - by destruct Hf as [[_ ?]|[-> _]]. }
  destruct Hp as [l El]. rewrite (bo_taken _ _ H), El, <- app_assoc.
  rewrite take_app_ge by lia. by apply prefix_app_r.
Qed.

Lemma forwarded_all n b : bget_ok n b -> b_pc b = BGone -> g_ctx (b_get b) = false ->
  g_accepted (b_get b) = take budget (b_accepted b).
Proof.
  intros H Hp Hx. pose proof (bo_forwarding _ _ H) as Hf. destruct (bo_count _ _ H) as [Hc Hle].
  unfold forwarding in Hf. rewrite Hp in Hf. destruct Hf as [[? _]|[Et He]]; [congruence|].
  rewrite (bo_taken _ _ H), Et. destruct He as [He|[_ ->]].
  - by rewrite take_app_le, take_ge by lia.
  - by rewrite app_nil_r, take_ge by lia.
Qed.

(** When the watcher has gone, only RESPONSE_FINAL or the end of the runtime
    ends the registration. *)
Lemma registration_kept acts : forall b b', b_watch b = WGone -> b_registered b = true ->
  (forall a, a ∈ acts -> a <> BFinal) -> run_bget acts b = Some b' -> b_registered b' = true.
Proof.
  induction acts as [|a acts IH]; intros b b' Hw Hr Ha; cbn [run_bget]; [by intros [= <-]|].
  destruct (bget_act a b) as [[b1|]|] eqn:E; try done.
  enough (b_watch b1 = b_watch b /\ b_registered b1 = b_registered b) as [H1 H2].
  { apply (IH b1 b'); [congruence..|]. intros x Hx. apply Ha. by right. }
  assert (Hi : forall x, inner_act x b = Some (Ok b1) -> b_watch b1 = b_watch b /\ b_registered b1 = b_registered b).
  { intros x. unfold inner_act. destruct (get_act T _ _ x _) as [[g|]|]; cbn; try done. by intros [= <-]. }
  destruct a as [ctx|ctx|why| |a| | |]; cbn [bget_act] in E;
    [|by eapply Hi| |by eapply Hi| |by destruct (Ha BFinal ltac:(by left))|by eapply Hi..].
  - unfold budget_step in E. destruct (b_pc b); [..|done].
    + destruct ctx; [case_match; [|done]; by injection E as <-|].
      destruct (chan_recv (b_src b)) as [[| |] c]; try done; by injection E as <-.
    + destruct ctx; [case_match; [|done]; by injection E as <-|]. case_match; [|done].
      destruct (deliver _ _); [|done]. by injection E as <-.
    + destruct (finalise _); [|done]. by injection E as <-.
  - unfold bwatcher_step in E. by rewrite Hw in E.
  - unfold bget_deliver in E. rewrite Hr in E. destruct (chan_try_send a _); [|done]. injection E as <-.
    by rewrite Hr.
Qed.
End Budget.
Arguments bget : clear implicits.
Arguments bget_action : clear implicits.
Arguments bover {In St}.

(** ** The theorems *)

(** C16: The same with a budget: whatever the router, the clock, the
    context, the goroutine of the budget, the translator, the watcher and
    the user do, in any order, no channel is closed twice or sent on after
    its end; the goroutines and the user take a number of steps bounded by
    the replies put in; and once the budget is used up or the Get is final,
    timed out or cancelled, one of those steps is possible until the user
    has seen the end and no goroutine is left. *)
Theorem budget_ends {In St} (T : translator In St) `{B : !Bounded T} budget can_cancel can_expire n acts b :
  (0 < n)%nat ->
  run_bget T budget can_cancel can_expire acts (start_bget T budget can_cancel can_expire n) = Some b ->
  (forall a e, bget_act T budget can_cancel can_expire a b <> Some (Err e)) /\
  (bown_steps acts <= 3 * tr_weight (tr_init T) + 9 + 7 * length (b_accepted b))%nat /\
  (bending budget b ->
     (forall a, is_bown a = true -> bget_act T budget can_cancel can_expire a b = None) -> bover b).
Proof.
  intros Hn Hr.
  pose proof (run_bget_ok T _ _ _ n acts _ _ (bget_ok_start T budget _ _ n) Hr) as Hb.
  split; [|split].
  - intros a e E. destruct (bget_act_ok T _ _ _ n a b _ Hb E) as (b' & [=] & _).
  - pose proof (run_bget_rank T _ _ _ acts _ _ Hr) as Hk.
    pose proof (bpc_rank_loop (In := In) budget 0) as H0. unfold brank, rank in Hk. cbn in Hk, H0.
    destruct (can_cancel || can_expire); cbn in Hk; lia.
  - by apply (bstuck_over T _ _ _ n).
Qed.

(** C17: The user of a Get with a budget reads a prefix of what its
    consolidation mode makes of some first replies put into the channel of
    its request, no more of them than the budget; when it has ended without
    a cancellation of its context, it is what the mode makes of the first
    replies up to the budget. *)
Theorem budget_caps_the_consolidation mode budget can_cancel can_expire n acts b :
  let T := projT2 (mode_translator mode) in
  run_bget T budget can_cancel can_expire acts (start_bget T budget can_cancel can_expire n) = Some b ->
  (exists l, l `prefix_of` take budget (b_accepted b) /\
     g_read (b_get b) `prefix_of` runReplyTranslator background l mode) /\
  (bover b -> g_ctx (b_get b) = false ->
     g_read (b_get b) = runReplyTranslator background (take budget (b_accepted b)) mode).
Proof.
  intros T Hr. pose proof (run_bget_ok T _ _ _ n acts _ _ (bget_ok_start T budget _ _ n) Hr) as Hb.
  destruct (read_consolidated mode _ _ n (b_get b) (bo_get _ _ _ _ _ _ Hb)) as [H1 H2]. split.
  - exists (g_accepted (b_get b)). split; [by eapply forwarded_prefix|done].
  - intros (_ & Ho & Ht & Hp & _) Hc. rewrite (H2 Ht Ho Hc). by rewrite (forwarded_all T _ _ _ n b Hb Hp Hc).
Qed.

(** ** A budget that is used up *)

(** One reply of a budget of one; the deadline and a second reply come later. *)
Definition spent_run : list (bget_action InboundReply) :=
  [BDeliver (sample_reply (str "a") None [1]); BBudget false; BBudget false; BTranslator false;
   BTranslator false; BBudget false; BTranslator false; BTranslator false; BTranslator false;
   BWatcher ByExit; BRead; BTimer; BDeliver (sample_reply (str "b") None [2])].

Definition spent_budget : bget InboundReply unit :=
  let s := start_bget stream_translator 1 true true 16 in
  default s (run_bget stream_translator 1 true true spent_run s).

(** Its user has seen the end and its goroutines are gone, the time is up, and
    the registration is still there until a RESPONSE_FINAL comes: the watcher
    leaves without a call of [CancelGet] when the translator exits. *)
Lemma spent_budget_registered :
  bover spent_budget /\ g_timer (b_get spent_budget) = true /\
  forall acts b, (forall a, a ∈ acts -> a <> BFinal) ->
    run_bget stream_translator 1 true true acts spent_budget = Some b -> b_registered b = true.
Proof.
  split; [by vm_compute|]. split; [by vm_compute|]. intros acts b Ha Hr.
  eapply (registration_kept stream_translator 1 true true acts spent_budget b); [by vm_compute..|exact Ha|exact Hr].
Qed.

Lemma budget_ends_witness :
  bending 1 spent_budget /\ bover spent_budget /\ (bown_steps spent_run <= 9 + 7 * 2)%nat.
Proof.
  destruct (budget_ends stream_translator 1 true true 16 spent_run spent_budget) as (_ & Hb & Ho);
    [lia|vm_compute; reflexivity|].
  assert (bending 1 spent_budget) as He by (right; right; left; vm_compute; reflexivity).
  split; [exact He|]. split; [|exact Hb].
  apply Ho; [exact He|]. intros [[]|[]|[]| | | | |]; vm_compute; congruence.
Defined.

Lemma budget_caps_the_consolidation_witness :
  g_read (b_get spent_budget) =
    runReplyTranslator background (take 1 (b_accepted spent_budget)) ConsolidationNone /\
  length (b_accepted spent_budget) = 2%nat.
Proof.
  split; [|vm_compute; reflexivity].
  apply (budget_caps_the_consolidation ConsolidationNone 1 true true 16 spent_run);
    [vm_compute; reflexivity|repeat split; vm_compute; reflexivity|vm_compute; reflexivity].
Defined.
