(* ===== verification/PeerMode.v ===== *)
(** * zenoh/session_peer.go: opening and closing a session of peers

    In peer mode Open binds the listeners and starts one goroutine for each
    listener, each endpoint to dial, each multicast group and the scouter;
    these start others, one for each accepted link, each HELLO and each
    runtime.  All belong to [peerWG], and Close waits for them.  They run here
    interleaved at their accesses to shared state, with Open, Close, the
    teardown of runtimes, the loss of links, and readers that come to wait in a
    handler for room in a send queue, of their own runtime or of another's:
    [Supervise] has that in detail.  What the two ends of a link
    agree on is the subject of [PeerLink], what a new runtime is sent that of
    [Replay]. *)
From S2P Require Import Prelude PeerLink.

(** ** State *)

(** A link: in a handshake; with a runtime that runs, or that is ending, told to
    shut down or without its link; closed, its runtime done if it had one. *)
Inductive phase := PhLink | PhOpen | PhStopping | PhDone.

#[export] Instance phase_eq_dec : EqDecision phase.
Proof. solve_decision. Defined.

(** Who dialled a link: nobody here, [runOutboundLoop], or
    [dialDiscoveredPeer] with its peer and the number of locators left. *)
Inductive kind := KAccepted | KOutbound | KDiscovered (peer : bytes) (left : nat).

(** The goroutines of [peerWG]. A link, and the runtime over it, is named by
    its position in [w_links], a listener by the one in [w_listeners]. *)
Inductive task :=
  | TAccept (ln : nat)
  | TAccepting (ln : nat)
  | TAcceptWait (ln : nat)
  | TOutbound
  | TBackoff
  | TDiscovered (peer : bytes) (left : nat)
  | TDial (k : kind)
  | TBegin (k : kind) (link : nat)
  | THandshake (k : kind) (link : nat)
  | TLock (k : kind) (link : nat) (peer : bytes)
  | TRun (k : kind) (link : nat) (peer : bytes)
  | TRegister (k : kind) (link : nat) (peer : bytes)
  | TReplay (k : kind) (link : nat) (peer : bytes)
  | TWait (rt : nat)
  | TWatch (peer : bytes) (rt : nat)
  | TScout
  | TMulticast
  | TDone.

(** [w_closed]: the public session; [w_inner]: the state of the inner session
    is Closed; [w_user]: [userClose] is closed, and with it the contexts made
    from it; [w_mu]: the task that holds [peerInstallMu]; [w_held]: the runtimes
    whose reader waits in a handler for room in a send queue, under the
    background's context: until it returns, [Done] is not closed. *)
Record world := mkWorld {
  w_closed : bool; w_inner : bool; w_user : bool; w_runtimes : gmap (list Z) nat;
  w_mu : option nat; w_links : list phase; w_listeners : list bool; w_held : gset nat }.

Definition set_closed (w : world) : world :=
  mkWorld true (w_inner w) (w_user w) (w_runtimes w) (w_mu w) (w_links w) (w_listeners w) (w_held w).
Definition set_inner (w : world) : world :=
  mkWorld (w_closed w) true (w_user w) (w_runtimes w) (w_mu w) (w_links w) (w_listeners w) (w_held w).
Definition set_user (w : world) : world :=
  mkWorld (w_closed w) (w_inner w) true (w_runtimes w) (w_mu w) (w_links w) (w_listeners w) (w_held w).
Definition set_runtimes (m : gmap (list Z) nat) (w : world) : world :=
  mkWorld (w_closed w) (w_inner w) (w_user w) m (w_mu w) (w_links w) (w_listeners w) (w_held w).
Definition set_mu (o : option nat) (w : world) : world :=
  mkWorld (w_closed w) (w_inner w) (w_user w) (w_runtimes w) o (w_links w) (w_listeners w) (w_held w).
Definition set_links (l : list phase) (w : world) : world :=
  mkWorld (w_closed w) (w_inner w) (w_user w) (w_runtimes w) (w_mu w) l (w_listeners w) (w_held w).
Definition set_listeners (l : list bool) (w : world) : world :=
  mkWorld (w_closed w) (w_inner w) (w_user w) (w_runtimes w) (w_mu w) (w_links w) l (w_held w).
Definition set_held (h : gset nat) (w : world) : world :=
  mkWorld (w_closed w) (w_inner w) (w_user w) (w_runtimes w) (w_mu w) (w_links w) (w_listeners w) h.

Definition phase_of (rt : nat) (w : world) : phase := default PhDone (w_links w !! rt).
Definition set_phase (rt : nat) (ph : phase) (w : world) : world :=
  set_links (<[rt := ph]> (w_links w)) w.
Definition add_link (w : world) : nat * world :=
  (length (w_links w), set_links (w_links w ++ [PhLink]) w).
Definition ln_closed (ln : nat) (w : world) : bool := default true (w_listeners w !! ln).

(** [Shutdown] and [GracefulShutdown] of a runtime. *)
Definition shut (rt : nat) (w : world) : world :=
  if bool_decide (phase_of rt w = PhOpen) then set_phase rt PhStopping w else w.

(** ** The goroutines *)

(** What an Accept, a dial, a handshake, a [select], a scouter or the queue the
    replay sends to gives: yes, with the peer a handshake found; no; that the
    context is done; a HELLO of a peer with so many locators. *)
Inductive choice := CYes (peer : bytes) | CNo | CCancel | CHello (peer : bytes) (locators : nat).

(** How a goroutine goes on when its link has failed, or has a runtime. *)
Definition failed (k : kind) : task :=
  match k with
  | KAccepted => TDone | KOutbound => TBackoff | KDiscovered peer n => TDiscovered peer n
  end.
Definition started (k : kind) (rt : nat) : task :=
  match k with KOutbound => TWait rt | _ => TDone end.

Section Peer.
Context (myZID : bytes).

(** [runAcceptLoop]; the Accept of a TCP listener looks at the context first. *)
Definition runAcceptLoop (c : choice) (t : task) (w : world) : option (task * list task * world) :=
  match t with
  | TAccept ln => Some (if w_user w then TDone else TAccepting ln, [], w)
  | TAccepting ln =>
      if ln_closed ln w then Some (TDone, [], w)
      else match c with
           | CYes _ =>
               let '(link, w) := add_link w in Some (TAccept ln, [TBegin KAccepted link], w)
           | CNo => Some (TAcceptWait ln, [], w)
           | _ => if w_user w then Some (TDone, [], w) else None
           end
  | TAcceptWait ln =>
      match c with
      | CYes _ => Some (TAccept ln, [], w)
      | _ => if w_user w then Some (TDone, [], w) else None
      end
  | _ => None
  end.

(** [handleAccepted], or [dialOneAndRun] after its dial. *)
Definition handshake (c : choice) (t : task) (w : world) :
    option (task * list task * world) :=
  match t with
  | TBegin k link =>
      if w_inner w then Some (failed k, [], set_phase link PhDone w)
      else Some (THandshake k link, [], w)
  | THandshake k link =>
      match c with
      | CYes peer =>
          if bool_decide (peer = myZID) then None else Some (TLock k link peer, [], w)
      | CNo => Some (failed k, [], set_phase link PhDone w)
      | _ => None
      end
  | _ => None
  end.

(** [startRuntimeForPeer], of the task [i]; the handshake with oneself fails.
    replayToTarget needs room in the queue of the new runtime, unless that has
    ended. *)
Definition startRuntimeForPeer (i : nat) (c : choice) (t : task) (w : world) :
    option (task * list task * world) :=
  match t with
  | TLock k link peer =>
      match w_mu w with
      | Some _ => None
      | None =>
          match w_runtimes w !! peer with
          | Some existing =>
              if negb (isCanonicalLink myZID peer (match k with KAccepted => false | _ => true end))
              then Some (started k existing, [], set_phase link PhDone w)
              else Some (TRun k link peer, [], set_mu (Some i) (shut existing w))
          | None => Some (TRun k link peer, [], set_mu (Some i) w)
          end
      end
  | TRun k link peer =>
      if w_inner w then Some (failed k, [], set_mu None (set_phase link PhDone w))
      else Some (TRegister k link peer, [], set_phase link PhOpen w)
  | TRegister k link peer =>
      Some (TReplay k link peer, [], set_runtimes (<[peer := link]> (w_runtimes w)) w)
  | TReplay k link peer =>
      if match c with CYes _ => true | _ => bool_decide (phase_of link w = PhDone) end
      then Some (started k link, [TWatch peer link], set_mu None w) else None
  | _ => None
  end.

(** [runOutboundLoop] *)
Definition runOutboundLoop (c : choice) (t : task) (w : world) : option (task * list task * world) :=
  match t with
  | TOutbound => Some (if w_user w then TDone else TDial KOutbound, [], w)
  | TBackoff =>
      match c with
      | CYes _ => Some (TOutbound, [], w)
      | _ => if w_user w then Some (TDone, [], w) else None
      end
  | TWait rt => if bool_decide (phase_of rt w = PhDone) then Some (TOutbound, [], w) else None
  | _ => None
  end.

(** [runScoutDiscovery] with [onHello], for the HELLOs its mask lets through,
    and [dialDiscoveredPeer]. *)
Definition discovery (c : choice) (t : task) (w : world) : option (task * list task * world) :=
  match t with
  | TScout =>
      match c with
      | CHello peer n =>
          if bool_decide (peer = myZID) || bool_decide (is_Some (w_runtimes w !! peer))
          then Some (TScout, [], w) else Some (TScout, [TDiscovered peer n], w)
      | _ => if w_user w then Some (TDone, [], w) else None
      end
  | TDiscovered peer 0 => Some (TDone, [], w)
  | TDiscovered peer (S n) =>
      if w_user w then Some (TDone, [], w)
      else if bool_decide (is_Some (w_runtimes w !! peer)) then Some (TDone, [], w)
      else Some (TDial (KDiscovered peer n), [], w)
  | _ => None
  end.

Definition dial (c : choice) (t : task) (w : world) : option (task * list task * world) :=
  match t with
  | TDial k =>
      match c with
      | CYes _ => let '(link, w) := add_link w in Some (TBegin k link, [], w)
      | CNo => Some (failed k, [], w)
      | _ => None
      end
  | _ => None
  end.

(** The watcher of a runtime, with [uninstallRuntime]; the one of a multicast
    runtime, which closes it. *)
Definition watcher (t : task) (w : world) : option (task * list task * world) :=
  match t with
  | TWatch peer rt =>
      if bool_decide (phase_of rt w = PhDone)
      then Some (TDone, [], if bool_decide (w_runtimes w !! peer = Some rt)
                            then set_runtimes (delete peer (w_runtimes w)) w else w)
      else None
  | TMulticast => if w_user w then Some (TDone, [], w) else None
  | _ => None
  end.

Definition task_step (i : nat) (c : choice) (t : task) (w : world) :
    option (task * list task * world) :=
  match t with
  | TAccept _ | TAccepting _ | TAcceptWait _ => runAcceptLoop c t w
  | TOutbound | TBackoff | TWait _ => runOutboundLoop c t w
  | TScout | TDiscovered _ _ => discovery c t w
  | TDial _ => dial c t w
  | TBegin _ _ | THandshake _ _ => handshake c t w
  | TLock _ _ _ | TRun _ _ _ | TRegister _ _ _ | TReplay _ _ _ => startRuntimeForPeer i c t w
  | TWatch _ _ | TMulticast => watcher t w
  | TDone => None
  end.

(** ** Open, Close and the supervisor *)

(** [nout]: the endpoints to dial; [nmcast]: the multicast groups that could be
    joined; [scouting]: the scouter is on. *)
Context (nout nmcast : nat) (scouting : bool).

(** [openPeer], with so many listeners left to bind, and Open after it. *)
Inductive open_pc :=
  | OListen (left : nat) | OStart | OOpened
  | OListeners | OInner | OUser | OFailed.

Definition open_step (c : choice) (p : open_pc) (w : world) :
    option (open_pc * list task * world) :=
  match p with
  | OListen 0 => Some (OStart, [], w)
  | OListen (S n) =>
      match c with
      | CYes _ => Some (OListen n, [TAccept (length (w_listeners w))],
                        set_listeners (w_listeners w ++ [false]) w)
      | CNo => Some (OListeners, [], w)
      | _ => None
      end
  | OStart =>
      Some (OOpened, repeat TOutbound nout ++ repeat TMulticast nmcast ++
                     (if scouting then [TScout] else []), w)
  | OListeners => Some (OInner, [], set_listeners (const true <$> w_listeners w) w)
  | OInner => Some (OUser, [], set_inner w)
  | OUser => Some (OFailed, [], set_user w)
  | OOpened | OFailed => None
  end.

Inductive close_pc := CStart | CInner | CUser | CWalk | CListeners | CMulticast | CWait | CReturned.

Definition close_step (p : close_pc) (done : bool) (w : world) : option (close_pc * world) :=
  match p with
  | CStart => if w_closed w then Some (CReturned, w) else Some (CInner, set_closed w)
  | CInner => Some (CUser, set_inner w)
  | CUser => Some (CWalk, set_user w)
  | CWalk => Some (CListeners, fold_right shut w (map_to_list (w_runtimes w)).*2)
  | CListeners => Some (CMulticast, set_listeners (const true <$> w_listeners w) w)
  | CMulticast => Some (CWait, w)
  | CWait => if done then Some (CReturned, w) else None
  | CReturned => None
  end.

(** [y_done]: [runPeerSupervisor] has seen [peerWG] empty. *)
Record system := mkSystem {
  y_tasks : list task; y_open : open_pc; y_close : close_pc; y_done : bool; y_world : world }.

Definition with_world (w : world) (y : system) : system :=
  mkSystem (y_tasks y) (y_open y) (y_close y) (y_done y) w.

(** [ATeardown]: the goroutines of an ending runtime return; [AFail]: its link
    is lost; [AHold], [AFree]: its reader comes to wait for room in a queue, and
    gets it. *)
Inductive action :=
  | AOpen (c : choice)
  | ATask (i : nat) (c : choice)
  | AClose
  | ASupervise
  | ATeardown (rt : nat)
  | AFail (rt : nat)
  | AHold (rt : nat)
  | AFree (rt : nat).

Definition act (a : action) (y : system) : option system :=
  match a with
  | AOpen c =>
      '(p, ts, w) ← open_step c (y_open y) (y_world y);
      Some (mkSystem (y_tasks y ++ ts) p (y_close y) (y_done y) w)
  | ATask i c =>
      t ← y_tasks y !! i;
      '(t, ts, w) ← task_step i c t (y_world y);
      Some (mkSystem (<[i := t]> (y_tasks y) ++ ts) (y_open y) (y_close y) (y_done y) w)
  | AClose =>
      match y_open y with
      | OOpened =>
          '(p, w) ← close_step (y_close y) (y_done y) (y_world y);
          Some (mkSystem (y_tasks y) (y_open y) p (y_done y) w)
      | _ => None
      end
  | ASupervise =>
      match y_open y with
      | OOpened =>
          if negb (y_done y) && forallb (fun t => match t with TDone => true | _ => false end) (y_tasks y)
          then Some (mkSystem (y_tasks y) (y_open y) (y_close y) true (y_world y)) else None
      | _ => None
      end
  | ATeardown rt =>
      if bool_decide (phase_of rt (y_world y) = PhStopping) && bool_decide (rt ∉ w_held (y_world y))
      then Some (with_world (set_phase rt PhDone (y_world y)) y) else None
  | AFail rt =>
      if bool_decide (phase_of rt (y_world y) = PhOpen)
      then Some (with_world (set_phase rt PhStopping (y_world y)) y) else None
  | AHold rt =>
      if match phase_of rt (y_world y) with PhOpen | PhStopping => true | _ => false end
         && bool_decide (rt ∉ w_held (y_world y))
      then Some (with_world (set_held ({[rt]} ∪ w_held (y_world y)) (y_world y)) y) else None
  | AFree rt =>
      if bool_decide (rt ∈ w_held (y_world y))
      then Some (with_world (set_held (w_held (y_world y) ∖ {[rt]}) (y_world y)) y) else None
  end.

Definition opening (listeners : nat) : system :=
  mkSystem [] (OListen listeners) CStart false (mkWorld false false false ∅ None [] [] ∅).

Definition act_all (acts : list action) (y : system) : option system :=
  fold_left (fun y a => y ≫= act a) acts (Some y).

Definition step (y y' : system) : Prop := exists a, act a y = Some y'.
Definition reachable (y : system) : Prop := exists n, rtc step (opening n) y.
End Peer.

(** ** What each goroutine relies on *)

(** [rt] is a runtime, now or in the past. *)
Definition ran (rt : nat) (w : world) : Prop := exists ph, w_links w !! rt = Some ph /\ ph <> PhLink.

(** Only [rt] may be running for [peer]. *)
Definition vacant (peer : bytes) (rt : nat) (w : world) : Prop :=
  forall e, w_runtimes w !! peer = Some e -> e = rt \/ phase_of e w <> PhOpen.

Definition task_ok (w : world) (i : nat) (t : task) : Prop :=
  match t with
  | TBegin _ l | THandshake _ l | TLock _ l _ => (l < length (w_links w))%nat
  | TRun _ l peer => (l < length (w_links w))%nat /\ w_mu w = Some i /\ vacant peer l w
  | TRegister _ l peer => ran l w /\ w_mu w = Some i /\ vacant peer l w
  | TReplay _ l _ => ran l w /\ w_mu w = Some i
  | TWait rt | TWatch _ rt => ran rt w
  | _ => True
  end.

Definition runtimes_ok (w : world) : Prop := forall peer rt, w_runtimes w !! peer = Some rt -> ran rt w.

Definition holds (t : task) : bool :=
  match t with TRun _ _ _ | TRegister _ _ _ | TReplay _ _ _ => true | _ => false end.

(** [carries l t]: [t] is to close the link [l] or to make a runtime of it;
    [watches l t]: it ends after the runtime [l]. *)
Definition carries (l : nat) (t : task) : Prop :=
  match t with
  | TBegin _ l' | THandshake _ l' | TLock _ l' _ | TRun _ l' _ => l' = l | _ => False end.
Definition watches (l : nat) (t : task) : Prop :=
  match t with TRegister _ l' _ | TReplay _ l' _ | TWatch _ l' => l' = l | _ => False end.
Definition registers (l : nat) (t : task) : Prop :=
  match t with TRegister _ l' _ => l' = l | _ => False end.
Definition registered (l : nat) (w : world) : Prop := exists peer, w_runtimes w !! peer = Some l.

(** What a step of the goroutine [i] may do to what the others rely on. *)
Record evolves (i : nat) (w w' : world) : Prop := {
  ev_length : (length (w_links w) <= length (w_links w'))%nat;
  ev_ran : forall rt, ran rt w -> ran rt w';
  ev_mu : forall j, j <> i -> w_mu w = Some j -> w_mu w' = Some j /\
    (forall peer e, w_runtimes w' !! peer = Some e -> w_runtimes w !! peer = Some e) /\
    (forall e, phase_of e w' = PhOpen -> phase_of e w = PhOpen) }.

Lemma evolves_ok i w w' j t : evolves i w w' -> j <> i -> task_ok w j t -> task_ok w' j t.
Proof.
  intros [Hl Hr Hm] Hj. destruct t; cbn; try done; try lia; eauto.
  - intros (Hlt & Hmu & Hv). destruct (Hm j Hj Hmu) as (Hmu' & Hreg & Hph). split_and!; [lia|done|].
    intros e He. destruct (Hv e (Hreg _ _ He)) as [?|Hn]; [by left|right]. intros E. by apply Hn, Hph.
  - intros (Hlt & Hmu & Hv). destruct (Hm j Hj Hmu) as (Hmu' & Hreg & Hph). split_and!; [eauto|done|].
    intros e He. destruct (Hv e (Hreg _ _ He)) as [?|Hn]; [by left|right]. intros E. by apply Hn, Hph.
  - intros (Hlt & Hmu). destruct (Hm j Hj Hmu) as (Hmu' & _). eauto.
Qed.

(** ** One link at a time *)

Lemma phase_set l ph e w : phase_of e (set_phase l ph w) =
  if decide (e = l /\ (l < length (w_links w))%nat) then ph else phase_of e w.
Proof.
  unfold phase_of. cbn. rewrite list_lookup_insert. repeat case_decide; naive_solver.
Qed.

Lemma phase_known l w : phase_of l w <> PhDone -> (l < length (w_links w))%nat.
Proof.
  unfold phase_of. intros H. apply lookup_lt_is_Some. by destruct (w_links w !! l).
Qed.

Lemma ran_set l ph rt w : ph <> PhLink -> ran rt w -> ran rt (set_phase l ph w).
Proof.
  intros Hph (ph0 & H & Hn). unfold ran. cbn. rewrite list_lookup_insert.
  case_decide; [by exists ph|by exists ph0].
Qed.

Lemma evolves_set i l ph w : ph <> PhLink -> ph <> PhOpen -> evolves i w (set_phase l ph w).
Proof.
  intros H1 H2. constructor; cbn.
  - by rewrite length_insert.
  - intros rt. by apply ran_set.
  - intros j _ Hm. split_and!; [done|done|]. intros e. rewrite phase_set. by case_decide.
Qed.

Lemma evolves_refl i w : evolves i w w.
Proof. by constructor. Qed.

Lemma evolves_trans i w w1 w2 : evolves i w w1 -> evolves i w1 w2 -> evolves i w w2.
Proof.
  intros [A1 A2 A3] [B1 B2 B3]. constructor; [lia|eauto|].
  intros j Hj Hm. destruct (A3 j Hj Hm) as (Hm1 & R1 & P1). destruct (B3 j Hj Hm1) as (Hm2 & R2 & P2).
  split_and!; eauto.
Qed.

Lemma evolves_shut i rt w : evolves i w (shut rt w).
Proof. unfold shut. case_bool_decide; [by apply evolves_set|apply evolves_refl]. Qed.

Lemma evolves_add i w : evolves i w (add_link w).2.
Proof.
  assert (H : forall e, phase_of e (add_link w).2 = PhOpen -> phase_of e w = PhOpen).
  { intros e. unfold phase_of. cbn. destruct (w_links w !! e) as [ph|] eqn:E.
    - by rewrite (lookup_app_l_Some _ _ _ _ E).
    - rewrite lookup_app_r by (by apply lookup_ge_None). destruct (e - _)%nat as [|[|]]; done. }
  constructor; cbn.
  - rewrite length_app. lia.
  - intros rt (ph & E & Hn). exists ph. split; [|done]. cbn. by apply lookup_app_l_Some.
  - intros j _ Hm. by split_and!.
Qed.

(** A step that takes, holds or gives back the mutex. *)
Lemma evolves_own i w w' : (length (w_links w) <= length (w_links w'))%nat ->
  (forall rt, ran rt w -> ran rt w') -> (forall j, j <> i -> w_mu w <> Some j) -> evolves i w w'.
Proof. intros H1 H2 H3. constructor; [done..|]. intros j Hj E. by destruct (H3 j Hj). Qed.

Lemma runtimes_ok_same w w' : w_runtimes w' = w_runtimes w ->
  (forall rt, ran rt w -> ran rt w') -> runtimes_ok w -> runtimes_ok w'.
Proof. intros E Hr H peer rt. rewrite E. intros Hp. by eapply Hr, H. Qed.

Lemma shut_runtimes rt w : w_runtimes (shut rt w) = w_runtimes w.
Proof. unfold shut. by case_bool_decide. Qed.
Lemma shut_mu rt w : w_mu (shut rt w) = w_mu w.
Proof. unfold shut. by case_bool_decide. Qed.
Lemma shut_not_open rt w : phase_of rt (shut rt w) <> PhOpen.
Proof.
  unfold shut. case_bool_decide as E; [|done].
  rewrite phase_set, decide_True; [done|]. split; [done|]. apply phase_known. by rewrite E.
Qed.

Lemma task_ok_failed w i k : task_ok w i (failed k).
Proof. by destruct k. Qed.
Lemma task_ok_started w i k rt : ran rt w -> task_ok w i (started k rt).
Proof. by destruct k. Qed.

Section TaskSteps.
Context (myZID : bytes).

(** The result of a step of the task [i]. *)
Definition step_ok (i : nat) (w : world) (r : task * list task * world) : Prop :=
  let '(t, ts, w') := r in
  evolves i w w' /\ task_ok w' i t /\ Forall (fun x => forall j, task_ok w' j x) ts /\ runtimes_ok w'.

Lemma step_ok_same i w t : runtimes_ok w -> task_ok w i t -> step_ok i w (t, [], w).
Proof. intros Hw Ht. split_and!; [apply evolves_refl|done|constructor|done]. Qed.

Lemma step_ok_closes i w l k : runtimes_ok w -> step_ok i w (failed k, [], set_phase l PhDone w).
Proof.
  intros Hw. split_and!; [by apply evolves_set|by apply task_ok_failed|constructor|].
  eapply runtimes_ok_same; [..|exact Hw]; [done|]. intros rt. by apply ran_set.
Qed.

Lemma startRuntimeForPeer_ok i c t w r : runtimes_ok w -> task_ok w i t ->
  startRuntimeForPeer myZID i c t w = Some r -> step_ok i w r.
Proof.
  intros Hw. destruct t as [| | | | | | | | |k l p|k l p|k l p|k l p| | | | |]; try done; cbn [startRuntimeForPeer task_ok].
  - intros Hl. destruct (w_mu w) eqn:Em; [done|]. destruct (w_runtimes w !! p) as [e|] eqn:Ep.
    + destruct (negb _); intros [= <-].
      * split_and!; [by apply evolves_set| |constructor|].
        -- apply task_ok_started, ran_set; [done|]. by eapply Hw.
        -- eapply runtimes_ok_same; [..|exact Hw]; [done|]. intros rt. by apply ran_set.
      * pose proof (evolves_shut i e w) as He. split_and!; [| |constructor|].
        -- apply evolves_own; [apply He|apply He|congruence].
        -- cbn. split_and!; [apply (Nat.lt_le_trans _ _ _ Hl), He|done|].
           intros e'. cbn. rewrite shut_runtimes, Ep. intros [= <-]. right. apply shut_not_open.
        -- eapply runtimes_ok_same; [..|exact Hw]; [by cbn; rewrite shut_runtimes|apply He].
    + intros [= <-]. split_and!; [apply evolves_own; [done..|congruence]| |constructor|done].
      cbn. split_and!; [done|done|]. intros e'. cbn. by rewrite Ep.
  - intros (Hl & Hm & Hv). destruct (w_inner w); intros [= <-].
    + split_and!; [|by apply task_ok_failed|constructor|].
      * apply evolves_own; [cbn; by rewrite length_insert|intros rt; by apply ran_set|congruence].
      * eapply runtimes_ok_same; [..|exact Hw]; [done|]. intros rt. by apply ran_set.
    + assert (Hr : forall rt, ran rt w -> ran rt (set_phase l PhOpen w)) by (intros rt; by apply ran_set).
      split_and!; [| |constructor|].
      * apply evolves_own; [cbn; by rewrite length_insert|done|congruence].
      * cbn. split_and!; [|done|].
        -- exists PhOpen. split; [|done]. cbn. by apply list_lookup_insert_eq.
        -- intros e He. rewrite phase_set. destruct (decide (e = l)) as [->|Hn]; [by left|].
           rewrite decide_False by naive_solver. by apply Hv.
      * by eapply runtimes_ok_same; [..|exact Hw].
  - intros (Hl & Hm & Hv) [= <-]. split_and!.
    + apply evolves_own; [done..|congruence].
    + done.
    + constructor.
    + intros peer rt. cbn. intros [[<- <-]|[_ H]]%lookup_insert_Some; [done|by eapply Hw].
  - intros (Hl & Hm). destruct (match c with CYes _ => true | _ => _ end); [|done]. intros [= <-]. split_and!.
    + apply evolves_own; [done..|congruence].
    + by apply task_ok_started.
    + constructor; [|constructor]. done.
    + done.
Qed.

Lemma task_step_ok i c t w r : runtimes_ok w -> task_ok w i t ->
  task_step myZID i c t w = Some r -> step_ok i w r.
Proof.
  intros Hw Ht. destruct t; cbn [task_step]; try (by apply startRuntimeForPeer_ok); try done.
  - intros [= <-]. apply step_ok_same; [done|]. by destruct (w_user w).
  - cbn. destruct (ln_closed ln w); [intros [= <-]; by apply step_ok_same|].
    destruct c; [|by intros [= <-]; apply step_ok_same|by destruct (w_user w); [intros [= <-]; apply step_ok_same|]..].
    intros [= <-]. pose proof (evolves_add i w) as He. split_and!; [done|done| |].
    + constructor; [|constructor]. intros j. cbn. rewrite length_app. cbn. lia.
    + eapply runtimes_ok_same; [..|exact Hw]; [done|apply He].
  - cbn. destruct c; [by intros [= <-]; apply step_ok_same|by destruct (w_user w); [intros [= <-]; apply step_ok_same|]..].
  - intros [= <-]. apply step_ok_same; [done|]. by destruct (w_user w).
  - cbn. destruct c; [by intros [= <-]; apply step_ok_same|by destruct (w_user w); [intros [= <-]; apply step_ok_same|]..].
  - cbn. destruct left; [by intros [= <-]; apply step_ok_same|].
    destruct (w_user w); [by intros [= <-]; apply step_ok_same|].
    case_bool_decide; intros [= <-]; by apply step_ok_same.
  - cbn. destruct c; [|by intros [= <-]; apply step_ok_same, task_ok_failed|done..].
    intros [= <-]. pose proof (evolves_add i w) as He. split_and!; [done| |constructor|].
    + cbn. rewrite length_app. cbn. lia.
    + eapply runtimes_ok_same; [..|exact Hw]; [done|apply He].
  - cbn. destruct (w_inner w); intros [= <-]; [by apply step_ok_closes|by apply step_ok_same].
  - cbn. destruct c; [|by intros [= <-]; apply step_ok_closes|done..].
    case_bool_decide; [done|]. intros [= <-]. by apply step_ok_same.
  - cbn. case_bool_decide; [|done]. intros [= <-]. by apply step_ok_same.
  - cbn. case_bool_decide; [|done]. intros [= <-]. case_bool_decide; [|by apply step_ok_same].
    split_and!; [constructor|done|constructor|]; try done.
    + intros j Hj Hm. split_and!; [done| |done]. intros p e. cbn. by intros [_ H1]%lookup_delete_Some.
    + intros p e. cbn. intros [_ H1]%lookup_delete_Some. by eapply Hw.
  - cbn. destruct c; [by destruct (w_user w); [intros [= <-]; apply step_ok_same|]..|].
    destruct (_ || _); intros [= <-]; [by apply step_ok_same|].
    split_and!; [apply evolves_refl|done| |done]. constructor; [done|constructor].
  - cbn. destruct (w_user w); [intros [= <-]; by apply step_ok_same|done].
Qed.
End TaskSteps.

(** ** No link is forgotten *)

Definition some_task (P : task -> Prop) (ts : list task) : Prop := exists t, t ∈ ts /\ P t.

Definition covered (ts : list task) (w : world) (l : nat) : Prop :=
  match w_links w !! l with
  | Some PhLink => some_task (carries l) ts
  | Some PhOpen => some_task (watches l) ts /\ (registered l w \/ some_task (registers l) ts)
  | Some PhStopping => some_task (watches l) ts
  | _ => True
  end.

(** A step of [t] to the tasks [new] leaves to the others what [t] did not do. *)
Definition hands_over (l : nat) (w : world) (t : task) (new : list task) (w' : world) : Prop :=
  match w_links w' !! l with
  | Some PhLink => some_task (carries l) new \/ (w_links w !! l = Some PhLink /\ ~ carries l t)
  | Some PhOpen =>
      (some_task (watches l) new \/ (w_links w !! l = Some PhOpen /\ ~ watches l t)) /\
      (registered l w' \/ some_task (registers l) new \/
       (w_links w !! l = Some PhOpen /\ (registered l w -> registered l w') /\ ~ registers l t))
  | Some PhStopping =>
      some_task (watches l) new \/
      ((w_links w !! l = Some PhOpen \/ w_links w !! l = Some PhStopping) /\ ~ watches l t)
  | _ => True
  end.

Lemma some_task_insert P ts i t new t' : ts !! i = Some t -> some_task P ts -> ~ P t ->
  some_task P (<[i := t']> ts ++ new).
Proof.
  intros Hi (x & Hx & HP) Hn. exists x. split; [|done].
  apply list_elem_of_lookup in Hx as [j Hj]. apply elem_of_app. left. apply list_elem_of_lookup.
  exists j. rewrite list_lookup_insert_ne; [done|]. intros ->. congruence.
Qed.

Lemma some_task_new P ts i t new t' : ts !! i = Some t -> some_task P (t' :: new) ->
  some_task P (<[i := t']> ts ++ new).
Proof.
  intros Hi (x & Hx & HP). exists x. split; [|done].
  apply elem_of_cons in Hx as [->|Hx]; apply elem_of_app; [left|by right].
  apply list_elem_of_lookup. exists i. apply list_lookup_insert_eq. by eapply lookup_lt_Some.
Qed.

Lemma covered_step ts i t t' new w w' l : ts !! i = Some t ->
  hands_over l w t (t' :: new) w' -> covered ts w l -> covered (<[i := t']> ts ++ new) w' l.
Proof.
  intros Hi. unfold hands_over, covered.
  pose proof (some_task_insert (carries l) ts i t new t' Hi) as C1.
  pose proof (some_task_new (carries l) ts i t new t' Hi) as C2.
  pose proof (some_task_insert (watches l) ts i t new t' Hi) as W1.
  pose proof (some_task_new (watches l) ts i t new t' Hi) as W2.
  pose proof (some_task_insert (registers l) ts i t new t' Hi) as R1.
  pose proof (some_task_new (registers l) ts i t new t' Hi) as R2.
  destruct (w_links w' !! l) as [[]|]; [| | |done..].
  - intros [?|[-> ?]]; tauto.
  - intros [[Hw|[E Hw]] [Hr|[Hr|(E2 & Hr1 & Hr2)]]]; try rewrite E; try rewrite E2; tauto.
  - intros [?|[[-> | ->] ?]]; tauto.
Qed.

(** The link is as before, and the new tasks do what the old one did. *)
Lemma hands_over_same l w t new w' : w_links w' !! l = w_links w !! l ->
  (registered l w -> registered l w') ->
  (carries l t -> some_task (carries l) new) -> (watches l t -> some_task (watches l) new) ->
  (registers l t -> registered l w' \/ some_task (registers l) new) -> hands_over l w t new w'.
Proof.
  intros E Hr Hc Hw Hg. unfold hands_over. rewrite E.
  assert (Dc : carries l t \/ ~ carries l t) by (destruct t; cbn; try tauto; lia).
  assert (Dw : watches l t \/ ~ watches l t) by (destruct t; cbn; try tauto; lia).
  assert (Dr : registers l t \/ ~ registers l t) by (destruct t; cbn; try tauto; lia).
  destruct (w_links w !! l) as [[]|] eqn:El; tauto.
Qed.

Lemma some_task_here (P : task -> Prop) t new : P t -> some_task P (t :: new).
Proof. intros H. exists t. split; [left|done]. Qed.

Lemma hands_over_closed l l0 w t new w' : w_links w' = <[l0 := PhDone]> (w_links w) ->
  w_runtimes w' = w_runtimes w -> (carries l t -> l0 = l) -> ~ watches l t -> ~ registers l t ->
  hands_over l w t new w'.
Proof.
  intros E Er Hc Hw Hg. destruct (decide (l = l0)) as [->|Hn].
  - unfold hands_over. rewrite E, list_lookup_insert. case_decide; [done|].
    rewrite lookup_ge_None_2 by lia. done.
  - apply hands_over_same; [by rewrite E, list_lookup_insert_ne|by unfold registered; rewrite Er| |tauto..].
    intros H. by destruct Hn; rewrite (Hc H).
Qed.

Lemma hands_over_added l w t new w' : w_links w' = w_links w ++ [PhLink] ->
  w_runtimes w' = w_runtimes w -> some_task (carries (length (w_links w))) new ->
  ~ carries l t -> ~ watches l t -> ~ registers l t -> hands_over l w t new w'.
Proof.
  intros E Er Hn Hc Hw Hg. destruct (decide (l = length (w_links w))) as [->|Hl].
  - unfold hands_over. rewrite E, lookup_app_r, Nat.sub_diag by done. cbn. by left.
  - apply hands_over_same; [|by unfold registered; rewrite Er|tauto..]. rewrite E.
    destruct (decide (l < length (w_links w))%nat); [by rewrite lookup_app_l|].
    rewrite !lookup_ge_None_2; [done|lia|]. rewrite length_app. cbn. lia.
Qed.

Lemma shut_links rt l w : w_links (shut rt w) !! l = w_links w !! l \/
  (w_links w !! l = Some PhOpen /\ w_links (shut rt w) !! l = Some PhStopping).
Proof.
  unfold shut. case_bool_decide as E; [|by left]. cbn. rewrite list_lookup_insert.
  case_decide as D; [|by left]. destruct D as [<- D]. right. split; [|done].
  unfold phase_of in E. apply lookup_lt_is_Some in D as [ph Hph]. rewrite Hph in *. by rewrite <- E.
Qed.

Lemma started_carries l k rt : ~ carries l (started k rt).
Proof. destruct k; cbn; tauto. Qed.

(** What a goroutine does not do, by computation. *)
Ltac idle := cbn; (done || tauto || congruence).

Lemma startRuntimeForPeer_hands_over myZID i c t w t' ts w' l : task_ok w i t ->
  startRuntimeForPeer myZID i c t w = Some (t', ts, w') -> hands_over l w t (t' :: ts) w'.
Proof.
  destruct t as [| | | | | | | | |k l0 p|k l0 p|k l0 p|k l0 p| | | | |]; try done; cbn [startRuntimeForPeer task_ok].
  - intros Hl. destruct (w_mu w); [done|].
    assert (Hsame : forall w1, w_links w1 !! l = w_links w !! l -> w_runtimes w1 = w_runtimes w ->
      hands_over l w (TLock k l0 p) [TRun k l0 p] w1).
    { intros w1 E Er. apply hands_over_same; [done|by unfold registered; rewrite Er| |idle..].
      intros Hc. by apply some_task_here. }
    destruct (w_runtimes w !! p) as [e|].
    + destruct (negb _); intros [= <- <- <-]; [apply (hands_over_closed l l0); idle|].
      destruct (shut_links e l w) as [E|[Eo Es]]; [by apply Hsame; [|cbn; rewrite shut_runtimes]|].
      unfold hands_over. cbn. rewrite Es. right. split; [by left|]. tauto.
    + intros [= <- <- <-]. by apply Hsame.
  - intros (Hl & Hm & Hv). destruct (w_inner w); intros [= <- <- <-]; [apply (hands_over_closed l l0); idle|].
    destruct (decide (l = l0)) as [->|Hn].
    + unfold hands_over. cbn. rewrite list_lookup_insert_eq by done.
      split; [left; by apply some_task_here|right; left; by apply some_task_here].
    + apply hands_over_same; [by cbn; rewrite list_lookup_insert_ne|idle..].
  - intros (Hl & Hm & Hv) [= <- <- <-].
    unfold hands_over. cbn. destruct (w_links w !! l) as [ph|] eqn:El; [|done].
    destruct (decide (l = l0)) as [->|Hn].
    + assert (W : some_task (watches l0) [TReplay k l0 p]) by by apply some_task_here.
      destruct ph; [|split; [by left|left; exists p; apply lookup_insert_eq]|by left|done].
      destruct Hl as (ph & E & Hne). congruence.
    + assert (Hr : w_links w !! l = Some PhOpen -> registered l w ->
        registered l (set_runtimes (<[p := l0]> (w_runtimes w)) w)).
      { intros Eo [q Hq]. exists q. cbn. rewrite lookup_insert_ne; [done|]. intros <-.
        destruct (Hv l Hq) as [?|Hx]; [done|]. apply Hx. unfold phase_of. by rewrite Eo. }
      destruct ph; [right; split; [done|tauto]| |right; split; [by right|congruence]|done].
      split; [right; split; [done|congruence]|]. right. right. split_and!; [done|by apply Hr|congruence].
  - intros (Hl & Hm). destruct (match c with CYes _ => true | _ => _ end); [|done]. intros [= <- <- <-].
    apply hands_over_same; try idle. intros Hc. exists (TWatch p l0). split; [set_solver|done].
Qed.

Lemma task_step_hands_over myZID i c t w t' ts w' l : task_ok w i t ->
  task_step myZID i c t w = Some (t', ts, w') -> hands_over l w t (t' :: ts) w'.
Proof.
  intros Ht.
  assert (Hidle : forall t new w1, w_links w1 = w_links w ->
    (registered l w -> w_links w !! l = Some PhOpen -> registered l w1) -> ~ carries l t ->
    ~ watches l t -> ~ registers l t -> hands_over l w t new w1).
  { intros x new w1 E Hr Hc Hw Hg. unfold hands_over. rewrite E.
    destruct (w_links w !! l) as [[]|] eqn:El; tauto. }
  destruct t; cbn [task_step]; try (by apply startRuntimeForPeer_hands_over); try done.
  - intros [= <- <- <-]. by apply Hidle; idle.
  - cbn. destruct (ln_closed ln w); [intros [= <- <- <-]; by apply Hidle; idle|].
    destruct c; [|intros [= <- <- <-]; by apply Hidle; idle|
      destruct (w_user w); [intros [= <- <- <-]; by apply Hidle; idle|done]..].
    intros [= <- <- <-]. apply hands_over_added; try idle.
    exists (TBegin KAccepted (length (w_links w))). split; [set_solver|done].
  - cbn. destruct c; [|destruct (w_user w); [|done]..]; intros [= <- <- <-]; by apply Hidle; idle.
  - intros [= <- <- <-]. by apply Hidle; idle.
  - cbn. destruct c; [|destruct (w_user w); [|done]..]; intros [= <- <- <-]; by apply Hidle; idle.
  - cbn. destruct left; [|destruct (w_user w); [|case_bool_decide]];
      intros [= <- <- <-]; by apply Hidle; idle.
  - cbn. destruct c; [|intros [= <- <- <-]; by apply Hidle; idle|done..].
    intros [= <- <- <-]. apply hands_over_added; try idle. by apply some_task_here.
  - cbn. destruct (w_inner w); intros [= <- <- <-]; [by apply (hands_over_closed l link); idle|].
    apply hands_over_same; try idle. intros Hc. by apply some_task_here.
  - cbn. destruct c; [|intros [= <- <- <-]; by apply (hands_over_closed l link); idle|done..].
    case_bool_decide; [done|]. intros [= <- <- <-].
    apply hands_over_same; try idle. intros Hc. by apply some_task_here.
  - cbn. case_bool_decide; [|done]. intros [= <- <- <-]. by apply Hidle; idle.
  - cbn. case_bool_decide as Ed; [|done]. intros [= <- <- <-].
    assert (Hn : rt <> l -> ~ watches l (TWatch peer rt)) by done.
    destruct (decide (rt = l)) as [->|Hne].
    + unfold hands_over, phase_of in *. case_bool_decide; cbn; destruct (w_links w !! l) as [[]|]; done.
    + apply Hidle; try idle; [by case_bool_decide|]. intros [q Hq] _. case_bool_decide; [|by exists q].
      exists q. cbn. rewrite lookup_delete_ne; [done|]. intros ->. congruence.
  - cbn. destruct c; [destruct (w_user w); [|done]..|destruct (_ || _)];
      intros [= <- <- <-]; by apply Hidle; idle.
  - cbn. destruct (w_user w); [|done]. intros [= <- <- <-]. by apply Hidle; idle.
Qed.

Lemma task_step_mu myZID i c t w t' ts w' : task_ok w i t ->
  task_step myZID i c t w = Some (t', ts, w') ->
  w_mu w' = if holds t' then Some i else if holds t then None else w_mu w.
Proof.
  assert (Hf : forall k, holds (failed k) = false) by (by intros []).
  assert (Hs : forall k rt, holds (started k rt) = false) by (by intros []).
  intros Ht. destruct t; cbn [task_step]; try done; cbn.
  all: repeat (case_match; try done); intros [= <- <- <-]; rewrite ?Hf, ?Hs in *; cbn; try done.
  all: by destruct Ht as (_ & -> & _).
Qed.

Lemma task_step_flags myZID i c t w t' ts w' : task_step myZID i c t w = Some (t', ts, w') ->
  w_closed w' = w_closed w /\ w_inner w' = w_inner w /\ w_user w' = w_user w /\
  w_listeners w' = w_listeners w.
Proof.
  destruct t; cbn [task_step]; try done; cbn.
  all: repeat (case_match; try done); intros [= <- <- <-]; cbn; try done.
  all: unfold shut; by repeat case_bool_decide.
Qed.

(** ** The invariant *)

Definition all_done (ts : list task) : Prop := forall t, t ∈ ts -> t = TDone.

Record sys_ok (y : system) : Prop := {
  so_tasks : forall i t, y_tasks y !! i = Some t -> task_ok (y_world y) i t;
  so_runtimes : runtimes_ok (y_world y);
  so_covered : forall l, covered (y_tasks y) (y_world y) l;
  so_mu : forall i, w_mu (y_world y) = Some i ->
    exists t, y_tasks y !! i = Some t /\ holds t = true;
  so_done : y_done y = true -> y_open y = OOpened /\ all_done (y_tasks y);
  so_opened : y_close y <> CStart -> y_open y = OOpened;
  so_close : match y_close y with
    | CStart => w_closed (y_world y) = false
    | CInner => True
    | CUser => w_inner (y_world y) = true
    | CWalk | CListeners => w_inner (y_world y) = true /\ w_user (y_world y) = true
    | _ => w_inner (y_world y) = true /\ w_user (y_world y) = true /\
        Forall (eq true) (w_listeners (y_world y)) end;
  so_returned : y_close y = CReturned -> y_done y = true }.

Lemma sys_ok_opening n : sys_ok (opening n).
Proof. by constructor. Qed.

(** What Open, Close, the end and the loss of runtimes do to the links. *)
Record links_end (w w' : world) : Prop := {
  le_runtimes : w_runtimes w' = w_runtimes w;
  le_mu : w_mu w' = w_mu w;
  le_links : forall l, w_links w' !! l = w_links w !! l \/
    (w_links w !! l = Some PhOpen /\ w_links w' !! l = Some PhStopping) \/
    (exists ph, w_links w !! l = Some ph /\ ph <> PhLink /\ w_links w' !! l = Some PhDone) }.

Lemma links_end_trans w w1 w2 : links_end w w1 -> links_end w1 w2 -> links_end w w2.
Proof.
  intros [A1 A2 A3] [B1 B2 B3]. constructor; [congruence..|]. intros l. specialize (A3 l). specialize (B3 l).
  destruct A3 as [E1|[[E0 E1]|(ph & E0 & Hn & E1)]]; rewrite E1 in B3; [done|..].
  - destruct B3 as [E2|[[? ?]|(ph & _ & _ & E2)]]; [by right; left|done|]. right. right. by exists PhOpen.
  - right. right. exists ph. destruct B3 as [E2|[[? ?]|(? & _ & _ & E2)]]; done.
Qed.

Lemma links_end_shut rt w : links_end w (shut rt w).
Proof.
  constructor; [apply shut_runtimes|apply shut_mu|]. intros l. destruct (shut_links rt l w); tauto.
Qed.

Lemma links_end_done rt w : phase_of rt w <> PhLink -> links_end w (set_phase rt PhDone w).
Proof.
  intros Hn. constructor; [done..|]. intros l. cbn. rewrite list_lookup_insert.
  case_decide as D; [|by left]. destruct D as [<- D]. right. right.
  apply lookup_lt_is_Some in D as [ph Hph]. exists ph. unfold phase_of in Hn. by rewrite Hph in Hn.
Qed.

Lemma links_end_flags w w' : w_runtimes w' = w_runtimes w -> w_mu w' = w_mu w ->
  w_links w' = w_links w -> links_end w w'.
Proof. intros H1 H2 H3. constructor; [done..|]. rewrite H3. by left. Qed.

Lemma links_end_evolves i w w' : links_end w w' -> evolves i w w'.
Proof.
  intros [H1 H2 H3].
  assert (Hph : forall e, phase_of e w' = PhOpen -> phase_of e w = PhOpen).
  { intros e. unfold phase_of. destruct (H3 e) as [->|[[-> ->]|(ph & -> & _ & ->)]]; done. }
  assert (Hr : forall rt, ran rt w -> ran rt w').
  { intros rt (ph & E & Hn). unfold ran. destruct (H3 rt) as [->|[[_ ->]|(ph2 & _ & _ & ->)]]; eauto. }
  constructor.
  - destruct (Nat.le_gt_cases (length (w_links w)) (length (w_links w'))) as [|Hlt]; [done|].
    apply lookup_lt_is_Some in Hlt as [ph E]. destruct (H3 (length (w_links w'))) as [E'|[[_ E']|(? & _ & _ & E')]].
    + rewrite E in E'. apply lookup_lt_Some in E'. lia.
    + apply lookup_lt_Some in E'. lia.
    + apply lookup_lt_Some in E'. lia.
  - done.
  - intros j _ Hm. rewrite H1, H2. done.
Qed.

Lemma some_task_app P ts ts' : some_task P ts -> some_task P (ts ++ ts').
Proof. intros (x & Hx & HP). exists x. split; [|done]. apply elem_of_app. by left. Qed.

(** The goroutines go on, and others that need nothing are started. *)
Lemma sys_ok_links y w ts : sys_ok y -> links_end (y_world y) w ->
  Forall (fun x => forall w i, task_ok w i x) ts ->
  (forall i t, (y_tasks y ++ ts) !! i = Some t -> task_ok w i t) /\ runtimes_ok w /\
  (forall l, covered (y_tasks y ++ ts) w l) /\
  (forall i, w_mu w = Some i -> exists t, (y_tasks y ++ ts) !! i = Some t /\ holds t = true).
Proof.
  intros [H1 H2 H3 H4 _ _ _ _] Hl Hts. pose proof (links_end_evolves (length (y_tasks y)) _ _ Hl) as He.
  destruct Hl as [E1 E2 E3]. split_and!.
  - intros i t [Hx|[_ Hx]]%lookup_app_Some.
    + eapply evolves_ok; [done| |by apply H1]. apply lookup_lt_Some in Hx. lia.
    + rewrite Forall_forall in Hts. apply list_elem_of_lookup_2 in Hx. by apply Hts.
  - eapply runtimes_ok_same; [done|apply He|done].
  - intros l. specialize (H3 l). unfold covered, registered in *. rewrite E1.
    destruct (E3 l) as [->|[[E ->]|(ph & _ & _ & ->)]]; [| |done].
    + destruct (w_links (y_world y) !! l) as [[]|]; [by apply some_task_app| |by apply some_task_app|done..].
      destruct H3 as [? [?|?]]; split; eauto using some_task_app.
    + rewrite E in H3. destruct H3. by apply some_task_app.
  - intros i. rewrite E2. intros (t & Ht & Hh)%H4. exists t. split; [|done]. by apply lookup_app_l_Some.
Qed.

Lemma walk_flags rts w : w_inner (fold_right shut w rts) = w_inner w /\
  w_user (fold_right shut w rts) = w_user w.
Proof.
  induction rts as [|rt rts IH]; cbn; [done|]. unfold shut at 1 3. by case_bool_decide.
Qed.

Section Steps.
Context (myZID : bytes) (nout nmcast : nat) (scouting : bool).

Abbreviation pact := (act myZID nout nmcast scouting).

Lemma act_task_ok y i c y' : sys_ok y -> pact (ATask i c) y = Some y' -> sys_ok y'.
Proof.
  intros [H1 H2 H3 H4 H5 H6 H7 H8] E. cbn in E. destruct (y_tasks y !! i) as [t|] eqn:Et; [|done]. cbn in E.
  destruct (task_step _ _ _ _ _) as [[[t' ts] w']|] eqn:Es; [|done]. injection E as <-.
  pose proof (H1 i t Et) as Ht.
  destruct (task_step_ok myZID i c t (y_world y) _ H2 Ht Es) as (He & Ht' & Hts & Hr).
  pose proof (fun l => task_step_hands_over myZID i c t (y_world y) t' ts w' l Ht Es) as Hh.
  pose proof (task_step_mu myZID i c t (y_world y) t' ts w' Ht Es) as Hm.
  assert (Hi : (i < length (y_tasks y))%nat) by (by eapply lookup_lt_Some).
  constructor; cbn.
  - intros j x Hx. apply lookup_app_Some in Hx as [Hx|[_ Hx]].
    + apply list_lookup_insert_Some in Hx as [(<- & -> & _)|[Hn Hx]]; [done|].
      eapply evolves_ok; [done|done|by apply H1].
    + apply list_elem_of_lookup_2 in Hx. rewrite Forall_forall in Hts. by apply Hts.
  - done.
  - intros l. by eapply covered_step; [..|apply H3].
  - intros j. rewrite Hm. destruct (holds t') eqn:E1; [|destruct (holds t) eqn:E2; [done|]].
    + intros [= <-]. exists t'. split; [|done]. apply lookup_app_l_Some, list_lookup_insert_eq. done.
    + intros (x & Hx & Hh')%H4. exists x. split; [|done]. apply lookup_app_l_Some.
      rewrite list_lookup_insert_ne; [done|]. intros ->. congruence.
  - intros [_ Hd]%H5. specialize (Hd t (list_elem_of_lookup_2 _ _ _ Et)) as ->. done.
  - done.
  - destruct (task_step_flags myZID i c t (y_world y) t' ts w' Es) as (-> & -> & -> & ->). done.
  - done.
Qed.

Lemma links_end_walk rts w : links_end w (fold_right shut w rts).
Proof.
  induction rts as [|rt rts IH]; cbn; [by apply links_end_flags|].
  eapply links_end_trans; [exact IH|apply links_end_shut].
Qed.

Lemma act_open_ok y c y' : sys_ok y -> pact (AOpen c) y = Some y' -> sys_ok y'.
Proof.
  intros H E. cbn in E. destruct (open_step _ _ _ _ _ _) as [[[p ts] w]|] eqn:Es; [|done]. injection E as <-.
  assert (Hs : links_end (y_world y) w /\ Forall (fun x => forall w i, task_ok w i x) ts /\
    y_open y <> OOpened /\ w_closed w = w_closed (y_world y)).
  { destruct (y_open y) as [[|n]| | | | | |]; cbn in Es; try done.
    2: destruct c; try done.
    all: injection Es as <- <- <-; (split; [by apply links_end_flags|]); (split; [|by split]).
    all: try (by repeat constructor).
    apply Forall_app. split; [|apply Forall_app; split].
    - by apply Forall_forall; intros x ->%list_elem_of_In%repeat_spec.
    - by apply Forall_forall; intros x ->%list_elem_of_In%repeat_spec.
    - destruct scouting; by repeat constructor. }
  destruct Hs as (Hl & Hts & Hn & Hc). destruct (sys_ok_links y w ts H Hl Hts) as (P1 & P2 & P3 & P4).
  destruct H. constructor; cbn; try done.
  - by intros [? _]%so_done0.
  - intros ?%so_opened0. done.
  - destruct (y_close y); try (by destruct (Hn (so_opened0 ltac:(done)))). by rewrite Hc.
Qed.

Lemma act_close_ok y y' : sys_ok y -> pact AClose y = Some y' -> sys_ok y'.
Proof.
  intros H E. cbn in E. destruct (y_open y) eqn:Eo; try done.
  destruct (close_step _ _ _) as [[p w]|] eqn:Es; [|done]. injection E as <-.
  assert (Hl : links_end (y_world y) w).
  { destruct (y_close y); cbn in Es; try done; [case_match|..|case_match; [|done]]; injection Es as <- <-;
      first [apply links_end_walk | by apply links_end_flags]. }
  destruct (sys_ok_links y w [] H Hl (Forall_nil_2 _)) as (P1 & P2 & P3 & P4). rewrite app_nil_r in *.
  destruct H. constructor; cbn; try done; [by intros [? ?]%so_done0| |].
  - destruct (y_close y); cbn in Es, so_close0; try done; [rewrite so_close0 in Es|..|destruct (y_done y); [|done]];
      injection Es as <- <-; cbn; try done; try tauto.
    + by destruct (walk_flags (map_to_list (w_runtimes (y_world y))).*2 (y_world y)) as [-> ->].
    + split_and!; [apply so_close0..|]. by apply Forall_fmap, Forall_true.
  - intros ->. destruct (y_close y); cbn in Es, so_close0; try done;
      [by rewrite so_close0 in Es|by destruct (y_done y)].
Qed.

(** The runtimes end, and their readers wait and go on. *)
Lemma act_outside_ok w y : sys_ok y -> links_end (y_world y) w -> w_closed w = w_closed (y_world y) ->
  w_inner w = w_inner (y_world y) -> w_user w = w_user (y_world y) ->
  w_listeners w = w_listeners (y_world y) -> sys_ok (with_world w y).
Proof.
  intros H Hl Hc Hi Hu Hn. destruct (sys_ok_links y w [] H Hl (Forall_nil_2 _)) as (P1 & P2 & P3 & P4).
  rewrite app_nil_r in *. destruct H. constructor; try done. cbn. by rewrite Hc, Hi, Hu, Hn.
Qed.

Lemma links_end_stopping rt w : phase_of rt w = PhOpen -> links_end w (set_phase rt PhStopping w).
Proof.
  intros E. pose proof (links_end_shut rt w) as H. unfold shut in H.
  by rewrite bool_decide_eq_true_2 in H.
Qed.

Lemma act_ok a y y' : sys_ok y -> pact a y = Some y' -> sys_ok y'.
Proof.
  intros H. destruct a as [c|i c| | |rt|rt|rt|rt].
  - by apply act_open_ok.
  - by apply act_task_ok.
  - by apply act_close_ok.
  - cbn. destruct (y_open y) eqn:Eo; try done. destruct (negb _ && forallb _ _) eqn:Ed; [|done].
    intros [= <-]. apply andb_true_iff in Ed as [_ Ed]. destruct H. constructor; cbn; try done.
    intros _. split; [done|]. intros t Ht. rewrite forallb_forall in Ed.
    apply list_elem_of_In, Ed in Ht. by destruct t.
  - cbn. case_bool_decide as E; [|done]. destruct (bool_decide _); [|done]. intros [= <-].
    apply act_outside_ok; try done. apply links_end_done. by rewrite E.
  - cbn. case_bool_decide as E; [|done]. intros [= <-]. apply act_outside_ok; try done.
    by apply links_end_stopping.
  - cbn. destruct (_ && _); [|done]. intros [= <-]. apply act_outside_ok; try done. by apply links_end_flags.
  - cbn. destruct (bool_decide _); [|done]. intros [= <-]. apply act_outside_ok; try done. by apply links_end_flags.
Qed.

Lemma peer_reachable_ok y : reachable myZID nout nmcast scouting y -> sys_ok y.
Proof.
  intros [n H]. remember (opening n) as y0 eqn:E0. assert (H0 : sys_ok y0) by (subst; apply sys_ok_opening).
  clear E0. induction H as [|y1 y2 y3 [a Ha] _ IH]; [done|]. by eapply IH, act_ok.
Qed.

Lemma act_all_ok acts : forall y y', sys_ok y -> act_all myZID nout nmcast scouting acts y = Some y' -> sys_ok y'.
Proof.
  induction acts as [|a acts IH]; intros y y' H; cbn; [by intros [= <-]|].
  unfold act_all. cbn. destruct (pact a y) as [y1|] eqn:E.
  - apply IH. by eapply act_ok.
  - intros E'. exfalso. clear -E'. induction acts; [done|by apply IHacts].
Qed.

(** ** Closing *)

Definition hello (a : action) : bool := match a with ATask _ (CHello _ _) => true | _ => false end.

(** A reader that waits for room, or gets it. *)
Definition waits_for_room (a : action) : bool :=
  match a with AHold _ | AFree _ => true | _ => false end.

(** What the network and the queues decide: a HELLO, a lost link, room in a
    queue. *)
Definition from_outside (y : system) (a : action) : bool :=
  hello a || waits_for_room a ||
  match a with
  | AFail _ => true
  | ATask i (CYes _) => match y_tasks y !! i with Some (TReplay _ _ _) => true | _ => false end
  | _ => false
  end.

(** An ending runtime whose reader waits for room. *)
Definition stalled (y : system) : Prop :=
  exists rt, phase_of rt (y_world y) = PhStopping /\ rt ∈ w_held (y_world y).

Definition task_rank (t : task) : nat :=
  match t with
  | TDone => 0
  | TAccept _ | TOutbound | TDiscovered _ _ | TWatch _ _ | TScout | TMulticast => 1
  | TAcceptWait _ | TBackoff | TWait _ => 2
  | TRun _ _ _ | TRegister _ _ _ => 3
  | TLock _ _ _ | TReplay _ _ _ => 4 | THandshake _ _ => 5 | TBegin _ _ => 6 | TDial _ => 7
  | TAccepting _ => 9
  end.
Definition phase_rank (ph : phase) : nat :=
  match ph with PhOpen => 2 | PhStopping => 1 | _ => 0 end.
Definition close_rank (p : close_pc) : nat :=
  match p with
  | CStart => 7 | CInner => 6 | CUser => 5 | CWalk => 4 | CListeners => 3 | CMulticast => 2
  | CWait => 1 | CReturned => 0
  end.

Definition rank (y : system) : nat :=
  sum_list_with task_rank (y_tasks y) + sum_list_with phase_rank (w_links (y_world y)) +
  close_rank (y_close y) + (if y_done y then 0 else 1).

Definition links_rank (w : world) : nat := sum_list_with phase_rank (w_links w).

Lemma links_rank_set l ph w :
  (links_rank (set_phase l ph w) + phase_rank (phase_of l w) <= links_rank w + phase_rank ph)%nat.
Proof.
  unfold links_rank, phase_of. cbn. destruct (w_links w !! l) as [ph0|] eqn:E; cbn.
  - pose proof (sum_list_insert phase_rank (w_links w) l ph0 ph E). lia.
  - rewrite list_insert_ge by (by apply lookup_ge_None). lia.
Qed.

Lemma links_rank_done l w : (links_rank (set_phase l PhDone w) <= links_rank w)%nat.
Proof.
  pose proof (links_rank_set l PhDone w) as H. change (phase_rank PhDone) with 0%nat in H. lia.
Qed.

Lemma links_rank_shut rt w : (links_rank (shut rt w) <= links_rank w)%nat.
Proof.
  unfold shut. case_bool_decide as E; [|done]. pose proof (links_rank_set rt PhStopping w) as H.
  rewrite E in H. change (phase_rank PhOpen) with 2%nat in H.
  change (phase_rank PhStopping) with 1%nat in H. lia.
Qed.

Lemma links_rank_walk rts w : (links_rank (fold_right shut w rts) <= links_rank w)%nat.
Proof.
  induction rts as [|rt rts IH]; cbn; [done|]. etrans; [apply links_rank_shut|done].
Qed.

Lemma links_rank_add w : links_rank (add_link w).2 = links_rank w.
Proof. unfold links_rank. cbn. rewrite sum_list_with_app. cbn. lia. Qed.

Lemma failed_rank k : (task_rank (failed k) <= 2)%nat.
Proof. destruct k; cbn; lia. Qed.
Lemma started_rank k rt : (task_rank (started k rt) <= 2)%nat.
Proof. destruct k; cbn; lia. Qed.

(** Once the session is closed, every step of a goroutine brings it nearer to
    its end. *)
Lemma task_step_rank i c t w t' ts w' : w_inner w = true -> w_user w = true ->
  (forall k l p, t <> TRegister k l p) -> task_step myZID i c t w = Some (t', ts, w') ->
  (1 + task_rank t' + sum_list_with task_rank ts + links_rank w' <=
     task_rank t + links_rank w + 2 * (match c with CHello _ _ => 1 | _ => 0 end))%nat /\
  (forall k l p, t' <> TRegister k l p) /\ Forall (fun x => forall k l p, x <> TRegister k l p) ts.
Proof.
  intros Hi Hu Hn. pose proof failed_rank as Hf. pose proof started_rank as Hs.
  pose proof (fun l => links_rank_done l w) as Hd. pose proof (links_rank_add w) as Ha.
  pose proof (fun rt => links_rank_shut rt w) as Hsh.
  assert (Hf' : forall k k' l p, failed k <> TRegister k' l p) by (by intros []).
  assert (Hs' : forall k rt k' l p, started k rt <> TRegister k' l p) by (by intros []).
  destruct t; cbn [task_step]; try done; cbn; rewrite ?Hi, ?Hu.
  all: repeat (case_match; try done); intros [= <- <- <-]; (split; [|by repeat constructor]); cbn.
  all: try (exfalso; by eapply Hn).
  all: try specialize (Hf k); try specialize (Hs k); try specialize (Hd link).
  all: try match goal with |- context [shut ?n _] => specialize (Hsh n) end.
  all: try match goal with |- context [started _ ?n] => specialize (Hs n) end.
  all: unfold links_rank in *; cbn in *; lia.
Qed.

Lemma task_step_no_open i c t w t' ts w' : w_inner w = true ->
  task_step myZID i c t w = Some (t', ts, w') -> (forall l, w_links w !! l <> Some PhOpen) ->
  forall l, w_links w' !! l <> Some PhOpen.
Proof.
  intros Hi Hs H l. assert (Hset : forall l0, <[l0 := PhDone]> (w_links w) !! l <> Some PhOpen).
  { intros l0. rewrite list_lookup_insert. by case_decide. }
  assert (Hsh : forall rt, w_links (shut rt w) !! l <> Some PhOpen).
  { intros rt. destruct (shut_links rt l w) as [->|[_ ->]]; done. }
  assert (Ha : (w_links w ++ [PhLink]) !! l <> Some PhOpen).
  { intros [E|[_ E]]%lookup_app_Some; [by eapply H|]. by destruct (l - _)%nat as [|[|]]. }
  revert Hs. destruct t; cbn [task_step]; try done; cbn; rewrite ?Hi.
  all: repeat (case_match; try done); intros [= <- <- <-]; cbn; done.
Qed.

(** From the walk of Close on: nobody is about to register a runtime, and past
    the walk none is running. *)
Record closing (y : system) : Prop := {
  cl_ok : sys_ok y;
  cl_rank : (close_rank (y_close y) <= 4)%nat;
  cl_register : forall t k l p, t ∈ y_tasks y -> t <> TRegister k l p;
  cl_open : y_close y <> CWalk -> forall l, w_links (y_world y) !! l <> Some PhOpen }.

Lemma closing_flags y : closing y ->
  w_inner (y_world y) = true /\ w_user (y_world y) = true /\ y_open y = OOpened.
Proof.
  intros [Hok Hr _ _]. pose proof (so_close y Hok) as Hc.
  assert (Hs : y_close y <> CStart) by (intros E; rewrite E in Hr; cbn in Hr; lia).
  pose proof (so_opened y Hok Hs). destruct (y_close y); cbn in Hr; try lia; tauto.
Qed.

Lemma walk_shuts rts rt w : rt ∈ rts -> w_links (fold_right shut w rts) !! rt <> Some PhOpen.
Proof.
  induction rts as [|x rts IH]; [by intros ?%elem_of_nil|]. cbn.
  destruct (decide (rt = x)) as [->|Hn].
  - intros _ E. apply (shut_not_open x (fold_right shut w rts)). unfold phase_of. by rewrite E.
  - intros [?|H]%elem_of_cons; [done|]. destruct (shut_links x rt (fold_right shut w rts)) as [->|[_ ->]];
      [by apply IH|done].
Qed.

Lemma closing_task y i c y' : closing y -> pact (ATask i c) y = Some y' ->
  closing y' /\ (1 + rank y' <= rank y + 2 * (if hello (ATask i c) then 1 else 0))%nat.
Proof.
  intros H E. destruct (closing_flags y H) as (Hi & Hu & _). destruct H as [Hok Hr Hg Ho].
  pose proof (act_task_ok y i c y' Hok E) as Hok'. cbn in E.
  destruct (y_tasks y !! i) as [t|] eqn:Et; [|done]. cbn in E.
  destruct (task_step _ _ _ _ _) as [[[t' ts] w']|] eqn:Es; [|done]. injection E as <-.
  assert (Hn : forall k l p, t <> TRegister k l p).
  { intros k l p. eapply Hg. by eapply list_elem_of_lookup_2. }
  destruct (task_step_rank i c t (y_world y) t' ts w' Hi Hu Hn Es) as (Hrank & Hn' & Hts).
  pose proof (sum_list_insert task_rank (y_tasks y) i t t' Et) as Hsum. split.
  - constructor; cbn; [done|done| |].
    + intros x k l p [Hx|Hx]%elem_of_app.
      * apply list_elem_of_lookup in Hx as [j [(_ & -> & _)|[_ Hx]]%list_lookup_insert_Some]; [done|].
        eapply Hg. by eapply list_elem_of_lookup_2.
      * rewrite Forall_forall in Hts. by apply Hts.
    + intros Hw. eapply task_step_no_open; [done..|]. by apply Ho.
  - unfold rank, hello. cbn. rewrite sum_list_with_app. unfold links_rank in Hrank. destruct c; lia.
Qed.

Lemma closing_close y y' : closing y -> pact AClose y = Some y' ->
  closing y' /\ (1 + rank y' <= rank y)%nat.
Proof.
  intros H E. destruct (closing_flags y H) as (Hi & Hu & Hopen). destruct H as [Hok Hr Hg Ho].
  pose proof (act_close_ok y y' Hok E) as Hok'. cbn in E. rewrite Hopen in E.
  destruct (y_close y) eqn:Ec; cbn in Hr; try lia; cbn in E; [| | |destruct (y_done y) eqn:Ed|]; try done;
    injection E as <-.
  - split.
    + constructor; cbn; [done|lia|done|]. intros _ l El.
      assert (Hl : w_links (y_world y) !! l = Some PhOpen).
      { destruct (le_links _ _ (links_end_walk (map_to_list (w_runtimes (y_world y))).*2 (y_world y)) l)
          as [<-|[[_ E]|(? & _ & _ & E)]]; congruence. }
      pose proof (so_covered y Hok l) as Hcov. unfold covered in Hcov. rewrite Hl in Hcov.
      destruct Hcov as [_ [[peer Hp]|(t & Ht & Hreg)]].
      * eapply walk_shuts, El. apply list_elem_of_fmap. exists (peer, l).
        split; [done|]. by apply elem_of_map_to_list.
      * destruct t; try done. by eapply Hg.
    + pose proof (links_rank_walk (map_to_list (w_runtimes (y_world y))).*2 (y_world y)).
      unfold rank, links_rank in *. cbn. rewrite Ec. cbn. lia.
  - split; [constructor; cbn; [done|lia|done|]; intros _; by apply Ho|]. unfold rank. cbn. rewrite Ec. cbn. lia.
  - split; [constructor; cbn; [done|lia|done|]; intros _; by apply Ho|]. unfold rank. cbn. rewrite Ec. cbn. lia.
  - split; [constructor; cbn; [done|lia|done|]; intros _; by apply Ho|]. unfold rank. cbn. rewrite Ec, Ed. cbn. lia.
Qed.

Lemma closing_end rt ph y : closing y -> ph <> PhOpen ->
  (phase_rank ph < phase_rank (phase_of rt (y_world y)))%nat ->
  let y' := with_world (set_phase rt ph (y_world y)) y in
  sys_ok y' -> closing y' /\ (1 + rank y' <= rank y)%nat.
Proof.
  intros [Hok Hr Hg Ho] Hn Hph y' Hok'. split.
  - constructor; cbn; [done..|]. intros Hw l. rewrite list_lookup_insert.
    case_decide; [naive_solver|]. by apply Ho.
  - pose proof (links_rank_set rt ph (y_world y)) as H.
    unfold rank, links_rank in *. subst y'. cbn in *. lia.
Qed.

Lemma closing_act a y y' : closing y -> pact a y = Some y' ->
  closing y' /\ (1 + rank y' <= rank y + 2 * (if hello a then 1 else 0) +
                   (if waits_for_room a then 1 else 0))%nat.
Proof.
  intros H E. pose proof (act_ok a y y' (cl_ok y H) E) as Hok.
  destruct (closing_flags y H) as (Hi & Hu & Hopen).
  destruct a as [c|i c| | |rt|rt|rt|rt]; cbn [waits_for_room].
  - cbn in E. by rewrite Hopen in E.
  - destruct (closing_task y i c y' H E). split; [done|lia].
  - destruct (closing_close y y' H E). split; [done|]. cbn [hello]. lia.
  - cbn in E. rewrite Hopen in E. destruct (y_done y) eqn:Ed; [done|]. cbn in E.
    destruct (forallb _ _); [|done]. injection E as <-. destruct H as [_ Hr Hg Ho].
    split; [by constructor|]. unfold rank. cbn. rewrite Ed. lia.
  - cbn in E. case_bool_decide as Ep; [|done]. destruct (bool_decide _); [|done]. injection E as <-.
    destruct (closing_end rt PhDone y H ltac:(done) ltac:(rewrite Ep; cbn; lia) Hok).
    split; [done|]. cbn [hello]. lia.
  - cbn in E. case_bool_decide as Ep; [|done]. injection E as <-.
    destruct (closing_end rt PhStopping y H ltac:(done) ltac:(rewrite Ep; cbn; lia) Hok).
    split; [done|]. cbn [hello]. lia.
  - cbn in E. destruct (_ && _); [|done]. injection E as <-. destruct H as [_ Hr Hg Ho].
    split; [by constructor|]. unfold rank. cbn. lia.
  - cbn in E. destruct (bool_decide _); [|done]. injection E as <-. destruct H as [_ Hr Hg Ho].
    split; [by constructor|]. unfold rank. cbn. lia.
Qed.

Definition hellos (acts : list action) : nat := length (filter (fun a => hello a = true) acts).
Definition waits (acts : list action) : nat := length (filter (fun a => waits_for_room a = true) acts).

Lemma closing_run acts : forall y y', closing y -> act_all myZID nout nmcast scouting acts y = Some y' ->
  closing y' /\ (length acts + rank y' <= rank y + 2 * hellos acts + waits acts)%nat.
Proof.
  induction acts as [|a acts IH]; intros y y' H; [intros [= <-]; split; [done|cbn; lia]|].
  unfold act_all. cbn [fold_left]. change (Some y ≫= pact a) with (pact a y).
  destruct (pact a y) as [y1|] eqn:E.
  - intros E'. destruct (closing_act a y y1 H E) as [H1 Hr]. destruct (IH y1 y' H1 E') as [H2 Hr2].
    split; [done|]. unfold hellos, waits in *. rewrite !filter_cons.
    destruct (hello a), (waits_for_room a); repeat case_decide; cbn [length]; (done || lia).
  - intros E'. exfalso. clear -E'. induction acts; [done|by apply IHacts].
Qed.

(** Something happens whatever the network and the queues do, or a reader of
    an ending runtime waits. *)
Definition moves (y : system) : Prop := exists a, is_Some (pact a y) /\ from_outside y a = false.

Definition goes_on (y : system) : Prop := moves y \/ stalled y.

Lemma task_moves y i t c : y_tasks y !! i = Some t -> c = CNo \/ c = CCancel ->
  is_Some (task_step myZID i c t (y_world y)) -> goes_on y.
Proof.
  intros Et Hc [[[x' ts] w'] Es]. left. exists (ATask i c). split; [|by destruct Hc as [-> | ->]].
  cbn. rewrite Et. cbn. rewrite Es. by eexists.
Qed.

(** A task that waits for the end of a runtime. *)
Lemma runtime_awaited y i t rt : closing y -> y_close y <> CWalk -> y_tasks y !! i = Some t ->
  ran rt (y_world y) ->
  (phase_of rt (y_world y) = PhDone -> is_Some (task_step myZID i CNo t (y_world y))) -> goes_on y.
Proof.
  intros H Hw Et (ph & E & Hl) Hs. destruct ph; [done|by destruct (cl_open y H Hw rt)| |].
  - assert (Ep : phase_of rt (y_world y) = PhStopping) by (unfold phase_of; by rewrite E).
    destruct (decide (rt ∈ w_held (y_world y))) as [Hh|Hh]; [right; by exists rt|left].
    exists (ATeardown rt). split; [|done]. cbn. rewrite Ep, !bool_decide_eq_true_2 by done. by eexists.
  - eapply task_moves; [done|by left|]. apply Hs. unfold phase_of. by rewrite E.
Qed.

(** The task that holds the mutex. *)
Lemma mutex_goes_on y j : closing y -> y_close y <> CWalk -> w_mu (y_world y) = Some j -> goes_on y.
Proof.
  intros H Hw Em. destruct (closing_flags y H) as (Hi & Hu & _).
  destruct (so_mu y (cl_ok y H) j Em) as (x & Ex & Hh).
  pose proof (so_tasks y (cl_ok y H) j x Ex) as Hx. destruct x; try done.
  - eapply task_moves; [done|by left|]. cbn. rewrite Hi. by eexists.
  - eapply task_moves; [done|by left|]. by eexists.
  - destruct Hx as [Hx _]. eapply runtime_awaited; [done..|]. intros E. cbn. rewrite E. by eexists.
Qed.

(** A task that is not done can go on, or the runtime it waits for can, or the
    task that holds the mutex. *)
Lemma task_goes_on y i t : closing y -> y_close y <> CWalk -> y_tasks y !! i = Some t -> t <> TDone ->
  goes_on y.
Proof.
  intros H Hw Et Hn. destruct (closing_flags y H) as (Hi & Hu & _).
  pose proof (so_tasks y (cl_ok y H) i t Et) as Ht.
  assert (Hno : is_Some (task_step myZID i CNo t (y_world y)) -> goes_on y)
    by (by eapply task_moves; [|left]).
  assert (Hcancel : is_Some (task_step myZID i CCancel t (y_world y)) -> goes_on y)
    by (by eapply task_moves; [|right]).
  assert (Hrt : forall rt, ran rt (y_world y) ->
    (phase_of rt (y_world y) = PhDone -> is_Some (task_step myZID i CNo t (y_world y))) -> goes_on y)
    by (intros rt; by eapply runtime_awaited).
  destruct t as [ln|ln|ln| | |p n|k|k l|k l|k l p|k l p|k l p|k l p|rt|p rt| | |]; try done; cbn in *;
    rewrite ?Hu, ?Hi in *; try (by apply Hno; eexists); try (by apply Hcancel; eexists).
  - apply Hcancel. destruct (ln_closed _ _); by eexists.
  - apply Hcancel. destruct n; by eexists.
  - destruct (w_mu (y_world y)) as [j|] eqn:Em; [by eapply mutex_goes_on|].
    apply Hno. repeat case_match; by eexists.
  - apply (Hrt l); [tauto|]. intros ->. by eexists.
  - apply (Hrt rt Ht). intros ->. by eexists.
  - apply (Hrt rt Ht). intros ->. by eexists.
Qed.

Lemma forallb_false {A} (f : A -> bool) l : forallb f l = false ->
  exists i x, l !! i = Some x /\ f x = false.
Proof.
  induction l as [|x l IH]; cbn; [done|]. destruct (f x) eqn:E; [|by exists 0%nat, x].
  intros (i & y & H)%IH. by exists (S i), y.
Qed.

Lemma closing_goes_on y : closing y -> y_close y <> CReturned -> goes_on y.
Proof.
  intros H Hn. destruct (closing_flags y H) as (_ & _ & Hopen). pose proof (cl_rank y H) as Hr.
  assert (Hclose : is_Some (close_step (y_close y) (y_done y) (y_world y)) -> goes_on y).
  { intros [[p w] E]. left. exists AClose. split; [|done]. cbn. rewrite Hopen, E. by eexists. }
  destruct (y_close y) eqn:Ec; cbn in Hr; try lia; try done.
  1-3: apply Hclose; by eexists.
  destruct (y_done y) eqn:Ed; [apply Hclose; by eexists|].
  destruct (forallb (fun t => match t with TDone => true | _ => false end) (y_tasks y)) eqn:Ef.
  - left. exists ASupervise. split; [|done]. cbn. rewrite Hopen, Ed, Ef. by eexists.
  - apply forallb_false in Ef as (i & t & Hi & Ht). eapply task_goes_on; [done|congruence|done|by intros ->].
Qed.
End Steps.

(** Every goroutine has ended, every link and every listener is closed. *)
Definition nothing_left (y : system) : Prop :=
  all_done (y_tasks y) /\ Forall (eq PhDone) (w_links (y_world y)) /\
  Forall (eq true) (w_listeners (y_world y)).

Lemma returned_nothing_left y : closing y -> y_close y = CReturned -> nothing_left y.
Proof.
  intros H E. destruct H as [Hok _ _ Ho]. pose proof (so_close y Hok) as Hc. rewrite E in Hc.
  destruct (so_done y Hok (so_returned y Hok E)) as [_ Hd].
  assert (Hno : forall P, (forall t, t = TDone -> ~ P t) -> ~ some_task P (y_tasks y)).
  { intros P HP (t & Ht & Hp). by eapply HP, Hp; apply Hd. }
  split_and!; [done| |apply Hc]. apply Forall_lookup. intros l ph El.
  pose proof (so_covered y Hok l) as Hcov. unfold covered in Hcov. rewrite El in Hcov.
  destruct ph; [| | |done]; exfalso.
  - revert Hcov. apply Hno. by intros t -> Hp.
  - destruct Hcov as [Hcov _]. revert Hcov. apply Hno. by intros t -> Hp.
  - revert Hcov. apply Hno. by intros t -> Hp.
Qed.


(** ** Concrete sessions *)

Lemma act_all_reachable myZID nout nmcast scouting acts n y :
  act_all myZID nout nmcast scouting acts (opening n) = Some y -> reachable myZID nout nmcast scouting y.
Proof.
  intros E. exists n. revert E. generalize (opening n).
  induction acts as [|a acts IH]; intros y0; unfold act_all; cbn [fold_left]; [by intros [= ->]|].
  change (Some y0 ≫= act myZID nout nmcast scouting a) with (act myZID nout nmcast scouting a y0).
  destruct (act myZID nout nmcast scouting a y0) as [y1|] eqn:E; intros E'.
  - eapply rtc_l; [by exists a|by apply IH].
  - exfalso. clear -E'. induction acts; [done|by apply IHacts].
Qed.

(** The node [1] listens; the peer [2] connects, up to the start of its
    runtime. *)
Definition a_peer_comes : list action :=
  [AOpen (CYes []); ATask 0 CNo; ATask 0 (CYes []); ATask 1 CNo; ATask 1 (CYes [2]);
   ATask 1 CNo; ATask 1 CNo].

Definition sample_act := act [1] 0 0 false.
Definition sample_run (acts : list action) (listeners : nat) : option system :=
  act_all [1] 0 0 false (a_peer_comes ++ acts) (opening listeners).

(** Close comes to its walk over the registry between the start of the runtime
    and its registration: it waits for the watcher of a runtime that nobody has
    told to stop, and only the loss of the link would end it. *)
Lemma peer_close_hangs : exists y,
  sample_run ([AOpen CNo; AOpen CNo] ++ repeat AClose 6 ++
              [ATask 1 CNo; ATask 1 (CYes []); ATask 0 CNo]) 1 = Some y /\
  y_close y = CWait /\ phase_of 0 (y_world y) = PhOpen /\
  ~ moves [1] 0 0 false y.
Proof.
  eexists. split; [vm_compute; reflexivity|]. split_and!; [done..|].
  intros ([c|i c| | |rt|rt|rt|rt] & [y' E] & Ho); cbn in E; try done.
  - destruct i as [|[|[|i]]]; done.
  - by destruct rt as [|rt].
Qed.

(** Open fails on its second listener after a peer has connected to the first:
    it returns an error and leaves a running runtime that nobody can close. *)
Lemma open_failure_leaks : exists y,
  sample_run [ATask 1 CNo; ATask 1 (CYes []); AOpen CNo; AOpen CNo; AOpen CNo; AOpen CNo; ATask 0 CNo] 2
    = Some y /\
  y_open y = OFailed /\ phase_of 0 (y_world y) = PhOpen /\
  ~ moves [1] 0 0 false y.
Proof.
  eexists. split; [vm_compute; reflexivity|]. split_and!; [done..|].
  intros ([c|i c| | |rt|rt|rt|rt] & [y' E] & Ho); cbn in E; try done.
  - destruct i as [|[|[|i]]]; done.
  - by destruct rt as [|rt].
Qed.

(** The reader of the runtime has come to wait for room in a queue that nobody
    empties any more, its own after the end of its writer, or that of another
    peer who does not read: Close waits for the supervisor, that for the
    watcher, the watcher for the runtime and the runtime for its reader. *)
Definition reader_held : list action :=
  [ATask 1 CNo; ATask 1 (CYes []); AOpen CNo; AOpen CNo; AHold 0] ++ repeat AClose 6 ++ [ATask 0 CNo].

Lemma peer_close_waits_for_reader : exists y,
  sample_run reader_held 1 = Some y /\ y_close y = CWait /\ stalled y /\
  forall a y', sample_act a y = Some y' -> a = AFree 0.
Proof.
  destruct (sample_run reader_held 1) as [y|] eqn:E; [|vm_compute in E; done]. exists y. split; [done|].
  assert (H : y_tasks y = [TDone; TDone; TWatch [2] 0] /\ y_open y = OOpened /\ y_close y = CWait /\
    y_done y = false /\ w_links (y_world y) = [PhStopping] /\ w_held (y_world y) = {[0%nat]})
    by (vm_compute in E; injection E as <-; done).
  clear E. destruct y as [ts o q d w]. cbn in H. destruct H as (-> & -> & -> & -> & Hl & Hh).
  assert (Hp : forall rt, phase_of rt w = match rt with O => PhStopping | _ => PhDone end)
    by (intros rt; unfold phase_of; rewrite Hl; by destruct rt).
  split_and!; [done|exists 0%nat; cbn; rewrite Hh, Hp; set_solver|].
  intros [c|i c| | |rt|rt|rt|rt] y'; cbn; rewrite ?Hh, ?Hp; try done.
  - destruct i as [|[|[|i]]]; cbn; rewrite ?Hp; done.
  - by destruct rt.
  - by destruct rt.
  - by destruct rt.
  - case_bool_decide as E; [|done]. by apply elem_of_singleton in E as ->.
Qed.

Definition at_walk : system :=
  default (opening 0) (sample_run ([ATask 1 CNo; ATask 1 (CYes []); AOpen CNo; AOpen CNo] ++ repeat AClose 3) 1).
Definition to_the_end : list action :=
  [AClose; AClose; AClose; ATeardown 0; ATask 2 CNo; ATask 0 CNo; ASupervise; AClose].

