(* ===== verification/MulticastRun.v ===== *)
(** * session/multicast_peer.go: the goroutines of a multicast runtime

    The JOIN sender, the reader with the goroutine that closes the link under
    it, the eviction loop and the writer, from [StartMulticastPeer] to [Close],
    and the session that owns the runtime (src/zenoh/session_peer.go,
    session.go): the goroutine that closes the runtime with the session, the
    replays that new peers start, the supervisor and [Session.Close].  What the
    goroutines do with datagrams, peers and items is the subject of
    [Multicast] and [Writer]; the writer is the one of [Supervise], with
    [linkClosed] for its stop signal and a drain that never comes. *)
From S2P Require Import Prelude Buffer Vle Codec WirePrim WireTransport Transport Collector.
From S2P Require Import Multicast Supervise.

(** [time.NewTicker] *)
Definition NewTicker (d : Z) : result unit := if d <=? 0 then Err ErrPanic else Ok tt.

(** [JFirst]: the first JOIN; [JSend]: the JOIN of a tick. *)
Inductive join_pc := JFirst | JTicker | JSelect | JSend | JGone.
(** [GHandle]: a datagram was read, with JOINs of so many new peers. *)
Inductive group_read_pc := GRead | GHandle (news : nat) | GReadGone.
Inductive evict_pc := ETicker | ESelect | ESweep | EGone.
(** A call of [Close], from before it is made. *)
Inductive closing_pc := LIdle | LSwap | LCancel | LChan | LLink | LWait | LDone.

#[export] Instance closing_pc_eq_dec : EqDecision closing_pc.
Proof. solve_decision. Defined.

(** [gr_calls]: the call of the goroutine that waits for the end of the session
    (0) and the one of [Session.Close] (1).  [gr_user]: the session was
    closed; [gr_replays]: the goroutines that replay to a new peer;
    [gr_done], [gr_returned]: the supervisor has closed [s.done],
    [Session.Close] has returned. *)
Record group := mkGroup {
  gr_shared : shared; gr_closed : bool; gr_ctx : bool; gr_join : join_pc; gr_read : group_read_pc;
  gr_closer : bool; gr_evict : evict_pc; gr_writer : writer_pc; gr_calls : list closing_pc;
  gr_user : bool; gr_replays : nat; gr_done : bool; gr_returned : bool }.

(** What [rt.wg] waits for. *)
Definition group_gone (j : join_pc) (r : group_read_pc) (e : evict_pc) (w : writer_pc) : bool :=
  match j, r, e, w with JGone, GReadGone, EGone, WGone => true | _, _, _, _ => false end.

(** [link.Close] may be called again. *)
Definition close_link (s : shared) : shared :=
  if happened ELinkClose s then s else log_event ELinkClose s.

(** The outcome of a read from the open link. *)
Inductive group_input := InDatagram (news : nat) | InError.

Inductive group_action :=
  | MJoin | MRead | MCloser | MEvict | MWriter (c : wchoice) (fails : bool) | MCall (i : nat)
  | MReplay | MSupervisor | MReturn
  | MJoinTick | MEvictTick | MInput (i : group_input) | MSend | MSessionClose.

Section Group.
(** Whether the JOIN encodes, the two intervals, the capacity of [outQ]. *)
Context (joinEncodes : bool) (joinInterval evictInterval : Z) (cap : nat).

Definition join_step (ctx : bool) (s : shared) (p : join_pc) : option (result join_pc) :=
  match p with
  | JFirst => Some (Ok (if joinEncodes then JTicker else JGone))
  | JTicker => Some (NewTicker joinInterval;; Ok JSelect)
  | JSelect => if ctx then Some (Ok JGone) else None
  | JSend => Some (Ok (if happened ELinkClose s then JGone else JSelect))
  | JGone => None
  end.

Definition evict_step (ctx : bool) (p : evict_pc) : option (result evict_pc) :=
  match p with
  | ETicker => Some (NewTicker evictInterval;; Ok ESelect)
  | ESelect => if ctx then Some (Ok EGone) else None
  | ESweep => Some (Ok ESelect)
  | EGone => None
  end.

(** A step of [Close], with [rt.closed], the context and the link. *)
Definition closing_step (gone : bool) (p : closing_pc) (closed ctx : bool) (s : shared) :
    option (closing_pc * bool * bool * shared) :=
  match p with
  | LIdle | LDone => None
  | LSwap => Some (if closed then LDone else LCancel, true, ctx, s)
  | LCancel => Some (LChan, closed, true, s)
  | LChan => Some (LLink, closed, ctx, close ChStop s)
  | LLink => Some (LWait, closed, ctx, close_link s)
  | LWait => if gone then Some (LDone, closed, ctx, s) else None
  end.

Definition group_act (a : group_action) (g : group) : option (result group) :=
  let '(mkGroup s cl cx j r c e w cs u n d rt) := g in
  match a with
  | MJoin => x ← join_step cx s j; Some (j ← x; Ok (mkGroup s cl cx j r c e w cs u n d rt))
  | MRead =>
      match r with
      | GRead => if happened ELinkClose s then Some (Ok (mkGroup s cl cx j GReadGone c e w cs u n d rt)) else None
      | GHandle news => Some (Ok (mkGroup s cl cx j GRead c e w cs u (news + n) d rt))
      | GReadGone => None
      end
  | MCloser => if c && cx then Some (Ok (mkGroup (close_link s) cl cx j r false e w cs u n d rt)) else None
  | MEvict => x ← evict_step cx e; Some (e ← x; Ok (mkGroup s cl cx j r c e w cs u n d rt))
  | MWriter ch fails => '(w, s) ← writer_step ch fails w s; Some (Ok (mkGroup s cl cx j r c e w cs u n d rt))
  | MCall i =>
      p ← cs !! i;
      '(p, cl, cx, s) ← closing_step (group_gone j r e w) p cl cx s;
      Some (Ok (mkGroup s cl cx j r c e w (<[i := p]> cs) u n d rt))
  | MReplay => match n with S n => Some (Ok (mkGroup s cl cx j r c e w cs u n d rt)) | O => None end
  | MSupervisor =>
      if negb d && (n =? 0)%nat && bool_decide (cs !! 0%nat = Some LDone)
      then Some (Ok (mkGroup s cl cx j r c e w cs u n true rt)) else None
  | MReturn =>
      if negb rt && d && bool_decide (cs !! 1%nat = Some LDone)
      then Some (Ok (mkGroup s cl cx j r c e w cs u n d true)) else None
  | MJoinTick => match j with JSelect => Some (Ok (mkGroup s cl cx JSend r c e w cs u n d rt)) | _ => None end
  | MEvictTick => match e with ESelect => Some (Ok (mkGroup s cl cx j r c ESweep w cs u n d rt)) | _ => None end
  | MInput i =>
      match r with
      | GRead =>
          if happened ELinkClose s then None
          else Some (Ok (mkGroup s cl cx j
                 (match i with InDatagram news => GHandle news
                  | InError => if cx then GReadGone else GRead end) c e w cs u n d rt))
      | _ => None
      end
  | MSend =>
      if (rt_outQ s <? cap)%nat
      then Some (Ok (mkGroup (set_outQ (S (rt_outQ s)) s) cl cx j r c e w cs u n d rt)) else None
  | MSessionClose =>
      if u then None
      else Some (Ok (mkGroup s cl cx j r c e w (<[0%nat := LSwap]> (<[1%nat := LSwap]> cs)) true n d rt))
  end.

(** [startMulticastEndpoint] has started the runtime. *)
Definition start_group : group :=
  mkGroup (mkShared [] Supervise.ONew false 0 None false false) false false JFirst GRead true ETicker
    (WAt WSelect false) [LIdle; LIdle] false 0 false false.

Fixpoint run_group (acts : list group_action) (g : group) : option group :=
  match acts with
  | [] => Some g
  | a :: acts => match group_act a g with Some (Ok g) => run_group acts g | _ => None end
  end.

(** ** The invariant *)

Definition stopped (s : shared) : Prop := EClose ChStop ∈ rt_log s.
Definition unlinked (s : shared) : Prop := ELinkClose ∈ rt_log s.

(** How far the call of [Close] that found the runtime open has come. *)
Definition closing_stage (gone : bool) (ctx : bool) (s : shared) (p : closing_pc) : Prop :=
  match p with
  | LIdle | LSwap => False
  | LCancel => ctx = false /\ ~ stopped s
  | LChan => ctx = true /\ ~ stopped s
  | LLink => ctx = true /\ stopped s
  | LWait => ctx = true /\ stopped s /\ unlinked s
  | LDone => ctx = true /\ stopped s /\ unlinked s /\ gone = true
  end.

Definition calls_ok (gone cl ctx : bool) (s : shared) (cs : list closing_pc) : Prop :=
  if cl then exists i p, cs !! i = Some p /\ closing_stage gone ctx s p /\
    forall j q, j <> i -> cs !! j = Some q -> q = LIdle \/ q = LSwap \/ q = LDone
  else ctx = false /\ (~ stopped s) /\ forall j q, cs !! j = Some q -> q = LIdle \/ q = LSwap.

Record group_ok (g : group) : Prop := {
  k_log : NoDup (rt_log (gr_shared g));
  k_writer : EClose ChWriterDone ∈ rt_log (gr_shared g) -> gr_writer g = WGone;
  k_calls : calls_ok (group_gone (gr_join g) (gr_read g) (gr_evict g) (gr_writer g)) (gr_closed g)
    (gr_ctx g) (gr_shared g) (gr_calls g);
  k_own : exists p q, gr_calls g !! 0%nat = Some p /\ gr_calls g !! 1%nat = Some q /\
    if gr_user g then p <> LIdle /\ q <> LIdle else p = LIdle /\ q = LIdle;
  k_two : length (gr_calls g) = 2%nat;
  k_done : gr_done g = true -> gr_calls g !! 0%nat = Some LDone;
  k_returned : gr_returned g = true -> gr_done g = true /\ gr_calls g !! 1%nat = Some LDone;
  k_closer : gr_closer g = false -> unlinked (gr_shared g) }.

Lemma group_ok_start : group_ok start_group.
Proof.
  constructor; cbn; try done; [apply NoDup_nil_2|set_solver| |by exists LIdle, LIdle].
  split; [done|]. split; [unfold stopped; cbn; set_solver|]. intros [|[|j]] q E; cbn in E; [..|done]; left; congruence.
Qed.

(** [calls_ok] looks at the stop signal, the link and the goroutines only. *)
Lemma calls_ok_mono gone gone' cl ctx s s' cs : calls_ok gone cl ctx s cs ->
  (stopped s' <-> stopped s) -> (unlinked s -> unlinked s') -> (gone = true -> gone' = true) ->
  calls_ok gone' cl ctx s' cs.
Proof.
  unfold calls_ok. intros H Hs Hu Hg. destruct cl; [|by rewrite Hs].
  destruct H as (i & p & Hi & Hp & Hq). exists i, p. split; [done|]. split; [|done].
  destruct p; cbn in *; rewrite ?Hs; naive_solver.
Qed.

Lemma close_link_log s : NoDup (rt_log s) -> NoDup (rt_log (close_link s)) /\
  unlinked (close_link s) /\ (stopped (close_link s) <-> stopped s) /\
  (EClose ChWriterDone ∈ rt_log (close_link s) <-> EClose ChWriterDone ∈ rt_log s).
Proof.
  intros Hn. unfold close_link, happened, stopped, unlinked. case_bool_decide as Hd; [done|]. cbn.
  split; [by apply NoDup_snoc|]. set_solver.
Qed.

Lemma happened_spec e s : happened e s = true <-> e ∈ rt_log s.
Proof. unfold happened. apply bool_decide_eq_true. Qed.

(** The writer appends only the end of itself. *)
Lemma writer_step_log c fails p s p' s' : writer_step c fails p s = Some (p', s') ->
  (EClose ChWriterDone ∈ rt_log s -> p = WGone) -> NoDup (rt_log s) ->
  NoDup (rt_log s') /\ (EClose ChWriterDone ∈ rt_log s' -> p' = WGone) /\
  (stopped s' <-> stopped s) /\ (unlinked s' <-> unlinked s) /\ p <> WGone.
Proof.
  unfold stopped, unlinked. intros Hs Hw Hn.
  assert (Hp : p <> WGone) by by intros ->.
  assert (Hno : EClose ChWriterDone ∉ rt_log s) by auto.
  assert (Hc : rt_log s' = rt_log s \/ (p' = WGone /\ rt_log s' = rt_log s ++ [EClose ChWriterDone])).
  { destruct p as [a dead|[]|[]|]; cbn in Hs; repeat (case_match; try done); simplify_eq; auto. }
  destruct Hc as [->|[-> ->]]; [by split_and!|].
  split; [by apply NoDup_snoc|]. set_solver.
Qed.

Lemma closing_step_ok gone i p cl cx s cs p' cl' cx' s' :
  cs !! i = Some p -> closing_step gone p cl cx s = Some (p', cl', cx', s') ->
  calls_ok gone cl cx s cs -> NoDup (rt_log s) ->
  NoDup (rt_log s') /\ calls_ok gone cl' cx' s' (<[i := p']> cs) /\ p' <> LIdle /\
  (unlinked s -> unlinked s') /\
  (EClose ChWriterDone ∈ rt_log s' <-> EClose ChWriterDone ∈ rt_log s).
Proof.
  intros Hi Hs Hc Hn.
  assert (Hlen : (i < length cs)%nat) by by eapply lookup_lt_Some.
  assert (Hown : forall q, cs !! i = Some q -> (q = LIdle \/ q = LSwap \/ q = LDone -> False) -> cl = true ->
    closing_stage gone cx s q /\ forall j q, j <> i -> cs !! j = Some q -> q = LIdle \/ q = LSwap \/ q = LDone).
  { intros q Hq Hne ->. cbn in Hc. destruct Hc as (k & r & Hk & Hr & Ho).
    destruct (decide (i = k)) as [->|Hik]; [|by destruct (Hne (Ho i q Hik Hq))]. by simplify_eq. }
  assert (Hcl : p <> LIdle -> p <> LSwap -> cl = true).
  { intros H1 H2. destruct cl; [done|]. cbn in Hc. destruct Hc as (_ & _ & Hc). by destruct (Hc i p Hi). }
  assert (Hnew : forall q, closing_stage gone cx' s' q ->
    (forall j q, j <> i -> cs !! j = Some q -> q = LIdle \/ q = LSwap \/ q = LDone) ->
    calls_ok gone true cx' s' (<[i := q]> cs)).
  { intros q Hq Ho. exists i, q. split; [by apply list_lookup_insert_eq|]. split; [done|].
    intros j r Hj Hr. rewrite list_lookup_insert_ne in Hr by done. by apply (Ho j). }
  destruct p; cbn in Hs; try done.
  - injection Hs as <- <- <- <-. split; [done|]. split; [|by destruct cl].
    destruct cl; cbn in Hc.
    + destruct Hc as (k & r & Hk & Hr & Ho). exists k, r.
      assert (Hik : k <> i) by (intros ->; rewrite Hi in Hk; by simplify_eq).
      rewrite list_lookup_insert_ne by done. split; [done|]. split; [done|]. intros j q Hj Hq.
      destruct (decide (j = i)) as [->|Hji]; [|rewrite list_lookup_insert_ne in Hq by done; by apply (Ho j)].
      rewrite list_lookup_insert_eq in Hq by done. injection Hq as <-. auto.
    + destruct Hc as (-> & Hst & Ho). apply Hnew; [done|]. intros j q Hj Hq. destruct (Ho j q Hq); auto.
  - rewrite (Hcl ltac:(done) ltac:(done)) in *. injection Hs as <- <- <- <-.
    destruct (Hown LCancel Hi ltac:(naive_solver) eq_refl) as [[_ Hst] Ho]. split; [done|]. split; [|done].
    by apply Hnew.
  - rewrite (Hcl ltac:(done) ltac:(done)) in *. injection Hs as <- <- <- <-.
    destruct (Hown LChan Hi ltac:(naive_solver) eq_refl) as [[-> Hst] Ho]. cbn.
    split; [by apply NoDup_snoc|]. split; [|unfold unlinked; cbn; set_solver].
    apply Hnew; [|done]. split; [done|]. unfold stopped. cbn. set_solver.
  - rewrite (Hcl ltac:(done) ltac:(done)) in *. injection Hs as <- <- <- <-.
    destruct (Hown LLink Hi ltac:(naive_solver) eq_refl) as [[-> Hst] Ho].
    destruct (close_link_log s Hn) as (H1 & H2 & H3 & H4). split; [done|]. split; [|done].
    apply Hnew; [|done]. cbn. by rewrite H3.
  - rewrite (Hcl ltac:(done) ltac:(done)) in *. destruct gone; [|done]. injection Hs as <- <- <- <-.
    destruct (Hown LWait Hi ltac:(naive_solver) eq_refl) as [(-> & Hst & Hu) Ho]. split; [done|].
    split; [|done]. by apply Hnew.
Qed.

(** A call is made. *)
Lemma calls_ok_swap gone cl cx s cs i : calls_ok gone cl cx s cs -> cs !! i = Some LIdle ->
  calls_ok gone cl cx s (<[i := LSwap]> cs).
Proof.
  intros H Hi. assert (Hlen : (i < length cs)%nat) by by eapply lookup_lt_Some.
  assert (Hl : forall j q, <[i := LSwap]> cs !! j = Some q -> q = LSwap \/ (j <> i /\ cs !! j = Some q)).
  { intros j q Hq. destruct (decide (j = i)) as [->|Hji].
    - rewrite list_lookup_insert_eq in Hq by done. injection Hq as <-. by left.
    - rewrite list_lookup_insert_ne in Hq by done. by right. }
  unfold calls_ok in *. destruct cl.
  - destruct H as (k & p & Hk & Hp & Ho). exists k, p.
    assert (k <> i) by (intros ->; by simplify_eq). rewrite list_lookup_insert_ne by done.
    split; [done|]. split; [done|]. intros j q Hj Hq. destruct (Hl j q Hq) as [->|[_ Hq']]; eauto.
  - destruct H as (H1 & H2 & H3). split; [done|]. split; [done|]. intros j q Hq.
    destruct (Hl j q Hq) as [->|[_ Hq']]; eauto.
Qed.

Lemma group_act_ok a g x : 0 < joinInterval -> 0 < evictInterval -> group_ok g ->
  group_act a g = Some x -> exists g', x = Ok g' /\ group_ok g'.
Proof.
  intros Hj He Hg. pose proof Hg as [H1 H2 H3 H4 H5 H7 H8 H6].
  destruct g as [s cl cx j r c e w cs u n d rt]. cbn in H1, H2, H3, H4, H5, H6, H7, H8.
  assert (Hkeep : forall s' r' j' e' n', rt_log s' = rt_log s ->
    (group_gone j r e w = true -> group_gone j' r' e' w = true) ->
    group_ok (mkGroup s' cl cx j' r' c e' w cs u n' d rt)).
  { intros s' r' j' e' n' Hl Hgone. constructor; cbn; rewrite ?Hl; try done.
    - eapply calls_ok_mono; [exact H3|..]; unfold stopped, unlinked; rewrite ?Hl; done.
    - unfold unlinked. by rewrite Hl. }
  destruct a; cbn [group_act].
  - destruct (join_step cx s j) as [y|] eqn:E; [|done]. cbn.
    assert (exists j', y = Ok j' /\ j <> JGone) as (j' & -> & Hn).
    { unfold join_step, NewTicker in E. rewrite (proj2 (Z.leb_gt joinInterval 0) Hj) in E.
      destruct j; cbn in E; repeat (case_match; try done); simplify_eq; eauto. }
    intros [= <-]. eexists. split; [done|]. apply Hkeep; [done|]. by destruct j.
  - destruct r as [|news|]; [| |done].
    + destruct (happened ELinkClose s); [|done]. intros [= <-]. eexists. split; [done|].
      apply Hkeep; [done|]. by destruct j.
    + intros [= <-]. eexists. split; [done|]. apply Hkeep; [done|]. by destruct j.
  - destruct (c && cx) eqn:E; [|done]. intros [= <-]. eexists. split; [done|].
    destruct (close_link_log s H1) as (L1 & L2 & L3 & L4). constructor; cbn; try done.
    + by rewrite L4.
    + by eapply calls_ok_mono.
  - destruct (evict_step cx e) as [y|] eqn:E; [|done]. cbn.
    assert (exists e', y = Ok e' /\ e <> EGone) as (e' & -> & Hn).
    { unfold evict_step, NewTicker in E. rewrite (proj2 (Z.leb_gt evictInterval 0) He) in E.
      destruct e; cbn in E; repeat (case_match; try done); simplify_eq; eauto. }
    intros [= <-]. eexists. split; [done|]. apply Hkeep; [done|]. by destruct j, r, e.
  - destruct (writer_step c0 fails w s) as [[w' s']|] eqn:E; [|done]. cbn. intros [= <-].
    eexists. split; [done|]. destruct (writer_step_log _ _ _ _ _ _ E H2 H1) as (L1 & L2 & L3 & L4 & L5).
    constructor; cbn; try done.
    + eapply calls_ok_mono; [exact H3|done|by rewrite L4|]. by destruct j, r, e, w.
    + by rewrite L4.
  - destruct (cs !! i) as [p|] eqn:Ei; [|done]. cbn.
    destruct (closing_step _ p cl cx s) as [[[[p' cl'] cx'] s']|] eqn:E; [|done]. cbn. intros [= <-].
    eexists. split; [done|]. destruct (closing_step_ok _ _ _ _ _ _ _ _ _ _ _ Ei E H3 H1) as (L1 & L2 & L3 & L4 & L5).
    constructor; cbn; try done.
    + by rewrite L5.
    + assert (Hp : p <> LIdle) by (by intros ->).
      assert (Hl : forall k r, cs !! k = Some r -> exists r', <[i:=p']> cs !! k = Some r' /\
        (r <> LIdle -> r' <> LIdle) /\ (r = LIdle -> r' = LIdle)).
      { intros k r0 Hk. destruct (decide (k = i)) as [->|Hki].
        - exists p'. split; [apply list_lookup_insert_eq; by eapply lookup_lt_Some|].
          split; [done|]. intros ->. congruence.
        - exists r0. by rewrite list_lookup_insert_ne. }
      destruct H4 as (p0 & q0 & Hp0 & Hq0 & Hu). destruct (Hl _ _ Hp0) as (p1 & ? & ? & ?), (Hl _ _ Hq0) as (q1 & ? & ? & ?).
      exists p1, q1. destruct u; naive_solver.
    + by rewrite length_insert.
    + intros Hd. assert (i <> 0%nat) by (intros ->; rewrite (H7 Hd) in Ei; by injection Ei as <-).
      rewrite list_lookup_insert_ne by done. auto.
    + intros Hr. destruct (H8 Hr) as [Hd Hq].
      assert (i <> 1%nat) by (intros ->; rewrite Hq in Ei; by injection Ei as <-).
      rewrite list_lookup_insert_ne by done. auto.
    + auto.
  - destruct n as [|n]; [done|]. intros [= <-]. eexists. split; [done|]. by apply Hkeep.
  - destruct (negb d && _ && _) eqn:E; [|done]. intros [= <-]. eexists. split; [done|].
    apply andb_true_iff in E as [_ E]. apply bool_decide_eq_true in E.
    constructor; cbn; try done. intros Hr. split; [done|]. by apply H8.
  - destruct (negb rt && d && _) eqn:E; [|done]. intros [= <-]. eexists. split; [done|].
    apply andb_true_iff in E as [E E1]. apply andb_true_iff in E as [_ E]. apply bool_decide_eq_true in E1.
    by constructor.
  - destruct j; try done. intros [= <-]. eexists. split; [done|]. by apply Hkeep.
  - destruct e; try done. intros [= <-]. eexists. split; [done|]. apply Hkeep; [done|]. by destruct j, r.
  - destruct r; try done. destruct (happened ELinkClose s); [done|]. intros [= <-]. eexists. split; [done|].
    apply Hkeep; [done|]. by destruct j.
  - destruct (_ <? _)%nat; [|done]. intros [= <-]. eexists. split; [done|]. by apply Hkeep.
  - destruct u; [done|]. intros [= <-]. eexists. split; [done|].
    destruct H4 as (p0 & q0 & Hp0 & Hq0 & -> & ->). destruct cs as [|x0 [|x1 cs]]; [done..|].
    injection Hp0 as ->. injection Hq0 as ->. cbn in *.
    constructor; cbn; try done; [|by exists LSwap, LSwap|by intros [=]%H7|by intros [_ [=]]%H8].
    apply (calls_ok_swap (group_gone j r e w) cl cx s (LIdle :: LIdle :: cs) 0) in H3; [|by auto..].
    by apply (calls_ok_swap (group_gone j r e w) cl cx s (LSwap :: LIdle :: cs) 1) in H3; [|by auto..].
Qed.

Lemma run_group_ok acts : 0 < joinInterval -> 0 < evictInterval -> forall g g',
  group_ok g -> run_group acts g = Some g' -> group_ok g'.
Proof.
  intros Hj He. induction acts as [|a acts IH]; intros g g' Hg; cbn [run_group]; [by intros [= <-]|].
  destruct (group_act a g) as [x|] eqn:E; [|done].
  destruct (group_act_ok a g x Hj He Hg E) as (g1 & -> & H1). by apply IH.
Qed.

(** ** Termination *)

(** The steps of the goroutines; the others are ticks of the clock, datagrams,
    senders and the user's [Close]. *)
Definition is_gown (a : group_action) : bool :=
  match a with
  | MJoin | MRead | MCloser | MEvict | MWriter _ _ | MCall _ | MReplay | MSupervisor | MReturn => true
  | _ => false
  end.
Definition gown_steps (acts : list group_action) : nat := length (filter (fun a => is_gown a = true) acts).
(** What an event may cause: a datagram also starts the replays of its JOINs. *)
Definition event_weight (a : group_action) : nat :=
  if is_gown a then 0 else match a with MInput (InDatagram news) => 10 + news | _ => 10 end.

Definition join_rank (p : join_pc) : nat :=
  match p with JFirst => 3 | JTicker => 2 | JSelect => 1 | JSend => 2 | JGone => 0 end.
Definition read_rank (p : group_read_pc) : nat :=
  match p with GRead => 1 | GHandle news => 2 + news | GReadGone => 0 end.
Definition evict_rank (p : evict_pc) : nat :=
  match p with ETicker => 2 | ESelect => 1 | ESweep => 2 | EGone => 0 end.
Definition closing_rank (p : closing_pc) : nat :=
  match p with LSwap => 5 | LCancel => 4 | LChan => 3 | LLink => 2 | LWait => 1 | LIdle | LDone => 0 end.

Definition group_rank (g : group) : nat :=
  shared_rank (gr_shared g) + writer_rank (gr_writer g) + join_rank (gr_join g) + read_rank (gr_read g) +
  (if gr_closer g then 1 else 0) + evict_rank (gr_evict g) + sum_list_with closing_rank (gr_calls g) +
  gr_replays g + (if gr_done g then 0 else 1) + (if gr_returned g then 0 else 1).

Lemma close_link_rank s : shared_rank (close_link s) = shared_rank s.
Proof. unfold close_link. by destruct (happened _ s). Qed.

Lemma closing_step_rank gone p cl cx s p' cl' cx' s' : closing_step gone p cl cx s = Some (p', cl', cx', s') ->
  (closing_rank p' < closing_rank p)%nat /\ shared_rank s' = shared_rank s.
Proof.
  destruct p; cbn; try done; try (destruct gone; [|done]); intros [= <- <- <- <-];
    rewrite ?close_link_rank; try destruct cl; cbn; split; done || lia.
Qed.

Lemma join_step_rank ctx s p p' : join_step ctx s p = Some (Ok p') -> (join_rank p' < join_rank p)%nat.
Proof.
  unfold join_step, NewTicker. destruct p; [destruct joinEncodes|destruct (_ <=? _)|destruct ctx|destruct (happened _ s)|];
    cbn; (intros [= <-] || done); cbn; lia.
Qed.

Lemma evict_step_rank ctx p p' : evict_step ctx p = Some (Ok p') -> (evict_rank p' < evict_rank p)%nat.
Proof.
  unfold evict_step, NewTicker. destruct p; [destruct (_ <=? _)|destruct ctx| |];
    cbn; (intros [= <-] || done); cbn; lia.
Qed.

Lemma group_act_rank a g g' : group_act a g = Some (Ok g') ->
  ((if is_gown a then 1 else 0) + group_rank g' <= group_rank g + event_weight a)%nat.
Proof.
  destruct g as [s cl cx j r c e w cs u n d rt]. unfold group_rank.
  destruct a; cbn [group_act is_gown event_weight]; intros Hs.
  - destruct (join_step cx s j) as [[j'|]|] eqn:E; try done. injection Hs as <-. apply join_step_rank in E. cbn. lia.
  - destruct r as [|news|]; [destruct (happened _ s); [|done]|..|done]; simplify_eq/=; lia.
  - destruct c, cx; try done. injection Hs as <-. cbn. rewrite close_link_rank. lia.
  - destruct (evict_step cx e) as [[e'|]|] eqn:E; try done. injection Hs as <-. apply evict_step_rank in E. cbn. lia.
  - destruct (writer_step c0 fails w s) as [[w' s']|] eqn:E; [|done]. injection Hs as <-.
    apply writer_step_rank in E. cbn. lia.
  - destruct (cs !! i) as [p|] eqn:Ei; [|done]. cbn in Hs.
    destruct (closing_step _ p cl cx s) as [[[[p' cl'] cx'] s']|] eqn:E; [|done]. injection Hs as <-.
    destruct (closing_step_rank _ _ _ _ _ _ _ _ _ E) as [E1 E2].
    pose proof (sum_list_insert closing_rank cs i p p' Ei). cbn. lia.
  - destruct n; [done|]. simplify_eq/=. lia.
  - destruct d; [done|]. destruct (negb false && _ && _); [|done]. simplify_eq/=. lia.
  - destruct rt; [done|]. destruct (negb false && _ && _); [|done]. simplify_eq/=. lia.
  - destruct j; simplify_eq/=. lia.
  - destruct e; simplify_eq/=. lia.
  - destruct r; try done. destruct (happened _ s); [done|]. destruct i, cx; simplify_eq/=; lia.
  - destruct (_ <? _)%nat; [|done]. injection Hs as <-. unfold shared_rank. cbn. lia.
  - destruct u; [done|]. injection Hs as <-. destruct cs as [|x [|y cs]]; cbn; lia.
Qed.

Lemma run_group_rank acts : forall g g', run_group acts g = Some g' ->
  (gown_steps acts + group_rank g' <= group_rank g + sum_list_with event_weight acts)%nat.
Proof.
  induction acts as [|a acts IH]; intros g g'; cbn [run_group]; [intros [= <-]; cbn; lia|].
  destruct (group_act a g) as [[g1|]|] eqn:E; try done. intros H%IH.
  pose proof (group_act_rank a g g1 E) as Ha. unfold gown_steps in *. cbn [sum_list_with].
  rewrite filter_cons. destruct (is_gown a).
  - rewrite decide_True by done. cbn [length]. lia.
  - rewrite decide_False by done. cbn [length]. lia.
Qed.

(** Every goroutine of the runtime has ended and its link is closed. *)
Definition runtime_over (g : group) : Prop :=
  gr_join g = JGone /\ gr_read g = GReadGone /\ gr_evict g = EGone /\ gr_writer g = WGone /\
  happened ELinkClose (gr_shared g) = true.

Lemma group_gone_spec j r e w : group_gone j r e w = true <->
  j = JGone /\ r = GReadGone /\ e = EGone /\ w = WGone.
Proof. split; [|by intros (-> & -> & -> & ->)]. by destruct j, r, e, w. Qed.

(** A call of [Close] that is over, with no other under way. *)
Lemma calls_over g : group_ok g -> (forall i q, gr_calls g !! i = Some q -> q = LDone) ->
  runtime_over g /\ gr_ctx g = true /\ stopped (gr_shared g).
Proof.
  intros Hg Hall. pose proof (k_calls _ Hg) as Hc. unfold calls_ok in Hc. destruct (gr_closed g).
  - destruct Hc as (i & p & Hi & Hp & _). rewrite (Hall i p Hi) in Hp. destruct Hp as (Hx & Hst & Hu & Hgone).
    apply group_gone_spec in Hgone. apply (proj2 (happened_spec _ _)) in Hu. unfold runtime_over. naive_solver.
  - destruct Hc as (_ & _ & Hc). destruct (k_own _ Hg) as (p & q & Hp & _).
    by destruct (Hc _ _ Hp) as [->| ->]; specialize (Hall _ _ Hp).
Qed.

Lemma returned_over g : group_ok g -> gr_returned g = true -> runtime_over g.
Proof.
  intros Hg Hr. destruct (k_returned _ Hg Hr) as [Hd H1]. pose proof (k_done _ Hg Hd) as H0.
  apply calls_over; [done|]. pose proof (k_two _ Hg). intros [|[|i]] q Hq; [congruence..|].
  apply lookup_lt_Some in Hq. lia.
Qed.

(** With the stop signal and the link closed, the writer can always step. *)
Lemma writer_stuck s w : stopped s -> (forall ch fails, writer_step ch fails w s = None) -> w = WGone.
Proof.
  intros Hs Hw. destruct w as [a dead|a|[]|]; [|by destruct a; specialize (Hw WTake false)|by specialize (Hw WTake false)..|done].
  destruct a.
  - specialize (Hw WStop false). cbn in Hw. unfold closed in Hw.
    by rewrite (proj2 (happened_spec (EClose ChStop) s) Hs) in Hw.
  - pose proof (Hw WTake false) as H1. pose proof (Hw WDefault false) as H2. cbn in *.
    by destruct (rt_outQ s), dead.
  - pose proof (Hw WTake false) as H1. pose proof (Hw WDefault false) as H2. cbn in *.
    by destruct (rt_outQ s), dead.
Qed.

Lemma stuck_returned g : group_ok g -> gr_user g = true ->
  (forall a, is_gown a = true -> group_act a g = None) ->
  gr_returned g = true /\ gr_replays g = 0%nat /\ gr_closer g = false.
Proof.
  intros Hg Hu Hs. destruct g as [s cl cx j r c e w cs u n d rt]. destruct Hg as [H1 H2 H3 H4 H5 H7 H8 H6].
  cbn in *. subst u. destruct H4 as (p0 & q0 & Hp0 & Hq0 & Hpi & Hqi).
  assert (Hcall : forall i q, cs !! i = Some q -> q = LIdle \/ q = LDone \/ (q = LWait /\ group_gone j r e w = false)).
  { intros i q Hq. specialize (Hs (MCall i) eq_refl). cbn in Hs. rewrite Hq in Hs. cbn in Hs.
    destruct q; try done; auto. destruct (group_gone j r e w); [done|auto]. }
  assert (Hst : cx = true /\ stopped s /\ unlinked s).
  { unfold calls_ok in H3. destruct cl.
    - destruct H3 as (i & p & Hi & Hp & Ho). destruct (Hcall i p Hi) as [->|[->|[-> _]]]; [done| |].
      + by destruct Hp as (-> & ? & ? & _).
      + by destruct Hp as (-> & ? & ?).
    - destruct H3 as (_ & _ & H3). destruct (H3 _ _ Hp0) as [->| ->]; [done|].
      destruct (Hcall _ _ Hp0) as [?|[?|[? _]]]; done. }
  destruct Hst as (-> & Hstop & Hun). pose proof (proj2 (happened_spec ELinkClose s) Hun) as Hlink.
  assert (Hj : j = JGone).
  { specialize (Hs MJoin eq_refl). cbn in Hs. unfold join_step in Hs. by destruct j. }
  assert (Hr : r = GReadGone).
  { specialize (Hs MRead eq_refl). cbn in Hs. rewrite Hlink in Hs. by destruct r. }
  assert (He : e = EGone).
  { specialize (Hs MEvict eq_refl). cbn in Hs. unfold evict_step in Hs. by destruct e. }
  assert (Hw : w = WGone).
  { apply (writer_stuck s w Hstop). intros ch fails. specialize (Hs (MWriter ch fails) eq_refl). cbn in Hs.
    by destruct (writer_step ch fails w s) as [[? ?]|]. }
  assert (Hdone : forall i q, cs !! i = Some q -> q <> LIdle -> q = LDone).
  { intros i q Hq Hne. destruct (Hcall i q Hq) as [?|[?|[_ Hgone]]]; [done..|]. by subst. }
  assert (Hn : n = 0%nat) by (specialize (Hs MReplay eq_refl); cbn in Hs; by destruct n).
  assert (Hc : c = false) by (specialize (Hs MCloser eq_refl); cbn in Hs; by destruct c).
  assert (E0 : cs !! 0%nat = Some LDone) by (rewrite Hp0; f_equal; eauto).
  assert (E1 : cs !! 1%nat = Some LDone) by (rewrite Hq0; f_equal; eauto).
  assert (Hd : d = true).
  { specialize (Hs MSupervisor eq_refl). cbn in Hs. subst n. rewrite E0, bool_decide_eq_true_2 in Hs by done.
    by destruct d. }
  split_and!; [|done|done]. specialize (Hs MReturn eq_refl). cbn in Hs. subst d.
  rewrite E1, bool_decide_eq_true_2 in Hs by done. by destruct rt.
Qed.
End Group.

(** The intervals [StartMulticastPeer] gives the tickers are positive for a
    lease of at least 4 milliseconds (10000 in [startMulticastEndpoint]) when
    the other fields are left out. *)
Lemma default_intervals generate cfg st : StartMulticastPeer generate cfg = Ok st ->
  cfg_EvictionInterval cfg = 0 -> cfg_KeepAliveDivisor cfg = 0 -> 4 <= cfg_LeaseMillis cfg <= 2 ^ 40 ->
  0 < st_joinInterval st /\ 0 < cfg_EvictionInterval (st_cfg st).
Proof.
  unfold StartMulticastPeer. intros Hs He Hk Hl. destruct (cfg_hasLink cfg); [|done]. cbn in Hs.
  destruct (_ =? 0); [done|]. injection Hs as <-. cbn. rewrite He, Hk. cbn.
  assert (H1 : int64 (cfg_LeaseMillis cfg) = cfg_LeaseMillis cfg) by (apply int64_small; lia).
  assert (H2 : 1 <= cfg_LeaseMillis cfg / 4 <= 2 ^ 40) by (split; [apply Z.div_le_lower_bound|apply Z.div_le_upper_bound]; lia).
  assert (H3 : int64 (cfg_LeaseMillis cfg / 4) = cfg_LeaseMillis cfg / 4) by (apply int64_small; lia).
  unfold Multicast.Millisecond. rewrite H1, H3, !int64_small by lia. split; [|lia].
  apply Z.quot_str_pos. lia.
Qed.

(** A configuration that [StartMulticastPeer] accepts, whose eviction loop
    panics at its first step: the lease is not 0, but a quarter of it is. *)
Lemma tiny_lease_panics generate cfg : cfg_hasLink cfg = true -> 1 <= cfg_LeaseMillis cfg <= 3 ->
  cfg_EvictionInterval cfg = 0 ->
  exists st, StartMulticastPeer generate cfg = Ok st /\
    forall enc cap, group_act enc (st_joinInterval st) (cfg_EvictionInterval (st_cfg st)) cap MEvict start_group =
      Some (Err ErrPanic).
Proof.
  intros Hk Hl He. unfold StartMulticastPeer. rewrite Hk. cbn.
  rewrite (proj2 (Z.eqb_neq (cfg_LeaseMillis cfg) 0) ltac:(lia)). eexists. split; [done|]. intros enc cap.
  cbn. rewrite He, Z.div_small by lia. done.
Qed.

(** A datagram with a new peer, read while the session closes: [Session.Close]
    has returned, and the replay to the peer has not run. *)
Lemma replay_outlives_close : exists acts g,
  run_group true 1 1 8 acts start_group = Some g /\ gr_returned g = true /\ gr_replays g = 1%nat.
Proof.
  exists ([MJoin; MJoin; MEvict; MInput (InDatagram 1); MSessionClose] ++ replicate 4 (MCall 1) ++
    [MCloser; MJoin; MEvict; MWriter WStop false; MWriter WDefault false; MCall 0; MSupervisor;
     MRead; MRead; MCall 1; MReturn]).
  eexists. by vm_compute.
Qed.

(** A call of [Session.Close] that finds items queued for the group may end
    with them still there. *)
Lemma multicast_close_drops : exists acts g,
  run_group true 1 1 8 acts start_group = Some g /\ gr_returned g = true /\ rt_outQ (gr_shared g) = 2%nat.
Proof.
  exists ([MJoin; MJoin; MEvict; MSend; MSend; MSessionClose] ++ replicate 4 (MCall 1) ++
    [MRead; MCloser; MJoin; MEvict; MWriter WStop false; MWriter WDefault false; MCall 0; MSupervisor; MCall 1; MReturn]).
  eexists. by vm_compute.
Qed.

(** C23: With positive ticker intervals, whatever datagrams, ticks, senders
    and the user's Close do to the JOIN sender, the reader, the eviction
    loop, the writer and the calls of Close of a multicast runtime, in any
    order: no step panics; the link and the channels are closed at most
    once; the goroutines take a number of steps bounded by the events; when
    Close of the session has returned, they have all ended and the link is
    closed; and when none of them can step after Close was called, Close has
    returned. *)
Theorem multicast_close_returns enc joinInterval evictInterval cap acts g :
  0 < joinInterval -> 0 < evictInterval ->
  run_group enc joinInterval evictInterval cap acts start_group = Some g ->
  (forall a x, group_act enc joinInterval evictInterval cap a g = Some x -> is_ok x = true) /\
  NoDup (rt_log (gr_shared g)) /\
  (gown_steps acts <= 19 + sum_list_with event_weight acts)%nat /\
  (gr_returned g = true -> runtime_over g) /\
  (gr_user g = true ->
   (forall a, is_gown a = true -> group_act enc joinInterval evictInterval cap a g = None) ->
   gr_returned g = true /\ gr_replays g = 0%nat /\ gr_closer g = false).
Proof.
  intros Hj He Hr. pose proof (run_group_ok _ _ _ _ _ Hj He _ _ group_ok_start Hr) as Hg.
  pose proof (run_group_rank _ _ _ _ _ _ _ Hr) as Hrank. split_and!.
  - intros a x Ha. by destruct (group_act_ok _ _ _ _ a g x Hj He Hg Ha) as (g' & -> & _).
  - apply Hg.
  - change (group_rank start_group) with 19%nat in Hrank. lia.
  - by apply returned_over.
  - intros Hu Hs. by eapply stuck_returned.
Qed.

(** The goroutines of a runtime that carried a datagram with two new peers and
    an item, and was closed with its session. *)
Definition group_end : list group_action :=
  [MJoin; MJoin; MEvict; MSend; MWriter WTake false; MWriter WTake false; MWriter WDefault false;
   MWriter WTake false; MInput (InDatagram 2); MRead; MReplay; MJoinTick; MJoin; MSessionClose] ++
  replicate 4 (MCall 1) ++
  [MRead; MCloser; MJoin; MEvict; MWriter WStop false; MWriter WDefault false; MCall 0; MReplay;
   MSupervisor; MCall 1; MReturn].

Lemma multicast_close_returns_witness : exists g,
  run_group true 2500000000 2500000000 1024 group_end start_group = Some g /\
  gr_user g = true /\ (forall a, is_gown a = true -> group_act true 2500000000 2500000000 1024 a g = None) /\
  gr_returned g = true /\ runtime_over g.
Proof.
  destruct (run_group true 2500000000 2500000000 1024 group_end start_group) as [g|] eqn:E; [|by vm_compute in E].
  exists g.
  destruct (multicast_close_returns true 2500000000 2500000000 1024 _ _ eq_refl eq_refl E)
    as (_ & _ & _ & Ho & Hr).
  assert (Hu : gr_user g = true) by (vm_compute in E; by injection E as <-).
  assert (Hs : forall a, is_gown a = true -> group_act true 2500000000 2500000000 1024 a g = None).
  { vm_compute in E. injection E as <-. intros [| | | |ch fails|[|[|i]]| | | | | | | |]; by cbn. }
  split; [done|]. split; [done|]. split; [done|].
  destruct (Hr Hu Hs) as (H1 & _ & _). auto.
Defined.
