(* ===== verification/EndToEnd.v ===== *)
(** * One link, end to end

    The writer goroutine of one session (Writer), the byte stream of a TCP or
    TLS link (Framing) and the reader goroutine of the session at the other
    end, with its reassembler (SessionReader, Delivery) and its handlers
    (Dispatch).  The sender's side is the step relation of Writer, so the
    theorems hold whatever the interleaving of senders, signals and writes;
    the farewell CLOSE of [Session.Close] (zenoh/session.go) goes through the
    same queue. *)
From S2P Require Import Prelude Buffer Vle Codec WirePrim WireTransport WireNetwork KeyExpr.
From S2P Require Import Session Transport Framing SessionReader Delivery Dispatch Writer Outbound.
From S2P Require Import Matching Collector SessionSpec Consolidation Handshake Entities Publish.

(** ** reader.go: the loop over a stream *)

Section Loop.
Context {D : Type} (Dispatch : Header -> Reader -> D -> result Reader * D).

(** The buffer of the loop. *)
Definition reader_buf : nat := Z.to_nat MaxBatchSize.

(** [closing] is closed by [OnClose], which shuts the runtime down before it
    returns; [None]: the loop ended there, otherwise by the error.  Nobody else
    closes it meanwhile. *)
Fixpoint readerLoop (fuel : nat) (stream : bytes) (x : RxState D) : option error * RxState D :=
  match fuel with
  | O => (Some ErrFuel, x)
  | S fuel =>
      if negb (is_nil (rx_closed x)) then (None, x)
      else match ReadStreamBatch stream reader_buf with
           | Err e => (Some e, x)
           | Ok (batch, stream) =>
               match processBatch Dispatch batch x with
               | (Err e, x) => (Some e, x)
               | (Ok _, x) => readerLoop fuel stream x
               end
           end
  end.

(** The batches that bypass the batcher. *)
Lemma processBatch_keepalive b x : encodeKeepAlive = Ok b -> processBatch Dispatch b x = (Ok tt, x).
Proof. intros [= <-]. by destruct x. Qed.

Lemma processBatch_close reason b x : EncodeCloseMessage reason = Ok b ->
  processBatch Dispatch b x = (Ok tt, mkRx (rx_reasm x) (rx_d x) (rx_closed x ++ [reason])).
Proof. intros [= <-]. by destruct x. Qed.
End Loop.

(** ** session.go: the farewell *)

(** The checks of [LinkClosed] and the [select], as they find the runtime. *)
Definition farewellTo (rt : Runtime) : Runtime :=
  if rt_LinkClosed rt then rt
  else match EncodeCloseMessage CloseReasonGeneric with
       | Err _ => rt
       | Ok closeBytes => if rt_room rt then rt_push (IRaw closeBytes) rt else rt
       end.
Definition broadcastFarewellClose (rts : list Runtime) : list Runtime := map farewellTo rts.

(** With the link up and room in the queue, the farewell is queued behind
    everything that was sent; otherwise there is none. *)
Lemma farewell_queued rt : exists c, EncodeCloseMessage CloseReasonGeneric = Ok c /\
  farewellTo rt = if negb (rt_LinkClosed rt) && rt_room rt then rt_push (IRaw c) rt else rt.
Proof. eexists. split; [reflexivity|]. unfold farewellTo. by destruct (rt_LinkClosed rt), (rt_room rt). Qed.

(** ** The receiving end of a link *)

(** A unit of the batcher, or a KEEPALIVE. *)
Definition keepalives (l : list wunit) : Prop := Forall (fun b => encodeKeepAlive = Ok b) (raws l).

Definition stream_of (a : bool) (l : list wunit) : bytes := concat (map stream_batch (wire_bytes a l)).

Lemma stream_of_app a l l' : stream_of a (l ++ l') = stream_of a l ++ stream_of a l'.
Proof. unfold stream_of. by rewrite wire_bytes_app, map_app, concat_app. Qed.

Section Link.
Context {D : Type} (Dispatch : Header -> Reader -> D -> result Reader * D).
Context (effect : bytes -> D -> D) (Inv : D -> Prop).

Lemma readerLoop_batch fuel b rest x x' : len b <= MaxBatchSize -> rx_closed x = [] ->
  processBatch Dispatch b x = (Ok tt, x') ->
  readerLoop Dispatch (S fuel) (stream_batch b ++ rest) x = readerLoop Dispatch fuel rest x'.
Proof.
  intros Hb Hc Hp. cbn [readerLoop]. rewrite Hc. cbn [is_nil negb].
  rewrite ReadStreamBatch_ok by (done || by vm_compute). by rewrite Hp.
Qed.

(** The loop over the batches of units that are taken, KEEPALIVEs in between. *)
Lemma readerLoop_takes a l : forall ra log ra' d fuel rest,
  takes_all Dispatch effect Inv (trace_bytes a (units l)) ra log ra' -> keepalives l ->
  Forall (fun b => len b <= MaxBatchSize) (wire_bytes a l) -> Inv d ->
  readerLoop Dispatch (length l + fuel) (stream_of a l ++ rest) (mkRx ra d []) =
  readerLoop Dispatch fuel rest (mkRx ra' (effects effect log.*2 d) []).
Proof.
  induction l as [|x l IH]; intros ra log ra' d fuel rest Ht Hk Hl Hi; [by inversion Ht; subst|].
  apply Forall_cons in Hl as [Hx Hl]. unfold stream_of. cbn [wire_bytes map concat length Nat.add].
  rewrite <- app_assoc. destruct x as [k u|b].
  - inversion Ht as [|? bs ra0 k0 gs ra1 log1 ra2 [Hg Hp] Hrest]; subst.
    rewrite (readerLoop_batch _ _ _ _ (mkRx ra1 (effects effect gs d) [])) by (done || by apply Hp).
    rewrite fmap_app, effects_app, snd_pair_map. apply (IH ra1 log1 ra'); [done..|by eapply effects_inv].
  - apply Forall_cons in Hk as [Hb Hk].
    rewrite (readerLoop_batch _ _ _ _ (mkRx ra d [])) by (done || by apply processBatch_keepalive).
    by apply (IH ra log ra').
Qed.

(** A CLOSE ends the loop, whatever follows. *)
Lemma readerLoop_close reason b fuel rest ra d : 0 <= reason -> EncodeCloseMessage reason = Ok b ->
  readerLoop Dispatch (S (S fuel)) (stream_batch b ++ rest) (mkRx ra d []) = (None, mkRx ra d [reason]).
Proof.
  intros Hr Hb. erewrite readerLoop_batch; [|by injection Hb as <-|done|by apply processBatch_close].
  done.
Qed.

Lemma readerLoop_eof fuel ra d : readerLoop Dispatch (S fuel) [] (mkRx ra d []) = (Some ErrIOEOF, mkRx ra d []).
Proof. done. Qed.
End Link.

(** ** Where a batch that bypassed the batcher is on the link *)

Lemma raws_split l bs c bs' : raws l = bs ++ c :: bs' ->
  exists pre post, l = pre ++ WRaw c :: post /\ raws pre = bs.
Proof.
  revert bs. induction l as [|[k u|b] l IH]; intros bs E; [by destruct bs| |].
  - destruct (IH bs E) as (pre & post & -> & Hp). by exists (WUnit k u :: pre), post.
  - destruct bs as [|b' bs]; injection E as -> E; [by exists [], l|].
    destruct (IH bs E) as (pre & post & -> & Hp). exists (WRaw b' :: pre), post. split; [done|]. unfold raws in *. cbn. by f_equal.
Qed.

Lemma raw_prefix_unique c c' before : forall before' rest rest',
  before ++ IRaw c :: rest = before' ++ IRaw c' :: rest' -> raw_items before = raw_items before' ->
  before = before'.
Proof.
  induction before as [|i before IH]; intros [|i' before'] rest rest' E Hr;
    [done|by injection E as <- _|by injection E as -> _|].
  injection E as <- E. f_equal. eapply IH; [exact E|]. destruct i; cbn in Hr; by simplify_eq.
Qed.

(** The batch is written when everything queued before it is. *)
Lemma raw_position mask seeds l before c rest :
  raws l = raw_items (before ++ IRaw c :: rest) ->
  flushed_before_raw mask seeds l (before ++ IRaw c :: rest) ->
  exists pre post, l = pre ++ WRaw c :: post /\ raws pre = raw_items before /\
    carries mask seeds pre before.
Proof.
  intros Hr Hf. unfold raw_items in Hr. rewrite omap_app in Hr.
  destruct (raws_split _ _ _ _ Hr) as (pre & post & -> & Hp). exists pre, post.
  destruct (Hf pre c post eq_refl) as (before' & rest' & E & Hp' & Hc).
  assert (before = before') as <- by (eapply raw_prefix_unique; [exact E|]; unfold raw_items in *; congruence).
  done.
Qed.

(** ** From one session to the other *)

(** What a session queues: a network message that its peer takes, a KEEPALIVE
    or a CLOSE. *)
Definition queueable (mx : Z) (i : OutboundItem) : Prop :=
  match i with
  | INetwork o => exists n, outgoing_ok mx (n, o)
  | IRaw b => encodeKeepAlive = Ok b \/ exists reason, 0 <= reason < 256 /\ EncodeCloseMessage reason = Ok b
  | IEmpty => True
  end.

(** [ns] are the network messages among [items], with what was queued. *)
Definition messages_of (mx : Z) (items : list OutboundItem)
    (ns : list (NetworkMessage * OutboundMessage)) : Prop :=
  ns.*2 = network items /\ Forall (outgoing_ok mx) ns.

Lemma queueable_messages mx items : Forall (queueable mx) items -> exists ns, messages_of mx items ns.
Proof.
  induction 1 as [|i items Hi _ (ns & E & Hns)]; [by exists []|]. destruct i as [o|b|]; [|by exists ns..].
  destruct Hi as [n Hn]. exists ((n, o) :: ns). split; [cbn; by f_equal|by constructor].
Qed.

Lemma handled_not_nil {D} (Dispatch : Header -> Reader -> D -> result Reader * D) effect Inv m :
  handled Dispatch effect Inv m -> m <> [].
Proof. by intros (b & body & -> & _). Qed.

Lemma outgoing_takable zid mx no : outgoing_ok mx no ->
  takable (NetworkDispatcherForPeer zid) (run_bytes zid) session_ok mx no.2.
Proof. intros (Hw & He & Hp & Hl). split_and!; [done| |done]. by destruct (net_handled zid _ _ Hw He). Qed.

Lemma queueable_item_ok mx i : queueable mx i -> item_ok i.
Proof.
  destruct i as [o|b|]; [|done..]. intros [n Hn].
  destruct (outgoing_takable (mkZID []) mx _ Hn) as (Hp & Hh & _). split; [done|by eapply handled_not_nil].
Qed.

Lemma raw_batch_small mx b : queueable mx (IRaw b) -> len b <= 2.
Proof. by intros [[= <-]|(reason & _ & [= <-])]. Qed.

(** The items of a run satisfy what its senders promise. *)
Lemma writer_step_mono {W} (WB : bytes -> W -> option error * W) (P Q : OutboundItem -> Prop) cap s s' :
  (forall i, P i -> Q i) -> writer_step WB P cap s s' -> writer_step WB Q cap s s'.
Proof. intros H [s1 s2 Hr|i s1 Hi Hl|d c s1]; [by apply step_run|apply step_send; auto|apply step_signal]. Qed.

Lemma writer_sent_allowed {W} (WB : bytes -> W -> option error * W) P cap s s' :
  rtc (writer_step WB P cap) s s' -> Forall P (wr_sent s) -> Forall P (wr_sent s').
Proof.
  induction 1 as [s|s s1 s2 Hst _ IH]; [done|]. intros Hs. apply IH. clear IH. revert Hs.
  destruct Hst as [s s1 Hr|i s Hi _|d c s]; [by rewrite (writer_run_sent _ _ _ Hr)| |done].
  intros Hs. by apply Forall_app, conj, Forall_singleton.
Qed.

(** ** Publications, from the calls to the subscribers' callbacks *)

Section Publications.
Context (zid : ZenohID).

(** The calls of a session, one after the other, with the same options. *)
Fixpoint publish_all (opts : option PutOptions) (ps : list (KeyExpr * publication)) (z : ZSession) :
    list sending * ZSession :=
  match ps with
  | [] => ([], z)
  | (ke, p) :: ps =>
      let '(x, z) := publish zid ke p opts z in
      let '(xs, z) := publish_all opts ps z in (x :: xs, z)
  end.

(** What the fan-out queues for a call. *)
Definition queued (x : sending) : option OutboundMessage :=
  match x with
  | Sending msg prio reliable express =>
      match encode_net msg with
      | Ok e => Some (mkOutbound e prio reliable express)
      | Err _ => None
      end
  | Returned _ => None
  end.

(** The subscribers of [s] are given the publications, one by one. *)
Fixpoint delivered_in_order (opts : option PutOptions) (ps : list (KeyExpr * publication))
    (s s' : Session) : Prop :=
  match ps with
  | [] => s' = s
  | (ke, p) :: ps => exists x s1, buildSample x = published ke p opts /\ delivered_to ke x s s1 /\
      delivered_in_order opts ps s1 s'
  end.

Definition publishable (opts : option PutOptions) (kp : KeyExpr * publication) : Prop :=
  wire_ke kp.1 /\ wf_publication kp.2 opts.

(** A publication goes to the lane its options name. *)
Definition asked_lane (opts : option PutOptions) : LaneKey :=
  let '(prio, reliable, _) := pushQoS opts in lane_key prio reliable.

Lemma asked_qos_lane opts prio reliable express :
  asked_qos opts prio reliable express -> lane_key prio reliable = asked_lane opts.
Proof.
  unfold asked_lane. pose proof (pushQoS_asked opts) as H. destruct (pushQoS opts) as [[p r] e]. revert H.
  destruct opts as [o|]; cbn; [|by intros (-> & -> & _) (-> & -> & _)].
  intros (-> & Hr & _) (-> & Hr' & _). f_equal. destruct r, reliable; naive_solver.
Qed.

Lemma publish_all_cons opts ke p ps z : z_closed z = false -> publishable opts (ke, p) ->
  exists msg prio reliable express x e z1, z_closed z1 = false /\
    omap queued (publish_all opts ((ke, p) :: ps) z).1 =
      mkOutbound e prio reliable express :: omap queued (publish_all opts ps z1).1 /\
    lane_key prio reliable = asked_lane opts /\ buildSample x = published ke p opts /\
    wf_net msg /\ encode_net msg = Ok e /\ forall s, handle_net zid msg s = Ok (dispatchPush ke x s).
Proof.
  intros Hz [Hke Hp]. cbn [fst snd] in Hke, Hp.
  destruct (publish_sends zid ke p opts z Hz Hke Hp) as (msg & prio & rel & ex & x & Ez & Eq & Hwf & Hx & Hm).
  destruct (net_carried zid msg Hwf) as (e & He & _).
  exists msg, prio, rel, ex, x, e, (on_inner (fun _ => dispatchPush ke x (z_inner z)) z).
  split_and!; [done| |by eapply asked_qos_lane|done..]. cbn [publish_all]. rewrite Ez.
  destruct (publish_all opts ps _) as [xs z2]. cbn. by rewrite He.
Qed.

End Publications.

(** ** The link between two sessions *)

Section Sessions.
Context (zid : ZenohID) (a : bool) (bs mx mask : Z) (seeds : Z -> bool -> Z) (cap : nat).
Hypothesis bs_ok : 16 < bs <= MaxBatchSize.
Hypothesis mask_ok : 0 <= mask < 2 ^ 64.
Hypothesis lanes_ok : seeds_ok seeds.

Abbreviation start := (start_writer (NewBatcherWithLaneSeeds bs a seeds mask) []).
Abbreviation step := (writer_step rec_sink (queueable mx) cap).
Abbreviation loop := (readerLoop (NetworkDispatcherForPeer zid)).

(** The reader, fresh, ends in session [s'] after the handlers of the messages
    among [items], lane by lane in order. *)
Definition handled_in_order (items : list OutboundItem) (s s' : Session) : Prop :=
  exists ns log, messages_of mx items ns /\ handle_all zid log.*2 s = Ok s' /\ session_ok s' /\
    Forall (fun kn => valid_key kn.1) log /\ forall k, valid_key k -> log_on k log = outgoing_on k ns.

Lemma carried_prefix l items s :
  Forall (fun ku => valid_key ku.1 /\ len (unit_bytes a ku.1 ku.2) <= bs) (units l) ->
  keepalives l -> carries (normalizeSNMask mask) seeds l items -> Forall (queueable mx) items ->
  session_ok s ->
  exists ra' s', handled_in_order items s s' /\ forall fuel rest,
    loop (length l + fuel) (stream_of a l ++ rest) (mkRx (NewReassembler mx mask) s []) =
    loop fuel rest (mkRx ra' s' []).
Proof.
  intros Hu Hka [Hct Hc] Hq Hs. destruct (queueable_messages mx items Hq) as (ns & Hns & Hok).
  set (R := fun n e => wf_net n /\ encode_net n = Ok e).
  destruct (trace_taken (NetworkDispatcherForPeer zid) (run_bytes zid) session_ok a seeds mask mx
    ns.*2 (units l)) as (log & ra' & Ht & Hv & Hl); [done|done| | |done|by rewrite Hns|].
  { apply Forall_fmap. eapply Forall_impl; [exact Hok|]. intros no. apply outgoing_takable. }
  { eapply Forall_impl; [exact Hu|]. by intros ku []. }
  destruct (relabel_log R log (fun k => outgoing_on k ns) Hv) as (log' & Hkeys & HR & Hl').
  { intros k Hk. rewrite (Hl k Hk). apply sent_on_outgoing.
    eapply Forall_impl; [exact Hok|]. by intros no (Hw & He & _). }
  destruct (handle_all_effects zid _ _ s HR Hs) as [Eh Hs'].
  assert (Hv' : Forall (fun kn => valid_key kn.1) log').
  { assert (Hf : Forall valid_key log.*1) by (by apply Forall_fmap). rewrite <- Hkeys in Hf.
    rewrite Forall_fmap in Hf. exact Hf. }
  exists ra', (effects (run_bytes zid) log.*2 s). split; [by exists ns, log'|].
  intros fuel rest. eapply readerLoop_takes; [exact Ht|done| |done].
  clear Hc Hct Ht. induction l as [|[k u|b] l IH]; [constructor| |].
  - apply Forall_cons in Hu as [[_ Hu] Hus]. constructor; [cbn in *; lia|by apply IH].
  - apply Forall_cons in Hka as [[= <-] Hk]. constructor; [done|by apply IH].
Qed.

Lemma session_writer w : rtc step start w ->
  rtc (writer_step rec_sink item_ok cap) start w /\ Forall (queueable mx) (wr_sent w).
Proof.
  intros H. split.
  - eapply rtc_subrel; [|exact H]. intros s s'. apply writer_step_mono. apply queueable_item_ok.
  - by eapply writer_sent_allowed.
Qed.

Lemma taken_queueable w : rtc step start w -> wr_sent w = wr_taken w ++ wr_outQ w ->
  Forall (queueable mx) (wr_taken w).
Proof. intros H E. apply session_writer in H as [_ H]. rewrite E in H. by apply Forall_app in H as []. Qed.

Lemma link_writes l items : raws l = raw_items items -> Forall (queueable mx) items ->
  Forall (fun ku => valid_key ku.1 /\ len (unit_bytes a ku.1 ku.2) <= bs) (units l) ->
  write_all (wire_bytes a l) [] = Ok (stream_of a l).
Proof.
  intros Hr Hq Hu. rewrite write_all_ok; [done|].
  assert (Hraw : Forall (fun b => len b <= 2) (raws l)).
  { rewrite Hr. unfold raw_items. clear -Hq. induction Hq as [|i items Hi _ IH]; [constructor|].
    destruct i; [done| |done]. constructor; [by eapply raw_batch_small|done]. }
  clear Hr Hq. unfold MaxBatchSize in *. induction l as [|[k u|b] l IH]; [constructor| |].
  - apply Forall_cons in Hu as [[_ Hu] Hus]. constructor; [cbn in *; lia|by apply IH].
  - apply Forall_cons in Hraw as [Hb Hus]. constructor; [cbn; lia|by apply IH].
Qed.


(** The reader stops at the first CLOSE: what was queued before it has been
    handled, and nothing queued after it is. *)
Lemma close_ends_reader w s before c reason rest :
  rtc step start w -> wr_taken w = before ++ IRaw c :: rest ->
  0 <= reason < 256 -> EncodeCloseMessage reason = Ok c ->
  Forall (fun b => encodeKeepAlive = Ok b) (raw_items before) -> session_ok s ->
  exists stream x, write_all (wr_link w) [] = Ok stream /\ rx_closed x = [reason] /\
    handled_in_order before s (rx_d x) /\
    forall more, loop (S (S (length (wr_link w)))) (stream ++ more)
      (mkRx (NewReassembler mx mask) s []) = (None, x).
Proof.
  intros Hw Et Hreason Ec Hka Hs. destruct (session_writer w Hw) as [Hw' _].
  destruct (writer_wire bs a seeds mask cap w ltac:(lia) mask_ok lanes_ok Hw')
    as (l & -> & Hu & Hr & Hf & _ & Hsent).
  pose proof (taken_queueable w Hw Hsent) as Hq. pose proof (link_writes l _ Hr Hq Hu) as Hwr.
  rewrite Et in Hr, Hf, Hq. apply Forall_app in Hq as [Hq _].
  destruct (raw_position _ _ _ _ _ _ Hr Hf) as (pre & post & -> & Hp & Hc).
  rewrite units_app in Hu. apply Forall_app in Hu as [Hu _].
  destruct (carried_prefix pre before s Hu ltac:(unfold keepalives; by rewrite Hp) Hc Hq Hs)
    as (ra' & s' & Hh & Hloop).
  exists (stream_of a (pre ++ WRaw c :: post)), (mkRx ra' s' [reason]).
  split_and!; [done|done|done|]. intros more. rewrite stream_of_app, <- app_assoc.
  replace (S (S (length (wire_bytes a (pre ++ WRaw c :: post)))))
    with (length pre + S (S (S (length post))))%nat
    by (unfold wire_bytes; rewrite length_map, length_app; cbn; lia).
  etransitivity; [apply Hloop|]. unfold stream_of. cbn [wire_bytes map concat wunit_bytes].
  rewrite <- app_assoc. apply readerLoop_close; [lia|done].
Qed.

(** A graceful stop after the CLOSE was queued: the writer exits, and then the
    link carries everything. *)
Lemma graceful_close w s before c after reason :
  rtc step start w -> wr_sent w = before ++ IRaw c :: after -> 0 <= reason < 256 ->
  EncodeCloseMessage reason = Ok c ->
  Forall (fun b => encodeKeepAlive = Ok b) (raw_items before) ->
  wr_drain w = true -> wr_closing w = false -> wr_pc w <> WExited -> session_ok s ->
  (exists w', rtc (writer_run rec_sink) w w' /\ wr_pc w' = WExited) /\
  forall w', rtc (writer_run rec_sink) w w' -> wr_pc w' = WExited ->
    exists stream x, write_all (wr_link w') [] = Ok stream /\
      loop (S (S (length (wr_link w')))) stream (mkRx (NewReassembler mx mask) s []) = (None, x) /\
      rx_closed x = [reason] /\ handled_in_order before s (rx_d x).
Proof.
  intros Hw Hsent Hreason Ec Hka Hd Hcl Hpc Hs.
  split; [by apply writer_run_exit; left|].
  intros w' Hrun Hx.
  assert (Hq : wr_outQ w' = []).
  { apply (writer_stops rec_sink w ltac:(by left)); done. }
  assert (Hw' : rtc step start w').
  { etransitivity; [exact Hw|]. eapply rtc_subrel; [|exact Hrun]. intros ? ?. apply step_run. }
  assert (Et : wr_taken w' = before ++ IRaw c :: after).
  { rewrite <- Hsent. transitivity (wr_sent w').
    - destruct (session_writer w' Hw') as [Hi _].
      destruct (writer_wire bs a seeds mask cap w' ltac:(lia) mask_ok lanes_ok Hi) as (_ & _ & _ & _ & _ & _ & ->).
      by rewrite Hq, app_nil_r.
    - clear -Hrun. induction Hrun as [w|w w1 w2 Hr _ IH]; [done|]. by rewrite IH, (writer_run_sent _ _ _ Hr). }
  destruct (close_ends_reader w' s before c reason after Hw' Et Hreason Ec Hka Hs)
    as (stream & x & H1 & H2 & H3 & H4).
  exists stream, x. specialize (H4 []). rewrite app_nil_r in H4. done.
Qed.

(** ** The publications of a link *)

Lemma publications_lane opts ps : forall z ns, z_closed z = false -> Forall (publishable opts) ps ->
  ns.*2 = omap queued (publish_all zid opts ps z).1 ->
  Forall (fun no : NetworkMessage * OutboundMessage =>
    lane_key (om_Priority no.2) (om_Reliable no.2) = asked_lane opts) ns.
Proof.
  induction ps as [|[ke p] ps IH]; intros z ns Hz Hps E; [by apply fmap_nil_inv in E as ->|].
  apply Forall_cons in Hps as [Hp Hps].
  destruct (publish_all_cons zid opts ke p ps z Hz Hp) as (msg & prio & rel & ex & x & e & z1 & Hz1 & E1 & Hl & _).
  rewrite E1 in E. destruct ns as [|[n o] ns]; [done|]. injection E as -> E.
  constructor; [done|by eapply IH].
Qed.

Lemma publications_handled opts ps : forall z ns s s',
  z_closed z = false -> Forall (publishable opts) ps -> ns.*2 = omap queued (publish_all zid opts ps z).1 ->
  Forall (outgoing_ok mx) ns -> session_ok s -> subs_valid s ->
  handle_all zid ns.*1 s = Ok s' -> delivered_in_order opts ps s s'.
Proof.
  induction ps as [|[ke p] ps IH]; intros z ns s s' Hz Hps E Hns Hs Hv Hh.
  { apply fmap_nil_inv in E as ->. by injection Hh as <-. }
  apply Forall_cons in Hps as [Hp Hps].
  destruct (publish_all_cons zid opts ke p ps z Hz Hp)
    as (msg & prio & rel & ex & x & e & z1 & Hz1 & E1 & _ & Hx & Hwf & He & Hm).
  rewrite E1 in E. destruct ns as [|[n o] ns]; [done|]. injection E as -> E.
  apply Forall_cons in Hns as [(Hwn & Hen & _) Hns]. cbn in Hwn, Hen.
  assert (Hn : handle_net zid n s = Ok (dispatchPush ke x s)).
  { rewrite (proj2 (net_handled zid n e Hwn Hen) s Hs), <- Hm. symmetry.
    by apply (proj2 (net_handled zid msg e Hwf He)). }
  cbn [fmap list_fmap handle_all fst] in Hh. rewrite Hn in Hh.
  destruct (handle_net_ok zid msg s Hwf Hs) as (s1 & Es & Hs1). rewrite Hm in Es. injection Es as <-.
  exists x, (dispatchPush ke x s). split; [done|].
  split; [by apply dispatchPush_delivers; [|apply Hp]|by eapply (IH z1 ns)].
Qed.

(** When a single lane was used, the log is in the order of the queue. *)
Lemma one_lane_log k ns (log : list (LaneKey * NetworkMessage)) : valid_key k ->
  Forall (fun no => lane_key (om_Priority no.2) (om_Reliable no.2) = k) ns ->
  Forall (fun kn => valid_key kn.1) log ->
  (forall k', valid_key k' -> log_on k' log = outgoing_on k' ns) -> log.*2 = ns.*1.
Proof.
  intros Hk Hns Hv Hl.
  assert (Hk' : forall kn, kn ∈ log -> kn.1 = k).
  { intros [k' n] Hin. destruct (decide (k' = k)) as [|Hne]; [done|]. rewrite Forall_forall in Hv.
    specialize (Hl k' (Hv _ Hin)). assert (Hn : n ∈ log_on k' log).
    { unfold log_on. apply list_elem_of_fmap. exists (k', n). by rewrite list_elem_of_filter. }
    rewrite Hl in Hn. unfold outgoing_on in Hn. apply list_elem_of_fmap in Hn as (no & _ & Hno).
    apply list_elem_of_filter in Hno as [Hno Hin']. rewrite Forall_forall in Hns.
    by rewrite (Hns no Hin') in Hno. }
  transitivity (log_on k log).
  - unfold log_on. clear -Hk'. induction log as [|kn log IH]; [done|].
    rewrite filter_cons_True by (apply Hk'; by left). cbn. f_equal. apply IH. intros kn' H. apply Hk'. by right.
  - rewrite (Hl k Hk). unfold outgoing_on. clear -Hns. induction Hns as [|no ns H _ IH]; [done|].
    rewrite filter_cons_True by done. cbn. by f_equal.
Qed.

End Sessions.

(** ** A concrete link *)

Definition enqueue_items {W} (items : list OutboundItem) (s : @writer W) : @writer W :=
  fold_left (fun s i => writer_send i s) items s.

Lemma enqueue_items_run {W} (WB : bytes -> W -> option error * W) P cap items : forall s,
  Forall P items -> (length (wr_outQ s) + length items <= cap)%nat ->
  rtc (writer_step WB P cap) s (enqueue_items items s).
Proof.
  induction items as [|i items IH]; intros s Hp Hl; [done|]. apply Forall_cons in Hp as [Hi Hp].
  cbn [length] in Hl. eapply rtc_l; [apply (step_send _ _ _ i); [done|lia]|]. apply (IH (writer_send i s)); [done|].
  cbn. rewrite length_app. cbn. lia.
Qed.

Lemma keepalive_raws n items : raw_items items = replicate n [4] ->
  Forall (fun b => encodeKeepAlive = Ok b) (raw_items items).
Proof. intros ->. induction n; by constructor. Qed.

Definition sample_link_start : @writer (list bytes) :=
  start_writer (NewBatcherWithLaneSeeds 64 true (fun _ _ => 0) (2 ^ 28 - 1)) [].
Definition sample_link_items : list OutboundItem :=
  (INetwork <$> sample_traffic.*2) ++ [IRaw [4]].

(** A fragmented message among others, a KEEPALIVE, then a graceful stop. *)
Definition sample_link_exited : @writer (list bytes) :=
  let take := writer_take rec_sink in
  writer_default rec_sink (take (take (take (take
    (set_pc WDraining (writer_signal true false (enqueue_items sample_link_items sample_link_start))))))).

Lemma sample_traffic_queueable mx : 1000 <= mx -> Forall (queueable mx) (INetwork <$> sample_traffic.*2).
Proof.
  intros Hm. assert (H : Forall (outgoing_ok mx) sample_traffic).
  { eapply (Forall_impl (outgoing_ok 1000)); [by_eval|]. intros no (H1 & H2 & H3 & H4).
    split_and!; [done..|lia]. }
  apply Forall_fmap, Forall_fmap. eapply Forall_impl; [exact H|]. intros [n o] Ho. by exists n.
Qed.

Lemma sample_link_run :
  rtc (writer_step rec_sink (queueable 1000) 8) sample_link_start sample_link_exited.
Proof.
  etransitivity; [apply (enqueue_items_run _ _ _ sample_link_items)|].
  - apply Forall_app. split; [by apply sample_traffic_queueable|]. constructor; [by left|constructor].
  - cbn. lia.
  - eapply rtc_l; [apply step_signal|]. eapply rtc_subrel; [intros ? ?; apply step_run|].
    eapply rtc_l; [by apply run_drain|]. do 4 (eapply rtc_l; [by apply run_take|]).
    apply rtc_once, run_default; [by right|by vm_compute].
Qed.


(** The same traffic, the farewell of Close, and one more KEEPALIVE. *)
Definition sample_closing : @writer (list bytes) :=
  writer_signal true false
    (enqueue_items (sample_link_items ++ [IRaw [35; 0]; IRaw [4]]) sample_link_start).

Lemma sample_closing_run mx : 1000 <= mx ->
  rtc (writer_step rec_sink (queueable mx) 8) sample_link_start sample_closing.
Proof.
  intros Hm. eapply rtc_r; [apply (enqueue_items_run _ _ _ (sample_link_items ++ [IRaw [35; 0]; IRaw [4]]))|apply step_signal].
  - apply Forall_app. split; [apply Forall_app; split; [by apply sample_traffic_queueable|]|].
    + constructor; [by left|constructor].
    + constructor; [right; by exists 0|]. constructor; [by left|constructor].
  - cbn. lia.
Qed.


(** Two publications, a KEEPALIVE between them, and Close. *)
Definition sample_publications : list (KeyExpr * publication) :=
  [(sample_key, Put [42]); (sample_key, Delete)].
Definition sample_calls : list OutboundMessage :=
  omap queued (publish_all (mkZID [1]) None sample_publications sample_zs).1.
Definition sample_before : list OutboundItem :=
  (INetwork <$> take 1 sample_calls) ++ IRaw [4] :: (INetwork <$> drop 1 sample_calls).
Definition sample_put_close : @writer (list bytes) :=
  writer_signal true false (enqueue_items (sample_before ++ [IRaw [35; 0]]) sample_link_start).

Lemma sample_publishable : Forall (publishable None) sample_publications.
Proof.
  constructor; [split; [exact sample_wire_ke|by_eval]|].
  constructor; [split; [exact sample_wire_ke|by_eval]|constructor].
Qed.

Lemma sample_calls_outgoing : Forall (fun o => queueable 1000 (INetwork o)) sample_calls.
Proof.
  assert (Hz : z_closed sample_zs = false) by done. pose proof sample_publishable as Hp.
  assert (Hl : Forall (fun o => om_Priority o <= 7 /\ len (om_Encoded o) <= 1000) sample_calls).
  { assert (E : sample_calls = ltac:(let l := eval vm_compute in sample_calls in exact l)) by by vm_compute.
    rewrite E. by_eval. }
  revert Hz Hl. unfold sample_calls. generalize sample_zs.
  induction Hp as [|[ke p] ps Hp _ IH]; intros z Hz Hl; [constructor|].
  destruct (publish_all_cons (mkZID [1]) None ke p ps z Hz Hp)
    as (msg & prio & rel & ex & x & e & z1 & Hz1 & E1 & _ & _ & Hwf & He & _).
  rewrite E1 in Hl |- *. apply Forall_cons in Hl as [[Hprio Hlen] Hl].
  constructor; [by exists msg|by apply IH].
Qed.

Lemma sample_put_close_run :
  rtc (writer_step rec_sink (queueable 1000) 8) sample_link_start sample_put_close.
Proof.
  eapply rtc_r; [apply (enqueue_items_run _ _ _ (sample_before ++ [IRaw [35; 0]]))|apply step_signal]; [|by vm_compute; lia].
  pose proof sample_calls_outgoing as Hc. unfold sample_before.
  apply Forall_app. split; [|constructor; [right; by exists 0|constructor]].
  apply Forall_app. split; [by apply Forall_fmap, Forall_take|].
  constructor; [by left|by apply Forall_fmap, Forall_drop].
Qed.

