(* ===== verification/Cancel.v ===== *)
(** * src/zenoh/cancellation_token_unstable.go, and the contexts of get.go and session.go

    [context.Context] as the documentation of package context has it: a tree
    of contexts, each ended by its own cancel function or with its parent, and
    the functions that [context.AfterFunc] runs in a goroutine of their own
    once a context has ended.  On it: CancellationToken and WithCancellation,
    the merged context of a Get, the contexts of Close and of dials. *)
From S2P Require Import Prelude.

(** ** package context *)

(** A context is named by its number; 0 is [context.Background()]. *)
Record ctx_entry := mkCtx { cx_parent : option nat; cx_cancelled : bool }.

(** A registration of AfterFunc: [af_on] is watched, [af_target] is cancelled. *)
Inductive after_state := AfWaiting | AfStarted | AfStopped.
Record after_func := mkAfter { af_on : nat; af_target : nat; af_state : after_state }.

Record contexts := mkContexts { cx_entries : list ctx_entry; cx_after : list after_func }.

Definition no_contexts : contexts := mkContexts [mkCtx None false] [].

Definition WithCancel (parent : nat) (s : contexts) : nat * contexts :=
  (length (cx_entries s), mkContexts (cx_entries s ++ [mkCtx (Some parent) false]) (cx_after s)).

Definition cancel (c : nat) (s : contexts) : contexts :=
  mkContexts (alter (fun e => mkCtx (cx_parent e) true) c (cx_entries s)) (cx_after s).

(** [c.Err() != nil] *)
Fixpoint done_at (fuel : nat) (c : nat) (s : contexts) : bool :=
  match fuel with
  | O => false
  | S fuel =>
      match cx_entries s !! c with
      | None => false
      | Some e => cx_cancelled e || match cx_parent e with Some p => done_at fuel p s | None => false end
      end
  end.
Definition ctx_done (c : nat) (s : contexts) : bool := done_at (S c) c s.

Definition AfterFunc (on target : nat) (s : contexts) : nat * contexts :=
  (length (cx_after s), mkContexts (cx_entries s) (cx_after s ++ [mkAfter on target AfWaiting])).

(** The function [AfterFunc] returns. *)
Definition stop_after (i : nat) (s : contexts) : contexts :=
  mkContexts (cx_entries s)
    (alter (fun f => match af_state f with AfWaiting => mkAfter (af_on f) (af_target f) AfStopped | _ => f end) i
       (cx_after s)).

(** The goroutine of a registration. *)
Definition run_after (i : nat) (s : contexts) : option contexts :=
  f ← cx_after s !! i;
  match af_state f with
  | AfWaiting =>
      if ctx_done (af_on f) s
      then Some (cancel (af_target f)
             (mkContexts (cx_entries s) (<[i := mkAfter (af_on f) (af_target f) AfStarted]> (cx_after s))))
      else None
  | _ => None
  end.

(** What anybody may do. *)
Inductive ctx_action :=
  | XWithCancel (parent : nat) | XCancel (c : nat) | XAfterFunc (on target : nat) | XStop (i : nat) | XRun (i : nat).

Definition ctx_act (x : ctx_action) (s : contexts) : option contexts :=
  match x with
  | XWithCancel p => if (p <? length (cx_entries s))%nat then Some (WithCancel p s).2 else None
  | XCancel c => Some (cancel c s)
  | XAfterFunc on t => Some (AfterFunc on t s).2
  | XStop i => Some (stop_after i s)
  | XRun i => run_after i s
  end.

Fixpoint ctx_run (acts : list ctx_action) (s : contexts) : option contexts :=
  match acts with
  | [] => Some s
  | x :: acts => ctx_act x s ≫= ctx_run acts
  end.

(** ** get.go, session.go *)

(** The merged context and the registration on [b]. *)
Definition mergeCancelContexts (a b : nat) (s : contexts) : nat * nat * contexts :=
  let '(merged, s) := WithCancel a s in
  let '(i, s) := AfterFunc b merged s in (merged, i, s).
(** The function it returns. *)
Definition stop_merge (merged i : nat) (s : contexts) : contexts := cancel merged (stop_after i s).

(** The context of a Get: that of the caller, merged with [opts.cancelCtx]. *)
Definition get_context (ctx : nat) (cancelCtx : option nat) (s : contexts) : nat * contexts :=
  match cancelCtx with
  | None => (ctx, s)
  | Some b => let '(merged, _, s) := mergeCancelContexts ctx b s in (merged, s)
  end.

(** The context that is ended by Close: made by the first call, and cancelled
    by a goroutine that waits for [userCloseCh]. *)
Definition userCloseCtx (userCtx : option nat) (s : contexts) : nat * option nat * contexts :=
  match userCtx with
  | Some c => (c, userCtx, s)
  | None => let '(c, s) := WithCancel 0 s in (c, Some c, s)
  end.

(** The context of a dial; its timeout is a call of its cancel function. *)
Definition dialContext (userCtx : option nat) (s : contexts) : nat * nat * option nat * contexts :=
  let '(ctx, s) := WithCancel 0 s in
  let '(user, userCtx, s) := userCloseCtx userCtx s in
  let '(i, s) := AfterFunc user ctx s in (ctx, i, userCtx, s).

(** ** CancellationToken *)

(** [once] with [ctx]: the zero value is [None]. *)
Definition CancellationToken := option nat.
Definition NewCancellationToken : CancellationToken := None.

(** [parent]: [None] for nil. *)
Definition CancellationToken_Context (parent : option nat) (t : CancellationToken) (s : contexts) :
    nat * CancellationToken * contexts :=
  match t with
  | Some c => (c, t, s)
  | None => let '(c, s) := WithCancel (default 0%nat parent) s in (c, Some c, s)
  end.

Definition CancellationToken_Cancel (t : CancellationToken) (s : contexts) : CancellationToken * contexts :=
  let '(c, t, s) := CancellationToken_Context None t s in (t, cancel c s).

Definition CancellationToken_IsCancelled (t : CancellationToken) (s : contexts) : bool * CancellationToken * contexts :=
  let '(c, t, s) := CancellationToken_Context None t s in (ctx_done c s, t, s).

(** [o.cancelCtx] after the call. *)
Definition WithCancellation (t : CancellationToken) (s : contexts) : option nat * CancellationToken * contexts :=
  let '(c, t, s) := CancellationToken_Context None t s in (Some c, t, s).

(** ** A tree *)

Definition contexts_ok (s : contexts) : Prop :=
  forall c e p, cx_entries s !! c = Some e -> cx_parent e = Some p -> (p < c)%nat.

Lemma done_at_fuel s : contexts_ok s -> forall n m c, (c < n)%nat -> (c < m)%nat -> done_at n c s = done_at m c s.
Proof.
  intros Hs. induction n as [|n IH]; intros m c Hn Hm; [lia|]. destruct m as [|m]; [lia|]. cbn.
  destruct (cx_entries s !! c) as [e|] eqn:E; [|done]. destruct (cx_parent e) as [p|] eqn:Ep; [|done].
  specialize (Hs c e p E Ep). by rewrite (IH m p) by lia.
Qed.

(** A context has ended when it was cancelled or its parent has ended. *)
Lemma ctx_done_spec s c e : contexts_ok s -> cx_entries s !! c = Some e ->
  ctx_done c s = cx_cancelled e || match cx_parent e with Some p => ctx_done p s | None => false end.
Proof.
  intros Hs E. unfold ctx_done at 1. cbn [done_at]. rewrite E. destruct (cx_parent e) as [p|] eqn:Ep; [|done].
  f_equal. apply done_at_fuel; [done|by eapply Hs|lia].
Qed.

(** [s'] is a later store: entries stay, cancelled ones stay so. *)
Definition ctx_later (s s' : contexts) : Prop :=
  forall c e, cx_entries s !! c = Some e ->
    exists e', cx_entries s' !! c = Some e' /\ cx_parent e' = cx_parent e /\
      (cx_cancelled e = true -> cx_cancelled e' = true).

Lemma ctx_later_done s s' n c : ctx_later s s' -> done_at n c s = true -> done_at n c s' = true.
Proof.
  intros Hl. revert c. induction n as [|n IH]; intros c; [done|]. cbn.
  destruct (cx_entries s !! c) as [e|] eqn:E; [|done]. destruct (Hl c e E) as (e' & -> & -> & Hc).
  intros [H|H]%orb_true_iff; apply orb_true_iff; [left; auto|right]. destruct (cx_parent e); [auto|done].
Qed.

Lemma ctx_later_refl s : ctx_later s s.
Proof. intros c e E. eauto. Qed.
Lemma ctx_later_entries s s' : cx_entries s' = cx_entries s -> ctx_later s s'.
Proof. intros E c e. rewrite E. eauto. Qed.

Lemma cancel_keeps c s : ctx_later s (cancel c s).
Proof.
  intros d e E. cbn. destruct (decide (d = c)) as [->|Hd].
  - rewrite list_lookup_alter_eq, E. eexists. split; [done|]. done.
  - rewrite list_lookup_alter_ne by done. eauto.
Qed.

Lemma WithCancel_keeps p s : ctx_later s (WithCancel p s).2.
Proof. intros c e E. exists e. cbn. by rewrite (lookup_app_l_Some _ _ _ _ E). Qed.

Lemma ctx_later_trans s s1 s2 : ctx_later s s1 -> ctx_later s1 s2 -> ctx_later s s2.
Proof. intros H1 H2 c e (e1 & E1 & P1 & C1)%H1. destruct (H2 c e1 E1) as (e2 & ? & ? & ?). exists e2. naive_solver congruence. Qed.

Lemma run_after_spec i s s' : run_after i s = Some s' -> exists f, cx_after s !! i = Some f /\
  af_state f = AfWaiting /\ ctx_done (af_on f) s = true /\
  s' = cancel (af_target f) (mkContexts (cx_entries s) (<[i := mkAfter (af_on f) (af_target f) AfStarted]> (cx_after s))).
Proof.
  unfold run_after. destruct (cx_after s !! i) as [f|]; [|done]. cbn [mbind option_bind].
  destruct (af_state f) eqn:Ef; [|done..]. destruct (ctx_done _ s) eqn:Ed; [|done]. intros [= <-]. eauto.
Qed.

Lemma ctx_act_keeps x s s' : ctx_act x s = Some s' -> ctx_later s s'.
Proof.
  destruct x as [p|c|on t|i|i]; cbn [ctx_act].
  - case_match; [|done]. intros [= <-]. apply WithCancel_keeps.
  - intros [= <-]. apply cancel_keeps.
  - intros [= <-]. by apply ctx_later_entries.
  - intros [= <-]. by apply ctx_later_entries.
  - intros (f & _ & _ & _ & ->)%run_after_spec. eapply ctx_later_trans; [|apply cancel_keeps]. by apply ctx_later_entries.
Qed.

Lemma cancel_ok c s : contexts_ok s -> contexts_ok (cancel c s).
Proof.
  intros Hs d e p E Ep. cbn in E. destruct (decide (d = c)) as [->|Hd].
  - rewrite list_lookup_alter_eq in E. destruct (cx_entries s !! c) as [e1|] eqn:E1; [|done].
    injection E as <-. by apply (Hs c e1).
  - rewrite list_lookup_alter_ne in E by done. by apply (Hs d e).
Qed.

Lemma WithCancel_ok p s : (p < length (cx_entries s))%nat -> contexts_ok s -> contexts_ok (WithCancel p s).2.
Proof.
  intros Hp Hs d e q E Eq. cbn in E. apply lookup_app_Some in E as [E|[Hd E]]; [by apply (Hs d e)|].
  apply list_lookup_singleton_Some in E as [Hz <-]. injection Eq as <-. lia.
Qed.

Lemma ctx_act_ok x s s' : contexts_ok s -> ctx_act x s = Some s' -> contexts_ok s'.
Proof.
  intros Hs. destruct x as [p|c|on t|i|i]; cbn [ctx_act].
  - destruct (Nat.ltb_spec p (length (cx_entries s))); [|done]. intros [= <-]. by apply WithCancel_ok.
  - intros [= <-]. by apply cancel_ok.
  - by intros [= <-].
  - by intros [= <-].
  - intros (f & _ & _ & _ & ->)%run_after_spec. by apply cancel_ok.
Qed.

(** Nobody but the registration [i] and the parent can end [m]: its cancel
    function and the one that stops [i] are not called. *)
Definition untouched (m i : nat) (x : ctx_action) : Prop :=
  match x with XCancel c => c <> m | XAfterFunc _ t => t <> m | XStop j => j <> i | _ => True end.

Record merged_ok (a b m i : nat) (s : contexts) : Prop := {
  mo_ok : contexts_ok s;
  mo_state : exists cancelled, cx_entries s !! m = Some (mkCtx (Some a) cancelled) /\
    cx_after s !! i = Some (mkAfter b m (if cancelled : bool then AfStarted else AfWaiting)) /\
    (cancelled = true -> ctx_done b s = true);
  mo_others : forall j f, cx_after s !! j = Some f -> j <> i -> af_target f <> m }.

Lemma merge_ok a b s m i s' : contexts_ok s -> (a < length (cx_entries s))%nat ->
  (forall f, f ∈ cx_after s -> (af_target f < length (cx_entries s))%nat) ->
  mergeCancelContexts a b s = (m, i, s') -> merged_ok a b m i s'.
Proof.
  intros Hs Ha Hf [= <- <- <-]. split.
  - by apply WithCancel_ok.
  - exists false. cbn. split_and!; [by rewrite list_lookup_middle..|done].
  - cbn. intros j f E Hj. apply lookup_app_Some in E as [E|[Hd E]].
    + apply list_elem_of_lookup_2, Hf in E. lia.
    + apply list_lookup_singleton_Some in E as [Hz _]. lia.
Qed.

Lemma merged_act a b m i x s s' : merged_ok a b m i s -> untouched m i x -> ctx_act x s = Some s' -> merged_ok a b m i s'.
Proof.
  intros [Hs (k & Em & Ei & Hk) Ho] Hu Hx. pose proof (ctx_act_ok _ _ _ Hs Hx) as Hs'.
  pose proof (ctx_act_keeps _ _ _ Hx) as Hl.
  assert (Hb : k = true -> ctx_done b s' = true) by (intros H%Hk; by eapply ctx_later_done).
  destruct x as [p|c|on t|j|j]; cbn [ctx_act untouched] in *.
  - destruct (p <? _)%nat; [|done]. injection Hx as <-. split; [done| |done]. exists k.
    cbn. by rewrite (lookup_app_l_Some _ _ _ _ Em).
  - injection Hx as <-. split; [done| |done]. exists k. cbn. by rewrite list_lookup_alter_ne.
  - injection Hx as <-. split; [done| |].
    + exists k. cbn. by rewrite (lookup_app_l_Some _ _ _ _ Ei).
    + cbn. intros j f [E|[_ [_ <-]%list_lookup_singleton_Some]]%lookup_app_Some Hj; [by eapply Ho|done].
  - injection Hx as <-. split; [done| |].
    + exists k. cbn. by rewrite list_lookup_alter_ne.
    + cbn. intros h f E Hh. destruct (decide (h = j)) as [->|Hhj]; [|rewrite list_lookup_alter_ne in E by done; by eapply Ho].
      rewrite list_lookup_alter_eq in E. destruct (cx_after s !! j) as [g|] eqn:Eg; [|done]. injection E as <-.
      specialize (Ho j g Eg Hh). by destruct (af_state g).
  - apply run_after_spec in Hx as (f & Ef & Hw & Hd & ->).
    assert (Ho' : forall h g, <[j := mkAfter (af_on f) (af_target f) AfStarted]> (cx_after s) !! h = Some g -> h <> i ->
      af_target g <> m).
    { intros h g E Hh. destruct (decide (h = j)) as [->|Hhj]; [|rewrite list_lookup_insert_ne in E by done; by eapply Ho].
      rewrite list_lookup_insert_eq in E by (by eapply lookup_lt_Some). injection E as <-. by apply (Ho j f). }
    split; [done| |done]. cbn [cancel cx_entries cx_after]. destruct (decide (j = i)) as [->|Hj].
    + rewrite Ei in Ef. injection Ef as <-. cbn [af_on af_target af_state] in *. destruct k; [done|]. exists true.
      rewrite list_lookup_alter_eq, Em, list_lookup_insert_eq by (by eapply lookup_lt_Some). cbn.
      split; [done|]. split; [done|]. intros _. exact (ctx_later_done _ _ _ _ Hl Hd).
    + exists k. rewrite list_lookup_insert_ne by done.
      rewrite list_lookup_alter_ne; [done|]. exact (Ho j f Ef Hj).
Qed.

Lemma merged_run a b m i acts : forall s s', merged_ok a b m i s -> Forall (untouched m i) acts ->
  ctx_run acts s = Some s' -> merged_ok a b m i s'.
Proof.
  induction acts as [|x acts IH]; intros s s' Hs Hu; cbn [ctx_run]; [by intros [= <-]|].
  apply Forall_cons in Hu as [Hx Hu]. destruct (ctx_act x s) as [s1|] eqn:E; [|done].
  apply IH; [by eapply merged_act|done].
Qed.

(** Whatever is done with other contexts, the context of a Get that was given
    a token ends only when the caller's or the token's has ended; it has ended
    as soon as the caller's has, and one step of a goroutine after the
    token's. *)
Lemma merged_context a b s m i s0 acts s1 : contexts_ok s -> (a < length (cx_entries s))%nat ->
  (forall f, f ∈ cx_after s -> (af_target f < length (cx_entries s))%nat) ->
  mergeCancelContexts a b s = (m, i, s0) -> Forall (untouched m i) acts -> ctx_run acts s0 = Some s1 ->
  (ctx_done m s1 = true -> ctx_done a s1 = true \/ ctx_done b s1 = true) /\
  (ctx_done a s1 = true -> ctx_done m s1 = true) /\
  (ctx_done b s1 = true -> ctx_done m s1 = true \/ exists s2, run_after i s1 = Some s2 /\ ctx_done m s2 = true).
Proof.
  intros Hs Ha Hf Hm Hu Hr.
  pose proof (merged_run _ _ _ _ _ _ _ (merge_ok _ _ _ _ _ _ Hs Ha Hf Hm) Hu Hr) as [Ho (k & Em & Ei & Hk) _].
  pose proof (ctx_done_spec s1 m _ Ho Em) as Hd. cbn [cx_cancelled cx_parent] in Hd. rewrite Hd. split_and!.
  - intros [->|H]%orb_true_iff; auto.
  - intros ->. apply orb_true_r.
  - intros Hb. destruct k; [by left|]. right. unfold run_after. rewrite Ei. cbn [mbind option_bind af_state af_on].
    rewrite Hb. eexists. split; [done|]. unfold ctx_done. cbn [done_at cancel cx_entries af_target].
    by rewrite list_lookup_alter_eq, Em.
Qed.

(** A token whose first use gave it a parent that ends is cancelled although
    nobody called Cancel. *)
Lemma cancelled_by_parent : exists p t s1 c s2,
  WithCancel 0 no_contexts = (p, s1) /\ CancellationToken_Context (Some p) NewCancellationToken s1 = (c, t, s2) /\
  (CancellationToken_IsCancelled t s2).1.1 = false /\ (CancellationToken_IsCancelled t (cancel p s2)).1.1 = true.
Proof. do 5 eexists. split; [done|]. split; [done|]. by vm_compute. Qed.

(** The context of a Get with a token that was cancelled before has not ended
    when the Get goes on to send its REQUEST. *)
Lemma cancelled_token_not_seen : exists t s1 s2 b s3 m s4,
  WithCancellation NewCancellationToken no_contexts = (Some b, t, s1) /\
  CancellationToken_Cancel t s1 = (t, s2) /\ (CancellationToken_IsCancelled t s2).1.1 = true /\
  WithCancel 0 s2 = (2%nat, s3) /\ get_context 2 (Some b) s3 = (m, s4) /\ ctx_done m s4 = false.
Proof. do 7 eexists. do 2 (split; [done|]). split; [by vm_compute|]. do 2 (split; [done|]). by vm_compute. Qed.

(** Cancel before the first use ends every context the token gives later. *)
Lemma cancel_first parent s : contexts_ok s ->
  let '(t, s1) := CancellationToken_Cancel NewCancellationToken s in
  let '(c, t, s2) := CancellationToken_Context parent t s1 in ctx_done c s2 = true.
Proof.
  intros Hs. cbn. unfold ctx_done. cbn [done_at cancel cx_entries].
  by rewrite list_lookup_alter_eq, list_lookup_middle.
Qed.
