(* ===== verification/SessionApi.v ===== *)
(** * src/zenoh/session.go, linkinfo.go, error.go, common.go: what a session says of itself

    The checks of Open and what it makes of the user's retry settings, the
    roles and links a session reports, and the public errors.  The dials and
    goroutines of Open are the subject of [Reconnecting] and [PeerMode]; the
    random ZenohID is a parameter. *)
From Stdlib Require Import SpecFloat.
From stdpp Require Import pretty.
From S2P Require Import Prelude WirePrim KeyExpr Json5 Reconnect WireTransport Transport Dispatch Messages.
From S2P Require Import Config Locator Handshake Scouting PeerLink.
From S2P Require Multicast.

(** ** Open *)

Definition sessionModeToWire (m : SessionMode) : Z :=
  match m with
  | ModePeer => Config.WhatAmIPeer | ModeRouter => Config.WhatAmIRouter | ModeClient | ModeOther _ => Config.WhatAmIClient
  end.

Definition resolveZID (generate : ZenohID) (hexStr : bytes) : result ZenohID :=
  if is_nil hexStr then Ok generate else NewIdFromHex hexStr.

(** Durations are nanoseconds; [float64] comparison with 0. *)
Definition reconnectConfigFromUser (cfg : Config) : Retry.ReconnectConfig :=
  let c := Retry.DefaultReconnectConfig in
  Retry.mkReconnectConfig
    (if 0 <? ReconnectInitial cfg then uint64 (Z.quot (ReconnectInitial cfg) Retry.Millisecond) else Retry.rc_InitialMs c)
    (if 0 <? ReconnectMax cfg then uint64 (Z.quot (ReconnectMax cfg) Retry.Millisecond) else Retry.rc_MaxMs c)
    (if SFltb (S754_zero false) (ReconnectFactor cfg) then ReconnectFactor cfg else Retry.rc_IncreaseFactor c)
    (Retry.rc_ExitOnFailure c).

(** What Open settles before it dials or listens: its ZenohID, the retry
    configuration, and whether several runtimes may run. *)
Definition Open_settings (generate : ZenohID) (cfg : Config) : result (ZenohID * Retry.ReconnectConfig * bool) :=
  match Mode cfg, Endpoints cfg, ListenEndpoints cfg with
  | ModeRouter, _, _ => Err (ErrMsg "zenoh.Open: router mode is not yet implemented")
  | ModeClient, [], _ => Err (ErrMsg "zenoh.Open: Config.Endpoints is empty")
  | ModePeer, [], [] => Err (ErrMsg "zenoh.Open: peer mode requires connect or listen endpoints")
  | m, _, _ =>
      zid ← resolveZID generate (cfg_ZID cfg);
      Ok (zid, reconnectConfigFromUser cfg, match m with ModePeer => true | _ => false end)
  end.

(** The role a session announces is the one its configuration writes. *)
Lemma sessionModeToWire_spec m : sessionModeToWire m = AsWhatAmI m /\ 0 <= sessionModeToWire m <= 2.
Proof. destruct m; cbn; split; done || lia. Qed.

(** A session that Open goes on with has a valid ZenohID, and something to
    dial, or to listen on. *)
Lemma Open_settings_ok generate cfg zid rc multi : wf_zid generate ->
  Open_settings generate cfg = Ok (zid, rc, multi) ->
  wf_zid zid /\ (cfg_ZID cfg = [] -> zid = generate) /\ rc = reconnectConfigFromUser cfg /\
  Mode cfg <> ModeRouter /\ (multi = true <-> Mode cfg = ModePeer) /\
  (Mode cfg = ModeClient -> Endpoints cfg <> []) /\
  (Mode cfg = ModePeer -> Endpoints cfg ++ ListenEndpoints cfg <> []).
Proof.
  intros Hg. unfold Open_settings.
  assert (Hz : forall z, resolveZID generate (cfg_ZID cfg) = Ok z -> wf_zid z /\ (cfg_ZID cfg = [] -> z = generate)).
  { unfold resolveZID. intros z. destruct (cfg_ZID cfg) as [|x l]; [by intros [= <-]|]. cbn [is_nil].
    unfold NewIdFromHex. destruct (hex_DecodeString (x :: l)) as [b|e]; [|done]. unfold NewIdFromBytes.
    destruct (_ || _) eqn:E; [done|]. intros [= <-]. apply orb_false_iff in E as [E1 E2].
    apply Z.eqb_neq in E1. rewrite Z.gtb_ltb in E2. apply Z.ltb_ge in E2. split; [|done].
    unfold wf_zid, Codec.len in *. cbn. lia. }
  destruct (Mode cfg) eqn:Em, (Endpoints cfg), (ListenEndpoints cfg); try done;
    (destruct (resolveZID generate (cfg_ZID cfg)) as [z|e] eqn:Ez; [|done]); cbn; intros [= <- <- <-];
    destruct (Hz z eq_refl) as [H1 H2]; by split_and!.
Qed.

(** *** Random numbers

    The bytes of [crypto/rand.Read], and the [k]-th draw of [rand.Uint64N]. *)
Definition GenerateZID (random : list Z) : ZenohID := mkZID (take 16 random).

Section Draws.
Context (Uint64N : nat -> Z -> Z).

Definition GenerateMulticastInitialSNs (res : Z) : LaneSNs :=
  let n := uint64 (Resolution_Mask res FieldFrameSN + 1) in
  mkLaneSNs ((fun i => Uint64N (2 * i)%nat n) <$> seq 0 8) ((fun i => Uint64N (2 * i + 1)%nat n) <$> seq 0 8).

(** Every lane starts at a number of the resolution, so that the JOIN can
    carry it. *)
Lemma initial_sns_in_mask res : (forall k n, 0 < n -> 0 <= Uint64N k n < n) ->
  let sns := GenerateMulticastInitialSNs res in
  wf_lane_sns 8 sns /\
  Forall (fun sn => 0 <= sn <= Resolution_Mask res FieldFrameSN) (lsReliable sns ++ lsBestEffort sns).
Proof.
  intros Hr. cbn zeta. unfold GenerateMulticastInitialSNs. rewrite Resolution_Mask_Bits.
  assert (Hb : 0 < 2 ^ Resolution_Bits res FieldFrameSN <= 2 ^ 63).
  { unfold Resolution_Bits. cbn zeta. repeat case_match; lia. }
  unfold uint64. rewrite Z.sub_add, Z.mod_small by lia.
  set (n := 2 ^ Resolution_Bits res FieldFrameSN) in *.
  assert (H : forall f : nat -> nat, Forall (fun sn => 0 <= sn <= n - 1) ((fun i => Uint64N (f i) n) <$> seq 0 8)).
  { intros f. apply Forall_fmap, Forall_true. intros i. cbn. specialize (Hr (f i) n). lia. }
  assert (H' : forall f : nat -> nat, Forall (fun sn => 0 <= sn < 2 ^ 64) ((fun i => Uint64N (f i) n) <$> seq 0 8)).
  { intros f. eapply Forall_impl; [apply H|]. cbn. lia. }
  split; [|apply Forall_app_2; [apply (H (fun i => 2 * i)%nat)|apply (H (fun i => 2 * i + 1)%nat)]].
  unfold wf_lane_sns. cbn [lsReliable lsBestEffort]. split_and!; [done..|apply (H' (fun i => 2 * i)%nat)|apply (H' (fun i => 2 * i + 1)%nat)].
Qed.
End Draws.

Lemma GenerateZID_wf random : (16 <= length random)%nat -> wf_zid (GenerateZID random).
Proof. intros H. unfold wf_zid, GenerateZID, Codec.len. cbn. rewrite length_take. lia. Qed.

Lemma ms_duration_quot d : Retry.Millisecond <= d < 2 ^ 63 ->
  0 < Retry.ms_duration (uint64 (Z.quot d Retry.Millisecond)).
Proof.
  unfold Retry.Millisecond. intros Hd. unfold Retry.ms_duration, uint64, Retry.Millisecond.
  rewrite Z.quot_div_nonneg by lia.
  assert (1 <= d / 1000000) by (apply Z.div_le_lower_bound; lia).
  assert (d / 1000000 * 1000000 <= d) by (rewrite Z.mul_comm; apply Z.mul_div_le; lia).
  rewrite Z.mod_small, !int64_small by (rewrite ?int64_small; lia). lia.
Qed.

(** Retry settings of at least a millisecond give waits that are never 0. *)
Lemma retry_waits_positive outside n cfg :
  (ReconnectInitial cfg <= 0 \/ Retry.Millisecond <= ReconnectInitial cfg < 2 ^ 63) ->
  (ReconnectMax cfg <= 0 \/ Retry.Millisecond <= ReconnectMax cfg < 2 ^ 63) ->
  Forall (fun d => 0 < d) (Retry.waits outside n (Retry.NewBackoff (reconnectConfigFromUser cfg))).
Proof.
  intros Hi Hm. set (rc := reconnectConfigFromUser cfg).
  assert (H : forall d def, d <= 0 \/ Retry.Millisecond <= d < 2 ^ 63 -> 0 < Retry.ms_duration def ->
    0 < Retry.ms_duration (if 0 <? d then uint64 (Z.quot d Retry.Millisecond) else def)).
  { intros d def Hd Hdef. destruct (Z.ltb_spec 0 d); [|done]. apply ms_duration_quot. lia. }
  pose proof (H _ _ Hi (eq_refl : 0 < Retry.ms_duration 1000)) as H1.
  pose proof (H _ _ Hm (eq_refl : 0 < Retry.ms_duration 4000)) as H2.
  destruct n as [|n]; [constructor|].
  destruct (Retry.Backoff_bounded outside n rc (Retry.NewBackoff rc) H2 eq_refl) as (-> & H3 & _).
  constructor; [exact H1|]. eapply Forall_impl; [exact H3|]. by intros x [].
Qed.

(** A maximum below a millisecond becomes 0, and every wait after the first
    is 0: the loop dials without a pause. *)
Lemma tiny_max_spins outside n cfg : 0 < ReconnectMax cfg < Retry.Millisecond ->
  Forall (fun d => d = 0) (tail (Retry.waits outside n (Retry.NewBackoff (reconnectConfigFromUser cfg)))).
Proof.
  intros Hm.
  assert (Hmax : Retry.bo_maxDur (Retry.NewBackoff (reconnectConfigFromUser cfg)) = 0).
  { unfold Retry.NewBackoff, reconnectConfigFromUser. cbn. rewrite (proj2 (Z.ltb_lt _ _)) by lia.
    by rewrite Z.quot_small by (unfold Retry.Millisecond in *; lia). }
  assert (H0 : forall n b, Retry.bo_maxDur b = 0 -> Retry.bo_current b = 0 -> Forall (fun d => d = 0) (Retry.waits outside n b)).
  { clear. induction n as [|n IH]; intros b Hb Hc; [constructor|]. cbn. constructor; [done|]. apply IH; [done|].
    cbn. rewrite Hb. destruct (_ <=? 0) eqn:E; [done|]. apply Z.leb_gt in E. by rewrite (proj2 (Z.ltb_lt 0 _) E). }
  destruct n as [|n]; [constructor|]. cbn [Retry.waits]. cbn [Retry.Backoff_Next tail]. apply H0; [done|].
  cbn [Retry.bo_current]. rewrite Hmax. destruct (_ <=? 0) eqn:E; [done|]. apply Z.leb_gt in E.
  by rewrite (proj2 (Z.ltb_lt 0 _) E).
Qed.

(** ** linkinfo.go, session.go: what is connected *)

(** What a Runtime knows of its link. *)
Record runtime_link := mkRuntimeLink { rl_Result : HandshakeResult; rl_local : bytes; rl_remote : Locator }.

Record LinkInfo := mkLinkInfo {
  li_Scheme : bytes; li_LocalAddress : bytes; li_RemoteAddress : bytes; li_RemoteLocator : bytes;
  li_PeerZID : ZenohID; li_PeerWhatAmI : Z; li_BatchSize : Z; li_Resolution : Z;
  li_LocalLeaseMillis : Z; li_PeerLeaseMillis : Z; li_QoSEnabled : bool }.

Section Connected.
(** The runtimes of the node, by name. *)
Context (links : nat -> runtime_link).

Definition link_info (l : runtime_link) : LinkInfo :=
  let r := rl_Result l in
  mkLinkInfo (Scheme_String (loc_Scheme (rl_remote l))) (rl_local l) (loc_Address (rl_remote l))
    (Locator_String (rl_remote l)) (hrPeerZID r) (hrPeerWhatAmI r) (hrBatchSize r) (hrResolution r)
    (hrMyLease r) (hrPeerLease r) (hrQoSEnabled r).

Definition Session_LinkInfo (n : node) : option LinkInfo :=
  if n_closed n then None else (fun rt => link_info (links rt)) <$> n_curRuntime n.

(** The walk takes one order of the registry. *)
Definition peerIDsByRole (role : Z) (n : node) : list ZenohID :=
  omap (fun '(_, rt) => let r := rl_Result (links rt) in
      if hrPeerWhatAmI r =? role then Some (hrPeerZID r) else None) (map_to_list (n_runtimes n)).
Definition PeersZId : node -> list ZenohID := peerIDsByRole Config.WhatAmIPeer.
Definition RoutersZId : node -> list ZenohID := peerIDsByRole Config.WhatAmIRouter.

(** The multicast runtimes of the session, by their peer tables. *)
Definition MulticastPeers (tables : list Multicast.MulticastPeerTable) : list ZenohID :=
  t ← tables; Multicast.pe_ZID <$> Multicast.Snapshot t.

(** A peer is listed under its role exactly while a runtime to it is
    registered. *)
Lemma peerIDsByRole_spec role n id : id ∈ peerIDsByRole role n <->
  exists z rt, n_runtimes n !! z = Some rt /\ hrPeerZID (rl_Result (links rt)) = id /\
    hrPeerWhatAmI (rl_Result (links rt)) = role.
Proof.
  unfold peerIDsByRole. rewrite list_elem_of_omap. split.
  - intros ([z rt] & Hin%elem_of_map_to_list & H). destruct (_ =? role) eqn:E; [|done]. injection H as <-.
    apply Z.eqb_eq in E. eauto.
  - intros (z & rt & Hz & <- & <-). exists (z, rt). split; [by apply elem_of_map_to_list|]. by rewrite Z.eqb_refl.
Qed.

(** *** One runtime at a time: a client *)

Definition installRuntime (peerZID : bytes) (rt : nat) (n : node) : node :=
  mkNode (<[peerZID := rt]> (n_runtimes n)) (Some rt) ({[rt]} ∪ n_watching n) (n_closed n).

(** What the reconnect loop does to the node: a runtime is installed when none
    is, and uninstalled when it has ended. *)
Inductive client_step : node -> node -> Prop :=
  | client_install z rt n : n_runtimes n = ∅ -> client_step n (installRuntime z rt n)
  | client_uninstall z rt n : n_runtimes n !! z = Some rt -> client_step n (uninstallRuntime z rt n).

(** [curRuntime] mirrors the one entry of the registry, so that LinkInfo is
    nil exactly when no runtime is registered. *)
Lemma client_link_info n : rtc client_step NewNode n ->
  match n_curRuntime n with
  | Some rt => exists z, n_runtimes n = {[z := rt]}
  | None => n_runtimes n = ∅
  end.
Proof.
  apply (rtc_ind_r (fun n => match n_curRuntime n with
    | Some rt => exists z, n_runtimes n = {[z := rt]} | None => n_runtimes n = ∅ end)); [done|].
  clear n. intros n1 n2 _ [z rt n Hn|z rt n Hz] IH.
  - cbn. exists z. by rewrite Hn.
  - destruct (n_curRuntime n) as [cur|] eqn:Ec; [|by rewrite IH, lookup_empty in Hz].
    destruct IH as [z' Hm]. rewrite Hm in Hz. apply lookup_singleton_Some in Hz as [-> ->].
    unfold uninstallRuntime. cbn. rewrite Ec, bool_decide_eq_true_2 by done.
    rewrite Hm, lookup_singleton_eq, bool_decide_eq_true_2 by done. apply delete_singleton_eq.
Qed.
End Connected.

(** A peer with two links that loses the one installed last reports no link,
    and goes on reporting the other peer. *)
Lemma peer_link_forgotten links z1 z2 : z1 <> z2 ->
  let '(_, n, _) := startRuntimeForPeer [] z1 1 true NewNode in
  let '(_, n, _) := startRuntimeForPeer [] z2 2 true n in
  let n := uninstallRuntime z2 2 n in
  n_closed n = false /\ Session_LinkInfo links n = None /\ n_runtimes n !! z1 = Some 1%nat.
Proof.
  intros Hz. unfold startRuntimeForPeer, NewNode. cbn [n_runtimes n_closed n_watching]. rewrite lookup_empty.
  cbn [n_runtimes n_closed n_watching]. rewrite lookup_insert_ne, lookup_empty by done.
  unfold uninstallRuntime, Session_LinkInfo. cbn [n_runtimes n_closed n_watching n_curRuntime].
  rewrite lookup_insert_eq, !bool_decide_eq_true_2 by done. split; [done|]. split; [done|].
  by rewrite lookup_delete_ne, lookup_insert_ne, lookup_insert_eq by done.
Qed.

(** ** error.go *)

Record ZError := mkZError { ze_Code : Z; ze_Msg : string }.

Definition ZError_Is (e t : ZError) : bool := ze_Code e =? ze_Code t.

Definition ErrNotImplemented : ZError := mkZError (-1) "not implemented".
Definition ErrAlreadyDropped : ZError := mkZError (-2) "entity already dropped".
Definition ErrConnectionLost : ZError := mkZError (-3) "connection lost".
Definition ErrPayloadTooLarge : ZError := mkZError (-4) "payload too large".
Definition ErrAllEndpointsFailed : ZError := mkZError (-5) "all endpoints failed".
Definition ErrSessionClosed : ZError := mkZError (-6) "session is closed".
Definition ErrInvalidKeyExpr : ZError := mkZError (-7) "invalid or zero-value KeyExpr".
Definition ErrSessionNotReady : ZError := mkZError (-10) "session not ready".
Definition sentinels : list ZError :=
  [ErrNotImplemented; ErrAlreadyDropped; ErrConnectionLost; ErrPayloadTooLarge; ErrAllEndpointsFailed;
   ErrSessionClosed; ErrInvalidKeyExpr; ErrSessionNotReady].

(** The number in the message of an unknown reason is dropped. *)
Definition closeReasonText (reason : Z) : string :=
  match reason with
  | 0 => "generic"
  | 1 => "unsupported version or extension"
  | 2 => "invalid protocol state"
  | 3 => "max sessions reached"
  | 4 => "max links reached"
  | 5 => "session lease expired"
  | 6 => "peer unresponsive"
  | 7 => "connection to self"
  | _ => "unknown reason"
  end.

Definition CloseReasonError (reason : Z) : ZError :=
  mkZError (-100 - reason) ("peer closed session: " +:+ closeReasonText reason).

(** errors.Is tells the sentinels and the reasons of a CLOSE apart. *)
Lemma errors_told_apart e t : e ∈ sentinels ++ (CloseReasonError <$> seqZ 0 256) ->
  t ∈ sentinels ++ (CloseReasonError <$> seqZ 0 256) -> ZError_Is e t = true -> e = t.
Proof.
  intros He Ht Hi. apply Z.eqb_eq in Hi. revert He Ht. rewrite !elem_of_app, !list_elem_of_fmap.
  intros [He|(r & -> & Hr)] [Ht|(r' & -> & Hr')].
  - revert He Ht. unfold sentinels. rewrite !elem_of_cons, !elem_of_nil.
    intros He Ht. by repeat (destruct He as [->|He]; [by repeat (destruct Ht as [->|Ht]; [done|])|]).
  - apply elem_of_seqZ in Hr'. revert He. unfold sentinels. rewrite !elem_of_cons, elem_of_nil. cbn in Hi.
    intros He. exfalso. repeat (destruct He as [->|He]; [cbn in Hi; lia|]). done.
  - apply elem_of_seqZ in Hr. revert Ht. unfold sentinels. rewrite !elem_of_cons, elem_of_nil. cbn in Hi.
    intros Ht. exfalso. repeat (destruct Ht as [->|Ht]; [cbn in Hi; lia|]). done.
  - cbn in Hi. f_equal. lia.
Qed.

(** The reasons of a CLOSE reach into the codes that are said to be those of
    decoding errors. *)
Lemma close_reason_code_overlap : ze_Code (CloseReasonError 100) = -200.
Proof. done. Qed.

(** ** common.go *)

Definition Priority_IsValid (p : Z) : bool := p <=? 7.
Definition WhatAmI_IsValid (w : Z) : bool := w <=? Config.WhatAmIClient.

Definition Priority_String (p : Z) : string :=
  match p with
  | 0 => "Control" | 1 => "RealTime" | 2 => "InteractiveHigh" | 3 => "InteractiveLow"
  | 4 => "DataHigh" | 5 => "Data" | 6 => "DataLow" | 7 => "Background"
  | _ => "Priority(" +:+ pretty p +:+ ")"
  end.
Definition CongestionControl_String (c : Z) : string :=
  match c with 0 => "Drop" | 1 => "Block" | _ => "CongestionControl(" +:+ pretty c +:+ ")" end.
Definition WhatAmI_String (w : Z) : string :=
  match w with 0 => "Router" | 1 => "Peer" | 2 => "Client" | _ => "WhatAmI(" +:+ pretty w +:+ ")" end.
